(* ===== verification/_CoqProject ===== *)
-Q . S2P
Prelude.v
Types.v
Lace.v
Bytes.v
Crypto.v
LaceFacts.v
Samples.v
AncestorIndex.v
IndexFacts.v
Rounds.v
RoundFacts.v
Quorum.v
QuorumFacts.v
Cordiality.v
CordialityFacts.v
Finality.v
FinalityFacts.v
Xsort.v
XsortFacts.v
Ordering.v
OrderingFacts.v
ConsensusTheorems.v
LaceTheorems.v
Admission.v
AdmissionFacts.v
Dissemination.v
DisseminationFacts.v
ProtocolSamples.v
ProtocolTheorems.v
Evidence.v
EvidenceFacts.v
EvidenceTheorems.v
Pruning.v
PruningFacts.v
PruningTheorems.v
Payload.v
DeployPool.v
Runtime.v
ExecutionSamples.v
ExecutionTheorems.v
PorTypes.v
PorMath.v
PorMathFacts.v
PorCommit.v
PorAudit.v
PorAuditFacts.v
PorReplayFacts.v
PorState.v
PorStateFacts.v
PorCodec.v
PorCodecFacts.v
PorSamples.v
PorTheorems.v
FinalOutput.v
FinalOutputFacts.v
FinalOutputTheorems.v
RatingWire.v
RatingFlow.v
Collector.v
CollectorFacts.v
RatingFlowFacts.v
RatingRound.v
HonestFacts.v
RatingRoundFacts.v
RatingTheorems.v
Authorization.v
AuthorizationFacts.v
AuthorizationTheorems.v
Attestation.v
AttestationFacts.v
AttestationTheorems.v
Durable.v
DurableFacts.v
DurableTheorems.v
Live.v
LiveFacts.v
IngressFacts.v
LiveTheorems.v
App.v
AppTheorems.v
