(* ===== verification/Prelude.v ===== *)
(** * Cordial Miners and Proof-of-Reputation: verification library

    A model of the protocol logic of the workspace [cordial-f1r3node] and the
    theorems that make it correct.  The workspace has three layers, and the
    library follows them:

    - [crates/cordial-miners-core]: the blocklace (a DAG of signed blocks, one
      chain per honest validator), what may enter it, and the decisions taken
      on it without further messages: depth and waves, approval and
      ratification, final leaders, and the total order [tau] of the blocks;
    - [crates/cordial-por]: proof of reputation.  Ratings of one round are
      turned into the next list of reputations by a fixed-point pipeline,
      committed in a reputation block that every validator can replay, and
      projected to the weights the consensus uses in later waves;
    - [crates/cordial-f1r3node-adapter]: the glue of the two.  The finalized
      order opens rating rounds, finalized blocks are the evidence for
      ratings, ratings travel in signed envelopes, a round closes and drives
      the transition of the reputation state, and independently signed
      publications of a checkpoint block become an attested checkpoint.

    ** From source files to files of the library

    A file [X.v] holds data and operations; [XFacts.v] the lemmas; and
    [YTheorems.v] the properties of a group of components, each with a
    concrete instance ([..._witness]) evaluated on the inputs of
    [YSamples.v] or of a [Module] of samples.  A Rust module or [impl] block is a [Module] (or a [Section]
    when it has no name clashes), a struct a [Record] whose main type is
    called [t] inside its module, an enum an [Inductive] with the same
    constructors, and a method a [Definition] of the same name that takes
    [self] and returns the new [self] next to the result when the method takes
    [&mut self].

    Core crate ([src/] of cordial-miners-core):
    - [Types.v]: [types/*.rs], [block.rs];  [Crypto.v]: [crypto.rs];
    - [Lace.v]: [blocklace.rs];  [AncestorIndex.v]: [ancestor_index.rs];
    - [Rounds.v]: [consensus/round.rs], [consensus/wave.rs];
    - [Quorum.v]: [consensus/weight_snapshot.rs], [consensus/certificate.rs]
      and the fingerprints of [trace.rs];
    - [Cordiality.v]: [consensus/approval.rs], [consensus/cordiality.rs];
    - [Finality.v]: [consensus/finality.rs];
    - [Xsort.v], [Ordering.v]: [consensus/ordering.rs];
    - [Admission.v]: [consensus/validation.rs], [consensus/fork_choice.rs];
    - [Dissemination.v]: [consensus/dissemination.rs];
    - [Evidence.v]: [consensus/evidence.rs], [consensus/verified_evidence.rs];
    - [Pruning.v]: [consensus/pruning.rs];
    - [Payload.v], [DeployPool.v], [Runtime.v]: [execution/*.rs].

    Reputation crate ([src/] of cordial-por):
    - [PorTypes.v]: [types.rs], [config.rs], [error.rs];
    - [PorMath.v]: [ratings.rs], [matrix.rs], [normalization.rs],
      [liquid_rank.rs], [transition.rs], [clamp.rs], [penalties.rs];
    - [PorCommit.v]: [commitments.rs], the structure of [block.rs] and the
      validation of [evidence.rs]; the rest of [evidence.rs] is in
      [Authorization.v];
    - [PorAudit.v]: [audit.rs] and the construction of blocks in [block.rs];
    - [PorState.v]: [state.rs], [weights.rs], [interactions.rs];
    - [PorCodec.v]: the wire format of [block.rs], and [snapshot.rs].

    Adapter ([src/] of cordial-f1r3node-adapter):
    - [FinalOutput.v]: [ordered_output.rs], [por/finality.rs],
      [por/epoch_policy.rs];
    - [RatingWire.v]: [por/transport/wire.rs];
    - [RatingFlow.v]: [por/interactions.rs], [por/ratings.rs];
    - [Collector.v]: [por/collector.rs];
    - [RatingRound.v]: [por/lifecycle/{mod,quorum,cutoff}.rs],
      [por/transport/mod.rs], [por/transition.rs];
    - [Authorization.v]: [por/evidence.rs], [por/checkpoint_evidence.rs],
      [por/lifecycle/checkpoint.rs];
    - [Attestation.v]: [por/transport/reputation_block.rs],
      [por/checkpoint.rs];
    - [Durable.v]: [por/history.rs], [por/activation.rs] and the storage side
      of [por/persistence.rs], over a model of the disk;
    - [Live.v]: [live_ingress.rs] (mirror, polls, weights and epochs),
      [shared_ordered_output.rs], the ordering half of [snapshot.rs], the
      record of [por/epoch_record.rs], and the two operations of
      [por/persistence.rs] that hand weights to the ingress.  [LiveFacts.v] has
      the growth of a blocklace and the ordering cache, [IngressFacts.v] the
      invariant of the ingress;
    - [App.v]: the four [app_event_*.rs], the block messages of
      [block_translation.rs], and the crate [cordial-app-runtime].

    [Prelude.v] (this file) has the shared base: machine integers, the
    [result] type with its notation, iteration over hash sets, orders, sorted
    lists and the worklist search that several traversals share; [Bytes.v] has
    the byte cursor the decoders share.

    ** What the theorems show

    - [LaceTheorems]: insertion keeps the blocklace closed, acyclic and with
      one block per identity, if blocks of one identity have one content; the
      cached ancestor index is always that of the
      current blocklace; approval through its bit matrix is the definition by
      observation.
    - [ConsensusTheorems]: two incomparable final leaders of one creator imply
      that equivocators hold more than a third of the stake (or of the
      creators); the scan over a shared depth index finds the newest final
      leader that the direct test accepts;
      [tau] terminates, lists each approved block once, respects the pointed
      relation, and extends the output at the previous final leader; [xsort]
      fails exactly on cycles, for blocks without signature variants; an
      example shows that the cached variant of the code does not return the
      same order.
    - [ProtocolTheorems]: the result of validation on every branch, the chain
      axiom as an invariant of admission, proposals that pass the strict
      validation of their peers, the bound of the buffer of pending blocks and
      what a retry settles.
    - [EvidenceTheorems]: the walk over a history ends, verification accepts
      exactly the genuine equivocations, a rejected equivocation is provable, proof bytes round
      trip.
    - [PruningTheorems]: what a prune removes, when it fails, and that it
      keeps the order from the checkpoint on when nobody equivocates.
    - [ExecutionTheorems]: no deploy enters a chain of numbered blocks twice,
      payloads round trip.
    - [PorTheorems]: the replay computes the arithmetic specification node by
      node; the audit accepts exactly the blocks an honest producer builds;
      penalties; an ejection is permanent; reachable states are consistent;
      both codecs accept exactly what their encoders write.
    - [FinalOutputTheorems]: a checkpoint commits to its prefix, replayed
      outputs are prefixes, every wave opens one round.
    - [RatingTheorems]: the life of a round: authentic and complete ratings,
      exact quorum, completeness once everybody delivered, and a transition
      that passes its own audit.
    - [AuthorizationTheorems]: penalties name exactly the proven equivocators
      that the finalized window accuses, whatever the caller claims.
    - [AttestationTheorems]: publications are authenticated canonical bytes; a
      collector counts exactly the publications of the block its owner builds
      itself, and attests it exactly when attesters above the threshold
      confirmed it.
    - [DurableTheorems]: a round is committed whole or not at all, a failed
      write closes the owner, and every round that was acknowledged is there
      after any sequence of failures, kills, restarts and losses of power,
      short of the loss of a block that an earlier process left unsynced.
    - [LiveTheorems]: the mirror depends on the set of blocks that arrived and
      not on their order; a poll answers what the full computation answers,
      whatever is cached; published output is only extended; accepted weights
      never block publication, but with signed blocks and two validators none
      are accepted once a leader is published.
    - [AppTheorems]: an application that does not fail sees each of its
      finalized events once and in order, however often the growing output is
      polled.
    ** Integers, effects and order

    A [u64], [u128] or [usize] is an [N] (a [nat] where it is only an index or
    the length of a collection in memory) on a 64-bit target, so conversions
    between [u64] and [usize] do not fail.  Checked and saturating operations
    are written with their bound; the unchecked ones wrap as a release build
    does ([wrapping_add64], and the underflow of [DeployPool.v]).  [Result]
    is [result]; a panic or a path that does not return is [None] of an outer
    [option], and the theorems prove that it does not occur.

    The iteration order of [HashMap] and [HashSet] is unspecified in Rust: the
    class [HashOrder] picks one permutation for each use, theorems hold for
    every instance, and the witnesses use one.  [BTreeMap] and [BTreeSet]
    iterate in the order of the class [Ord].

    ** Fuel

    Loops that are not structurally recursive take fuel; each has a lemma that
    the fuel given is enough, so that the results below are about the code and
    not about a bound:
    - [Lace.traversal_fuel]: one more than the number of blocks; a breadth-first
      step without fuel left would need more distinct visited blocks;
    - [AncestorIndex.build_fuel]: a push and a pop for each block and edge;
    - [Rounds.depth_fuel]: a chain of pointers in an acyclic blocklace is not
      longer than the number of blocks, plus a missing end;
    - [Ordering.tau_fuel]: previous leaders are strictly older;
    - [Xsort.kahn_loop]: each step emits one block;
    - [Admission.reference_fuel], [DeployPool.scope_fuel],
      [Evidence.history_fuel]: the number of blocks (each stacked at most
      once before and once after its predecessors in the last one);
    - [Dissemination.retry_fuel]: each round of a retry settles a buffered
      block;
    - [PorMath.sqrt_fuel]: 64 halvings of a 64-bit interval.
    Binary searches of sorted slices are modelled by the documented contract
    of [binary_search_by].

    ** Parameters

    Code outside the repository is a class parameter: [CryptoVerifier] (the
    trait; its default implementation is in [Crypto.v]), [Blake2b],
    [Secp256k1] and [Secp256k1Sign], [Sha256], [HexCrate], [SerdeJson],
    [Bincode] (with its round trip [BincodeLaw] where used), and [Display] for the text of errors that is
    carried inside other errors.  Where a theorem needs that a hash does not
    collide it says so for the finitely many inputs concerned
    ([collision_free], [separates]), never for all byte strings.

    ** Representation choices

    The public map of the buffer of pending blocks is keyed by the identity of
    the block it holds.  The two rating collectors are one development over a
    record of their differences ([RatingPolicy]); an operation that fails
    leaves a collector as it was.  The evidence pool is modelled at the types
    the crate uses.  Logging, trace events and the feature [trace] are left
    out.  A reading of the clock is an argument.

    The disk of [Durable.v] is two directories of named files, with what is
    synced and what is not.  A machine has a budget of operations: the one
    that exceeds it fails, may leave a torn write, and no later one succeeds.
    A process that is killed leaves the machine as it is, what is not synced
    included, and the next one starts on it; a loss of power keeps a directory
    or loses all its unsynced changes.  A start does not sync the block history
    that it finds, so the theorem on crashes excludes the loss of a block file
    that no process synced before the one that found it.  The creation of the
    directories is part of the start state; poisoned locks, names that are not
    UTF-8 and entries that are not files do not occur.

    The live ingress of [Live.v] has no mapper, native index, shard
    configuration and deploy tracer: they translate what comes in, or only
    observe.  Its theorems are about blocks with a height that grows along
    their references (class [Heights]), which is what makes hashes acyclic.

    ** Not modelled

    - the TCP layer ([network/peer.rs], [network/node.rs]), the event sink of
      [trace.rs], the two hash and signature schemes of [crypto.rs] that only
      wrap external crates, and the test harness [simulation/];
    - in the adapter, what translates to the data types of an external node or
      serves them: [casper_adapter.rs], the translation functions of
      [block_translation.rs], the construction of snapshots in [snapshot.rs],
      [repository.rs], [shard_conf.rs], [crypto_bridge.rs], [slashing.rs],
      [tiered_slashing.rs], [runtime_bridge.rs], [rspace_runtime.rs],
      [proposer.rs], the deploy, HTTP and gRPC files, [native_live_runner.rs]
      and the command line tools; of [live_ingress.rs], the methods that call
      them;
    - of [por/], what generates keys, exchanges files or drives the other
      parts from a service loop: [local_ratings.rs], [checkpoint_ratings.rs],
      [rating_key.rs], [runtime.rs], [shadow.rs], [transport/channel.rs],
      [transport/file_exchange.rs], [transport/outbox.rs] and
      [transport/reputation_block_channel.rs]; of [epoch_record.rs], its
      store, which writes JSON;
    - the crate [cordial-f1r3space-adapter];
    - the texts of errors and [Display] output.
*)

From Stdlib Require Export NArith Lia.
From stdpp Require Export base gmap sets list sorting fin_maps vector relations.
From stdpp Require Import options.

#[export] Set Default Proof Using "Type*".

(** ** Machine integers

    A [u64] or [u128] value of the source is an [N]; every place where the
    source uses checked or wrapping arithmetic writes the width out. *)

Definition u64_max : N := 2 ^ 64 - 1.
Definition u128_max : N := 2 ^ 128 - 1.

Definition checked_add (max x y : N) : option N :=
  if decide (x + y <= max)%N then Some (x + y)%N else None.
Definition checked_mul (max x y : N) : option N :=
  if decide (x * y <= max)%N then Some (x * y)%N else None.
Definition checked_sub (x y : N) : option N :=
  if decide (y <= x)%N then Some (x - y)%N else None.
Definition wrapping_add64 (x y : N) : N := ((x + y) mod 2 ^ 64)%N.

Lemma checked_add_Some max x y z :
  checked_add max x y = Some z ↔ z = (x + y)%N ∧ (x + y <= max)%N.
Proof. unfold checked_add. case_decide; naive_solver. Qed.
Lemma checked_mul_Some max x y z :
  checked_mul max x y = Some z ↔ z = (x * y)%N ∧ (x * y <= max)%N.
Proof. unfold checked_mul. case_decide; naive_solver. Qed.
Lemma checked_sub_Some x y z :
  checked_sub x y = Some z ↔ z = (x - y)%N ∧ (y <= x)%N.
Proof. unfold checked_sub. case_decide; naive_solver. Qed.
Lemma checked_add_None max x y : checked_add max x y = None ↔ (max < x + y)%N.
Proof. unfold checked_add. case_decide; split; [done|lia|lia|done]. Qed.
Lemma checked_mul_None max x y : checked_mul max x y = None ↔ (max < x * y)%N.
Proof. unfold checked_mul. case_decide; split; [done|lia|lia|done]. Qed.
Lemma checked_sub_None x y : checked_sub x y = None ↔ (x < y)%N.
Proof. unfold checked_sub. case_decide; split; [done|lia|lia|done]. Qed.

Lemma checked_add_fits max x y : (x + y <= max)%N → checked_add max x y = Some (x + y)%N.
Proof. intros. by apply checked_add_Some. Qed.
Lemma checked_mul_fits max x y : (x * y <= max)%N → checked_mul max x y = Some (x * y)%N.
Proof. intros. by apply checked_mul_Some. Qed.

Lemma wrapping_add64_small x y : (x + y <= u64_max)%N → wrapping_add64 x y = (x + y)%N.
Proof. unfold wrapping_add64, u64_max. intros. apply N.mod_small. lia. Qed.

(** ** [Result] *)

Inductive result (A E : Type) : Type :=
  | Ok (x : A)
  | Err (e : E).
Arguments Ok {A E} x.
Arguments Err {A E} e.

#[export] Instance Ok_inj {A E} : Inj (=) (=) (@Ok A E).
Proof. by intros x y [= ->]. Qed.

Definition result_bind {A B E} (r : result A E) (k : A → result B E) : result B E :=
  match r with Ok x => k x | Err e => Err e end.
Definition map_err {A E F} (f : E → F) (r : result A E) : result A F :=
  match r with Ok x => Ok x | Err e => Err (f e) end.
(** [Option::ok_or]. *)
Definition ok_or {A E} (o : option A) (e : E) : result A E :=
  match o with Some x => Ok x | None => Err e end.
(** The [?] operator, and an early [return Err(e)] behind a condition. *)
Notation "'let?' x := r 'in' k" := (result_bind r (λ x, k))
  (at level 200, x pattern, r at level 100, k at level 200).
Notation "'bail' e 'when' P ; k" := (if decide P then Err e else k)
  (at level 200, e at level 9, P at level 100, k at level 200).

(** Reading a result that is known to be a success. *)
Definition is_ok {A E} (r : result A E) : bool := match r with Ok _ => true | Err _ => false end.
Definition or_default {A E} (d : A) (r : result A E) : A :=
  match r with Ok x => x | Err _ => d end.
Lemma or_default_Ok {A E} (d : A) (r : result A E) : is_ok r = true → r = Ok (or_default d r).
Proof. by destruct r. Qed.

(** [try_fold] and [map(..).collect::<Result<Vec<_>, _>>()]. *)
Fixpoint try_fold {A B E} (f : B → A → result B E) (acc : B) (l : list A) : result B E :=
  match l with
  | [] => Ok acc
  | x :: l => let? acc := f acc x in try_fold f acc l
  end.
Fixpoint try_map {A B E} (f : A → result B E) (l : list A) : result (list B) E :=
  match l with
  | [] => Ok []
  | x :: l => let? y := f x in let? ys := try_map f l in Ok (y :: ys)
  end.

Lemma result_bind_Ok {A B E} (r : result A E) (k : A → result B E) y :
  result_bind r k = Ok y ↔ ∃ x, r = Ok x ∧ k x = Ok y.
Proof. destruct r; simpl; naive_solver. Qed.
Lemma ok_or_Ok {A E} (o : option A) (e : E) x : ok_or o e = Ok x ↔ o = Some x.
Proof. destruct o; simpl; naive_solver. Qed.
Lemma map_err_Ok {A E F} (f : E → F) (r : result A E) x : map_err f r = Ok x ↔ r = Ok x.
Proof. destruct r; simpl; naive_solver. Qed.

Lemma bail_Ok {A E} (P : Prop) `{Decision P} (e : E) (k : result A E) x :
  (bail e when P; k) = Ok x ↔ ¬ P ∧ k = Ok x.
Proof. case_decide; naive_solver. Qed.

(** Takes a successful run apart: one hypothesis per [?] and per guard. *)
Ltac invert_Ok H :=
  repeat first
    [ let x := fresh "x" in let Hx := fresh "Hok" in
      apply result_bind_Ok in H as (x & Hx & H);
      try match type of x with unit => destruct x end
    | let Hn := fresh "Hguard" in apply bail_Ok in H as [Hn H] ].

(** Runs the computations whose results are known. *)
Ltac replay_Ok :=
  repeat match goal with
    | Hx : ?r = Ok _ |- context [result_bind ?r] => rewrite Hx; cbn [result_bind]
    end.

Lemma try_map_Ok {A B E} (f : A → result B E) l k :
  try_map f l = Ok k ↔ Forall2 (λ x y, f x = Ok y) l k.
Proof.
  revert k. induction l as [|x l IH]; intros k; simpl.
  - split; [intros [= <-]; constructor|]. intros Hf. by inversion Hf.
  - rewrite result_bind_Ok. setoid_rewrite result_bind_Ok. setoid_rewrite IH. split.
    + intros (y & Hy & ys & Hys & [= <-]). by constructor.
    + intros Hf. inversion Hf as [|? y ? ys]; subst. eauto.
Qed.
(** A validation pass returns its input. *)
Lemma try_map_check {A E} (f : A → result A E) l k :
  (∀ x y, f x = Ok y → y = x) →
  try_map f l = Ok k ↔ k = l ∧ ∀ x, x ∈ l → f x = Ok x.
Proof.
  intros Hf. rewrite try_map_Ok. split.
  - induction 1 as [|x y l k Hxy _ [-> IH]]; [by split; [|intros ? ?%elem_of_nil]|].
    apply Hf in Hxy as Ey. subst y. split; [done|]. intros z [->|?]%elem_of_cons; auto.
  - intros [-> Hl]. apply Forall2_same_length_lookup. split; [done|].
    intros i x y Hx Hy. simplify_eq. apply Hl. by eapply list_elem_of_lookup_2.
Qed.
Lemma check_all_Ok {A E} (check : A → result unit E) l :
  try_fold (λ _ x, check x) tt l = Ok tt ↔ ∀ x, x ∈ l → check x = Ok tt.
Proof.
  induction l as [|x l IH]; simpl; [by split; [intros _ ? ?%elem_of_nil|]|].
  rewrite result_bind_Ok. split.
  - intros ([] & Hx & Hl) y [->|Hy]%elem_of_cons; [done|]. by apply IH.
  - intros Hl. exists tt. split; [apply Hl; by left|]. apply IH. intros y ?. apply Hl. by right.
Qed.

(** ** Boolean quantifiers of iterators *)

Lemma forallb_true {A} (f : A → bool) l : forallb f l = true ↔ ∀ x, x ∈ l → f x = true.
Proof. rewrite forallb_forall. by setoid_rewrite list_elem_of_In. Qed.
Lemma existsb_true {A} (f : A → bool) l : existsb f l = true ↔ ∃ x, x ∈ l ∧ f x = true.
Proof. rewrite existsb_exists. by setoid_rewrite list_elem_of_In. Qed.
Lemma forallb_false {A} (f : A → bool) l : forallb f l = false ↔ ∃ x, x ∈ l ∧ f x = false.
Proof.
  induction l as [|x l IH]; simpl; [set_solver|]. rewrite andb_false_iff, IH. set_solver.
Qed.
Lemma existsb_false {A} (f : A → bool) l : existsb f l = false ↔ ∀ x, x ∈ l → f x = false.
Proof.
  induction l as [|x l IH]; simpl; [set_solver|]. rewrite orb_false_iff, IH. set_solver.
Qed.
Lemma bool_decide_true_iff (P : Prop) `{Decision P} : bool_decide P = true ↔ P.
Proof. apply bool_decide_eq_true. Qed.
Lemma bool_decide_false_iff (P : Prop) `{Decision P} : bool_decide P = false ↔ ¬ P.
Proof. apply bool_decide_eq_false. Qed.

(** A decidable proposition about concrete data, by evaluation. *)
Lemma decided (P : Prop) `{Decision P} : bool_decide P = true → P.
Proof. apply bool_decide_true_iff. Qed.
Ltac decided := refine (decided _ _); vm_compute; reflexivity.

(** Rewrites that turn the source's boolean guards into propositions. *)
Create HintDb guards.
#[export] Hint Rewrite @forallb_true @existsb_true @forallb_false @existsb_false
  bool_decide_true_iff bool_decide_false_iff andb_true_iff andb_false_iff orb_true_iff
  orb_false_iff negb_true_iff negb_false_iff : guards.
Ltac guards := autorewrite with guards.

(** ** The [Ord] trait

    Rust's [Ord]: a total comparison.  [#[derive(Ord)]] on a struct is the
    lexicographic order of its fields, [Vec<u8>] and arrays compare
    lexicographically. *)

Class Ord (A : Type) := {
  cmp : A → A → comparison;
  cmp_eq : ∀ x y, cmp x y = Eq ↔ x = y;
  cmp_antisym : ∀ x y, cmp y x = CompOpp (cmp x y);
  cmp_lt_trans : ∀ x y z, cmp x y = Lt → cmp y z = Lt → cmp x z = Lt
}.

(** [Ordering::then_with]. *)
Definition then_with (c d : comparison) : comparison :=
  match c with Eq => d | _ => c end.

Definition ord_lt `{Ord A} (x y : A) : Prop := cmp x y = Lt.
Definition ord_le `{Ord A} (x y : A) : Prop := cmp x y ≠ Gt.

Section ord.
Context `{Ord A}.
Implicit Types x y z : A.

#[export] Instance comparison_eq_dec : EqDecision comparison.
Proof. solve_decision. Defined.
#[export] Instance ord_lt_dec : RelDecision (ord_lt (A:=A)).
Proof. intros x y. unfold ord_lt. apply _. Defined.
#[export] Instance ord_le_dec : RelDecision (ord_le (A:=A)).
Proof. intros x y. unfold ord_le. apply _. Defined.

Lemma cmp_refl x : cmp x x = Eq.
Proof. by apply cmp_eq. Qed.
Lemma ord_lt_irrefl x : ¬ ord_lt x x.
Proof. unfold ord_lt. by rewrite cmp_refl. Qed.
Lemma ord_le_lt_eq x y : ord_le x y ↔ ord_lt x y ∨ x = y.
Proof.
  unfold ord_le, ord_lt. destruct (cmp x y) eqn:E; try apply cmp_eq in E; subst.
  - naive_solver.
  - naive_solver.
  - split; [done|]. intros [?| ->]; [done|]. by rewrite cmp_refl in E.
Qed.
Lemma ord_lt_gt x y : cmp x y = Gt ↔ ord_lt y x.
Proof. unfold ord_lt. rewrite (cmp_antisym x y). by destruct (cmp x y). Qed.
Lemma not_ord_lt x y : ¬ ord_lt x y ↔ ord_le y x.
Proof.
  unfold ord_lt, ord_le. rewrite (cmp_antisym x y). destruct (cmp x y); naive_solver.
Qed.
Lemma ord_trichotomy x y : ord_lt x y ∨ x = y ∨ ord_lt y x.
Proof.
  destruct (cmp x y) eqn:E; [right; left; by apply cmp_eq|by left|].
  right; right. by apply ord_lt_gt.
Qed.

#[export] Instance ord_lt_strict : StrictOrder (ord_lt (A:=A)).
Proof. split; [exact ord_lt_irrefl|exact cmp_lt_trans]. Qed.
#[export] Instance ord_le_po : PartialOrder (ord_le (A:=A)).
Proof.
  repeat split.
  - intros x. unfold ord_le. by rewrite cmp_refl.
  - intros x y z. rewrite !ord_le_lt_eq. intros [?| ->] [?| ->]; auto.
    left. by trans y.
  - intros x y. rewrite !ord_le_lt_eq. intros [Hxy| ->] [Hyx|]; auto.
    exfalso. apply (ord_lt_irrefl x). by trans y.
Qed.
#[export] Instance ord_le_total : Total (ord_le (A:=A)).
Proof.
  intros x y. rewrite !ord_le_lt_eq.
  destruct (ord_trichotomy x y) as [?|[?|?]]; auto.
Qed.
End ord.

(** Comparison through an injective key, as [sort_by_key] or a newtype. *)
Program Definition ord_by `{Ord B} {A} (f : A → B) (Hf : Inj (=) (=) f) : Ord A :=
  {| cmp x y := cmp (f x) (f y) |}.
Next Obligation. intros. rewrite cmp_eq. split; [apply Hf|congruence]. Qed.
Next Obligation. intros. apply cmp_antisym. Qed.
Next Obligation. intros until z. apply cmp_lt_trans. Qed.

#[export] Program Instance N_ord : Ord N := {| cmp := N.compare |}.
Next Obligation. intros. apply N.compare_eq_iff. Qed.
Next Obligation. intros. apply N.compare_antisym. Qed.
Next Obligation. simpl. intros x y z. rewrite !N.compare_lt_iff. lia. Qed.

#[export] Program Instance prod_ord `{Ord A, Ord B} : Ord (A * B) :=
  {| cmp x y := then_with (cmp x.1 y.1) (cmp x.2 y.2) |}.
Next Obligation.
  intros A ? B ? [x1 x2] [y1 y2]; simpl.
  pose proof (cmp_eq x1 y1). pose proof (cmp_eq x2 y2).
  destruct (cmp x1 y1), (cmp x2 y2); naive_solver.
Qed.
Next Obligation.
  intros A ? B ? [x1 x2] [y1 y2]; simpl.
  rewrite (cmp_antisym x1 y1), (cmp_antisym x2 y2). by destruct (cmp x1 y1).
Qed.
Next Obligation.
  intros A ? B ? [x1 x2] [y1 y2] [z1 z2]; simpl.
  intros H1 H2.
  destruct (cmp x1 y1) eqn:E1; simpl in H1; try done;
    destruct (cmp y1 z1) eqn:E2; simpl in H2; try done.
  - apply cmp_eq in E1 as ->, E2 as ->. rewrite cmp_refl. by eapply cmp_lt_trans.
  - apply cmp_eq in E1 as ->. by rewrite E2.
  - apply cmp_eq in E2 as ->. by rewrite E1.
  - by rewrite (cmp_lt_trans _ _ _ E1 E2).
Qed.

Fixpoint list_cmp `{Ord A} (l k : list A) : comparison :=
  match l, k with
  | [], [] => Eq
  | [], _ :: _ => Lt
  | _ :: _, [] => Gt
  | x :: l, y :: k => then_with (cmp x y) (list_cmp l k)
  end.

#[export] Program Instance list_ord `{Ord A} : Ord (list A) := {| cmp := list_cmp |}.
Next Obligation.
  intros A ? l. induction l as [|x l IH]; intros [|y k]; simpl; try done.
  pose proof (cmp_eq x y). specialize (IH k).
  destruct (cmp x y), (list_cmp l k); naive_solver.
Qed.
Next Obligation.
  intros A ? l. induction l as [|x l IH]; intros [|y k]; simpl; try done.
  rewrite (cmp_antisym x y), IH. by destruct (cmp x y).
Qed.
Next Obligation.
  intros A ? l. simpl. induction l as [|x l IH]; intros [|y k] [|z m]; simpl; try done.
  intros H1 H2.
  destruct (cmp x y) eqn:E1; simpl in H1; try done;
    destruct (cmp y z) eqn:E2; simpl in H2; try done.
  - apply cmp_eq in E1 as ->, E2 as ->. rewrite cmp_refl. by eapply IH.
  - apply cmp_eq in E1 as ->. by rewrite E2.
  - apply cmp_eq in E2 as ->. by rewrite E1.
  - by rewrite (cmp_lt_trans _ _ _ E1 E2).
Qed.

#[export] Instance vec_to_list_inj' A n : Inj (=) (=) (@vec_to_list A n).
Proof. intros v w. apply vec_to_list_inj2. Qed.
#[export] Instance vec_ord `{Ord A} n : Ord (vec A n) := ord_by vec_to_list _.

(** [slice::sort]: the stable merge sort by [ord_le]; [slice::sort_by_key]. *)
Definition sort `{Ord A} (l : list A) : list A := merge_sort ord_le l.
Definition sort_by_key `{Ord B} {A} (key : A → B) (l : list A) : list A :=
  merge_sort (λ x y, ord_le (key x) (key y)) l.

Lemma sort_perm `{Ord A} (l : list A) : sort l ≡ₚ l.
Proof. apply merge_sort_Permutation. Qed.
Lemma sort_sorted `{Ord A} (l : list A) : StronglySorted ord_le (sort l).
Proof. apply (StronglySorted_merge_sort ord_le). Qed.
Lemma sort_proper `{Ord A} (l k : list A) : l ≡ₚ k → sort l = sort k.
Proof.
  intros E. apply (StronglySorted_unique ord_le); auto using sort_sorted.
  by rewrite !sort_perm.
Qed.
#[export] Instance sort_Proper `{Ord A} : Proper ((≡ₚ) ==> (=)) (sort (A:=A)).
Proof. intros l k. apply sort_proper. Qed.

Lemma sort_by_key_perm `{Ord B} {A} (key : A → B) l : sort_by_key key l ≡ₚ l.
Proof. apply merge_sort_Permutation. Qed.
Lemma sort_by_key_sorted `{Ord B} {A} (key : A → B) l :
  StronglySorted (λ x y, ord_le (key x) (key y)) (sort_by_key key l).
Proof.
  unshelve eapply (StronglySorted_merge_sort (λ x y, ord_le (key x) (key y))).
  - intros x y z. apply (transitivity (R := ord_le)).
  - intros x y. apply total. apply _.
Qed.

(** [slice::sort_by]: the stable merge sort by a comparison. *)
Definition sort_by {A} (compare : A → A → comparison) (l : list A) : list A :=
  merge_sort (λ x y, compare x y ≠ Gt) l.
Lemma sort_by_perm {A} (compare : A → A → comparison) l : sort_by compare l ≡ₚ l.
Proof. apply merge_sort_Permutation. Qed.

(** A filter that keeps nothing. *)
Lemma filter_nil_iff {A} (P : A → Prop) `{∀ x, Decision (P x)} l :
  filter P l = [] ↔ ∀ x, x ∈ l → ¬ P x.
Proof.
  induction l as [|x l IH]; [by split; [intros _ ? ?%elem_of_nil|]|].
  rewrite filter_cons. case_decide as Hx.
  - split; [done|]. intros Hall. exfalso. by apply (Hall x); [left|].
  - rewrite IH. set_solver.
Qed.

(** Counting by a filter. *)
Lemma length_filter_mono {A} (P Q : A → Prop) `{∀ x, Decision (P x), ∀ x, Decision (Q x)} l :
  (∀ x, x ∈ l → P x → Q x) → length (filter P l) ≤ length (filter Q l).
Proof.
  induction l as [|x l IH]; intros HPQ; [done|]. rewrite !filter_cons.
  assert (length (filter P l) ≤ length (filter Q l)) by (apply IH; intros y ?; apply HPQ; by right).
  destruct (decide (P x)), (decide (Q x)); simpl; try lia.
  exfalso. assert (Q x) by (apply HPQ; [by left|done]). done.
Qed.
Lemma length_filter_strict {A} (P Q : A → Prop) `{∀ x, Decision (P x), ∀ x, Decision (Q x)} l y :
  (∀ x, x ∈ l → P x → Q x) → y ∈ l → ¬ P y → Q y →
  length (filter P l) < length (filter Q l).
Proof.
  intros HPQ Hy HP HQ. induction l as [|x l IH]; [by apply elem_of_nil in Hy|].
  assert (∀ z, z ∈ l → P z → Q z) as HPQ' by (intros z ?; apply HPQ; by right).
  rewrite !filter_cons. apply elem_of_cons in Hy as [->|Hy].
  - rewrite decide_False, decide_True by done. simpl.
    pose proof (length_filter_mono P Q l HPQ'). lia.
  - specialize (IH HPQ' Hy). assert (P x → Q x) by (apply HPQ; by left).
    destruct (decide (P x)), (decide (Q x)); simpl; try lia. tauto.
Qed.

Lemma length_filter_ext {A} (P Q : A → Prop) `{∀ x, Decision (P x), ∀ x, Decision (Q x)} l :
  (∀ x, x ∈ l → P x ↔ Q x) → length (filter P l) = length (filter Q l).
Proof. intros HPQ. apply Nat.le_antisymm; apply length_filter_mono; intros x Hx; by apply HPQ. Qed.
Lemma length_filter_fmap {A B} (f : A → B) (P : B → Prop) `{∀ x, Decision (P x)} l :
  length (filter P (f <$> l)) = length (filter (λ x, P (f x)) l).
Proof.
  induction l as [|x l IH]; [done|]. rewrite fmap_cons, !filter_cons.
  destruct (decide (P (f x))); by rewrite ?length_cons, IH.
Qed.

(** ** Checked sums

    [try_fold(0, |total, w| total.checked_add(w))]: the sum when it fits. *)

Definition checked_sum (max : N) (l : list N) : option N :=
  foldl (λ acc w, acc ← acc; checked_add max acc w) (Some 0%N) l.
Definition sum_N (l : list N) : N := foldr N.add 0%N l.

Lemma checked_sum_Some max l t :
  checked_sum max l = Some t ↔ t = sum_N l ∧ (sum_N l <= max)%N.
Proof.
  unfold checked_sum. enough (∀ a, (a <= max)%N →
    foldl (λ acc w, acc ← acc; checked_add max acc w) (Some a) l = Some t ↔
    t = (a + sum_N l)%N ∧ (a + sum_N l <= max)%N) as Hgen by (rewrite Hgen by lia; by rewrite N.add_0_l).
  induction l as [|w l IH]; intros a Ha; simpl.
  { split; [intros [= ->]; lia|intros [-> _]; f_equal; lia]. }
  unfold checked_add at 2. case_decide as Hd.
  - rewrite IH by done. rewrite N.add_assoc. done.
  - split; [|lia]. intros E. exfalso. clear -E. induction l; simpl in *; [done|auto].
Qed.
Lemma sum_N_perm l k : l ≡ₚ k → sum_N l = sum_N k.
Proof. induction 1; simpl; lia. Qed.
#[export] Instance sum_N_Proper : Proper ((≡ₚ) ==> (=)) sum_N.
Proof. intros l k. apply sum_N_perm. Qed.
Lemma checked_sum_perm max l k : l ≡ₚ k → checked_sum max l = checked_sum max k.
Proof.
  intros E. apply option_eq. intros t. by rewrite !checked_sum_Some, (sum_N_perm _ _ E).
Qed.
Lemma sum_N_app l k : sum_N (l ++ k) = (sum_N l + sum_N k)%N.
Proof. induction l; simpl; lia. Qed.

(** The weight of a set of keys. *)
Definition set_weight `{Countable A} (f : A → N) (X : gset A) : N := sum_N (map f (elements X)).

Section set_weight.
Context `{Countable A} (f : A → N).
Implicit Types X Y : gset A.

Lemma set_weight_empty : set_weight f ∅ = 0%N.
Proof. unfold set_weight. by rewrite elements_empty. Qed.
Lemma set_weight_disj_union X Y :
  X ## Y → set_weight f (X ∪ Y) = (set_weight f X + set_weight f Y)%N.
Proof.
  intros Hd. unfold set_weight. rewrite <-sum_N_app, <-map_app.
  apply sum_N_perm. apply (fmap_Permutation f). by apply elements_disj_union.
Qed.
Lemma set_weight_singleton x : set_weight f {[x]} = f x.
Proof. unfold set_weight. rewrite elements_singleton. simpl. lia. Qed.
Lemma set_weight_mono X Y : X ⊆ Y → (set_weight f X <= set_weight f Y)%N.
Proof.
  intros Hs. rewrite (union_difference_L X Y) by done.
  rewrite set_weight_disj_union by set_solver. lia.
Qed.
Lemma set_weight_split X Y :
  set_weight f X = (set_weight f (X ∩ Y) + set_weight f (X ∖ Y))%N.
Proof.
  rewrite <-set_weight_disj_union by set_solver. f_equal. apply set_eq. intros x.
  destruct (decide (x ∈ Y)); set_solver.
Qed.
Lemma set_weight_inter X Y :
  (set_weight f X + set_weight f Y = set_weight f (X ∪ Y) + set_weight f (X ∩ Y))%N.
Proof.
  assert (X ∪ Y = Y ∪ X ∖ Y) as ->.
  { apply set_eq. intros x. destruct (decide (x ∈ Y)); set_solver. }
  rewrite (set_weight_disj_union Y (X ∖ Y)) by set_solver.
  pose proof (set_weight_split X Y). lia.
Qed.
End set_weight.

Lemma set_weight_le `{Countable A} (f g : A → N) (X : gset A) :
  (∀ x, x ∈ X → (f x <= g x)%N) → (set_weight f X <= set_weight g X)%N.
Proof.
  unfold set_weight. setoid_rewrite <-elem_of_elements.
  induction (elements X) as [|x l IH]; simpl; [lia|]. intros Hfg.
  pose proof (Hfg x ltac:(by left)). assert (∀ y, y ∈ l → (f y <= g y)%N) by set_solver.
  specialize (IH ltac:(done)). lia.
Qed.

(** ** Iterators over numbers *)

(** [start..=end]. *)
Definition range_incl (first last : N) : list N :=
  map (λ i, first + N.of_nat i)%N (seq 0 (N.to_nat (last + 1 - first))).
(** [Iterator::max]. *)
Definition iter_max (l : list N) : option N :=
  match l with [] => None | x :: l => Some (foldl N.max x l) end.

Lemma elem_of_range_incl first last x :
  x ∈ range_incl first last ↔ (first <= x <= last)%N.
Proof.
  unfold range_incl. rewrite list_elem_of_fmap. setoid_rewrite elem_of_seq. split.
  - intros (i & -> & ?). lia.
  - intros ?. exists (N.to_nat (x - first)). lia.
Qed.
Lemma range_incl_succ n : range_incl 0 (N.succ n) = range_incl 0 n ++ [N.succ n].
Proof.
  unfold range_incl. replace (N.to_nat (N.succ n + 1 - 0)) with (S (N.to_nat (n + 1 - 0))) by lia.
  rewrite seq_S, map_app. f_equal. simpl. f_equal. lia.
Qed.
(** [(0..=n).rev().find(f)] returns the largest hit. *)
Lemma find_down (f : N → bool) n y :
  List.find f (reverse (range_incl 0 n)) = Some y ↔
  f y = true ∧ (y <= n)%N ∧ ∀ x, (y < x <= n)%N → f x = false.
Proof.
  induction n as [|n IH] using N.peano_ind.
  - replace (range_incl 0 0) with [0%N] by done. simpl. destruct (f 0%N) eqn:E.
    + split; [intros [= <-]|]; [split_and!; [done|lia|]; intros; lia|].
      intros (_ & ? & _). f_equal. lia.
    + split; [done|]. intros (Hy & ? & _). assert (y = 0%N) as -> by lia. congruence.
  - rewrite range_incl_succ, reverse_app. simpl. destruct (f (N.succ n)) eqn:E.
    + split; [intros [= <-]; split_and!; [done|lia|]; intros; lia|].
      intros (_ & Hy & Hx). destruct (decide (y = N.succ n)) as [->|Hne]; [done|].
      rewrite Hx in E by lia. done.
    + rewrite IH. split.
      * intros (Hf & Hy & Hx). split_and!; [done|lia|]. intros x ?.
        destruct (decide (x = N.succ n)) as [->|]; [done|]. apply Hx. lia.
      * intros (Hf & Hy & Hx). assert (y ≠ N.succ n) by congruence.
        split_and!; [done|lia|]. intros x ?. apply Hx. lia.
Qed.
Lemma NoDup_range_incl first last : NoDup (range_incl first last).
Proof. unfold range_incl. apply NoDup_fmap_2_strong; [intros; lia|apply NoDup_seq]. Qed.
Lemma foldl_max_spec x l :
  (∀ y, y ∈ x :: l → (y <= foldl N.max x l)%N) ∧ foldl N.max x l ∈ x :: l.
Proof.
  revert x. induction l as [|y l IH]; intros x; simpl.
  { split; [|by left]. intros y ->%list_elem_of_singleton. done. }
  destruct (IH (N.max x y)) as [IH1 IH2]. split.
  - intros z [->|[->|Hz]%elem_of_cons]%elem_of_cons.
    + etrans; [|apply IH1; by left]. lia.
    + etrans; [|apply IH1; by left]. lia.
    + apply IH1. by right.
  - apply elem_of_cons in IH2 as [->|?]; [|by do 2 right].
    destruct (N.max_spec x y) as [[_ ->]|[_ ->]]; [right|]; by left.
Qed.
Lemma iter_max_Some l m : iter_max l = Some m ↔ m ∈ l ∧ ∀ y, y ∈ l → (y <= m)%N.
Proof.
  destruct l as [|x l]; simpl; [split; [done|by intros [?%elem_of_nil _]]|].
  destruct (foldl_max_spec x l) as [H1 H2]. split.
  - by intros [= <-].
  - intros [Hm Hall]. f_equal. apply N.le_antisymm; auto.
Qed.
Lemma iter_max_None l : iter_max l = None ↔ l = [].
Proof. by destruct l. Qed.

(** A [BTreeSet] is a [gset] whose iteration is sorted. *)
Definition btree_iter `{Ord A, Countable A} (X : gset A) : list A := sort (elements X).

Lemma elem_of_btree_iter `{Ord A, Countable A} (X : gset A) x :
  x ∈ btree_iter X ↔ x ∈ X.
Proof. unfold btree_iter. by rewrite sort_perm, elem_of_elements. Qed.

(** A [BTreeMap] is a [gmap] iterated in key order. *)
Definition btree_map_iter `{Ord K, Countable K} {V} (m : gmap K V) : list (K * V) :=
  sort_by_key fst (map_to_list m).

(** [BTreeSet::len() == Vec::len()] and the like: a collected list. *)
Lemma size_list_to_set_NoDup `{Countable A} (l : list A) :
  size (list_to_set l : gset A) = length l ↔ NoDup l.
Proof.
  induction l as [|x l IH]; simpl; [by split; constructor|].
  rewrite NoDup_cons. destruct (decide (x ∈ l)) as [Hx|Hx].
  - rewrite (subseteq_union_1_L {[x]}) by set_solver.
    assert (size (list_to_set l : gset A) ≤ length l) as Hle.
    { clear. induction l as [|y l IH]; simpl; [done|].
      pose proof (size_union_alt {[y]} (list_to_set l : gset A)) as Hu.
      rewrite Hu, size_singleton.
      assert (size (list_to_set l ∖ {[y]} : gset A) ≤ size (list_to_set l : gset A))
        by (apply subseteq_size; set_solver). lia. }
    split; [lia|]. tauto.
  - rewrite size_union by set_solver. rewrite size_singleton.
    split; [intros; split; [done|]; apply IH; lia|]. intros [_ ?%IH]. lia.
Qed.

(** ** Iteration order of hash tables

    [HashSet] and [HashMap] iterate in an unspecified order.  Every function
    of the source that iterates one takes the order as a parameter; a theorem
    about such a function therefore holds for every order. *)

Class HashOrder := {
  hash_iter : ∀ {A} `{Countable A}, gset A → list A;
  hash_iter_perm : ∀ {A} `{Countable A} (X : gset A), hash_iter X ≡ₚ elements X
}.

(** Two admissible orders, used to evaluate the model on concrete inputs. *)
Definition elements_order : HashOrder :=
  {| hash_iter A _ _ X := elements X; hash_iter_perm A _ _ X := reflexivity (elements X) |}.
Definition reverse_order : HashOrder :=
  {| hash_iter A _ _ X := reverse (elements X);
     hash_iter_perm A _ _ X := reverse_Permutation (elements X) |}.

Section hash_order.
Context `{HO : HashOrder} `{Countable A}.
Implicit Types X : gset A.

Lemma elem_of_hash_iter X x : x ∈ hash_iter X ↔ x ∈ X.
Proof. by rewrite hash_iter_perm, elem_of_elements. Qed.
Lemma NoDup_hash_iter X : NoDup (hash_iter X).
Proof. rewrite hash_iter_perm. apply NoDup_elements. Qed.
Lemma length_hash_iter X : length (hash_iter X) = size X.
Proof. by rewrite hash_iter_perm. Qed.
End hash_order.

(** Iteration over the entries of a [HashMap]. *)
Definition map_iter `{HashOrder} `{Countable K} {V} (m : gmap K V) : list (K * V) :=
  omap (λ k, (λ v, (k, v)) <$> m !! k) (hash_iter (dom m)).

Lemma elem_of_map_iter `{HashOrder} `{Countable K} {V} (m : gmap K V) k v :
  (k, v) ∈ map_iter m ↔ m !! k = Some v.
Proof.
  unfold map_iter. rewrite list_elem_of_omap. split.
  - intros (k' & _ & E). destruct (m !! k') eqn:E'; naive_solver.
  - intros E. exists k. rewrite elem_of_hash_iter, elem_of_dom, E. eauto.
Qed.

Lemma hash_iter_empty `{HashOrder} `{Countable A} : hash_iter (∅ : gset A) = [].
Proof. apply Permutation_nil_r. by rewrite hash_iter_perm, elements_empty. Qed.
Lemma map_iter_empty `{HashOrder} `{Countable K} {V} : map_iter (∅ : gmap K V) = [].
Proof. unfold map_iter. by rewrite dom_empty_L, hash_iter_empty. Qed.

(** ** Graph traversal with a worklist

    The [while let Some(x) = queue.pop()] loops of the source: every popped
    node marks its unvisited successors and pushes them.  [push] is where they
    go: the end of a [Vec] that is popped from the end, or the back of a
    [VecDeque] popped from the front. *)

Section worklist.
Context `{Countable A}.
Implicit Types (x y : A) (X visited : gset A) (queue : list A).

Definition push_stack x queue : list A := x :: queue.
Definition push_queue x queue : list A := queue ++ [x].

Definition mark (push : A → list A → list A) (acc : gset A * list A) (r : A) :
    gset A * list A :=
  if decide (r ∈ acc.1) then acc else ({[r]} ∪ acc.1, push r acc.2).

Fixpoint worklist (succs : A → list A) (push : A → list A → list A)
    (fuel : nat) visited queue : option (gset A) :=
  match queue with
  | [] => Some visited
  | x :: queue =>
    match fuel with
    | O => None
    | S fuel =>
      let acc := foldl (mark push) (visited, queue) (succs x) in
      worklist succs push fuel acc.1 acc.2
    end
  end.

Variable succs : A → list A.
Variable push : A → list A → list A.
Hypothesis push_perm : ∀ x q, push x q ≡ₚ x :: q.

Definition edge : relation A := λ x y, y ∈ succs x.

Lemma foldl_mark rs visited queue :
  let acc := foldl (mark push) (visited, queue) rs in
  (∀ y, y ∈ acc.1 ↔ y ∈ visited ∨ y ∈ rs) ∧
  (∀ y, y ∈ acc.2 ↔ y ∈ queue ∨ (y ∈ rs ∧ y ∉ visited)) ∧
  length acc.2 + size visited = length queue + size acc.1.
Proof.
  revert visited queue. induction rs as [|r rs IH]; intros visited queue; simpl.
  { set_solver. }
  destruct (decide (r ∈ visited)) as [Hr|Hr].
  - replace (mark push (visited, queue) r) with (visited, queue)
      by (unfold mark; by rewrite decide_True).
    destruct (IH visited queue) as (H1 & H2 & H3). split_and!; [..|done];
      intros y; rewrite ?H1, ?H2; set_solver.
  - replace (mark push (visited, queue) r) with ({[r]} ∪ visited, push r queue)
      by (unfold mark; by rewrite decide_False).
    destruct (IH ({[r]} ∪ visited) (push r queue)) as (H1 & H2 & H3). split_and!.
    + intros y. rewrite H1. set_solver.
    + intros y. rewrite H2, push_perm.
      destruct (decide (y = r)) as [->|]; set_solver.
    + pose proof (Permutation_length (push_perm r queue)) as Hlen. simpl in Hlen.
      rewrite size_union, size_singleton in H3 by set_solver. lia.
Qed.

(** Nodes already marked are either waiting or completely expanded. *)
Definition worklist_inv visited queue : Prop :=
  ∀ x y, x ∈ visited → edge x y → x ∈ queue ∨ y ∈ visited.

Lemma worklist_sound fuel visited queue X :
  worklist succs push fuel visited queue = Some X → worklist_inv visited queue →
  ∀ y, y ∈ X ↔ y ∈ visited ∨ ∃ x, x ∈ queue ∧ tc edge x y.
Proof.
  revert visited queue. induction fuel as [|fuel IH]; intros visited [|x queue] E Hinv;
    simpl in E; simplify_eq.
  { intros y. set_solver. }
{ intros y. set_solver. }
  destruct (foldl_mark (succs x) visited queue) as (H1 & H2 & _).
  set (acc := foldl (mark push) (visited, queue) (succs x)) in *.
  assert (worklist_inv acc.1 acc.2) as Hinv'.
  { intros a b Ha Hab. rewrite H1 in Ha. rewrite !H1, H2.
      destruct (decide (a ∈ visited)) as [Hv|Hv].
      - destruct (Hinv a b Hv Hab) as [[->|?]%elem_of_cons|?]; [|by left; left|by right; left].
        right; right. exact Hab.
      - destruct Ha as [?|Ha]; [done|]. left; right. done. }
  intros y. rewrite (IH _ _ E Hinv' y), H1. split.
  - intros [[?|Hy]|(a & Ha & Hay)]; [by left|..].
    + right. exists x. split; [by left|]. by apply tc_once.
    + rewrite H2 in Ha. destruct Ha as [Ha|[Ha _]]; right.
      * exists a. split; [by right|done].
      * exists x. split; [by left|]. eapply tc_l; [|exact Hay]. exact Ha.
  - intros [?|(a & Ha & Hay)]; [by do 2 left|].
    apply elem_of_cons in Ha as [->|Ha].
    2:{ right. exists a. rewrite H2. eauto. }
    clear IH E. assert (∀ b, edge x b → b ∈ acc.1) as Hx.
    { intros b Hb. rewrite H1. by right. }
    assert (∀ c d, c ∈ acc.1 → tc edge c d → d ∈ acc.1 ∨ ∃ q, q ∈ acc.2 ∧ tc edge q d) as Hcl.
    { intros c d Hc Hcd. revert Hc. induction Hcd as [c d Hcd|c m d Hcm Hmd IH]; intros Hc.
      - destruct (decide (c ∈ acc.2)) as [|Hn]; [right; eauto using tc_once|].
        left. rewrite H1 in Hc |- *. rewrite H2 in Hn.
        destruct (decide (c ∈ visited)) as [Hv|Hv]; [|naive_solver].
        destruct (Hinv c d Hv Hcd) as [[->|?]%elem_of_cons|?]; [by right|naive_solver|by left].
      - destruct (decide (c ∈ acc.2)) as [|Hn]; [right; exists c; eauto using tc_l|].
        apply IH. rewrite H1 in Hc |- *. rewrite H2 in Hn.
        destruct (decide (c ∈ visited)) as [Hv|Hv]; [|naive_solver].
        destruct (Hinv c m Hv Hcm) as [[->|?]%elem_of_cons|?]; [by right|naive_solver|by left]. }
    inversion Hay as [? ? Hstep|? m ? Hstep Hrest]; subst.
    + left. apply H1, Hx, Hstep.
    + destruct (Hcl m y (Hx _ Hstep) Hrest) as [Hy|?]; [left; by apply H1|by right].
Qed.

(** Enough fuel: one pop per initial entry and one per node of [U]. *)
Lemma worklist_terminates (U : gset A) fuel visited queue :
  (∀ x y, edge x y → y ∈ U) → visited ⊆ U →
  length queue + (size U - size visited) ≤ fuel →
  is_Some (worklist succs push fuel visited queue).
Proof.
  intros HU. revert visited queue.
  induction fuel as [|fuel IH]; intros visited [|x queue] Hsub Hfuel; simpl in *; eauto; [lia|].
  destruct (foldl_mark (succs x) visited queue) as (H1 & _ & H3).
  set (acc := foldl (mark push) (visited, queue) (succs x)) in *.
  assert (acc.1 ⊆ U) as HsubU.
  { intros y. rewrite H1. intros [?|?]; [auto|]. by apply (HU x). }
  apply IH; [done|]. apply subseteq_size in HsubU, Hsub.
  assert (size visited ≤ size acc.1) by (apply subseteq_size; set_solver). lia.
Qed.
End worklist.

Lemma push_stack_perm {A} (x : A) q : push_stack x q ≡ₚ x :: q.
Proof. done. Qed.
Lemma push_queue_perm {A} (x : A) q : push_queue x q ≡ₚ x :: q.
Proof. unfold push_queue. by rewrite Permutation_app_comm. Qed.

(** ** Traversals that mark a node when it is popped

    [while let Some(x) = queue.pop() { if !visited.insert(x) { continue } .. }]:
    the same node may wait several times in the queue.  [name] is the lookup
    that a popped reference goes through first.  The result is the list of the
    visited nodes, in order. *)

Section pop_worklist.
Context `{Countable A}.
Implicit Types (x y : A) (visited : gset A) (queue : list A).

Definition push_unvisited visited queue (rs : list A) : list A :=
  foldl (λ queue r, if decide (r ∈ visited) then queue else r :: queue) queue rs.

Fixpoint pop_worklist (name : A → option A) (succs : A → list A) (fuel : nat) visited queue :
    option (list A) :=
  match queue with
  | [] => Some []
  | r :: queue =>
    match fuel with
    | O => None
    | S fuel =>
      match name r with
      | None => pop_worklist name succs fuel visited queue
      | Some x =>
        if decide (x ∈ visited) then pop_worklist name succs fuel visited queue
        else
          let visited := {[x]} ∪ visited in
          rest ← pop_worklist name succs fuel visited (push_unvisited visited queue (succs x));
          Some (x :: rest)
      end
    end
  end.

Lemma elem_of_push_unvisited visited queue rs y :
  y ∈ push_unvisited visited queue rs ↔ y ∈ queue ∨ (y ∈ rs ∧ y ∉ visited).
Proof.
  revert queue. induction rs as [|r rs IH]; intros queue; simpl; [set_solver|].
  rewrite IH. case_decide; set_solver.
Qed.
Lemma length_push_unvisited visited queue rs :
  length (push_unvisited visited queue rs) ≤ length queue + length rs.
Proof.
  revert queue. induction rs as [|r rs IH]; intros queue; simpl; [lia|].
  etrans; [apply IH|]. case_decide; simpl; lia.
Qed.

Variable name : A → option A.
Variable succs : A → list A.
(** Only the first references are unresolved. *)
Hypothesis name_succs : ∀ x y, y ∈ succs x → name y = Some y.

Definition waiting queue y : Prop := ∃ r, r ∈ queue ∧ name r = Some y.
(** Successors of visited nodes are visited or wait. *)
Definition pop_inv visited queue : Prop :=
  ∀ x y, x ∈ visited → y ∈ succs x → waiting queue y ∨ y ∈ visited.
(** What a run from here on can visit, and what is visited already. *)
Definition pop_reach visited queue y : Prop :=
  y ∈ visited ∨ ∃ x, waiting queue x ∧ rtc (edge succs) x y.

Lemma waiting_cons r queue y : waiting (r :: queue) y ↔ name r = Some y ∨ waiting queue y.
Proof. unfold waiting. setoid_rewrite elem_of_cons. naive_solver. Qed.
Lemma waiting_push visited queue x y :
  waiting (push_unvisited visited queue (succs x)) y ↔
  waiting queue y ∨ (y ∈ succs x ∧ y ∉ visited).
Proof.
  unfold waiting. setoid_rewrite elem_of_push_unvisited. split.
  - intros (r & [?|[Hr ?]] & Hy); [left; eauto|]. right.
    apply name_succs in Hr as Hr'. naive_solver.
  - intros [(r & ? & ?)|[Hy ?]]; [eauto|]. exists y. split; [by right|]. by eapply name_succs.
Qed.

Lemma pop_reach_visited visited queue x y :
  pop_inv visited queue → x ∈ visited → rtc (edge succs) x y → pop_reach visited queue y.
Proof.
  intros Hinv Hx Hxy. induction Hxy as [x|x y z Hxy Hyz IH]; [by left|].
  destruct (Hinv x y Hx Hxy); [right; eauto|auto].
Qed.
Lemma pop_inv_visit visited queue r x :
  name r = Some x → pop_inv visited (r :: queue) →
  pop_inv ({[x]} ∪ visited) (push_unvisited ({[x]} ∪ visited) queue (succs x)).
Proof.
  intros Hr Hinv a b Ha Hab. rewrite waiting_push.
  destruct (decide (b ∈ ({[x]} ∪ visited : gset A))) as [|Hb]; [by right|]. left.
  apply elem_of_union in Ha as [->%elem_of_singleton|Ha]; [by right|].
  destruct (Hinv a b Ha Hab) as [[Hw|?]%waiting_cons|?]; [|by left|]; set_solver.
Qed.

(** The three ways an iteration goes keep what can be visited. *)
Lemma pop_reach_skip visited queue r y :
  name r = None → pop_reach visited (r :: queue) y ↔ pop_reach visited queue y.
Proof. intros Hr. unfold pop_reach. setoid_rewrite waiting_cons. naive_solver. Qed.
Lemma pop_reach_again visited queue r x y :
  name r = Some x → x ∈ visited → pop_inv visited queue →
  pop_reach visited (r :: queue) y ↔ pop_reach visited queue y.
Proof.
  intros Hr Hx Hinv. unfold pop_reach at 1. setoid_rewrite waiting_cons. split.
  - intros [?|(z & [Hz|?] & Hzy)]; [by left| |right; eauto].
    apply (pop_reach_visited _ _ x); [done..|]. congruence.
  - intros [?|(z & ? & ?)]; eauto.
Qed.
Lemma pop_reach_visit visited queue r x y :
  name r = Some x → pop_inv visited (r :: queue) →
  pop_reach visited (r :: queue) y ↔
  pop_reach ({[x]} ∪ visited) (push_unvisited ({[x]} ∪ visited) queue (succs x)) y.
Proof.
  intros Hr Hinv. pose proof (pop_inv_visit _ _ _ _ Hr Hinv) as Hinv'. split.
  - intros [?|(z & [Hz|?]%waiting_cons & Hzy)].
    + left. set_solver.
    + apply (pop_reach_visited _ _ x); [done|set_solver|congruence].
    + right. exists z. split; [apply waiting_push; by left|done].
  - intros [[->%elem_of_singleton|?]%elem_of_union|(z & [?|[? _]]%waiting_push & Hzy)].
    + right. exists x. split; [apply waiting_cons; by left|done].
    + by left.
    + right. exists z. split; [apply waiting_cons; by right|done].
    + right. exists x. split; [apply waiting_cons; by left|by eapply rtc_l].
Qed.

Lemma pop_worklist_sound fuel visited queue l :
  pop_worklist name succs fuel visited queue = Some l → pop_inv visited queue →
  NoDup l ∧ (∀ y, y ∈ l → y ∉ visited) ∧
  ∀ y, y ∈ l ∨ y ∈ visited ↔ pop_reach visited queue y.
Proof.
  assert (∀ visited y, y ∈ [] ∨ y ∈ visited ↔ pop_reach visited [] y) as Hend.
  { unfold pop_reach, waiting. set_solver. }
  revert visited queue l. induction fuel as [|fuel IH]; intros visited [|r queue] l E Hinv;
    simpl in E; simplify_eq; try (split_and!; [constructor|set_solver|apply Hend]).
  destruct (name r) as [x|] eqn:Ex; [case_decide as Hx|].
  - assert (pop_inv visited queue) as Hinv'.
    { intros a b Ha Hab. destruct (Hinv a b Ha Hab) as [[?|?]%waiting_cons|?];
        [right; congruence|by left|by right]. }
    destruct (IH _ _ l E Hinv') as (H1 & H2 & H3). split_and!; [done..|].
    intros y. by rewrite H3, (pop_reach_again _ _ r x).
  - apply bind_Some in E as (rest & E & [= <-]).
    destruct (IH _ _ rest E (pop_inv_visit _ _ _ _ Ex Hinv)) as (H1 & H2 & H3). split_and!.
    + constructor; [|done]. intros Hin. apply H2 in Hin. set_solver.
    + intros y [->|Hy]%elem_of_cons; [done|]. apply H2 in Hy. set_solver.
    + intros y. rewrite (pop_reach_visit _ _ _ _ _ Ex Hinv), <-H3. set_solver.
  - assert (pop_inv visited queue) as Hinv'.
    { intros a b Ha Hab. destruct (Hinv a b Ha Hab) as [[?|?]%waiting_cons|?];
        [congruence|by left|by right]. }
    destruct (IH _ _ l E Hinv') as (H1 & H2 & H3). split_and!; [done..|].
    intros y. by rewrite H3, pop_reach_skip.
Qed.

(** Enough fuel: one pop per initial entry and one per edge out of a node of
    [U] that is not visited yet. *)
Definition out_degrees (X : gset A) : N := set_weight (λ x, N.of_nat (length (succs x))) X.
Lemma pop_worklist_terminates (U : gset A) fuel visited queue :
  (∀ r x, r ∈ queue → name r = Some x → x ∈ U) → (∀ x y, y ∈ succs x → y ∈ U) →
  length queue + N.to_nat (out_degrees (U ∖ visited)) ≤ fuel →
  is_Some (pop_worklist name succs fuel visited queue).
Proof.
  revert visited queue. induction fuel as [|fuel IH]; intros visited [|r queue] HU Hsub Hfuel;
    cbn [pop_worklist length] in *; [by eexists|lia|by eexists|].
  destruct (name r) as [x|] eqn:Ex; [case_decide as Hx|].
  - apply IH; [|done|lia]. intros r' x' ?. apply HU. by right.
  - assert (x ∈ U) as HxU by (apply (HU r); [by left|done]).
    assert (out_degrees (U ∖ visited) =
      N.of_nat (length (succs x)) + out_degrees (U ∖ ({[x]} ∪ visited)))%N as Hout.
    { unfold out_degrees. rewrite <-(set_weight_singleton (λ y, N.of_nat (length (succs y))) x).
      rewrite <-set_weight_disj_union by set_solver. f_equal. apply set_eq. intros y.
      destruct (decide (y = x)); set_solver. }
    edestruct (IH ({[x]} ∪ visited) (push_unvisited ({[x]} ∪ visited) queue (succs x)))
      as [l Hl]; [..|rewrite Hl; by eexists].
    + intros r' x' [?|[Hr' ?]]%elem_of_push_unvisited Hx'; [apply (HU r'); [by right|done]|].
      apply name_succs in Hr' as Hn. rewrite Hn in Hx'. injection Hx' as <-. by eapply Hsub.
    + done.
    + pose proof (length_push_unvisited ({[x]} ∪ visited) queue (succs x)). lia.
  - apply IH; [|done|lia]. intros r' x' ?. apply HU. by right.
Qed.
End pop_worklist.
