(* ===== verification/Types.v ===== *)
(** * Core types

    [types/*.rs] and [block.rs] of cordial-miners-core: node identities, block
    identities and their order, block contents, blocks, and sets of blocks. *)

From Stdlib Require Export Strings.Byte.
From S2P Require Import Prelude.
From stdpp Require Import options.

(** ** Bytes *)

#[export] Instance byte_eq_dec : EqDecision byte := Byte.byte_eq_dec.
#[export] Program Instance byte_countable : Countable byte :=
  inj_countable Byte.to_N Byte.of_N Byte.of_to_N.
Lemma byte_to_N_inj : Inj (=) (=) Byte.to_N.
Proof.
  intros x y E. pose proof (Byte.of_to_N x) as Hx. rewrite E, Byte.of_to_N in Hx. congruence.
Qed.
#[export] Instance byte_ord : Ord byte := ord_by Byte.to_N byte_to_N_inj.

(** ** [NodeId] and [BlockIdentity] *)

Definition NodeId : Type := list byte.
(** [[u8; 32]]. *)
Definition Hash32 : Type := vec byte 32.

(** A decoder of fixed-length arrays that evaluates. *)
Fixpoint vec_of_list {A} (n : nat) (l : list A) : option (vec A n) :=
  match n, l with
  | O, [] => Some [#]
  | S n, x :: l => v ← vec_of_list n l; Some (x ::: v)
  | _, _ => None
  end.
Lemma vec_of_to_list {A} n (v : vec A n) : vec_of_list n (vec_to_list v) = Some v.
Proof. induction v as [|x n v IH]; simpl; [done|]. by rewrite IH. Qed.

#[export] Instance NodeId_eq_dec : EqDecision NodeId := _.
#[export] Instance NodeId_countable : Countable NodeId := _.
#[export] Instance NodeId_ord : Ord NodeId := list_ord.
#[export] Instance Hash32_eq_dec : EqDecision Hash32 := _.
#[export] Instance Hash32_countable : Countable Hash32 :=
  inj_countable vec_to_list (vec_of_list 32) (vec_of_to_list 32).
#[export] Instance Hash32_ord : Ord Hash32 := vec_ord 32.
#[export] Typeclasses Opaque Hash32.

Record BlockIdentity := mkIdentity {
  content_hash : Hash32;
  creator : NodeId;
  signature : list byte
}.

Definition identity_tuple (i : BlockIdentity) : Hash32 * NodeId * list byte :=
  (content_hash i, creator i, signature i).
Definition identity_untuple (t : Hash32 * NodeId * list byte) : BlockIdentity :=
  mkIdentity t.1.1 t.1.2 t.2.
Lemma identity_untuple_tuple i : identity_untuple (identity_tuple i) = i.
Proof. by destruct i. Qed.
#[export] Instance identity_tuple_inj : Inj (=) (=) identity_tuple.
Proof. intros [] []; unfold identity_tuple; simpl; congruence. Qed.

#[export] Instance BlockIdentity_eq_dec : EqDecision BlockIdentity.
Proof. solve_decision. Defined.
#[export] Instance BlockIdentity_countable : Countable BlockIdentity :=
  inj_countable' identity_tuple identity_untuple identity_untuple_tuple.
(** The derived order: content hash, then creator, then signature. *)
#[export] Instance BlockIdentity_ord : Ord BlockIdentity := ord_by identity_tuple _.

Definition same_consensus_identity (self other : BlockIdentity) : Prop :=
  content_hash self = content_hash other ∧ creator self = creator other.
#[export] Instance same_consensus_identity_dec : RelDecision same_consensus_identity.
Proof. unfold same_consensus_identity. intros ??. apply _. Defined.

Definition consensus_identity (self : BlockIdentity) : BlockIdentity :=
  {| content_hash := content_hash self; creator := creator self; signature := [] |}.

Lemma same_consensus_identity_alt a b :
  same_consensus_identity a b ↔ consensus_identity a = consensus_identity b.
Proof.
  unfold same_consensus_identity, consensus_identity. split.
  - by intros [-> ->].
  - by intros [= -> ->].
Qed.
#[export] Instance same_consensus_identity_equiv : Equivalence same_consensus_identity.
Proof.
  split; red; setoid_rewrite same_consensus_identity_alt; congruence.
Qed.
Lemma consensus_identity_idemp i :
  consensus_identity (consensus_identity i) = consensus_identity i.
Proof. done. Qed.
Lemma same_consensus_identity_consensus i : same_consensus_identity (consensus_identity i) i.
Proof. done. Qed.

(** ** Block contents and blocks *)

Record BlockContent := mkContent {
  payload : list byte;
  predecessors : gset BlockIdentity
}.
#[export] Instance BlockContent_eq_dec : EqDecision BlockContent.
Proof. solve_decision. Defined.

Record Block := mkBlock {
  identity : BlockIdentity;
  content : BlockContent
}.
#[export] Instance Block_eq_dec : EqDecision Block.
Proof. solve_decision. Defined.

Module Block.
Definition is_initial (self : Block) : bool :=
  bool_decide (predecessors (content self) = ∅).
Definition node (self : Block) : NodeId := creator (identity self).
Definition id (self : Block) : BlockIdentity := identity self.
Definition is_pointed_from (self other : Block) : bool :=
  bool_decide (identity self ∈ predecessors (content other)).
(** [PartialEq]: blocks are equal when their identities are. *)
Definition eq (self other : Block) : bool :=
  bool_decide (identity self = identity other).
End Block.

(** [HashSet<Block>]: [Block] hashes and compares by identity only, so a set
    of blocks is a map keyed by the identity, and inserting a block whose
    identity is present keeps the stored one. *)
Abbreviation BlockSet := (gmap BlockIdentity BlockContent).

Definition block_entry (b : Block) : BlockIdentity * BlockContent := (identity b, content b).
Definition entry_block (e : BlockIdentity * BlockContent) : Block := mkBlock e.1 e.2.
Definition block_set_insert (b : Block) (S : BlockSet) : BlockSet :=
  match S !! identity b with
  | Some _ => S
  | None => <[identity b := content b]> S
  end.
(** [collect::<HashSet<Block>>()]. *)
Definition collect_blocks (bs : list Block) : BlockSet :=
  foldl (λ S b, block_set_insert b S) ∅ bs.

(** [nodes(S)] and [ids(S)]. *)
Definition nodes (blocks : list Block) : gset NodeId := list_to_set (map Block.node blocks).
Definition ids (blocks : list Block) : gset BlockIdentity := list_to_set (map Block.id blocks).

(** The distinct creators of a set of blocks. *)
Definition set_creators (S : BlockSet) : gset NodeId := set_map creator (dom S).

Lemma elem_of_set_creators (S : BlockSet) p :
  p ∈ set_creators S ↔ ∃ i c, S !! i = Some c ∧ creator i = p.
Proof.
  unfold set_creators. rewrite elem_of_map. setoid_rewrite elem_of_dom. unfold is_Some.
  naive_solver.
Qed.

(** When the list has one content per identity, as every list read from one
    blocklace has, the collected set holds exactly its blocks. *)
Lemma lookup_collect_blocks_aux bs S i c :
  (∀ b, b ∈ bs → ∀ c', S !! identity b = Some c' → c' = content b) →
  (∀ b b', b ∈ bs → b' ∈ bs → identity b = identity b' → b = b') →
  foldl (λ S b, block_set_insert b S) S bs !! i = Some c ↔
  S !! i = Some c ∨ mkBlock i c ∈ bs.
Proof.
  revert S. induction bs as [|b bs IH]; intros S HS Hf; simpl.
  { set_solver. }
  assert (∀ b1 b2, b1 ∈ bs → b2 ∈ bs → identity b1 = identity b2 → b1 = b2) as Hf'
    by (intros ????; apply Hf; by right).
  destruct (S !! identity b) as [c0|] eqn:E.
  - assert (c0 = content b) as -> by (apply (HS b); [by left|done]).
    replace (block_set_insert b S) with S by (unfold block_set_insert; by rewrite E).
    rewrite IH; [|intros ??; apply HS; by right|done].
    rewrite elem_of_cons. split; [tauto|]. intros [?|[<-|?]]; auto.
  - replace (block_set_insert b S) with (<[identity b := content b]> S)
      by (unfold block_set_insert; by rewrite E).
    rewrite IH; [|intros b' Hb' c'|done].
    + rewrite elem_of_cons. destruct (decide (identity b = i)) as [<-|Hne].
      * rewrite lookup_insert_eq, E. destruct b as [ib cb]; simpl in *.
        split; [intros [[= ->]|?]; auto|].
        intros [[=]|[[= ->]|?]]; by auto.
      * rewrite lookup_insert_ne by done. split; [tauto|].
        intros [?|[<-|?]]; by auto.
    + destruct (decide (identity b = identity b')) as [Hi|Hi].
      * rewrite Hi, lookup_insert_eq. intros [= <-].
        by rewrite (Hf b b' (list_elem_of_here _ _) (list_elem_of_further _ _ _ Hb') Hi).
      * rewrite lookup_insert_ne by done. apply HS. by right.
Qed.

Lemma lookup_collect_blocks bs i c :
  (∀ b b', b ∈ bs → b' ∈ bs → identity b = identity b' → b = b') →
  collect_blocks bs !! i = Some c ↔ mkBlock i c ∈ bs.
Proof.
  intros Hf. unfold collect_blocks.
  rewrite lookup_collect_blocks_aux; [|by intros; simplify_map_eq|done].
  rewrite lookup_empty. naive_solver.
Qed.

(** ** Hashing

    [Blake2b256Hasher::hash] calls an external crate: the hash function is a
    parameter. *)

Class Blake2b := blake2b256 : list byte → Hash32.
