(* ===== verification/Lace.v ===== *)
(** * The blocklace

    [blocklace.rs]: the set of blocks, its structural mutations, identity
    resolution, and the predecessor relation with the traversals built on it. *)

From S2P Require Import Prelude Types.
From stdpp Require Import options.

(** [CryptoVerifier]: the signature check is a parameter, its [Debug]
    rendering of an error is the error itself. *)
Class CryptoVerifier := {
  verifier_error : Type;
  verify_block : BlockContent → list byte → NodeId → result unit verifier_error
}.

Module Blocklace.

Record t := mk {
  blocks : gmap BlockIdentity BlockContent;
  trusted_boundary_predecessors : gmap BlockIdentity (gset BlockIdentity);
  checkpoint : option BlockIdentity;
  checkpoint_depth : option N;
  checkpoint_order_prefix : list BlockIdentity;
  checkpoint_weighted_order_prefix : list BlockIdentity;
  generation : N;
  (** The address of the [Arc<()>] allocated by [new]. *)
  cache_identity : N
}.

Definition new (address : N) : t :=
  {| blocks := ∅; trusted_boundary_predecessors := ∅; checkpoint := None;
     checkpoint_depth := None; checkpoint_order_prefix := [];
     checkpoint_weighted_order_prefix := []; generation := 0;
     cache_identity := address |}.

(** The error messages of [insert], with the data they print. *)
Inductive InsertError `{CryptoVerifier} :=
  | InvalidSignature (e : verifier_error)
  | ClosureViolation (missing : BlockIdentity)
  | IdentityConflict (conflicting : BlockIdentity).

(** ** Identity resolution *)

(** An unsigned reference resolves when exactly one stored identity has its
    content hash and creator. *)
Definition resolve_identity_in (blocks : gmap BlockIdentity BlockContent)
    (id : BlockIdentity) : option BlockIdentity :=
  match blocks !! id with
  | Some _ => Some id
  | None =>
    if decide (signature id ≠ []) then None
    else
      match elements (filter (λ candidate, same_consensus_identity candidate id) (dom blocks)) with
      | [resolved] => Some resolved
      | _ => None
      end
  end.

Definition resolve_identity (self : t) (id : BlockIdentity) : option BlockIdentity :=
  resolve_identity_in (blocks self) id.

(** [B(b)], [B[b]], [dom(B)]. *)
Definition content (self : t) (id : BlockIdentity) : option BlockContent :=
  resolved ← resolve_identity self id; blocks self !! resolved.

Definition get (self : t) (id : BlockIdentity) : option Block :=
  resolved ← resolve_identity self id;
  c ← blocks self !! resolved;
  Some (mkBlock resolved c).

Definition dom (self : t) : gset BlockIdentity := base.dom (blocks self).

Definition is_checkpoint_boundary (self : t) (id : BlockIdentity) : bool :=
  bool_decide (checkpoint self = Some id).

Definition has_trusted_boundaries (self : t) : bool :=
  bool_decide (trusted_boundary_predecessors self ≠ ∅).

Section hash_order.
Context `{HO : HashOrder}.

(** An existing identity with the same hash and creator, but another
    signature: whichever the iteration finds first. *)
Definition conflicting_identity_variant (self : t) (id : BlockIdentity) : option BlockIdentity :=
  match blocks self !! id with
  | Some _ => None
  | None =>
    snd <$> list_find (λ candidate, same_consensus_identity candidate id) (hash_iter (dom self))
  end.

(** ** Structural mutation *)

Definition commit_validated (self : t) (id : BlockIdentity) (c : BlockContent) :
    result t BlockIdentity :=
  match conflicting_identity_variant self id with
  | Some conflicting => Err conflicting
  | None =>
    let trusted := delete id (trusted_boundary_predecessors self) in
    let blocks' := <[id := c]> (blocks self) in
    let trusted :=
      (λ boundary : gset BlockIdentity,
        filter (λ pred_id, resolve_identity_in blocks' pred_id = None) boundary) <$> trusted in
    let trusted := filter (λ e : BlockIdentity * gset BlockIdentity, e.2 ≠ ∅) trusted in
    Ok {| blocks := blocks'; trusted_boundary_predecessors := trusted;
          checkpoint := checkpoint self; checkpoint_depth := checkpoint_depth self;
          checkpoint_order_prefix := checkpoint_order_prefix self;
          checkpoint_weighted_order_prefix := checkpoint_weighted_order_prefix self;
          generation := wrapping_add64 (generation self) 1;
          cache_identity := cache_identity self |}
  end.

Definition forget_block (self : t) (id : BlockIdentity) : bool * t :=
  match blocks self !! id with
  | None => (false, self)
  | Some _ =>
    (true,
     {| blocks := delete id (blocks self);
        trusted_boundary_predecessors := delete id (trusted_boundary_predecessors self);
        checkpoint := checkpoint self; checkpoint_depth := checkpoint_depth self;
        checkpoint_order_prefix := checkpoint_order_prefix self;
        checkpoint_weighted_order_prefix := checkpoint_weighted_order_prefix self;
        generation := wrapping_add64 (generation self) 1;
        cache_identity := cache_identity self |})
  end.

Definition set_checkpoint_state (self : t) (cp : BlockIdentity) (depth : N)
    (order_prefix weighted_order_prefix : list BlockIdentity) : t :=
  {| blocks := blocks self;
     trusted_boundary_predecessors := trusted_boundary_predecessors self;
     checkpoint := Some cp; checkpoint_depth := Some depth;
     checkpoint_order_prefix := order_prefix;
     checkpoint_weighted_order_prefix := weighted_order_prefix;
     generation := wrapping_add64 (generation self) 1;
     cache_identity := cache_identity self |}.

(** ** Insertion and the closure axiom *)

Definition missing_predecessors (self : t) (b : Block) : list BlockIdentity :=
  filter (λ pred_id, resolve_identity self pred_id = None)
    (hash_iter (predecessors (Types.content b))).

Definition insert `{CryptoVerifier} (self : t) (b : Block) : result t InsertError :=
  let? _ := map_err InvalidSignature
    (verify_block (Types.content b) (signature (identity b)) (creator (identity b))) in
  match missing_predecessors self b with
  | missing :: _ => Err (ClosureViolation missing)
  | [] => map_err IdentityConflict (commit_validated self (identity b) (Types.content b))
  end.

Definition insert_with_trusted_boundary `{CryptoVerifier} (self : t) (b : Block) :
    result (gset BlockIdentity * t) InsertError :=
  let? _ := map_err InvalidSignature
    (verify_block (Types.content b) (signature (identity b)) (creator (identity b))) in
  let missing : gset BlockIdentity := list_to_set (missing_predecessors self b) in
  let? self' := map_err IdentityConflict (commit_validated self (identity b) (Types.content b)) in
  if decide (missing = ∅) then Ok (missing, self')
  else
    Ok (missing,
        {| blocks := blocks self';
           trusted_boundary_predecessors :=
             <[identity b := missing]> (trusted_boundary_predecessors self');
           checkpoint := checkpoint self'; checkpoint_depth := checkpoint_depth self';
           checkpoint_order_prefix := checkpoint_order_prefix self';
           checkpoint_weighted_order_prefix := checkpoint_weighted_order_prefix self';
           generation := generation self'; cache_identity := cache_identity self' |}).

Definition is_closed (self : t) : bool :=
  forallb (λ e : BlockIdentity * BlockContent,
      is_checkpoint_boundary self e.1 ||
      forallb (λ pred_id, bool_decide (is_Some (resolve_identity self pred_id)))
        (hash_iter (predecessors e.2)))
    (map_iter (blocks self)).

(** ** The pointed relation and its closures *)

(** [B[P]] *)
Definition get_set (self : t) (ids : gset BlockIdentity) : BlockSet :=
  collect_blocks (omap (get self) (hash_iter ids)).

Definition predecessors (self : t) (id : BlockIdentity) : BlockSet :=
  match content self id with
  | None => ∅
  | Some c => get_set self (Types.predecessors c)
  end.

(** The resolved predecessors a traversal pushes when it pops [current]: none
    at the checkpoint boundary. *)
Definition expand (self : t) (current : BlockIdentity) : list BlockIdentity :=
  if is_checkpoint_boundary self current then []
  else
    match content self current with
    | None => []
    | Some c => omap (resolve_identity self) (hash_iter (Types.predecessors c))
    end.

(** Each block is pushed at most once, so one pop per block and one for the
    start suffice. *)
Definition traversal_fuel (self : t) : nat := S (size (blocks self)).

Definition ancestors (self : t) (id : BlockIdentity) : BlockSet :=
  let visited := worklist (expand self) push_stack (traversal_fuel self) ∅ [id] in
  get_set self (default ∅ visited).

Definition observe (self : t) (from : BlockIdentity) : gset BlockIdentity :=
  match resolve_identity self from with
  | None => ∅
  | Some from =>
    default ∅ (worklist (expand self) push_queue (traversal_fuel self) {[from]} [from])
  end.

Definition ancestors_inclusive (self : t) (id : BlockIdentity) : BlockSet :=
  let result := ancestors self id in
  match get self id with
  | Some b => block_set_insert b result
  | None => result
  end.

Definition ancestors_of_set (self : t) (ids : gset BlockIdentity) : BlockSet :=
  collect_blocks
    (mjoin (map (λ id, map entry_block (map_iter (ancestors self id))) (hash_iter ids))).

Definition precedes (self : t) (a b : BlockIdentity) : bool :=
  match resolve_identity self a with
  | None => false
  | Some a => bool_decide (a ∈ base.dom (ancestors self b))
  end.

Definition preceedes_or_equals (self : t) (a b : BlockIdentity) : bool :=
  match resolve_identity self a, resolve_identity self b with
  | Some a, Some b => bool_decide (a = b) || precedes self a b
  | _, _ => false
  end.

(** ** Chain axiom *)

Definition blocks_by (self : t) (node : NodeId) : list Block :=
  map entry_block
    (filter (λ e : BlockIdentity * BlockContent, creator e.1 = node) (map_iter (blocks self))).

(** Every pair [(i, j)], [i < j], of the creator's blocks is comparable. *)
Fixpoint pairwise_comparable (self : t) (p_blocks : list Block) : bool :=
  match p_blocks with
  | [] => true
  | a :: rest =>
    forallb (λ b, precedes self (identity a) (identity b) || precedes self (identity b) (identity a))
      rest && pairwise_comparable self rest
  end.

Definition satisfies_chain_axiom (self : t) (node : NodeId) : bool :=
  pairwise_comparable self (blocks_by self node).

Definition all_nodes (self : t) : gset NodeId := set_map creator (dom self).

Definition satisfies_chain_axiom_all (self : t) : bool :=
  forallb (satisfies_chain_axiom self) (hash_iter (all_nodes self)).

Definition find_equivacators (self : t) : gset NodeId :=
  filter (λ node, satisfies_chain_axiom self node = false) (all_nodes self).

Definition tip_of (self : t) (node : NodeId) : option Block :=
  let p_blocks := blocks_by self node in
  snd <$> list_find (λ candidate,
      existsb (λ other,
        bool_decide (identity other ≠ identity candidate) &&
        precedes self (identity candidate) (identity other)) p_blocks = false) p_blocks.

End hash_order.
End Blocklace.
