(* ===== verification/Bytes.v ===== *)
(** * Byte encodings

    [to_be_bytes] and [from_be_bytes], length-prefixed fields, and the cursor
    over a byte slice that the decoders of the source share. *)

From stdpp Require Export strings.
From S2P Require Import Prelude Types.
From stdpp Require Import options.

(** The bytes of an ASCII literal [b"..."]. *)
Definition literal (s : string) : list byte := String.list_byte_of_string s.

Definition byte_of_N (x : N) : byte := default x00 (Byte.of_N x).

(** [x.to_be_bytes()] of a [8 * n]-bit integer. *)
Fixpoint be_bytes (n : nat) (x : N) : list byte :=
  match n with
  | O => []
  | S n => be_bytes n (x / 256) ++ [byte_of_N (x mod 256)]
  end.

(** [from_be_bytes]. *)
Definition of_be (l : list byte) : N := foldl (λ acc b, acc * 256 + Byte.to_N b)%N 0%N l.

Lemma byte_of_to_N b : byte_of_N (Byte.to_N b) = b.
Proof. unfold byte_of_N. by rewrite Byte.of_to_N. Qed.
Lemma byte_to_of_N x : (x < 256)%N → Byte.to_N (byte_of_N x) = x.
Proof.
  intros Hx. unfold byte_of_N. destruct (Byte.of_N x) as [b|] eqn:E; simpl.
  - by apply Byte.to_of_N.
  - apply Byte.of_N_None_iff in E. lia.
Qed.

Lemma length_be_bytes n x : length (be_bytes n x) = n.
Proof.
  revert x. induction n as [|n IH]; intros x; [done|]. simpl.
  rewrite length_app, IH. simpl. lia.
Qed.

Lemma of_be_snoc l b : of_be (l ++ [b]) = (of_be l * 256 + Byte.to_N b)%N.
Proof. unfold of_be. by rewrite foldl_app. Qed.

Lemma of_be_bytes n x : (x < 256 ^ N.of_nat n)%N → of_be (be_bytes n x) = x.
Proof.
  revert x. induction n as [|n IH]; intros x Hx.
  { change (256 ^ N.of_nat 0)%N with 1%N in Hx.
    assert (x = 0%N) as -> by lia. done. }
  cbn [be_bytes]. rewrite of_be_snoc, byte_to_of_N by (apply N.mod_upper_bound; done).
  rewrite IH.
  - pose proof (N.div_mod x 256 ltac:(done)). lia.
  - rewrite Nat2N.inj_succ, N.pow_succ_r' in Hx. apply N.div_lt_upper_bound; [done|]. lia.
Qed.

Lemma be_bytes_inj n x y :
  (x < 256 ^ N.of_nat n)%N → (y < 256 ^ N.of_nat n)%N → be_bytes n x = be_bytes n y → x = y.
Proof. intros Hx Hy E. rewrite <-(of_be_bytes n x), <-(of_be_bytes n y) by done. by rewrite E. Qed.

(** A [u64] field. *)
Abbreviation be64 := (be_bytes 8).
Lemma be64_inj x y : (x <= u64_max)%N → (y <= u64_max)%N → be64 x = be64 y → x = y.
Proof.
  intros Hx Hy. apply be_bytes_inj; change (256 ^ N.of_nat 8)%N with (u64_max + 1)%N; lia.
Qed.
Lemma of_be64 x : (x <= u64_max)%N → of_be (be64 x) = x.
Proof. intros. apply of_be_bytes. change (256 ^ N.of_nat 8)%N with (u64_max + 1)%N. lia. Qed.

(** A field with a [u64] length prefix: [(bytes.len() as u64).to_be_bytes()]
    and the bytes. *)
Definition field (bytes : list byte) : list byte :=
  be64 (N.of_nat (length bytes) mod 2 ^ 64) ++ bytes.

(** A slice is never longer than [usize::MAX]. *)
Definition fits (bytes : list byte) : Prop := (N.of_nat (length bytes) <= u64_max)%N.

Lemma app_inj_length {A} (a b r s : list A) :
  length a = length b → a ++ r = b ++ s → a = b ∧ r = s.
Proof. intros. by apply app_inj_1. Qed.

Lemma be64_app_inj x y r s :
  (x <= u64_max)%N → (y <= u64_max)%N → be64 x ++ r = be64 y ++ s → x = y ∧ r = s.
Proof.
  intros Hx Hy E. apply app_inj_length in E as [E ->]; [|by rewrite !length_be_bytes].
  split; [by apply be64_inj|done].
Qed.
Lemma field_app_inj a b r s :
  fits a → fits b → field a ++ r = field b ++ s → a = b ∧ r = s.
Proof.
  unfold field, fits. intros Ha Hb. rewrite <-!app_assoc. intros E.
  rewrite !N.mod_small in E by (change (2 ^ 64)%N with (u64_max + 1)%N; lia).
  apply be64_app_inj in E as [El E]; [|done..]. apply app_inj_length in E; [done|]. lia.
Qed.

(** [put_u16_bytes] of the wire formats: a [u16] length and the bytes.  A
    validated field is shorter than [u16::MAX], beyond which the source panics. *)
Definition u16_bytes (bytes : list byte) : list byte :=
  be_bytes 2 (N.of_nat (length bytes)) ++ bytes.

Lemma length_u16_bytes b : length (u16_bytes b) = 2 + length b.
Proof. unfold u16_bytes. by rewrite length_app, length_be_bytes. Qed.

(** ** The cursor of a decoder

    The state of a decoder is what is left of its slice; [read_exact] fails
    when that is too short. *)

Definition parser (E A : Type) : Type := list byte → result (A * list byte) E.

Definition parse_bind {E A B} (p : parser E A) (k : A → parser E B) : parser E B :=
  λ input, match p input with Ok (x, rest) => k x rest | Err e => Err e end.
Definition parse_ret {E A} (x : A) : parser E A := λ input, Ok (x, input).
Definition parse_fail {E A} (e : E) : parser E A := λ _, Err e.
(** A check between two reads. *)
Definition parse_result {E A} (r : result A E) : parser E A :=
  λ input, match r with Ok x => Ok (x, input) | Err e => Err e end.
Notation "'read' x := p 'in' k" := (parse_bind p (λ x, k))
  (at level 200, x pattern, p at level 100, k at level 200).

Definition remaining {E} : parser E nat := λ input, Ok (length input, input).

Section parsers.
Context {E : Type} (malformed : E).

Definition read_exact (len : nat) : parser E (list byte) := λ input,
  if decide (length input < len) then Err malformed
  else Ok (take len input, drop len input).
Definition read_uint (n : nat) : parser E N :=
  read bytes := read_exact n in parse_ret (of_be bytes).
Definition read_hash : parser E Hash32 :=
  read bytes := read_exact 32 in
  match vec_of_list 32 bytes with Some h => parse_ret h | None => parse_fail malformed end.
Definition read_u16_bytes : parser E (list byte) :=
  read len := read_uint 2 in read_exact (N.to_nat len).
Definition read_discriminant : parser E bool :=
  read bytes := read_exact 1 in
  match bytes with
  | [b] => if decide (b = x00) then parse_ret false
           else if decide (b = x01) then parse_ret true else parse_fail malformed
  | _ => parse_fail malformed
  end.

(** [for _ in 0..count { entries.push(..) }]. *)
Fixpoint read_many {A} (p : parser E A) (count : nat) : parser E (list A) :=
  match count with
  | O => parse_ret []
  | S count => read x := p in read xs := read_many p count in parse_ret (x :: xs)
  end.

End parsers.

(** ** Exact parsers

    [exact p enc wt]: the parser succeeds precisely on the encodings of the
    well typed values, and leaves what follows them. *)

Definition exact {E A} (p : parser E A) (enc : A → list byte) (wt : A → Prop) : Prop :=
  ∀ input x rest, p input = Ok (x, rest) ↔ wt x ∧ input = enc x ++ rest.

Lemma parse_bind_Ok {E A B} (p : parser E A) (k : A → parser E B) input y rest :
  parse_bind p k input = Ok (y, rest) ↔
  ∃ x mid, p input = Ok (x, mid) ∧ k x mid = Ok (y, rest).
Proof.
  unfold parse_bind. destruct (p input) as [[x mid]|]; naive_solver.
Qed.
Lemma exact_run {E A B} (p : parser E A) enc wt (k : A → parser E B) x rest :
  exact p enc wt → wt x → parse_bind p k (enc x ++ rest) = k x rest.
Proof. intros Hp Hx. unfold parse_bind. by rewrite (proj2 (Hp (enc x ++ rest) x rest)). Qed.

Lemma parse_result_Ok {E A} (r : result A E) input x rest :
  parse_result r input = Ok (x, rest) ↔ r = Ok x ∧ rest = input.
Proof. unfold parse_result. destruct r; naive_solver. Qed.
Lemma parse_guard_Ok {E A} (P : Prop) `{Decision P} (e : E) (k : parser E A) input r :
  (if decide P then parse_fail e else k) input = Ok r ↔ ¬ P ∧ k input = Ok r.
Proof. case_decide; unfold parse_fail; naive_solver. Qed.

(** Takes a successful run of a parser apart. *)
Ltac invert_parse H :=
  repeat first
    [ let x := fresh "x" in let mid := fresh "mid" in let Hx := fresh "Hread" in
      apply parse_bind_Ok in H as (x & mid & Hx & H)
    | let Hn := fresh "Hguard" in apply parse_guard_Ok in H as [Hn H] ].

Lemma of_be_bound l : (of_be l < 256 ^ N.of_nat (length l))%N.
Proof.
  induction l as [|b l IH] using rev_ind; [done|].
  rewrite of_be_snoc, length_app. simpl. rewrite Nat.add_1_r, Nat2N.inj_succ, N.pow_succ_r'.
  pose proof (Byte.to_N_bounded b). lia.
Qed.
Lemma be_of_be l : be_bytes (length l) (of_be l) = l.
Proof.
  induction l as [|b l IH] using rev_ind; [done|].
  rewrite of_be_snoc, length_app. simpl. rewrite Nat.add_1_r. cbn [be_bytes].
  pose proof (Byte.to_N_bounded b) as Hb.
  assert ((of_be l * 256 + Byte.to_N b) / 256 = of_be l)%N as ->.
  { symmetry. apply (N.div_unique _ _ _ (Byte.to_N b)); lia. }
  assert ((of_be l * 256 + Byte.to_N b) mod 256 = Byte.to_N b)%N as ->.
  { symmetry. apply (N.mod_unique _ _ (of_be l)); lia. }
  by rewrite IH, byte_of_to_N.
Qed.

Section exact.
Context {E : Type} (malformed : E).

Lemma exact_exact n : exact (read_exact malformed n) id (λ l, length l = n).
Proof.
  intros input x rest. unfold read_exact, id. case_decide as Hl.
  - split; [done|]. intros [<- ->]. rewrite length_app in Hl. lia.
  - split.
    + intros [= <- <-]. split; [rewrite length_take; lia|by rewrite take_drop].
    + intros [<- ->]. by rewrite take_app_length, drop_app_length.
Qed.
Lemma exact_uint n : exact (read_uint malformed n) (be_bytes n) (λ x, x < 256 ^ N.of_nat n)%N.
Proof.
  intros input x rest. unfold read_uint. rewrite parse_bind_Ok. split.
  - intros (l & mid & [<- ->]%exact_exact & [= <- <-]). split; [apply of_be_bound|].
    unfold id. by rewrite be_of_be.
  - intros [Hx ->]. exists (be_bytes n x), rest. split.
    + apply exact_exact. split; [apply length_be_bytes|done].
    + unfold parse_ret. by rewrite of_be_bytes.
Qed.
Lemma exact_u64 : exact (read_uint malformed 8) be64 (λ x, x <= u64_max)%N.
Proof.
  intros input x rest. rewrite (exact_uint 8 input x rest).
  change (256 ^ N.of_nat 8)%N with (u64_max + 1)%N. by rewrite N.add_1_r, N.lt_succ_r.
Qed.
Lemma exact_u16_bytes : exact (read_u16_bytes malformed) u16_bytes (λ b, (N.of_nat (length b) < 65536)%N).
Proof.
  intros input b rest. unfold read_u16_bytes, u16_bytes. rewrite parse_bind_Ok. split.
  - intros (n & mid & [Hn ->]%exact_uint & [Hl ->]%exact_exact). unfold id.
    rewrite Hl, N2Nat.id, <-app_assoc. done.
  - intros [Hl ->]. exists (N.of_nat (length b)), (b ++ rest). split.
    + apply exact_uint. by rewrite <-app_assoc.
    + apply exact_exact. split; [lia|done].
Qed.
Lemma vec_of_list_Some {A} n (l : list A) v : vec_of_list n l = Some v → l = vec_to_list v.
Proof.
  revert l v. induction n as [|n IH]; intros [|x l] v; simpl; try done.
  - intros [= <-]. done.
  - destruct (vec_of_list n l) as [w|] eqn:Ew; [|done]. intros [= <-]. by rewrite (IH _ _ Ew).
Qed.
Lemma exact_hash : exact (read_hash malformed) vec_to_list (λ _, True).
Proof.
  intros input h rest. unfold read_hash. rewrite parse_bind_Ok. split.
  - intros (l & mid & [Hl ->]%exact_exact & Hk). split; [done|]. unfold id.
    destruct (vec_of_list 32 l) as [v|] eqn:Ev; [|done]. injection Hk as <- <-.
    by apply vec_of_list_Some in Ev as ->.
  - intros [_ ->]. exists (vec_to_list h), rest. split.
    + apply exact_exact. split; [by rewrite length_vec_to_list|done].
    + by rewrite vec_of_to_list.
Qed.
Lemma exact_discriminant :
  exact (read_discriminant malformed) (λ b : bool, [if b then x01 else x00]) (λ _, True).
Proof.
  intros input b rest. unfold read_discriminant. rewrite parse_bind_Ok. split.
  - intros (l & mid & [Hl ->]%exact_exact & Hk). split; [done|]. unfold id.
    destruct l as [|x [|]]; [done| |done].
    case_decide as E0; [subst; by injection Hk as <- <-|].
    case_decide as E1; [subst; by injection Hk as <- <-|done].
  - intros [_ ->]. exists [if b then x01 else x00], rest. split; [by apply exact_exact|]. by destruct b.
Qed.
Lemma exact_many {A} (p : parser E A) enc wt n :
  exact p enc wt →
  exact (read_many p n) (λ l, mjoin (enc <$> l)) (λ l, length l = n ∧ Forall wt l).
Proof.
  intros Hp. induction n as [|n IH]; intros input l rest; simpl.
  - split; [by intros [= <- <-]|]. intros [[Hl _] ->]. by apply nil_length_inv in Hl as ->.
  - rewrite parse_bind_Ok. split.
    + intros (x & mid & [Hx ->]%Hp & (l' & mid' & [[Hn Hl] ->]%IH & [= <- <-])%parse_bind_Ok).
      simpl. rewrite <-app_assoc. split; [|done]. split; [by f_equal|by constructor].
    + intros [[Hn Hl] ->]. destruct l as [|x l]; [done|]. apply Forall_cons in Hl as [Hx Hl].
      exists x, (mjoin (enc <$> l) ++ rest). split; [apply Hp; split; [done|by rewrite app_assoc]|].
      apply parse_bind_Ok. exists l, rest. split; [|done]. apply IH. simpl in Hn. split; [|done].
      split; [lia|done].
Qed.
End exact.

#[global] Arguments be_bytes : simpl never.
