(* ===== verification/Crypto.v ===== *)
(** * Block hashing and signatures

    [crypto.rs] of cordial-miners-core: the bytes a block hash covers and the
    default verifier.  The primitives come from external crates and are class
    parameters: Blake2b-256 and the Secp256k1 check of a signature of a hash. *)

From S2P Require Import Prelude Types Lace Bytes.
From stdpp Require Import options.

(** [Secp256k1Scheme::verify]: hash, public key, signature. *)
Class Secp256k1 := secp_verify : Hash32 → list byte → list byte → bool.

Module Crypto.
Section crypto.
Context `{HO : HashOrder}.

Definition BLOCK_HASH_DOMAIN : list byte := literal "cordial-block-hash-v3".

(** [(x.len() as u64).to_le_bytes()] and the bytes. *)
Definition le64 (x : N) : list byte := reverse (be64 (x mod 2 ^ 64)).
Definition le_field (bytes : list byte) : list byte := le64 (N.of_nat (length bytes)) ++ bytes.

(** The key predecessors are sorted by, and what is written of each. *)
Definition reference_key (id : BlockIdentity) : Hash32 * NodeId := (content_hash id, creator id).
Definition reference_bytes (key : Hash32 * NodeId) : list byte :=
  vec_to_list key.1 ++ le_field key.2.

(** The buffer [block_hash_ext] fills. *)
Definition block_hash_input (creator : NodeId) (c : BlockContent) : list byte :=
  let preds := map reference_key (sort_by_key reference_key (hash_iter (predecessors c))) in
  BLOCK_HASH_DOMAIN ++ le_field creator ++ le_field (payload c) ++
  le64 (N.of_nat (length preds)) ++ mjoin (map reference_bytes preds).

Definition block_hash_ext (creator : NodeId) (c : BlockContent) (hasher : list byte → Hash32) :
    Hash32 :=
  hasher (block_hash_input creator c).

Definition block_hash `{Blake2b} (creator : NodeId) (c : BlockContent) : Hash32 :=
  block_hash_ext creator c blake2b256.

Definition verify `{Secp256k1} (hash : Hash32) (public_key signature : list byte) : bool :=
  secp_verify hash public_key signature.

(** [impl CryptoVerifier for Secp256k1Scheme]. *)
Definition scheme_verify_block `{Blake2b} `{Secp256k1} (c : BlockContent) (signature : list byte)
    (creator : NodeId) : result unit string :=
  if verify (block_hash creator c) creator signature then Ok tt
  else Err "Signature verification failed"%string.

Definition Secp256k1Scheme `{Blake2b} `{Secp256k1} : CryptoVerifier :=
  {| verifier_error := string; verify_block := scheme_verify_block |}.

End crypto.
End Crypto.

(** Functions in the place of the primitives, to evaluate the model on: a
    polynomial of the bytes modulo 65521, and a scheme whose only valid
    signature is one fixed byte. *)
Definition sample_hash : Blake2b := λ bytes,
  let digest := foldl (λ acc b, (acc * 257 + Byte.to_N b + 1) mod 65521)%N 0%N bytes in
  default (vreplicate 32 x00) (vec_of_list 32 (be_bytes 32 digest)).
Definition sample_scheme : Secp256k1 := λ _ _ signature, bool_decide (signature = [x01]).
