(* ===== verification/LaceFacts.v ===== *)
(** * Properties of the blocklace

    Identity resolution, the pointed relation, the exactness and termination
    of the traversals, and the well-formedness invariant kept by insertion. *)

From S2P Require Import Prelude Types Lace.
From stdpp Require Import options.

(** ** The pointed relation *)

(** [points bl a b]: the stored block [a] has a predecessor reference that
    resolves to [b], and [a] is not the checkpoint boundary. *)
Definition points (bl : Blocklace.t) : relation BlockIdentity := λ a b,
  ∃ c p, Blocklace.blocks bl !! a = Some c ∧ p ∈ predecessors c ∧
    Blocklace.resolve_identity bl p = Some b ∧ Blocklace.checkpoint bl ≠ Some a.

(** CLOSED, away from the checkpoint. *)
Definition closed (bl : Blocklace.t) : Prop :=
  ∀ a c p, Blocklace.blocks bl !! a = Some c → Blocklace.checkpoint bl ≠ Some a →
    p ∈ predecessors c → is_Some (Blocklace.resolve_identity bl p).

(** At most one signature variant of a consensus identity. *)
Definition unique_variants (bl : Blocklace.t) : Prop :=
  ∀ a b, a ∈ Blocklace.dom bl → b ∈ Blocklace.dom bl → same_consensus_identity a b → a = b.

Definition acyclic (bl : Blocklace.t) : Prop := ∀ a, ¬ tc (points bl) a a.

Record well_formed (bl : Blocklace.t) : Prop := {
  wf_closed : closed bl;
  wf_unique : unique_variants bl;
  wf_acyclic : acyclic bl
}.

Lemma tc_inv_r {A} (R : relation A) x y : tc R x y → R x y ∨ ∃ z, tc R x z ∧ R z y.
Proof.
  induction 1 as [x y Hxy|x y z Hxy Hyz IH]; [by left|right].
  destruct IH as [?|(w & ? & ?)]; [eauto using tc_once|eauto using tc_l].
Qed.

(** ** Identity resolution *)

Section resolve.
Implicit Types bl : Blocklace.t.

Lemma elem_of_lace_dom bl i : i ∈ Blocklace.dom bl ↔ is_Some (Blocklace.blocks bl !! i).
Proof. unfold Blocklace.dom. apply elem_of_dom. Qed.

Lemma resolve_in_Some (m : gmap BlockIdentity BlockContent) p r :
  Blocklace.resolve_identity_in m p = Some r →
  is_Some (m !! r) ∧ same_consensus_identity r p ∧ (p = r ∨ signature p = []).
Proof.
  unfold Blocklace.resolve_identity_in.
  destruct (m !! p) as [c|] eqn:E; [intros [= <-]; split; [eauto|]; by split; [|left]|].
  case_decide as Hs; [done|].
  destruct (elements _) as [|r' [|]] eqn:El; try done. intros [= <-].
  assert (r' ∈ filter (λ k, same_consensus_identity k p) (dom m)) as Hr.
  { apply elem_of_elements. rewrite El. by left. }
  apply elem_of_filter in Hr as [? Hr]. apply elem_of_dom in Hr.
  split; [done|]. split; [done|]. right. by destruct (decide (signature p = [])).
Qed.

Lemma resolve_in_stored (m : gmap BlockIdentity BlockContent) p :
  is_Some (m !! p) → Blocklace.resolve_identity_in m p = Some p.
Proof. unfold Blocklace.resolve_identity_in. by intros [c ->]. Qed.

Lemma resolve_in_unsigned (m : gmap BlockIdentity BlockContent) p r :
  (∀ a b, is_Some (m !! a) → is_Some (m !! b) → same_consensus_identity a b → a = b) →
  signature p = [] → is_Some (m !! r) → same_consensus_identity r p →
  Blocklace.resolve_identity_in m p = Some r.
Proof.
  intros Huniq Hs Hr Hrp. unfold Blocklace.resolve_identity_in.
  destruct (m !! p) as [c|] eqn:E; [by rewrite (Huniq r p); eauto|].
  rewrite decide_False by tauto.
  assert (filter (λ k, same_consensus_identity k p) (dom m) = {[r]}) as ->.
  { apply set_eq. intros x. rewrite elem_of_filter, elem_of_dom, elem_of_singleton.
    split; [|by intros ->]. intros [Hx ?]. apply Huniq; [done..|]. by trans p. }
  by rewrite elements_singleton.
Qed.

Lemma resolve_Some bl p r :
  Blocklace.resolve_identity bl p = Some r →
  r ∈ Blocklace.dom bl ∧ same_consensus_identity r p ∧ (p = r ∨ signature p = []).
Proof. rewrite elem_of_lace_dom. apply resolve_in_Some. Qed.

Lemma resolve_stored bl p :
  p ∈ Blocklace.dom bl → Blocklace.resolve_identity bl p = Some p.
Proof. rewrite elem_of_lace_dom. apply resolve_in_stored. Qed.

Lemma resolve_idemp bl p r :
  Blocklace.resolve_identity bl p = Some r → Blocklace.resolve_identity bl r = Some r.
Proof. intros [??]%resolve_Some. by apply resolve_stored. Qed.

Lemma content_stored bl p c :
  Blocklace.blocks bl !! p = Some c → Blocklace.content bl p = Some c.
Proof.
  intros E. unfold Blocklace.content.
  by rewrite resolve_stored by (apply elem_of_lace_dom; eauto).
Qed.

Lemma content_Some bl p c :
  Blocklace.content bl p = Some c ↔
  ∃ r, Blocklace.resolve_identity bl p = Some r ∧ Blocklace.blocks bl !! r = Some c.
Proof. unfold Blocklace.content. rewrite bind_Some. naive_solver. Qed.

Lemma content_is_Some bl p :
  is_Some (Blocklace.content bl p) ↔ is_Some (Blocklace.resolve_identity bl p).
Proof.
  split.
  - intros [c (r & -> & _)%content_Some]. eauto.
  - intros [r Hr]. pose proof Hr as [[c Hc]%elem_of_lace_dom _]%resolve_Some.
    exists c. apply content_Some. eauto.
Qed.

Lemma get_Some bl p b :
  Blocklace.get bl p = Some b ↔
  Blocklace.resolve_identity bl p = Some (identity b) ∧
  Blocklace.blocks bl !! identity b = Some (content b).
Proof.
  unfold Blocklace.get. destruct (Blocklace.resolve_identity bl p) as [r|]; simpl; [|naive_solver].
  destruct (Blocklace.blocks bl !! r) as [c|] eqn:E; simpl.
  - split.
    + intros [= <-]. done.
    + intros [[= ->] E']. rewrite E in E'. destruct b; simpl in *. congruence.
  - split; [done|]. intros [[= ->] E']. congruence.
Qed.

Lemma get_stored bl i c :
  Blocklace.blocks bl !! i = Some c → Blocklace.get bl i = Some (mkBlock i c).
Proof.
  intros E. apply get_Some; simpl. split; [|done].
  apply resolve_stored, elem_of_lace_dom. eauto.
Qed.

Lemma get_is_Some bl p : is_Some (Blocklace.get bl p) ↔ is_Some (Blocklace.resolve_identity bl p).
Proof.
  split.
  - intros [b [-> _]%get_Some]. eauto.
  - intros [r Hr]. pose proof Hr as [[c Hc]%elem_of_lace_dom _]%resolve_Some.
    exists (mkBlock r c). by apply get_Some.
Qed.

Lemma points_dom bl a b : points bl a b → a ∈ Blocklace.dom bl ∧ b ∈ Blocklace.dom bl.
Proof.
  intros (c & p & Ha & Hp & Hb & _). rewrite elem_of_lace_dom at 1.
  split; [eauto|]. by eapply resolve_Some.
Qed.
Lemma tc_points_dom bl a b : tc (points bl) a b → a ∈ Blocklace.dom bl ∧ b ∈ Blocklace.dom bl.
Proof.
  induction 1 as [a b Hab|a m b [Ha _]%points_dom _ [_ Hb]]; [by apply points_dom|done].
Qed.
End resolve.

(** ** Exactness of the traversals *)

Section traversal.
Context `{HO : HashOrder}.
Implicit Types bl : Blocklace.t.

Lemma elem_of_expand bl a b :
  b ∈ Blocklace.expand bl a ↔
  ∃ c p, Blocklace.content bl a = Some c ∧ p ∈ predecessors c ∧
    Blocklace.resolve_identity bl p = Some b ∧ Blocklace.checkpoint bl ≠ Some a.
Proof.
  unfold Blocklace.expand, Blocklace.is_checkpoint_boundary.
  case_bool_decide as Hcp; [set_solver|].
  destruct (Blocklace.content bl a) as [c|]; [|set_solver].
  rewrite list_elem_of_omap. setoid_rewrite elem_of_hash_iter. naive_solver.
Qed.

Lemma expand_stored bl a b :
  a ∈ Blocklace.dom bl → edge (Blocklace.expand bl) a b ↔ points bl a b.
Proof.
  intros [c Hc]%elem_of_lace_dom. unfold edge, points.
  rewrite elem_of_expand, (content_stored _ _ _ Hc), Hc. done.
Qed.

Lemma expand_dom bl a b : edge (Blocklace.expand bl) a b → b ∈ Blocklace.dom bl.
Proof. unfold edge. rewrite elem_of_expand. intros (c & p & _ & _ & [? _]%resolve_Some & _). done. Qed.

Lemma tc_expand_stored bl a b :
  a ∈ Blocklace.dom bl → tc (edge (Blocklace.expand bl)) a b ↔ tc (points bl) a b.
Proof.
  intros Ha. split; intros Hab; revert Ha.
  - induction Hab as [a b Hab|a m b Ham Hmb IH]; intros Ha.
    + by apply tc_once, expand_stored.
    + eapply tc_l; [by apply expand_stored|]. apply IH. by eapply expand_dom.
  - induction Hab as [a b Hab|a m b Ham Hmb IH]; intros Ha.
    + by apply tc_once, expand_stored.
    + eapply tc_l; [by apply expand_stored|]. apply IH. by eapply points_dom.
Qed.

Lemma traversal_terminates bl push visited queue :
  (∀ x q, push x q ≡ₚ x :: q) → visited ⊆ Blocklace.dom bl → length queue = 1 →
  is_Some (worklist (Blocklace.expand bl) push (Blocklace.traversal_fuel bl) visited queue).
Proof.
  intros Hpush Hsub Hlen. eapply (worklist_terminates _ _ Hpush (Blocklace.dom bl)); [|done|].
  - intros x y. apply expand_dom.
  - rewrite Hlen. unfold Blocklace.traversal_fuel, Blocklace.dom. rewrite size_dom. lia.
Qed.

Lemma observe_spec bl from r :
  r ∈ Blocklace.observe bl from ↔
  ∃ f, Blocklace.resolve_identity bl from = Some f ∧ rtc (points bl) f r.
Proof.
  unfold Blocklace.observe.
  destruct (Blocklace.resolve_identity bl from) as [f|] eqn:Ef; [|set_solver].
  pose proof Ef as [Hf _]%resolve_Some.
  destruct (traversal_terminates bl push_queue {[f]} [f]) as [X HX];
    [apply push_queue_perm|set_solver|done|].
  rewrite HX; simpl. rewrite (worklist_sound _ _ push_queue_perm _ _ _ _ HX).
  - setoid_rewrite list_elem_of_singleton. split.
    + intros [->%elem_of_singleton|(x & -> & Hx)]; exists f; split; try done.
      by apply tc_rtc, tc_expand_stored.
    + intros (f' & [= <-] & [->|Ht]%rtc_tc); [left; set_solver|].
      right. exists f. split; [done|]. by apply tc_expand_stored.
  - intros x y ->%elem_of_singleton _. left. by left.
Qed.

Lemma ancestors_visited bl id :
  ∃ X, worklist (Blocklace.expand bl) push_stack (Blocklace.traversal_fuel bl) ∅ [id] = Some X ∧
    ∀ r, r ∈ X ↔ tc (edge (Blocklace.expand bl)) id r.
Proof.
  destruct (traversal_terminates bl push_stack ∅ [id]) as [X HX];
    [apply push_stack_perm|set_solver|done|].
  exists X. split; [done|]. intros r.
  rewrite (worklist_sound _ _ push_stack_perm _ _ _ _ HX) by (by intros ?? ?%elem_of_empty).
  setoid_rewrite list_elem_of_singleton. set_solver.
Qed.

Lemma lookup_get_set bl (X : gset BlockIdentity) i c :
  X ⊆ Blocklace.dom bl →
  Blocklace.get_set bl X !! i = Some c ↔ i ∈ X ∧ Blocklace.blocks bl !! i = Some c.
Proof.
  intros HX. unfold Blocklace.get_set. rewrite lookup_collect_blocks.
  - rewrite list_elem_of_omap. setoid_rewrite elem_of_hash_iter. split.
    + intros (x & Hx & [Hres Hc]%get_Some). simpl in *.
      rewrite resolve_stored in Hres by auto. naive_solver.
    + intros [Hi Hc]. exists i. split; [done|]. by apply get_stored.
  - intros b b' (x & _ & [_ Hb]%get_Some)%list_elem_of_omap
      (x' & _ & [_ Hb']%get_Some)%list_elem_of_omap E.
    rewrite E, Hb' in Hb. destruct b, b'; simpl in *; congruence.
Qed.

Lemma lookup_ancestors bl id i c :
  Blocklace.ancestors bl id !! i = Some c ↔
  tc (edge (Blocklace.expand bl)) id i ∧ Blocklace.blocks bl !! i = Some c.
Proof.
  unfold Blocklace.ancestors. destruct (ancestors_visited bl id) as (X & -> & HX); simpl.
  rewrite lookup_get_set, HX; [done|]. intros x [Hx|(y & _ & Hy)]%HX%tc_inv_r.
  - by eapply expand_dom.
  - by eapply expand_dom.
Qed.
End traversal.

Section relations.
Context `{HO : HashOrder}.
Implicit Types bl : Blocklace.t.

Lemma elem_of_ancestors bl id i :
  id ∈ Blocklace.dom bl → i ∈ dom (Blocklace.ancestors bl id) ↔ tc (points bl) id i.
Proof.
  intros Hid. rewrite elem_of_dom. unfold is_Some. setoid_rewrite lookup_ancestors.
  setoid_rewrite (tc_expand_stored bl id i Hid). split; [naive_solver|].
  intros Ht. pose proof Ht as [_ [c Hc]%elem_of_lace_dom]%tc_points_dom. eauto.
Qed.

Lemma precedes_stored bl a b :
  a ∈ Blocklace.dom bl → b ∈ Blocklace.dom bl →
  Blocklace.precedes bl a b = true ↔ tc (points bl) b a.
Proof.
  intros Ha Hb. unfold Blocklace.precedes. rewrite resolve_stored by done.
  by rewrite bool_decide_eq_true, elem_of_ancestors.
Qed.

Lemma elem_of_observe_stored bl a b :
  a ∈ Blocklace.dom bl → b ∈ Blocklace.observe bl a ↔ rtc (points bl) a b.
Proof.
  intros Ha. rewrite observe_spec, resolve_stored by done. naive_solver.
Qed.

Lemma observe_dom bl a b : b ∈ Blocklace.observe bl a → b ∈ Blocklace.dom bl.
Proof.
  rewrite observe_spec. intros (f & [Hf _]%resolve_Some & Hr).
  apply rtc_tc in Hr as [<-|[_ Hr]%tc_points_dom]; done.
Qed.

Lemma elem_of_blocks_by bl p b :
  b ∈ Blocklace.blocks_by bl p ↔
  Blocklace.blocks bl !! identity b = Some (content b) ∧ creator (identity b) = p.
Proof.
  unfold Blocklace.blocks_by. rewrite list_elem_of_fmap. split.
  - intros ([i c] & -> & [Hp Hi]%list_elem_of_filter). by apply elem_of_map_iter in Hi.
  - intros [Hi Hp]. exists (identity b, content b). split; [by destruct b|].
    apply list_elem_of_filter. split; [done|]. by apply elem_of_map_iter.
Qed.

Lemma NoDup_map_iter `{Countable K} {V} (m : gmap K V) : NoDup (map_iter m).*1.
Proof.
  unfold map_iter. pose proof (NoDup_hash_iter (dom m)) as Hnd.
  induction (hash_iter (dom m)) as [|k l IH]; simpl; [constructor|].
  apply NoDup_cons in Hnd as [Hk Hnd]. destruct (m !! k) as [v|]; simpl; [|by apply IH].
  constructor; [|by apply IH]. rewrite list_elem_of_fmap.
  intros ([k' v'] & -> & (k'' & Hk'' & E)%list_elem_of_omap). simpl in Hk.
  destruct (m !! k''); naive_solver.
Qed.

Lemma NoDup_blocks_by bl p : NoDup (map identity (Blocklace.blocks_by bl p)).
Proof.
  unfold Blocklace.blocks_by. rewrite map_map. simpl.
  pose proof (NoDup_map_iter (Blocklace.blocks bl)) as Hnd.
  induction (map_iter (Blocklace.blocks bl)) as [|e l IH]; simpl in *; [constructor|].
  apply NoDup_cons in Hnd as [He Hnd]. rewrite filter_cons. case_decide; simpl; auto.
  constructor; auto. rewrite list_elem_of_fmap. intros (e' & E & He'%list_elem_of_filter).
  apply He. rewrite E. apply list_elem_of_fmap. naive_solver.
Qed.

Definition comparable bl a b : Prop := tc (points bl) a b ∨ tc (points bl) b a.

Lemma pairwise_comparable_spec bl l :
  (∀ b, b ∈ l → identity b ∈ Blocklace.dom bl) → NoDup (map identity l) →
  Blocklace.pairwise_comparable bl l = true ↔
  (∀ a b, a ∈ l → b ∈ l → identity a ≠ identity b → comparable bl (identity a) (identity b)).
Proof.
  induction l as [|a l IH]; intros Hl Hnd; simpl; [split; [set_solver|done]|].
  apply NoDup_cons in Hnd as [Ha Hnd].
  assert (∀ b, b ∈ l → identity b ∈ Blocklace.dom bl) as Hl' by (intros; apply Hl; by right).
  assert (identity a ∈ Blocklace.dom bl) as Hda by (apply Hl; by left).
  rewrite andb_true_iff, (IH Hl' Hnd), forallb_true. setoid_rewrite orb_true_iff.
  assert (∀ b, b ∈ l → identity a ≠ identity b) as Hne.
  { intros b Hb E. apply Ha. apply list_elem_of_fmap. eauto. }
  split.
  - intros [H1 H2] b c [->|Hb]%elem_of_cons [->|Hc]%elem_of_cons Hbc; [done|..|by apply H2].
    + specialize (H1 c Hc). rewrite !precedes_stored in H1 by auto. unfold comparable. tauto.
    + specialize (H1 b Hb). rewrite !precedes_stored in H1 by auto. unfold comparable. tauto.
  - intros Hall. split.
    + intros b Hb. rewrite !precedes_stored by auto.
      assert (comparable bl (identity a) (identity b)) as [?|?]
        by (apply Hall; [by left|by right|by apply Hne]); tauto.
    + intros b c Hb Hc. apply Hall; by right.
Qed.

Lemma satisfies_chain_axiom_spec bl p :
  Blocklace.satisfies_chain_axiom bl p = true ↔
  ∀ a b, a ∈ Blocklace.dom bl → b ∈ Blocklace.dom bl → creator a = p → creator b = p →
    a ≠ b → comparable bl a b.
Proof.
  unfold Blocklace.satisfies_chain_axiom. rewrite pairwise_comparable_spec; [|..].
  - setoid_rewrite elem_of_blocks_by. split.
    + intros Hall a b [ca Ha]%elem_of_lace_dom [cb Hb]%elem_of_lace_dom Hpa Hpb Hne.
      by apply (Hall (mkBlock a ca) (mkBlock b cb)).
    + intros Hall a b [Ha Hpa] [Hb Hpb] Hne.
      apply Hall; auto; apply elem_of_lace_dom; eauto.
  - intros b [Hb _]%elem_of_blocks_by. apply elem_of_lace_dom. eauto.
  - apply NoDup_blocks_by.
Qed.

Lemma elem_of_find_equivacators bl p :
  p ∈ Blocklace.find_equivacators bl ↔
  ∃ a b, a ∈ Blocklace.dom bl ∧ b ∈ Blocklace.dom bl ∧ creator a = p ∧ creator b = p ∧
    a ≠ b ∧ ¬ comparable bl a b.
Proof.
  unfold Blocklace.find_equivacators, Blocklace.all_nodes.
  rewrite elem_of_filter, elem_of_map, <-not_true_iff_false. split.
  - intros [Hn _].
    destruct (Blocklace.pairwise_comparable bl (Blocklace.blocks_by bl p)) eqn:E; [done|].
    clear Hn. assert (∀ b, b ∈ Blocklace.blocks_by bl p →
        identity b ∈ Blocklace.dom bl ∧ creator (identity b) = p) as Hl.
    { intros b [Hb ?]%elem_of_blocks_by. rewrite elem_of_lace_dom. eauto. }
    pose proof (NoDup_blocks_by bl p) as Hnd.
    induction (Blocklace.blocks_by bl p) as [|a l IH]; simpl in *; [done|].
    apply NoDup_cons in Hnd as [Ha Hnd].
    apply andb_false_iff in E as [E|E]; [|apply IH; auto; intros; apply Hl; by right].
    destruct (Hl a) as [Hda Hpa]; [by left|].
    assert (∃ b, b ∈ l ∧ Blocklace.precedes bl (identity a) (identity b) = false ∧
        Blocklace.precedes bl (identity b) (identity a) = false) as (b & Hb & H1 & H2).
    { apply forallb_false in E as (b & ? & []%orb_false_iff). eauto. }
    destruct (Hl b) as [Hdb Hpb]; [by right|].
    exists (identity a), (identity b). split_and!; try done.
    + intros E'. apply Ha. rewrite E'. apply list_elem_of_fmap. eauto.
    + intros [Hc|Hc]; apply precedes_stored in Hc; congruence.
  - intros (a & b & Ha & Hb & Hpa & Hpb & Hne & Hinc). split; [|by exists a].
    intros Hsat. apply Hinc. by apply (proj1 (satisfies_chain_axiom_spec bl p) Hsat).
Qed.

Lemma is_closed_spec bl : Blocklace.is_closed bl = true ↔ closed bl.
Proof.
  unfold Blocklace.is_closed, closed, Blocklace.is_checkpoint_boundary.
  rewrite forallb_true. setoid_rewrite orb_true_iff.
  setoid_rewrite bool_decide_eq_true. setoid_rewrite forallb_true.
  setoid_rewrite bool_decide_eq_true. setoid_rewrite elem_of_hash_iter. split.
  - intros Hall a c p Ha Hcp Hp.
    destruct (Hall (a, c)) as [?|Hf]; [by apply elem_of_map_iter|done|by apply Hf].
  - intros Hall [a c] Ha%elem_of_map_iter; simpl.
    destruct (decide (Blocklace.checkpoint bl = Some a)); [by left|right]. eauto.
Qed.
End relations.

(** ** Acyclicity *)

Section acyclic.
Context `{HO : HashOrder}.
Implicit Types bl : Blocklace.t.

(** In an acyclic lace the number of strict ancestors is a rank. *)
Definition ancestor_rank bl (a : BlockIdentity) : nat := size (dom (Blocklace.ancestors bl a)).

Lemma ancestor_rank_lt bl a b :
  acyclic bl → points bl a b → ancestor_rank bl b < ancestor_rank bl a.
Proof.
  intros Hac Hab. pose proof (points_dom _ _ _ Hab) as [Ha Hb].
  apply subset_size. split.
  - intros x. rewrite !elem_of_ancestors by done. by apply tc_l.
  - intros Hsub. apply (Hac b). apply elem_of_ancestors; [done|].
    apply Hsub, elem_of_ancestors; [done|]. by apply tc_once.
Qed.

Lemma ancestor_rank_le bl a : ancestor_rank bl a ≤ size (Blocklace.blocks bl).
Proof.
  unfold ancestor_rank. rewrite <-size_dom. apply subseteq_size.
  intros x [c Hx]%elem_of_dom. apply lookup_ancestors in Hx as [_ Hx].
  apply elem_of_dom. eauto.
Qed.

Lemma acyclic_from_rank bl (rank : BlockIdentity → nat) :
  (∀ a b, points bl a b → rank b < rank a) → acyclic bl.
Proof.
  intros Hr a Ha. assert (∀ x y, tc (points bl) x y → rank y < rank x) as Htc.
  { induction 1 as [x y ?|x y z ? _ IH]; [by apply Hr|]. etrans; [exact IH|by apply Hr]. }
  apply Htc in Ha. lia.
Qed.

Lemma acyclic_rtc_antisymm bl a b :
  acyclic bl → rtc (points bl) a b → rtc (points bl) b a → a = b.
Proof.
  intros Hac [->|Hab]%rtc_tc [?|Hba]%rtc_tc; try done.
  exfalso. apply (Hac a). by trans b.
Qed.

Lemma comparable_rtc bl a b :
  a ≠ b → comparable bl a b ↔ rtc (points bl) a b ∨ rtc (points bl) b a.
Proof.
  intros Hne. unfold comparable. rewrite !rtc_tc. naive_solver.
Qed.
End acyclic.

(** ** Insertion *)

(** What a signature commits to: the payload and the signature-independent
    predecessor references. *)
Definition consensus_refs (c : BlockContent) : list byte * gset BlockIdentity :=
  (payload c, set_map consensus_identity (predecessors c)).

(** Blocks of one identity have one content: its payload and its references. *)
Definition one_content (bs : list Block) : Prop :=
  ∀ b1 b2, b1 ∈ bs → b2 ∈ bs → identity b1 = identity b2 →
    consensus_refs (content b1) = consensus_refs (content b2).

Lemma one_content_spec bs :
  Forall (λ b1, Forall (λ b2, identity b1 = identity b2 →
    consensus_refs (content b1) = consensus_refs (content b2)) bs) bs ↔ one_content bs.
Proof. rewrite Forall_forall. setoid_rewrite Forall_forall. unfold one_content. naive_solver. Qed.
#[export] Instance one_content_dec bs : Decision (one_content bs).
Proof.
  refine (cast_if (decide (Forall (λ b1, Forall (λ b2, identity b1 = identity b2 →
    consensus_refs (content b1) = consensus_refs (content b2)) bs) bs)));
    by rewrite <-one_content_spec.
Defined.

(** The blocklaces reached from an empty one by successful insertions of [bs]. *)
Inductive inserted `{HashOrder} `{CryptoVerifier} : list Block → Blocklace.t → Prop :=
  | inserted_new address : inserted [] (Blocklace.new address)
  | inserted_insert bs bl b bl' :
      inserted bs bl → Blocklace.insert bl b = Ok bl' → inserted (b :: bs) bl'.

Section insertion.
Context `{HO : HashOrder}.
Implicit Types bl : Blocklace.t.

Lemma conflicting_None bl id :
  Blocklace.conflicting_identity_variant bl id = None ↔
  id ∈ Blocklace.dom bl ∨ ∀ k, k ∈ Blocklace.dom bl → ¬ same_consensus_identity k id.
Proof.
  unfold Blocklace.conflicting_identity_variant. rewrite elem_of_lace_dom.
  destruct (Blocklace.blocks bl !! id) as [c|] eqn:E; [naive_solver|].
  rewrite fmap_None, list_find_None, Forall_forall. setoid_rewrite elem_of_hash_iter.
  split; [by right|]. intros [[? [=]]|?]; done.
Qed.

Lemma conflicting_Some bl id k :
  Blocklace.conflicting_identity_variant bl id = Some k →
  id ∉ Blocklace.dom bl ∧ k ∈ Blocklace.dom bl ∧ same_consensus_identity k id.
Proof.
  unfold Blocklace.conflicting_identity_variant. rewrite elem_of_lace_dom.
  destruct (Blocklace.blocks bl !! id) as [c|] eqn:E; [done|].
  intros ([n k'] & (Hk & Hs & _)%list_find_Some & ->)%fmap_Some; simpl.
  apply list_elem_of_lookup_2, elem_of_hash_iter in Hk. split; [by intros [??]|done].
Qed.

(** What a successful commit leaves. *)
Lemma commit_Ok bl id c bl' :
  Blocklace.commit_validated bl id c = Ok bl' →
  Blocklace.blocks bl' = <[id := c]> (Blocklace.blocks bl) ∧
  Blocklace.checkpoint bl' = Blocklace.checkpoint bl ∧
  Blocklace.checkpoint_depth bl' = Blocklace.checkpoint_depth bl ∧
  Blocklace.generation bl' = wrapping_add64 (Blocklace.generation bl) 1 ∧
  Blocklace.cache_identity bl' = Blocklace.cache_identity bl ∧
  (id ∈ Blocklace.dom bl ∨ ∀ k, k ∈ Blocklace.dom bl → ¬ same_consensus_identity k id).
Proof.
  unfold Blocklace.commit_validated. rewrite <-conflicting_None.
  destruct (Blocklace.conflicting_identity_variant bl id); [done|]. intros [= <-]. done.
Qed.

Lemma commit_unique bl id c bl' :
  unique_variants bl → Blocklace.commit_validated bl id c = Ok bl' → unique_variants bl'.
Proof.
  intros Hu (Hb & _ & _ & _ & _ & Hfresh)%commit_Ok a b.
  rewrite !elem_of_lace_dom, Hb, <-!elem_of_dom, !dom_insert, !elem_of_union, !elem_of_singleton.
  rewrite !elem_of_dom, <-!elem_of_lace_dom.
  destruct Hfresh as [Hid|Hid].
  - intros [->|Ha] [->|Hb']; auto.
  - intros [->|Ha] [->|Hb'] Hs; auto; [|by apply Hid in Hs].
    symmetry in Hs. by apply Hid in Hs.
Qed.

Lemma resolve_dom_eq bl bl' p :
  Blocklace.dom bl = Blocklace.dom bl' →
  Blocklace.resolve_identity bl p = Blocklace.resolve_identity bl' p.
Proof.
  unfold Blocklace.resolve_identity, Blocklace.resolve_identity_in, Blocklace.dom.
  intros E. rewrite E. assert (is_Some (Blocklace.blocks bl !! p) ↔ is_Some (Blocklace.blocks bl' !! p)) as Hs
    by (by rewrite <-!elem_of_dom, E).
  destruct (Blocklace.blocks bl !! p), (Blocklace.blocks bl' !! p); try done.
  - destruct Hs as [[? [=]] _]; eauto.
  - destruct Hs as [_ [? [=]]]; eauto.
Qed.

(** A reference that resolves keeps its target when a block is committed;
    one that did not resolve can only resolve to the new block. *)
Lemma commit_resolve bl id c bl' p :
  unique_variants bl → Blocklace.commit_validated bl id c = Ok bl' →
  match Blocklace.resolve_identity bl p with
  | Some r => Blocklace.resolve_identity bl' p = Some r
  | None => ∀ r, Blocklace.resolve_identity bl' p = Some r → r = id
  end.
Proof.
  intros Hu Hc. pose proof (commit_unique _ _ _ _ Hu Hc) as Hu'.
  apply commit_Ok in Hc as (Hb & _ & _ & _ & _ & Hfresh).
  assert (∀ k, k ∈ Blocklace.dom bl' ↔ k = id ∨ k ∈ Blocklace.dom bl) as Hdom.
  { intros k. rewrite !elem_of_lace_dom, Hb, <-!elem_of_dom, dom_insert. set_solver. }
  destruct (Blocklace.resolve_identity bl p) as [r|] eqn:E.
  - apply resolve_Some in E as (Hr & Hs & [->|Hsig]).
    + apply resolve_stored, Hdom. by right.
    + apply resolve_in_unsigned; [|done|apply elem_of_lace_dom, Hdom; by right|done].
      intros a b. rewrite <-!elem_of_lace_dom. apply Hu'.
  - intros r (Hr & Hs & Hsig)%resolve_Some. apply Hdom in Hr as [->|Hr]; [done|].
    exfalso. enough (Blocklace.resolve_identity bl p = Some r) by congruence.
    destruct Hsig as [->|Hsig]; [by apply resolve_stored|].
    apply resolve_in_unsigned; [|done|by apply elem_of_lace_dom|done].
    intros a b. rewrite <-!elem_of_lace_dom. apply Hu.
Qed.

Lemma insert_Ok `{CryptoVerifier} bl b bl' :
  Blocklace.insert bl b = Ok bl' ↔
  verify_block (content b) (signature (identity b)) (creator (identity b)) = Ok tt ∧
  (∀ p, p ∈ predecessors (content b) → is_Some (Blocklace.resolve_identity bl p)) ∧
  Blocklace.commit_validated bl (identity b) (content b) = Ok bl'.
Proof.
  unfold Blocklace.insert. rewrite result_bind_Ok. setoid_rewrite map_err_Ok.
  destruct (Blocklace.missing_predecessors bl b) as [|m l] eqn:E.
  - assert (∀ p, p ∈ predecessors (content b) → is_Some (Blocklace.resolve_identity bl p)) as Hm.
    { intros p Hp. destruct (Blocklace.resolve_identity bl p) eqn:Ep; [eauto|exfalso].
      assert (p ∈ Blocklace.missing_predecessors bl b) as Hin
        by (by apply list_elem_of_filter; rewrite elem_of_hash_iter).
      rewrite E in Hin. by apply elem_of_nil in Hin. }
    setoid_rewrite map_err_Ok. split; [intros ([] & ? & ?); done|].
    intros (? & _ & ?). by exists tt.
  - assert (m ∈ Blocklace.missing_predecessors bl b) as Hm by (rewrite E; by left).
    apply list_elem_of_filter in Hm as [Hm1 Hm2]. rewrite elem_of_hash_iter in Hm2.
    split; [intros (? & _ & [=])|]. intros (_ & Hall & _).
    destruct (Hall m Hm2). congruence.
Qed.

(** A fresh block points only at old blocks, and nothing points at it. *)
Lemma commit_fresh_points bl id c bl' a b :
  well_formed bl → id ∉ Blocklace.dom bl →
  (∀ p, p ∈ predecessors c → is_Some (Blocklace.resolve_identity bl p)) →
  Blocklace.commit_validated bl id c = Ok bl' → points bl' a b →
  b ∈ Blocklace.dom bl ∧ (a = id ∨ points bl a b).
Proof.
  intros [Hcl Hu _] Hid Hm Hc (c' & p & Ha & Hp & Hr & Hcp).
  pose proof (commit_resolve _ _ _ _ p Hu Hc) as Hres.
  apply commit_Ok in Hc as (Hb & Hck & _). rewrite Hck in Hcp. rewrite Hb in Ha.
  destruct (decide (a = id)) as [->|Hne].
  - rewrite lookup_insert_eq in Ha. injection Ha as <-.
    destruct (Hm p Hp) as [r Er]. rewrite Er in Hres. simplify_eq.
    apply resolve_Some in Er as [? _]. auto.
  - rewrite lookup_insert_ne in Ha by done.
    destruct (Hcl a c' p Ha Hcp Hp) as [r Er]. rewrite Er in Hres. simplify_eq.
    split; [by apply resolve_Some in Er as [? _]|]. right. by exists c', p.
Qed.

Lemma commit_fresh_well_formed bl id c bl' :
  well_formed bl → id ∉ Blocklace.dom bl →
  (∀ p, p ∈ predecessors c → is_Some (Blocklace.resolve_identity bl p)) →
  Blocklace.commit_validated bl id c = Ok bl' → well_formed bl'.
Proof.
  intros Hwf Hid Hm Hc. pose proof Hwf as [Hcl Hu Hac]. split.
  - intros a c' p Ha Hcp Hp. pose proof (commit_resolve _ _ _ _ p Hu Hc) as Hres.
    apply commit_Ok in Hc as (Hb & Hck & _). rewrite Hck in Hcp. rewrite Hb in Ha.
    assert (is_Some (Blocklace.resolve_identity bl p)) as [r Er].
    { destruct (decide (a = id)) as [->|Hne].
      - rewrite lookup_insert_eq in Ha. injection Ha as <-. by apply Hm.
      - rewrite lookup_insert_ne in Ha by done. eauto. }
    rewrite Er in Hres. eauto.
  - by eapply commit_unique.
  - apply (acyclic_from_rank _ (λ x, if decide (x = id) then S (size (Blocklace.blocks bl))
                                     else ancestor_rank bl x)).
    intros a b Hab. eapply commit_fresh_points in Hab as [Hb Hab]; [|done..].
    rewrite (decide_False (P := b = id)) by congruence.
    case_decide as Ha.
    + pose proof (ancestor_rank_le bl b). lia.
    + destruct Hab as [?|Hab]; [done|]. by apply ancestor_rank_lt.
Qed.
End insertion.

Section insert_invariant.
Context `{HO : HashOrder} `{CryptoVerifier}.
Implicit Types bl : Blocklace.t.

Lemma commit_known_dom bl id c bl' :
  id ∈ Blocklace.dom bl → Blocklace.commit_validated bl id c = Ok bl' →
  Blocklace.dom bl' = Blocklace.dom bl.
Proof.
  intros Hid (Hb & _)%commit_Ok. unfold Blocklace.dom in *. rewrite Hb, dom_insert_L.
  apply set_eq. set_solver.
Qed.

(** Committing a stored identity again, with content that has the same
    consensus references, changes no edge. *)
Lemma commit_known_points bl id c0 c bl' a b :
  well_formed bl → Blocklace.blocks bl !! id = Some c0 → consensus_refs c0 = consensus_refs c →
  Blocklace.commit_validated bl id c = Ok bl' → points bl' a b → points bl a b.
Proof.
  intros [Hcl Hu _] Hid Hrefs Hc (c' & p & Ha & Hp & Hr & Hcp).
  rewrite (resolve_dom_eq _ bl) in Hr
    by (eapply commit_known_dom; [apply elem_of_lace_dom; eauto|done]).
  apply commit_Ok in Hc as (Hb & Hck & _). rewrite Hck in Hcp. rewrite Hb in Ha.
  destruct (decide (a = id)) as [->|Hne].
  2:{ rewrite lookup_insert_ne in Ha by done. by exists c', p. }
  rewrite lookup_insert_eq in Ha. injection Ha as <-.
  apply (f_equal snd) in Hrefs. simpl in Hrefs.
  assert (consensus_identity p ∈@{gset BlockIdentity}
    set_map consensus_identity (predecessors c0)) as Hin
    by (rewrite Hrefs; by apply elem_of_map_2).
  apply elem_of_map in Hin as (p0 & Hpp & Hp0).
  destruct (Hcl id c0 p0 Hid Hcp Hp0) as [r0 Er0].
  pose proof Er0 as (Hr0 & Hs0 & _)%resolve_Some. apply resolve_Some in Hr as (Hr & Hs & _).
  apply same_consensus_identity_alt in Hpp.
  assert (r0 = b) as -> by (apply Hu; [done..|]; etrans; [exact Hs0|]; by rewrite <-Hpp).
  by exists c0, p0.
Qed.

(** Committing keeps a blocklace well formed when the references resolve and a
    stored block keeps its references. *)
Lemma commit_well_formed bl id c bl' :
  well_formed bl → (∀ p, p ∈ predecessors c → is_Some (Blocklace.resolve_identity bl p)) →
  (∀ c0, Blocklace.blocks bl !! id = Some c0 → consensus_refs c0 = consensus_refs c) →
  Blocklace.commit_validated bl id c = Ok bl' → well_formed bl'.
Proof.
  intros Hwf Hm Hrefs Hc. pose proof Hwf as [Hcl Hu Hac].
  pose proof Hc as (Hb & Hck & _)%commit_Ok.
  destruct (decide (id ∈ Blocklace.dom bl)) as [Hid|Hid]; [|by eapply commit_fresh_well_formed].
  pose proof Hid as [c0 Hc0]%elem_of_lace_dom.
  pose proof (commit_known_dom _ _ _ _ Hid Hc) as Hdom. split.
  - intros a c' p Ha Hcp Hp. rewrite Hck in Hcp. rewrite Hb in Ha.
    rewrite (resolve_dom_eq _ bl) by done. destruct (decide (a = id)) as [->|Hne].
    + rewrite lookup_insert_eq in Ha. injection Ha as <-. by apply Hm.
    + rewrite lookup_insert_ne in Ha by done. eauto.
  - by eapply commit_unique.
  - apply (acyclic_from_rank _ (ancestor_rank bl)). intros x y Hxy.
    apply ancestor_rank_lt; [done|].
    eapply commit_known_points; [done|exact Hc0| |exact Hc|exact Hxy]. eauto.
Qed.

Lemma new_well_formed address : well_formed (Blocklace.new address).
Proof.
  split.
  - intros a c p Ha. simpl in Ha. by rewrite lookup_empty in Ha.
  - intros a b Ha. unfold Blocklace.dom in Ha. simpl in Ha. set_solver.
  - intros a [Ha _]%tc_points_dom. unfold Blocklace.dom in Ha. simpl in Ha. set_solver.
Qed.

(** What is stored was inserted. *)
Lemma inserted_stored bs bl i c :
  inserted bs bl → Blocklace.blocks bl !! i = Some c → mkBlock i c ∈ bs.
Proof.
  intros Hi. revert i c. induction Hi as [address|bs bl b bl' _ IH (_ & _ & Hc)%insert_Ok]; intros i c.
  - simpl. by rewrite lookup_empty.
  - apply commit_Ok in Hc as (-> & _). rewrite lookup_insert_Some, elem_of_cons.
    intros [[<- <-]|[_ ?]]; [left; by destruct b|right; auto].
Qed.
Lemma inserted_well_formed bs bl : one_content bs → inserted bs bl → well_formed bl.
Proof.
  intros Hone Hi. induction Hi as [address|bs bl b bl' Hi IH (_ & Hm & Hc)%insert_Ok].
  - apply new_well_formed.
  - eapply commit_well_formed; [|exact Hm| |exact Hc].
    + apply IH. intros b1 b2 ? ?. apply Hone; by right.
    + intros c0 Hc0%(inserted_stored bs); [|done]. by apply (Hone (mkBlock (identity b) c0) b); [right|left|].
Qed.
End insert_invariant.
