(* ===== verification/Samples.v ===== *)
(** * Concrete blocklaces

    Small blocklaces on which the theorems are instantiated and evaluated. *)

From S2P Require Import Prelude Types Lace LaceFacts.
From stdpp Require Import options.

#[local] Existing Instance elements_order.

(** An identity with a hash that starts with [h]. *)
Definition sample_id (h c s : byte) : BlockIdentity :=
  mkIdentity (h ::: vreplicate 31 x00) [c] [s].
Definition sample_block (h c s : byte) (preds : list BlockIdentity) : Block :=
  mkBlock (sample_id h c s) (mkContent [h] (list_to_set preds)).

Definition lace_of (bs : list Block) : Blocklace.t :=
  {| Blocklace.blocks := list_to_map (map block_entry bs);
     Blocklace.trusted_boundary_predecessors := ∅; Blocklace.checkpoint := None;
     Blocklace.checkpoint_depth := None; Blocklace.checkpoint_order_prefix := [];
     Blocklace.checkpoint_weighted_order_prefix := []; Blocklace.generation := 0;
     Blocklace.cache_identity := 0 |}.

(** A blocklace whose stored blocks are listed with every resolved edge going
    to a block later in the list is acyclic. *)
Fixpoint edges_descend (bl : Blocklace.t) (bs : list BlockIdentity) : bool :=
  match bs with
  | [] => true
  | b :: bs =>
    forallb (λ r, bool_decide (r ∈ bs)) (Blocklace.expand bl b) && edges_descend bl bs
  end.

Lemma edges_descend_acyclic bl bs :
  NoDup bs → (∀ i, i ∈ Blocklace.dom bl → i ∈ bs) → edges_descend bl bs = true → acyclic bl.
Proof.
  intros Hnd Hall Hd.
  assert (∀ a b, tc (points bl) a b → ∃ n m, bs !! n = Some a ∧ bs !! m = Some b ∧ n < m) as Htc.
  { assert (∀ a b, points bl a b → ∃ n m, bs !! n = Some a ∧ bs !! m = Some b ∧ n < m) as Hstep.
    { intros a b Hab. pose proof (points_dom _ _ _ Hab) as [Ha _].
      apply expand_stored in Hab; [|done]. apply Hall in Ha. clear Hall Hnd.
      induction bs as [|x bs IH]; [by apply elem_of_nil in Ha|]. simpl in Hd.
      apply andb_true_iff in Hd as [Hx Hd]. apply elem_of_cons in Ha as [->|Ha].
      - rewrite forallb_true in Hx. specialize (Hx b Hab). apply bool_decide_eq_true in Hx.
        apply list_elem_of_lookup in Hx as [m Hm]. exists 0, (S m). simpl. split_and!; [done..|lia].
      - destruct (IH Hd Ha) as (n & m & ? & ? & ?). exists (S n), (S m). simpl. split_and!; [done..|lia]. }
    induction 1 as [a b Hab|a m b Ham _ IH]; [by apply Hstep|].
    destruct (Hstep _ _ Ham) as (i & j & Hi & Hj & ?), IH as (j' & k & Hj' & Hk & ?).
    assert (j = j') as <- by (by eapply NoDup_lookup). exists i, k. split_and!; [done..|lia]. }
  intros a (n & m & Hn & Hm & Hlt)%Htc. assert (n = m) by (by eapply NoDup_lookup). lia.
Qed.

Lemma no_variants bl (bs : list BlockIdentity) :
  (∀ i, i ∈ Blocklace.dom bl → i ∈ bs) → NoDup (map consensus_identity bs) → unique_variants bl.
Proof.
  intros Hall Hnd a b Ha%Hall Hb%Hall E%same_consensus_identity_alt.
  apply list_elem_of_lookup in Ha as [i Hi], Hb as [j Hj].
  assert (i = j) as <-; [|congruence]. eapply NoDup_lookup; [exact Hnd|..];
    rewrite list_lookup_fmap; [by rewrite Hi|rewrite Hj; simpl; by rewrite E].
Qed.

(** ** One validator, one late-comer

    [A0 <- B1 <- A2 -> C0]: the leader [A] of every wave of length one, a block
    of [B] in between, and the first block of [C], unknown to [A0]. *)

Definition A0 := sample_block x03 x0a x01 [].
Definition C0 := sample_block x02 x0c x02 [].
Definition B1 := sample_block x01 x0b x03 [identity A0].
Definition A2 := sample_block x04 x0a x04 [identity B1; identity C0].
Definition small_blocks : list Block := [A2; B1; C0; A0].
Definition small : Blocklace.t := lace_of small_blocks.
Definition small_bonds : gmap NodeId N := {[ [x0a] := 100%N; [x0b] := 10%N; [x0c] := 10%N ]}.
Definition always_A (_ : N) : option NodeId := Some [x0a].

(** ** A fork

    [A] forks in round 0; [B] approves one branch, [D] the other. *)

Definition F0 := sample_block x05 x0a x05 [].
Definition G0 := sample_block x06 x0a x06 [].
Definition B2 := sample_block x07 x0b x07 [identity F0].
Definition D2 := sample_block x08 x0d x08 [identity G0].
Definition fork_blocks : list Block := [D2; B2; G0; F0].
Definition fork : Blocklace.t := lace_of fork_blocks.

(** Both branches grow: [A] ratifies each of them. *)

Definition A3 := sample_block x09 x0a x09 [identity B2].
Definition A4 := sample_block x0e x0a x0e [identity D2].
Definition deep_fork_blocks : list Block := [A4; A3; D2; B2; G0; F0].
Definition deep_fork : Blocklace.t := lace_of deep_fork_blocks.

Lemma lace_of_dom bs i : i ∈ Blocklace.dom (lace_of bs) → i ∈ map identity bs.
Proof.
  unfold Blocklace.dom. simpl. rewrite dom_list_to_map, elem_of_list_to_set, map_map. done.
Qed.

Lemma small_acyclic : acyclic small.
Proof.
  apply (edges_descend_acyclic _ (map identity small_blocks)).
  - decided.
  - intros i. apply lace_of_dom.
  - by vm_compute.
Qed.
Lemma fork_acyclic : acyclic fork.
Proof.
  apply (edges_descend_acyclic _ (map identity fork_blocks)).
  - decided.
  - intros i. apply lace_of_dom.
  - by vm_compute.
Qed.
Lemma deep_fork_acyclic : acyclic deep_fork.
Proof.
  apply (edges_descend_acyclic _ (map identity deep_fork_blocks)).
  - decided.
  - intros i. apply lace_of_dom.
  - by vm_compute.
Qed.
Lemma small_unique : unique_variants small.
Proof.
  apply (no_variants _ (map identity small_blocks)); [apply lace_of_dom|].
  decided.
Qed.
Lemma small_closed : closed small.
Proof. apply is_closed_spec. by vm_compute. Qed.
Lemma small_well_formed : well_formed small.
Proof. split; [apply small_closed|apply small_unique|apply small_acyclic]. Qed.
Lemma stored_in bl i : bool_decide (i ∈ Blocklace.dom bl) = true → i ∈ Blocklace.dom bl.
Proof. by rewrite bool_decide_eq_true. Qed.
