(* ===== verification/AncestorIndex.v ===== *)
(** * The ancestor index

    [ancestor_index.rs]: the closure bit matrix built by one iterative
    depth-first search, the chain test, and the index of equivocating siblings
    that answers approval queries. *)

From S2P Require Import Prelude Types Lace.
From stdpp Require Import options.

(** ** [Closure]: a row-major bit matrix of [u64] words *)

Module Closure.

Record t := mk { words : nat; bits : list N }.

(** [preds[node]], or nothing where the expansion stops. *)
Definition children (preds : list (list nat)) (stop : list bool) (node : nat) : list nat :=
  if (stop !!! node : bool) then [] else preds !!! node.

(** The search state: 0 = unvisited, 1 = on the stack, 2 = row complete. *)
Record dfs := mkDfs {
  state : list nat;
  stack : list (nat * nat);
  dfs_bits : list N
}.

(** [bits[row + node / 64] |= 1 << (node % 64)] *)
Definition set_self (words : nat) (bits : list N) (node : nat) : list N :=
  let i := node * words + node / 64 in
  <[i := N.lor (bits !!! i) (N.shiftl 1 (N.of_nat (node mod 64)))]> bits.

(** [for w in 0..words { bits[row + w] |= bits[child * words + w] }] *)
Definition or_row (words : nat) (bits : list N) (node child : nat) : list N :=
  foldl (λ bits w,
    <[node * words + w :=
      N.lor (bits !!! (node * words + w)) (bits !!! (child * words + w))]> bits)
    bits (seq 0 words).

Definition finish_row (words : nat) (state : list nat) (bits : list N) (node : nat)
    (cs : list nat) : list N :=
  foldl (λ bits child,
    if decide (state !!! child = 2 ∧ child ≠ node) then or_row words bits node child else bits)
    (set_self words bits node) cs.

(** One iteration of the inner [while let Some(top) = stack.last_mut()]. *)
Definition step (words : nat) (preds : list (list nat)) (stop : list bool) (s : dfs) : dfs :=
  match stack s with
  | [] => s
  | (node, next) :: rest =>
    let cs := children preds stop node in
    match cs !! next with
    | Some child =>
      let stack := (node, S next) :: rest in
      if decide (state s !!! child = 0)
      then mkDfs (<[child := 1]> (state s)) ((child, 0) :: stack) (dfs_bits s)
      else mkDfs (state s) stack (dfs_bits s)
    | None =>
      mkDfs (<[node := 2]> (state s)) rest
        (finish_row words (state s) (dfs_bits s) node cs)
    end
  end.

Fixpoint drain (words : nat) (preds : list (list nat)) (stop : list bool) (fuel : nat)
    (s : dfs) : option dfs :=
  match stack s with
  | [] => Some s
  | _ =>
    match fuel with
    | O => None
    | S fuel => drain words preds stop fuel (step words preds stop s)
    end
  end.

(** Every node is pushed once and every edge is stepped over once. *)
Definition build_fuel (preds : list (list nat)) : nat :=
  length preds + sum_list (map length preds).

Definition visit_root (words : nat) (preds : list (list nat)) (stop : list bool)
    (s : option dfs) (root : nat) : option dfs :=
  s ← s;
  if decide (state s !!! root = 0)
  then drain words preds stop (build_fuel preds)
         (mkDfs (<[root := 1]> (state s)) [(root, 0)] (dfs_bits s))
  else Some s.

(** [n.div_ceil(64).max(1)] *)
Definition row_words (n : nat) : nat := Nat.max ((n + 63) / 64) 1.

Definition build_opt (preds : list (list nat)) (stop : list bool) : option t :=
  let n := length preds in
  let words := row_words n in
  s ← foldl (visit_root words preds stop)
        (Some (mkDfs (replicate n 0) [] (replicate (n * words) 0%N))) (seq 0 n);
  Some (mk words (dfs_bits s)).

(** [build] returns; [build_opt_is_Some] shows that the default is not used. *)
Definition build (preds : list (list nat)) (stop : list bool) : t :=
  default (mk 1 []) (build_opt preds stop).

(** [(bits[a * words + b / 64] >> (b % 64)) & 1 == 1] *)
Definition observes (self : t) (a b : nat) : bool :=
  bool_decide (N.land (N.shiftr (bits self !!! (a * words self + b / 64)) (N.of_nat (b mod 64))) 1
    = 1%N).

(** [u64::count_ones] *)
Definition count_ones (w : N) : nat :=
  length (filter (λ i, N.testbit w (N.of_nat i) = true) (seq 0 64)).

Definition count (self : t) (a : nat) : nat :=
  sum_list (map count_ones (take (words self) (drop (a * words self) (bits self)))).

(** [members.windows(2).all(..)] *)
Fixpoint chain_windows (self : t) (members : list nat) : bool :=
  match members with
  | p0 :: ((p1 :: _) as rest) =>
    bool_decide (p0 ≠ p1) && observes self p1 p0 && chain_windows self rest
  | _ => true
  end.

(** The chain test sorts its argument in place: the sorted members are
    returned with the verdict. *)
Definition is_chain (self : t) (members : list nat) : bool * list nat :=
  let sorted :=
    sort_by_key (λ m, (N.of_nat (count self m), N.of_nat m)) members in
  (chain_windows self sorted, sorted).

Definition incomparable_pairs (self : t) (members : list nat) : list (nat * list nat) :=
  omap (λ a,
    let conflicts :=
      filter (λ b, b ≠ a ∧ observes self a b = false ∧ observes self b a = false) members in
    if decide (conflicts = []) then None else Some (a, conflicts)) members.

End Closure.

(** ** [AncestorIndex] *)

Module AncestorIndex.

Record t := mk {
  generation : N;
  pos : gmap BlockIdentity nat;
  closure : Closure.t;
  conflicts : gmap nat (list nat)
}.

(** [by_unsigned]: the position of the only identity with this hash and
    creator, or [None] once a second one is seen. *)
Definition unsigned_index (ids : list BlockIdentity) : gmap (Hash32 * NodeId) (option nat) :=
  foldl (λ m (e : nat * BlockIdentity),
    let key := (content_hash e.2, creator e.2) in
    match m !! key with
    | Some _ => <[key := None]> m
    | None => <[key := Some e.1]> m
    end) ∅ (imap pair ids).

Definition index_resolve (pos : gmap BlockIdentity nat)
    (by_unsigned : gmap (Hash32 * NodeId) (option nat)) (reference : BlockIdentity) : option nat :=
  match pos !! reference with
  | Some i => Some i
  | None =>
    if decide (signature reference ≠ []) then None
    else mjoin (by_unsigned !! (content_hash reference, creator reference))
  end.

Definition by_creator (ids : list BlockIdentity) : gmap NodeId (list nat) :=
  foldl (λ m (e : nat * BlockIdentity),
    <[creator e.2 := default [] (m !! creator e.2) ++ [e.1]]> m) ∅ (imap pair ids).

(** [conflicts.extend(pairs)] *)
Definition extend {V} (m : gmap nat V) (pairs : list (nat * V)) : gmap nat V :=
  foldl (λ m e, <[e.1 := e.2]> m) m pairs.

Section build.
Context `{HO : HashOrder}.

Definition positions (ids : list BlockIdentity) : gmap BlockIdentity nat :=
  foldl (λ m (e : nat * BlockIdentity), <[e.2 := e.1]> m) ∅ (imap pair ids).

Definition build_preds (bl : Blocklace.t) (ids : list BlockIdentity) : list (list nat) :=
  let resolve := index_resolve (positions ids) (unsigned_index ids) in
  map (λ id, match Blocklace.blocks bl !! id with
             | Some c => omap resolve (hash_iter (predecessors c))
             | None => []
             end) ids.

Definition build_conflicts (closure : Closure.t) (ids : list BlockIdentity) : gmap nat (list nat) :=
  foldl (λ conflicts (e : NodeId * list nat),
    if decide (1 < length e.2) then
      let chain := Closure.is_chain closure e.2 in
      if chain.1 then conflicts else extend conflicts (Closure.incomparable_pairs closure chain.2)
    else conflicts) ∅ (map_iter (by_creator ids)).

Definition build (bl : Blocklace.t) : t :=
  let ids := hash_iter (Blocklace.dom bl) in
  let stop := map (Blocklace.is_checkpoint_boundary bl) ids in
  let closure := Closure.build (build_preds bl ids) stop in
  {| generation := Blocklace.generation bl; pos := positions ids; closure := closure;
     conflicts := build_conflicts closure ids |}.

End build.

Definition index_of (self : t) (id : BlockIdentity) : option nat := pos self !! id.

Definition approves (self : t) (observer target : nat) : bool :=
  if Closure.observes (closure self) observer target then
    match conflicts self !! target with
    | None => true
    | Some siblings => negb (existsb (Closure.observes (closure self) observer) siblings)
    end
  else false.

End AncestorIndex.

(** ** The lazily built index of a blocklace

    [Blocklace::ancestor_index] and its slot [Mutex<Option<Arc<..>>>]: the
    stored index is reused while its generation is current and rebuilt
    otherwise.  A lock that was poisoned is read like any other. *)

Module IndexedLace.

Record t := mk {
  lace : Blocklace.t;
  slot : option AncestorIndex.t
}.

Definition new (address : N) : t := mk (Blocklace.new address) None.

Definition ancestor_index `{HashOrder} (self : t) : AncestorIndex.t * t :=
  match slot self with
  | Some index =>
    if decide (AncestorIndex.generation index = Blocklace.generation (lace self))
    then (index, self)
    else let index := AncestorIndex.build (lace self) in (index, mk (lace self) (Some index))
  | None => let index := AncestorIndex.build (lace self) in (index, mk (lace self) (Some index))
  end.

(** The mutations of a blocklace, and a read of its index. *)
Inductive step `{HashOrder} `{CryptoVerifier} : t → t → Prop :=
  | step_insert s b bl :
      Blocklace.insert (lace s) b = Ok bl → step s (mk bl (slot s))
  | step_insert_trusted s b r :
      Blocklace.insert_with_trusted_boundary (lace s) b = Ok r → step s (mk r.2 (slot s))
  | step_forget s id : step s (mk (Blocklace.forget_block (lace s) id).2 (slot s))
  | step_checkpoint s cp depth order weighted :
      step s (mk (Blocklace.set_checkpoint_state (lace s) cp depth order weighted) (slot s))
  | step_read s : step s (ancestor_index s).2.

End IndexedLace.
