(* ===== verification/IndexFacts.v ===== *)
(** * Properties of the ancestor index

    The depth-first search of [Closure::build] terminates and computes exactly
    the reachability relation, the chain test decides pairwise comparability,
    and the approval query built on it is Definition 18. *)

From S2P Require Import Prelude Types Lace LaceFacts AncestorIndex.
From stdpp Require Import options.

(** ** Bits of the matrix *)

Section bits.
Variable words : nat.
Implicit Types (m : list N) (a b c : nat).

(** Bit [b] of row [a]. *)
Definition row_bit m a b : bool :=
  N.testbit (m !!! (a * words + b / 64)) (N.of_nat (b mod 64)).

Lemma word_index_lt b : b < 64 * words → b / 64 < words.
Proof. intros. apply Nat.Div0.div_lt_upper_bound. lia. Qed.

Lemma row_index_eq a c b d :
  b < 64 * words → d < words → a * words + b / 64 = c * words + d ↔ a = c ∧ b / 64 = d.
Proof.
  intros Hb%word_index_lt Hd. split; [|by intros [-> ->]]. intros E.
  assert (a = c) as -> by nia. lia.
Qed.

Lemma row_index_lt n a b : a < n → b < words → a * words + b < n * words.
Proof. nia. Qed.

Lemma bit_index_split b node : b / 64 = node / 64 → b mod 64 = node mod 64 → b = node.
Proof. intros. rewrite (Nat.div_mod_eq b 64), (Nat.div_mod_eq node 64). congruence. Qed.

Lemma row_bit_set_self n m node a b :
  length m = n * words → node < n → node < 64 * words → b < 64 * words →
  row_bit (Closure.set_self words m node) a b =
  row_bit m a b || (bool_decide (a = node) && bool_decide (b = node)).
Proof.
  intros Hlen Hn Hnw Hb. unfold row_bit, Closure.set_self.
  pose proof (word_index_lt _ Hnw) as Hw.
  destruct (decide (a * words + b / 64 = node * words + node / 64)) as [E|E].
  - pose proof E as [-> Eb]%row_index_eq; [|done..]. rewrite E.
    rewrite list_lookup_total_insert_eq
      by (rewrite Hlen; by apply row_index_lt).
    rewrite N.lor_spec, N.shiftl_1_l, N.pow2_bits_eqb, (bool_decide_true (node = node)) by done.
    f_equal. simpl. case_bool_decide as Hbn.
    + subst. by apply N.eqb_eq.
    + apply N.eqb_neq. intros Hm%Nat2N.inj. by apply Hbn, bit_index_split.
  - rewrite list_lookup_total_insert_ne by done.
    case_bool_decide; [|by rewrite orb_false_r]. case_bool_decide; [|by rewrite orb_false_r].
    subst. done.
Qed.

Lemma or_row_length m node child : length (Closure.or_row words m node child) = length m.
Proof.
  unfold Closure.or_row. generalize (seq 0 words). intros l. revert m.
  induction l as [|w l IH]; intros m; simpl; [done|]. by rewrite IH, length_insert.
Qed.
Lemma set_self_length m node : length (Closure.set_self words m node) = length m.
Proof. unfold Closure.set_self. by rewrite length_insert. Qed.

(** After the words below [k] are joined. *)
Lemma or_row_prefix n m node child k i :
  length m = n * words → node < n → node ≠ child → k ≤ words →
  foldl (λ bits w, <[node * words + w :=
    N.lor (bits !!! (node * words + w)) (bits !!! (child * words + w))]> bits)
    m (seq 0 k) !!! i =
  if decide (node * words ≤ i ∧ i < node * words + k)
  then N.lor (m !!! i) (m !!! (child * words + (i - node * words))) else m !!! i.
Proof.
  intros Hlen Hn Hne. revert i. induction k as [|k IH]; intros i Hk.
  { simpl. rewrite decide_False by lia. done. }
  rewrite seq_S, foldl_app. simpl.
  set (m' := foldl _ m (seq 0 k)) in *.
  assert (length m' = n * words) as Hlen'.
  { rewrite <-Hlen. unfold m'. clear IH m'. generalize (seq 0 k). intros l. clear Hlen. revert m.
    induction l as [|w l IHl]; intros m; simpl; [done|]. by rewrite IHl, length_insert. }
  destruct (decide (i = node * words + k)) as [->|Hi].
  - rewrite list_lookup_total_insert_eq by (rewrite Hlen'; apply row_index_lt; lia).
    rewrite !IH by lia. rewrite (decide_False (P := node * words ≤ node * words + k ∧ _)) by lia.
    rewrite decide_False.
    2:{ destruct (decide (node < child)); [nia|]. assert (child < node) by lia. nia. }
    rewrite decide_True by lia. by replace (node * words + k - node * words) with k by lia.
  - rewrite list_lookup_total_insert_ne by done. rewrite IH by lia.
    repeat case_decide; try lia; done.
Qed.

Lemma row_bit_or_row n m node child a b :
  length m = n * words → node < n → child ≠ node → b < 64 * words →
  row_bit (Closure.or_row words m node child) a b =
  row_bit m a b || (bool_decide (a = node) && row_bit m child b).
Proof.
  intros Hlen Hn Hne Hb. unfold row_bit at 1, Closure.or_row.
  rewrite (or_row_prefix n) by (done || lia). pose proof (word_index_lt _ Hb) as Hw.
  case_decide as Hr.
  - assert (a = node) as -> by nia. rewrite bool_decide_true, andb_true_l by done.
    rewrite N.lor_spec. unfold row_bit.
    by replace (node * words + b / 64 - node * words) with (b / 64) by lia.
  - rewrite bool_decide_false by (intros ->; lia). by rewrite orb_false_r.
Qed.

Lemma finish_row_length state m node cs :
  length (Closure.finish_row words state m node cs) = length m.
Proof.
  unfold Closure.finish_row. rewrite <-(set_self_length m node).
  generalize (Closure.set_self words m node). clear m.
  induction cs as [|c cs IH]; intros m; simpl; [done|]. rewrite IH. case_decide; [|done].
  apply or_row_length.
Qed.

Lemma row_bit_finish_row n state m node cs a b :
  length m = n * words → node < n → node < 64 * words → b < 64 * words →
  row_bit (Closure.finish_row words state m node cs) a b = true ↔
  row_bit m a b = true ∨
    (a = node ∧ (b = node ∨ ∃ c, c ∈ cs ∧ state !!! c = 2 ∧ c ≠ node ∧ row_bit m c b = true)).
Proof.
  intros Hlen Hn Hnw Hb. unfold Closure.finish_row.
  assert (∀ c, c ≠ node → row_bit (Closure.set_self words m node) c b = row_bit m c b) as Hrows.
  { intros c Hc. rewrite (row_bit_set_self n) by done.
    rewrite (bool_decide_false (c = node)) by done. by rewrite orb_false_r. }
  assert (row_bit (Closure.set_self words m node) a b = true ↔
    row_bit m a b = true ∨ (a = node ∧ b = node)) as Hself.
  { rewrite (row_bit_set_self n) by done. guards. done. }
  assert (length (Closure.set_self words m node) = n * words) as Hlen'
    by (by rewrite set_self_length).
  generalize dependent (Closure.set_self words m node). clear Hlen. intros m' Hrows Hself Hlen.
  enough (∀ m'', length m'' = n * words →
    (∀ c, c ≠ node → row_bit m'' c b = row_bit m c b) →
    row_bit (foldl (λ bits child, if decide (state !!! child = 2 ∧ child ≠ node)
        then Closure.or_row words bits node child else bits) m'' cs) a b = true ↔
    row_bit m'' a b = true ∨ a = node ∧ ∃ c, c ∈ cs ∧ state !!! c = 2 ∧ c ≠ node ∧
      row_bit m c b = true) as Hgen.
  { rewrite Hgen by done. rewrite Hself. tauto. }
  clear Hself Hrows Hlen m'. induction cs as [|c cs IH]; intros m'' Hlen Hrows; simpl.
  { set_solver. }
  case_decide as Hc.
  - rewrite IH; [|by rewrite or_row_length|].
    + rewrite (row_bit_or_row n) by (done || naive_solver).
      guards. rewrite (Hrows c) by tauto. setoid_rewrite elem_of_cons. split.
      * intros [[?|[-> ?]]|(-> & d & ? & ?)]; [by left|right..]; split; eauto; naive_solver.
      * intros [?|(-> & d & [->|?] & ?)]; [by left; left|left; right; naive_solver|].
        right. split; [done|]. by exists d.
    + intros d Hd. rewrite (row_bit_or_row n) by (done || naive_solver).
      rewrite bool_decide_false by done. by rewrite orb_false_r, Hrows.
  - rewrite IH by done. setoid_rewrite elem_of_cons. split.
    + intros [?|(-> & d & ? & ?)]; [by left|right; split; eauto].
    + intros [?|(-> & d & [->|?] & ?)]; [by left|tauto|right; split; [done|by exists d]].
Qed.
End bits.

(** ** The depth-first search *)

Section dfs.
#[local] Set Default Proof Using "All".
Variables (preds : list (list nat)) (stop : list bool).
Let n := length preds.
Let words := Closure.row_words n.
Let children := Closure.children preds stop.

Definition index_edge : relation nat := λ i j, j ∈ children i.
Definition valid_preds : Prop := ∀ i j, j ∈ children i → j < n.

Hypothesis valid : valid_preds.

Lemma row_words_cover : n ≤ 64 * words.
Proof.
  unfold words, Closure.row_words.
  pose proof (Nat.div_mod_eq (n + 63) 64). pose proof (Nat.mod_upper_bound (n + 63) 64). lia.
Qed.

(** *** Termination: each iteration uses up one unit of pending work *)

Definition pending (s : Closure.dfs) : nat :=
  sum_list_with (λ v, if decide (Closure.state s !!! v = 0) then S (length (children v)) else 0)
    (seq 0 n) +
  sum_list_with (λ e : nat * nat, S (length (children e.1) - e.2)) (Closure.stack s).

Lemma sum_insert (st : list nat) v (f : nat → nat) l k :
  length st = n → NoDup l → v ∈ l → v < n → st !!! v = 0 → k ≠ 0 →
  sum_list_with (λ u, if decide (<[v := k]> st !!! u = 0) then f u else 0) l + f v =
  sum_list_with (λ u, if decide (st !!! u = 0) then f u else 0) l.
Proof.
  intros Hlen Hnd Hv Hvn Hst Hk. induction l as [|u l IH]; simpl; [by apply elem_of_nil in Hv|].
  apply NoDup_cons in Hnd as [Hu Hnd]. apply elem_of_cons in Hv as [->|Hv].
  - rewrite list_lookup_total_insert_eq by lia. rewrite decide_False, decide_True by done.
    enough (sum_list_with (λ u0, if decide (<[u:=k]> st !!! u0 = 0) then f u0 else 0) l =
      sum_list_with (λ u0, if decide (st !!! u0 = 0) then f u0 else 0) l) by lia.
    clear IH Hnd. induction l as [|w l IH]; simpl; [done|].
    rewrite list_lookup_total_insert_ne by set_solver. rewrite IH by set_solver. done.
  - rewrite list_lookup_total_insert_ne by set_solver. rewrite <-IH by done. lia.
Qed.

Lemma pending_visit st stk bits v :
  length st = n → v < n → st !!! v = 0 →
  pending (Closure.mkDfs (<[v := 1]> st) ((v, 0) :: stk) bits) = pending (Closure.mkDfs st stk bits).
Proof.
  intros Hlen Hv Hst. unfold pending; simpl.
  rewrite <-(sum_insert st v (λ v, S (length (children v))) (seq 0 n) 1);
    [lia|done|apply NoDup_seq|apply elem_of_seq; lia|done..].
Qed.

(** What every iteration keeps, cycles or not. *)
Record dfs_shape (s : Closure.dfs) : Prop := {
  shape_state : length (Closure.state s) = n;
  shape_bits : length (Closure.dfs_bits s) = n * words;
  shape_stack : ∀ v k, (v, k) ∈ Closure.stack s →
    v < n ∧ Closure.state s !!! v = 1 ∧ k ≤ length (children v);
  shape_values : ∀ v, v < n → Closure.state s !!! v ≤ 2
}.

Lemma step_shape s :
  dfs_shape s → NoDup (Closure.stack s).*1 → dfs_shape (Closure.step words preds stop s).
Proof.
  intros [Hst Hbits Hstk Hval] Hnd. unfold Closure.step. fold children.
  destruct (Closure.stack s) as [|[node next] rest] eqn:Es; [by split; rewrite ?Es|].
  simpl in Hnd. apply NoDup_cons in Hnd as [Hnode _].
  destruct (Hstk node next) as (Hn & Hn1 & Hk); [by left|].
  destruct (children node !! next) as [child|] eqn:Ec.
  - pose proof (valid node child (list_elem_of_lookup_2 _ _ _ Ec)) as Hc.
    pose proof (lookup_lt_Some _ _ _ Ec) as Hnext.
    case_decide as Hc0; split; simpl; rewrite ?length_insert; try done.
    + intros v k [[= -> ->]|[[= -> ->]|Hv]%elem_of_cons]%elem_of_cons.
      * rewrite list_lookup_total_insert_eq by lia. split_and!; [done..|lia].
      * rewrite list_lookup_total_insert_ne by congruence. split_and!; [done..|lia].
      * destruct (Hstk v k) as (? & ? & ?); [by right|].
        rewrite list_lookup_total_insert_ne by congruence. done.
    + intros v Hv. destruct (decide (v = child)) as [->|].
      * rewrite list_lookup_total_insert_eq by lia. lia.
      * rewrite list_lookup_total_insert_ne by done. auto.
    + intros v k [[= -> ->]|Hv]%elem_of_cons; [split_and!; [done..|lia]|].
      apply Hstk. by right.
  - split; simpl; rewrite ?length_insert, ?finish_row_length; try done.
    + intros v k Hv. destruct (Hstk v k) as (? & ? & ?); [by right|].
      rewrite list_lookup_total_insert_ne; [done|]. intros <-. apply Hnode.
      apply list_elem_of_fmap. by exists (node, k).
    + intros v Hv. destruct (decide (v = node)) as [->|].
      * rewrite list_lookup_total_insert_eq by lia. lia.
      * rewrite list_lookup_total_insert_ne by done. auto.
Qed.

Lemma step_nodup s :
  dfs_shape s → NoDup (Closure.stack s).*1 →
  NoDup (Closure.stack (Closure.step words preds stop s)).*1.
Proof.
  intros [Hst Hbits Hstk _] Hnd. unfold Closure.step. fold children.
  destruct (Closure.stack s) as [|[node next] rest] eqn:Es; [by rewrite Es|].
  simpl in Hnd. destruct (children node !! next) as [child|] eqn:Ec.
  - case_decide as Hc0; simpl; [|done]. constructor; [|done].
    assert (∀ v, v ∈ ((node, next) :: rest).*1 → Closure.state s !!! v = 1) as Hon.
    { intros v ([? k] & -> & Hv)%list_elem_of_fmap. by apply Hstk in Hv as (_ & ? & _). }
    intros Hin. apply (Hon child) in Hin. congruence.
  - by apply NoDup_cons in Hnd as [_ ?].
Qed.

Lemma step_pending s :
  dfs_shape s → Closure.stack s ≠ [] →
  S (pending (Closure.step words preds stop s)) = pending s.
Proof.
  intros [Hst Hbits Hstk _] Hne. unfold Closure.step. fold children.
  destruct s as [st stk bits]; simpl in *.
  destruct stk as [|[node next] rest]; [done|].
  destruct (Hstk node next) as (Hn & Hn1 & Hk); [by left|].
  destruct (children node !! next) as [child|] eqn:Ec.
  - pose proof (valid node child (list_elem_of_lookup_2 _ _ _ Ec)) as Hc.
    pose proof (lookup_lt_Some _ _ _ Ec) as Hnext.
    case_decide as Hc0; [rewrite pending_visit by done|];
      unfold pending; simpl; lia.
  - apply lookup_ge_None in Ec. unfold pending; simpl.
    assert (sum_list_with (λ v, if decide (<[node:=2]> st !!! v = 0)
        then S (length (children v)) else 0) (seq 0 n) =
      sum_list_with (λ v, if decide (st !!! v = 0)
        then S (length (children v)) else 0) (seq 0 n)) as ->; [|lia].
    generalize (seq 0 n). intros l. induction l as [|w l IH]; simpl; [done|]. rewrite IH. f_equal.
    destruct (decide (w = node)) as [->|].
    + rewrite list_lookup_total_insert_eq by lia. rewrite !decide_False by congruence. done.
    + by rewrite list_lookup_total_insert_ne.
Qed.

(** A property kept by the steps holds when the stack is drained, and enough
    fuel drains it. *)
Lemma drain_spec (P : Closure.dfs → Prop) fuel s :
  (∀ s, dfs_shape s → NoDup (Closure.stack s).*1 → P s → Closure.stack s ≠ [] →
    P (Closure.step words preds stop s)) →
  dfs_shape s → NoDup (Closure.stack s).*1 → P s → pending s ≤ fuel →
  ∃ s', Closure.drain words preds stop fuel s = Some s' ∧ dfs_shape s' ∧
    Closure.stack s' = [] ∧ P s' ∧ pending s' ≤ pending s.
Proof.
  intros Hstep. revert s. induction fuel as [|fuel IH]; intros s Hsh Hnd HP Hfuel; simpl.
  - destruct (Closure.stack s) as [|e stk] eqn:Es; [by exists s|].
    exfalso. unfold pending in Hfuel. rewrite Es in Hfuel. simpl in Hfuel. lia.
  - destruct (Closure.stack s) as [|e stk] eqn:Es; [by exists s|].
    assert (Closure.stack s ≠ []) as Hne by (by rewrite Es).
    pose proof (step_pending s Hsh Hne) as Hp. rewrite <-Es in Hnd.
    destruct (IH (Closure.step words preds stop s)) as (s' & -> & H1 & H2 & H3 & H4);
      [by apply step_shape|by apply step_nodup|by apply Hstep|lia|].
    exists s'. split_and!; try done. lia.
Qed.

Lemma seen_insert (st : list nat) (k v c : nat) :
  length st = n → v < n → k ≠ 0 → st !!! c ≠ 0 → <[v := k]> st !!! c ≠ 0.
Proof.
  intros. destruct (decide (c = v)) as [->|].
  - by rewrite list_lookup_total_insert_eq by lia.
  - by rewrite list_lookup_total_insert_ne.
Qed.

Lemma step_seen s v :
  dfs_shape s → Closure.state s !!! v ≠ 0 →
  Closure.state (Closure.step words preds stop s) !!! v ≠ 0.
Proof.
  intros [Hst Hbits Hstk _] Hv. unfold Closure.step. fold children.
  destruct (Closure.stack s) as [|[node next] rest] eqn:Es; [done|].
  destruct (Hstk node next) as (Hn & Hn1 & Hk); [by left|].
  destruct (children node !! next) as [child|] eqn:Ec; [case_decide|]; simpl; try done;
    apply seen_insert; try done.
  by apply (valid node), list_elem_of_lookup_2 with next.
Qed.

Definition dfs_start : Closure.dfs :=
  Closure.mkDfs (replicate n 0) [] (replicate (n * words) 0%N).

(** The outer loop, for any property kept by its steps. *)
Lemma visit_roots (P : Closure.dfs → Prop) :
  P dfs_start →
  (∀ s, dfs_shape s → NoDup (Closure.stack s).*1 → P s → Closure.stack s ≠ [] →
    P (Closure.step words preds stop s)) →
  (∀ s root, dfs_shape s → P s → Closure.stack s = [] → root < n →
    Closure.state s !!! root = 0 →
    P (Closure.mkDfs (<[root := 1]> (Closure.state s)) [(root, 0)] (Closure.dfs_bits s))) →
  ∃ s, foldl (Closure.visit_root words preds stop) (Some dfs_start) (seq 0 n) = Some s ∧
    dfs_shape s ∧ Closure.stack s = [] ∧ P s ∧ (∀ v, v < n → Closure.state s !!! v ≠ 0) ∧
    Closure.build_opt preds stop = Some (Closure.mk words (Closure.dfs_bits s)).
Proof.
  intros H0 Hstep Hroot.
  assert (pending dfs_start ≤ Closure.build_fuel preds) as Hfuel.
  { unfold pending, dfs_start, Closure.build_fuel; simpl. rewrite Nat.add_0_r.
    unfold children, Closure.children, n. clear.
    enough (∀ k l, k + length l ≤ length preds → drop k preds = l → sum_list_with (λ v,
       if decide (replicate (length preds) 0 !!! v = 0)
       then S (length (if (stop !!! v : bool) then [] else preds !!! v)) else 0)
       (seq k (length l)) ≤ length l + sum_list (map length l)) as Hgen
      by (apply (Hgen 0 preds); [done|apply drop_0]).
    intros k l. revert k. induction l as [|r l IH]; intros k Hk Hl; simpl in *; [lia|].
    rewrite list_lookup_total_alt, lookup_replicate_2 by lia. simpl.
    assert (preds !! k = Some r) as Hr
      by (rewrite <-(Nat.add_0_r k), <-lookup_drop, Hl; done).
    assert (length (if (stop !!! k : bool) then [] else preds !!! k) ≤ length r) as Hlen.
    { destruct (stop !!! k : bool); simpl; [lia|]. rewrite list_lookup_total_alt, Hr. done. }
    specialize (IH (S k) ltac:(lia)).
    assert (drop (S k) preds = l) as Hl'
      by (replace (S k) with (k + 1) by lia; rewrite <-drop_drop, Hl; done).
    specialize (IH Hl'). lia. }
  enough (∀ k, k ≤ n → ∃ s,
    foldl (Closure.visit_root words preds stop) (Some dfs_start) (seq 0 k) = Some s ∧
    dfs_shape s ∧ Closure.stack s = [] ∧ P s ∧ (∀ v, v < k → Closure.state s !!! v ≠ 0) ∧
    pending s ≤ Closure.build_fuel preds) as Hgen.
  { destruct (Hgen n (le_n n)) as (s & E & Hsh & Hst & HP & Hseen & _). exists s.
    split_and!; try done. unfold Closure.build_opt. fold n words.
    change (Closure.mkDfs (replicate n 0) [] (replicate (n * words) 0%N)) with dfs_start.
    by rewrite E. }
  induction k as [|k IH]; intros Hk.
  - exists dfs_start. split_and!; try done; [|lia]. split; simpl; rewrite ?length_replicate; try done.
    + by intros ?? ?%elem_of_nil.
    + intros v Hv. rewrite list_lookup_total_alt, lookup_replicate_2 by done. simpl. lia.
  - destruct IH as (s & E & Hsh & Hst & HP & Hseen & Hp); [lia|].
    rewrite seq_S, foldl_app, E. simpl. case_decide as Hz.
    2:{ exists s. split_and!; try done. intros v Hv.
        destruct (decide (v = k)) as [->|]; [done|]. apply Hseen. lia. }
    pose proof Hsh as [Hls Hlb _ Hval]. destruct s as [st stk bits]; simpl in *; subst stk.
    destruct (drain_spec (λ s, P s ∧ ∀ v, v < S k → Closure.state s !!! v ≠ 0)
      (Closure.build_fuel preds)
      (Closure.mkDfs (<[k:=1]> st) [(k, 0)] bits)) as (s' & -> & H1 & H2 & [H3 H5] & H4).
    + intros s Hs Hnd [HPs Hsn] Hne. split; [by apply Hstep|]. intros v Hv.
      apply step_seen; auto.
    + split; simpl; rewrite ?length_insert; try done.
      * intros v i [= -> ->]%list_elem_of_singleton.
        rewrite list_lookup_total_insert_eq by lia. split_and!; lia.
      * intros v Hv. destruct (decide (v = k)) as [->|].
        -- rewrite list_lookup_total_insert_eq by lia. lia.
        -- rewrite list_lookup_total_insert_ne by done. auto.
    + simpl. apply NoDup_singleton.
    + split; [by apply (Hroot (Closure.mkDfs st [] bits))|]. simpl. intros v Hv.
      destruct (decide (v = k)) as [->|].
      * by rewrite list_lookup_total_insert_eq by lia.
      * rewrite list_lookup_total_insert_ne by done. apply Hseen. lia.
    + rewrite pending_visit by (done || lia). done.
    + exists s'. split_and!; try done. rewrite pending_visit in H4 by (done || lia). lia.
Qed.

Lemma build_opt_total : is_Some (Closure.build_opt preds stop).
Proof.
  destruct (visit_roots (λ _, True)) as (s & _ & _ & _ & _ & _ & ->); eauto.
Qed.
(** *** Exactness on acyclic graphs *)

Hypothesis index_acyclic : ∀ i, ¬ tc index_edge i i.

Lemma index_edge_lt i j : tc index_edge i j → j < n.
Proof. by intros [?%valid|(z & _ & ?%valid)]%tc_inv_r. Qed.

Record dfs_exact (s : Closure.dfs) : Prop := {
  exact_rows : ∀ v b, v < n → b < 64 * words →
    row_bit words (Closure.dfs_bits s) v b = true ↔
    Closure.state s !!! v = 2 ∧ rtc index_edge v b;
  exact_on : ∀ v, v < n → Closure.state s !!! v = 1 → v ∈ (Closure.stack s).*1;
  exact_seen : ∀ v k i c, (v, k) ∈ Closure.stack s → i < k → children v !! i = Some c →
    Closure.state s !!! c ≠ 0;
  exact_path : StronglySorted (λ x y, tc index_edge y x) (Closure.stack s).*1
}.

(** Every child of a node whose children are all seen has a complete row:
    a child on the stack would close a cycle. *)
Lemma popped_children s node next rest c :
  dfs_shape s → dfs_exact s → Closure.stack s = (node, next) :: rest →
  length (children node) ≤ next → c ∈ children node → Closure.state s !!! c = 2.
Proof.
  intros [Hst Hbits Hstk Hval] [_ Hon Hseen Hpath] Es Hk Hc.
  pose proof (valid _ _ Hc) as Hcn. pose proof (Hval c Hcn).
  pose proof Hc as [i Hi]%list_elem_of_lookup.
  assert (Closure.state s !!! c ≠ 0) as H0.
  { eapply (Hseen node next i); [rewrite Es; by left| |done].
    apply lookup_lt_Some in Hi. lia. }
  destruct (decide (Closure.state s !!! c = 1)) as [H1|]; [|lia].
  exfalso. apply Hon in H1; [|done]. rewrite Es in H1, Hpath. simpl in *.
  apply StronglySorted_inv in Hpath as [_ Hpath]. rewrite Forall_forall in Hpath.
  apply elem_of_cons in H1 as [->|H1]; [by apply (index_acyclic node), tc_once|].
  apply (index_acyclic c). eapply tc_r; [by apply Hpath|done].
Qed.

Lemma step_exact s :
  dfs_shape s → NoDup (Closure.stack s).*1 → dfs_exact s → Closure.stack s ≠ [] →
  dfs_exact (Closure.step words preds stop s).
Proof.
  intros Hsh Hnd Hex Hne. pose proof Hsh as [Hst Hbits Hstk Hval].
  pose proof Hex as [Hrows Hon Hseen Hpath]. unfold Closure.step. fold children.
  destruct (Closure.stack s) as [|[node next] rest] eqn:Es; [done|].
  destruct (Hstk node next) as (Hn & Hn1 & Hk); [by left|]. simpl in Hpath.
  destruct (children node !! next) as [child|] eqn:Ec.
  - pose proof (list_elem_of_lookup_2 _ _ _ Ec) as Hcin. pose proof (valid node child Hcin) as Hc.
    case_decide as Hc0; split; simpl.
    + intros v b Hv Hb. rewrite Hrows by done. destruct (decide (v = child)) as [->|].
      * rewrite list_lookup_total_insert_eq by lia. naive_solver congruence.
      * by rewrite list_lookup_total_insert_ne.
    + intros v Hv Hv1. destruct (decide (v = child)) as [->|]; [by left|].
      rewrite list_lookup_total_insert_ne in Hv1 by done.
      right. by apply (Hon v Hv).
    + intros v k i c [[= -> ->]|[[= -> ->]|Hin]%elem_of_cons]%elem_of_cons Hi Hic; [lia|..].
      * destruct (decide (i = next)) as [->|].
        { rewrite Ec in Hic. injection Hic as <-.
          rewrite list_lookup_total_insert_eq by lia. done. }
        apply seen_insert; [done..|]. eapply (Hseen node next i); [by left|lia|done].
      * apply seen_insert; [done..|]. eapply (Hseen v k i); [by right|done..].
    + apply StronglySorted_inv in Hpath as [Hp1 Hp2].
      constructor; [by constructor|]. constructor; [by apply tc_once|].
      eapply Forall_impl; [exact Hp2|]. intros u Hu. eapply tc_r; [exact Hu|done].
    + done.
    + done.
    + intros v k i c [[= -> ->]|Hin]%elem_of_cons Hi Hic.
      * destruct (decide (i = next)) as [->|]; [congruence|].
        eapply (Hseen node next i); [by left|lia|done].
      * eapply (Hseen v k i); [by right|done..].
    + done.
  - apply lookup_ge_None in Ec.
    assert (∀ c, c ∈ children node → Closure.state s !!! c = 2) as H2
      by (intros; by eapply popped_children).
    pose proof row_words_cover. simpl in Hnd. apply NoDup_cons in Hnd as [Hnode Hnd].
    split; simpl.
    + intros v b Hv Hb. rewrite (row_bit_finish_row words n) by (done || lia).
      rewrite Hrows by done. destruct (decide (v = node)) as [->|Hvn].
      * rewrite list_lookup_total_insert_eq by lia. rewrite Hn1. split.
        -- intros [[[=] _]|(_ & [->|(c & Hc & Hc2 & _ & Hcb)])]; [done|].
           apply Hrows in Hcb as [_ Hcb]; [|by apply (valid node)|done].
           split; [done|]. by eapply rtc_l.
        -- intros [_ Hr]. right. split; [done|].
           apply rtc_inv in Hr as [->|(c & Hc & Hcb)]; [by left|right].
           exists c. split; [done|]. split; [by apply H2|]. split.
           { intros ->. by apply (index_acyclic node), tc_once. }
           apply Hrows; [by apply (valid node)|done|]. split; [by apply H2|done].
      * rewrite list_lookup_total_insert_ne by done. naive_solver.
    + intros v Hv Hv1. destruct (decide (v = node)) as [->|].
      { rewrite list_lookup_total_insert_eq in Hv1 by lia. done. }
      rewrite list_lookup_total_insert_ne in Hv1 by done.
      by apply (Hon v Hv), elem_of_cons in Hv1 as [?|?].
    + intros v k i c Hin Hi Hic. apply seen_insert; [done..|].
      eapply (Hseen v k i); [by right|done..].
    + by apply StronglySorted_inv in Hpath as [? _].
Qed.

Lemma start_exact : dfs_exact dfs_start.
Proof.
  assert (∀ k, k < n → replicate n 0 !!! k = 0) as Hz.
  { intros k Hk. by rewrite list_lookup_total_alt, lookup_replicate_2. }
  split; simpl.
  - intros v b Hv Hb. rewrite Hz by done. unfold row_bit.
    rewrite list_lookup_total_alt, lookup_replicate_2.
    + simpl. split; [done|]. by intros [[=] _].
    + apply row_index_lt; [done|]. by apply word_index_lt.
  - intros v Hv. rewrite Hz by done. done.
  - by intros ???? ?%elem_of_nil.
  - constructor.
Qed.

Lemma root_exact s root :
  dfs_shape s → dfs_exact s → Closure.stack s = [] → root < n → Closure.state s !!! root = 0 →
  dfs_exact (Closure.mkDfs (<[root := 1]> (Closure.state s)) [(root, 0)] (Closure.dfs_bits s)).
Proof.
  intros [Hst _ _ _] [Hrows Hon Hseen Hpath] Es Hr H0. split; simpl.
  - intros v b Hv Hb. rewrite Hrows by done. destruct (decide (v = root)) as [->|].
    + rewrite list_lookup_total_insert_eq by lia. naive_solver congruence.
    + by rewrite list_lookup_total_insert_ne.
  - intros v Hv Hv1. destruct (decide (v = root)) as [->|]; [by left|].
    rewrite list_lookup_total_insert_ne in Hv1 by done. apply Hon in Hv1; [|done].
    rewrite Es in Hv1. by apply elem_of_nil in Hv1.
  - intros v k i c [= -> ->]%list_elem_of_singleton Hi. lia.
  - repeat constructor.
Qed.

(** [build] is total, and its rows are the closures. *)
Lemma build_observes a b :
  a < n → b < n →
  Closure.observes (Closure.build preds stop) a b = true ↔ rtc index_edge a b.
Proof.
  intros Ha Hb. destruct (visit_roots dfs_exact) as (s & _ & Hsh & Hst & Hex & Hseen & E);
    [apply start_exact|apply step_exact|apply root_exact|].
  unfold Closure.build. rewrite E. simpl. unfold Closure.observes; simpl.
  pose proof row_words_cover. pose proof Hex as [Hrows Hon _ _].
  assert (Closure.state s !!! a = 2) as H2.
  { pose proof (Hseen a Ha). pose proof (shape_values s Hsh a Ha).
    destruct (decide (Closure.state s !!! a = 1)) as [Ha1|]; [|lia].
    apply Hon in Ha1; [|done]. rewrite Hst in Ha1. by apply elem_of_nil in Ha1. }
  trans (row_bit words (Closure.dfs_bits s) a b = true); [|rewrite Hrows by lia; tauto].
  unfold row_bit. rewrite bool_decide_eq_true.
  change 1%N with (N.ones 1). rewrite N.land_ones. simpl.
  rewrite <-(N.bit0_mod), N.shiftr_spec by lia. simpl.
  destruct (N.testbit _ _); simpl; split; done.
Qed.

End dfs.

(** ** Closure sizes and the chain test *)

Lemma count_ones_row (l : list N) :
  sum_list (map Closure.count_ones l) =
  length (filter (λ b, N.testbit (l !!! (b / 64)) (N.of_nat (b mod 64)) = true)
    (seq 0 (64 * length l))).
Proof.
  induction l as [|w l IH]; [done|]. change (sum_list (map Closure.count_ones (w :: l)))
    with (Closure.count_ones w + sum_list (map Closure.count_ones l)).
  rewrite IH. replace (64 * length (w :: l)) with (64 + 64 * length l) by (simpl; lia).
  rewrite seq_app, filter_app, length_app. apply (f_equal2 Nat.add).
  - unfold Closure.count_ones. apply length_filter_ext. intros b Hb%elem_of_seq.
    rewrite Nat.div_small, Nat.mod_small by lia. done.
  - replace (seq (0 + 64) (64 * length l)) with (Nat.add 64 <$> seq 0 (64 * length l))
      by (by rewrite fmap_add_seq). rewrite length_filter_fmap. apply length_filter_ext. intros b _.
    replace (64 + b) with (b + 1 * 64) by lia.
    rewrite Nat.div_add, Nat.Div0.mod_add by lia. rewrite Nat.add_1_r. done.
Qed.

Section closure.
#[local] Set Default Proof Using "All".
Variables (preds : list (list nat)) (stop : list bool).
Hypothesis valid : valid_preds preds stop.
Hypothesis index_acyclic : ∀ i, ¬ tc (index_edge preds stop) i i.
Let n := length preds.
Let cl := Closure.build preds stop.
Let reaches := rtc (index_edge preds stop).

Lemma build_shape :
  Closure.words cl = Closure.row_words n ∧ length (Closure.bits cl) = n * Closure.words cl.
Proof.
  destruct (visit_roots preds stop valid (λ _, True)) as (s & _ & Hsh & _ & _ & _ & E);
    [done..|]. unfold cl, Closure.build. rewrite E. simpl. split; [done|].
  apply (shape_bits _ _ _ Hsh).
Qed.

Lemma observes_reaches a b : a < n → b < n → Closure.observes cl a b = true ↔ reaches a b.
Proof. by apply build_observes. Qed.

Lemma observes_row_bit a b :
  Closure.observes cl a b = row_bit (Closure.words cl) (Closure.bits cl) a b.
Proof.
  unfold Closure.observes, row_bit. apply eq_bool_prop_intro. rewrite bool_decide_spec.
  change 1%N with (N.ones 1). rewrite N.land_ones.
  change (2 ^ 1)%N with 2%N. rewrite <-N.bit0_mod, N.shiftr_spec by lia. rewrite N.add_0_l.
  by destruct (N.testbit _ _); simpl.
Qed.

Lemma count_spec a :
  a < n → Closure.count cl a =
    length (filter (λ b, Closure.observes cl a b = true) (seq 0 (64 * Closure.words cl))).
Proof.
  intros Ha. destruct build_shape as [Hw Hlen]. unfold Closure.count.
  rewrite count_ones_row, length_take, length_drop, Hlen.
  assert (Closure.words cl ≤ n * Closure.words cl - a * Closure.words cl) by nia.
  rewrite Nat.min_l by done. apply length_filter_ext. intros b Hb%elem_of_seq.
  rewrite observes_row_bit. unfold row_bit.
  rewrite !list_lookup_total_alt, lookup_take, lookup_drop, decide_True; [done|].
  apply word_index_lt. lia.
Qed.

Lemma row_cover : n ≤ 64 * Closure.words cl.
Proof.
  destruct build_shape as [-> _]. by apply (row_words_cover preds stop).
Qed.

Lemma count_lt a b : a < n → b < n → reaches a b → a ≠ b → Closure.count cl b < Closure.count cl a.
Proof.
  intros Ha Hb Hab Hne. rewrite !count_spec by done. pose proof row_cover.
  eapply (length_filter_strict _ _ _ a).
  - intros x Hx. destruct (decide (x < n)) as [Hxn|Hxn].
    + rewrite !observes_reaches by done. intros. unfold reaches. by trans b.
    + intros Hxb. exfalso. rewrite observes_row_bit in Hxb.
      destruct (visit_roots preds stop valid (dfs_exact preds stop))
        as (s & _ & Hsh & Hst & Hex & _ & E);
        [by apply start_exact|by apply step_exact|by apply root_exact|].
      revert Hxb Hx. unfold cl, Closure.build. rewrite E. simpl. intros Hxb Hx%elem_of_seq.
      apply (exact_rows _ _ _ Hex) in Hxb as [_ [->|Hbx]%rtc_tc]; [done| |done|lia].
      apply Hxn. by eapply index_edge_lt.
  - apply elem_of_seq. lia.
  - rewrite observes_reaches by done. intros [->|Hba]%rtc_tc; [done|].
    apply rtc_tc in Hab as [?|Hab]; [done|]. apply (index_acyclic a). by trans b.
  - rewrite observes_reaches by done. apply rtc_refl.
Qed.

Definition index_comparable a b : Prop := reaches a b ∨ reaches b a.

Lemma chain_windows_spec l :
  StronglySorted (λ x y, ord_le (N.of_nat (Closure.count cl x), N.of_nat x)
                                (N.of_nat (Closure.count cl y), N.of_nat y)) l →
  (∀ m, m ∈ l → m < n) → NoDup l →
  Closure.chain_windows cl l = true ↔ (∀ a b, a ∈ l → b ∈ l → index_comparable a b).
Proof.
  induction l as [|x l IH]; intros Hs Hl Hnd; simpl; [split; [set_solver|done]|].
  apply StronglySorted_inv in Hs as [Hs Hx]. apply NoDup_cons in Hnd as [Hxl Hnd].
  rewrite Forall_forall in Hx.
  specialize (IH Hs (λ m Hm, Hl m (list_elem_of_further _ _ _ Hm)) Hnd).
  destruct l as [|y l].
  { split; [|done]. intros _ a b ->%list_elem_of_singleton ->%list_elem_of_singleton.
    left. apply rtc_refl. }
  guards. rewrite IH. assert (x < n) as Hxn by (apply Hl; by left).
  assert (y < n) as Hyn by (apply Hl; right; by left).
  rewrite observes_reaches by done. split.
  - intros [[Hxy Hyx] Hall].
    assert (∀ b, b ∈ y :: l → reaches b x) as Hbx.
    { intros b Hb. destruct (decide (b = y)) as [->|Hby]; [done|].
      destruct (Hall y b) as [Hyb|?]; [by left|done| |unfold reaches; by trans y].
      exfalso. assert (b < n) as Hbn by (apply Hl; by right).
      pose proof (count_lt y b Hyn Hbn Hyb ltac:(done)) as Hc.
      apply StronglySorted_inv in Hs as [_ Hs]. rewrite Forall_forall in Hs.
      specialize (Hs b). unfold ord_le in Hs. simpl in Hs.
      rewrite (proj2 (N.compare_gt_iff _ _)) in Hs by lia. apply Hs; [|done]. set_solver. }
    intros a b [->|Ha]%elem_of_cons [->|Hb]%elem_of_cons.
    + left. apply rtc_refl.
    + right. by apply Hbx.
    + left. by apply Hbx.
    + by apply Hall.
  - intros Hall. split; [|intros a b ? ?; apply Hall; by right].
    split; [set_solver|]. destruct (Hall x y) as [Hxy|?]; [by left|right; by left| |done].
    exfalso. pose proof (count_lt x y Hxn Hyn Hxy ltac:(set_solver)) as Hc.
    specialize (Hx y ltac:(by left)). unfold ord_le in Hx. simpl in Hx.
    rewrite (proj2 (N.compare_gt_iff _ _)) in Hx by lia. by apply Hx.
Qed.

Lemma is_chain_spec members :
  (∀ m, m ∈ members → m < n) → NoDup members →
  (Closure.is_chain cl members).1 = true ↔
  (∀ a b, a ∈ members → b ∈ members → index_comparable a b).
Proof.
  intros Hl Hnd. unfold Closure.is_chain. simpl.
  pose proof (sort_by_key_perm (λ m, (N.of_nat (Closure.count cl m), N.of_nat m)) members) as Hp.
  rewrite chain_windows_spec; [|apply sort_by_key_sorted| |by rewrite Hp].
  - by setoid_rewrite Hp.
  - intros m. rewrite Hp. apply Hl.
Qed.
End closure.

(** ** The index of a blocklace *)

Section positions.
Implicit Types (ids : list BlockIdentity) (id : BlockIdentity).

Lemma imap_pair_app ids id : imap pair (ids ++ [id]) = imap pair ids ++ [(length ids, id)].
Proof. rewrite imap_app. simpl. by rewrite Nat.add_0_r. Qed.

Lemma elem_of_imap_pair ids i id : (i, id) ∈ imap pair ids ↔ ids !! i = Some id.
Proof.
  rewrite list_elem_of_lookup. setoid_rewrite list_lookup_imap. split.
  - intros [j (id' & Hj & E)%fmap_Some]. naive_solver.
  - intros Hi. exists i. by rewrite Hi.
Qed.

Lemma positions_spec ids id i :
  NoDup ids → AncestorIndex.positions ids !! id = Some i ↔ ids !! i = Some id.
Proof.
  unfold AncestorIndex.positions.
  induction ids as [|id' ids IH] using rev_ind; intros Hnd; [done|].
  apply NoDup_app in Hnd as (Hnd & Hd & _). rewrite imap_pair_app, foldl_app. simpl.
  rewrite lookup_app_Some, list_lookup_singleton_Some. destruct (decide (id' = id)) as [->|Hne].
  - rewrite lookup_insert_eq. split.
    + intros [= <-]. right. split; [done|]. split; [lia|done].
    + intros [Hi|(? & ? & _)]; [|f_equal; lia].
      exfalso. eapply Hd; [by eapply list_elem_of_lookup_2|by left].
  - rewrite lookup_insert_ne, IH by done. naive_solver.
Qed.

Definition unsigned_key id : Hash32 * NodeId := (content_hash id, creator id).

Lemma unsigned_index_spec ids key :
  AncestorIndex.unsigned_index ids !! key =
  match filter (λ e : nat * BlockIdentity, unsigned_key e.2 = key) (imap pair ids) with
  | [] => None
  | [e] => Some (Some e.1)
  | _ => Some None
  end.
Proof.
  unfold AncestorIndex.unsigned_index.
  induction ids as [|id ids IH] using rev_ind; [done|].
  rewrite imap_pair_app, foldl_app, filter_app. simpl.
  set (m := foldl _ ∅ (imap pair ids)) in *. rewrite filter_cons, filter_nil. simpl.
  destruct (decide (unsigned_key id = key)) as [Hk|Hk].
  - unfold unsigned_key in Hk at 1. rewrite Hk.
    destruct (filter _ (imap pair ids)) as [|e [|e' l]] eqn:Ef; rewrite IH; simpl;
      by rewrite lookup_insert_eq.
  - rewrite app_nil_r, <-IH. destruct (m !! (content_hash id, creator id));
      by rewrite lookup_insert_ne.
Qed.

Lemma filter_imap_snd (P : BlockIdentity → Prop) `{∀ x, Decision (P x)} ids :
  (filter (λ e : nat * BlockIdentity, P e.2) (imap pair ids)).*2 = filter P ids.
Proof.
  induction ids as [|id ids IH] using rev_ind; [done|].
  rewrite imap_pair_app, !filter_app, fmap_app, IH. f_equal.
  rewrite !filter_cons, !filter_nil. simpl. by case_decide.
Qed.

Lemma by_creator_spec ids p :
  AncestorIndex.by_creator ids !! p =
  let members := (filter (λ e : nat * BlockIdentity, creator e.2 = p) (imap pair ids)).*1 in
  if decide (members = []) then None else Some members.
Proof.
  unfold AncestorIndex.by_creator.
  induction ids as [|id ids IH] using rev_ind; [done|].
  rewrite imap_pair_app, foldl_app, filter_app, fmap_app. simpl in *.
  set (m := foldl _ ∅ (imap pair ids)) in *. rewrite filter_cons, filter_nil. simpl.
  destruct (decide (creator id = p)) as [->|Hk].
  - rewrite lookup_insert_eq, IH. rewrite (decide_False (P := _ ++ _ = [])) by (by intros [??]%app_nil).
    simpl. case_decide as Hn; simpl; [by rewrite Hn|done].
  - rewrite lookup_insert_ne, IH by done. simpl. by rewrite app_nil_r.
Qed.
End positions.

Section index.
#[local] Set Default Proof Using "All".
Context `{HO : HashOrder}.
Variable bl : Blocklace.t.
Let ids := hash_iter (Blocklace.dom bl).
Let resolve := AncestorIndex.index_resolve (AncestorIndex.positions ids)
  (AncestorIndex.unsigned_index ids).
Let preds := AncestorIndex.build_preds bl ids.
Let stop := map (Blocklace.is_checkpoint_boundary bl) ids.

Lemma ids_nodup : NoDup ids.
Proof. apply NoDup_hash_iter. Qed.
Lemma ids_stored i id : ids !! i = Some id → is_Some (Blocklace.blocks bl !! id).
Proof. intros Hi%list_elem_of_lookup_2. by apply elem_of_hash_iter, elem_of_lace_dom in Hi. Qed.

Lemma index_resolve_spec p i :
  resolve p = Some i ↔ ∃ r, ids !! i = Some r ∧ Blocklace.resolve_identity bl p = Some r.
Proof.
  unfold resolve, AncestorIndex.index_resolve, Blocklace.resolve_identity,
    Blocklace.resolve_identity_in.
  destruct (AncestorIndex.positions ids !! p) as [j|] eqn:Ej.
  { apply positions_spec in Ej; [|apply ids_nodup]. pose proof (ids_stored _ _ Ej) as [c ->]. split.
    - intros [= <-]. eauto.
    - intros (r & Hi & [= ->]). f_equal. eapply NoDup_lookup; [apply ids_nodup|done..]. }
  assert (Blocklace.blocks bl !! p = None) as ->.
  { apply eq_None_not_Some. intros Hp. assert (p ∈ ids) as [j Hj]%list_elem_of_lookup
      by (by apply elem_of_hash_iter, elem_of_lace_dom).
    apply positions_spec in Hj; [congruence|apply ids_nodup]. }
  case_decide; [naive_solver|]. rewrite unsigned_index_spec.
  assert (elements (filter (λ c, same_consensus_identity c p) (dom (Blocklace.blocks bl))) ≡ₚ
    (filter (λ e : nat * BlockIdentity, unsigned_key e.2 = unsigned_key p) (imap pair ids)).*2)
    as Hperm.
  { pose proof (filter_imap_snd (λ c, unsigned_key c = unsigned_key p) ids) as Efs.
    etrans; [|apply reflexive_eq; symmetry; exact Efs]. apply NoDup_Permutation.
    - apply NoDup_elements.
    - apply NoDup_filter, ids_nodup.
    - intros x. rewrite elem_of_elements, elem_of_filter, list_elem_of_filter.
      unfold ids. rewrite elem_of_hash_iter. unfold unsigned_key, same_consensus_identity.
      rewrite pair_eq. done. }
  unfold unsigned_key in Hperm at 2. change (content_hash p, creator p) with (unsigned_key p) in *.
  destruct (filter _ (imap pair ids)) as [|[j id] [|e' l]] eqn:Ef; simpl in *.
  - apply Permutation_nil_r in Hperm. rewrite Hperm. naive_solver.
  - apply Permutation_singleton_r in Hperm as ->. simpl.
    assert ((j, id) ∈ [(j, id)]) as Hin by (by left). rewrite <-Ef in Hin.
    apply list_elem_of_filter in Hin as [_ Hin%elem_of_imap_pair]. split.
    + intros [= <-]. eauto.
    + intros (r & Hi & [= <-]). f_equal. eapply NoDup_lookup; [apply ids_nodup|done..].
  - split; [done|]. destruct (elements _) as [|x [|y k]]; [naive_solver| |naive_solver].
    apply Permutation_length in Hperm. done.
Qed.

Lemma length_preds : length preds = length ids.
Proof. unfold preds, AncestorIndex.build_preds. by rewrite length_map. Qed.

Lemma children_spec i a j :
  ids !! i = Some a →
  j ∈ Closure.children preds stop i ↔ ∃ b, ids !! j = Some b ∧ points bl a b.
Proof.
  intros Hi. unfold Closure.children.
  rewrite !list_lookup_total_alt. unfold stop, preds, AncestorIndex.build_preds.
  fold resolve. rewrite !list_lookup_fmap, Hi. simpl.
  unfold Blocklace.is_checkpoint_boundary, points. case_bool_decide as Hcp.
  { split; [by intros ?%elem_of_nil|]. naive_solver. }
  destruct (ids_stored _ _ Hi) as [c Hc]. rewrite Hc.
  rewrite list_elem_of_omap. setoid_rewrite elem_of_hash_iter.
  setoid_rewrite index_resolve_spec. split.
  - intros (p & Hp & r & Hj & Hr). exists r. split; [done|]. by exists c, p.
  - intros (b & Hj & c' & p & [= <-] & Hp & Hr & _). eauto.
Qed.

Lemma index_valid : valid_preds preds stop.
Proof.
  intros i j Hj. rewrite length_preds.
  destruct (ids !! i) as [a|] eqn:Hi.
  - destruct (proj1 (children_spec _ _ j Hi) Hj) as (b & Hb & _). by eapply lookup_lt_Some.
  - exfalso. revert Hj. unfold Closure.children.
    assert (preds !!! i = []) as ->.
    { rewrite list_lookup_total_alt. unfold preds, AncestorIndex.build_preds.
      by rewrite list_lookup_fmap, Hi. }
    destruct (stop !!! i : bool); by intros ?%elem_of_nil.
Qed.

Lemma index_edge_points i j a b :
  ids !! i = Some a → ids !! j = Some b → index_edge preds stop i j ↔ points bl a b.
Proof.
  intros Hi Hj. unfold index_edge. rewrite (children_spec _ _ _ Hi). naive_solver.
Qed.

Lemma index_edge_inv i j :
  index_edge preds stop i j → ∃ a b, ids !! i = Some a ∧ ids !! j = Some b ∧ points bl a b.
Proof.
  intros Hj. destruct (ids !! i) as [a|] eqn:Hi.
  - pose proof Hj as (b & Hb & Hab)%(children_spec _ _ _ Hi). by exists a, b.
  - exfalso. revert Hj. unfold index_edge, Closure.children.
    assert (preds !!! i = []) as ->.
    { rewrite list_lookup_total_alt. unfold preds, AncestorIndex.build_preds.
      by rewrite list_lookup_fmap, Hi. }
    destruct (stop !!! i : bool); by intros ?%elem_of_nil.
Qed.

Lemma index_tc_points i j a b :
  ids !! i = Some a → ids !! j = Some b → tc (index_edge preds stop) i j ↔ tc (points bl) a b.
Proof.
  intros Hi Hj. split; intros Ht.
  - revert a Hi. induction Ht as [i j Hij|i k j Hik Hkj IH]; intros a Hi.
    + apply tc_once. by apply (index_edge_points i j).
    + pose proof Hik as (a' & m & Ha & Hk & Ham)%index_edge_inv.
      eapply tc_l; [|by apply IH]. naive_solver.
  - revert i Hi. induction Ht as [a b Hab|a m b Ham Hmb IH]; intros i Hi.
    + apply tc_once. by apply (index_edge_points i j a b).
    + pose proof Ham as [_ Hm]%points_dom.
      assert (m ∈ ids) as [k Hk]%list_elem_of_lookup by (by apply elem_of_hash_iter).
      eapply tc_l; [by apply (index_edge_points i k a m)|by apply IH].
Qed.

Lemma index_rtc_points i j a b :
  ids !! i = Some a → ids !! j = Some b → rtc (index_edge preds stop) i j ↔ rtc (points bl) a b.
Proof.
  intros Hi Hj. rewrite !rtc_tc, (index_tc_points i j a b) by done. split; intros [E|?]; auto.
  - left. congruence.
  - left. subst. eapply NoDup_lookup; [apply ids_nodup|done..].
Qed.

Lemma index_acyclic : acyclic bl → ∀ i, ¬ tc (index_edge preds stop) i i.
Proof.
  intros Hac i Hi. assert (∃ a, ids !! i = Some a) as [a Ha].
  { inversion Hi as [? ? E|? ? ? E]; subst; apply index_edge_inv in E as (a & _ & ? & _); eauto. }
  apply (Hac a). by apply (index_tc_points i i a a).
Qed.

Lemma index_observes i j a b :
  acyclic bl → ids !! i = Some a → ids !! j = Some b →
  Closure.observes (AncestorIndex.closure (AncestorIndex.build bl)) i j = true ↔
  rtc (points bl) a b.
Proof.
  intros Hac Hi Hj. simpl. fold ids. fold preds stop.
  rewrite build_observes; [by apply index_rtc_points| | | |].
  - apply index_valid.
  - by apply index_acyclic.
  - rewrite length_preds. by eapply lookup_lt_Some.
  - rewrite length_preds. by eapply lookup_lt_Some.
Qed.

(** *** The index of equivocating siblings *)

Definition rival (a b : BlockIdentity) : Prop :=
  creator a = creator b ∧ a ≠ b ∧ ¬ rtc (points bl) a b ∧ ¬ rtc (points bl) b a.

(** [siblings] is the verdict the index holds about [i]. *)
Definition siblings_exact (i : nat) (siblings : option (list nat)) : Prop :=
  ∀ j, j ∈ default [] siblings ↔ ∃ a b, ids !! i = Some a ∧ ids !! j = Some b ∧ rival a b.

Lemma members_spec p i :
  i ∈ default [] (AncestorIndex.by_creator ids !! p) ↔ ∃ a, ids !! i = Some a ∧ creator a = p.
Proof.
  rewrite by_creator_spec. simpl.
  assert (i ∈ (filter (λ e : nat * BlockIdentity, creator e.2 = p) (imap pair ids)).*1 ↔
    ∃ a, ids !! i = Some a ∧ creator a = p) as E.
  { rewrite list_elem_of_fmap. setoid_rewrite list_elem_of_filter. split.
    - intros ([j a] & -> & Hp & Hj%elem_of_imap_pair). eauto.
    - intros (a & Hi & Hp). exists (i, a). rewrite elem_of_imap_pair. done. }
  case_decide as Hn; [rewrite Hn in E|]; exact E.
Qed.

Lemma members_nodup p members :
  AncestorIndex.by_creator ids !! p = Some members → NoDup members.
Proof.
  rewrite by_creator_spec. simpl. case_decide; [done|]. intros [= <-].
  assert (NoDup (imap pair ids).*1) as Hnd.
  { apply NoDup_alt. intros i j x. rewrite !list_lookup_fmap, !list_lookup_imap.
    destruct (ids !! i), (ids !! j); simpl; congruence. }
  clear H. induction (imap pair ids) as [|e l IH]; [constructor|]. simpl in Hnd.
  apply NoDup_cons in Hnd as [He Hnd]. rewrite filter_cons. case_decide; [|by apply IH].
  simpl. constructor; [|by apply IH]. intros (e' & E & He'%list_elem_of_filter)%list_elem_of_fmap.
  apply He. rewrite E. apply list_elem_of_fmap. naive_solver.
Qed.

Lemma extend_lookup {V} (m : gmap nat V) pairs i :
  NoDup pairs.*1 →
  AncestorIndex.extend m pairs !! i =
  match snd <$> list_find (λ e : nat * V, e.1 = i) pairs with Some v => Some v.2 | None => m !! i end.
Proof.
  unfold AncestorIndex.extend. revert m.
  induction pairs as [|[k v] pairs IH]; intros m Hnd; [done|]. simpl in *.
  apply NoDup_cons in Hnd as [Hk Hnd]. rewrite IH by done. case_decide as Hki.
  - subst. simpl. destruct (list_find _ pairs) as [[n [k' v']]|] eqn:E.
    + apply list_find_Some in E as (Hn%list_elem_of_lookup_2 & Hki & _). simpl in Hki; subst.
      exfalso. apply Hk. apply list_elem_of_fmap. by exists (i, v').
    + simpl. by rewrite lookup_insert_eq.
  - destruct (list_find _ pairs) as [[n [k' v']]|]; simpl; [done|]. by rewrite lookup_insert_ne.
Qed.

Lemma incomparable_pairs_extend cl m members i :
  NoDup members →
  AncestorIndex.extend m (Closure.incomparable_pairs cl members) !! i =
  let conflicts := filter (λ b, b ≠ i ∧ Closure.observes cl i b = false ∧
    Closure.observes cl b i = false) members in
  if decide (i ∈ members ∧ conflicts ≠ []) then Some conflicts else m !! i.
Proof.
  intros Hnd. unfold Closure.incomparable_pairs.
  set (f := λ a, if decide (_ = []) then None else _).
  assert (∀ a c (l : list nat), (a, c) ∈ omap f l ↔ a ∈ l ∧ f a = Some (a, c)) as Hin.
  { intros a c l. rewrite list_elem_of_omap. split; [|by intros []; exists a].
    intros (x & Hx & E). enough (x = a) by (by subst).
    unfold f in E. case_decide; [done|]. by injection E. }
  rewrite extend_lookup.
  - destruct (list_find _ (omap f members)) as [[n [a c]]|] eqn:E; simpl.
    + apply list_find_Some in E as (Hn%list_elem_of_lookup_2 & Ha & _). simpl in Ha. subst.
      apply Hin in Hn as [Hi Hf]. unfold f in Hf. case_decide; [done|].
      injection Hf as <-. rewrite decide_True; done.
    + apply list_find_None in E. rewrite Forall_forall in E.
      case_decide as Hd; [|done]. destruct Hd as [Hi Hc]. exfalso.
      eapply (E (i, _)); [|done]. apply Hin. split; [done|]. unfold f. by rewrite decide_False.
  - clear Hin. enough (∀ l, NoDup l → NoDup (omap f l).*1) by auto.
    intros l Hl. induction Hl as [|a l Ha Hl IH]; [constructor|]. simpl.
    destruct (f a) as [[a' c]|] eqn:E; [|done]. simpl. constructor; [|done].
    intros ([a'' c'] & -> & (x & Hx & E')%list_elem_of_omap)%list_elem_of_fmap. simpl in *.
    unfold f in E, E'. do 2 case_decide; try done.
    injection E as <- _. injection E' as <- _. done.
Qed.

Lemma incomparable_pairs_siblings cl m members i :
  NoDup members →
  let m' := AncestorIndex.extend m (Closure.incomparable_pairs cl members) in
  (i ∉ members → m' !! i = m !! i) ∧
  (i ∈ members → m !! i = None → ∀ j, j ∈ default [] (m' !! i) ↔
    j ∈ members ∧ j ≠ i ∧ Closure.observes cl i j = false ∧ Closure.observes cl j i = false).
Proof.
  intros Hnd. cbn zeta. rewrite incomparable_pairs_extend by done. cbn zeta.
  split; [intros Hi; rewrite decide_False; tauto|]. intros Hi Hm j.
  case_decide as Hd; cbn [from_option id].
  - rewrite list_elem_of_filter. tauto.
  - rewrite Hm. cbn [from_option id]. split; [by intros ?%elem_of_nil|]. intros (Hj & Hconf).
    exfalso. apply Hd. split; [done|]. intros Hnil.
    apply (elem_of_nil j). rewrite <-Hnil. by apply list_elem_of_filter.
Qed.

Hypothesis Hacyclic : acyclic bl.
Let cl := Closure.build preds stop.

Lemma cl_observes i j a b :
  ids !! i = Some a → ids !! j = Some b → Closure.observes cl i j = false ↔ ¬ rtc (points bl) a b.
Proof.
  intros Hi Hj. rewrite <-not_true_iff_false.
  apply not_iff_compat, (index_observes i j a b Hacyclic Hi Hj).
Qed.

Definition conflict_step (conflicts : gmap nat (list nat)) (e : NodeId * list nat) :=
  if decide (1 < length e.2) then
    let chain := Closure.is_chain cl e.2 in
    if chain.1 then conflicts
    else AncestorIndex.extend conflicts (Closure.incomparable_pairs cl chain.2)
  else conflicts.

Lemma conflict_step_spec m p members i :
  AncestorIndex.by_creator ids !! p = Some members →
  if decide (i ∈ members)
  then m !! i = None → siblings_exact i (conflict_step m (p, members) !! i)
  else conflict_step m (p, members) !! i = m !! i.
Proof.
  intros Hp. pose proof (members_nodup _ _ Hp) as Hnd.
  assert (∀ j, j ∈ members ↔ ∃ a, ids !! j = Some a ∧ creator a = p) as Hm.
  { intros j. rewrite <-members_spec, Hp. done. }
  assert (∀ a j, ids !! i = Some a → i ∈ members →
    (j ∈ members ∧ j ≠ i ∧ Closure.observes cl i j = false ∧ Closure.observes cl j i = false) ↔
    ∃ b, ids !! j = Some b ∧ rival a b) as Hconf.
  { intros a j Ha Hi. rewrite Hm. apply Hm in Hi as (a' & Ha' & Hpa).
    rewrite Ha in Ha'. injection Ha' as <-. unfold rival. split.
    - intros ((b & Hb & Hpb) & Hji & H1 & H2). exists b. split; [done|].
      rewrite (cl_observes i j a b) in H1 by done. rewrite (cl_observes j i b a) in H2 by done.
      split; [congruence|]. split; [|done].
      intros ->. apply Hji. eapply NoDup_lookup; [apply ids_nodup|done..].
    - intros (b & Hb & Hc & Hne & H1 & H2).
      rewrite (cl_observes i j a b), (cl_observes j i b a) by done.
      split; [exists b; split; congruence|]. split; [congruence|done]. }
  unfold conflict_step. cbn [fst snd]. case_decide as Hi.
  - intros Hnone. apply Hm in Hi as Ha. destruct Ha as (a & Ha & Hpa).
    assert ((∀ j, ¬ ∃ b, ids !! j = Some b ∧ rival a b) → siblings_exact i (m !! i)) as Hempty.
    { intros Hn j. rewrite Hnone. simpl. split; [by intros ?%elem_of_nil|].
      intros (a' & b & ? & ? & ?). exfalso. apply (Hn j). naive_solver. }
    case_decide as Hlen.
    2:{ apply Hempty. intros j Hr. pose proof Hr as (b & Hb & Hc & Hne & _).
        apply Hne. assert (j ∈ members) as Hj by (apply Hm; exists b; split; congruence).
        destruct members as [|x [|]]; simpl in Hlen; try lia; [by apply elem_of_nil in Hi|].
        apply list_elem_of_singleton in Hi, Hj. subst. congruence. }
    destruct ((Closure.is_chain cl members).1) eqn:Hch.
    + apply Hempty. intros j Hr. pose proof (proj2 (Hconf a j Ha Hi) Hr) as [Hj _]. destruct Hr as (b & Hb & Hc & Hne & H1 & H2).
      assert (∀ k, k ∈ members → k < length preds) as Hlt.
      { intros k (b' & Hk & _)%Hm. rewrite length_preds. by eapply lookup_lt_Some. }
      pose proof (proj1 (is_chain_spec preds stop index_valid (index_acyclic Hacyclic)
        members Hlt Hnd) Hch) as Hall.
      destruct (Hall i j Hi Hj) as [Hr|Hr]; [apply H1|apply H2];
        revert Hr; by apply index_rtc_points.
    + destruct (incomparable_pairs_siblings cl m (Closure.is_chain cl members).2 i) as [_ Hs].
      { unfold Closure.is_chain. cbn [snd]. by rewrite sort_by_key_perm. }
      assert (∀ j, j ∈ (Closure.is_chain cl members).2 ↔ j ∈ members) as Hsm.
      { intros j. unfold Closure.is_chain. cbn [snd]. by rewrite sort_by_key_perm. }
      intros j. rewrite (Hs (proj2 (Hsm i) Hi) Hnone j), Hsm, (Hconf a j Ha Hi).
      split; [intros (b & ? & ?); by exists a, b|].
      intros (a' & b & Ha' & Hb & Hr). rewrite Ha in Ha'. injection Ha' as <-. by exists b.
  - case_decide; [|done]. destruct (Closure.is_chain cl members).1; [done|].
    apply incomparable_pairs_siblings; unfold Closure.is_chain; cbn [snd];
      by rewrite sort_by_key_perm.
Qed.

Lemma conflict_fold L m i :
  NoDup L.*1 → (∀ p members, (p, members) ∈ L → AncestorIndex.by_creator ids !! p = Some members) →
  ((∀ p members, (p, members) ∈ L → i ∉ members) → foldl conflict_step m L !! i = m !! i) ∧
  ((∃ p members, (p, members) ∈ L ∧ i ∈ members) → m !! i = None →
    siblings_exact i (foldl conflict_step m L !! i)).
Proof.
  revert m. induction L as [|[p members] L IH]; intros m Hnd HL; cbn [foldl].
  { split; [done|]. intros (p & members & ?%elem_of_nil & _). done. }
  cbn in Hnd. apply NoDup_cons in Hnd as [Hp Hnd].
  destruct (IH (conflict_step m (p, members)) Hnd) as [IH1 IH2].
  { intros q ms ?. apply HL. by right. }
  pose proof (conflict_step_spec m p members i (HL p members ltac:(by left))) as Hstep.
  case_decide as Hi.
  - split; [intros Hno; exfalso; by apply (Hno p members ltac:(by left))|].
    intros _ Hm. rewrite IH1; [by apply Hstep|]. intros q ms Hq Hiq. apply Hp.
    assert (q = p) as <-; [|by apply list_elem_of_fmap; exists (q, ms)].
    assert (i ∈ default [] (AncestorIndex.by_creator ids !! p)) as Hip
      by (by rewrite (HL p members ltac:(by left))).
    assert (i ∈ default [] (AncestorIndex.by_creator ids !! q)) as Hiq'
      by (by rewrite (HL q ms ltac:(by right))).
    apply members_spec in Hip as (a & Ha & <-), Hiq' as (b & Hb & <-). congruence.
  - rewrite <-Hstep. split.
    + intros Hno. apply IH1. intros q ms ?. apply (Hno q). by right.
    + intros (q & ms & [[= -> ->]|Hq]%elem_of_cons & Hiq) Hm; [done|]. apply IH2; eauto.
Qed.

Lemma conflicts_exact i a :
  ids !! i = Some a →
  siblings_exact i (AncestorIndex.conflicts (AncestorIndex.build bl) !! i).
Proof.
  intros Hi. simpl. unfold AncestorIndex.build_conflicts. fold ids. fold preds stop. fold cl.
  destruct (conflict_fold (map_iter (AncestorIndex.by_creator ids)) ∅ i) as [_ H].
  - apply NoDup_map_iter.
  - intros p members. by rewrite elem_of_map_iter.
  - apply H; [|done].
    assert (i ∈ default [] (AncestorIndex.by_creator ids !! creator a)) as Hin
      by (apply members_spec; eauto).
    destruct (AncestorIndex.by_creator ids !! creator a) as [members|] eqn:E;
      [|by apply elem_of_nil in Hin].
    exists (creator a), members. by rewrite elem_of_map_iter.
Qed.

(** Definition 18, on positions. *)
Lemma index_approves i j a b :
  ids !! i = Some a → ids !! j = Some b →
  AncestorIndex.approves (AncestorIndex.build bl) i j = true ↔
  rtc (points bl) a b ∧ ∀ r, rtc (points bl) a r → ¬ rival b r.
Proof.
  intros Hi Hj. pose proof (conflicts_exact j b Hj) as Hconf.
  unfold AncestorIndex.approves. pose proof (index_observes i j a b Hacyclic Hi Hj) as Hobs.
  destruct (Closure.observes _ i j); [|naive_solver].
  transitivity (∀ k, k ∈ default [] (AncestorIndex.conflicts (AncestorIndex.build bl) !! j) →
    Closure.observes (AncestorIndex.closure (AncestorIndex.build bl)) i k = false).
  { destruct (AncestorIndex.conflicts (AncestorIndex.build bl) !! j) as [sibs|];
      cbn [from_option id]; [by rewrite negb_true_iff, existsb_false|].
    split; [by intros _ ? ?%elem_of_nil|done]. }
  split.
  - intros Hall. split; [by apply Hobs|]. intros r Har Hr.
    assert (r ∈ ids) as [k Hk]%list_elem_of_lookup.
    { apply elem_of_hash_iter. apply rtc_tc in Har as [<-|[_ Har]%tc_points_dom]; [|done].
      by apply elem_of_hash_iter, (list_elem_of_lookup_2 _ i). }
    assert (Closure.observes (AncestorIndex.closure (AncestorIndex.build bl)) i k = false) as Hk0.
    { apply Hall, Hconf. by exists b, r. }
    apply not_true_iff_false in Hk0. apply Hk0. by apply (index_observes i k a r).
  - intros [_ Hall] k Hk. apply Hconf in Hk as (b' & r & Hb' & Hr & Hriv).
    assert (b' = b) as -> by congruence. apply not_true_iff_false. intros Hobs'.
    apply (Hall r); [|done]. by apply (index_observes i k a r) in Hobs'.
Qed.
End index.

Lemma index_of_spec `{HashOrder} bl i a :
  AncestorIndex.index_of (AncestorIndex.build bl) a = Some i ↔
  hash_iter (Blocklace.dom bl) !! i = Some a.
Proof. apply positions_spec, NoDup_hash_iter. Qed.

Lemma index_of_stored `{HashOrder} bl a :
  a ∈ Blocklace.dom bl → ∃ i, AncestorIndex.index_of (AncestorIndex.build bl) a = Some i ∧
    hash_iter (Blocklace.dom bl) !! i = Some a.
Proof.
  intros Ha. assert (a ∈ hash_iter (Blocklace.dom bl)) as [i Hi]%list_elem_of_lookup
    by (by apply elem_of_hash_iter).
  exists i. by rewrite index_of_spec.
Qed.

Lemma index_of_is_Some `{HashOrder} bl a i :
  AncestorIndex.index_of (AncestorIndex.build bl) a = Some i → a ∈ Blocklace.dom bl.
Proof. intros Hi%index_of_spec%list_elem_of_lookup_2. by apply elem_of_hash_iter in Hi. Qed.

(** ** The index slot *)

Section slot.
Context `{HO : HashOrder} `{CryptoVerifier}.

(** A stored index is never newer than the blocklace, and is the index of the
    current one when it carries its generation. *)
Definition slot_current (s : IndexedLace.t) : Prop :=
  ∀ index, IndexedLace.slot s = Some index →
    (AncestorIndex.generation index <= Blocklace.generation (IndexedLace.lace s))%N ∧
    (AncestorIndex.generation index = Blocklace.generation (IndexedLace.lace s) →
      index = AncestorIndex.build (IndexedLace.lace s)).

Lemma slot_current_bump s bl :
  slot_current s →
  Blocklace.generation bl = N.succ (Blocklace.generation (IndexedLace.lace s)) →
  slot_current (IndexedLace.mk bl (IndexedLace.slot s)).
Proof.
  intros Hs Hg index Hi. simpl in *. apply Hs in Hi as [Hle _]. rewrite Hg.
  split; [lia|]. intros He. exfalso. lia.
Qed.

Lemma insert_generation (bl : Blocklace.t) b bl' :
  Blocklace.insert bl b = Ok bl' →
  Blocklace.generation bl' = wrapping_add64 (Blocklace.generation bl) 1.
Proof. intros (_ & _ & (_ & _ & _ & Hg & _)%commit_Ok)%insert_Ok. exact Hg. Qed.

Lemma trusted_generation (bl : Blocklace.t) b r :
  Blocklace.insert_with_trusted_boundary bl b = Ok r →
  Blocklace.generation r.2 = wrapping_add64 (Blocklace.generation bl) 1.
Proof.
  unfold Blocklace.insert_with_trusted_boundary.
  destruct (verify_block _ _ _); simpl; [|done].
  destruct (Blocklace.commit_validated _ _ _) as [bl'|] eqn:E; simpl; [|done].
  apply commit_Ok in E as (_ & _ & _ & Hg & _). case_decide; intros [= <-]; done.
Qed.

Lemma slot_step s s' :
  (Blocklace.generation (IndexedLace.lace s) < u64_max)%N → slot_current s →
  IndexedLace.step s s' →
  slot_current s' ∧
  (Blocklace.generation (IndexedLace.lace s') <=
    N.succ (Blocklace.generation (IndexedLace.lace s)))%N.
Proof.
  intros Hlt Hs Hst.
  assert (wrapping_add64 (Blocklace.generation (IndexedLace.lace s)) 1 =
    N.succ (Blocklace.generation (IndexedLace.lace s))) as Hw
    by (rewrite wrapping_add64_small; lia).
  assert (∀ bl, Blocklace.generation bl =
      wrapping_add64 (Blocklace.generation (IndexedLace.lace s)) 1 →
    slot_current (IndexedLace.mk bl (IndexedLace.slot s)) ∧
    (Blocklace.generation bl <= N.succ (Blocklace.generation (IndexedLace.lace s)))%N) as Hbump.
  { intros bl Hg. rewrite Hw in Hg. split; [by apply slot_current_bump|lia]. }
  destruct Hst as [s b bl Hi|s b r Hi|s id|s cp d o w|s]; simpl in *.
  - by apply Hbump, (insert_generation _ b).
  - by apply Hbump, (trusted_generation _ b).
  - unfold Blocklace.forget_block. destruct (Blocklace.blocks _ !! id); simpl.
    + by apply Hbump.
    + split; [|lia]. by destruct s.
  - by apply Hbump.
  - assert (∀ bl, slot_current (IndexedLace.mk bl (Some (AncestorIndex.build bl)))) as Hb.
    { intros bl index [= <-]. simpl. done. }
    unfold IndexedLace.ancestor_index. destruct (IndexedLace.slot s) as [index|] eqn:E;
      [case_decide|]; simpl; split; try lia; try done; apply Hb.
Qed.

Lemma slot_steps n a s :
  (N.of_nat n <= u64_max)%N → nsteps IndexedLace.step n (IndexedLace.new a) s →
  slot_current s ∧ (Blocklace.generation (IndexedLace.lace s) <= N.of_nat n)%N.
Proof.
  revert s. induction n as [|n IH]; intros s Hn Hst.
  - inversion Hst; subst. split; [|done]. by intros ? [=].
  - apply nsteps_inv_r in Hst as (s1 & Hst & Hs). apply IH in Hst as [H1 H2]; [|lia].
    apply slot_step in Hs as [H3 H4]; [split; [done|lia]|lia|done].
Qed.
End slot.
