(* ===== verification/Rounds.v ===== *)
(** * Rounds and waves

    [consensus/round.rs]: the memoised depth of a block and the layers it
    induces; [consensus/wave.rs]: fixed-length waves and their leader blocks. *)

From S2P Require Import Prelude Types Lace.
From stdpp Require Import options.

Module Round.
Section round.
Context `{HO : HashOrder}.
Implicit Types bl : Blocklace.t.

Abbreviation depth_cache := (gmap BlockIdentity N).
(** What one call returns: a depth or nothing, and the cache it leaves. *)
Abbreviation depth_answer := (option N * depth_cache)%type.

(** [for pred_id in &content.predecessors { .. }] with its early return. *)
Fixpoint depth_loop (recurse : BlockIdentity → depth_cache → option depth_answer)
    (preds : list BlockIdentity) (max_pred_depth : N) (cache : depth_cache) :
    option depth_answer :=
  match preds with
  | [] => Some (Some max_pred_depth, cache)
  | pred_id :: preds =>
    r ← recurse pred_id cache;
    match r.1 with
    | None => Some (None, r.2)
    | Some pred_depth => depth_loop recurse preds (N.max max_pred_depth pred_depth) r.2
    end
  end.

(** The outer [None] means that the recursion was cut by the fuel. *)
Fixpoint depth_recursive bl (fuel : nat) (block_id : BlockIdentity) (cache : depth_cache) :
    option depth_answer :=
  match fuel with
  | O => None
  | S fuel =>
    match Blocklace.resolve_identity bl block_id with
    | None => Some (None, cache)
    | Some block_id =>
      match cache !! block_id with
      | Some d => Some (Some d, cache)
      | None =>
        if Blocklace.is_checkpoint_boundary bl block_id then
          let depth := default 0%N (Blocklace.checkpoint_depth bl) in
          Some (Some depth, <[block_id := depth]> cache)
        else
          match Blocklace.content bl block_id with
          | None => Some (None, cache)
          | Some c =>
            if decide (predecessors c = ∅) then Some (Some 0%N, <[block_id := 0%N]> cache)
            else
              r ← depth_loop (depth_recursive bl fuel) (hash_iter (predecessors c)) 0 cache;
              match r.1 with
              | None => Some (None, r.2)
              | Some max_pred_depth =>
                let d := wrapping_add64 max_pred_depth 1 in
                Some (Some d, <[block_id := d]> r.2)
              end
          end
      end
    end
  end.

(** A chain of distinct blocks is no longer than the blocklace; one more call
    finds a reference that does not resolve. *)
Definition depth_fuel bl : nat := S (S (size (Blocklace.blocks bl))).

Definition depth bl (block_id : BlockIdentity) : option N :=
  r ← depth_recursive bl (depth_fuel bl) block_id ∅; r.1.

Definition candidate_depth bl (c : BlockContent) : option N :=
  if decide (predecessors c = ∅) then Some 0%N
  else
    depths ← mapM (depth bl) (hash_iter (predecessors c));
    maximum ← iter_max depths;
    checked_add u64_max maximum 1.

Definition compute_all_depths bl : depth_cache :=
  foldl (λ cache id,
    match depth_recursive bl (depth_fuel bl) id cache with
    | Some r => r.2
    | None => cache
    end) ∅ (hash_iter (Blocklace.dom bl)).

(** [depths.iter().filter(..).filter_map(|(id, _)| blocklace.get(id)).collect()]. *)
Definition select_blocks bl (keep : N → bool) : BlockSet :=
  collect_blocks (omap (λ e : BlockIdentity * N,
      if keep e.2 then Blocklace.get bl e.1 else None)
    (map_iter (compute_all_depths bl))).

Definition blocks_at_depth bl (d : N) : BlockSet := select_blocks bl (λ dep, (dep =? d)%N).
Definition depth_prefix bl (d : N) : BlockSet := select_blocks bl (λ dep, (dep <=? d)%N).
Definition depth_suffix bl (d : N) : BlockSet := select_blocks bl (λ dep, (d <? dep)%N).

Definition max_depth bl : option N := iter_max (map_iter (compute_all_depths bl)).*2.

Definition is_round_cordial bl (round : N) (n f : nat) : bool :=
  bool_decide (n + f < size (set_creators (blocks_at_depth bl round)) * 2).

(** [(0..=max_d).rev().find(..)]. *)
Definition latest_cordial_round bl (n f : nat) : option N :=
  max_d ← max_depth bl;
  List.find (λ d, is_round_cordial bl d n f) (reverse (range_incl 0 max_d)).

End round.
End Round.

Module Wave.

Definition wave_of_round (round wavelength : N) : option N :=
  if decide (wavelength = 0%N) then None else Some (round / wavelength)%N.

Definition first_round_of_wave (wave wavelength : N) : option N :=
  if decide (wavelength = 0%N) then None else checked_mul u64_max wave wavelength.

Definition last_round_of_wave (wave wavelength : N) : option N :=
  first ← first_round_of_wave wave wavelength;
  checked_add u64_max first (wavelength - 1).

Definition rounds_of_wave (wave wavelength : N) : option (list N) :=
  first ← first_round_of_wave wave wavelength;
  last ← last_round_of_wave wave wavelength;
  Some (range_incl first last).

Definition is_first_round_of_wave (round wavelength : N) : bool :=
  match wave_of_round round wavelength with
  | Some wave => bool_decide (first_round_of_wave wave wavelength = Some round)
  | None => false
  end.

Definition round_is_in_wave (round wave wavelength : N) : bool :=
  bool_decide (wave_of_round round wavelength = Some wave).

Definition leader_round_of_wave (wave wavelength : N) : option N :=
  first_round_of_wave wave wavelength.

Definition leader_blocks_of_wave `{HashOrder} (bl : Blocklace.t) (wave wavelength : N)
    (leader_selection : N → option NodeId) : BlockSet :=
  match leader_selection wave with
  | None => ∅
  | Some leader =>
    match leader_round_of_wave wave wavelength with
    | None => ∅
    | Some leader_round =>
      filter (λ e : BlockIdentity * BlockContent, creator e.1 = leader)
        (Round.blocks_at_depth bl leader_round)
    end
  end.

End Wave.
