(* ===== verification/RoundFacts.v ===== *)
(** * Properties of rounds and waves

    The memoised recursion computes the depth relation [is_depth] whatever the
    cache and the iteration order, it terminates on acyclic blocklaces, and
    without a checkpoint the depth is the length of the longest path to an
    initial block. *)

From S2P Require Import Prelude Types Lace LaceFacts Rounds.
From stdpp Require Import options.

(** The depth of a stored block as a relation. *)
Inductive is_depth (bl : Blocklace.t) : BlockIdentity → N → Prop :=
  | depth_at_checkpoint id :
      Blocklace.checkpoint bl = Some id → id ∈ Blocklace.dom bl →
      is_depth bl id (default 0%N (Blocklace.checkpoint_depth bl))
  | depth_initial id c :
      Blocklace.checkpoint bl ≠ Some id → Blocklace.blocks bl !! id = Some c →
      predecessors c = ∅ → is_depth bl id 0
  | depth_above id c (target : BlockIdentity → BlockIdentity) (depth_of : BlockIdentity → N) m :
      Blocklace.checkpoint bl ≠ Some id → Blocklace.blocks bl !! id = Some c →
      predecessors c ≠ ∅ →
      (∀ p, p ∈ predecessors c → Blocklace.resolve_identity bl p = Some (target p)) →
      (∀ p, p ∈ predecessors c → is_depth bl (target p) (depth_of p)) →
      (∀ p, p ∈ predecessors c → (depth_of p <= m)%N) →
      (∃ p, p ∈ predecessors c ∧ depth_of p = m) →
      is_depth bl id (wrapping_add64 m 1).

Section depth.
Context `{HO : HashOrder}.
Implicit Types bl : Blocklace.t.

Lemma is_depth_dom bl id d : is_depth bl id d → id ∈ Blocklace.dom bl.
Proof. destruct 1; [done|apply elem_of_lace_dom; eauto..]. Qed.

Lemma is_depth_det bl id d1 d2 : is_depth bl id d1 → is_depth bl id d2 → d1 = d2.
Proof.
  intros H1. revert d2. induction H1 as [id Hcp Hd|id c Hcp Hb Hp|id c t f m Hcp Hb Hp Ht _ IH Hle Hex];
    intros d2 H2; inversion H2 as [id'|id' c'|id' c' t' f' m' ? Hb' ? Ht' Hf' Hle' Hex'];
    subst; simplify_eq; try done.
  destruct Hex as (p & Hpp & <-), Hex' as (q & Hq & <-).
  assert (∀ r, r ∈ predecessors c → f r = f' r) as E.
  { intros r Hr. apply IH; [done|]. assert (t r = t' r) as ->; [|auto].
    pose proof (Ht r Hr). pose proof (Ht' r Hr). congruence. }
  f_equal. apply N.le_antisymm.
  - rewrite E by done. auto.
  - rewrite <-E by done. auto.
Qed.

Definition cache_sound bl (cache : gmap BlockIdentity N) : Prop :=
  ∀ i d, cache !! i = Some d → is_depth bl i d.

(** What a call promises about its answer and its cache. *)
Definition answers bl (cache : gmap BlockIdentity N) id
    (r : option N * gmap BlockIdentity N) : Prop :=
  cache_sound bl r.2 ∧ cache ⊆ r.2 ∧
  match r.1 with
  | Some d => ∃ i, Blocklace.resolve_identity bl id = Some i ∧ r.2 !! i = Some d
  | None => ∀ i d, Blocklace.resolve_identity bl id = Some i → ¬ is_depth bl i d
  end.

Lemma cache_sound_insert bl cache i d :
  cache_sound bl cache → is_depth bl i d → cache_sound bl (<[i := d]> cache).
Proof.
  intros Hc Hd j d'. rewrite lookup_insert_Some. intros [[-> ->]|[_ ?]]; [done|]. by apply Hc.
Qed.

Lemma depth_loop_spec bl recurse preds mx cache r :
  (∀ p cache r, p ∈ preds → cache_sound bl cache → recurse p cache = Some r →
    answers bl cache p r) →
  cache_sound bl cache → Round.depth_loop recurse preds mx cache = Some r →
  cache_sound bl r.2 ∧ cache ⊆ r.2 ∧
  match r.1 with
  | Some m =>
      (∀ p, p ∈ preds → ∃ i d, Blocklace.resolve_identity bl p = Some i ∧
        r.2 !! i = Some d ∧ (d <= m)%N) ∧ (mx <= m)%N ∧
      (m = mx ∨ ∃ p i, p ∈ preds ∧ Blocklace.resolve_identity bl p = Some i ∧ r.2 !! i = Some m)
  | None => ∃ p, p ∈ preds ∧ ∀ i d, Blocklace.resolve_identity bl p = Some i → ¬ is_depth bl i d
  end.
Proof.
  revert mx cache. induction preds as [|p preds IH]; intros mx cache Hrec Hc E; simpl in E.
  { injection E as <-. simpl. split_and!; try done; [set_solver|by left]. }
  destruct (recurse p cache) as [[o cache']|] eqn:Ep; simpl in E; [|done].
  pose proof (Hrec p cache _ ltac:(by left) Hc Ep) as (Hc' & Hsub & Ho); simpl in *.
  destruct o as [d|].
  2:{ injection E as <-; simpl. split_and!; [done..|]. exists p. split; [by left|done]. }
  destruct Ho as (i & Hi & Hid).
  apply IH in E as (Hr & Hsub' & Hm); [|intros q ????; apply Hrec; [by right|done..]|done].
  split; [done|]. split; [by trans cache'|].
  destruct r.1 as [m|].
  - destruct Hm as (Hall & Hle & Hex). split_and!; [|lia|].
    + intros q [->|Hq]%elem_of_cons; [|by apply Hall].
      exists i, d. split; [done|]. split; [by eapply lookup_weaken|lia].
    + destruct Hex as [->|(q & j & Hq & Hj)]; [|right; exists q, j; split; [by right|done]].
      destruct (N.max_spec mx d) as [[_ ->]|[_ ->]]; [right|by left].
      exists p, i. split; [by left|]. split; [done|]. by eapply lookup_weaken.
  - destruct Hm as (q & Hq & Hn). exists q. split; [by right|done].
Qed.

Lemma depth_recursive_spec bl fuel id cache r :
  cache_sound bl cache → Round.depth_recursive bl fuel id cache = Some r →
  answers bl cache id r.
Proof.
  revert id cache r. induction fuel as [|fuel IH]; intros id cache r Hc E; simpl in E; [done|].
  unfold answers. destruct (Blocklace.resolve_identity bl id) as [i|] eqn:Ei.
  2:{ injection E as <-. simpl. split_and!; try done. }
  pose proof Ei as [Hdom _]%resolve_Some. pose proof Hdom as [c Hb]%elem_of_lace_dom.
  destruct (cache !! i) as [d|] eqn:Ed.
  { injection E as <-; simpl. split_and!; try done. by exists i. }
  unfold Blocklace.is_checkpoint_boundary in E. case_bool_decide as Hcp.
  { injection E as <-; simpl. split_and!.
    - apply cache_sound_insert; [done|]. by apply depth_at_checkpoint.
    - by apply insert_subseteq.
    - exists i. by rewrite lookup_insert_eq. }
  rewrite (content_stored _ _ _ Hb) in E. case_decide as Hp.
  { injection E as <-; simpl. split_and!.
    - apply cache_sound_insert; [done|]. by eapply depth_initial.
    - by apply insert_subseteq.
    - exists i. by rewrite lookup_insert_eq. }
  destruct (Round.depth_loop _ _ _ _) as [[o cache']|] eqn:El; simpl in E; [|done].
  apply (depth_loop_spec bl) in El as (Hc' & Hsub & Ho); simpl in *;
    [|intros p ca q _; apply IH|done].
  destruct o as [m|]; injection E as <-; simpl; setoid_rewrite elem_of_hash_iter in Ho.
  - destruct Ho as (Hall & _ & Hex). set (target p := default p (Blocklace.resolve_identity bl p)).
    set (depth_of p := default 0%N (cache' !! target p)).
    assert (is_depth bl i (wrapping_add64 m 1)) as Hd.
    { apply (depth_above bl i c target depth_of); try done; unfold depth_of, target.
      - intros p (j & d & -> & _)%Hall. done.
      - intros p (j & d & -> & Hj & _)%Hall. simpl. rewrite Hj. by apply Hc'.
      - intros p (j & d & -> & Hj & ?)%Hall. simpl. by rewrite Hj.
      - destruct Hex as [->|(p & j & Hpp & Hj & Hjm)].
        + apply set_choose_L in Hp as [p Hpp]. exists p. split; [done|].
          destruct (Hall p Hpp) as (j & d & -> & Hj & ?). simpl. rewrite Hj. simpl. lia.
        + exists p. split; [done|]. rewrite Hj. simpl. by rewrite Hjm. }
    split_and!.
    + by apply cache_sound_insert.
    + etrans; [done|]. destruct (cache' !! i) as [d'|] eqn:Ed'; [|by apply insert_subseteq].
      apply Hc' in Ed' as Hd'. rewrite (is_depth_det _ _ _ _ Hd Hd'). by rewrite insert_id.
    + exists i. by rewrite lookup_insert_eq.
  - split_and!; [done..|]. intros i' d [= <-] Hd. destruct Ho as (p & Hpp & Hno).
    inversion Hd; subst; simplify_eq; [done..|]. eapply Hno; eauto.
Qed.

(** Enough fuel for a block of rank below it, whatever the cache. *)
Lemma depth_recursive_total bl fuel id cache :
  acyclic bl → (∀ i, Blocklace.resolve_identity bl id = Some i → S (ancestor_rank bl i) < fuel) →
  0 < fuel → is_Some (Round.depth_recursive bl fuel id cache).
Proof.
  intros Hac. revert id cache. induction fuel as [|fuel IH]; intros id cache Hr Hf; [lia|]. simpl.
  destruct (Blocklace.resolve_identity bl id) as [i|] eqn:Ei; [|eauto].
  pose proof Ei as [[c Hb]%elem_of_lace_dom _]%resolve_Some.
  destruct (cache !! i); [eauto|]. unfold Blocklace.is_checkpoint_boundary.
  case_bool_decide as Hcp; [eauto|].
  rewrite (content_stored _ _ _ Hb). case_decide as Hp; [eauto|].
  enough (∀ preds mx cache, (∀ p, p ∈ preds → p ∈ predecessors c) →
    is_Some (Round.depth_loop (Round.depth_recursive bl fuel) preds mx cache)) as Hloop.
  { destruct (Hloop (hash_iter (predecessors c)) 0%N cache) as [r ->]; simpl.
    - intros p. by rewrite elem_of_hash_iter.
    - destruct r.1; eauto. }
  induction preds as [|p preds IHp]; intros mx ca Hpreds; simpl; [eauto|].
  assert (∀ j, Blocklace.resolve_identity bl p = Some j → ancestor_rank bl j < ancestor_rank bl i)
    as Hlt.
  { intros j Hj. apply ancestor_rank_lt; [done|]. exists c, p. split_and!; try done.
    apply Hpreds. by left. }
  specialize (Hr i eq_refl). destruct (IH p ca) as [r ->]; [|lia|]; simpl.
  - intros j Hj%Hlt. lia.
  - destruct r.1; [|eauto]. apply IHp. intros q ?. apply Hpreds. by right.
Qed.

Lemma depth_call_total bl id cache :
  acyclic bl → is_Some (Round.depth_recursive bl (Round.depth_fuel bl) id cache).
Proof.
  intros Hac. apply depth_recursive_total; [done| |unfold Round.depth_fuel; lia].
  intros i _. pose proof (ancestor_rank_le bl i). unfold Round.depth_fuel. lia.
Qed.

Lemma depth_sound bl id d :
  Round.depth bl id = Some d → ∃ i, Blocklace.resolve_identity bl id = Some i ∧ is_depth bl i d.
Proof.
  unfold Round.depth. intros (r & E & Hr)%bind_Some.
  apply depth_recursive_spec in E as (Hc & _ & Ho); [|by intros ??; rewrite lookup_empty].
  rewrite Hr in Ho. destruct Ho as (i & Hi & Hd). exists i. split; [done|]. by apply Hc.
Qed.

(** [depth] is the depth of the block the reference resolves to. *)
Lemma depth_spec bl id d :
  acyclic bl →
  Round.depth bl id = Some d ↔ ∃ i, Blocklace.resolve_identity bl id = Some i ∧ is_depth bl i d.
Proof.
  intros Hac. split; [apply depth_sound|]. intros (i & Hi & Hd). unfold Round.depth.
  destruct (depth_call_total bl id ∅ Hac) as [r E]. rewrite E. simpl.
  apply depth_recursive_spec in E as (Hc & _ & Ho); [|by intros ??; rewrite lookup_empty].
  destruct r.1 as [d'|]; [|exfalso; by eapply Ho].
  destruct Ho as (j & Hj & Hd'%Hc). simplify_eq. f_equal. by eapply is_depth_det.
Qed.

(** In a closed blocklace every stored block has a depth. *)
Lemma depth_exists bl i :
  closed bl → acyclic bl → i ∈ Blocklace.dom bl → ∃ d, is_depth bl i d.
Proof using HO.
  intros Hcl Hac. remember (ancestor_rank bl i) as k eqn:Hk. revert i Hk.
  induction (lt_wf k) as [k _ IH]. intros i -> Hi. pose proof Hi as [c Hb]%elem_of_lace_dom.
  destruct (decide (Blocklace.checkpoint bl = Some i)) as [Hcp|Hcp];
    [eexists; by apply depth_at_checkpoint|].
  destruct (decide (predecessors c = ∅)) as [Hp|Hp]; [eexists; by eapply depth_initial|].
  set (target p := default p (Blocklace.resolve_identity bl p)).
  set (depth_of p := default 0%N (Round.depth bl p)).
  assert (∀ p, p ∈ predecessors c → Blocklace.resolve_identity bl p = Some (target p) ∧
    is_depth bl (target p) (depth_of p)) as Hpred.
  { intros p Hpp. destruct (Hcl i c p Hb Hcp Hpp) as [j Hj]. unfold target, depth_of.
    rewrite Hj. simpl. split; [done|]. destruct (IH (ancestor_rank bl j)) with j as [d Hd]; [|done|..].
    - apply ancestor_rank_lt; [done|]. by exists c, p.
    - by apply resolve_Some in Hj as [? _].
    - rewrite (proj2 (depth_spec bl p d Hac)); eauto. }
  destruct (iter_max (map depth_of (elements (predecessors c)))) as [m|] eqn:Em.
  2:{ apply iter_max_None, map_eq_nil, elements_empty_inv in Em. by fold_leibniz. }
  apply iter_max_Some in Em as [(q & Hq & Hqp)%list_elem_of_fmap Hle].
  exists (wrapping_add64 m 1). apply (depth_above bl i c target depth_of); try done.
  - intros p Hpp. by apply Hpred.
  - intros p Hpp. by apply Hpred.
  - intros p Hpp. apply Hle, list_elem_of_fmap. exists p. by rewrite elem_of_elements.
  - exists q. by rewrite <-elem_of_elements.
Qed.

Lemma compute_all_depths_spec bl i d :
  acyclic bl → Round.compute_all_depths bl !! i = Some d ↔ is_depth bl i d.
Proof.
  intros Hac. unfold Round.compute_all_depths.
  enough (∀ l cache, cache_sound bl cache → (∀ j, j ∈ l → j ∈ Blocklace.dom bl) →
    let r := foldl (λ cache id,
      match Round.depth_recursive bl (Round.depth_fuel bl) id cache with
      | Some r => r.2 | None => cache end) cache l in
    cache_sound bl r ∧ cache ⊆ r ∧ ∀ j e, j ∈ l → is_depth bl j e → r !! j = Some e) as Hgen.
  { destruct (Hgen (hash_iter (Blocklace.dom bl)) ∅) as (H1 & _ & H3).
    - by intros ??; rewrite lookup_empty.
    - intros j. by rewrite elem_of_hash_iter.
    - split; [apply H1|]. intros Hd. apply H3; [|done].
      apply elem_of_hash_iter. by eapply is_depth_dom. }
  intros l. induction l as [|j l IH]; intros cache Hc Hl; cbn [foldl].
  { split_and!; [done..|]. by intros ? ? ?%elem_of_nil. }
  destruct (depth_call_total bl j cache Hac) as [r E]. rewrite E.
  apply depth_recursive_spec in E as (Hc' & Hsub & Ho); [|done].
  destruct (IH r.2 Hc') as (H1 & H2 & H3); [intros; apply Hl; by right|].
  split; [done|]. split; [by trans r.2|].
  intros k e [->|Hk]%elem_of_cons He; [|by apply H3].
  rewrite resolve_stored in Ho by (apply Hl; by left).
  destruct r.1 as [d'|]; [|exfalso; by eapply Ho].
  destruct Ho as (k' & [= <-] & Hk). eapply lookup_weaken; [|exact H2].
  rewrite Hk. f_equal. eapply is_depth_det; [by apply Hc'|done].
Qed.
End depth.

(** ** Layers *)

Section layers.
Context `{HO : HashOrder}.
Implicit Types bl : Blocklace.t.

Lemma lookup_select_blocks bl keep i c :
  acyclic bl →
  Round.select_blocks bl keep !! i = Some c ↔
  Blocklace.blocks bl !! i = Some c ∧ ∃ d, is_depth bl i d ∧ keep d = true.
Proof.
  intros Hac. unfold Round.select_blocks.
  set (l := omap _ _). assert (∀ b, b ∈ l ↔ Blocklace.blocks bl !! identity b = Some (content b) ∧
    ∃ d, is_depth bl (identity b) d ∧ keep d = true) as Hl.
  { intros b. unfold l. rewrite list_elem_of_omap. split.
    - intros ([j d] & Hj%elem_of_map_iter & E). simpl in E.
      apply compute_all_depths_spec in Hj; [|done].
      destruct (keep d) eqn:Ek; [|done]. apply get_Some in E as [Hr Hb].
      rewrite resolve_stored in Hr by (by eapply is_depth_dom). simplify_eq. eauto.
    - intros (Hb & d & Hd & Hk). exists (identity b, d).
      rewrite elem_of_map_iter, compute_all_depths_spec by done. split; [done|].
      simpl. rewrite Hk. rewrite (get_stored _ _ _ Hb). by destruct b. }
  rewrite lookup_collect_blocks, Hl; [done|].
  intros [b1 c1] [b2 c2] [H1 _]%Hl [H2 _]%Hl E; simpl in *. congruence.
Qed.

Lemma lookup_blocks_at_depth bl d i c :
  acyclic bl →
  Round.blocks_at_depth bl d !! i = Some c ↔ Blocklace.blocks bl !! i = Some c ∧ is_depth bl i d.
Proof.
  intros Hac. unfold Round.blocks_at_depth. rewrite lookup_select_blocks by done.
  setoid_rewrite N.eqb_eq. naive_solver.
Qed.

Lemma max_depth_spec bl m :
  acyclic bl →
  Round.max_depth bl = Some m ↔ (∃ i, is_depth bl i m) ∧ ∀ i d, is_depth bl i d → (d <= m)%N.
Proof.
  intros Hac. unfold Round.max_depth. rewrite iter_max_Some.
  assert (∀ d, d ∈ (map_iter (Round.compute_all_depths bl)).*2 ↔ ∃ i, is_depth bl i d) as E.
  { intros d. rewrite list_elem_of_fmap. split.
    - intros ([i d'] & -> & Hi%elem_of_map_iter). exists i. by apply compute_all_depths_spec.
    - intros [i Hi]. exists (i, d). by rewrite elem_of_map_iter, compute_all_depths_spec. }
  setoid_rewrite E. naive_solver.
Qed.

(** Pointing from a block that is no boundary leads to a smaller depth, as
    long as the depth above does not wrap. *)
Lemma is_depth_points bl a b da :
  points bl a b → is_depth bl a da →
  ∃ db m, is_depth bl b db ∧ (db <= m)%N ∧ da = wrapping_add64 m 1 ∧ ∃ b', points bl a b' ∧ is_depth bl b' m.
Proof.
  intros (c & p & Ha & Hp & Hr & Hcp) Hd.
  inversion Hd as [|? c' ? Hc' He|? c' t f m ? Hc' ? Ht Hf Hle Hex]; subst; simplify_eq; [set_solver|].
  pose proof (Ht p Hp). simplify_eq. exists (f p), m. split_and!; auto.
  destruct Hex as (q & Hq & <-). exists (t q). split; [|auto]. exists c, q. auto.
Qed.

Lemma is_depth_rank bl i d :
  Blocklace.checkpoint bl = None → acyclic bl → is_depth bl i d →
  N.to_nat d ≤ ancestor_rank bl i.
Proof using HO.
  intros Hno Hac. induction 1 as [id Hcp|id c Hcp Hb Hp|id c t f m Hcp Hb Hp Ht _ IH Hle (p & Hpp & <-)];
    [congruence|lia|].
  assert (ancestor_rank bl (t p) < ancestor_rank bl id).
  { apply ancestor_rank_lt; [done|]. exists c, p. auto. }
  specialize (IH p Hpp). unfold wrapping_add64.
  etrans; [|apply (Nat.le_trans _ (S (N.to_nat (f p))))]; [|done|lia].
  pose proof (N.Div0.mod_le (f p + 1) (2 ^ 64)). lia.
Qed.

Definition initial bl (i : BlockIdentity) : Prop :=
  ∃ c, Blocklace.blocks bl !! i = Some c ∧ predecessors c = ∅.

(** Without a checkpoint the depth is the longest path to an initial block. *)
Lemma is_depth_longest bl i d :
  Blocklace.checkpoint bl = None → acyclic bl →
  (N.of_nat (size (Blocklace.blocks bl)) <= u64_max)%N → is_depth bl i d →
  (∃ j, nsteps (points bl) (N.to_nat d) i j ∧ initial bl j) ∧
  ∀ n j, nsteps (points bl) n i j → n ≤ N.to_nat d.
Proof using HO.
  intros Hno Hac Hsz Hd.
  induction Hd as [id Hcp|id c Hcp Hb Hp|id c t f m Hcp Hb Hp Ht Hfd IH Hle (p & Hpp & Hpm)];
    [congruence| |].
  - split.
    + exists id. split; [constructor|]. by exists c.
    + intros n j Hn. inversion Hn as [|? ? k ? (c' & p & Hb' & Hpp & _) _]; subst; [lia|].
      simplify_eq. set_solver.
  - pose proof (is_depth_rank bl _ _ Hno Hac (Hfd p Hpp)).
    pose proof (ancestor_rank_le bl (t p)).
    assert (points bl id (t p)) as Hpt by (exists c, p; auto).
    pose proof (ancestor_rank_lt bl id (t p) Hac Hpt). pose proof (ancestor_rank_le bl id).
    rewrite wrapping_add64_small by lia.
    replace (N.to_nat (m + 1)) with (S (N.to_nat m)) by lia. split.
    + destruct (IH p Hpp) as [(j & Hj & Hinit) _]. rewrite Hpm in Hj. exists j.
      split; [by apply nsteps_l with (t p)|done].
    + intros n j Hn. inversion Hn as [|n' ? k ? (c' & q & Hb' & Hqq & Hqr & _) Hk]; subst; [lia|].
      simplify_eq. rewrite (Ht q Hqq) in Hqr. simplify_eq.
      apply (IH q Hqq) in Hk. specialize (Hle q Hqq). lia.
Qed.
End layers.
