(* ===== verification/Quorum.v ===== *)
(** * Weight tables, certificates and supermajorities

    [consensus/weight_snapshot.rs], [consensus/certificate.rs], the fingerprint
    functions of [trace.rs], and the quorum predicates of
    [consensus/cordiality.rs]. *)

From Stdlib Require Import Ascii String.
From stdpp Require Import strings pretty.
From S2P Require Import Prelude Types.
From stdpp Require Import options.

(** ** Fingerprints *)

Module Trace.

Definition hex_digit (n : N) : ascii := ascii_of_N (if decide (n < 10)%N then 48 + n else 87 + n)%N.

(** [format!("{:02x}", b)] for each byte. *)
Definition hex (bytes : list byte) : string :=
  String.string_of_list_ascii
    (mjoin (map (λ b, [hex_digit (Byte.to_N b / 16); hex_digit (Byte.to_N b mod 16)]) bytes)).

Definition string_bytes (s : string) : list N := map N_of_ascii (String.list_ascii_of_string s).

Definition fnv_offset : N := 0xcbf29ce484222325.
Definition fnv_prime : N := 0x00000100000001b3.
(** [h ^= byte; h = h.wrapping_mul(prime)]. *)
Definition fnv_step (h byte : N) : N := ((N.lxor h byte * fnv_prime) mod 2 ^ 64)%N.

(** [format!("{h:016x}")]. *)
Definition hex16 (h : N) : string :=
  String.string_of_list_ascii
    (map (λ i, hex_digit (N.land (N.shiftr h (4 * N.of_nat i)) 15)) (reverse (seq 0 16))).

Definition weight_row (e : NodeId * N) : string :=
  (hex e.1 ++ ":" ++ pretty e.2 ++ String (ascii_of_N 10) "")%string.

Definition weight_table_hash_sorted (entries : list (NodeId * N)) : string :=
  hex16 (foldl (λ h e, foldl fnv_step h (string_bytes (weight_row e))) fnv_offset entries).

Definition weight_table_hash `{HashOrder} (bonds : gmap NodeId N) : string :=
  weight_table_hash_sorted (sort_by_key fst (map_iter bonds)).

Definition certificate_id (kind leader_hash : string) (ratifier_hash : option string) : string :=
  hex16 (foldl fnv_step fnv_offset
    (string_bytes kind ++ [0xff%N] ++ string_bytes leader_hash ++ [0xff%N] ++
     string_bytes (default "" ratifier_hash))).

End Trace.

(** ** [WeightSnapshot] *)

Module WeightSnapshot.

Record t := mk { id : string; bonds : gmap NodeId N }.

(** [WeightSnapshotId::of_bonds]. *)
Definition of_bonds `{HashOrder} (bonds : gmap NodeId N) : string := Trace.weight_table_hash bonds.

Definition from_sorted (bonds : gmap NodeId N) : t :=
  mk (Trace.weight_table_hash_sorted (btree_map_iter bonds)) bonds.

Definition from_bonds `{HashOrder} (bonds : gmap NodeId N) : t :=
  from_sorted (list_to_map (map_iter bonds)).

Definition weight_of (self : t) (node : NodeId) : N := default 0%N (bonds self !! node).
Definition contains (self : t) (node : NodeId) : bool := bool_decide (is_Some (bonds self !! node)).
Definition total (self : t) : option N := checked_sum u128_max (btree_map_iter (bonds self)).*2.
Definition to_hash_map (self : t) : gmap NodeId N := list_to_map (btree_map_iter (bonds self)).

End WeightSnapshot.

(** ** Quorum predicates of [cordiality.rs] *)

Module Quorum.

Definition checked_bond_weight (weights : list N) : option N := checked_sum u128_max weights.

Definition strict_two_thirds (support_weight total_weight : N) : bool :=
  match checked_mul u128_max support_weight 3 with
  | None => false
  | Some weighted_support =>
    match checked_mul u128_max total_weight 2 with
    | None => false
    | Some threshold => bool_decide (threshold < weighted_support)%N
    end
  end.

Definition is_weighted_supermajority_snapshot `{HashOrder} (creators : gset NodeId)
    (weights : WeightSnapshot.t) : bool :=
  match WeightSnapshot.total weights with
  | None => false
  | Some total_weight =>
    if decide (total_weight = 0%N) then false
    else
      match checked_bond_weight (map (WeightSnapshot.weight_of weights) (hash_iter creators)) with
      | None => false
      | Some support_weight => strict_two_thirds support_weight total_weight
      end
  end.

Definition is_weighted_supermajority `{HashOrder} (creators : gset NodeId)
    (bonds : gmap NodeId N) : bool :=
  is_weighted_supermajority_snapshot creators (WeightSnapshot.from_bonds bonds).

Definition is_supermajority (blocks : BlockSet) (n f : nat) : bool :=
  bool_decide ((n + f) / 2 < size (set_creators blocks)).

End Quorum.

(** ** [ThresholdCertificate] *)

Inductive CertificateKind := Ratification | SuperRatification.
#[export] Instance CertificateKind_eq_dec : EqDecision CertificateKind.
Proof. solve_decision. Defined.

Module ThresholdCertificate.

Definition as_str (self : CertificateKind) : string :=
  match self with
  | Ratification => "ratification"
  | SuperRatification => "super_ratification"
  end.

Record t := mk {
  kind : CertificateKind;
  leader : BlockIdentity;
  ratifier : option BlockIdentity;
  certificate_id : string;
  approver_blocks : list BlockIdentity;
  approvers : list NodeId;
  approver_weight : N;
  total_weight : N;
  weight_snapshot : string
}.

Definition new (kind : CertificateKind) (leader : BlockIdentity) (ratifier : option BlockIdentity)
    (approver_blocks : list BlockIdentity) (approvers : list NodeId)
    (weights : WeightSnapshot.t) : t :=
  let approver_blocks := sort approver_blocks in
  let approvers := sort approvers in
  let leader_hash := Trace.hex (content_hash leader) in
  let ratifier_hash := (λ id, Trace.hex (vec_to_list (content_hash id))) <$> ratifier in
  {| kind := kind; leader := leader; ratifier := ratifier;
     certificate_id := Trace.certificate_id (as_str kind) leader_hash ratifier_hash;
     approver_blocks := approver_blocks; approvers := approvers;
     approver_weight :=
       default 0%N (checked_sum u128_max (map (WeightSnapshot.weight_of weights) approvers));
     total_weight := default 0%N (WeightSnapshot.total weights);
     weight_snapshot := WeightSnapshot.id weights |}.

Definition approver_count (self : t) : nat := length (approvers self).

Definition satisfies_threshold (self : t) : bool :=
  match checked_mul u128_max (approver_weight self) 3,
        checked_mul u128_max (total_weight self) 2 with
  | Some support, Some threshold =>
    bool_decide (0 < total_weight self)%N && bool_decide (threshold < support)%N
  | _, _ => false
  end.

Definition verify_quorum_against (self : t) (weights : WeightSnapshot.t) : bool :=
  if decide (WeightSnapshot.id weights ≠ weight_snapshot self) then false
  else if decide (size (list_to_set (approvers self) : gset NodeId) ≠ length (approvers self))
  then false
  else
    match checked_sum u128_max (map (WeightSnapshot.weight_of weights) (approvers self)) with
    | None => false
    | Some support =>
      bool_decide (support = approver_weight self) &&
      bool_decide (WeightSnapshot.total weights = Some (total_weight self)) &&
      satisfies_threshold self
    end.

End ThresholdCertificate.
