(* ===== verification/QuorumFacts.v ===== *)
(** * Properties of weight tables and quorums

    The stake of a set of creators, the exact meaning of the weighted quorum
    predicate with its overflow cases, and certificates as evidence for it. *)

From Stdlib Require Import String.
From S2P Require Import Prelude Types Quorum.
From stdpp Require Import options.

(** The stake of a set of nodes under a weight table. *)
Definition stake (weights : WeightSnapshot.t) (X : gset NodeId) : N :=
  set_weight (WeightSnapshot.weight_of weights) X.

(** The stake of the whole table. *)
Definition all_stake (weights : WeightSnapshot.t) : N :=
  stake weights (dom (WeightSnapshot.bonds weights)).

Section maps.
Context `{Countable K} {V : Type}.
Implicit Types m : gmap K V.

Lemma map_iter_perm `{HO : HashOrder} m : map_iter m ≡ₚ map_to_list m.
Proof.
  apply NoDup_Permutation.
  - apply (NoDup_fmap_1 fst). unfold map_iter. pose proof (NoDup_hash_iter (dom m)) as Hnd.
    induction (hash_iter (dom m)) as [|k l IH]; simpl; [constructor|].
    apply NoDup_cons in Hnd as [Hk Hnd]. destruct (m !! k) as [v|]; simpl; [|by apply IH].
    constructor; [|by apply IH]. rewrite list_elem_of_fmap.
    intros ([k' v'] & -> & (k'' & Hk'' & E)%list_elem_of_omap). simpl in Hk.
    destruct (m !! k''); naive_solver.
  - apply NoDup_map_to_list.
  - intros [k v]. by rewrite elem_of_map_iter, elem_of_map_to_list.
Qed.

Lemma list_to_map_perm m (l : list (K * V)) : l ≡ₚ map_to_list m → list_to_map l = m.
Proof.
  intros E. etrans; [|apply list_to_map_to_list]. apply list_to_map_proper; [|done].
  rewrite E. apply NoDup_fst_map_to_list.
Qed.

Lemma btree_map_iter_perm `{Ord K} m : btree_map_iter m ≡ₚ map_to_list m.
Proof. apply sort_by_key_perm. Qed.

Lemma elem_of_btree_map_iter `{Ord K} m k v : (k, v) ∈ btree_map_iter m ↔ m !! k = Some v.
Proof. by rewrite btree_map_iter_perm, elem_of_map_to_list. Qed.

(** Sorting by distinct keys has one result. *)
Lemma sort_by_fst_unique `{Ord K} (l k : list (K * V)) :
  NoDup l.*1 → l ≡ₚ k → sort_by_key fst l = sort_by_key fst k.
Proof.
  intros Hnd E. eapply (StronglySorted_unique_strong (λ x y, ord_le x.1 y.1)).
  - intros [k1 v1] [k2 v2]. rewrite !sort_by_key_perm. simpl. intros H1 H2 Hle Hge.
    assert (k1 = k2) as -> by (by apply (anti_symm ord_le)).
    rewrite <-E in H2. f_equal.
    apply list_elem_of_lookup in H1 as [i Hi], H2 as [j Hj].
    assert (i = j) as -> by (eapply (NoDup_lookup l.*1); [done|rewrite list_lookup_fmap, Hi; done|
      rewrite list_lookup_fmap, Hj; done]). congruence.
  - apply sort_by_key_sorted.
  - apply sort_by_key_sorted.
  - by rewrite !sort_by_key_perm.
Qed.
End maps.

Section stake.
Context `{HO : HashOrder}.
Implicit Types (weights : WeightSnapshot.t) (X Y : gset NodeId).

Lemma from_bonds_bonds b : WeightSnapshot.bonds (WeightSnapshot.from_bonds b) = b.
Proof. apply list_to_map_perm, map_iter_perm. Qed.

Lemma of_bonds_from_bonds b :
  WeightSnapshot.of_bonds b = WeightSnapshot.id (WeightSnapshot.from_bonds b).
Proof.
  unfold WeightSnapshot.of_bonds, Trace.weight_table_hash, WeightSnapshot.from_bonds,
    WeightSnapshot.from_sorted. simpl.
  rewrite (list_to_map_perm b) by apply map_iter_perm. f_equal.
  apply sort_by_fst_unique; [|apply map_iter_perm].
  rewrite map_iter_perm. apply NoDup_fst_map_to_list.
Qed.

Lemma values_stake weights :
  sum_N (btree_map_iter (WeightSnapshot.bonds weights)).*2 = all_stake weights.
Proof.
  unfold all_stake, stake, set_weight. rewrite btree_map_iter_perm.
  transitivity (sum_N (map (WeightSnapshot.weight_of weights)
    (map_to_list (WeightSnapshot.bonds weights)).*1)).
  - f_equal. rewrite <-list_fmap_compose. apply list_fmap_ext.
    intros i [k v] Hi%list_elem_of_lookup_2%elem_of_map_to_list. simpl.
    unfold WeightSnapshot.weight_of. by rewrite Hi.
  - apply sum_N_perm, (fmap_Permutation _). apply NoDup_Permutation.
    + apply NoDup_fst_map_to_list.
    + apply NoDup_elements.
    + intros k. rewrite elem_of_elements, elem_of_dom, list_elem_of_fmap. split.
      * intros ([k' v] & -> & Hk%elem_of_map_to_list). eauto.
      * intros [v Hk]. exists (k, v). by rewrite elem_of_map_to_list.
Qed.

Lemma total_Some weights t :
  WeightSnapshot.total weights = Some t ↔ t = all_stake weights ∧ (all_stake weights <= u128_max)%N.
Proof. unfold WeightSnapshot.total. by rewrite checked_sum_Some, values_stake. Qed.

(** Unknown creators carry no stake. *)
Lemma stake_le_all weights X : (stake weights X <= all_stake weights)%N.
Proof.
  unfold all_stake, stake.
  rewrite (set_weight_split _ X (dom (WeightSnapshot.bonds weights))).
  assert (set_weight (WeightSnapshot.weight_of weights)
    (X ∖ dom (WeightSnapshot.bonds weights)) = 0%N) as ->.
  { unfold set_weight. set (Z := X ∖ _).
    assert (∀ x, x ∈ elements Z → WeightSnapshot.weight_of weights x = 0%N) as Hz.
    { intros x [_ Hx]%elem_of_elements%elem_of_difference.
      unfold WeightSnapshot.weight_of. by rewrite (not_elem_of_dom_1 _ _ Hx). }
    induction (elements Z) as [|x l IH]; simpl; [done|].
    rewrite Hz by (by left). rewrite IH; [done|]. intros. apply Hz. by right. }
  rewrite N.add_0_r. apply set_weight_mono. set_solver.
Qed.

Lemma support_sum weights X :
  sum_N (map (WeightSnapshot.weight_of weights) (hash_iter X)) = stake weights X.
Proof.
  unfold stake, set_weight. apply sum_N_perm, (fmap_Permutation _), hash_iter_perm.
Qed.

Lemma strict_two_thirds_spec s t :
  Quorum.strict_two_thirds s t = true ↔
  (2 * t < 3 * s)%N ∧ (3 * s <= u128_max)%N ∧ (2 * t <= u128_max)%N.
Proof.
  unfold Quorum.strict_two_thirds.
  destruct (checked_mul u128_max s 3) as [a|] eqn:Ea;
    [apply checked_mul_Some in Ea as [-> ?]|apply checked_mul_None in Ea; split; [done|lia]].
  destruct (checked_mul u128_max t 2) as [b|] eqn:Eb;
    [apply checked_mul_Some in Eb as [-> ?]|apply checked_mul_None in Eb; split; [done|lia]].
  rewrite bool_decide_eq_true. lia.
Qed.

(** The quorum predicate exactly: strictly more than two thirds of the
    stake, and no product overflows. *)
Lemma weighted_supermajority_spec weights X :
  Quorum.is_weighted_supermajority_snapshot X weights = true ↔
  (2 * all_stake weights < 3 * stake weights X)%N ∧
  (3 * stake weights X <= u128_max)%N ∧ (2 * all_stake weights <= u128_max)%N.
Proof.
  unfold Quorum.is_weighted_supermajority_snapshot, Quorum.checked_bond_weight.
  pose proof (stake_le_all weights X) as Hle.
  destruct (WeightSnapshot.total weights) as [t|] eqn:Et.
  - apply total_Some in Et as [-> Ht]. case_decide as Hz; [split; [done|lia]|].
    destruct (checked_sum _ _) as [s|] eqn:Es.
    + apply checked_sum_Some in Es as [-> Hs]. rewrite support_sum. apply strict_two_thirds_spec.
    + split; [done|]. intros (_ & H3 & _).
      assert (checked_sum u128_max (map (WeightSnapshot.weight_of weights) (hash_iter X)) =
        Some (stake weights X)) by (apply checked_sum_Some; rewrite support_sum; lia).
      congruence.
  - split; [done|]. intros (_ & _ & H2).
    assert (WeightSnapshot.total weights = Some (all_stake weights)) by (apply total_Some; lia).
    congruence.
Qed.

Lemma supermajority_intersection weights X Y :
  Quorum.is_weighted_supermajority_snapshot X weights = true →
  Quorum.is_weighted_supermajority_snapshot Y weights = true →
  (all_stake weights < 3 * stake weights (X ∩ Y))%N.
Proof.
  rewrite !weighted_supermajority_spec. intros [HX _] [HY _].
  pose proof (set_weight_inter (WeightSnapshot.weight_of weights) X Y) as E.
  pose proof (stake_le_all weights (X ∪ Y)). unfold stake in *. lia.
Qed.

Lemma supermajority_mono weights X Y :
  X ⊆ Y → (3 * all_stake weights <= u128_max)%N →
  Quorum.is_weighted_supermajority_snapshot X weights = true →
  Quorum.is_weighted_supermajority_snapshot Y weights = true.
Proof.
  intros Hs Hf. rewrite !weighted_supermajority_spec. pose proof (stake_le_all weights Y).
  pose proof (set_weight_mono (WeightSnapshot.weight_of weights) _ _ Hs). unfold stake in *. lia.
Qed.

(** Counting supermajorities of the same [n] miners meet in more than [f]. *)
Lemma count_intersection (X Y U : gset NodeId) n f :
  size U ≤ n → X ⊆ U → Y ⊆ U → (n + f) / 2 < size X → (n + f) / 2 < size Y →
  f < size (X ∩ Y).
Proof.
  intros Hn HX HY HXn HYn.
  assert (size (X ∪ Y) ≤ n) by (etrans; [apply subseteq_size|exact Hn]; set_solver).
  assert (size (X ∪ Y) + size (X ∩ Y) = size X + size Y) as E.
  { rewrite (size_union_alt X Y), (size_difference_alt Y X), (intersection_comm_L Y X).
    assert (size (X ∩ Y) ≤ size Y) by (apply subseteq_size; set_solver). lia. }
  pose proof (Nat.div_mod_eq (n + f) 2). pose proof (Nat.mod_upper_bound (n + f) 2). lia.
Qed.
End stake.

(** ** Certificates *)

Section certificates.
Context `{HO : HashOrder}.
Implicit Types (weights : WeightSnapshot.t) (cert : ThresholdCertificate.t).

Lemma list_support weights (l : list NodeId) :
  NoDup l → sum_N (map (WeightSnapshot.weight_of weights) l) = stake weights (list_to_set l).
Proof.
  intros Hnd. unfold stake, set_weight. apply sum_N_perm, (fmap_Permutation _).
  symmetry. by apply elements_list_to_set.
Qed.

Lemma satisfies_threshold_spec cert :
  ThresholdCertificate.satisfies_threshold cert =
  bool_decide (0 < ThresholdCertificate.total_weight cert)%N &&
  Quorum.strict_two_thirds (ThresholdCertificate.approver_weight cert)
    (ThresholdCertificate.total_weight cert).
Proof.
  unfold ThresholdCertificate.satisfies_threshold, Quorum.strict_two_thirds.
  destruct (checked_mul _ _ 3); [|by rewrite andb_false_r].
  destruct (checked_mul _ _ 2); [done|by rewrite andb_false_r].
Qed.

(** What a verifier learns from any certificate, honest or forged. *)
Lemma verify_quorum_sound cert weights :
  ThresholdCertificate.verify_quorum_against cert weights = true ↔
  WeightSnapshot.id weights = ThresholdCertificate.weight_snapshot cert ∧
  NoDup (ThresholdCertificate.approvers cert) ∧
  ThresholdCertificate.approver_weight cert =
    stake weights (list_to_set (ThresholdCertificate.approvers cert)) ∧
  ThresholdCertificate.total_weight cert = all_stake weights ∧
  Quorum.is_weighted_supermajority_snapshot
    (list_to_set (ThresholdCertificate.approvers cert)) weights = true.
Proof.
  unfold ThresholdCertificate.verify_quorum_against.
  rewrite weighted_supermajority_spec. case_decide as Hid; [naive_solver|].
  case_decide as Hsz.
  { rewrite size_list_to_set_NoDup in Hsz. naive_solver. }
  apply size_list_to_set_NoDup in Hsz as Hnd.
  pose proof (list_support weights _ Hnd) as Hsum.
  pose proof (stake_le_all weights (list_to_set (ThresholdCertificate.approvers cert))) as Hle.
  destruct (checked_sum _ _) as [s|] eqn:Es.
  - apply checked_sum_Some in Es as [-> Hs]. rewrite Hsum in *.
    rewrite satisfies_threshold_spec. guards. rewrite total_Some, strict_two_thirds_spec.
    split.
    + intros [[Hw [Ht _]] [_ ?]]. rewrite <-Hw, Ht in *. split_and!; tauto.
    + intros (_ & _ & Hw & Ht & ?). rewrite Hw, Ht. split_and!; try tauto; lia.
  - split; [done|]. intros (_ & _ & _ & _ & _ & H3 & _).
    assert (checked_sum u128_max (map (WeightSnapshot.weight_of weights)
      (ThresholdCertificate.approvers cert)) =
      Some (stake weights (list_to_set (ThresholdCertificate.approvers cert))))
      by (apply checked_sum_Some; rewrite Hsum; lia).
    congruence.
Qed.

(** A certificate assembled from distinct approvers verifies exactly when
    they are a weighted supermajority. *)
Lemma new_verifies kind leader ratifier blocks (approvers : list NodeId) weights :
  NoDup approvers →
  ThresholdCertificate.verify_quorum_against
    (ThresholdCertificate.new kind leader ratifier blocks approvers weights) weights =
  Quorum.is_weighted_supermajority_snapshot (list_to_set approvers) weights.
Proof.
  intros Hnd. apply eq_true_iff_eq. rewrite verify_quorum_sound. simpl.
  assert (list_to_set (sort approvers) =@{gset NodeId} list_to_set approvers) as ->
    by (apply list_to_set_perm_L, sort_perm).
  rewrite weighted_supermajority_spec.
  assert (NoDup (sort approvers)) by (by rewrite sort_perm).
  pose proof (stake_le_all weights (list_to_set approvers)) as Hle.
  split; [tauto|]. intros (H1 & H2 & H3). split_and!; try done.
  - assert (checked_sum u128_max (map (WeightSnapshot.weight_of weights) (sort approvers)) =
      Some (stake weights (list_to_set approvers))) as ->; [|done].
    apply checked_sum_Some.
    rewrite (sum_N_perm _ (map (WeightSnapshot.weight_of weights) approvers))
      by (apply (fmap_Permutation _), sort_perm).
    rewrite list_support by done. lia.
  - assert (WeightSnapshot.total weights = Some (all_stake weights)) as ->; [|done].
    apply total_Some. lia.
Qed.
End certificates.
