(* ===== verification/Cordiality.v ===== *)
(** * Approval, ratification and cordiality

    [consensus/approval.rs] and [consensus/cordiality.rs], as built without the
    [trace] feature: approval through the ancestor index, counted and weighted
    ratification with the memo tables shared between decisions, and the
    equivocation queries. *)

From S2P Require Import Prelude Types Lace AncestorIndex Rounds Quorum.
From stdpp Require Import options.

(** [filter] with a closure that updates a captured memo. *)
Fixpoint filter_memo {A M} (f : A → M → bool * M) (l : list A) (memo : M) : list A * M :=
  match l with
  | [] => ([], memo)
  | x :: l =>
    let r := f x memo in
    let rest := filter_memo f l r.2 in
    (if r.1 then x :: rest.1 else rest.1, rest.2)
  end.

(** The blocks of a [HashSet<Block>] in its iteration order. *)
Definition iter_blocks `{HashOrder} (S : BlockSet) : list Block := map entry_block (map_iter S).

Module Approval.

Record ApprovalMemo := mkMemo {
  observe_cache : gmap BlockIdentity (gset BlockIdentity);
  approves_cache : gmap (BlockIdentity * BlockIdentity) bool
}.
Definition default_memo : ApprovalMemo := mkMemo ∅ ∅.

Section approval.
Context `{HO : HashOrder}.

(** [blocklace.ancestor_index()] is a build of the current blocklace. *)
Definition approves_uncached (bl : Blocklace.t) (approver target : BlockIdentity) : bool :=
  match Blocklace.resolve_identity bl approver with
  | None => false
  | Some resolved_approver =>
    let index := AncestorIndex.build bl in
    match AncestorIndex.index_of index resolved_approver, AncestorIndex.index_of index target with
    | Some observer, Some observed => AncestorIndex.approves index observer observed
    | _, _ => false
    end
  end.

Definition approves_with_memo (bl : Blocklace.t) (approver target : BlockIdentity)
    (memo : ApprovalMemo) : bool * ApprovalMemo :=
  match approves_cache memo !! (approver, target) with
  | Some result => (result, memo)
  | None =>
    let result := approves_uncached bl approver target in
    (result, mkMemo (observe_cache memo) (<[(approver, target) := result]> (approves_cache memo)))
  end.

Definition approves (bl : Blocklace.t) (approver target : BlockIdentity) : bool :=
  (approves_with_memo bl approver target default_memo).1.

Definition approving_blocks (bl : Blocklace.t) (target : BlockIdentity) : BlockSet :=
  collect_blocks (filter (λ b, approves bl (identity b) target = true)
    (omap (Blocklace.get bl) (hash_iter (Blocklace.dom bl)))).

Definition weighted_approving_creators_with_memo (bl : Blocklace.t) (blocks : BlockSet)
    (target : BlockIdentity) (weights : WeightSnapshot.t) (memo : ApprovalMemo) :
    gset NodeId * ApprovalMemo :=
  let r := filter_memo (λ b, approves_with_memo bl (identity b) target) (iter_blocks blocks) memo in
  (list_to_set (omap (λ b,
     if decide (0 < WeightSnapshot.weight_of weights (creator (identity b)))%N
     then Some (creator (identity b)) else None) r.1), r.2).

Definition weighted_approving_creators (bl : Blocklace.t) (blocks : BlockSet)
    (target : BlockIdentity) (bonds : gmap NodeId N) : gset NodeId :=
  (weighted_approving_creators_with_memo bl blocks target (WeightSnapshot.from_bonds bonds)
     default_memo).1.

End approval.
End Approval.

Module Cordiality.

Record Equivocation := mkEquivocation {
  equivocator : NodeId;
  round : N;
  branches : list BlockIdentity
}.

Record HiddenEquivocation := mkHidden {
  hidden_creator : NodeId;
  hidden_round : N;
  hidden : list BlockIdentity
}.

Record WeightedRatificationMemo := mkMemo {
  approval_memo : Approval.ApprovalMemo;
  weighted_ratifies_cache : gmap (BlockIdentity * BlockIdentity) bool
}.
Definition default_memo : WeightedRatificationMemo := mkMemo Approval.default_memo ∅.

Section cordiality.
Context `{HO : HashOrder}.
Implicit Types (bl : Blocklace.t) (b : Block).

(** ** Equivocations *)

Definition creator_blocks_at_round bl (p : NodeId) (round : N) : BlockSet :=
  filter (λ e : BlockIdentity * BlockContent, creator e.1 = p) (Round.blocks_at_depth bl round).

Definition equivocation_blocks_at_round bl (p : NodeId) (round : N) : BlockSet :=
  let blocks := creator_blocks_at_round bl p round in
  if decide (2 ≤ size blocks) then blocks else ∅.

Definition all_equivocations bl : list Equivocation :=
  match iter_max (omap (Round.depth bl) (hash_iter (Blocklace.dom bl))) with
  | None => []
  | Some max_round =>
    let creators : gset NodeId := set_map creator (Blocklace.dom bl) in
    mjoin (map (λ p,
      omap (λ round,
        let blocks := map identity (iter_blocks (equivocation_blocks_at_round bl p round)) in
        if decide (2 ≤ length blocks) then Some (mkEquivocation p round blocks) else None)
        (range_incl 0 max_round)) (btree_iter creators))
  end.

Definition observed_block_ids bl b : gset BlockIdentity :=
  ⋃ (map (Blocklace.observe bl) (hash_iter (predecessors (content b)))).

Definition acknowledges_equivocation bl b (p : NodeId) (round : N) : bool :=
  let equivocation := equivocation_blocks_at_round bl p round in
  if decide (equivocation = ∅) then true
  else
    let observed := observed_block_ids bl b in
    forallb (λ e, bool_decide (identity e ∈ observed)) (iter_blocks equivocation).

Definition hidden_equivocations bl b : list HiddenEquivocation :=
  let observed := observed_block_ids bl b in
  omap (λ e,
    let hidden := filter (λ id, id ∉ observed) (branches e) in
    if decide (hidden = []) then None
    else Some (mkHidden (equivocator e) (round e) hidden)) (all_equivocations bl).

Definition missing_known_tips b (known_tips : gmap NodeId BlockIdentity) : list BlockIdentity :=
  sort (filter (λ tip_id,
      ¬ same_consensus_identity (identity b) tip_id ∧
      existsb (λ predecessor, bool_decide (same_consensus_identity predecessor tip_id))
        (hash_iter (predecessors (content b))) = false)
    (map_iter known_tips).*2).

Definition is_cordial_block bl b (known_tips : gmap NodeId BlockIdentity) : bool :=
  bool_decide (missing_known_tips b known_tips = []) &&
  bool_decide (hidden_equivocations bl b = []).

(** ** Ratification by the number of creators *)

Definition ratifies bl (ratifier target : Block) (n f : nat) : bool :=
  let observed_ids := Blocklace.observe bl (identity ratifier) in
  let approving := collect_blocks
    (filter (λ b, Approval.approves bl (identity b) (identity target) = true)
      (omap (Blocklace.get bl) (btree_iter observed_ids))) in
  Quorum.is_supermajority approving n f.

Definition super_ratifies bl (blocks : BlockSet) (target : Block) (n f : nat) : bool :=
  let ratifying_blocks :=
    collect_blocks (filter (λ b, ratifies bl b target n f = true) (iter_blocks blocks)) in
  Quorum.is_supermajority ratifying_blocks n f.

(** ** Ratification by bonded stake *)

(** [observe_cache.entry(id).or_insert_with(|| blocklace.observe(id))]. *)
Definition observe_with_memo bl (id : BlockIdentity) (memo : Approval.ApprovalMemo) :
    gset BlockIdentity * Approval.ApprovalMemo :=
  match Approval.observe_cache memo !! id with
  | Some observed => (observed, memo)
  | None =>
    let observed := Blocklace.observe bl id in
    (observed, Approval.mkMemo (<[id := observed]> (Approval.observe_cache memo))
                 (Approval.approves_cache memo))
  end.

Definition weighted_ratification_outcome bl (ratifier target : Block)
    (weights : WeightSnapshot.t) (memo : WeightedRatificationMemo) :
    option ThresholdCertificate.t * WeightedRatificationMemo :=
  if decide (Blocklace.get bl (identity ratifier) = None ∨ Blocklace.get bl (identity target) = None)
  then (None, memo)
  else
    let o := observe_with_memo bl (identity ratifier) (approval_memo memo) in
    let observed_blocks := collect_blocks (omap (Blocklace.get bl) (btree_iter o.1)) in
    let approving :=
      Approval.weighted_approving_creators_with_memo bl observed_blocks (identity target)
        weights o.2 in
    if Quorum.is_weighted_supermajority_snapshot approving.1 weights then
      let approver_blocks :=
        filter_memo (λ b m,
          let r := Approval.approves_with_memo bl (identity b) (identity target) m in
          (r.1 && bool_decide (0 < WeightSnapshot.weight_of weights (creator (identity b)))%N, r.2))
          (iter_blocks observed_blocks) approving.2 in
      (Some (ThresholdCertificate.new Ratification (identity target) (Some (identity ratifier))
               (map identity approver_blocks.1) (hash_iter approving.1) weights),
       mkMemo approver_blocks.2 (weighted_ratifies_cache memo))
    else (None, mkMemo approving.2 (weighted_ratifies_cache memo)).

Definition weighted_ratifies_with_memo bl (ratifier target : Block) (weights : WeightSnapshot.t)
    (memo : WeightedRatificationMemo) : bool * WeightedRatificationMemo :=
  let cache_key := (identity ratifier, identity target) in
  match weighted_ratifies_cache memo !! cache_key with
  | Some result => (result, memo)
  | None =>
    let r := weighted_ratification_outcome bl ratifier target weights memo in
    let result := bool_decide (is_Some r.1) in
    (result, mkMemo (approval_memo r.2) (<[cache_key := result]> (weighted_ratifies_cache r.2)))
  end.

Definition weighted_ratifies bl (ratifier target : Block) (bonds : gmap NodeId N) : bool :=
  (weighted_ratifies_with_memo bl ratifier target (WeightSnapshot.from_bonds bonds) default_memo).1.

Definition weighted_ratifies_certificate bl (ratifier target : Block) (bonds : gmap NodeId N) :
    option ThresholdCertificate.t :=
  (weighted_ratification_outcome bl ratifier target (WeightSnapshot.from_bonds bonds)
     default_memo).1.

Definition weighted_super_ratification_outcome bl (blocks : BlockSet) (target : Block)
    (weights : WeightSnapshot.t) (memo : WeightedRatificationMemo) :
    option ThresholdCertificate.t * WeightedRatificationMemo :=
  let ordered_blocks := sort_by_key identity (iter_blocks blocks) in
  let r := filter_memo (λ b, weighted_ratifies_with_memo bl b target weights) ordered_blocks memo in
  let ratifying_blocks :=
    filter (λ b, 0 < WeightSnapshot.weight_of weights (creator (identity b)))%N r.1 in
  let ratifying_creators : gset NodeId :=
    list_to_set (map (λ b, creator (identity b)) ratifying_blocks) in
  if Quorum.is_weighted_supermajority_snapshot ratifying_creators weights then
    (Some (ThresholdCertificate.new SuperRatification (identity target) None
             (map identity ratifying_blocks) (hash_iter ratifying_creators) weights), r.2)
  else (None, r.2).

Definition weighted_super_ratifies_certificate_with_snapshot bl (blocks : BlockSet)
    (target : Block) (weights : WeightSnapshot.t) : option ThresholdCertificate.t :=
  (weighted_super_ratification_outcome bl blocks target weights default_memo).1.

Definition weighted_super_ratifies_with_memo bl (blocks : BlockSet) (target : Block)
    (weights : WeightSnapshot.t) (memo : WeightedRatificationMemo) :
    bool * WeightedRatificationMemo :=
  let r := weighted_super_ratification_outcome bl blocks target weights memo in
  (bool_decide (is_Some r.1), r.2).

Definition weighted_super_ratifies_with_snapshot bl (blocks : BlockSet) (target : Block)
    (weights : WeightSnapshot.t) : bool :=
  (weighted_super_ratifies_with_memo bl blocks target weights default_memo).1.

Definition weighted_super_ratifies bl (blocks : BlockSet) (target : Block)
    (bonds : gmap NodeId N) : bool :=
  weighted_super_ratifies_with_snapshot bl blocks target (WeightSnapshot.from_bonds bonds).

Definition weighted_super_ratifies_certificate bl (blocks : BlockSet) (target : Block)
    (bonds : gmap NodeId N) : option ThresholdCertificate.t :=
  weighted_super_ratifies_certificate_with_snapshot bl blocks target
    (WeightSnapshot.from_bonds bonds).

End cordiality.
End Cordiality.
