(* ===== verification/CordialityFacts.v ===== *)
(** * Properties of approval and ratification

    Approval is Definition 18; the memo tables never change an answer; a
    certificate carries a verifiable quorum; and blocks that equivocate against
    each other are ratified together only when the equivocators hold more than
    a third of the stake. *)

From S2P Require Import Prelude Types Lace LaceFacts AncestorIndex IndexFacts Rounds RoundFacts.
From S2P Require Import Quorum QuorumFacts Cordiality.
From stdpp Require Import options.

(** ** Approval *)

(** Definition 18 on stored blocks: [a] observes [t] and no rival of [t]. *)
Definition approved (bl : Blocklace.t) (a t : BlockIdentity) : Prop :=
  rtc (points bl) a t ∧ ∀ r, rtc (points bl) a r → ¬ rival bl t r.

Section approval.
Context `{HO : HashOrder}.
Implicit Types bl : Blocklace.t.

Lemma rtc_points_dom bl a b : a ∈ Blocklace.dom bl → rtc (points bl) a b → b ∈ Blocklace.dom bl.
Proof. intros Ha [<-|[_ ?]%tc_points_dom]%rtc_tc; done. Qed.

Lemma approves_uncached_spec bl a t :
  acyclic bl →
  Approval.approves_uncached bl a t = true ↔
  ∃ a', Blocklace.resolve_identity bl a = Some a' ∧ approved bl a' t.
Proof.
  intros Hac. unfold Approval.approves_uncached.
  destruct (Blocklace.resolve_identity bl a) as [a'|] eqn:Ea; [|naive_solver].
  pose proof Ea as [Ha' _]%resolve_Some.
  destruct (index_of_stored bl a' Ha') as (i & -> & Hi).
  destruct (AncestorIndex.index_of (AncestorIndex.build bl) t) as [j|] eqn:Ej.
  - apply index_of_spec in Ej. rewrite (index_approves bl Hac i j a' t Hi Ej).
    unfold approved. naive_solver.
  - split; [done|]. intros (a'' & [= <-] & Hr & _). exfalso.
    destruct (index_of_stored bl t) as (j & Hj & _); [by eapply rtc_points_dom|]. congruence.
Qed.

Lemma approves_uncached_eq bl a t : Approval.approves bl a t = Approval.approves_uncached bl a t.
Proof.
  unfold Approval.approves, Approval.approves_with_memo. simpl. by rewrite lookup_empty.
Qed.

Lemma approves_stored bl a t :
  acyclic bl → a ∈ Blocklace.dom bl → Approval.approves_uncached bl a t = true ↔ approved bl a t.
Proof.
  intros Hac Ha. rewrite approves_uncached_spec, resolve_stored by done. naive_solver.
Qed.

Lemma rival_sym bl a b : rival bl a b → rival bl b a.
Proof. unfold rival. naive_solver. Qed.

Lemma approved_exclusive bl a t1 t2 : approved bl a t1 → approved bl a t2 → ¬ rival bl t1 t2.
Proof. intros [_ H1] [H2 _]. by apply H1. Qed.

(** Blocks of one creator that approve rivals are themselves incomparable. *)
Lemma approved_rivals bl a b t1 t2 :
  approved bl a t1 → approved bl b t2 → rival bl t1 t2 → a ≠ b ∧ ¬ comparable bl a b.
Proof.
  intros [Ha Ha'] [Hb Hb'] Hr. split.
  - intros ->. by apply (Ha' t2).
  - intros [Hab|Hba].
    + apply (Ha' t2); [|done]. trans b; [by apply tc_rtc|done].
    + apply (Hb' t1); [|by apply rival_sym]. trans a; [by apply tc_rtc|done].
Qed.

(** *** The approval memo *)

Record memo_sound bl (memo : Approval.ApprovalMemo) : Prop := {
  sound_observe : ∀ id X, Approval.observe_cache memo !! id = Some X → X = Blocklace.observe bl id;
  sound_approves : ∀ a t r, Approval.approves_cache memo !! (a, t) = Some r →
    r = Approval.approves_uncached bl a t
}.

Lemma default_memo_sound bl : memo_sound bl Approval.default_memo.
Proof. split; simpl; intros *; by rewrite lookup_empty. Qed.

Lemma approves_with_memo_spec bl a t memo :
  memo_sound bl memo →
  (Approval.approves_with_memo bl a t memo).1 = Approval.approves_uncached bl a t ∧
  memo_sound bl (Approval.approves_with_memo bl a t memo).2.
Proof.
  intros [Ho Ha]. unfold Approval.approves_with_memo.
  destruct (Approval.approves_cache memo !! (a, t)) as [r|] eqn:E; simpl; [by split; [apply Ha|]|].
  split; [done|]. split; simpl; [done|]. intros a' t' r. rewrite lookup_insert_Some.
  intros [[[= -> ->] <-]|[_ ?]]; auto.
Qed.

Lemma observe_with_memo_spec bl id memo :
  memo_sound bl memo →
  (Cordiality.observe_with_memo bl id memo).1 = Blocklace.observe bl id ∧
  memo_sound bl (Cordiality.observe_with_memo bl id memo).2.
Proof.
  intros [Ho Ha]. unfold Cordiality.observe_with_memo.
  destruct (Approval.observe_cache memo !! id) as [X|] eqn:E; simpl; [by split; [apply Ho|]|].
  split; [done|]. split; simpl; [|done]. intros id' X. rewrite lookup_insert_Some.
  intros [[-> <-]|[_ ?]]; auto.
Qed.

(** A filter whose closure keeps [I] and answers [p] is the pure filter. *)
Lemma filter_memo_spec {A M} (I : M → Prop) (f : A → M → bool * M) (p : A → bool) l memo :
  (∀ x m, I m → (f x m).1 = p x ∧ I (f x m).2) → I memo →
  (filter_memo f l memo).1 = filter (λ x, p x = true) l ∧ I (filter_memo f l memo).2.
Proof.
  intros Hf. revert memo. induction l as [|x l IH]; intros memo HI; simpl; [done|].
  destruct (Hf x memo HI) as [E HI']. destruct (IH _ HI') as [-> HI'']. split; [|done].
  rewrite E, filter_cons. destruct (p x) eqn:Ep; [by rewrite decide_True|by rewrite decide_False].
Qed.

(** *** Support *)

Lemma elem_of_iter_blocks (S : BlockSet) b :
  b ∈ iter_blocks S ↔ S !! identity b = Some (content b).
Proof.
  unfold iter_blocks. rewrite list_elem_of_fmap. split.
  - intros ([i c] & -> & H). by apply elem_of_map_iter in H.
  - intros H. exists (identity b, content b). split; [by destruct b|]. by apply elem_of_map_iter.
Qed.

Definition approving_support bl (blocks : BlockSet) (target : BlockIdentity)
    (weights : WeightSnapshot.t) : gset NodeId :=
  list_to_set (omap (λ b,
   if decide (0 < WeightSnapshot.weight_of weights (creator (identity b)))%N
   then Some (creator (identity b)) else None)
   (filter (λ b, Approval.approves_uncached bl (identity b) target = true) (iter_blocks blocks))).

Lemma weighted_approving_spec bl blocks target weights memo :
  memo_sound bl memo →
  let r := Approval.weighted_approving_creators_with_memo bl blocks target weights memo in
  r.1 = approving_support bl blocks target weights ∧ memo_sound bl r.2.
Proof.
  intros Hm. unfold Approval.weighted_approving_creators_with_memo. simpl.
  destruct (filter_memo_spec (memo_sound bl)
    (λ b, Approval.approves_with_memo bl (identity b) target)
    (λ b, Approval.approves_uncached bl (identity b) target) (iter_blocks blocks) memo)
    as [-> Hm']; [|done..].
  intros b m Hm'. by apply approves_with_memo_spec.
Qed.

Lemma elem_of_approving_support bl blocks target weights p :
  p ∈ approving_support bl blocks target weights ↔
  (0 < WeightSnapshot.weight_of weights p)%N ∧
  ∃ i c, blocks !! i = Some c ∧ creator i = p ∧ Approval.approves_uncached bl i target = true.
Proof.
  unfold approving_support. rewrite elem_of_list_to_set, list_elem_of_omap.
  setoid_rewrite list_elem_of_filter. setoid_rewrite elem_of_iter_blocks. split.
  - intros (b & [Ha Hb] & E). case_decide; [|done]. injection E as <-. eauto 10.
  - intros (Hw & i & c & Hi & <- & Ha). exists (mkBlock i c). split; [done|]. simpl.
    by rewrite decide_True.
Qed.

(** The stored blocks of a set of identities. *)
Lemma lookup_stored_blocks bl (X : gset BlockIdentity) i c :
  X ⊆ Blocklace.dom bl →
  collect_blocks (omap (Blocklace.get bl) (btree_iter X)) !! i = Some c ↔
  i ∈ X ∧ Blocklace.blocks bl !! i = Some c.
Proof.
  intros HX. rewrite lookup_collect_blocks.
  - rewrite list_elem_of_omap. setoid_rewrite elem_of_btree_iter. split.
    + intros (x & Hx & [Hres Hc]%get_Some). simpl in *.
      rewrite resolve_stored in Hres by auto. naive_solver.
    + intros [Hi Hc]. exists i. split; [done|]. by apply get_stored.
  - intros b b' (x & _ & [_ Hb]%get_Some)%list_elem_of_omap
      (x' & _ & [_ Hb']%get_Some)%list_elem_of_omap E.
    rewrite E, Hb' in Hb. destruct b, b'; simpl in *; congruence.
Qed.
End approval.

(** ** Weighted ratification *)

Section ratification.
Context `{HO : HashOrder}.
Implicit Types (bl : Blocklace.t) (weights : WeightSnapshot.t).

Definition observed_blocks bl (id : BlockIdentity) : BlockSet :=
  collect_blocks (omap (Blocklace.get bl) (btree_iter (Blocklace.observe bl id))).

Lemma lookup_observed_blocks bl id i c :
  observed_blocks bl id !! i = Some c ↔
  i ∈ Blocklace.observe bl id ∧ Blocklace.blocks bl !! i = Some c.
Proof. apply lookup_stored_blocks. intros x. apply observe_dom. Qed.

(** The decision and its evidence without any memo. *)
Definition ratification bl (ratifier target : Block) weights : option ThresholdCertificate.t :=
  if decide (Blocklace.get bl (identity ratifier) = None ∨ Blocklace.get bl (identity target) = None)
  then None
  else
    let blocks := observed_blocks bl (identity ratifier) in
    let creators := approving_support bl blocks (identity target) weights in
    if Quorum.is_weighted_supermajority_snapshot creators weights then
      Some (ThresholdCertificate.new Ratification (identity target) (Some (identity ratifier))
        (map identity (filter (λ b, Approval.approves_uncached bl (identity b) (identity target) &&
           bool_decide (0 < WeightSnapshot.weight_of weights (creator (identity b)))%N = true)
           (iter_blocks blocks)))
        (hash_iter creators) weights)
    else None.

Record ratification_memo_sound bl weights (memo : Cordiality.WeightedRatificationMemo) : Prop := {
  sound_approval : memo_sound bl (Cordiality.approval_memo memo);
  sound_ratifies : ∀ r t v rb tb,
    Cordiality.weighted_ratifies_cache memo !! (r, t) = Some v →
    identity rb = r → identity tb = t → v = bool_decide (is_Some (ratification bl rb tb weights))
}.

Lemma default_ratification_sound bl weights :
  ratification_memo_sound bl weights Cordiality.default_memo.
Proof. split; [apply default_memo_sound|]. simpl. intros *. by rewrite lookup_empty. Qed.

Lemma ratification_outcome_spec bl ratifier target weights memo :
  ratification_memo_sound bl weights memo →
  let r := Cordiality.weighted_ratification_outcome bl ratifier target weights memo in
  r.1 = ratification bl ratifier target weights ∧ ratification_memo_sound bl weights r.2.
Proof.
  intros [Ha Hr]. unfold Cordiality.weighted_ratification_outcome, ratification.
  case_decide as Hst; [done|].
  destruct (observe_with_memo_spec bl (identity ratifier) (Cordiality.approval_memo memo) Ha)
    as [-> Ho]. fold (observed_blocks bl (identity ratifier)).
  pose proof (weighted_approving_spec bl (observed_blocks bl (identity ratifier)) (identity target)
    weights _ Ho) as [-> Hw].
  destruct (Quorum.is_weighted_supermajority_snapshot _ _); [|by split; [|split]].
  set (f := λ (b : Block) (m : Approval.ApprovalMemo), (_ && _, _)).
  pose proof (λ memo, filter_memo_spec (memo_sound bl) f
    (λ b, Approval.approves_uncached bl (identity b) (identity target) &&
      bool_decide (0 < WeightSnapshot.weight_of weights (creator (identity b)))%N)
    (iter_blocks (observed_blocks bl (identity ratifier))) memo) as Hf.
  edestruct Hf as [E Hm]; [|exact Hw|].
  - intros b m Hm. unfold f. cbn [fst snd].
    destruct (approves_with_memo_spec bl (identity b) (identity target) m Hm) as [-> Hm']. done.
  - cbn [fst snd]. rewrite E. by split; [|split].
Qed.

Lemma ratifies_with_memo_spec bl ratifier target weights memo :
  ratification_memo_sound bl weights memo →
  let r := Cordiality.weighted_ratifies_with_memo bl ratifier target weights memo in
  r.1 = bool_decide (is_Some (ratification bl ratifier target weights)) ∧
  ratification_memo_sound bl weights r.2.
Proof.
  intros Hm. pose proof Hm as [Ha Hr]. unfold Cordiality.weighted_ratifies_with_memo.
  destruct (Cordiality.weighted_ratifies_cache memo !! _) as [v|] eqn:E; simpl.
  { split; [by eapply Hr|done]. }
  pose proof (ratification_outcome_spec bl ratifier target weights memo Hm) as [E' [Ha' Hr']].
  rewrite E'. split; [done|]. split; [done|]. simpl. intros r t v rb tb.
  rewrite lookup_insert_Some. intros [[[= <- <-] <-]|[_ ?]] Hrb Htb; [|by eapply Hr'].
  unfold ratification. by rewrite Hrb, Htb.
Qed.

(** *** Super-ratification *)

Definition ratifying_blocks bl (blocks : BlockSet) (target : Block) weights : list Block :=
  filter (λ b, 0 < WeightSnapshot.weight_of weights (creator (identity b)))%N
    (filter (λ b, bool_decide (is_Some (ratification bl b target weights)) = true)
      (sort_by_key identity (iter_blocks blocks))).

Definition super_ratification bl (blocks : BlockSet) (target : Block) weights :
    option ThresholdCertificate.t :=
  let ratifying := ratifying_blocks bl blocks target weights in
  let creators : gset NodeId := list_to_set (map (λ b, creator (identity b)) ratifying) in
  if Quorum.is_weighted_supermajority_snapshot creators weights then
    Some (ThresholdCertificate.new SuperRatification (identity target) None
      (map identity ratifying) (hash_iter creators) weights)
  else None.

Lemma super_ratification_outcome_spec bl blocks target weights memo :
  ratification_memo_sound bl weights memo →
  let r := Cordiality.weighted_super_ratification_outcome bl blocks target weights memo in
  r.1 = super_ratification bl blocks target weights ∧ ratification_memo_sound bl weights r.2.
Proof.
  intros Hm. unfold Cordiality.weighted_super_ratification_outcome, super_ratification,
    ratifying_blocks.
  destruct (filter_memo_spec (ratification_memo_sound bl weights)
    (λ b, Cordiality.weighted_ratifies_with_memo bl b target weights)
    (λ b, bool_decide (is_Some (ratification bl b target weights)))
    (sort_by_key identity (iter_blocks blocks)) memo) as [-> Hm']; [|done|].
  - intros b m Hb. by apply ratifies_with_memo_spec.
  - by destruct (Quorum.is_weighted_supermajority_snapshot _ _).
Qed.

(** *** What the evidence says *)

Lemma ratification_Some bl ratifier target weights cert :
  ratification bl ratifier target weights = Some cert →
  identity ratifier ∈ Blocklace.dom bl ∨ is_Some (Blocklace.get bl (identity ratifier)).
Proof.
  unfold ratification. case_decide as Hd; [done|]. intros _. right.
  destruct (Blocklace.get bl (identity ratifier)); [eauto|]. exfalso. apply Hd. by left.
Qed.

Lemma ratification_support bl ratifier target weights :
  is_Some (ratification bl ratifier target weights) →
  Quorum.is_weighted_supermajority_snapshot
    (approving_support bl (observed_blocks bl (identity ratifier)) (identity target) weights)
    weights = true.
Proof.
  unfold ratification. case_decide; [by intros [? [=]]|].
  destruct (Quorum.is_weighted_supermajority_snapshot _ _); [done|by intros [? [=]]].
Qed.

Lemma ratification_cert bl ratifier target weights cert :
  ratification bl ratifier target weights = Some cert →
  ThresholdCertificate.verify_quorum_against cert weights = true ∧
  ThresholdCertificate.leader cert = identity target ∧
  ThresholdCertificate.ratifier cert = Some (identity ratifier) ∧
  (∀ i, i ∈ ThresholdCertificate.approver_blocks cert →
    i ∈ Blocklace.observe bl (identity ratifier) ∧
    Approval.approves bl i (identity target) = true) ∧
  (∀ p, p ∈ ThresholdCertificate.approvers cert ↔
    ∃ i, i ∈ ThresholdCertificate.approver_blocks cert ∧ creator i = p).
Proof.
  unfold ratification. case_decide; [done|].
  destruct (Quorum.is_weighted_supermajority_snapshot _ _) eqn:Eq; [|done]. intros [= <-].
  split.
  { rewrite new_verifies by apply NoDup_hash_iter. rewrite <-Eq. f_equal.
    apply set_eq. intros p. by rewrite elem_of_list_to_set, elem_of_hash_iter. }
  cbn [ThresholdCertificate.leader ThresholdCertificate.ratifier ThresholdCertificate.new
    ThresholdCertificate.approver_blocks ThresholdCertificate.approvers].
  split; [done|]. split; [done|].
  assert (∀ i, i ∈ sort (map identity (filter (λ b,
      Approval.approves_uncached bl (identity b) (identity target) &&
      bool_decide (0 < WeightSnapshot.weight_of weights (creator (identity b)))%N = true)
      (iter_blocks (observed_blocks bl (identity ratifier))))) ↔
    (i ∈ Blocklace.observe bl (identity ratifier) ∧ i ∈ Blocklace.dom bl) ∧
    Approval.approves_uncached bl i (identity target) = true ∧
    (0 < WeightSnapshot.weight_of weights (creator i))%N) as Hi.
  { intros i. rewrite sort_perm, list_elem_of_fmap. setoid_rewrite list_elem_of_filter.
    setoid_rewrite elem_of_iter_blocks. setoid_rewrite lookup_observed_blocks.
    setoid_rewrite andb_true_iff. setoid_rewrite bool_decide_eq_true. rewrite elem_of_lace_dom.
    split.
    - intros (b & -> & [? ?] & ? & ?). eauto.
    - intros ((? & c & ?) & ? & ?). by exists (mkBlock i c). }
  split.
  - intros i [[? _] [? _]]%Hi. by rewrite approves_uncached_eq.
  - intros p. rewrite sort_perm, elem_of_hash_iter, elem_of_approving_support.
    setoid_rewrite Hi. setoid_rewrite lookup_observed_blocks. setoid_rewrite elem_of_lace_dom.
    split.
    + intros (Hw & i & c & [Ho Hc] & <- & Ha). exists i. eauto 10.
    + intros (i & ((Ho & c & Hc) & Ha & Hw) & <-). eauto 10.
Qed.

Lemma weighted_ratifies_ratification bl r t bonds :
  Cordiality.weighted_ratifies bl r t bonds =
  bool_decide (is_Some (ratification bl r t (WeightSnapshot.from_bonds bonds))).
Proof. apply ratifies_with_memo_spec, default_ratification_sound. Qed.

End ratification.

(** ** Accountable safety *)

Section safety.
Context `{HO : HashOrder}.
Implicit Types (bl : Blocklace.t) (weights : WeightSnapshot.t).

(** A creator with blocks that approve rivals is an equivocator. *)
Lemma approves_rivals_equivocator bl i j t1 t2 :
  acyclic bl → i ∈ Blocklace.dom bl → j ∈ Blocklace.dom bl → creator i = creator j →
  Approval.approves_uncached bl i t1 = true → Approval.approves_uncached bl j t2 = true →
  rival bl t1 t2 → creator i ∈ Blocklace.find_equivacators bl.
Proof.
  intros Hac Hi Hj Hc Ha%approves_stored Hb%approves_stored Hr; [|done..].
  destruct (approved_rivals _ _ _ _ _ Ha Hb Hr) as [Hne Hinc].
  apply elem_of_find_equivacators. by exists i, j.
Qed.

Lemma ratified_rivals bl r1 r2 t1 t2 weights :
  acyclic bl → rival bl (identity t1) (identity t2) →
  is_Some (ratification bl r1 t1 weights) → is_Some (ratification bl r2 t2 weights) →
  (all_stake weights < 3 * stake weights (Blocklace.find_equivacators bl))%N.
Proof.
  intros Hac Hr H1%ratification_support H2%ratification_support.
  pose proof (supermajority_intersection _ _ _ H1 H2) as Hint.
  eapply N.lt_le_trans; [exact Hint|]. apply N.mul_le_mono_l, set_weight_mono.
  intros p [(_ & i & c & [Hi Hc]%lookup_observed_blocks & Hip & Ha)%elem_of_approving_support
    (_ & j & c' & [Hj Hc']%lookup_observed_blocks & Hjp & Hb)%elem_of_approving_support]%elem_of_intersection.
  rewrite <-Hip. eapply (approves_rivals_equivocator bl i j);
    [done|apply elem_of_lace_dom; eauto..|congruence|done|done|done].
Qed.

Lemma super_ratification_witness bl blocks target weights :
  is_Some (super_ratification bl blocks target weights) →
  ∃ b, b ∈ iter_blocks blocks ∧ is_Some (ratification bl b target weights).
Proof.
  unfold super_ratification.
  destruct (Quorum.is_weighted_supermajority_snapshot _ _) eqn:Eq; [|by intros [? [=]]]. intros _.
  apply weighted_supermajority_spec in Eq as [Hlt _].
  destruct (ratifying_blocks bl blocks target weights) as [|b l] eqn:Er.
  { simpl in Hlt. unfold stake in Hlt. rewrite set_weight_empty in Hlt. lia. }
  exists b. assert (b ∈ ratifying_blocks bl blocks target weights) as Hb by (rewrite Er; by left).
  unfold ratifying_blocks in Hb. apply list_elem_of_filter in Hb as [_ Hb].
  apply list_elem_of_filter in Hb as [Hb Hin]. rewrite bool_decide_eq_true in Hb.
  by rewrite sort_by_key_perm in Hin.
Qed.

Lemma super_ratification_cert bl blocks target weights cert :
  super_ratification bl blocks target weights = Some cert →
  ThresholdCertificate.verify_quorum_against cert weights = true ∧
  ThresholdCertificate.leader cert = identity target ∧
  ∀ p, p ∈ ThresholdCertificate.approvers cert ↔
    (0 < WeightSnapshot.weight_of weights p)%N ∧
    ∃ b, b ∈ iter_blocks blocks ∧ creator (identity b) = p ∧
      is_Some (ratification bl b target weights).
Proof.
  unfold super_ratification.
  destruct (Quorum.is_weighted_supermajority_snapshot _ _) eqn:Eq; [|done]. intros [= <-].
  split.
  { rewrite new_verifies by apply NoDup_hash_iter. rewrite <-Eq. f_equal.
    apply set_eq. intros p. by rewrite elem_of_list_to_set, elem_of_hash_iter. }
  cbn [ThresholdCertificate.leader ThresholdCertificate.new ThresholdCertificate.approvers].
  split; [done|]. intros p. rewrite sort_perm, elem_of_hash_iter, elem_of_list_to_set.
  rewrite list_elem_of_fmap. unfold ratifying_blocks. setoid_rewrite list_elem_of_filter.
  setoid_rewrite list_elem_of_filter. setoid_rewrite sort_by_key_perm.
  setoid_rewrite bool_decide_eq_true. split.
  - intros (b & -> & Hw & Hr & Hb). eauto.
  - intros (Hw & b & Hb & <- & Hr). eauto.
Qed.

(** *** Counting creators *)

Lemma ratifies_support bl r t n f :
  acyclic bl → Cordiality.ratifies bl r t n f = true →
  ∃ X : gset NodeId, (n + f) / 2 < size X ∧ X ⊆ Blocklace.all_nodes bl ∧
    ∀ p, p ∈ X ↔ ∃ i, i ∈ Blocklace.observe bl (identity r) ∧ creator i = p ∧
      i ∈ Blocklace.dom bl ∧ Approval.approves_uncached bl i (identity t) = true.
Proof.
  intros Hac. unfold Cordiality.ratifies, Quorum.is_supermajority. rewrite bool_decide_eq_true.
  set (l := filter _ _). intros Hlt. exists (set_creators (collect_blocks l)).
  assert (∀ b, b ∈ l ↔ identity b ∈ Blocklace.observe bl (identity r) ∧
    Blocklace.blocks bl !! identity b = Some (content b) ∧
    Approval.approves_uncached bl (identity b) (identity t) = true) as Hl.
  { intros b. unfold l. rewrite list_elem_of_filter, list_elem_of_omap, approves_uncached_eq.
    setoid_rewrite elem_of_btree_iter. split.
    - intros (Ha & x & Hx & [Hres Hc]%get_Some).
      rewrite resolve_stored in Hres by (by eapply observe_dom). naive_solver.
    - intros (Ho & Hb & Ha). split; [done|]. exists (identity b). split; [done|].
      rewrite (get_stored _ _ _ Hb). by destruct b. }
  assert (∀ p, p ∈ set_creators (collect_blocks l) ↔ ∃ i, i ∈ Blocklace.observe bl (identity r) ∧
    creator i = p ∧ i ∈ Blocklace.dom bl ∧ Approval.approves_uncached bl i (identity t) = true) as Hp.
  { intros p. rewrite elem_of_set_creators. setoid_rewrite lookup_collect_blocks.
    - setoid_rewrite Hl. setoid_rewrite elem_of_lace_dom. simpl. split.
      + intros (i & c & (Ho & Hb & Ha) & <-). eauto 10.
      + intros (i & Ho & <- & [c Hc] & Ha). eauto 10.
    - intros [i1 c1] [i2 c2] (_ & H1 & _)%Hl (_ & H2 & _)%Hl E; simpl in *. congruence. }
  split; [done|]. split; [|done]. intros p (i & _ & <- & Hi & _)%Hp.
  unfold Blocklace.all_nodes. by apply elem_of_map_2.
Qed.

Lemma ratified_rivals_count bl r1 r2 t1 t2 n f :
  acyclic bl → size (Blocklace.all_nodes bl) ≤ n → rival bl (identity t1) (identity t2) →
  Cordiality.ratifies bl r1 t1 n f = true → Cordiality.ratifies bl r2 t2 n f = true →
  f < size (Blocklace.find_equivacators bl).
Proof.
  intros Hac Hn Hr (X & HXs & HXn & HX)%ratifies_support (Y & HYs & HYn & HY)%ratifies_support;
    [|done..].
  eapply Nat.lt_le_trans; [by apply (count_intersection X Y (Blocklace.all_nodes bl) n f)|].
  apply subseteq_size. intros p [(i & _ & Hip & Hi & Ha)%HX (j & _ & Hjp & Hj & Hb)%HY]%elem_of_intersection.
  rewrite <-Hip. eapply (approves_rivals_equivocator bl i j); try done. congruence.
Qed.
End safety.
