(* ===== verification/Finality.v ===== *)
(** * Finality

    [consensus/finality.rs]: the leader block of a wave, the final leader of a
    wave by creator count and by stake, and the newest final leader. *)

From S2P Require Import Prelude Types Lace Rounds Quorum Cordiality.
From stdpp Require Import options.

Module Finality.

Abbreviation RoundIndex := (gmap N (list Block)).

Section finality.
Context `{HO : HashOrder}.
Implicit Types (bl : Blocklace.t) (leader_selection : N → option NodeId).

Definition leader_block_for_wave bl (wave wavelength : N) leader_selection :
    option BlockIdentity :=
  match map identity (iter_blocks (Wave.leader_blocks_of_wave bl wave wavelength leader_selection)) with
  | [leader] => Some leader
  | _ => None
  end.

(** [(candidate_round..=last_round).flat_map(|round| blocks_at_depth(..)).collect()]. *)
Definition witness_blocks bl (candidate_round last_round : N) : BlockSet :=
  collect_blocks (mjoin (map (λ round, iter_blocks (Round.blocks_at_depth bl round))
    (range_incl candidate_round last_round))).

(** The structural checks shared by both final leader tests: the candidate,
    its round and the last round of its wave. *)
Definition leader_candidate bl (candidate : BlockIdentity) (wavelength : N) leader_selection :
    option (Block * N * N) :=
  candidate_block ← Blocklace.get bl candidate;
  candidate_round ← Round.depth bl candidate;
  wave ← Wave.wave_of_round candidate_round wavelength;
  let leader_blocks := Wave.leader_blocks_of_wave bl wave wavelength leader_selection in
  if existsb (λ b, bool_decide (identity b = candidate)) (iter_blocks leader_blocks) then
    last_round ← Wave.last_round_of_wave wave wavelength;
    Some (candidate_block, candidate_round, last_round)
  else None.

Definition is_final_leader bl (candidate : BlockIdentity) (wavelength : N) (n f : nat)
    leader_selection : bool :=
  match leader_candidate bl candidate wavelength leader_selection with
  | None => false
  | Some (candidate_block, candidate_round, last_round) =>
    Cordiality.super_ratifies bl (witness_blocks bl candidate_round last_round)
      candidate_block n f
  end.

Definition final_leader_for_wave bl (wave wavelength : N) (n f : nat) leader_selection :
    option BlockIdentity :=
  leader ← leader_block_for_wave bl wave wavelength leader_selection;
  if is_final_leader bl leader wavelength n f leader_selection then Some leader else None.

Definition weighted_final_leader_certificate bl (candidate : BlockIdentity) (wavelength : N)
    (bonds : gmap NodeId N) leader_selection : option ThresholdCertificate.t :=
  match leader_candidate bl candidate wavelength leader_selection with
  | None => None
  | Some (candidate_block, candidate_round, last_round) =>
    Cordiality.weighted_super_ratifies_certificate_with_snapshot bl
      (witness_blocks bl candidate_round last_round) candidate_block
      (WeightSnapshot.from_bonds bonds)
  end.

Definition is_weighted_final_leader bl (candidate : BlockIdentity) (wavelength : N)
    (bonds : gmap NodeId N) leader_selection : bool :=
  bool_decide (is_Some
    (weighted_final_leader_certificate bl candidate wavelength bonds leader_selection)).

Definition weighted_final_leader_for_wave bl (wave wavelength : N) (bonds : gmap NodeId N)
    leader_selection : option BlockIdentity :=
  leader ← leader_block_for_wave bl wave wavelength leader_selection;
  if is_weighted_final_leader bl leader wavelength bonds leader_selection then Some leader
  else None.

(** ** The newest final leader, from one pass over the depths *)

Definition build_round_index bl (depths : gmap BlockIdentity N) : RoundIndex :=
  foldl (λ rounds (e : BlockIdentity * N),
    match Blocklace.get bl e.1 with
    | Some b => <[e.2 := default [] (rounds !! e.2) ++ [b]]> rounds
    | None => rounds
    end) ∅ (map_iter depths).

Definition unique_leader_block_from_index (rounds : RoundIndex) (wave wavelength : N)
    leader_selection : option Block :=
  leader ← leader_selection wave;
  leader_round ← checked_mul u64_max wave wavelength;
  blocks ← rounds !! leader_round;
  match filter (λ b, creator (identity b) = leader) blocks with
  | [first] => Some first
  | _ => None
  end.

Definition witness_blocks_from_index (rounds : RoundIndex) (start_round end_round : N) : BlockSet :=
  collect_blocks (mjoin (map (λ round, default [] (rounds !! round))
    (range_incl start_round end_round))).

(** One iteration of the backward scan: [Some r] returns [r], [None] goes on
    to the wave before. *)
Definition scan_wave bl (depths : gmap BlockIdentity N) (rounds : RoundIndex) (wavelength : N)
    (n f : nat) leader_selection (wave : N) : option BlockIdentity :=
  leader ← unique_leader_block_from_index rounds wave wavelength leader_selection;
  if decide (Blocklace.checkpoint bl = Some (identity leader)) then Some (identity leader)
  else
    candidate_round ← depths !! identity leader;
    last_round ← Wave.last_round_of_wave wave wavelength;
    if Cordiality.super_ratifies bl
         (witness_blocks_from_index rounds candidate_round last_round) leader n f
    then Some (identity leader) else None.

Fixpoint first_some {A B} (f : A → option B) (l : list A) : option B :=
  match l with
  | [] => None
  | x :: l => match f x with Some y => Some y | None => first_some f l end
  end.

Definition latest_final_leader bl (wavelength : N) (n f : nat) leader_selection :
    option BlockIdentity :=
  if decide (wavelength = 0%N ∨ Blocklace.dom bl = ∅) then None
  else
    let depths := Round.compute_all_depths bl in
    max_round ← iter_max (map_iter depths).*2;
    let rounds := build_round_index bl depths in
    latest_wave ← Wave.wave_of_round max_round wavelength;
    first_some (scan_wave bl depths rounds wavelength n f leader_selection)
      (reverse (range_incl 0 latest_wave)).

(** The weighted scan hands one memo from wave to wave. *)
Fixpoint weighted_scan bl (depths : gmap BlockIdentity N) (rounds : RoundIndex) (wavelength : N)
    (weights : WeightSnapshot.t) leader_selection (memo : Cordiality.WeightedRatificationMemo)
    (waves : list N) : option BlockIdentity :=
  match waves with
  | [] => None
  | wave :: waves =>
    let continue memo :=
      weighted_scan bl depths rounds wavelength weights leader_selection memo waves in
    match unique_leader_block_from_index rounds wave wavelength leader_selection with
    | None => continue memo
    | Some leader =>
      if decide (Blocklace.checkpoint bl = Some (identity leader)) then Some (identity leader)
      else
        match depths !! identity leader, Wave.last_round_of_wave wave wavelength with
        | Some candidate_round, Some last_round =>
          let r := Cordiality.weighted_super_ratification_outcome bl
            (witness_blocks_from_index rounds candidate_round last_round) leader weights memo in
          match r.1 with
          | Some _ => Some (identity leader)
          | None => continue r.2
          end
        | _, _ => continue memo
        end
    end
  end.

Definition latest_weighted_final_leader bl (wavelength : N) (bonds : gmap NodeId N)
    leader_selection : option BlockIdentity :=
  if decide (wavelength = 0%N ∨ Blocklace.dom bl = ∅) then None
  else
    let depths := Round.compute_all_depths bl in
    max_round ← iter_max (map_iter depths).*2;
    let rounds := build_round_index bl depths in
    latest_wave ← Wave.wave_of_round max_round wavelength;
    weighted_scan bl depths rounds wavelength (WeightSnapshot.from_bonds bonds) leader_selection
      Cordiality.default_memo (reverse (range_incl 0 latest_wave)).

End finality.
End Finality.
