(* ===== verification/FinalityFacts.v ===== *)
(** * Properties of finality

    The index-based backward scans agree with the per-wave definitions and
    return the newest final leader; a shared memo changes nothing. *)

From S2P Require Import Prelude Types Lace LaceFacts Rounds RoundFacts Quorum QuorumFacts.
From S2P Require Import Cordiality CordialityFacts IndexFacts Finality.
From stdpp Require Import options.

Section scan.
Lemma first_some_ext {A B} (f g : A → option B) l :
  (∀ x, x ∈ l → f x = g x) → Finality.first_some f l = Finality.first_some g l.
Proof.
  induction l as [|x l IH]; intros H; simpl; [done|]. rewrite (H x) by (by left).
  destruct (g x); [done|]. apply IH. intros. apply H. by right.
Qed.

Lemma first_some_None {A B} (f : A → option B) l :
  Finality.first_some f l = None ↔ ∀ x, x ∈ l → f x = None.
Proof.
  induction l as [|x l IH]; simpl; [by split; [intros _ ? ?%elem_of_nil|]|].
  destruct (f x) eqn:E; [|rewrite IH; set_solver].
  split; [done|]. intros H. rewrite (H x) in E; [done|by left].
Qed.

(** Scanning down from [n] finds the greatest index with an answer. *)
Lemma first_some_down {B} (f : N → option B) n y :
  Finality.first_some f (reverse (range_incl 0 n)) = Some y ↔
  ∃ w, (w <= n)%N ∧ f w = Some y ∧ ∀ w', (w < w' <= n)%N → f w' = None.
Proof.
  induction n as [|n IH] using N.peano_ind.
  - change (reverse (range_incl 0 0)) with [0%N]. simpl. destruct (f 0%N) as [z|] eqn:E.
    + split; [intros [= ->]; exists 0%N; split_and!; [done..|lia]|].
      intros (w & Hw & Hf & _). assert (w = 0%N) as -> by lia. congruence.
    + split; [done|]. intros (w & Hw & Hf & _). assert (w = 0%N) as -> by lia. congruence.
  - rewrite range_incl_succ, reverse_snoc. simpl. destruct (f (N.succ n)) as [z|] eqn:E.
    + split; [intros [= ->]; exists (N.succ n); split_and!; [done..|lia]|].
      intros (w & Hw & Hf & Hno). destruct (decide (w = N.succ n)) as [->|]; [congruence|].
      rewrite Hno in E by lia. done.
    + rewrite IH. split.
      * intros (w & Hw & Hf & Hno). exists w. split_and!; [lia|done|]. intros w' Hw'.
        destruct (decide (w' = N.succ n)) as [->|]; [done|]. apply Hno. lia.
      * intros (w & Hw & Hf & Hno). exists w. assert (w ≠ N.succ n) by congruence.
        split_and!; [lia|done|]. intros w' Hw'. apply Hno. lia.
Qed.
End scan.

(** ** The round index *)

Section index.
Context `{HO : HashOrder}.
Implicit Types bl : Blocklace.t.

Lemma build_round_index_aux bl (l : list (BlockIdentity * N)) r :
  default [] (foldl (λ rounds (e : BlockIdentity * N),
    match Blocklace.get bl e.1 with
    | Some b => <[e.2 := default [] (rounds !! e.2) ++ [b]]> rounds
    | None => rounds
    end) (∅ : gmap N (list Block)) l !! r) =
  omap (λ e : BlockIdentity * N, if decide (e.2 = r) then Blocklace.get bl e.1 else None) l.
Proof.
  induction l as [|e l IH] using rev_ind; [done|].
  rewrite foldl_app, omap_app. simpl. rewrite <-IH. clear IH.
  set (m := foldl _ ∅ l). destruct (Blocklace.get bl e.1) as [b|].
  - case_decide as He; simpl.
    + subst. by rewrite lookup_insert_eq.
    + rewrite lookup_insert_ne by done. by rewrite app_nil_r.
  - case_decide; simpl; by rewrite app_nil_r.
Qed.

Definition rounds_of bl := Finality.build_round_index bl (Round.compute_all_depths bl).

Lemma elem_of_rounds bl r b :
  acyclic bl → b ∈ default [] (rounds_of bl !! r) ↔
  Blocklace.blocks bl !! identity b = Some (content b) ∧ is_depth bl (identity b) r.
Proof.
  intros Hac. unfold rounds_of, Finality.build_round_index.
  rewrite build_round_index_aux, list_elem_of_omap. split.
  - intros ([i d] & Hi%elem_of_map_iter & E). simpl in E. case_decide; [|done]. subst.
    apply compute_all_depths_spec in Hi; [|done]. apply get_Some in E as [Hr Hb].
    rewrite resolve_stored in Hr by (by eapply is_depth_dom). by simplify_eq.
  - intros [Hb Hd]. exists (identity b, r).
    rewrite elem_of_map_iter, compute_all_depths_spec by done. split; [done|]. simpl.
    rewrite decide_True by done. rewrite (get_stored _ _ _ Hb). by destruct b.
Qed.

Lemma NoDup_rounds bl r : acyclic bl → NoDup (default [] (rounds_of bl !! r)).
Proof.
  intros Hac. unfold rounds_of, Finality.build_round_index. rewrite build_round_index_aux.
  pose proof (NoDup_map_iter (Round.compute_all_depths bl)) as Hnd.
  assert (∀ e, e ∈ map_iter (Round.compute_all_depths bl) → e.1 ∈ Blocklace.dom bl) as Hdom.
  { intros [i d] Hi%elem_of_map_iter. apply compute_all_depths_spec in Hi; [|done].
    by eapply is_depth_dom. }
  induction (map_iter _) as [|[i d] l IH]; simpl in *; [constructor|].
  apply NoDup_cons in Hnd as [Hi Hnd].
  assert (NoDup (omap (λ e : BlockIdentity * N,
    if decide (e.2 = r) then Blocklace.get bl e.1 else None) l)) as IH'
    by (apply IH; [done|intros; apply Hdom; by right]).
  case_decide; [|done]. destruct (Blocklace.get bl i) as [b|] eqn:Eb; [|done].
  constructor; [|done]. intros ([j d'] & Hj & Ej)%list_elem_of_omap. simpl in Ej.
  case_decide; [|done]. apply Hi. apply list_elem_of_fmap. exists (j, d'). split; [|done].
  apply get_Some in Eb as [Hb _], Ej as [Hb' _].
  rewrite resolve_stored in Hb by (apply (Hdom (i, d)); by left).
  rewrite resolve_stored in Hb' by (apply (Hdom (j, d')); by right). simpl. congruence.
Qed.

Lemma NoDup_iter_blocks (S : BlockSet) : NoDup (iter_blocks S).
Proof.
  unfold iter_blocks. pose proof (NoDup_map_iter S) as Hnd%NoDup_fmap_1.
  apply NoDup_fmap_2_strong; [|done]. intros [] [] _ _ [=]. by subst.
Qed.

Lemma lookup_leader_blocks bl wave wl ls i c :
  acyclic bl →
  Wave.leader_blocks_of_wave bl wave wl ls !! i = Some c ↔
  ∃ p r, ls wave = Some p ∧ Wave.leader_round_of_wave wave wl = Some r ∧ creator i = p ∧
    Blocklace.blocks bl !! i = Some c ∧ is_depth bl i r.
Proof.
  intros Hac. unfold Wave.leader_blocks_of_wave.
  destruct (ls wave) as [p|]; [|rewrite lookup_empty; naive_solver].
  destruct (Wave.leader_round_of_wave wave wl) as [r|]; [|rewrite lookup_empty; naive_solver].
  rewrite map_lookup_filter_Some, lookup_blocks_at_depth by done. naive_solver.
Qed.

(** The index finds the unique leader block of a wave. *)
Lemma unique_leader_spec bl wave wl ls :
  acyclic bl → wl ≠ 0%N →
  Finality.unique_leader_block_from_index (rounds_of bl) wave wl ls =
  match iter_blocks (Wave.leader_blocks_of_wave bl wave wl ls) with
  | [b] => Some b
  | _ => None
  end.
Proof.
  intros Hac Hwl. unfold Finality.unique_leader_block_from_index.
  destruct (ls wave) as [p|] eqn:Ep; simpl.
  2:{ unfold Wave.leader_blocks_of_wave. rewrite Ep. unfold iter_blocks.
      by rewrite map_iter_empty. }
  assert (Wave.leader_round_of_wave wave wl = checked_mul u64_max wave wl) as Er
    by (unfold Wave.leader_round_of_wave, Wave.first_round_of_wave; by rewrite decide_False).
  destruct (checked_mul u64_max wave wl) as [r|]; simpl.
  2:{ unfold Wave.leader_blocks_of_wave. rewrite Ep, Er. unfold iter_blocks.
      by rewrite map_iter_empty. }
  assert (iter_blocks (Wave.leader_blocks_of_wave bl wave wl ls) ≡ₚ
    filter (λ b, creator (identity b) = p) (default [] (rounds_of bl !! r))) as Hperm.
  { apply NoDup_Permutation; [apply NoDup_iter_blocks|by apply NoDup_filter, NoDup_rounds|].
    intros b. rewrite elem_of_iter_blocks, lookup_leader_blocks, list_elem_of_filter,
      elem_of_rounds by done. naive_solver. }
  destruct (rounds_of bl !! r) as [l|]; simpl in *.
  - destruct (filter _ l) as [|b [|b' l']].
    + by apply Permutation_nil_r in Hperm as ->.
    + by apply Permutation_singleton_r in Hperm as ->.
    + apply Permutation_length in Hperm.
      destruct (iter_blocks _) as [|x [|]]; [done|done|done].
  - by apply Permutation_nil_r in Hperm as ->.
Qed.

Lemma lookup_collect_stored bl (l : list Block) i c :
  (∀ b, b ∈ l → Blocklace.blocks bl !! identity b = Some (content b)) →
  collect_blocks l !! i = Some c ↔ mkBlock i c ∈ l.
Proof.
  intros Hl. apply lookup_collect_blocks. intros [i1 c1] [i2 c2] H1%Hl H2%Hl E; simpl in *.
  congruence.
Qed.

Lemma witness_from_index bl a z :
  acyclic bl →
  Finality.witness_blocks_from_index (rounds_of bl) a z = Finality.witness_blocks bl a z.
Proof.
  intros Hac. unfold Finality.witness_blocks_from_index, Finality.witness_blocks.
  apply map_eq. intros i. apply option_eq. intros c.
  rewrite !(lookup_collect_stored bl).
  - rewrite !list_elem_of_join.
    setoid_rewrite list_elem_of_fmap. split.
    + intros (l & Hi & r & -> & Hr). eexists. split; [|by exists r].
      apply elem_of_iter_blocks, lookup_blocks_at_depth; [done|].
      by apply elem_of_rounds in Hi.
    + intros (l & Hi & r & -> & Hr). eexists. split; [|by exists r].
      apply elem_of_rounds; [done|]. apply elem_of_iter_blocks in Hi.
      by apply lookup_blocks_at_depth in Hi.
  - intros b (l & Hb & (r & -> & _)%list_elem_of_fmap)%list_elem_of_join.
    apply elem_of_iter_blocks, lookup_blocks_at_depth in Hb; tauto.
  - intros b (l & Hb & (r & -> & _)%list_elem_of_fmap)%list_elem_of_join.
    apply elem_of_rounds in Hb; tauto.
Qed.
End index.

(** ** The scans *)

Section scans.
Context `{HO : HashOrder}.
Implicit Types (bl : Blocklace.t) (ls : N → option NodeId) (weights : WeightSnapshot.t).

(** A leader block of a wave passes the structural checks of that wave. *)
Lemma leader_candidate_of_wave bl wave wl ls b :
  acyclic bl → wl ≠ 0%N → b ∈ iter_blocks (Wave.leader_blocks_of_wave bl wave wl ls) →
  ∃ r, Round.compute_all_depths bl !! identity b = Some r ∧
    Finality.leader_candidate bl (identity b) wl ls =
    last_round ← Wave.last_round_of_wave wave wl; Some (b, r, last_round).
Proof.
  intros Hac Hwl Hb. pose proof Hb as Hin.
  apply elem_of_iter_blocks, lookup_leader_blocks in Hin as (p & r & Hp & Hr & Hc & Hst & Hd); [|done].
  exists r. split; [by apply compute_all_depths_spec|]. unfold Finality.leader_candidate.
  rewrite (get_stored _ _ _ Hst). cbn [mbind option_bind].
  rewrite (proj2 (depth_spec bl (identity b) r Hac)).
  2:{ exists (identity b). split; [|done]. apply resolve_stored. by eapply is_depth_dom. }
  cbn [mbind option_bind]. unfold Wave.wave_of_round. rewrite decide_False by done.
  cbn [mbind option_bind].
  assert (r / wl = wave)%N as ->.
  { unfold Wave.leader_round_of_wave, Wave.first_round_of_wave in Hr.
    rewrite decide_False in Hr by done. apply checked_mul_Some in Hr as [-> _].
    by apply N.div_mul. }
  assert (existsb (λ b0, bool_decide (identity b0 = identity b))
    (iter_blocks (Wave.leader_blocks_of_wave bl wave wl ls)) = true) as ->.
  { apply existsb_true. exists b. split; [done|]. by apply bool_decide_eq_true. }
  by destruct b.
Qed.

Lemma leader_block_singleton bl wave wl ls :
  Finality.leader_block_for_wave bl wave wl ls =
  match iter_blocks (Wave.leader_blocks_of_wave bl wave wl ls) with
  | [b] => Some (identity b)
  | _ => None
  end.
Proof.
  unfold Finality.leader_block_for_wave. by destruct (iter_blocks _) as [|b [|b' l]].
Qed.

(** What a wave contributes to the scan: a checkpointed leader, or a final one. *)
Definition wave_leader bl (final : BlockIdentity → bool) wl ls (wave : N) : option BlockIdentity :=
  leader ← Finality.leader_block_for_wave bl wave wl ls;
  if decide (Blocklace.checkpoint bl = Some leader) then Some leader
  else if final leader then Some leader else None.

Lemma scan_wave_spec bl wl n f ls wave :
  acyclic bl → wl ≠ 0%N →
  Finality.scan_wave bl (Round.compute_all_depths bl) (rounds_of bl) wl n f ls wave =
  wave_leader bl (λ leader, Finality.is_final_leader bl leader wl n f ls) wl ls wave.
Proof.
  intros Hac Hwl. unfold Finality.scan_wave, wave_leader.
  rewrite unique_leader_spec, leader_block_singleton by done.
  destruct (iter_blocks (Wave.leader_blocks_of_wave bl wave wl ls)) as [|b [|]] eqn:Eb; try done.
  cbn [mbind option_bind]. case_decide; [done|].
  destruct (leader_candidate_of_wave bl wave wl ls b Hac Hwl) as (r & Hr & Hc);
    [rewrite Eb; by left|].
  unfold Finality.is_final_leader. rewrite Hr, Hc. cbn [mbind option_bind].
  destruct (Wave.last_round_of_wave wave wl); cbn [mbind option_bind]; [|done].
  by rewrite witness_from_index.
Qed.

Lemma weighted_certificate_spec bl blocks target weights :
  Cordiality.weighted_super_ratifies_certificate_with_snapshot bl blocks target weights =
  super_ratification bl blocks target weights.
Proof.
  apply super_ratification_outcome_spec, default_ratification_sound.
Qed.

(** The weighted scan, whatever sound memo it starts from. *)
Lemma weighted_scan_spec bl wl bonds ls memo waves :
  acyclic bl → wl ≠ 0%N →
  ratification_memo_sound bl (WeightSnapshot.from_bonds bonds) memo →
  Finality.weighted_scan bl (Round.compute_all_depths bl) (rounds_of bl) wl
    (WeightSnapshot.from_bonds bonds) ls memo waves =
  Finality.first_some
    (wave_leader bl (λ leader, Finality.is_weighted_final_leader bl leader wl bonds ls) wl ls) waves.
Proof.
  intros Hac Hwl. revert memo. induction waves as [|wave waves IH]; intros memo Hm; [done|].
  cbn [Finality.weighted_scan Finality.first_some]. unfold wave_leader at 1.
  rewrite unique_leader_spec, leader_block_singleton by done.
  destruct (iter_blocks (Wave.leader_blocks_of_wave bl wave wl ls)) as [|b [|]] eqn:Eb;
    cbn [mbind option_bind]; [by apply IH| |by apply IH].
  case_decide; [done|].
  destruct (leader_candidate_of_wave bl wave wl ls b Hac Hwl) as (r & Hr & Hc);
    [rewrite Eb; by left|].
  unfold Finality.is_weighted_final_leader, Finality.weighted_final_leader_certificate.
  rewrite Hr, Hc. destruct (Wave.last_round_of_wave wave wl) as [z|]; cbn [mbind option_bind].
  2:{ rewrite bool_decide_eq_false_2 by (by intros [? [=]]). by apply IH. }
  rewrite weighted_certificate_spec, witness_from_index by done.
  destruct (super_ratification_outcome_spec bl (Finality.witness_blocks bl r z) b
    (WeightSnapshot.from_bonds bonds) memo Hm) as [-> Hm'].
  destruct (super_ratification _ _ _ _) as [cert|].
  - by rewrite bool_decide_eq_true_2 by eauto.
  - rewrite bool_decide_eq_false_2 by (by intros [? [=]]). by apply IH.
Qed.

(** The last wave any known block lies in. *)
Definition latest_wave bl wl : option N := m ← Round.max_depth bl; Wave.wave_of_round m wl.

Lemma latest_wave_empty bl wl :
  acyclic bl → wl = 0%N ∨ Blocklace.dom bl = ∅ → latest_wave bl wl = None.
Proof.
  intros Hac Hor. unfold latest_wave. destruct (Round.max_depth bl) as [m|] eqn:Em; [|done].
  simpl. unfold Wave.wave_of_round. destruct Hor as [->|He]; [by rewrite decide_True|].
  apply max_depth_spec in Em as [[i Hi%is_depth_dom] _]; [|done]. set_solver.
Qed.

Lemma latest_final_leader_scan bl wl n f ls :
  acyclic bl →
  Finality.latest_final_leader bl wl n f ls =
  w ← latest_wave bl wl;
  Finality.first_some
    (wave_leader bl (λ leader, Finality.is_final_leader bl leader wl n f ls) wl ls)
    (reverse (range_incl 0 w)).
Proof.
  intros Hac. unfold Finality.latest_final_leader. case_decide as Hd.
  { by rewrite latest_wave_empty. }
  unfold latest_wave, Round.max_depth. destruct (iter_max _) as [m|]; [|done]. simpl.
  destruct (Wave.wave_of_round m wl) as [w|]; [|done]. simpl.
  apply first_some_ext. intros x _. apply scan_wave_spec; [done|tauto].
Qed.

Lemma latest_weighted_final_leader_scan bl wl bonds ls :
  acyclic bl →
  Finality.latest_weighted_final_leader bl wl bonds ls =
  w ← latest_wave bl wl;
  Finality.first_some
    (wave_leader bl (λ leader, Finality.is_weighted_final_leader bl leader wl bonds ls) wl ls)
    (reverse (range_incl 0 w)).
Proof.
  intros Hac. unfold Finality.latest_weighted_final_leader. case_decide as Hd.
  { by rewrite latest_wave_empty. }
  unfold latest_wave, Round.max_depth. destruct (iter_max _) as [m|]; [|done]. simpl.
  destruct (Wave.wave_of_round m wl) as [w|]; [|done]. simpl.
  apply weighted_scan_spec; [done|tauto|apply default_ratification_sound].
Qed.

(** A candidate that passes the structural checks is a stored leader block. *)
Lemma leader_candidate_stored bl candidate wl ls b r z :
  acyclic bl → Finality.leader_candidate bl candidate wl ls = Some (b, r, z) →
  identity b = candidate ∧ candidate ∈ Blocklace.dom bl.
Proof.
  intros Hac. unfold Finality.leader_candidate.
  destruct (Blocklace.get bl candidate) as [b'|] eqn:Eb; cbn [mbind option_bind]; [|done].
  destruct (Round.depth bl candidate) as [d|]; cbn [mbind option_bind]; [|done].
  destruct (Wave.wave_of_round d wl) as [w|]; cbn [mbind option_bind]; [|done].
  destruct (existsb _ _) eqn:Ex; [|done].
  destruct (Wave.last_round_of_wave w wl) as [z'|]; cbn [mbind option_bind]; [|done].
  intros [= -> _ _]. apply existsb_true in Ex as (b'' & Hb & E).
  apply bool_decide_eq_true in E. apply elem_of_iter_blocks, lookup_leader_blocks in Hb
    as (p & r' & _ & _ & _ & Hst & _); [|done].
  rewrite E in Hst. assert (candidate ∈ Blocklace.dom bl) as Hd by (apply elem_of_lace_dom; eauto).
  split; [|done]. apply get_Some in Eb as [Hres _]. rewrite resolve_stored in Hres by done.
  congruence.
Qed.

(** A weighted final leader is ratified by some witness. *)
Lemma weighted_final_ratified bl candidate wl bonds ls :
  acyclic bl → Finality.is_weighted_final_leader bl candidate wl bonds ls = true →
  ∃ b r, identity b = candidate ∧
    is_Some (ratification bl r b (WeightSnapshot.from_bonds bonds)).
Proof.
  intros Hac. unfold Finality.is_weighted_final_leader, Finality.weighted_final_leader_certificate.
  rewrite bool_decide_eq_true.
  destruct (Finality.leader_candidate bl candidate wl ls) as [[[b r] z]|] eqn:E; [|by intros [? [=]]].
  apply leader_candidate_stored in E as [<- _]; [|done].
  rewrite weighted_certificate_spec. intros (r' & _ & Hr)%super_ratification_witness. eauto.
Qed.

Lemma wave_leader_block bl final wl ls w leader :
  wave_leader bl final wl ls w = Some leader →
  Finality.leader_block_for_wave bl w wl ls = Some leader.
Proof.
  unfold wave_leader. destruct (Finality.leader_block_for_wave bl w wl ls) as [l|]; simpl; [|done].
  case_decide; [by intros [= ->]|]. destruct (final l); [by intros [= ->]|done].
Qed.

Lemma leader_block_stored bl wave wl ls leader :
  acyclic bl → Finality.leader_block_for_wave bl wave wl ls = Some leader →
  leader ∈ Blocklace.dom bl.
Proof.
  intros Hac. rewrite leader_block_singleton.
  destruct (iter_blocks _) as [|b [|]] eqn:E; try done. intros [= <-].
  assert (b ∈ iter_blocks (Wave.leader_blocks_of_wave bl wave wl ls)) as Hb by (rewrite E; by left).
  apply elem_of_iter_blocks, lookup_leader_blocks in Hb as (p & r & _ & _ & _ & Hs & _); [|done].
  apply elem_of_lace_dom. eauto.
Qed.

Lemma first_some_Some {A B} (g : A → option B) l y :
  Finality.first_some g l = Some y → ∃ x, x ∈ l ∧ g x = Some y.
Proof.
  induction l as [|x l IH]; simpl; [done|]. destruct (g x) eqn:E.
  - intros [= <-]. exists x. split; [by left|done].
  - intros (z & ? & ?)%IH. exists z. split; [by right|done].
Qed.

Lemma latest_final_leader_stored bl wl n f ls leader :
  acyclic bl → Finality.latest_final_leader bl wl n f ls = Some leader → leader ∈ Blocklace.dom bl.
Proof.
  intros Hac. rewrite latest_final_leader_scan by done.
  destruct (latest_wave bl wl) as [w|]; simpl; [|done].
  intros (x & _ & E)%first_some_Some. by eapply leader_block_stored, wave_leader_block.
Qed.

Lemma latest_weighted_final_leader_stored bl wl bonds ls leader :
  acyclic bl → Finality.latest_weighted_final_leader bl wl bonds ls = Some leader →
  leader ∈ Blocklace.dom bl.
Proof.
  intros Hac. rewrite latest_weighted_final_leader_scan by done.
  destruct (latest_wave bl wl) as [w|]; simpl; [|done].
  intros (x & _ & E)%first_some_Some. by eapply leader_block_stored, wave_leader_block.
Qed.
End scans.

Section finality.
Context `{HO : HashOrder}.
Implicit Types bl : Blocklace.t.

Lemma final_ratified bl candidate wl n f ls :
  acyclic bl → Finality.is_final_leader bl candidate wl n f ls = true →
  ∃ b r, identity b = candidate ∧ Cordiality.ratifies bl r b n f = true.
Proof.
  intros Hac E. unfold Finality.is_final_leader in E.
  destruct (Finality.leader_candidate _ _ _ _) as [[[b r] z]|] eqn:Ec; [|done].
  pose proof (leader_candidate_stored _ _ _ _ _ _ _ Hac Ec) as [Hc _].
  unfold Cordiality.super_ratifies, Quorum.is_supermajority in E.
  apply bool_decide_eq_true in E.
  destruct (filter (λ x, Cordiality.ratifies bl x b n f = true)
    (iter_blocks (Finality.witness_blocks bl r z))) as [|x l] eqn:Ef.
  - exfalso. vm_compute size in E. lia.
  - assert (x ∈ x :: l) as Hx by (by left). rewrite <-Ef in Hx.
    apply list_elem_of_filter in Hx as [Hx _]. eauto.
Qed.

Lemma elem_of_witness bl a z b :
  acyclic bl → b ∈ iter_blocks (Finality.witness_blocks bl a z) ↔
  Blocklace.blocks bl !! identity b = Some (content b) ∧
  ∃ d, is_depth bl (identity b) d ∧ (a <= d <= z)%N.
Proof.
  intros Hac. rewrite elem_of_iter_blocks. unfold Finality.witness_blocks.
  assert (∀ x, x ∈ mjoin (map (λ r, iter_blocks (Round.blocks_at_depth bl r)) (range_incl a z)) ↔
    Blocklace.blocks bl !! identity x = Some (content x) ∧
    ∃ d, is_depth bl (identity x) d ∧ (a <= d <= z)%N) as Hl.
  { intros x. rewrite list_elem_of_join. setoid_rewrite list_elem_of_fmap. split.
    - intros (l & Hx & d & -> & Hd%elem_of_range_incl).
      apply elem_of_iter_blocks, lookup_blocks_at_depth in Hx as [? ?]; [|done]. eauto.
    - intros (Hx & d & Hd & Hr). exists (iter_blocks (Round.blocks_at_depth bl d)).
      split; [by apply elem_of_iter_blocks, lookup_blocks_at_depth|].
      exists d. split; [done|]. by apply elem_of_range_incl. }
  rewrite (lookup_collect_stored bl) by (intros x [? _]%Hl; done).
  rewrite Hl. destruct b; done.
Qed.

Lemma wave_leader_Some bl final wl ls w leader :
  wave_leader bl final wl ls w = Some leader ↔
  Finality.leader_block_for_wave bl w wl ls = Some leader ∧
  (Blocklace.checkpoint bl = Some leader ∨ final leader = true).
Proof.
  unfold wave_leader. destruct (Finality.leader_block_for_wave _ _ _ _) as [l|]; simpl;
    [|split; [done|by intros [[=] _]]].
  case_decide as Hc; [|destruct (final l) eqn:E].
  - split; [intros [= <-]; auto|]. by intros [[= <-] _].
  - split; [intros [= <-]; auto|]. by intros [[= <-] _].
  - split; [done|]. intros [[= <-] [?|?]]; congruence.
Qed.

Lemma wave_leader_None bl final wl ls w :
  wave_leader bl final wl ls w = None ↔
  ∀ l, Finality.leader_block_for_wave bl w wl ls = Some l →
    Blocklace.checkpoint bl ≠ Some l ∧ final l = false.
Proof.
  unfold wave_leader. destruct (Finality.leader_block_for_wave _ _ _ _) as [l|]; simpl;
    [|split; [by intros _ ? [=]|done]].
  case_decide as Hc; [|destruct (final l) eqn:E].
  - split; [done|]. intros H. by destruct (H l eq_refl).
  - split; [done|]. intros H. destruct (H l eq_refl). congruence.
  - split; [|done]. by intros _ ? [= <-].
Qed.

(** What a backward scan over the waves finds. *)
Lemma newest_wave bl final wl ls leader :
  (w ← latest_wave bl wl;
   Finality.first_some (wave_leader bl final wl ls) (reverse (range_incl 0 w))) = Some leader ↔
  ∃ last w, latest_wave bl wl = Some last ∧ (w <= last)%N ∧
    (Finality.leader_block_for_wave bl w wl ls = Some leader ∧
     (Blocklace.checkpoint bl = Some leader ∨ final leader = true)) ∧
    ∀ w' l, (w < w' <= last)%N → Finality.leader_block_for_wave bl w' wl ls = Some l →
      Blocklace.checkpoint bl ≠ Some l ∧ final l = false.
Proof.
  destruct (latest_wave bl wl) as [last|]; simpl; [|naive_solver].
  rewrite first_some_down. setoid_rewrite wave_leader_Some. setoid_rewrite wave_leader_None.
  split.
  - intros (w & Hw & Hl & Hn). exists last, w. split_and!; try tauto. eauto.
  - intros (? & w & [= <-] & Hw & Hl & Hn). exists w. split_and!; try tauto. eauto.
Qed.
End finality.
