(* ===== verification/Xsort.v ===== *)
(** * The topological sort

    [xsort] of [consensus/ordering.rs]: Kahn's algorithm over a set of blocks,
    with the ready blocks kept in a map ordered by consensus identity. *)

From S2P Require Import Prelude Types Lace Cordiality.
From stdpp Require Import options.

Inductive OrderingError := CycleDetected.

Module Xsort.

(** [unsigned_identity_index]: the only block with this hash and creator. *)
Definition unsigned_identity_index (block_ids : list BlockIdentity) :
    gmap (Hash32 * NodeId) (option BlockIdentity) :=
  foldl (λ m id,
    let key := (content_hash id, creator id) in
    match m !! key with
    | Some _ => <[key := None]> m
    | None => <[key := Some id]> m
    end) ∅ block_ids.

(** The block of the set a predecessor reference points at, if any. *)
Definition resolve (block_ids : gset BlockIdentity)
    (index : gmap (Hash32 * NodeId) (option BlockIdentity)) (reference : BlockIdentity) :
    option BlockIdentity :=
  if decide (reference ∈ block_ids) then Some reference
  else if decide (signature reference = []) then
    mjoin (index !! (content_hash reference, creator reference))
  else None.

Record graph := mkGraph {
  dependents : gmap BlockIdentity (list BlockIdentity);
  indegree : gmap BlockIdentity nat
}.

(** [dependents.entry(predecessor).or_default().push(id)] and
    [*indegree.entry(id).or_insert(0) += 1]. *)
Definition add_edge (id : BlockIdentity) (g : graph) (predecessor : BlockIdentity) : graph :=
  mkGraph
    (<[predecessor := default [] (dependents g !! predecessor) ++ [id]]> (dependents g))
    (<[id := S (default 0 (indegree g !! id))]> (indegree g)).

Definition add_block `{HashOrder} (block_ids : gset BlockIdentity)
    (index : gmap (Hash32 * NodeId) (option BlockIdentity)) (g : graph) (b : Block) : graph :=
  let id := identity b in
  let g := mkGraph (dependents g) (<[id := default 0 (indegree g !! id)]> (indegree g)) in
  foldl (add_edge id) g (omap (resolve block_ids index) (hash_iter (predecessors (content b)))).

Definition build_graph `{HashOrder} (blocks : BlockSet) : graph :=
  let block_ids := dom blocks in
  let index := unsigned_identity_index (hash_iter block_ids) in
  foldl (add_block block_ids index) (mkGraph ∅ ∅) (iter_blocks blocks).

Record kahn := mkKahn {
  ready : gmap BlockIdentity BlockIdentity;
  degrees : gmap BlockIdentity nat;
  ordered : list BlockIdentity
}.

(** The initially ready blocks, collected into a [BTreeMap]. *)
Definition initially_ready `{HashOrder} (indegree : gmap BlockIdentity nat) :
    gmap BlockIdentity BlockIdentity :=
  foldl (λ m (e : BlockIdentity * nat),
    if decide (e.2 = 0) then <[consensus_identity e.1 := e.1]> m else m) ∅ (map_iter indegree).

(** One dependent of the popped block. *)
Definition release (s : gmap BlockIdentity BlockIdentity * gmap BlockIdentity nat)
    (child : BlockIdentity) : gmap BlockIdentity BlockIdentity * gmap BlockIdentity nat :=
  match s.2 !! child with
  | None => s
  | Some degree =>
    let degree := degree - 1 in
    (if decide (degree = 0) then <[consensus_identity child := child]> s.1 else s.1,
     <[child := degree]> s.2)
  end.

Definition kahn_step (dependents : gmap BlockIdentity (list BlockIdentity))
    (key next : BlockIdentity) (s : kahn) : kahn :=
  let r := foldl release (delete key (ready s), degrees s) (default [] (dependents !! next)) in
  mkKahn r.1 r.2 (ordered s ++ [consensus_identity next]).

(** [while let Some((_, next)) = ready.pop_first()]. *)
Fixpoint kahn_loop (dependents : gmap BlockIdentity (list BlockIdentity)) (fuel : nat) (s : kahn) :
    option kahn :=
  match btree_map_iter (ready s) with
  | [] => Some s
  | (key, next) :: _ =>
    match fuel with
    | O => None
    | S fuel => kahn_loop dependents fuel (kahn_step dependents key next s)
    end
  end.

(** A block is popped at most once. *)
Definition xsort_opt `{HashOrder} (blocks : BlockSet) : option (result (list BlockIdentity) OrderingError) :=
  let g := build_graph blocks in
  s ← kahn_loop (dependents g) (size blocks) (mkKahn (initially_ready (indegree g)) (indegree g) []);
  Some (if decide (length (ordered s) ≠ size blocks) then Err CycleDetected else Ok (ordered s)).

(** [xsort] returns: [xsort_opt_total] shows that the default is not used when
    the consensus identities are distinct. *)
Definition xsort `{HashOrder} (blocks : BlockSet) : result (list BlockIdentity) OrderingError :=
  default (Err CycleDetected) (xsort_opt blocks).

End Xsort.
