(* ===== verification/XsortFacts.v ===== *)
(** * Properties of the topological sort

    [xsort] returns exactly the greedy topological order of its blocks: each
    position holds the smallest block, by consensus identity, among those whose
    dependencies come before it.  Hence the result does not depend on any hash
    order, and it exists whenever the dependencies are acyclic. *)

From S2P Require Import Prelude Types Lace LaceFacts Cordiality CordialityFacts FinalityFacts.
From S2P Require Import Xsort.
From stdpp Require Import options.

(** Occurrences of an element in a list. *)
Definition occ `{EqDecision A} (x : A) (l : list A) : nat := length (filter (λ y, y = x) l).

Section occ.
Context `{EqDecision A}.
Implicit Types (x y : A) (l : list A).

Lemma occ_app x l k : occ x (l ++ k) = occ x l + occ x k.
Proof. unfold occ. by rewrite filter_app, length_app. Qed.
Lemma occ_cons x y l : occ x (y :: l) = (if decide (y = x) then 1 else 0) + occ x l.
Proof. unfold occ. rewrite filter_cons. by case_decide. Qed.
Lemma occ_nil x : occ x [] = 0.
Proof. done. Qed.
Lemma occ_zero x l : occ x l = 0 ↔ x ∉ l.
Proof.
  induction l as [|y l IH]; [set_solver|]. rewrite occ_cons. case_decide; [set_solver|].
  rewrite not_elem_of_cons. simpl. rewrite IH. naive_solver.
Qed.
End occ.

(** What the sort promises, without reference to the algorithm. *)
Section spec.
Variable S : BlockSet.

(** No two blocks share a consensus identity. *)
Definition distinct_blocks : Prop :=
  ∀ i j, i ∈ dom S → j ∈ dom S → same_consensus_identity i j → i = j.

(** [depends j i]: a predecessor reference of [j] denotes the member [i]. *)
Definition depends (j i : BlockIdentity) : Prop :=
  ∃ c p, S !! j = Some c ∧ p ∈ predecessors c ∧ i ∈ dom S ∧
    same_consensus_identity i p ∧ (p = i ∨ signature p = []).

(** [j] is not placed yet, and everything it depends on is. *)
Definition available (placed : list BlockIdentity) (j : BlockIdentity) : Prop :=
  j ∈ dom S ∧ j ∉ placed ∧ ∀ i, depends j i → i ∈ placed.

Definition greedy (l : list BlockIdentity) : Prop :=
  ∀ n j, l !! n = Some j → available (take n l) j ∧
    ∀ j', available (take n l) j' → ord_le (consensus_identity j) (consensus_identity j').

Record greedy_topological (l : list BlockIdentity) : Prop := {
  greedy_perm : l ≡ₚ elements (dom S);
  greedy_choice : greedy l
}.

Lemma greedy_app l k : greedy (l ++ k) → greedy l.
Proof.
  intros H n j Hn. pose proof (lookup_lt_Some _ _ _ Hn).
  specialize (H n j). rewrite lookup_app_l, take_app_le in H by lia. auto.
Qed.

Lemma available_perm l k j : l ≡ₚ k → available l j → available k j.
Proof. intros E (H1 & H2 & H3). unfold available. setoid_rewrite <-E. done. Qed.

Lemma greedy_unique l1 l2 :
  distinct_blocks → greedy l1 → greedy l2 → length l1 = length l2 → l1 = l2.
Proof.
  intros Hd. revert l2. induction l1 as [|x l1 IH] using rev_ind; intros l2 H1 H2 Hlen.
  { by destruct l2. }
  destruct l2 as [|y l2 _] using rev_ind; [rewrite length_app in Hlen; simpl in Hlen; lia|].
  rewrite !length_app in Hlen. simpl in Hlen.
  assert (l1 = l2) as -> by (apply IH; [by eapply greedy_app..|lia]).
  f_equal. f_equal. pose proof (H1 (length l2) x) as Hx. pose proof (H2 (length l2) y) as Hy.
  rewrite !list_lookup_middle in Hx, Hy by done. rewrite !take_app_length in Hx, Hy.
  destruct (Hx eq_refl) as [Hx1 Hx2], (Hy eq_refl) as [Hy1 Hy2].
  apply Hd; [apply Hx1|apply Hy1|]. apply same_consensus_identity_alt.
  by apply (anti_symm ord_le); [apply Hx2|apply Hy2].
Qed.

#[export] Instance depends_dec : RelDecision depends.
Proof.
  intros j i. destruct (S !! j) as [c|] eqn:E.
  - destruct (decide (set_Exists (λ p, i ∈ dom S ∧ same_consensus_identity i p ∧
      (p = i ∨ signature p = [])) (predecessors c))) as [H|H].
    + left. destruct H as (p & Hp & Hi). exists c, p. tauto.
    + right. intros (c' & p & Hc & Hp & Hi). apply H. exists p. simplify_eq. tauto.
  - right. intros (c & p & Hc & _). congruence.
Defined.

(** With a rank decreasing along dependencies something is available until
    everything is placed. *)
Lemma available_exists (rank : BlockIdentity → nat) placed :
  (∀ j i, depends j i → rank i < rank j) → (∃ j, j ∈ dom S ∧ j ∉ placed) →
  ∃ j, available placed j.
Proof.
  intros Hrank (j & Hj & Hn). remember (rank j) as k eqn:Hk. revert j Hk Hj Hn.
  induction (lt_wf k) as [k _ IH]. intros j -> Hj Hn.
  destruct (decide (set_Exists (λ i, i ∉ placed ∧ depends j i) (dom S)))
    as [(i & Hi & Hip & Hji)|He].
  - apply (IH (rank i)) with i; auto.
  - exists j. split_and!; [done..|]. intros i Hji.
    destruct (decide (i ∈ placed)) as [|Hip]; [done|]. exfalso. apply He. exists i.
    split; [|done]. by destruct Hji as (c & p & _ & _ & ? & _).
Qed.
End spec.

Section sort.
#[local] Set Default Proof Using "All".
Context `{HO : HashOrder}.
Variable S : BlockSet.
Hypothesis distinct : distinct_blocks S.

Let index := Xsort.unsigned_identity_index (hash_iter (dom S)).
Let res := Xsort.resolve (dom S) index.

Lemma unsigned_index_lookup ids hash p r :
  NoDup ids → (∀ i j, i ∈ ids → j ∈ ids → same_consensus_identity i j → i = j) →
  Xsort.unsigned_identity_index ids !! (hash, p) = Some (Some r) ↔
  r ∈ ids ∧ content_hash r = hash ∧ creator r = p.
Proof.
  unfold Xsort.unsigned_identity_index.
  enough (∀ (ids : list BlockIdentity), NoDup ids →
    (∀ i j, i ∈ ids → j ∈ ids → same_consensus_identity i j → i = j) → ∀ o,
    foldl (λ (m : gmap (Hash32 * NodeId) (option BlockIdentity)) id,
      match m !! (content_hash id, creator id) with
      | Some _ => <[(content_hash id, creator id) := None]> m
      | None => <[(content_hash id, creator id) := Some id]> m
      end) ∅ ids !! (hash, p) = Some o ↔
    ∃ r, o = Some r ∧ r ∈ ids ∧ content_hash r = hash ∧ creator r = p) as Hgen.
  { intros Hnd Hd. etrans; [by apply Hgen|]. naive_solver. }
  clear. intros ids. induction ids as [|id ids IH] using rev_ind; intros Hnd Hd o.
  { simpl. rewrite lookup_empty. split; [done|]. by intros (? & _ & ?%elem_of_nil & _). }
  apply NoDup_app in Hnd as (Hnd & Hdisj & _).
  assert (∀ i j, i ∈ ids → j ∈ ids → same_consensus_identity i j → i = j) as Hd'
    by (intros i j Hi Hj; apply Hd; apply elem_of_app; by left).
  specialize (IH Hnd Hd'). rewrite foldl_app. simpl.
  set (m := foldl _ ∅ ids) in *.
  destruct (decide ((content_hash id, creator id) = (hash, p))) as [E|E].
  - rewrite E. assert (m !! (hash, p) = None) as ->.
    { destruct (m !! (hash, p)) as [o'|]; [|done]. exfalso.
      destruct (proj1 (IH o') eq_refl) as (r & _ & Hr & H1 & H2).
      assert (r = id) as ->.
      { apply Hd; [apply elem_of_app; by left|apply elem_of_app; right; by left|].
        split; congruence. }
      eapply Hdisj; [done|by left]. }
    rewrite lookup_insert_eq. split.
    + intros [= <-]. exists id. rewrite elem_of_app. injection E as <- <-.
      split_and!; try done. right. by left.
    + intros (r & -> & Hr & H1 & H2). do 2 f_equal. apply Hd; [apply elem_of_app; right; by left|done|].
      injection E as <- <-. by split.
  - assert ((if m !! (content_hash id, creator id)
      then <[(content_hash id, creator id) := None]> m
      else <[(content_hash id, creator id) := Some id]> m) !! (hash, p) = m !! (hash, p)) as Em.
    { destruct (m !! (content_hash id, creator id)); by rewrite lookup_insert_ne. }
    rewrite Em, IH. setoid_rewrite elem_of_app.
    split; [naive_solver|]. intros (r & -> & [Hr| ->%list_elem_of_singleton] & H1 & H2);
      [eauto|]. exfalso. apply E. congruence.
Qed.

Lemma res_spec p i :
  res p = Some i ↔ i ∈ dom S ∧ same_consensus_identity i p ∧ (p = i ∨ signature p = []).
Proof.
  unfold res, Xsort.resolve. case_decide as Hp.
  { split; [intros [= <-]; split_and!; [done|done|by left]|].
    intros (Hi & Hs & _). f_equal. symmetry. by apply distinct. }
  assert (mjoin (index !! (content_hash p, creator p)) = Some i ↔
    i ∈ dom S ∧ same_consensus_identity i p) as Hi.
  { transitivity (index !! (content_hash p, creator p) = Some (Some i)).
    - destruct (index !! _) as [[]|]; simpl; naive_solver.
    - unfold index. rewrite unsigned_index_lookup, elem_of_hash_iter; [done|apply NoDup_hash_iter|].
      intros x y. rewrite !elem_of_hash_iter. apply distinct. }
  case_decide; [rewrite Hi; tauto|]. naive_solver.
Qed.

(** The resolved references of a member, with repetitions. *)
Definition refs (j : BlockIdentity) : list BlockIdentity :=
  match S !! j with
  | Some c => omap res (hash_iter (predecessors c))
  | None => []
  end.

Lemma elem_of_refs i j : i ∈ refs j ↔ depends S j i.
Proof.
  unfold refs, depends. destruct (S !! j) as [c|].
  - rewrite list_elem_of_omap. setoid_rewrite elem_of_hash_iter. setoid_rewrite res_spec.
    naive_solver.
  - split; [by intros ?%elem_of_nil|naive_solver].
Qed.

(** *** The graph *)

Definition deps_of (g : Xsort.graph) i : list BlockIdentity := default [] (Xsort.dependents g !! i).

Lemma add_edges_spec me ps g i j :
  occ j (deps_of (foldl (Xsort.add_edge me) g ps) i) =
    occ j (deps_of g i) + (if decide (j = me) then occ i ps else 0) ∧
  Xsort.indegree (foldl (Xsort.add_edge me) g ps) !! j =
    (if decide (j = me ∧ ps ≠ []) then Some (default 0 (Xsort.indegree g !! j) + length ps)
     else Xsort.indegree g !! j).
Proof.
  revert g. induction ps as [|p ps IH]; intros g.
  { simpl. split; [case_decide; rewrite ?occ_nil; lia|]. by rewrite decide_False by tauto. }
  cbn [foldl]. destruct (IH (Xsort.add_edge me g p)) as [-> ->]. clear IH.
  unfold Xsort.add_edge, deps_of. cbn [Xsort.dependents Xsort.indegree]. split.
  - destruct (decide (p = i)) as [->|Hne].
    + rewrite lookup_insert_eq. cbn [from_option id]. rewrite occ_app, !occ_cons, occ_nil.
      rewrite (decide_True (P := i = i)) by done. repeat case_decide; subst; try done; lia.
    + rewrite lookup_insert_ne by done. rewrite occ_cons, (decide_False (P := p = i)) by done.
      case_decide; lia.
  - destruct (decide (j = me)) as [->|Hne].
    + rewrite lookup_insert_eq. rewrite (decide_True (P := me = me ∧ p :: ps ≠ [])) by done.
      cbn [from_option length]. case_decide as Hps; [f_equal; unfold id; lia|].
      destruct ps; [simpl; f_equal; unfold id; lia|]. exfalso. by apply Hps.
    + rewrite lookup_insert_ne by done. by rewrite !decide_False by tauto.
Qed.

Lemma build_graph_spec i j :
  occ j (deps_of (Xsort.build_graph S) i) = occ i (refs j) ∧
  Xsort.indegree (Xsort.build_graph S) !! j =
    if decide (j ∈ dom S) then Some (length (refs j)) else None.
Proof.
  unfold Xsort.build_graph. fold index.
  enough (∀ l, NoDup (map identity l) → (∀ b, b ∈ l → S !! identity b = Some (content b)) →
    let g := foldl (Xsort.add_block (dom S) index) (Xsort.mkGraph ∅ ∅) l in
    occ j (deps_of g i) = (if decide (j ∈ map identity l) then occ i (refs j) else 0) ∧
    Xsort.indegree g !! j =
      if decide (j ∈ map identity l) then Some (length (refs j)) else None) as Hgen.
  { destruct (Hgen (iter_blocks S)) as [-> ->].
    - unfold iter_blocks. rewrite map_map. apply NoDup_map_iter.
    - intros b. by rewrite elem_of_iter_blocks.
    - assert (j ∈ map identity (iter_blocks S) ↔ j ∈ dom S) as Hj.
      { rewrite list_elem_of_fmap, elem_of_dom. setoid_rewrite elem_of_iter_blocks. split.
        - intros (b & -> & Hb). eauto.
        - intros [c Hc]. by exists (mkBlock j c). }
      split; [|by rewrite (decide_ext _ _ _ _ Hj)]. case_decide as Hd; [done|].
      unfold refs. rewrite (not_elem_of_dom_1 S j); [done|]. by rewrite <-Hj. }
  intros l. induction l as [|b l IH] using rev_ind; intros Hnd Hl; [done|].
  rewrite map_app in Hnd. apply NoDup_app in Hnd as (Hnd & Hdisj & _).
  destruct IH as [IH1 IH2]; [done|intros; apply Hl, elem_of_app; by left|].
  rewrite foldl_app. cbn [foldl]. set (g := foldl _ _ l) in *.
  unfold Xsort.add_block. fold res.
  assert (omap res (hash_iter (predecessors (content b))) = refs (identity b)) as Erefs.
  { unfold refs. rewrite (Hl b); [done|]. apply elem_of_app; right; by left. }
  rewrite Erefs. edestruct (add_edges_spec (identity b) (refs (identity b))) as [-> ->].
  unfold deps_of in *. cbn [Xsort.dependents Xsort.indegree]. rewrite IH1.
  assert (j ∈ map identity (l ++ [b]) ↔ j ∈ map identity l ∨ j = identity b) as Hj
    by (rewrite map_app, elem_of_app; simpl; by rewrite list_elem_of_singleton).
  destruct (decide (j = identity b)) as [->|Hne].
  - assert (identity b ∉ map identity l) as Hnb by (intros Hin; eapply Hdisj; [done|by left]).
    rewrite decide_False in IH2 by done. rewrite lookup_insert_eq, IH2.
    case_decide; [done|]. case_decide; [|tauto]. simpl. split; [done|].
    case_decide as Hr; [done|]. destruct (refs (identity b)); [done|]. exfalso. by apply Hr.
  - rewrite lookup_insert_ne by done. rewrite IH2. split.
    + repeat case_decide; try tauto; lia.
    + repeat case_decide; tauto.
Qed.

(** *** Kahn's loop *)

(** References of [j] that are not placed yet. *)
Definition pend (placed : list BlockIdentity) j : nat :=
  length (filter (λ i, i ∉ placed) (refs j)).

Lemma pend_zero placed j : pend placed j = 0 ↔ ∀ i, depends S j i → i ∈ placed.
Proof.
  unfold pend. setoid_rewrite <-elem_of_refs. generalize (refs j). intros l.
  induction l as [|i l IH]; [set_solver|]. rewrite filter_cons. case_decide; simpl.
  - split; [done|]. intros Hall. exfalso. set_solver.
  - rewrite IH. split; [|set_solver]. intros Hall x [->|?]%elem_of_cons; [|auto].
    by destruct (decide (i ∈ placed)).
Qed.

Lemma pend_snoc placed next j :
  next ∉ placed → pend (placed ++ [next]) j + occ next (refs j) = pend placed j.
Proof.
  intros Hn. unfold pend. generalize (refs j). intros l.
  induction l as [|i l IH]; [done|]. rewrite occ_cons, !filter_cons.
  assert (i ∉ placed ++ [next] ↔ i ∉ placed ∧ i ≠ next) as Hi
    by (by rewrite not_elem_of_app, list_elem_of_singleton).
  repeat case_decide; simpl; try lia; subst; tauto.
Qed.

(** The ready map holds the unplaced members of degree zero. *)
Definition ready_exact (placed : list BlockIdentity)
    (s : gmap BlockIdentity BlockIdentity * gmap BlockIdentity nat) : Prop :=
  ∀ k j, s.1 !! k = Some j ↔
    k = consensus_identity j ∧ j ∈ dom S ∧ j ∉ placed ∧ s.2 !! j = Some 0.

Lemma consensus_inj i j :
  i ∈ dom S → j ∈ dom S → consensus_identity i = consensus_identity j → i = j.
Proof. intros Hi Hj E. apply distinct; [done..|]. by apply same_consensus_identity_alt. Qed.

Lemma release_spec placed l s :
  ready_exact placed s →
  (∀ j, j ∈ l → j ∈ dom S ∧ j ∉ placed ∧ ∃ n, s.2 !! j = Some n ∧ occ j l ≤ n) →
  ready_exact placed (foldl Xsort.release s l) ∧
  ∀ j, (foldl Xsort.release s l).2 !! j = (λ n, n - occ j l) <$> s.2 !! j.
Proof.
  revert s. induction l as [|child l IH]; intros s Hr Hl; cbn [foldl].
  { split; [done|]. intros j. destruct (s.2 !! j); simpl; [|done]. rewrite occ_nil. f_equal. lia. }
  destruct (Hl child) as (Hc & Hcp & n & Hn & Hocc); [by left|].
  rewrite occ_cons, decide_True in Hocc by done.
  assert ((Xsort.release s child).2 = <[child := n - 1]> s.2) as E2
    by (unfold Xsort.release; by rewrite Hn).
  assert (ready_exact placed (Xsort.release s child)) as Hr'.
  { intros k j. rewrite E2. unfold Xsort.release. rewrite Hn. cbn [fst].
    destruct (decide (j = child)) as [->|Hne].
    - rewrite lookup_insert_eq. case_decide as H0.
      + rewrite lookup_insert_Some. split.
        * intros [[<- _]|[Hk Hx]]; [split_and!; try done; by rewrite H0|].
          apply Hr in Hx as (-> & _). done.
        * intros (-> & _). by left.
      + rewrite (Hr k child), Hn. split; [intros (_ & _ & _ & [=]); lia|].
        intros (_ & _ & _ & [=]). lia.
    - rewrite lookup_insert_ne by done. case_decide as H0; [|apply Hr].
      rewrite lookup_insert_Some, (Hr k j). split; [naive_solver|].
      intros (-> & Hj & ?). right. split; [|done]. intros E. apply Hne.
      symmetry. by apply consensus_inj. }
  destruct (IH (Xsort.release s child) Hr') as [H1 H2].
  { intros j Hj. destruct (Hl j) as (Hjd & Hjp & m & Hm & Hmo); [by right|].
    split_and!; try done. rewrite E2. rewrite occ_cons in Hmo.
    destruct (decide (child = j)) as [->|Hne].
    - rewrite lookup_insert_eq. exists (n - 1). split; [done|]. lia.
    - rewrite lookup_insert_ne by done. exists m. split; [done|]. lia. }
  split; [done|]. intros j. rewrite H2, E2, occ_cons. case_decide as Hj.
  - subst. rewrite lookup_insert_eq, Hn. simpl. f_equal. lia.
  - rewrite lookup_insert_ne by done. done.
Qed.

Record kahn_inv (placed : list BlockIdentity) (s : Xsort.kahn) : Prop := {
  kahn_nodup : NoDup placed;
  kahn_members : ∀ j, j ∈ placed → j ∈ dom S;
  kahn_ordered : Xsort.ordered s = map consensus_identity placed;
  kahn_degrees : ∀ j, Xsort.degrees s !! j = if decide (j ∈ dom S) then Some (pend placed j) else None;
  kahn_ready : ready_exact placed (Xsort.ready s, Xsort.degrees s);
  kahn_greedy : greedy S placed
}.

Lemma ready_available placed s k j :
  kahn_inv placed s → Xsort.ready s !! k = Some j ↔ k = consensus_identity j ∧ available S placed j.
Proof.
  intros Hinv. pose proof (kahn_ready _ _ Hinv k j) as Hr. simpl in Hr. rewrite Hr.
  rewrite (kahn_degrees _ _ Hinv). unfold available. rewrite <-pend_zero.
  case_decide; naive_solver.
Qed.

Lemma greedy_snoc placed j :
  greedy S placed → available S placed j →
  (∀ j', available S placed j' → ord_le (consensus_identity j) (consensus_identity j')) →
  greedy S (placed ++ [j]).
Proof.
  intros Hg Ha Hmin n i Hn. apply lookup_app_Some in Hn as [Hn|[Hlen Hn]].
  - pose proof (lookup_lt_Some _ _ _ Hn). rewrite take_app_le by lia. by apply Hg.
  - apply list_lookup_singleton_Some in Hn as [Hz <-].
    assert (n = length placed) as -> by lia. rewrite take_app_length. done.
Qed.

(** The popped entry is the smallest available block. *)
Lemma first_ready placed s key next rest :
  kahn_inv placed s → btree_map_iter (Xsort.ready s) = (key, next) :: rest →
  key = consensus_identity next ∧ available S placed next ∧
  ∀ j', available S placed j' → ord_le (consensus_identity next) (consensus_identity j').
Proof.
  intros Hinv E. assert ((key, next) ∈ btree_map_iter (Xsort.ready s)) as Hin by (rewrite E; by left).
  apply QuorumFacts.elem_of_btree_map_iter, (ready_available placed) in Hin as [-> Ha]; [|done].
  split_and!; [done..|]. intros j' Hj'.
  assert ((consensus_identity j', j') ∈ btree_map_iter (Xsort.ready s)) as Hj.
  { apply QuorumFacts.elem_of_btree_map_iter. by apply (ready_available placed). }
  pose proof (sort_by_key_sorted fst (map_to_list (Xsort.ready s))) as Hs.
  fold (btree_map_iter (Xsort.ready s)) in Hs. rewrite E in Hs, Hj.
  apply StronglySorted_inv in Hs as [_ Hs]. rewrite Forall_forall in Hs.
  apply elem_of_cons in Hj as [Heq|Hj]; [|by apply (Hs _ Hj)].
  apply (f_equal snd) in Heq. simpl in Heq. by subst.
Qed.

Lemma kahn_step_inv placed s key next rest :
  kahn_inv placed s → btree_map_iter (Xsort.ready s) = (key, next) :: rest →
  kahn_inv (placed ++ [next]) (Xsort.kahn_step (Xsort.dependents (Xsort.build_graph S)) key next s).
Proof.
  intros Hinv E. destruct (first_ready _ _ _ _ _ Hinv E) as (-> & Ha & Hmin).
  pose proof Ha as (Hd & Hn & Hdep). pose proof Hinv as [Hnd Hmem Hord Hdeg Hrdy Hg].
  unfold Xsort.kahn_step. fold (deps_of (Xsort.build_graph S) next).
  set (l := deps_of (Xsort.build_graph S) next).
  assert (∀ j, occ j l = occ next (refs j)) as Hocc by (intros j; apply build_graph_spec).
  assert (∀ j, j ∈ l → depends S j next) as Hl.
  { intros j Hj. apply elem_of_refs. destruct (decide (next ∈ refs j)) as [|Hni]; [done|].
    exfalso. apply occ_zero in Hni. rewrite <-Hocc in Hni. by apply occ_zero in Hni. }
  assert (∀ j, j ∈ placed → ∀ i, depends S j i → i ∈ placed) as Hclosed.
  { intros j [n Hj]%list_elem_of_lookup i Hi. apply Hg in Hj as [(_ & _ & Hj) _].
    eapply subseteq_take, Hj, Hi. }
  destruct (release_spec (placed ++ [next]) l
    (delete (consensus_identity next) (Xsort.ready s), Xsort.degrees s)) as [H1 H2].
  { intros k j. simpl. rewrite lookup_delete_Some. pose proof (Hrdy k j) as Hr. simpl in Hr. rewrite Hr.
    rewrite not_elem_of_app, list_elem_of_singleton. split.
    - intros (Hk & -> & ? & ? & ?). split_and!; try done. by intros ->.
    - intros (-> & ? & [? ?] & ?). split_and!; try done. intros Hk%consensus_inj; by subst. }
  { intros j Hj. apply Hl in Hj as Hjd. simpl. rewrite Hdeg.
    assert (j ∈ dom S) as Hjs by (destruct Hjd as (c & p & Hc & _); by apply elem_of_dom_2 in Hc).
    rewrite decide_True by done. split; [done|]. split.
    - rewrite not_elem_of_app, list_elem_of_singleton. split; [intros Hjp|intros ->].
      + by apply Hn, (Hclosed j).
      + by apply Hn, Hdep.
    - exists (pend placed j). split; [done|]. rewrite Hocc, <-(pend_snoc placed next) by done. lia. }
  split; simpl.
  - apply NoDup_app. split_and!; [done| |apply NoDup_singleton].
    intros x Hx ->%list_elem_of_singleton. done.
  - intros j [?| ->%list_elem_of_singleton]%elem_of_app; auto.
  - by rewrite Hord, map_app.
  - intros j. rewrite H2. simpl. rewrite Hdeg, Hocc. case_decide; simpl; [|done].
    f_equal. rewrite <-(pend_snoc placed next) by done. lia.
  - intros k j. apply (H1 k j).
  - by apply greedy_snoc.
Qed.

Lemma kahn_start_inv :
  let g := Xsort.build_graph S in
  kahn_inv [] (Xsort.mkKahn (Xsort.initially_ready (Xsort.indegree g)) (Xsort.indegree g) []).
Proof.
  assert (∀ j, Xsort.indegree (Xsort.build_graph S) !! j =
    if decide (j ∈ dom S) then Some (pend [] j) else None) as Hdeg.
  { intros j. destruct (build_graph_spec j j) as [_ ->]. case_decide; [|done]. do 2 f_equal.
    unfold pend. generalize (refs j). intros l. induction l as [|x l IH]; [done|].
    rewrite filter_cons, decide_True by apply not_elem_of_nil. simpl. f_equal. exact IH. }
  split; [apply NoDup_nil_2|by intros ? ?%elem_of_nil|done|exact Hdeg| |intros n j; by rewrite lookup_nil].
  intros k j. cbn [fst snd Xsort.ready Xsort.degrees]. unfold Xsort.initially_ready.
  enough (∀ l, (∀ e, e ∈ l → e.1 ∈ dom S) →
    foldl (λ (m : gmap BlockIdentity BlockIdentity) (e : BlockIdentity * nat),
      if decide (e.2 = 0) then <[consensus_identity e.1 := e.1]> m else m) ∅ l !! k = Some j ↔
    k = consensus_identity j ∧ (j, 0) ∈ l) as Hgen.
  { rewrite Hgen.
    - rewrite elem_of_map_iter. split; [|naive_solver]. intros [-> Hj].
      split_and!; try done; [|by apply not_elem_of_nil]. rewrite Hdeg in Hj. by case_decide.
    - intros [i n] Hi%elem_of_map_iter. rewrite Hdeg in Hi. by case_decide. }
  intros l. induction l as [|[i n] l IH] using rev_ind; intros Hl.
  { simpl. rewrite lookup_empty. split; [done|]. by intros [_ ?%elem_of_nil]. }
  assert (∀ e, e ∈ l → e.1 ∈ dom S) as Hl' by (intros; apply Hl, elem_of_app; by left).
  assert (i ∈ dom S) as Hi by (apply (Hl (i, n)), elem_of_app; right; by left).
  rewrite foldl_app. cbn [foldl fst snd]. rewrite elem_of_app, list_elem_of_singleton.
  case_decide as Hn.
  - subst. rewrite lookup_insert_Some, (IH Hl'). split.
    + intros [[<- ->]|[_ [-> ?]]]; split; auto.
    + intros [-> [Hj|[= ->]]]; [|by left].
      destruct (decide (consensus_identity i = consensus_identity j)) as [E|E]; [|by right].
      left. split; [done|]. apply consensus_inj; [done| |done]. by apply (Hl' (j, 0)).
  - rewrite (IH Hl'). naive_solver.
Qed.

(** The loop ends with nothing available. *)
Lemma kahn_loop_spec fuel placed s :
  kahn_inv placed s → size S ≤ length placed + fuel →
  ∃ placed' s', Xsort.kahn_loop (Xsort.dependents (Xsort.build_graph S)) fuel s = Some s' ∧
    kahn_inv placed' s' ∧ ∀ j, ¬ available S placed' j.
Proof.
  revert placed s. induction fuel as [|fuel IH]; intros placed s Hinv Hf; simpl.
  - destruct (btree_map_iter (Xsort.ready s)) as [|[key next] rest] eqn:E.
    + exists placed, s. split_and!; try done. intros j Hj.
      assert ((consensus_identity j, j) ∈ btree_map_iter (Xsort.ready s)) as Hin.
      { apply QuorumFacts.elem_of_btree_map_iter. by apply (ready_available placed). }
      rewrite E in Hin. by apply elem_of_nil in Hin.
    + exfalso. destruct (first_ready _ _ _ _ _ Hinv E) as (_ & (Hd & Hn & _) & _).
      pose proof (kahn_nodup _ _ Hinv) as Hnd. pose proof (kahn_members _ _ Hinv) as Hmem.
      assert (length (next :: placed) ≤ size (dom S)) as Hle.
      { rewrite <-(size_list_to_set (C := gset BlockIdentity)) by (by constructor).
        apply subseteq_size. intros x. rewrite elem_of_list_to_set, elem_of_cons. naive_solver. }
      rewrite size_dom in Hle. simpl in Hle. lia.
  - destruct (btree_map_iter (Xsort.ready s)) as [|[key next] rest] eqn:E.
    + exists placed, s. split_and!; try done. intros j Hj.
      assert ((consensus_identity j, j) ∈ btree_map_iter (Xsort.ready s)) as Hin.
      { apply QuorumFacts.elem_of_btree_map_iter. by apply (ready_available placed). }
      rewrite E in Hin. by apply elem_of_nil in Hin.
    + eapply IH; [by eapply kahn_step_inv|]. rewrite length_app. simpl. lia.
Qed.

Lemma xsort_run :
  ∃ placed, Xsort.xsort_opt S =
      Some (if decide (length placed ≠ size S) then Err CycleDetected
            else Ok (map consensus_identity placed)) ∧
    greedy S placed ∧ NoDup placed ∧ (∀ j, j ∈ placed → j ∈ dom S) ∧
    ∀ j, ¬ available S placed j.
Proof.
  destruct (kahn_loop_spec (size S) [] _ kahn_start_inv ltac:(simpl; lia))
    as (placed & s & E & [Hnd Hmem Hord _ _ Hg] & Hno).
  exists placed. split_and!; try done. unfold Xsort.xsort_opt. rewrite E. simpl.
  rewrite Hord, length_map. done.
Qed.

Lemma xsort_opt_total : is_Some (Xsort.xsort_opt S).
Proof. destruct xsort_run as (placed & -> & _). eauto. Qed.

Lemma length_full (placed : list BlockIdentity) :
  NoDup placed → (∀ j, j ∈ placed → j ∈ dom S) →
  length placed = size S ↔ placed ≡ₚ elements (dom S).
Proof.
  intros Hnd Hmem. rewrite <-size_dom. split.
  - intros Hlen. apply submseteq_length_Permutation.
    + apply NoDup_submseteq; [done|]. intros x. rewrite elem_of_elements. apply Hmem.
    + unfold size, set_size in Hlen. simpl in Hlen. lia.
  - intros E. unfold size, set_size. simpl. by rewrite E.
Qed.

(** [xsort] is the greedy topological order. *)
Lemma xsort_spec out :
  Xsort.xsort S = Ok out ↔ ∃ l, greedy_topological S l ∧ out = map consensus_identity l.
Proof.
  destruct xsort_run as (placed & E & Hg & Hnd & Hmem & Hno). unfold Xsort.xsort. rewrite E. simpl.
  case_decide as Hlen.
  - split; [done|]. intros (l & [Hp Hl] & _). exfalso. apply Hlen.
    assert (length l = size S) as Hls by (rewrite Hp, <-size_dom; done).
    assert (length placed ≤ length l) as Hle.
    { rewrite Hp. apply submseteq_length, NoDup_submseteq; [done|].
      intros x. rewrite elem_of_elements. apply Hmem. }
    assert (placed = take (length placed) l) as Epl.
    { apply (greedy_unique S); [done|done| |rewrite length_take; lia].
      apply (greedy_app _ _ (drop (length placed) l)). by rewrite take_drop. }
    destruct (decide (length placed < length l)) as [Hlt|]; [|lia].
    destruct (lookup_lt_is_Some_2 l _ Hlt) as [j Hj]. apply Hl in Hj as [Hj _].
    rewrite <-Epl in Hj. by apply Hno in Hj.
  - split.
    + intros [= <-]. exists placed. split; [|done]. split; [|done]. by apply length_full.
    + intros (l & [Hp Hl] & ->). do 2 f_equal. apply (greedy_unique S); [done..|].
      rewrite Hlen, Hp, <-size_dom. done.
Qed.

Lemma xsort_acyclic (rank : BlockIdentity → nat) :
  (∀ j i, depends S j i → rank i < rank j) → ∃ out, Xsort.xsort S = Ok out.
Proof.
  intros Hrank. destruct xsort_run as (placed & E & Hg & Hnd & Hmem & Hno).
  unfold Xsort.xsort. rewrite E. simpl. case_decide as Hlen; [|eauto]. exfalso.
  destruct (decide (set_Exists (λ j, j ∉ placed) (dom S))) as [(j & Hj & Hjp)|Hn].
  - destruct (available_exists S rank placed Hrank) as [i Hi]; [eauto|]. by apply Hno in Hi.
  - apply Hlen, length_full; [done..|]. apply NoDup_Permutation; [done|apply NoDup_elements|].
    intros x. rewrite elem_of_elements. split; [apply Hmem|]. intros Hx.
    destruct (decide (x ∈ placed)) as [|Hxp]; [done|]. exfalso. apply Hn. by exists x.
Qed.
End sort.

Lemma xsort_order_independent (HO1 HO2 : HashOrder) S :
  distinct_blocks S → @Xsort.xsort HO1 S = @Xsort.xsort HO2 S.
Proof.
  intros Hd. destruct (@Xsort.xsort HO1 S) as [o1|[]] eqn:E1, (@Xsort.xsort HO2 S) as [o2|[]] eqn:E2.
  - apply (@xsort_spec HO1 S Hd) in E1 as (l & Hl & ->). symmetry. rewrite <-E2.
    apply (@xsort_spec HO2 S Hd). eauto.
  - apply (@xsort_spec HO1 S Hd), (@xsort_spec HO2 S Hd) in E1. congruence.
  - apply (@xsort_spec HO2 S Hd), (@xsort_spec HO1 S Hd) in E2. congruence.
  - done.
Qed.
