(* ===== verification/Ordering.v ===== *)
(** * The ordering function tau

    [consensus/ordering.rs]: the approved blocks of a leader, the search for
    the previous final leader, the recursive output [tau] with its weighted,
    cached, suffix and epoch variants, and the ordering cache. *)

From S2P Require Import Prelude Types Lace Rounds Quorum Cordiality Finality Xsort.
From stdpp Require Import options.

#[export] Instance WeightSnapshot_eq_dec : EqDecision WeightSnapshot.t.
Proof. solve_decision. Defined.
#[export] Program Instance WeightSnapshot_countable : Countable WeightSnapshot.t :=
  inj_countable' (λ s, (WeightSnapshot.id s, WeightSnapshot.bonds s))
    (λ p, WeightSnapshot.mk p.1 p.2) _.
Next Obligation. by intros []. Qed.

Module Ordering.

Record TauState := mkState {
  emitted : gset BlockIdentity;
  ordered : list BlockIdentity
}.
Definition empty_state : TauState := mkState ∅ [].

(** [if state.emitted.insert(id.clone()) { state.ordered.push(id) }] *)
Definition emit (state : TauState) (id : BlockIdentity) : TauState :=
  if decide (id ∈ emitted state) then state
  else mkState ({[id]} ∪ emitted state) (ordered state ++ [id]).

Record TauConfig := mkConfig {
  wavelength : N;
  n : nat;
  f : nat;
  leader_selection_id : N;
  leader_selection : N → option NodeId
}.

Record WeightedTauConfig := mkWeightedConfig {
  w_wavelength : N;
  bonds : gmap NodeId N;
  weights : WeightSnapshot.t;
  w_leader_selection_id : N;
  w_leader_selection : N → option NodeId
}.

(** The fields of [PreviousLeaderCacheKey] and [TauOutputCacheKey], and of
    their weighted forms: leader, wavelength, [n], [f] or the weight table, and
    the id of the leader selection. *)
Definition LeaderKey : Type := BlockIdentity * N * nat * nat * N.
Definition WeightedLeaderKey : Type := BlockIdentity * N * WeightSnapshot.t * N.
Abbreviation Output := (result (list BlockIdentity) OrderingError).

Record OrderingCache := mkCache {
  cache_blocklace_identity : option N;
  cache_generation : N * nat;
  previous_final_by_leader : gmap LeaderKey (option BlockIdentity);
  weighted_previous_final_by_leader : gmap WeightedLeaderKey (option BlockIdentity);
  tau_output_by_latest_leader : gmap LeaderKey Output;
  weighted_tau_output_by_latest_leader : gmap WeightedLeaderKey Output
}.
Definition default_cache : OrderingCache := mkCache None (0%N, 0) ∅ ∅ ∅ ∅.

Inductive WeightedEpochError :=
  | InvalidBoundary | ValidatorSetMismatch | BoundaryNotFinal | PrefixMismatch
  | LeaderOutsideBoundary | OrderingFailed (error : OrderingError).

Record WeightedEpochBoundary := mkBoundary {
  final_leader : BlockIdentity;
  ordered_prefix : list BlockIdentity;
  effective_wave : N
}.

Section ordering.
Context `{HO : HashOrder}.
Implicit Types (bl : Blocklace.t) (leader : BlockIdentity) (state : TauState).

Definition approved_blocks_for_leader bl leader : BlockSet :=
  if decide (Blocklace.get bl leader = None) then ∅
  else
    collect_blocks
      (filter_memo (λ b, Approval.approves_with_memo bl leader (identity b))
         (omap (Blocklace.get bl) (hash_iter (Blocklace.dom bl))) Approval.default_memo).1.

(** ** Previous final leaders *)

Definition checkpoint_floor bl (current_leader : BlockIdentity) (wavelength : N)
    (leader_selection : N → option NodeId) : option (BlockIdentity * N) :=
  checkpoint ← Blocklace.checkpoint bl;
  if decide (checkpoint = current_leader ∨ Blocklace.precedes bl checkpoint current_leader = false)
  then None
  else
    round ← Round.depth bl checkpoint;
    wave ← Wave.wave_of_round round wavelength;
    if decide (Finality.leader_block_for_wave bl wave wavelength leader_selection ≠ Some checkpoint)
    then None
    else Some (checkpoint, wave).

(** One wave of the backward search: [Some r] returns [r]. *)
Definition previous_in_wave bl (floor : option (BlockIdentity * N))
    (final_of_wave : N → option BlockIdentity) (ratified : Block → bool) (wave : N) :
    option BlockIdentity :=
  let search :=
    previous_leader ← final_of_wave wave;
    previous_block ← Blocklace.get bl previous_leader;
    if ratified previous_block then Some previous_leader else None in
  match floor with
  | Some (checkpoint, checkpoint_wave) =>
    if decide (wave <= checkpoint_wave)%N then Some checkpoint else search
  | None => search
  end.

Definition previous_final_leader bl (current_leader : BlockIdentity) (wavelength : N) (n f : nat)
    (leader_selection : N → option NodeId) : option BlockIdentity :=
  current_block ← Blocklace.get bl current_leader;
  current_round ← Round.depth bl current_leader;
  current_wave ← Wave.wave_of_round current_round wavelength;
  if decide (current_wave = 0%N) then None
  else
    Finality.first_some
      (previous_in_wave bl (checkpoint_floor bl current_leader wavelength leader_selection)
         (λ wave, Finality.final_leader_for_wave bl wave wavelength n f leader_selection)
         (λ previous_block, Cordiality.ratifies bl current_block previous_block n f))
      (reverse (range_incl 0 (current_wave - 1))).

Definition weighted_previous_final_leader bl (current_leader : BlockIdentity) (wavelength : N)
    (bonds : gmap NodeId N) (leader_selection : N → option NodeId) : option BlockIdentity :=
  current_block ← Blocklace.get bl current_leader;
  current_round ← Round.depth bl current_leader;
  current_wave ← Wave.wave_of_round current_round wavelength;
  if decide (current_wave = 0%N) then None
  else
    Finality.first_some
      (previous_in_wave bl (checkpoint_floor bl current_leader wavelength leader_selection)
         (λ wave, Finality.weighted_final_leader_for_wave bl wave wavelength bonds leader_selection)
         (λ previous_block, Cordiality.weighted_ratifies bl current_block previous_block bonds))
      (reverse (range_incl 0 (current_wave - 1))).

(** ** Checkpoint prefixes *)

Definition emit_prefix bl (prefix : list BlockIdentity) leader state : bool * TauState :=
  if decide (Blocklace.checkpoint bl ≠ Some leader ∨ prefix = []) then (false, state)
  else (true, foldl (λ state id, emit state (consensus_identity id)) state prefix).

Definition emit_checkpoint_prefix bl leader state : bool * TauState :=
  emit_prefix bl (Blocklace.checkpoint_order_prefix bl) leader state.
Definition emit_weighted_checkpoint_prefix bl leader state : bool * TauState :=
  emit_prefix bl (Blocklace.checkpoint_weighted_order_prefix bl) leader state.

Definition checkpoint_predecessor bl leader : option BlockIdentity :=
  checkpoint ← Blocklace.checkpoint bl;
  if decide (checkpoint = leader ∨ Blocklace.precedes bl checkpoint leader = false) then None
  else Some checkpoint.

(** ** tau

    The recursion of [tau_from_leader] and of [weighted_tau_from_leader]: the
    two differ in the previous leader and in the checkpoint prefix.  The outer
    [None] means that the recursion was cut by the fuel. *)

Definition newly_approved bl leader state : BlockSet :=
  filter (λ e : BlockIdentity * BlockContent, consensus_identity e.1 ∉ emitted state)
    (approved_blocks_for_leader bl leader).

Fixpoint from_leader bl (emit_prefix : BlockIdentity → TauState → bool * TauState)
    (previous_leader : BlockIdentity → option BlockIdentity) (fuel : nat) leader state :
    option (result TauState OrderingError) :=
  match fuel with
  | O => None
  | S fuel =>
    let prefixed := emit_prefix leader state in
    if prefixed.1 then Some (Ok prefixed.2)
    else
      r ←
        match previous_leader leader with
        | Some previous => from_leader bl emit_prefix previous_leader fuel previous state
        | None =>
          match checkpoint_predecessor bl leader with
          | Some checkpoint => Some (Ok (emit_prefix checkpoint state).2)
          | None => Some (Ok state)
          end
        end;
      Some (let? state := r in
            let? ids := Xsort.xsort (newly_approved bl leader state) in
            Ok (foldl emit state ids))
  end.

(** Each recursive call is for a proper ancestor. *)
Definition tau_fuel bl : nat := S (size (Blocklace.blocks bl)).

Definition tau_from_leader bl leader (config : TauConfig) state :
    option (result TauState OrderingError) :=
  from_leader bl (emit_checkpoint_prefix bl)
    (λ leader, previous_final_leader bl leader (wavelength config) (n config) (f config)
       (leader_selection config))
    (tau_fuel bl) leader state.

Definition weighted_tau_from_leader bl leader (config : WeightedTauConfig) state :
    option (result TauState OrderingError) :=
  from_leader bl (emit_weighted_checkpoint_prefix bl)
    (λ leader, weighted_previous_final_leader bl leader (w_wavelength config) (bonds config)
       (w_leader_selection config))
    (tau_fuel bl) leader state.

Definition output (r : result TauState OrderingError) : Output :=
  match r with Ok state => Ok (ordered state) | Err e => Err e end.

Definition tau bl (wavelength : N) (n f : nat) (leader_selection : N → option NodeId) :
    option Output :=
  match Finality.latest_final_leader bl wavelength n f leader_selection with
  | None => Some (Ok [])
  | Some latest_leader =>
    output <$> tau_from_leader bl latest_leader
      (mkConfig wavelength n f 0 leader_selection) empty_state
  end.

Definition weighted_tau_at_leader bl leader (wavelength : N) (bonds : gmap NodeId N)
    (leader_selection : N → option NodeId) : option Output :=
  output <$> weighted_tau_from_leader bl leader
    (mkWeightedConfig wavelength bonds (WeightSnapshot.from_bonds bonds) 0 leader_selection)
    empty_state.

Definition weighted_tau bl (wavelength : N) (bonds : gmap NodeId N)
    (leader_selection : N → option NodeId) : option Output :=
  match Finality.latest_weighted_final_leader bl wavelength bonds leader_selection with
  | None => Some (Ok [])
  | Some latest_leader =>
    weighted_tau_at_leader bl latest_leader wavelength bonds leader_selection
  end.

(** ** The ordering cache *)

Definition sync_cache_generation bl (cache : OrderingCache) : OrderingCache :=
  let generation := (Blocklace.generation bl, size (Blocklace.dom bl)) in
  if decide (cache_blocklace_identity cache ≠ Some (Blocklace.cache_identity bl) ∨
             cache_generation cache ≠ generation)
  then mkCache (Some (Blocklace.cache_identity bl)) generation ∅ ∅ ∅ ∅
  else cache.

Definition cached_entries (cache : OrderingCache) : nat :=
  size (previous_final_by_leader cache) + size (weighted_previous_final_by_leader cache) +
  size (tau_output_by_latest_leader cache) + size (weighted_tau_output_by_latest_leader cache).

Definition sorted_approved_fragment bl leader (cache : OrderingCache) : Output * OrderingCache :=
  (Xsort.xsort (approved_blocks_for_leader bl leader), sync_cache_generation bl cache).

Definition previous_final_leader_cached bl (config : TauConfig) (current_leader : BlockIdentity)
    (cache : OrderingCache) : option BlockIdentity * OrderingCache :=
  let cache := sync_cache_generation bl cache in
  let key := (current_leader, wavelength config, n config, f config, leader_selection_id config) in
  match previous_final_by_leader cache !! key with
  | Some previous => (previous, cache)
  | None =>
    let previous := previous_final_leader bl current_leader (wavelength config) (n config)
      (f config) (leader_selection config) in
    (previous,
     mkCache (cache_blocklace_identity cache) (cache_generation cache)
       (<[key := previous]> (previous_final_by_leader cache))
       (weighted_previous_final_by_leader cache) (tau_output_by_latest_leader cache)
       (weighted_tau_output_by_latest_leader cache))
  end.

Definition weighted_previous_final_leader_cached bl (config : WeightedTauConfig)
    (current_leader : BlockIdentity) (cache : OrderingCache) :
    option BlockIdentity * OrderingCache :=
  let cache := sync_cache_generation bl cache in
  let key := (current_leader, w_wavelength config, weights config, w_leader_selection_id config) in
  match weighted_previous_final_by_leader cache !! key with
  | Some previous => (previous, cache)
  | None =>
    let previous := weighted_previous_final_leader bl current_leader (w_wavelength config)
      (bonds config) (w_leader_selection config) in
    (previous,
     mkCache (cache_blocklace_identity cache) (cache_generation cache)
       (previous_final_by_leader cache)
       (<[key := previous]> (weighted_previous_final_by_leader cache))
       (tau_output_by_latest_leader cache) (weighted_tau_output_by_latest_leader cache))
  end.

(** The recursion of the cached forms: the whole approved set is sorted, and
    what is emitted already is skipped. *)
Fixpoint from_leader_cached bl (emit_prefix : BlockIdentity → TauState → bool * TauState)
    (previous_leader : BlockIdentity → OrderingCache → option BlockIdentity * OrderingCache)
    (fuel : nat) leader (cache : OrderingCache) state :
    option (result TauState OrderingError * OrderingCache) :=
  match fuel with
  | O => None
  | S fuel =>
    let prefixed := emit_prefix leader state in
    if prefixed.1 then Some (Ok prefixed.2, cache)
    else
      let p := previous_leader leader cache in
      r ←
        match p.1 with
        | Some previous => from_leader_cached bl emit_prefix previous_leader fuel previous p.2 state
        | None =>
          match checkpoint_predecessor bl leader with
          | Some checkpoint => Some (Ok (emit_prefix checkpoint state).2, p.2)
          | None => Some (Ok state, p.2)
          end
        end;
      match r.1 with
      | Err e => Some (Err e, r.2)
      | Ok state =>
        let fragment := sorted_approved_fragment bl leader r.2 in
        Some (let? ids := fragment.1 in Ok (foldl emit state ids), fragment.2)
      end
  end.

Definition tau_from_leader_cached bl leader (config : TauConfig) (cache : OrderingCache) state :
    option (result TauState OrderingError * OrderingCache) :=
  from_leader_cached bl (emit_checkpoint_prefix bl) (previous_final_leader_cached bl config)
    (tau_fuel bl) leader cache state.

Definition weighted_tau_from_leader_cached bl leader (config : WeightedTauConfig)
    (cache : OrderingCache) state : option (result TauState OrderingError * OrderingCache) :=
  from_leader_cached bl (emit_weighted_checkpoint_prefix bl)
    (weighted_previous_final_leader_cached bl config) (tau_fuel bl) leader cache state.

Definition tau_with_cache bl (wavelength : N) (n f : nat) (leader_selection_id : N)
    (leader_selection : N → option NodeId) (cache : OrderingCache) :
    option (Output * OrderingCache) :=
  let cache := sync_cache_generation bl cache in
  match Finality.latest_final_leader bl wavelength n f leader_selection with
  | None => Some (Ok [], cache)
  | Some latest_leader =>
    let key := (latest_leader, wavelength, n, f, leader_selection_id) in
    match tau_output_by_latest_leader cache !! key with
    | Some ordered => Some (ordered, cache)
    | None =>
      r ← tau_from_leader_cached bl latest_leader
            (mkConfig wavelength n f leader_selection_id leader_selection) cache empty_state;
      let ordered := output r.1 in
      Some (ordered,
        mkCache (cache_blocklace_identity r.2) (cache_generation r.2)
          (previous_final_by_leader r.2) (weighted_previous_final_by_leader r.2)
          (<[key := ordered]> (tau_output_by_latest_leader r.2))
          (weighted_tau_output_by_latest_leader r.2))
    end
  end.

Definition weighted_tau_with_cache bl (wavelength : N) (bonds : gmap NodeId N)
    (leader_selection_id : N) (leader_selection : N → option NodeId) (cache : OrderingCache) :
    option (Output * OrderingCache) :=
  let cache := sync_cache_generation bl cache in
  match Finality.latest_weighted_final_leader bl wavelength bonds leader_selection with
  | None => Some (Ok [], cache)
  | Some latest_leader =>
    let weights := WeightSnapshot.from_bonds bonds in
    let key := (latest_leader, wavelength, weights, leader_selection_id) in
    match weighted_tau_output_by_latest_leader cache !! key with
    | Some ordered => Some (ordered, cache)
    | None =>
      r ← weighted_tau_from_leader_cached bl latest_leader
            (mkWeightedConfig wavelength bonds weights leader_selection_id leader_selection)
            cache empty_state;
      let ordered := output r.1 in
      Some (ordered,
        mkCache (cache_blocklace_identity r.2) (cache_generation r.2)
          (previous_final_by_leader r.2) (weighted_previous_final_by_leader r.2)
          (tau_output_by_latest_leader r.2)
          (<[key := ordered]> (weighted_tau_output_by_latest_leader r.2)))
    end
  end.

(** ** Extending a known prefix *)

Fixpoint weighted_tau_suffix_from_leader_cached bl (fuel : nat) leader
    (config : WeightedTauConfig) (cache : OrderingCache) (previous_anchor : BlockIdentity) state :
    option (result (bool * TauState) OrderingError * OrderingCache) :=
  match fuel with
  | O => None
  | S fuel =>
    if decide (same_consensus_identity leader previous_anchor) then Some (Ok (true, state), cache)
    else
      let prefixed := emit_weighted_checkpoint_prefix bl leader state in
      if prefixed.1 then Some (Ok (false, prefixed.2), cache)
      else
        let p := weighted_previous_final_leader_cached bl config leader cache in
        r ←
          match p.1 with
          | Some previous =>
            weighted_tau_suffix_from_leader_cached bl fuel previous config p.2 previous_anchor state
          | None => Some (Ok (false, state), p.2)
          end;
        match r.1 with
        | Err e => Some (Err e, r.2)
        | Ok (reaches_previous_anchor, state) =>
          if (reaches_previous_anchor : bool) then
            let fragment := sorted_approved_fragment bl leader r.2 in
            Some (let? ids := fragment.1 in Ok (true, foldl emit state ids), fragment.2)
          else Some (Ok (false, state), r.2)
        end
  end.

(** [Ok None] asks the caller to recompute the whole output. *)
Definition weighted_tau_suffix_with_cache bl (wavelength : N) (bonds : gmap NodeId N)
    (leader_selection_id : N) (leader_selection : N → option NodeId)
    (previous_anchor : BlockIdentity) (previous_prefix : list BlockIdentity)
    (cache : OrderingCache) :
    option (result (option (list BlockIdentity * BlockIdentity)) OrderingError * OrderingCache) :=
  let cache := sync_cache_generation bl cache in
  let anchored :=
    last ← last previous_prefix;
    if decide (same_consensus_identity last previous_anchor) then
      anchor_round ← Round.depth bl previous_anchor;
      anchor_wave ← Wave.wave_of_round anchor_round wavelength;
      leader ← Finality.weighted_final_leader_for_wave bl anchor_wave wavelength bonds
                 leader_selection;
      if decide (same_consensus_identity leader previous_anchor) then
        Finality.latest_weighted_final_leader bl wavelength bonds leader_selection
      else None
    else None in
  match anchored with
  | None => Some (Ok None, cache)
  | Some latest_leader =>
    let prefix := map consensus_identity previous_prefix in
    r ← weighted_tau_suffix_from_leader_cached bl (tau_fuel bl) latest_leader
          (mkWeightedConfig wavelength bonds (WeightSnapshot.from_bonds bonds)
             leader_selection_id leader_selection)
          cache previous_anchor (mkState (list_to_set prefix) prefix);
    Some (let? reached := r.1 in
          Ok (if reached.1 : bool then Some (ordered reached.2, latest_leader) else None), r.2)
  end.

(** ** Weight epochs *)

Fixpoint weighted_tau_from_epoch_leader bl (fuel : nat) leader (wavelength : N)
    (bonds : gmap NodeId N) (boundary : WeightedEpochBoundary)
    (leader_selection : N → option NodeId) state : option (result TauState WeightedEpochError) :=
  match fuel with
  | O => None
  | S fuel =>
    match (round ← Round.depth bl leader; Wave.wave_of_round round wavelength) with
    | None => Some (Err LeaderOutsideBoundary)
    | Some current_wave =>
      if decide ((current_wave < effective_wave boundary)%N ∨
                 Blocklace.precedes bl (final_leader boundary) leader = false)
      then Some (Err LeaderOutsideBoundary)
      else
        match Blocklace.get bl leader with
        | None => Some (Err LeaderOutsideBoundary)
        | Some current_block =>
          let previous_leader :=
            if decide (current_wave <= effective_wave boundary)%N then None
            else
              Finality.first_some (λ wave,
                previous ← Finality.weighted_final_leader_for_wave bl wave wavelength bonds
                             leader_selection;
                previous_block ← Blocklace.get bl previous;
                if Cordiality.weighted_ratifies bl current_block previous_block bonds
                then Some previous else None)
                (reverse (range_incl (effective_wave boundary) (current_wave - 1))) in
          r ←
            match previous_leader with
            | Some previous =>
              weighted_tau_from_epoch_leader bl fuel previous wavelength bonds boundary
                leader_selection state
            | None => Some (Ok state)
            end;
          Some (let? state := r in
                let? ids := map_err OrderingFailed (Xsort.xsort (newly_approved bl leader state)) in
                Ok (foldl emit state ids))
        end
    end
  end.

Definition weighted_tau_after_epoch_boundary bl (wavelength : N) (old_bonds new_bonds : gmap NodeId N)
    (boundary : WeightedEpochBoundary) (leader_selection : N → option NodeId) :
    option (result (list BlockIdentity * BlockIdentity) WeightedEpochError) :=
  let wave_of leader := round ← Round.depth bl leader; Wave.wave_of_round round wavelength in
  if decide (size old_bonds ≠ size new_bonds ∨
             forallb (λ e : NodeId * N, bool_decide (is_Some (new_bonds !! e.1)))
               (map_iter old_bonds) = false)
  then Some (Err ValidatorSetMismatch)
  else
    match wave_of (final_leader boundary) with
    | None => Some (Err InvalidBoundary)
    | Some boundary_wave =>
      if decide (effective_wave boundary <= boundary_wave)%N then Some (Err InvalidBoundary)
      else
        match Finality.weighted_final_leader_for_wave bl boundary_wave wavelength old_bonds
                leader_selection with
        | None => Some (Err BoundaryNotFinal)
        | Some leader =>
          if decide (¬ same_consensus_identity leader (final_leader boundary))
          then Some (Err BoundaryNotFinal)
          else
            r ← weighted_tau_at_leader bl (final_leader boundary) wavelength old_bonds
                  leader_selection;
            match r with
            | Err e => Some (Err (OrderingFailed e))
            | Ok old_prefix =>
              if decide (old_prefix ≠ ordered_prefix boundary) then Some (Err PrefixMismatch)
              else
                match Finality.latest_weighted_final_leader bl wavelength new_bonds
                        leader_selection with
                | None => Some (Ok (old_prefix, final_leader boundary))
                | Some latest_leader =>
                  match wave_of latest_leader with
                  | None => Some (Err LeaderOutsideBoundary)
                  | Some latest_wave =>
                    if decide (latest_wave < effective_wave boundary)%N
                    then Some (Ok (old_prefix, final_leader boundary))
                    else
                      r ← weighted_tau_from_epoch_leader bl (tau_fuel bl) latest_leader wavelength
                            new_bonds boundary leader_selection
                            (mkState (list_to_set old_prefix) old_prefix);
                      Some (let? state := r in Ok (ordered state, latest_leader))
                  end
                end
            end
        end
    end.

End ordering.
End Ordering.
