(* ===== verification/OrderingFacts.v ===== *)
(** * Properties of the ordering function

    The recursion of tau terminates, its output lists each block once and
    respects the pointed relation, and it extends the output of the previous
    final leader. *)

From S2P Require Import Prelude Types Lace LaceFacts IndexFacts Rounds RoundFacts Quorum.
From S2P Require Import QuorumFacts Cordiality CordialityFacts Finality FinalityFacts Xsort.
From S2P Require Import XsortFacts Ordering.
From stdpp Require Import options.

(** ** Approved blocks *)

Section approved.
Context `{HO : HashOrder}.
Implicit Types bl : Blocklace.t.

Lemma lookup_approved_blocks bl leader i c :
  acyclic bl → leader ∈ Blocklace.dom bl →
  Ordering.approved_blocks_for_leader bl leader !! i = Some c ↔
  Blocklace.blocks bl !! i = Some c ∧ approved bl leader i.
Proof.
  intros Hac Hl. unfold Ordering.approved_blocks_for_leader.
  pose proof Hl as [cl Hcl]%elem_of_lace_dom. rewrite (get_stored _ _ _ Hcl).
  rewrite decide_False by done.
  destruct (filter_memo_spec (memo_sound bl)
    (λ b, Approval.approves_with_memo bl leader (identity b))
    (λ b, Approval.approves_uncached bl leader (identity b))
    (omap (Blocklace.get bl) (hash_iter (Blocklace.dom bl))) Approval.default_memo) as [-> _].
  { intros b m Hm. by apply approves_with_memo_spec. }
  { apply default_memo_sound. }
  set (l := filter _ _).
  assert (∀ b, b ∈ l ↔ Blocklace.blocks bl !! identity b = Some (content b) ∧
    approved bl leader (identity b)) as Hb.
  { intros b. unfold l. rewrite list_elem_of_filter, approves_stored, list_elem_of_omap by done.
    setoid_rewrite elem_of_hash_iter. split.
    - intros (Ha & x & Hx & [Hr Hc]%get_Some). done.
    - intros [Hc Ha]. split; [done|]. exists (identity b). rewrite elem_of_lace_dom.
      split; [eauto|]. rewrite (get_stored _ _ _ Hc). by destruct b. }
  rewrite (lookup_collect_stored bl) by (intros b []%Hb; done). rewrite Hb. done.
Qed.

Lemma ratification_observes bl r t weights :
  acyclic bl → identity r ∈ Blocklace.dom bl → is_Some (ratification bl r t weights) →
  rtc (points bl) (identity r) (identity t).
Proof.
  intros Hac Hr [cert Hcert]. pose proof Hcert as (Hq & _ & _ & Hb & Ha)%ratification_cert.
  apply verify_quorum_sound in Hq as (_ & _ & _ & _ & Hq).
  apply weighted_supermajority_spec in Hq as [Hlt _].
  destruct (ThresholdCertificate.approvers cert) as [|p l] eqn:E.
  { simpl in Hlt. unfold stake in Hlt. rewrite set_weight_empty in Hlt. lia. }
  assert (p ∈ p :: l) as (i & Hi & _)%Ha by (by left).
  apply Hb in Hi as [Ho Happ]. rewrite approves_uncached_eq in Happ.
  apply approves_stored in Happ as [Hit _]; [|done|by eapply observe_dom].
  apply elem_of_observe_stored in Ho; [|done]. by trans i.
Qed.

Lemma ratifies_observes bl r t n f :
  acyclic bl → identity r ∈ Blocklace.dom bl → Cordiality.ratifies bl r t n f = true →
  rtc (points bl) (identity r) (identity t).
Proof.
  intros Hac Hr (X & Hlt & _ & HX)%ratifies_support; [|done].
  assert (X ≠ ∅) as (p & (i & Ho & _ & Hi & Happ)%HX)%set_choose_L.
  { intros ->. rewrite size_empty in Hlt. lia. }
  apply approves_stored in Happ as [Hit _]; [|done..].
  apply elem_of_observe_stored in Ho; [|done]. by trans i.
Qed.
End approved.

(** ** Previous leaders are proper ancestors *)

Section previous.
Context `{HO : HashOrder}.
Implicit Types bl : Blocklace.t.

Lemma leader_block_depth bl wave wl ls leader :
  acyclic bl → Finality.leader_block_for_wave bl wave wl ls = Some leader →
  leader ∈ Blocklace.dom bl ∧ ∃ r, Wave.leader_round_of_wave wave wl = Some r ∧ is_depth bl leader r.
Proof.
  intros Hac. rewrite leader_block_singleton.
  destruct (iter_blocks _) as [|b [|]] eqn:E; try done. intros [= <-].
  assert (b ∈ iter_blocks (Wave.leader_blocks_of_wave bl wave wl ls)) as Hb by (rewrite E; by left).
  apply elem_of_iter_blocks, lookup_leader_blocks in Hb as (p & r & _ & Hr & _ & Hs & Hd); [|done].
  split; [by eapply is_depth_dom|]. eauto.
Qed.

Lemma wave_of_leader_round wave wl r :
  Wave.leader_round_of_wave wave wl = Some r → Wave.wave_of_round r wl = Some wave.
Proof.
  unfold Wave.leader_round_of_wave, Wave.first_round_of_wave, Wave.wave_of_round.
  case_decide; [done|]. intros [-> _]%checked_mul_Some. by rewrite N.div_mul.
Qed.

Lemma checkpoint_floor_points bl current wl ls cp w :
  acyclic bl → current ∈ Blocklace.dom bl →
  Ordering.checkpoint_floor bl current wl ls = Some (cp, w) →
  cp ∈ Blocklace.dom bl ∧ tc (points bl) current cp.
Proof.
  intros Hac Hc. unfold Ordering.checkpoint_floor.
  destruct (Blocklace.checkpoint bl) as [cp'|]; simpl; [|done]. case_decide as Hd; [done|].
  destruct (Round.depth bl cp') as [r|]; simpl; [|done].
  destruct (Wave.wave_of_round r wl) as [w'|]; simpl; [|done].
  case_decide as Hl; [done|]. intros [= -> ->].
  apply leader_block_depth in Hl as [Hcp _]; [|done].
  split; [done|]. apply precedes_stored; [done..|].
  destruct (Blocklace.precedes bl cp current); [done|]. exfalso. apply Hd. by right.
Qed.

(** The search, for any finality and any ratification that observes. *)
Lemma previous_in_wave_points bl current wl ls final_of ratified current_wave w prev :
  acyclic bl → current ∈ Blocklace.dom bl →
  (∀ w' l, final_of w' = Some l → Finality.leader_block_for_wave bl w' wl ls = Some l) →
  (∀ b, Blocklace.get bl (identity b) = Some b → ratified b = true → rtc (points bl) current (identity b)) →
  (∃ r, is_depth bl current r ∧ Wave.wave_of_round r wl = Some current_wave) →
  (w < current_wave)%N →
  Ordering.previous_in_wave bl (Ordering.checkpoint_floor bl current wl ls) final_of ratified w
    = Some prev →
  prev ∈ Blocklace.dom bl ∧ tc (points bl) current prev.
Proof.
  intros Hac Hc Hfin Hrat (r & Hr & Hw) Hlt. unfold Ordering.previous_in_wave.
  set (search := l ← final_of w; _).
  assert (search = Some prev → prev ∈ Blocklace.dom bl ∧ tc (points bl) current prev) as Hs.
  { unfold search. intros (l & Hl & (b & Hb & E)%bind_Some)%bind_Some.
    destruct (ratified b) eqn:Er; [|done]. injection E as <-.
    apply Hfin, leader_block_depth in Hl as (Hld & r' & Hr' & Hdep); [|done].
    split; [done|]. pose proof Hb as [Hres Hst]%get_Some.
    rewrite resolve_stored in Hres by done. injection Hres as ->.
    assert (Blocklace.get bl (identity b) = Some b) as Hgb
      by (rewrite (get_stored _ _ _ Hst); by destruct b).
    apply (Hrat b Hgb), rtc_tc in Er as [E|?]; [|done]. exfalso. rewrite <-E in Hdep.
    pose proof (is_depth_det _ _ _ _ Hr Hdep) as ->.
    apply wave_of_leader_round in Hr'. rewrite Hw in Hr'. injection Hr' as ->. lia. }
  destruct (Ordering.checkpoint_floor bl current wl ls) as [[cp cw]|] eqn:Ef; [|done].
  case_decide; [|done]. intros [= <-]. by eapply checkpoint_floor_points.
Qed.

Lemma previous_final_leader_points bl current wl n f ls prev :
  acyclic bl → current ∈ Blocklace.dom bl →
  Ordering.previous_final_leader bl current wl n f ls = Some prev →
  prev ∈ Blocklace.dom bl ∧ tc (points bl) current prev.
Proof.
  intros Hac Hc. unfold Ordering.previous_final_leader.
  intros (cb & Hcb & (r & Hr & (cw & Hcw & E)%bind_Some)%bind_Some)%bind_Some.
  apply depth_spec in Hr as (i & Hi & Hr); [|done]. rewrite resolve_stored in Hi by done.
  injection Hi as <-. case_decide as H0; [done|].
  apply first_some_Some in E as (w & Hw & E).
  rewrite elem_of_reverse, elem_of_range_incl in Hw.
  eapply (previous_in_wave_points bl current wl ls _ _ cw w); [done|done| | | |lia|exact E].
  - intros w' l. unfold Finality.final_leader_for_wave.
    intros (l' & Hl' & El)%bind_Some. destruct (Finality.is_final_leader _ _ _ _ _ _); by simplify_eq.
  - intros b Hb Hrat. apply get_Some in Hcb as [Hres _].
    rewrite resolve_stored in Hres by done. injection Hres as ->. exact (ratifies_observes bl cb b n f Hac Hc Hrat).
  - eauto.
Qed.

Lemma weighted_previous_final_leader_points bl current wl bonds ls prev :
  acyclic bl → current ∈ Blocklace.dom bl →
  Ordering.weighted_previous_final_leader bl current wl bonds ls = Some prev →
  prev ∈ Blocklace.dom bl ∧ tc (points bl) current prev.
Proof.
  intros Hac Hc. unfold Ordering.weighted_previous_final_leader.
  intros (cb & Hcb & (r & Hr & (cw & Hcw & E)%bind_Some)%bind_Some)%bind_Some.
  apply depth_spec in Hr as (i & Hi & Hr); [|done]. rewrite resolve_stored in Hi by done.
  injection Hi as <-. case_decide as H0; [done|].
  apply first_some_Some in E as (w & Hw & E).
  rewrite elem_of_reverse, elem_of_range_incl in Hw.
  eapply (previous_in_wave_points bl current wl ls _ _ cw w); [done|done| | | |lia|exact E].
  - intros w' l. unfold Finality.weighted_final_leader_for_wave.
    intros (l' & Hl' & El)%bind_Some.
    destruct (Finality.is_weighted_final_leader _ _ _ _ _); by simplify_eq.
  - intros b Hb Hrat. apply get_Some in Hcb as [Hres _].
    rewrite resolve_stored in Hres by done. injection Hres as ->.
    cbn beta in Hrat. rewrite weighted_ratifies_ratification, bool_decide_eq_true in Hrat.
    by eapply ratification_observes.
  - eauto.
Qed.
End previous.

(** ** The state of the output *)

Section state.
Implicit Types st : Ordering.TauState.

(** The emitted set is the set of the ordered list, which has no repetition. *)
Definition state_ok st : Prop :=
  NoDup (Ordering.ordered st) ∧ ∀ x, x ∈ Ordering.emitted st ↔ x ∈ Ordering.ordered st.

Lemma empty_state_ok : state_ok Ordering.empty_state.
Proof. split; simpl; [constructor|]. intros x. set_solver. Qed.

Lemma emit_ok st x : state_ok st → state_ok (Ordering.emit st x).
Proof.
  intros [Hnd He]. unfold Ordering.emit. case_decide as Hx; [done|]. split; simpl.
  - apply NoDup_app. split_and!; [done| |apply NoDup_singleton].
    intros y Hy ->%list_elem_of_singleton. apply Hx. by apply He.
  - intros y. rewrite elem_of_union, elem_of_singleton, elem_of_app, list_elem_of_singleton, He. tauto.
Qed.

Lemma emit_prefix_of st x : Ordering.ordered st `prefix_of` Ordering.ordered (Ordering.emit st x).
Proof. unfold Ordering.emit. case_decide; [done|]. by apply prefix_app_r. Qed.

Lemma emits_ok {A} (g : A → BlockIdentity) l st :
  state_ok st →
  state_ok (foldl (λ st x, Ordering.emit st (g x)) st l) ∧
  Ordering.ordered st `prefix_of` Ordering.ordered (foldl (λ st x, Ordering.emit st (g x)) st l).
Proof.
  revert st. induction l as [|x l IH]; intros st Hst; simpl; [done|].
  destruct (IH _ (emit_ok st (g x) Hst)) as [H1 H2]. split; [done|].
  etrans; [apply emit_prefix_of|exact H2].
Qed.

(** Fresh distinct identities are all appended. *)
Lemma emits_fresh l st :
  state_ok st → NoDup l → (∀ x, x ∈ l → x ∉ Ordering.emitted st) →
  Ordering.ordered (foldl Ordering.emit st l) = Ordering.ordered st ++ l.
Proof.
  revert st. induction l as [|x l IH]; intros st Hst Hnd Hf; simpl; [by rewrite app_nil_r|].
  apply NoDup_cons in Hnd as [Hx Hnd].
  assert (x ∉ Ordering.emitted st) as Hxe by (apply Hf; by left).
  rewrite IH; [|by apply emit_ok|done|].
  - unfold Ordering.emit. rewrite decide_False by done. simpl. by rewrite <-app_assoc.
  - intros y Hy. unfold Ordering.emit. rewrite decide_False by done. simpl.
    rewrite elem_of_union, elem_of_singleton. intros [->|He]; [done|].
    by apply (Hf y); [right|].
Qed.
End state.

(** ** The recursion *)

Section from_leader.
#[local] Set Default Proof Using "All".
Context `{HO : HashOrder}.
Variable bl : Blocklace.t.
Variable prefix : list BlockIdentity.
Variable previous : BlockIdentity → option BlockIdentity.
Hypothesis Hacyclic : acyclic bl.
Hypothesis previous_points : ∀ leader prev,
  leader ∈ Blocklace.dom bl → previous leader = Some prev →
  prev ∈ Blocklace.dom bl ∧ tc (points bl) leader prev.

Let run := Ordering.from_leader bl (Ordering.emit_prefix bl prefix) previous.

Lemma tc_rank a b : tc (points bl) a b → ancestor_rank bl b < ancestor_rank bl a.
Proof.
  induction 1 as [a b Hab|a m b Ham _ IH]; [by apply ancestor_rank_lt|].
  etrans; [exact IH|by apply ancestor_rank_lt].
Qed.

Lemma run_total fuel leader st :
  leader ∈ Blocklace.dom bl → ancestor_rank bl leader < fuel → is_Some (run fuel leader st).
Proof.
  revert leader st. induction fuel as [|fuel IH]; intros leader st Hl Hf; [lia|].
  unfold run. cbn [Ordering.from_leader]. fold run.
  destruct (Ordering.emit_prefix bl prefix leader st).1; [eauto|].
  destruct (previous leader) as [prev|] eqn:Ep.
  - apply previous_points in Ep as [Hp Ht%tc_rank]; [|done].
    destruct (IH prev st Hp) as [r ->]; [lia|]. eauto.
  - destruct (Ordering.checkpoint_predecessor bl leader); eauto.
Qed.

Lemma run_fuel fuel fuel' leader st r :
  run fuel leader st = Some r → fuel ≤ fuel' → run fuel' leader st = Some r.
Proof.
  revert fuel' leader st r. induction fuel as [|fuel IH]; intros fuel' leader st r E Hle; [done|].
  destruct fuel' as [|fuel']; [lia|]. unfold run in E |- *. cbn [Ordering.from_leader] in E |- *. fold run in E |- *.
  destruct (Ordering.emit_prefix bl prefix leader st).1; [done|].
  destruct (previous leader) as [prev|]; [|done].
  destruct (run fuel prev st) as [r'|] eqn:Er; [|done].
  rewrite (IH fuel' prev st r' Er) by lia. done.
Qed.

Lemma emit_prefix_ok leader st :
  state_ok st →
  state_ok (Ordering.emit_prefix bl prefix leader st).2 ∧
  Ordering.ordered st `prefix_of` Ordering.ordered (Ordering.emit_prefix bl prefix leader st).2.
Proof.
  intros Hst. unfold Ordering.emit_prefix. case_decide; simpl; [done|]. by apply emits_ok.
Qed.

Lemma run_ok fuel leader st st' :
  state_ok st → run fuel leader st = Some (Ok st') →
  state_ok st' ∧ Ordering.ordered st `prefix_of` Ordering.ordered st'.
Proof.
  revert leader st st'. induction fuel as [|fuel IH]; intros leader st st' Hst E; [done|].
  unfold run in E. cbn [Ordering.from_leader] in E. fold run in E.
  destruct (emit_prefix_ok leader st Hst) as [H1 H2].
  destruct (Ordering.emit_prefix bl prefix leader st).1; [by injection E as <-|].
  destruct (previous leader) as [prev|].
  - destruct (run fuel prev st) as [[st1|e]|] eqn:Er; simpl in E; try done.
    destruct (IH _ _ _ Hst Er) as [H3 H4].
    destruct (Xsort.xsort _) as [ids|e]; simpl in E; [|done]. injection E as <-.
    destruct (emits_ok (λ x, x) ids st1 H3) as [H5 H6]. split; [done|]. by etrans.
  - assert (∃ st1, state_ok st1 ∧ Ordering.ordered st `prefix_of` Ordering.ordered st1 ∧
      (match Ordering.checkpoint_predecessor bl leader with
       | Some checkpoint => Some (Ok (Ordering.emit_prefix bl prefix checkpoint st).2)
       | None => Some (Ok st) end) =@{option (result _ OrderingError)} Some (Ok st1))
      as (st1 & H3 & H4 & E1).
    { destruct (Ordering.checkpoint_predecessor bl leader) as [cp|]; [|by exists st].
      destruct (emit_prefix_ok cp st Hst). eauto. }
    rewrite E1 in E. simpl in E.
    destruct (Xsort.xsort _) as [ids|e]; simpl in E; [|done]. injection E as <-.
    destruct (emits_ok (λ x, x) ids st1 H3) as [H5 H6]. split; [done|]. by etrans.
Qed.

(** The output of a leader extends that of its previous final leader. *)
Lemma run_extends fuel leader prev st st' :
  state_ok st → (Ordering.emit_prefix bl prefix leader st).1 = false →
  previous leader = Some prev → run fuel leader st = Some (Ok st') →
  ∃ st1, run fuel prev st = Some (Ok st1) ∧ Ordering.ordered st1 `prefix_of` Ordering.ordered st'.
Proof.
  intros Hst Hpre Hp E. destruct fuel as [|fuel]; [done|].
  unfold run in E. cbn [Ordering.from_leader] in E. fold run in E.
  rewrite Hpre, Hp in E. destruct (run fuel prev st) as [[st1|e]|] eqn:Er; simpl in E; try done.
  exists st1. split; [eapply run_fuel; [done|lia]|].
  destruct (run_ok _ _ _ _ Hst Er) as [H3 H4].
  destruct (Xsort.xsort _) as [ids|e]; simpl in E; [|done]. injection E as <-.
  by apply (emits_ok (λ x, x)).
Qed.

(** *** Without a checkpoint *)

Hypothesis no_checkpoint : Blocklace.checkpoint bl = None.
Hypothesis Hunique : unique_variants bl.

Lemma no_prefix leader st : Ordering.emit_prefix bl prefix leader st = (false, st).
Proof. unfold Ordering.emit_prefix. rewrite decide_True; [done|]. left. congruence. Qed.
Lemma no_predecessor leader : Ordering.checkpoint_predecessor bl leader = None.
Proof. unfold Ordering.checkpoint_predecessor. by rewrite no_checkpoint. Qed.

Lemma lookup_newly leader st i c :
  leader ∈ Blocklace.dom bl →
  Ordering.newly_approved bl leader st !! i = Some c ↔
  Blocklace.blocks bl !! i = Some c ∧ approved bl leader i ∧
    consensus_identity i ∉ Ordering.emitted st.
Proof.
  intros Hl. unfold Ordering.newly_approved.
  rewrite map_lookup_filter_Some, lookup_approved_blocks by done. simpl. tauto.
Qed.

Lemma dom_newly leader st i :
  leader ∈ Blocklace.dom bl →
  i ∈ dom (Ordering.newly_approved bl leader st) ↔
  approved bl leader i ∧ consensus_identity i ∉ Ordering.emitted st.
Proof.
  intros Hl. rewrite elem_of_dom. unfold is_Some. setoid_rewrite lookup_newly; [|done].
  split; [naive_solver|]. intros [Ha Hn].
  assert (i ∈ Blocklace.dom bl) as [c Hc]%elem_of_lace_dom by (eapply rtc_points_dom, Ha; done).
  eauto.
Qed.

Lemma newly_distinct leader st :
  leader ∈ Blocklace.dom bl → distinct_blocks (Ordering.newly_approved bl leader st).
Proof.
  intros Hl i j [Hi _]%dom_newly [Hj _]%dom_newly Hs; [|done..].
  apply Hunique; [eapply rtc_points_dom, Hi; done|eapply rtc_points_dom, Hj; done|done].
Qed.

Lemma newly_depends leader st j i :
  leader ∈ Blocklace.dom bl →
  depends (Ordering.newly_approved bl leader st) j i ↔
  points bl j i ∧ j ∈ dom (Ordering.newly_approved bl leader st) ∧
    i ∈ dom (Ordering.newly_approved bl leader st).
Proof.
  intros Hl. split.
  - intros (c & p & Hj & Hp & Hi & Hs & Hsig). pose proof Hj as [Hc _]%lookup_newly; [|done].
    split_and!; [|by eapply elem_of_dom_2|done]. exists c, p. split_and!; [done|done| |congruence].
    apply dom_newly in Hi as [Hi _]; [|done].
    assert (i ∈ Blocklace.dom bl) as Hid by (eapply rtc_points_dom, Hi; done).
    destruct Hsig as [->|Hsig]; [by apply resolve_stored|].
    apply resolve_in_unsigned; [|done|by apply elem_of_lace_dom|done].
    intros a b. rewrite <-!elem_of_lace_dom. apply Hunique.
  - intros ((c & p & Hc & Hp & Hr & _) & Hj & Hi).
    apply elem_of_dom in Hj as [c' Hc']. pose proof Hc' as [Hc'' _]%lookup_newly; [|done].
    simplify_eq. exists c, p. apply resolve_Some in Hr as (_ & Hs & Hsig). done.
Qed.

Lemma run_Ok fuel leader st :
  leader ∈ Blocklace.dom bl → ancestor_rank bl leader < fuel →
  ∃ st', run fuel leader st = Some (Ok st').
Proof.
  revert leader st. induction fuel as [|fuel IH]; intros leader st Hl Hf; [lia|].
  unfold run. cbn [Ordering.from_leader]. fold run. rewrite no_prefix, no_predecessor. simpl.
  assert (∃ st1, match previous leader with
    | Some prev => run fuel prev st | None => Some (Ok st) end = Some (Ok st1)) as [st1 ->].
  { destruct (previous leader) as [prev|] eqn:Ep; [|eauto].
    apply previous_points in Ep as [Hp Ht%tc_rank]; [|done]. apply IH; [done|lia]. }
  simpl. destruct (xsort_acyclic (Ordering.newly_approved bl leader st1)
    (newly_distinct leader st1 Hl) (ancestor_rank bl)) as [out ->]; [|eauto].
  intros j i (Hji & _)%newly_depends; [|done]. by apply ancestor_rank_lt.
Qed.

(** Consensus order within a list. *)
Definition in_order (l : list BlockIdentity) : Prop :=
  ∀ j i m k, points bl j i → l !! m = Some (consensus_identity j) →
    l !! k = Some (consensus_identity i) → k < m.

(** Whatever is emitted was approved by a leader that observes nothing the
    current leader does not, and whose whole approved set is emitted. *)
Definition justified (leader : BlockIdentity) (st : Ordering.TauState) : Prop :=
  ∀ x, x ∈ Ordering.emitted st → ∃ Q b, Q ∈ Blocklace.dom bl ∧ rtc (points bl) leader Q ∧
    x = consensus_identity b ∧ approved bl Q b ∧
    ∀ p, approved bl Q p → consensus_identity p ∈ Ordering.emitted st.

Lemma approved_stored leader b : leader ∈ Blocklace.dom bl → approved bl leader b → b ∈ Blocklace.dom bl.
Proof. intros Hl [Hb _]. by eapply rtc_points_dom. Qed.

Lemma consensus_stored a b :
  a ∈ Blocklace.dom bl → b ∈ Blocklace.dom bl → consensus_identity a = consensus_identity b → a = b.
Proof. intros Ha Hb E. apply Hunique; [done..|]. by apply same_consensus_identity_alt. Qed.

(** One leader's fragment, appended to a state justified from below. *)
Lemma fragment_step leader st out :
  leader ∈ Blocklace.dom bl → state_ok st → justified leader st → in_order (Ordering.ordered st) →
  Xsort.xsort (Ordering.newly_approved bl leader st) = Ok out →
  let st' := foldl Ordering.emit st out in
  in_order (Ordering.ordered st') ∧ justified leader st' ∧
  (∀ p, approved bl leader p → consensus_identity p ∈ Ordering.emitted st').
Proof.
  intros Hl Hst Hj Hio Hx. apply xsort_spec in Hx as (l & [Hperm Hg] & ->); [|by apply newly_distinct].
  assert (∀ i, i ∈ l ↔ approved bl leader i ∧ consensus_identity i ∉ Ordering.emitted st) as Hin.
  { intros i. by rewrite Hperm, elem_of_elements, dom_newly. }
  assert (NoDup l) as Hndl by (rewrite Hperm; apply NoDup_elements).
  assert (Ordering.ordered (foldl Ordering.emit st (map consensus_identity l)) =
    Ordering.ordered st ++ map consensus_identity l) as Eord.
  { apply emits_fresh; [done| |].
    - apply NoDup_fmap_2_strong; [|done]. intros a b [Ha _]%Hin [Hb _]%Hin E.
      apply consensus_stored; [by apply (approved_stored leader)..|done].
    - intros x (i & -> & [_ ?]%Hin)%list_elem_of_fmap. done. }
  destruct (emits_ok (λ x, x) (map consensus_identity l) st Hst) as [[_ He] _].
  assert (∀ x, x ∈ Ordering.emitted (foldl Ordering.emit st (map consensus_identity l)) ↔
    x ∈ Ordering.emitted st ∨ ∃ i, i ∈ l ∧ x = consensus_identity i) as Hem.
  { intros x. rewrite (He x : x ∈ Ordering.emitted (foldl Ordering.emit st _) ↔ _).
    change (foldl (λ st x, Ordering.emit st x) st (map consensus_identity l))
      with (foldl Ordering.emit st (map consensus_identity l)).
    rewrite Eord, elem_of_app, list_elem_of_fmap. destruct Hst as [_ ->]. naive_solver. }
  assert (∀ p, approved bl leader p →
    consensus_identity p ∈ Ordering.emitted (foldl Ordering.emit st (map consensus_identity l))) as Hall.
  { intros p Hp. apply Hem. destruct (decide (consensus_identity p ∈ Ordering.emitted st)); [by left|].
    right. exists p. split; [by apply Hin|done]. }
  split_and!; [|intros x [Hx|(b & Hb & ->)]%Hem|done].
  - rewrite Eord. intros j i m k Hji Hm Hk.
    pose proof (points_dom _ _ _ Hji) as [Hjd Hid].
    apply lookup_app_Some in Hm as [Hm|[Hlm Hm]], Hk as [Hk|[Hlk Hk]].
    + by eapply Hio.
    + exfalso. rewrite list_lookup_fmap in Hk. apply fmap_Some in Hk as (i' & Hi' & E).
      apply list_elem_of_lookup_2, Hin in Hi' as [Hai Hni].
      assert (i = i') as <- by (apply consensus_stored; [done|by apply (approved_stored leader)|done]).
      apply list_elem_of_lookup_2 in Hm. apply Hst, Hj in Hm as (Q & b & HQ & HlQ & E' & Hb & Hcl).
      assert (j = b) as <- by (apply consensus_stored; [done|by apply (approved_stored Q)|done]).
      apply Hni, Hcl. split.
      * destruct Hb as [Hb _]. by eapply rtc_r.
      * intros r Hr. apply Hai. by trans Q.
    + apply lookup_lt_Some in Hk. lia.
    + rewrite list_lookup_fmap in Hm, Hk.
      apply fmap_Some in Hm as (j' & Hj' & Ej), Hk as (i' & Hi' & Ei).
      pose proof (list_elem_of_lookup_2 _ _ _ Hj') as Hjl.
      pose proof (list_elem_of_lookup_2 _ _ _ Hi') as Hil.
      apply Hin in Hjl as Hja, Hil as Hia.
      assert (j = j') as <- by (apply consensus_stored; [done|by apply (approved_stored leader), Hja|done]).
      assert (i = i') as <- by (apply consensus_stored; [done|by apply (approved_stored leader), Hia|done]).
      destruct (Hg _ _ Hj') as [(_ & _ & Hdep) _].
      specialize (Hdep i). rewrite newly_depends, !dom_newly in Hdep by done.
      assert (i ∈ take (m - length (Ordering.ordered st)) l) as [k' Hk']%list_elem_of_lookup
        by (apply Hdep; tauto).
      apply lookup_take_Some in Hk' as [Hk' Hlt].
      pose proof (NoDup_lookup _ _ _ _ Hndl Hk' Hi'). lia.
  - apply Hj in Hx as (Q & b & HQ & HlQ & E & Hb & Hcl). exists Q, b. split_and!; try done.
    intros p Hp. apply Hem. left. by apply Hcl.
  - apply Hin in Hb as [Hb _]. exists leader, b. by split_and!.
Qed.

Lemma run_in_order fuel leader st' :
  leader ∈ Blocklace.dom bl → run fuel leader Ordering.empty_state = Some (Ok st') →
  in_order (Ordering.ordered st') ∧ justified leader st' ∧
  (∀ p, approved bl leader p → consensus_identity p ∈ Ordering.emitted st').
Proof.
  revert leader st'. induction fuel as [|fuel IH]; intros leader st' Hl E; [done|].
  unfold run in E. cbn [Ordering.from_leader] in E. fold run in E.
  rewrite no_prefix, no_predecessor in E. cbn [fst] in E.
  destruct (previous leader) as [prev|] eqn:Ep.
  - destruct (run fuel prev Ordering.empty_state) as [[st1|e]|] eqn:Er; simpl in E; try done.
    destruct (Xsort.xsort _) as [ids|e] eqn:Ex; simpl in E; [|done]. injection E as <-.
    apply previous_points in Ep as [Hp Ht]; [|done].
    destruct (IH _ _ Hp Er) as (H1 & H2 & H3).
    destruct (run_ok _ _ _ _ empty_state_ok Er) as [H4 _].
    apply fragment_step; try done. intros x Hx.
    apply H2 in Hx as (Q & b & HQ & HpQ & ?). exists Q, b. split_and!; try tauto.
    etrans; [by apply tc_rtc|done].
  - simpl in E. destruct (Xsort.xsort _) as [ids|e] eqn:Ex; simpl in E; [|done]. injection E as <-.
    apply fragment_step; try done. apply empty_state_ok.
Qed.
End from_leader.

(** ** The outputs *)

Section outputs.
Context `{HO : HashOrder}.
Implicit Types bl : Blocklace.t.

Lemma leader_rank_fuel bl leader :
  ancestor_rank bl leader < Ordering.tau_fuel bl.
Proof. pose proof (ancestor_rank_le bl leader). unfold Ordering.tau_fuel. lia. Qed.

(** What an output of a leader promises. *)
Definition sound_output bl leader (l : list BlockIdentity) : Prop :=
  NoDup l ∧ in_order bl l ∧ (∀ b, approved bl leader b → consensus_identity b ∈ l) ∧
  ∀ x, x ∈ l → ∃ b, rtc (points bl) leader b ∧ x = consensus_identity b.

Lemma from_leader_sound bl prefix previous leader :
  acyclic bl → unique_variants bl → Blocklace.checkpoint bl = None →
  (∀ leader prev, leader ∈ Blocklace.dom bl → previous leader = Some prev →
    prev ∈ Blocklace.dom bl ∧ tc (points bl) leader prev) →
  leader ∈ Blocklace.dom bl →
  ∃ l, Ordering.output <$> Ordering.from_leader bl (Ordering.emit_prefix bl prefix) previous
    (Ordering.tau_fuel bl) leader Ordering.empty_state = Some (Ok l) ∧ sound_output bl leader l.
Proof.
  intros Hac Hu Hcp Hprev Hl.
  destruct (run_Ok bl prefix previous Hac Hprev Hcp Hu (Ordering.tau_fuel bl) leader
    Ordering.empty_state Hl (leader_rank_fuel bl leader)) as [st E].
  rewrite E. exists (Ordering.ordered st). split; [done|].
  destruct (run_ok bl prefix previous Hac Hprev _ _ _ _ empty_state_ok E) as [[Hnd He] _].
  destruct (run_in_order bl prefix previous Hac Hprev Hcp Hu _ _ _ Hl E) as (H1 & H2 & H3).
  split_and!; [done|done|intros b Hb; by apply He, H3|].
  intros x (Q & b & _ & HQ & -> & [Hb _] & _)%He%H2. exists b. split; [by trans Q|done].
Qed.
End outputs.
