(* ===== verification/ConsensusTheorems.v ===== *)
(** * Theorems: quorums, ratification and finality

    The properties of [weight_snapshot.rs], [certificate.rs], [cordiality.rs]
    and [finality.rs], each with an instance on a concrete blocklace. *)

From S2P Require Import Prelude Types Lace LaceFacts Samples AncestorIndex IndexFacts Rounds.
From S2P Require Import RoundFacts Quorum QuorumFacts Cordiality CordialityFacts Finality.
From S2P Require Import FinalityFacts Xsort XsortFacts Ordering OrderingFacts.
From stdpp Require Import options.

Section finality.
Context `{HO : HashOrder}.
Implicit Types bl : Blocklace.t.

(** C1: accountable safety of weighted finality: if two incomparable blocks of
    one creator are both weighted-final leaders, even under different
    wavelengths and leader selections, then the equivocators that
    [find_equivacators] reports hold more than a third of the stake. *)
Theorem weighted_finality_is_accountable bl bonds wl1 wl2 ls1 ls2 c1 c2 :
  acyclic bl → rival bl c1 c2 →
  Finality.is_weighted_final_leader bl c1 wl1 bonds ls1 = true →
  Finality.is_weighted_final_leader bl c2 wl2 bonds ls2 = true →
  let weights := WeightSnapshot.from_bonds bonds in
  (all_stake weights < 3 * stake weights (Blocklace.find_equivacators bl))%N.
Proof.
  intros Hac Hr H1 H2 weights.
  apply weighted_final_ratified in H1 as (b1 & r1 & <- & H1); [|done].
  apply weighted_final_ratified in H2 as (b2 & r2 & <- & H2); [|done].
  by apply (ratified_rivals bl r1 r2 b1 b2).
Qed.

(** Accountable safety of counted finality: with at most [n] creators, two
    incomparable final leaders of one creator need more than [f]
    equivocators. *)
Theorem counted_finality_is_accountable bl n f wl1 wl2 ls1 ls2 c1 c2 :
  acyclic bl → size (Blocklace.all_nodes bl) ≤ n → rival bl c1 c2 →
  Finality.is_final_leader bl c1 wl1 n f ls1 = true →
  Finality.is_final_leader bl c2 wl2 n f ls2 = true →
  f < size (Blocklace.find_equivacators bl).
Proof.
  intros Hac Hn Hr H1 H2.
  apply final_ratified in H1 as (b1 & r1 & <- & H1); [|done].
  apply final_ratified in H2 as (b2 & r2 & <- & H2); [|done].
  by apply (ratified_rivals_count bl r1 r2 b1 b2 n).
Qed.

(** The certificate of a weighted-final leader verifies against the bond
    table it was made with, names the leader, and its approvers are exactly
    the staked creators of a ratifying block within the leader's wave. *)
Theorem final_certificate_is_evidence bl candidate wl bonds ls cert :
  acyclic bl →
  Finality.weighted_final_leader_certificate bl candidate wl bonds ls = Some cert →
  let weights := WeightSnapshot.from_bonds bonds in
  ThresholdCertificate.verify_quorum_against cert weights = true ∧
  ThresholdCertificate.leader cert = candidate ∧
  ∃ c first last, Finality.leader_candidate bl candidate wl ls = Some (c, first, last) ∧
    ∀ p, p ∈ ThresholdCertificate.approvers cert ↔
      (0 < WeightSnapshot.weight_of weights p)%N ∧
      ∃ b d, Blocklace.blocks bl !! identity b = Some (content b) ∧ creator (identity b) = p ∧
        is_depth bl (identity b) d ∧ (first <= d <= last)%N ∧
        Cordiality.weighted_ratifies bl b c bonds = true.
Proof.
  intros Hac E weights. unfold Finality.weighted_final_leader_certificate in E.
  destruct (Finality.leader_candidate _ _ _ _) as [[[c r] z]|] eqn:Ec; [|done].
  pose proof (leader_candidate_stored _ _ _ _ _ _ _ Hac Ec) as [Hc _].
  rewrite weighted_certificate_spec in E.
  apply super_ratification_cert in E as (Hv & Hl & Ha).
  split; [done|]. split; [congruence|]. exists c, r, z. split; [done|].
  intros p. rewrite Ha. apply and_iff_compat_l. split.
  - intros (b & (Hb & d & Hd & Hrd)%elem_of_witness & Hp & Hrat); [|done].
    exists b, d. rewrite weighted_ratifies_ratification, bool_decide_eq_true. done.
  - intros (b & d & Hb & Hp & Hd & Hrd & Hrat). exists b.
    rewrite weighted_ratifies_ratification, bool_decide_eq_true in Hrat.
    split; [apply elem_of_witness; [done|eauto]|done].
Qed.

(** C14: the scan with one pass over the depths and one memo for all waves finds
    the leader of the newest wave that the direct per-wave test accepts (or
    that is the checkpoint). *)
Theorem latest_weighted_leader_is_newest bl wl bonds ls leader :
  acyclic bl →
  Finality.latest_weighted_final_leader bl wl bonds ls = Some leader ↔
  ∃ last w, latest_wave bl wl = Some last ∧ (w <= last)%N ∧
    (Finality.leader_block_for_wave bl w wl ls = Some leader ∧
     (Blocklace.checkpoint bl = Some leader ∨
      Finality.is_weighted_final_leader bl leader wl bonds ls = true)) ∧
    ∀ w' l, (w < w' <= last)%N → Finality.leader_block_for_wave bl w' wl ls = Some l →
      Blocklace.checkpoint bl ≠ Some l ∧
      Finality.is_weighted_final_leader bl l wl bonds ls = false.
Proof. intros Hac. rewrite latest_weighted_final_leader_scan by done. apply newest_wave. Qed.

(** The same for the scan that counts creators. *)
Theorem latest_leader_is_newest bl wl n f ls leader :
  acyclic bl →
  Finality.latest_final_leader bl wl n f ls = Some leader ↔
  ∃ last w, latest_wave bl wl = Some last ∧ (w <= last)%N ∧
    (Finality.leader_block_for_wave bl w wl ls = Some leader ∧
     (Blocklace.checkpoint bl = Some leader ∨
      Finality.is_final_leader bl leader wl n f ls = true)) ∧
    ∀ w' l, (w < w' <= last)%N → Finality.leader_block_for_wave bl w' wl ls = Some l →
      Blocklace.checkpoint bl ≠ Some l ∧ Finality.is_final_leader bl l wl n f ls = false.
Proof. intros Hac. rewrite latest_final_leader_scan by done. apply newest_wave. Qed.
End finality.

(** The memos that decisions about one blocklace and one weight table leave. *)
Inductive memo_reached `{HashOrder} (bl : Blocklace.t) (weights : WeightSnapshot.t) :
    Cordiality.WeightedRatificationMemo → Prop :=
  | reached_default : memo_reached bl weights Cordiality.default_memo
  | reached_ratifies memo r t :
      memo_reached bl weights memo →
      memo_reached bl weights (Cordiality.weighted_ratifies_with_memo bl r t weights memo).2
  | reached_super memo blocks t :
      memo_reached bl weights memo →
      memo_reached bl weights
        (Cordiality.weighted_super_ratifies_with_memo bl blocks t weights memo).2.

Lemma memo_reached_sound `{HashOrder} bl weights memo :
  memo_reached bl weights memo → ratification_memo_sound bl weights memo.
Proof.
  induction 1 as [|memo r t _ IH|memo blocks t _ IH].
  - apply default_ratification_sound.
  - by apply ratifies_with_memo_spec.
  - by apply super_ratification_outcome_spec.
Qed.

Section quorums.
Context `{HO : HashOrder}.
Implicit Types bl : Blocklace.t.

(** Memoisation is transparent: with any memo left by earlier decisions on
    the same blocklace and weight table, ratification and super-ratification
    decide as with an empty one. *)
Theorem memo_is_transparent bl weights memo r t blocks :
  memo_reached bl weights memo →
  (Cordiality.weighted_ratifies_with_memo bl r t weights memo).1 =
    (Cordiality.weighted_ratifies_with_memo bl r t weights Cordiality.default_memo).1 ∧
  (Cordiality.weighted_super_ratifies_with_memo bl blocks t weights memo).1 =
    (Cordiality.weighted_super_ratifies_with_memo bl blocks t weights Cordiality.default_memo).1.
Proof.
  intros Hm%memo_reached_sound.
  pose proof (default_ratification_sound bl weights) as Hd. split.
  - destruct (ratifies_with_memo_spec bl r t weights memo Hm) as [-> _].
    by destruct (ratifies_with_memo_spec bl r t weights _ Hd) as [-> _].
  - unfold Cordiality.weighted_super_ratifies_with_memo. simpl.
    destruct (super_ratification_outcome_spec bl blocks t weights memo Hm) as [-> _].
    by destruct (super_ratification_outcome_spec bl blocks t weights _ Hd) as [-> _].
Qed.

(** A weighted supermajority is a strict two-thirds of the total stake,
    and is refused when three times the support or twice the total does not
    fit [u128]. *)
Theorem weighted_supermajority_is_two_thirds creators bonds :
  let weights := WeightSnapshot.from_bonds bonds in
  Quorum.is_weighted_supermajority creators bonds = true ↔
  (2 * all_stake weights < 3 * stake weights creators)%N ∧
  (3 * stake weights creators <= u128_max)%N ∧ (2 * all_stake weights <= u128_max)%N.
Proof. apply weighted_supermajority_spec. Qed.

(** Two weighted quorums of one bond table share creators with more than a
    third of the stake. *)
Theorem weighted_quorums_intersect X Y bonds :
  let weights := WeightSnapshot.from_bonds bonds in
  Quorum.is_weighted_supermajority X bonds = true →
  Quorum.is_weighted_supermajority Y bonds = true →
  (all_stake weights < 3 * stake weights (X ∩ Y))%N.
Proof. intros weights. apply supermajority_intersection. Qed.

(** The certificate check is exact: it accepts when the weight table
    matches, the approvers are distinct, both stored weights are those of the
    table, and the approvers are a weighted supermajority. *)
Theorem certificate_check_is_exact cert weights :
  ThresholdCertificate.verify_quorum_against cert weights = true ↔
  WeightSnapshot.id weights = ThresholdCertificate.weight_snapshot cert ∧
  NoDup (ThresholdCertificate.approvers cert) ∧
  ThresholdCertificate.approver_weight cert =
    stake weights (list_to_set (ThresholdCertificate.approvers cert)) ∧
  ThresholdCertificate.total_weight cert = all_stake weights ∧
  Quorum.is_weighted_supermajority_snapshot
    (list_to_set (ThresholdCertificate.approvers cert)) weights = true.
Proof. apply verify_quorum_sound. Qed.
End quorums.

(** ** Instances *)

Definition fork_bonds : gmap NodeId N := {[ [x0a] := 100%N; [x0b] := 10%N; [x0d] := 10%N ]}.

Lemma not_observed bl a b :
  bool_decide (a ∈ Blocklace.dom bl) = true →
  bool_decide (b ∈ @Blocklace.observe elements_order bl a) = false → ¬ rtc (points bl) a b.
Proof.
  intros Ha%stored_in Hb Hr. apply bool_decide_eq_false in Hb. apply Hb.
  by apply (elem_of_observe_stored (HO := elements_order)).
Qed.

Lemma fork_rival : rival fork (identity F0) (identity G0).
Proof.
  split_and!; [decided|intros E; by apply (f_equal signature) in E|..];
    apply not_observed; vm_compute; reflexivity.
Qed.
Lemma deep_fork_rival : rival deep_fork (identity F0) (identity G0).
Proof.
  split_and!; [decided|intros E; by apply (f_equal signature) in E|..];
    apply not_observed; vm_compute; reflexivity.
Qed.

Lemma weighted_finality_is_accountable_witness :
  rival fork (identity F0) (identity G0) ∧
  (all_stake (@WeightSnapshot.from_bonds elements_order fork_bonds) <
    3 * stake (@WeightSnapshot.from_bonds elements_order fork_bonds)
          (@Blocklace.find_equivacators elements_order fork))%N.
Proof.
  split; [exact fork_rival|].
  apply (@weighted_finality_is_accountable elements_order fork fork_bonds 1 1 always_A always_A
    (identity F0) (identity G0) fork_acyclic fork_rival); vm_compute; reflexivity.
Defined.

Lemma counted_finality_is_accountable_witness :
  rival deep_fork (identity F0) (identity G0) ∧
  0 < size (@Blocklace.find_equivacators elements_order deep_fork).
Proof.
  split; [exact deep_fork_rival|].
  apply (@counted_finality_is_accountable elements_order deep_fork 3 0 3 3 always_A always_A
    (identity F0) (identity G0) deep_fork_acyclic);
    [apply Nat.leb_le; vm_compute; reflexivity|exact deep_fork_rival|vm_compute; reflexivity..].
Defined.

Lemma final_certificate_is_evidence_witness :
  ∃ cert, @Finality.weighted_final_leader_certificate elements_order small (identity A2) 1
      small_bonds always_A = Some cert ∧
    ThresholdCertificate.verify_quorum_against cert
      (@WeightSnapshot.from_bonds elements_order small_bonds) = true ∧
    ThresholdCertificate.leader cert = identity A2.
Proof.
  eexists. split; [vm_compute; reflexivity|].
  refine (_ (@final_certificate_is_evidence elements_order small (identity A2) 1 small_bonds
    always_A _ small_acyclic ltac:(vm_compute; reflexivity))).
  intros (H1 & H2 & _). split; [exact H1|exact H2].
Defined.

Lemma latest_weighted_leader_is_newest_witness :
  @Finality.latest_weighted_final_leader elements_order small 1 small_bonds always_A =
    Some (identity A2) ∧
  ∃ last w, @latest_wave elements_order small 1 = Some last ∧ (w <= last)%N ∧
    @Finality.leader_block_for_wave elements_order small w 1 always_A = Some (identity A2).
Proof.
  assert (@Finality.latest_weighted_final_leader elements_order small 1 small_bonds always_A =
    Some (identity A2)) as H by (vm_compute; reflexivity).
  split; [exact H|].
  destruct (proj1 (@latest_weighted_leader_is_newest elements_order small 1 small_bonds always_A
    (identity A2) small_acyclic) H) as (last & w & H1 & H2 & (H3 & _) & _).
  exists last, w. split_and!; [exact H1|exact H2|exact H3].
Defined.

Lemma latest_leader_is_newest_witness :
  @Finality.latest_final_leader elements_order deep_fork 3 3 0 always_A = None ∧
  @Finality.latest_final_leader elements_order small 1 1 0 always_A = Some (identity A2) ∧
  ∃ last w, @latest_wave elements_order small 1 = Some last ∧ (w <= last)%N ∧
    @Finality.leader_block_for_wave elements_order small w 1 always_A = Some (identity A2).
Proof.
  split; [vm_compute; reflexivity|].
  assert (@Finality.latest_final_leader elements_order small 1 1 0 always_A =
    Some (identity A2)) as H by (vm_compute; reflexivity).
  split; [exact H|].
  destruct (proj1 (@latest_leader_is_newest elements_order small 1 1 0 always_A
    (identity A2) small_acyclic) H) as (last & w & H1 & H2 & (H3 & _) & _).
  exists last, w. split_and!; [exact H1|exact H2|exact H3].
Defined.

Lemma memo_is_transparent_witness :
  let weights := @WeightSnapshot.from_bonds elements_order small_bonds in
  let memo := (@Cordiality.weighted_ratifies_with_memo elements_order small A2 A0 weights
                 Cordiality.default_memo).2 in
  (@Cordiality.weighted_ratifies_with_memo elements_order small A2 B1 weights memo).1 =
  (@Cordiality.weighted_ratifies_with_memo elements_order small A2 B1 weights
     Cordiality.default_memo).1.
Proof.
  intros weights memo.
  exact (proj1 (@memo_is_transparent elements_order small weights memo A2 B1 ∅
    (reached_ratifies small weights Cordiality.default_memo A2 A0
      (@reached_default elements_order small weights)))).
Defined.

Lemma weighted_quorums_intersect_witness :
  let weights := @WeightSnapshot.from_bonds elements_order small_bonds in
  (all_stake weights < 3 * stake weights ({[ [x0a]; [x0b] ]} ∩ {[ [x0a]; [x0c] ]}))%N.
Proof.
  intros weights.
  apply (@weighted_quorums_intersect elements_order {[ [x0a]; [x0b] ]} {[ [x0a]; [x0c] ]}
    small_bonds); vm_compute; reflexivity.
Defined.

(** ** The total order

    The properties of [ordering.rs], each with an instance on a concrete
    blocklace. *)

Section ordering.
Context `{HO : HashOrder}.
Implicit Types bl : Blocklace.t.

(** C2: on a well-formed blocklace without a checkpoint, [weighted_tau] returns,
    its output lists each block once, no block before one it points at, lists
    only blocks that the latest weighted-final leader observes, and lists every
    block that this leader approves. *)
Theorem weighted_tau_is_sound bl wl bonds ls :
  well_formed bl → Blocklace.checkpoint bl = None →
  ∃ l, Ordering.weighted_tau bl wl bonds ls = Some (Ok l) ∧ NoDup l ∧ in_order bl l ∧
    match Finality.latest_weighted_final_leader bl wl bonds ls with
    | None => l = []
    | Some leader =>
        (∀ b, approved bl leader b → consensus_identity b ∈ l) ∧
        ∀ x, x ∈ l → ∃ b, rtc (points bl) leader b ∧ x = consensus_identity b
    end.
Proof.
  intros [_ Hu Hac] Hcp. unfold Ordering.weighted_tau.
  destruct (Finality.latest_weighted_final_leader bl wl bonds ls) as [leader|] eqn:E.
  - destruct (from_leader_sound bl (Blocklace.checkpoint_weighted_order_prefix bl)
      (λ leader, Ordering.weighted_previous_final_leader bl leader wl bonds ls) leader)
      as (l & Hl & H1 & H2 & H3); [done..| |by eapply latest_weighted_final_leader_stored|].
    { intros. by eapply weighted_previous_final_leader_points. }
    by exists l.
  - exists []. split_and!; [done|apply NoDup_nil_2|by intros ????? [=]|done].
Qed.

(** The same for [tau], which counts creators. *)
Theorem tau_is_sound bl wl n f ls :
  well_formed bl → Blocklace.checkpoint bl = None →
  ∃ l, Ordering.tau bl wl n f ls = Some (Ok l) ∧ NoDup l ∧ in_order bl l ∧
    match Finality.latest_final_leader bl wl n f ls with
    | None => l = []
    | Some leader =>
        (∀ b, approved bl leader b → consensus_identity b ∈ l) ∧
        ∀ x, x ∈ l → ∃ b, rtc (points bl) leader b ∧ x = consensus_identity b
    end.
Proof.
  intros [_ Hu Hac] Hcp. unfold Ordering.tau.
  destruct (Finality.latest_final_leader bl wl n f ls) as [leader|] eqn:E.
  - destruct (from_leader_sound bl (Blocklace.checkpoint_order_prefix bl)
      (λ leader, Ordering.previous_final_leader bl leader wl n f ls) leader)
      as (l & Hl & H1 & H2 & H3); [done..| |by eapply latest_final_leader_stored|].
    { intros. by eapply previous_final_leader_points. }
    by exists l.
  - exists []. split_and!; [done|apply NoDup_nil_2|by intros ????? [=]|done].
Qed.

(** C3: outputs only grow from leader to leader: the output at a leader extends
    the output at its previous weighted-final leader (checkpoint or not). *)
Theorem weighted_tau_extends bl wl bonds ls leader previous l :
  acyclic bl → leader ∈ Blocklace.dom bl → Blocklace.checkpoint bl ≠ Some leader →
  Ordering.weighted_previous_final_leader bl leader wl bonds ls = Some previous →
  Ordering.weighted_tau_at_leader bl leader wl bonds ls = Some (Ok l) →
  ∃ l', Ordering.weighted_tau_at_leader bl previous wl bonds ls = Some (Ok l') ∧
    l' `prefix_of` l.
Proof.
  intros Hac Hl Hcp Hp E. unfold Ordering.weighted_tau_at_leader in *.
  destruct (Ordering.weighted_tau_from_leader _ _ _ _) as [[st|e]|] eqn:Er; [|done..].
  injection E as <-.
  destruct (run_extends bl (Blocklace.checkpoint_weighted_order_prefix bl)
    (λ leader, Ordering.weighted_previous_final_leader bl leader wl bonds ls) Hac
    (λ leader prev Hl Hp, weighted_previous_final_leader_points bl leader wl bonds ls prev Hac Hl Hp)
    (Ordering.tau_fuel bl) leader previous Ordering.empty_state st) as (st1 & E1 & Hpre).
  - apply empty_state_ok.
  - unfold Ordering.emit_prefix. by rewrite decide_True by tauto.
  - done.
  - exact Er.
  - exists (Ordering.ordered st1). split; [|done].
    exact (f_equal (λ o, Ordering.output <$> o) E1).
Qed.

(** [xsort] is the greedy topological sort: with distinct consensus
    identities it returns a list exactly when that list orders all blocks so
    that each is the least (by consensus identity) of the blocks whose
    dependencies are placed. *)
Theorem xsort_is_greedy_topological S out :
  distinct_blocks S →
  Xsort.xsort S = Ok out ↔
  ∃ l, l ≡ₚ elements (dom S) ∧ out = map consensus_identity l ∧
    ∀ n j, l !! n = Some j →
      available S (take n l) j ∧
      ∀ j', available S (take n l) j' → ord_le (consensus_identity j) (consensus_identity j').
Proof.
  intros Hd. rewrite xsort_spec by done. split.
  - intros (l & [H1 H2] & ->). by exists l.
  - intros (l & H1 & -> & H2). by exists l.
Qed.

(** A greedy order ranks the blocks. *)
Lemma greedy_rank S l :
  greedy_topological S l → ∃ rank, ∀ j i, depends S j i → rank i < rank j.
Proof.
  intros [Hp Hg]. assert (NoDup l) as Hnd by (rewrite Hp; apply NoDup_elements).
  set (rank x := default 0 (fst <$> list_find (λ y, y = x) l)).
  assert (∀ n x, l !! n = Some x → rank x = n) as Hrank.
  { intros n x Hx. unfold rank. destruct (list_find _ l) as [[k y]|] eqn:E.
    - apply list_find_Some in E as (Hk & -> & _). cbn. by eapply NoDup_lookup.
    - apply list_find_None in E. rewrite Forall_forall in E. by destruct (E x); [by eapply list_elem_of_lookup_2|]. }
  exists rank. intros j i Hd. pose proof Hd as (c & _ & Hj%elem_of_dom_2 & _).
  assert (j ∈ l) as [n Hn]%list_elem_of_lookup by (by rewrite Hp; apply elem_of_elements).
  destruct (Hg n j Hn) as [(_ & _ & Hdeps) _]. apply Hdeps, list_elem_of_lookup in Hd as [k Hk].
  apply lookup_take_Some in Hk as [Hk Hlt]. by rewrite (Hrank k i Hk), (Hrank n j Hn).
Qed.

(** C11: on a set of blocks of which no two are signature variants of each other,
    the loop of [xsort] ends, the result does not depend on the iteration order
    of hash sets, and it is an order exactly when no block depends on itself
    through others, that is when the blocks have ranks that grow along
    references.  With two variants of a block it can fail on an acyclic set
    (see [variants_are_a_cycle]). *)
Theorem xsort_is_deterministic_and_total (HO' : HashOrder) S :
  distinct_blocks S →
  is_Some (@Xsort.xsort_opt HO S) ∧ @Xsort.xsort HO S = @Xsort.xsort HO' S ∧
  ((∃ out, @Xsort.xsort HO S = Ok out) ↔ ∃ rank, ∀ j i, depends S j i → rank i < rank j).
Proof.
  intros Hd. split; [by apply xsort_opt_total|]. split; [by apply xsort_order_independent|]. split.
  - intros [out (l & Hl & _)%xsort_spec]; [by eapply greedy_rank|done].
  - intros [rank Hr]. by apply (xsort_acyclic S Hd rank).
Qed.
End ordering.

(** The cached output differs from the output it is documented to be a cached
    variant of: on a four-block blocklace [weighted_tau] emits [C0] after [B1],
    with the fragment of the second leader, and [weighted_tau_with_cache] with an
    empty cache emits it before [B1]. *)
Example cached_tau_diverges :
  fst <$> @Ordering.weighted_tau_with_cache elements_order small 1 small_bonds 0 always_A
      Ordering.default_cache =
    Some (Ok (map consensus_identity [identity A0; identity C0; identity B1; identity A2])) ∧
  @Ordering.weighted_tau elements_order small 1 small_bonds always_A =
    Some (Ok (map consensus_identity [identity A0; identity B1; identity C0; identity A2])).
Proof. split; vm_compute; reflexivity. Qed.

(** Two signature variants of one block share a key of the map of ready blocks:
    one of them is never placed. *)
Example variants_are_a_cycle :
  let variant (sig : list byte) := mkIdentity (content_hash (identity A0)) (creator (identity A0)) sig in
  @Xsort.xsort elements_order {[ variant [x01] := content A0; variant [x02] := content A0 ]} =
    Err CycleDetected.
Proof. vm_compute. reflexivity. Qed.

(** ** Instances *)

Lemma weighted_tau_is_sound_witness :
  well_formed small ∧ ∃ l, @Ordering.weighted_tau elements_order small 1 small_bonds always_A =
    Some (Ok l) ∧ NoDup l ∧ in_order small l.
Proof.
  split; [exact small_well_formed|].
  destruct (@weighted_tau_is_sound elements_order small 1 small_bonds always_A
    small_well_formed eq_refl) as (l & H1 & H2 & H3 & _).
  exists l. split_and!; [exact H1|exact H2|exact H3].
Defined.

Lemma tau_is_sound_witness :
  well_formed small ∧ ∃ l, @Ordering.tau elements_order small 1 1 0 always_A = Some (Ok l) ∧
    NoDup l ∧ in_order small l.
Proof.
  split; [exact small_well_formed|].
  destruct (@tau_is_sound elements_order small 1 1 0 always_A small_well_formed eq_refl)
    as (l & H1 & H2 & H3 & _).
  exists l. split_and!; [exact H1|exact H2|exact H3].
Defined.

Lemma weighted_tau_extends_witness :
  ∃ l', @Ordering.weighted_tau_at_leader elements_order small (identity A0) 1 small_bonds always_A =
      Some (Ok l') ∧
    l' `prefix_of` map consensus_identity [identity A0; identity B1; identity C0; identity A2].
Proof.
  apply (@weighted_tau_extends elements_order small 1 small_bonds always_A (identity A2)
    (identity A0) _ small_acyclic (stored_in small (identity A2) eq_refl));
    [discriminate|vm_compute; reflexivity..].
Defined.

Definition small_set : BlockSet := Blocklace.blocks small.

Lemma small_set_distinct : distinct_blocks small_set.
Proof. exact small_unique. Qed.

Lemma xsort_is_greedy_topological_witness :
  ∃ l, l ≡ₚ elements (dom small_set) ∧
    map consensus_identity [identity C0; identity A0; identity B1; identity A2] =
      map consensus_identity l.
Proof.
  destruct (proj1 (@xsort_is_greedy_topological elements_order small_set
    (map consensus_identity [identity C0; identity A0; identity B1; identity A2])
    small_set_distinct) ltac:(vm_compute; reflexivity)) as (l & H1 & H2 & _).
  exists l. split; [exact H1|exact H2].
Defined.

Lemma depends_points bl j i :
  unique_variants bl → Blocklace.checkpoint bl = None → depends (Blocklace.blocks bl) j i →
  points bl j i.
Proof.
  intros Hu Hcp (c & p & Hj & Hp & Hi & Hs & Hor). apply elem_of_dom in Hi.
  exists c, p. split_and!; [done..| |by rewrite Hcp]. destruct Hor as [->|Hor].
  - by apply resolve_in_stored.
  - apply resolve_in_unsigned; [|done..]. intros a b Ha Hb.
    rewrite <-elem_of_lace_dom in Ha, Hb. by apply Hu.
Qed.

Lemma xsort_is_deterministic_and_total_witness :
  distinct_blocks small_set ∧
  is_Some (@Xsort.xsort_opt elements_order small_set) ∧
  @Xsort.xsort elements_order small_set = @Xsort.xsort reverse_order small_set ∧
  ((∃ out, @Xsort.xsort elements_order small_set = Ok out) ↔
   ∃ rank, ∀ j i, depends small_set j i → rank i < rank j) ∧
  ∃ rank, ∀ j i, depends small_set j i → rank i < rank j.
Proof.
  split; [exact small_set_distinct|].
  destruct (@xsort_is_deterministic_and_total elements_order reverse_order small_set small_set_distinct)
    as (H1 & H2 & H3).
  split_and!; [exact H1|exact H2|exact H3|]. exists (@ancestor_rank elements_order small).
  intros j i H. apply (@ancestor_rank_lt elements_order small j i small_acyclic).
  exact (depends_points small j i small_unique eq_refl H).
Defined.
