(* ===== verification/LaceTheorems.v ===== *)
(** * Theorems: the blocklace, its index and its rounds

    The properties of [blocklace.rs], [ancestor_index.rs], [round.rs] and
    [wave.rs], each with an instance on a concrete blocklace. *)

From S2P Require Import Prelude Types Lace LaceFacts Samples AncestorIndex IndexFacts Rounds.
From S2P Require Import RoundFacts Quorum Cordiality CordialityFacts.
From stdpp Require Import options.

(** A verifier with a table of signatures: each listed signature is valid for
    one content. *)
Definition table_verifier (table : list (list byte * (list byte * gset BlockIdentity))) :
    CryptoVerifier :=
  {| verifier_error := unit;
     verify_block c sig _ :=
       match snd <$> list_find (λ e, e.1 = sig) table with
       | Some e => if decide (e.2 = consensus_refs c) then Ok tt else Err tt
       | None => Err tt
       end |}.

Definition sample_table : list (list byte * (list byte * gset BlockIdentity)) :=
  [([x01], consensus_refs (content A0)); ([x03], consensus_refs (content B1))].

Definition with_inserted (bl : Blocklace.t) (b : Block) : Blocklace.t :=
  match @Blocklace.insert elements_order (table_verifier sample_table) bl b with
  | Ok bl' => bl' | Err _ => bl end.

Definition one_block : Blocklace.t := with_inserted (Blocklace.new 7) A0.
Definition two_blocks : Blocklace.t := with_inserted one_block B1.

Lemma with_inserted_ok bl b :
  is_ok (@Blocklace.insert elements_order (table_verifier sample_table) bl b) = true →
  @Blocklace.insert elements_order (table_verifier sample_table) bl b = Ok (with_inserted bl b).
Proof. unfold with_inserted. by destruct (Blocklace.insert _ _). Qed.

Section blocklace.
Context `{HO : HashOrder}.
Implicit Types bl : Blocklace.t.

(** C10: every blocklace reached from an empty one by successful insertions is
    closed, stores one signature variant per consensus identity and has no
    cycle, whatever the verifier accepts, if the inserted blocks of one identity
    (content hash, creator and signature) have one payload and the same
    references. *)
Theorem insertion_keeps_well_formed `{CryptoVerifier} bs bl :
  one_content bs → inserted bs bl → well_formed bl ∧ Blocklace.is_closed bl = true.
Proof.
  intros Hone Hi. pose proof (inserted_well_formed bs bl Hone Hi) as Hwf.
  split; [done|]. apply is_closed_spec, Hwf.
Qed.

(** The outcome of [Blocklace::insert] on every branch: the first failing
    check decides the error, and a success stores exactly the block, bumps the
    generation and keeps the checkpoint. *)
Theorem insert_outcome `{CryptoVerifier} bl b :
  let verdict := verify_block (content b) (signature (identity b)) (creator (identity b)) in
  let resolved := ∀ p, p ∈ predecessors (content b) → is_Some (Blocklace.resolve_identity bl p) in
  match Blocklace.insert bl b with
  | Err (Blocklace.InvalidSignature e) => verdict = Err e
  | Err (Blocklace.ClosureViolation m) =>
      verdict = Ok tt ∧ m ∈ predecessors (content b) ∧ Blocklace.resolve_identity bl m = None
  | Err (Blocklace.IdentityConflict k) =>
      verdict = Ok tt ∧ resolved ∧ identity b ∉ Blocklace.dom bl ∧
      k ∈ Blocklace.dom bl ∧ same_consensus_identity k (identity b)
  | Ok bl' =>
      verdict = Ok tt ∧ resolved ∧
      Blocklace.blocks bl' = <[identity b := content b]> (Blocklace.blocks bl) ∧
      Blocklace.generation bl' = wrapping_add64 (Blocklace.generation bl) 1 ∧
      Blocklace.checkpoint bl' = Blocklace.checkpoint bl ∧
      (∀ k, k ∈ Blocklace.dom bl' → same_consensus_identity k (identity b) →
         identity b ∈ Blocklace.dom bl ∨ k = identity b)
  end.
Proof.
  cbn zeta. pose proof (insert_Ok bl b) as Hok.
  destruct (Blocklace.insert bl b) as [bl'|[e|m|k]] eqn:E.
  - destruct (proj1 (Hok bl') eq_refl) as (Hv & Hres & (H1 & H2 & _ & H3 & _ & Hf)%commit_Ok).
    split_and!; try done. intros k Hk Hs. rewrite elem_of_lace_dom, H1 in Hk.
    destruct (decide (k = identity b)) as [->|Hne]; [by right|].
    rewrite lookup_insert_ne in Hk by done. apply elem_of_lace_dom in Hk.
    destruct Hf as [?|Hf]; [by left|]. exfalso. by apply (Hf k).
  - unfold Blocklace.insert in E.
    destruct (verify_block _ _ _) as [[]|e']; simpl in E; [|congruence].
    destruct (Blocklace.missing_predecessors bl b); [|done].
    by destruct (Blocklace.commit_validated _ _ _).
  - unfold Blocklace.insert in E.
    destruct (verify_block _ _ _) as [[]|e']; simpl in E; [|done]. split; [done|].
    destruct (Blocklace.missing_predecessors bl b) as [|m' l] eqn:Em;
      [by destruct (Blocklace.commit_validated _ _ _)|]. injection E as ->.
    assert (m ∈ Blocklace.missing_predecessors bl b) as Hm by (rewrite Em; by left).
    apply list_elem_of_filter in Hm as [? Hm]. by rewrite elem_of_hash_iter in Hm.
  - unfold Blocklace.insert in E.
    destruct (verify_block _ _ _) as [[]|e']; simpl in E; [|done]. split; [done|].
    destruct (Blocklace.missing_predecessors bl b) as [|m l] eqn:Em; [|done].
    split.
    { intros p Hp. destruct (Blocklace.resolve_identity bl p) eqn:Ep; [eauto|].
      assert (p ∈ Blocklace.missing_predecessors bl b) as Hm
        by (by apply list_elem_of_filter; rewrite elem_of_hash_iter).
      rewrite Em in Hm. by apply elem_of_nil in Hm. }
    unfold Blocklace.commit_validated in E.
    destruct (Blocklace.conflicting_identity_variant bl (identity b)) as [k'|] eqn:Ek; [|done].
    simpl in E. injection E as ->. by apply conflicting_Some in Ek.
Qed.

(** Committing a block never changes what an existing reference resolves
    to; a reference that did not resolve can only come to denote the new
    block. *)
Theorem references_are_stable bl id c bl' p :
  unique_variants bl → Blocklace.commit_validated bl id c = Ok bl' →
  match Blocklace.resolve_identity bl p with
  | Some r => Blocklace.resolve_identity bl' p = Some r
  | None => Blocklace.resolve_identity bl' p = None ∨ Blocklace.resolve_identity bl' p = Some id
  end.
Proof.
  intros Hu Hc. pose proof (commit_resolve bl id c bl' p Hu Hc) as Hr.
  destruct (Blocklace.resolve_identity bl p); [done|].
  destruct (Blocklace.resolve_identity bl' p) as [r|]; [right|by left]. by rewrite (Hr r).
Qed.

(** The two traversals terminate with exact results: [observe] returns the
    reflexive and [ancestors] of a stored block the strict closure of the
    pointed relation. *)
Theorem traversals_are_exact bl from r :
  (r ∈ Blocklace.observe bl from ↔
    ∃ f, Blocklace.resolve_identity bl from = Some f ∧ rtc (points bl) f r) ∧
  (from ∈ Blocklace.dom bl ∧ r ∈ dom (Blocklace.ancestors bl from) ↔ tc (points bl) from r).
Proof.
  split; [apply observe_spec|]. split.
  - intros [Hf Hr]. by apply elem_of_ancestors in Hr.
  - intros Ht. pose proof (tc_points_dom _ _ _ Ht) as [Hf _].
    split; [done|]. by apply elem_of_ancestors.
Qed.

(** [find_equivacators] returns exactly the creators of two incomparable
    blocks, those for which the chain axiom fails. *)
Theorem equivocators_are_exact bl p :
  (p ∈ Blocklace.find_equivacators bl ↔
    ∃ a b, a ∈ Blocklace.dom bl ∧ b ∈ Blocklace.dom bl ∧ creator a = p ∧ creator b = p ∧
      a ≠ b ∧ a ∉ Blocklace.observe bl b ∧ b ∉ Blocklace.observe bl a) ∧
  (Blocklace.satisfies_chain_axiom bl p = false ↔ p ∈ Blocklace.find_equivacators bl).
Proof.
  split.
  - rewrite elem_of_find_equivacators. split.
    + intros (a & b & Ha & Hb & Hpa & Hpb & Hne & Hinc). exists a, b.
      rewrite !elem_of_observe_stored by done.
      rewrite comparable_rtc in Hinc by done. split_and!; try done; tauto.
    + intros (a & b & Ha & Hb & Hpa & Hpb & Hne & H1 & H2). exists a, b.
      rewrite !elem_of_observe_stored in H1, H2 by done.
      rewrite comparable_rtc by done. split_and!; try done; tauto.
  - unfold Blocklace.find_equivacators. rewrite elem_of_filter. split; [|tauto].
    intros Hs. split; [done|]. apply not_true_iff_false in Hs.
    destruct (decide (p ∈ Blocklace.all_nodes bl)) as [|Hno]; [done|].
    exfalso. apply Hs, satisfies_chain_axiom_spec. intros a b Ha _ Hpa _ _. exfalso. apply Hno.
    unfold Blocklace.all_nodes. rewrite <-Hpa. by apply elem_of_map_2.
Qed.
End blocklace.

(** A run with a verifier that checks, and one of blocks that were checked
    before; a block is inserted twice. *)
Definition accept_all : CryptoVerifier :=
  {| verifier_error := unit; verify_block _ _ _ := Ok tt |}.
Fixpoint insert_all (bs : list Block) : option Blocklace.t :=
  match bs with
  | [] => Some (Blocklace.new 7)
  | b :: bs =>
    bl ← insert_all bs;
    match @Blocklace.insert elements_order accept_all bl b with Ok bl' => Some bl' | Err _ => None end
  end.
Lemma insert_all_inserted bs bl :
  insert_all bs = Some bl → @inserted elements_order accept_all bs bl.
Proof.
  revert bl. induction bs as [|b bs IH]; intros bl; [intros [= <-]; constructor|].
  cbn [insert_all]. intros (bl0 & H0%IH & H)%bind_Some.
  destruct (@Blocklace.insert elements_order accept_all bl0 b) as [x|e] eqn:E; [|done].
  injection H as <-. econstructor; [exact H0|exact E].
Qed.
Definition sample_run : list Block := [B1; A0; B1; A0].
Definition sample_end : Blocklace.t := default (Blocklace.new 7) (insert_all sample_run).

Lemma insertion_keeps_well_formed_witness :
  (Blocklace.dom two_blocks = {[ identity A0; identity B1 ]} ∧
   well_formed two_blocks ∧ @Blocklace.is_closed elements_order two_blocks = true) ∧
  Blocklace.dom sample_end = {[ identity A0; identity B1 ]} ∧
  well_formed sample_end ∧ @Blocklace.is_closed elements_order sample_end = true.
Proof.
  split; (split; [decided|]).
  - apply (@insertion_keeps_well_formed elements_order (table_verifier sample_table) [B1; A0]); [decided|].
    apply (@inserted_insert elements_order (table_verifier sample_table) [A0] one_block B1);
      [apply (@inserted_insert elements_order (table_verifier sample_table) [] (Blocklace.new 7) A0)
      |apply with_inserted_ok; by vm_compute].
    + apply (@inserted_new elements_order (table_verifier sample_table) 7).
    + apply with_inserted_ok. by vm_compute.
  - apply (@insertion_keeps_well_formed elements_order accept_all sample_run); [decided|].
    apply insert_all_inserted. vm_compute. reflexivity.
Defined.

Lemma references_are_stable_witness :
  Blocklace.resolve_identity small (consensus_identity (identity B1)) = Some (identity B1) ∧
  ∃ bl', @Blocklace.commit_validated elements_order small (identity F0) (content F0) = Ok bl' ∧
    Blocklace.resolve_identity bl' (consensus_identity (identity B1)) = Some (identity B1).
Proof.
  split; [vm_compute; reflexivity|]. eexists. split; [reflexivity|].
  refine (@references_are_stable elements_order small (identity F0) (content F0) _
    (consensus_identity (identity B1)) small_unique _).
  reflexivity.
Defined.

Section index.
Context `{HO : HashOrder}.
Implicit Types bl : Blocklace.t.

(** The ancestor index agrees with the traversal it replaces: every stored
    block has a position, and the bit of two positions is set exactly when the
    second block is in [observe] of the first. *)
Theorem index_equals_observe bl a b :
  acyclic bl → a ∈ Blocklace.dom bl → b ∈ Blocklace.dom bl →
  let index := AncestorIndex.build bl in
  ∃ i j, AncestorIndex.index_of index a = Some i ∧ AncestorIndex.index_of index b = Some j ∧
    Closure.observes (AncestorIndex.closure index) i j =
      bool_decide (b ∈ Blocklace.observe bl a).
Proof.
  intros Hac Ha Hb index.
  destruct (index_of_stored bl a Ha) as (i & Hi & Hi'), (index_of_stored bl b Hb) as (j & Hj & Hj').
  exists i, j. split_and!; [done..|]. apply eq_true_iff_eq.
  rewrite bool_decide_eq_true, elem_of_observe_stored by done. by apply index_observes.
Qed.

(** C12: approval is Definition 18: a block approves the targets it observes
    together with no equivocating sibling of them. *)
Theorem approval_is_definition_18 bl a t :
  acyclic bl →
  Approval.approves bl a t = true ↔
  ∃ a', Blocklace.resolve_identity bl a = Some a' ∧ t ∈ Blocklace.observe bl a' ∧
    ∀ r, r ∈ Blocklace.observe bl a' → creator r = creator t → r ≠ t →
      t ∈ Blocklace.observe bl r ∨ r ∈ Blocklace.observe bl t.
Proof.
  intros Hac. rewrite approves_uncached_eq, approves_uncached_spec by done.
  apply exist_proper; intros a'. unfold approved, rival.
  split; intros (Hr & Hat & Hno); (split; [done|]);
    pose proof (resolve_Some _ _ _ Hr) as [Ha _].
  - assert (t ∈ Blocklace.dom bl) as Ht by (by apply (rtc_points_dom bl a')).
    split; [by apply elem_of_observe_stored|].
    intros r Hr' Hc Hne. apply elem_of_observe_stored in Hr'; [|done].
    assert (r ∈ Blocklace.dom bl) by (by apply (rtc_points_dom bl a')).
    rewrite !elem_of_observe_stored by done.
    destruct (decide (t ∈ Blocklace.observe bl r)) as [Ho|Ho];
      [left; by apply elem_of_observe_stored|].
    destruct (decide (r ∈ Blocklace.observe bl t)) as [Ho'|Ho'];
      [right; by apply elem_of_observe_stored|].
    rewrite elem_of_observe_stored in Ho, Ho' by done.
    exfalso. by apply (Hno r Hr').
  - apply elem_of_observe_stored in Hat; [|done].
    assert (t ∈ Blocklace.dom bl) as Ht by (by apply (rtc_points_dom bl a')).
    split; [done|]. intros r Hr' (Hc & Hne & H1 & H2).
    assert (r ∈ Blocklace.dom bl) by (by apply (rtc_points_dom bl a')).
    destruct (Hno r) as [Ho|Ho]; [by apply elem_of_observe_stored|done|done|..];
      by apply elem_of_observe_stored in Ho.
Qed.

(** C13: the lazily cached index is always the index of the current blocklace:
    after any sequence of mutations and reads shorter than the range of the
    generation counter, a read returns a fresh build's value. *)
Theorem cached_index_is_current `{CryptoVerifier} n a s :
  (N.of_nat n <= u64_max)%N → nsteps IndexedLace.step n (IndexedLace.new a) s →
  (IndexedLace.ancestor_index s).1 = AncestorIndex.build (IndexedLace.lace s).
Proof.
  intros Hn [Hs _]%slot_steps; [|done]. unfold IndexedLace.ancestor_index.
  destruct (IndexedLace.slot s) as [index|] eqn:E; [|done]. case_decide; [|done].
  by apply Hs.
Qed.
End index.

Section rounds.
Context `{HO : HashOrder}.
Implicit Types bl : Blocklace.t.

(** The depth of a block is the length of the longest chain of pointers
    below it, which ends in an initial block. *)
Theorem depth_is_longest_path bl i d :
  Blocklace.checkpoint bl = None → closed bl → acyclic bl →
  (N.of_nat (size (Blocklace.blocks bl)) <= u64_max)%N → i ∈ Blocklace.dom bl →
  Round.depth bl i = Some d ↔
  (∃ j, nsteps (points bl) (N.to_nat d) i j ∧ initial bl j) ∧
  ∀ n j, nsteps (points bl) n i j → n ≤ N.to_nat d.
Proof.
  intros Hcp Hcl Hac Hsz Hi.
  assert (∀ d, Round.depth bl i = Some d ↔ is_depth bl i d) as Hd.
  { intros d'. rewrite depth_spec by done.
    rewrite (resolve_stored _ _ Hi). naive_solver. }
  rewrite Hd. split; [by intros; apply is_depth_longest|].
  intros [(j & Hj & _) Hmax]. destruct (depth_exists bl i Hcl Hac Hi) as [d' Hd'].
  destruct (is_depth_longest bl i d' Hcp Hac Hsz Hd') as [(j' & Hj' & _) Hmax'].
  apply Hmax in Hj'. apply Hmax' in Hj. by replace d with d' by lia.
Qed.

(** The memoised pass over all blocks computes the same depths as a fresh
    query per block, whatever order it visits them in. *)
Theorem all_depths_agree bl i d :
  acyclic bl →
  Round.compute_all_depths bl !! i = Some d ↔
  i ∈ Blocklace.dom bl ∧ Round.depth bl i = Some d.
Proof.
  intros Hac. rewrite compute_all_depths_spec, depth_spec by done. split.
  - intros Hd. pose proof (is_depth_dom _ _ _ Hd) as Hi. split; [done|].
    exists i. by rewrite (resolve_stored _ _ Hi).
  - intros [Hi (i' & Hr & Hd)]. rewrite (resolve_stored _ _ Hi) in Hr. by injection Hr as <-.
Qed.

(** The search for the latest cordial round returns the last round whose
    blocks are a supermajority of creators. *)
Theorem latest_cordial_round_spec bl n f r :
  acyclic bl →
  Round.latest_cordial_round bl n f = Some r ↔
  Quorum.is_supermajority (Round.blocks_at_depth bl r) n f = true ∧
  ∃ m, Round.max_depth bl = Some m ∧ (r <= m)%N ∧
    ∀ r', (r < r' <= m)%N → Quorum.is_supermajority (Round.blocks_at_depth bl r') n f = false.
Proof.
  intros Hac. unfold Round.latest_cordial_round.
  assert (∀ r, Round.is_round_cordial bl r n f =
    Quorum.is_supermajority (Round.blocks_at_depth bl r) n f) as Hq.
  { intros r'. unfold Round.is_round_cordial, Quorum.is_supermajority.
    apply bool_decide_ext. set (k := size _). pose proof (Nat.div_mod_eq (n + f) 2).
    pose proof (Nat.mod_upper_bound (n + f) 2). lia. }
  destruct (Round.max_depth bl) as [m|]; simpl; [|naive_solver].
  rewrite find_down. setoid_rewrite Hq. naive_solver.
Qed.
End rounds.

(** Waves partition the rounds: a round is in a wave exactly when it lies
    between the first and the last round of the wave, and [None] is returned
    exactly for a wavelength of zero or a round number beyond [u64]. *)
Theorem waves_partition_rounds wave w :
  (Wave.rounds_of_wave wave w = None ↔ w = 0%N ∨ (u64_max < wave * w + (w - 1))%N) ∧
  ∀ rounds round, Wave.rounds_of_wave wave w = Some rounds →
    round ∈ rounds ↔ Wave.round_is_in_wave round wave w = true.
Proof.
  unfold Wave.rounds_of_wave, Wave.round_is_in_wave, Wave.last_round_of_wave,
    Wave.first_round_of_wave, Wave.wave_of_round.
  destruct (decide (w = 0%N)) as [->|Hw]; [naive_solver|].
  destruct (checked_mul _ _ _) as [first|] eqn:E1; simpl.
  - apply checked_mul_Some in E1 as [-> E1].
    destruct (checked_add _ _ _) as [last|] eqn:E2; simpl.
    + apply checked_add_Some in E2 as [-> E2]. split; [split; [done|lia]|].
      intros rounds round [= <-]. rewrite elem_of_range_incl, bool_decide_eq_true.
      pose proof (N.div_mod round w Hw) as Hdm. rewrite (N.mul_comm w) in Hdm.
      pose proof (N.mod_upper_bound round w Hw) as Hmod. revert Hmod.
      generalize dependent (round mod w)%N. intros k Hdm Hmod.
      split.
      * intros ?. f_equal. symmetry. apply (N.div_unique _ _ _ (round - wave * w)); lia.
      * intros [= Hq]. rewrite Hq in Hdm. lia.
    + apply checked_add_None in E2. split; [|done]. split; [intros _; right; lia|done].
  - apply checked_mul_None in E1. split; [|done]. split; [intros _; right; lia|done].
Qed.

(** ** Instances *)

Lemma index_equals_observe_witness :
  bool_decide (identity A0 ∈ @Blocklace.observe elements_order small (identity A2)) = true ∧
  ∃ i j, Closure.observes (AncestorIndex.closure (@AncestorIndex.build elements_order small)) i j =
    bool_decide (identity A0 ∈ @Blocklace.observe elements_order small (identity A2)).
Proof.
  split; [by vm_compute|].
  destruct (@index_equals_observe elements_order small (identity A2) (identity A0) small_acyclic
    (stored_in small (identity A2) eq_refl) (stored_in small (identity A0) eq_refl))
    as (i & j & _ & _ & H).
  exists i, j. exact H.
Defined.

Lemma approval_is_definition_18_witness :
  @Approval.approves elements_order fork (identity B2) (identity F0) = true ∧
  ∃ a', Blocklace.resolve_identity fork (identity B2) = Some a' ∧
    identity F0 ∈ @Blocklace.observe elements_order fork a' ∧
    ∀ r, r ∈ @Blocklace.observe elements_order fork a' →
      creator r = creator (identity F0) → r ≠ identity F0 →
      identity F0 ∈ @Blocklace.observe elements_order fork r ∨
      r ∈ @Blocklace.observe elements_order fork (identity F0).
Proof.
  assert (@Approval.approves elements_order fork (identity B2) (identity F0) = true) as H
    by (vm_compute; reflexivity).
  split; [exact H|].
  exact (proj1 (@approval_is_definition_18 elements_order fork (identity B2) (identity F0)
    fork_acyclic) H).
Defined.

Definition index_run : IndexedLace.t :=
  (@IndexedLace.ancestor_index elements_order
    (IndexedLace.mk (Blocklace.set_checkpoint_state (Blocklace.new 7) (identity A0) 3 [] [])
      (IndexedLace.slot (@IndexedLace.ancestor_index elements_order (IndexedLace.new 7)).2))).2.

Lemma cached_index_is_current_witness :
  nsteps (@IndexedLace.step elements_order (table_verifier sample_table)) 3
    (IndexedLace.new 7) index_run ∧
  (@IndexedLace.ancestor_index elements_order index_run).1 =
    @AncestorIndex.build elements_order (IndexedLace.lace index_run).
Proof.
  assert (nsteps (@IndexedLace.step elements_order (table_verifier sample_table)) 3
    (IndexedLace.new 7) index_run) as H.
  { eapply nsteps_l; [apply IndexedLace.step_read|]. eapply nsteps_l; [apply IndexedLace.step_checkpoint|].
    apply nsteps_once, IndexedLace.step_read. }
  split; [exact H|].
  exact (@cached_index_is_current elements_order (table_verifier sample_table) 3 7 index_run
    ltac:(vm_compute; discriminate) H).
Defined.

Lemma depth_is_longest_path_witness :
  @Round.depth elements_order small (identity A2) = Some 2%N ∧
  (∃ j, nsteps (points small) 2 (identity A2) j ∧ initial small j) ∧
  ∀ n j, nsteps (points small) n (identity A2) j → n ≤ 2.
Proof.
  assert (@Round.depth elements_order small (identity A2) = Some 2%N) as H
    by (vm_compute; reflexivity).
  split; [exact H|].
  exact (proj1 (@depth_is_longest_path elements_order small (identity A2) 2 eq_refl small_closed
    small_acyclic ltac:(vm_compute; discriminate) (stored_in small (identity A2) eq_refl)) H).
Defined.

Lemma all_depths_agree_witness :
  @Round.compute_all_depths elements_order small !! identity B1 = Some 1%N ∧
  @Round.depth elements_order small (identity B1) = Some 1%N.
Proof.
  assert (@Round.compute_all_depths elements_order small !! identity B1 = Some 1%N) as H
    by (vm_compute; reflexivity).
  split; [exact H|].
  exact (proj2 (proj1 (@all_depths_agree elements_order small (identity B1) 1 small_acyclic) H)).
Defined.

Lemma latest_cordial_round_spec_witness :
  @Round.latest_cordial_round elements_order small 3 0 = Some 0%N ∧
  Quorum.is_supermajority (@Round.blocks_at_depth elements_order small 0) 3 0 = true.
Proof.
  assert (@Round.latest_cordial_round elements_order small 3 0 = Some 0%N) as H
    by (vm_compute; reflexivity).
  split; [exact H|].
  exact (proj1 (proj1 (@latest_cordial_round_spec elements_order small 3 0 0 small_acyclic) H)).
Defined.

Lemma waves_partition_rounds_witness :
  Wave.rounds_of_wave 2 4 = Some [8; 9; 10; 11]%N ∧
  (9%N ∈ [8; 9; 10; 11]%N ↔ Wave.round_is_in_wave 9 2 4 = true).
Proof.
  split; [vm_compute; reflexivity|].
  exact (proj2 (waves_partition_rounds 2 4) [8; 9; 10; 11]%N 9%N eq_refl).
Defined.
