(* ===== verification/Admission.v ===== *)
(** * Fork choice and block validation

    [consensus/fork_choice.rs]: the tips of the validators, the compatibility
    fork choice over them; [consensus/validation.rs]: the checks an incoming
    block goes through and the insertion behind them. *)

From S2P Require Import Prelude Types Lace Bytes Crypto Quorum Cordiality.
From stdpp Require Import options.

(** ** [fork_choice.rs] *)

Module ForkChoice.

Record t := mk {
  tips : list BlockIdentity;
  lca : BlockIdentity;
  scores : gmap BlockIdentity N
}.

Section fork_choice.
Context `{HO : HashOrder}.
Implicit Types bl : Blocklace.t.

(** The bonded validators that do not equivocate, with their tips. *)
Definition validator_tips bl (bonds : gmap NodeId N) : list (NodeId * Block) :=
  let equivocators := Blocklace.find_equivacators bl in
  omap (λ node, (λ tip, (node, tip)) <$> Blocklace.tip_of bl node)
    (filter (λ node, node ∉ equivocators) (hash_iter (dom bonds))).

Definition collect_validator_tips bl (bonds : gmap NodeId N) : gmap NodeId BlockIdentity :=
  let equivocators := Blocklace.find_equivacators bl in
  list_to_map (omap (λ node, (λ tip, (node, identity tip)) <$> Blocklace.tip_of bl node)
    (filter (λ node, node ∉ equivocators) (hash_iter (dom bonds)))).

Definition is_cordial (b : Block) (known_tips : gmap NodeId BlockIdentity) : bool :=
  forallb (λ tip_id,
      bool_decide (same_consensus_identity (identity b) tip_id) ||
      existsb (λ predecessor, bool_decide (same_consensus_identity predecessor tip_id))
        (hash_iter (predecessors (content b))))
    (map_iter known_tips).*2.

Definition ancestor_set bl (tip : BlockIdentity) : gset BlockIdentity :=
  dom (Blocklace.ancestors_inclusive bl tip).

Definition compute_lca bl (tips : list BlockIdentity) : option BlockIdentity :=
  match tips with
  | [] => None
  | [tip] => Some tip
  | first :: rest =>
    let common := foldl (λ common set, common ∩ set) (ancestor_set bl first)
      (map (ancestor_set bl) rest) in
    if decide (common = ∅) then None
    else
      snd <$> list_find (λ candidate,
        existsb (λ other, bool_decide (other ≠ candidate) &&
          Blocklace.precedes bl candidate other) (hash_iter common) = false) (hash_iter common)
  end.

(** The predecessors a walk pushes: none past the target, else those that
    still have the target behind them. *)
Definition walk_successors bl (target current : BlockIdentity) : list BlockIdentity :=
  if decide (current = target) then []
  else
    match Blocklace.content bl current with
    | None => []
    | Some c =>
      filter (λ resolved, Blocklace.preceedes_or_equals bl target resolved = true)
        (omap (Blocklace.resolve_identity bl) (hash_iter (predecessors c)))
    end.

(** One pop for the start and one per reference of a stored block. *)
Definition reference_count bl (i : BlockIdentity) : N :=
  match Blocklace.blocks bl !! i with Some c => N.of_nat (size (predecessors c)) | None => 0 end.
Definition reference_fuel bl : nat :=
  S (N.to_nat (set_weight (reference_count bl) (Blocklace.dom bl))).

Definition walk_to_lca bl (start target : BlockIdentity) : list BlockIdentity :=
  default [] (pop_worklist (Blocklace.resolve_identity bl) (walk_successors bl target)
    (reference_fuel bl) ∅ [start]).

(** The score map after one validator's walk; [+=] on [u64]. *)
Definition add_stake bl (bonds : gmap NodeId N) (lca : BlockIdentity)
    (scores : gmap BlockIdentity N) (validator : NodeId * Block) : gmap BlockIdentity N :=
  let stake := default 0%N (bonds !! validator.1) in
  if decide (stake = 0%N) then scores
  else
    foldl (λ scores block_id,
        <[block_id := wrapping_add64 (default 0%N (scores !! block_id)) stake]> scores)
      scores (walk_to_lca bl (identity validator.2) lca).

(** [retain(|id| seen.insert(id.clone()))]. *)
Fixpoint retain_unseen (seen : gset BlockIdentity) (l : list BlockIdentity) : list BlockIdentity :=
  match l with
  | [] => []
  | id :: l =>
    if decide (id ∈ seen) then retain_unseen seen l
    else id :: retain_unseen ({[id]} ∪ seen) l
  end.

(** Descending score, then ascending hash. *)
Definition rank (scores : gmap BlockIdentity N) (a b : BlockIdentity) : comparison :=
  then_with (cmp (default 0%N (scores !! b)) (default 0%N (scores !! a)))
    (cmp (content_hash a) (content_hash b)).

Definition fork_choice bl (bonds : gmap NodeId N) : option t :=
  let tips := validator_tips bl bonds in
  if decide (tips = []) then None
  else
    lca ← compute_lca bl (map (λ v, identity v.2) tips);
    let scores := foldl (add_stake bl bonds lca) ∅ tips in
    let ranked_tips := retain_unseen ∅ (map (λ v, identity v.2) tips) in
    Some (mk (sort_by (rank scores) ranked_tips) lca scores).

End fork_choice.
End ForkChoice.

(** ** [validation.rs] *)

Module Validation.

Inductive InvalidBlock :=
  | InvalidContentHash (expected actual : Hash32)
  | InvalidSignature
  | UnknownSender (creator : NodeId)
  | MissingPredecessors (missing : list BlockIdentity)
  | IdentityCollision (conflicting : BlockIdentity)
  | Equivocation (conflicting : BlockIdentity)
  | NotCordial (missing_tips : list BlockIdentity)
  | HiddenEquivocation (creator : NodeId) (round : N) (hidden : list BlockIdentity).
#[export] Instance InvalidBlock_eq_dec : EqDecision InvalidBlock.
Proof. solve_decision. Defined.

Inductive ValidationResult :=
  | Valid
  | Invalid (errors : list InvalidBlock).
#[export] Instance ValidationResult_eq_dec : EqDecision ValidationResult.
Proof. solve_decision. Defined.

Definition is_valid (self : ValidationResult) : bool :=
  match self with Valid => true | Invalid _ => false end.
Definition errors (self : ValidationResult) : list InvalidBlock :=
  match self with Valid => [] | Invalid errors => errors end.

Record ValidationConfig := mkConfig {
  check_content_hash : bool;
  check_signature : bool;
  check_sender : bool;
  check_closure : bool;
  check_chain_axiom : bool;
  check_cordial : bool
}.
Definition default : ValidationConfig := mkConfig true true true true true false.
Definition strict : ValidationConfig := mkConfig true true true true true true.

Section validation.
Context `{HO : HashOrder} `{Blake2b} `{Secp256k1}.
Implicit Types (b : Block) (bl : Blocklace.t) (config : ValidationConfig).

Definition content_hash_errors b config : list InvalidBlock :=
  if check_content_hash config then
    let expected := Crypto.block_hash (creator (identity b)) (content b) in
    if decide (content_hash (identity b) ≠ expected)
    then [InvalidContentHash expected (content_hash (identity b))] else []
  else [].

Definition signature_errors b config : list InvalidBlock :=
  if check_signature config then
    if decide (signature (identity b) ≠ [] ∧
               Crypto.verify (content_hash (identity b)) (creator (identity b))
                 (signature (identity b)) = false)
    then [InvalidSignature] else []
  else [].

Definition sender_errors b (bonds : gmap NodeId N) config : list InvalidBlock :=
  if decide (check_sender config = true ∧ bonds !! creator (identity b) = None)
  then [UnknownSender (creator (identity b))] else [].

Definition missing_predecessors b bl : list BlockIdentity :=
  filter (λ pred_id, Blocklace.content bl pred_id = None) (hash_iter (predecessors (content b))).

Definition closure_errors b bl config : list InvalidBlock :=
  let missing := missing_predecessors b bl in
  if decide (check_closure config = true ∧ missing ≠ []) then [MissingPredecessors missing] else [].

Definition collision_errors b bl : list InvalidBlock :=
  match Blocklace.conflicting_identity_variant bl (identity b) with
  | Some conflicting => [IdentityCollision conflicting]
  | None => []
  end.

(** Neither the new block nor the existing one observes the other. *)
Definition conflicts_with b bl (existing : Block) : bool :=
  let new_has_existing_in_ancestry :=
    existsb (Blocklace.preceedes_or_equals bl (identity existing))
      (hash_iter (predecessors (content b))) in
  let existing_has_new_in_ancestry := Blocklace.precedes bl (identity b) (identity existing) in
  negb new_has_existing_in_ancestry && negb existing_has_new_in_ancestry &&
  bool_decide (identity b ≠ identity existing).

(** The loop stops at the first conflict. *)
Definition chain_axiom_errors b bl config : list InvalidBlock :=
  if decide (check_chain_axiom config = true ∧ missing_predecessors b bl = []) then
    match list_find (λ existing, conflicts_with b bl existing = true)
            (Blocklace.blocks_by bl (creator (identity b))) with
    | Some (_, existing) => [Equivocation (identity existing)]
    | None => []
    end
  else [].

Definition cordial_errors b bl (bonds : gmap NodeId N) config : list InvalidBlock :=
  if decide (check_cordial config = true ∧ missing_predecessors b bl = []) then
    let known_tips := ForkChoice.collect_validator_tips bl bonds in
    let missing_tips := Cordiality.missing_known_tips b known_tips in
    (if decide (missing_tips ≠ []) then [NotCordial missing_tips] else []) ++
    map (λ h, HiddenEquivocation (Cordiality.hidden_creator h) (Cordiality.hidden_round h)
                (Cordiality.hidden h)) (Cordiality.hidden_equivocations bl b)
  else [].

Definition validation_errors b bl (bonds : gmap NodeId N) config : list InvalidBlock :=
  content_hash_errors b config ++ signature_errors b config ++ sender_errors b bonds config ++
  closure_errors b bl config ++ collision_errors b bl ++ chain_axiom_errors b bl config ++
  cordial_errors b bl bonds config.

Definition validate_block b bl (bonds : gmap NodeId N) config : ValidationResult :=
  let errors := validation_errors b bl bonds config in
  if decide (errors = []) then Valid else Invalid errors.

Definition validated_insert b bl (bonds : gmap NodeId N) config : ValidationResult * Blocklace.t :=
  let result := validate_block b bl bonds config in
  if is_valid result then
    match Blocklace.commit_validated bl (identity b) (content b) with
    | Ok bl' => (result, bl')
    | Err conflicting => (Invalid [IdentityCollision conflicting], bl)
    end
  else (result, bl).

End validation.
End Validation.
