(* ===== verification/AdmissionFacts.v ===== *)
(** * Properties of block admission

    What a block hash binds, the chain axiom as an invariant of validated
    insertion, and the tips of the validators. *)

From S2P Require Import Prelude Types Lace Bytes Crypto LaceFacts Quorum Cordiality.
From S2P Require Import CordialityFacts Admission.
From stdpp Require Import options.

(** ** What a block hash binds *)

Lemma le64_inj x y : (x <= u64_max)%N → (y <= u64_max)%N → Crypto.le64 x = Crypto.le64 y → x = y.
Proof.
  unfold Crypto.le64. intros Hx Hy E%(inj reverse).
  rewrite !N.mod_small in E by (unfold u64_max in *; lia). by apply be64_inj.
Qed.
Lemma length_le64 x : length (Crypto.le64 x) = 8.
Proof. unfold Crypto.le64. by rewrite length_reverse, length_be_bytes. Qed.
Lemma le64_app_inj x y r s :
  (x <= u64_max)%N → (y <= u64_max)%N →
  Crypto.le64 x ++ r = Crypto.le64 y ++ s → x = y ∧ r = s.
Proof.
  intros Hx Hy E. apply app_inj_length in E as [E ->]; [|by rewrite !length_le64].
  split; [by apply le64_inj|done].
Qed.
Lemma le_field_app_inj a b r s :
  fits a → fits b → Crypto.le_field a ++ r = Crypto.le_field b ++ s → a = b ∧ r = s.
Proof.
  unfold Crypto.le_field, fits. rewrite <-!(assoc_L (++)). intros Ha Hb E.
  apply le64_app_inj in E as [E1 E]; [|done..]. apply app_inj_length in E; [done|lia].
Qed.
Lemma references_inj ks ks' :
  length ks = length ks' → (∀ k, k ∈ ks ∨ k ∈ ks' → fits k.2) →
  mjoin (map Crypto.reference_bytes ks) = mjoin (map Crypto.reference_bytes ks') → ks = ks'.
Proof.
  revert ks'. induction ks as [|[h c] ks IH]; intros [|[h' c'] ks'] Hl Hf E; try done.
  simpl in E. unfold Crypto.reference_bytes in E. simpl in E. rewrite <-!(assoc_L (++)) in E.
  apply app_inj_length in E as [Eh E]; [|by rewrite !length_vec_to_list].
  apply vec_to_list_inj2 in Eh as ->.
  apply le_field_app_inj in E as [-> E]; [|apply (Hf (h', c)); set_solver|apply (Hf (h', c')); set_solver].
  f_equal. apply IH; [simpl in Hl; lia| |done]. set_solver.
Qed.

(** Lengths of slices fit in [usize]. *)
Record sized (p : NodeId) (c : BlockContent) : Prop := {
  sized_creator : fits p;
  sized_payload : fits (payload c);
  sized_count : (N.of_nat (size (predecessors c)) <= u64_max)%N;
  sized_references : ∀ r, r ∈ predecessors c → fits (creator r)
}.

Section hash_input.
Context `{HO : HashOrder}.

Lemma elem_of_reference_keys c k :
  k ∈ map Crypto.reference_key (sort_by_key Crypto.reference_key (hash_iter (predecessors c))) ↔
  ∃ r, r ∈ predecessors c ∧ k = Crypto.reference_key r.
Proof.
  rewrite list_elem_of_fmap. setoid_rewrite sort_by_key_perm. setoid_rewrite elem_of_hash_iter.
  naive_solver.
Qed.

(** The hashed bytes determine the creator, the payload and the references up
    to signatures. *)
Lemma block_hash_input_inj p c p' c' :
  sized p c → sized p' c' →
  Crypto.block_hash_input p c = Crypto.block_hash_input p' c' →
  p = p' ∧ consensus_refs c = consensus_refs c'.
Proof.
  intros [Hp Hl Hn Hr] [Hp' Hl' Hn' Hr']. unfold Crypto.block_hash_input.
  intros E%(inj (Crypto.BLOCK_HASH_DOMAIN ++.)).
  apply le_field_app_inj in E as [-> E]; [|done..]. apply le_field_app_inj in E as [Epl E]; [|done..].
  assert (∀ x, length (map Crypto.reference_key (sort_by_key Crypto.reference_key
    (hash_iter (predecessors x)))) = size (predecessors x)) as Hlen.
  { intros x. by rewrite length_map, sort_by_key_perm, length_hash_iter. }
  apply le64_app_inj in E as [Elen E]; [|by rewrite Hlen..].
  apply references_inj in E; [|lia|].
  2:{ intros k [(r & Hk & ->)%elem_of_reference_keys|(r & Hk & ->)%elem_of_reference_keys];
        [by apply Hr|by apply Hr']. }
  split; [done|]. unfold consensus_refs. rewrite Epl. f_equal. apply set_eq. intros i.
  rewrite !elem_of_map.
  assert (∀ x, (∃ r, i = consensus_identity r ∧ r ∈ predecessors x) ↔
    (Crypto.reference_key i ∈ map Crypto.reference_key (sort_by_key Crypto.reference_key
       (hash_iter (predecessors x)))) ∧ signature i = []) as Hset.
  { intros x. rewrite elem_of_reference_keys. unfold Crypto.reference_key, consensus_identity.
    split; [intros (r & -> & ?); simpl; eauto|].
    intros [(r & ? & [= E1 E2]) ?]. exists r. destruct i; simpl in *. by subst. }
  by rewrite !Hset, E.
Qed.

End hash_input.

(** ** The checks of [validate_block] *)

Section checks.
Context `{HO : HashOrder} `{Blake2b} `{Secp256k1}.
Implicit Types (b : Block) (bl : Blocklace.t).

Lemma validate_Valid b bl bonds config :
  Validation.validate_block b bl bonds config = Validation.Valid ↔
  Validation.validation_errors b bl bonds config = [].
Proof. unfold Validation.validate_block. case_decide; naive_solver. Qed.

Lemma content_hash_nil b config :
  Validation.content_hash_errors b config = [] ↔
  (Validation.check_content_hash config = true →
   content_hash (identity b) = Crypto.block_hash (creator (identity b)) (content b)).
Proof.
  unfold Validation.content_hash_errors. destruct (Validation.check_content_hash config); [|done].
  destruct (decide (content_hash (identity b) = Crypto.block_hash (creator (identity b)) (content b))).
  - rewrite decide_False by tauto. done.
  - rewrite decide_True by done. naive_solver.
Qed.
Lemma signature_nil b config :
  Validation.signature_errors b config = [] ↔
  (Validation.check_signature config = true → signature (identity b) ≠ [] →
   Crypto.verify (content_hash (identity b)) (creator (identity b)) (signature (identity b)) = true).
Proof.
  unfold Validation.signature_errors. destruct (Validation.check_signature config); [|done].
  case_decide as Hd; [destruct Hd as [H1 H2]; split; [done|]; intros Ht; specialize (Ht eq_refl H1); congruence|].
  split; [|done]. intros _ _ Hs. apply not_false_iff_true. tauto.
Qed.
Lemma sender_nil b bonds config :
  Validation.sender_errors b bonds config = [] ↔
  (Validation.check_sender config = true → is_Some (bonds !! creator (identity b))).
Proof.
  unfold Validation.sender_errors. rewrite <-not_eq_None_Some. case_decide; naive_solver.
Qed.
Lemma elem_of_missing b bl p :
  p ∈ Validation.missing_predecessors b bl ↔
  p ∈ predecessors (content b) ∧ Blocklace.resolve_identity bl p = None.
Proof.
  unfold Validation.missing_predecessors. rewrite list_elem_of_filter, elem_of_hash_iter.
  rewrite !eq_None_not_Some, content_is_Some. tauto.
Qed.
Lemma missing_nil b bl :
  Validation.missing_predecessors b bl = [] ↔
  ∀ p, p ∈ predecessors (content b) → is_Some (Blocklace.resolve_identity bl p).
Proof.
  split.
  - intros Hm p Hp. apply not_eq_None_Some. intros Hn.
    assert (p ∈ Validation.missing_predecessors b bl) as Hin by (by apply elem_of_missing).
    rewrite Hm in Hin. by apply elem_of_nil in Hin.
  - intros Hall. destruct (Validation.missing_predecessors b bl) as [|p l] eqn:E; [done|].
    assert (p ∈ Validation.missing_predecessors b bl) as [Hp Hn]%elem_of_missing
      by (rewrite E; by left).
    apply Hall in Hp as [? ?]. congruence.
Qed.
Lemma closure_nil b bl config :
  Validation.closure_errors b bl config = [] ↔
  (Validation.check_closure config = true →
   ∀ p, p ∈ predecessors (content b) → is_Some (Blocklace.resolve_identity bl p)).
Proof.
  rewrite <-missing_nil. unfold Validation.closure_errors.
  case_decide; [|destruct (Validation.missing_predecessors b bl)]; naive_solver.
Qed.
Lemma collision_nil b bl :
  Validation.collision_errors b bl = [] ↔
  Blocklace.conflicting_identity_variant bl (identity b) = None.
Proof.
  unfold Validation.collision_errors. by destruct (Blocklace.conflicting_identity_variant _ _).
Qed.
Lemma list_find_None_iff {A} (P : A → Prop) `{∀ x, Decision (P x)} l :
  list_find P l = None ↔ ∀ x, x ∈ l → ¬ P x.
Proof. rewrite list_find_None, Forall_forall. done. Qed.
Lemma chain_axiom_nil b bl config :
  Validation.chain_axiom_errors b bl config = [] ↔
  (Validation.check_chain_axiom config = true → Validation.missing_predecessors b bl = [] →
   ∀ e, e ∈ Blocklace.blocks_by bl (creator (identity b)) → Validation.conflicts_with b bl e = false).
Proof.
  unfold Validation.chain_axiom_errors. case_decide as Hd; [|tauto].
  destruct (list_find _ _) as [[n e]|] eqn:E.
  - split; [done|]. intros Hall. apply list_find_Some in E as (Hn & Hc & _).
    apply list_elem_of_lookup_2, (Hall (proj1 Hd) (proj2 Hd)) in Hn. congruence.
  - rewrite list_find_None_iff in E. split; [|done]. intros _ _ _ e He.
    apply not_true_iff_false. by apply E.
Qed.
Lemma cordial_nil b bl bonds config :
  Validation.cordial_errors b bl bonds config = [] ↔
  (Validation.check_cordial config = true → Validation.missing_predecessors b bl = [] →
   Cordiality.is_cordial_block bl b (ForkChoice.collect_validator_tips bl bonds) = true).
Proof.
  unfold Validation.cordial_errors, Cordiality.is_cordial_block. case_decide as Hd; [|tauto].
  cbn zeta. rewrite app_nil. guards.
  destruct (decide (Cordiality.missing_known_tips b (ForkChoice.collect_validator_tips bl bonds) = [])) as [E|E].
  - rewrite decide_False by tauto. destruct (Cordiality.hidden_equivocations bl b); naive_solver.
  - rewrite decide_True by done. naive_solver.
Qed.

(** Every enabled check passes. *)
Record passes b bl bonds config : Prop := {
  passes_hash : Validation.check_content_hash config = true →
    content_hash (identity b) = Crypto.block_hash (creator (identity b)) (content b);
  passes_signature : Validation.check_signature config = true → signature (identity b) ≠ [] →
    Crypto.verify (content_hash (identity b)) (creator (identity b)) (signature (identity b)) = true;
  passes_sender : Validation.check_sender config = true →
    is_Some ((bonds : gmap NodeId N) !! creator (identity b));
  passes_closure : Validation.check_closure config = true →
    ∀ p, p ∈ predecessors (content b) → is_Some (Blocklace.resolve_identity bl p);
  passes_collision : Blocklace.conflicting_identity_variant bl (identity b) = None;
  passes_chain : Validation.check_chain_axiom config = true →
    Validation.missing_predecessors b bl = [] →
    ∀ e, e ∈ Blocklace.blocks_by bl (creator (identity b)) → Validation.conflicts_with b bl e = false;
  passes_cordial : Validation.check_cordial config = true →
    Validation.missing_predecessors b bl = [] →
    Cordiality.is_cordial_block bl b (ForkChoice.collect_validator_tips bl bonds) = true
}.

Lemma validate_passes b bl bonds config :
  Validation.validate_block b bl bonds config = Validation.Valid ↔ passes b bl bonds config.
Proof.
  rewrite validate_Valid. unfold Validation.validation_errors. rewrite !app_nil.
  rewrite content_hash_nil, signature_nil, sender_nil, closure_nil, collision_nil,
    chain_axiom_nil, cordial_nil.
  split; [intros (?&?&?&?&?&?&?); by split|intros []; tauto].
Qed.

(** What each error says of the block. *)
Definition faulty b bl (bonds : gmap NodeId N) (e : Validation.InvalidBlock) : Prop :=
  match e with
  | Validation.InvalidContentHash expected actual =>
      actual = content_hash (identity b) ∧ actual ≠ expected ∧
      expected = Crypto.block_hash (creator (identity b)) (content b)
  | Validation.InvalidSignature =>
      Crypto.verify (content_hash (identity b)) (creator (identity b)) (signature (identity b)) = false
  | Validation.UnknownSender p => p = creator (identity b) ∧ bonds !! p = None
  | Validation.MissingPredecessors missing =>
      missing ≠ [] ∧ ∀ p, p ∈ missing ↔
        p ∈ predecessors (content b) ∧ Blocklace.resolve_identity bl p = None
  | Validation.IdentityCollision k =>
      identity b ∉ Blocklace.dom bl ∧ k ∈ Blocklace.dom bl ∧ same_consensus_identity k (identity b)
  | Validation.Equivocation k =>
      k ∈ Blocklace.dom bl ∧ creator k = creator (identity b) ∧ k ≠ identity b ∧
      (∀ p r, p ∈ predecessors (content b) → Blocklace.resolve_identity bl p = Some r →
         ¬ rtc (points bl) r k) ∧
      (identity b ∈ Blocklace.dom bl → ¬ tc (points bl) k (identity b))
  | Validation.NotCordial missing =>
      missing ≠ [] ∧
      missing = Cordiality.missing_known_tips b (ForkChoice.collect_validator_tips bl bonds)
  | Validation.HiddenEquivocation p r hidden =>
      Cordiality.mkHidden p r hidden ∈ Cordiality.hidden_equivocations bl b
  end.

Lemma conflicts_incomparable b bl e :
  e ∈ Blocklace.blocks_by bl (creator (identity b)) → Validation.conflicts_with b bl e = true →
  faulty b bl ∅ (Validation.Equivocation (identity e)).
Proof.
  intros [He Hcr]%elem_of_blocks_by. apply elem_of_dom_2 in He as Hd. fold (Blocklace.dom bl) in Hd.
  unfold Validation.conflicts_with. guards. intros [[Hno Hpre] Hne]. simpl. split_and!; [done..| |].
  - intros p r Hp Hr Hre. specialize (Hno p). rewrite elem_of_hash_iter in Hno. specialize (Hno Hp).
    unfold Blocklace.preceedes_or_equals in Hno.
    rewrite (resolve_stored bl (identity e)), Hr in Hno by done. revert Hno. guards.
    intros [Hn Hpr]. apply rtc_tc in Hre as [->|Ht]; [done|]. apply resolve_Some in Hr as (Hr & _).
    apply not_true_iff_false in Hpr. by apply Hpr, precedes_stored.
  - intros Hb Ht. apply not_true_iff_false in Hpre. by apply Hpre, precedes_stored.
Qed.

Lemma chain_axiom_faulty b bl bonds config e :
  e ∈ Validation.chain_axiom_errors b bl config → faulty b bl bonds e.
Proof.
  unfold Validation.chain_axiom_errors. case_decide; [|by intros ?%elem_of_nil].
  destruct (list_find _ _) as [[n k]|] eqn:E; [|by intros ?%elem_of_nil].
  intros ->%list_elem_of_singleton. apply list_find_Some in E as (Hk & Hc & _).
  by apply (conflicts_incomparable b bl k), Hc; eapply list_elem_of_lookup_2.
Qed.
Lemma cordial_faulty b bl bonds config e :
  e ∈ Validation.cordial_errors b bl bonds config → faulty b bl bonds e.
Proof.
  unfold Validation.cordial_errors. case_decide; [|by intros ?%elem_of_nil]. cbn zeta.
  rewrite elem_of_app. intros [He|([] & -> & Hh)%list_elem_of_fmap]; [|done].
  case_decide; [|by apply elem_of_nil in He]. by apply list_elem_of_singleton in He as ->.
Qed.
Lemma errors_faulty b bl bonds config e :
  e ∈ Validation.validation_errors b bl bonds config → faulty b bl bonds e.
Proof.
  unfold Validation.validation_errors. rewrite !elem_of_app.
  intros [He|[He|[He|[He|[He|[He|He]]]]]];
    [| | | | |by eapply chain_axiom_faulty|by eapply cordial_faulty]; revert He.
  - unfold Validation.content_hash_errors. destruct (Validation.check_content_hash config);
      [|by intros ?%elem_of_nil]. cbn zeta.
    case_decide; [by intros ->%list_elem_of_singleton|by intros ?%elem_of_nil].
  - unfold Validation.signature_errors. destruct (Validation.check_signature config);
      [|by intros ?%elem_of_nil].
    case_decide; [intros ->%list_elem_of_singleton; simpl; tauto|by intros ?%elem_of_nil].
  - unfold Validation.sender_errors.
    case_decide; [intros ->%list_elem_of_singleton; simpl; tauto|by intros ?%elem_of_nil].
  - unfold Validation.closure_errors. cbn zeta. case_decide as Hm; [|by intros ?%elem_of_nil].
    intros ->%list_elem_of_singleton. split; [tauto|]. intros p. apply elem_of_missing.
  - unfold Validation.collision_errors.
    destruct (Blocklace.conflicting_identity_variant _ _) as [k|] eqn:E; [|by intros ?%elem_of_nil].
    intros ->%list_elem_of_singleton. by apply conflicting_Some in E.
Qed.

(** A valid block is committed. *)
Lemma validated_insert_Valid b bl bonds config bl' :
  Validation.validated_insert b bl bonds config = (Validation.Valid, bl') ↔
  Validation.validate_block b bl bonds config = Validation.Valid ∧
  Blocklace.commit_validated bl (identity b) (content b) = Ok bl'.
Proof.
  unfold Validation.validated_insert.
  destruct (Validation.validate_block b bl bonds config) eqn:E; simpl; [|naive_solver].
  destruct (Blocklace.commit_validated _ _ _); naive_solver.
Qed.
Lemma validated_insert_Invalid b bl bonds config errors bl' :
  Validation.validated_insert b bl bonds config = (Validation.Invalid errors, bl') → bl' = bl.
Proof.
  unfold Validation.validated_insert. destruct (Validation.validate_block b bl bonds config); simpl;
    [destruct (Blocklace.commit_validated _ _ _)|]; congruence.
Qed.
Lemma valid_commits b bl bonds config :
  Validation.validate_block b bl bonds config = Validation.Valid →
  ∃ bl', Blocklace.commit_validated bl (identity b) (content b) = Ok bl'.
Proof.
  intros Hp%validate_passes. unfold Blocklace.commit_validated.
  rewrite (passes_collision _ _ _ _ Hp). by eexists.
Qed.

End checks.

(** ** The chain axiom *)

(** Any two blocks of one creator are comparable. *)
Definition chained (bl : Blocklace.t) : Prop :=
  ∀ a b, a ∈ Blocklace.dom bl → b ∈ Blocklace.dom bl → creator a = creator b → a ≠ b →
    comparable bl a b.

(** Every stored block is stored under its own hash. *)
Definition hashed `{HashOrder} `{Blake2b} (bl : Blocklace.t) : Prop :=
  ∀ i c, Blocklace.blocks bl !! i = Some c → content_hash i = Crypto.block_hash (creator i) c.

Section chains.
Context `{HO : HashOrder} `{Blake2b} `{Secp256k1}.
Implicit Types bl : Blocklace.t.

Lemma stored_dom bl i c : Blocklace.blocks bl !! i = Some c → i ∈ Blocklace.dom bl.
Proof. intros Hi. apply elem_of_lace_dom. by eexists. Qed.

Lemma chained_no_equivocators bl : chained bl ↔ Blocklace.find_equivacators bl = ∅.
Proof.
  rewrite set_eq. setoid_rewrite elem_of_find_equivacators. split.
  - intros Hc p. split; [|done]. intros (a & b & Ha & Hb & Hpa & Hpb & Hne & Hnc). exfalso.
    apply Hnc, Hc; congruence.
  - intros Hall a b Ha Hb Hp Hne. destruct (decide (Blocklace.precedes bl b a = true ∨
      Blocklace.precedes bl a b = true)) as [Hd|Hd].
    + destruct Hd as [Hd|Hd]; [left|right]; by apply precedes_stored in Hd.
    + exfalso. apply (not_elem_of_empty (C := gset NodeId) (creator a)), Hall.
      exists a, b. split_and!; [done..|]. intros [Hab|Hab]; apply Hd; [left|right];
        by apply precedes_stored.
Qed.

(** A new block sees every edge and comparison that was there. *)
Lemma commit_keeps_points bl id c bl' a b :
  unique_variants bl → id ∉ Blocklace.dom bl →
  Blocklace.commit_validated bl id c = Ok bl' → points bl a b → points bl' a b.
Proof.
  intros Hu Hid Hc (ca & p & Ha & Hp & Hr & Hcp).
  pose proof (commit_resolve bl id c bl' p Hu Hc) as Hres. rewrite Hr in Hres.
  apply commit_Ok in Hc as (Hb & Hcheck & _). exists ca, p. rewrite Hb, Hcheck.
  split_and!; [|done..]. rewrite lookup_insert_ne; [done|]. intros ->. apply Hid.
  by eapply stored_dom.
Qed.
Lemma tc_mono {A} (R S : relation A) x y : (∀ a b, R a b → S a b) → tc R x y → tc S x y.
Proof. intros HRS. induction 1; [apply tc_once|eapply tc_l]; eauto. Qed.

(** The references of the block that is replaced are the references of the
    block that replaces it. *)
Lemma recommit_keeps_points bl id c0 c bl' a b :
  well_formed bl → Blocklace.blocks bl !! id = Some c0 → consensus_refs c0 = consensus_refs c →
  (∀ p, p ∈ predecessors c → is_Some (Blocklace.resolve_identity bl p)) →
  Blocklace.commit_validated bl id c = Ok bl' → points bl a b → points bl' a b.
Proof.
  intros [_ Hu _] Hid Href Hres Hc (ca & p & Ha & Hp & Hr & Hcp).
  assert (Blocklace.dom bl' = Blocklace.dom bl) as Hdom.
  { eapply commit_known_dom, Hc. by eapply stored_dom. }
  apply commit_Ok in Hc as (Hb & Hcheck & _).
  destruct (decide (a = id)) as [->|Hne].
  2:{ exists ca, p. rewrite Hb, Hcheck, lookup_insert_ne by done.
      rewrite (resolve_dom_eq bl' bl) by done. done. }
  assert (ca = c0) as -> by congruence. injection Href as _ Hset.
  assert (consensus_identity p ∈ (set_map consensus_identity (predecessors c) : gset BlockIdentity))
    as Hp' by (rewrite <-Hset; by apply elem_of_map_2).
  apply elem_of_map in Hp' as (q & Hq & Hqc).
  exists c, q. rewrite Hb, Hcheck, lookup_insert_eq. split_and!; [done..| |done].
  rewrite (resolve_dom_eq bl' bl) by done. destruct (Hres q Hqc) as [r Hrq]. rewrite Hrq. f_equal.
  apply resolve_Some in Hr as (Hbd & Hbp & _), Hrq as (Hrd & Hrp & _). apply Hu; [done..|].
  rewrite Hrp, Hbp. symmetry. by apply same_consensus_identity_alt.
Qed.

(** A block that passes the chain check observes every other block of its
    creator. *)
Lemma no_conflict_observes bl (b : Block) c bl' e :
  well_formed bl → identity b ∉ Blocklace.dom bl →
  Blocklace.commit_validated bl (identity b) (content b) = Ok bl' →
  Blocklace.checkpoint bl ≠ Some (identity b) →
  Blocklace.blocks bl !! e = Some c → creator e = creator (identity b) →
  Validation.conflicts_with b bl (mkBlock e c) = false → tc (points bl') (identity b) e.
Proof.
  intros [Hcl Hu Hac] Hid Hc Hcp He Hcr. unfold Validation.conflicts_with. simpl.
  assert (identity b ≠ e) as Hne.
  { intros <-. by eapply Hid, stored_dom. }
  assert (Blocklace.resolve_identity bl (identity b) = None) as Hnone.
  { apply eq_None_not_Some. intros [r Hr]. apply resolve_Some in Hr as (Hrd & Hs & _).
    apply commit_Ok in Hc as (_ & _ & _ & _ & _ & [?|Hf]); [done|]. by apply (Hf r). }
  guards. intros [[Hobs|Hpre]|?]; [|exfalso|naive_solver].
  - destruct Hobs as (p & Hp & Hpe). rewrite elem_of_hash_iter in Hp.
    unfold Blocklace.preceedes_or_equals in Hpe. rewrite (resolve_stored bl e) in Hpe
      by (by eapply stored_dom).
    destruct (Blocklace.resolve_identity bl p) as [r|] eqn:Er; [|done].
    pose proof (commit_resolve bl _ _ bl' p Hu Hc) as Hr'. rewrite Er in Hr'.
    apply resolve_Some in Er as Hr. destruct Hr as (Hrd & _).
    assert (points bl' (identity b) r) as Hfirst.
    { exists (content b), p. apply commit_Ok in Hc as (Hb & Hch & _).
      rewrite Hb, lookup_insert_eq, Hch. done. }
    apply orb_true_iff in Hpe as [<-%bool_decide_eq_true|Hpe]; [by apply tc_once|].
    assert (e ∈ Blocklace.dom bl) as Hed by (by eapply stored_dom).
    apply tc_l with r; [done|].
    apply (tc_mono (points bl)); [intros; by eapply commit_keeps_points|].
    by apply precedes_stored in Hpe.
  - unfold Blocklace.precedes in Hpre. by rewrite Hnone in Hpre.
Qed.

End chains.

(** ** Runs of validated insertion *)

(** The blocks admitted one after the other, newest first, and the blocklace
    they leave; the bonds may change from block to block. *)
Inductive admitted `{HashOrder} `{Blake2b} `{Secp256k1} (config : Validation.ValidationConfig) :
    list Block → Blocklace.t → Prop :=
  | admitted_new address : admitted config [] (Blocklace.new address)
  | admitted_insert bs bl b bonds bl' :
      admitted config bs bl →
      Validation.validated_insert b bl bonds config = (Validation.Valid, bl') →
      admitted config (b :: bs) bl'.

(** No two of the blocks collide: equal block hashes come from equal bytes.
    Slices have lengths that fit in [usize]. *)
Definition collision_free `{HashOrder} `{Blake2b} (bs : list Block) : Prop :=
  (∀ b, b ∈ bs → sized (creator (identity b)) (content b)) ∧
  ∀ b b', b ∈ bs → b' ∈ bs →
    Crypto.block_hash (creator (identity b)) (content b) =
      Crypto.block_hash (creator (identity b')) (content b') →
    Crypto.block_hash_input (creator (identity b)) (content b) =
      Crypto.block_hash_input (creator (identity b')) (content b').

(** The checks that the invariant rests on. *)
Definition checking (config : Validation.ValidationConfig) : Prop :=
  Validation.check_content_hash config = true ∧ Validation.check_closure config = true ∧
  Validation.check_chain_axiom config = true.

Record admission_ok `{HashOrder} `{Blake2b} (bs : list Block) (bl : Blocklace.t) : Prop := {
  ok_well_formed : well_formed bl;
  ok_checkpoint : Blocklace.checkpoint bl = None;
  ok_chained : chained bl;
  ok_hashed : hashed bl;
  ok_stored : ∀ i c, Blocklace.blocks bl !! i = Some c → mkBlock i c ∈ bs
}.

Section runs.
Context `{HO : HashOrder} `{Blake2b} `{Secp256k1}.
Implicit Types bl : Blocklace.t.

Lemma collision_free_refs bs (b b' : Block) :
  collision_free bs → b ∈ bs → b' ∈ bs → identity b = identity b' →
  content_hash (identity b) = Crypto.block_hash (creator (identity b)) (content b) →
  content_hash (identity b') = Crypto.block_hash (creator (identity b')) (content b') →
  consensus_refs (content b) = consensus_refs (content b').
Proof.
  intros [Hs Hc] Hb Hb' Hid E E'. eapply block_hash_input_inj; [by apply Hs|by apply Hs|].
  apply Hc; [done..|]. congruence.
Qed.

Lemma chained_fresh bl (b : Block) bl' bonds config :
  checking config → well_formed bl → Blocklace.checkpoint bl = None → chained bl →
  identity b ∉ Blocklace.dom bl →
  passes b bl bonds config →
  Blocklace.commit_validated bl (identity b) (content b) = Ok bl' → chained bl'.
Proof.
  intros (_ & Hcl & Hch) Hwf Hcp Hchain Hid Hv Hc.
  pose proof (proj2 (missing_nil b bl) (passes_closure _ _ _ _ Hv Hcl)) as Hmiss.
  pose proof (passes_chain _ _ _ _ Hv Hch Hmiss) as Hfree. pose proof Hc as (Hb & _)%commit_Ok.
  assert (∀ e, e ∈ Blocklace.dom bl → creator e = creator (identity b) →
    tc (points bl') (identity b) e) as Hobs.
  { intros e [c He]%elem_of_lace_dom Hcr.
    eapply no_conflict_observes; [done..|by rewrite Hcp|exact He|done|].
    apply Hfree. by apply elem_of_blocks_by. }
  assert (∀ e, e ∈ Blocklace.dom bl' → e = identity b ∨ e ∈ Blocklace.dom bl) as Hdom.
  { unfold Blocklace.dom. rewrite Hb, dom_insert_L. set_solver. }
  intros i j [->|Hi]%Hdom [->|Hj]%Hdom Hcr Hne; [done|..].
  - left. by apply Hobs.
  - right. by apply Hobs.
  - destruct (Hchain i j Hi Hj Hcr Hne) as [Ht|Ht]; [left|right]; revert Ht;
      apply tc_mono; intros; eapply commit_keeps_points; eauto using wf_unique.
Qed.

Lemma chained_known bl id c0 c bl' :
  well_formed bl → chained bl → Blocklace.blocks bl !! id = Some c0 →
  consensus_refs c0 = consensus_refs c →
  (∀ p, p ∈ predecessors c → is_Some (Blocklace.resolve_identity bl p)) →
  Blocklace.commit_validated bl id c = Ok bl' → chained bl'.
Proof.
  intros Hwf Hchain Hid Hrefs Hm Hc.
  assert (Blocklace.dom bl' = Blocklace.dom bl) as Hdom.
  { eapply commit_known_dom, Hc. by eapply stored_dom. }
  intros i j. rewrite Hdom. intros Hi Hj Hcr Hne.
  destruct (Hchain i j Hi Hj Hcr Hne) as [Ht|Ht]; [left|right]; revert Ht;
    apply tc_mono; intros; by eapply recommit_keeps_points.
Qed.

Lemma admission_step config bs bl b bonds bl' :
  checking config → collision_free (b :: bs) → admission_ok bs bl →
  Validation.validated_insert b bl bonds config = (Validation.Valid, bl') →
  admission_ok (b :: bs) bl'.
Proof.
  intros Hcfg Hcf [Hwf Hcp Hchain Hh Hst] [Hv%validate_passes Hc]%validated_insert_Valid.
  pose proof Hcfg as (Hc1 & Hc2 & _). pose proof (passes_hash _ _ _ _ Hv Hc1) as Hhash.
  pose proof (passes_closure _ _ _ _ Hv Hc2) as Hm. pose proof Hc as (Hb & Hck & _)%commit_Ok.
  assert (∀ c0, Blocklace.blocks bl !! identity b = Some c0 →
    consensus_refs c0 = consensus_refs (content b)) as Hrefs.
  { intros c0 Hc0. apply (collision_free_refs (b :: bs) (mkBlock (identity b) c0) b);
      [done|right; by apply Hst|by left|done|by apply Hh|done]. }
  split.
  - by eapply commit_well_formed.
  - congruence.
  - destruct (decide (identity b ∈ Blocklace.dom bl)) as [[c0 Hc0]%elem_of_lace_dom|Hid];
      [|by eapply chained_fresh].
    eapply chained_known; [done..|exact Hc0|by apply Hrefs|done|exact Hc].
  - intros i c. rewrite Hb. destruct (decide (i = identity b)) as [->|Hne].
    + rewrite lookup_insert_eq. by intros [= <-].
    + rewrite lookup_insert_ne by done. apply Hh.
  - intros i c. rewrite Hb. destruct (decide (i = identity b)) as [->|Hne].
    + rewrite lookup_insert_eq. intros [= <-]. destruct b. by left.
    + rewrite lookup_insert_ne by done. intros ?. right. by apply Hst.
Qed.

Lemma admission_new address : admission_ok [] (Blocklace.new address).
Proof.
  assert (∀ i c, Blocklace.blocks (Blocklace.new address) !! i = Some c → False) as Hno
    by (intros i c; simpl; by rewrite lookup_empty).
  split; [split|done|..].
  - by intros ??? ?%Hno.
  - by intros i j [c ?%Hno]%elem_of_lace_dom.
  - by intros i [[c ?%Hno]%elem_of_lace_dom _]%tc_points_dom.
  - by intros i j [c ?%Hno]%elem_of_lace_dom.
  - by intros i c ?%Hno.
  - by intros i c ?%Hno.
Qed.

Lemma admission_invariant config bs bl :
  checking config → collision_free bs → admitted config bs bl → admission_ok bs bl.
Proof.
  intros Hcfg Hcf Hadm. induction Hadm as [address|bs bl b bonds bl' _ IH Hv].
  - apply admission_new.
  - eapply admission_step; [done..| |exact Hv]. apply IH. destruct Hcf as [H1 H2]. split; set_solver.
Qed.

End runs.

(** ** Tips and the fork choice *)

(** ** The tip of a creator *)

(** [t] observes every block of its creator. *)
Definition is_tip (bl : Blocklace.t) (p : NodeId) (t : BlockIdentity) : Prop :=
  t ∈ Blocklace.dom bl ∧ creator t = p ∧
  ∀ e, e ∈ Blocklace.dom bl → creator e = p → rtc (points bl) t e.

Section tips.
Context `{HO : HashOrder}.
Implicit Types (bl : Blocklace.t) (bonds : gmap NodeId N).

Lemma not_equivocator bl p a b :
  p ∉ Blocklace.find_equivacators bl → a ∈ Blocklace.dom bl → b ∈ Blocklace.dom bl →
  creator a = p → creator b = p → rtc (points bl) a b ∨ rtc (points bl) b a.
Proof.
  intros Hp Ha Hb Hca Hcb. destruct (decide (a = b)) as [->|Hne]; [by left|].
  apply comparable_rtc; [done|]. unfold comparable.
  rewrite <-(precedes_stored bl b a), <-(precedes_stored bl a b) by done.
  apply dec_stable. intros Hn. apply Hp, elem_of_find_equivacators. exists a, b.
  split_and!; try done. unfold comparable.
  by rewrite <-(precedes_stored bl b a), <-(precedes_stored bl a b).
Qed.

Lemma tip_of_Some bl p b :
  Blocklace.tip_of bl p = Some b →
  Blocklace.blocks bl !! identity b = Some (content b) ∧ creator (identity b) = p ∧
  ∀ e, e ∈ Blocklace.dom bl → creator e = p → e ≠ identity b → ¬ tc (points bl) e (identity b).
Proof.
  unfold Blocklace.tip_of. intros ((n & c) & Hf & [= ->])%fmap_Some.
  apply list_find_Some in Hf as (Hb & Hmax & _). apply list_elem_of_lookup_2 in Hb.
  apply elem_of_blocks_by in Hb as [Hb Hp]. split_and!; [done..|]. intros e He Hpe Hne Ht.
  pose proof He as [ce Hce]%elem_of_lace_dom. rewrite existsb_false in Hmax.
  specialize (Hmax (mkBlock e ce)). simpl in Hmax. apply not_true_iff_false in Hmax.
  - apply Hmax. guards. split; [done|]. apply precedes_stored; [by eapply stored_dom|done..].
  - by apply elem_of_blocks_by.
Qed.
Lemma tc_points_rank bl a b :
  acyclic bl → tc (points bl) a b → ancestor_rank bl b < ancestor_rank bl a.
Proof.
  intros Hac. induction 1 as [a b Hab|a m b Ham _ IH]; [by apply ancestor_rank_lt|].
  etrans; [exact IH|by apply ancestor_rank_lt].
Qed.

(** A block of [p] that is not its tip has another one above it. *)
Lemma tip_of_None_above bl p a :
  Blocklace.tip_of bl p = None → a ∈ Blocklace.dom bl → creator a = p →
  ∃ o, o ∈ Blocklace.dom bl ∧ creator o = p ∧ tc (points bl) o a.
Proof.
  unfold Blocklace.tip_of. rewrite fmap_None, list_find_None_iff. intros Hall Ha Hp.
  pose proof Ha as [c Hc]%elem_of_lace_dom.
  assert (mkBlock a c ∈ Blocklace.blocks_by bl p) as Hin by (by apply elem_of_blocks_by).
  apply Hall, not_false_iff_true, existsb_true in Hin as ([o co] & Ho & Hpr).
  apply elem_of_blocks_by in Ho as [Ho Hpo]. simpl in *.
  apply andb_true_iff in Hpr as [_ Hpr]. apply stored_dom in Ho.
  exists o. split_and!; [done..|]. by apply precedes_stored in Hpr.
Qed.
Lemma tip_of_None bl p :
  acyclic bl → Blocklace.tip_of bl p = None → ∀ e, e ∈ Blocklace.dom bl → creator e ≠ p.
Proof.
  intros Hac Hnone e. remember (size (Blocklace.blocks bl) - ancestor_rank bl e) as n eqn:Hn.
  revert e Hn. induction n as [n IH] using lt_wf_ind. intros e -> He Hp.
  destruct (tip_of_None_above bl p e Hnone He Hp) as (o & Ho & Hpo & Hoe).
  apply tc_points_rank in Hoe; [|done]. pose proof (ancestor_rank_le bl o).
  by apply (IH (size (Blocklace.blocks bl) - ancestor_rank bl o)) with o; [lia|..].
Qed.

(** For a creator whose blocks form a chain, the tip observes all of them. *)
Lemma tip_of_spec bl p b :
  acyclic bl → p ∉ Blocklace.find_equivacators bl → Blocklace.tip_of bl p = Some b →
  Blocklace.blocks bl !! identity b = Some (content b) ∧ is_tip bl p (identity b).
Proof.
  intros Hac Hp (Hb & Hpb & Hmax)%tip_of_Some. split; [done|].
  split_and!; [by eapply stored_dom|done|]. intros e He Hpe.
  destruct (decide (e = identity b)) as [->|Hne]; [done|].
  destruct (not_equivocator bl p (identity b) e Hp (stored_dom _ _ _ Hb) He Hpb Hpe) as [|Ho]; [done|].
  apply rtc_tc in Ho as [->|Ho]; [done|]. by destruct (Hmax e He Hpe Hne).
Qed.
Lemma is_tip_unique bl p t t' : acyclic bl → is_tip bl p t → is_tip bl p t' → t = t'.
Proof.
  intros Hac (Ht & Hp & Hall) (Ht' & Hp' & Hall').
  apply (acyclic_rtc_antisymm bl); [done|by apply Hall|by apply Hall'].
Qed.

Lemma map_sublist {A B} (f : A → B) l k : l `sublist_of` k → map f l `sublist_of` map f k.
Proof. induction 1; simpl; by constructor. Qed.
Lemma keys_omap_sublist {K V W} (f : K → option V) (g : V → W) (l : list K) :
  map fst (omap (λ k, (λ v, (k, g v)) <$> f k) l) `sublist_of` l.
Proof.
  induction l as [|k l IH]; simpl; [done|]. destruct (f k); simpl; by constructor.
Qed.

Lemma lookup_validator_tips bl bonds p t :
  acyclic bl →
  ForkChoice.collect_validator_tips bl bonds !! p = Some t ↔
  is_Some (bonds !! p) ∧ p ∉ Blocklace.find_equivacators bl ∧ is_tip bl p t.
Proof.
  intros Hac. unfold ForkChoice.collect_validator_tips. rewrite <-elem_of_list_to_map.
  2:{ eapply sublist_NoDup; [|apply (keys_omap_sublist _ identity)].
      apply NoDup_filter, NoDup_hash_iter. }
  rewrite list_elem_of_omap. setoid_rewrite list_elem_of_filter.
  setoid_rewrite elem_of_hash_iter. setoid_rewrite elem_of_dom. split.
  - intros (q & [Hq Hb] & Ht). apply fmap_Some in Ht as (b & Ht & [= -> ->]).
    apply tip_of_spec in Ht as [? ?]; [|done..]. done.
  - intros (Hb & Hq & Ht). exists p. split; [done|].
    destruct (Blocklace.tip_of bl p) as [b|] eqn:Eb.
    + simpl. do 2 f_equal. apply tip_of_spec in Eb as [_ Hb']; [|done..]. by eapply is_tip_unique.
    + destruct Ht as (Ht & Hp & _). by apply (tip_of_None bl p Hac Eb) in Hp.
Qed.

End tips.

(** ** The lowest common ancestor *)

Section lca.
Context `{HO : HashOrder}.
Implicit Types (bl : Blocklace.t).

Lemma elem_of_ancestor_set bl t x :
  t ∈ Blocklace.dom bl → x ∈ ForkChoice.ancestor_set bl t ↔ rtc (points bl) t x.
Proof.
  intros Ht. unfold ForkChoice.ancestor_set, Blocklace.ancestors_inclusive.
  pose proof Ht as [c Hc]%elem_of_lace_dom. rewrite (get_stored _ _ _ Hc).
  assert (x ∈ dom (block_set_insert (mkBlock t c) (Blocklace.ancestors bl t)) ↔
    x = t ∨ x ∈ dom (Blocklace.ancestors bl t)) as ->.
  { unfold block_set_insert. simpl. destruct (Blocklace.ancestors bl t !! t) eqn:E.
    - apply elem_of_dom_2 in E. set_solver.
    - rewrite dom_insert. set_solver. }
  rewrite elem_of_ancestors, rtc_tc by done. naive_solver.
Qed.

Lemma elem_of_common bl first rest x :
  (∀ t, t ∈ first :: rest → t ∈ Blocklace.dom bl) →
  x ∈ foldl (λ common set, common ∩ set) (ForkChoice.ancestor_set bl first)
    (map (ForkChoice.ancestor_set bl) rest) ↔ ∀ t, t ∈ first :: rest → rtc (points bl) t x.
Proof.
  intros Hd. assert (∀ (X : gset BlockIdentity) l, x ∈ foldl (λ common set, common ∩ set) X l ↔
    x ∈ X ∧ ∀ Y, Y ∈ l → x ∈ Y) as Hfold.
  { intros X l. revert X. induction l as [|Y l IH]; intros X; simpl; [set_solver|].
    rewrite IH. set_solver. }
  rewrite Hfold, elem_of_ancestor_set by (apply Hd; by left).
  setoid_rewrite list_elem_of_fmap. setoid_rewrite elem_of_cons. split.
  - intros [Hf Hall] t [->|Ht]; [done|]. apply elem_of_ancestor_set; [apply Hd; by right|]. eauto.
  - intros Hall. split; [by apply Hall; left|]. intros Y (t & -> & Ht).
    apply elem_of_ancestor_set; [apply Hd; by right|]. apply Hall. by right.
Qed.

(** [l] is observed by every tip, and no other such block observes it. *)
Definition is_lca bl (tips : list BlockIdentity) (l : BlockIdentity) : Prop :=
  (∀ t, t ∈ tips → rtc (points bl) t l) ∧
  ∀ x, (∀ t, t ∈ tips → rtc (points bl) t x) → ¬ tc (points bl) x l.

Lemma highest_exists bl (X : gset BlockIdentity) :
  acyclic bl → X ⊆ Blocklace.dom bl → X ≠ ∅ →
  ∃ m, m ∈ X ∧ ∀ o, o ∈ X → ¬ tc (points bl) o m.
Proof using HO.
  intros Hac HX [x Hx]%set_choose_L.
  remember (size (Blocklace.blocks bl) - ancestor_rank bl x) as n eqn:Hn.
  revert x Hn Hx. induction n as [n IH] using lt_wf_ind. intros x -> Hx.
  destruct (decide (set_Exists (λ o, Blocklace.precedes bl x o = true) X)) as [(o & Ho & Hp)|Hno].
  - apply precedes_stored in Hp; [|by apply HX..]. apply tc_points_rank in Hp; [|done].
    pose proof (ancestor_rank_le bl o).
    by apply (IH (size (Blocklace.blocks bl) - ancestor_rank bl o)) with o; [lia|..].
  - exists x. split; [done|]. intros o Ho Hox. apply Hno. exists o. split; [done|].
    apply precedes_stored; [by apply HX..|done].
Qed.

Lemma compute_lca_Some bl tips l :
  acyclic bl → (∀ t, t ∈ tips → t ∈ Blocklace.dom bl) →
  ForkChoice.compute_lca bl tips = Some l → is_lca bl tips l.
Proof.
  intros Hac Hd. destruct tips as [|first [|second rest]]; simpl; [done|..].
  { intros [= <-]. split; [intros t ->%list_elem_of_singleton; done|].
    intros x Hx Ht. specialize (Hx first ltac:(by left)).
    apply (Hac x). by eapply tc_rtc_r. }
  set (common := foldl _ _ _). assert (∀ x, x ∈ common ↔
    ∀ t, t ∈ first :: second :: rest → rtc (points bl) t x) as Hcommon
    by (intros x; by apply (elem_of_common bl first (second :: rest))).
  assert (∀ x, x ∈ common → x ∈ Blocklace.dom bl) as Hcd.
  { intros x Hx. rewrite Hcommon in Hx. specialize (Hx first ltac:(by left)).
    eapply rtc_points_dom; [|exact Hx]. apply Hd. by left. }
  case_decide; [done|]. intros ((n & y) & Hf & [= ->])%fmap_Some. simpl.
  apply list_find_Some in Hf as (Hl & Hmax & _). apply list_elem_of_lookup_2 in Hl.
  rewrite elem_of_hash_iter in Hl. split; [by apply Hcommon|].
  intros x Hx%Hcommon Ht. rewrite existsb_false in Hmax. specialize (Hmax x).
  rewrite elem_of_hash_iter in Hmax. specialize (Hmax Hx).
  apply not_true_iff_false in Hmax. apply Hmax. guards. split.
  - intros ->. by apply (Hac y).
  - apply precedes_stored; auto.
Qed.
Lemma compute_lca_None bl tips :
  acyclic bl → (∀ t, t ∈ tips → t ∈ Blocklace.dom bl) →
  ForkChoice.compute_lca bl tips = None → tips ≠ [] →
  ∀ x, ¬ ∀ t, t ∈ tips → rtc (points bl) t x.
Proof.
  intros Hac Hd. destruct tips as [|first [|second rest]]; [done..|]. intros Hn _ x Hx.
  revert Hn. simpl. set (common := foldl _ _ _). assert (∀ x, x ∈ common ↔
    ∀ t, t ∈ first :: second :: rest → rtc (points bl) t x) as Hcommon
    by (intros y; by apply (elem_of_common bl first (second :: rest))).
  assert (common ⊆ Blocklace.dom bl) as Hcd.
  { intros y Hy. rewrite Hcommon in Hy. specialize (Hy first ltac:(by left)).
    eapply rtc_points_dom; [|exact Hy]. apply Hd. by left. }
  assert (x ∈ common) as Hxc by by apply Hcommon.
  rewrite decide_False by set_solver. rewrite fmap_None, list_find_None_iff. intros Hall.
  destruct (highest_exists bl common Hac Hcd) as (m & Hm & Hmax); [set_solver|].
  apply (Hall m); [by apply elem_of_hash_iter|]. apply existsb_false. intros o Ho.
  rewrite elem_of_hash_iter in Ho. apply not_true_iff_false. guards. intros [_ Hp].
  apply precedes_stored in Hp; [by eapply Hmax|by apply Hcd..].
Qed.

(** ** The walk from a tip down to the common ancestor *)

Lemma elem_of_walk_successors bl target x y :
  Blocklace.checkpoint bl = None → x ∈ Blocklace.dom bl → target ∈ Blocklace.dom bl →
  y ∈ ForkChoice.walk_successors bl target x ↔
  x ≠ target ∧ points bl x y ∧ rtc (points bl) y target.
Proof.
  intros Hcp [c Hc]%elem_of_lace_dom Ht. unfold ForkChoice.walk_successors.
  case_decide as Hx; [set_solver|]. rewrite (content_stored _ _ _ Hc), list_elem_of_filter,
    list_elem_of_omap. setoid_rewrite elem_of_hash_iter.
  assert (∀ p, Blocklace.resolve_identity bl p = Some y →
    Blocklace.preceedes_or_equals bl target y = true ↔ rtc (points bl) y target) as Hpre.
  { intros p Hp. apply resolve_Some in Hp as (Hy & _). unfold Blocklace.preceedes_or_equals.
    rewrite !resolve_stored by done. guards. rewrite precedes_stored, rtc_tc by done. naive_solver. }
  split.
  - intros [Hy (p & Hp & Hr)]. split_and!; [done| |by eapply Hpre].
    exists c, p. rewrite Hcp. by split_and!.
  - intros (_ & (c' & p & Hc' & Hp & Hr & _) & Hy). assert (c' = c) as -> by congruence.
    split; [by eapply Hpre|by exists p].
Qed.

Lemma walk_edges bl target x y :
  acyclic bl → Blocklace.checkpoint bl = None → x ∈ Blocklace.dom bl → target ∈ Blocklace.dom bl →
  rtc (points bl) x target →
  rtc (edge (ForkChoice.walk_successors bl target)) x y ↔
  rtc (points bl) x y ∧ rtc (points bl) y target.
Proof.
  intros Hac Hcp Hx Ht Hxt. split.
  - intros Hw. induction Hw as [x|x z y Hxz _ IH]; [done|].
    apply elem_of_walk_successors in Hxz as (_ & Hxz & Hzt); [|done..].
    pose proof (points_dom _ _ _ Hxz) as [_ Hz]. destruct (IH Hz Hzt). split; [by eapply rtc_l|done].
  - intros [Hxy Hyt]. clear Hxt. induction Hxy as [x|x z y Hxz Hzy IH]; [done|].
    pose proof (points_dom _ _ _ Hxz) as [_ Hz]. apply rtc_l with z; [|by apply IH].
    apply elem_of_walk_successors; [done..|]. split_and!; [|done|by trans y].
    intros ->. apply (Hac target). eapply tc_rtc_r; [by apply tc_once|]. by trans y.
Qed.

(** The fuel covers every reference. *)
Lemma length_omap_le {A B} (f : A → option B) l : length (omap f l) ≤ length l.
Proof. induction l as [|x l IH]; csimpl; [lia|]. destruct (f x); csimpl; lia. Qed.
Lemma walk_fuel bl target :
  (out_degrees (ForkChoice.walk_successors bl target) (Blocklace.dom bl) <=
   set_weight (ForkChoice.reference_count bl) (Blocklace.dom bl))%N.
Proof.
  apply set_weight_le. intros x [c Hc]%elem_of_lace_dom.
  unfold ForkChoice.reference_count. rewrite Hc.
  unfold ForkChoice.walk_successors. case_decide; [simpl; lia|].
  rewrite (content_stored _ _ _ Hc). assert (∀ m n, m ≤ n → (N.of_nat m <= N.of_nat n)%N) as Hle by lia. apply Hle.
  by rewrite length_filter, length_omap_le, length_hash_iter.
Qed.

(** The walk terminates and visits each block between the tip and the target
    once. *)
Lemma walk_to_lca_spec bl start target :
  acyclic bl → Blocklace.checkpoint bl = None → start ∈ Blocklace.dom bl →
  rtc (points bl) start target →
  NoDup (ForkChoice.walk_to_lca bl start target) ∧
  ∀ x, x ∈ ForkChoice.walk_to_lca bl start target ↔
    rtc (points bl) start x ∧ rtc (points bl) x target.
Proof.
  intros Hac Hcp Hs Hst. assert (target ∈ Blocklace.dom bl) as Ht by by eapply rtc_points_dom.
  assert (∀ x y, y ∈ ForkChoice.walk_successors bl target x →
    Blocklace.resolve_identity bl y = Some y) as Hname.
  { intros x y. unfold ForkChoice.walk_successors. case_decide; [by intros ?%elem_of_nil|].
    destruct (Blocklace.content bl x); [|by intros ?%elem_of_nil].
    rewrite list_elem_of_filter, list_elem_of_omap. intros (_ & p & _ & Hp).
    by eapply resolve_idemp. }
  destruct (pop_worklist_terminates _ _ Hname (Blocklace.dom bl) (ForkChoice.reference_fuel bl) ∅ [start])
    as [l Hl].
  - intros r x ->%list_elem_of_singleton Hr. by apply resolve_Some in Hr as (? & _).
  - intros x y Hy%Hname. by apply resolve_Some in Hy as (? & _).
  - rewrite difference_empty_L. pose proof (walk_fuel bl target).
    unfold ForkChoice.reference_fuel. simpl. lia.
  - unfold ForkChoice.walk_to_lca. rewrite Hl. simpl.
    destruct (pop_worklist_sound _ _ Hname _ _ _ _ Hl) as (Hnd & _ & Hall); [by intros ??|].
    split; [done|]. intros x. rewrite <-walk_edges by done.
    transitivity (x ∈ l ∨ x ∈ (∅ : gset BlockIdentity)); [set_solver|]. rewrite Hall.
    unfold pop_reach, waiting. split.
    + intros [?|(y & (r & ->%list_elem_of_singleton & Hr) & Hyx)]; [set_solver|].
      rewrite resolve_stored in Hr by done. by injection Hr as <-.
    + intros Hw. right. exists start. split; [|done]. exists start.
      split; [by left|by apply resolve_stored].
Qed.

End lca.

(** ** Scores and ranking *)

Lemma set_weight_list `{Countable A} (f : A → N) (l : list A) :
  NoDup l → set_weight f (list_to_set l) = sum_N (map f l).
Proof. intros Hl. unfold set_weight. by rewrite elements_list_to_set. Qed.

Section scores.
Context `{HO : HashOrder}.
Implicit Types (bl : Blocklace.t) (bonds : gmap NodeId N).

Definition bonded_stake bonds (p : NodeId) : N := default 0%N (bonds !! p).

(** One walk adds the stake once to each of its blocks. *)
Lemma add_walk_spec stake l (scores : gmap BlockIdentity N) x :
  NoDup l → (default 0 (scores !! x) + stake <= u64_max)%N →
  default 0%N (foldl (λ scores id,
    <[id := wrapping_add64 (default 0%N (scores !! id)) stake]> scores) scores l !! x) =
  (default 0 (scores !! x) + if decide (x ∈ l) then stake else 0)%N.
Proof.
  intros Hnd Hmax. revert scores Hmax. induction Hnd as [|y l Hy _ IH]; intros scores Hmax; cbn [foldl].
  { rewrite decide_False by by apply not_elem_of_nil. lia. }
  destruct (decide (x = y)) as [->|Hne].
  - assert (∀ s : gmap BlockIdentity N, foldl (λ scores id,
      <[id := wrapping_add64 (default 0%N (scores !! id)) stake]> scores) s l !! y = s !! y) as Hother.
    { clear -Hy. induction l as [|z l IH]; intros s; simpl; [done|].
      rewrite IH by set_solver. apply lookup_insert_ne. set_solver. }
    rewrite Hother, lookup_insert_eq, decide_True by by left. cbn [default].
    by rewrite wrapping_add64_small.
  - rewrite IH by by rewrite lookup_insert_ne. rewrite lookup_insert_ne by done.
    f_equal. destruct (decide (x ∈ l)); destruct (decide (x ∈ y :: l)); set_solver.
Qed.

Definition contribution bl bonds lca (x : BlockIdentity) (v : NodeId * Block) : N :=
  if decide (x ∈ ForkChoice.walk_to_lca bl (identity v.2) lca) then bonded_stake bonds v.1 else 0%N.

Lemma add_stakes_spec bl bonds lca x l scores :
  (∀ v, v ∈ l → NoDup (ForkChoice.walk_to_lca bl (identity v.2) lca)) →
  (default 0 (scores !! x) + sum_N (map (λ v, bonded_stake bonds v.1) l) <= u64_max)%N →
  default 0%N (foldl (ForkChoice.add_stake bl bonds lca) scores l !! x) =
  (default 0 (scores !! x) + sum_N (map (contribution bl bonds lca x) l))%N.
Proof.
  revert scores. induction l as [|v l IH]; intros scores Hnd Hmax; simpl in *; [lia|].
  fold (bonded_stake bonds v.1) in *.
  assert (default 0 (ForkChoice.add_stake bl bonds lca scores v !! x) =
    default 0 (scores !! x) + contribution bl bonds lca x v)%N as Hstep.
  { unfold ForkChoice.add_stake, contribution. cbn zeta. fold (bonded_stake bonds v.1).
    destruct (decide (bonded_stake bonds v.1 = 0%N)) as [E|E]; [rewrite E; case_decide; lia|].
    apply add_walk_spec; [apply Hnd; by left|]. lia. }
  rewrite IH, Hstep; [lia|set_solver|]. rewrite Hstep.
  assert (contribution bl bonds lca x v <= bonded_stake bonds v.1)%N
    by (unfold contribution; case_decide; lia). lia.
Qed.

Lemma sum_filter {A} (f : A → N) (P : A → Prop) `{∀ x, Decision (P x)} l :
  sum_N (map (λ x, if decide (P x) then f x else 0%N) l) = sum_N (map f (filter P l)).
Proof.
  induction l as [|x l IH]; [done|]. rewrite filter_cons. simpl. case_decide; simpl; lia.
Qed.

(** The validators behind the tips, each once. *)
Lemma validator_tips_spec bl bonds p b :
  acyclic bl →
  (p, b) ∈ ForkChoice.validator_tips bl bonds ↔
  is_Some (bonds !! p) ∧ p ∉ Blocklace.find_equivacators bl ∧ is_tip bl p (identity b) ∧
  Blocklace.blocks bl !! identity b = Some (content b).
Proof.
  intros Hac. unfold ForkChoice.validator_tips. rewrite list_elem_of_omap.
  setoid_rewrite list_elem_of_filter. setoid_rewrite elem_of_hash_iter. setoid_rewrite elem_of_dom.
  split.
  - intros (q & [Hq Hb] & Ht). apply fmap_Some in Ht as (t & Ht & [= -> ->]).
    by apply tip_of_spec in Ht as [? ?].
  - intros (Hb & Hp & Ht & Hst). exists p. split; [done|].
    destruct (Blocklace.tip_of bl p) as [t|] eqn:Et.
    + simpl. do 2 f_equal. apply tip_of_spec in Et as [Ht' Et]; [|done..].
      assert (identity t = identity b) as E by by eapply is_tip_unique.
      destruct t as [i c], b as [i' c']. simpl in *. subst. congruence.
    + destruct Ht as (Ht & Hpt & _). by apply (tip_of_None bl p Hac Et) in Hpt.
Qed.
Lemma NoDup_validator_tips bl bonds : NoDup (map fst (ForkChoice.validator_tips bl bonds)).
Proof.
  eapply sublist_NoDup; [|apply (keys_omap_sublist _ (λ b, b))]. apply NoDup_filter, NoDup_hash_iter.
Qed.
Lemma validator_stakes bl bonds :
  (sum_N (map (λ v, bonded_stake bonds v.1) (ForkChoice.validator_tips bl bonds)) <=
   set_weight (bonded_stake bonds) (dom bonds))%N.
Proof.
  rewrite <-(map_map fst (bonded_stake bonds)), <-set_weight_list by apply NoDup_validator_tips.
  apply set_weight_mono. intros p [[q b] [-> Hv]]%elem_of_list_to_set%list_elem_of_fmap. simpl.
  unfold ForkChoice.validator_tips in Hv. apply list_elem_of_omap in Hv as (q' & Hq & Hv).
  apply fmap_Some in Hv as (? & _ & [= -> _]). apply list_elem_of_filter in Hq as [_ Hq].
  by rewrite elem_of_hash_iter in Hq.
Qed.

Lemma retain_unseen_spec seen l x :
  (x ∈ ForkChoice.retain_unseen seen l ↔ x ∈ l ∧ x ∉ seen) ∧ NoDup (ForkChoice.retain_unseen seen l).
Proof.
  revert seen. enough (∀ seen, (∀ x, x ∈ ForkChoice.retain_unseen seen l ↔ x ∈ l ∧ x ∉ seen) ∧
    NoDup (ForkChoice.retain_unseen seen l)) as Hall by (intros seen; split; apply Hall).
  induction l as [|y l IH]; intros seen; simpl.
  { split; [set_solver|constructor]. }
  case_decide as Hy; [|destruct (IH ({[y]} ∪ seen)) as [H1 H2]; split].
  - destruct (IH seen) as [H1 H2]. split; [|done]. set_solver.
  - intros z. rewrite elem_of_cons, H1. destruct (decide (z = y)); set_solver.
  - constructor; [|done]. rewrite H1. set_solver.
Qed.

(** [rank] compares the pair of the score, reversed, and the hash. *)
Lemma rank_total scores a b : ForkChoice.rank scores a b ≠ Gt ∨ ForkChoice.rank scores b a ≠ Gt.
Proof.
  unfold ForkChoice.rank. rewrite (cmp_antisym (default 0%N (scores !! b)) (default 0%N (scores !! a))).
  rewrite (cmp_antisym (content_hash a) (content_hash b)).
  destruct (cmp (default 0%N (scores !! b)) _), (cmp (content_hash a) _); simpl; auto.
Qed.
Lemma rank_le scores a b :
  ForkChoice.rank scores a b ≠ Gt ↔
  ord_lt (default 0%N (scores !! b)) (default 0%N (scores !! a)) ∨
  (default 0%N (scores !! b) = default 0%N (scores !! a) ∧ ord_le (content_hash a) (content_hash b)).
Proof.
  unfold ForkChoice.rank, ord_lt, ord_le. rewrite <-cmp_eq.
  destruct (cmp (default 0%N (scores !! b)) _); simpl; naive_solver.
Qed.
Lemma rank_trans scores : Transitive (λ a b, ForkChoice.rank scores a b ≠ Gt).
Proof.
  intros a b c. rewrite !rank_le. intros [H1|[E1 H1]] [H2|[E2 H2]].
  - left. by trans (default 0%N (scores !! b)).
  - left. by rewrite E2.
  - left. by rewrite <-E1.
  - right. split; [congruence|]. by trans (content_hash b).
Qed.

End scores.

(** ** What the fork choice is computed from *)

Section eligible.
Context `{HO : HashOrder}.
Implicit Types (bl : Blocklace.t) (bonds : gmap NodeId N).

(** A bonded validator that does not equivocate, and its tip. *)
Definition eligible bl bonds (p : NodeId) (t : BlockIdentity) : Prop :=
  is_Some (bonds !! p) ∧ p ∉ Blocklace.find_equivacators bl ∧ is_tip bl p t.

Definition tip_list bl bonds : list BlockIdentity :=
  map (λ v, identity v.2) (ForkChoice.validator_tips bl bonds).

Lemma elem_of_tip_list bl bonds t :
  acyclic bl → t ∈ tip_list bl bonds ↔ ∃ p, eligible bl bonds p t.
Proof.
  intros Hac. unfold tip_list. rewrite list_elem_of_fmap. split.
  - intros ([p b] & -> & Hv). apply validator_tips_spec in Hv as (? & ? & ? & _); [|done].
    by exists p.
  - intros (p & Hb & Hp & Ht). pose proof Ht as ([c Hc]%elem_of_lace_dom & _).
    exists (p, mkBlock t c). split; [done|]. by apply validator_tips_spec.
Qed.
Lemma tip_list_stored bl bonds t : acyclic bl → t ∈ tip_list bl bonds → t ∈ Blocklace.dom bl.
Proof. intros Hac (p & _ & _ & Ht & _)%elem_of_tip_list; done. Qed.

Lemma fork_choice_unfold bl bonds :
  ForkChoice.fork_choice bl bonds =
  if decide (tip_list bl bonds = []) then None
  else
    l ← ForkChoice.compute_lca bl (tip_list bl bonds);
    let scores := foldl (ForkChoice.add_stake bl bonds l) ∅ (ForkChoice.validator_tips bl bonds) in
    Some (ForkChoice.mk (sort_by (ForkChoice.rank scores)
      (ForkChoice.retain_unseen ∅ (tip_list bl bonds))) l scores).
Proof.
  unfold ForkChoice.fork_choice, tip_list.
  destruct (ForkChoice.validator_tips bl bonds); [done|].
  by rewrite !decide_False by done.
Qed.

(** The score of a block is the stake of the validators whose tips lead to
    it, above the common ancestor. *)
Lemma scores_spec bl bonds l x :
  well_formed bl → Blocklace.checkpoint bl = None →
  (set_weight (bonded_stake bonds) (dom bonds) <= u64_max)%N →
  (∀ t, t ∈ tip_list bl bonds → rtc (points bl) t l) →
  ∃ X : gset NodeId,
    (∀ p, p ∈ X ↔ ∃ t, eligible bl bonds p t ∧ rtc (points bl) t x ∧ rtc (points bl) x l) ∧
    default 0%N (foldl (ForkChoice.add_stake bl bonds l) ∅ (ForkChoice.validator_tips bl bonds) !! x)
      = set_weight (bonded_stake bonds) X.
Proof.
  intros [_ _ Hac] Hcp Hmax Hlca. set (tips := ForkChoice.validator_tips bl bonds).
  assert (∀ v, v ∈ tips → NoDup (ForkChoice.walk_to_lca bl (identity v.2) l) ∧
    ∀ y, y ∈ ForkChoice.walk_to_lca bl (identity v.2) l ↔
      rtc (points bl) (identity v.2) y ∧ rtc (points bl) y l) as Hv.
  { intros [p b] Hin. assert (identity b ∈ tip_list bl bonds) by (apply list_elem_of_fmap; by exists (p, b)).
    apply walk_to_lca_spec; [done..|by eapply tip_list_stored|by apply Hlca]. }
  set (reaching := filter (λ v, x ∈ ForkChoice.walk_to_lca bl (identity v.2) l) tips).
  exists (list_to_set (map fst reaching)). split.
  - intros p. rewrite elem_of_list_to_set, list_elem_of_fmap. unfold reaching. split.
    + intros ([q b] & -> & [Hx Hin]%list_elem_of_filter). simpl in *. exists (identity b).
      apply (Hv _ Hin) in Hx.
      apply validator_tips_spec in Hin as (? & ? & ? & _); [|done]. by split.
    + intros (t & (Hb & Hp & Ht) & Hx). pose proof Ht as ([c Hc]%elem_of_lace_dom & _).
      exists (p, mkBlock t c). split; [done|].
      assert ((p, mkBlock t c) ∈ tips) as Hin by by apply validator_tips_spec.
      apply list_elem_of_filter. split; [|done]. simpl.
      by apply (Hv _ Hin).
  - rewrite add_stakes_spec.
    + rewrite lookup_empty, set_weight_list, map_map. 
      2:{ eapply sublist_NoDup; [apply NoDup_validator_tips|].
          apply map_sublist, sublist_filter. }
      simpl. unfold contribution. by rewrite sum_filter.
    + intros v Hin. by apply (Hv v Hin).
    + rewrite lookup_empty. simpl. etrans; [apply validator_stakes|]. done.
Qed.

End eligible.
