(* ===== verification/Dissemination.v ===== *)
(** * Dissemination

    [consensus/dissemination.rs]: which predecessors a new block references,
    the candidate block of a proposal, and the bounded buffer of blocks whose
    causal history has not arrived. *)

From S2P Require Import Prelude Types Lace Bytes Crypto Quorum Cordiality Admission.
From stdpp Require Import options.

Module Dissemination.

Inductive PredecessorSelectionMode := Compatibility | Strict.
#[export] Instance PredecessorSelectionMode_eq_dec : EqDecision PredecessorSelectionMode.
Proof. solve_decision. Defined.

Inductive ProposalError :=
  | InsufficientAcknowledgements (observed required : nat)
  | NoPredecessorsAvailable
  | InsufficientEquivocationAcknowledgement (missing : list BlockIdentity).

Section selection.
Context `{HO : HashOrder}.
Implicit Types (bl : Blocklace.t) (bonds : gmap NodeId N).

Definition validator_visible_tips bl bonds : gmap NodeId BlockIdentity :=
  ForkChoice.collect_validator_tips bl bonds.

(** The union of what the references observe. *)
Definition observed_through bl (predecessors : gset BlockIdentity) : gset BlockIdentity :=
  ⋃ (map (Blocklace.observe bl) (hash_iter predecessors)).

(** [if observed.insert(branch) { predecessors.insert(branch) }]. *)
Definition add_branch (acc : gset BlockIdentity * gset BlockIdentity) (branch : BlockIdentity) :
    gset BlockIdentity * gset BlockIdentity :=
  let '(observed, predecessors) := acc in
  if decide (branch ∈ observed) then acc
  else ({[branch]} ∪ observed, {[branch]} ∪ predecessors).

Definition select_predecessors_with_mode bl bonds (mode : PredecessorSelectionMode) :
    gset BlockIdentity :=
  let predecessors : gset BlockIdentity :=
    list_to_set (map_iter (validator_visible_tips bl bonds)).*2 in
  if decide (predecessors = ∅ ∨ mode = Strict) then predecessors
  else
    (foldl (λ acc equivocation, foldl add_branch acc (Cordiality.branches equivocation))
      (observed_through bl predecessors, predecessors) (Cordiality.all_equivocations bl)).2.

Definition select_predecessors bl bonds : gset BlockIdentity :=
  select_predecessors_with_mode bl bonds Compatibility.
Definition select_predecessors_strict bl bonds : gset BlockIdentity :=
  select_predecessors_with_mode bl bonds Strict.

Definition select_predecessors_sorted_with_mode bl bonds (mode : PredecessorSelectionMode) :
    list BlockIdentity :=
  sort (hash_iter (select_predecessors_with_mode bl bonds mode)).
Definition select_predecessors_sorted bl bonds : list BlockIdentity :=
  select_predecessors_sorted_with_mode bl bonds Compatibility.

Definition required_acknowledgements bonds : nat :=
  let n := size bonds in
  if decide (n = 0) then 0 else 2 * n / 3 + 1.

(** The sum and its double are [u128], the result is truncated to [u64]. *)
Definition weighted_required_acknowledgements bonds : N :=
  let total_stake := sum_N (map_iter bonds).*2 in
  if decide (total_stake = 0%N) then 0%N
  else ((2 * total_stake / 3 + 1) mod 2 ^ 64)%N.

Definition missing_equivocation_branches bl (predecessors : gset BlockIdentity) :
    list BlockIdentity :=
  let observed := observed_through bl predecessors in
  sort (filter (λ branch, branch ∉ observed)
    (mjoin (map Cordiality.branches (Cordiality.all_equivocations bl)))).

Definition predecessors_acknowledge_all_equivocation_branches bl
    (predecessors : gset BlockIdentity) : bool :=
  bool_decide (missing_equivocation_branches bl predecessors = []).

Definition next_block_predecessors_with_mode bl bonds (mode : PredecessorSelectionMode) :
    result (gset BlockIdentity) ProposalError :=
  if decide (Blocklace.dom bl = ∅) then Ok ∅
  else
    let predecessors := select_predecessors_with_mode bl bonds mode in
    bail NoPredecessorsAvailable when predecessors = ∅;
    let missing := missing_equivocation_branches bl predecessors in
    bail (InsufficientEquivocationAcknowledgement missing) when mode = Strict ∧ missing ≠ [];
    let observed := size (validator_visible_tips bl bonds) in
    let required := required_acknowledgements bonds in
    bail (InsufficientAcknowledgements observed required) when observed < required;
    Ok predecessors.

Definition next_block_predecessors bl bonds : result (gset BlockIdentity) ProposalError :=
  next_block_predecessors_with_mode bl bonds Compatibility.

Definition build_block_candidate_with_mode bl bonds (payload : list byte)
    (mode : PredecessorSelectionMode) : result BlockContent ProposalError :=
  let? predecessors := next_block_predecessors_with_mode bl bonds mode in
  Ok (mkContent payload (set_map consensus_identity predecessors)).

Definition build_block_candidate bl bonds (payload : list byte) :
    result BlockContent ProposalError :=
  build_block_candidate_with_mode bl bonds payload Compatibility.

End selection.
End Dissemination.

(** ** The buffer of pending blocks *)

Module Pending.

Record BufferPolicy := mkPolicy {
  max_entries : nat;
  max_entries_per_creator : nat;
  max_retry_passes : N
}.
Definition default_policy : BufferPolicy := mkPolicy 4096 256 64.

Inductive BufferOutcome :=
  | Buffered
  | AlreadyBuffered
  | BufferedEvicting (victim : BlockIdentity)
  | RejectedCreatorQuota (creator : NodeId)
  | RejectedZeroCapacity.

(** The counters that are stored; [buffered] is filled in by [stats]. *)
Record BufferStats := mkStats {
  buffered : nat;
  evicted_for_capacity : N;
  evicted_stale : N;
  rejected_creator_quota : N
}.

Record PendingBlockBuffer := mkBuffer {
  buffered_blocks : gmap BlockIdentity BlockContent;
  missing_predecessors : gmap BlockIdentity (gset BlockIdentity);
  policy : BufferPolicy;
  arrival : gmap BlockIdentity N;
  retry_passes : gmap BlockIdentity N;
  next_arrival : N;
  counters : BufferStats
}.

Definition with_policy (policy : BufferPolicy) : PendingBlockBuffer :=
  mkBuffer ∅ ∅ policy ∅ ∅ 0 (mkStats 0 0 0 0).
Definition new : PendingBlockBuffer := with_policy default_policy.

Definition stats (self : PendingBlockBuffer) : BufferStats :=
  mkStats (size (buffered_blocks self)) (evicted_for_capacity (counters self))
    (evicted_stale (counters self)) (rejected_creator_quota (counters self)).

Definition is_retryable_buffer_error (error : Validation.InvalidBlock) : bool :=
  match error with Validation.MissingPredecessors _ => true | _ => false end.
Definition should_keep_buffered_after_validation (errors : list Validation.InvalidBlock) : bool :=
  forallb is_retryable_buffer_error errors.

Section buffer.
Context `{HO : HashOrder}.
Implicit Types (self : PendingBlockBuffer) (bl : Blocklace.t).

Definition entries_by_creator self (p : NodeId) : nat :=
  size (filter (λ id, creator id = p) (dom (buffered_blocks self))).

(** [min_by_key]: the first of the smallest. *)
Definition oldest_entry self : option BlockIdentity :=
  head (sort_by_key (λ id, (default 0%N (arrival self !! id), id))
    (hash_iter (dom (buffered_blocks self)))).

Definition forget self (id : BlockIdentity) : PendingBlockBuffer :=
  mkBuffer (delete id (buffered_blocks self)) (delete id (missing_predecessors self))
    (policy self) (delete id (arrival self)) (delete id (retry_passes self)) (next_arrival self)
    (counters self).

(** Makes room for one entry: the new buffer and the victim. *)
Definition evict_for_capacity self : PendingBlockBuffer * option BlockIdentity :=
  if decide (max_entries (policy self) ≤ size (buffered_blocks self)) then
    match oldest_entry self with
    | Some victim =>
      let self := forget self victim in
      let c := counters self in
      (mkBuffer (buffered_blocks self) (missing_predecessors self) (policy self) (arrival self)
         (retry_passes self) (next_arrival self)
         (mkStats (buffered c) (wrapping_add64 (evicted_for_capacity c) 1) (evicted_stale c)
            (rejected_creator_quota c)), Some victim)
    | None => (self, None)
    end
  else (self, None).

Definition buffer_block_with_missing_predecessors_known self (block : Block)
    (missing : gset BlockIdentity) : BufferOutcome * PendingBlockBuffer :=
  if decide (max_entries (policy self) = 0) then (RejectedZeroCapacity, self)
  else
    let id := identity block in
    if decide (is_Some (buffered_blocks self !! id)) then
      (AlreadyBuffered,
       mkBuffer (<[id := content block]> (buffered_blocks self))
         (<[id := missing]> (missing_predecessors self)) (policy self) (arrival self)
         (retry_passes self) (next_arrival self) (counters self))
    else if decide (max_entries_per_creator (policy self) ≤ entries_by_creator self (creator id)) then
      let c := counters self in
      (RejectedCreatorQuota (creator id),
       mkBuffer (buffered_blocks self) (missing_predecessors self) (policy self) (arrival self)
         (retry_passes self) (next_arrival self)
         (mkStats (buffered c) (evicted_for_capacity c) (evicted_stale c)
            (wrapping_add64 (rejected_creator_quota c) 1)))
    else
      let '(self, evicted) := evict_for_capacity self in
      let self :=
        mkBuffer (<[id := content block]> (buffered_blocks self))
          (<[id := missing]> (missing_predecessors self)) (policy self)
          (<[id := next_arrival self]> (arrival self)) (<[id := 0%N]> (retry_passes self))
          (wrapping_add64 (next_arrival self) 1) (counters self) in
      (match evicted with Some victim => BufferedEvicting victim | None => Buffered end, self).

Definition buffer_block_with_missing_predecessors self (block : Block) :
    BufferOutcome * PendingBlockBuffer :=
  buffer_block_with_missing_predecessors_known self block ∅.

(** The pairs [(block, parent)] that became available, and the buffer without
    them. *)
Definition take_resolved_predecessors self bl :
    list (BlockIdentity * BlockIdentity) * PendingBlockBuffer :=
  let available := λ parent, is_Some (Blocklace.content bl parent) in
  let resolved := mjoin (map (λ e : BlockIdentity * gset BlockIdentity,
      map (pair e.1) (filter available (hash_iter e.2))) (map_iter (missing_predecessors self))) in
  (sort resolved,
   mkBuffer (buffered_blocks self)
     ((λ missing : gset BlockIdentity, filter (λ parent, ¬ available parent) missing) <$>
        missing_predecessors self)
     (policy self) (arrival self) (retry_passes self) (next_arrival self) (counters self)).

(** [self.forget(&id); self.stats.evicted_stale += 1]. *)
Definition forget_stale self (id : BlockIdentity) : PendingBlockBuffer :=
  let self := forget self id in
  let c := counters self in
  mkBuffer (buffered_blocks self) (missing_predecessors self) (policy self) (arrival self)
    (retry_passes self) (next_arrival self)
    (mkStats (buffered c) (evicted_for_capacity c) (wrapping_add64 (evicted_stale c) 1)
       (rejected_creator_quota c)).

Definition evict_stale self : PendingBlockBuffer :=
  let stale := filter (λ id, max_retry_passes (policy self) < default 0 (retry_passes self !! id))%N
    (hash_iter (dom (buffered_blocks self))) in
  let self := foldl forget_stale self stale in
  let present := λ e : BlockIdentity * N, is_Some (buffered_blocks self !! e.1) in
  mkBuffer (buffered_blocks self) (missing_predecessors self) (policy self)
    (filter present (arrival self)) (filter present (retry_passes self)) (next_arrival self)
    (counters self).

(** One more failed pass for everything still held; the counters are [u32]. *)
Definition count_pass self : PendingBlockBuffer :=
  mkBuffer (buffered_blocks self) (missing_predecessors self) (policy self) (arrival self)
    (foldl (λ passes id, <[id := ((default 0 (passes !! id) + 1) mod 2 ^ 32)%N]> passes)
       (retry_passes self) (hash_iter (dom (buffered_blocks self))))
    (next_arrival self) (counters self).

Section retry.
Context `{Blake2b} `{Secp256k1} (bonds : gmap NodeId N) (config : Validation.ValidationConfig).

(** What one pass threads through its loop. *)
Record pass := mkPass {
  lace : Blocklace.t;
  resolved : list BlockIdentity;
  pass_rejected : list (Block * list Validation.InvalidBlock);
  progress : bool
}.

Definition visit self (acc : pass) (id : BlockIdentity) : pass :=
  match Blocklace.content (lace acc) id with
  | Some _ => mkPass (lace acc) (resolved acc ++ [id]) (pass_rejected acc) (progress acc)
  | None =>
    match buffered_blocks self !! id with
    | None => acc
    | Some c =>
      let block := mkBlock id c in
      let ready := forallb (λ p, bool_decide (is_Some (Blocklace.content (lace acc) p)))
        (hash_iter (predecessors c)) in
      if ready then
        match Validation.validated_insert block (lace acc) bonds config with
        | (Validation.Valid, bl) => mkPass bl (resolved acc ++ [id]) (pass_rejected acc) true
        | (Validation.Invalid errors, bl) =>
          if should_keep_buffered_after_validation errors
          then mkPass bl (resolved acc) (pass_rejected acc) (progress acc)
          else mkPass bl (resolved acc ++ [id]) (pass_rejected acc ++ [(block, errors)]) (progress acc)
        end
      else acc
    end
  end.

(** The pending identities are visited in sorted order. *)
Definition run_pass self bl (rejected : list (Block * list Validation.InvalidBlock)) : pass :=
  foldl (visit self) (mkPass bl [] rejected false) (sort (hash_iter (dom (buffered_blocks self)))).

Fixpoint retry_loop (fuel : nat) self bl rejected :
    option (PendingBlockBuffer * Blocklace.t * list (Block * list Validation.InvalidBlock)) :=
  match fuel with
  | O => None
  | S fuel =>
    let acc := run_pass self bl rejected in
    let self := foldl forget self (resolved acc) in
    if progress acc then retry_loop fuel self (lace acc) (pass_rejected acc)
    else Some (self, lace acc, pass_rejected acc)
  end.

(** A pass that makes progress takes an entry out of the buffer. *)
Definition retry_fuel self : nat := S (size (buffered_blocks self)).

Definition retry_buffered_blocks self bl :
    PendingBlockBuffer * Blocklace.t * list (Block * list Validation.InvalidBlock) :=
  match retry_loop (retry_fuel self) self bl [] with
  | Some (self, bl, rejected) => (evict_stale (count_pass self), bl, rejected)
  | None => (self, bl, [])
  end.

End retry.
End buffer.
End Pending.
