(* ===== verification/DisseminationFacts.v ===== *)
(** * Properties of predecessor selection

    A candidate block references the tips of the honest validators and makes
    every known equivocation visible, so it passes strict validation. *)

From S2P Require Import Prelude Types Lace Bytes Crypto LaceFacts Rounds RoundFacts Quorum.
From S2P Require Import Cordiality CordialityFacts Admission AdmissionFacts Dissemination.
From stdpp Require Import options.

Section references.
Context `{HO : HashOrder}.
Implicit Types (bl : Blocklace.t) (bonds : gmap NodeId N).

(** ** References without signatures *)

Lemma resolve_consensus bl i :
  unique_variants bl → i ∈ Blocklace.dom bl →
  Blocklace.resolve_identity bl (consensus_identity i) = Some i.
Proof.
  intros Hu Hi. apply resolve_in_unsigned; [|done|by apply elem_of_lace_dom|done].
  intros x y Hx Hy. by apply Hu; apply elem_of_lace_dom.
Qed.
Lemma observe_consensus bl i :
  unique_variants bl → i ∈ Blocklace.dom bl →
  Blocklace.observe bl (consensus_identity i) = Blocklace.observe bl i.
Proof.
  intros Hu Hi. apply set_eq. intros r. rewrite !observe_spec.
  by rewrite resolve_consensus, resolve_stored.
Qed.
(** ** Known equivocations *)

Lemma branch_stored bl q b :
  acyclic bl → q ∈ Cordiality.all_equivocations bl → b ∈ Cordiality.branches q →
  b ∈ Blocklace.dom bl.
Proof.
  intros Hac. unfold Cordiality.all_equivocations. destruct (iter_max _) as [m|]; [|by intros ?%elem_of_nil].
  intros Hq. apply list_elem_of_join in Hq as (l & Hq & (p & -> & _)%list_elem_of_fmap).
  apply list_elem_of_omap in Hq as (r & _ & Hq). case_decide; [|done]. injection Hq as <-. simpl.
  intros ([i c] & -> & Hb%elem_of_iter_blocks)%list_elem_of_fmap. simpl in *.
  unfold Cordiality.equivocation_blocks_at_round in Hb.
  case_decide; [|by rewrite lookup_empty in Hb].
  unfold Cordiality.creator_blocks_at_round in Hb.
  apply map_lookup_filter_Some in Hb as [Hb _].
  apply lookup_blocks_at_depth in Hb as [Hb _]; [|done]. by eapply stored_dom.
Qed.

Lemma no_hidden_equivocations bl b :
  (∀ q i, q ∈ Cordiality.all_equivocations bl → i ∈ Cordiality.branches q →
     i ∈ Cordiality.observed_block_ids bl b) →
  Cordiality.hidden_equivocations bl b = [].
Proof.
  unfold Cordiality.hidden_equivocations. intros Hall.
  induction (Cordiality.all_equivocations bl) as [|q l IH]; [done|]. simpl.
  rewrite decide_True.
  - apply IH. intros q' i ?. apply Hall. by right.
  - apply filter_nil_iff. intros i Hi Hn. apply Hn, (Hall q); [by left|done].
Qed.

Lemma elem_of_observed_through bl (X : gset BlockIdentity) i :
  i ∈ Dissemination.observed_through bl X ↔ ∃ p, p ∈ X ∧ i ∈ Blocklace.observe bl p.
Proof.
  unfold Dissemination.observed_through. rewrite elem_of_union_list. setoid_rewrite list_elem_of_fmap.
  setoid_rewrite elem_of_hash_iter. naive_solver.
Qed.
Lemma elem_of_observed_block_ids bl b i :
  i ∈ Cordiality.observed_block_ids bl b ↔
  i ∈ Dissemination.observed_through bl (predecessors (content b)).
Proof. done. Qed.

Lemma add_branches_spec l obs P :
  let r := foldl Dissemination.add_branch (obs, P) l in
  P ⊆ r.2 ∧ (∀ i, i ∈ r.1 → i ∈ obs ∨ i ∈ r.2) ∧ (∀ i, i ∈ l → i ∈ r.1) ∧ obs ⊆ r.1 ∧
  (∀ i, i ∈ r.2 → i ∈ P ∨ i ∈ l).
Proof.
  revert obs P. induction l as [|b l IH]; intros obs P; simpl; [set_solver|].
  case_decide as Hb.
  - destruct (IH obs P) as (H1 & H2 & H3 & H4 & H5). set_solver.
  - destruct (IH ({[b]} ∪ obs) ({[b]} ∪ P)) as (H1 & H2 & H3 & H4 & H5). set_solver.
Qed.
Lemma add_equivocations_spec qs obs P :
  let r := foldl (λ acc q, foldl Dissemination.add_branch acc (Cordiality.branches q)) (obs, P) qs in
  P ⊆ r.2 ∧ (∀ i, i ∈ r.1 → i ∈ obs ∨ i ∈ r.2) ∧
  (∀ q i, q ∈ qs → i ∈ Cordiality.branches q → i ∈ r.1) ∧ obs ⊆ r.1 ∧
  (∀ i, i ∈ r.2 → i ∈ P ∨ ∃ q, q ∈ qs ∧ i ∈ Cordiality.branches q).
Proof.
  revert obs P. induction qs as [|q qs IH]; intros obs P; simpl; [set_solver|].
  pose proof (add_branches_spec (Cordiality.branches q) obs P) as (H1 & H2 & H3 & H4 & H5).
  destruct (foldl _ (obs, P) (Cordiality.branches q)) as [obs' P']; simpl in *.
  destruct (IH obs' P') as (H1' & H2' & H3' & H4' & H5'). split_and!.
  - by trans P'.
  - intros i Hi. destruct (H2' i Hi) as [Hi'|]; [|by right]. destruct (H2 i Hi'); set_solver.
  - set_solver.
  - set_solver.
  - intros i Hi. destruct (H5' i Hi) as [Hi'|?]; [|set_solver]. destruct (H5 i Hi'); set_solver.
Qed.

(** ** The selected references *)

Lemma elem_of_tip_set bl bonds t :
  acyclic bl →
  t ∈ (list_to_set (map_iter (Dissemination.validator_visible_tips bl bonds)).*2 : gset BlockIdentity) ↔
  ∃ p, is_Some (bonds !! p) ∧ p ∉ Blocklace.find_equivacators bl ∧ is_tip bl p t.
Proof.
  intros Hac. rewrite elem_of_list_to_set, list_elem_of_fmap. split.
  - intros ([p t'] & -> & Ht%elem_of_map_iter). exists p. by apply lookup_validator_tips in Ht.
  - intros (p & Ht). exists (p, t). split; [done|]. by apply elem_of_map_iter, lookup_validator_tips.
Qed.

(** What a successful selection guarantees. *)
Record selection bl bonds (P : gset BlockIdentity) : Prop := {
  selection_stored : P ⊆ Blocklace.dom bl;
  selection_tips : ∀ p t, is_Some (bonds !! p) → p ∉ Blocklace.find_equivacators bl →
    is_tip bl p t → t ∈ P;
  selection_branches : ∀ q i, q ∈ Cordiality.all_equivocations bl → i ∈ Cordiality.branches q →
    i ∈ Dissemination.observed_through bl P;
  selection_quorum : Blocklace.dom bl ≠ ∅ →
    2 * size bonds < 3 * size (Dissemination.validator_visible_tips bl bonds)
}.

Lemma select_tips bl bonds mode P :
  acyclic bl → Dissemination.select_predecessors_with_mode bl bonds mode = P →
  P ⊆ Blocklace.dom bl ∧
  (∀ p t, is_Some (bonds !! p) → p ∉ Blocklace.find_equivacators bl → is_tip bl p t → t ∈ P) ∧
  (P ≠ ∅ → mode = Dissemination.Compatibility →
   ∀ q i, q ∈ Cordiality.all_equivocations bl → i ∈ Cordiality.branches q →
     i ∈ Dissemination.observed_through bl P).
Proof.
  intros Hac <-. unfold Dissemination.select_predecessors_with_mode. cbn zeta.
  set (T := list_to_set _).
  assert (T ⊆ Blocklace.dom bl) as HT.
  { intros t (p & _ & _ & Ht & _)%elem_of_tip_set; done. }
  assert (∀ p t, is_Some (bonds !! p) → p ∉ Blocklace.find_equivacators bl → is_tip bl p t → t ∈ T)
    as Htips by (intros p t ???; apply elem_of_tip_set; eauto).
  destruct (decide (T = ∅ ∨ mode = Dissemination.Strict)) as [Hd|Hd].
  { split_and!; [done..|]. intros HT0 ->. destruct Hd; done. }
  pose proof (add_equivocations_spec (Cordiality.all_equivocations bl)
    (Dissemination.observed_through bl T) T) as (H1 & H2 & H3 & H4 & H5).
  set (r := foldl _ _ _) in *. split_and!.
  - intros i Hi. destruct (H5 i Hi) as [?|(q & Hq & Hi')]; [by apply HT|]. by eapply branch_stored.
  - intros p t ???. by eapply H1, Htips.
  - intros _ _ q i Hq Hi. apply elem_of_observed_through.
    destruct (H2 i (H3 q i Hq Hi)) as [(t & Ht & Hti)%elem_of_observed_through|Hi'].
    + exists t. split; [by apply H1|done].
    + exists i. split; [done|]. apply observe_spec. exists i. split; [|done].
      apply resolve_stored. by eapply branch_stored.
Qed.

Lemma missing_branches_nil bl P :
  Dissemination.missing_equivocation_branches bl P = [] ↔
  ∀ q i, q ∈ Cordiality.all_equivocations bl → i ∈ Cordiality.branches q →
    i ∈ Dissemination.observed_through bl P.
Proof.
  unfold Dissemination.missing_equivocation_branches. cbn zeta. set (l := mjoin _).
  assert (∀ i, i ∈ l ↔ ∃ q, q ∈ Cordiality.all_equivocations bl ∧ i ∈ Cordiality.branches q) as Hl.
  { intros i. unfold l. rewrite list_elem_of_join. setoid_rewrite list_elem_of_fmap. naive_solver. }
  split.
  - intros E q i Hq Hi. apply dec_stable. intros Hn.
    assert (i ∈ sort (filter (λ branch, branch ∉ Dissemination.observed_through bl P) l)) as Hin.
    { rewrite sort_perm, list_elem_of_filter. split; [done|]. apply Hl. eauto. }
    rewrite E in Hin. by apply elem_of_nil in Hin.
  - intros Hall. rewrite (proj2 (filter_nil_iff _ _)); [done|].
    intros i (q & Hq & Hi)%Hl Hn. by apply Hn, (Hall q).
Qed.

Lemma next_predecessors_selection bl bonds mode P :
  acyclic bl → Dissemination.next_block_predecessors_with_mode bl bonds mode = Ok P →
  selection bl bonds P.
Proof.
  intros Hac. unfold Dissemination.next_block_predecessors_with_mode. case_decide as Hd.
  { intros [= <-]. assert (∀ i, i ∉ Blocklace.dom bl) as Hno by (rewrite Hd; set_solver). split.
    - set_solver.
    - intros p t _ _ (Ht & _). by apply Hno in Ht.
    - intros q i Hq Hi. exfalso. by eapply Hno, branch_stored.
    - done. }
  cbn zeta. intros Hok. invert_Ok Hok. injection Hok as <-.
  destruct (select_tips bl bonds mode _ Hac eq_refl) as (H1 & H2 & H3). split; [done..| |].
  - destruct mode; [by apply H3|]. apply missing_branches_nil. apply dec_stable. intros ?.
    by apply Hguard0.
  - intros _. unfold Dissemination.required_acknowledgements in Hguard1.
    case_decide as Hn; [|cbn zeta in Hguard1; pose proof (Nat.div_mod_eq (2 * size bonds) 3);
      pose proof (Nat.mod_upper_bound (2 * size bonds) 3); lia].
    assert (size (Dissemination.validator_visible_tips bl bonds) ≠ 0); [|lia].
    intros Ht%map_size_empty_inv. apply Hguard. unfold Dissemination.select_predecessors_with_mode.
    by rewrite Ht, map_iter_empty, decide_True by (by left).
Qed.

End references.

(** ** The candidate block *)

Section candidate.
Context `{HO : HashOrder} `{Blake2b} `{Secp256k1}.
Variables (bl : Blocklace.t) (bonds : gmap NodeId N) (P : gset BlockIdentity) (b : Block).
Hypothesis Hwf : well_formed bl.
Hypothesis Hsel : selection bl bonds P.
Hypothesis Hpreds : predecessors (content b) = set_map consensus_identity P.
#[local] Set Default Proof Using "Type* Hwf Hsel Hpreds".

Lemma elem_of_candidate p : p ∈ predecessors (content b) ↔ ∃ i, p = consensus_identity i ∧ i ∈ P.
Proof. rewrite Hpreds. apply elem_of_map. Qed.

Lemma candidate_resolves p :
  p ∈ predecessors (content b) → is_Some (Blocklace.resolve_identity bl p).
Proof.
  intros (i & -> & Hi%(selection_stored _ _ _ Hsel))%elem_of_candidate.
  rewrite resolve_consensus by (done || apply Hwf). by eexists.
Qed.
Lemma candidate_observes i :
  i ∈ Dissemination.observed_through bl P → i ∈ Cordiality.observed_block_ids bl b.
Proof.
  intros (p & Hp & Hi)%elem_of_observed_through. apply elem_of_observed_through.
  exists (consensus_identity p). split; [apply elem_of_candidate; eauto|].
  rewrite observe_consensus; [done|apply Hwf|by apply (selection_stored _ _ _ Hsel)].
Qed.

Lemma candidate_is_cordial :
  Cordiality.is_cordial_block bl b (ForkChoice.collect_validator_tips bl bonds) = true.
Proof.
  unfold Cordiality.is_cordial_block. guards. split.
  - unfold Cordiality.missing_known_tips. rewrite (proj2 (filter_nil_iff _ _)); [done|].
    intros t ([p t'] & -> & Ht%elem_of_map_iter)%list_elem_of_fmap [_ Hn]. simpl in *.
    apply lookup_validator_tips in Ht as (Hb & Hp & Ht); [|apply Hwf].
    assert (t' ∈ P) as HtP by (by eapply selection_tips). rewrite existsb_false in Hn.
    specialize (Hn (consensus_identity t')). rewrite bool_decide_false_iff in Hn. apply Hn; [|done].
    apply elem_of_hash_iter, elem_of_candidate. eauto.
  - apply no_hidden_equivocations. intros q i Hq Hi.
    by eapply candidate_observes, (selection_branches _ _ _ Hsel).
Qed.

Lemma candidate_extends_chain e :
  creator (identity b) ∉ Blocklace.find_equivacators bl →
  is_Some (bonds !! creator (identity b)) →
  e ∈ Blocklace.blocks_by bl (creator (identity b)) → Validation.conflicts_with b bl e = false.
Proof.
  intros Hne Hb [He Hcr]%elem_of_blocks_by. apply stored_dom in He as Hed.
  destruct (Blocklace.tip_of bl (creator (identity b))) as [t|] eqn:Et.
  2:{ by destruct (tip_of_None _ _ (wf_acyclic _ Hwf) Et _ Hed). }
  apply tip_of_spec in Et as [_ Ht]; [|apply Hwf|done].
  assert (identity t ∈ P) as HtP by (by eapply selection_tips).
  unfold Validation.conflicts_with. guards. left; left. exists (consensus_identity (identity t)).
  split; [apply elem_of_hash_iter, elem_of_candidate; eauto|].
  unfold Blocklace.preceedes_or_equals. rewrite (resolve_stored bl (identity e)) by done.
  rewrite resolve_consensus by (apply Hwf || by apply (selection_stored _ _ _ Hsel)). guards.
  destruct Ht as (Ht & _ & Hall). pose proof (Hall _ Hed Hcr) as Hr. apply rtc_tc in Hr as [->|Htc]; [by left|right].
  by apply precedes_stored.
Qed.

Lemma candidate_passes :
  creator (identity b) ∉ Blocklace.find_equivacators bl →
  is_Some (bonds !! creator (identity b)) →
  content_hash (identity b) = Crypto.block_hash (creator (identity b)) (content b) →
  Crypto.verify (content_hash (identity b)) (creator (identity b)) (signature (identity b)) = true →
  (∀ k, k ∈ Blocklace.dom bl → ¬ same_consensus_identity k (identity b)) →
  passes b bl bonds Validation.strict.
Proof.
  intros Hne Hb Hh Hs Hf. split; intros; try done.
  - by apply candidate_resolves.
  - apply conflicting_None. by right.
  - by apply candidate_extends_chain.
  - apply candidate_is_cordial.
Qed.

End candidate.

(** ** The buffer of pending blocks

    The bounds of the policy, and what a retry leaves in the buffer. *)

Import Pending.

(** ** The bookkeeping invariant *)

(** The policy's bounds hold and every table has an entry for exactly the
    buffered blocks. *)
Record bounded (self : PendingBlockBuffer) : Prop := {
  bounded_entries : size (buffered_blocks self) ≤ max_entries (policy self);
  bounded_creator : ∀ p, entries_by_creator self p ≤ max_entries_per_creator (policy self);
  bounded_missing : dom (missing_predecessors self) = dom (buffered_blocks self);
  bounded_arrival : dom (arrival self) = dom (buffered_blocks self);
  bounded_retry : dom (retry_passes self) = dom (buffered_blocks self)
}.

Section bookkeeping.
Context `{HO : HashOrder}.
Implicit Types (self : PendingBlockBuffer) (bl : Blocklace.t).

Lemma bounded_new policy : bounded (with_policy policy).
Proof.
  split; simpl; rewrite ?dom_empty_L; try done.
  - rewrite map_size_empty. lia.
  - intros p. unfold entries_by_creator. simpl.
    assert (filter (λ id, creator id = p) (dom (∅ : gmap BlockIdentity BlockContent)) = (∅ : gset BlockIdentity))
      as -> by set_solver. rewrite size_empty. lia.
Qed.

(** Only the tables matter. *)
Lemma bounded_ext self self' :
  bounded self → policy self' = policy self →
  dom (buffered_blocks self') = dom (buffered_blocks self) →
  dom (missing_predecessors self') = dom (missing_predecessors self) →
  dom (arrival self') = dom (arrival self) →
  dom (retry_passes self') = dom (retry_passes self) → bounded self'.
Proof.
  intros [H1 H2 H3 H4 H5] Hp Hb Hm Ha Hr. split; rewrite ?Hp; try congruence.
  - by rewrite <-size_dom, Hb, size_dom.
  - intros p. unfold entries_by_creator. rewrite Hb. apply H2.
Qed.

Lemma bounded_forget self id : bounded self → bounded (forget self id).
Proof.
  intros [H1 H2 H3 H4 H5]. split; simpl.
  - pose proof (map_size_delete id (buffered_blocks self)) as Hs.
    destruct (buffered_blocks self !! id); simpl in Hs; lia.
  - intros p. etrans; [|apply (H2 p)]. unfold entries_by_creator. simpl.
    apply subseteq_size. set_solver.
  - by rewrite !dom_delete_L, H3.
  - by rewrite !dom_delete_L, H4.
  - by rewrite !dom_delete_L, H5.
Qed.
Lemma bounded_forget_list self ids : bounded self → bounded (foldl forget self ids).
Proof. revert self. induction ids as [|id ids IH]; intros self Hb; simpl; [done|]. by apply IH, bounded_forget. Qed.

Lemma dom_filter_present {A} (m : gmap BlockIdentity A) (X : gmap BlockIdentity BlockContent) :
  dom (filter (λ e : BlockIdentity * A, is_Some (X !! e.1)) m) = dom m ∩ dom X.
Proof.
  apply set_eq. intros i. rewrite elem_of_intersection, !elem_of_dom. unfold is_Some.
  setoid_rewrite map_lookup_filter_Some. simpl. naive_solver.
Qed.

Lemma bounded_evict_stale self : bounded self → bounded (evict_stale self).
Proof.
  intros Hb. unfold evict_stale. cbn zeta. set (stale := filter _ _). clearbody stale.
  assert (bounded (foldl forget_stale self stale)) as Hb'.
  { revert self Hb. induction stale as [|id l IH]; intros self Hb; simpl; [done|]. apply IH.
    by apply (bounded_ext (forget self id)); [apply bounded_forget|..]. }
  apply (bounded_ext (foldl forget_stale self stale)); simpl; try done;
    rewrite dom_filter_present; destruct Hb' as [_ _ _ Ha Hr]; rewrite ?Ha, ?Hr; set_solver.
Qed.
Lemma bounded_count_pass self : bounded self → bounded (count_pass self).
Proof.
  intros Hb. apply (bounded_ext self); try done. simpl.
  assert (∀ l (m : gmap BlockIdentity N), dom (foldl (λ passes id,
    <[id := ((default 0 (passes !! id) + 1) mod 2 ^ 32)%N]> passes) m l) = dom m ∪ list_to_set l) as Hdom.
  { induction l as [|id l IH]; intros m; simpl; [set_solver|]. rewrite IH, dom_insert_L. set_solver. }
  rewrite Hdom, (bounded_retry _ Hb). apply set_eq. intros i.
  rewrite elem_of_union, elem_of_list_to_set, elem_of_hash_iter. tauto.
Qed.
Lemma bounded_take_resolved self bl : bounded self → bounded (take_resolved_predecessors self bl).2.
Proof. intros Hb. apply (bounded_ext self); try done. simpl. by rewrite dom_fmap_L. Qed.

Lemma oldest_entry_Some self :
  buffered_blocks self ≠ ∅ → ∃ id, oldest_entry self = Some id ∧ id ∈ dom (buffered_blocks self).
Proof.
  intros Hne. unfold oldest_entry. set (l := sort_by_key _ _).
  assert (∀ i, i ∈ l ↔ i ∈ dom (buffered_blocks self)) as Hl.
  { intros i. unfold l. by rewrite sort_by_key_perm, elem_of_hash_iter. }
  destruct l as [|id l'].
  - exfalso. apply Hne, dom_empty_iff_L, set_eq. intros i. rewrite <-Hl. set_solver.
  - exists id. split; [done|]. apply Hl. by left.
Qed.

(** After the eviction there is room for one more entry. *)
Lemma evict_makes_room self :
  bounded self → max_entries (policy self) ≠ 0 →
  let self' := (evict_for_capacity self).1 in
  bounded self' ∧ policy self' = policy self ∧
  size (buffered_blocks self') < max_entries (policy self) ∧
  dom (buffered_blocks self') ⊆ dom (buffered_blocks self).
Proof.
  intros Hb Hm. unfold evict_for_capacity. case_decide as Hd; [|split_and!; simpl; (done || lia)].
  destruct (oldest_entry_Some self) as (id & Hid & Hin).
  { intros E. rewrite E, map_size_empty in Hd. lia. }
  rewrite Hid. simpl. split_and!.
  - apply (bounded_ext (forget self id)); try done. by apply bounded_forget.
  - done.
  - pose proof (map_size_delete id (buffered_blocks self)) as Hs.
    apply elem_of_dom in Hin as [c Hc]. rewrite Hc in Hs. pose proof (bounded_entries _ Hb).
    simpl in Hs. assert (size (buffered_blocks self) ≠ 0) by lia. lia.
  - rewrite dom_delete_L. set_solver.
Qed.

Lemma bounded_buffer self b missing :
  bounded self → bounded (buffer_block_with_missing_predecessors_known self b missing).2.
Proof.
  intros Hb. unfold buffer_block_with_missing_predecessors_known.
  case_decide as Hm; [done|]. cbn zeta.
  destruct (decide (is_Some (buffered_blocks self !! identity b))) as [Hs|Hs].
  { apply elem_of_dom in Hs. destruct Hb as [H1 H2 H3 H4 H5].
    assert (dom (<[identity b := content b]> (buffered_blocks self)) = dom (buffered_blocks self)) as Hd
      by (rewrite dom_insert_L; set_solver).
    apply (bounded_ext self); [by split|done|done| |done|done].
    simpl. rewrite dom_insert_L, H3. set_solver. }
  case_decide as Hq; [by apply (bounded_ext self)|].
  destruct (evict_makes_room self Hb Hm) as (Hb' & Hp & Hroom & Hsub).
  destruct (evict_for_capacity self) as [self' evicted]. simpl in *.
  assert (identity b ∉ dom (buffered_blocks self')) as Hfresh.
  { intros Hin. apply Hs, elem_of_dom. by apply Hsub. }
  destruct Hb' as [H1 H2 H3 H4 H5]. split; simpl.
  - rewrite map_size_insert_None by by apply not_elem_of_dom. rewrite Hp. lia.
  - intros p. rewrite Hp. unfold entries_by_creator in *. simpl. rewrite dom_insert_L.
    destruct (decide (creator (identity b) = p)) as [<-|Hne].
    + assert (filter (λ id, creator id = creator (identity b)) ({[identity b]} ∪ dom (buffered_blocks self'))
        ⊆ {[identity b]} ∪ filter (λ id, creator id = creator (identity b)) (dom (buffered_blocks self)))
        as Hle%subseteq_size by set_solver.
      etrans; [exact Hle|]. rewrite size_union_alt, size_singleton.
      assert (size (filter (λ id, creator id = creator (identity b)) (dom (buffered_blocks self)) ∖
        {[identity b]}) ≤ size (filter (λ id, creator id = creator (identity b))
        (dom (buffered_blocks self)))) by (apply subseteq_size; set_solver). lia.
    + rewrite <-Hp. etrans; [|apply (H2 p)]. apply subseteq_size. set_solver.
  - rewrite !dom_insert_L. by rewrite H3.
  - rewrite !dom_insert_L. by rewrite H4.
  - rewrite !dom_insert_L. by rewrite H5.
Qed.

End bookkeeping.

(** ** Retrying *)

Section retry.
Context `{HO : HashOrder} `{Blake2b} `{Secp256k1}.
Variables (bonds : gmap NodeId N) (config : Validation.ValidationConfig).
Implicit Types (self : PendingBlockBuffer) (bl : Blocklace.t) (acc : pass).

(** One admission of a block of [X]. *)
Definition admits (X : gmap BlockIdentity BlockContent) bl bl' : Prop :=
  ∃ id c, X !! id = Some c ∧
    Validation.validated_insert (mkBlock id c) bl bonds config = (Validation.Valid, bl').

(** Neither stored nor ready: a reference does not resolve. *)
Definition waits bl (id : BlockIdentity) (c : BlockContent) : Prop :=
  Blocklace.content bl id = None ∧ ∃ p, p ∈ predecessors c ∧ Blocklace.content bl p = None.
(** Stored, or returned with its errors. *)
Definition settled bl (rejected : list (Block * list Validation.InvalidBlock)) id c : Prop :=
  is_Some (Blocklace.content bl id) ∨ ∃ errors, (mkBlock id c, errors) ∈ rejected.

Lemma content_stable bl id c bl' p :
  unique_variants bl → Blocklace.commit_validated bl id c = Ok bl' →
  is_Some (Blocklace.content bl p) → is_Some (Blocklace.content bl' p).
Proof.
  intros Hu Hc. rewrite !content_is_Some. intros [r Hr].
  pose proof (commit_resolve bl id c bl' p Hu Hc) as Hres. rewrite Hr in Hres. by exists r.
Qed.
Lemma admits_steps X bl bl' :
  rtc (admits X) bl bl' → unique_variants bl →
  unique_variants bl' ∧ ∀ p, is_Some (Blocklace.content bl p) → is_Some (Blocklace.content bl' p).
Proof.
  induction 1 as [bl|bl m bl' (id & c & _ & [_ Hc]%validated_insert_Valid) _ IH]; intros Hu; [done|].
  destruct IH as [Hu' Hp]; [by eapply commit_unique, Hc|]. split; [done|].
  intros p Hs. by apply Hp, (content_stable bl id c).
Qed.
Lemma admits_mono X Y bl bl' : X ⊆ Y → rtc (admits X) bl bl' → rtc (admits Y) bl bl'.
Proof.
  intros HXY. induction 1 as [bl|bl m bl' (id & c & Hid & Hv) _ IH]; [done|].
  eapply rtc_l; [|exact IH]. exists id, c. split; [by eapply lookup_weaken|done].
Qed.

(** A block with all its references cannot be kept: whatever is wrong with it
    will not go away. *)
Lemma ready_not_kept b bl errors bl' :
  (∀ p, p ∈ predecessors (content b) → is_Some (Blocklace.content bl p)) →
  Validation.validated_insert b bl bonds config = (Validation.Invalid errors, bl') →
  should_keep_buffered_after_validation errors = false.
Proof.
  intros Hready. unfold Validation.validated_insert.
  destruct (Validation.validate_block b bl bonds config) as [|es] eqn:Ev; simpl.
  { destruct (Blocklace.commit_validated _ _ _); [done|]. by intros [= <- _]. }
  intros [= <- _]. unfold Validation.validate_block in Ev. case_decide as Hne; [done|].
  injection Ev as <-. destruct (Validation.validation_errors b bl bonds config) as [|e es] eqn:Ee; [done|].
  apply forallb_false. exists e. split; [by left|].
  assert (e ∈ Validation.validation_errors b bl bonds config) as Hf%errors_faulty by (rewrite Ee; by left).
  destruct e as [| | |missing| | | |]; try done. destruct Hf as [Hm Hall]. exfalso.
  destruct missing as [|p l]; [done|]. destruct (proj1 (Hall p) ltac:(by left)) as [Hp Hn].
  apply Hready in Hp. apply content_is_Some in Hp as [r Hr]. congruence.
Qed.

(** One visit: the entry stays when it waits, and leaves otherwise. *)
Definition visit_outcome self acc (id : BlockIdentity) acc' : Prop :=
  (pass_rejected acc ⊆ pass_rejected acc') ∧
  ((acc' = acc ∧ ∀ c, buffered_blocks self !! id = Some c → waits (lace acc) id c) ∨
   (resolved acc' = resolved acc ++ [id] ∧
    (∀ c, buffered_blocks self !! id = Some c → settled (lace acc') (pass_rejected acc') id c) ∧
    ((lace acc' = lace acc ∧ progress acc' = progress acc) ∨
     (admits (buffered_blocks self) (lace acc) (lace acc') ∧ progress acc' = true)))).

Lemma visit_spec self acc id : visit_outcome self acc id (visit bonds config self acc id).
Proof.
  unfold visit, visit_outcome. destruct (Blocklace.content (lace acc) id) as [c0|] eqn:Ec0; simpl.
  { split; [done|]. right. split_and!; [done| |by left]. intros c _. left. by rewrite Ec0. }
  destruct (buffered_blocks self !! id) as [c|] eqn:Eb.
  2:{ split; [done|]. left. split; [done|]. by intros. }
  cbn zeta. destruct (forallb _ _) eqn:Er.
  2:{ split; [done|]. left. split; [done|]. intros ? [= <-]. split; [done|].
      apply forallb_false in Er as (p & Hp & Hn). rewrite elem_of_hash_iter in Hp.
      rewrite bool_decide_false_iff, <-eq_None_not_Some in Hn. by exists p. }
  assert (∀ p, p ∈ predecessors c → is_Some (Blocklace.content (lace acc) p)) as Hready.
  { intros p Hp. rewrite forallb_true in Er. specialize (Er p). rewrite elem_of_hash_iter in Er.
    by apply (bool_decide_eq_true _), Er. }
  destruct (Validation.validated_insert (mkBlock id c) (lace acc) bonds config) as [[|errors] bl'] eqn:Ev.
  - simpl. split; [done|]. right. split_and!; [done| |].
    + intros ? [= <-]. left. apply validated_insert_Valid in Ev as [_ (Hb & _)%commit_Ok].
      simpl in Hb. exists c. apply content_stored. by rewrite Hb, lookup_insert_eq.
    + right. split; [|done]. by exists id, c.
  - pose proof (ready_not_kept (mkBlock id c) (lace acc) errors bl' Hready Ev) as Hk.
    rewrite Hk. simpl.
    apply validated_insert_Invalid in Ev as ->.
    split; [set_solver|]. right. split_and!; [done| |by left].
    intros ? [= <-]. right. exists errors. set_solver.
Qed.

(** A whole pass over a list of entries. *)
Record pass_result self acc (ids : list BlockIdentity) acc' (left : list BlockIdentity) : Prop := {
  result_runs : rtc (admits (buffered_blocks self)) (lace acc) (lace acc');
  result_resolved : resolved acc' = resolved acc ++ left;
  result_left : left ⊆ ids;
  result_rejected : pass_rejected acc ⊆ pass_rejected acc';
  result_settled : ∀ id c, id ∈ left → buffered_blocks self !! id = Some c →
    settled (lace acc') (pass_rejected acc') id c;
  result_idle : progress acc' = false → progress acc = false ∧ lace acc' = lace acc ∧
    ∀ id c, id ∈ ids → id ∉ left → buffered_blocks self !! id = Some c → waits (lace acc') id c;
  result_progress : progress acc = false → progress acc' = true → left ≠ []
}.

Lemma settled_mono X bl bl' rejected rejected' id c :
  unique_variants bl → rtc (admits X) bl bl' → rejected ⊆ rejected' →
  settled bl rejected id c → settled bl' rejected' id c.
Proof.
  intros Hu Hs Hr [Hc|(e & He)]; [left|right; exists e; by apply Hr].
  by apply (admits_steps _ _ _ Hs Hu).
Qed.

Lemma pass_spec self ids acc :
  unique_variants (lace acc) →
  ∃ left, pass_result self acc ids (foldl (visit bonds config self) acc ids) left.
Proof.
  revert acc. induction ids as [|id ids IH]; intros acc Hu; simpl.
  { exists []. split; [done|by rewrite app_nil_r|done|done|by intros ?? ?%elem_of_nil| |congruence].
    intros ?. split_and!; [done..|]. by intros ?? ?%elem_of_nil. }
  destruct (visit_spec self acc id) as [Hrej [[Hsame Hw]|(Hres & Hset & Hstep)]].
  - rewrite Hsame. destruct (IH acc Hu) as [left [H1 H2 H3 H4 H5 H6 H7]].
    exists left. split; try done; [set_solver|].
    intros Hp. destruct (H6 Hp) as (Hp0 & Hl & Hall). split_and!; [done..|].
    intros i c [->|Hi]%elem_of_cons Hn Hc; [|by apply Hall]. rewrite Hl. by apply Hw.
  - set (acc1 := visit bonds config self acc id) in *.
    assert (rtc (admits (buffered_blocks self)) (lace acc) (lace acc1)) as Hrun.
    { destruct Hstep as [[-> _]|[Ha _]]; [done|by apply rtc_once]. }
    destruct (admits_steps _ _ _ Hrun Hu) as [Hu1 _].
    destruct (IH acc1 Hu1) as [left [H1 H2 H3 H4 H5 H6 H7]].
    exists (id :: left). split.
    + by trans (lace acc1).
    + rewrite H2, Hres. by rewrite <-(assoc_L (++)).
    + set_solver.
    + set_solver.
    + intros i c [->|Hi]%elem_of_cons Hc; [|by apply H5].
      eapply settled_mono; [exact Hu1|exact H1|exact H4|by apply Hset].
    + intros Hp. destruct (H6 Hp) as (Hp1 & Hl & Hall).
      destruct Hstep as [[Hl1 Hp0]|[_ Hp0]]; [|congruence].
      split_and!; [congruence|congruence|].
      intros i c [->|Hi]%elem_of_cons Hn Hc; [set_solver|]. apply Hall; set_solver.
    + done.
Qed.

Lemma forget_list_spec self ids :
  let self' := foldl forget self ids in
  policy self' = policy self ∧
  (∀ id, buffered_blocks self' !! id = if decide (id ∈ ids) then None else buffered_blocks self !! id) ∧
  (∀ id, retry_passes self' !! id = if decide (id ∈ ids) then None else retry_passes self !! id).
Proof.
  revert self. induction ids as [|i ids IH]; intros self; cbn [foldl].
  { split_and!; [done|..]; intros id; by rewrite decide_False by by apply not_elem_of_nil. }
  destruct (IH (forget self i)) as (H1 & H2 & H3). split_and!; [done|..]; intros id.
  - rewrite H2. cbn [buffered_blocks forget]. destruct (decide (id = i)) as [->|Hne].
    + rewrite lookup_delete_eq. rewrite (decide_True (P := i ∈ i :: ids)) by by left. by case_decide.
    + rewrite lookup_delete_ne by done. destruct (decide (id ∈ ids)), (decide (id ∈ i :: ids)); set_solver.
  - rewrite H3. cbn [retry_passes forget]. destruct (decide (id = i)) as [->|Hne].
    + rewrite lookup_delete_eq. rewrite (decide_True (P := i ∈ i :: ids)) by by left. by case_decide.
    + rewrite lookup_delete_ne by done. destruct (decide (id ∈ ids)), (decide (id ∈ i :: ids)); set_solver.
Qed.

(** What the loop leaves: entries that still wait, with the others settled. *)
Record loop_result self bl rejected self' bl' rejected' : Prop := {
  loop_runs : rtc (admits (buffered_blocks self)) bl bl';
  loop_policy : policy self' = policy self;
  loop_rejected : rejected ⊆ rejected';
  loop_sub : buffered_blocks self' ⊆ buffered_blocks self;
  loop_passes : ∀ id, is_Some (buffered_blocks self' !! id) →
    retry_passes self' !! id = retry_passes self !! id;
  loop_entries : ∀ id c, buffered_blocks self !! id = Some c →
    (buffered_blocks self' !! id = Some c ∧ waits bl' id c) ∨
    (buffered_blocks self' !! id = None ∧ settled bl' rejected' id c)
}.

Lemma forget_list_shrinks self (ids left : list BlockIdentity) :
  left ⊆ sort (hash_iter (dom (buffered_blocks self))) → left ≠ [] →
  size (buffered_blocks (foldl forget self left)) < size (buffered_blocks self).
Proof.
  intros Hsub Hne. destruct (forget_list_spec self left) as (_ & Hb & _).
  rewrite <-!size_dom. apply subset_size. split.
  - intros i [c Hi]%elem_of_dom. rewrite Hb in Hi. case_decide; [done|]. apply elem_of_dom. eauto.
  - destruct left as [|i l]; [done|]. intros Hs.
    assert (i ∈ dom (buffered_blocks self)) as Hi.
    { specialize (Hsub i ltac:(by left)). by rewrite sort_perm, elem_of_hash_iter in Hsub. }
    apply Hs, elem_of_dom in Hi as [c Hi]. rewrite Hb, decide_True in Hi by by left. done.
Qed.

Lemma loop_spec fuel self bl rejected :
  unique_variants bl → size (buffered_blocks self) < fuel →
  ∃ self' bl' rejected',
    retry_loop bonds config fuel self bl rejected = Some (self', bl', rejected') ∧
    loop_result self bl rejected self' bl' rejected'.
Proof.
  revert self bl rejected. induction fuel as [|fuel IH]; intros self bl rejected Hu Hf; [lia|].
  cbn [retry_loop]. unfold run_pass. set (ids := sort _).
  destruct (pass_spec self ids (mkPass bl [] rejected false) Hu) as [left Hpass].
  set (acc := foldl _ _ _) in *. destruct Hpass as [H1 H2 H3 H4 H5 H6 H7]. simpl in *.
  destruct (forget_list_spec self left) as (Hp & Hb & Hr). rewrite H2.
  destruct (progress acc) eqn:Eprog.
  - pose proof (forget_list_shrinks self ids left H3 (H7 eq_refl eq_refl)) as Hlt.
    destruct (admits_steps _ _ _ H1 Hu) as [Hu' _].
    destruct (IH (foldl forget self left) (lace acc) (pass_rejected acc) Hu') as (s & l & r & -> & Hres);
      [lia|].
    exists s, l, r. split; [done|]. destruct Hres as [L1 L2 L3 L4 L5 L6].
    assert (buffered_blocks (foldl forget self left) ⊆ buffered_blocks self) as Hsub.
    { apply map_subseteq_spec. intros i c. rewrite Hb. by case_decide. }
    split; [| |by etrans|by etrans|..].
    + etrans; [exact H1|]. by eapply admits_mono.
    + congruence.
    + intros i Hi. rewrite L5 by done. rewrite Hr. case_decide as Hin; [|done].
      destruct Hi as [c Hi]. apply (lookup_weaken _ _ _ _ Hi) in L4. rewrite Hb, decide_True in L4; done.
    + intros i c Hi. destruct (decide (i ∈ left)) as [Hin|Hin].
      * right. split; [|by eapply settled_mono, H5].
        apply eq_None_not_Some. intros [c' Hc']. apply (lookup_weaken _ _ _ _ Hc') in L4.
        rewrite Hb, decide_True in L4; done.
      * apply L6. by rewrite Hb, decide_False.
  - exists (foldl forget self left), (lace acc), (pass_rejected acc). split; [done|].
    destruct (H6 eq_refl) as (_ & Hl & Hw). split; try done.
    + apply map_subseteq_spec. intros i c. rewrite Hb. by case_decide.
    + intros i [c Hi]. rewrite Hr. rewrite Hb in Hi. by case_decide.
    + intros i c Hi. rewrite Hb. destruct (decide (i ∈ left)) as [Hin|Hin].
      * right. split; [done|]. by apply H5.
      * left. split; [done|]. apply Hw; [|done..]. unfold ids.
        rewrite sort_perm, elem_of_hash_iter. apply elem_of_dom. eauto.
Qed.

(** The counting and the eviction that follow the loop. *)
Lemma count_pass_spec self id :
  buffered_blocks (count_pass self) = buffered_blocks self ∧
  policy (count_pass self) = policy self ∧
  (is_Some (buffered_blocks self !! id) →
   retry_passes (count_pass self) !! id =
     Some ((default 0 (retry_passes self !! id) + 1) mod 2 ^ 32)%N).
Proof.
  split_and!; [done..|]. simpl. rewrite <-elem_of_dom.
  assert (∀ l (m : gmap BlockIdentity N), NoDup l → foldl (λ passes id,
    <[id := ((default 0 (passes !! id) + 1) mod 2 ^ 32)%N]> passes) m l !! id =
    if decide (id ∈ l) then Some ((default 0 (m !! id) + 1) mod 2 ^ 32)%N else m !! id) as Hfold.
  { intros l m Hnd. revert m. induction Hnd as [|i l Hi _ IH]; intros m; cbn [foldl].
    - by rewrite decide_False by by apply not_elem_of_nil.
    - rewrite IH. destruct (decide (id = i)) as [->|Hne].
      + rewrite decide_False, decide_True by (done || by left). by rewrite lookup_insert_eq.
      + rewrite lookup_insert_ne by done. destruct (decide (id ∈ l)), (decide (id ∈ i :: l)); set_solver. }
  intros Hid. rewrite Hfold by apply NoDup_hash_iter. by rewrite decide_True by by apply elem_of_hash_iter.
Qed.
Lemma evict_stale_sub self : buffered_blocks (evict_stale self) ⊆ buffered_blocks self.
Proof.
  unfold evict_stale. simpl. generalize (filter (λ id,
    (max_retry_passes (policy self) < default 0 (retry_passes self !! id))%N)
    (hash_iter (dom (buffered_blocks self)))). intros l. revert self.
  induction l as [|i l IH]; intros self; simpl; [done|]. etrans; [apply IH|]. simpl. apply delete_subseteq.
Qed.
(** The entries [evict_stale] picks. *)
Definition is_stale self (id : BlockIdentity) : Prop :=
  (max_retry_passes (policy self) < default 0 (retry_passes self !! id))%N.
Lemma evict_stale_spec self id c :
  buffered_blocks self !! id = Some c →
  buffered_blocks (evict_stale self) !! id =
    if decide (max_retry_passes (policy self) < default 0 (retry_passes self !! id))%N then None
    else Some c.
Proof.
  intros Hid. unfold evict_stale. cbn zeta. simpl.
  set (stale := filter _ _). assert (id ∈ stale ↔ is_stale self id) as Hst.
  { unfold stale, is_stale. rewrite list_elem_of_filter, elem_of_hash_iter, elem_of_dom, Hid. naive_solver. }
  assert (∀ l self, buffered_blocks (foldl forget_stale self l) = buffered_blocks (foldl forget self l))
    as Heq.
  { clear. induction l as [|i l IH]; intros self; simpl; [done|]. rewrite IH.
    assert (∀ s s', buffered_blocks s = buffered_blocks s' →
      buffered_blocks (foldl forget s l) = buffered_blocks (foldl forget s' l)) as Hcong; [|by apply Hcong].
    clear. induction l as [|j l IH]; intros s s' E; simpl; [done|]. apply IH. simpl. by rewrite E. }
  rewrite Heq. destruct (forget_list_spec self stale) as (_ & Hb & _). rewrite Hb.
  unfold is_stale in Hst. destruct (decide (id ∈ stale)), (decide (_ < _)%N); naive_solver.
Qed.

End retry.

(** ** Reachable buffers *)

Section reachable.
Context `{HO : HashOrder} `{Blake2b} `{Secp256k1}.
Implicit Types (self : PendingBlockBuffer).

(** The calls that change a buffer, with any arguments. *)
Inductive buffer_step : PendingBlockBuffer → PendingBlockBuffer → Prop :=
  | step_buffer self b missing :
      buffer_step self (buffer_block_with_missing_predecessors_known self b missing).2
  | step_take self bl : buffer_step self (take_resolved_predecessors self bl).2
  | step_retry self bl bonds config :
      buffer_step self (retry_buffered_blocks bonds config self bl).1.1.

Lemma loop_bounded bonds config fuel self bl rejected self' bl' rejected' :
  retry_loop bonds config fuel self bl rejected = Some (self', bl', rejected') →
  bounded self → bounded self' ∧ policy self' = policy self.
Proof.
  revert self bl rejected. induction fuel as [|fuel IH]; intros self bl rejected; [done|].
  cbn [retry_loop]. set (acc := run_pass _ _ _ _ _). intros E Hb.
  pose proof (forget_list_spec self (resolved acc)) as (Hp & _).
  destruct (progress acc).
  - apply IH in E as [? ?]; [|by apply bounded_forget_list]. split; [done|congruence].
  - injection E as <- _ _. split; [by apply bounded_forget_list|done].
Qed.

Lemma policy_evict_stale self : policy (evict_stale self) = policy self.
Proof.
  unfold evict_stale. simpl. generalize (filter (λ id,
    (max_retry_passes (policy self) < default 0 (retry_passes self !! id))%N)
    (hash_iter (dom (buffered_blocks self)))). intros l. revert self.
  induction l as [|i l IH]; intros self; simpl; [done|]. by rewrite IH.
Qed.

Lemma policy_buffer self b missing :
  policy (buffer_block_with_missing_predecessors_known self b missing).2 = policy self.
Proof.
  assert (policy (evict_for_capacity self).1 = policy self) as He.
  { unfold evict_for_capacity. case_decide; [|done]. by destruct (oldest_entry self). }
  unfold buffer_block_with_missing_predecessors_known. do 3 (case_decide; [done|]).
  by destruct (evict_for_capacity self).
Qed.

Lemma step_bounded self self' :
  buffer_step self self' → bounded self → bounded self' ∧ policy self' = policy self.
Proof.
  intros [s b missing|s bl|s bl bonds config] Hb.
  - split; [by apply bounded_buffer|apply policy_buffer].
  - split; [by apply bounded_take_resolved|done].
  - unfold retry_buffered_blocks. destruct (retry_loop _ _ _ _ _ _) as [[[s' bl'] rejected]|] eqn:E;
      [|done]. cbn [fst]. apply loop_bounded in E as [Hs Hp]; [|done].
    split; [by apply bounded_evict_stale, bounded_count_pass|]. by rewrite policy_evict_stale.
Qed.

End reachable.
