(* ===== verification/ProtocolSamples.v ===== *)
(** * Concrete protocol runs

    Signed blocks admitted one after the other, to evaluate the theorems on
    admission and dissemination. *)

From S2P Require Import Prelude Types Lace LaceFacts Samples Bytes Crypto Quorum Cordiality.
From S2P Require Import Admission AdmissionFacts Dissemination.
From stdpp Require Import options.

#[local] Existing Instance elements_order.
#[local] Existing Instance sample_hash.
#[local] Existing Instance sample_scheme.

Module Sample.

(** The block that [p] signs. *)
Definition signed (p : NodeId) (payload : list byte) (preds : list BlockIdentity) : Block :=
  let c := mkContent payload (list_to_set preds) in
  mkBlock (mkIdentity (Crypto.block_hash p c) p [x01]) c.

Definition a : NodeId := [x0a].
Definition b : NodeId := [x0b].
Definition bonds : gmap NodeId N := {[ a := 10%N; b := 20%N ]}.

(** [a0 <- b1], and [a2] above both. *)
Definition a0 := signed a [x00] [].
Definition b1 := signed b [x01] [consensus_identity (identity a0)].
Definition a2 := signed a [x02] [consensus_identity (identity a0); consensus_identity (identity b1)].

Definition insert (bl : Blocklace.t) (block : Block) : Blocklace.t :=
  (Validation.validated_insert block bl bonds Validation.strict).2.
Definition empty : Blocklace.t := Blocklace.new 0.
Definition lace1 : Blocklace.t := insert empty a0.
Definition lace2 : Blocklace.t := insert lace1 b1.
Definition lace3 : Blocklace.t := insert lace2 a2.

Lemma insert_valid bl block :
  Validation.is_valid (Validation.validated_insert block bl bonds Validation.strict).1 = true →
  Validation.validated_insert block bl bonds Validation.strict = (Validation.Valid, insert bl block).
Proof.
  unfold insert. destruct (Validation.validated_insert block bl bonds Validation.strict) as [[|] ?];
    [done|by intros].
Qed.

Lemma valid1 : Validation.is_valid (Validation.validated_insert a0 empty bonds Validation.strict).1 = true.
Proof. vm_compute. reflexivity. Qed.
Lemma valid2 : Validation.is_valid (Validation.validated_insert b1 lace1 bonds Validation.strict).1 = true.
Proof. vm_compute. reflexivity. Qed.
Lemma valid3 : Validation.is_valid (Validation.validated_insert a2 lace2 bonds Validation.strict).1 = true.
Proof. vm_compute. reflexivity. Qed.

Lemma admitted3 : admitted Validation.strict [a2; b1; a0] lace3.
Proof.
  refine (admitted_insert _ [b1; a0] lace2 a2 bonds lace3 _ (insert_valid lace2 a2 valid3)).
  refine (admitted_insert _ [a0] lace1 b1 bonds lace2 _ (insert_valid lace1 b1 valid2)).
  refine (admitted_insert _ [] empty a0 bonds lace1 _ (insert_valid empty a0 valid1)).
  exact (admitted_new _ 0).
Qed.

(** The two parts of [collision_free], as decidable propositions. *)
Definition sizes_fit (bs : list Block) : Prop :=
  Forall (λ block, fits (creator (identity block)) ∧ fits (payload (content block)) ∧
    (N.of_nat (size (predecessors (content block))) <= u64_max)%N ∧
    Forall (λ r, fits (creator r)) (elements (predecessors (content block)))) bs.
Definition hashes_differ (bs : list Block) : Prop :=
  Forall (λ x, Forall (λ y,
    Crypto.block_hash (creator (identity x)) (content x) =
      Crypto.block_hash (creator (identity y)) (content y) → x = y) bs) bs.

Lemma collision_free_from bs : sizes_fit bs → hashes_differ bs → collision_free bs.
Proof.
  unfold sizes_fit, hashes_differ. rewrite !Forall_forall. intros Hs Hd. split.
  - intros x Hx. destruct (Hs x Hx) as (? & ? & ? & Hr). rewrite Forall_forall in Hr.
    split; [done..|]. intros r ?. by apply Hr, elem_of_elements.
  - intros x y Hx Hy E. pose proof (Hd x Hx) as Hxd. rewrite Forall_forall in Hxd.
    by rewrite (Hxd y Hy E).
Qed.
Lemma collision_free3 : collision_free [a2; b1; a0].
Proof. apply collision_free_from; unfold sizes_fit, hashes_differ, fits; decided. Qed.

End Sample.
