(* ===== verification/ProtocolTheorems.v ===== *)
(** * Theorems: admission, proposals and dissemination

    The properties of [validation.rs], [fork_choice.rs] and
    [dissemination.rs], each with an instance on concrete blocks. *)

From S2P Require Import Prelude Types Lace LaceFacts Samples Bytes Crypto Rounds RoundFacts.
From S2P Require Import Quorum.
From S2P Require Import Cordiality CordialityFacts Admission AdmissionFacts.
From S2P Require Import Dissemination DisseminationFacts ProtocolSamples.
From stdpp Require Import options.

Section theorems.
Context `{HO : HashOrder} `{Blake2b} `{Secp256k1}.
Implicit Types (bl : Blocklace.t) (bonds : gmap NodeId N).

(** C22: validated insertion maintains the chain axiom.  When the hash, closure
    and chain checks are on and the admitted blocks have no hash collision,
    every blocklace reached by successful [validated_insert] calls (under
    whatever bonds) is well formed, stores every block under its own hash, and
    contains no equivocator. *)
Theorem admission_excludes_equivocation config bs bl :
  checking config → collision_free bs → admitted config bs bl →
  well_formed bl ∧ Blocklace.is_closed bl = true ∧ hashed bl ∧ Blocklace.find_equivacators bl = ∅.
Proof.
  intros Hcfg Hcf Hadm. destruct (admission_invariant config bs bl Hcfg Hcf Hadm).
  split_and!; [done|by apply is_closed_spec, wf_closed|done|by apply chained_no_equivocators].
Qed.

(** C26: a block is valid exactly when every enabled check passes, and a valid
    one is stored.  An invalid one leaves the blocklace unchanged, and every
    error reported for it is true: the hash or signature does not match, the
    sender has no bond, the listed references do not resolve, a stored variant
    has the same consensus identity, or a stored block of the creator is
    neither observed by the new one nor observes it. *)
Theorem validation_is_exact b bl bonds config :
  match Validation.validated_insert b bl bonds config with
  | (Validation.Valid, bl') =>
      passes b bl bonds config ∧
      Blocklace.blocks bl' = <[identity b := content b]> (Blocklace.blocks bl)
  | (Validation.Invalid errors, bl') =>
      ¬ passes b bl bonds config ∧ bl' = bl ∧ errors ≠ [] ∧
      ∀ e, e ∈ errors → faulty b bl bonds e
  end.
Proof.
  unfold Validation.validated_insert.
  destruct (Validation.validate_block b bl bonds config) as [|es] eqn:Ev; simpl.
  - destruct (valid_commits b bl bonds config Ev) as [bl' Hc]. rewrite Hc.
    split; [by apply validate_passes|]. apply commit_Ok in Hc as [Hb _]. done.
  - split_and!; [by rewrite <-validate_passes, Ev|done|..];
      unfold Validation.validate_block in Ev; case_decide; try done; injection Ev as <-; [done|].
    intros e. apply errors_faulty.
Qed.

(** C24: a proposal built from the local view is accepted by strict
    validation.  In either mode, a successful candidate references the tips of
    more than two thirds of the bonded validators (unless the blocklace is
    empty) and shows every known equivocation, so a bonded validator that does
    not equivocate can sign it and its block passes every check, the chain
    axiom and cordiality included, and is inserted. *)
Theorem proposals_pass_strict_validation bl bonds payload mode c b :
  well_formed bl →
  Dissemination.build_block_candidate_with_mode bl bonds payload mode = Ok c →
  content b = c → is_Some (bonds !! creator (identity b)) →
  creator (identity b) ∉ Blocklace.find_equivacators bl →
  content_hash (identity b) = Crypto.block_hash (creator (identity b)) c →
  Crypto.verify (content_hash (identity b)) (creator (identity b)) (signature (identity b)) = true →
  (∀ k, k ∈ Blocklace.dom bl → ¬ same_consensus_identity k (identity b)) →
  Validation.validate_block b bl bonds Validation.strict = Validation.Valid ∧
  (∃ bl', Validation.validated_insert b bl bonds Validation.strict = (Validation.Valid, bl')) ∧
  (Blocklace.dom bl ≠ ∅ → ∃ X : gset NodeId, X ⊆ dom bonds ∧ 2 * size bonds < 3 * size X ∧
     ∀ p, p ∈ X → ∃ t, is_tip bl p t ∧ consensus_identity t ∈ predecessors c).
Proof.
  intros Hwf Hok Hbc Hbond Hne Hhash Hsig Hfresh.
  unfold Dissemination.build_block_candidate_with_mode in Hok. invert_Ok Hok.
  apply (next_predecessors_selection bl bonds mode) in Hok0 as Hsel; [|apply Hwf].
  injection Hok as <-.
  assert (Validation.validate_block b bl bonds Validation.strict = Validation.Valid) as Hv.
  { apply validate_passes, (candidate_passes _ _ x); try done; rewrite ?Hbc; done. }
  split_and!; [done|..].
  - destruct (valid_commits _ _ _ _ Hv) as [bl' Hc]. exists bl'. by apply validated_insert_Valid.
  - intros Hd. exists (dom (Dissemination.validator_visible_tips bl bonds)).
    split_and!.
    + intros p [t (Hb & _)%lookup_validator_tips]%elem_of_dom; [by apply elem_of_dom|apply Hwf].
    + rewrite size_dom. by apply (selection_quorum _ _ _ Hsel).
    + intros p [t Ht]%elem_of_dom. apply lookup_validator_tips in Ht as (Hb & Hp & Ht); [|apply Hwf].
      exists t. split; [done|]. simpl. apply elem_of_map_2. by eapply selection_tips.
Qed.

(** The fork choice is the stake-weighted choice over the honest tips.  It
    ranks exactly the tips of the bonded validators that do not equivocate, by
    descending score and then by hash; its common ancestor is observed by all
    of them and is not below another such block; and the score of each block
    is the stake of the validators whose tips reach the common ancestor through
    it (total stake within [u64]).  It fails only when there is no such tip or
    the tips have no common ancestor. *)
Theorem fork_choice_is_exact bl bonds :
  well_formed bl → Blocklace.checkpoint bl = None →
  (set_weight (bonded_stake bonds) (dom bonds) <= u64_max)%N →
  match ForkChoice.fork_choice bl bonds with
  | Some fc =>
      NoDup (ForkChoice.tips fc) ∧
      (∀ t, t ∈ ForkChoice.tips fc ↔ ∃ p, eligible bl bonds p t) ∧
      StronglySorted (λ a b, ForkChoice.rank (ForkChoice.scores fc) a b ≠ Gt) (ForkChoice.tips fc) ∧
      is_lca bl (ForkChoice.tips fc) (ForkChoice.lca fc) ∧
      ∀ x, ∃ X : gset NodeId,
        (∀ p, p ∈ X ↔ ∃ t, eligible bl bonds p t ∧ rtc (points bl) t x ∧
           rtc (points bl) x (ForkChoice.lca fc)) ∧
        default 0%N (ForkChoice.scores fc !! x) = set_weight (bonded_stake bonds) X
  | None =>
      (∀ p t, ¬ eligible bl bonds p t) ∨
      ∀ x, ¬ ∀ p t, eligible bl bonds p t → rtc (points bl) t x
  end.
Proof.
  intros Hwf Hcp Hmax. pose proof (wf_acyclic _ Hwf) as Hac.
  pose proof (λ t, elem_of_tip_list bl bonds t Hac) as Helem.
  pose proof (λ t, tip_list_stored bl bonds t Hac) as Hst.
  rewrite fork_choice_unfold. case_decide as Hnil.
  { left. intros p t Ht. apply (not_elem_of_nil t). rewrite <-Hnil. apply Helem. by exists p. }
  destruct (ForkChoice.compute_lca bl (tip_list bl bonds)) as [l|] eqn:El; simpl.
  2:{ right. intros x Hx. eapply (compute_lca_None bl _ Hac Hst El Hnil x).
      intros t (p & Ht)%Helem. by eapply Hx. }
  apply compute_lca_Some in El as [Hl1 Hl2]; [|done..].
  set (scores := foldl _ _ _). pose proof (retain_unseen_spec ∅ (tip_list bl bonds)) as Hret.
  assert (∀ t, t ∈ sort_by (ForkChoice.rank scores) (ForkChoice.retain_unseen ∅ (tip_list bl bonds)) ↔
    t ∈ tip_list bl bonds) as Hsort.
  { intros t. rewrite sort_by_perm, (proj1 (Hret t)). set_solver. }
  split_and!.
  - rewrite sort_by_perm. apply (Hret l).
  - intros t. by rewrite Hsort, Helem.
  - unshelve eapply (StronglySorted_merge_sort (λ a b, ForkChoice.rank scores a b ≠ Gt)).
    + apply rank_trans.
    + intros a b. apply rank_total.
  - split; [intros t Ht; apply Hl1; by apply Hsort|].
    intros x Hx. apply Hl2. intros t Ht. apply Hx. by apply Hsort.
  - intros x. by apply scores_spec.
Qed.

(** C27: whatever sequence of calls it goes through, the buffer respects its
    policy (never more than [max_entries] blocks, never more than
    [max_entries_per_creator] of one creator), and its bookkeeping tables have
    an entry for exactly the buffered blocks. *)
Theorem buffer_stays_bounded policy self :
  rtc buffer_step (Pending.with_policy policy) self →
  Pending.policy self = policy ∧
  size (Pending.buffered_blocks self) ≤ Pending.max_entries policy ∧
  (∀ p, Pending.entries_by_creator self p ≤ Pending.max_entries_per_creator policy) ∧
  dom (Pending.missing_predecessors self) = dom (Pending.buffered_blocks self) ∧
  dom (Pending.arrival self) = dom (Pending.buffered_blocks self) ∧
  dom (Pending.retry_passes self) = dom (Pending.buffered_blocks self).
Proof.
  intros Hs. assert (bounded self ∧ Pending.policy self = policy) as [[H1 H2 H3 H4 H5] <-]; [|done].
  assert (bounded (Pending.with_policy policy) ∧ Pending.policy (Pending.with_policy policy) = policy)
    as Hstart by (split; [apply bounded_new|done]).
  revert Hstart. induction Hs as [s|s s' s'' Hstep _ IH]; [done|]. intros [Hb Hp]. apply IH.
  apply step_bounded in Hstep as [? ?]; [|done]. split; [done|congruence].
Qed.

(** C25: a retry terminates and leaves nothing behind that could have made
    progress.  The new blocklace is reached by admitting buffered blocks
    through [validated_insert]; every block that was buffered is in the end
    stored, or handed back with its errors, or still lacks a reference; and
    one that still waits stays buffered unless it used up its retry passes. *)
Theorem retry_settles_ready_blocks bonds config self bl :
  unique_variants bl →
  let '(self', bl', rejected) := Pending.retry_buffered_blocks bonds config self bl in
  rtc (admits bonds config (Pending.buffered_blocks self)) bl bl' ∧
  ∀ id c, Pending.buffered_blocks self !! id = Some c →
    (Pending.buffered_blocks self' !! id = None ∧ settled bl' rejected id c) ∨
    (waits bl' id c ∧
     let passes := ((default 0 (Pending.retry_passes self !! id) + 1) mod 2 ^ 32)%N in
     Pending.buffered_blocks self' !! id =
       if decide (Pending.max_retry_passes (Pending.policy self) < passes)%N then None else Some c).
Proof.
  intros Hu. unfold Pending.retry_buffered_blocks, Pending.retry_fuel.
  destruct (loop_spec bonds config (S (size (Pending.buffered_blocks self))) self bl [] Hu)
    as (s & bl' & rejected & -> & [H1 H2 H3 H4 H5 H6]); [lia|].
  split; [done|]. intros id c Hid. destruct (H6 id c Hid) as [[Hs Hw]|[Hs Hset]].
  - right. split; [done|]. cbn zeta.
    destruct (count_pass_spec s id) as (Hb & Hp & Hr). assert (is_Some (Pending.buffered_blocks s !! id)) as Hsome by eauto.
    rewrite (evict_stale_spec _ id c) by (by rewrite Hb). rewrite (Hr Hsome), (H5 id Hsome), Hp, H2. done.
  - left. split; [|done]. apply eq_None_not_Some. intros [c' Hc'].
    assert (Pending.buffered_blocks (Pending.evict_stale (Pending.count_pass s)) ⊆ Pending.buffered_blocks s)
      as Hsub by apply (evict_stale_sub (Pending.count_pass s)).
    apply (lookup_weaken _ _ _ _ Hc') in Hsub. congruence.
Qed.

End theorems.

(** ** Instances *)

#[local] Existing Instance elements_order.
#[local] Existing Instance sample_hash.
#[local] Existing Instance sample_scheme.

Lemma admission_excludes_equivocation_witness :
  checking Validation.strict ∧ collision_free [Sample.a2; Sample.b1; Sample.a0] ∧
  admitted Validation.strict [Sample.a2; Sample.b1; Sample.a0] Sample.lace3 ∧
  Blocklace.find_equivacators Sample.lace3 = ∅.
Proof.
  assert (checking Validation.strict) as Hc by done.
  split; [exact Hc|]. split; [exact Sample.collision_free3|]. split; [exact Sample.admitted3|].
  apply (admission_excludes_equivocation _ _ _ Hc Sample.collision_free3 Sample.admitted3).
Defined.

Lemma lace3_well_formed : well_formed Sample.lace3.
Proof. by eapply ok_well_formed, admission_invariant; [|apply Sample.collision_free3|apply Sample.admitted3]. Qed.

(** The next proposal on the three blocks, and the block [b] makes of it. *)
Definition candidate : BlockContent :=
  or_default (mkContent [] ∅)
    (Dissemination.build_block_candidate_with_mode Sample.lace3 Sample.bonds [x03]
       Dissemination.Strict).
Definition proposal : Block :=
  mkBlock (mkIdentity (Crypto.block_hash Sample.b candidate) Sample.b [x01]) candidate.

Lemma candidate_built :
  Dissemination.build_block_candidate_with_mode Sample.lace3 Sample.bonds [x03]
    Dissemination.Strict = Ok candidate.
Proof. apply or_default_Ok. vm_compute. reflexivity. Qed.
Lemma proposal_fresh k :
  k ∈ Blocklace.dom Sample.lace3 → ¬ same_consensus_identity k (identity proposal).
Proof.
  intros Hk. rewrite <-elem_of_elements in Hk. revert k Hk. apply Forall_forall. decided.
Qed.

Lemma proposals_pass_strict_validation_witness :
  is_Some (Sample.bonds !! Sample.b) ∧ Sample.b ∉ Blocklace.find_equivacators Sample.lace3 ∧
  Validation.validate_block proposal Sample.lace3 Sample.bonds Validation.strict = Validation.Valid.
Proof.
  assert (is_Some (Sample.bonds !! Sample.b)) as Hb by decided.
  assert (Sample.b ∉ Blocklace.find_equivacators Sample.lace3) as Hn by decided.
  split; [exact Hb|]. split; [exact Hn|].
  eapply proposals_pass_strict_validation; [exact lace3_well_formed|exact candidate_built|
    reflexivity|exact Hb|exact Hn|reflexivity|reflexivity|exact proposal_fresh].
Defined.

Lemma fork_choice_is_exact_witness :
  (set_weight (bonded_stake Sample.bonds) (dom Sample.bonds) <= u64_max)%N ∧
  match ForkChoice.fork_choice Sample.lace3 Sample.bonds with
  | Some fc => is_lca Sample.lace3 (ForkChoice.tips fc) (ForkChoice.lca fc)
  | None => False
  end.
Proof.
  assert (set_weight (bonded_stake Sample.bonds) (dom Sample.bonds) <= u64_max)%N as Hmax by decided.
  split; [exact Hmax|].
  assert (Blocklace.checkpoint Sample.lace3 = None) as Hcp by (vm_compute; reflexivity).
  pose proof (fork_choice_is_exact Sample.lace3 Sample.bonds lace3_well_formed Hcp Hmax) as Hfc.
  assert (is_Some (ForkChoice.fork_choice Sample.lace3 Sample.bonds)) as Hs by decided.
  destruct (ForkChoice.fork_choice Sample.lace3 Sample.bonds) as [fc|]; [|by destruct Hs].
  apply Hfc.
Defined.

(** [a2] and [b1] arrive before [b1] can be admitted; a retry admits both. *)
Definition tight : Pending.BufferPolicy := Pending.mkPolicy 2 1 64.
Definition buffer1 : Pending.PendingBlockBuffer :=
  (Pending.buffer_block_with_missing_predecessors_known (Pending.with_policy tight) Sample.a2
     {[consensus_identity (identity Sample.b1)]}).2.
Definition buffer2 : Pending.PendingBlockBuffer :=
  (Pending.buffer_block_with_missing_predecessors_known buffer1 Sample.b1 ∅).2.

Lemma buffer_stays_bounded_witness :
  rtc buffer_step (Pending.with_policy tight) buffer2 ∧
  size (Pending.buffered_blocks buffer2) ≤ Pending.max_entries tight.
Proof.
  assert (rtc buffer_step (Pending.with_policy tight) buffer2) as Hs.
  { apply rtc_l with buffer1; [exact (step_buffer _ _ _)|].
    apply rtc_once. exact (step_buffer _ _ _). }
  split; [exact Hs|].
  destruct (buffer_stays_bounded tight buffer2 Hs) as (_ & Hsize & _). exact Hsize.
Defined.

Lemma lace1_unique : unique_variants Sample.lace1.
Proof.
  intros i j Hi Hj. assert (∀ k, k ∈ Blocklace.dom Sample.lace1 → k = identity Sample.a0) as Hall.
  { intros k Hk%elem_of_elements. revert k Hk. apply Forall_forall. decided. }
  by rewrite (Hall i Hi), (Hall j Hj).
Qed.

Lemma retry_settles_ready_blocks_witness :
  let r := Pending.retry_buffered_blocks Sample.bonds Validation.default buffer2 Sample.lace1 in
  r.1.1.(Pending.buffered_blocks) !! identity Sample.a2 = None ∧
  settled r.1.2 r.2 (identity Sample.a2) (content Sample.a2).
Proof.
  pose proof (retry_settles_ready_blocks Sample.bonds Validation.default buffer2 Sample.lace1
    lace1_unique) as Hretry. cbn zeta.
  assert (Pending.buffered_blocks (Pending.retry_buffered_blocks Sample.bonds Validation.default
    buffer2 Sample.lace1).1.1 !! identity Sample.a2 = None) as Hgone by decided.
  split; [exact Hgone|].
  destruct (Pending.retry_buffered_blocks Sample.bonds Validation.default buffer2 Sample.lace1)
    as [[self' bl'] rejected]. destruct Hretry as [_ Hretry].
  assert (Pending.buffered_blocks buffer2 !! identity Sample.a2 = Some (content Sample.a2)) as Hin
    by decided.
  destruct (Hretry _ _ Hin) as [[_ Hset]|[_ Hkept]]; [exact Hset|].
  exfalso. revert Hkept. cbn zeta. cbn [fst snd] in Hgone. rewrite Hgone.
  rewrite decide_False by decided. discriminate.
Defined.
