(* ===== verification/Evidence.v ===== *)
(** * Equivocation evidence

    [consensus/evidence.rs]: the pool of retained claims and their capture
    when a block is rejected; [consensus/verified_evidence.rs]: the
    authentication of a claim against the blocklace, and the proof bytes.  The
    generic pool is modelled at the types the crate uses it with
    ([CordialEvidencePool]). *)

From S2P Require Import Prelude Types Lace Bytes Crypto Rounds Quorum Cordiality Admission.
From stdpp Require Import options.

(** ** [evidence.rs] *)

Record EquivocationEvidence := mkEvidence {
  validator : NodeId;
  evidence_round : N;
  evidence_blocks : list Block
}.

Module EvidencePool.

Abbreviation EvidenceBucket := (gmap (list BlockIdentity) EquivocationEvidence).
(** The records: by validator, by round, by the identities of the blocks. *)
Abbreviation t := (gmap NodeId (gmap N EvidenceBucket)).

Definition new : t := ∅.

(** [unique_blocks.entry(block.evidence_id()).or_insert(block)]. *)
Definition add_unique (unique_blocks : gmap BlockIdentity BlockContent) (b : Block) :
    gmap BlockIdentity BlockContent :=
  match unique_blocks !! identity b with
  | Some _ => unique_blocks
  | None => <[identity b := content b]> unique_blocks
  end.

Definition record_equivocation (self : t) (validator : NodeId) (round : N) (blocks : list Block) :
    bool * t :=
  let unique_blocks := foldl add_unique ∅ blocks in
  if decide (size unique_blocks < 2) then (false, self)
  else
    let entries := btree_map_iter unique_blocks in
    let evidence_key := entries.*1 in
    let rounds := default ∅ (self !! validator) in
    let bucket : EvidenceBucket := default ∅ (rounds !! round) in
    match bucket !! evidence_key with
    | Some _ => (false, self)
    | None =>
      let evidence := mkEvidence validator round (map entry_block entries) in
      (true, <[validator := <[round := <[evidence_key := evidence]> bucket]> rounds]> self)
    end.

(** The claims of a bucket, of a validator, of a round, in key order. *)
Definition bucket_values (bucket : EvidenceBucket) : list EquivocationEvidence :=
  (btree_map_iter bucket).*2.
Definition evidence_for (self : t) (validator : NodeId) : list EquivocationEvidence :=
  match self !! validator with
  | Some rounds => mjoin (map (λ e, bucket_values e.2) (btree_map_iter rounds))
  | None => []
  end.
Definition evidence_by_round (self : t) (round : N) : list EquivocationEvidence :=
  mjoin (omap (λ e : NodeId * gmap N EvidenceBucket, bucket_values <$> e.2 !! round)
    (btree_map_iter self)).
Definition equivocating_validators_in_round (self : t) (round : N) : list NodeId :=
  map fst (filter (λ e : NodeId * gmap N EvidenceBucket,
    default ∅ (e.2 !! round) ≠ ∅) (btree_map_iter self)).
Definition len (self : t) : nat :=
  sum_list_with (λ e : NodeId * gmap N EvidenceBucket,
    sum_list_with (λ r : N * EvidenceBucket, size r.2) (btree_map_iter e.2)) (btree_map_iter self).
Definition is_empty (self : t) : bool := bool_decide (len self = 0).

(** The loop over the errors of a rejected block. *)
Definition record_error `{HashOrder} (rejected : Block) (bl : Blocklace.t) (acc : bool * t)
    (error : Validation.InvalidBlock) : bool * t :=
  match error with
  | Validation.Equivocation conflicting =>
    match Blocklace.get bl conflicting, Round.depth bl conflicting,
          Round.candidate_depth bl (content rejected) with
    | Some held, Some round, Some rejected_round =>
      let '(added, pool) := record_equivocation acc.2 (creator (identity rejected))
        (N.min round rejected_round) [rejected; held] in
      (acc.1 || added, pool)
    | _, _, _ => acc
    end
  | _ => acc
  end.

Definition record_rejected_equivocation `{HashOrder} (rejected : Block)
    (errors : list Validation.InvalidBlock) (bl : Blocklace.t) (pool : t) : bool * t :=
  foldl (record_error rejected bl) (false, pool) errors.

End EvidencePool.

(** ** [verified_evidence.rs] *)

Module VerifiedEvidence.

Inductive EvidenceVerificationError :=
  | TooFewBlocks | MalformedEncoding | WrongCreator | InvalidHash | InvalidSignature
  | DuplicateBlock | InvalidBlock | MissingHistory | WrongRound | ComparableBlocks.
#[export] Instance EvidenceVerificationError_eq_dec : EqDecision EvidenceVerificationError.
Proof. solve_decision. Defined.

(** [VerifiedEquivocationEvidence]. *)
Record t := mk {
  verified_validator : NodeId;
  verified_round : N;
  verified_blocks : list Block
}.

Section encoding.
Context `{HO : HashOrder}.

Definition PROOF_DOMAIN : list byte := literal "cordial:verified-equivocation:v1".

(** Predecessors by their signature-independent identity. *)
Definition reference_bytes (id : BlockIdentity) : list byte :=
  vec_to_list (content_hash id) ++ field (creator id).
Definition block_bytes (b : Block) : list byte :=
  let preds := sort_by_key Crypto.reference_key (hash_iter (predecessors (content b))) in
  vec_to_list (content_hash (identity b)) ++ field (creator (identity b)) ++
  field (signature (identity b)) ++ field (payload (content b)) ++
  be64 (N.of_nat (length preds) mod 2 ^ 64) ++ mjoin (map reference_bytes preds).

Definition canonical_bytes (self : t) : list byte :=
  PROOF_DOMAIN ++ field (verified_validator self) ++ be64 (verified_round self) ++
  be64 (N.of_nat (length (verified_blocks self)) mod 2 ^ 64) ++
  mjoin (map block_bytes (verified_blocks self)).

(** [decode_equivocation_evidence]: the cursor and its reads. *)
Abbreviation reader := (parser EvidenceVerificationError).

Definition number : reader N := read_uint MalformedEncoding 8.
Definition bytes : reader (list byte) :=
  read n := number in read_exact MalformedEncoding (N.to_nat n).
Definition count : reader nat :=
  read n := number in
  read available := remaining in
  if decide (N.of_nat (available / 32) < n)%N then parse_fail MalformedEncoding
  else parse_ret (N.to_nat n).

Definition read_reference : reader BlockIdentity :=
  read hash := read_hash MalformedEncoding in
  read creator := bytes in
  parse_ret (mkIdentity hash creator []).

(** [if !predecessors.insert(identity) { return Err(Bad) }]. *)
Fixpoint read_references (n : nat) (seen : gset BlockIdentity) : reader (gset BlockIdentity) :=
  match n with
  | O => parse_ret seen
  | S n =>
    read reference := read_reference in
    if decide (reference ∈ seen) then parse_fail MalformedEncoding
    else read_references n ({[reference]} ∪ seen)
  end.

Definition read_block : reader Block :=
  read hash := read_hash MalformedEncoding in
  read creator := bytes in
  read signature := bytes in
  read payload := bytes in
  read n := count in
  read predecessors := read_references n ∅ in
  parse_ret (mkBlock (mkIdentity hash creator signature) (mkContent payload predecessors)).

Definition read_claim : reader EquivocationEvidence :=
  read validator := bytes in
  read round := number in
  read n := count in
  read blocks := read_many read_block n in
  parse_ret (mkEvidence validator round blocks).

Definition decode_equivocation_evidence (input : list byte) :
    result EquivocationEvidence EvidenceVerificationError :=
  if decide (take (length PROOF_DOMAIN) input = PROOF_DOMAIN) then
    match read_claim (drop (length PROOF_DOMAIN) input) with
    | Ok (claim, []) => Ok claim
    | Ok (_, _ :: _) => Err MalformedEncoding
    | Err e => Err e
    end
  else Err MalformedEncoding.

End encoding.

Section verification.
Context `{HO : HashOrder} `{Blake2b} `{Secp256k1}.
Implicit Types (bl : Blocklace.t) (b : Block).

(** ** The walk over the complete history *)

(** What the loop of [complete_history] carries besides its stack. *)
Record walk := mkWalk {
  rounds : gmap BlockIdentity N;
  visiting : gset BlockIdentity;
  ancestors : gset BlockIdentity
}.

Definition hash_matches b : bool :=
  bool_decide (Crypto.block_hash (creator (identity b)) (content b) = content_hash (identity b)).

(** The round of an expanded block, from those of its predecessors. *)
Definition round_above (rounds : gmap BlockIdentity N) (round : N) (predecessor : BlockIdentity) :
    result N EvidenceVerificationError :=
  let? predecessor_round := ok_or (rounds !! consensus_identity predecessor) MissingHistory in
  let? next := ok_or (checked_add u64_max predecessor_round 1) InvalidBlock in
  Ok (N.max round next).

(** Pushes the predecessors of a block, recording them as ancestors. *)
Definition push_ancestor bl (acc : list (Block * bool) * gset BlockIdentity)
    (predecessor : BlockIdentity) :
    result (list (Block * bool) * gset BlockIdentity) EvidenceVerificationError :=
  let id := consensus_identity predecessor in
  let? ancestor := ok_or (Blocklace.get bl id) MissingHistory in
  Ok ((ancestor, false) :: acc.1, {[id]} ∪ acc.2).

Fixpoint history_loop bl (fuel : nat) (stack : list (Block * bool)) (w : walk) :
    option (result walk EvidenceVerificationError) :=
  match stack with
  | [] => Some (Ok w)
  | (current, expanded) :: stack =>
    match fuel with
    | O => None
    | S fuel =>
      let id := consensus_identity (identity current) in
      if decide (is_Some (rounds w !! id)) then history_loop bl fuel stack w
      else if negb (hash_matches current) then Some (Err InvalidHash)
      else if (expanded : bool) then
        match try_fold (round_above (rounds w)) 0%N (hash_iter (predecessors (content current))) with
        | Err e => Some (Err e)
        | Ok round =>
          history_loop bl fuel stack
            (mkWalk (<[id := round]> (rounds w)) (visiting w ∖ {[id]}) (ancestors w))
        end
      else if decide (id ∈ visiting w) then Some (Err InvalidBlock)
      else
        match try_fold (push_ancestor bl) ((current, true) :: stack, ancestors w)
                (hash_iter (predecessors (content current))) with
        | Err e => Some (Err e)
        | Ok (stack, ancestors) =>
          history_loop bl fuel stack (mkWalk (rounds w) ({[id]} ∪ visiting w) ancestors)
        end
    end
  end.

(** Every block is expanded at most once: one pop for its expansion, one for
    its completion, and one per reference. *)
Definition history_fuel bl b : nat :=
  2 + size (predecessors (content b)) +
  N.to_nat (set_weight (λ i, 1 + ForkChoice.reference_count bl i)%N (Blocklace.dom bl)).

(** [rounds[&id]] is present when the walk succeeds. *)
Definition complete_history_opt b bl :
    option (result (N * gset BlockIdentity) EvidenceVerificationError) :=
  r ← history_loop bl (history_fuel bl b) [(b, false)] (mkWalk ∅ ∅ ∅);
  match r with
  | Err e => Some (Err e)
  | Ok w =>
    round ← rounds w !! consensus_identity (identity b);
    Some (Ok (round, ancestors w))
  end.
(** The walk always ends within its fuel, with the round of the block: the
    default is never used (see [complete_history_opt_total]). *)
Definition complete_history b bl : result (N * gset BlockIdentity) EvidenceVerificationError :=
  default (Err MissingHistory) (complete_history_opt b bl).

(** ** The verification *)

(** What the first loop carries: the identities seen, the earliest round, the
    histories. *)
Record checked := mkChecked {
  identities : gset BlockIdentity;
  earliest_round : N;
  histories : list (gset BlockIdentity)
}.

Definition check_block bl (expected : NodeId) (acc : checked) b :
    result checked EvidenceVerificationError :=
  bail WrongCreator when creator (identity b) ≠ expected;
  bail InvalidHash when hash_matches b = false;
  bail InvalidSignature
    when Crypto.verify (content_hash (identity b)) expected (signature (identity b)) = false;
  let id := consensus_identity (identity b) in
  bail DuplicateBlock when id ∈ identities acc;
  let? history := complete_history b bl in
  Ok (mkChecked ({[id]} ∪ identities acc) (N.min (earliest_round acc) history.1)
        (histories acc ++ [history.2])).

(** The nested loops over the pairs of blocks. *)
Fixpoint incomparable (blocks : list (Block * gset BlockIdentity)) :
    result unit EvidenceVerificationError :=
  match blocks with
  | [] => Ok tt
  | (first, first_history) :: rest =>
    bail ComparableBlocks
      when existsb (λ other : Block * gset BlockIdentity,
        bool_decide (consensus_identity (identity other.1) ∈ first_history ∨
                     consensus_identity (identity first) ∈ other.2)) rest = true;
    incomparable rest
  end.

Definition verify_equivocation_evidence (raw : EquivocationEvidence) bl :
    result t EvidenceVerificationError :=
  bail TooFewBlocks when length (evidence_blocks raw) < 2;
  let? acc := try_fold (check_block bl (validator raw)) (mkChecked ∅ u64_max [])
    (evidence_blocks raw) in
  bail WrongRound when earliest_round acc ≠ evidence_round raw;
  let? _ := incomparable (zip (evidence_blocks raw) (histories acc)) in
  Ok (mk (validator raw) (earliest_round acc) (sort_by_key identity (evidence_blocks raw))).

End verification.
End VerifiedEvidence.
