(* ===== verification/EvidenceFacts.v ===== *)
(** * Properties of equivocation evidence

    The walk over the complete history of a block: when it succeeds, and what
    it then computes. *)

From S2P Require Import Prelude Types Lace Bytes Crypto LaceFacts Rounds RoundFacts Quorum.
From S2P Require Import QuorumFacts Cordiality CordialityFacts Admission AdmissionFacts Evidence.
From stdpp Require Import options.

Import VerifiedEvidence.

(** ** The history of a block *)

(** The signature-independent name of a block. *)
Definition key (b : Block) : BlockIdentity := consensus_identity (identity b).

Section history.
Context `{HO : HashOrder} `{Blake2b} `{Secp256k1}.
Variable bl : Blocklace.t.
Implicit Types (b c : Block) (w : walk).

(** [parent c b]: [b] is stored and [c] references it. *)
Definition parent : relation Block := λ c b,
  ∃ p, p ∈ predecessors (content c) ∧ Blocklace.get bl (consensus_identity p) = Some b.

(** The whole history is there and every hash in it is right. *)
Definition complete b : Prop := ∀ c, rtc parent b c →
  hash_matches c = true ∧
  ∀ p, p ∈ predecessors (content c) → is_Some (Blocklace.get bl (consensus_identity p)).

(** [r] is the length of the longest chain of references below [b]. *)
Definition longest b (r : N) : Prop :=
  (∃ c, nsteps parent (N.to_nat r) b c) ∧ ∀ n c, nsteps parent n b c → n ≤ N.to_nat r.

(** Nothing stops the walk: the history is complete, no name occurs twice on a
    chain or is one of [V], and depths fit in [u64]. *)
Record clean (V : gset BlockIdentity) b : Prop := {
  clean_complete : complete b;
  clean_names : ∀ c, rtc parent b c → key c ∉ V;
  clean_acyclic : ∀ c d, rtc parent b c → tc parent c d → key d ≠ key c;
  clean_depth : ∀ n c, nsteps parent n b c → (N.of_nat n <= u64_max)%N
}.

Lemma get_key p b : Blocklace.get bl (consensus_identity p) = Some b → key b = consensus_identity p.
Proof.
  intros [Hr _]%get_Some. apply resolve_Some in Hr as (_ & Hs & _).
  unfold key. symmetry. apply same_consensus_identity_alt in Hs. by rewrite Hs.
Qed.
Lemma parent_known c b : parent c b → Blocklace.get bl (key b) = Some b.
Proof. intros (p & _ & Hp). by rewrite (get_key p b). Qed.

Lemma longest_unique b r r' : longest b r → longest b r' → r = r'.
Proof. intros [[c Hc] Hm] [[c' Hc'] Hm']. apply Hm in Hc'. apply Hm' in Hc. lia. Qed.
Lemma longest_above c r :
  (∀ b, parent c b → ∃ d, longest b d ∧ (d + 1 <= r)%N) →
  (r = 0%N ∨ ∃ b d, parent c b ∧ longest b d ∧ r = (d + 1)%N) → longest c r.
Proof.
  intros Hall Hex. split.
  - destruct Hex as [->|(b & d & Hcb & [[e He] _] & ->)]; [exists c; constructor|].
    exists e. replace (N.to_nat (d + 1)) with (S (N.to_nat d)) by lia. by econstructor.
  - intros [|n] e Hn; [lia|]. inversion Hn as [|? ? b ? Hcb Hbe]; subst.
    destruct (Hall b Hcb) as (d & [_ Hd] & Hle). apply Hd in Hbe. lia.
Qed.

Lemma clean_parent V c b : clean V c → parent c b → clean ({[key c]} ∪ V) b.
Proof.
  intros [H1 H2 H3 H4] Hcb. split.
  - intros d Hd. apply H1. by eapply rtc_l.
  - intros d Hd. rewrite not_elem_of_union, not_elem_of_singleton. split.
    + apply (H3 c); [done|]. eapply tc_rtc_r; [by apply tc_once|done].
    + apply H2. by eapply rtc_l.
  - intros d e Hd. apply H3. by eapply rtc_l.
  - intros n d Hn. specialize (H4 (S n) d ltac:(by econstructor)). lia.
Qed.

(** ** Single steps *)

Lemma push_ancestors_spec ps stack A :
  match try_fold (push_ancestor bl) (stack, A) ps with
  | Ok (stack', A') => ∃ bs,
      Forall2 (λ p b, Blocklace.get bl (consensus_identity p) = Some b) ps bs ∧
      stack' = map (λ b, (b, false)) (reverse bs) ++ stack ∧
      A' = list_to_set (map consensus_identity ps) ∪ A
  | Err _ => ∃ p, p ∈ ps ∧ Blocklace.get bl (consensus_identity p) = None
  end.
Proof.
  revert stack A. induction ps as [|p ps IH]; intros stack A; cbn [try_fold].
  { exists []. split_and!; [constructor|done|set_solver]. }
  unfold push_ancestor at 1. cbn [fst snd].
  destruct (Blocklace.get bl (consensus_identity p)) as [b|] eqn:Ep; cbn [ok_or result_bind].
  2:{ exists p. split; [by left|done]. }
  specialize (IH ((b, false) :: stack) ({[consensus_identity p]} ∪ A)).
  destruct (try_fold _ _ ps) as [[stack' A']|e].
  - destruct IH as (bs & Hbs & -> & ->). exists (b :: bs). split_and!.
    + by constructor.
    + rewrite reverse_cons, map_app, <-(assoc_L (++)). done.
    + set_solver.
  - destruct IH as (q & Hq & Hn). exists q. split; [by right|done].
Qed.

Lemma rounds_above_spec (rounds : gmap BlockIdentity N) ps r0 :
  match try_fold (round_above rounds) r0 ps with
  | Ok r => (r0 <= r)%N ∧ (r0 <= u64_max → r <= u64_max)%N ∧
      (∀ p, p ∈ ps → ∃ d, rounds !! consensus_identity p = Some d ∧ (d + 1 <= r)%N) ∧
      (r = r0 ∨ ∃ p d, p ∈ ps ∧ rounds !! consensus_identity p = Some d ∧ r = (d + 1)%N)
  | Err _ => ∃ p, p ∈ ps ∧ (rounds !! consensus_identity p = None ∨
      ∃ d, rounds !! consensus_identity p = Some d ∧ (u64_max < d + 1)%N)
  end.
Proof.
  revert r0. induction ps as [|p ps IH]; intros r0; cbn [try_fold].
  { split_and!; [lia|done|by intros ? ?%elem_of_nil|by left]. }
  unfold round_above at 1.
  destruct (rounds !! consensus_identity p) as [d|] eqn:Ep; cbn [ok_or result_bind].
  2:{ exists p. split; [by left|by left]. }
  destruct (checked_add u64_max d 1) as [x|] eqn:Ea; cbn [ok_or result_bind].
  2:{ exists p. split; [by left|]. right. exists d. by apply checked_add_None in Ea. }
  apply checked_add_Some in Ea as [-> Hx]. specialize (IH (N.max r0 (d + 1))).
  destruct (try_fold _ _ ps) as [r|e].
  - destruct IH as (H1 & Hmax & H2 & H3). split_and!; [lia|lia|..].
    + intros q [->|Hq]%elem_of_cons; [exists d; split; [done|lia]|by apply H2].
    + destruct H3 as [->|(q & e & Hq & He & ->)]; [|right; exists q, e; by split_and!; [right|..]].
      destruct (N.max_spec r0 (d + 1)) as [[_ ->]|[_ ->]]; [right|by left].
      exists p, d. by split_and!; [left|..].
  - destruct IH as (q & Hq & Hn). exists q. split; [by right|done].
Qed.

(** ** Visiting blocks *)

(** Finished blocks: their history is clean, finished and recorded. *)
Record inv w : Prop := {
  inv_done : ∀ i r, rounds w !! i = Some r → ∃ c,
    key c = i ∧ Blocklace.get bl i = Some c ∧ clean ∅ c ∧ longest c r ∧
    ∀ e, tc parent c e → is_Some (rounds w !! key e) ∧ key e ∈ ancestors w;
  inv_disjoint : ∀ i, is_Some (rounds w !! i) → i ∉ visiting w
}.

(** From [w] to [w'] exactly the blocks [bs] and their histories are visited. *)
Record visited (bs : list Block) w w' : Prop := {
  visited_inv : inv w';
  visited_rounds : rounds w ⊆ rounds w';
  visited_visiting : visiting w' = visiting w;
  visited_done : ∀ b, b ∈ bs → is_Some (rounds w' !! key b);
  visited_ancestors : ∀ i, i ∈ ancestors w' ↔
    i ∈ ancestors w ∨ ∃ b e, b ∈ bs ∧ tc parent b e ∧ key e = i
}.

Definition outcome (bs : list Block) fuel stack w r : Prop :=
  (∃ fuel' w', fuel' ≤ fuel ∧ history_loop bl fuel' stack w' = Some r ∧ visited bs w w' ∧
    ∀ b, b ∈ bs → clean (visiting w) b) ∨
  (∃ e, r = Err e ∧ ∃ b, b ∈ bs ∧ ¬ clean (visiting w) b).

Lemma tc_parent_inv c e : tc parent c e ↔ ∃ b, parent c b ∧ (e = b ∨ tc parent b e).
Proof.
  split; [inversion 1; subst; eauto|].
  intros (b & Hcb & [->|Hbe]); [by apply tc_once|by eapply tc_l].
Qed.
Lemma rtc_parent_inv c e : rtc parent c e ↔ e = c ∨ tc parent c e.
Proof.
  split.
  - inversion 1 as [|? b ? ? Hb]; subst; [by left|right]. eapply tc_rtc_r; [by apply tc_once|done].
  - intros [->|?]; [done|by apply tc_rtc].
Qed.

Lemma inv_finished w b :
  inv w → Blocklace.get bl (key b) = Some b → is_Some (rounds w !! key b) →
  clean (visiting w) b ∧ (∃ r, rounds w !! key b = Some r ∧ longest b r) ∧
  ∀ e, tc parent b e → is_Some (rounds w !! key e) ∧ key e ∈ ancestors w.
Proof.
  intros Hi Hb [r Hr]. destruct (inv_done w Hi _ _ Hr) as (c & _ & Hc & Hcl & Hl & He).
  replace c with b in * by congruence. split; [|naive_solver].
  destruct Hcl as [H1 _ H3 H4]. split; [done| |done..].
  intros e [->|[Hk _]%He]%rtc_parent_inv; by eapply inv_disjoint.
Qed.

Lemma visited_nil w : inv w → visited [] w w.
Proof. split; [done..|by intros ? ?%elem_of_nil|set_solver]. Qed.
Lemma visited_app bs bs' w w' w'' :
  visited bs w w' → visited bs' w' w'' → visited (bs ++ bs') w w''.
Proof.
  intros [_ H1 H2 H3 H4] [H5 H6 H7 H8 H9]. split; [done|by etrans|congruence|..].
  - intros b [Hb|Hb]%elem_of_app; [|by apply H8].
    destruct (H3 b Hb) as [r Hr]. exists r. by eapply lookup_weaken.
  - intros i. rewrite H9, H4. setoid_rewrite elem_of_app. naive_solver.
Qed.

(** A stored block already finished is skipped. *)
Lemma visited_finished w b :
  inv w → Blocklace.get bl (key b) = Some b → is_Some (rounds w !! key b) → visited [b] w w.
Proof.
  intros Hi Hb Hr. destruct (inv_finished w b Hi Hb Hr) as (_ & _ & He).
  split; [done..|by intros c ->%list_elem_of_singleton|].
  intros i. split; [by left|]. intros [?|(c & e & ->%list_elem_of_singleton & Hce & <-)]; [done|].
  by apply He.
Qed.

(** ** The expansion of a block *)

(** The state in which the predecessors of [c] are visited, and in which its
    round is stored. *)
Definition opened c w : walk :=
  mkWalk (rounds w) ({[key c]} ∪ visiting w)
    (list_to_set (map consensus_identity (hash_iter (predecessors (content c)))) ∪ ancestors w).
Definition closed c (r : N) w : walk :=
  mkWalk (<[key c := r]> (rounds w)) (visiting w ∖ {[key c]}) (ancestors w).

Lemma inv_opened c w : inv w → rounds w !! key c = None → inv (opened c w).
Proof.
  intros [H1 H2] Hc. split; cbn [opened rounds visiting ancestors].
  - intros i r Hi. destruct (H1 i r Hi) as (b & Hk & Hb & Hcl & Hl & He).
    exists b. split_and!; [done..|]. intros e Hbe. destruct (He e Hbe). split; [done|set_solver].
  - intros i Hi. rewrite not_elem_of_union, not_elem_of_singleton. split; [|by apply H2].
    intros ->. rewrite Hc in Hi. by destruct Hi.
Qed.

(** What the visit of all the predecessors establishes about [c]. *)
Record expanded_to c w w' r : Prop := {
  exp_inv : inv w';
  exp_rounds : rounds w ⊆ rounds w';
  exp_visiting : visiting w' = {[key c]} ∪ visiting w;
  exp_new : key c ∉ visiting w;
  exp_clean : clean (visiting w) c;
  exp_longest : longest c r;
  exp_below : ∀ e, tc parent c e → is_Some (rounds w' !! key e) ∧ key e ∈ ancestors w';
  exp_ancestors : ∀ i, i ∈ ancestors w' ↔
    i ∈ ancestors w ∨ ∃ e, tc parent c e ∧ key e = i
}.

Lemma visited_closed c w w' r :
  Blocklace.get bl (key c) = Some c → rounds w !! key c = None → expanded_to c w w' r →
  visited [c] w (closed c r w').
Proof.
  intros Hc Hn [Hi Hr Hv Hnew Hcl Hl Hb Ha]. split; cbn [closed rounds visiting ancestors].
  - split; cbn [closed rounds visiting ancestors].
    + intros i d [[<- <-]|[Hne Hd]]%lookup_insert_Some.
      * exists c. destruct Hcl as [H1 _ H3 H4]. split_and!; [done..| |done|].
        { split; [done|set_solver|done|done]. }
        intros e He. destruct (Hb e He) as [Hs He']. split; [|done].
        destruct (decide (key c = key e)) as [->|?]; [rewrite lookup_insert_eq; by eexists|].
        by rewrite lookup_insert_ne.
      * destruct (inv_done w' Hi i d Hd) as (b & <- & Hb' & Hcb & Hlb & He).
        exists b. split_and!; [done..|]. intros e Hbe. destruct (He e Hbe) as [Hs ?]. split; [|done].
        destruct (decide (key c = key e)) as [->|?]; [rewrite lookup_insert_eq; by eexists|].
        by rewrite lookup_insert_ne.
    + intros i. destruct (decide (key c = i)) as [<-|?]; [set_solver|].
      rewrite lookup_insert_ne by done. intros ?%(inv_disjoint w' Hi). set_solver.
  - etrans; [done|]. apply insert_subseteq.
    destruct (rounds w' !! key c) eqn:E; [|done].
    destruct (inv_disjoint w' Hi (key c)); [by eexists|set_solver].
  - rewrite Hv. set_solver.
  - intros b ->%list_elem_of_singleton. rewrite lookup_insert_eq. by eexists.
  - intros i. rewrite Ha. split; (intros [?|Hx]; [by left|right]).
    + destruct Hx as (e & He & <-). exists c, e. by split_and!; [apply list_elem_of_singleton|..].
    + destruct Hx as (b & e & ->%list_elem_of_singleton & He & <-). by exists e.
Qed.

(** ** The walk *)

Definition visits (F : nat) : Prop := ∀ fuel stack w b r,
  fuel < F → inv w → Blocklace.get bl (key b) = Some b →
  history_loop bl fuel ((b, false) :: stack) w = Some r → outcome [b] fuel stack w r.

Lemma visit_list F bs fuel stack w r :
  visits F → fuel < F → inv w → (∀ b, b ∈ bs → Blocklace.get bl (key b) = Some b) →
  history_loop bl fuel (map (λ b, (b, false)) bs ++ stack) w = Some r → outcome bs fuel stack w r.
Proof.
  intros HF. revert fuel w. induction bs as [|b bs IH]; intros fuel w Hf Hi Hs Hr.
  { left. exists fuel, w. split_and!; [done..|by apply visited_nil|by intros ? ?%elem_of_nil]. }
  destruct (HF _ _ _ _ _ Hf Hi (Hs b ltac:(by left)) Hr)
    as [(fuel1 & w1 & Hle & Hr1 & Hv & Hcl)|(e & -> & b' & ->%list_elem_of_singleton & Hn)].
  2:{ right. exists e. split; [done|]. exists b. split; [by left|done]. }
  destruct (IH fuel1 w1 ltac:(lia) (visited_inv _ _ _ Hv) ltac:(intros; apply Hs; by right) Hr1)
    as [(fuel2 & w2 & Hle2 & Hr2 & Hv2 & Hcl2)|(e & -> & b' & Hb' & Hn)];
    rewrite (visited_visiting _ _ _ Hv) in *.
  - left. exists fuel2, w2. split_and!; [lia|done|by apply (visited_app [b] bs w w1)|].
    intros c [->|Hc]%elem_of_cons; [apply Hcl; by left|by apply Hcl2].
  - right. exists e. split; [done|]. exists b'. split; [by right|done].
Qed.

Lemma parents_forall2 c bs :
  Forall2 (λ p b, Blocklace.get bl (consensus_identity p) = Some b)
    (hash_iter (predecessors (content c))) bs →
  ∀ b, parent c b ↔ b ∈ bs.
Proof.
  intros HF b. split.
  - intros (p & Hp & Hb). apply elem_of_hash_iter in Hp.
    destruct (proj1 (list_elem_of_lookup _ _) Hp) as [i Hi].
    destruct (Forall2_lookup_l _ _ _ _ _ HF Hi) as (b' & Hb' & E).
    replace b with b' by congruence. by eapply list_elem_of_lookup_2.
  - intros [i Hi]%list_elem_of_lookup. destruct (Forall2_lookup_r _ _ _ _ _ HF Hi) as (p & Hp & E).
    exists p. split; [|done]. apply elem_of_hash_iter. by eapply list_elem_of_lookup_2.
Qed.

Lemma forall2_parent c bs p :
  Forall2 (λ p b, Blocklace.get bl (consensus_identity p) = Some b)
    (hash_iter (predecessors (content c))) bs →
  p ∈ predecessors (content c) →
  ∃ b, parent c b ∧ Blocklace.get bl (consensus_identity p) = Some b.
Proof.
  intros HF Hp. pose proof Hp as Hpin. rewrite <-elem_of_hash_iter in Hpin.
  apply list_elem_of_lookup in Hpin as [i Hi].
  destruct (Forall2_lookup_l _ _ _ _ _ HF Hi) as (b & _ & Hb). exists b. split; [by exists p|done].
Qed.
Lemma elem_of_names c i :
  i ∈@{gset BlockIdentity} list_to_set
    (map consensus_identity (hash_iter (predecessors (content c)))) ↔
  ∃ p, p ∈ predecessors (content c) ∧ consensus_identity p = i.
Proof.
  rewrite elem_of_list_to_set, list_elem_of_fmap.
  split; intros (p & ? & ?); exists p; by rewrite elem_of_hash_iter in *.
Qed.

(** The block is clean when its predecessors are, below a new name. *)
Lemma clean_above V c r :
  hash_matches c = true → key c ∉ V →
  (∀ p, p ∈ predecessors (content c) → is_Some (Blocklace.get bl (consensus_identity p))) →
  (∀ b, parent c b → clean ({[key c]} ∪ V) b) → (∀ e, tc parent c e → key e ≠ key c) →
  longest c r → (r <= u64_max)%N → clean V c.
Proof.
  intros Hh Hnew Hp Hcl Hne Hl Hmax.
  assert (∀ b d, parent c b → d = b ∨ tc parent b d → rtc parent b d) as Hb.
  { intros b d _ [->|?]; [done|by apply tc_rtc]. }
  split.
  - intros d [->|(b & Hcb & Hbd)%tc_parent_inv]%rtc_parent_inv; [done|].
    apply (clean_complete _ b (Hcl b Hcb)). by eapply Hb.
  - intros d [->|(b & Hcb & Hbd)%tc_parent_inv]%rtc_parent_inv; [done|].
    pose proof (clean_names _ b (Hcl b Hcb) d (Hb b d Hcb Hbd)). set_solver.
  - intros d e [->|(b & Hcb & Hbd)%tc_parent_inv]%rtc_parent_inv Hde; [by apply Hne|].
    apply (clean_acyclic _ b (Hcl b Hcb)); [|done]. by eapply Hb.
  - intros n d Hd%Hl. lia.
Qed.

(** What the visited predecessors say about the block above them. *)
Lemma expanded_intro c bs w w' r :
  inv w → hash_matches c = true → key c ∉ visiting w → rounds w !! key c = None →
  Forall2 (λ p b, Blocklace.get bl (consensus_identity p) = Some b)
    (hash_iter (predecessors (content c))) bs →
  visited bs (opened c w) w' → (∀ b, b ∈ bs → clean ({[key c]} ∪ visiting w) b) →
  try_fold (round_above (rounds w')) 0%N (hash_iter (predecessors (content c))) = Ok r →
  (r <= u64_max)%N → expanded_to c w w' r.
Proof.
  intros Hi Hh Hnew Hn HF Hv Hcl Hr Hmax. pose proof (parents_forall2 c bs HF) as Hp.
  destruct Hv as [Hi' Hsub Hvis Hdone Hanc]; cbn [opened rounds visiting ancestors] in *.
  assert (∀ b, parent c b → clean ({[key c]} ∪ visiting w) b ∧
    (∃ d, rounds w' !! key b = Some d ∧ longest b d) ∧
    ∀ e, tc parent b e → is_Some (rounds w' !! key e) ∧ key e ∈ ancestors w') as Hall.
  { intros b Hb. split; [by apply Hcl, Hp|].
    apply inv_finished; [done|by apply parent_known in Hb|by apply Hdone, Hp]. }
  assert (longest c r) as Hl.
  { pose proof (rounds_above_spec (rounds w') (hash_iter (predecessors (content c))) 0) as Hs.
    rewrite Hr in Hs. destruct Hs as (_ & _ & Hle & Hex). apply longest_above.
    - intros b Hb. destruct (Hall b Hb) as (_ & (d & Hd & Hld) & _). exists d. split; [done|].
      destruct Hb as (p & Hpin & Hb). destruct (Hle p) as (d' & Hd' & ?); [by apply elem_of_hash_iter|].
      rewrite (get_key p b Hb) in Hd. replace d with d' by congruence. done.
    - destruct Hex as [->|(p & d & Hpin%elem_of_hash_iter & Hd & ->)]; [by left|right].
      destruct (forall2_parent c bs p HF Hpin) as (b & Hcb & Hb).
      destruct (Hall b Hcb) as (_ & (d' & Hd' & Hld) & _). rewrite (get_key p b Hb) in Hd'.
      exists b, d. split_and!; [done|congruence|done]. }
  assert (∀ b, parent c b → key b ∈ ancestors w') as Hkey.
  { intros b (p & Hpin & Hb). apply Hanc. left. apply elem_of_union_l, elem_of_names.
    exists p. split; [done|]. by rewrite (get_key p b). }
  assert (∀ e, tc parent c e → is_Some (rounds w' !! key e) ∧ key e ∈ ancestors w') as Hbelow.
  { intros e (b & Hcb & [->|Hbe])%tc_parent_inv; [|by apply (Hall b Hcb)].
    split; [by apply Hdone, Hp|by apply Hkey]. }
  split; [done|done|done|done| |done|done|].
  - apply (clean_above _ c r); [done|done| |intros b Hb; apply (Hall b Hb)| |done|done].
    + intros p Hpin. destruct (forall2_parent c bs p HF Hpin) as (b & _ & Hb). by exists b.
    + intros e He Hk. destruct (Hbelow e He) as [Hs _]. rewrite Hk in Hs.
      apply (inv_disjoint w' Hi') in Hs. rewrite Hvis in Hs. set_solver.
  - intros i. split.
    + intros [[Hin|Hin]%elem_of_union|(b & e & Hb & Hbe & <-)]%Hanc; [right|by left|right].
      * apply elem_of_names in Hin as (p & Hpin & <-).
        destruct (forall2_parent c bs p HF Hpin) as (b & Hcb & Hb).
        exists b. split; [by apply tc_once|by apply get_key].
      * exists e. split; [|done]. eapply tc_l; [by apply Hp|done].
    + intros [?|(e & He & <-)]; [apply Hanc; left; set_solver|by apply Hbelow].
Qed.

Lemma not_clean_child V c b : parent c b → ¬ clean ({[key c]} ∪ V) b → ¬ clean V c.
Proof. intros Hcb Hn Hc. by eapply Hn, clean_parent. Qed.

(** The rounds of the predecessors are all there; only a depth can overflow. *)
Lemma round_error c bs w w' e :
  inv w → rounds w !! key c = None →
  Forall2 (λ p b, Blocklace.get bl (consensus_identity p) = Some b)
    (hash_iter (predecessors (content c))) bs →
  visited bs (opened c w) w' →
  try_fold (round_above (rounds w')) 0%N (hash_iter (predecessors (content c))) = Err e →
  ¬ clean (visiting w) c.
Proof.
  intros Hi Hn HF Hv He Hc. pose proof (parents_forall2 c bs HF) as Hp.
  pose proof (rounds_above_spec (rounds w') (hash_iter (predecessors (content c))) 0) as Hs.
  rewrite He in Hs. destruct Hs as (p & Hpin%elem_of_hash_iter & Hs).
  destruct (forall2_parent c bs p HF Hpin) as (b & Hcb & Hb).
  destruct (inv_finished w' b (visited_inv _ _ _ Hv)) as (_ & (d & Hd & Hl) & _).
  { by apply parent_known in Hcb. } { by apply (visited_done _ _ _ Hv), Hp. }
  rewrite (get_key p b Hb) in Hd. destruct Hs as [Hs|(d' & Hd' & Hlt)]; [congruence|].
  replace d' with d in * by congruence. destruct Hl as [[x Hx] _].
  pose proof (clean_depth _ _ Hc (S (N.to_nat d)) x ltac:(by econstructor)). lia.
Qed.

Lemma expand F c fuel stack w r :
  visits F → fuel < F → inv w → rounds w !! key c = None →
  history_loop bl (S fuel) ((c, false) :: stack) w = Some r →
  (∃ fuel' w' d, fuel' ≤ fuel ∧ history_loop bl fuel' stack (closed c d w') = Some r ∧
    expanded_to c w w' d) ∨
  (∃ e, r = Err e ∧ ¬ clean (visiting w) c).
Proof.
  intros HF Hf Hi Hn Hr. cbn [history_loop] in Hr. fold (key c) in Hr.
  rewrite decide_False in Hr by (rewrite Hn; by intros []).
  destruct (hash_matches c) eqn:Hh; cbn [negb] in Hr.
  2:{ right. injection Hr as <-. eexists. split; [done|]. intros Hc.
      destruct (clean_complete _ _ Hc c ltac:(done)) as [Hc' _]. congruence. }
  case_decide as Hnew.
  { right. injection Hr as <-. eexists. split; [done|]. intros Hc. by apply (clean_names _ _ Hc c). }
  pose proof (push_ancestors_spec (hash_iter (predecessors (content c))) ((c, true) :: stack)
    (ancestors w)) as Hps.
  destruct (try_fold (push_ancestor bl) _ _) as [[stack' A']|e].
  2:{ right. injection Hr as <-. exists e. split; [done|]. intros Hc.
      destruct Hps as (p & Hpin%elem_of_hash_iter & Hnone).
      destruct (clean_complete _ _ Hc c ltac:(done)) as [_ Hp].
      destruct (Hp p Hpin) as [x Hx]. congruence. }
  destruct Hps as (bs & HF2 & -> & ->). pose proof (parents_forall2 c bs HF2) as Hp.
  apply (visit_list F (reverse bs)) in Hr as
    [(fuel' & w' & Hle & Hr & Hv & Hcl)|(e & -> & b & Hb & Hnc)]; [|..|done|done|by apply inv_opened|].
  3:{ intros b Hb. eapply parent_known, Hp. by apply elem_of_reverse. }
  2:{ right. exists e. split; [done|]. eapply not_clean_child; [by apply Hp, elem_of_reverse|done]. }
  assert (visited bs (opened c w) w') as Hv'.
  { destruct Hv as [? ? ? Hd Ha]. split; [done..| |].
    - intros b Hb. apply Hd. by apply elem_of_reverse.
    - intros i. rewrite Ha. by setoid_rewrite elem_of_reverse. }
  destruct fuel' as [|fuel']; [done|]. cbn [history_loop] in Hr. fold (key c) in Hr.
  rewrite decide_False in Hr.
  2:{ intros Hs. apply (inv_disjoint w' (visited_inv _ _ _ Hv)) in Hs.
      rewrite (visited_visiting _ _ _ Hv) in Hs. set_solver. }
  rewrite Hh in Hr. cbn [negb] in Hr.
  destruct (try_fold (round_above _) _ _) as [d|e] eqn:Ed.
  2:{ right. injection Hr as <-. exists e. split; [done|]. by eapply round_error. }
  left. exists fuel', w', d. split_and!; [lia|done|]. eapply expanded_intro; [done..| |done|].
  - intros b Hb. apply Hcl. by apply elem_of_reverse.
  - pose proof (rounds_above_spec (rounds w') (hash_iter (predecessors (content c))) 0) as Hs.
    rewrite Ed in Hs. unfold u64_max in *. lia.
Qed.

Lemma visit F : visits F.
Proof.
  induction (lt_wf F) as [F _ IH]. intros fuel stack w b r Hf Hi Hb Hr.
  destruct fuel as [|fuel]; [done|]. destruct (rounds w !! key b) as [d|] eqn:Ed.
  { cbn [history_loop] in Hr. fold (key b) in Hr. rewrite decide_True in Hr by (by eexists).
    left. exists fuel, w. split_and!; [lia|done|by eapply visited_finished|].
    intros c ->%list_elem_of_singleton. by eapply inv_finished. }
  apply (expand (S fuel)) in Hr as [(fuel' & w' & d & Hle & Hr & Hx)|(e & -> & Hn)];
    [| |by apply IH|lia|done|done].
  - left. exists fuel', (closed b d w'). split_and!; [lia|done|by apply visited_closed|].
    intros c ->%list_elem_of_singleton. apply Hx.
  - right. exists e. split; [done|]. exists b. by split; [apply list_elem_of_singleton|].
Qed.

(** The walk from a block, which need not be stored itself. *)
Lemma complete_history_opt_spec b r :
  complete_history_opt b bl = Some r →
  match r with
  | Ok (d, A) => clean ∅ b ∧ longest b d ∧ ∀ i, i ∈ A ↔ ∃ e, tc parent b e ∧ key e = i
  | Err _ => ¬ clean ∅ b
  end.
Proof.
  unfold complete_history_opt. destruct (history_loop _ _ _ _) as [q|] eqn:Hq; [|done].
  cbn [mbind option_bind]. unfold history_fuel in Hq. cbn [Nat.add] in Hq.
  assert (inv (mkWalk ∅ ∅ ∅)) as Hi.
  { split; cbn [rounds visiting ancestors]; [by intros i d ?%lookup_empty_Some|by set_solver]. }
  eapply expand in Hq as [(fuel & w & d & _ & Hq & Hx)|(e & -> & Hn)];
    [| |apply visit|by apply Nat.lt_succ_diag_r|done|done].
  - destruct fuel; cbn [history_loop] in Hq; injection Hq as <-; cbn [closed rounds ancestors];
      fold (key b); rewrite lookup_insert_eq; cbn [mbind option_bind]; intros [= <-];
      (split_and!; [apply Hx|apply Hx|]); intros i; rewrite (exp_ancestors _ _ _ _ Hx); set_solver.
  - by intros [= <-].
Qed.

(** ** Enough fuel *)

(** Stored blocks that the walk has not opened, by what opening one can cost. *)
Definition unopened w : gset BlockIdentity :=
  filter (λ i, consensus_identity i ∉ dom (rounds w) ∪ visiting w) (Blocklace.dom bl).
Definition cost (i : BlockIdentity) : N := (1 + ForkChoice.reference_count bl i)%N.
Definition left_to_walk (stack : list (Block * bool)) w : nat :=
  length stack + N.to_nat (set_weight cost (unopened w)).

Lemma cost_mono X Y : X ⊆ Y → N.to_nat (set_weight cost X) ≤ N.to_nat (set_weight cost Y).
Proof. intros Hs%(set_weight_mono cost). lia. Qed.
Lemma unopened_mono w w' :
  dom (rounds w) ∪ visiting w ⊆ dom (rounds w') ∪ visiting w' → unopened w' ⊆ unopened w.
Proof. intros Hs i. unfold unopened. rewrite !elem_of_filter. set_solver. Qed.
Lemma left_to_walk_mono stack w w' :
  dom (rounds w) ∪ visiting w ⊆ dom (rounds w') ∪ visiting w' →
  left_to_walk stack w' ≤ left_to_walk stack w.
Proof. intros Hs%unopened_mono%cost_mono. unfold left_to_walk. lia. Qed.

(** Opening a stored block pays for the references it pushes. *)
Lemma unopened_opened c w :
  Blocklace.get bl (key c) = Some c → key c ∉ dom (rounds w) ∪ visiting w →
  S (size (predecessors (content c))) + N.to_nat (set_weight cost (unopened (opened c w))) ≤
  N.to_nat (set_weight cost (unopened w)).
Proof.
  intros [Hr Hc]%get_Some Hnew. apply resolve_Some in Hr as (Hd & _ & _).
  assert (N.to_nat (set_weight cost {[identity c]}) = S (size (predecessors (content c)))) as <-.
  { rewrite set_weight_singleton. unfold cost, ForkChoice.reference_count. rewrite Hc. lia. }
  rewrite <-N2Nat.inj_add, <-set_weight_disj_union.
  - apply cost_mono. intros i. unfold unopened, key in *.
    rewrite elem_of_union, elem_of_singleton, !elem_of_filter. cbn [opened rounds visiting].
    intros [->|[Hi ?]]; [done|]. split; [|done]. set_solver.
  - intros i Hi. apply elem_of_singleton in Hi as ->. unfold unopened. rewrite elem_of_filter. cbn [opened visiting].
    unfold key. set_solver.
Qed.

Lemma forall2_stored ps bs :
  Forall2 (λ p b, Blocklace.get bl (consensus_identity p) = Some b) ps bs →
  ∀ b, b ∈ bs → Blocklace.get bl (key b) = Some b.
Proof.
  intros HF b [i Hi]%list_elem_of_lookup. destruct (Forall2_lookup_r _ _ _ _ _ HF Hi) as (p & _ & E).
  by rewrite (get_key p b).
Qed.

Lemma history_loop_total fuel stack w :
  (∀ b, (b, false) ∈ stack → Blocklace.get bl (key b) = Some b) →
  left_to_walk stack w ≤ fuel → is_Some (history_loop bl fuel stack w).
Proof.
  revert stack w. induction fuel as [|fuel IH]; intros [|[c ex] stack] w Hs Hf;
    cbn [history_loop]; [by eexists|unfold left_to_walk in Hf; simpl in Hf; lia|by eexists|].
  fold (key c). assert (∀ w', dom (rounds w) ∪ visiting w ⊆ dom (rounds w') ∪ visiting w' →
    is_Some (history_loop bl fuel stack w')) as Hnext.
  { intros w' Hw. apply IH; [intros b Hb; apply Hs; by right|].
    apply (left_to_walk_mono stack) in Hw. unfold left_to_walk in *. cbn [length] in Hf. lia. }
  case_decide as Hin; [by apply Hnext|].
  destruct (negb _); [by eexists|]. destruct ex.
  - destruct (try_fold _ _ _) as [r|e]; [|by eexists]. apply Hnext. cbn [rounds visiting].
    rewrite dom_insert. intros i. destruct (decide (i = key c)); set_solver.
  - case_decide as Hv; [by eexists|].
    pose proof (push_ancestors_spec (hash_iter (predecessors (content c))) ((c, true) :: stack)
      (ancestors w)) as Hps.
    destruct (try_fold (push_ancestor bl) _ _) as [[stack' A']|e]; [|by eexists].
    destruct Hps as (bs & HF & -> & ->). apply IH.
    + intros b [(b' & [= <-] & Hb)%list_elem_of_fmap|Hb]%elem_of_app.
      * eapply forall2_stored; [done|by apply elem_of_reverse].
      * apply elem_of_cons in Hb as [?|Hb]; [done|]. apply Hs. by right.
    + change (left_to_walk (map (λ b, (b, false)) (reverse bs) ++ (c, true) :: stack) (opened c w) ≤ fuel).
      assert (key c ∉ dom (rounds w) ∪ visiting w) as Hnew
        by (rewrite not_elem_of_union, not_elem_of_dom, eq_None_not_Some; done).
      pose proof (unopened_opened c w (Hs c ltac:(by left)) Hnew) as Hc.
      apply Forall2_length in HF. rewrite length_hash_iter in HF.
      unfold left_to_walk in *. rewrite length_app, length_map, length_reverse, <-HF.
      cbn [length] in *. lia.
Qed.

(** The walk from a block that is not stored opens that block first. *)
Lemma complete_history_opt_total b : is_Some (complete_history_opt b bl).
Proof.
  assert (∃ q, history_loop bl (history_fuel bl b) [(b, false)] (mkWalk ∅ ∅ ∅) = Some q) as [q Hq].
  { unfold history_fuel. cbn [Nat.add].
    remember (S (size _ + _)) as F eqn:EF. cbn [history_loop rounds visiting ancestors]. fold (key b).
    rewrite decide_False by (rewrite lookup_empty; by intros []).
    destruct (negb _); [by eexists|]. rewrite decide_False by set_solver.
    pose proof (push_ancestors_spec (hash_iter (predecessors (content b))) [(b, true)] ∅) as Hps.
    destruct (try_fold (push_ancestor bl) _ _) as [[stack' A']|e]; [|by eexists].
    destruct Hps as (bs & HF & -> & ->). apply history_loop_total.
    - intros c [(c' & [= <-] & Hc)%list_elem_of_fmap|Hc]%elem_of_app.
      + eapply forall2_stored; [done|by apply elem_of_reverse].
      + by apply list_elem_of_singleton in Hc.
    - unfold left_to_walk. apply Forall2_length in HF. rewrite length_hash_iter in HF.
      rewrite length_app, length_map, length_reverse, <-HF. cbn [length].
      assert (N.to_nat (set_weight cost (unopened (opened b (mkWalk ∅ ∅ ∅)))) ≤
        N.to_nat (set_weight cost (Blocklace.dom bl))) as Hle.
      { apply cost_mono. intros i. unfold unopened.
        rewrite elem_of_filter. tauto. }
      unfold opened, cost in Hle. cbn [rounds visiting ancestors] in Hle.
      unfold cost, unopened in *. cbn [rounds visiting] in *. lia. }
  unfold complete_history_opt. rewrite Hq. cbn [mbind option_bind].
  destruct q as [w|e]; [|by eexists].
  pose proof (complete_history_opt_spec b) as Hspec. unfold complete_history_opt in Hspec.
  unfold history_fuel in Hq. cbn [Nat.add] in Hq.
  eapply expand in Hq as [(fuel & w' & d & _ & Hq & Hx)|(e & ? & Hn)];
    [|done|apply visit|by apply Nat.lt_succ_diag_r| |done].
  - destruct fuel; cbn [history_loop] in Hq; injection Hq as <-; cbn [closed rounds];
      fold (key b); rewrite lookup_insert_eq; by eexists.
  - split; cbn [rounds visiting]; [by intros i d ?%lookup_empty_Some|by set_solver].
Qed.

(** [A] names the strict ancestors of [b]. *)
Definition names_history b (A : gset BlockIdentity) : Prop :=
  ∀ i, i ∈ A ↔ ∃ e, tc parent b e ∧ key e = i.

Lemma complete_history_Ok b h :
  complete_history b bl = Ok h ↔ clean ∅ b ∧ longest b h.1 ∧ names_history b h.2.
Proof.
  unfold complete_history. destruct (complete_history_opt_total b) as [r Hr]. rewrite Hr.
  cbn [default]. pose proof (complete_history_opt_spec b r Hr) as Hs.
  destruct r as [[d A]|e]; [|split; [done|tauto]]. destruct Hs as (Hcl & Hl & HA). split.
  - by intros [= <-].
  - destruct h as [d' A']; cbn [fst snd]. intros (_ & Hl' & HA'). rewrite (longest_unique b d d') by done.
    replace A' with A; [done|]. apply set_eq. intros i. by rewrite HA, (HA' i).
Qed.

Lemma clean_history b : clean ∅ b → ∃ h, complete_history b bl = Ok h.
Proof.
  intros Hcl. unfold complete_history. destruct (complete_history_opt_total b) as [r Hr]. rewrite Hr.
  cbn [default]. apply complete_history_opt_spec in Hr. destruct r as [h|e]; [by exists h|done].
Qed.
Lemma clean_histories bs :
  (∀ b, b ∈ bs → clean ∅ b) → ∃ hs, Forall2 (λ b h, complete_history b bl = Ok h) bs hs.
Proof.
  induction bs as [|b bs IH]; intros Hcl; [by exists []|].
  destruct (clean_history b) as [h Hh]; [apply Hcl; by left|].
  destruct IH as [hs Hhs]; [intros; apply Hcl; by right|]. exists (h :: hs). by constructor.
Qed.

(** ** The verification *)

(** What is checked of each block on its own. *)
Definition authentic (v : NodeId) b : Prop :=
  creator (identity b) = v ∧ hash_matches b = true ∧
  Crypto.verify (content_hash (identity b)) v (signature (identity b)) = true.

Lemma check_block_Ok v acc b acc' :
  check_block bl v acc b = Ok acc' ↔
  authentic v b ∧ key b ∉ identities acc ∧ ∃ h, complete_history b bl = Ok h ∧
  acc' = mkChecked ({[key b]} ∪ identities acc) (N.min (earliest_round acc) h.1)
    (histories acc ++ [h.2]).
Proof.
  unfold check_block, authentic. rewrite !bail_Ok, result_bind_Ok. fold (key b). split.
  - intros (H1 & H2 & H3 & H4 & h & Hh & [= <-]). split_and!; [by apply dec_stable|..].
    + by destruct (hash_matches b).
    + by destruct (Crypto.verify _ _ _).
    + done.
    + by exists h.
  - intros ((-> & -> & ->) & H4 & h & Hh & ->). split_and!; [tauto|done..|]. by exists h.
Qed.

Lemma check_blocks_Ok v bs acc acc' :
  try_fold (check_block bl v) acc bs = Ok acc' ↔
  NoDup (map key bs) ∧ (∀ b, b ∈ bs → authentic v b ∧ key b ∉ identities acc) ∧
  ∃ hs, Forall2 (λ b h, complete_history b bl = Ok h) bs hs ∧
  acc' = mkChecked (list_to_set (map key bs) ∪ identities acc)
    (foldl N.min (earliest_round acc) (map fst hs)) (histories acc ++ map snd hs).
Proof.
  revert acc. induction bs as [|b bs IH]; intros [ids r hss]; cbn [try_fold map].
  { split.
    - intros [= <-]. split_and!; [constructor|by intros ? ?%elem_of_nil|].
      exists []. split; [constructor|]. cbn. rewrite app_nil_r. f_equal. set_solver.
    - intros (_ & _ & hs & HF & ->). inversion HF; subst. cbn. rewrite app_nil_r. do 2 f_equal. set_solver. }
  rewrite result_bind_Ok. setoid_rewrite check_block_Ok. setoid_rewrite IH.
  rewrite NoDup_cons. cbn [identities earliest_round histories]. split.
  - intros (? & (Ha & Hn & h & Hh & ->) & Hnd & Hall & hs & HF & ->). cbn [identities] in *.
    assert (key b ∉ map key bs) as Hb.
    { intros (c & E & Hc)%list_elem_of_fmap. apply Hall in Hc as [_ Hc]. rewrite <-E in Hc. set_solver. }
    split_and!; [done|done| |].
    + intros c [->|Hc]%elem_of_cons; [done|]. apply Hall in Hc as [? ?]. set_solver.
    + exists (h :: hs). split; [by constructor|]. cbn. rewrite <-(assoc_L (++)). f_equal. set_solver.
  - intros ([Hb Hnd] & Hall & hs & HF & ->). inversion HF as [|? h ? hs' Hh HF']; subst.
    destruct (Hall b ltac:(by left)) as [Ha Hn].
    eexists. split; [split_and!; [done|done|by exists h]|]. cbn [identities earliest_round histories].
    split_and!; [done| |].
    + intros c Hc. destruct (Hall c ltac:(by right)) as [? Hcn]. split; [done|].
      rewrite not_elem_of_union, not_elem_of_singleton. split; [|done]. intros E. apply Hb.
      rewrite <-E. by apply list_elem_of_fmap_2.
    + exists hs'. split; [done|]. cbn. rewrite <-(assoc_L (++)). f_equal. set_solver.
Qed.

(** Neither of two blocks is named in the history of the other. *)
Definition apart (x y : Block * gset BlockIdentity) : Prop :=
  key y.1 ∉ x.2 ∧ key x.1 ∉ y.2.
Lemma incomparable_Ok l : incomparable l = Ok tt ↔ ForallOrdPairs apart l.
Proof.
  induction l as [|[b h] l IH]; cbn [incomparable]; [by split; [constructor|]|].
  rewrite bail_Ok, IH, not_true_iff_false. split.
  - intros [Hb Hl]. constructor; [|done]. apply List.Forall_forall. intros [c h'] Hc.
    apply not_true_iff_false in Hb. rewrite existsb_exists in Hb.
    split; intros Hin; apply Hb; exists (c, h'); (split; [done|]); apply bool_decide_eq_true; [by left|by right].
  - inversion 1 as [|? ? Hf Hl]; subst. split; [|done]. apply not_true_iff_false.
    rewrite existsb_exists. intros ([c h'] & Hc & [?|?]%bool_decide_eq_true);
      destruct (proj1 (List.Forall_forall _ _) Hf _ Hc); done.
Qed.

(** A claim that deserves to be believed. *)
Record genuine (raw : EquivocationEvidence) : Prop := {
  genuine_two : 2 ≤ length (evidence_blocks raw);
  genuine_names : NoDup (map key (evidence_blocks raw));
  genuine_authentic : ∀ b, b ∈ evidence_blocks raw → authentic (validator raw) b;
  genuine_clean : ∀ b, b ∈ evidence_blocks raw → clean ∅ b;
  genuine_fork : ∀ b c e, b ∈ evidence_blocks raw → c ∈ evidence_blocks raw →
    tc parent b e → key e ≠ key c;
  genuine_round : ∃ b, b ∈ evidence_blocks raw ∧ longest b (evidence_round raw);
  genuine_earliest : ∀ b d, b ∈ evidence_blocks raw → longest b d → (evidence_round raw <= d)%N
}.

Lemma foldl_min (ds : list N) x :
  (foldl N.min x ds <= x)%N ∧ (∀ d, d ∈ ds → (foldl N.min x ds <= d)%N) ∧
  (foldl N.min x ds = x ∨ foldl N.min x ds ∈ ds).
Proof.
  revert x. induction ds as [|d ds IH]; intros x; cbn [foldl].
  { split_and!; [lia|by intros ? ?%elem_of_nil|by left]. }
  destruct (IH (N.min x d)) as (H1 & H2 & H3). split_and!; [lia|..].
  - intros e [->|He]%elem_of_cons; [lia|by apply H2].
  - destruct H3 as [->|?]; [|right; by right].
    destruct (N.min_spec x d) as [[_ ->]|[_ ->]]; [by left|right; by left].
Qed.

Lemma forall2_zip_history bs (hs : list (N * gset BlockIdentity)) b A :
  Forall2 (λ b h, complete_history b bl = Ok h) bs hs → (b, A) ∈ zip bs (map snd hs) →
  b ∈ bs ∧ clean ∅ b ∧ names_history b A.
Proof.
  induction 1 as [|c h bs hs Hh _ IH]; [by intros ?%elem_of_nil|].
  cbn [map zip zip_with]. intros [[= -> ->]|Hin]%elem_of_cons.
  - apply complete_history_Ok in Hh as (? & _ & ?). by split_and!; [left|..].
  - destruct (IH Hin) as (? & ? & ?). by split_and!; [right|..].
Qed.
Lemma forall2_history bs (hs : list (N * gset BlockIdentity)) b :
  Forall2 (λ b h, complete_history b bl = Ok h) bs hs → b ∈ bs →
  ∃ h, h ∈ hs ∧ (b, h.2) ∈ zip bs (map snd hs) ∧ clean ∅ b ∧ longest b h.1.
Proof.
  induction 1 as [|c h bs hs Hh _ IH]; [by intros ?%elem_of_nil|].
  intros [->|Hin]%elem_of_cons.
  - apply complete_history_Ok in Hh as (? & ? & _). exists h. by split_and!; [left|left|..].
  - destruct (IH Hin) as (h' & ? & ? & ? & ?). exists h'. by split_and!; [right|right|..].
Qed.
Lemma forall2_depth bs (hs : list (N * gset BlockIdentity)) h :
  Forall2 (λ b h, complete_history b bl = Ok h) bs hs → h ∈ hs → ∃ b, b ∈ bs ∧ longest b h.1.
Proof.
  intros HF [i Hi]%list_elem_of_lookup. destruct (Forall2_lookup_r _ _ _ _ _ HF Hi) as (b & Hb & E).
  exists b. split; [by eapply list_elem_of_lookup_2|]. by apply complete_history_Ok in E as (_ & ? & _).
Qed.

Lemma longest_fits b d : clean ∅ b → longest b d → (d <= u64_max)%N.
Proof. intros Hcl [[c Hc] _]. pose proof (clean_depth _ _ Hcl _ c Hc). lia. Qed.

Lemma genuine_intro raw hs :
  ¬ length (evidence_blocks raw) < 2 → NoDup (map key (evidence_blocks raw)) →
  (∀ b, b ∈ evidence_blocks raw → authentic (validator raw) b ∧ key b ∉ (∅ : gset BlockIdentity)) →
  Forall2 (λ b h, complete_history b bl = Ok h) (evidence_blocks raw) hs →
  foldl N.min u64_max (map fst hs) = evidence_round raw →
  incomparable (zip (evidence_blocks raw) ([] ++ map snd hs)) = Ok tt → genuine raw.
Proof.
  intros Hlen Hnd Hall HF Hr Hinc%incomparable_Ok. cbn [app] in Hinc.
  destruct (foldl_min (map fst hs) u64_max) as (_ & Hle & Hin). rewrite Hr in *.
  split; [lia|done|intros b Hb; by apply Hall|..].
  - intros b Hb. by destruct (forall2_history _ _ b HF Hb) as (? & _ & _ & ? & _).
  - intros b c e Hb Hc He Hk.
    destruct (forall2_history _ _ b HF Hb) as (h & _ & Hzb & Hclb & _).
    destruct (forall2_history _ _ c HF Hc) as (h' & _ & Hzc & _ & _).
    destruct (forall2_zip_history _ _ _ _ HF Hzb) as (_ & _ & Hn).
    assert (key c ∈ h.2) as Hkc by (apply Hn; eauto).
    apply list_elem_of_In in Hzb, Hzc.
    destruct (ForallOrdPairs_In Hinc _ _ Hzb Hzc) as [[= ->]|[[? ?]|[? ?]]]; try done.
    by eapply (clean_acyclic _ c Hclb c e).
  - destruct Hin as [E|(h & -> & Hh)%list_elem_of_fmap].
    + destruct (evidence_blocks raw) as [|b bs] eqn:Eb; [simpl in Hlen; lia|].
      destruct (forall2_history _ _ b HF ltac:(by left)) as (h & Hh & _ & Hcl & Hl).
      exists b. split; [by left|].
      assert (evidence_round raw <= h.1)%N by (by apply Hle, list_elem_of_fmap_2).
      pose proof (longest_fits b _ Hcl Hl). by replace (evidence_round raw) with h.1 by lia.
    + by eapply forall2_depth.
  - intros b d Hb Hl. destruct (forall2_history _ _ b HF Hb) as (h & Hh & _ & _ & Hl').
    rewrite (longest_unique b d h.1) by done. by apply Hle, list_elem_of_fmap_2.
Qed.

Lemma genuine_checks raw :
  genuine raw → ∃ hs,
    Forall2 (λ b h, complete_history b bl = Ok h) (evidence_blocks raw) hs ∧
    foldl N.min u64_max (map fst hs) = evidence_round raw ∧
    incomparable (zip (evidence_blocks raw) ([] ++ map snd hs)) = Ok tt.
Proof.
  intros Hg. assert (∃ hs, Forall2 (λ b h, complete_history b bl = Ok h) (evidence_blocks raw) hs)
    as [hs HF].
  { apply clean_histories, Hg. }
  exists hs. split; [done|]. cbn [app]. split.
  - destruct (foldl_min (map fst hs) u64_max) as (Hx & Hle & Hin).
    destruct (genuine_round _ Hg) as (b & Hb & Hl).
    destruct (forall2_history _ _ b HF Hb) as (h & Hh & _ & Hcl & Hl').
    assert (foldl N.min u64_max (map fst hs) <= h.1)%N by (by apply Hle, list_elem_of_fmap_2).
    replace h.1 with (evidence_round raw) in * by (by eapply longest_unique).
    destruct Hin as [E|(h' & E & Hh')%list_elem_of_fmap]; rewrite E in *.
    + pose proof (longest_fits b _ Hcl Hl). lia.
    + destruct (forall2_depth _ _ _ HF Hh') as (b' & Hb' & Hl2).
      pose proof (genuine_earliest _ Hg b' _ Hb' Hl2). lia.
  - apply incomparable_Ok, ForallPairs_ForallOrdPairs.
    intros [b A] [c B] Hb%list_elem_of_In Hc%list_elem_of_In.
    destruct (forall2_zip_history _ _ _ _ HF Hb) as (Hbin & _ & HA).
    destruct (forall2_zip_history _ _ _ _ HF Hc) as (Hcin & _ & HB).
    split; cbn [fst snd]; [rewrite (HA _)|rewrite (HB _)]; intros (e & He & Hk).
    + by apply (genuine_fork _ Hg b c e).
    + by apply (genuine_fork _ Hg c b e).
Qed.

Lemma verify_genuine raw v :
  verify_equivocation_evidence raw bl = Ok v ↔
  genuine raw ∧
  v = mk (validator raw) (evidence_round raw) (sort_by_key identity (evidence_blocks raw)).
Proof.
  unfold verify_equivocation_evidence. rewrite bail_Ok, result_bind_Ok.
  setoid_rewrite check_blocks_Ok. setoid_rewrite bail_Ok. setoid_rewrite result_bind_Ok.
  split.
  - intros (Hlen & ? & (Hnd & Hall & hs & HF & ->) & Hr & [] & Hinc & [= <-]).
    cbn [earliest_round histories] in *. apply dec_stable in Hr.
    split; [by eapply genuine_intro|by rewrite Hr].
  - intros [Hg ->]. destruct (genuine_checks raw Hg) as (hs & HF & Hr & Hinc).
    split; [destruct Hg; lia|]. eexists. split; [split_and!; [apply Hg| |by exists hs]|].
    + intros b Hb. split; [by apply Hg|]. cbn. set_solver.
    + cbn [earliest_round histories]. rewrite Hr. split; [tauto|]. exists tt. by split.
Qed.

End history.

(** ** The proof bytes

    Decoding gives the claim back, with the signatures of the references
    removed; nothing the verification looks at depends on those. *)

Import VerifiedEvidence.

(** ** Contents whose references carry no signature *)

Definition unsigned_content (c : BlockContent) : BlockContent :=
  mkContent (payload c) (set_map consensus_identity (predecessors c)).
Definition unsigned (b : Block) : Block := mkBlock (identity b) (unsigned_content (content b)).

(** No block references two signature variants of one block. *)
Definition no_variants (c : BlockContent) : Prop :=
  ∀ p q, p ∈ predecessors c → q ∈ predecessors c → same_consensus_identity p q → p = q.

Lemma sorted_keys `{Ord B} {A} (key : A → B) (l l' : list A) :
  map key l ≡ₚ map key l' → map key (sort_by_key key l) = map key (sort_by_key key l').
Proof.
  assert (∀ k : list A, StronglySorted ord_le (map key (sort_by_key key k))) as Hs.
  { intros k. pose proof (sort_by_key_sorted key k) as Hk.
    induction Hk as [|x k' Hk IH Hx]; simpl; constructor; [done|].
    apply Forall_forall. intros y (z & -> & Hz)%list_elem_of_fmap.
    by apply (proj1 (Forall_forall _ _) Hx). }
  intros E. apply (StronglySorted_unique ord_le); [apply Hs..|].
  rewrite !sort_by_key_perm. exact E.
Qed.

Lemma perm_same_keys {A B} (f : A → B) (l l' : list A) :
  NoDup (map f l) → l ≡ₚ l' → map f l = map f l' → l = l'.
Proof.
  revert l'. induction l as [|x l IH]; intros [|y l'] Hnd Hp E; [done..|].
  apply NoDup_cons in Hnd as [Hx Hnd]. injection E as Exy E.
  assert (x = y) as <-.
  { assert (x ∈ y :: l') as [->|Hin]%elem_of_cons by (rewrite <-Hp; by left); [done|].
    assert (f x ∈ map f l) by (rewrite E; by apply list_elem_of_fmap_2). done. }
  f_equal. apply IH; [done| |done]. by eapply Permutation_cons_inv.
Qed.
Lemma sort_sorted_keys `{Ord B} {A} (key : A → B) (l : list A) :
  NoDup (map key l) → StronglySorted (λ x y, ord_le (key x) (key y)) l → sort_by_key key l = l.
Proof.
  intros Hnd Hl. apply (perm_same_keys key); [by rewrite sort_by_key_perm|apply sort_by_key_perm|].
  assert (∀ k : list A, StronglySorted (λ x y, ord_le (key x) (key y)) k →
    StronglySorted ord_le (map key k)) as Hs.
  { induction 1 as [|x k' Hk IH Hx]; simpl; constructor; [done|].
    apply Forall_forall. intros y (z & -> & Hz)%list_elem_of_fmap.
    by apply (proj1 (Forall_forall _ _) Hx). }
  apply (StronglySorted_unique ord_le); [apply Hs, sort_by_key_sorted|by apply Hs|].
  by rewrite sort_by_key_perm.
Qed.

Section unsigned.
Context `{HO : HashOrder} `{Blake2b} `{Secp256k1}.
Implicit Types (b : Block) (c : BlockContent) (bl : Blocklace.t).

Lemma hash_iter_unsigned c :
  no_variants c →
  hash_iter (predecessors (unsigned_content c)) ≡ₚ map consensus_identity (hash_iter (predecessors c)).
Proof.
  intros Hv. apply NoDup_Permutation; [apply NoDup_hash_iter| |].
  - apply NoDup_fmap_2_strong; [|apply NoDup_hash_iter].
    intros p q Hp%elem_of_hash_iter Hq%elem_of_hash_iter E. apply Hv; [done..|].
    by apply same_consensus_identity_alt.
  - intros i. rewrite elem_of_hash_iter, list_elem_of_fmap. cbn [unsigned_content predecessors].
    rewrite elem_of_map. by setoid_rewrite elem_of_hash_iter.
Qed.
Lemma unsigned_keys c :
  no_variants c →
  map Crypto.reference_key (hash_iter (predecessors (unsigned_content c))) ≡ₚ
  map Crypto.reference_key (hash_iter (predecessors c)).
Proof. intros ->%hash_iter_unsigned. by rewrite map_map. Qed.

Lemma block_hash_unsigned p c :
  no_variants c → Crypto.block_hash p (unsigned_content c) = Crypto.block_hash p c.
Proof.
  intros Hv. unfold Crypto.block_hash, Crypto.block_hash_ext, Crypto.block_hash_input.
  by rewrite (sorted_keys _ _ _ (unsigned_keys c Hv)).
Qed.

Lemma block_bytes_unsigned b : no_variants (content b) → block_bytes (unsigned b) = block_bytes b.
Proof.
  intros Hv. unfold block_bytes. cbn [unsigned identity content payload].
  pose proof (sorted_keys _ _ _ (unsigned_keys (content b) Hv)) as E.
  set (f := λ k : Hash32 * NodeId, vec_to_list k.1 ++ field k.2).
  assert (∀ l, map reference_bytes l = map f (map Crypto.reference_key l)) as Hf
    by (intros l; by rewrite map_map).
  assert (∀ l : list BlockIdentity, length l = length (map Crypto.reference_key l)) as Hl
    by (intros l; by rewrite length_map).
  by rewrite !Hf, !(Hl (sort_by_key _ _)), E.
Qed.

Lemma parent_unsigned bl b x : parent bl (unsigned b) x ↔ parent bl b x.
Proof.
  unfold parent. cbn [unsigned content unsigned_content predecessors]. split.
  - intros (p & (q & -> & Hq)%elem_of_map & Hx). by exists q.
  - intros (p & Hp & Hx). exists (consensus_identity p). split; [|done]. by apply elem_of_map_2.
Qed.
Lemma tc_unsigned bl b x : tc (parent bl) (unsigned b) x ↔ tc (parent bl) b x.
Proof. rewrite !tc_parent_inv. by setoid_rewrite parent_unsigned. Qed.
Lemma nsteps_unsigned bl b n x :
  nsteps (parent bl) (S n) (unsigned b) x ↔ nsteps (parent bl) (S n) b x.
Proof.
  split; intros Hn; inversion Hn; subst; econstructor; [by apply parent_unsigned|done|by apply parent_unsigned|done].
Qed.
Lemma depth_unsigned bl b n :
  (∃ x, nsteps (parent bl) n (unsigned b) x) ↔ ∃ x, nsteps (parent bl) n b x.
Proof.
  destruct n as [|n]; [split; intros _; eexists; constructor|]. by setoid_rewrite nsteps_unsigned.
Qed.
Lemma longest_unsigned bl b r : longest bl (unsigned b) r ↔ longest bl b r.
Proof.
  unfold longest. rewrite depth_unsigned.
  assert (∀ y, (∀ n x, nsteps (parent bl) n y x → n ≤ N.to_nat r) ↔
    ∀ n, (∃ x, nsteps (parent bl) n y x) → n ≤ N.to_nat r) as Hy by naive_solver.
  rewrite !Hy. by setoid_rewrite depth_unsigned.
Qed.

Lemma hash_matches_unsigned b :
  no_variants (content b) → hash_matches (unsigned b) = hash_matches b.
Proof. intros Hv. unfold hash_matches. cbn [unsigned identity content]. by rewrite block_hash_unsigned. Qed.

Lemma clean_unsigned bl b :
  no_variants (content b) → clean bl ∅ b → clean bl ∅ (unsigned b).
Proof.
  intros Hv [H1 H2 H3 H4]. split.
  - intros d [->|Hd]%rtc_parent_inv; [|apply H1, tc_rtc, tc_unsigned, Hd].
    destruct (H1 b ltac:(done)) as [Hh Hp]. split; [by rewrite hash_matches_unsigned|].
    intros p (q & -> & Hq)%elem_of_map. exact (Hp q Hq).
  - set_solver.
  - intros x d [->|Hx]%rtc_parent_inv.
    + intros Hd. apply (H3 b d); [done|]. by apply (proj1 (tc_unsigned bl b d)).
    + apply H3, tc_rtc, tc_unsigned, Hx.
  - intros n d Hn. destruct (proj1 (depth_unsigned bl b n)) as [x Hx]; [by exists d|]. by eapply H4.
Qed.

Definition unsigned_claim (raw : EquivocationEvidence) : EquivocationEvidence :=
  mkEvidence (validator raw) (evidence_round raw) (map unsigned (evidence_blocks raw)).

Lemma genuine_unsigned bl raw :
  (∀ b, b ∈ evidence_blocks raw → no_variants (content b)) →
  genuine bl raw → genuine bl (unsigned_claim raw).
Proof.
  intros Hv Hg. split; cbn [unsigned_claim evidence_blocks evidence_round validator].
  - rewrite length_map. apply Hg.
  - rewrite map_map. apply Hg.
  - intros ? (b & -> & Hb)%list_elem_of_fmap. destruct (genuine_authentic _ _ Hg b Hb) as (? & ? & ?).
    split_and!; [done| |done]. rewrite hash_matches_unsigned; auto.
  - intros ? (b & -> & Hb)%list_elem_of_fmap. apply clean_unsigned; [by apply Hv|]. by apply Hg.
  - intros ? ? e (b & -> & Hb)%list_elem_of_fmap (d & -> & Hd)%list_elem_of_fmap He.
    apply (proj1 (tc_unsigned _ _ _)) in He. by apply (genuine_fork _ _ Hg b d e).
  - destruct (genuine_round _ _ Hg) as (b & Hb & Hl). exists (unsigned b).
    split; [by apply list_elem_of_fmap_2|]. by apply longest_unsigned.
  - intros ? d (b & -> & Hb)%list_elem_of_fmap Hl.
    apply (proj1 (longest_unsigned _ _ _)) in Hl. by apply (genuine_earliest _ _ Hg b).
Qed.

Lemma genuine_perm bl v r bs bs' :
  bs ≡ₚ bs' → genuine bl (mkEvidence v r bs) → genuine bl (mkEvidence v r bs').
Proof.
  intros Hp [H1 H2 H3 H4 H5 H6 H7]; split; cbn [evidence_blocks evidence_round validator] in *;
    try setoid_rewrite <-Hp; done.
Qed.

(** Sorting the decoded blocks again changes nothing. *)
Lemma sort_unsigned bs :
  NoDup (map key bs) →
  sort_by_key identity (map unsigned (sort_by_key identity bs)) = map unsigned (sort_by_key identity bs).
Proof.
  intros Hnd. apply sort_sorted_keys.
  - rewrite map_map. rewrite sort_by_key_perm. unfold unsigned. cbn [identity].
    apply (NoDup_fmap_1 consensus_identity). by rewrite <-list_fmap_compose.
  - pose proof (sort_by_key_sorted identity bs) as Hs.
    induction Hs as [|x k Hk IH Hx]; simpl; constructor; [done|].
    apply Forall_forall. intros y (z & -> & Hz)%list_elem_of_fmap.
    exact (proj1 (Forall_forall _ _) Hx z Hz).
Qed.

End unsigned.

(** ** Decoding *)

Section decoding.
Context `{HO : HashOrder}.

(** The lengths written in the bytes fit in [u64]. *)
Record sized_proof (v : VerifiedEvidence.t) : Prop := {
  sized_validator : fits (verified_validator v);
  sized_round : (verified_round v <= u64_max)%N;
  sized_blocks : (N.of_nat (length (verified_blocks v)) <= u64_max)%N;
  sized_each : ∀ b, b ∈ verified_blocks v →
    sized (creator (identity b)) (content b) ∧ fits (signature (identity b))
}.

Lemma number_run x (rest : list byte) : (x <= u64_max)%N → number (be64 x ++ rest) = Ok (x, rest).
Proof. intros Hx. unfold number. by apply exact_u64. Qed.
Lemma exact_field rest l : fits l → bytes (field l ++ rest) = Ok (l, rest).
Proof.
  intros Hl. unfold bytes, field. rewrite N.mod_small by (unfold fits, u64_max in *; lia).
  rewrite <-(assoc_L (++)). unfold parse_bind at 1. rewrite number_run by done.
  apply exact_exact. split; [by rewrite Nat2N.id|done].
Qed.
Lemma count_run (n : nat) rest :
  (N.of_nat n <= u64_max)%N → 32 * n ≤ length rest →
  count (be64 (N.of_nat n mod 2 ^ 64) ++ rest) = Ok (n, rest).
Proof.
  intros Hn Hr. unfold count. rewrite N.mod_small by (unfold u64_max in *; lia).
  unfold parse_bind. rewrite number_run by done. unfold remaining, parse_ret.
  rewrite decide_False; [by rewrite Nat2N.id|].
  assert (n ≤ length rest / 32) by (apply Nat.div_le_lower_bound; lia). lia.
Qed.

Lemma bind_run {A B} (p : parser EvidenceVerificationError A) (k : A → parser _ B) input x rest r :
  p input = Ok (x, rest) → k x rest = r → parse_bind p k input = r.
Proof. unfold parse_bind. by intros -> ->. Qed.

Lemma read_reference_run p rest :
  fits (creator p) → read_reference (reference_bytes p ++ rest) = Ok (consensus_identity p, rest).
Proof.
  intros Hp. unfold read_reference, reference_bytes. rewrite <-(assoc_L (++)).
  eapply bind_run; [by apply exact_hash|]. by eapply bind_run; [by apply exact_field|].
Qed.
Lemma read_references_run ps seen rest :
  (∀ p, p ∈ ps → fits (creator p) ∧ consensus_identity p ∉ seen) →
  NoDup (map consensus_identity ps) →
  read_references (length ps) seen (mjoin (map reference_bytes ps) ++ rest) =
    Ok (list_to_set (map consensus_identity ps) ∪ seen, rest).
Proof.
  revert seen. induction ps as [|p ps IH]; intros seen Hps Hnd; simpl.
  { unfold parse_ret. do 2 f_equal. set_solver. }
  apply NoDup_cons in Hnd as [Hp Hnd]. rewrite <-(assoc_L (++)).
  destruct (Hps p ltac:(by left)) as [Hf Hn].
  eapply bind_run; [by apply read_reference_run|]. rewrite decide_False by done.
  rewrite IH; [do 2 f_equal; set_solver| |done]. intros q Hq.
  destruct (Hps q ltac:(by right)) as [? Hqn]. split; [done|].
  rewrite not_elem_of_union, not_elem_of_singleton. split; [|done].
  intros E. apply Hp. rewrite <-E. by apply list_elem_of_fmap_2.
Qed.
Lemma length_references ps : 32 * length ps ≤ length (mjoin (map reference_bytes ps)).
Proof.
  induction ps as [|p ps IH]; simpl; [lia|]. unfold reference_bytes at 1.
  rewrite !length_app, length_vec_to_list. lia.
Qed.

Lemma read_block_run b rest :
  no_variants (content b) → sized (creator (identity b)) (content b) →
  fits (signature (identity b)) → read_block (block_bytes b ++ rest) = Ok (unsigned b, rest).
Proof.
  intros Hv [Hc Hp Hn Hr] Hs. unfold read_block, block_bytes. cbn zeta.
  set (ps := sort_by_key _ _). assert (ps ≡ₚ hash_iter (predecessors (content b))) as Hps
    by apply sort_by_key_perm.
  assert (length ps = size (predecessors (content b))) as Hl
    by (rewrite Hps; apply length_hash_iter).
  rewrite <-!(assoc_L (++)).
  eapply bind_run; [by apply exact_hash|]. eapply bind_run; [by apply exact_field|].
  eapply bind_run; [by apply exact_field|]. eapply bind_run; [by apply exact_field|].
  eapply bind_run.
  { apply count_run; [by rewrite Hl|]. rewrite length_app. pose proof (length_references ps). lia. }
  eapply bind_run.
  { apply read_references_run.
    - intros p Hin. rewrite Hps, elem_of_hash_iter in Hin. split; [by apply Hr|set_solver].
    - rewrite Hps, <-hash_iter_unsigned by done. apply NoDup_hash_iter. }
  unfold parse_ret. do 2 f_equal. destruct b as [[h cr sg] c]. unfold unsigned, unsigned_content.
  cbn [identity content content_hash creator signature]. do 2 f_equal.
  apply set_eq. intros i. rewrite elem_of_union, elem_of_list_to_set, list_elem_of_fmap, elem_of_map.
  setoid_rewrite Hps. setoid_rewrite elem_of_hash_iter. set_solver.
Qed.

Lemma read_many_run {A B} (p : parser EvidenceVerificationError B) (enc : A → list byte) f l rest :
  (∀ x rest, x ∈ l → p (enc x ++ rest) = Ok (f x, rest)) →
  read_many p (length l) (mjoin (map enc l) ++ rest) = Ok (map f l, rest).
Proof.
  induction l as [|x l IH]; intros Hp; simpl; [done|]. rewrite <-(assoc_L (++)).
  eapply bind_run; [apply Hp; by left|]. eapply bind_run; [apply IH; intros; apply Hp; by right|done].
Qed.
Lemma length_blocks bs : 32 * length bs ≤ length (mjoin (map block_bytes bs)).
Proof.
  induction bs as [|b bs IH]; simpl; [lia|]. unfold block_bytes at 1. cbn zeta.
  rewrite !length_app, length_vec_to_list. lia.
Qed.

Lemma decode_run v :
  sized_proof v → (∀ b, b ∈ verified_blocks v → no_variants (content b)) →
  decode_equivocation_evidence (canonical_bytes v) =
    Ok (mkEvidence (verified_validator v) (verified_round v) (map unsigned (verified_blocks v))).
Proof.
  intros [Hval Hround Hcount Hb] Hv. unfold decode_equivocation_evidence, canonical_bytes.
  rewrite decide_True by apply take_app_length. rewrite drop_app_length.
  enough (read_claim (field (verified_validator v) ++ be64 (verified_round v) ++
    be64 (N.of_nat (length (verified_blocks v)) mod 2 ^ 64) ++
    mjoin (map block_bytes (verified_blocks v)) ++ []) =
    Ok (mkEvidence (verified_validator v) (verified_round v) (map unsigned (verified_blocks v)), []))
    as E by (rewrite app_nil_r in E; by rewrite E).
  unfold read_claim. eapply bind_run; [by apply exact_field|].
  eapply bind_run; [by apply number_run|].
  eapply bind_run; [apply count_run; [done|]; rewrite length_app; pose proof (length_blocks (verified_blocks v)); lia|].
  eapply bind_run; [|done]. apply read_many_run. intros b rest Hin.
  destruct (Hb b Hin). apply read_block_run; auto.
Qed.

End decoding.

(** ** Evidence of a run

    On a well-formed blocklace the walk of the evidence verifier and the
    references of the blocklace agree; a block rejected for equivocation and
    the stored block it conflicts with make a genuine claim. *)

Import VerifiedEvidence.

Section stored.
Context `{HO : HashOrder} `{Blake2b} `{Secp256k1}.
Variable bl : Blocklace.t.
Hypothesis Hwf : well_formed bl.
Hypothesis Hcp : Blocklace.checkpoint bl = None.
Hypothesis Hhashed : hashed bl.
Hypothesis Hsize : (N.of_nat (S (size (Blocklace.blocks bl))) <= u64_max)%N.
Implicit Types b c : Block.
#[local] Set Default Proof Using "Type* Hwf Hcp Hhashed Hsize".

(** [b] is the stored block of its identity. *)
Definition stored b : Prop := Blocklace.blocks bl !! identity b = Some (content b).

(** ** References and parents *)

Lemma stored_parent c x : parent bl c x → stored x.
Proof. by intros (p & _ & [_ Hx]%get_Some). Qed.
Lemma stored_known b : stored b → Blocklace.get bl (key b) = Some b.
Proof.
  intros Hb. apply get_Some. split; [|done]. apply resolve_in_unsigned.
  - intros x y Hx Hy. apply (wf_unique _ Hwf); by apply elem_of_lace_dom.
  - done.
  - by eexists.
  - done.
Qed.
Lemma stored_same b c : stored b → stored c → key b = key c → b = c.
Proof. intros Hb%stored_known Hc%stored_known E. rewrite E in Hb. congruence. Qed.

Lemma resolve_key p r :
  Blocklace.resolve_identity bl p = Some r → Blocklace.resolve_identity bl (consensus_identity p) = Some r.
Proof.
  intros (Hr & Hs & _)%resolve_Some. apply resolve_in_unsigned; [|done|by apply elem_of_lace_dom|done].
  intros x y Hx Hy. apply (wf_unique _ Hwf); by apply elem_of_lace_dom.
Qed.

(** A reference that resolves to [i] is to the parent [i]. *)
Lemma parent_intro c p i :
  p ∈ predecessors (content c) → Blocklace.resolve_identity bl p = Some i →
  ∃ x, parent bl c x ∧ identity x = i ∧ Blocklace.get bl (consensus_identity p) = Some x.
Proof.
  intros Hp Hr. apply resolve_Some in Hr as Hd. destruct Hd as ([d Hd]%elem_of_lace_dom & _).
  assert (Blocklace.get bl (consensus_identity p) = Some (mkBlock i d)) as Hx.
  { apply get_Some. split; [by apply resolve_key|done]. }
  exists (mkBlock i d). split_and!; [by exists p|done..].
Qed.
Lemma parent_reference c x :
  (∀ p, p ∈ predecessors (content c) → is_Some (Blocklace.resolve_identity bl p)) →
  parent bl c x → ∃ p, p ∈ predecessors (content c) ∧ Blocklace.resolve_identity bl p = Some (identity x).
Proof.
  intros Hres (p & Hp & [Hx _]%get_Some). exists p. split; [done|].
  destruct (Hres p Hp) as [r Hr]. rewrite Hr. by rewrite (resolve_key p r Hr) in Hx.
Qed.

Lemma stored_closed c p :
  stored c → p ∈ predecessors (content c) → is_Some (Blocklace.resolve_identity bl p).
Proof. intros Hc. eapply (wf_closed _ Hwf); [exact Hc|by rewrite Hcp]. Qed.
Lemma stored_points c x : stored c → parent bl c x → points bl (identity c) (identity x).
Proof.
  intros Hc Hx. destruct (parent_reference c x) as (p & Hp & Hr); [|done|].
  - intros p. by apply stored_closed.
  - exists (content c), p. split_and!; [done..|by rewrite Hcp].
Qed.
Lemma points_stored c i : stored c → points bl (identity c) i → ∃ x, parent bl c x ∧ identity x = i.
Proof.
  intros Hc (d & p & Hd & Hp & Hr & _). replace d with (content c) in * by (unfold stored in Hc; congruence).
  destruct (parent_intro c p i Hp Hr) as (x & ? & ? & _). by exists x.
Qed.

Lemma tc_stored c x : stored c → tc (parent bl) c x → stored x ∧ tc (points bl) (identity c) (identity x).
Proof.
  intros Hc Ht. revert Hc. induction Ht as [c x Hx|c y x Hy _ IH]; intros Hc.
  - split; [by eapply stored_parent|]. apply tc_once. by apply stored_points.
  - destruct IH as [? IH]; [by eapply stored_parent|]. split; [done|].
    eapply tc_l; [by apply stored_points|done].
Qed.
Lemma nsteps_stored n c x :
  stored c → nsteps (parent bl) n c x → nsteps (points bl) n (identity c) (identity x).
Proof.
  intros Hc Hn. revert Hc. induction Hn as [c|n c y x Hy _ IH]; intros Hc; [constructor|].
  econstructor; [by apply stored_points|]. apply IH. by eapply stored_parent.
Qed.
Lemma nsteps_points n c i :
  stored c → nsteps (points bl) n (identity c) i → ∃ x, nsteps (parent bl) n c x ∧ identity x = i.
Proof.
  revert c. induction n as [|n IH]; intros c Hc Hn; inversion Hn as [|? ? j ? Hj Hji]; subst.
  - exists c. split; [constructor|done].
  - destruct (points_stored c j Hc Hj) as (y & Hy & <-).
    destruct (IH y) as (x & Hx & <-); [by eapply stored_parent|done|].
    exists x. split; [by econstructor|done].
Qed.

(** ** Stored blocks are clean *)

Lemma stored_longest b d : stored b → is_depth bl (identity b) d → longest bl b d.
Proof.
  intros Hb Hd. apply is_depth_longest in Hd as [(j & Hj & _) Hmax];
    [|done|apply (wf_acyclic _ Hwf)|lia].
  destruct (nsteps_points _ b j Hb Hj) as (x & Hx & _). split; [by exists x|].
  intros n y Hn. eapply Hmax. by apply nsteps_stored.
Qed.
Lemma stored_depth b :
  stored b → ∃ d, Round.depth bl (identity b) = Some d ∧ is_depth bl (identity b) d ∧
    longest bl b d ∧ N.to_nat d ≤ size (Blocklace.blocks bl).
Proof.
  intros Hb. destruct (depth_exists bl (identity b)) as [d Hd].
  { apply Hwf. } { apply Hwf. } { apply elem_of_lace_dom. by eexists. }
  exists d. split_and!; [|done|by apply stored_longest|].
  - apply depth_spec; [apply Hwf|]. exists (identity b). split; [|done].
    apply resolve_stored, elem_of_lace_dom. by eexists.
  - pose proof (is_depth_rank bl _ _ Hcp (wf_acyclic _ Hwf) Hd).
    pose proof (ancestor_rank_le bl (identity b)). lia.
Qed.
Lemma stored_matches b : stored b → hash_matches b = true.
Proof. intros Hb. apply bool_decide_eq_true. symmetry. by apply Hhashed. Qed.
Lemma stored_resolves b p :
  stored b → p ∈ predecessors (content b) → is_Some (Blocklace.get bl (consensus_identity p)).
Proof.
  intros Hb Hp. destruct (stored_closed b p Hb Hp) as [r Hr].
  destruct (parent_intro b p r Hp Hr) as (x & _ & _ & Hx). by exists x.
Qed.

Lemma rtc_stored b c : stored b → rtc (parent bl) b c → stored c.
Proof. intros Hb [->|Hc]%rtc_parent_inv; [done|]. by apply (tc_stored b c). Qed.

Lemma clean_stored b : stored b → clean bl ∅ b.
Proof.
  intros Hb. split.
  - intros c Hc%rtc_stored; [|done]. split; [by apply stored_matches|]. intros p. by apply stored_resolves.
  - set_solver.
  - intros c d Hc%rtc_stored Hcd; [|done]. destruct (tc_stored c d Hc Hcd) as [Hd Ht].
    intros E. apply (stored_same d c) in E as ->; [|done..]. by apply (wf_acyclic _ Hwf (identity c)).
  - intros n c Hn. destruct (stored_depth b Hb) as (d & _ & _ & [_ Hm] & Hd). apply Hm in Hn. lia.
Qed.

(** ** A rejected block *)

(** A block above the blocklace: its references resolve, its hash is right and
    no stored block has its name. *)
Record above b : Prop := {
  above_closed : ∀ p, p ∈ predecessors (content b) → is_Some (Blocklace.resolve_identity bl p);
  above_hash : hash_matches b = true;
  above_fresh : ∀ k, k ∈ Blocklace.dom bl → ¬ same_consensus_identity k (identity b)
}.

Lemma fresh_key b x : above b → stored x → key x ≠ key b.
Proof.
  intros Ha Hx E. apply (above_fresh b Ha (identity x)); [apply elem_of_lace_dom; by eexists|].
  by apply same_consensus_identity_alt.
Qed.
Lemma tc_above b x : tc (parent bl) b x → stored x.
Proof. intros (y & Hy & [->|Hx])%tc_parent_inv; [by eapply stored_parent|]. apply (tc_stored y x); [|done]. by eapply stored_parent. Qed.

(** The depths [candidate_depth] collects are those of the parents. *)
Lemma reference_depth b p d :
  above b → p ∈ predecessors (content b) → Round.depth bl p = Some d →
  ∃ x, parent bl b x ∧ Blocklace.resolve_identity bl p = Some (identity x) ∧ longest bl x d ∧
    N.to_nat d ≤ size (Blocklace.blocks bl).
Proof.
  intros Ha Hpin (i & Hr & Hi)%depth_sound.
  destruct (parent_intro b p i Hpin Hr) as (x & Hx & <- & _). exists x.
  destruct (stored_depth x (stored_parent _ _ Hx)) as (d' & _ & Hd' & Hl & ?).
  by replace d with d' by (by eapply is_depth_det).
Qed.
Lemma reference_depths b ds :
  above b → Forall2 (λ p d, Round.depth bl p = Some d) (hash_iter (predecessors (content b))) ds →
  ∀ d, d ∈ ds ↔ ∃ x, parent bl b x ∧ longest bl x d ∧ N.to_nat d ≤ size (Blocklace.blocks bl).
Proof.
  intros Ha Hds d. split.
  - intros [i Hi]%list_elem_of_lookup. destruct (Forall2_lookup_r _ _ _ _ _ Hds Hi) as (p & Hpi & Hd).
    apply list_elem_of_lookup_2 in Hpi. rewrite elem_of_hash_iter in Hpi.
    destruct (reference_depth b p d Ha Hpi Hd) as (x & ? & _ & ? & ?). by exists x.
  - intros (x & Hxp & Hl & _).
    destruct (parent_reference b x (above_closed b Ha) Hxp) as (p & Hpin & Hr).
    pose proof Hpin as Hpi. rewrite <-elem_of_hash_iter in Hpi. apply list_elem_of_lookup in Hpi as [i Hi].
    destruct (Forall2_lookup_l _ _ _ _ _ Hds Hi) as (d' & Hd' & Hd).
    destruct (reference_depth b p d' Ha Hpin Hd) as (y & Hy & Hry & Hly & _).
    assert (x = y) as <-.
    { apply stored_same; [by eapply stored_parent..|]. unfold key. congruence. }
    rewrite (longest_unique bl x d d') by done. by eapply list_elem_of_lookup_2.
Qed.

Lemma above_depth b :
  above b → ∃ d, Round.candidate_depth bl (content b) = Some d ∧ longest bl b d ∧
    (N.to_nat d ≤ S (size (Blocklace.blocks bl))).
Proof.
  intros Ha. unfold Round.candidate_depth. case_decide as Hp.
  { exists 0%N. split_and!; [done| |lia]. apply longest_above; [|by left].
    intros x (p & Hin & _). set_solver. }
  assert (∃ ds, mapM (Round.depth bl) (hash_iter (predecessors (content b))) = Some ds) as [ds Hds].
  { apply mapM_is_Some, Forall_forall. intros p Hpin%elem_of_hash_iter.
    destruct (above_closed b Ha p Hpin) as [r Hr].
    destruct (parent_intro b p r Hpin Hr) as (x & Hx & <- & _).
    destruct (stored_depth x (stored_parent _ _ Hx)) as (d & _ & Hd & _). exists d.
    apply depth_spec; [apply Hwf|]. by exists (identity x). }
  rewrite Hds. cbn [mbind option_bind]. apply mapM_Some in Hds.
  pose proof (reference_depths b ds Ha Hds) as Hdepth.
  destruct (iter_max ds) as [m|] eqn:Em.
  2:{ apply iter_max_None in Em as ->. apply Forall2_length in Hds. simpl in Hds.
      rewrite length_hash_iter in Hds. apply size_empty_inv in Hds. by apply leibniz_equiv in Hds. }
  apply iter_max_Some in Em as [Hm Hmax]. apply Hdepth in Hm as (x & Hx & Hl & Hle).
  cbn [mbind option_bind]. exists (m + 1)%N. split_and!; [|apply longest_above|lia].
  - apply checked_add_Some. split; [done|lia].
  - intros y Hy. destruct (stored_depth y (stored_parent _ _ Hy)) as (d & _ & _ & Hld & ?).
    exists d. split; [done|]. assert (d <= m)%N; [|lia]. apply Hmax, Hdepth. by exists y.
  - right. by exists x, m.
Qed.

Lemma clean_rejected b : above b → clean bl ∅ b.
Proof.
  intros Ha. destruct (above_depth b Ha) as (d & _ & Hl & Hd).
  apply (clean_above bl ∅ b d); [apply Ha|set_solver| | | |done|lia].
  - intros p Hp. destruct (above_closed b Ha p Hp) as [r Hr].
    destruct (parent_intro b p r Hp Hr) as (x & _ & _ & Hx). by exists x.
  - intros x Hx. apply stored_parent in Hx as Hs. destruct (clean_stored x Hs) as [H1 _ H3 H4].
    split; [done| |done..]. intros c Hc%rtc_stored; [|done].
    rewrite not_elem_of_union, not_elem_of_singleton. split; [by apply fresh_key|set_solver].
  - intros e He%tc_above. by apply fresh_key.
Qed.

(** The rejected block and a stored block of its creator that it does not
    observe: a genuine claim. *)
Definition signed_block b : Prop :=
  Crypto.verify (content_hash (identity b)) (creator (identity b)) (signature (identity b)) = true.

Lemma rejected_genuine b held d d' :
  above b → stored held → signed_block b → signed_block held →
  creator (identity held) = creator (identity b) →
  (∀ p r, p ∈ predecessors (content b) → Blocklace.resolve_identity bl p = Some r →
     ¬ rtc (points bl) r (identity held)) →
  Round.depth bl (identity held) = Some d → Round.candidate_depth bl (content b) = Some d' →
  genuine bl (mkEvidence (creator (identity b)) (N.min d d') [b; held]).
Proof.
  intros Ha Hs Hsb Hsh Hcr Hno Hd Hd'.
  destruct (stored_depth held Hs) as (e & He & _ & Hl & _). replace e with d in * by congruence.
  destruct (above_depth b Ha) as (e' & He' & Hl' & _). replace e' with d' in * by congruence.
  pose proof (fresh_key b held Ha Hs) as Hne.
  split; cbn [evidence_blocks evidence_round validator].
  - simpl. lia.
  - simpl. apply NoDup_cons. split; [|apply NoDup_singleton]. rewrite list_elem_of_singleton. done.
  - intros x [->| ->%list_elem_of_singleton]%elem_of_cons; (split_and!; [done| |]).
    + apply Ha. + done. + by apply stored_matches. + unfold signed_block in Hsh. by rewrite <-Hcr.
  - intros x [->| ->%list_elem_of_singleton]%elem_of_cons; [by apply clean_rejected|by apply clean_stored].
  - intros x y z Hx [->| ->%list_elem_of_singleton]%elem_of_cons Hz.
    + apply fresh_key; [done|]. apply elem_of_cons in Hx as [->| ->%list_elem_of_singleton];
        [by eapply tc_above|by apply (tc_stored held z)].
    + intros E. assert (z = held) as ->.
      { apply stored_same; [|done..]. apply elem_of_cons in Hx as [->| ->%list_elem_of_singleton];
          [by eapply tc_above|by apply (tc_stored held z)]. }
      apply elem_of_cons in Hx as [->| ->%list_elem_of_singleton].
      * apply tc_parent_inv in Hz as (x & Hx & Hz).
        destruct (parent_reference b x (above_closed b Ha) Hx) as (p & Hp & Hr).
        apply (Hno p _ Hp Hr). destruct Hz as [->|Hz]; [done|].
        apply tc_rtc. apply (tc_stored x held); [by eapply stored_parent|done].
      * by apply (clean_acyclic _ _ _ (clean_stored held Hs) held held).
  - destruct (N.min_spec d d') as [[_ ->]|[_ ->]]; [exists held|exists b];
      (split; [rewrite !elem_of_cons; auto|done]).
  - intros x r [->| ->%list_elem_of_singleton]%elem_of_cons Hr;
      [rewrite (longest_unique bl b r d') by done|rewrite (longest_unique bl held r d) by done]; lia.
Qed.

End stored.

(** ** The pool *)

Section pool.
Context `{HO : HashOrder} `{Blake2b} `{Secp256k1}.
Implicit Types (b : Block) (pool : EvidencePool.t) (bl : Blocklace.t).

(** [e] is the claim of the pool under a validator, a round and a key. *)
Definition retained pool (v : NodeId) (r : N) (k : list BlockIdentity) (e : EquivocationEvidence) : Prop :=
  ∃ rounds bucket, pool !! v = Some rounds ∧ rounds !! r = Some bucket ∧ bucket !! k = Some e.

Lemma elem_of_evidence_for pool v e :
  e ∈ EvidencePool.evidence_for pool v ↔ ∃ r k, retained pool v r k e.
Proof.
  unfold EvidencePool.evidence_for, retained. destruct (pool !! v) as [rounds|].
  2:{ split; [by intros ?%elem_of_nil|naive_solver]. }
  rewrite list_elem_of_join. split.
  - intros (l & He & ([r bucket] & -> & Hr%elem_of_btree_map_iter)%list_elem_of_fmap).
    apply list_elem_of_fmap in He as ([k e'] & -> & Hk%elem_of_btree_map_iter). eauto 10.
  - intros (r & k & ? & bucket & [= <-] & Hr & Hk). exists (EvidencePool.bucket_values bucket). split.
    + apply list_elem_of_fmap. exists (k, e). split; [done|]. by apply elem_of_btree_map_iter.
    + apply list_elem_of_fmap. exists (r, bucket). split; [done|]. by apply elem_of_btree_map_iter.
Qed.

(** Every claim is filed under its blocks and is genuine. *)
Definition provable bl pool : Prop := ∀ v r k e, retained pool v r k e →
  map identity (evidence_blocks e) = k ∧ genuine bl e.

(** Filing a claim where there was none. *)
Definition file (pool : EvidencePool.t) (v : NodeId) (r : N) (k : list BlockIdentity)
    (e : EquivocationEvidence) : EvidencePool.t :=
  let rounds := default ∅ (pool !! v) in
  let bucket : EvidencePool.EvidenceBucket := default ∅ (rounds !! r) in
  <[v := <[r := <[k := e]> bucket]> rounds]> pool.
Lemma retained_bucket pool v r k e :
  (default ∅ (default ∅ (pool !! v) !! r) : gmap _ _) !! k = Some e ↔ retained pool v r k e.
Proof.
  unfold retained. destruct (pool !! v) as [rounds|]; cbn [default].
  2:{ unfold id. split; [intros Hk; by rewrite !lookup_empty in Hk|naive_solver]. }
  unfold id. destruct (rounds !! r) as [bucket|] eqn:E; cbn [default]; unfold id.
  - split; [eauto|]. intros (? & ? & [= <-] & E' & He). congruence.
  - split; [intros Hk; by rewrite lookup_empty in Hk|]. intros (? & ? & [= <-] & E' & He). congruence.
Qed.
Lemma retained_file pool v r k e v' r' k' e' :
  retained (file pool v r k e) v' r' k' e' ↔
  (v' = v ∧ r' = r ∧ k' = k ∧ e' = e) ∨
  (¬ (v' = v ∧ r' = r ∧ k' = k) ∧ retained pool v' r' k' e').
Proof.
  unfold file. rewrite <-!retained_bucket. destruct (decide (v' = v)) as [->|Hv].
  2:{ rewrite lookup_insert_ne by done. tauto. }
  rewrite lookup_insert_eq. cbn [default]. unfold id. destruct (decide (r' = r)) as [->|Hr].
  2:{ rewrite lookup_insert_ne by done. tauto. }
  rewrite lookup_insert_eq. cbn [default]. unfold id. destruct (decide (k' = k)) as [->|Hk].
  - rewrite lookup_insert_eq. naive_solver.
  - rewrite lookup_insert_ne by done. tauto.
Qed.

(** Recording two different blocks files one claim on both, unless there is
    one with their identities already. *)
Lemma record_pair pool v r b c :
  identity b ≠ identity c →
  ∃ bs, bs ≡ₚ [b; c] ∧
  let pool' := (EvidencePool.record_equivocation pool v r [b; c]).2 in
  ((∃ e, retained pool v r (map identity bs) e) ∧ pool' = pool) ∨
  ((∀ e, ¬ retained pool v r (map identity bs) e) ∧
   pool' = file pool v r (map identity bs) (mkEvidence v r bs)).
Proof.
  intros Hne. unfold EvidencePool.record_equivocation. cbn [foldl].
  assert (EvidencePool.add_unique (EvidencePool.add_unique ∅ b) c =
    <[identity c := content c]> {[identity b := content b]}) as Hu.
  { unfold EvidencePool.add_unique at 2. rewrite lookup_empty. unfold EvidencePool.add_unique.
    by rewrite lookup_insert_ne, lookup_empty by done. }
  rewrite Hu. set (m := <[identity c := content c]> _).
  assert (size m = 2) as Hm.
  { unfold m. rewrite map_size_insert_None, map_size_singleton by (by apply lookup_singleton_ne). done. }
  rewrite decide_False by lia. set (entries := btree_map_iter m).
  exists (map entry_block entries).
  assert (map identity (map entry_block entries) = entries.*1) as Hk.
  { rewrite map_map. by apply map_ext_in. }
  split.
  { unfold entries. rewrite btree_map_iter_perm. unfold m.
    rewrite map_to_list_insert, map_to_list_singleton by (by apply lookup_singleton_ne).
    cbn [map]. destruct b, c. apply Permutation_swap. }
  cbn zeta. rewrite Hk. setoid_rewrite <-retained_bucket.
  destruct (_ !! entries.*1) as [e|] eqn:Ee; cbn [snd]; [left; eauto|right].
  split; [by intros e|done].
Qed.

(** ** Capture *)

Section capture.
Variables (bl : Blocklace.t) (b : Block).
Hypothesis Hwf : well_formed bl.
Hypothesis Hcp : Blocklace.checkpoint bl = None.
Hypothesis Hhashed : hashed bl.
Hypothesis Hsize : (N.of_nat (S (size (Blocklace.blocks bl))) <= u64_max)%N.
Hypothesis Hsigned : ∀ c, stored bl c → signed_block c.
Hypothesis Habove : above bl b.
Hypothesis Hb : signed_block b.
#[local] Set Default Proof Using "Type* Hwf Hcp Hhashed Hsize Hsigned Habove Hb".

(** The pool keeps what it has, and holds a claim on [b] and [k]. *)
Definition keeps pool pool' : Prop :=
  ∀ v r k e, retained pool v r k e → retained pool' v r k e.
Definition holds pool k : Prop := ∃ r bs e,
  retained pool (creator (identity b)) r (map identity bs) e ∧ map identity bs ≡ₚ [identity b; k].

Lemma holds_keeps pool pool' k : keeps pool pool' → holds pool k → holds pool' k.
Proof. intros Hk (r & bs & e & He & ?). exists r, bs, e. split; [by apply Hk|done]. Qed.

Lemma capture_error bonds acc error :
  faulty b bl bonds error → provable bl acc.2 →
  let acc' := EvidencePool.record_error b bl acc error in
  provable bl acc'.2 ∧ keeps acc.2 acc'.2 ∧
  ∀ k, error = Validation.Equivocation k → holds acc'.2 k.
Proof.
  intros Hf Hp. destruct error as [| | | | |k| |]; try by (split_and!; [done|by intros ?|by intros]).
  destruct Hf as ([c Hc]%elem_of_lace_dom & Hcr & Hne & Hno & _).
  pose proof (get_stored bl k c Hc) as Hget. set (held := mkBlock k c) in *.
  assert (stored bl held) as Hs by done.
  destruct (stored_depth bl Hwf Hcp Hhashed Hsize held Hs) as (d & Hd & _).
  destruct (above_depth bl Hwf Hcp Hhashed Hsize b Habove) as (d' & Hd' & _).
  unfold EvidencePool.record_error. rewrite Hget. cbn [identity held] in Hd. rewrite Hd, Hd'.
  destruct (record_pair acc.2 (creator (identity b)) (N.min d d') b held) as (bs & Hbs & Hcase); [done|].
  cbn zeta in Hcase. destruct (EvidencePool.record_equivocation _ _ _ _) as [added pool'].
  cbn [snd] in Hcase |- *.
  assert (map identity bs ≡ₚ [identity b; k]) as Hids by (by rewrite Hbs).
  destruct Hcase as [[[e He] ->]|[Hnone ->]].
  - split_and!; [done|by intros ?|]. intros ? [= <-]. exists (N.min d d'), bs, e. by split.
  - split_and!.
    + intros v r k' e [(-> & -> & -> & ->)|[_ He]]%retained_file; [|by eapply Hp].
      split; [done|]. eapply genuine_perm; [by symmetry|].
      apply (rejected_genuine bl Hwf Hcp Hhashed Hsize); auto.
    + intros v r k' e He. apply retained_file. right. split; [|done].
      intros (-> & -> & ->). by eapply Hnone.
    + intros ? [= <-]. exists (N.min d d'), bs, (mkEvidence (creator (identity b)) (N.min d d') bs).
      split; [|done]. apply retained_file. by left.
Qed.

Lemma capture_errors bonds errors acc :
  (∀ e, e ∈ errors → faulty b bl bonds e) → provable bl acc.2 →
  let acc' := foldl (EvidencePool.record_error b bl) acc errors in
  provable bl acc'.2 ∧ keeps acc.2 acc'.2 ∧
  ∀ k, Validation.Equivocation k ∈ errors → holds acc'.2 k.
Proof.
  revert acc. induction errors as [|error errors IH]; intros acc Hf Hp; cbn [foldl].
  { split_and!; [done|by intros ?|by intros ? ?%elem_of_nil]. }
  destruct (capture_error bonds acc error (Hf _ ltac:(by left)) Hp) as (Hp1 & Hk1 & Hh1).
  destruct (IH _ (λ e He, Hf e (list_elem_of_further _ _ _ He)) Hp1) as (Hp2 & Hk2 & Hh2).
  split_and!; [done|intros v r k e He; by apply Hk2, Hk1|].
  intros k [<-|Hk]%elem_of_cons; [|by apply Hh2]. eapply holds_keeps; [exact Hk2|by apply Hh1].
Qed.

End capture.
End pool.
