(* ===== verification/EvidenceTheorems.v ===== *)
(** * Theorems: equivocation evidence

    The properties of [verified_evidence.rs] and of the capture of evidence in
    [evidence.rs], each with an instance on concrete blocks. *)

From S2P Require Import Prelude Types Lace LaceFacts Samples Bytes Crypto Rounds RoundFacts.
From S2P Require Import Quorum.
From S2P Require Import Cordiality CordialityFacts Admission AdmissionFacts Evidence.
From S2P Require Import EvidenceFacts.
From S2P Require Import ProtocolSamples.
From stdpp Require Import options.

Import VerifiedEvidence.

Section theorems.
Context `{HO : HashOrder} `{Blake2b} `{Secp256k1}.
Implicit Types (bl : Blocklace.t) (b : Block).

(** C23: the walk over the history of a block ends with a result, whatever is
    stored, within the fuel it is given.  So a claim is verified or refused, and
    it verifies exactly when it is genuine: at least two blocks with distinct
    signature-independent names, each created and signed by the accused under
    its own hash; the whole history of each is stored, with right hashes and no
    name repeated along it; no block is in the history of another; and the
    claimed round is the smallest of their depths.  The verified evidence is the
    claim with its blocks sorted. *)
Theorem evidence_verification_is_exact raw bl v :
  (∀ b, ∃ r, complete_history_opt b bl = Some r ∧ complete_history b bl = r) ∧
  (verify_equivocation_evidence raw bl = Ok v ↔
   genuine bl raw ∧
   v = mk (validator raw) (evidence_round raw) (sort_by_key identity (evidence_blocks raw))).
Proof.
  split; [|apply verify_genuine]. intros b. destruct (complete_history_opt_total bl b) as [r Hr].
  exists r. split; [done|]. unfold complete_history. by rewrite Hr.
Qed.

(** Proof bytes survive a round trip.  The bytes of verified evidence
    decode to a claim that verifies against the same blocklace, to evidence
    about the same blocks, validator and round and with the same bytes; only
    the signatures of the references are lost.  (Lengths fit in [u64], and no
    block references two signature variants of one block: the decoder rejects
    that as a duplicate.) *)
Theorem proof_bytes_round_trip raw bl v :
  verify_equivocation_evidence raw bl = Ok v →
  sized_proof v → (∀ b, b ∈ verified_blocks v → no_variants (content b)) →
  ∃ claim v',
    decode_equivocation_evidence (canonical_bytes v) = Ok claim ∧
    verify_equivocation_evidence claim bl = Ok v' ∧
    canonical_bytes v' = canonical_bytes v ∧
    v' = mk (verified_validator v) (verified_round v) (map unsigned (verified_blocks v)).
Proof.
  intros [Hg ->]%verify_genuine Hs Hv. cbn [verified_validator verified_round verified_blocks] in *.
  eexists _, _. split; [by apply decode_run|]. cbn [verified_validator verified_round verified_blocks].
  split; [apply verify_genuine; split|split].
  - apply (genuine_unsigned bl (mkEvidence (validator raw) (evidence_round raw)
      (sort_by_key identity (evidence_blocks raw)))); [done|].
    eapply genuine_perm; [by rewrite sort_by_key_perm|]. by destruct raw.
  - reflexivity.
  - unfold canonical_bytes. cbn [verified_validator verified_round verified_blocks evidence_blocks
      evidence_round validator].
    rewrite sort_unsigned by apply Hg. rewrite length_map. do 4 f_equal.
    rewrite map_map. f_equal. apply map_ext_in. intros b Hb%list_elem_of_In.
    by apply block_bytes_unsigned, Hv.
  - cbn [evidence_blocks evidence_round validator]. by rewrite sort_unsigned by apply Hg.
Qed.

(** What admission rejects as an equivocation is provable.  When a signed
    block with a right hash, resolved references and a fresh name is rejected
    by a blocklace of signed, admitted blocks, and the errors name the stored
    block [k] as conflicting, the pool ends up with a claim on exactly those two
    blocks that verifies against the blocklace; and if every claim of the pool
    verified before, every one verifies afterwards. *)
Theorem captured_evidence_is_provable config config' bs bl b bonds errors k pool :
  checking config → collision_free bs → admitted config bs bl →
  (N.of_nat (S (size (Blocklace.blocks bl))) <= u64_max)%N →
  (∀ c, stored bl c → signed_block c) → above bl b → signed_block b →
  Validation.validate_block b bl bonds config' = Validation.Invalid errors →
  Validation.Equivocation k ∈ errors → provable bl pool →
  let pool' := (EvidencePool.record_rejected_equivocation b errors bl pool).2 in
  (∀ v claim, claim ∈ EvidencePool.evidence_for pool' v →
     ∃ proof, verify_equivocation_evidence claim bl = Ok proof) ∧
  ∃ claim, claim ∈ EvidencePool.evidence_for pool' (creator (identity b)) ∧
    map identity (evidence_blocks claim) ≡ₚ [identity b; k].
Proof.
  intros Hcfg Hcf Hadm Hsize Hsigned Ha Hb Hv Hk Hp.
  destruct (admission_invariant config bs bl Hcfg Hcf Hadm) as [Hwf Hcp _ Hh _].
  assert (∀ e, e ∈ errors → faulty b bl bonds e) as Hf.
  { intros e He. apply (errors_faulty b bl bonds config').
    unfold Validation.validate_block in Hv. case_decide; [done|]. by injection Hv as <-. }
  destruct (capture_errors bl b Hwf Hcp Hh Hsize Hsigned Ha Hb bonds errors (false, pool) Hf Hp)
    as (Hp' & _ & Hholds).
  split.
  - intros v claim (r & key & Hc)%elem_of_evidence_for. eexists. apply verify_genuine.
    split; [by eapply Hp'|done].
  - destruct (Hholds k Hk) as (r & held & e & He & Hids). exists e. split.
    + apply elem_of_evidence_for. eauto.
    + by destruct (Hp' _ _ _ _ He) as [-> _].
Qed.

End theorems.

(** ** Instances *)

#[local] Existing Instance elements_order.
#[local] Existing Instance sample_hash.
#[local] Existing Instance sample_scheme.

(** A second block of [b] above [a0], beside [b1]. *)
Definition fork : Block := Sample.signed Sample.b [x07] [consensus_identity (identity Sample.a0)].
Definition fork_claim : EquivocationEvidence := mkEvidence Sample.b 1 [fork; Sample.b1].
Definition fork_proof : VerifiedEvidence.t :=
  or_default (mk [] 0 []) (verify_equivocation_evidence fork_claim Sample.lace3).
Definition fork_errors : list Validation.InvalidBlock :=
  Validation.errors (Validation.validate_block fork Sample.lace3 Sample.bonds Validation.strict).

Lemma fork_verified : verify_equivocation_evidence fork_claim Sample.lace3 = Ok fork_proof.
Proof. apply or_default_Ok. vm_compute. reflexivity. Qed.

(** The sizes and the references of blocks, as decidable propositions. *)
Definition signature_fits (block : Block) : Prop := fits (signature (identity block)).
Definition variants_differ (block : Block) : Prop :=
  Forall (λ p, Forall (λ q, same_consensus_identity p q → p = q) (elements (predecessors (content block))))
    (elements (predecessors (content block))).
Lemma sizes_fit_sized bs c :
  Sample.sizes_fit bs → c ∈ bs → sized (creator (identity c)) (content c).
Proof.
  unfold Sample.sizes_fit. rewrite Forall_forall. intros Hs Hc.
  destruct (Hs c Hc) as (? & ? & ? & Hr). rewrite Forall_forall in Hr.
  split; [done..|]. intros r ?. by apply Hr, elem_of_elements.
Qed.
Lemma variants_differ_no_variants c : variants_differ c → no_variants (content c).
Proof.
  unfold variants_differ. rewrite Forall_forall. intros Hv p q Hp%elem_of_elements Hq%elem_of_elements.
  by apply (proj1 (Forall_forall _ _) (Hv p Hp)).
Qed.

Lemma fork_sizes : Sample.sizes_fit (verified_blocks fork_proof).
Proof. unfold Sample.sizes_fit, fits. decided. Qed.
Lemma fork_signatures : Forall signature_fits (verified_blocks fork_proof).
Proof. unfold signature_fits, fits. decided. Qed.
Lemma fork_variants : Forall variants_differ (verified_blocks fork_proof).
Proof. unfold variants_differ. decided. Qed.

Lemma proof_bytes_round_trip_witness :
  verify_equivocation_evidence fork_claim Sample.lace3 = Ok fork_proof ∧ sized_proof fork_proof ∧
  ∃ claim v',
    decode_equivocation_evidence (canonical_bytes fork_proof) = Ok claim ∧
    verify_equivocation_evidence claim Sample.lace3 = Ok v'.
Proof.
  assert (sized_proof fork_proof) as Hs.
  { split; [unfold fits; decided..|]. intros c Hc. split; [by eapply sizes_fit_sized, Hc; apply fork_sizes|].
    exact (proj1 (Forall_forall _ _) fork_signatures c Hc). }
  assert (∀ c, c ∈ verified_blocks fork_proof → no_variants (content c)) as Hv.
  { intros c Hc. apply variants_differ_no_variants. exact (proj1 (Forall_forall _ _) fork_variants c Hc). }
  split; [exact fork_verified|]. split; [exact Hs|].
  destruct (proof_bytes_round_trip fork_claim Sample.lace3 fork_proof fork_verified Hs Hv)
    as (claim & v' & Hd & Hok & _).
  exists claim, v'. split; [exact Hd|exact Hok].
Defined.

(** Admission rejects the fork, and names [b1]. *)
Lemma fork_rejected :
  Validation.validate_block fork Sample.lace3 Sample.bonds Validation.strict =
    Validation.Invalid fork_errors.
Proof.
  unfold fork_errors.
  assert (Validation.is_valid (Validation.validate_block fork Sample.lace3 Sample.bonds Validation.strict)
    = false) as E by (vm_compute; reflexivity).
  by destruct (Validation.validate_block fork Sample.lace3 Sample.bonds Validation.strict).
Qed.
Definition names (k : BlockIdentity) (error : Validation.InvalidBlock) : bool :=
  match error with Validation.Equivocation i => bool_decide (i = k) | _ => false end.
Lemma named_equivocation k errors :
  existsb (names k) errors = true → Validation.Equivocation k ∈ errors.
Proof.
  rewrite existsb_exists. intros (e & He & Hk). apply list_elem_of_In in He.
  destruct e; simpl in Hk; try discriminate. by apply bool_decide_eq_true in Hk as ->.
Qed.
Lemma fork_names_b1 : Validation.Equivocation (identity Sample.b1) ∈ fork_errors.
Proof. apply named_equivocation. vm_compute. reflexivity. Qed.
Lemma fork_above : above Sample.lace3 fork.
Proof.
  split.
  - assert (Forall (λ p, is_Some (Blocklace.resolve_identity Sample.lace3 p))
      (elements (predecessors (content fork)))) as Hr by decided.
    intros p Hp%elem_of_elements. exact (proj1 (Forall_forall _ _) Hr p Hp).
  - vm_compute. reflexivity.
  - assert (Forall (λ k, ¬ same_consensus_identity k (identity fork))
      (elements (Blocklace.dom Sample.lace3))) as Hf by decided.
    intros k Hk%elem_of_elements. exact (proj1 (Forall_forall _ _) Hf k Hk).
Qed.
Lemma lace3_signed c : stored Sample.lace3 c → signed_block c.
Proof.
  assert (Forall (λ k, Crypto.verify (content_hash k) (creator k) (signature k) = true)
    (elements (Blocklace.dom Sample.lace3))) as Hk by decided.
  intros Hc. apply (proj1 (Forall_forall _ _) Hk), elem_of_elements, elem_of_lace_dom. by eexists.
Qed.

Lemma captured_evidence_is_provable_witness :
  Validation.Equivocation (identity Sample.b1) ∈ fork_errors ∧
  ∃ claim, claim ∈ EvidencePool.evidence_for
      (EvidencePool.record_rejected_equivocation fork fork_errors Sample.lace3 EvidencePool.new).2
      (creator (identity fork)) ∧
    map identity (evidence_blocks claim) ≡ₚ [identity fork; identity Sample.b1].
Proof.
  split; [exact fork_names_b1|].
  assert (provable Sample.lace3 EvidencePool.new) as Hp.
  { intros v r k e (rounds & bucket & Hv & _). unfold EvidencePool.new in Hv.
    by rewrite lookup_empty in Hv. }
  eapply (captured_evidence_is_provable Validation.strict Validation.strict
    [Sample.a2; Sample.b1; Sample.a0] Sample.lace3 fork Sample.bonds fork_errors);
    [by repeat split|exact Sample.collision_free3|exact Sample.admitted3| |exact lace3_signed|
     exact fork_above|reflexivity|exact fork_rejected|exact fork_names_b1|exact Hp].
  decided.
Defined.

(** ** Two boundary cases *)

(** A block may reference [a0] both with and without its signature: it is
    admitted and its fork is verified, but the decoder takes the second
    reference for a duplicate. *)
Definition double_reference : Block :=
  Sample.signed Sample.b [x08] [identity Sample.a0; consensus_identity (identity Sample.a0)].
Definition double_proof : VerifiedEvidence.t :=
  or_default (mk [] 0 []) (verify_equivocation_evidence
    (mkEvidence Sample.b 1 [double_reference; Sample.b1]) Sample.lace3).
Lemma double_reference_undecodable :
  Validation.is_valid
    (Validation.validate_block double_reference Sample.lace1 Sample.bonds Validation.strict) = true ∧
  verify_equivocation_evidence (mkEvidence Sample.b 1 [double_reference; Sample.b1]) Sample.lace3 =
    Ok double_proof ∧
  decode_equivocation_evidence (canonical_bytes double_proof) = Err MalformedEncoding.
Proof.
  split_and!; [vm_compute; reflexivity| |vm_compute; reflexivity].
  apply or_default_Ok. vm_compute. reflexivity.
Qed.

(** A variant of [b1] without a signature is reported as an equivocation of
    [b1] besides as a collision; the claim that is captured does not verify. *)
Definition variant : Block :=
  mkBlock (consensus_identity (identity Sample.b1)) (content Sample.b1).
Definition variant_errors : list Validation.InvalidBlock :=
  Validation.errors (Validation.validate_block variant Sample.lace3 Sample.bonds Validation.default).
Definition variant_claims : list EquivocationEvidence :=
  EvidencePool.evidence_for
    (EvidencePool.record_rejected_equivocation variant variant_errors Sample.lace3 EvidencePool.new).2
    Sample.b.
Lemma variant_claim_unverifiable :
  Validation.Equivocation (identity Sample.b1) ∈ variant_errors ∧
  length variant_claims = 1 ∧
  Forall (λ claim, is_ok (verify_equivocation_evidence claim Sample.lace3) = false) variant_claims.
Proof.
  split_and!; [apply named_equivocation; vm_compute; reflexivity|vm_compute; reflexivity|decided].
Qed.
