(* ===== verification/Pruning.v ===== *)
(** * Checkpoint pruning

    [consensus/pruning.rs]: the blocks below a final leader are deleted from
    the blocklace, except those that other blocks still reference, and the
    leader becomes the checkpoint with its committed order as prefix. *)

From S2P Require Import Prelude Types Lace Rounds Quorum Cordiality Finality Xsort Ordering.
From stdpp Require Import options.

(** [Option::is_some_and]. *)
Definition is_some_and {A} (f : A → bool) (o : option A) : bool :=
  match o with Some x => f x | None => false end.

Module Pruning.

Record PruneReport := mkReport {
  report_checkpoint : BlockIdentity;
  report_depth : N;
  removed : gset BlockIdentity;
  retained_blocks : nat;
  tau_prefix_len : nat;
  weighted_tau_prefix_len : nat
}.

Inductive PruneError :=
  | UnknownCheckpoint (checkpoint : BlockIdentity)
  | CheckpointRegression (current requested : BlockIdentity)
  | DisconnectedCheckpoint (current requested : BlockIdentity).

Section pruning.
Context `{HO : HashOrder}.
Implicit Types (bl : Blocklace.t) (checkpoint : BlockIdentity) (candidates : gset BlockIdentity).

(** [observe] collects into a [BTreeSet]: the fallback is in key order. *)
Definition checkpoint_order_prefix bl checkpoint : list BlockIdentity :=
  let observed_ids := Blocklace.observe bl checkpoint in
  match Xsort.xsort (Blocklace.get_set bl observed_ids) with
  | Ok order => order
  | Err _ => btree_iter observed_ids
  end.

(** The references of a block that resolve to a candidate for removal. *)
Definition candidate_references bl candidates (c : BlockContent) : list BlockIdentity :=
  filter (.∈ candidates) (omap (Blocklace.resolve_identity bl) (hash_iter (predecessors c))).

Definition protect_from bl checkpoint candidates (acc : gset BlockIdentity * list BlockIdentity)
    (e : BlockIdentity * BlockContent) : gset BlockIdentity * list BlockIdentity :=
  if decide (e.1 ∈ candidates ∨ e.1 = checkpoint) then acc
  else foldl (mark push_stack) acc (candidate_references bl candidates e.2).

Definition protected_successors bl candidates (id : BlockIdentity) : list BlockIdentity :=
  match Blocklace.content bl id with
  | None => []
  | Some c => candidate_references bl candidates c
  end.

Definition protected_candidate_closure bl checkpoint candidates : gset BlockIdentity :=
  let acc := foldl (protect_from bl checkpoint candidates) (∅, []) (map_iter (Blocklace.blocks bl)) in
  default ∅ (worklist (protected_successors bl candidates) push_stack (Blocklace.traversal_fuel bl)
    acc.1 acc.2).

Definition forget_all bl (candidates : gset BlockIdentity) : Blocklace.t :=
  foldl (λ bl id, (Blocklace.forget_block bl id).2) bl (btree_iter candidates).

(** The branch taken when no check on the current checkpoint fails. *)
Definition advance bl checkpoint (checkpoint_depth : N)
    (order_prefix weighted_order_prefix : list BlockIdentity) : PruneReport * Blocklace.t :=
  let candidates := Blocklace.observe bl checkpoint ∖ {[checkpoint]} in
  let protected := protected_candidate_closure bl checkpoint candidates in
  let candidates := candidates ∖ protected in
  let bl := Blocklace.set_checkpoint_state (forget_all bl candidates) checkpoint checkpoint_depth
    order_prefix weighted_order_prefix in
  (mkReport checkpoint checkpoint_depth candidates (size (Blocklace.blocks bl))
     (length (Blocklace.checkpoint_order_prefix bl))
     (length (Blocklace.checkpoint_weighted_order_prefix bl)), bl).

Definition prune_below_checkpoint_with_prefix bl checkpoint
    (order_prefix weighted_order_prefix : list BlockIdentity) :
    result (PruneReport * Blocklace.t) PruneError :=
  bail (UnknownCheckpoint checkpoint) when Blocklace.blocks bl !! checkpoint = None;
  let? checkpoint_depth := ok_or (Round.depth bl checkpoint) (UnknownCheckpoint checkpoint) in
  match Blocklace.checkpoint bl with
  | None => Ok (advance bl checkpoint checkpoint_depth order_prefix weighted_order_prefix)
  | Some current =>
    if decide (current = checkpoint) then
      Ok (mkReport checkpoint checkpoint_depth ∅ (size (Blocklace.blocks bl))
            (length (Blocklace.checkpoint_order_prefix bl))
            (length (Blocklace.checkpoint_weighted_order_prefix bl)), bl)
    else
      bail (CheckpointRegression current checkpoint)
        when is_some_and (λ current_depth, bool_decide (checkpoint_depth < current_depth)%N)
          (Blocklace.checkpoint_depth bl) = true;
      bail (DisconnectedCheckpoint current checkpoint)
        when Blocklace.preceedes_or_equals bl current checkpoint = false;
      Ok (advance bl checkpoint checkpoint_depth order_prefix weighted_order_prefix)
  end.

Definition current_checkpoint bl : option BlockIdentity := Blocklace.checkpoint bl.

Definition prune_below_checkpoint bl checkpoint : result (PruneReport * Blocklace.t) PruneError :=
  prune_below_checkpoint_with_prefix bl checkpoint (checkpoint_order_prefix bl checkpoint) [].

(** What [.map(Some)] and [Ok(None)] leave: the report and the blocklace. *)
Definition advanced bl (r : result (PruneReport * Blocklace.t) PruneError) :
    result (option PruneReport * Blocklace.t) PruneError :=
  let? p := r in Ok (Some p.1, p.2).

(** The outer [None] means that the recursion of the order was cut by its
    fuel. *)
Definition checkpoint_after_finality bl (wavelength : N) (n f : nat)
    (leader_selection : N → option NodeId) :
    option (result (option PruneReport * Blocklace.t) PruneError) :=
  match Finality.latest_final_leader bl wavelength n f leader_selection with
  | None => Some (Ok (None, bl))
  | Some final_leader =>
    if decide (Blocklace.checkpoint bl = Some final_leader) then Some (Ok (None, bl))
    else
      order ← Ordering.tau bl wavelength n f leader_selection;
      let prefix := match order with
        | Ok prefix => prefix
        | Err _ => checkpoint_order_prefix bl final_leader
        end in
      Some (advanced bl (prune_below_checkpoint_with_prefix bl final_leader prefix []))
  end.

Definition checkpoint_after_weighted_finality bl (wavelength : N) (bonds : gmap NodeId N)
    (leader_selection : N → option NodeId) :
    option (result (option PruneReport * Blocklace.t) PruneError) :=
  match Finality.latest_weighted_final_leader bl wavelength bonds leader_selection with
  | None => Some (Ok (None, bl))
  | Some final_leader =>
    if decide (Blocklace.checkpoint bl = Some final_leader) then Some (Ok (None, bl))
    else
      order ← Ordering.weighted_tau bl wavelength bonds leader_selection;
      let prefix := match order with
        | Ok prefix => prefix
        | Err _ => checkpoint_order_prefix bl final_leader
        end in
      Some (advanced bl (prune_below_checkpoint_with_prefix bl final_leader [] prefix))
  end.

End pruning.
End Pruning.
