(* ===== verification/PruningFacts.v ===== *)
(** * Properties of checkpoint pruning

    Which blocks a prune removes, and what is left of the references, the
    depths and the invariants of the blocklace; and why the order survives it. *)

From S2P Require Import Prelude Types Lace LaceFacts AncestorIndex IndexFacts Rounds RoundFacts.
From S2P Require Import Quorum QuorumFacts Cordiality CordialityFacts Finality FinalityFacts.
From S2P Require Import Xsort Ordering OrderingFacts AdmissionFacts Pruning.
From stdpp Require Import options.

(** [a] references [b], whether or not [a] is the checkpoint. *)
Definition refers (bl : Blocklace.t) : relation BlockIdentity := λ a b,
  ∃ c p, Blocklace.blocks bl !! a = Some c ∧ p ∈ predecessors c ∧
    Blocklace.resolve_identity bl p = Some b.

Lemma points_refers bl a b : points bl a b ↔ refers bl a b ∧ Blocklace.checkpoint bl ≠ Some a.
Proof. unfold points, refers. naive_solver. Qed.

(** The blocks strictly below the new checkpoint, and those of them that some
    block outside reaches through them. *)
Definition below (bl : Blocklace.t) (cp : BlockIdentity) (x : BlockIdentity) : Prop :=
  rtc (points bl) cp x ∧ x ≠ cp.
Definition protected (bl : Blocklace.t) (cp x : BlockIdentity) : Prop :=
  ∃ y z, ¬ below bl cp y ∧ y ≠ cp ∧ refers bl y z ∧ below bl cp z ∧
    rtc (λ a b, refers bl a b ∧ below bl cp b) z x.

Section prune.
Context `{HO : HashOrder}.
Implicit Types (bl : Blocklace.t) (cp : BlockIdentity).

Lemma elem_of_below bl cp x :
  cp ∈ Blocklace.dom bl → x ∈ Blocklace.observe bl cp ∖ {[cp]} ↔ below bl cp x.
Proof.
  intros Hcp. rewrite elem_of_difference, elem_of_observe_stored, elem_of_singleton by done. done.
Qed.

Lemma elem_of_references bl X c x :
  x ∈ Pruning.candidate_references bl X c ↔
  x ∈ X ∧ ∃ p, p ∈ predecessors c ∧ Blocklace.resolve_identity bl p = Some x.
Proof.
  unfold Pruning.candidate_references. rewrite list_elem_of_filter, list_elem_of_omap.
  by setoid_rewrite elem_of_hash_iter.
Qed.
Lemma elem_of_successors bl X a x :
  a ∈ Blocklace.dom bl → x ∈ Pruning.protected_successors bl X a ↔ x ∈ X ∧ refers bl a x.
Proof.
  intros [c Ha]%elem_of_lace_dom. unfold Pruning.protected_successors, refers.
  rewrite (content_stored _ _ _ Ha), elem_of_references. naive_solver.
Qed.

Lemma exists_snoc {A} (P : A → Prop) l x :
  (∃ y, y ∈ l ++ [x] ∧ P y) ↔ (∃ y, y ∈ l ∧ P y) ∨ P x.
Proof.
  setoid_rewrite elem_of_app. setoid_rewrite list_elem_of_singleton. split.
  - intros (y & [?| ->] & ?); [left; by exists y|by right].
  - intros [(y & ? & ?)|?]; [exists y; auto|exists x; auto].
Qed.

(** The first loop of the closure: what the blocks outside reference. *)
Lemma protect_from_spec bl cp X (l : list (BlockIdentity * BlockContent)) :
  let acc := foldl (Pruning.protect_from bl cp X) (∅, []) l in
  (∀ x, x ∈ acc.1 ↔ ∃ e, e ∈ l ∧ e.1 ∉ X ∧ e.1 ≠ cp ∧
     x ∈ Pruning.candidate_references bl X e.2) ∧
  (∀ x, x ∈ acc.2 ↔ x ∈ acc.1) ∧ length acc.2 = size acc.1.
Proof.
  induction l as [|e l IH] using rev_ind; cbn zeta.
  { cbn. rewrite size_empty. set_solver. }
  rewrite foldl_app. cbn [foldl]. set (acc := foldl _ (∅, []) l) in *.
  destruct IH as (H1 & H2 & H3). unfold Pruning.protect_from.
  destruct (decide (e.1 ∈ X ∨ e.1 = cp)) as [Hout|Hin].
  - split_and!; [|done..]. intros x. rewrite H1, exists_snoc. tauto.
  - destruct acc as [visited stack]. cbn [fst snd] in *.
    destruct (foldl_mark (λ _, []) push_stack push_stack_perm (Pruning.candidate_references bl X e.2)
      visited stack) as (G1 & G2 & G3).
    split_and!; [| |lia].
    + intros x. rewrite G1, H1, exists_snoc. tauto.
    + intros x. rewrite G1, G2, H2. destruct (decide (x ∈ visited)); tauto.
Qed.

Lemma stored_pair (m : gmap BlockIdentity BlockContent) e :
  e ∈ map_iter m ↔ m !! e.1 = Some e.2.
Proof. destruct e. by rewrite elem_of_map_iter. Qed.

(** The closure is exactly what blocks outside reach through candidates. *)
Lemma elem_of_protected bl cp x :
  cp ∈ Blocklace.dom bl →
  x ∈ Pruning.protected_candidate_closure bl cp (Blocklace.observe bl cp ∖ {[cp]}) ↔
  protected bl cp x.
Proof.
  intros Hcp. pose proof (elem_of_below bl cp) as Hbelow. set (X := _ ∖ _) in *.
  assert (∀ y, y ∈ X ↔ below bl cp y) as HX by (intros y; by apply Hbelow). clear Hbelow.
  assert (∀ y, y ∈ X → y ∈ Blocklace.dom bl) as Hdom
    by (intros y [Hy _]%elem_of_difference; by eapply observe_dom).
  unfold Pruning.protected_candidate_closure. cbn zeta.
  destruct (protect_from_spec bl cp X (map_iter (Blocklace.blocks bl))) as (H1 & H2 & H3).
  set (acc := foldl _ _ _) in *.
  assert (∀ y, y ∈ acc.1 ↔ y ∈ X ∧ ∃ z, ¬ below bl cp z ∧ z ≠ cp ∧ refers bl z y) as Hstart.
  { intros y. rewrite H1. split.
    - intros ([z c] & Hz%stored_pair & Hnz & Hne & [Hy (p & Hp & Hr)]%elem_of_references).
      split; [done|]. exists z. rewrite <-HX. split_and!; [done..|]. by exists c, p.
    - intros [Hy (z & Hnz & Hne & c & p & Hz & Hp & Hr)]. exists (z, c).
      rewrite stored_pair, elem_of_references, HX. split_and!; [done..|]. by exists p. }
  assert (∀ a b, edge (Pruning.protected_successors bl X) a b → b ∈ X) as Hedge.
  { intros a b. unfold edge, Pruning.protected_successors.
    destruct (Blocklace.content bl a); [|by intros ?%elem_of_nil].
    by intros [? _]%elem_of_references. }
  assert (is_Some (worklist (Pruning.protected_successors bl X) push_stack
    (Blocklace.traversal_fuel bl) acc.1 acc.2)) as [Y HY].
  { apply (worklist_terminates _ _ push_stack_perm (Blocklace.dom bl)).
    - intros a b Hab. by apply Hdom, (Hedge a).
    - intros y [Hy _]%Hstart. by apply Hdom.
    - unfold Blocklace.traversal_fuel. rewrite H3, <-size_dom. unfold Blocklace.dom.
      pose proof (subseteq_size acc.1 (dom (Blocklace.blocks bl))
        ltac:(intros y [Hy _]%Hstart; by apply Hdom)). lia. }
  rewrite HY. cbn [default]. unfold id.
  rewrite (worklist_sound _ _ push_stack_perm _ _ _ _ HY) by (intros a b ? _; left; by apply H2).
  assert (∀ a b, a ∈ X → edge (Pruning.protected_successors bl X) a b ↔ refers bl a b ∧ below bl cp b)
    as Hstep.
  { intros a b Ha. unfold edge. rewrite elem_of_successors by (by apply Hdom). rewrite HX. tauto. }
  assert (∀ a b, a ∈ X → rtc (λ a b, refers bl a b ∧ below bl cp b) a b ↔
    a = b ∨ tc (edge (Pruning.protected_successors bl X)) a b) as Hreach.
  { intros a b Ha. split.
    - intros Hr. revert Ha. induction Hr as [a|a z b Haz _ IH]; intros Ha; [by left|right].
      assert (z ∈ X) as Hz by apply HX, Haz. apply Hstep in Haz; [|done].
      destruct (IH Hz) as [->|?]; [by apply tc_once|by eapply tc_l].
    - intros [->|Ht]; [done|]. induction Ht as [a b Hab|a z b Haz _ IH].
      + apply rtc_once. by apply Hstep.
      + apply rtc_l with z; [by apply Hstep|]. apply IH. by apply (Hedge a). }
  unfold protected. split.
  - intros [Hx|(a & Ha & Hax)].
    + apply Hstart in Hx as [Hx (y & Hny & Hne & Hyx)]. exists y, x. rewrite <-(HX x). done.
    + apply H2, Hstart in Ha as [Ha (y & Hny & Hne & Hya)]. exists y, a. rewrite <-(HX a).
      split_and!; [done..|]. apply Hreach; [done|by right].
  - intros (y & z & Hny & Hne & Hyz & Hz & Hzx). apply HX in Hz as HzX.
    assert (z ∈ acc.1) as Hza by (apply Hstart; split; [done|by exists y]).
    apply Hreach in Hzx as [->|Ht]; [by left| |done]. right. exists z. split; [by apply H2|done].
Qed.

(** ** The pruned blocklace *)

Lemma lookup_forget bl j i :
  Blocklace.blocks (Blocklace.forget_block bl j).2 !! i =
  if decide (i = j) then None else Blocklace.blocks bl !! i.
Proof.
  unfold Blocklace.forget_block. destruct (Blocklace.blocks bl !! j) as [c|] eqn:Ej;
    cbn [snd Blocklace.blocks]; case_decide as Hi; subst;
    by rewrite ?lookup_delete_eq, ?lookup_delete_ne.
Qed.
Lemma forget_all_spec bl (X : gset BlockIdentity) :
  let bl' := Pruning.forget_all bl X in
  (∀ i, Blocklace.blocks bl' !! i = if decide (i ∈ X) then None else Blocklace.blocks bl !! i).
Proof.
  cbn zeta. unfold Pruning.forget_all.
  assert (∀ l (i : BlockIdentity),
    Blocklace.blocks (foldl (λ bl id, (Blocklace.forget_block bl id).2) bl l) !! i =
    if decide (i ∈ l) then None else Blocklace.blocks bl !! i) as Hl.
  { intros l i. induction l as [|j l IH] using rev_ind; [done|]. rewrite foldl_app. cbn [foldl].
    rewrite lookup_forget, IH.
    destruct (decide (i = j)), (decide (i ∈ l)), (decide (i ∈ l ++ [j])); try done; set_solver. }
  intros i. rewrite Hl. by destruct (decide (i ∈ btree_iter X)) as [Hi|Hi], (decide (i ∈ X));
    rewrite elem_of_btree_iter in Hi.
Qed.

(** What a prune takes away. *)
Definition pruned_away bl cp (x : BlockIdentity) : Prop := below bl cp x ∧ ¬ protected bl cp x.

(** [bl'] is [bl] pruned at [cp]. *)
Record pruned_at bl cp (depth : N) bl' : Prop := {
  pruned_known : cp ∈ Blocklace.dom bl;
  pruned_removed : ∀ i, pruned_away bl cp i → Blocklace.blocks bl' !! i = None;
  pruned_kept : ∀ i, ¬ pruned_away bl cp i → Blocklace.blocks bl' !! i = Blocklace.blocks bl !! i;
  pruned_checkpoint : Blocklace.checkpoint bl' = Some cp;
  pruned_depth : Blocklace.checkpoint_depth bl' = Some depth
}.

Lemma advance_spec bl cp d order weighted_order :
  cp ∈ Blocklace.dom bl →
  let r := Pruning.advance bl cp d order weighted_order in
  pruned_at bl cp d r.2 ∧ (∀ i, i ∈ Pruning.removed r.1 ↔ pruned_away bl cp i) ∧
  Blocklace.checkpoint_order_prefix r.2 = order ∧
  Blocklace.checkpoint_weighted_order_prefix r.2 = weighted_order.
Proof.
  intros Hcp. cbn zeta. unfold Pruning.advance.
  set (X := Blocklace.observe bl cp ∖ {[cp]} ∖ _).
  assert (∀ i, i ∈ X ↔ pruned_away bl cp i) as HX.
  { intros i. unfold X. rewrite elem_of_difference, elem_of_protected, elem_of_below by done. done. }
  cbn [fst snd Pruning.removed]. split_and!; [|done..].
  split; cbn [Blocklace.set_checkpoint_state Blocklace.blocks Blocklace.checkpoint
    Blocklace.checkpoint_depth]; [done| | |done|done].
  - intros i Hi%HX. rewrite forget_all_spec. by rewrite decide_True.
  - intros i Hi. rewrite <-HX in Hi. rewrite forget_all_spec. by rewrite decide_False.
Qed.

Section pruned.
Variables (bl bl' : Blocklace.t) (cp : BlockIdentity) (cpd : N).
Hypothesis Hp : pruned_at bl cp cpd bl'.
Hypothesis Hu : unique_variants bl.
#[local] Set Default Proof Using "Type* HO Hp Hu".

Lemma pruned_lookup i c :
  Blocklace.blocks bl' !! i = Some c ↔ Blocklace.blocks bl !! i = Some c ∧ ¬ pruned_away bl cp i.
Proof.
  split.
  - intros Hi. assert (¬ pruned_away bl cp i) as Hn.
    { intros Ha. by rewrite (pruned_removed _ _ _ _ Hp i Ha) in Hi. }
    split; [|done]. by rewrite <-(pruned_kept _ _ _ _ Hp i Hn).
  - intros [Hi Hn]. by rewrite (pruned_kept _ _ _ _ Hp i Hn).
Qed.
Lemma pruned_dom i : i ∈ Blocklace.dom bl' ↔ i ∈ Blocklace.dom bl ∧ ¬ pruned_away bl cp i.
Proof.
  rewrite !elem_of_lace_dom. unfold is_Some. setoid_rewrite pruned_lookup. naive_solver.
Qed.
Lemma checkpoint_kept : ¬ pruned_away bl cp cp.
Proof. by intros [[_ ?] _]. Qed.
Lemma checkpoint_stored : cp ∈ Blocklace.dom bl'.
Proof. apply pruned_dom. split; [apply Hp|apply checkpoint_kept]. Qed.

Lemma pruned_resolve_back p r :
  Blocklace.resolve_identity bl' p = Some r → Blocklace.resolve_identity bl p = Some r.
Proof.
  intros (Hr & Hs & Hor)%resolve_Some. apply pruned_dom in Hr as [Hr _].
  destruct Hor as [->|Hsig]; [by apply resolve_stored|].
  apply resolve_in_unsigned; [|done|by apply elem_of_lace_dom|done].
  intros a b Ha Hb. apply Hu; by apply elem_of_lace_dom.
Qed.
Lemma pruned_unique : unique_variants bl'.
Proof. intros a b [Ha _]%pruned_dom [Hb _]%pruned_dom. by apply Hu. Qed.
Lemma pruned_resolve p r :
  Blocklace.resolve_identity bl p = Some r → ¬ pruned_away bl cp r →
  Blocklace.resolve_identity bl' p = Some r.
Proof.
  intros (Hr & Hs & Hor)%resolve_Some Hn.
  assert (r ∈ Blocklace.dom bl') as Hr' by by apply pruned_dom.
  destruct Hor as [->|Hsig]; [by apply resolve_stored|].
  apply resolve_in_unsigned; [|done|by apply elem_of_lace_dom|done].
  intros a b Ha Hb. apply pruned_unique; by apply elem_of_lace_dom.
Qed.

Lemma below_dec x : below bl cp x ∨ ¬ below bl cp x.
Proof.
  pose proof (pruned_known _ _ _ _ Hp) as Hk. rewrite <-(elem_of_below bl cp x Hk).
  destruct (decide (x ∈ Blocklace.observe bl cp ∖ {[cp]})); auto.
Qed.

(** No kept block but the checkpoint loses a reference. *)
Lemma kept_reference a b :
  a ≠ cp → ¬ pruned_away bl cp a → refers bl a b → ¬ pruned_away bl cp b.
Proof.
  intros Hne Ha Hab [Hb Hnp]. apply Hnp.
  destruct (below_dec a) as [Hba|Hna]; [|by exists a, b].
  destruct (decide (a ∈ Pruning.protected_candidate_closure bl cp (Blocklace.observe bl cp ∖ {[cp]})))
    as [Hpa|Hpa]; rewrite elem_of_protected in Hpa by apply Hp; [|by destruct Ha].
  destruct Hpa as (y & z & Hy & Hyne & Hyz & Hz & Hza). exists y, z. split_and!; [done..|].
  eapply rtc_r; [done|]. done.
Qed.

Lemma pruned_refers a b :
  refers bl' a b ↔ refers bl a b ∧ ¬ pruned_away bl cp a ∧ ¬ pruned_away bl cp b.
Proof.
  unfold refers. setoid_rewrite pruned_lookup. split.
  - intros (c & p & [Ha Hn] & Hpin & Hr). split_and!; [|done|].
    + exists c, p. split_and!; [done..|]. by apply pruned_resolve_back.
    + apply resolve_Some in Hr as [Hr _]. by apply pruned_dom in Hr as [_ ?].
  - intros ((c & p & Ha & Hpin & Hr) & Hna & Hnb). exists c, p. split_and!; [done..|].
    by apply pruned_resolve.
Qed.
Lemma pruned_points a b :
  points bl' a b ↔ refers bl a b ∧ ¬ pruned_away bl cp a ∧ a ≠ cp.
Proof.
  rewrite points_refers, pruned_refers, (pruned_checkpoint _ _ _ _ Hp). split.
  - intros ((? & ? & ?) & Hne). split_and!; [done..|congruence].
  - intros (Hr & Ha & Hne). split; [|congruence]. split_and!; [done..|]. by eapply kept_reference.
Qed.

(** The invariant survives, when no former checkpoint is kept as an ordinary
    block. *)
Lemma pruned_well_formed :
  well_formed bl →
  (∀ o, Blocklace.checkpoint bl = Some o → o ∈ Blocklace.dom bl' → o = cp) → well_formed bl'.
Proof.
  intros [Hcl _ Hac] Hold. split; [|apply pruned_unique|].
  - intros a c p [Ha Hn]%pruned_lookup Hne Hpin. rewrite (pruned_checkpoint _ _ _ _ Hp) in Hne.
    assert (Blocklace.checkpoint bl ≠ Some a) as Hoa.
    { intros Ho. apply Hne. f_equal. symmetry. apply (Hold a Ho), pruned_dom.
      split; [apply elem_of_lace_dom; by eexists|done]. }
    destruct (Hcl a c p Ha Hoa Hpin) as [r Hr]. exists r. apply pruned_resolve; [done|].
    apply (kept_reference a); [congruence|done|]. by exists c, p.
  - intros a Ht. apply (Hac a). revert Ht. apply (tc_congruence id). intros x y Hxy.
    pose proof Hxy as [Hx _]%points_dom. apply pruned_points in Hxy as (Hxy & _ & Hne).
    apply points_refers. split; [done|]. intros Ho. by apply Hne, Hold.
Qed.

(** ** Depths

    The first prune of a blocklace: the depth of every kept block is what it
    was, and the blocks that go are less deep than the checkpoint. *)

Section first.
Hypothesis Hwf : well_formed bl.
Hypothesis Hno : Blocklace.checkpoint bl = None.
Hypothesis Hsize : (N.of_nat (size (Blocklace.blocks bl)) <= u64_max)%N.
Hypothesis Hcpd : is_depth bl cp cpd.
#[local] Set Default Proof Using "Type* HO Hp Hu Hwf Hno Hsize Hcpd".

Lemma refers_points a b : refers bl a b ↔ points bl a b.
Proof. rewrite points_refers, Hno. naive_solver. Qed.

Lemma first_well_formed : well_formed bl'.
Proof. apply pruned_well_formed; [done|]. intros o Ho. congruence. Qed.

Lemma first_points a b :
  points bl' a b ↔ points bl a b ∧ ¬ pruned_away bl cp a ∧ a ≠ cp.
Proof. by rewrite pruned_points, refers_points. Qed.

Lemma depth_decreases a b da db :
  points bl a b → is_depth bl a da → is_depth bl b db → (db < da)%N.
Proof.
  intros Hab Ha Hb. pose proof (wf_acyclic _ Hwf) as Hac.
  destruct (is_depth_longest bl b db) as [(j & Hj & _) _]; [done..|].
  destruct (is_depth_longest bl a da) as [_ Hm]; [done..|].
  assert (S (N.to_nat db) ≤ N.to_nat da); [|lia]. apply (Hm _ j). by econstructor.
Qed.
Lemma depth_decreases_tc a b da db :
  tc (points bl) a b → is_depth bl a da → is_depth bl b db → (db < da)%N.
Proof.
  intros Ht. revert da. induction Ht as [a b Hab|a m b Ham _ IH]; intros da Ha Hb.
  - by apply (depth_decreases a b).
  - destruct (depth_exists bl m) as [dm Hm]; [apply Hwf..|by apply points_dom in Ham as [_ ?]|].
    pose proof (depth_decreases a m da dm Ham Ha Hm). specialize (IH dm Hm Hb). lia.
Qed.
Lemma below_depth x d : below bl cp x → is_depth bl x d → (d < cpd)%N.
Proof.
  intros [Hr Hne] Hd. apply rtc_tc in Hr as [->|Ht]; [done|]. by apply (depth_decreases_tc cp x).
Qed.

Lemma pruned_is_depth i d : ¬ pruned_away bl cp i → is_depth bl i d → is_depth bl' i d.
Proof.
  destruct (decide (i = cp)) as [->|Hne].
  { intros _ Hd. rewrite (is_depth_det bl cp d cpd) by done.
    pose proof (depth_at_checkpoint bl' cp (pruned_checkpoint _ _ _ _ Hp) checkpoint_stored) as Hc.
    by rewrite (pruned_depth _ _ _ _ Hp) in Hc. }
  intros Hi Hd. revert Hne Hi.
  induction Hd as [id Hcp|id c Hcp Hb He|id c t f m Hcp Hb Hne0 Ht Hf IH Hle Hex]; intros Hne Hi.
  - congruence.
  - apply (depth_initial _ _ c); [|by apply pruned_lookup|done].
    rewrite (pruned_checkpoint _ _ _ _ Hp). congruence.
  - apply (depth_above _ _ c t f); [|by apply pruned_lookup|done| | |done|done].
    + rewrite (pruned_checkpoint _ _ _ _ Hp). congruence.
    + intros p Hpin. apply pruned_resolve; [by apply Ht|]. apply (kept_reference id); [done..|].
      exists c, p. auto.
    + intros p Hpin. assert (¬ pruned_away bl cp (t p)) as Htp.
      { apply (kept_reference id); [done..|]. exists c, p. auto. }
      destruct (decide (t p = cp)) as [E|Hnp]; [|by apply IH].
      rewrite E in *. rewrite (is_depth_det bl cp (f p) cpd); [|by rewrite <-E; apply Hf|done].
      pose proof (depth_at_checkpoint bl' cp (pruned_checkpoint _ _ _ _ Hp) checkpoint_stored) as Hc.
      by rewrite (pruned_depth _ _ _ _ Hp) in Hc.
Qed.
Lemma is_depth_pruned i d : is_depth bl' i d ↔ is_depth bl i d ∧ ¬ pruned_away bl cp i.
Proof.
  split; [|by intros [? ?]; apply pruned_is_depth]. intros Hd.
  pose proof (is_depth_dom _ _ _ Hd) as [Hi Hn]%pruned_dom. split; [|done].
  destruct (depth_exists bl i) as [d' Hd']; [apply Hwf..|done|].
  rewrite (is_depth_det bl' i d d'); [done..|]. by apply pruned_is_depth.
Qed.

(** At and above the depth of the checkpoint nothing is removed. *)
Lemma deep_kept i d : is_depth bl i d → (cpd <= d)%N → ¬ pruned_away bl cp i.
Proof. intros Hd Hle [Hb _]. pose proof (below_depth i d Hb Hd). lia. Qed.

End first.

End pruned.

End prune.

(** ** Finality after a prune

    When nobody equivocates, neither before nor after the prune, the pruned
    blocklace decides finality from the checkpoint on as before. *)

Lemma filter_ext_in {A} (P Q : A → Prop) `{∀ x, Decision (P x), ∀ x, Decision (Q x)} (l : list A) :
  (∀ x, x ∈ l → P x ↔ Q x) → filter P l = filter Q l.
Proof.
  induction l as [|x l IH]; intros Hl; [done|]. rewrite !filter_cons, IH by (intros; apply Hl; by right).
  specialize (Hl x ltac:(by left)). by destruct (decide (P x)), (decide (Q x)); tauto.
Qed.

Section order.
Context `{HO : HashOrder}.
Variables (bl bl' : Blocklace.t) (cp : BlockIdentity) (cpd : N).
Hypothesis Hp : pruned_at bl cp cpd bl'.
Hypothesis Hwf : well_formed bl.
Hypothesis Hno : Blocklace.checkpoint bl = None.
Hypothesis Hsize : (N.of_nat (size (Blocklace.blocks bl)) <= u64_max)%N.
Hypothesis Hcpd : is_depth bl cp cpd.
Hypothesis Hchain : chained bl.
Hypothesis Hchain' : chained bl'.
#[local] Set Default Proof Using "Type* HO Hp Hwf Hno Hsize Hcpd Hchain Hchain'".

Let Hu : unique_variants bl := wf_unique _ Hwf.
Let Hac : acyclic bl := wf_acyclic _ Hwf.
Let Hwf' : well_formed bl' := first_well_formed bl bl' cp cpd Hp Hu Hwf Hno Hsize Hcpd.
Let Hac' : acyclic bl' := wf_acyclic _ Hwf'.

Lemma above_kept i : ¬ below bl cp i → ¬ pruned_away bl cp i.
Proof. unfold pruned_away. tauto. Qed.
Lemma kept_dom i : ¬ below bl cp i → i ∈ Blocklace.dom bl' ↔ i ∈ Blocklace.dom bl.
Proof. intros Hi%above_kept. rewrite (pruned_dom bl bl' cp cpd) by done. tauto. Qed.
Lemma kept_lookup i c :
  ¬ below bl cp i → Blocklace.blocks bl' !! i = Some c ↔ Blocklace.blocks bl !! i = Some c.
Proof. intros Hi%above_kept. rewrite (pruned_lookup bl bl' cp cpd) by done. tauto. Qed.
Lemma kept_points a b :
  points bl' a b ↔ points bl a b ∧ ¬ pruned_away bl cp a ∧ a ≠ cp.
Proof. by apply (first_points bl bl' cp cpd). Qed.
Lemma kept_depth i d : ¬ below bl cp i → is_depth bl' i d ↔ is_depth bl i d.
Proof. intros Hi%above_kept. rewrite (is_depth_pruned bl bl' cp cpd) by done. tauto. Qed.

(** ** Observation between kept blocks *)

Lemma above_below a b : rtc (points bl) a b → below bl cp a → below bl cp b.
Proof.
  intros Hab [Ha Hne]. split; [by trans a|]. intros ->.
  apply rtc_tc in Ha as [->|Ha]; [done|]. apply (Hac cp). by eapply tc_rtc_r.
Qed.
Lemma kept_rtc a b :
  ¬ below bl cp b → rtc (points bl') a b ↔ rtc (points bl) a b.
Proof.
  intros Hb. split; [apply rtc_subrel; by intros x y [? _]%kept_points|].
  induction 1 as [a|a m b Ham Hmb IH]; [done|].
  apply rtc_l with m; [|by apply IH]. apply kept_points. split_and!; [done| |].
  - apply above_kept. intros Ha. apply Hb, (above_below a); [|done]. by eapply rtc_l.
  - intros ->. apply Hb. apply (above_below m); [done|]. split; [by apply rtc_once|].
    intros ->. apply (Hac cp). by apply tc_once.
Qed.

Lemma no_rivals (l : Blocklace.t) a b :
  chained l → a ∈ Blocklace.dom l → b ∈ Blocklace.dom l → ¬ rival l a b.
Proof.
  intros Hch Ha Hb (Hcr & Hne & Hab & Hba).
  destruct (Hch a b Ha Hb Hcr Hne) as [Ht|Ht]; [apply Hab|apply Hba]; by apply tc_rtc.
Qed.
Lemma approved_chained (l : Blocklace.t) a t :
  chained l → a ∈ Blocklace.dom l → t ∈ Blocklace.dom l → approved l a t ↔ rtc (points l) a t.
Proof.
  intros Hch Ha Ht. unfold approved. split; [tauto|]. intros Hat. split; [done|].
  intros r Hr. apply no_rivals; [done..|]. by apply (rtc_points_dom l a).
Qed.
Lemma approved_kept a t :
  ¬ below bl cp a → ¬ below bl cp t → a ∈ Blocklace.dom bl → t ∈ Blocklace.dom bl →
  approved bl' a t ↔ approved bl a t.
Proof.
  intros Hna Hnt Ha Ht. rewrite !approved_chained by (done || by apply kept_dom). by apply kept_rtc.
Qed.

(** ** Ratification *)

Lemma get_kept i : ¬ below bl cp i → i ∈ Blocklace.dom bl → Blocklace.get bl' i = Blocklace.get bl i.
Proof.
  intros Hi [c Hc]%elem_of_lace_dom. rewrite (get_stored _ _ _ Hc).
  by apply kept_lookup in Hc as ->%get_stored.
Qed.

Lemma support_kept r t weights :
  ¬ below bl cp r → ¬ below bl cp t → r ∈ Blocklace.dom bl → t ∈ Blocklace.dom bl →
  approving_support bl' (observed_blocks bl' r) t weights =
  approving_support bl (observed_blocks bl r) t weights.
Proof.
  intros Hnr Hnt Hr Ht. pose proof (proj2 (kept_dom r Hnr) Hr) as Hr'.
  pose proof (proj2 (kept_dom t Hnt) Ht) as Ht'.
  apply set_eq. intros p. rewrite !elem_of_approving_support. apply and_iff_compat_l.
  setoid_rewrite lookup_observed_blocks.
  setoid_rewrite elem_of_observe_stored; [|done..].
  assert (∀ i, rtc (points bl) i t → ¬ below bl cp i) as Habove.
  { intros i Hit Hb. by apply Hnt, (above_below i). }
  split.
  - intros (i & c & [Hri Hi] & Hcr & Ha). apply stored_dom in Hi as Hid.
    apply approves_stored in Ha; [|done..]. assert (¬ below bl cp i) as Hni.
    { apply Habove. apply kept_rtc; [done|]. apply Ha. }
    apply kept_rtc in Hri; [|done]. apply kept_lookup in Hi; [|done].
    apply stored_dom in Hi as Hid0. apply approved_kept in Ha; [|done..].
    exists i, c. split_and!; [done..|]. by apply approves_stored.
  - intros (i & c & [Hri Hi] & Hcr & Ha). apply stored_dom in Hi as Hid.
    apply approves_stored in Ha; [|done..]. assert (¬ below bl cp i) as Hni by apply Habove, Ha.
    exists i, c. rewrite kept_rtc, kept_lookup by done. split_and!; [done..|].
    apply kept_dom in Hid; [|done]. apply approves_stored; [done..|].
    apply approved_kept; try done. by eapply stored_dom.
Qed.

Lemma ratification_kept (r t : Block) weights :
  ¬ below bl cp (identity r) → ¬ below bl cp (identity t) →
  identity r ∈ Blocklace.dom bl → identity t ∈ Blocklace.dom bl →
  is_Some (ratification bl' r t weights) ↔ is_Some (ratification bl r t weights).
Proof.
  intros Hnr Hnt Hr Ht. unfold ratification. rewrite !get_kept, support_kept by done.
  case_decide; [done|]. cbn zeta. by destruct (Quorum.is_weighted_supermajority_snapshot _ _).
Qed.

Lemma super_ratification_kept blocks (t : Block) weights :
  ¬ below bl cp (identity t) → identity t ∈ Blocklace.dom bl →
  (∀ b, b ∈ iter_blocks blocks → ¬ below bl cp (identity b) ∧ identity b ∈ Blocklace.dom bl) →
  super_ratification bl' blocks t weights = super_ratification bl blocks t weights.
Proof.
  intros Hnt Ht Hb. unfold super_ratification.
  assert (ratifying_blocks bl' blocks t weights = ratifying_blocks bl blocks t weights) as ->; [|done].
  unfold ratifying_blocks. f_equal. apply filter_ext_in. intros b Hin.
  rewrite sort_by_key_perm in Hin. apply Hb in Hin as [? ?].
  rewrite !bool_decide_eq_true. by apply ratification_kept.
Qed.

(** ** Waves from the checkpoint on *)

(** At depths not below the checkpoint the two blocklaces have the same
    blocks. *)
Lemma deep_above i d : (cpd <= d)%N → is_depth bl i d → ¬ below bl cp i.
Proof.
  intros Hle Hd Hb. pose proof (below_depth bl bl' cp cpd Hp Hu Hwf Hno Hsize Hcpd i d Hb Hd). lia.
Qed.
Lemma deep_same i d : (cpd <= d)%N → is_depth bl' i d ↔ is_depth bl i d.
Proof.
  intros Hle. rewrite (is_depth_pruned bl bl' cp cpd) by done. split; [tauto|]. intros Hd.
  split; [done|]. by eapply above_kept, deep_above.
Qed.
Lemma deep_lookup i c d :
  (cpd <= d)%N → is_depth bl i d →
  Blocklace.blocks bl' !! i = Some c ↔ Blocklace.blocks bl !! i = Some c.
Proof. intros Hle Hd. by eapply kept_lookup, deep_above. Qed.

Lemma leader_blocks_kept wave wl ls r :
  Wave.leader_round_of_wave wave wl = Some r → (cpd <= r)%N →
  Wave.leader_blocks_of_wave bl' wave wl ls = Wave.leader_blocks_of_wave bl wave wl ls.
Proof.
  intros Hr Hle. apply map_eq. intros i. apply option_eq. intros c.
  rewrite !lookup_leader_blocks by done. split; intros (p & r' & Hls & Hr' & Hcr & Hi & Hd);
    (replace r' with r in * by congruence); exists p, r; split_and!; try done.
  - by apply deep_same in Hd; [eapply deep_lookup in Hi|].
  - by apply deep_same.
  - by eapply deep_lookup.
  - by apply deep_same.
Qed.
Lemma leader_block_kept wave wl ls r :
  Wave.leader_round_of_wave wave wl = Some r → (cpd <= r)%N →
  Finality.leader_block_for_wave bl' wave wl ls = Finality.leader_block_for_wave bl wave wl ls.
Proof. intros Hr Hle. unfold Finality.leader_block_for_wave. by rewrite (leader_blocks_kept _ _ _ r). Qed.

Lemma witness_kept a z :
  (cpd <= a)%N → Finality.witness_blocks bl' a z = Finality.witness_blocks bl a z.
Proof.
  intros Hle. apply map_eq. intros i. apply option_eq. intros c.
  change (Finality.witness_blocks bl' a z !! identity (mkBlock i c) = Some (content (mkBlock i c)) ↔
    Finality.witness_blocks bl a z !! identity (mkBlock i c) = Some (content (mkBlock i c))).
  rewrite <-!elem_of_iter_blocks, !elem_of_witness by done. cbn [identity content]. split.
  - intros (Hi & d & Hd & Hr). apply deep_same in Hd; [|lia].
    eapply deep_lookup in Hi; [|apply (N.le_trans _ a); [done|apply Hr]|done]. eauto.
  - intros (Hi & d & Hd & Hr). split; [eapply deep_lookup; [|done..]; lia|].
    exists d. split; [|done]. apply deep_same; [lia|done].
Qed.

(** A leader of a later wave is final as before. *)
Lemma final_kept wave wl bonds ls l r :
  Wave.leader_round_of_wave wave wl = Some r → (cpd <= r)%N →
  Finality.leader_block_for_wave bl wave wl ls = Some l →
  Finality.is_weighted_final_leader bl' l wl bonds ls = Finality.is_weighted_final_leader bl l wl bonds ls.
Proof.
  intros Hr Hle Hl. assert (wl ≠ 0%N) as Hwl.
  { intros ->. unfold Wave.leader_round_of_wave, Wave.first_round_of_wave in Hr. by rewrite decide_True in Hr. }
  pose proof (leader_blocks_kept wave wl ls r Hr Hle) as Hsame.
  rewrite leader_block_singleton in Hl.
  destruct (iter_blocks (Wave.leader_blocks_of_wave bl wave wl ls)) as [|b [|]] eqn:Eb; try done.
  injection Hl as <-.
  assert (b ∈ iter_blocks (Wave.leader_blocks_of_wave bl wave wl ls)) as Hb by (rewrite Eb; by left).
  assert (b ∈ iter_blocks (Wave.leader_blocks_of_wave bl' wave wl ls)) as Hb' by by rewrite Hsame.
  destruct (leader_candidate_of_wave bl wave wl ls b Hac Hwl Hb) as (d & Hd & Hc).
  destruct (leader_candidate_of_wave bl' wave wl ls b Hac' Hwl Hb') as (d' & Hd' & Hc').
  apply compute_all_depths_spec in Hd, Hd'; [|done..].
  pose proof Hb as (p & r' & _ & Hr' & _ & _ & Hdr)%elem_of_iter_blocks%lookup_leader_blocks; [|done].
  replace r' with r in * by congruence.
  assert (d = r) as -> by by eapply is_depth_det.
  apply (is_depth_pruned bl bl' cp cpd) in Hd' as [Hd' _]; [|done..].
  assert (d' = r) as -> by by eapply is_depth_det.
  unfold Finality.is_weighted_final_leader, Finality.weighted_final_leader_certificate.
  rewrite Hc, Hc'. destruct (Wave.last_round_of_wave wave wl) as [z|]; [|done].
  cbn [mbind option_bind]. rewrite !weighted_certificate_spec, witness_kept by done.
  rewrite super_ratification_kept; [done|by eapply deep_above|by eapply is_depth_dom|].
  intros x (Hx & dx & Hdx & Hrx)%elem_of_witness; [|done].
  split; [eapply deep_above, Hdx; lia|by eapply stored_dom].
Qed.

Lemma max_depth_kept : Round.max_depth bl' = Round.max_depth bl.
Proof.
  apply option_eq. intros m. rewrite !max_depth_spec by done. split.
  - intros [[i Hi] Hmax]. assert (cpd <= m)%N as Hle.
    { apply (Hmax cp). apply deep_same; [lia|done]. }
    split; [exists i; by apply deep_same in Hi|]. intros j d Hd.
    destruct (N.le_gt_cases cpd d) as [?|?]; [|lia]. apply (Hmax j). by apply deep_same.
  - intros [[i Hi] Hmax]. pose proof (Hmax cp cpd Hcpd) as Hle.
    split; [exists i; by apply deep_same|]. intros j d [Hd _]%(is_depth_pruned bl bl' cp cpd); [|done..]. by apply (Hmax j).
Qed.

(** The checkpoint is the newest weighted-final leader of the pruned
    blocklace when it was that of the original. *)
Lemma latest_weighted_kept wl bonds ls :
  Finality.latest_weighted_final_leader bl wl bonds ls = Some cp →
  Finality.latest_weighted_final_leader bl' wl bonds ls = Some cp.
Proof.
  rewrite !latest_weighted_final_leader_scan, !newest_wave by done.
  intros (last & w & Hlast & Hw & (Hl & _) & Hnew). exists last, w.
  destruct (leader_block_depth bl w wl ls cp Hac Hl) as (_ & r & Hr & Hd).
  assert (r = cpd) as -> by by eapply is_depth_det.
  split_and!; [by unfold latest_wave; rewrite max_depth_kept|done| | |].
  - by rewrite (leader_block_kept w wl ls cpd).
  - left. apply Hp.
  - intros w' l Hw' Hl'.
    destruct (leader_block_depth bl' w' wl ls l Hac' Hl') as (_ & r' & Hr' & Hd').
    assert (cpd < r')%N as Hlt.
    { unfold Wave.leader_round_of_wave, Wave.first_round_of_wave in Hr, Hr'.
      case_decide; [done|]. apply checked_mul_Some in Hr as [-> _], Hr' as [-> _]. nia. }
    rewrite (leader_block_kept w' wl ls r') in Hl' by (done || lia).
    destruct (Hnew w' l Hw' Hl') as [_ Hf]. split.
    + rewrite (pruned_checkpoint _ _ _ _ Hp). intros [= <-].
      apply deep_same in Hd'; [|lia]. pose proof (is_depth_det _ _ _ _ Hd' Hcpd). lia.
    + rewrite (final_kept w' wl bonds ls l r'); [done|done|lia|done].
Qed.

End order.
