(* ===== verification/PruningTheorems.v ===== *)
(** * Theorems: checkpoint pruning

    The properties of [pruning.rs], each with an instance on concrete blocks,
    and two runs in which a lagging block makes a prune change the outcome. *)

From S2P Require Import Prelude Types Lace LaceFacts Samples Bytes Crypto Rounds RoundFacts.
From S2P Require Import Quorum Cordiality CordialityFacts Finality FinalityFacts Xsort Ordering.
From S2P Require Import OrderingFacts Admission AdmissionFacts Dissemination ProtocolSamples.
From S2P Require Import Pruning PruningFacts.
From stdpp Require Import options.

Section pruning.
Context `{HO : HashOrder}.
Implicit Types (bl : Blocklace.t) (cp : BlockIdentity) (bonds : gmap NodeId N).

Lemma checkpoint_has_depth bl cp :
  well_formed bl → cp ∈ Blocklace.dom bl → ∃ d, Round.depth bl cp = Some d ∧ is_depth bl cp d.
Proof.
  intros Hwf Hcp. destruct (depth_exists bl cp) as [d Hd]; [apply Hwf..|done|]. exists d.
  split; [|done]. apply depth_spec; [apply Hwf|]. exists cp. by rewrite resolve_stored.
Qed.
Lemma preceedes_stored bl a b :
  b ∈ Blocklace.dom bl → acyclic bl →
  Blocklace.preceedes_or_equals bl a b = true ↔
  ∃ r, Blocklace.resolve_identity bl a = Some r ∧ rtc (points bl) b r.
Proof.
  intros Hb Hac. unfold Blocklace.preceedes_or_equals. rewrite (resolve_stored bl b) by done.
  destruct (Blocklace.resolve_identity bl a) as [r|] eqn:Er; [|naive_solver].
  assert (r ∈ Blocklace.dom bl) as Hr by by apply resolve_Some in Er as [? _].
  guards. rewrite precedes_stored by done. split.
  - intros Hor. exists r. split; [done|]. apply rtc_tc. naive_solver.
  - intros (? & [= <-] & [->|Ht]%rtc_tc); auto.
Qed.

(** What a successful prune of [bl] at [cp] leaves. *)
Definition pruned_by bl cp (order weighted_order : list BlockIdentity)
    (report : Pruning.PruneReport) bl' : Prop :=
  pruned_at bl cp (Pruning.report_depth report) bl' ∧
  (∀ i, i ∈ Pruning.removed report ↔ pruned_away bl cp i) ∧
  Blocklace.checkpoint_order_prefix bl' = order ∧
  Blocklace.checkpoint_weighted_order_prefix bl' = weighted_order ∧
  Pruning.retained_blocks report = size (Blocklace.blocks bl') ∧
  ((∀ o, Blocklace.checkpoint bl = Some o → o ∈ Blocklace.dom bl' → o = cp) → well_formed bl').

Lemma advance_pruned bl cp d order weighted_order :
  well_formed bl → cp ∈ Blocklace.dom bl →
  let r := Pruning.advance bl cp d order weighted_order in
  pruned_by bl cp order weighted_order r.1 r.2.
Proof.
  intros Hwf Hcp. destruct (advance_spec bl cp d order weighted_order Hcp) as (H1 & H2 & H3 & H4).
  split_and!; [exact H1|exact H2|exact H3|exact H4|done|].
  apply (pruned_well_formed bl _ cp d H1); [apply Hwf|done].
Qed.

(** C28: every outcome of a prune at [cp].  It fails exactly when [cp] is not
    stored, is less deep than the current checkpoint, or does not observe it;
    at the current checkpoint it does nothing; otherwise it removes exactly the
    blocks strictly below [cp] that no block outside reaches through such
    blocks, keeps all others, installs [cp] with the given prefixes, and keeps
    the blocklace well formed unless a former checkpoint stays as an ordinary
    block. *)
Theorem pruning_is_exact bl cp order weighted_order :
  well_formed bl →
  match Pruning.prune_below_checkpoint_with_prefix bl cp order weighted_order with
  | Err (Pruning.UnknownCheckpoint c) => c = cp ∧ cp ∉ Blocklace.dom bl
  | Err (Pruning.CheckpointRegression current c) =>
      c = cp ∧ cp ∈ Blocklace.dom bl ∧ Blocklace.checkpoint bl = Some current ∧ current ≠ cp ∧
      ∃ d d', is_depth bl cp d ∧ Blocklace.checkpoint_depth bl = Some d' ∧ (d < d')%N
  | Err (Pruning.DisconnectedCheckpoint current c) =>
      c = cp ∧ cp ∈ Blocklace.dom bl ∧ Blocklace.checkpoint bl = Some current ∧ current ≠ cp ∧
      ¬ ∃ r, Blocklace.resolve_identity bl current = Some r ∧ rtc (points bl) cp r
  | Ok (report, bl') =>
      Pruning.report_checkpoint report = cp ∧ is_depth bl cp (Pruning.report_depth report) ∧
      (Blocklace.checkpoint bl = Some cp ∧ bl' = bl ∧ Pruning.removed report = ∅ ∨
       Blocklace.checkpoint bl ≠ Some cp ∧ pruned_by bl cp order weighted_order report bl' ∧
       ∀ o, Blocklace.checkpoint bl = Some o →
         ∃ r, Blocklace.resolve_identity bl o = Some r ∧ rtc (points bl) cp r)
  end.
Proof.
  intros Hwf. unfold Pruning.prune_below_checkpoint_with_prefix.
  destruct (decide (cp ∈ Blocklace.dom bl)) as [Hcp|Hcp].
  2:{ rewrite decide_True by (by apply not_elem_of_dom). done. }
  rewrite decide_False by (by apply elem_of_lace_dom in Hcp as [? ->]).
  destruct (checkpoint_has_depth bl cp Hwf Hcp) as (d & -> & Hd). cbn [ok_or result_bind].
  pose proof (advance_pruned bl cp d order weighted_order Hwf Hcp) as Had.
  destruct (Pruning.advance bl cp d order weighted_order) as [report bl'] eqn:Ea.
  injection Ea as Er _. assert (Pruning.report_checkpoint report = cp ∧
    Pruning.report_depth report = d) as [Hrc Hrd] by by rewrite <-Er.
  destruct (Blocklace.checkpoint bl) as [current|] eqn:Ecp.
  2:{ split_and!; [done|by rewrite Hrd|]. right. by split_and!. }
  destruct (decide (current = cp)) as [->|Hne]; [split_and!; [done..|by left]|].
  case_decide as Hreg.
  { unfold is_some_and in Hreg.
    destruct (Blocklace.checkpoint_depth bl) as [d'|]; [|done].
    apply bool_decide_eq_true in Hreg. split_and!; eauto. }
  cbn [result_bind]. case_decide as Hdis.
  { split_and!; try done. intros Hr%preceedes_stored; [congruence|done|apply Hwf]. }
  cbn [result_bind]. apply not_false_iff_true in Hdis.
  split_and!; [done|by rewrite Hrd|]. right. split_and!; [congruence|done|]. intros o [= <-].
  by apply preceedes_stored in Hdis; [|done|apply Hwf].
Qed.

(** A fresh state takes a duplicate-free prefix of named blocks as it is. *)
Lemma emit_prefix_fresh bl prefix leader :
  Blocklace.checkpoint bl = Some leader → prefix ≠ [] → NoDup prefix →
  (∀ x, x ∈ prefix → consensus_identity x = x) →
  ∃ st, Ordering.emit_prefix bl prefix leader Ordering.empty_state = (true, st) ∧
    Ordering.ordered st = prefix.
Proof.
  intros Hcp Hne Hnd Hids. unfold Ordering.emit_prefix. rewrite decide_False by tauto.
  eexists. split; [done|].
  assert (∀ l st, (∀ x, x ∈ l → consensus_identity x = x) →
    foldl (λ st id, Ordering.emit st (consensus_identity id)) st l = foldl Ordering.emit st l)
    as Hmap.
  { induction l as [|x l IH]; intros st Hl; [done|]. cbn [foldl].
    rewrite (Hl x) by (by left). apply IH. intros y ?. apply Hl. by right. }
  rewrite Hmap, emits_fresh; [done|apply empty_state_ok|done| |done]. intros x _. apply not_elem_of_empty.
Qed.

(** A checkpoint that carries a prefix is ordered as the prefix. *)
Lemma weighted_tau_at_checkpoint bl prefix leader wl bonds ls :
  Blocklace.checkpoint bl = Some leader → Blocklace.checkpoint_weighted_order_prefix bl = prefix →
  prefix ≠ [] → NoDup prefix → (∀ x, x ∈ prefix → consensus_identity x = x) →
  Ordering.weighted_tau_at_leader bl leader wl bonds ls = Some (Ok prefix).
Proof.
  intros Hcp Hpre Hne Hnd Hids.
  destruct (emit_prefix_fresh bl prefix leader Hcp Hne Hnd Hids) as (st & E & Ho).
  unfold Ordering.weighted_tau_at_leader, Ordering.weighted_tau_from_leader, Ordering.tau_fuel.
  cbn [Ordering.from_leader]. unfold Ordering.emit_weighted_checkpoint_prefix.
  rewrite Hpre, E. cbn. by rewrite Ho.
Qed.

Lemma self_approved bl a : chained bl → a ∈ Blocklace.dom bl → approved bl a a.
Proof.
  intros Hch Ha. split; [done|]. intros r Hr (Hcr & Hne & H1 & H2).
  assert (r ∈ Blocklace.dom bl) as Hrd by by apply (rtc_points_dom bl a).
  by destruct (Hch r a).
Qed.

(** C29: where nobody equivocates, a weighted checkpoint does not change the
    order.  On a blocklace without equivocators and without a checkpoint,
    [checkpoint_after_weighted_finality] succeeds, keeps every block that is not
    strictly below the latest weighted-final leader, and leaves a well-formed
    blocklace in which the kept blocks have the depths they had.  If the pruned
    blocklace has no equivocators either, which a prune does not guarantee for
    the blocks that are added later (see [pruning_makes_an_equivocator]), it has
    the same latest final leader and the same [weighted_tau]. *)
Theorem pruning_keeps_the_order bl wl bonds ls leader :
  well_formed bl → Blocklace.checkpoint bl = None →
  (N.of_nat (size (Blocklace.blocks bl)) <= u64_max)%N → Blocklace.find_equivacators bl = ∅ →
  Finality.latest_weighted_final_leader bl wl bonds ls = Some leader →
  ∃ report bl',
    Pruning.checkpoint_after_weighted_finality bl wl bonds ls = Some (Ok (Some report, bl')) ∧
    well_formed bl' ∧
    (∀ i, ¬ below bl leader i → Blocklace.blocks bl' !! i = Blocklace.blocks bl !! i) ∧
    (∀ i d, is_depth bl' i d ↔ is_depth bl i d ∧ i ∈ Blocklace.dom bl') ∧
    (Blocklace.find_equivacators bl' = ∅ →
     Finality.latest_weighted_final_leader bl' wl bonds ls = Some leader ∧
     Ordering.weighted_tau bl' wl bonds ls = Ordering.weighted_tau bl wl bonds ls).
Proof.
  intros Hwf Hno Hsize Hch%chained_no_equivocators Hlead.
  assert (leader ∈ Blocklace.dom bl) as Hl by (by eapply latest_weighted_final_leader_stored, Hlead; apply Hwf).
  destruct (from_leader_sound bl (Blocklace.checkpoint_weighted_order_prefix bl)
    (λ leader, Ordering.weighted_previous_final_leader bl leader wl bonds ls) leader)
    as (prefix & Htau & Hnd & _ & Happ & Hnames); [apply Hwf..|done| |done|].
  { intros. eapply weighted_previous_final_leader_points; [apply Hwf|done..]. }
  change (Ordering.weighted_tau_at_leader bl leader wl bonds ls = Some (Ok prefix)) in Htau.
  assert (Ordering.weighted_tau bl wl bonds ls = Some (Ok prefix)) as Ewt
    by (unfold Ordering.weighted_tau; by rewrite Hlead).
  destruct (checkpoint_has_depth bl leader Hwf Hl) as (d & Hd & Hdep).
  pose proof (advance_pruned bl leader d [] prefix Hwf Hl) as (Hp & _ & _ & Hpre & _ & Hwf').
  set (r := Pruning.advance bl leader d [] prefix) in *. exists r.1, r.2.
  change (Pruning.report_depth r.1) with d in Hp.
  split_and!.
  - unfold Pruning.checkpoint_after_weighted_finality. rewrite Hlead, Hno, decide_False, Ewt by done.
    cbn. unfold Pruning.prune_below_checkpoint_with_prefix.
    rewrite decide_False by (by apply elem_of_lace_dom in Hl as [? ->]). by rewrite Hd, Hno.
  - apply Hwf'. intros o Ho. congruence.
  - intros i Hi. apply (pruned_kept _ _ _ _ Hp). unfold pruned_away. tauto.
  - intros i k. rewrite (is_depth_pruned bl r.2 leader d), (pruned_dom bl r.2 leader d) by (done || apply Hwf).
    split; [|tauto]. intros [Hk Hi]. split_and!; [done| |done]. by eapply is_depth_dom.
  - intros Hch'%chained_no_equivocators.
    assert (Finality.latest_weighted_final_leader r.2 wl bonds ls = Some leader) as Hlead'
      by by apply (latest_weighted_kept bl r.2 leader d).
    split; [done|]. rewrite Ewt. unfold Ordering.weighted_tau. rewrite Hlead'.
    apply weighted_tau_at_checkpoint; [apply Hp|done| |done|].
    + intros ->. apply (not_elem_of_nil (consensus_identity leader)). by apply Happ, self_approved.
    + intros x (b & _ & ->)%Hnames. apply consensus_identity_idemp.
Qed.
End pruning.

(** ** Instances *)

#[local] Existing Instance elements_order.
#[local] Existing Instance sample_hash.
#[local] Existing Instance sample_scheme.

(** Runs of validated insertions, the last block first. *)
Definition bonds3 : gmap NodeId N := {[ Sample.a := 10%N; Sample.b := 20%N; [x0c] := 10%N ]}.
Definition insertion (b : Block) (bl : Blocklace.t) : Validation.ValidationResult * Blocklace.t :=
  Validation.validated_insert b bl bonds3 Validation.default.
Fixpoint inserted (bs : list Block) : Blocklace.t :=
  match bs with [] => Sample.empty | b :: bs => (insertion b (inserted bs)).2 end.
Fixpoint all_valid (bs : list Block) : bool :=
  match bs with
  | [] => true
  | b :: bs => all_valid bs && Validation.is_valid (insertion b (inserted bs)).1
  end.

Lemma inserted_admitted bs : all_valid bs = true → admitted Validation.default bs (inserted bs).
Proof.
  induction bs as [|b bs IH]; [intros; apply admitted_new|]. cbn [all_valid].
  intros [Hbs Hb]%andb_true_iff. apply (admitted_insert _ bs (inserted bs) b bonds3); [by apply IH|].
  cbn [inserted]. unfold insertion in *. by destruct (Validation.validated_insert _ _ _ _) as [[|] ?].
Qed.

(** [b3] above [a2] makes [a2] final for most of the stake. *)
Definition names (bs : list Block) : list BlockIdentity :=
  map (λ b, consensus_identity (identity b)) bs.
Definition b3 : Block := Sample.signed Sample.b [x03] (names [Sample.a2]).
Definition run4 : list Block := [b3; Sample.a2; Sample.b1; Sample.a0].
Definition lace4 : Blocklace.t := inserted run4.
Definition stake4 : gmap NodeId N := {[ Sample.a := 5%N; Sample.b := 20%N ]}.
Definition leader_a (wave : N) : option NodeId := Some Sample.a.

Lemma run4_collision_free : collision_free run4.
Proof. apply Sample.collision_free_from; unfold Sample.sizes_fit, Sample.hashes_differ, fits; decided. Qed.
Lemma lace4_admitted : admitted Validation.default run4 lace4.
Proof. apply inserted_admitted. vm_compute. reflexivity. Qed.
Lemma lace4_well_formed : well_formed lace4.
Proof.
  eapply ok_well_formed, admission_invariant; [|apply run4_collision_free|apply lace4_admitted]. done.
Qed.
Lemma lace4_leader :
  Finality.latest_weighted_final_leader lace4 2 stake4 leader_a = Some (identity Sample.a2).
Proof. vm_compute. reflexivity. Qed.

(** Two blocks are pruned, and nobody equivocates after that. *)
Example pruned4_chained :
  match Pruning.checkpoint_after_weighted_finality lace4 2 stake4 leader_a with
  | Some (Ok (_, bl')) => Blocklace.find_equivacators bl' = ∅ ∧ size (Blocklace.blocks bl') = 2
  | _ => False
  end.
Proof. vm_compute. split; reflexivity. Qed.

Lemma pruning_keeps_the_order_witness :
  Finality.latest_weighted_final_leader lace4 2 stake4 leader_a = Some (identity Sample.a2) ∧
  ∃ report bl',
    Pruning.checkpoint_after_weighted_finality lace4 2 stake4 leader_a =
      Some (Ok (Some report, bl')) ∧
    well_formed bl' ∧ size (Blocklace.blocks bl') = 2 ∧
    (∀ i, ¬ below lace4 (identity Sample.a2) i →
      Blocklace.blocks bl' !! i = Blocklace.blocks lace4 !! i) ∧
    Finality.latest_weighted_final_leader bl' 2 stake4 leader_a = Some (identity Sample.a2) ∧
    Ordering.weighted_tau bl' 2 stake4 leader_a = Ordering.weighted_tau lace4 2 stake4 leader_a.
Proof.
  split; [exact lace4_leader|].
  destruct (pruning_keeps_the_order lace4 2 stake4 leader_a (identity Sample.a2) lace4_well_formed)
    as (report & bl' & H1 & H2 & H3 & _ & H5); [vm_compute; reflexivity|decided|decided|exact lace4_leader|].
  exists report, bl'. pose proof pruned4_chained as Hc. rewrite H1 in Hc. destruct Hc as [Hc Hs].
  destruct (H5 Hc) as [H6 H7]. split; [exact H1|]. split; [exact H2|]. split; [exact Hs|].
  split; [exact H3|]. split; [exact H6|exact H7].
Defined.

Lemma pruning_is_exact_witness :
  match Pruning.prune_below_checkpoint_with_prefix lace4 (identity Sample.a2) [] [] with
  | Ok (report, bl') =>
      pruned_by lace4 (identity Sample.a2) [] [] report bl'
  | Err _ => False
  end.
Proof.
  pose proof (pruning_is_exact lace4 (identity Sample.a2) [] [] lace4_well_formed) as H.
  assert (is_ok (Pruning.prune_below_checkpoint_with_prefix lace4 (identity Sample.a2) [] []) = true)
    as Hok by (vm_compute; reflexivity).
  assert (Blocklace.checkpoint lace4 ≠ Some (identity Sample.a2)) as Hcp by decided.
  destruct (Pruning.prune_below_checkpoint_with_prefix lace4 (identity Sample.a2) [] [])
    as [[report bl']|]; [|discriminate Hok].
  destruct H as (_ & _ & [[Hcur _]|(_ & H & _)]); [by destruct Hcp|exact H].
Defined.

(** ** Two runs with a lagging block

    [c1] references [b1] only.  It stays outside the history of [a2], so a
    prune at [a2] keeps [b1], and [b]'s next block, which observes [b1] through
    [a2] alone, no longer does: it is valid before the prune and an
    equivocation after. *)
Definition c1 : Block := Sample.signed [x0c] [x04] (names [Sample.b1]).
Definition run_c : list Block := [c1; Sample.a2; Sample.b1; Sample.a0].
Definition pruned_or_same (bl : Blocklace.t) (cp : Block) : Blocklace.t :=
  match Pruning.prune_below_checkpoint bl (identity cp) with Ok (_, bl) => bl | Err _ => bl end.
Definition verdict (bl : Blocklace.t) (b : Block) : Validation.ValidationResult :=
  Validation.validate_block b bl bonds3 Validation.default.

Lemma pruning_makes_an_equivocator :
  all_valid run_c = true ∧ verdict (inserted run_c) b3 = Validation.Valid ∧
  verdict (pruned_or_same (inserted run_c) Sample.a2) b3 =
    Validation.Invalid [Validation.Equivocation (identity Sample.b1)].
Proof. split_and!; vm_compute; reflexivity. Qed.

(** A prune at [b1], then [c2] and [a3] above [b1], then a prune at [a3]: [c2]
    keeps [b1], whose own references are gone, so the blocklace is no longer
    closed and [c2] loses its depth. *)
Definition a3 : Block := Sample.signed Sample.a [x05] (names [Sample.b1]).
Definition between : Blocklace.t :=
  let bl := pruned_or_same (inserted [Sample.b1; Sample.a0]) Sample.b1 in
  (insertion a3 (insertion c1 bl).2).2.

Lemma second_prune_breaks_closure :
  Blocklace.is_closed between = true ∧ Round.depth between (identity c1) = Some 2%N ∧
  Blocklace.is_closed (pruned_or_same between a3) = false ∧
  Blocklace.blocks (pruned_or_same between a3) !! identity c1 = Some (content c1) ∧
  Round.depth (pruned_or_same between a3) (identity c1) = None.
Proof. split_and!; vm_compute; reflexivity. Qed.
