(* ===== verification/Payload.v ===== *)
(** * Block payloads

    [execution/payload.rs]: the typed payload of a block, its serialization
    with the optional carrier of reputation authorizations, and the names of
    signature algorithms.  The bytes themselves are those of the bincode crate,
    a class parameter. *)

From S2P Require Import Prelude Types Bytes.
From stdpp Require Import options.

(** [bincode::serialize], and [DefaultOptions] with fixed-width integers, a size
    limit and no trailing bytes; the error is the displayed text. *)
Class Bincode (A : Type) := {
  serialize : A → list byte;
  deserialize : N → list byte → result A string
}.
(** What the crate documents: a value is read back from its own bytes, under any
    limit they keep. *)
Class BincodeLaw (A : Type) `{Bincode A} : Prop :=
  deserialize_serialize : ∀ (x : A) limit,
    (N.of_nat (length (serialize x)) <= limit)%N → deserialize limit (serialize x) = Ok x.

(** [slice::strip_prefix] and [slice::starts_with]. *)
Definition strip_prefix (prefix bytes : list byte) : option (list byte) :=
  if decide (take (length prefix) bytes = prefix) then Some (drop (length prefix) bytes) else None.
Definition starts_with (prefix bytes : list byte) : bool :=
  bool_decide (take (length prefix) bytes = prefix).

Lemma strip_prefix_app prefix l : strip_prefix prefix (prefix ++ l) = Some l.
Proof.
  unfold strip_prefix. by rewrite take_app_length, drop_app_length, decide_True.
Qed.
Lemma strip_prefix_Some prefix bytes l : strip_prefix prefix bytes = Some l ↔ bytes = prefix ++ l.
Proof.
  split; [|intros ->; apply strip_prefix_app]. unfold strip_prefix.
  case_decide as Hp; [|done]. intros [= <-]. by rewrite <-(take_drop (length prefix) bytes) at 1; rewrite Hp.
Qed.

(** [str::to_ascii_lowercase]. *)
Definition ascii_lowercase (a : Ascii.ascii) : Ascii.ascii :=
  let n := Ascii.N_of_ascii a in
  if decide (65 <= n <= 90)%N then Ascii.ascii_of_N (n + 32) else a.
Fixpoint to_ascii_lowercase (s : string) : string :=
  match s with
  | EmptyString => EmptyString
  | String a s => String (ascii_lowercase a) (to_ascii_lowercase s)
  end.

Record Bond := mkBond { validator : NodeId; stake : N }.
#[export] Instance Bond_eq_dec : EqDecision Bond.
Proof. solve_decision. Defined.

Record BlockState := mkState {
  pre_state_hash : list byte;
  post_state_hash : list byte;
  bonds : list Bond;
  block_number : N
}.

Record Deploy := mkDeploy {
  term : list byte;
  timestamp : N;
  phlo_price : N;
  phlo_limit : N;
  valid_after_block_number : N;
  shard_id : string;
  expiration_timestamp : option N
}.
#[export] Instance Deploy_eq_dec : EqDecision Deploy.
Proof. solve_decision. Defined.

Module SignatureAlgorithm.
Inductive t := Secp256k1 | Secp256k1Eth | Ed25519 | Other (name : string) | Unspecified.
#[global] Instance t_eq_dec : EqDecision t.
Proof. solve_decision. Defined.

Definition default : t := Unspecified.

Definition from_name (name : string) : t :=
  let lower := to_ascii_lowercase name in
  if decide (lower = "secp256k1"%string) then Secp256k1
  else if decide (lower = "secp256k1-eth"%string ∨ lower = "secp256k1:eth"%string) then Secp256k1Eth
  else if decide (lower = "ed25519"%string) then Ed25519
  else if decide (lower = ""%string) then Unspecified
  else Other name.

Definition as_name (self : t) : string :=
  match self with
  | Secp256k1 => "secp256k1"
  | Secp256k1Eth => "secp256k1:eth"
  | Ed25519 => "ed25519"
  | Other name => name
  | Unspecified => ""
  end.
End SignatureAlgorithm.

Record SignedDeploy := mkSigned {
  deploy : Deploy;
  deployer : list byte;
  signature : list byte;
  signature_algorithm : SignatureAlgorithm.t
}.
#[export] Instance SignedDeploy_eq_dec : EqDecision SignedDeploy.
Proof. solve_decision. Defined.

Record ProcessedDeploy := mkProcessed {
  processed_deploy : SignedDeploy;
  cost : N;
  is_failed : bool
}.

Inductive RejectReason :=
  | InvalidSignature | Expired | Duplicate | InsufficientPhloPrice | NotYetValid.

Record RejectedDeploy := mkRejected {
  rejected_deploy : SignedDeploy;
  reason : RejectReason
}.

Inductive ProcessedSystemDeploy :=
  | Slash (validator : NodeId) (succeeded : bool)
  | CloseBlock (succeeded : bool).

Record PorEquivocationAuthorization := mkAuthorization {
  authorization_shard_id : list byte;
  source_finalized_wave : N;
  authorization_round : N;
  message : list byte
}.
#[export] Instance PorEquivocationAuthorization_eq_dec : EqDecision PorEquivocationAuthorization.
Proof. solve_decision. Defined.

(** The derived order and the sets of authorizations. *)
Definition authorization_tuple (a : PorEquivocationAuthorization) :
    list byte * N * N * list byte :=
  (authorization_shard_id a, source_finalized_wave a, authorization_round a, message a).
Definition authorization_untuple (t : list byte * N * N * list byte) :
    PorEquivocationAuthorization :=
  let '(shard_id, wave, round, message) := t in mkAuthorization shard_id wave round message.
Lemma authorization_tuple_inj : Inj eq eq authorization_tuple.
Proof. intros [] [] E. unfold authorization_tuple in E. cbn in E. by simplify_eq. Qed.
#[export] Instance PorEquivocationAuthorization_ord : Ord PorEquivocationAuthorization :=
  ord_by authorization_tuple authorization_tuple_inj.
#[export] Instance PorEquivocationAuthorization_countable :
  Countable PorEquivocationAuthorization.
Proof. apply (inj_countable' authorization_tuple authorization_untuple). by intros []. Defined.

Module Payload.

Record t := mk {
  por_authorizations : list PorEquivocationAuthorization;
  state : BlockState;
  deploys : list ProcessedDeploy;
  rejected_deploys : list RejectedDeploy;
  system_deploys : list ProcessedSystemDeploy
}.

(** The tuple that stands for a payload without authorizations. *)
Definition legacy : Type :=
  BlockState * list ProcessedDeploy * list RejectedDeploy * list ProcessedSystemDeploy.

Definition PAYLOAD_V2 : list byte := literal "cordial:execution-payload:v2" ++ [x00].
Definition POR_EXTRA_V1 : list byte := literal "cordial:por-authorizations:v1" ++ [x00].

Section payload.
Context `{Bincode t} `{Bincode legacy} `{Bincode (list PorEquivocationAuthorization)}.

Definition to_bytes (self : t) : list byte :=
  if decide (por_authorizations self = []) then
    serialize (state self, deploys self, rejected_deploys self, system_deploys self)
  else PAYLOAD_V2 ++ serialize self.

Definition from_bytes (bytes : list byte) : result t string :=
  let limit := N.of_nat (length bytes) in
  let failed e := ("payload deserialization failed: " +:+ e)%string in
  match strip_prefix PAYLOAD_V2 bytes with
  | Some body => map_err failed (deserialize limit body)
  | None =>
    let? parts := map_err failed (deserialize limit bytes) in
    let '(state, deploys, rejected_deploys, system_deploys) := parts in
    Ok (mk [] state deploys rejected_deploys system_deploys)
  end.

Definition por_authorizations_from_bytes (bytes : list byte) :
    result (list PorEquivocationAuthorization) string :=
  if starts_with PAYLOAD_V2 bytes then
    let? payload := from_bytes bytes in Ok (por_authorizations payload)
  else Ok [].

Definition encode_por_extra (authorizations : list PorEquivocationAuthorization) : list byte :=
  if decide (authorizations = []) then [] else POR_EXTRA_V1 ++ serialize authorizations.

Definition decode_por_extra (bytes : list byte) : result (list PorEquivocationAuthorization) string :=
  match strip_prefix POR_EXTRA_V1 bytes with
  | None => Ok []
  | Some body =>
    map_err (λ e, ("invalid PoR authorization carrier: " +:+ e)%string)
      (deserialize (N.of_nat (length body)) body)
  end.

Definition genesis (bonds : list Bond) : t := mk [] (mkState [] [] bonds 0) [] [] [].

(** [collect] into a map: the last bond of a validator counts. *)
Definition bonds_map (self : t) : gmap NodeId N :=
  foldl (λ m b, <[validator b := stake b]> m) ∅ (bonds (state self)).
End payload.
End Payload.
