(* ===== verification/DeployPool.v ===== *)
(** * The deploy pool

    [execution/deploy_pool.rs]: pending deploys, their selection for a block,
    and the deploys already included in the ancestry. *)

From S2P Require Import Prelude Types Lace Bytes Payload LaceFacts.
From stdpp Require Import options.

Module DeployPool.

Record DeployPoolConfig := mkConfig {
  max_user_deploys_per_block : N;
  deploy_lifespan : N;
  min_phlo_price : N
}.
Definition default_config : DeployPoolConfig := mkConfig 32 50 1.

Inductive PoolError :=
  | Duplicate
  | InsufficientPhloPrice (required actual : N)
  | InvalidSignature.

Record t := mk {
  deploys : gmap (list byte) SignedDeploy;
  config : DeployPoolConfig
}.

Record SelectedDeploys := mkSelected {
  selected : list SignedDeploy;
  cap_hit : bool
}.

Definition new (config : DeployPoolConfig) : t := mk ∅ config.

Definition add (self : t) (deploy : SignedDeploy) : result t PoolError :=
  bail InvalidSignature when signature deploy = [];
  bail (InsufficientPhloPrice (min_phlo_price (config self)) (phlo_price (Payload.deploy deploy)))
    when (phlo_price (Payload.deploy deploy) < min_phlo_price (config self))%N;
  bail Duplicate when is_Some (deploys self !! signature deploy);
  Ok (mk (<[signature deploy := deploy]> (deploys self)) (config self)).

Definition remove (self : t) (signature : list byte) : bool * t :=
  (bool_decide (is_Some (deploys self !! signature)),
   mk (delete signature (deploys self)) (config self)).

Definition len (self : t) : nat := size (deploys self).
Definition is_empty (self : t) : bool := bool_decide (deploys self = ∅).

(** [checked_sub]: nothing expires before [lifespan] blocks. *)
Definition is_block_expired (valid_after current_block_number lifespan : N) : bool :=
  match checked_sub current_block_number lifespan with
  | Some earliest => bool_decide (valid_after <= earliest)%N
  | None => false
  end.

(** [expiration_timestamp.is_none_or(|expiration| current <= expiration)]. *)
Definition in_time (current_time_millis : N) (deploy : Deploy) : bool :=
  match expiration_timestamp deploy with
  | None => true
  | Some expiration => bool_decide (current_time_millis <= expiration)%N
  end.

Definition live (lifespan current_block_number current_time_millis : N) (d : SignedDeploy) : bool :=
  negb (is_block_expired (valid_after_block_number (Payload.deploy d)) current_block_number lifespan)
  && in_time current_time_millis (Payload.deploy d).

Definition selectable (lifespan current_block_number current_time_millis : N)
    (deploys_in_scope : gset (list byte)) (d : SignedDeploy) : bool :=
  bool_decide (valid_after_block_number (Payload.deploy d) <= current_block_number)%N
  && live lifespan current_block_number current_time_millis d
  && bool_decide (signature d ∉ deploys_in_scope).

(** The order of the oldest-plus-newest strategy. *)
Definition by_age (a b : SignedDeploy) : comparison :=
  then_with (cmp (valid_after_block_number (Payload.deploy a)) (valid_after_block_number (Payload.deploy b)))
    (then_with (cmp (timestamp (Payload.deploy a)) (timestamp (Payload.deploy b)))
       (cmp (signature a) (signature b))).

(** [usize] subtraction without overflow checks. *)
Definition wrapping_pred (x : N) : N := if decide (x = 0%N) then u64_max else (x - 1)%N.

Section pool.
Context `{HO : HashOrder}.

(** [HashMap::values]. *)
Definition iter (self : t) : list SignedDeploy := map snd (map_iter (deploys self)).

Definition prune_expired (self : t) (current_block_number current_time_millis : N) :
    list (list byte) * t :=
  let keep (e : list byte * SignedDeploy) :=
    live (deploy_lifespan (config self)) current_block_number current_time_millis e.2 = true in
  (map fst (filter (λ e, ¬ keep e) (map_iter (deploys self))),
   mk (filter keep (deploys self)) (config self)).

Definition select_for_block (self : t) (current_block_number current_time_millis : N)
    (deploys_in_scope : gset (list byte)) : SelectedDeploys :=
  let valid := filter (λ d, selectable (deploy_lifespan (config self)) current_block_number
    current_time_millis deploys_in_scope d = true) (iter self) in
  let cap := max_user_deploys_per_block (config self) in
  if decide (N.of_nat (length valid) <= cap)%N then mkSelected valid false
  else
    let sorted := sort_by by_age valid in
    let newest := option_list (last sorted) in
    mkSelected
      (if decide (cap = 1%N) then newest
       else take (N.to_nat (N.min (wrapping_pred cap) (N.of_nat (length sorted)))) sorted ++ newest)
      true.

(** ** Deploys in scope *)

Section scope.
Context `{Bincode Payload.t} `{Bincode Payload.legacy}.
Implicit Types bl : Blocklace.t.

(** One popped identity: the signatures it adds and the references it pushes.
    A payload that does not decode, or that is too old, stops the walk. *)
Definition scope_of bl (earliest : N) (id : BlockIdentity) :
    list (list byte) * list BlockIdentity :=
  match Blocklace.content bl id with
  | None => ([], [])
  | Some c =>
    match Payload.from_bytes (payload c) with
    | Err _ => ([], [])
    | Ok p =>
      if decide (block_number (Payload.state p) < earliest)%N then ([], [])
      else (map (λ pd, signature (processed_deploy pd)) (Payload.deploys p),
            hash_iter (predecessors c))
    end
  end.

(** [queue] is a stack, its head is the end of the vector. *)
Fixpoint scope_loop bl (earliest : N) (fuel : nat) (visited : gset BlockIdentity)
    (sigs : gset (list byte)) (queue : list BlockIdentity) : option (gset (list byte)) :=
  match queue with
  | [] => Some sigs
  | id :: queue =>
    match fuel with
    | O => None
    | S fuel =>
      if decide (id ∈ visited) then scope_loop bl earliest fuel visited sigs queue
      else
        let visited := {[id]} ∪ visited in
        let found := scope_of bl earliest id in
        scope_loop bl earliest fuel visited (list_to_set found.1 ∪ sigs)
          (reverse (filter (.∉ visited) found.2) ++ queue)
    end
  end.

(** Every identity the walk can meet is pushed at most once per predecessor
    set that lists it. *)
Definition references bl (predecessors : gset BlockIdentity) : gset BlockIdentity :=
  predecessors ∪ ⋃ (map (λ e, Types.predecessors e.2) (map_to_list (Blocklace.blocks bl))).
Definition scope_fuel bl (predecessors : gset BlockIdentity) : nat :=
  size predecessors + size (references bl predecessors) * size (references bl predecessors).

Definition compute_deploys_in_scope bl (predecessors : gset BlockIdentity)
    (current_block_number deploy_lifespan : N) : gset (list byte) :=
  let earliest := (current_block_number - deploy_lifespan)%N in
  default ∅ (scope_loop bl earliest (scope_fuel bl predecessors) ∅ ∅ (reverse (hash_iter predecessors))).
End scope.
End pool.
End DeployPool.

(** ** Properties of the deploy pool

    The keys of the pool, the order of the selection, and the walk that
    collects the deploys in scope. *)

(** Every deploy is stored under its own, non-empty signature, and pays the
    minimum price. *)
Definition keyed (self : DeployPool.t) : Prop :=
  ∀ s d, DeployPool.deploys self !! s = Some d →
    s = signature d ∧ s ≠ [] ∧
    (DeployPool.min_phlo_price (DeployPool.config self) <= phlo_price (deploy d))%N.

(** The mutating calls. *)
Inductive pool_step `{HashOrder} (self : DeployPool.t) : DeployPool.t → Prop :=
  | step_add d self' : DeployPool.add self d = Ok self' → pool_step self self'
  | step_remove s : pool_step self (DeployPool.remove self s).2
  | step_prune n now : pool_step self (DeployPool.prune_expired self n now).2.

(** The age key of the oldest-plus-newest strategy. *)
Definition age (d : SignedDeploy) : N * (N * list byte) :=
  (valid_after_block_number (deploy d), (timestamp (deploy d), signature d)).

Lemma by_age_cmp a b : DeployPool.by_age a b = cmp (age a) (age b).
Proof. done. Qed.
Lemma age_signature a b : age a = age b → signature a = signature b.
Proof. by intros [= _ _ ?]. Qed.

Section pool.
Context `{HO : HashOrder}.
Implicit Types (self : DeployPool.t) (d : SignedDeploy).

Lemma add_Ok self d self' :
  DeployPool.add self d = Ok self' ↔
  signature d ≠ [] ∧ (DeployPool.min_phlo_price (DeployPool.config self) <= phlo_price (deploy d))%N ∧
  DeployPool.deploys self !! signature d = None ∧
  self' = DeployPool.mk (<[signature d := d]> (DeployPool.deploys self)) (DeployPool.config self).
Proof.
  unfold DeployPool.add. rewrite !bail_Ok, <-eq_None_not_Some, N.nlt_ge.
  split; [intros (? & ? & ? & [= <-]); tauto|intros (? & ? & ? & ->); tauto].
Qed.

Lemma step_keyed self self' :
  pool_step self self' → keyed self →
  keyed self' ∧ DeployPool.config self' = DeployPool.config self.
Proof.
  unfold keyed. intros [d self'' (Hs & Hp & Hn & ->)%add_Ok|s|n now] Hk;
    split; try done; intros s' d'; cbn [DeployPool.remove DeployPool.prune_expired
      DeployPool.deploys DeployPool.config snd].
  - rewrite lookup_insert_Some. intros [[<- <-]|[_ ?]]; [done|by apply Hk].
  - rewrite lookup_delete_Some. intros [_ ?]. by apply Hk.
  - rewrite map_lookup_filter_Some. intros [? _]. by apply Hk.
Qed.
Lemma reached_keyed config self :
  rtc pool_step (DeployPool.new config) self → keyed self ∧ DeployPool.config self = config.
Proof.
  assert (keyed (DeployPool.new config) ∧ DeployPool.config (DeployPool.new config) = config) as Hstart.
  { split; [|done]. intros s d. unfold DeployPool.new. cbn. by rewrite lookup_empty. }
  intros Hr. revert Hstart. induction Hr as [|s s' s'' Hs _ IH]; [done|].
  intros [Hk <-]. destruct (step_keyed s s' Hs Hk) as [Hk' Hc]. apply IH. by split.
Qed.

Lemma elem_of_iter self d :
  keyed self → d ∈ DeployPool.iter self ↔ DeployPool.deploys self !! signature d = Some d.
Proof.
  intros Hk. unfold DeployPool.iter. rewrite list_elem_of_fmap. split.
  - intros ([s d'] & -> & Hd%elem_of_map_iter). simpl. by destruct (Hk _ _ Hd) as [<- _].
  - intros Hd. exists (signature d, d). split; [done|]. by apply elem_of_map_iter.
Qed.
Lemma iter_signatures self : keyed self → NoDup (map signature (DeployPool.iter self)).
Proof.
  intros Hk. unfold DeployPool.iter. rewrite map_map.
  assert (map (λ e, signature e.2) (map_iter (DeployPool.deploys self)) =
    map fst (map_iter (DeployPool.deploys self))) as ->.
  { apply map_ext_in. intros [s d] Hd%list_elem_of_In%elem_of_map_iter. by destruct (Hk _ _ Hd) as [-> _]. }
  apply NoDup_map_iter.
Qed.

(** ** The order of the selection *)

Definition age_lt (a b : SignedDeploy) : Prop := ord_lt (age a) (age b).

Lemma sort_age_sorted l :
  NoDup (map signature l) → StronglySorted age_lt (sort_by DeployPool.by_age l).
Proof.
  intros Hnd. assert (NoDup (map signature (sort_by DeployPool.by_age l))) as Hnd' by by rewrite sort_by_perm.
  assert (StronglySorted (λ a b, DeployPool.by_age a b ≠ Gt) (sort_by DeployPool.by_age l)) as Hs.
  { unshelve eapply (StronglySorted_merge_sort (λ a b, DeployPool.by_age a b ≠ Gt)).
    - intros a b c. rewrite !by_age_cmp. apply (transitivity (R := ord_le)).
    - intros a b. rewrite !by_age_cmp. apply (total ord_le). }
  induction Hs as [|d l' Hs IH Hd]; [constructor|]. simpl in Hnd'. apply NoDup_cons in Hnd' as [Hn Hnd'].
  constructor; [by apply IH|]. rewrite Forall_forall in Hd |- *. intros e He.
  specialize (Hd e He). rewrite by_age_cmp in Hd. apply ord_le_lt_eq in Hd as [?|E]; [done|].
  exfalso. apply Hn. rewrite (age_signature _ _ E). by apply list_elem_of_fmap_2.
Qed.

End pool.

(** The oldest of a list that exceeds the cap. *)
Lemma take_oldest (cap : N) (older : list SignedDeploy) newest :
  (0 < cap)%N → (cap < N.of_nat (length (older ++ [newest])))%N →
  take (N.to_nat (N.min (DeployPool.wrapping_pred cap) (N.of_nat (length (older ++ [newest])))))
    (older ++ [newest]) = take (N.to_nat cap - 1) older.
Proof.
  intros Hcap. unfold DeployPool.wrapping_pred. rewrite decide_False by lia.
  rewrite length_app. cbn [length]. intros Hlt. rewrite take_app_le by lia. f_equal. lia.
Qed.

Lemma elem_of_newest {A} (l : list A) x : x ∈ option_list (last l) → x ∈ l.
Proof.
  destruct (last l) as [y|] eqn:E; [|by intros ?%elem_of_nil].
  intros ->%list_elem_of_singleton. by apply last_Some_elem_of.
Qed.
Lemma selected_selectable `{HashOrder} self current now scope d :
  d ∈ DeployPool.selected (DeployPool.select_for_block self current now scope) →
  DeployPool.selectable (DeployPool.deploy_lifespan (DeployPool.config self)) current now scope d = true.
Proof.
  unfold DeployPool.select_for_block. set (valid := filter _ _). intros Hd.
  assert (d ∈ valid) as Hv; [|by apply list_elem_of_filter in Hv as [? _]].
  revert Hd. case_decide; [done|]. cbn [DeployPool.selected].
  rewrite <-(sort_by_perm DeployPool.by_age valid).
  case_decide; [apply elem_of_newest|]. rewrite elem_of_app. intros [Hd|Hd]; [|by apply elem_of_newest].
  eapply elem_of_sublist; [exact Hd|apply sublist_take].
Qed.

(** ** The walk over the ancestry *)

Section scope.
Context `{HO : HashOrder} `{Bincode Payload.t} `{Bincode Payload.legacy}.
Variables (bl : Blocklace.t) (earliest : N).
Implicit Types (id : BlockIdentity) (queue : list BlockIdentity).

Definition scope_edge : relation BlockIdentity := λ a b, b ∈ (DeployPool.scope_of bl earliest a).2.
Definition carries id (s : list byte) : Prop := s ∈ (DeployPool.scope_of bl earliest id).1.

(** What a finished walk has done: [V] are the identities it visited. *)
Lemma scope_loop_spec fuel visited sigs queue r :
  DeployPool.scope_loop bl earliest fuel visited sigs queue = Some r →
  (∀ a b, a ∈ visited → scope_edge a b → b ∈ visited ∨ b ∈ queue) →
  ∃ V : gset BlockIdentity, visited ⊆ V ∧ (∀ a, a ∈ queue → a ∈ V) ∧
    (∀ a b, a ∈ V → scope_edge a b → b ∈ V) ∧
    (∀ a, a ∈ V → a ∈ visited ∨ ∃ q, q ∈ queue ∧ rtc scope_edge q a) ∧
    (∀ s, s ∈ r ↔ s ∈ sigs ∨ ∃ a, a ∈ V ∧ a ∉ visited ∧ carries a s).
Proof.
  revert visited sigs queue. induction fuel as [|fuel IH]; intros visited sigs [|id queue] E Hinv;
    simpl in E; try done.
  1,2: injection E as <-; exists visited; split_and!; [done|set_solver| |by left|naive_solver];
    intros a b Ha Hab; destruct (Hinv a b Ha Hab) as [?|?%elem_of_nil]; done.
  case_decide as Hid.
  - apply IH in E as (V & H1 & H2 & H3 & H4 & H5).
    2:{ intros a b Ha Hab. destruct (Hinv a b Ha Hab) as [?|[->|?]%elem_of_cons]; auto. }
    exists V. split_and!; [done| |done| |done].
    + intros a [->|?]%elem_of_cons; auto.
    + intros a [?|(q & ? & ?)]%H4; [by left|right]. exists q. split; [by right|done].
  - apply IH in E as (V & H1 & H2 & H3 & H4 & H5).
    2:{ intros a b Ha Hab. destruct (decide (b ∈ {[id]} ∪ visited)) as [?|Hb]; [by left|right].
      rewrite elem_of_app, elem_of_reverse, list_elem_of_filter.
      apply elem_of_union in Ha as [->%elem_of_singleton|Ha]; [by left|].
      destruct (Hinv a b Ha Hab) as [?|[->|?]%elem_of_cons]; [set_solver..|by right]. }
    exists V. split_and!; [set_solver| |done| |].
    + intros a [->|Ha]%elem_of_cons; [set_solver|]. apply H2, elem_of_app. by right.
    + intros a Ha. destruct (H4 a Ha) as [[->%elem_of_singleton|?]%elem_of_union|(q & Hq & Hqa)].
      * right. exists id. split; [by left|done].
      * by left.
      * right. apply elem_of_app in Hq as [[_ Hq]%elem_of_reverse%list_elem_of_filter|Hq].
        -- exists id. split; [by left|]. by eapply rtc_l.
        -- exists q. split; [by right|done].
    + intros s. rewrite H5, elem_of_union, elem_of_list_to_set. unfold carries. split.
      * intros [[Hs|?]|(a & Ha & Hn & Hc)]; [right; exists id; set_solver|by left|right].
        exists a. set_solver.
      * intros [?|(a & Ha & Hn & Hc)]; [by left; right|].
        destruct (decide (a = id)) as [->|Hne]; [by left; left|]. right. exists a. set_solver.
Qed.

Lemma scope_loop_total (U : gset BlockIdentity) fuel visited sigs queue :
  (∀ a b, scope_edge a b → b ∈ U) →
  (∀ a, length (DeployPool.scope_of bl earliest a).2 ≤ size U) →
  (∀ a, a ∈ queue → a ∈ U) → length queue + size (U ∖ visited) * size U ≤ fuel →
  is_Some (DeployPool.scope_loop bl earliest fuel visited sigs queue).
Proof.
  intros Hedge Hdeg. revert visited sigs queue.
  induction fuel as [|fuel IH]; intros visited sigs [|id queue] Hq Hf; simpl in Hf |- *; eauto; [lia|].
  case_decide as Hid; apply IH.
  - intros a ?. apply Hq. by right.
  - lia.
  - intros a. rewrite elem_of_app, elem_of_reverse, list_elem_of_filter. intros [[_ ?]|?].
    + by eapply Hedge.
    + apply Hq. by right.
  - assert (id ∈ U) as HidU by (apply Hq; by left).
    assert (S (size (U ∖ ({[id]} ∪ visited))) ≤ size (U ∖ visited)) as Hless.
    { assert (U ∖ ({[id]} ∪ visited) ⊂ U ∖ visited) as Hsub%subset_size by set_solver. lia. }
    rewrite length_app, length_reverse.
    pose proof (length_filter (.∉ {[id]} ∪ visited) (DeployPool.scope_of bl earliest id).2).
    specialize (Hdeg id). nia.
Qed.

Lemma scope_degree preds a b :
  scope_edge a b → b ∈ DeployPool.references bl preds.
Proof.
  unfold scope_edge, DeployPool.scope_of, DeployPool.references. intros Hb.
  destruct (Blocklace.content bl a) as [c|] eqn:Ea; [|by apply elem_of_nil in Hb].
  apply content_Some in Ea as (r & _ & Hr). destruct (Payload.from_bytes _); [|by apply elem_of_nil in Hb].
  case_decide; [by apply elem_of_nil in Hb|]. apply elem_of_hash_iter in Hb.
  apply elem_of_union_r, elem_of_union_list. exists (predecessors c). split; [|done].
  apply list_elem_of_fmap. exists (r, c). split; [done|]. by apply elem_of_map_to_list.
Qed.
Lemma scope_out preds a :
  length (DeployPool.scope_of bl earliest a).2 ≤ size (DeployPool.references bl preds).
Proof.
  assert (NoDup (DeployPool.scope_of bl earliest a).2) as Hnd.
  { unfold DeployPool.scope_of. destruct (Blocklace.content bl a); [|constructor].
    destruct (Payload.from_bytes _); [|constructor]. case_decide; [constructor|]. apply NoDup_hash_iter. }
  rewrite <-(size_list_to_set (C := gset BlockIdentity)) by done. apply subseteq_size.
  intros b ?%elem_of_list_to_set. by apply (scope_degree preds a).
Qed.

(** The signatures found are exactly those of the payloads the walk reaches. *)
Lemma scope_exact preds current lifespan s :
  earliest = (current - lifespan)%N →
  s ∈ DeployPool.compute_deploys_in_scope bl preds current lifespan ↔
  ∃ p a, p ∈ preds ∧ rtc scope_edge p a ∧ carries a s.
Proof.
  intros He. unfold DeployPool.compute_deploys_in_scope. rewrite <-He.
  assert (is_Some (DeployPool.scope_loop bl earliest (DeployPool.scope_fuel bl preds) ∅ ∅
    (reverse (hash_iter preds)))) as [r Er].
  { apply (scope_loop_total (DeployPool.references bl preds)).
    - apply scope_degree.
    - apply scope_out.
    - intros a. rewrite elem_of_reverse, elem_of_hash_iter. intros ?. unfold DeployPool.references. by apply elem_of_union_l.
    - unfold DeployPool.scope_fuel. rewrite length_reverse, length_hash_iter, difference_empty_L. lia. }
  rewrite Er. cbn [default]. unfold id.
  apply scope_loop_spec in Er as (V & _ & H2 & H3 & H4 & H5); [|set_solver].
  rewrite H5. split.
  - intros [?%elem_of_empty|(a & Ha & _ & Hc)]; [done|].
    destruct (H4 a Ha) as [?%elem_of_empty|(q & Hq & Hqa)]; [done|].
    rewrite elem_of_reverse, elem_of_hash_iter in Hq. by exists q, a.
  - intros (p & a & Hp & Hpa & Hc). right. exists a. split_and!; [|apply not_elem_of_empty|done].
    assert (p ∈ V) as HpV by (apply H2; by rewrite elem_of_reverse, elem_of_hash_iter).
    clear -Hpa HpV H3. induction Hpa; [done|]. eauto.
Qed.
End scope.
