(* ===== verification/Runtime.v ===== *)
(** * The runtime interface

    [execution/runtime.rs]: what consensus asks of an execution engine, and the
    deterministic engine the tests run on.  SHA-256 is a class parameter. *)

From S2P Require Import Prelude Types Bytes Crypto Payload.
From stdpp Require Import options.

(** [Sha256::digest]. *)
Class Sha256 := sha256 : list byte → list byte.

Module Runtime.

Inductive SystemDeployRequest :=
  | SlashRequest (validator : NodeId) (invalid_block_hash : list byte)
  | CloseBlockRequest.

Record ExecutionRequest := mkRequest {
  pre_state_hash : list byte;
  deploys : list SignedDeploy;
  system_deploys : list SystemDeployRequest;
  bonds : list Bond;
  block_number : N
}.

Record ExecutionResult := mkResult {
  post_state_hash : list byte;
  processed_deploys : list ProcessedDeploy;
  rejected_deploys : list RejectedDeploy;
  system_results : list ProcessedSystemDeploy;
  new_bonds : list Bond
}.

Inductive RuntimeError :=
  | UnknownPreState
  | UnsupportedDeploySignatureAlgorithm (name : string)
  | InvalidDeploySignature
  | InvalidDeploy (text : string)
  | InternalError (text : string).

(** The error text carries the length. *)
Definition validate_invalid_block_hash (hash : list byte) : result unit nat :=
  bail (length hash) when length hash ≠ 32; Ok tt.

(** [trait RuntimeManager]: a state and its [execute_block]. *)
Class RuntimeManager (S : Type) :=
  execute_block : S → ExecutionRequest → result ExecutionResult RuntimeError * S.

(** The provided method. *)
Definition validate_post_state {S : Type} `{RuntimeManager S} (self : S) (request : ExecutionRequest)
    (declared_post_state_hash : list byte) : result bool RuntimeError * S :=
  let r := execute_block self request in
  (let? executed := r.1 in
   Ok (bool_decide (post_state_hash executed = declared_post_state_hash)), r.2).

Module MockRuntime.

Record t := mk {
  known_states : gset (list byte);
  is_permissive : bool;
  slashed : gmap NodeId N
}.
Definition new : t := mk {[ [] ]} false ∅.
Definition permissive : t := mk ∅ true ∅.

(** One deploy of the loop: processed or rejected. *)
Definition classify (d : SignedDeploy) : ProcessedDeploy + RejectedDeploy :=
  if decide (signature d = []) then inr (mkRejected d InvalidSignature)
  else
    let natural_cost := N.of_nat (length (term (deploy d))) in
    inl (mkProcessed d (N.min natural_cost (phlo_limit (deploy d)))
           (bool_decide (phlo_limit (deploy d) < natural_cost)%N)).

Definition processed_of (o : ProcessedDeploy + RejectedDeploy) : option ProcessedDeploy :=
  match o with inl p => Some p | inr _ => None end.
Definition rejected_of (o : ProcessedDeploy + RejectedDeploy) : option RejectedDeploy :=
  match o with inl _ => None | inr r => Some r end.

(** The stake of the first bond of a validator, 0 without one. *)
Definition prior_stake (bonds : list Bond) (v : NodeId) : N :=
  default 0%N (stake <$> head (filter (λ b, validator b = v) bonds)).

(** [+=] on a [u64] entry. *)
Definition execute_system (acc : list Bond * gmap NodeId N * list ProcessedSystemDeploy)
    (sd : SystemDeployRequest) : list Bond * gmap NodeId N * list ProcessedSystemDeploy :=
  let '(new_bonds, slashed, results) := acc in
  match sd with
  | SlashRequest v _ =>
    let prior := prior_stake new_bonds v in
    (filter (λ b, validator b ≠ v) new_bonds,
     <[v := wrapping_add64 (default 0%N (slashed !! v)) prior]> slashed,
     results ++ [Slash v (bool_decide (0 < prior)%N)])
  | CloseBlockRequest => (new_bonds, slashed, results ++ [CloseBlock true])
  end.

(** ** The post-state hash *)

Definition flag (b : bool) : list byte := [if b then x01 else x00].
Definition processed_bytes (p : ProcessedDeploy) : list byte :=
  Crypto.le_field (signature (processed_deploy p)) ++ Crypto.le64 (cost p) ++ flag (is_failed p).
Definition system_bytes (s : ProcessedSystemDeploy) : list byte :=
  match s with
  | Slash v succeeded => [x00] ++ Crypto.le_field v ++ flag succeeded
  | CloseBlock succeeded => [x01] ++ flag succeeded
  end.
Definition bond_bytes (b : Bond) : list byte :=
  Crypto.le_field (validator b) ++ Crypto.le64 (stake b).

(** A count and the encodings of the items. *)
Definition listed {A} (enc : A → list byte) (l : list A) : list byte :=
  Crypto.le64 (N.of_nat (length l)) ++ mjoin (map enc l).

Definition state_bytes (pre_state_hash : list byte) (processed : list ProcessedDeploy)
    (system : list ProcessedSystemDeploy) (bonds : list Bond) (block_number : N) : list byte :=
  Crypto.le_field pre_state_hash ++ Crypto.le64 block_number ++ listed processed_bytes processed ++
  listed system_bytes system ++ listed bond_bytes (sort_by_key validator bonds).

Section mock.
Context `{Sha256}.

Definition compute_mock_post_state pre_state_hash processed system bonds block_number : list byte :=
  sha256 (state_bytes pre_state_hash processed system bonds block_number).

Definition execute_block (self : t) (request : ExecutionRequest) :
    result ExecutionResult RuntimeError * t :=
  if decide (is_permissive self = false ∧ pre_state_hash request ∉ known_states self) then
    (Err UnknownPreState, self)
  else
    let outcomes := map classify (deploys request) in
    let processed := omap processed_of outcomes in
    let rejected := omap rejected_of outcomes in
    let '(new_bonds, slashed, results) :=
      foldl execute_system (bonds request, slashed self, []) (system_deploys request) in
    let hash := compute_mock_post_state (pre_state_hash request) processed results new_bonds
      (block_number request) in
    (Ok (mkResult hash processed rejected results new_bonds),
     mk ({[hash]} ∪ known_states self) (is_permissive self) slashed).

#[global] Instance mock_runtime : RuntimeManager t := execute_block.
End mock.
End MockRuntime.
End Runtime.

(** ** Properties of payload bytes and of the runtime *)

(** ** Payload bytes *)

(** What bincode documents of the tuple's first bytes: the length of the first
    vector, as a little-endian [u64]. *)
Class LegacyLayout `{Bincode Payload.legacy} : Prop :=
  legacy_layout : ∀ s ds rs ss,
    take 8 (serialize ((s, ds, rs, ss) : Payload.legacy)) =
    Crypto.le64 (N.of_nat (length (pre_state_hash s))).

(** The tag of the versioned form reads as a length no vector has. *)
Lemma tag_is_no_length n : (n < 2 ^ 61)%N → take 8 Payload.PAYLOAD_V2 ≠ Crypto.le64 n.
Proof.
  intros Hn E. unfold Crypto.le64 in E. apply (f_equal reverse) in E. rewrite reverse_involutive in E.
  apply (f_equal of_be) in E. rewrite of_be64 in E.
  - rewrite N.mod_small in E by (change (2 ^ 61)%N with 2305843009213693952%N in Hn;
      change (2 ^ 64)%N with 18446744073709551616%N; lia).
    vm_compute in E. subst n. vm_compute in Hn. done.
  - pose proof (N.mod_upper_bound n (2 ^ 64) ltac:(done)). unfold u64_max. lia.
Qed.

Lemma take_take_prefix {A} (n : nat) (p l : list A) :
  n ≤ length p → take (length p) l = p → take n l = take n p.
Proof. intros Hn E. rewrite <-E, take_take. by rewrite Nat.min_l by done. Qed.

Lemma legacy_untagged `{LegacyLayout} s ds rs ss :
  (N.of_nat (length (pre_state_hash s)) < 2 ^ 61)%N →
  strip_prefix Payload.PAYLOAD_V2 (serialize ((s, ds, rs, ss) : Payload.legacy)) = None.
Proof.
  intros Hs. unfold strip_prefix. case_decide as Hp; [|done]. exfalso.
  apply (take_take_prefix 8) in Hp; [|vm_compute; lia]. rewrite legacy_layout in Hp.
  by apply (tag_is_no_length _ Hs).
Qed.

Lemma starts_with_app prefix l : starts_with prefix (prefix ++ l) = true.
Proof. unfold starts_with. by rewrite take_app_length, bool_decide_true. Qed.
Lemma starts_with_strip prefix l : strip_prefix prefix l = None → starts_with prefix l = false.
Proof. unfold strip_prefix, starts_with. case_decide; [done|]. intros _. by apply bool_decide_eq_false. Qed.

(** ** Execution *)

Definition stakes (l : list Bond) : N := sum_N (map stake l).
Definition total_slashed (m : gmap NodeId N) : N := sum_N (map snd (map_to_list m)).

(** The validators a request slashes. *)
Definition slash_targets (l : list Runtime.SystemDeployRequest) : list NodeId :=
  omap (λ sd, match sd with Runtime.SlashRequest v _ => Some v | _ => None end) l.

Lemma total_slashed_insert m v x :
  total_slashed (<[v := x]> m) = (x + total_slashed (delete v m))%N.
Proof.
  unfold total_slashed. rewrite <-insert_delete_eq, map_to_list_insert by apply lookup_delete_eq. done.
Qed.
Lemma total_slashed_split m v :
  total_slashed m = (default 0%N (m !! v) + total_slashed (delete v m))%N.
Proof.
  destruct (m !! v) as [x|] eqn:E; cbn [default].
  - rewrite <-(insert_delete_id m v x) at 1 by done. unfold total_slashed.
    by rewrite map_to_list_insert by apply lookup_delete_eq.
  - by rewrite delete_id.
Qed.

Section bonds.
Import Runtime.MockRuntime.

Lemma filter_everything {A} (P : A → Prop) `{∀ x, Decision (P x)} (l : list A) :
  (∀ x, x ∈ l → P x) → filter P l = l.
Proof.
  induction l as [|x l IH]; intros Hl; [done|]. rewrite filter_cons_True by (apply Hl; by left).
  f_equal. apply IH. intros y ?. apply Hl. by right.
Qed.
Lemma filter_absent (l : list Bond) v :
  v ∉ map validator l → filter (λ b, validator b ≠ v) l = l.
Proof. intros Hv. apply filter_everything. intros b Hb <-. by apply Hv, list_elem_of_fmap_2. Qed.
Lemma prior_stake_split (l : list Bond) v :
  NoDup (map validator l) →
  stakes l = (prior_stake l v + stakes (filter (λ b, validator b ≠ v) l))%N.
Proof.
  unfold stakes, prior_stake. induction l as [|b l IH]; [done|]. simpl. intros [Hb Hnd]%NoDup_cons.
  rewrite !filter_cons. destruct (decide (validator b = v)) as [Hv|Hv].
  - rewrite decide_False by tauto. simpl. subst v. by rewrite filter_absent.
  - rewrite decide_True by done. simpl. rewrite (IH Hnd). lia.
Qed.

(** The bonds that stay, and the stake that moves. *)
Lemma execute_system_fold l bonds slashed results :
  let r := foldl execute_system (bonds, slashed, results) l in
  r.1.1 = filter (λ b, validator b ∉ slash_targets l) bonds ∧
  (NoDup (map validator bonds) → (stakes bonds + total_slashed slashed <= u64_max)%N →
   (stakes r.1.1 + total_slashed r.1.2)%N = (stakes bonds + total_slashed slashed)%N).
Proof.
  cbn zeta. revert bonds slashed results. induction l as [|sd l IH]; intros bonds slashed results.
  { simpl. split; [|done]. symmetry. apply filter_everything. intros b _. apply not_elem_of_nil. }
  destruct sd as [v h|]; cbn [foldl execute_system]; [|apply IH].
  destruct (IH (filter (λ b, validator b ≠ v) bonds)
    (<[v := wrapping_add64 (default 0%N (slashed !! v)) (prior_stake bonds v)]> slashed)
    (results ++ [Slash v (bool_decide (0 < prior_stake bonds v)%N)])) as [H1 H2]. split.
  - rewrite H1, list_filter_filter. apply list_filter_iff. intros b. simpl.
    rewrite not_elem_of_cons. tauto.
  - intros Hnd Hsum. pose proof (prior_stake_split bonds v Hnd) as Hs.
    pose proof (total_slashed_split slashed v) as Ht.
    assert (NoDup (map validator (filter (λ b, validator b ≠ v) bonds))) as Hnd'.
    { eapply sublist_NoDup; [exact Hnd|]. apply fmap_sublist, sublist_filter. }
    assert ((stakes (filter (λ b, validator b ≠ v) bonds) + total_slashed
      (<[v := wrapping_add64 (default 0%N (slashed !! v)) (prior_stake bonds v)]> slashed))%N =
      (stakes bonds + total_slashed slashed)%N) as Hsame.
    { rewrite total_slashed_insert, wrapping_add64_small by lia. lia. }
    rewrite H2; [done|done|lia].
Qed.

Lemma classified_processed l :
  map processed_deploy (omap processed_of (map classify l)) = filter (λ d, signature d ≠ []) l ∧
  map rejected_deploy (omap rejected_of (map classify l)) = filter (λ d, signature d = []) l.
Proof.
  induction l as [|d l [IH1 IH2]]; [done|]. rewrite !filter_cons. simpl.
  pose proof (eq_refl : classify d = _) as E. unfold classify in E at 2.
  destruct (decide (signature d = [])) as [Hs|Hs]; rewrite E; simpl.
  - rewrite decide_False by tauto. split; [exact IH1|f_equal; exact IH2].
  - rewrite decide_True by done. split; [f_equal; exact IH1|exact IH2].
Qed.
Lemma processed_cost l p :
  p ∈ omap processed_of (map classify l) →
  (cost p <= phlo_limit (deploy (processed_deploy p)))%N ∧
  (cost p <= N.of_nat (length (term (deploy (processed_deploy p)))))%N ∧
  (is_failed p = true ↔
   (phlo_limit (deploy (processed_deploy p)) < N.of_nat (length (term (deploy (processed_deploy p)))))%N).
Proof.
  rewrite list_elem_of_omap. intros (o & (d & -> & _)%list_elem_of_fmap & Hp).
  unfold classify in Hp. case_decide; [done|]. injection Hp as <-. simpl.
  rewrite bool_decide_eq_true. split_and!; [lia|lia|done].
Qed.
End bonds.
