(* ===== verification/ExecutionSamples.v ===== *)
(** * A concrete serializer

    A codec in the place of bincode, with the properties the theorems on
    payload bytes ask of it: one byte per bit of the [Countable] encoding, after
    the length of the pre-state hash for the untagged form. *)

From S2P Require Import Prelude Types Bytes Crypto Payload AdmissionFacts Runtime.
From stdpp Require Import options.

Fixpoint bits (p : positive) : list byte :=
  match p with xH => [] | xO p => x00 :: bits p | xI p => x01 :: bits p end.
Fixpoint unbits (l : list byte) : positive :=
  match l with [] => xH | b :: l => if decide (b = x00) then xO (unbits l) else xI (unbits l) end.
Lemma unbits_bits p : unbits (bits p) = p.
Proof. induction p as [p IH|p IH|]; simpl; by rewrite ?IH. Qed.

#[export] Instance Bond_countable : Countable Bond.
Proof.
  refine (inj_countable' (λ b, (validator b, stake b)) (λ p, mkBond p.1 p.2) _).
  by intros [].
Defined.
#[export] Instance BlockState_eq_dec : EqDecision BlockState.
Proof. solve_decision. Defined.
#[export] Instance BlockState_countable : Countable BlockState.
Proof.
  refine (inj_countable' (λ s, (pre_state_hash s, post_state_hash s, bonds s, block_number s))
    (λ p, mkState p.1.1.1 p.1.1.2 p.1.2 p.2) _).
  by intros [].
Defined.
#[export] Instance Deploy_countable : Countable Deploy.
Proof.
  refine (inj_countable' (λ d, (term d, timestamp d, phlo_price d, phlo_limit d,
      valid_after_block_number d, shard_id d, expiration_timestamp d))
    (λ p, let '(a, b, c, d, e, f, g) := p in mkDeploy a b c d e f g) _).
  by intros [].
Defined.
#[export] Instance algorithm_countable : Countable SignatureAlgorithm.t.
Proof.
  refine (inj_countable' (λ a, match a with
      | SignatureAlgorithm.Secp256k1 => inl 0 | SignatureAlgorithm.Secp256k1Eth => inl 1
      | SignatureAlgorithm.Ed25519 => inl 2 | SignatureAlgorithm.Unspecified => inl 3
      | SignatureAlgorithm.Other name => inr name end)
    (λ s : nat + string, match s with
      | inl 0 => SignatureAlgorithm.Secp256k1 | inl 1 => SignatureAlgorithm.Secp256k1Eth
      | inl 2 => SignatureAlgorithm.Ed25519 | inl _ => SignatureAlgorithm.Unspecified
      | inr name => SignatureAlgorithm.Other name end) _).
  by intros [].
Defined.
#[export] Instance SignedDeploy_countable : Countable SignedDeploy.
Proof.
  refine (inj_countable' (λ d, (deploy d, deployer d, signature d, signature_algorithm d))
    (λ p, mkSigned p.1.1.1 p.1.1.2 p.1.2 p.2) _).
  by intros [].
Defined.
#[export] Instance ProcessedDeploy_eq_dec : EqDecision ProcessedDeploy.
Proof. solve_decision. Defined.
#[export] Instance ProcessedDeploy_countable : Countable ProcessedDeploy.
Proof.
  refine (inj_countable' (λ d, (processed_deploy d, cost d, is_failed d))
    (λ p, mkProcessed p.1.1 p.1.2 p.2) _).
  by intros [].
Defined.
#[export] Instance RejectReason_eq_dec : EqDecision RejectReason.
Proof. solve_decision. Defined.
#[export] Instance RejectReason_countable : Countable RejectReason.
Proof.
  refine (inj_countable' (λ r, match r with InvalidSignature => 0 | Expired => 1 | Duplicate => 2
      | InsufficientPhloPrice => 3 | NotYetValid => 4 end)
    (λ n, match n with 0 => InvalidSignature | 1 => Expired | 2 => Duplicate
      | 3 => InsufficientPhloPrice | _ => NotYetValid end) _).
  by intros [].
Defined.
#[export] Instance RejectedDeploy_eq_dec : EqDecision RejectedDeploy.
Proof. solve_decision. Defined.
#[export] Instance RejectedDeploy_countable : Countable RejectedDeploy.
Proof.
  refine (inj_countable' (λ d, (rejected_deploy d, reason d)) (λ p, mkRejected p.1 p.2) _).
  by intros [].
Defined.
#[export] Instance system_eq_dec : EqDecision ProcessedSystemDeploy.
Proof. solve_decision. Defined.
#[export] Instance system_countable : Countable ProcessedSystemDeploy.
Proof.
  refine (inj_countable' (λ s, match s with Slash v b => inl (v, b) | CloseBlock b => inr b end)
    (λ s, match s with inl (v, b) => Slash v b | inr b => CloseBlock b end) _).
  by intros [].
Defined.
#[export] Instance Payload_eq_dec : EqDecision Payload.t.
Proof. solve_decision. Defined.
#[export] Instance Payload_countable : Countable Payload.t.
Proof.
  refine (inj_countable' (λ p, (Payload.por_authorizations p, Payload.state p, Payload.deploys p,
      Payload.rejected_deploys p, Payload.system_deploys p))
    (λ p, Payload.mk p.1.1.1.1 p.1.1.1.2 p.1.1.2 p.1.2 p.2) _).
  by intros [].
Defined.

Definition read_bits `{Countable A} (limit : N) (l : list byte) : result A string :=
  if decide (limit < N.of_nat (length l))%N then Err "limit"%string
  else match decode (unbits l) with Some x => Ok x | None => Err "malformed"%string end.

Definition bit_codec `{Countable A} : Bincode A :=
  {| serialize x := bits (encode x); deserialize := read_bits |}.
Definition legacy_codec : Bincode Payload.legacy :=
  {| serialize p := Crypto.le64 (N.of_nat (length (pre_state_hash p.1.1.1))) ++ bits (encode p);
     deserialize limit l := read_bits limit (drop 8 l) |}.

Lemma read_bits_encode `{Countable A} (x : A) limit :
  (N.of_nat (length (bits (encode x))) <= limit)%N → read_bits limit (bits (encode x)) = Ok x.
Proof.
  intros Hl. unfold read_bits. rewrite decide_False by lia. by rewrite unbits_bits, decode_encode.
Qed.
Lemma bit_codec_law `{Countable A} : @BincodeLaw A bit_codec.
Proof. intros x limit. apply read_bits_encode. Qed.


Lemma legacy_codec_law : @BincodeLaw Payload.legacy legacy_codec.
Proof.
  intros x limit. cbn [serialize deserialize legacy_codec]. rewrite length_app, length_le64. intros Hl.
  rewrite (drop_app_length' _ _ 8) by (by rewrite length_le64). apply read_bits_encode. eapply N.le_trans; [|exact Hl]. rewrite Nat2N.inj_add. apply N.le_add_l.
Qed.
Lemma legacy_codec_layout : @LegacyLayout legacy_codec.
Proof.
  intros s ds rs ss. cbn [serialize legacy_codec fst].
  by rewrite (take_app_length' _ _ 8) by (by rewrite length_le64).
Qed.
