(* ===== verification/ExecutionTheorems.v ===== *)
(** * Theorems: deploys and their execution

    The properties of [execution/]: the selection of deploys, the deploys in
    scope, payload bytes and the deterministic runtime. *)

From S2P Require Import Prelude Types Lace LaceFacts Samples Bytes Crypto Payload DeployPool.
From S2P Require Import Runtime ExecutionSamples.
From stdpp Require Import options.

Section pool.
Context `{HO : HashOrder}.

(** The selection is oldest-plus-newest.  From any reachable pool it takes
    only deploys that are neither future, expired nor in scope; all of them when
    they fit under the cap, and otherwise the [cap - 1] oldest and the newest of
    them in strict order of age, whatever the iteration order of the pool. *)
Theorem selection_is_oldest_plus_newest config self current now scope :
  rtc pool_step (DeployPool.new config) self →
  (0 < DeployPool.max_user_deploys_per_block config)%N →
  let r := DeployPool.select_for_block self current now scope in
  let cap := N.to_nat (DeployPool.max_user_deploys_per_block config) in
  ∃ V, (∀ d, d ∈ V ↔ DeployPool.deploys self !! signature d = Some d ∧
      DeployPool.selectable (DeployPool.deploy_lifespan config) current now scope d = true) ∧
    StronglySorted age_lt V ∧
    length (DeployPool.selected r) = Nat.min cap (length V) ∧
    (DeployPool.cap_hit r = true ↔ cap < length V) ∧
    if DeployPool.cap_hit r then
      ∃ older newest, V = older ++ [newest] ∧
        DeployPool.selected r = take (cap - 1) older ++ [newest]
    else DeployPool.selected r ≡ₚ V.
Proof.
  intros Hr Hcap. destruct (reached_keyed config self Hr) as [Hk Hc]. cbn zeta.
  unfold DeployPool.select_for_block. rewrite Hc.
  set (P := λ d, DeployPool.selectable (DeployPool.deploy_lifespan config) current now scope d = true).
  set (valid := filter _ (DeployPool.iter self)).
  exists (sort_by DeployPool.by_age valid). split_and!.
  { intros d. rewrite sort_by_perm. unfold valid. rewrite list_elem_of_filter, elem_of_iter by done. tauto. }
  { apply sort_age_sorted. eapply sublist_NoDup; [apply (iter_signatures self Hk)|].
    apply fmap_sublist, sublist_filter. }
  all: assert (length (sort_by DeployPool.by_age valid) = length valid) as Hlen by by rewrite sort_by_perm.
  all: set (sorted := sort_by DeployPool.by_age valid) in *; rewrite ?Hlen.
  all: destruct (decide (N.of_nat (length valid) <= DeployPool.max_user_deploys_per_block config)%N)
    as [Hle|Hgt]; cbn [DeployPool.selected DeployPool.cap_hit].
  1: lia.
  2: split; [done|lia].
  3: unfold sorted; by rewrite sort_by_perm.
  all: destruct sorted as [|newest older _] using rev_ind; [simpl in Hlen; lia|].
  all: rewrite length_app in Hlen; simpl in Hlen; rewrite ?last_snoc; change (option_list (Some newest)) with [newest].
  2: split; [lia|done].
  all: assert (DeployPool.max_user_deploys_per_block config < N.of_nat (length (older ++ [newest])))%N
    as Hlt by (rewrite length_app; cbn [length]; lia).
  all: pose proof (take_oldest _ _ _ Hcap Hlt) as Htake.
  all: rewrite length_app in Hlt, Htake; cbn [length] in Hlt, Htake; rewrite Hlen in Htake.
  - case_decide as H1; [rewrite H1; cbn [length]; lia|]. rewrite Htake, length_app, length_take. cbn [length]. lia.
  - exists older, newest. split; [done|]. case_decide as H1; [by rewrite H1|]. by rewrite Htake.
Qed.

Context `{Bincode Payload.t} `{Bincode Payload.legacy}.

(** A block lists [b] as a predecessor. *)
Definition lists (bl : Blocklace.t) : relation BlockIdentity := λ a b,
  ∃ c, Blocklace.content bl a = Some c ∧ b ∈ predecessors c.

(** The payload of a stored block. *)
Definition has_payload (bl : Blocklace.t) (a : BlockIdentity) (p : Payload.t) : Prop :=
  ∃ c, Blocklace.content bl a = Some c ∧ Payload.from_bytes (payload c) = Ok p.

(** Payloads decode, block numbers do not decrease, and no block includes a
    deploy from its future. *)
Record numbered (bl : Blocklace.t) : Prop := {
  numbered_decodes : ∀ a c, Blocklace.content bl a = Some c → ∃ p, has_payload bl a p;
  numbered_grows : ∀ a b p q, lists bl a b → has_payload bl a p → has_payload bl b q →
    (block_number (Payload.state q) <= block_number (Payload.state p))%N;
  numbered_present : ∀ a p pd, has_payload bl a p → pd ∈ Payload.deploys p →
    (valid_after_block_number (deploy (processed_deploy pd)) <= block_number (Payload.state p))%N
}.

Lemma has_payload_det bl a p q : has_payload bl a p → has_payload bl a q → p = q.
Proof. intros (c & Hc & Hp) (c' & Hc' & Hq). simplify_eq. congruence. Qed.

(** A block with a payload is reached through live blocks when its number is in
    the window. *)
Lemma lists_scope bl earliest p a r :
  numbered bl → rtc (lists bl) p a → has_payload bl a r →
  (earliest <= block_number (Payload.state r))%N →
  rtc (scope_edge bl earliest) p a ∧ ∀ q, has_payload bl p q →
    (block_number (Payload.state r) <= block_number (Payload.state q))%N.
Proof.
  intros Hn Hr Ha Hle. induction Hr as [a|a b z (c & Hc & Hb) _ IH].
  { split; [done|]. intros q Hq. by rewrite (has_payload_det _ _ _ _ Hq Ha). }
  destruct (IH Ha) as [Hbz Hnum]. destruct (numbered_decodes _ Hn a c Hc) as [pa Hpa].
  assert (block_number (Payload.state r) <= block_number (Payload.state pa))%N as Hra.
  { destruct (Blocklace.content bl b) as [cb|] eqn:Eb.
    - destruct (numbered_decodes _ Hn b cb Eb) as [pb Hpb]. trans (block_number (Payload.state pb)).
      + by apply Hnum.
      + eapply (numbered_grows _ Hn a b); [by exists c|done..].
    - exfalso. inversion Hbz as [|x y w Hxy]; subst.
      + destruct Ha as (? & ? & _). congruence.
      + unfold scope_edge, DeployPool.scope_of in Hxy. rewrite Eb in Hxy. by apply elem_of_nil in Hxy. }
  split; [|intros q Hq; by rewrite (has_payload_det _ _ _ _ Hq Hpa)].
  apply rtc_l with b; [|done]. unfold scope_edge, DeployPool.scope_of.
  destruct Hpa as (c' & Hc' & Hp). rewrite Hc in Hc'. injection Hc' as <-. rewrite Hc, Hp.
  rewrite decide_False by lia. by apply elem_of_hash_iter.
Qed.

(** C30: no deploy enters a chain of numbered blocks twice.  On a blocklace whose
    payloads all decode, whose block numbers do not decrease along references
    and no block of which holds a deploy that was not valid yet, a deploy that
    [select_for_block] picks with the scope that [compute_deploys_in_scope]
    computes is in no block that the predecessors reach, although the walk is
    cut at the lifespan window.  The code relies on such numbers; nothing
    in the pool, the payload or the admission of blocks checks them. *)
Theorem no_deploy_is_included_twice config self bl preds current now d :
  rtc pool_step (DeployPool.new config) self → numbered bl →
  d ∈ DeployPool.selected (DeployPool.select_for_block self current now
    (DeployPool.compute_deploys_in_scope bl preds current (DeployPool.deploy_lifespan config))) →
  ∀ pred a p pd, pred ∈ preds → rtc (lists bl) pred a → has_payload bl a p →
    pd ∈ Payload.deploys p → processed_deploy pd ≠ d.
Proof.
  intros Hr Hn Hd pred a p pd Hpred Hpa Hp Hpd E.
  destruct (reached_keyed config self Hr) as [Hk Hc].
  set (scope := DeployPool.compute_deploys_in_scope _ _ _ _) in *.
  pose proof (selected_selectable _ _ _ _ _ Hd) as Hsel. rewrite Hc in Hsel.
  unfold DeployPool.selectable, DeployPool.live in Hsel. revert Hsel. guards.
  intros [[_ [Hexp _]] Hscope]. apply Hscope, (scope_exact bl (current - DeployPool.deploy_lifespan config));
    [done|]. pose proof (numbered_present _ Hn a p pd Hp Hpd) as Hpres. rewrite E in Hpres.
  assert (current - DeployPool.deploy_lifespan config <= block_number (Payload.state p))%N as Hwin.
  { unfold DeployPool.is_block_expired in Hexp. destruct (checked_sub current _) as [e|] eqn:Es.
    - apply checked_sub_Some in Es as [-> _]. apply bool_decide_eq_false in Hexp. lia.
    - apply checked_sub_None in Es. lia. }
  destruct (lists_scope bl _ pred a p Hn Hpa Hp Hwin) as [Hreach _].
  exists pred, a. split_and!; [done..|]. destruct Hp as (c & Hca & Hpc).
  unfold carries, DeployPool.scope_of. rewrite Hca, Hpc, decide_False, <-E by lia.
  by apply (list_elem_of_fmap_2 (λ pd, signature (processed_deploy pd))).
Qed.
End pool.

Section bytes.
Context `{BincodeLaw Payload.t} `{BincodeLaw Payload.legacy}
  `{BincodeLaw (list PorEquivocationAuthorization)}.
Context {layout : LegacyLayout}.

(** Payload bytes round trip.  Whatever a payload carries, its bytes decode to
    it: the versioned form when it carries authorizations, the untagged one
    otherwise, which no decoder takes for the versioned form as long as the
    pre-state hash is shorter than [2^61] bytes.  The authorizations read from
    the bytes, and from the separate carrier, are those of the payload. *)
Theorem payload_bytes_round_trip (p : Payload.t) :
  (N.of_nat (length (pre_state_hash (Payload.state p))) < 2 ^ 61)%N →
  Payload.from_bytes (Payload.to_bytes p) = Ok p ∧
  Payload.por_authorizations_from_bytes (Payload.to_bytes p) = Ok (Payload.por_authorizations p) ∧
  Payload.decode_por_extra (Payload.encode_por_extra (Payload.por_authorizations p)) =
    Ok (Payload.por_authorizations p).
Proof using All.
  intros Hlen. destruct p as [auths st ds rs ss]. cbn [Payload.state Payload.por_authorizations] in *.
  assert (Payload.from_bytes (Payload.to_bytes (Payload.mk auths st ds rs ss)) =
    Ok (Payload.mk auths st ds rs ss)) as Hround.
  { unfold Payload.from_bytes, Payload.to_bytes. cbn [Payload.state Payload.por_authorizations
      Payload.deploys Payload.rejected_deploys Payload.system_deploys].
    case_decide as Ha.
    - rewrite (legacy_untagged st ds rs ss Hlen), deserialize_serialize by done. by subst.
    - rewrite strip_prefix_app, deserialize_serialize; [done|]. rewrite length_app. lia. }
  split_and!; [done|..].
  - unfold Payload.por_authorizations_from_bytes. rewrite Hround.
    unfold Payload.to_bytes. cbn [Payload.por_authorizations Payload.state Payload.deploys
      Payload.rejected_deploys Payload.system_deploys]. case_decide as Ha.
    + by rewrite (starts_with_strip _ _ (legacy_untagged st ds rs ss Hlen)), Ha.
    + by rewrite starts_with_app.
  - unfold Payload.decode_por_extra, Payload.encode_por_extra. case_decide as Ha; [by rewrite Ha|].
    by rewrite strip_prefix_app, deserialize_serialize.
Qed.
End bytes.

Section runtime.
Context `{Sha256}.
Import Runtime.MockRuntime.

(** Execution accounts for every deploy and every stake.  From an unknown
    pre-state the strict runtime fails and stays as it is.  Otherwise each
    deploy is either processed, charged at most its limit and marked failed
    exactly when its limit is too low, or rejected because it is unsigned; the
    bonds of the slashed validators go, the others stay, and stake is neither
    created nor lost when each validator has one bond and the total fits a
    [u64]; the new state becomes known. *)
Theorem execution_accounts_for_everything self request :
  let '(r, self') := Runtime.MockRuntime.execute_block self request in
  match r with
  | Err e =>
      e = Runtime.UnknownPreState ∧ self' = self ∧ is_permissive self = false ∧
      Runtime.pre_state_hash request ∉ known_states self
  | Ok executed =>
      (is_permissive self = true ∨ Runtime.pre_state_hash request ∈ known_states self) ∧
      map processed_deploy (Runtime.processed_deploys executed) =
        filter (λ d, signature d ≠ []) (Runtime.deploys request) ∧
      map rejected_deploy (Runtime.rejected_deploys executed) =
        filter (λ d, signature d = []) (Runtime.deploys request) ∧
      (∀ p, p ∈ Runtime.processed_deploys executed →
         (cost p <= phlo_limit (deploy (processed_deploy p)))%N ∧
         (is_failed p = true ↔ (phlo_limit (deploy (processed_deploy p)) <
            N.of_nat (length (term (deploy (processed_deploy p)))))%N)) ∧
      Runtime.new_bonds executed = filter (λ b, validator b ∉ slash_targets (Runtime.system_deploys request))
        (Runtime.bonds request) ∧
      (NoDup (map validator (Runtime.bonds request)) →
       (stakes (Runtime.bonds request) + total_slashed (slashed self) <= u64_max)%N →
       (stakes (Runtime.new_bonds executed) + total_slashed (slashed self'))%N =
       (stakes (Runtime.bonds request) + total_slashed (slashed self))%N) ∧
      known_states self' = {[Runtime.post_state_hash executed]} ∪ known_states self
  end.
Proof.
  unfold execute_block. case_decide as Hknown; [naive_solver|].
  pose proof (execute_system_fold (Runtime.system_deploys request) (Runtime.bonds request)
    (slashed self) []) as [Hb Hs].
  destruct (foldl execute_system _ _) as [[new_bonds slashed'] results]. cbn [fst snd] in Hb, Hs.
  cbn [Runtime.processed_deploys Runtime.rejected_deploys Runtime.new_bonds Runtime.post_state_hash
    known_states slashed].
  destruct (classified_processed (Runtime.deploys request)) as [Hp Hr].
  split_and!; [|done|done| |done|done|done].
  - destruct (is_permissive self); [by left|right]. by apply dec_stable; intros ?; apply Hknown.
  - intros p Hin. apply processed_cost in Hin as (? & _ & ?). done.
Qed.
End runtime.

(** ** Instances *)

#[local] Existing Instance elements_order.
#[local] Instance payload_codec : Bincode Payload.t := bit_codec.
#[local] Existing Instance legacy_codec.
#[local] Instance authorizations_codec : Bincode (list PorEquivocationAuthorization) := bit_codec.
(** A digest for the runtime: the length of the bytes. *)
#[local] Instance length_digest : Sha256 := λ bytes, be64 (N.of_nat (length bytes)).

(** Three deploys, of the blocks 0, 1 and 2. *)
Definition sample_deploy (s : byte) (valid_after : N) : SignedDeploy :=
  mkSigned (mkDeploy [x01; x02] 7 1 1 valid_after "" None) [x0d] [s] SignatureAlgorithm.Secp256k1.
Definition d0 : SignedDeploy := sample_deploy x0a 0.
Definition d1 : SignedDeploy := sample_deploy x0b 1.
Definition d2 : SignedDeploy := sample_deploy x0c 2.
Definition capped : DeployPool.DeployPoolConfig := DeployPool.mkConfig 2 50 1.
Definition uncapped : DeployPool.DeployPoolConfig := DeployPool.mkConfig 0 50 1.
Definition pool_of (config : DeployPool.DeployPoolConfig) : DeployPool.t :=
  DeployPool.mk (<[signature d2 := d2]> (<[signature d1 := d1]> (<[signature d0 := d0]> ∅))) config.

Lemma pool_reached : rtc pool_step (DeployPool.new capped) (pool_of capped).
Proof.
  apply rtc_l with (DeployPool.mk (<[signature d0 := d0]> ∅) capped); [by apply (step_add _ d0)|].
  apply rtc_l with (DeployPool.mk (<[signature d1 := d1]> (<[signature d0 := d0]> ∅)) capped);
    [by apply (step_add _ d1)|].
  apply rtc_once. by apply (step_add _ d2).
Qed.

Lemma selection_is_oldest_plus_newest_witness :
  rtc pool_step (DeployPool.new capped) (pool_of capped) ∧
  length (DeployPool.selected (DeployPool.select_for_block (pool_of capped) 3 0 ∅)) ≤ 2 ∧
  DeployPool.selected (DeployPool.select_for_block (pool_of capped) 3 0 ∅) = [d0; d2].
Proof.
  split; [exact pool_reached|].
  destruct (selection_is_oldest_plus_newest capped (pool_of capped) 3 0 ∅ pool_reached eq_refl)
    as (V & _ & _ & Hlen & _).
  split; [|vm_compute; reflexivity]. rewrite Hlen. apply Nat.le_min_l.
Defined.

(** Without a positive cap [cap - 1] wraps: everything is taken, the newest
    deploy twice. *)
Lemma zero_cap_selects_everything :
  DeployPool.selected (DeployPool.select_for_block (pool_of uncapped) 3 0 ∅) = [d0; d1; d2; d2].
Proof. vm_compute. reflexivity. Qed.

(** A block of number 1 that includes [d1]. *)
Definition included : Payload.t :=
  Payload.mk [] (mkState [] [] [] 1) [mkProcessed d1 0 false] [] [].
Definition included_block : Block :=
  mkBlock (mkIdentity (vreplicate 32 x01) [x0a] [x01]) (mkContent (Payload.to_bytes included) ∅).
Definition one_block : Blocklace.t :=
  Blocklace.mk {[ identity included_block := content included_block ]} ∅ None None [] [] 0 0.

Lemma included_decodes : Payload.from_bytes (Payload.to_bytes included) = Ok included.
Proof. vm_compute. reflexivity. Qed.
Lemma one_block_content a c :
  Blocklace.content one_block a = Some c → c = content included_block.
Proof.
  intros (r & _ & Hr)%content_Some. unfold one_block in Hr. cbn [Blocklace.blocks] in Hr.
  by apply lookup_singleton_Some in Hr as [_ <-].
Qed.
Lemma one_block_payload a p : has_payload one_block a p → p = included.
Proof.
  intros (c & ->%one_block_content & Hp). cbn [payload content included_block] in Hp.
  rewrite included_decodes in Hp. by injection Hp.
Qed.
Lemma one_block_numbered : numbered one_block.
Proof.
  split.
  - intros a c Hc. exists included, c. split; [done|]. apply one_block_content in Hc as ->.
    exact included_decodes.
  - intros a b p q _ ->%one_block_payload ->%one_block_payload. done.
  - intros a p pd ->%one_block_payload Hpd. cbn in Hpd. by apply list_elem_of_singleton in Hpd as ->.
Qed.

Lemma no_deploy_is_included_twice_witness :
  numbered one_block ∧
  d2 ∈ DeployPool.selected (DeployPool.select_for_block (pool_of capped) 3 0
    (DeployPool.compute_deploys_in_scope one_block {[ identity included_block ]} 3 50)) ∧
  ∀ p pd, has_payload one_block (identity included_block) p → pd ∈ Payload.deploys p →
    processed_deploy pd ≠ d2.
Proof.
  split; [exact one_block_numbered|].
  assert (d2 ∈ DeployPool.selected (DeployPool.select_for_block (pool_of capped) 3 0
    (DeployPool.compute_deploys_in_scope one_block {[ identity included_block ]} 3 50))) as Hd by decided.
  split; [exact Hd|]. intros p pd Hp Hpd.
  apply (no_deploy_is_included_twice capped (pool_of capped) one_block {[ identity included_block ]}
    3 0 d2 pool_reached one_block_numbered Hd (identity included_block) (identity included_block) p pd);
    [set_solver|reflexivity|exact Hp|exact Hpd].
Defined.

(** [d1] is in scope there. *)
Example d1_in_scope :
  DeployPool.selected (DeployPool.select_for_block (pool_of capped) 3 0
    (DeployPool.compute_deploys_in_scope one_block {[ identity included_block ]} 3 50)) ≡ₚ [d0; d2].
Proof. decided. Qed.

Lemma payload_bytes_round_trip_witness :
  (N.of_nat (length (pre_state_hash (Payload.state included))) < 2 ^ 61)%N ∧
  Payload.from_bytes (Payload.to_bytes included) = Ok included.
Proof.
  assert (N.of_nat (length (pre_state_hash (Payload.state included))) < 2 ^ 61)%N as Hl by decided.
  split; [exact Hl|].
  apply (@payload_bytes_round_trip payload_codec bit_codec_law legacy_codec legacy_codec_law
    authorizations_codec bit_codec_law legacy_codec_layout included Hl).
Defined.

(** Slashing one of two validators, and one unsigned deploy. *)
Definition slashing : Runtime.ExecutionRequest :=
  Runtime.mkRequest [] [d1; mkSigned (deploy d1) [] [] SignatureAlgorithm.Unspecified]
    [Runtime.SlashRequest [x0b] []; Runtime.CloseBlockRequest] [mkBond [x0a] 10; mkBond [x0b] 20] 1.

Lemma execution_accounts_for_everything_witness :
  let '(r, self') := Runtime.MockRuntime.execute_block Runtime.MockRuntime.new slashing in
  match r with
  | Ok executed => Runtime.new_bonds executed = [mkBond [x0a] 10] ∧
      (stakes (Runtime.new_bonds executed) + total_slashed (Runtime.MockRuntime.slashed self') = 30)%N
  | Err _ => False
  end.
Proof.
  pose proof (execution_accounts_for_everything Runtime.MockRuntime.new slashing) as H.
  assert (is_ok (Runtime.MockRuntime.execute_block Runtime.MockRuntime.new slashing).1 = true) as Hok
    by (vm_compute; reflexivity).
  destruct (Runtime.MockRuntime.execute_block Runtime.MockRuntime.new slashing) as [[executed|e] self'];
    [|discriminate Hok].
  destruct H as (_ & _ & _ & _ & Hb & Hs & _). split; [exact Hb|].
  rewrite Hs; [reflexivity|decided|decided].
Defined.
