(* ===== verification/PorTypes.v ===== *)
(** * Proof of reputation: data model and configuration

    [types.rs], [error.rs] and [config.rs] of cordial-por. *)

From stdpp Require Export strings.
From S2P Require Import Prelude Types.
From stdpp Require Import options.

(** ** Errors *)

Inductive PorError :=
  | InvalidConfiguration (message : string)
  | InvalidRatingRound
  | InvalidRatingSourceCheckpoint
  | RatingRoundOverflow
  | InvalidInteractionRound
  | InvalidInteractionStateRound
  | SelfInteraction
  | MissingInteractionReference
  | UnknownInteractionRater
  | UnknownInteractionRecipient
  | EjectedInteractionRater
  | EjectedInteractionRecipient
  | SelfRating
  | RatingBelowMinimum
  | RatingAboveMaximum
  | MissingRatingSignature
  | DuplicateRating
  | DuplicateMatrixEntry
  | InvalidNormalizationScale
  | NormalizationOverflow
  | InvalidLiquidRankScale
  | MissingRaterReputation
  | DuplicateReputationEntry
  | UnsortedReputationVector
  | LiquidRankOverflow
  | InvalidTransitionScale
  | InvalidLiquidRankAlpha
  | MissingPreviousReputation
  | ReputationTransitionOverflow
  | MissingContributionEntry
  | InvalidTransitionRound
  | InvalidClampScale
  | ClampOverflow
  | UnsupportedReputationBlockWireVersion (version : N)
  | ReputationBlockWireTooLarge
  | MalformedReputationBlockWire
  | ReputationBlockWireChecksumMismatch
  | UnsupportedReputationBlockVersion (version : N)
  | MissingReputationBlockShardId
  | ReputationBlockShardIdTooLong
  | InvalidReputationBlockSourceWave
  | InvalidReputationBlockSourceCheckpoint
  | InvalidReputationBlockRound
  | InvalidPreviousReputationBlockRound
  | PreviousReputationBlockShardMismatch
  | ReputationBlockShardMismatch
  | ReputationBlockSourceWaveMismatch
  | ReputationBlockSourceCheckpointMismatch
  | UnsupportedReputationBlockAuditVersion (version : N)
  | ReputationBlockPreviousHashMismatch
  | ReputationBlockConfigHashMismatch
  | ReputationBlockRatingsHashMismatch
  | ReputationBlockPenaltiesHashMismatch
  | ReputationBlockRootMismatch
  | ReputationExclusionMismatch
  | CommitmentLengthOverflow
  | UnsupportedReputationStateSnapshotVersion (version : N)
  | ReputationStateSnapshotTooLarge
  | MalformedReputationStateSnapshot
  | ReputationStateSnapshotChecksumMismatch
  | ReputationStateSnapshotRoundMismatch
  | ReputationStateSnapshotExclusionMismatch
  | ReputationStateSnapshotBlockRoundMismatch
  | ReputationStateSnapshotBlockVersionMismatch
  | ReputationStateSnapshotHasPendingRatings
  | MissingReputationBlockEntry
  | UnexpectedReputationBlockEntry
  | ReputationValueMismatch
  | EmptyAuthorizedValidatorSet
  | MissingAuthorizedValidatorReputation (node : NodeId)
  | ZeroAuthorizedValidatorWeight
  | AuthorizedValidatorWeightOverflow
  | UnknownNode
  | InvalidPenaltyEvents (message : string)
  | SlashOverflow
  | InactivityDecayOverflow.

(** ** Configuration *)

Inductive MissingEntryPolicy := Reject | CarryForward | Neutral.
#[export] Instance MissingEntryPolicy_eq_dec : EqDecision MissingEntryPolicy.
Proof. solve_decision. Defined.

Module PorConfig.

Record t := mk {
  scale : N;
  initial_reputation : N;
  liquid_rank_alpha : N;
  minimum_rating : N;
  maximum_rating : N;
  missing_entry_policy : MissingEntryPolicy;
  correlation_threshold : N;
  base_slash_penalty : N;
  inactivity_decay_gamma : N
}.

Definition DEFAULT_LIQUID_RANK_ALPHA_NUMERATOR : N := 3.
Definition DEFAULT_LIQUID_RANK_ALPHA_DENOMINATOR : N := 5.
Definition DEFAULT_SCALE : N := 1000000000.
Definition DEFAULT_INITIAL_REPUTATION : N := 200000000.
Definition DEFAULT_CORRELATION_THRESHOLD : N := 300000000.
Definition DEFAULT_BASE_SLASH_PENALTY : N := 250000000.
Definition DEFAULT_INACTIVITY_DECAY_GAMMA : N := 10000000.

Definition validate (self : t) : result unit PorError :=
  bail (InvalidConfiguration "scale must be positive") when scale self = 0%N;
  bail (InvalidConfiguration "alpha and initial reputation must not exceed scale")
    when (scale self < liquid_rank_alpha self)%N ∨ (scale self < initial_reputation self)%N;
  bail (InvalidConfiguration "minimum rating must not exceed maximum rating")
    when (maximum_rating self < minimum_rating self)%N;
  bail (InvalidConfiguration "penalty fractions must not exceed scale")
    when (scale self < correlation_threshold self)%N ∨ (scale self < base_slash_penalty self)%N ∨
         (scale self < inactivity_decay_gamma self)%N;
  Ok tt.

(** [(u128::from(scale) * u128::from(numerator) / u128::from(denominator)) as u64]. *)
Definition fraction (scale numerator denominator : N) : N :=
  (scale * numerator / denominator mod 2 ^ 64)%N.

Definition new (scale initial_reputation : N) : t :=
  {| scale := scale; initial_reputation := initial_reputation;
     liquid_rank_alpha := fraction scale DEFAULT_LIQUID_RANK_ALPHA_NUMERATOR
       DEFAULT_LIQUID_RANK_ALPHA_DENOMINATOR;
     minimum_rating := 0; maximum_rating := scale; missing_entry_policy := CarryForward;
     correlation_threshold := fraction scale DEFAULT_CORRELATION_THRESHOLD DEFAULT_SCALE;
     base_slash_penalty := fraction scale DEFAULT_BASE_SLASH_PENALTY DEFAULT_SCALE;
     inactivity_decay_gamma := fraction scale DEFAULT_INACTIVITY_DECAY_GAMMA DEFAULT_SCALE |}.

Definition default : t := new DEFAULT_SCALE DEFAULT_INITIAL_REPUTATION.

End PorConfig.

(** ** Ratings *)

Record RatingRecord := mkRating {
  rating_round : N;
  rater : NodeId;
  recipient : NodeId;
  score : N;
  rating_signature : list byte;
  interaction_ref : option (list byte)
}.
#[export] Instance RatingRecord_eq_dec : EqDecision RatingRecord.
Proof. solve_decision. Defined.

Definition new_rating (round : N) (rater recipient : NodeId) (score : N) (signature : list byte) :
    RatingRecord := mkRating round rater recipient score signature None.

(** [RatingBatch] and [RatingMatrix]. *)
Record RatingBatch := mkBatch {
  batch_round : N;
  batch_ratings : list RatingRecord
}.
Record RatingMatrix := mkMatrix {
  matrix_round : N;
  matrix_ratings : list RatingRecord
}.

Record NormalizedRatingEntry := mkNormalized {
  n_rater : NodeId;
  n_recipient : NodeId;
  n_score : N;
  normalized_score : N
}.
Record NormalizedRatingMatrix := mkNormalizedMatrix {
  normalized_round : N;
  normalized_ratings : list NormalizedRatingEntry
}.

(** ** Reputation *)

Module ReputationEntry.

Record t := mk {
  node_id : NodeId;
  reputation : N;
  retained_reputation : N;
  is_excluded : bool
}.

Definition new (node_id : NodeId) (reputation : N) : t := mk node_id reputation 0 false.
Definition ejected (node_id : NodeId) : t := mk node_id 0 0 true.

End ReputationEntry.

#[export] Instance ReputationEntry_eq_dec : EqDecision ReputationEntry.t.
Proof. solve_decision. Defined.

Record ReputationVector := mkVector {
  vector_round : N;
  values : list ReputationEntry.t
}.
Record ReputationList := mkList {
  list_round : N;
  entries : list ReputationEntry.t
}.
#[export] Instance ReputationList_eq_dec : EqDecision ReputationList.
Proof. solve_decision. Defined.

(** ** Sorted entries

    [binary_search_by(|entry| entry.node_id.cmp(id))] on a slice sorted by node
    id: the index of the entry, or where it would be inserted. *)

Definition partition_point {A} (p : A → bool) (l : list A) : nat :=
  match list_find (λ x, p x = false) l with Some e => e.1 | None => length l end.

Definition binary_search (l : list ReputationEntry.t) (id : NodeId) : result nat nat :=
  match list_find (λ e, ReputationEntry.node_id e = id) l with
  | Some e => Ok e.1
  | None => Err (partition_point (λ e, bool_decide (ord_lt (ReputationEntry.node_id e) id)) l)
  end.

Definition find_entry (l : list ReputationEntry.t) (id : NodeId) : option ReputationEntry.t :=
  match binary_search l id with Ok i => l !! i | Err _ => None end.

(** [slice::windows(2)] with a check that returns at the first failing pair. *)
Fixpoint windows2 {A E} (check : A → A → result unit E) (l : list A) : result unit E :=
  match l with
  | x :: ((y :: _) as rest) => let? _ := check x y in windows2 check rest
  | _ => Ok tt
  end.

(** [slice::chunk_by]: maximal runs of neighbours that agree. *)
Fixpoint chunk_by {A} (same : A → A → bool) (l : list A) : list (list A) :=
  match l with
  | [] => []
  | x :: l =>
    match chunk_by same l with
    | (y :: g) :: gs => if same x y then (x :: y :: g) :: gs else [x] :: (y :: g) :: gs
    | gs => [x] :: gs
    end
  end.
