(* ===== verification/PorMath.v ===== *)
(** * Proof of reputation: the calculation pipeline

    [ratings.rs] (batching), [matrix.rs], [normalization.rs],
    [liquid_rank.rs], [transition.rs] (the blend), [clamp.rs] and
    [penalties.rs]: fixed-point arithmetic on [u64] values with [u128]
    intermediates. *)

From S2P Require Import Prelude Types PorTypes.
From stdpp Require Import options.

(** ** [ratings.rs]: validation and batching *)

Module Ratings.

Definition rating_round_from_finalized_wave (wave : N) : result N PorError :=
  ok_or (checked_add u64_max wave 1) RatingRoundOverflow.

Definition validate_rating (rating : RatingRecord) (config : PorConfig.t) : result unit PorError :=
  bail SelfRating when rater rating = recipient rating;
  bail RatingBelowMinimum when (score rating < PorConfig.minimum_rating config)%N;
  bail RatingAboveMaximum when (PorConfig.maximum_rating config < score rating)%N;
  bail MissingRatingSignature when rating_signature rating = [];
  Ok tt.

Definition rating_key (r : RatingRecord) : NodeId * NodeId := (recipient r, rater r).

(** The neighbours of a sorted batch must differ. *)
Definition reject_duplicates (e : PorError) (ratings : list RatingRecord) : result unit PorError :=
  windows2 (λ previous current,
    bail e when recipient previous = recipient current ∧ rater previous = rater current;
    Ok tt) ratings.

Definition build_rating_batch (round : N) (ratings : list RatingRecord) (config : PorConfig.t) :
    result RatingBatch PorError :=
  let? validated := try_map (λ rating,
    bail InvalidRatingRound when rating_round rating ≠ round;
    let? _ := validate_rating rating config in Ok rating) ratings in
  let validated := sort_by_key rating_key validated in
  let? _ := reject_duplicates DuplicateRating validated in
  Ok (mkBatch round validated).

End Ratings.

(** ** [matrix.rs] *)

Definition build_rating_matrix (batch : RatingBatch) : result RatingMatrix PorError :=
  let? _ := try_map (λ rating,
    bail InvalidRatingRound when rating_round rating ≠ batch_round batch; Ok tt)
    (batch_ratings batch) in
  let ordered := sort_by_key Ratings.rating_key (batch_ratings batch) in
  let? _ := Ratings.reject_duplicates DuplicateMatrixEntry ordered in
  Ok (mkMatrix (batch_round batch) ordered).

(** ** [normalization.rs] *)

Module Normalization.

(** [numerator_base * scale / denominator], the product in [u128], truncated
    to [u64]. *)
Definition normalize_score (score_delta scale denominator : N) : N :=
  let numerator_base := (score_delta + scale)%N in
  let numerator := (numerator_base * scale mod 2 ^ 128)%N in
  (numerator / denominator mod 2 ^ 64)%N.

Definition min_max (group : list RatingRecord) : N * N :=
  match group with
  | [] => (0, 0)%N
  | first :: rest =>
    foldl (λ acc rating, (N.min acc.1 (score rating), N.max acc.2 (score rating)))
      (score first, score first) rest
  end.

Definition normalize_recipient_group (group : list RatingRecord) (scale : N) :
    result (list NormalizedRatingEntry) PorError :=
  let '(min, max) := min_max group in
  let range := (max - min)%N in
  let denominator := (range + scale)%N in
  bail NormalizationOverflow when (u128_max / scale < denominator)%N;
  Ok (map (λ rating,
    mkNormalized (rater rating) (recipient rating) (score rating)
      (normalize_score (score rating - min) scale denominator)) group).

Definition normalize_rating_matrix (matrix : RatingMatrix) (config : PorConfig.t) :
    result NormalizedRatingMatrix PorError :=
  bail InvalidNormalizationScale when PorConfig.scale config = 0%N;
  let? groups := try_map (λ group, normalize_recipient_group group (PorConfig.scale config))
    (chunk_by (λ l r, bool_decide (recipient l = recipient r)) (matrix_ratings matrix)) in
  Ok (mkNormalizedMatrix (matrix_round matrix) (mjoin groups)).

End Normalization.

(** ** [liquid_rank.rs] *)

Module LiquidRank.

(** The order check shared with [transition.rs] and [commitments.rs]. *)
Definition validate_reputation_order (l : list ReputationEntry.t) : result unit PorError :=
  windows2 (λ a b,
    match cmp (ReputationEntry.node_id a) (ReputationEntry.node_id b) with
    | Lt => Ok tt
    | Eq => Err DuplicateReputationEntry
    | Gt => Err UnsortedReputationVector
    end) l.

Definition reputation_of (previous : ReputationVector) (id : NodeId) : result N PorError :=
  ok_or (ReputationEntry.reputation <$> find_entry (values previous) id) MissingRaterReputation.

Definition push_recipient_contribution (previous : ReputationVector) (scale : N)
    (group : list NormalizedRatingEntry) : result (list ReputationEntry.t) PorError :=
  match group with
  | [] => Ok []
  | first :: _ =>
    let? weighted_score_sum := try_fold (λ sum rating,
      let? rater_reputation := reputation_of previous (n_rater rating) in
      ok_or (checked_add u128_max sum (normalized_score rating * rater_reputation))
        LiquidRankOverflow) 0%N group in
    let contribution_sum := (weighted_score_sum / scale)%N in
    bail LiquidRankOverflow when (u64_max < contribution_sum)%N;
    Ok [ReputationEntry.new (n_recipient first) contribution_sum]
  end.

Definition compute_liquid_rank_contribution (matrix : NormalizedRatingMatrix)
    (previous : ReputationVector) (config : PorConfig.t) : result ReputationVector PorError :=
  bail InvalidLiquidRankScale when PorConfig.scale config = 0%N;
  let? _ := validate_reputation_order (values previous) in
  let? groups := try_map (push_recipient_contribution previous (PorConfig.scale config))
    (chunk_by (λ l r, bool_decide (n_recipient l = n_recipient r)) (normalized_ratings matrix)) in
  Ok (mkVector (normalized_round matrix) (mjoin groups)).

End LiquidRank.

(** ** [transition.rs]: the alpha blend *)

Module Transition.

Definition contribution_for_unrated_node (previous : N) (config : PorConfig.t) :
    result N PorError :=
  match PorConfig.missing_entry_policy config with
  | Reject => Err MissingContributionEntry
  | CarryForward => Ok previous
  | Neutral => Ok (PorConfig.initial_reputation config)
  end.

Definition previous_for_new_node (config : PorConfig.t) : result N PorError :=
  match PorConfig.missing_entry_policy config with
  | Reject => Err MissingPreviousReputation
  | CarryForward | Neutral => Ok (PorConfig.initial_reputation config)
  end.

Definition blend_reputation (contribution previous : N) (config : PorConfig.t) :
    result N PorError :=
  let alpha := PorConfig.liquid_rank_alpha config in
  let previous_weight := (PorConfig.scale config - PorConfig.liquid_rank_alpha config)%N in
  let? contribution_term :=
    ok_or (checked_mul u128_max alpha contribution) ReputationTransitionOverflow in
  let? previous_term :=
    ok_or (checked_mul u128_max previous_weight previous) ReputationTransitionOverflow in
  let? sum :=
    ok_or (checked_add u128_max contribution_term previous_term) ReputationTransitionOverflow in
  let blended := (sum / PorConfig.scale config)%N in
  bail ReputationTransitionOverflow when (u64_max < blended)%N;
  Ok blended.

(** One iteration of the merge loop, from the resolved inputs, followed by the
    rest of the loop. *)
Definition push_blended (config : PorConfig.t) (node_id : NodeId)
    (contribution_value previous_value : result N PorError)
    (rest : result (list ReputationEntry.t) PorError) : result (list ReputationEntry.t) PorError :=
  let? contribution_value := contribution_value in
  let? previous_value := previous_value in
  let? reputation := blend_reputation contribution_value previous_value config in
  let? entries := rest in
  Ok (ReputationEntry.new node_id reputation :: entries).

Definition contribution_alone (config : PorConfig.t) (e : ReputationEntry.t) :=
  push_blended config (ReputationEntry.node_id e) (Ok (ReputationEntry.reputation e))
    (previous_for_new_node config).
Definition previous_alone (config : PorConfig.t) (p : ReputationEntry.t) :=
  push_blended config (ReputationEntry.node_id p)
    (contribution_for_unrated_node (ReputationEntry.reputation p) config)
    (Ok (ReputationEntry.reputation p)).
Definition in_both (config : PorConfig.t) (e p : ReputationEntry.t) :=
  push_blended config (ReputationEntry.node_id e) (Ok (ReputationEntry.reputation e))
    (Ok (ReputationEntry.reputation p)).

(** The merge loop over both vectors, each cursor written as what it has left. *)
Fixpoint blend_entries (config : PorConfig.t) (contributions : list ReputationEntry.t) :
    list ReputationEntry.t → result (list ReputationEntry.t) PorError :=
  fix go (previous : list ReputationEntry.t) : result (list ReputationEntry.t) PorError :=
    match contributions, previous with
    | e :: contributions', p :: previous' =>
      match cmp (ReputationEntry.node_id e) (ReputationEntry.node_id p) with
      | Eq => in_both config e p (blend_entries config contributions' previous')
      | Lt => contribution_alone config e (blend_entries config contributions' previous)
      | Gt => previous_alone config p (go previous')
      end
    | e :: contributions', [] =>
      contribution_alone config e (blend_entries config contributions' previous)
    | [], p :: previous' => previous_alone config p (go previous')
    | [], [] => Ok []
    end.

Definition blend_reputation_transition (contribution previous : ReputationVector)
    (config : PorConfig.t) : result ReputationVector PorError :=
  bail InvalidTransitionScale when PorConfig.scale config = 0%N;
  bail InvalidLiquidRankAlpha when (PorConfig.scale config < PorConfig.liquid_rank_alpha config)%N;
  let? _ := PorConfig.validate config in
  bail InvalidTransitionRound
    when checked_add u64_max (vector_round previous) 1 ≠ Some (vector_round contribution);
  let? _ := LiquidRank.validate_reputation_order (values contribution) in
  let? _ := LiquidRank.validate_reputation_order (values previous) in
  let? entries := blend_entries config (values contribution) (values previous) in
  Ok (mkVector (vector_round contribution) entries).

End Transition.

(** ** [clamp.rs] *)

Module Clamp.

(** The binary search: [Ok mid] for a perfect square, [Err low] when the bounds
    meet; [None] when the fuel is used up. *)
Fixpoint sqrt_search (fuel : nat) (n low high : N) : option (result N N) :=
  if decide (low + 1 < high)%N then
    match fuel with
    | O => None
    | S fuel =>
      let mid := ((low + high) / 2)%N in
      match checked_mul u128_max mid mid with
      | Some mid_sq =>
        if decide (mid_sq = n) then Some (Ok mid)
        else if decide (mid_sq < n)%N then sqrt_search fuel n mid high
        else sqrt_search fuel n low mid
      | None => sqrt_search fuel n low mid
      end
    end
  else Some (Err low).

(** [low += 1] while the next square is at most [n]. *)
Fixpoint adjust_up (fuel : nat) (n low : N) : option N :=
  match checked_mul u128_max (low + 1) (low + 1) with
  | Some sq =>
    if decide (sq <= n)%N then
      match fuel with O => None | S fuel => adjust_up fuel n (low + 1) end
    else Some low
  | None => Some low
  end.

(** [low -= 1] while the square exceeds [n]. *)
Fixpoint adjust_down (fuel : nat) (n low : N) : option N :=
  match checked_mul u128_max low low with
  | Some sq =>
    if decide (n < sq)%N then
      match fuel with O => None | S fuel => adjust_down fuel n (low - 1) end
    else Some low
  | None => match fuel with O => None | S fuel => adjust_down fuel n (low - 1) end
  end.

(** The search interval [2^64] is halved at each step, so 64 steps suffice, and
    the adjustments never loop: [integer_sqrt_total]. *)
Definition sqrt_fuel : nat := 64.

Definition integer_sqrt_u128_opt (n : N) : option N :=
  r ← sqrt_search sqrt_fuel n 0 (2 ^ 64);
  match r with
  | Ok mid => Some mid
  | Err low => low ← adjust_up sqrt_fuel n low; adjust_down sqrt_fuel n low
  end.

Definition integer_sqrt_u128 (n : N) : N := default 0%N (integer_sqrt_u128_opt n).

Definition clamp_reputation_value (value scale : N) : result N PorError :=
  bail InvalidClampScale when scale = 0%N;
  if decide (value = 0%N) then Ok 0%N
  else
    let? s2 := ok_or (checked_mul u128_max scale scale) ClampOverflow in
    let? r2 := ok_or (checked_mul u128_max value value) ClampOverflow in
    let? sum := ok_or (checked_add u128_max s2 r2) ClampOverflow in
    let denom := integer_sqrt_u128 sum in
    bail ClampOverflow when denom = 0%N;
    let? numerator := ok_or (checked_mul u128_max value scale) ClampOverflow in
    let half := (denom / 2)%N in
    let? numerator_rounded := ok_or (checked_add u128_max numerator half) ClampOverflow in
    let result := (numerator_rounded / denom)%N in
    Ok (if decide (u64_max < result)%N then u64_max else result).

Definition clamp_reputation_vector (reputation : ReputationVector) (config : PorConfig.t) :
    result ReputationVector PorError :=
  let scale := PorConfig.scale config in
  bail InvalidClampScale when scale = 0%N;
  let? clamped := try_map (λ entry,
    let? clamped := clamp_reputation_value (ReputationEntry.reputation entry) scale in
    Ok (ReputationEntry.new (ReputationEntry.node_id entry) clamped)) (values reputation) in
  Ok (mkVector (vector_round reputation) clamped).

(** A cursor is what is left of its vector. *)
Fixpoint advance_to (left : list ReputationEntry.t) (target : ReputationEntry.t) :
    list ReputationEntry.t :=
  match left with
  | e :: rest =>
    if decide (ord_lt (ReputationEntry.node_id e) (ReputationEntry.node_id target))
    then advance_to rest target else left
  | [] => []
  end.

(** [has_node_at], with the entry it found. *)
Definition node_at (left : list ReputationEntry.t) (target : ReputationEntry.t) :
    option ReputationEntry.t :=
  match left with
  | e :: _ => if decide (ReputationEntry.node_id e = ReputationEntry.node_id target) then Some e else None
  | [] => None
  end.

Fixpoint clamp_entries (scale : N) (blended previous contribution : list ReputationEntry.t) :
    result (list ReputationEntry.t) PorError :=
  match blended with
  | [] => Ok []
  | entry :: blended =>
    let previous := advance_to previous entry in
    let contribution := advance_to contribution entry in
    let? reputation :=
      match node_at previous entry, node_at contribution entry with
      | Some p, None => Ok (ReputationEntry.reputation p)
      | _, _ => clamp_reputation_value (ReputationEntry.reputation entry) scale
      end in
    let? rest := clamp_entries scale blended previous contribution in
    Ok (ReputationEntry.new (ReputationEntry.node_id entry) reputation :: rest)
  end.

Definition clamp_reputation_transition (blended previous contribution : ReputationVector)
    (config : PorConfig.t) : result ReputationVector PorError :=
  if decide (PorConfig.missing_entry_policy config ≠ CarryForward)
  then clamp_reputation_vector blended config
  else
    bail InvalidClampScale when PorConfig.scale config = 0%N;
    let? entries := clamp_entries (PorConfig.scale config) (values blended) (values previous)
      (values contribution) in
    Ok (mkVector (vector_round blended) entries).

End Clamp.

(** ** [penalties.rs] *)

Module Penalties.

Definition compute_slash_penalty_wide (equivocating_weight total_weight : N)
    (config : PorConfig.t) : result N PorError :=
  let? _ := PorConfig.validate config in
  bail (InvalidConfiguration
    "slash weights must satisfy equivocating weight <= total weight and total weight > 0")
    when total_weight = 0%N ∨ (total_weight < equivocating_weight)%N;
  let? equivocating :=
    ok_or (checked_mul u128_max equivocating_weight (PorConfig.scale config)) SlashOverflow in
  let? threshold :=
    ok_or (checked_mul u128_max total_weight (PorConfig.correlation_threshold config))
      SlashOverflow in
  Ok (if decide (equivocating <= threshold)%N then PorConfig.base_slash_penalty config
      else PorConfig.scale config).

Definition compute_slash_penalty (equivocating_weight total_weight : N) (config : PorConfig.t) :
    result N PorError :=
  compute_slash_penalty_wide equivocating_weight total_weight config.

(** [weight * (scale - ratio) / scale], the arithmetic of both penalties. *)
Definition survive (weight ratio : N) (config : PorConfig.t) (message : string)
    (overflow : PorError) : result N PorError :=
  let? _ := PorConfig.validate config in
  let? survival :=
    ok_or (checked_sub (PorConfig.scale config) ratio) (InvalidConfiguration message) in
  let? product := ok_or (checked_mul u128_max weight survival) overflow in
  let value := (product / PorConfig.scale config)%N in
  bail overflow when (u64_max < value)%N;
  Ok value.

Definition apply_slash_to_reputation (weight penalty_ratio : N) (config : PorConfig.t) :
    result N PorError :=
  survive weight penalty_ratio config "slash penalty must not exceed scale" SlashOverflow.

Definition compute_inactivity_decay (weight gamma : N) (config : PorConfig.t) :
    result N PorError :=
  survive weight gamma config "inactivity gamma must not exceed scale" InactivityDecayOverflow.

Definition apply_inactivity_decay (weight : N) (config : PorConfig.t) : result N PorError :=
  compute_inactivity_decay weight (PorConfig.inactivity_decay_gamma config) config.

End Penalties.
