(* ===== verification/PorMathFacts.v ===== *)
(** * Facts about the reputation calculation *)

From S2P Require Import Prelude Types PorTypes PorMath.
From stdpp Require Import options.

(** ** Sorted entries *)

Definition entry_lt (a b : ReputationEntry.t) : Prop :=
  ord_lt (ReputationEntry.node_id a) (ReputationEntry.node_id b).
Abbreviation sorted_entries := (StronglySorted entry_lt).

#[export] Instance entry_lt_trans : Transitive entry_lt.
Proof. intros a b c. unfold entry_lt. apply (transitivity (R := ord_lt)). Qed.

Lemma windows2_Ok {A E} (check : A → A → result unit E) (R : relation A) l :
  Transitive R → (∀ x y, check x y = Ok tt ↔ R x y) →
  windows2 check l = Ok tt ↔ StronglySorted R l.
Proof.
  intros HR Hc. transitivity (Sorted R l);
    [|by split; [apply Sorted_StronglySorted|apply StronglySorted_Sorted]].
  induction l as [|x [|y l] IH].
  - split; [constructor|done].
  - split; [repeat constructor|done].
  - cbn [windows2] in *. rewrite result_bind_Ok. split.
    + intros ([] & Hxy & Hl). constructor; [by apply IH|]. constructor. by apply Hc.
    + intros Hs. inversion Hs as [|? ? Hs' Hhd]; subst. inversion Hhd; subst.
      exists tt. split; [by apply Hc|by apply IH].
Qed.

Lemma validate_order_sorted l :
  LiquidRank.validate_reputation_order l = Ok tt ↔ sorted_entries l.
Proof.
  apply windows2_Ok; [apply _|]. intros x y. unfold entry_lt, ord_lt.
  destruct (cmp _ _); naive_solver.
Qed.

Lemma find_entry_list_find l id :
  find_entry l id = snd <$> list_find (λ e, ReputationEntry.node_id e = id) l.
Proof.
  unfold find_entry, binary_search. destruct (list_find _ l) as [[i e]|] eqn:E; simpl; [|done].
  by apply list_find_Some in E as (-> & _).
Qed.

Lemma find_entry_None l id :
  find_entry l id = None ↔ ∀ e, e ∈ l → ReputationEntry.node_id e ≠ id.
Proof.
  rewrite find_entry_list_find, fmap_None, list_find_None, Forall_forall. done.
Qed.
Lemma find_entry_elem l id e : find_entry l id = Some e → e ∈ l ∧ ReputationEntry.node_id e = id.
Proof.
  rewrite find_entry_list_find. destruct (list_find _ l) as [[i e']|] eqn:E; simpl; [|done].
  intros [= ->]. apply list_find_Some in E as (? & ? & _). eauto using list_elem_of_lookup_2.
Qed.

Lemma find_entry_cons e l id :
  find_entry (e :: l) id = if decide (ReputationEntry.node_id e = id) then Some e else find_entry l id.
Proof.
  rewrite !find_entry_list_find. simpl. case_decide; [done|].
  by destruct (list_find _ l) as [[]|].
Qed.
Lemma find_entry_nil id : find_entry [] id = None.
Proof. done. Qed.

Lemma sorted_cons e l : sorted_entries (e :: l) ↔ sorted_entries l ∧ ∀ x, x ∈ l → entry_lt e x.
Proof.
  split; [intros Hs; inversion Hs as [|? ? ? Hf]; subst; by rewrite Forall_forall in Hf|].
  intros [? ?]. constructor; [done|]. by apply Forall_forall.
Qed.

Lemma find_entry_sorted l e :
  sorted_entries l → e ∈ l → find_entry l (ReputationEntry.node_id e) = Some e.
Proof.
  induction l as [|x l IH]; [by intros _ ?%elem_of_nil|].
  rewrite sorted_cons, find_entry_cons. intros [Hs Hx] [->|He]%elem_of_cons; [by rewrite decide_True|].
  rewrite decide_False; [by apply IH|]. intros E. specialize (Hx e He). unfold entry_lt in Hx.
  rewrite E in Hx. by apply ord_lt_irrefl in Hx.
Qed.

(** A node below the head of a sorted list is not in it. *)
Lemma find_entry_below l e id :
  sorted_entries (e :: l) → ord_lt id (ReputationEntry.node_id e) → find_entry (e :: l) id = None.
Proof.
  rewrite sorted_cons. intros [_ Hx] Hlt. apply find_entry_None.
  intros y [->|Hy]%elem_of_cons <-; [by apply ord_lt_irrefl in Hlt|].
  apply (ord_lt_irrefl (ReputationEntry.node_id e)). by trans (ReputationEntry.node_id y); [apply Hx|].
Qed.

Lemma sorted_entries_eq l k :
  sorted_entries l → sorted_entries k → (∀ id, find_entry l id = find_entry k id) → l = k.
Proof.
  revert k. induction l as [|x l IH]; intros [|y k] Hl Hk E; [done|..].
  - specialize (E (ReputationEntry.node_id y)). rewrite find_entry_cons, decide_True in E by done. done.
  - specialize (E (ReputationEntry.node_id x)). rewrite find_entry_cons, decide_True in E by done. done.
  - assert (x = y) as <-.
    { destruct (ord_trichotomy (ReputationEntry.node_id x) (ReputationEntry.node_id y)) as [H|[H|H]].
      - pose proof (E (ReputationEntry.node_id x)) as Ex.
        rewrite (find_entry_below k y) in Ex by done.
        rewrite find_entry_cons, decide_True in Ex by done. done.
      - pose proof (E (ReputationEntry.node_id x)) as Ex.
        rewrite !find_entry_cons, !decide_True in Ex by done. congruence.
      - pose proof (E (ReputationEntry.node_id y)) as Ey.
        rewrite (find_entry_below l x) in Ey by done.
        rewrite find_entry_cons, decide_True in Ey by done. done. }
    f_equal. pose proof Hl as [Hl' Hx]%sorted_cons. pose proof Hk as [Hk' Hy]%sorted_cons.
    apply IH; [done..|]. intros id. specialize (E id). rewrite !find_entry_cons in E.
    case_decide as Hid; [|done]. subst id.
    transitivity (@None ReputationEntry.t); [|symmetry]; apply find_entry_None; intros z Hz Ez.
    + apply (ord_lt_irrefl (ReputationEntry.node_id x)). rewrite <-Ez at 2. by apply Hx.
    + apply (ord_lt_irrefl (ReputationEntry.node_id x)). rewrite <-Ez at 2. by apply Hy.
Qed.

(** ** The integer square root *)

Section sqrt.
Local Open Scope N_scope.
Import Clamp.

Lemma sqrt_search_spec k fuel n low high :
  (k <= fuel)%nat → high = low + 2 ^ N.of_nat k → high <= 2 ^ 64 → n <= u128_max →
  low * low <= n → n < high * high →
  ∃ r, sqrt_search fuel n low high = Some r ∧
    match r with
    | Ok m => m * m = n
    | Err m => m * m <= n ∧ n < (m + 1) * (m + 1) ∧ m < 2 ^ 64
    end.
Proof.
  revert fuel low high. induction k as [|k IH]; intros fuel low high Hk Hh Hmax Hn Hlow Hhigh.
  - change (2 ^ N.of_nat 0) with 1 in Hh. exists (Err low). subst high. split; [|lia].
    destruct fuel; simpl; by rewrite decide_False by lia.
  - destruct fuel as [|fuel]; [lia|]. simpl.
    rewrite Nat2N.inj_succ, N.pow_succ_r' in Hh.
    assert (2 ^ N.of_nat k ≠ 0) by (apply N.pow_nonzero; done).
    rewrite decide_True by lia.
    assert ((low + high) / 2 = low + 2 ^ N.of_nat k) as Hmid.
    { subst high. symmetry. apply (N.div_unique _ _ _ 0); lia. }
    rewrite Hmid. set (mid := low + 2 ^ N.of_nat k) in *.
    assert (mid < 2 ^ 64) by (unfold mid; lia).
    assert (mid * mid <= u128_max).
    { change u128_max with ((2 ^ 64 - 1) * (2 ^ 64 + 1)). apply N.mul_le_mono; lia. }
    rewrite checked_mul_fits by done.
    destruct (decide (mid * mid = n)) as [E|E]; [by exists (Ok mid)|].
    destruct (decide (mid * mid < n)) as [Hlt|Hge]; apply IH; unfold mid in *; try lia.
Qed.

Lemma adjust_up_stop fuel n low : n < (low + 1) * (low + 1) → adjust_up fuel n low = Some low.
Proof.
  intros Hn. destruct fuel; simpl; (destruct (checked_mul _ _ _) as [sq|] eqn:E; [|done];
    apply checked_mul_Some in E as [-> _]; by rewrite decide_False by lia).
Qed.
Lemma adjust_down_stop fuel n low :
  low * low <= n → n <= u128_max → adjust_down fuel n low = Some low.
Proof.
  intros Hl Hn. destruct fuel; simpl;
    (rewrite checked_mul_fits by lia;
     by rewrite decide_False by lia).
Qed.

Lemma integer_sqrt_total n : n <= u128_max → integer_sqrt_u128_opt n = Some (N.sqrt n).
Proof.
  intros Hn. unfold integer_sqrt_u128_opt.
  destruct (sqrt_search_spec 64 sqrt_fuel n 0 (2 ^ 64)) as (r & -> & Hr);
    [done|done|done|done|lia|change (2 ^ 64 * 2 ^ 64) with (u128_max + 1); lia|]. cbn [mbind option_bind].
  destruct r as [m|m].
  - f_equal. symmetry. apply N.sqrt_unique. lia.
  - destruct Hr as (H1 & H2 & H3). rewrite adjust_up_stop by done. cbn [mbind option_bind].
    rewrite adjust_down_stop by done. f_equal. symmetry. apply N.sqrt_unique.
    rewrite <-N.add_1_r. lia.
Qed.

Lemma integer_sqrt_spec n : n <= u128_max → integer_sqrt_u128 n = N.sqrt n.
Proof. intros Hn. unfold integer_sqrt_u128. by rewrite integer_sqrt_total. Qed.

(** ** The clamp *)

Definition clamp_denom value scale := N.sqrt (scale * scale + value * value).
Definition clamp_value value scale : N :=
  (value * scale + clamp_denom value scale / 2) / clamp_denom value scale.

Lemma clamp_denom_ge value scale :
  value <= clamp_denom value scale ∧ scale <= clamp_denom value scale.
Proof.
  unfold clamp_denom. split; apply N.sqrt_le_square; lia.
Qed.

Lemma clamp_value_bounds value scale :
  0 < scale →
  let d := clamp_denom value scale in
  clamp_value value scale <= value ∧ clamp_value value scale <= scale ∧
  clamp_value value scale * d <= value * scale + d / 2 ∧
  value * scale + d / 2 < (clamp_value value scale + 1) * d.
Proof.
  intros Hs d. destruct (clamp_denom_ge value scale) as [Hv Hsc]. unfold clamp_value.
  fold d. fold d in Hv, Hsc. clearbody d.
  assert (d / 2 < d) as Hhalf by (apply N.div_lt; lia). revert Hhalf.
  generalize (d / 2). intros h Hh.
  pose proof (N.div_mod (value * scale + h) d ltac:(lia)) as Hdm. revert Hdm.
  pose proof (N.mod_upper_bound (value * scale + h) d ltac:(lia)) as Hm. revert Hm.
  generalize ((value * scale + h) mod d), ((value * scale + h) / d). intros r c Hm Hdm.
  split_and!; nia.
Qed.

Lemma two_products x y : 2 * (x * y) <= y * y + x * x.
Proof.
  destruct (N.le_ge_cases x y) as [H|H]; apply N.le_exists_sub in H as (k & -> & _); nia.
Qed.

Lemma clamp_spec value scale :
  value <= u64_max → scale <= u64_max →
  clamp_reputation_value value scale =
  if decide (scale = 0) then Err InvalidClampScale
  else if decide (value = 0) then Ok 0
  else if decide (u128_max < scale * scale + value * value) then Err ClampOverflow
  else Ok (clamp_value value scale).
Proof.
  intros Hv Hs. unfold clamp_reputation_value.
  case_decide as H0; [done|]. case_decide as H1; [done|].
  assert (∀ x y, x <= u64_max → y <= u64_max → x * y <= u128_max) as Hsq.
  { intros x y Hx Hy. transitivity (u64_max * u64_max); [by apply N.mul_le_mono|done]. }
  rewrite !checked_mul_fits by auto.
  cbn [ok_or result_bind]. case_decide as Ho.
  { rewrite (proj2 (checked_add_None u128_max (scale * scale) (value * value))) by done. done. }
  rewrite checked_add_fits by lia.
  cbn [ok_or result_bind]. rewrite integer_sqrt_spec by lia. fold (clamp_denom value scale).
  destruct (clamp_denom_ge value scale) as [Hdv Hds].
  rewrite decide_False by lia.
  assert (value * scale + clamp_denom value scale <= u128_max).
  { assert (clamp_denom value scale * clamp_denom value scale <= scale * scale + value * value)
      by apply N.sqrt_spec, N.le_0_l.
    assert (clamp_denom value scale < 2 ^ 65).
    { apply N.square_lt_simpl_nonneg; [lia|]. change (2 ^ 65 * 2 ^ 65) with (4 * (u128_max + 1)). lia. }
    assert (2 * (value * scale) <= scale * scale + value * value) by apply two_products.
    assert (u128_max = 340282366920938463463374607431768211455) as Hm by done.
    change (2 ^ 65) with 36893488147419103232 in *. lia. }
  rewrite checked_add_fits.
  2:{ pose proof (N.div_le_upper_bound (clamp_denom value scale) 2
        (clamp_denom value scale) ltac:(lia) ltac:(lia)). lia. }
  cbn [ok_or result_bind]. fold (clamp_value value scale).
  destruct (clamp_value_bounds value scale ltac:(lia)) as [Hb _].
  by rewrite decide_False by lia.
Qed.
End sqrt.

(** ** The blend *)

Record valid_config (config : PorConfig.t) : Prop := {
  valid_scale : PorConfig.scale config ≠ 0%N;
  valid_alpha : (PorConfig.liquid_rank_alpha config <= PorConfig.scale config)%N;
  valid_initial : (PorConfig.initial_reputation config <= PorConfig.scale config)%N;
  valid_ratings : (PorConfig.minimum_rating config <= PorConfig.maximum_rating config)%N;
  valid_threshold : (PorConfig.correlation_threshold config <= PorConfig.scale config)%N;
  valid_base : (PorConfig.base_slash_penalty config <= PorConfig.scale config)%N;
  valid_gamma : (PorConfig.inactivity_decay_gamma config <= PorConfig.scale config)%N
}.

Lemma validate_valid config : PorConfig.validate config = Ok tt ↔ valid_config config.
Proof.
  unfold PorConfig.validate. split.
  - intros E. repeat (case_decide; [done|]). split; try done; lia.
  - intros []. repeat (rewrite decide_False by (intros; lia || (intros [?|?]; lia) ||
      (intros [?|[?|?]]; lia) || done)). done.
Qed.

Definition fits_u64 (x : N) : Prop := (x <= u64_max)%N.

(** The blended value of both inputs. *)
Definition mix (config : PorConfig.t) (c p : N) : N :=
  ((PorConfig.liquid_rank_alpha config * c +
    (PorConfig.scale config - PorConfig.liquid_rank_alpha config) * p) / PorConfig.scale config)%N.

Lemma mix_between config c p :
  valid_config config → (N.min c p <= mix config c p <= N.max c p)%N.
Proof.
  intros [Hs Ha _ _ _ _ _]. unfold mix. revert Hs Ha.
  generalize (PorConfig.scale config), (PorConfig.liquid_rank_alpha config). intros s a Hs Ha.
  split.
  - apply N.div_le_lower_bound; [done|].
    assert (s * N.min c p = a * N.min c p + (s - a) * N.min c p)%N as -> by nia.
    apply N.add_le_mono; apply N.mul_le_mono_l; lia.
  - apply N.div_le_upper_bound; [done|].
    assert (s * N.max c p = a * N.max c p + (s - a) * N.max c p)%N as -> by nia.
    apply N.add_le_mono; apply N.mul_le_mono_l; lia.
Qed.

Lemma mix_same config p : valid_config config → mix config p p = p.
Proof. intros Hv. pose proof (mix_between config p p Hv). lia. Qed.

Lemma blend_reputation_Ok config c p :
  valid_config config → fits_u64 (PorConfig.scale config) → fits_u64 c → fits_u64 p →
  Transition.blend_reputation c p config = Ok (mix config c p).
Proof.
  intros Hv Hs Hc Hp. pose proof (mix_between config c p Hv) as Hm.
  destruct Hv as [Hs0 Ha _ _ _ _ _]. unfold Transition.blend_reputation. unfold fits_u64 in *.
  assert (∀ x y, x <= u64_max → y <= u64_max → x * y <= u64_max * u64_max)%N as Hsq
    by (intros; by apply N.mul_le_mono).
  assert (u64_max * u64_max <= u128_max)%N as Hu by done.
  rewrite (checked_mul_fits u128_max (PorConfig.liquid_rank_alpha config))
    by (etransitivity; [apply Hsq|done]; lia).
  rewrite checked_mul_fits by (etransitivity; [apply Hsq|done]; lia). cbn [ok_or result_bind].
  rewrite checked_add_fits.
  2:{ transitivity (PorConfig.scale config * u64_max)%N; [|etransitivity; [apply Hsq|done]; lia].
      transitivity (PorConfig.liquid_rank_alpha config * u64_max +
        (PorConfig.scale config - PorConfig.liquid_rank_alpha config) * u64_max)%N.
      - apply N.add_le_mono; by apply N.mul_le_mono_l.
      - rewrite <-N.mul_add_distr_r. apply N.mul_le_mono_r. lia. }
  cbn [ok_or result_bind]. fold (mix config c p). by rewrite decide_False by lia.
Qed.

Definition rep_of (l : list ReputationEntry.t) (id : NodeId) : option N :=
  ReputationEntry.reputation <$> find_entry l id.

Lemma rep_of_cons e l id :
  rep_of (e :: l) id =
  if decide (ReputationEntry.node_id e = id) then Some (ReputationEntry.reputation e)
  else rep_of l id.
Proof. unfold rep_of. rewrite find_entry_cons. by case_decide. Qed.
Lemma rep_of_below e l id :
  sorted_entries (e :: l) → ord_lt id (ReputationEntry.node_id e) → rep_of (e :: l) id = None.
Proof. intros. unfold rep_of. by rewrite find_entry_below. Qed.

(** What the missing entry policy makes of an unrated node. *)
Definition unrated (config : PorConfig.t) (p : N) : N :=
  match PorConfig.missing_entry_policy config with
  | CarryForward => p
  | _ => PorConfig.initial_reputation config
  end.

Definition blended_value (config : PorConfig.t) (c p : option N) : option N :=
  match c, p with
  | None, None => None
  | Some c, Some p => Some (mix config c p)
  | Some c, None => Some (mix config c (PorConfig.initial_reputation config))
  | None, Some p => Some (mix config (unrated config p) p)
  end.

Definition values_fit (l : list ReputationEntry.t) : Prop :=
  ∀ e, e ∈ l → fits_u64 (ReputationEntry.reputation e).

Section blend.
Import Transition.
Variable config : PorConfig.t.
Hypothesis Hvalid : valid_config config.
Hypothesis Hscale : fits_u64 (PorConfig.scale config).
#[local] Set Default Proof Using "All".

(** What a merge of two suffixes returns. *)
Definition blended (cs ps out : list ReputationEntry.t) : Prop :=
  sorted_entries out ∧
  ∀ id, find_entry out id = ReputationEntry.new id <$> blended_value config (rep_of cs id) (rep_of ps id).

Lemma initial_fits : fits_u64 (PorConfig.initial_reputation config).
Proof. destruct Hvalid. unfold fits_u64 in *. lia. Qed.

Lemma rep_of_elem l id : is_Some (rep_of l id) → ∃ e, e ∈ l ∧ ReputationEntry.node_id e = id.
Proof.
  unfold rep_of. intros [v Hv]. destruct (find_entry l id) as [e|] eqn:E; [|done].
  apply find_entry_elem in E as [? ?]. eauto.
Qed.

Lemma push_Ok cs ps cs' ps' id c p out :
  fits_u64 c → fits_u64 p → blended cs' ps' out →
  (∀ e, e ∈ cs' ∨ e ∈ ps' → ord_lt id (ReputationEntry.node_id e)) →
  blended_value config (rep_of cs id) (rep_of ps id) = Some (mix config c p) →
  (∀ id', id' ≠ id → rep_of cs' id' = rep_of cs id' ∧ rep_of ps' id' = rep_of ps id') →
  push_blended config id (Ok c) (Ok p) (Ok out) = Ok (ReputationEntry.new id (mix config c p) :: out) ∧
  blended cs ps (ReputationEntry.new id (mix config c p) :: out).
Proof.
  intros Hc Hp [Hs Hf] Hlt Hid Hother. split.
  { unfold push_blended. simpl. by rewrite blend_reputation_Ok. }
  split.
  - apply sorted_cons. split; [done|]. intros x Hx.
    pose proof (find_entry_sorted _ _ Hs Hx) as E. rewrite Hf in E.
    assert (is_Some (rep_of cs' (ReputationEntry.node_id x)) ∨
            is_Some (rep_of ps' (ReputationEntry.node_id x))) as Hor.
    { destruct (rep_of cs' _), (rep_of ps' _); eauto. done. }
    unfold entry_lt. simpl. destruct Hor as [(e & He & <-)%rep_of_elem|(e & He & <-)%rep_of_elem]; auto.
  - intros id'. rewrite find_entry_cons. simpl. case_decide as E; [subst id'; by rewrite Hid|].
    rewrite Hf. destruct (Hother id') as [-> ->]; [congruence|done].
Qed.

Lemma rep_of_tail e l id :
  id ≠ ReputationEntry.node_id e → rep_of l id = rep_of (e :: l) id.
Proof. intros Hne. rewrite rep_of_cons. by rewrite decide_False by congruence. Qed.

Lemma rep_of_tail_lt e l id :
  sorted_entries (e :: l) → ord_le id (ReputationEntry.node_id e) → rep_of l id = None.
Proof.
  intros [_ Hl]%sorted_cons Hle. unfold rep_of. rewrite fmap_None, find_entry_None.
  intros x Hx <-. specialize (Hl x Hx). unfold entry_lt in Hl. apply not_ord_lt in Hle. done.
Qed.

Lemma blend_entries_spec n cs ps :
  length cs + length ps ≤ n → sorted_entries cs → sorted_entries ps →
  values_fit cs → values_fit ps →
  PorConfig.missing_entry_policy config ≠ Reject ∨
    (∀ id, is_Some (rep_of cs id) ↔ is_Some (rep_of ps id)) →
  ∃ out, blend_entries config cs ps = Ok out ∧ blended cs ps out.
Proof.
  revert cs ps. induction n as [|n IH]; intros cs ps Hn Hcs Hps Hfc Hfp Hpol.
  { destruct cs, ps; simpl in Hn; try lia. exists []. split; [done|]. split; [constructor|done]. }
  assert (∀ e l, values_fit (e :: l) → fits_u64 (ReputationEntry.reputation e) ∧ values_fit l) as Hfit.
  { intros e l He. split; [apply He; by left|]. intros x ?. apply He. by right. }
  pose proof initial_fits as Hinit.
  (* a node in the contribution only *)
  assert (∀ e cs', cs = e :: cs' → (∀ p, p ∈ ps → ord_lt (ReputationEntry.node_id e) (ReputationEntry.node_id p)) →
    ∃ out, contribution_alone config e (blend_entries config cs' ps) = Ok out ∧ blended cs ps out)
    as Hcontribution.
  { intros e cs' -> Hlt. apply Hfit in Hfc as [Hfe Hfc]. pose proof Hcs as [Hcs' He]%sorted_cons.
    assert (rep_of ps (ReputationEntry.node_id e) = None) as Hnone.
    { unfold rep_of. rewrite fmap_None, find_entry_None. intros x Hx Ex. specialize (Hlt x Hx).
      rewrite Ex in Hlt. by apply ord_lt_irrefl in Hlt. }
    assert (PorConfig.missing_entry_policy config ≠ Reject) as Hnr.
    { destruct Hpol as [?|Hpol]; [done|]. exfalso. specialize (Hpol (ReputationEntry.node_id e)).
      rewrite Hnone, rep_of_cons, decide_True in Hpol by done.
      destruct (proj1 Hpol (mk_is_Some _ _ eq_refl)); done. }
    destruct (IH cs' ps) as (out & Eo & Ho); [simpl in Hn; lia|done..|by left|].
    unfold contribution_alone. rewrite Eo.
    assert (previous_for_new_node config = Ok (PorConfig.initial_reputation config)) as ->.
    { unfold previous_for_new_node. by destruct (PorConfig.missing_entry_policy config). }
    eexists. eapply push_Ok; [done..| | |].
    - intros x [Hx|Hx]; [by apply He|by apply Hlt].
    - by rewrite rep_of_cons, decide_True, Hnone by done.
    - intros id' Hne. split; [by apply rep_of_tail|done]. }
  (* a node in the previous reputation only *)
  assert (∀ p ps', ps = p :: ps' → (∀ c, c ∈ cs → ord_lt (ReputationEntry.node_id p) (ReputationEntry.node_id c)) →
    ∃ out, previous_alone config p (blend_entries config cs ps') = Ok out ∧ blended cs ps out)
    as Hprevious.
  { intros p ps' -> Hlt. apply Hfit in Hfp as [Hfe Hfp]. pose proof Hps as [Hps' Hp]%sorted_cons.
    assert (rep_of cs (ReputationEntry.node_id p) = None) as Hnone.
    { unfold rep_of. rewrite fmap_None, find_entry_None. intros x Hx Ex. specialize (Hlt x Hx).
      rewrite Ex in Hlt. by apply ord_lt_irrefl in Hlt. }
    assert (PorConfig.missing_entry_policy config ≠ Reject) as Hnr.
    { destruct Hpol as [?|Hpol]; [done|]. exfalso. specialize (Hpol (ReputationEntry.node_id p)).
      rewrite Hnone, rep_of_cons, decide_True in Hpol by done.
      destruct (proj2 Hpol (mk_is_Some _ _ eq_refl)); done. }
    destruct (IH cs ps') as (out & Eo & Ho); [simpl in Hn; lia|done..|by left|].
    unfold previous_alone. rewrite Eo.
    assert (contribution_for_unrated_node (ReputationEntry.reputation p) config =
      Ok (unrated config (ReputationEntry.reputation p))) as ->.
    { unfold contribution_for_unrated_node, unrated.
      by destruct (PorConfig.missing_entry_policy config). }
    eexists. eapply push_Ok; [unfold unrated; by destruct (PorConfig.missing_entry_policy config)|done..| | |].
    - intros x [Hx|Hx]; [by apply Hlt|by apply Hp].
    - by rewrite rep_of_cons, decide_True, Hnone by done.
    - intros id' Hne. split; [done|by apply rep_of_tail]. }
  destruct cs as [|e cs], ps as [|p ps].
  - exists []. split; [done|]. split; [constructor|done].
  - apply (Hprevious p ps eq_refl). by intros c ?%elem_of_nil.
  - apply (Hcontribution e cs eq_refl). by intros c ?%elem_of_nil.
  - pose proof Hcs as [Hcs' He]%sorted_cons. pose proof Hps as [Hps' Hp]%sorted_cons.
    cbn [blend_entries]. destruct (cmp _ _) eqn:E.
    + apply cmp_eq in E. pose proof Hfc as [Hfe Hfc']%Hfit. pose proof Hfp as [Hfpe Hfp']%Hfit.
      destruct (IH cs ps) as (out & Eo & Ho); [simpl in Hn; lia|done..| |].
      { destruct Hpol as [?|Hpol]; [by left|right]. intros id.
        destruct (decide (id = ReputationEntry.node_id e)) as [->|Hne].
        - rewrite (rep_of_tail_lt e cs), (rep_of_tail_lt p ps) by (done || by rewrite E). done.
        - rewrite (rep_of_tail e cs id), (rep_of_tail p ps id) by congruence. apply Hpol. }
      unfold in_both. rewrite Eo. eexists. eapply push_Ok; [done..| | |].
      * intros x [Hx|Hx]; [by apply He|rewrite E; by apply Hp].
      * by rewrite !rep_of_cons, !decide_True by congruence.
      * intros id' Hne. split; apply rep_of_tail; congruence.
    + apply (Hcontribution e cs eq_refl). intros x [->|Hx]%elem_of_cons; [done|].
      trans (ReputationEntry.node_id p); [done|by apply Hp].
    + apply ord_lt_gt in E. apply (Hprevious p ps eq_refl). intros x [->|Hx]%elem_of_cons; [done|].
      trans (ReputationEntry.node_id e); [done|by apply He].
Qed.
End blend.

(** ** Recipient groups *)

Section chunks.
Context {A K : Type} `{EqDecision K} `{Ord K}.
Variable key : A → K.
#[local] Set Default Proof Using "Type".

Definition same_key (x y : A) : bool := bool_decide (key x = key y).

Lemma chunk_by_cons x l :
  chunk_by same_key (x :: l) =
  match chunk_by same_key l with
  | (y :: g) :: gs => if same_key x y then (x :: y :: g) :: gs else [x] :: (y :: g) :: gs
  | gs => [x] :: gs
  end.
Proof. done. Qed.

(** The runs of a sorted list are its groups by key. *)
Lemma chunk_by_groups l :
  StronglySorted (λ x y, ord_le (key x) (key y)) l →
  ∃ ks, StronglySorted ord_lt ks ∧ (∀ k, k ∈ ks ↔ ∃ x, x ∈ l ∧ key x = k) ∧
    chunk_by same_key l = map (λ k, filter (λ x, key x = k) l) ks.
Proof.
  induction 1 as [|x l Hl IH Hx].
  { exists []. split_and!; [constructor|set_solver|done]. }
  rewrite Forall_forall in Hx. destruct IH as (ks & Hks & Hmem & E).
  destruct ks as [|k ks].
  - destruct l as [|y l].
    2:{ assert (key y ∈ []) as Hy by (apply Hmem; exists y; split; [by left|done]).
        by apply elem_of_nil in Hy. }
    exists [key x]. split_and!; [repeat constructor|set_solver|].
    simpl. by rewrite filter_cons, decide_True by done.
  - rewrite chunk_by_cons, E. clear E. simpl.
    assert (∀ k', k' ∈ k :: ks → ord_le (key x) k') as Hle.
    { intros k' (y & Hy & <-)%Hmem. by apply Hx. }
    apply StronglySorted_inv in Hks as [Hks Hk]. rewrite Forall_forall in Hk.
    destruct (filter (λ z, key z = k) l) as [|y g] eqn:Eg.
    { exfalso. assert (k ∈ k :: ks) as (z & Hz & Ez)%Hmem by (by left).
      assert (z ∈ filter (λ z, key z = k) l) as Hz' by (by apply list_elem_of_filter).
      rewrite Eg in Hz'. by apply elem_of_nil in Hz'. }
    assert (key y = k) as Ey.
    { assert (y ∈ filter (λ z, key z = k) l) as Hy by (rewrite Eg; by left).
      by apply list_elem_of_filter in Hy as [? _]. }
    assert (∀ k', k' ≠ key x → filter (λ z, key z = k') (x :: l) = filter (λ z, key z = k') l) as Hother.
    { intros k' Hne. rewrite filter_cons. by rewrite decide_False by congruence. }
    unfold same_key. rewrite Ey. case_bool_decide as Ex.
    + exists (k :: ks). split_and!.
      * constructor; [done|]. by apply Forall_forall.
      * intros k'. rewrite Hmem. set_solver.
      * simpl. rewrite filter_cons, decide_True by done. rewrite Eg. f_equal.
        apply map_ext_in. intros k' Hk'%list_elem_of_In. rewrite Hother; [done|].
        intros ->. apply (ord_lt_irrefl k). rewrite <-Ex at 2. by apply Hk.
    + assert (∀ k', k' ∈ k :: ks → ord_lt (key x) k') as Hlt.
      { intros k' Hk'. destruct (proj1 (ord_le_lt_eq (key x) k') (Hle _ Hk')) as [?|E]; [done|].
        exfalso. apply elem_of_cons in Hk' as [->|Hk']; [done|].
        apply Hk in Hk' as Hlt. rewrite <-E in Hlt.
        assert (ord_le (key x) k) as Hc by (apply Hle; by left).
        apply not_ord_lt in Hc. done. }
      exists (key x :: k :: ks). split_and!.
      * constructor; [constructor; [done|by apply Forall_forall]|]. apply Forall_forall. auto.
      * intros k'. rewrite elem_of_cons, Hmem. set_solver.
      * simpl. rewrite filter_cons, decide_True by done.
        assert (filter (λ z, key z = key x) l = []) as ->.
        { apply elem_of_nil_inv. intros z [Ez Hz]%list_elem_of_filter.
          apply (ord_lt_irrefl (key x)), Hlt, Hmem. eauto. }
        f_equal. rewrite Hother by congruence. rewrite Eg. f_equal.
        apply map_ext_in. intros k' Hk'%list_elem_of_In. symmetry. apply Hother.
        intros ->. apply (ord_lt_irrefl (key x)), Hlt. by right.
Qed.

Lemma chunk_by_concat l : mjoin (chunk_by same_key l) = l.
Proof.
  induction l as [|x l IH]; [done|]. rewrite chunk_by_cons.
  destruct (chunk_by same_key l) as [|[|y g] gs]; simpl in *; [by subst|by rewrite IH|].
  destruct (same_key x y); simpl; by rewrite IH.
Qed.
End chunks.

(** ** Normalization *)

Section normalization.
Local Open Scope N_scope.
Import Normalization.

Lemma min_max_fold l a b :
  let m := foldl (λ acc rating, (N.min acc.1 (score rating), N.max acc.2 (score rating))) (a, b) l in
  m.1 <= a ∧ b <= m.2 ∧ ∀ x, x ∈ l → m.1 <= score x <= m.2.
Proof.
  revert a b. induction l as [|y l IH]; intros a b; simpl.
  { split_and!; [done..|]. by intros ? ?%elem_of_nil. }
  destruct (IH (N.min a (score y)) (N.max b (score y))) as (H1 & H2 & H3).
  split_and!; [lia|lia|]. intros x [->|Hx]%elem_of_cons; [lia|by apply H3].
Qed.

Lemma min_max_fold_in l a b :
  let m := foldl (λ acc rating, (N.min acc.1 (score rating), N.max acc.2 (score rating))) (a, b) l in
  (m.1 = a ∨ ∃ x, x ∈ l ∧ score x = m.1) ∧ (m.2 = b ∨ ∃ x, x ∈ l ∧ score x = m.2).
Proof.
  revert a b. induction l as [|y l IH]; intros a b; simpl; [auto|].
  destruct (IH (N.min a (score y)) (N.max b (score y))) as [H1 H2]. split.
  - destruct H1 as [->|(x & ? & <-)]; [|right; exists x; split; [by right|done]].
    destruct (N.min_spec a (score y)) as [[_ ->]|[_ ->]]; [by left|right].
    exists y. split; [by left|done].
  - destruct H2 as [->|(x & ? & <-)]; [|right; exists x; split; [by right|done]].
    destruct (N.max_spec b (score y)) as [[_ ->]|[_ ->]]; [right|by left].
    exists y. split; [by left|done].
Qed.

Lemma min_max_bounds group x : x ∈ group → (min_max group).1 <= score x <= (min_max group).2.
Proof.
  destruct group as [|y l]; [by intros ?%elem_of_nil|]. simpl.
  destruct (min_max_fold l (score y) (score y)) as (H1 & H2 & H3).
  intros [->|Hx]%elem_of_cons; [lia|by apply H3].
Qed.
Lemma min_max_attained group :
  group ≠ [] → ∃ x y, x ∈ group ∧ y ∈ group ∧ score x = (min_max group).1 ∧ score y = (min_max group).2.
Proof.
  destruct group as [|z l]; [done|]. intros _. simpl.
  destruct (min_max_fold_in l (score z) (score z)) as [H1 H2].
  assert (∃ x, x ∈ z :: l ∧ score x = (foldl (λ acc rating,
    (N.min acc.1 (score rating), N.max acc.2 (score rating))) (score z, score z) l).1) as (x & ? & ?).
  { destruct H1 as [->|(x & ? & <-)]; [exists z|exists x]; split; [by left|done|by right|done]. }
  assert (∃ x, x ∈ z :: l ∧ score x = (foldl (λ acc rating,
    (N.min acc.1 (score rating), N.max acc.2 (score rating))) (score z, score z) l).2) as (y & ? & ?).
  { destruct H2 as [->|(y & ? & <-)]; [exists z|exists y]; split; [by left|done|by right|done]. }
  by exists x, y.
Qed.

Definition group_of (l : list RatingRecord) (r : RatingRecord) : list RatingRecord :=
  filter (λ x, recipient x = recipient r) l.

(** The normalized score, over unbounded numbers. *)
Definition normalized_of (scale : N) (group : list RatingRecord) (s : N) : N :=
  let (min, max) := min_max group in (s - min + scale) * scale / (max - min + scale).

Lemma normalized_of_le scale group r :
  0 < scale → r ∈ group → normalized_of scale group (score r) <= scale.
Proof.
  intros Hs Hr%min_max_bounds. unfold normalized_of. destruct (min_max group) as [min max]; simpl in *.
  apply N.div_le_upper_bound; [lia|]. nia.
Qed.
Lemma normalized_of_mono scale group s t :
  0 < scale → s <= t → normalized_of scale group s <= normalized_of scale group t.
Proof.
  intros Hs Ht. unfold normalized_of. destruct (min_max group) as [min max].
  apply N.Div0.div_le_mono. nia.
Qed.
Lemma normalized_of_max scale group :
  0 < scale → normalized_of scale group (min_max group).2 = scale.
Proof.
  intros Hs. unfold normalized_of. destruct (min_max group) as [min max]. simpl.
  rewrite N.mul_comm. apply N.div_mul. lia.
Qed.

Lemma normalize_group_spec scale group :
  0 < scale → scale <= u64_max →
  normalize_recipient_group group scale =
  if decide (u128_max / scale < (min_max group).2 - (min_max group).1 + scale)
  then Err NormalizationOverflow
  else Ok (map (λ r, mkNormalized (rater r) (recipient r) (score r)
                       (normalized_of scale group (score r))) group).
Proof.
  intros Hs Hsu. unfold normalize_recipient_group.
  destruct (min_max group) as [min max] eqn:Em. simpl. case_decide as Ho; [done|]. f_equal.
  apply map_ext_in. intros r Hr%list_elem_of_In. f_equal.
  pose proof (normalized_of_le scale group r Hs Hr) as Hle.
  apply min_max_bounds in Hr. rewrite Em in Hr. simpl in Hr.
  unfold normalized_of in *. rewrite Em in *. unfold normalize_score.
  assert (scale * (max - min + scale) <= u128_max).
  { transitivity (scale * (u128_max / scale)); [apply N.mul_le_mono_l; lia|].
    apply N.Div0.mul_div_le. }
  rewrite (N.mod_small (_ * _)) by (change (2 ^ 128) with (u128_max + 1); nia).
  rewrite N.mod_small by (change (2 ^ 64) with (u64_max + 1); lia). done.
Qed.
End normalization.

(** ** Liquid rank *)

Section liquid_rank.
Import LiquidRank.
Implicit Types (previous : ReputationVector) (group : list NormalizedRatingEntry).

Definition weighted_sum previous group : N :=
  sum_N (map (λ r, normalized_score r * default 0 (rep_of (values previous) (n_rater r)))%N group).

Lemma weighted_fold previous group (acc total : N) :
  try_fold (λ sum rating,
    let? rater_reputation := reputation_of previous (n_rater rating) in
    ok_or (checked_add u128_max sum (normalized_score rating * rater_reputation)) LiquidRankOverflow)
    acc group = Ok total →
  total = (acc + weighted_sum previous group)%N ∧
  ∀ r, r ∈ group → is_Some (rep_of (values previous) (n_rater r)).
Proof.
  revert acc. induction group as [|r group IH]; intros acc; simpl.
  { intros [= <-]. split; [unfold weighted_sum; simpl; lia|by intros ? ?%elem_of_nil]. }
  rewrite result_bind_Ok. intros (x & Hx & E). apply result_bind_Ok in Hx as (v & Hv & Hx).
  unfold reputation_of in Hv. apply ok_or_Ok in Hv, Hx. apply checked_add_Some in Hx as [-> _].
  apply IH in E as [-> Hr]. fold (rep_of (values previous) (n_rater r)) in Hv. split.
  - unfold weighted_sum. simpl. rewrite Hv. simpl. lia.
  - intros r' [->|Hr']%elem_of_cons; [by rewrite Hv|by apply Hr].
Qed.

Lemma push_contribution_Ok previous scale group out :
  push_recipient_contribution previous scale group = Ok out → group ≠ [] →
  out = [ReputationEntry.new (default [] (n_recipient <$> head group))
           (weighted_sum previous group / scale)] ∧
  fits_u64 (weighted_sum previous group / scale) ∧
  ∀ r, r ∈ group → is_Some (rep_of (values previous) (n_rater r)).
Proof.
  unfold push_recipient_contribution. destruct group as [|r group]; [done|]. intros E _.
  apply result_bind_Ok in E as (total & Et & E).
  apply weighted_fold in Et as [-> Hr]. rewrite N.add_0_l in E.
  case_decide as Ho; [done|]. injection E as <-. split_and!; [done|unfold fits_u64; lia|done].
Qed.

Definition recipient_group (l : list NormalizedRatingEntry) (id : NodeId) :
    list NormalizedRatingEntry := filter (λ r, n_recipient r = id) l.

Lemma find_entry_map (f : NodeId → ReputationEntry.t) ks id :
  (∀ k, ReputationEntry.node_id (f k) = k) →
  find_entry (map f ks) id = if decide (id ∈ ks) then Some (f id) else None.
Proof.
  intros Hf. induction ks as [|k ks IH]; simpl.
  { by rewrite find_entry_nil. }
  rewrite find_entry_cons, Hf, IH. destruct (decide (k = id)) as [->|Hne].
  - by rewrite decide_True by (by left).
  - destruct (decide (id ∈ ks)); [by rewrite decide_True by (by right)|].
    by rewrite decide_False by (intros [?|?]%elem_of_cons; congruence).
Qed.

Lemma contribution_spec matrix previous config v :
  StronglySorted (λ x y, ord_le (n_recipient x) (n_recipient y)) (normalized_ratings matrix) →
  compute_liquid_rank_contribution matrix previous config = Ok v →
  vector_round v = normalized_round matrix ∧ sorted_entries (values previous) ∧
  sorted_entries (values v) ∧ values_fit (values v) ∧
  (∀ r, r ∈ normalized_ratings matrix → is_Some (rep_of (values previous) (n_rater r))) ∧
  ∀ id, find_entry (values v) id =
    let group := recipient_group (normalized_ratings matrix) id in
    if decide (group = []) then None
    else Some (ReputationEntry.new id (weighted_sum previous group / PorConfig.scale config)%N).
Proof.
  intros Hsorted. unfold compute_liquid_rank_contribution. case_decide as Hs; [done|].
  rewrite result_bind_Ok. intros ([] & Hprev%validate_order_sorted & E).
  apply result_bind_Ok in E as (groups & Eg & [= <-]). simpl.
  destruct (chunk_by_groups n_recipient _ Hsorted) as (ks & Hks & Hmem & Ec).
  change (λ l r, bool_decide (n_recipient l = n_recipient r)) with (same_key n_recipient) in Eg.
  rewrite Ec in Eg. apply try_map_Ok in Eg.
  assert (∀ k, k ∈ ks → recipient_group (normalized_ratings matrix) k ≠ [] ∧
    n_recipient <$> head (recipient_group (normalized_ratings matrix) k) = Some k) as Hgroup.
  { intros k (x & Hx & Ex)%Hmem. unfold recipient_group.
    assert (x ∈ filter (λ r, n_recipient r = k) (normalized_ratings matrix)) as Hin
      by (by apply list_elem_of_filter).
    destruct (filter _ _) as [|y g] eqn:Ef; [by apply elem_of_nil in Hin|]. split; [done|]. simpl.
    assert (y ∈ y :: g) as Hy by (by left). rewrite <-Ef in Hy.
    apply list_elem_of_filter in Hy as [-> _]. done. }
  set (f := λ k, ReputationEntry.new k
    (weighted_sum previous (recipient_group (normalized_ratings matrix) k) / PorConfig.scale config)%N).
  assert (mjoin groups = map f ks ∧
    (∀ k, k ∈ ks → fits_u64 (ReputationEntry.reputation (f k)) ∧
      ∀ r, r ∈ recipient_group (normalized_ratings matrix) k →
        is_Some (rep_of (values previous) (n_rater r)))) as [-> Hfit].
  { clear Hks Hmem Ec. revert groups Eg. induction ks as [|k ks IH]; intros groups Eg;
      simpl in Eg; inversion Eg as [|? g ? gs Hg Hgs]; subst.
    { split; [done|]. by intros ? ?%elem_of_nil. }
    destruct (Hgroup k) as [Hne Hhd]; [by left|].
    apply push_contribution_Ok in Hg as (-> & Hfk & Hrk); [|done].
    unfold recipient_group in Hhd. rewrite Hhd. simpl.
    destruct (IH (λ k' Hk', Hgroup k' (list_elem_of_further _ _ _ Hk')) gs Hgs) as [-> Hall].
    split; [done|]. intros k' [->|Hk']%elem_of_cons; [by split|by apply Hall]. }
  split_and!; [done|done|..].
  - clear -Hks. induction Hks as [|k ks Hks IH Hk]; simpl; [constructor|]. constructor; [done|].
    apply Forall_forall. intros e (k' & -> & Hk')%list_elem_of_fmap.
    rewrite Forall_forall in Hk. by apply Hk.
  - intros e (k & -> & Hk)%list_elem_of_fmap. by apply Hfit.
  - intros r Hr. apply (Hfit (n_recipient r)); [apply Hmem; eauto|].
    by apply list_elem_of_filter.
  - intros id. rewrite find_entry_map by done. cbn zeta.
    destruct (decide (id ∈ ks)) as [Hid|Hid].
    + by rewrite decide_False by (by apply Hgroup).
    + rewrite decide_True; [done|]. apply elem_of_nil_inv. intros r [Er Hr]%list_elem_of_filter.
      apply Hid, Hmem. eauto.
Qed.
End liquid_rank.

(** ** The clamp of a transition *)

Section clamp_transition.
Import Clamp.

Lemma advance_to_spec l target :
  sorted_entries l →
  sorted_entries (advance_to l target) ∧
  (∀ id, ord_le (ReputationEntry.node_id target) id →
    find_entry (advance_to l target) id = find_entry l id) ∧
  node_at (advance_to l target) target = find_entry l (ReputationEntry.node_id target).
Proof.
  induction l as [|e l IH]; intros Hs; [done|]. cbn [advance_to].
  pose proof Hs as [Hs' He]%sorted_cons. case_decide as Hlt.
  - destruct (IH Hs') as (H1 & H2 & H3). split_and!; [done|..].
    + intros id Hid. rewrite H2 by done. rewrite find_entry_cons, decide_False; [done|].
      intros <-. by apply not_ord_lt in Hid.
    + rewrite H3, find_entry_cons, decide_False; [done|]. intros E. rewrite E in Hlt.
      by apply ord_lt_irrefl in Hlt.
  - split_and!; [done..|]. simpl. rewrite find_entry_cons. case_decide as E; [done|].
    symmetry. destruct (ord_trichotomy (ReputationEntry.node_id e) (ReputationEntry.node_id target))
      as [?|[?|Hgt]]; [done|done|].
    pose proof (find_entry_below l e _ Hs Hgt) as Hn. rewrite find_entry_cons in Hn.
    by rewrite decide_False in Hn.
Qed.

(** The clamped value of one entry. *)
Definition clamped (scale : N) (previous contribution : list ReputationEntry.t)
    (e o : ReputationEntry.t) : Prop :=
  o = ReputationEntry.new (ReputationEntry.node_id e) (ReputationEntry.reputation o) ∧
  match rep_of previous (ReputationEntry.node_id e), rep_of contribution (ReputationEntry.node_id e) with
  | Some p, None => ReputationEntry.reputation o = p
  | _, _ => clamp_reputation_value (ReputationEntry.reputation e) scale =
              Ok (ReputationEntry.reputation o)
  end.

Lemma clamp_entries_Ok scale bl ps cs out :
  sorted_entries bl → sorted_entries ps → sorted_entries cs →
  clamp_entries scale bl ps cs = Ok out → Forall2 (clamped scale ps cs) bl out.
Proof.
  revert ps cs out. induction bl as [|e bl IH]; intros ps cs out Hb Hp Hc; simpl.
  { intros [= <-]. constructor. }
  pose proof Hb as [Hb' He]%sorted_cons.
  destruct (advance_to_spec ps e Hp) as (Hps & Hpf & Hpn).
  destruct (advance_to_spec cs e Hc) as (Hcs & Hcf & Hcn).
  rewrite result_bind_Ok. intros (r & Hr & E). apply result_bind_Ok in E as (rest & E & [= <-]).
  rewrite Hpn, Hcn in Hr. constructor.
  - split; [done|]. simpl. unfold rep_of.
    destruct (find_entry ps _) as [p|]; [|done]. destruct (find_entry cs _); simpl in *; [done|].
    by injection Hr as <-.
  - apply IH in E; [|done..]. revert E. rewrite !Forall2_lookup. intros E i.
    specialize (E i). inversion E as [x y [Ho Hv] Ex Ey|Ex Ey]; constructor. split; [done|].
    assert (ord_le (ReputationEntry.node_id e) (ReputationEntry.node_id x)) as Hle.
    { apply ord_le_lt_eq. left. apply He. symmetry in Ex. by apply list_elem_of_lookup_2 in Ex. }
    unfold rep_of in *. by rewrite (Hpf _ Hle), (Hcf _ Hle) in Hv.
Qed.

Lemma clamp_vector_Ok reputation config out :
  clamp_reputation_vector reputation config = Ok out →
  vector_round out = vector_round reputation ∧
  Forall2 (λ e o, o = ReputationEntry.new (ReputationEntry.node_id e) (ReputationEntry.reputation o) ∧
    clamp_reputation_value (ReputationEntry.reputation e) (PorConfig.scale config) =
      Ok (ReputationEntry.reputation o)) (values reputation) (values out).
Proof.
  unfold clamp_reputation_vector. case_decide; [done|].
  rewrite result_bind_Ok. intros (l & Hl%try_map_Ok & [= <-]). split; [done|]. simpl.
  eapply Forall2_impl; [exact Hl|]. intros e o Ho.
  apply result_bind_Ok in Ho as (v & Hv & [= <-]). done.
Qed.

(** The clamp keeps the nodes and their order. *)
Lemma Forall2_nodes (R : ReputationEntry.t → ReputationEntry.t → Prop) l k :
  (∀ e o, R e o → ReputationEntry.node_id o = ReputationEntry.node_id e) → Forall2 R l k →
  (sorted_entries l → sorted_entries k) ∧
  ∀ id, match find_entry l id, find_entry k id with
        | Some e, Some o => R e o | None, None => True | _, _ => False end.
Proof.
  intros HR. induction 1 as [|e o l k Heo Hlk [IHs IHf]].
  { split; [done|]. intros id. by rewrite find_entry_nil. }
  pose proof (HR _ _ Heo) as Eid. split.
  - rewrite !sorted_cons. intros [Hs He]. split; [by apply IHs|]. intros x Hx.
    specialize (IHf (ReputationEntry.node_id x)).
    rewrite (find_entry_sorted k x) in IHf by (try done; by apply IHs).
    destruct (find_entry l _) as [y|] eqn:Ey; [|done]. apply find_entry_elem in Ey as [Hy Ey].
    unfold entry_lt. rewrite Eid, <-Ey. by apply He.
  - intros id. rewrite !find_entry_cons, Eid. by case_decide; [|apply IHf].
Qed.
End clamp_transition.

(** ** Penalties *)

Section penalties.
Local Open Scope N_scope.
Import Penalties.

Lemma survive_Ok weight ratio config message overflow :
  valid_config config → fits_u64 (PorConfig.scale config) → fits_u64 weight →
  ratio <= PorConfig.scale config →
  survive weight ratio config message overflow =
    Ok (weight * (PorConfig.scale config - ratio) / PorConfig.scale config) ∧
  weight * (PorConfig.scale config - ratio) / PorConfig.scale config <= weight.
Proof.
  intros Hv Hs Hw Hr. unfold survive. rewrite (proj2 (validate_valid config) Hv).
  destruct Hv as [Hs0 _ _ _ _ _ _]. unfold fits_u64 in *. cbn [result_bind].
  unfold checked_sub. rewrite decide_True by done. cbn [ok_or result_bind].
  assert (u64_max * u64_max <= u128_max) by done.
  rewrite checked_mul_fits.
  2:{ transitivity (u64_max * u64_max); [|done]. apply N.mul_le_mono; lia. }
  cbn [ok_or result_bind].
  assert (weight * (PorConfig.scale config - ratio) / PorConfig.scale config <= weight).
  { apply N.div_le_upper_bound; [done|]. rewrite N.mul_comm. apply N.mul_le_mono_r. lia. }
  split; [|done]. by rewrite decide_False by lia.
Qed.

Lemma slash_penalty_Ok equivocating total config :
  valid_config config → fits_u64 (PorConfig.scale config) →
  total * PorConfig.scale config <= u128_max → 0 < total → equivocating <= total →
  compute_slash_penalty_wide equivocating total config =
    Ok (if decide (equivocating * PorConfig.scale config <=
                   total * PorConfig.correlation_threshold config)
        then PorConfig.base_slash_penalty config else PorConfig.scale config).
Proof.
  intros Hv Hs Ht H0 He. unfold compute_slash_penalty_wide.
  rewrite (proj2 (validate_valid config) Hv). cbn [result_bind].
  rewrite decide_False by lia. destruct Hv as [_ _ _ _ Hth _ _].
  rewrite !checked_mul_fits; [done| |].
  - transitivity (total * PorConfig.scale config); [by apply N.mul_le_mono_l|done].
  - transitivity (total * PorConfig.scale config); [by apply N.mul_le_mono_r|done].
Qed.
End penalties.
