(* ===== verification/PorCommit.v ===== *)
(** * Proof of reputation: payloads, commitments and blocks

    [ratings.rs] (payloads), [commitments.rs], the authorization part of
    [evidence.rs], and the construction and validation of [block.rs].  The
    hash function (blake2) is a parameter. *)

From S2P Require Import Prelude Types PorTypes PorMath Bytes.
From stdpp Require Import options.

(** ** Rating payloads *)

Record RatingSourceCheckpoint := mkSource {
  source_round : N;
  finalized_prefix_len : N;
  finalized_prefix_hash : Hash32
}.
#[export] Instance RatingSourceCheckpoint_eq_dec : EqDecision RatingSourceCheckpoint.
Proof. solve_decision. Defined.

Definition POR_FINALIZED_BLOCKS_PER_CHECKPOINT : N := 16.

Definition validate_source (self : RatingSourceCheckpoint) : result unit PorError :=
  bail InvalidRatingSourceCheckpoint
    when source_round self = 0%N ∨
         checked_mul u64_max (source_round self) POR_FINALIZED_BLOCKS_PER_CHECKPOINT
           ≠ Some (finalized_prefix_len self);
  Ok tt.

Module Payload.

Definition RATING_SIGNING_DOMAIN : list byte := literal "cordial-por:rating:v1".
Definition CHECKPOINT_RATING_SIGNING_DOMAIN : list byte := literal "cordial-por:rating:v2".

Definition reference (r : option (list byte)) : list byte :=
  match r with Some bytes => x01 :: field bytes | None => [x00] end.

Definition canonical_rating_payload (rating : RatingRecord) : list byte :=
  RATING_SIGNING_DOMAIN ++ be64 (rating_round rating) ++ field (rater rating) ++
  field (recipient rating) ++ be64 (score rating) ++ reference (interaction_ref rating).

Definition canonical_checkpoint_rating_payload (rating : RatingRecord)
    (source : RatingSourceCheckpoint) : result (list byte) PorError :=
  bail InvalidRatingRound when rating_round rating ≠ source_round source;
  let? _ := validate_source source in
  Ok (CHECKPOINT_RATING_SIGNING_DOMAIN ++ be64 (source_round source) ++
      be64 (finalized_prefix_len source) ++ vec_to_list (finalized_prefix_hash source) ++
      field (rater rating) ++ field (recipient rating) ++ be64 (score rating) ++
      reference (interaction_ref rating)).

End Payload.

(** ** Penalty events and their authorization *)

Record EquivocationAuthorizationContext := mkWaveContext {
  wave_shard_id : list byte;
  source_finalized_wave : N;
  context_round : N
}.
Record CheckpointEquivocationAuthorizationContext := mkCheckpointContext {
  checkpoint_shard_id : list byte;
  checkpoint_source : RatingSourceCheckpoint
}.
Inductive AuthorizationContext :=
  | Wave (context : EquivocationAuthorizationContext)
  | Checkpoint (context : CheckpointEquivocationAuthorizationContext).
Record EquivocationAuthorization := mkAuthorization {
  authorization_context : AuthorizationContext;
  binding : Hash32;
  authorized_proof_round : N
}.
Record EquivocationPenalty := mkEquivocationPenalty {
  offender : NodeId;
  evidence : list byte;
  authorization : option EquivocationAuthorization
}.
Record InactivityPenalty := mkInactivityPenalty {
  inactive_offender : NodeId;
  missed_rounds : N
}.
Record ReputationPenaltyEvents := mkEvents {
  events_round : N;
  equivocations : list EquivocationPenalty;
  inactivity : list InactivityPenalty
}.

Definition MAX_REPUTATION_BLOCK_SHARD_ID_LEN : nat := 256.
Definition MAX_PENALTY_EVIDENCE_LEN : N := 65536.
Definition MAX_REPUTATION_BLOCK_ENTRIES : N := 1000000.
Definition MAX_REPUTATION_BLOCK_NODE_ID_LEN : N := 4096.
Definition MAX_REPUTATION_BLOCK_WIRE_LEN : N := 67108864.

Definition len {A} (l : list A) : N := N.of_nat (length l).

Module Evidence.
Section evidence.
Context `{Blake2b}.

Definition POR_EQUIVOCATION_AUTHORIZATION_DOMAIN : list byte :=
  literal "cordial-por:equivocation-authorization:v1".
Definition POR_CHECKPOINT_EQUIVOCATION_AUTHORIZATION_DOMAIN : list byte :=
  literal "cordial-por:equivocation-authorization:v2".

Definition authorization_payload (context : EquivocationAuthorizationContext) (offender : NodeId)
    (evidence : list byte) : result (list byte) PorError :=
  let invalid :=
    InvalidPenaltyEvents "invalid equivocation authorization context or proof size" in
  bail invalid when wave_shard_id context = [] ∨
    MAX_REPUTATION_BLOCK_SHARD_ID_LEN < length (wave_shard_id context);
  let? round := Ratings.rating_round_from_finalized_wave (source_finalized_wave context) in
  bail invalid when round ≠ context_round context ∨ evidence = [] ∨
    (MAX_PENALTY_EVIDENCE_LEN < len evidence)%N;
  Ok (POR_EQUIVOCATION_AUTHORIZATION_DOMAIN ++ field (wave_shard_id context) ++
      be64 (source_finalized_wave context) ++ be64 (context_round context) ++ field offender ++
      field evidence).

Definition checkpoint_intent_payload (shard_id : list byte) (round : N) (offender : NodeId)
    (evidence : list byte) : result (list byte) PorError :=
  bail (InvalidPenaltyEvents "invalid checkpoint authorization intent")
    when shard_id = [] ∨ MAX_REPUTATION_BLOCK_SHARD_ID_LEN < length shard_id ∨ round = 0%N ∨
         checked_mul u64_max round POR_FINALIZED_BLOCKS_PER_CHECKPOINT = None ∨ evidence = [] ∨
         (MAX_PENALTY_EVIDENCE_LEN < len evidence)%N;
  Ok (POR_CHECKPOINT_EQUIVOCATION_AUTHORIZATION_DOMAIN ++ field shard_id ++ be64 round ++
      field offender ++ field evidence).

Definition checkpoint_capability_payload (context : CheckpointEquivocationAuthorizationContext)
    (offender : NodeId) (evidence : list byte) : result (list byte) PorError :=
  let source := checkpoint_source context in
  let? _ := validate_source source in
  let? bytes := checkpoint_intent_payload (checkpoint_shard_id context) (source_round source)
    offender evidence in
  Ok (bytes ++ be64 (finalized_prefix_len source) ++ vec_to_list (finalized_prefix_hash source)).

Definition unverified (offender : NodeId) (evidence : list byte) : EquivocationPenalty :=
  mkEquivocationPenalty offender evidence None.

Definition not_authorized : PorError :=
  InvalidPenaltyEvents "equivocation has no verified authorization".

Definition proof_round (self : EquivocationPenalty) : result N PorError :=
  ok_or (authorized_proof_round <$> authorization self) not_authorized.

Definition validate_authorization (self : EquivocationPenalty) (round : N) :
    result unit PorError :=
  let? authorization := ok_or (authorization self) not_authorized in
  let? authorized :=
    match authorization_context authorization with
    | Wave context =>
      let? payload := authorization_payload context (offender self) (evidence self) in
      Ok (context_round context, payload)
    | Checkpoint context =>
      let? payload := checkpoint_capability_payload context (offender self) (evidence self) in
      Ok (source_round (checkpoint_source context), payload)
    end in
  bail (InvalidPenaltyEvents "equivocation proof, offender or authorized round was changed")
    when authorized.1 ≠ round ∨ binding authorization ≠ blake2b256 authorized.2;
  Ok tt.

Definition validate_context (self : EquivocationPenalty) (shard_id : list byte) (wave : N) :
    result unit PorError :=
  let? authorization := ok_or (authorization self) not_authorized in
  match authorization_context authorization with
  | Checkpoint _ => Err (InvalidPenaltyEvents "checkpoint penalty used in wave transition")
  | Wave authorized =>
    bail (InvalidPenaltyEvents
      "equivocation authorization belongs to another shard or finalized wave")
      when wave_shard_id authorized ≠ shard_id ∨ source_finalized_wave authorized ≠ wave;
    Ok tt
  end.

(** [for event in events { check(event)?; }]. *)
Definition check_all {A} (check : A → result unit PorError) (l : list A) : result unit PorError :=
  try_fold (λ _ x, check x) tt l.

Definition validate_penalty_context (penalties : option ReputationPenaltyEvents)
    (shard_id : list byte) (wave : N) : result unit PorError :=
  match penalties with
  | Some events => check_all (λ event, validate_context event shard_id wave) (equivocations events)
  | None => Ok tt
  end.

Definition validate_checkpoint_penalty_context (penalties : option ReputationPenaltyEvents)
    (shard_id : list byte) (source : RatingSourceCheckpoint) : result unit PorError :=
  match penalties with
  | Some events =>
    check_all (λ event,
      let? authorized := ok_or (authorization event)
        (InvalidPenaltyEvents "missing checkpoint authorization") in
      let invalid := InvalidPenaltyEvents "penalty belongs to another authorization source" in
      match authorization_context authorized with
      | Checkpoint approved =>
        bail invalid when checkpoint_shard_id approved ≠ shard_id ∨
          checkpoint_source approved ≠ source;
        Ok tt
      | Wave _ => Err invalid
      end) (equivocations events)
  | None => Ok tt
  end.

End evidence.
End Evidence.

(** ** [commitments.rs] *)

Record ReputationBlockHeader := mkHeader {
  version : N;
  shard_id : list byte;
  header_source_finalized_wave : N;
  source_checkpoint : option RatingSourceCheckpoint;
  header_round : N;
  previous_reputation_hash : option Hash32;
  config_hash : Hash32;
  ratings_hash : Hash32;
  penalties_hash : Hash32;
  reputation_root : Hash32
}.
Record ReputationBlock := mkReputationBlock {
  header : ReputationBlockHeader;
  reputation_list : ReputationList
}.

Definition REPUTATION_BLOCK_VERSION : N := 2.
Definition CHECKPOINT_REPUTATION_BLOCK_VERSION : N := 3.

Definition validate_reputation_entries (entries : list ReputationEntry.t) : result unit PorError :=
  let? _ := Evidence.check_all (λ entry,
    bail ReputationExclusionMismatch
      when (ReputationEntry.is_excluded entry = true ∧ ReputationEntry.reputation entry ≠ 0%N) ∨
           (ReputationEntry.is_excluded entry = false ∧
            ReputationEntry.retained_reputation entry ≠ 0%N);
    Ok tt) entries in
  LiquidRank.validate_reputation_order entries.

Definition validate_reputation_vector (vector : ReputationVector) : result unit PorError :=
  validate_reputation_entries (values vector).

Module Commitments.

Definition POR_CONFIG_COMMITMENT_DOMAIN : list byte :=
  literal "cordial-por:config-commitment:v2".
Definition POR_RATING_BATCH_COMMITMENT_DOMAIN : list byte :=
  literal "cordial-por:rating-batch-commitment:v1".
Definition POR_CHECKPOINT_RATING_BATCH_COMMITMENT_DOMAIN : list byte :=
  literal "cordial-por:rating-batch-commitment:v2".
Definition POR_REPUTATION_LIST_COMMITMENT_DOMAIN : list byte :=
  literal "cordial-por:reputation-list-commitment:v2".
Definition POR_REPUTATION_BLOCK_COMMITMENT_DOMAIN : list byte :=
  literal "cordial-por:reputation-block-commitment:v2".
Definition POR_CHECKPOINT_REPUTATION_BLOCK_COMMITMENT_DOMAIN : list byte :=
  literal "cordial-por:reputation-block-commitment:v3".
Definition POR_PENALTY_EVENTS_COMMITMENT_DOMAIN : list byte :=
  literal "cordial-por:penalty-events-commitment:v1".

Definition put_len (n : nat) : result (list byte) PorError :=
  bail CommitmentLengthOverflow when (u64_max < N.of_nat n)%N;
  Ok (be64 (N.of_nat n)).
Definition put_bytes (bytes : list byte) : result (list byte) PorError :=
  let? l := put_len (length bytes) in Ok (l ++ bytes).

Section commitments.
Context `{Blake2b}.

Definition policy_byte (p : MissingEntryPolicy) : byte :=
  match p with Reject => x00 | CarryForward => x01 | Neutral => x02 end.

Definition config_payload (config : PorConfig.t) : list byte :=
  POR_CONFIG_COMMITMENT_DOMAIN ++ be64 (PorConfig.scale config) ++
  be64 (PorConfig.initial_reputation config) ++ be64 (PorConfig.liquid_rank_alpha config) ++
  be64 (PorConfig.minimum_rating config) ++ be64 (PorConfig.maximum_rating config) ++
  [policy_byte (PorConfig.missing_entry_policy config)] ++
  be64 (PorConfig.correlation_threshold config) ++ be64 (PorConfig.base_slash_penalty config) ++
  be64 (PorConfig.inactivity_decay_gamma config).
Definition config_commitment (config : PorConfig.t) : Hash32 := blake2b256 (config_payload config).

Definition rating_batch_payload (batch : RatingBatch) (config : PorConfig.t) :
    result (list byte) PorError :=
  let? canonical := Ratings.build_rating_batch (batch_round batch) (batch_ratings batch) config in
  let? count := put_len (length (batch_ratings canonical)) in
  let? rows := try_map (λ rating,
    let? payload := put_bytes (Payload.canonical_rating_payload rating) in
    let? signature := put_bytes (rating_signature rating) in
    Ok (payload ++ signature)) (batch_ratings canonical) in
  Ok (POR_RATING_BATCH_COMMITMENT_DOMAIN ++ be64 (batch_round canonical) ++ count ++ mjoin rows).
Definition rating_batch_commitment (batch : RatingBatch) (config : PorConfig.t) :
    result Hash32 PorError :=
  let? payload := rating_batch_payload batch config in Ok (blake2b256 payload).

Definition checkpoint_rating_batch_commitment (batch : RatingBatch)
    (source : RatingSourceCheckpoint) (config : PorConfig.t) : result Hash32 PorError :=
  let? canonical := Ratings.build_rating_batch (batch_round batch) (batch_ratings batch) config in
  bail InvalidRatingRound when batch_round canonical ≠ source_round source;
  let? _ := validate_source source in
  let? count := put_len (length (batch_ratings canonical)) in
  let? rows := try_map (λ rating,
    let? payload := Payload.canonical_checkpoint_rating_payload rating source in
    let? payload := put_bytes payload in
    let? signature := put_bytes (rating_signature rating) in
    Ok (payload ++ signature)) (batch_ratings canonical) in
  Ok (blake2b256 (POR_CHECKPOINT_RATING_BATCH_COMMITMENT_DOMAIN ++
    be64 (batch_round canonical) ++ be64 (finalized_prefix_len source) ++
    vec_to_list (finalized_prefix_hash source) ++ count ++ mjoin rows)).

(** The loops of [penalty_events_commitment] thread the offenders seen and the
    payload. *)
Definition payload_too_large : PorError := InvalidPenaltyEvents "penalty payload too large".

Definition commit_equivocation (round : N) (acc : gset NodeId * list byte)
    (event : EquivocationPenalty) : result (gset NodeId * list byte) PorError :=
  let '(seen, payload) := acc in
  let? _ := Evidence.validate_authorization event round in
  bail (InvalidPenaltyEvents "duplicate offender or invalid evidence/identifier size")
    when offender event ∈ seen ∨ (MAX_REPUTATION_BLOCK_NODE_ID_LEN < len (offender event))%N ∨
         evidence event = [] ∨ (MAX_PENALTY_EVIDENCE_LEN < len (evidence event))%N;
  let? id := put_bytes (offender event) in
  let? proof := put_bytes (evidence event) in
  let payload := payload ++ id ++ proof in
  bail payload_too_large when (MAX_REPUTATION_BLOCK_WIRE_LEN < len payload)%N;
  Ok ({[offender event]} ∪ seen, payload).

Definition commit_inactivity (acc : gset NodeId * list byte) (event : InactivityPenalty) :
    result (gset NodeId * list byte) PorError :=
  let '(seen, payload) := acc in
  bail (InvalidPenaltyEvents "inactivity requires a unique offender and one missed round")
    when inactive_offender event ∈ seen ∨
         (MAX_REPUTATION_BLOCK_NODE_ID_LEN < len (inactive_offender event))%N ∨
         missed_rounds event ≠ 1%N;
  let? id := put_bytes (inactive_offender event) in
  let payload := payload ++ id ++ be64 (missed_rounds event) in
  bail payload_too_large when (MAX_REPUTATION_BLOCK_WIRE_LEN < len payload)%N;
  Ok ({[inactive_offender event]} ∪ seen, payload).

Definition penalty_events_commitment (round : N) (events : option ReputationPenaltyEvents) :
    result Hash32 PorError :=
  let? lists :=
    match events with
    | Some events =>
      bail (InvalidPenaltyEvents "event round must match the block")
        when events_round events ≠ round;
      bail (InvalidPenaltyEvents "too many penalty events")
        when (MAX_REPUTATION_BLOCK_ENTRIES < len (equivocations events) + len (inactivity events))%N;
      Ok (equivocations events, inactivity events)
    | None => Ok ([], [])
    end in
  let equivocations := sort_by_key offender lists.1 in
  let inactivity := sort_by_key inactive_offender lists.2 in
  let? count := put_len (length equivocations) in
  let? acc := try_fold (commit_equivocation round)
    (∅, POR_PENALTY_EVENTS_COMMITMENT_DOMAIN ++ be64 round ++ count) equivocations in
  let? count := put_len (length inactivity) in
  let? acc := try_fold commit_inactivity (acc.1, acc.2 ++ count) inactivity in
  bail payload_too_large when (MAX_REPUTATION_BLOCK_WIRE_LEN < len acc.2)%N;
  Ok (blake2b256 acc.2).

Definition bool_byte (b : bool) : byte := if b then x01 else x00.

Definition list_payload (list : ReputationList) : result (Datatypes.list byte) PorError :=
  let? _ := validate_reputation_entries (entries list) in
  let? count := put_len (length (entries list)) in
  let? rows := try_map (λ entry,
    let? id := put_bytes (ReputationEntry.node_id entry) in
    Ok (id ++ be64 (ReputationEntry.reputation entry) ++
        [bool_byte (ReputationEntry.is_excluded entry)] ++
        be64 (ReputationEntry.retained_reputation entry))) (entries list) in
  Ok (POR_REPUTATION_LIST_COMMITMENT_DOMAIN ++ be64 (list_round list) ++ count ++ mjoin rows).
Definition reputation_list_commitment (list : ReputationList) : result Hash32 PorError :=
  let? payload := list_payload list in Ok (blake2b256 payload).

(** ** [block.rs]: structural validation *)

Definition validate_shard_id (shard_id : list byte) : result unit PorError :=
  bail MissingReputationBlockShardId when shard_id = [];
  bail ReputationBlockShardIdTooLong when MAX_REPUTATION_BLOCK_SHARD_ID_LEN < length shard_id;
  Ok tt.

Definition validate_header_source (h : ReputationBlockHeader) : result unit PorError :=
  if decide (version h = REPUTATION_BLOCK_VERSION) then
    bail InvalidReputationBlockSourceWave
      when is_Some (source_checkpoint h) ∨
           checked_add u64_max (header_source_finalized_wave h) 1 ≠ Some (header_round h);
    Ok tt
  else if decide (version h = CHECKPOINT_REPUTATION_BLOCK_VERSION) then
    bail InvalidReputationBlockSourceCheckpoint
      when header_source_finalized_wave h ≠ 0%N ∨
           source_round <$> source_checkpoint h ≠ Some (header_round h);
    let? source := ok_or (source_checkpoint h) InvalidReputationBlockSourceCheckpoint in
    map_err (λ _, InvalidReputationBlockSourceCheckpoint) (validate_source source)
  else Err (UnsupportedReputationBlockVersion (version h)).

Definition validate_reputation_block (block : ReputationBlock) : result unit PorError :=
  let h := header block in
  bail (UnsupportedReputationBlockVersion (version h))
    when version h ≠ REPUTATION_BLOCK_VERSION ∧ version h ≠ CHECKPOINT_REPUTATION_BLOCK_VERSION;
  let? _ := validate_shard_id (shard_id h) in
  let? _ := validate_header_source h in
  bail InvalidReputationBlockRound when header_round h ≠ list_round (reputation_list block);
  let? expected_root := reputation_list_commitment (reputation_list block) in
  bail ReputationBlockRootMismatch when reputation_root h ≠ expected_root;
  Ok tt.

Definition optional_hash (h : option Hash32) : list byte :=
  match h with Some h => x01 :: vec_to_list h | None => [x00] end.

Definition reputation_block_hash (block : ReputationBlock) : result Hash32 PorError :=
  let? _ := validate_reputation_block block in
  let h := header block in
  let domain :=
    if decide (version h = REPUTATION_BLOCK_VERSION) then POR_REPUTATION_BLOCK_COMMITMENT_DOMAIN
    else POR_CHECKPOINT_REPUTATION_BLOCK_COMMITMENT_DOMAIN in
  let? shard := put_bytes (shard_id h) in
  Ok (blake2b256 (domain ++ be_bytes 2 (version h) ++ shard ++
    be64 (header_source_finalized_wave h) ++ be64 (header_round h) ++
    match source_checkpoint h with
    | Some source => be64 (finalized_prefix_len source) ++ vec_to_list (finalized_prefix_hash source)
    | None => []
    end ++
    optional_hash (previous_reputation_hash h) ++ vec_to_list (config_hash h) ++
    vec_to_list (ratings_hash h) ++ vec_to_list (penalties_hash h) ++
    vec_to_list (reputation_root h))).

End commitments.
End Commitments.
