(* ===== verification/PorAudit.v ===== *)
(** * Proof of reputation: replay, block construction and audit

    The penalty stage of [transition.rs], [audit.rs], and the construction of
    blocks in [block.rs]. *)

From S2P Require Import Prelude Types PorTypes PorMath Bytes PorCommit.
From stdpp Require Import options.

(** ** Penalties: [transition.rs] *)

Module PenaltyEvents.
Section penalties.
Context `{Blake2b}.

Definition prior_entry (previous : ReputationVector) (offender : NodeId) :
    result ReputationEntry.t PorError :=
  let? entry := ok_or (find_entry (values previous) offender)
    (InvalidPenaltyEvents "unknown penalty offender") in
  bail (InvalidPenaltyEvents "cannot penalize an already ejected key")
    when ReputationEntry.is_excluded entry = true;
  Ok entry.

(** The loop over the equivocations: the offenders seen, and the weight that
    equivocated in each proof round. *)
Definition admit_equivocation (previous : ReputationVector) (round : N)
    (acc : gset NodeId * gmap N N) (event : EquivocationPenalty) :
    result (gset NodeId * gmap N N) PorError :=
  let '(seen, weights) := acc in
  let? _ := Evidence.validate_authorization event round in
  bail (InvalidPenaltyEvents "duplicate offender or empty equivocation evidence")
    when offender event ∈ seen ∨ evidence event = [];
  let? proof_round := Evidence.proof_round event in
  let? entry := prior_entry previous (offender event) in
  let? weight := ok_or (checked_add u128_max (default 0%N (weights !! proof_round))
    (ReputationEntry.reputation entry)) SlashOverflow in
  Ok ({[offender event]} ∪ seen, <[proof_round:=weight]> weights).

(** The loop over the inactive nodes. *)
Definition admit_inactivity (previous : ReputationVector) (ratings : list RatingRecord)
    (seen : gset NodeId) (event : InactivityPenalty) : result (gset NodeId) PorError :=
  let node := inactive_offender event in
  bail (InvalidPenaltyEvents "inactivity requires one missed round and a unique offender")
    when node ∈ seen ∨ missed_rounds event ≠ 1%N;
  let? _ := prior_entry previous node in
  bail (InvalidPenaltyEvents "inactive offender participates in the rating batch")
    when existsb (λ rating, bool_decide (rater rating = node) || bool_decide (recipient rating = node))
           ratings = true;
  Ok ({[node]} ∪ seen).

(** [staged.entries[index] = ..] at the entry of a node. *)
Definition update_entry (l : list ReputationEntry.t) (id : NodeId)
    (f : result (ReputationEntry.t → ReputationEntry.t) PorError) :
    result (list ReputationEntry.t) PorError :=
  match binary_search l id with
  | Ok index => let? f := f in Ok (alter f index l)
  | Err _ => Err MissingReputationBlockEntry
  end.

Definition eject_with (retained : N) (entry : ReputationEntry.t) : ReputationEntry.t :=
  ReputationEntry.mk (ReputationEntry.node_id entry) 0 retained true.
Definition set_weight_of (reputation : N) (entry : ReputationEntry.t) : ReputationEntry.t :=
  ReputationEntry.mk (ReputationEntry.node_id entry) reputation
    (ReputationEntry.retained_reputation entry) (ReputationEntry.is_excluded entry).

(** [equivocating_weights[&round]] is present for every event of the first
    loop. *)
Definition slash_entry (previous : ReputationVector) (weights : gmap N N) (total_weight : N)
    (config : PorConfig.t) (staged : list ReputationEntry.t) (event : EquivocationPenalty) :
    result (list ReputationEntry.t) PorError :=
  let? proof_round := Evidence.proof_round event in
  let? penalty := Penalties.compute_slash_penalty_wide (default 0%N (weights !! proof_round))
    total_weight config in
  update_entry staged (offender event)
    (let? entry := prior_entry previous (offender event) in
     let? retained := Penalties.apply_slash_to_reputation (ReputationEntry.reputation entry)
       penalty config in
     Ok (eject_with retained)).

Definition decay_entry (previous : ReputationVector) (config : PorConfig.t)
    (staged : list ReputationEntry.t) (event : InactivityPenalty) :
    result (list ReputationEntry.t) PorError :=
  update_entry staged (inactive_offender event)
    (let? entry := prior_entry previous (inactive_offender event) in
     let? weight := Penalties.compute_inactivity_decay (ReputationEntry.reputation entry)
       (PorConfig.inactivity_decay_gamma config) config in
     Ok (set_weight_of weight)).

Definition active_total (previous : ReputationVector) : option N :=
  checked_sum u128_max (map ReputationEntry.reputation
    (filter (λ entry, ReputationEntry.is_excluded entry = false) (values previous))).

Definition apply_reputation_penalties (next : ReputationList) (previous : ReputationVector)
    (ratings : list RatingRecord) (events : ReputationPenaltyEvents) (config : PorConfig.t) :
    result ReputationList PorError :=
  let? _ := PorConfig.validate config in
  bail (InvalidPenaltyEvents "event round must match the next snapshot")
    when events_round events ≠ list_round next ∨
         checked_add u64_max (vector_round previous) 1 ≠ Some (events_round events);
  let? acc := try_fold (admit_equivocation previous (events_round events)) (∅, ∅)
    (equivocations events) in
  let? _ := try_fold (admit_inactivity previous ratings) acc.1 (inactivity events) in
  let? staged :=
    if decide (equivocations events = []) then Ok (entries next)
    else
      let? total_weight := ok_or (active_total previous) SlashOverflow in
      try_fold (slash_entry previous acc.2 total_weight config) (entries next)
        (equivocations events) in
  let? staged := try_fold (decay_entry previous config) staged (inactivity events) in
  Ok (mkList (list_round next) staged).

End penalties.
End PenaltyEvents.

(** ** Replay: [audit.rs] *)

Module Replay.
Section replay.
Context `{Blake2b}.

(** An entry that was excluded before stays excluded. *)
Definition carry_exclusion (previous : ReputationVector) (entry : ReputationEntry.t) :
    ReputationEntry.t :=
  match find_entry (values previous) (ReputationEntry.node_id entry) with
  | Some prior =>
    if ReputationEntry.is_excluded prior
    then ReputationEntry.mk (ReputationEntry.node_id entry) 0
           (ReputationEntry.retained_reputation prior) true
    else entry
  | None => entry
  end.

(** The calculation path, from ratings to the clamped vector. *)
Definition calculate (previous : ReputationVector) (ratings : list RatingRecord) (round : N)
    (config : PorConfig.t) : result ReputationVector PorError :=
  let? batch := Ratings.build_rating_batch round ratings config in
  let? matrix := build_rating_matrix batch in
  let? normalized := Normalization.normalize_rating_matrix matrix config in
  let? contribution := LiquidRank.compute_liquid_rank_contribution normalized previous config in
  let? blended := Transition.blend_reputation_transition contribution previous config in
  Clamp.clamp_reputation_transition blended previous contribution config.

Definition replay_reputation_transition_with_penalties (previous_reputation : ReputationVector)
    (ratings : list RatingRecord) (round : N) (config : PorConfig.t)
    (penalties : option ReputationPenaltyEvents) : result ReputationList PorError :=
  let? _ := PorConfig.validate config in
  let? _ := validate_reputation_vector previous_reputation in
  let? _ := Commitments.penalty_events_commitment round penalties in
  let? clamped := calculate previous_reputation ratings round config in
  let next := mkList (vector_round clamped)
    (map (carry_exclusion previous_reputation) (values clamped)) in
  match penalties with
  | Some events =>
    PenaltyEvents.apply_reputation_penalties next previous_reputation ratings events config
  | None => Ok next
  end.

Definition replay_reputation_transition (previous_reputation : ReputationVector)
    (ratings : list RatingRecord) (round : N) (config : PorConfig.t) :
    result ReputationList PorError :=
  replay_reputation_transition_with_penalties previous_reputation ratings round config None.

End replay.
End Replay.

(** ** Construction: [block.rs] *)

Record ReputationBlockContext := mkContext {
  context_shard_id : list byte;
  context_wave : N;
  context_previous : option ReputationBlock
}.
Record CheckpointReputationBlockContext := mkCheckpoint {
  checkpoint_context_shard_id : list byte;
  checkpoint_context_source : RatingSourceCheckpoint;
  checkpoint_context_previous : option ReputationBlock
}.

Module Building.
Section building.
Context `{Blake2b}.

(** The same code is inlined in the wave builder and in both audits. *)
Definition previous_hash (shard : list byte) (round : N)
    (previous_block : option ReputationBlock) : result (option Hash32) PorError :=
  match previous_block with
  | Some previous =>
    bail PreviousReputationBlockShardMismatch when shard_id (header previous) ≠ shard;
    bail InvalidPreviousReputationBlockRound
      when checked_add u64_max (header_round (header previous)) 1 ≠ Some round;
    let? hash := Commitments.reputation_block_hash previous in
    Ok (Some hash)
  | None => Ok None
  end.

Definition build_reputation_block_with_penalties (context : ReputationBlockContext)
    (ratings : RatingBatch) (list : ReputationList) (config : PorConfig.t)
    (penalties : option ReputationPenaltyEvents) : result ReputationBlock PorError :=
  let? _ := PorConfig.validate config in
  let? _ := Evidence.validate_penalty_context penalties (context_shard_id context)
    (context_wave context) in
  let? _ := Commitments.validate_shard_id (context_shard_id context) in
  let? round := Ratings.rating_round_from_finalized_wave (context_wave context) in
  bail InvalidRatingRound when batch_round ratings ≠ round;
  bail InvalidReputationBlockRound when list_round list ≠ round;
  let? previous_hash := previous_hash (context_shard_id context) round
    (context_previous context) in
  let? ratings_hash := Commitments.rating_batch_commitment ratings config in
  let? penalties_hash := Commitments.penalty_events_commitment round penalties in
  let? reputation_root := Commitments.reputation_list_commitment list in
  let block := mkReputationBlock
    (mkHeader REPUTATION_BLOCK_VERSION (context_shard_id context) (context_wave context) None round
       previous_hash (Commitments.config_commitment config) ratings_hash penalties_hash
       reputation_root) list in
  let? _ := Commitments.validate_reputation_block block in
  Ok block.

Definition build_reputation_block (context : ReputationBlockContext) (ratings : RatingBatch)
    (list : ReputationList) (config : PorConfig.t) : result ReputationBlock PorError :=
  build_reputation_block_with_penalties context ratings list config None.

Definition build_checkpoint_reputation_block_with_penalties
    (context : CheckpointReputationBlockContext) (ratings : RatingBatch) (list : ReputationList)
    (config : PorConfig.t) (penalties : option ReputationPenaltyEvents) :
    result ReputationBlock PorError :=
  let shard := checkpoint_context_shard_id context in
  let source := checkpoint_context_source context in
  let? _ := PorConfig.validate config in
  let? _ := Commitments.validate_shard_id shard in
  let? _ := validate_source source in
  let? _ := Evidence.validate_checkpoint_penalty_context penalties shard source in
  let round := source_round source in
  bail InvalidRatingRound when batch_round ratings ≠ round;
  bail InvalidReputationBlockRound when list_round list ≠ round;
  let? previous_hash := previous_hash shard round (checkpoint_context_previous context) in
  let? ratings_hash := Commitments.checkpoint_rating_batch_commitment ratings source config in
  let? penalties_hash := Commitments.penalty_events_commitment round penalties in
  let? reputation_root := Commitments.reputation_list_commitment list in
  let block := mkReputationBlock
    (mkHeader CHECKPOINT_REPUTATION_BLOCK_VERSION shard 0 (Some source) round previous_hash
       (Commitments.config_commitment config) ratings_hash penalties_hash reputation_root) list in
  let? _ := Commitments.validate_reputation_block block in
  Ok block.

Definition build_checkpoint_reputation_block (context : CheckpointReputationBlockContext)
    (ratings : RatingBatch) (list : ReputationList) (config : PorConfig.t) :
    result ReputationBlock PorError :=
  build_checkpoint_reputation_block_with_penalties context ratings list config None.

End building.
End Building.

(** ** Audit: [audit.rs] *)

Module Audit.
Section audit.
Context `{Blake2b}.

(** The loop over both lists, each iterator written as what it has left. *)
Fixpoint compare_entries (expected proposed : list ReputationEntry.t) : result unit PorError :=
  match expected, proposed with
  | e :: expected, p :: proposed =>
    match cmp (ReputationEntry.node_id e) (ReputationEntry.node_id p) with
    | Lt => Err MissingReputationBlockEntry
    | Eq =>
      bail ReputationExclusionMismatch
        when ReputationEntry.is_excluded e ≠ ReputationEntry.is_excluded p;
      bail ReputationValueMismatch
        when ReputationEntry.reputation e ≠ ReputationEntry.reputation p ∨
             ReputationEntry.retained_reputation e ≠ ReputationEntry.retained_reputation p;
      compare_entries expected proposed
    | Gt => Err UnexpectedReputationBlockEntry
    end
  | _ :: _, [] => Err MissingReputationBlockEntry
  | [], _ :: _ => Err UnexpectedReputationBlockEntry
  | [], [] => Ok tt
  end.

Definition compare_reputation_lists (expected proposed : ReputationList) : result unit PorError :=
  compare_entries (entries expected) (entries proposed).

Definition verify_reputation_transition_with_penalties (previous_reputation : ReputationVector)
    (ratings : list RatingRecord) (proposed_block : ReputationBlock)
    (context : ReputationBlockContext) (config : PorConfig.t)
    (penalties : option ReputationPenaltyEvents) : result unit PorError :=
  let? _ := PorConfig.validate config in
  let? _ := Commitments.validate_reputation_block proposed_block in
  let? _ := Evidence.validate_penalty_context penalties (context_shard_id context)
    (context_wave context) in
  let header := header proposed_block in
  bail (UnsupportedReputationBlockAuditVersion (version header))
    when version header ≠ REPUTATION_BLOCK_VERSION;
  bail ReputationBlockShardMismatch when shard_id header ≠ context_shard_id context;
  bail ReputationBlockSourceWaveMismatch
    when header_source_finalized_wave header ≠ context_wave context;
  let? expected_previous_hash := Building.previous_hash (context_shard_id context)
    (header_round header) (context_previous context) in
  bail ReputationBlockPreviousHashMismatch
    when previous_reputation_hash header ≠ expected_previous_hash;
  bail ReputationBlockConfigHashMismatch
    when config_hash header ≠ Commitments.config_commitment config;
  let? expected_ratings_hash :=
    Commitments.rating_batch_commitment (mkBatch (header_round header) ratings) config in
  bail ReputationBlockRatingsHashMismatch when ratings_hash header ≠ expected_ratings_hash;
  let? expected_penalties_hash :=
    Commitments.penalty_events_commitment (header_round header) penalties in
  bail ReputationBlockPenaltiesHashMismatch
    when penalties_hash header ≠ expected_penalties_hash;
  let? expected := Replay.replay_reputation_transition_with_penalties previous_reputation ratings
    (list_round (reputation_list proposed_block)) config penalties in
  compare_reputation_lists expected (reputation_list proposed_block).

Definition verify_reputation_transition (previous_reputation : ReputationVector)
    (ratings : list RatingRecord) (proposed_block : ReputationBlock)
    (context : ReputationBlockContext) (config : PorConfig.t) : result unit PorError :=
  verify_reputation_transition_with_penalties previous_reputation ratings proposed_block context
    config None.

Definition verify_checkpoint_reputation_transition_with_penalties
    (previous_reputation : ReputationVector) (ratings : list RatingRecord)
    (proposed_block : ReputationBlock) (context : CheckpointReputationBlockContext)
    (config : PorConfig.t) (penalties : option ReputationPenaltyEvents) :
    result unit PorError :=
  let shard := checkpoint_context_shard_id context in
  let source := checkpoint_context_source context in
  let? _ := validate_source source in
  let? _ := Evidence.validate_checkpoint_penalty_context penalties shard source in
  let? _ := Commitments.validate_reputation_block proposed_block in
  let header := header proposed_block in
  bail (UnsupportedReputationBlockAuditVersion (version header))
    when version header ≠ CHECKPOINT_REPUTATION_BLOCK_VERSION;
  bail ReputationBlockShardMismatch when shard_id header ≠ shard;
  bail ReputationBlockSourceCheckpointMismatch when source_checkpoint header ≠ Some source;
  let? expected_previous_hash := Building.previous_hash shard (header_round header)
    (checkpoint_context_previous context) in
  bail ReputationBlockPreviousHashMismatch
    when previous_reputation_hash header ≠ expected_previous_hash;
  bail ReputationBlockConfigHashMismatch
    when config_hash header ≠ Commitments.config_commitment config;
  let? expected_ratings_hash := Commitments.checkpoint_rating_batch_commitment
    (mkBatch (header_round header) ratings) source config in
  bail ReputationBlockRatingsHashMismatch when ratings_hash header ≠ expected_ratings_hash;
  let? expected_penalties_hash :=
    Commitments.penalty_events_commitment (header_round header) penalties in
  bail ReputationBlockPenaltiesHashMismatch
    when penalties_hash header ≠ expected_penalties_hash;
  let? expected := Replay.replay_reputation_transition_with_penalties previous_reputation ratings
    (header_round header) config penalties in
  compare_reputation_lists expected (reputation_list proposed_block).

Definition verify_checkpoint_reputation_transition (previous_reputation : ReputationVector)
    (ratings : list RatingRecord) (proposed_block : ReputationBlock)
    (context : CheckpointReputationBlockContext) (config : PorConfig.t) : result unit PorError :=
  verify_checkpoint_reputation_transition_with_penalties previous_reputation ratings
    proposed_block context config None.

End audit.
End Audit.
