(* ===== verification/PorAuditFacts.v ===== *)
(** * Facts about replay, construction and audit *)

From S2P Require Import Prelude Types PorTypes PorMath PorMathFacts Bytes PorCommit PorAudit.
From stdpp Require Import options.

(** ** The comparison of two lists is equality *)

Lemma compare_entries_Ok l k : Audit.compare_entries l k = Ok tt ↔ l = k.
Proof.
  split; [|intros ->].
  - revert k. induction l as [|[x r t b] l IH]; intros [|[y r' t' b'] k]; simpl; try done.
    destruct (list_cmp x y) eqn:Ec; [|done..].
    change (cmp x y = Eq) in Ec. apply cmp_eq in Ec as ->. intros H. invert_Ok H.
    apply IH in H as ->. destruct (decide (b = b')), (decide (r = r')), (decide (t = t'));
      subst; tauto.
  - induction k as [|e k IH]; [done|]. cbn [Audit.compare_entries]. rewrite cmp_refl.
    rewrite decide_False by tauto. by rewrite decide_False by tauto.
Qed.

(** ** Batches do not depend on the order of arrival *)

Definition valid_rating (round : N) (config : PorConfig.t) (r : RatingRecord) : Prop :=
  rating_round r = round ∧ Ratings.validate_rating r config = Ok tt.

(** No two ratings have the same rater and recipient. *)
Definition rated_once (ratings : list RatingRecord) : Prop :=
  NoDup (Ratings.rating_key <$> ratings).

Definition key_lt (x y : RatingRecord) : Prop :=
  ord_lt (Ratings.rating_key x) (Ratings.rating_key y).
#[export] Instance key_lt_trans : Transitive key_lt.
Proof. intros x y z. unfold key_lt. apply (transitivity (R := ord_lt)). Qed.

(** A sorted list without equal neighbours is strictly sorted. *)
Lemma reject_duplicates_Ok e l :
  StronglySorted (λ x y, ord_le (Ratings.rating_key x) (Ratings.rating_key y)) l →
  Ratings.reject_duplicates e l = Ok tt ↔ StronglySorted key_lt l.
Proof.
  intros Hs%StronglySorted_Sorted. unfold Ratings.reject_duplicates.
  transitivity (Sorted key_lt l);
    [|by split; [apply Sorted_StronglySorted, _|apply StronglySorted_Sorted]].
  induction l as [|x [|y l] IH]; [by split; [constructor|]|by split; [repeat constructor|]|].
  inversion Hs as [|? ? Hs' Hhd]; subst. inversion Hhd as [|? ? Hxy]; subst.
  cbn [windows2] in *. specialize (IH Hs'). rewrite result_bind_Ok.
  apply ord_le_lt_eq in Hxy. split.
  - intros ([] & [Hne _]%bail_Ok & Hl%IH). constructor; [done|]. constructor. destruct Hxy as [|E]; [done|].
    destruct Hne. unfold Ratings.rating_key in E. by injection E.
  - intros Hl. inversion Hl as [|? ? Hl' Hhd']; subst. inversion Hhd' as [|? ? Hlt]; subst.
    exists tt. split; [|by apply IH]. apply bail_Ok. split; [|done]. intros [E1 E2]. unfold key_lt, Ratings.rating_key in Hlt.
    rewrite E1, E2 in Hlt. by apply ord_lt_irrefl in Hlt.
Qed.

Lemma strictly_sorted_once l : StronglySorted key_lt l → rated_once l.
Proof.
  unfold rated_once. induction 1 as [|x l Hl IH Hx]; [constructor|]. simpl. constructor; [|done].
  intros (y & E & Hy)%list_elem_of_fmap. rewrite Forall_forall in Hx. specialize (Hx y Hy).
  unfold key_lt in Hx. rewrite E in Hx. by apply ord_lt_irrefl in Hx.
Qed.
Lemma once_strictly_sorted l :
  StronglySorted (λ x y, ord_le (Ratings.rating_key x) (Ratings.rating_key y)) l →
  rated_once l → StronglySorted key_lt l.
Proof.
  unfold rated_once. induction 1 as [|x l Hl IH Hx]; [constructor|]. simpl.
  intros [Hn Hd]%NoDup_cons. constructor; [by apply IH|]. rewrite Forall_forall in Hx |- *.
  intros y Hy. destruct (proj1 (ord_le_lt_eq _ _) (Hx y Hy)) as [|E]; [done|].
  destruct Hn. rewrite E. by apply list_elem_of_fmap_2.
Qed.

Lemma sort_ratings_unique l k :
  StronglySorted key_lt l → StronglySorted key_lt k → l ≡ₚ k → l = k.
Proof.
  intros Hl Hk E. apply (StronglySorted_unique_strong key_lt); [|done..].
  intros x y _ _ Hxy Hyx. exfalso. apply (ord_lt_irrefl (Ratings.rating_key x)). by trans (Ratings.rating_key y).
Qed.

Lemma build_rating_batch_Ok round ratings config batch :
  Ratings.build_rating_batch round ratings config = Ok batch ↔
  (∀ r, r ∈ ratings → valid_rating round config r) ∧ rated_once ratings ∧
  batch = mkBatch round (sort_by_key Ratings.rating_key ratings).
Proof.
  unfold Ratings.build_rating_batch. rewrite result_bind_Ok.
  assert (∀ (x y : RatingRecord), (bail InvalidRatingRound when rating_round x ≠ round;
    let? _ := Ratings.validate_rating x config in Ok x) = Ok y → y = x) as Hid.
  { intros x y H. invert_Ok H. by injection H. }
  setoid_rewrite (try_map_check _ _ _ Hid). clear Hid.
  pose proof (sort_by_key_sorted Ratings.rating_key ratings) as Hsorted.
  assert (rated_once ratings ↔ StronglySorted key_lt (sort_by_key Ratings.rating_key ratings)) as Honce.
  { split; intros H.
    - apply once_strictly_sorted; [done|]. unfold rated_once. by rewrite sort_by_key_perm.
    - apply strictly_sorted_once in H. unfold rated_once in *. by rewrite sort_by_key_perm in H. }
  rewrite Honce. split.
  - intros (v & [-> Hv] & H). apply result_bind_Ok in H as ([] & Hd & [= <-]).
    apply reject_duplicates_Ok in Hd; [|done]. split_and!; [|done..].
    intros r Hr. specialize (Hv r Hr). invert_Ok Hv. split; [|done].
    by destruct (decide (rating_round r = round)).
  - intros (Hv & Hd & ->). exists ratings. split_and!; [done|..].
    + intros r Hr. destruct (Hv r Hr) as [Er Hok]. rewrite decide_False by tauto. by rewrite Hok.
    + apply reject_duplicates_Ok with (e := DuplicateRating) in Hd; [|done]. by rewrite Hd.
Qed.

Lemma sort_ratings_perm l k :
  rated_once l → l ≡ₚ k → sort_by_key Ratings.rating_key l = sort_by_key Ratings.rating_key k.
Proof.
  intros Hl E. apply sort_ratings_unique.
  - apply once_strictly_sorted; [apply sort_by_key_sorted|].
    unfold rated_once. by rewrite sort_by_key_perm.
  - apply once_strictly_sorted; [apply sort_by_key_sorted|].
    unfold rated_once in *. by rewrite sort_by_key_perm, <-E.
  - by rewrite !sort_by_key_perm.
Qed.

Lemma build_rating_batch_perm round ratings ratings' config batch :
  ratings ≡ₚ ratings' → Ratings.build_rating_batch round ratings config = Ok batch →
  Ratings.build_rating_batch round ratings' config = Ok batch.
Proof.
  rewrite !build_rating_batch_Ok. intros E (Hv & Hd & ->). split_and!.
  - intros r. rewrite <-E. apply Hv.
  - unfold rated_once in *. by rewrite <-E.
  - by rewrite (sort_ratings_perm ratings ratings').
Qed.

(** The matrix of a batch is the batch. *)
Lemma build_matrix_of_batch round ratings config batch :
  Ratings.build_rating_batch round ratings config = Ok batch →
  build_rating_matrix batch = Ok (mkMatrix round (batch_ratings batch)).
Proof.
  rewrite build_rating_batch_Ok. intros (Hv & Hd & ->). unfold build_rating_matrix. cbn [batch_ratings batch_round].
  set (l := sort_by_key Ratings.rating_key ratings).
  assert (StronglySorted key_lt l) as Hl.
  { apply once_strictly_sorted; [apply sort_by_key_sorted|]. unfold rated_once.
    unfold l. by rewrite sort_by_key_perm. }
  assert (sort_by_key Ratings.rating_key l = l) as El.
  { apply sort_ratings_unique; [|done|apply sort_by_key_perm].
    apply once_strictly_sorted; [apply sort_by_key_sorted|]. unfold rated_once.
    rewrite sort_by_key_perm. by apply strictly_sorted_once. }
  assert (∃ u, try_map (λ rating, bail InvalidRatingRound when rating_round rating ≠ round; Ok tt) l = Ok u)
    as [u ->].
  { exists (map (λ _, tt) l). apply try_map_Ok. apply Forall2_fmap_r, Forall_Forall2_diag.
    apply Forall_forall. intros r Hr. unfold l in Hr. rewrite sort_by_key_perm in Hr.
    apply Hv in Hr as [Er _]. by rewrite decide_False by tauto. }
  cbn [result_bind]. rewrite El.
  apply (reject_duplicates_Ok DuplicateMatrixEntry) in Hl as ->; [done|].
  unfold l. apply sort_by_key_sorted.
Qed.

(** ** Replay *)

Lemma calculate_perm previous ratings ratings' round config v :
  ratings ≡ₚ ratings' → Replay.calculate previous ratings round config = Ok v →
  Replay.calculate previous ratings' round config = Ok v.
Proof.
  unfold Replay.calculate. intros E H. apply result_bind_Ok in H as (batch & Hb & H).
  by rewrite (build_rating_batch_perm _ _ _ _ _ E Hb).
Qed.

Lemma admit_inactivity_perm previous ratings ratings' seen event :
  ratings ≡ₚ ratings' →
  PenaltyEvents.admit_inactivity previous ratings seen event =
  PenaltyEvents.admit_inactivity previous ratings' seen event.
Proof.
  intros E. unfold PenaltyEvents.admit_inactivity.
  set (f := λ rating, _ || _). assert (existsb f ratings = existsb f ratings') as ->; [|done].
  apply eq_iff_eq_true. rewrite !existsb_true.
  by setoid_rewrite E.
Qed.

Lemma try_fold_ext {A B E} (f g : B → A → result B E) acc l :
  (∀ acc x, f acc x = g acc x) → try_fold f acc l = try_fold g acc l.
Proof.
  intros Hfg. revert acc. induction l as [|x l IH]; intros acc; [done|]. simpl. rewrite Hfg.
  destruct (g acc x); simpl; auto.
Qed.

Section replay.
Context `{Blake2b}.

Lemma calculate_round previous ratings round config v :
  Replay.calculate previous ratings round config = Ok v → vector_round v = round.
Proof.
  unfold Replay.calculate. intros H1. invert_Ok H1.
  match goal with Hb : Ratings.build_rating_batch _ _ _ = Ok _ |- _ =>
    pose proof (build_matrix_of_batch _ _ _ _ Hb) as Hm; rewrite Hm in * end.
  simplify_eq.
  unfold Normalization.normalize_rating_matrix, LiquidRank.compute_liquid_rank_contribution,
    Transition.blend_reputation_transition, Clamp.clamp_reputation_transition,
    Clamp.clamp_reputation_vector in *.
  repeat match goal with Hx : _ = Ok _ |- _ => progress invert_Ok Hx end.
  simplify_eq/=. case_decide; invert_Ok H1; by simplify_eq/=.
Qed.

Lemma penalties_round next previous ratings events config out :
  PenaltyEvents.apply_reputation_penalties next previous ratings events config = Ok out →
  list_round out = list_round next.
Proof. unfold PenaltyEvents.apply_reputation_penalties. intros Ho. invert_Ok Ho. by simplify_eq. Qed.

Lemma replay_round previous ratings round config penalties out :
  Replay.replay_reputation_transition_with_penalties previous ratings round config penalties = Ok out →
  list_round out = round.
Proof.
  unfold Replay.replay_reputation_transition_with_penalties. intros Ho. invert_Ok Ho.
  match goal with Hc : Replay.calculate _ _ _ _ = Ok _ |- _ => apply calculate_round in Hc as Er end.
  destruct penalties as [events|]; [|by simplify_eq]. by apply penalties_round in Ho as ->.
Qed.

Lemma replay_validates previous ratings round config penalties out :
  Replay.replay_reputation_transition_with_penalties previous ratings round config penalties = Ok out →
  PorConfig.validate config = Ok tt.
Proof.
  unfold Replay.replay_reputation_transition_with_penalties. intros Ho. by invert_Ok Ho.
Qed.

Lemma replay_perm previous ratings ratings' round config penalties out :
  ratings ≡ₚ ratings' →
  Replay.replay_reputation_transition_with_penalties previous ratings round config penalties = Ok out →
  Replay.replay_reputation_transition_with_penalties previous ratings' round config penalties = Ok out.
Proof.
  unfold Replay.replay_reputation_transition_with_penalties. intros E Ho. invert_Ok Ho.
  match goal with Hc : Replay.calculate _ _ _ _ = Ok _ |- _ =>
    apply (calculate_perm _ _ _ _ _ _ E) in Hc; rewrite Hc end.
  replay_Ok. destruct penalties as [events|]; [|done].
  unfold PenaltyEvents.apply_reputation_penalties in *. invert_Ok Ho.
  match goal with Hx : try_fold (PenaltyEvents.admit_inactivity _ _) _ _ = Ok _ |- _ =>
    rewrite (try_fold_ext _ (PenaltyEvents.admit_inactivity previous ratings')) in Hx
      by (intros; by apply admit_inactivity_perm) end.
  rewrite decide_False by done. by replay_Ok.
Qed.

Lemma rating_commitment_perm round ratings ratings' config h :
  ratings ≡ₚ ratings' →
  Commitments.rating_batch_commitment (mkBatch round ratings) config = Ok h →
  Commitments.rating_batch_commitment (mkBatch round ratings') config = Ok h.
Proof.
  unfold Commitments.rating_batch_commitment, Commitments.rating_batch_payload.
  intros E Hh. invert_Ok Hh. invert_Ok Hok. cbn [batch_round batch_ratings] in *.
  match goal with Hb : Ratings.build_rating_batch _ _ _ = Ok _ |- _ =>
    rewrite (build_rating_batch_perm _ _ _ _ _ E Hb) end.
  cbn [result_bind]. replay_Ok. congruence.
Qed.
End replay.

(** ** Construction and audit *)

Section audit.
Context `{Blake2b}.

(** What both sides of a wave transition compute from their inputs. *)
Definition committed_block (context : ReputationBlockContext) (round : N)
    (previous_hash : option Hash32) (ratings_hash penalties_hash : Hash32) (config : PorConfig.t)
    (root : Hash32) (list : ReputationList) : ReputationBlock :=
  mkReputationBlock
    (mkHeader REPUTATION_BLOCK_VERSION (context_shard_id context) (context_wave context) None round
       previous_hash (Commitments.config_commitment config) ratings_hash penalties_hash root) list.

Record wave_block (context : ReputationBlockContext) (ratings : RatingBatch)
    (list : ReputationList) (config : PorConfig.t) (penalties : option ReputationPenaltyEvents)
    (block : ReputationBlock) : Prop := {
  wb_config : PorConfig.validate config = Ok tt;
  wb_penalties : Evidence.validate_penalty_context penalties (context_shard_id context)
    (context_wave context) = Ok tt;
  wb_round : Ratings.rating_round_from_finalized_wave (context_wave context) =
    Ok (batch_round ratings);
  wb_list_round : list_round list = batch_round ratings;
  wb_hashes : ∃ ph rh eh root,
    Building.previous_hash (context_shard_id context) (batch_round ratings)
      (context_previous context) = Ok ph ∧
    Commitments.rating_batch_commitment ratings config = Ok rh ∧
    Commitments.penalty_events_commitment (batch_round ratings) penalties = Ok eh ∧
    block = committed_block context (batch_round ratings) ph rh eh config root list;
  wb_valid : Commitments.validate_reputation_block block = Ok tt
}.

Lemma validate_block_parts block :
  Commitments.validate_reputation_block block = Ok tt →
  Commitments.validate_shard_id (shard_id (header block)) = Ok tt ∧
  Commitments.validate_header_source (header block) = Ok tt ∧
  header_round (header block) = list_round (reputation_list block) ∧
  Commitments.reputation_list_commitment (reputation_list block) =
    Ok (reputation_root (header block)).
Proof.
  unfold Commitments.validate_reputation_block. intros Hv. invert_Ok Hv. split_and!; try done.
  - by destruct (decide (header_round (header block) = list_round (reputation_list block))).
  - rewrite Hok1. f_equal. by destruct (decide (reputation_root (header block) = x)).
Qed.

Lemma wave_header_source h :
  version h = REPUTATION_BLOCK_VERSION → Commitments.validate_header_source h = Ok tt →
  source_checkpoint h = None ∧
  Ratings.rating_round_from_finalized_wave (header_source_finalized_wave h) = Ok (header_round h).
Proof.
  unfold Commitments.validate_header_source, Ratings.rating_round_from_finalized_wave.
  intros Ev Hh. rewrite decide_True in Hh by done. invert_Ok Hh.
  destruct (source_checkpoint h); [destruct Hguard; eauto|]. split; [done|]. apply ok_or_Ok.
  destruct (decide (checked_add u64_max (header_source_finalized_wave h) 1 = Some (header_round h)));
    tauto.
Qed.

Lemma build_Ok context ratings list config penalties block :
  Building.build_reputation_block_with_penalties context ratings list config penalties = Ok block ↔
  wave_block context ratings list config penalties block.
Proof.
  split.
  - unfold Building.build_reputation_block_with_penalties. intros Hb. invert_Ok Hb.
    injection Hb as <-. apply dec_stable in Hguard, Hguard0. rewrite <-Hguard in *.
    split; [done|done|congruence|congruence| |done]. do 4 eexists. split_and!; try done; congruence.
  - intros [Hc Hp Hr Hl (ph & rh & eh & root & E1 & E2 & E3 & ->) Hv].
    unfold Building.build_reputation_block_with_penalties.
    pose proof (validate_block_parts _ Hv) as (Hs & _ & _ & Hroot). cbn in Hs, Hroot.
    replay_Ok. rewrite decide_False by tauto. rewrite decide_False by tauto. replay_Ok.
    unfold committed_block in Hv. by rewrite Hv.
Qed.

Lemma verify_Ok previous ratings block context config penalties :
  Audit.verify_reputation_transition_with_penalties previous ratings block context config penalties
    = Ok tt ↔
  Replay.replay_reputation_transition_with_penalties previous ratings
    (list_round (reputation_list block)) config penalties = Ok (reputation_list block) ∧
  wave_block context (mkBatch (list_round (reputation_list block)) ratings)
    (reputation_list block) config penalties block.
Proof.
  split.
  - unfold Audit.verify_reputation_transition_with_penalties. intros Hv. invert_Ok Hv.
    repeat match goal with Hg : ¬ _ ≠ _ |- _ => apply dec_stable in Hg end.
    apply compare_entries_Ok in Hv.
    pose proof (validate_block_parts _ Hok0) as (Hs & Hsrc & Hround & Hroot).
    apply wave_header_source in Hsrc as [Hnone Hwave]; [|done].
    match goal with Hx : Replay.replay_reputation_transition_with_penalties _ _ _ _ _ = Ok ?l |- _ =>
      assert (l = reputation_list block) as El;
      [destruct l, (reputation_list block); apply replay_round in Hx as Er; simpl in *; congruence|
       rewrite El in *] end.
    split; [done|]. split; try done.
    + cbn. congruence.
    + cbn. destruct block as [h list]. destruct h. unfold committed_block. simpl in *. subst. eauto 10.
  - intros [Hr [Hc Hp Hw Hl (ph & rh & eh & root & E1 & E2 & E3 & Eb) Hv]].
    unfold Audit.verify_reputation_transition_with_penalties. cbn [batch_round batch_ratings] in *.
    rewrite Eb in *. cbn in Hw, E1, E2, E3, Hr |- *. replay_Ok.
    repeat (rewrite decide_False by tauto; replay_Ok). by apply compare_entries_Ok.
Qed.

(** The same for a transition bound to a checkpoint. *)
Definition committed_checkpoint_block (context : CheckpointReputationBlockContext)
    (previous_hash : option Hash32) (ratings_hash penalties_hash : Hash32) (config : PorConfig.t)
    (root : Hash32) (list : ReputationList) : ReputationBlock :=
  let source := checkpoint_context_source context in
  mkReputationBlock
    (mkHeader CHECKPOINT_REPUTATION_BLOCK_VERSION (checkpoint_context_shard_id context) 0
       (Some source) (source_round source) previous_hash (Commitments.config_commitment config)
       ratings_hash penalties_hash root) list.

Record checkpoint_block (context : CheckpointReputationBlockContext) (ratings : RatingBatch)
    (list : ReputationList) (config : PorConfig.t) (penalties : option ReputationPenaltyEvents)
    (block : ReputationBlock) : Prop := {
  cb_config : PorConfig.validate config = Ok tt;
  cb_source : validate_source (checkpoint_context_source context) = Ok tt;
  cb_penalties : Evidence.validate_checkpoint_penalty_context penalties
    (checkpoint_context_shard_id context) (checkpoint_context_source context) = Ok tt;
  cb_round : batch_round ratings = source_round (checkpoint_context_source context);
  cb_list_round : list_round list = source_round (checkpoint_context_source context);
  cb_hashes : ∃ ph rh eh root,
    Building.previous_hash (checkpoint_context_shard_id context)
      (source_round (checkpoint_context_source context)) (checkpoint_context_previous context)
      = Ok ph ∧
    Commitments.checkpoint_rating_batch_commitment ratings (checkpoint_context_source context)
      config = Ok rh ∧
    Commitments.penalty_events_commitment (source_round (checkpoint_context_source context))
      penalties = Ok eh ∧
    block = committed_checkpoint_block context ph rh eh config root list;
  cb_valid : Commitments.validate_reputation_block block = Ok tt
}.

Lemma build_checkpoint_Ok context ratings list config penalties block :
  Building.build_checkpoint_reputation_block_with_penalties context ratings list config penalties
    = Ok block ↔
  checkpoint_block context ratings list config penalties block.
Proof.
  split.
  - unfold Building.build_checkpoint_reputation_block_with_penalties. intros Hb. invert_Ok Hb.
    injection Hb as <-. apply dec_stable in Hguard, Hguard0.
    split; try done. do 4 eexists. split_and!; done.
  - intros [Hc Hs Hp Hr Hl (ph & rh & eh & root & E1 & E2 & E3 & ->) Hv].
    unfold Building.build_checkpoint_reputation_block_with_penalties.
    pose proof (validate_block_parts _ Hv) as (Hsh & _ & _ & Hroot). cbn in Hsh, Hroot.
    replay_Ok. rewrite decide_False by tauto. rewrite decide_False by tauto. replay_Ok.
    unfold committed_checkpoint_block in Hv. by rewrite Hv.
Qed.

Lemma checkpoint_header_source h :
  version h = CHECKPOINT_REPUTATION_BLOCK_VERSION → Commitments.validate_header_source h = Ok tt →
  header_source_finalized_wave h = 0%N ∧
  ∃ source, source_checkpoint h = Some source ∧ source_round source = header_round h ∧
    validate_source source = Ok tt.
Proof.
  unfold Commitments.validate_header_source. intros Ev Hh. rewrite Ev in Hh.
  rewrite decide_False, decide_True in Hh by done. invert_Ok Hh.
  destruct (decide (header_source_finalized_wave h = 0%N)); [|tauto]. split; [done|].
  destruct (source_checkpoint h) as [source|]; [|done]. exists source. injection Hok as ->.
  apply map_err_Ok in Hh. split_and!; [done| |done].
  destruct (decide (source_round x = header_round h)); [done|]. destruct Hguard. right. simpl.
  congruence.
Qed.

Lemma verify_checkpoint_Ok previous ratings block context config penalties :
  Audit.verify_checkpoint_reputation_transition_with_penalties previous ratings block context
    config penalties = Ok tt ↔
  Replay.replay_reputation_transition_with_penalties previous ratings
    (list_round (reputation_list block)) config penalties = Ok (reputation_list block) ∧
  checkpoint_block context (mkBatch (list_round (reputation_list block)) ratings)
    (reputation_list block) config penalties block.
Proof.
  split.
  - unfold Audit.verify_checkpoint_reputation_transition_with_penalties. intros Hv. invert_Ok Hv.
    repeat match goal with Hg : ¬ _ ≠ _ |- _ => apply dec_stable in Hg end.
    apply compare_entries_Ok in Hv.
    match goal with Hx : Commitments.validate_reputation_block _ = Ok tt |- _ =>
      pose proof (validate_block_parts _ Hx) as (Hs & Hsrc & Hround & Hroot) end.
    apply checkpoint_header_source in Hsrc as (Hwave & source & Es & Er & _); [|done].
    assert (source = checkpoint_context_source context) as -> by congruence.
    match goal with Hx : Replay.replay_reputation_transition_with_penalties _ _ _ _ _ = Ok ?l |- _ =>
      assert (l = reputation_list block) as El;
      [destruct l, (reputation_list block); apply replay_round in Hx as Ex; simpl in *; congruence|
       rewrite El in *] end.
    destruct block as [h list]. destruct h. simpl in *. subst. rewrite Hround in *.
    split; [done|]. split; try done.
    { match goal with Hx : Replay.replay_reputation_transition_with_penalties _ _ _ _ _ = Ok _ |- _ =>
        by apply replay_validates in Hx end. }
    cbn. unfold committed_checkpoint_block.
    rewrite Hround. do 4 eexists. split_and!; done.
  - intros [Hr [Hc Hs Hp Hw Hl (ph & rh & eh & root & E1 & E2 & E3 & Eb) Hv]].
    unfold Audit.verify_checkpoint_reputation_transition_with_penalties.
    cbn [batch_round batch_ratings] in *.
    rewrite Eb in *. cbn in Hw, E1, E2, E3, Hr |- *. rewrite <-Hw in *. replay_Ok.
    repeat (rewrite decide_False by tauto; replay_Ok). by apply compare_entries_Ok.
Qed.
End audit.
