(* ===== verification/PorReplayFacts.v ===== *)
(** * What a replay computes, and what penalties do

    The pipeline of the replay as one function of a node: the abstract
    specification [next_entry], over unbounded numbers and an unordered set of
    ratings; and the penalty stage as a pointwise function of the node. *)

From S2P Require Import Prelude Types Bytes PorTypes PorMath PorMathFacts PorCommit PorAudit.
From S2P Require Import PorAuditFacts.
From stdpp Require Import options.

(** ** The specification *)

(** The liquid rank share of a node: the normalized scores it received, each
    weighted by the reputation of its rater. *)
Definition received (ratings : list RatingRecord) (id : NodeId) : list RatingRecord :=
  filter (λ r, recipient r = id) ratings.
Definition share (config : PorConfig.t) (previous : ReputationVector)
    (ratings : list RatingRecord) (id : NodeId) : option N :=
  if decide (received ratings id = []) then None
  else Some (sum_N (map (λ r,
    normalized_of (PorConfig.scale config) (received ratings id) (score r) *
    default 0 (rep_of (values previous) (rater r)))%N (received ratings id)) /
    PorConfig.scale config)%N.

Definition next_value (config : PorConfig.t) (p c : option N) : option N :=
  match p, c with
  | None, None => None
  | Some p, None =>
    Some (if decide (PorConfig.missing_entry_policy config = CarryForward) then p
          else clamp_value (mix config (unrated config p) p) (PorConfig.scale config))
  | p, Some c =>
    Some (clamp_value (mix config c (default (PorConfig.initial_reputation config) p))
            (PorConfig.scale config))
  end.

(** An excluded key keeps its retained balance and has no weight. *)
Definition exclusion_kept (previous : ReputationVector) (id : NodeId) (v : N) : ReputationEntry.t :=
  match find_entry (values previous) id with
  | Some prior =>
    if ReputationEntry.is_excluded prior
    then ReputationEntry.mk id 0 (ReputationEntry.retained_reputation prior) true
    else ReputationEntry.new id v
  | None => ReputationEntry.new id v
  end.

Definition next_entry (config : PorConfig.t) (previous : ReputationVector)
    (ratings : list RatingRecord) (id : NodeId) : option ReputationEntry.t :=
  exclusion_kept previous id <$>
    next_value config (rep_of (values previous) id) (share config previous ratings id).

(** ** Normalization *)

Lemma min_max_perm g g' : g ≡ₚ g' → Normalization.min_max g = Normalization.min_max g'.
Proof.
  intros E. destruct (decide (g = [])) as [->|Hne].
  { apply Permutation_nil_l in E as ->. done. }
  assert (g' ≠ []) as Hne' by (intros ->; by apply Permutation_nil_r in E).
  destruct (min_max_attained g Hne) as (x & y & Hx & Hy & Ex & Ey).
  destruct (min_max_attained g' Hne') as (x' & y' & Hx' & Hy' & Ex' & Ey').
  rewrite E in Hx, Hy. rewrite <-E in Hx', Hy'.
  apply min_max_bounds in Hx, Hy, Hx', Hy'.
  rewrite (surjective_pairing (Normalization.min_max g)),
    (surjective_pairing (Normalization.min_max g')). f_equal; lia.
Qed.
#[export] Instance normalized_of_Proper scale :
  Proper ((≡ₚ) ==> (=) ==> (=)) (normalized_of scale).
Proof. intros g g' E s s' <-. unfold normalized_of. by rewrite (min_max_perm _ _ E). Qed.

Definition normalized_entry (scale : N) (l : list RatingRecord) (r : RatingRecord) :
    NormalizedRatingEntry :=
  mkNormalized (rater r) (recipient r) (score r)
    (normalized_of scale (received l (recipient r)) (score r)).

Lemma mjoin_map_map {A B} (f : A → B) (ls : list (list A)) :
  mjoin (map (map f) ls) = map f (mjoin ls).
Proof. induction ls as [|l ls IH]; [done|]. simpl. by rewrite IH, map_app. Qed.

Lemma normalize_matrix_Ok l round config m :
  StronglySorted (λ x y, ord_le (recipient x) (recipient y)) l →
  fits_u64 (PorConfig.scale config) →
  Normalization.normalize_rating_matrix (mkMatrix round l) config = Ok m →
  m = mkNormalizedMatrix round (map (normalized_entry (PorConfig.scale config) l) l).
Proof.
  intros Hs Hfit. unfold Normalization.normalize_rating_matrix. intros Hm. invert_Ok Hm.
  injection Hm as <-. simpl. f_equal. cbn [matrix_ratings] in Hok.
  destruct (chunk_by_groups recipient l Hs) as (ks & _ & _ & Ec).
  pose proof (chunk_by_concat recipient l) as Hcat. unfold same_key in *. rewrite Ec in *.
  rewrite <-Hcat at 2. rewrite <-mjoin_map_map. f_equal. clear Ec Hcat.
  apply try_map_Ok in Hok. revert x Hok. induction ks as [|k ks IH]; intros x Hx; simpl in Hx;
    inversion Hx as [|? g ? gs Hg Hgs]; subst; [done|]. simpl. f_equal; [|by apply IH].
  rewrite normalize_group_spec in Hg by (unfold fits_u64 in *; lia).
  case_decide; [done|]. injection Hg as <-. apply map_ext_in.
  intros r [Er _]%list_elem_of_In%list_elem_of_filter. unfold normalized_entry, received.
  by rewrite Er.
Qed.

Lemma recipient_group_map scale k l id :
  recipient_group (map (normalized_entry scale k) l) id =
  map (normalized_entry scale k) (received l id).
Proof.
  unfold recipient_group, received. induction l as [|r l IH]; [done|]. simpl.
  rewrite !filter_cons. simpl. case_decide; [|done]. simpl. by rewrite IH.
Qed.

(** ** Liquid rank *)

Lemma received_perm l l' id : l ≡ₚ l' → received l id ≡ₚ received l' id.
Proof. unfold received. by intros ->. Qed.

Lemma share_contribution config previous ratings l round v :
  l ≡ₚ ratings → StronglySorted (λ x y, ord_le (recipient x) (recipient y)) l →
  LiquidRank.compute_liquid_rank_contribution
    (mkNormalizedMatrix round (map (normalized_entry (PorConfig.scale config) l) l)) previous config
    = Ok v →
  vector_round v = round ∧ sorted_entries (values previous) ∧ sorted_entries (values v) ∧
  values_fit (values v) ∧ (∀ r, r ∈ ratings → is_Some (rep_of (values previous) (rater r))) ∧
  ∀ id, rep_of (values v) id = share config previous ratings id.
Proof.
  intros E Hs Hv. apply contribution_spec in Hv as (H1 & H2 & H3 & H4 & H5 & H6).
  2:{ simpl. clear -Hs. generalize l at 1. intros k. induction Hs as [|r l Hl IH Hr]; simpl; [constructor|].
      constructor; [done|]. by apply Forall_map. }
  simpl in *. split_and!; [done..| |].
  - intros r Hr. rewrite <-E in Hr. apply (H5 (normalized_entry (PorConfig.scale config) l r)).
    by apply list_elem_of_fmap_2.
  - intros id. unfold rep_of at 1. rewrite H6. simpl. rewrite recipient_group_map.
    unfold share. pose proof (received_perm _ _ id E) as Ep.
    assert (map (normalized_entry (PorConfig.scale config) l) (received l id) = [] ↔
      received ratings id = []) as Hnil.
    { split.
      - intros En. apply map_eq_nil in En. rewrite En in Ep. by apply Permutation_nil_l in Ep.
      - intros En. rewrite En in Ep. by apply Permutation_nil_r in Ep as ->. }
    destruct (decide (received ratings id = [])) as [Hn|Hn].
    + by rewrite decide_True by tauto.
    + rewrite decide_False by tauto. simpl. do 2 f_equal. unfold weighted_sum. rewrite map_map.
      apply sum_N_perm. simpl.
      transitivity (map (λ r, (normalized_of (PorConfig.scale config) (received ratings id) (score r) *
        default 0 (rep_of (values previous) (rater r)))%N) (received l id)); [|by apply fmap_Permutation].
      apply reflexive_eq, map_ext_in. intros r [Er _]%list_elem_of_In%list_elem_of_filter.
      by rewrite Er, Ep.
Qed.

(** ** The blend and the clamp *)

(** Under [Reject] the loop only returns when both vectors name the same nodes. *)
Lemma blend_reject config cs ps out :
  PorConfig.missing_entry_policy config = Reject →
  Transition.blend_entries config cs ps = Ok out →
  ReputationEntry.node_id <$> cs = ReputationEntry.node_id <$> ps.
Proof.
  intros Hp. revert ps out. induction cs as [|c cs IH]; intros [|p ps] out; cbn [Transition.blend_entries];
    unfold Transition.contribution_alone, Transition.previous_alone, Transition.in_both,
    Transition.push_blended, Transition.previous_for_new_node, Transition.contribution_for_unrated_node;
    rewrite ?Hp; try done.
  destruct (cmp _ _) eqn:Ec; try done. apply cmp_eq in Ec. intros Ho. invert_Ok Ho.
  rewrite !fmap_cons, Ec. f_equal. by eapply IH.
Qed.

Lemma rep_of_nodes l id : is_Some (rep_of l id) ↔ id ∈ ReputationEntry.node_id <$> l.
Proof.
  unfold rep_of. rewrite fmap_is_Some, list_elem_of_fmap. split.
  - intros [e He]. apply find_entry_elem in He as [He <-]. eauto.
  - intros (e & -> & He). destruct (find_entry l _) eqn:Ef; [eauto|].
    rewrite find_entry_None in Ef. by apply Ef in He.
Qed.

Lemma clamp_Ok config v o :
  fits_u64 (PorConfig.scale config) → fits_u64 v →
  Clamp.clamp_reputation_value v (PorConfig.scale config) = Ok o →
  o = clamp_value v (PorConfig.scale config).
Proof.
  intros Hs Hv. rewrite clamp_spec by done. case_decide; [done|]. case_decide as H0.
  - intros [= <-]. subst v. unfold clamp_value. rewrite N.mul_0_l, N.add_0_l.
    symmetry. apply N.div_small. apply N.div_lt; [|lia].
    destruct (clamp_denom_ge 0 (PorConfig.scale config)). lia.
  - case_decide; [done|]. by intros [= <-].
Qed.

Lemma blended_value_fits config c p v :
  valid_config config → fits_u64 (PorConfig.scale config) →
  (∀ x, c = Some x → fits_u64 x) → (∀ x, p = Some x → fits_u64 x) →
  blended_value config c p = Some v → fits_u64 v.
Proof.
  intros Hv Hs Hc Hp. pose proof (initial_fits config Hv Hs) as Hi. unfold fits_u64 in *.
  assert (∀ x y, x <= u64_max → y <= u64_max → mix config x y <= u64_max)%N as Hm.
  { intros x y ? ?. pose proof (mix_between config x y Hv). lia. }
  destruct c as [c|], p as [p|]; simpl; intros [= <-]; apply Hm; auto.
  unfold unrated. destruct (PorConfig.missing_entry_policy config); auto.
Qed.

Lemma rep_of_fits l id v : values_fit l → rep_of l id = Some v → fits_u64 v.
Proof.
  unfold rep_of. intros Hl. destruct (find_entry l id) as [e|] eqn:E; [|done]. intros [= <-].
  apply find_entry_elem in E as [? _]. by apply Hl.
Qed.

Lemma blend_Ok config contribution previous v :
  fits_u64 (PorConfig.scale config) → values_fit (values contribution) → values_fit (values previous) →
  Transition.blend_reputation_transition contribution previous config = Ok v →
  valid_config config ∧ checked_add u64_max (vector_round previous) 1 = Some (vector_round v) ∧
  vector_round v = vector_round contribution ∧
  sorted_entries (values contribution) ∧ sorted_entries (values previous) ∧
  blended config (values contribution) (values previous) (values v).
Proof.
  intros Hs Hc Hp. unfold Transition.blend_reputation_transition. intros Hb. invert_Ok Hb.
  repeat match goal with
    | Hx : PorConfig.validate _ = _ |- _ => apply validate_valid in Hx as Hvalid; clear Hx
    | Hx : LiquidRank.validate_reputation_order _ = _ |- _ => apply validate_order_sorted in Hx end.
  injection Hb as <-. simpl. split_and!; try done; [by apply dec_stable|].
  match goal with Hx : Transition.blend_entries _ _ _ = Ok ?o |- _ =>
    destruct (blend_entries_spec config Hvalid Hs
      (length (values contribution) + length (values previous))
      (values contribution) (values previous)) as (out & Eo & Hout); try done;
    [|rewrite Eo in Hx; by injection Hx as <-] end.
  destruct (decide (PorConfig.missing_entry_policy config = Reject)) as [Er|]; [right|by left].
  intros id. rewrite !rep_of_nodes. by erewrite blend_reject.
Qed.

(** Node by node, the clamp of the transition maps the blended value. *)
Definition clamped_value (config : PorConfig.t) (p c : option N) (v : N) : N :=
  match p, c with
  | Some p, None =>
    if decide (PorConfig.missing_entry_policy config = CarryForward) then p
    else clamp_value v (PorConfig.scale config)
  | _, _ => clamp_value v (PorConfig.scale config)
  end.

Lemma clamp_transition_Ok config bl previous contribution out :
  fits_u64 (PorConfig.scale config) → values_fit (values bl) →
  sorted_entries (values bl) → sorted_entries (values previous) →
  sorted_entries (values contribution) →
  Clamp.clamp_reputation_transition bl previous contribution config = Ok out →
  vector_round out = vector_round bl ∧ sorted_entries (values out) ∧
  ∀ id, find_entry (values out) id =
    ReputationEntry.new id <$> (clamped_value config (rep_of (values previous) id)
      (rep_of (values contribution) id) <$> rep_of (values bl) id).
Proof.
  intros Hs Hfit Hb Hp Hc. unfold Clamp.clamp_reputation_transition.
  set (R := λ e o, o = ReputationEntry.new (ReputationEntry.node_id e) (clamped_value config
    (rep_of (values previous) (ReputationEntry.node_id e))
    (rep_of (values contribution) (ReputationEntry.node_id e)) (ReputationEntry.reputation e))).
  assert (∀ out, Forall2 R (values bl) (values out) → sorted_entries (values out) ∧
    ∀ id, find_entry (values out) id =
    ReputationEntry.new id <$> (clamped_value config (rep_of (values previous) id)
      (rep_of (values contribution) id) <$> rep_of (values bl) id)) as Hmain.
  { intros o HR. destruct (Forall2_nodes R _ _ ltac:(by intros ?? ->) HR) as [Hso Hf].
    split; [by apply Hso|]. intros id. specialize (Hf id). unfold rep_of at 3.
    destruct (find_entry (values bl) id) as [e|] eqn:Ee, (find_entry (values o) id); simpl; try done.
    unfold R in Hf. apply find_entry_elem in Ee as [_ <-]. by rewrite Hf. }
  unfold R in Hmain. destruct (decide (PorConfig.missing_entry_policy config ≠ CarryForward)) as [Hpol|Hpol].
  - intros [Er Hv]%clamp_vector_Ok. split; [done|]. apply Hmain.
    apply Forall2_same_length_lookup. split; [by eapply Forall2_length|].
    intros i e o Hei Hoi. eapply Forall2_lookup_lr in Hv as [Ho Hv]; [|done..].
    apply clamp_Ok in Hv; [|done|by eapply Hfit, list_elem_of_lookup_2].
    rewrite Ho, Hv. f_equal. unfold clamped_value. by repeat case_match.
  - apply dec_stable in Hpol. intros Ho. invert_Ok Ho. injection Ho as <-.
    apply clamp_entries_Ok in Hok; [|done..]. split; [done|]. apply Hmain. simpl.
    apply Forall2_same_length_lookup. split; [by eapply Forall2_length|].
    intros i e o Hei Hoi. eapply Forall2_lookup_lr in Hok as [Ho Hv]; [|done..].
    assert (fits_u64 (ReputationEntry.reputation e)) by (by eapply Hfit, list_elem_of_lookup_2).
    rewrite Ho. f_equal. unfold clamped_value.
    repeat case_match; try done; by apply clamp_Ok in Hv.
Qed.

Lemma calculate_spec previous ratings round config out :
  fits_u64 (PorConfig.scale config) → values_fit (values previous) →
  Replay.calculate previous ratings round config = Ok out →
  vector_round out = round ∧ checked_add u64_max (vector_round previous) 1 = Some round ∧
  sorted_entries (values previous) ∧ sorted_entries (values out) ∧
  (∀ r, r ∈ ratings → valid_rating round config r ∧ is_Some (rep_of (values previous) (rater r))) ∧
  ∀ id, find_entry (values out) id = ReputationEntry.new id <$>
    next_value config (rep_of (values previous) id) (share config previous ratings id).
Proof.
  intros Hs Hfit Hc. pose proof (calculate_round _ _ _ _ _ Hc) as Hround.
  unfold Replay.calculate in Hc. invert_Ok Hc.
  rewrite (build_matrix_of_batch _ _ _ _ Hok) in Hok0. injection Hok0 as <-.
  apply build_rating_batch_Ok in Hok as (Hvalid & Honce & ->). cbn [batch_ratings] in *.
  set (l := sort_by_key Ratings.rating_key ratings) in *.
  assert (l ≡ₚ ratings) as El by apply sort_by_key_perm.
  assert (StronglySorted (λ x y, ord_le (recipient x) (recipient y)) l) as Hl.
  { pose proof (sort_by_key_sorted Ratings.rating_key ratings) as Hsorted. fold l in Hsorted.
    clear -Hsorted. induction Hsorted as [|x l' _ IH Hx]; constructor; [done|].
    eapply Forall_impl; [exact Hx|]. intros y Hy. unfold Ratings.rating_key, ord_le in *. simpl in Hy.
    by destruct (list_cmp (recipient x) (recipient y)) eqn:E; simpl; rewrite ?E in *. }
  apply normalize_matrix_Ok in Hok1 as ->; [|done..].
  apply (share_contribution _ _ ratings) in Hok2 as (H1 & _ & H3 & H4 & H5 & H6); [|done..].
  apply blend_Ok in Hok3 as (Hv & Hr & Hr' & _ & Hp & Hbs & Hbf); [|done..].
  assert (∀ id, rep_of (values x3) id =
    blended_value config (share config previous ratings id) (rep_of (values previous) id)) as Hbl.
  { intros id. unfold rep_of at 1. rewrite Hbf, H6. by destruct (blended_value _ _ _). }
  apply clamp_transition_Ok in Hc as (Hcr & Hcs & Hcf); [|done| |done..].
  2:{ intros e He. pose proof (find_entry_sorted _ _ Hbs He) as Ef.
      assert (rep_of (values x3) (ReputationEntry.node_id e) = Some (ReputationEntry.reputation e))
        as Er by (unfold rep_of; by rewrite Ef). rewrite Hbl, <-H6 in Er.
      eapply blended_value_fits; [exact Hv|done|..|exact Er]; intros ?; by apply rep_of_fits. }
  split_and!; [done| |done|done| |].
  - by rewrite Hr, <-Hcr, Hround.
  - intros r Hin. split; [by apply Hvalid|by apply H5].
  - intros id. rewrite Hcf, Hbl, H6. f_equal. unfold next_value, clamped_value, blended_value.
    destruct (rep_of (values previous) id), (share config previous ratings id); simpl; try done;
      by repeat case_decide.
Qed.

Section replay_spec.
Context `{Blake2b}.

Lemma map_nodes_sorted f l :
  (∀ e, ReputationEntry.node_id (f e) = ReputationEntry.node_id e) →
  sorted_entries l → sorted_entries (map f l).
Proof.
  intros Hf. induction 1 as [|e l Hl IH He]; simpl; constructor; [done|].
  apply Forall_map. eapply Forall_impl; [exact He|]. intros x. unfold entry_lt. simpl. by rewrite !Hf.
Qed.
Lemma find_entry_map_nodes f l id :
  (∀ e, ReputationEntry.node_id (f e) = ReputationEntry.node_id e) →
  find_entry (map f l) id = f <$> find_entry l id.
Proof.
  intros Hf. induction l as [|e l IH]; [done|]. simpl. rewrite !find_entry_cons, Hf, IH.
  by case_decide.
Qed.
Lemma carry_exclusion_node previous e :
  ReputationEntry.node_id (Replay.carry_exclusion previous e) = ReputationEntry.node_id e.
Proof. unfold Replay.carry_exclusion. by repeat case_match. Qed.

Lemma replay_list_spec previous ratings round config out :
  fits_u64 (PorConfig.scale config) → values_fit (values previous) →
  Replay.replay_reputation_transition previous ratings round config = Ok out →
  list_round out = round ∧ checked_add u64_max (vector_round previous) 1 = Some round ∧
  sorted_entries (entries out) ∧ (∀ id, find_entry (entries out) id = next_entry config previous ratings id).
Proof.
  intros Hs Hfit. unfold Replay.replay_reputation_transition,
    Replay.replay_reputation_transition_with_penalties. intros Hr. invert_Ok Hr.
  injection Hr as <-. match goal with Hx : Replay.calculate _ _ _ _ = Ok _ |- _ =>
    apply calculate_spec in Hx as (H1 & H2 & _ & H4 & _ & H6) end; [|done..].
  simpl. split_and!; [done..| |].
  - apply map_nodes_sorted; [apply carry_exclusion_node|done].
  - intros id. rewrite find_entry_map_nodes by apply carry_exclusion_node. rewrite H6.
    unfold next_entry. destruct (next_value _ _ _); [|done].
    unfold Replay.carry_exclusion, exclusion_kept. simpl. by repeat case_match.
Qed.
End replay_spec.

(** ** Penalties

    [apply_reputation_penalties] as a pointwise function of the node. *)

(** ** Updates of sorted entries *)

Lemma binary_search_Ok l id i :
  binary_search l id = Ok i →
  ∃ e, l !! i = Some e ∧ find_entry l id = Some e ∧ ReputationEntry.node_id e = id.
Proof.
  unfold find_entry. intros E. rewrite E. revert E. unfold binary_search.
  destruct (list_find _ l) as [[j e]|] eqn:Ef; [|done]. intros [= <-].
  apply list_find_Some in Ef as (? & ? & _). eauto.
Qed.
Lemma binary_search_Err l id i :
  binary_search l id = Err i →
  find_entry l id = None ∧
  i = partition_point (λ e, bool_decide (ord_lt (ReputationEntry.node_id e) id)) l.
Proof.
  unfold find_entry. intros E. rewrite E. split; [done|]. revert E. unfold binary_search.
  destruct (list_find _ l); [done|]. by intros [= <-].
Qed.

Lemma alter_entry l i e f id :
  sorted_entries l → l !! i = Some e → ReputationEntry.node_id e = id →
  (∀ x, ReputationEntry.node_id (f x) = ReputationEntry.node_id x) →
  sorted_entries (alter f i l) ∧
  ∀ id', find_entry (alter f i l) id' =
    if decide (id' = id) then Some (f e) else find_entry l id'.
Proof.
  intros Hs Hi <- Hf. revert i Hi. induction Hs as [|x l Hs IH Hx]; intros [|i] Hi; [done..| |].
  - simpl in Hi. injection Hi as ->. simpl. split.
    + constructor; [done|]. eapply Forall_impl; [exact Hx|]. intros y. unfold entry_lt. by rewrite Hf.
    + intros id'. rewrite !find_entry_cons, Hf.
      destruct (decide (id' = ReputationEntry.node_id e)) as [->|]; [by rewrite decide_True|].
      by rewrite !decide_False by congruence.
  - simpl in Hi. destruct (IH i Hi) as [IHs IHf].
    change (alter f (S i) (x :: l)) with (x :: alter f i l). split.
    + constructor; [done|]. rewrite Forall_forall in Hx |- *. intros y Hy.
      apply (find_entry_sorted _ _ IHs) in Hy. rewrite IHf in Hy. case_decide as Hd.
      * injection Hy as <-. unfold entry_lt. rewrite Hf. apply Hx. by eapply list_elem_of_lookup_2.
      * apply find_entry_elem in Hy as [Hy _]. by apply Hx.
    + intros id'. rewrite !find_entry_cons, IHf.
      destruct (decide (id' = ReputationEntry.node_id e)) as [->|]; [|done].
      rewrite decide_False; [done|]. intros E. rewrite Forall_forall in Hx.
      specialize (Hx e (list_elem_of_lookup_2 _ _ _ Hi)). unfold entry_lt in Hx. rewrite E in Hx.
      by apply ord_lt_irrefl in Hx.
Qed.

Lemma update_entry_Ok l id f out :
  sorted_entries l → (∀ g, f = Ok g → ∀ x, ReputationEntry.node_id (g x) = ReputationEntry.node_id x) →
  PenaltyEvents.update_entry l id f = Ok out →
  ∃ g e, f = Ok g ∧ find_entry l id = Some e ∧ sorted_entries out ∧
    ∀ id', find_entry out id' = if decide (id' = id) then Some (g e) else find_entry l id'.
Proof.
  intros Hs Hf. unfold PenaltyEvents.update_entry. destruct (binary_search l id) as [i|] eqn:Eb; [|done].
  intros Ho. invert_Ok Ho. injection Ho as <-. apply binary_search_Ok in Eb as (e & Hi & He & Eid).
  exists x, e. split_and!; [done..| |]; eapply alter_entry; eauto.
Qed.

(** A fold of updates at distinct nodes. *)
Lemma fold_updates {A} (key : A → NodeId) (G : A → ReputationEntry.t → ReputationEntry.t → Prop)
    (step : list ReputationEntry.t → A → result (list ReputationEntry.t) PorError) events l out :
  (∀ l x l', x ∈ events → sorted_entries l → step l x = Ok l' → sorted_entries l' ∧
    ∃ e e', find_entry l (key x) = Some e ∧ G x e e' ∧
    ∀ id, find_entry l' id = if decide (id = key x) then Some e' else find_entry l id) →
  NoDup (key <$> events) → sorted_entries l → try_fold step l events = Ok out →
  sorted_entries out ∧
  (∀ x, x ∈ events → ∃ e e', find_entry l (key x) = Some e ∧ G x e e' ∧
    find_entry out (key x) = Some e') ∧
  ∀ id, id ∉ key <$> events → find_entry out id = find_entry l id.
Proof.
  revert l. induction events as [|x events IH]; intros l Hstep Hd Hs; simpl.
  { intros [= <-]. split_and!; [done| |done]. by intros ? ?%elem_of_nil. }
  rewrite result_bind_Ok. intros (l' & Hl & Ho). simpl in Hd. apply NoDup_cons in Hd as [Hn Hd].
  destruct (Hstep _ _ _ (list_elem_of_here _ _) Hs Hl) as (Hs' & e & e' & He & HG & Hf).
  destruct (IH l') as (H1 & H2 & H3); [|done..|].
  { intros k y k' Hy. apply Hstep. by right. }
  split_and!; [done|..].
  - intros y [->|Hy]%elem_of_cons.
    + exists e, e'. split_and!; [done..|]. rewrite H3 by done. by rewrite Hf, decide_True.
    + destruct (H2 y Hy) as (a & a' & Ha & Hg & Hout). exists a, a'. split_and!; [|done..].
      rewrite <-Ha, Hf, decide_False; [done|]. intros E. apply Hn. rewrite <-E.
      by apply list_elem_of_fmap_2.
  - intros id Hid. rewrite H3 by set_solver. rewrite Hf, decide_False by set_solver. done.
Qed.

(** ** The arithmetic of a successful penalty *)

Definition slash_ratio (config : PorConfig.t) (equivocating total : N) : N :=
  if decide (equivocating * PorConfig.scale config <= total * PorConfig.correlation_threshold config)%N
  then PorConfig.base_slash_penalty config else PorConfig.scale config.
Definition survivor (config : PorConfig.t) (weight ratio : N) : N :=
  (weight * (PorConfig.scale config - ratio) / PorConfig.scale config)%N.

Lemma slash_penalty_inv equivocating total config p :
  Penalties.compute_slash_penalty_wide equivocating total config = Ok p →
  valid_config config ∧ p = slash_ratio config equivocating total ∧ (equivocating <= total)%N.
Proof.
  unfold Penalties.compute_slash_penalty_wide. intros Hp. invert_Ok Hp.
  apply validate_valid in Hok. apply ok_or_Ok, checked_mul_Some in Hok0 as [-> _], Hok1 as [-> _].
  injection Hp as <-. split_and!; [done..|]. apply N.le_ngt. tauto.
Qed.
Lemma survive_inv weight ratio config message overflow v :
  Penalties.survive weight ratio config message overflow = Ok v → v = survivor config weight ratio.
Proof.
  unfold Penalties.survive. intros Hv. invert_Ok Hv.
  apply ok_or_Ok, checked_sub_Some in Hok0 as [-> _]. apply ok_or_Ok, checked_mul_Some in Hok1 as [-> _].
  by injection Hv.
Qed.
Lemma survivor_le config weight ratio :
  PorConfig.scale config ≠ 0%N → (survivor config weight ratio <= weight)%N.
Proof.
  intros Hs. unfold survivor. apply N.div_le_upper_bound; [done|]. rewrite N.mul_comm.
  apply N.mul_le_mono_r. lia.
Qed.

(** ** Admission *)

Section penalties.
Context `{Blake2b}.
Import PenaltyEvents.
Implicit Types (previous : ReputationVector).

Definition active_prior previous (id : NodeId) (e : ReputationEntry.t) : Prop :=
  find_entry (values previous) id = Some e ∧ ReputationEntry.is_excluded e = false.

Lemma prior_entry_Ok previous id e : prior_entry previous id = Ok e ↔ active_prior previous id e.
Proof.
  unfold prior_entry, active_prior. rewrite result_bind_Ok. split.
  - intros (x & Hx%ok_or_Ok & Hb). apply bail_Ok in Hb as [Hn [= <-]]. split; [done|].
    by destruct (ReputationEntry.is_excluded x).
  - intros [Hx He]. exists e. split; [by apply ok_or_Ok|]. by rewrite decide_False by congruence.
Qed.

Definition event_round (event : EquivocationPenalty) : N :=
  from_option authorized_proof_round 0%N (authorization event).

Lemma proof_round_Ok event r : Evidence.proof_round event = Ok r → r = event_round event.
Proof.
  unfold Evidence.proof_round, event_round. intros Hr%ok_or_Ok.
  destruct (authorization event); [|done]. by injection Hr.
Qed.

(** The weight that equivocated in a proof round. *)
Definition equivocated previous (events : list EquivocationPenalty) (r : N) : N :=
  sum_N (map (λ e, default 0%N (rep_of (values previous) (offender e)))
    (filter (λ e, event_round e = r) events)).

Lemma admit_equivocations_Ok previous round events seen weights acc :
  try_fold (admit_equivocation previous round) (seen, weights) events = Ok acc →
  NoDup (offender <$> events) ∧ (∀ e, e ∈ events → offender e ∉ seen) ∧
  acc.1 = list_to_set (offender <$> events) ∪ seen ∧
  (∀ r, default 0%N (acc.2 !! r) = default 0 (weights !! r) + equivocated previous events r)%N ∧
  (∀ e, e ∈ events → ∃ prior, active_prior previous (offender e) prior) ∧
  ∀ e, e ∈ events → Evidence.validate_authorization e round = Ok tt ∧ evidence e ≠ [].
Proof.
  revert seen weights. induction events as [|e events IH]; intros seen weights; simpl.
  { intros [= <-]. split_and!; [constructor|by intros ? ?%elem_of_nil|set_solver| |..];
      [|by intros ? ?%elem_of_nil..]. intros r. unfold equivocated. simpl. lia. }
  rewrite result_bind_Ok. intros ([seen' weights'] & Ha & Ho). unfold admit_equivocation in Ha.
  invert_Ok Ha. injection Ha as <- <-. apply Decidable.not_or in Hguard as [Hnew Hev].
  apply prior_entry_Ok in Hok1. apply ok_or_Ok, checked_add_Some in Hok2 as [-> _].
  apply proof_round_Ok in Hok0 as ->.
  destruct (IH _ _ Ho) as (H1 & H2 & H3 & H4 & H5 & H6). split_and!.
  - constructor; [|done]. intros (y & E & Hy)%list_elem_of_fmap. apply H2 in Hy. set_solver.
  - intros y [->|Hy]%elem_of_cons; [done|]. apply H2 in Hy. set_solver.
  - rewrite H3. set_solver.
  - intros r. rewrite H4. unfold equivocated. rewrite filter_cons.
    destruct (decide (event_round e = r)) as [<-|Hne].
    + rewrite lookup_insert_eq. simpl. destruct Hok1 as [Hf _]. unfold rep_of at 2. rewrite Hf. simpl. lia.
    + rewrite lookup_insert_ne by done. done.
  - intros y [->|Hy]%elem_of_cons; [by eexists|by apply H5].
  - intros y [->|Hy]%elem_of_cons; [done|by apply H6].
Qed.

Lemma admit_inactivities_Ok previous ratings events seen seen' :
  try_fold (admit_inactivity previous ratings) seen events = Ok seen' →
  NoDup (inactive_offender <$> events) ∧ (∀ e, e ∈ events → inactive_offender e ∉ seen) ∧
  ∀ e, e ∈ events → (∃ prior, active_prior previous (inactive_offender e) prior) ∧
    missed_rounds e = 1%N ∧
    ∀ r, r ∈ ratings → rater r ≠ inactive_offender e ∧ recipient r ≠ inactive_offender e.
Proof.
  revert seen. induction events as [|e events IH]; intros seen; simpl.
  { intros _. split_and!; [constructor|by intros ? ?%elem_of_nil..]. }
  rewrite result_bind_Ok. intros (seen1 & Ha & Ho). unfold admit_inactivity in Ha.
  invert_Ok Ha. injection Ha as <-. apply Decidable.not_or in Hguard as [Hnew Hev].
  apply prior_entry_Ok in Hok. destruct (IH _ Ho) as (H1 & H2 & H3). split_and!.
  - constructor; [|done]. intros (y & E & Hy)%list_elem_of_fmap. apply H2 in Hy. set_solver.
  - intros y [->|Hy]%elem_of_cons; [done|]. apply H2 in Hy. set_solver.
  - intros y [->|Hy]%elem_of_cons; [|by apply H3]. split_and!; [by eexists|by apply dec_stable|].
    intros r Hr. apply not_true_is_false in Hguard0. rewrite existsb_false in Hguard0.
    specialize (Hguard0 r Hr). apply orb_false_iff in Hguard0.
    by rewrite !bool_decide_false_iff in Hguard0.
Qed.

(** ** The whole stage *)

Definition active_weight previous : N :=
  sum_N (map ReputationEntry.reputation
    (filter (λ entry, ReputationEntry.is_excluded entry = false) (values previous))).

Lemma apply_penalties_Ok next previous ratings events config out :
  sorted_entries (entries next) →
  apply_reputation_penalties next previous ratings events config = Ok out →
  list_round out = list_round next ∧ sorted_entries (entries out) ∧
  NoDup ((offender <$> equivocations events) ++ (inactive_offender <$> inactivity events)) ∧
  (∀ e, e ∈ equivocations events → ∃ prior, active_prior previous (offender e) prior ∧
    find_entry (entries out) (offender e) = Some (ReputationEntry.mk (offender e) 0
      (survivor config (ReputationEntry.reputation prior)
        (slash_ratio config (equivocated previous (equivocations events) (event_round e))
          (active_weight previous))) true)) ∧
  (∀ e, e ∈ inactivity events → ∃ prior current, active_prior previous (inactive_offender e) prior ∧
    find_entry (entries next) (inactive_offender e) = Some current ∧
    find_entry (entries out) (inactive_offender e) = Some (set_weight_of
      (survivor config (ReputationEntry.reputation prior) (PorConfig.inactivity_decay_gamma config))
      current)) ∧
  ∀ id, id ∉ offender <$> equivocations events → id ∉ inactive_offender <$> inactivity events →
    find_entry (entries out) id = find_entry (entries next) id.
Proof.
  intros Hs Ho. unfold apply_reputation_penalties in Ho. invert_Ok Ho. injection Ho as <-.
  apply admit_equivocations_Ok in Hok0 as (Hd & _ & Hseen & Hw & Hprior & _).
  apply admit_inactivities_Ok in Hok1 as (Hdi & Hnew & Hiprior).
  rewrite Hseen in Hnew. cbn [list_round entries].
  assert (sorted_entries x1 ∧
    (∀ e, e ∈ equivocations events → ∃ old new, find_entry (entries next) (offender e) = Some old ∧
      (∃ prior, active_prior previous (offender e) prior ∧ new = eject_with
        (survivor config (ReputationEntry.reputation prior)
          (slash_ratio config (equivocated previous (equivocations events) (event_round e))
            (active_weight previous))) old) ∧ find_entry x1 (offender e) = Some new) ∧
    ∀ id, id ∉ offender <$> equivocations events → find_entry x1 id = find_entry (entries next) id)
    as (Hs1 & Hslash & Hother).
  { case_decide as Hnil.
    { injection Hok2 as <-. rewrite Hnil. split_and!; [done| |done]. by intros ? ?%elem_of_nil. }
    invert_Ok Hok2. apply ok_or_Ok in Hok0. unfold active_total in Hok0.
    apply checked_sum_Some in Hok0 as [-> _]. revert Hok2. apply fold_updates; [|done..].
    intros l e l' He Hl Hl'. unfold slash_entry in Hl'. invert_Ok Hl'.
    apply proof_round_Ok in Hok0 as ->. apply slash_penalty_inv in Hok1 as (_ & -> & _).
    apply update_entry_Ok in Hl' as (g & old & Hg & Hold & Hs' & Hf); [|done|].
    2:{ intros g Hg. invert_Ok Hg. by injection Hg as <-. }
    invert_Ok Hg. injection Hg as <-. apply prior_entry_Ok in Hok0. apply survive_inv in Hok1 as ->.
    split; [done|]. eexists old, _. split_and!; [done| |exact Hf]. eexists. split; [done|].
    rewrite Hw, lookup_empty. simpl. rewrite N.add_0_l. done. }
  assert (sorted_entries x2 ∧
    (∀ e, e ∈ inactivity events → ∃ old new, find_entry x1 (inactive_offender e) = Some old ∧
      (∃ prior, active_prior previous (inactive_offender e) prior ∧ new = set_weight_of
        (survivor config (ReputationEntry.reputation prior)
          (PorConfig.inactivity_decay_gamma config)) old) ∧
      find_entry x2 (inactive_offender e) = Some new) ∧
    ∀ id, id ∉ inactive_offender <$> inactivity events → find_entry x2 id = find_entry x1 id)
    as (Hs2 & Hdecay & Hother2).
  { revert Hok3. apply fold_updates; [|done..].
    intros l e l' He Hl Hl'. unfold decay_entry in Hl'.
    apply update_entry_Ok in Hl' as (g & old & Hg & Hold & Hs' & Hf); [|done|].
    2:{ intros g Hg. invert_Ok Hg. by injection Hg as <-. }
    invert_Ok Hg. injection Hg as <-. apply prior_entry_Ok in Hok0. apply survive_inv in Hok1 as ->.
    split; [done|]. eexists old, _. split_and!; [done| |exact Hf]. eauto. }
  assert (∀ id, id ∈ offender <$> equivocations events →
    id ∈ inactive_offender <$> inactivity events → False) as Hdisj.
  { intros id Hid (e & -> & He)%list_elem_of_fmap. apply (Hnew e He). set_solver. }
  split_and!; [done..| | | |].
  - apply NoDup_app. split_and!; [done| |done]. eauto.
  - intros e He. destruct (Hslash e He) as (old & new & Hold & (prior & Hp & ->) & Hn).
    exists prior. split; [done|]. rewrite Hother2, Hn.
    + apply find_entry_elem in Hold as [_ Eid]. unfold eject_with. by rewrite Eid.
    + intros Hid. eapply Hdisj; [|done]. by apply list_elem_of_fmap_2.
  - intros e He. destruct (Hdecay e He) as (old & new & Hold & (prior & Hp & ->) & Hn).
    exists prior, old. split_and!; [done| |done]. rewrite <-Hother; [done|].
    intros Hid. eapply Hdisj; [done|]. by apply list_elem_of_fmap_2.
  - intros id H1 H2. by rewrite Hother2, Hother.
Qed.
End penalties.
