(* ===== verification/PorState.v ===== *)
(** * Proof of reputation: the local state

    [state.rs], [weights.rs] and the admission boundary of
    [interactions.rs]. *)

From S2P Require Import Prelude Types PorTypes PorMath Bytes PorCommit PorAudit.
From stdpp Require Import options.

(** ** [state.rs] *)

Module ReputationState.

Record t := mk {
  current_round : N;
  state_list : ReputationList;
  excluded_keys : gset NodeId;
  pending_ratings : list RatingRecord;
  latest_block : option ReputationBlock
}.

Definition new (round : N) : t := mk round (mkList round []) ∅ [] None.
Definition default : t := new 0.

Definition add_rating (self : t) (rating : RatingRecord) : t :=
  mk (current_round self) (state_list self) (excluded_keys self)
    (pending_ratings self ++ [rating]) (latest_block self).

Definition is_ejected (self : t) (node_id : NodeId) : bool :=
  bool_decide (node_id ∈ excluded_keys self).

Definition state_entries (self : t) : list ReputationEntry.t := entries (state_list self).

(** A change of the entries alone. *)
Definition with_entries (self : t) (l : list ReputationEntry.t) : t :=
  mk (current_round self) (mkList (list_round (state_list self)) l) (excluded_keys self)
    (pending_ratings self) (latest_block self).

(** [Vec::insert]. *)
Definition insert_at {A} (i : nat) (x : A) (l : list A) : list A := take i l ++ x :: drop i l.

Definition set_reputation (self : t) (node_id : NodeId) (reputation : N) : t :=
  if decide (node_id ∈ excluded_keys self) then self
  else
    with_entries self
      match binary_search (state_entries self) node_id with
      | Ok index => alter (PenaltyEvents.set_weight_of reputation) index (state_entries self)
      | Err index =>
        insert_at index (ReputationEntry.new node_id reputation) (state_entries self)
      end.

(** [is_excluded = true; reputation = 0]: the retained balance is kept. *)
Definition eject_entry (entry : ReputationEntry.t) : ReputationEntry.t :=
  PenaltyEvents.eject_with (ReputationEntry.retained_reputation entry) entry.

Definition eject_validator (self : t) (node_id : NodeId) : result t PorError :=
  if decide (node_id ∈ excluded_keys self) then Ok self
  else
    match binary_search (state_entries self) node_id with
    | Err _ => Err UnknownNode
    | Ok index =>
      Ok (mk (current_round self)
            (mkList (list_round (state_list self)) (alter eject_entry index (state_entries self)))
            ({[node_id]} ∪ excluded_keys self) (pending_ratings self) (latest_block self))
    end.

(** The retained balance that the current list has committed for a node. *)
Definition committed_retained (self : t) (node_id : NodeId) : N :=
  from_option ReputationEntry.retained_reputation 0%N (find_entry (state_entries self) node_id).

Definition reapply_ejection (self : t) (entry : ReputationEntry.t) : ReputationEntry.t :=
  if decide (ReputationEntry.node_id entry ∈ excluded_keys self)
  then PenaltyEvents.eject_with (committed_retained self (ReputationEntry.node_id entry)) entry
  else entry.

(** The loop that puts the ejected nodes the vector omits back in place; a
    [BTreeSet] iterates in order. *)
Definition insert_tombstone (self : t) (l : list ReputationEntry.t) (ejected_id : NodeId) :
    list ReputationEntry.t :=
  match binary_search l ejected_id with
  | Ok _ => l
  | Err _ =>
    insert_at
      (partition_point (λ e, bool_decide (ord_lt (ReputationEntry.node_id e) ejected_id)) l)
      (ReputationEntry.mk ejected_id 0 (committed_retained self ejected_id) true) l
  end.

Definition apply_reputation_vector (self : t) (vector : ReputationVector) : result t PorError :=
  let? _ := validate_reputation_vector vector in
  bail ReputationExclusionMismatch
    when existsb (λ entry, ReputationEntry.is_excluded entry &&
           negb (is_ejected self (ReputationEntry.node_id entry))) (values vector) = true;
  let new_entries := map (reapply_ejection self) (values vector) in
  let new_entries :=
    foldl (insert_tombstone self) new_entries (sort (elements (excluded_keys self))) in
  Ok (mk (vector_round vector) (mkList (vector_round vector) new_entries) (excluded_keys self)
        (pending_ratings self) (latest_block self)).

(** The keys that a list marks as excluded. *)
Definition excluded_in (l : list ReputationEntry.t) : gset NodeId :=
  list_to_set (map ReputationEntry.node_id
    (filter (λ entry, ReputationEntry.is_excluded entry = true) l)).

Definition commit_audited_block (self : t) (block : ReputationBlock) : t :=
  mk (list_round (reputation_list block)) (reputation_list block)
    (excluded_in (entries (reputation_list block)) ∪ excluded_keys self) (pending_ratings self)
    (Some block).

Section state.
Context `{Blake2b}.

Definition snapshot_vector (self : t) : ReputationVector :=
  mkVector (current_round self) (state_entries self).

Definition apply_reputation_block_with_penalties (self : t) (shard_id : list byte)
    (source_finalized_wave : N) (ratings : list RatingRecord) (block : ReputationBlock)
    (config : PorConfig.t) (penalties : option ReputationPenaltyEvents) : result t PorError :=
  let? _ := Audit.verify_reputation_transition_with_penalties (snapshot_vector self) ratings block
    (mkContext shard_id source_finalized_wave (latest_block self)) config penalties in
  Ok (commit_audited_block self block).

Definition apply_reputation_block (self : t) (shard_id : list byte) (source_finalized_wave : N)
    (ratings : list RatingRecord) (block : ReputationBlock) (config : PorConfig.t) :
    result t PorError :=
  apply_reputation_block_with_penalties self shard_id source_finalized_wave ratings block config
    None.

Definition apply_checkpoint_reputation_block_with_penalties (self : t) (shard_id : list byte)
    (source : RatingSourceCheckpoint) (ratings : list RatingRecord) (block : ReputationBlock)
    (config : PorConfig.t) (penalties : option ReputationPenaltyEvents) : result t PorError :=
  let? _ := Audit.verify_checkpoint_reputation_transition_with_penalties (snapshot_vector self)
    ratings block (mkCheckpoint shard_id source (latest_block self)) config penalties in
  Ok (commit_audited_block self block).

Definition apply_checkpoint_reputation_block (self : t) (shard_id : list byte)
    (source : RatingSourceCheckpoint) (ratings : list RatingRecord) (block : ReputationBlock)
    (config : PorConfig.t) : result t PorError :=
  apply_checkpoint_reputation_block_with_penalties self shard_id source ratings block config None.

Definition validate_snapshot_invariants (self : t) : result unit PorError :=
  bail ReputationStateSnapshotHasPendingRatings when pending_ratings self ≠ [];
  bail ReputationStateSnapshotRoundMismatch
    when list_round (state_list self) ≠ current_round self;
  let? _ := validate_reputation_entries (state_entries self) in
  let? _ := Evidence.check_all (λ entry,
    let is_registered := is_ejected self (ReputationEntry.node_id entry) in
    bail ReputationStateSnapshotExclusionMismatch
      when ReputationEntry.is_excluded entry ≠ is_registered ∨
           (is_registered = true ∧ ReputationEntry.reputation entry ≠ 0%N) ∨
           (is_registered = false ∧ ReputationEntry.retained_reputation entry ≠ 0%N);
    Ok tt) (state_entries self) in
  let? _ := Evidence.check_all (λ excluded,
    match binary_search (state_entries self) excluded with
    | Ok _ => Ok tt
    | Err _ => Err ReputationStateSnapshotExclusionMismatch
    end) (sort (elements (excluded_keys self))) in
  match latest_block self with
  | Some block =>
    let? _ := Commitments.validate_reputation_block block in
    bail ReputationStateSnapshotBlockRoundMismatch
      when header_round (header block) ≠ current_round self;
    Ok tt
  | None => Ok tt
  end.

Definition from_snapshot_parts (current_round : N) (list : ReputationList)
    (excluded_keys : gset NodeId) (latest_block : option ReputationBlock) : result t PorError :=
  let state := mk current_round list excluded_keys [] latest_block in
  let? _ := validate_snapshot_invariants state in
  Ok state.

End state.
End ReputationState.

(** ** [weights.rs] *)

Module Weights.

(** [collect] into a map: a later pair replaces an earlier one. *)
Definition reputation_weights (state : ReputationState.t) : gmap NodeId N :=
  foldl (λ weights entry,
    <[ReputationEntry.node_id entry:=ReputationEntry.reputation entry]> weights) ∅
    (filter (λ entry, ReputationEntry.is_excluded entry = false)
      (ReputationState.state_entries state)).

Definition validator_weight (state : ReputationState.t) (validator : NodeId) :
    result N PorError :=
  let? entry := ok_or (find_entry (ReputationState.state_entries state) validator)
    (MissingAuthorizedValidatorReputation validator) in
  Ok (if ReputationEntry.is_excluded entry || ReputationState.is_ejected state validator
      then 0%N else ReputationEntry.reputation entry).

(** The loop threads the map and the total. *)
Definition add_validator (state : ReputationState.t) (acc : gmap NodeId N * N)
    (validator : NodeId) : result (gmap NodeId N * N) PorError :=
  let '(weights, total_weight) := acc in
  if decide (is_Some (weights !! validator)) then Ok acc
  else
    let? weight := validator_weight state validator in
    let? total_weight := ok_or (checked_add u128_max total_weight weight)
      AuthorizedValidatorWeightOverflow in
    Ok (<[validator:=weight]> weights, total_weight).

Definition authorized_validator_weights (state : ReputationState.t)
    (authorized_validators : list NodeId) : result (gmap NodeId N) PorError :=
  bail EmptyAuthorizedValidatorSet when authorized_validators = [];
  let? acc := try_fold (add_validator state) (∅, 0%N) authorized_validators in
  bail ZeroAuthorizedValidatorWeight when acc.2 = 0%N;
  Ok acc.1.

End Weights.

(** ** [interactions.rs] *)

Inductive InteractionKind :=
  BlockProduction | CordialReferences | ExecutionResult | DeployInclusion.

Record InteractionEvidence := mkInteraction {
  finalized_wave : N;
  interaction_round : N;
  interaction_kind : InteractionKind;
  interaction_rater : NodeId;
  interaction_recipient : NodeId;
  evidence_ref : list byte
}.
Record CheckpointInteractionEvidence := mkCheckpointInteraction {
  interaction_source : RatingSourceCheckpoint;
  checkpoint_kind : InteractionKind;
  checkpoint_rater : NodeId;
  checkpoint_recipient : NodeId;
  checkpoint_evidence_ref : list byte
}.

Module Interactions.

(** [AdmittedInteraction] and [AdmittedCheckpointInteraction] are opaque
    wrappers of the evidence they admit. *)
Inductive AdmittedInteraction := Admit (evidence : InteractionEvidence).
Inductive AdmittedCheckpointInteraction :=
  AdmitCheckpoint (evidence : CheckpointInteractionEvidence).
Definition admitted_evidence (a : AdmittedInteraction) : InteractionEvidence :=
  match a with Admit evidence => evidence end.
Definition admitted_checkpoint_evidence (a : AdmittedCheckpointInteraction) :
    CheckpointInteractionEvidence :=
  match a with AdmitCheckpoint evidence => evidence end.

Definition state_contains (state : ReputationState.t) (node_id : NodeId) : bool :=
  match binary_search (ReputationState.state_entries state) node_id with
  | Ok _ => true
  | Err _ => false
  end.

Definition validate_interaction_rater (round : N) (rater : NodeId) (state : ReputationState.t) :
    result unit PorError :=
  bail InvalidInteractionStateRound
    when checked_add u64_max (ReputationState.current_round state) 1 ≠ Some round;
  bail UnknownInteractionRater when state_contains state rater = false;
  bail EjectedInteractionRater when ReputationState.is_ejected state rater = true;
  Ok tt.

Definition validate_interaction_participants (round : N) (rater recipient : NodeId)
    (evidence_ref : list byte) (state : ReputationState.t) : result unit PorError :=
  bail InvalidInteractionStateRound
    when checked_add u64_max (ReputationState.current_round state) 1 ≠ Some round;
  bail SelfInteraction when rater = recipient;
  bail MissingInteractionReference when evidence_ref = [];
  let? _ := validate_interaction_rater round rater state in
  bail UnknownInteractionRecipient when state_contains state recipient = false;
  bail EjectedInteractionRecipient when ReputationState.is_ejected state recipient = true;
  Ok tt.

Definition admit_interaction_evidence (evidence : InteractionEvidence)
    (state : ReputationState.t) : result AdmittedInteraction PorError :=
  let? expected_round := Ratings.rating_round_from_finalized_wave (finalized_wave evidence) in
  bail InvalidInteractionRound when interaction_round evidence ≠ expected_round;
  let? _ := validate_interaction_participants (interaction_round evidence)
    (interaction_rater evidence) (interaction_recipient evidence) (evidence_ref evidence) state in
  Ok (Admit evidence).

Definition admit_checkpoint_interaction_evidence (evidence : CheckpointInteractionEvidence)
    (state : ReputationState.t) : result AdmittedCheckpointInteraction PorError :=
  let? _ := validate_source (interaction_source evidence) in
  let? _ := validate_interaction_participants (source_round (interaction_source evidence))
    (checkpoint_rater evidence) (checkpoint_recipient evidence)
    (checkpoint_evidence_ref evidence) state in
  Ok (AdmitCheckpoint evidence).

Definition validate_checkpoint_rater (source : RatingSourceCheckpoint) (rater : NodeId)
    (state : ReputationState.t) : result unit PorError :=
  let? _ := validate_source source in
  validate_interaction_rater (source_round source) rater state.

Definition score_interaction_kind (kind : InteractionKind) (config : PorConfig.t) :
    result N PorError :=
  bail (InvalidConfiguration "minimum rating must not exceed maximum rating")
    when (PorConfig.maximum_rating config < PorConfig.minimum_rating config)%N;
  match kind with
  | BlockProduction | CordialReferences | ExecutionResult | DeployInclusion =>
    Ok (PorConfig.maximum_rating config)
  end.

Definition score_admitted_interaction (interaction : AdmittedInteraction) (config : PorConfig.t) :
    result N PorError :=
  score_interaction_kind (interaction_kind (admitted_evidence interaction)) config.
Definition score_admitted_checkpoint_interaction (interaction : AdmittedCheckpointInteraction)
    (config : PorConfig.t) : result N PorError :=
  score_interaction_kind (checkpoint_kind (admitted_checkpoint_evidence interaction)) config.

Definition build_rating_from_interaction (interaction : AdmittedInteraction)
    (signature : list byte) (config : PorConfig.t) : result RatingRecord PorError :=
  let? score := score_admitted_interaction interaction config in
  let evidence := admitted_evidence interaction in
  let rating := mkRating (interaction_round evidence) (interaction_rater evidence)
    (interaction_recipient evidence) score signature (Some (evidence_ref evidence)) in
  let? _ := Ratings.validate_rating rating config in
  Ok rating.

End Interactions.
