(* ===== verification/PorStateFacts.v ===== *)
(** * The reputation state as a state machine

    [step] is one call of any mutating method of [ReputationState]; the
    invariant of its reachable states, and the permanence of an ejection. *)

From S2P Require Import Prelude Types PorTypes PorMath PorMathFacts Bytes PorCommit PorAudit.
From S2P Require Import PorAuditFacts PorReplayFacts PorState.
From stdpp Require Import options.

(** ** Insertion into sorted entries *)

Lemma partition_point_cons {A} (p : A → bool) x l :
  partition_point p (x :: l) = if p x then S (partition_point p l) else 0.
Proof.
  unfold partition_point. simpl. destruct (p x); simpl; [|done].
  by destruct (list_find _ l) as [[]|].
Qed.

Abbreviation before id := (λ e, bool_decide (ord_lt (ReputationEntry.node_id e) id)).

Lemma insert_entry l x :
  sorted_entries l → find_entry l (ReputationEntry.node_id x) = None →
  let out := ReputationState.insert_at
    (partition_point (before (ReputationEntry.node_id x)) l) x l in
  sorted_entries out ∧
  ∀ id, find_entry out id = if decide (id = ReputationEntry.node_id x) then Some x else find_entry l id.
Proof.
  intros Hs. induction Hs as [|y l Hs IH Hy].
  { intros _ out. split; [repeat constructor|]. intros id. change out with [x].
    rewrite find_entry_cons. destruct (decide (id = ReputationEntry.node_id x)) as [->|];
      [by rewrite decide_True|by rewrite decide_False by congruence]. }
  rewrite find_entry_cons. case_decide as Eyx; [done|]. intros Hn out. unfold out. clear out.
  rewrite partition_point_cons. case_bool_decide as Hlt.
  - destruct (IH Hn) as [IHs IHf]. unfold ReputationState.insert_at in *. simpl. split.
    + constructor; [done|]. rewrite Forall_forall in Hy |- *. intros z Hz.
      apply (find_entry_sorted _ _ IHs) in Hz. rewrite IHf in Hz. case_decide.
      * by injection Hz as <-.
      * apply find_entry_elem in Hz as [Hz _]. by apply Hy.
    + intros id. rewrite !find_entry_cons, IHf. case_decide as E; [|done].
      rewrite decide_False; [done|]. intros E'. congruence.
  - unfold ReputationState.insert_at. simpl. split.
    + constructor; [by constructor|]. assert (entry_lt x y) as Hxy.
      { unfold entry_lt. destruct (ord_trichotomy (ReputationEntry.node_id x) (ReputationEntry.node_id y))
          as [?|[?|?]]; [done|by subst|done]. }
      constructor; [done|]. eapply Forall_impl; [exact Hy|]. intros z. by apply transitivity.
    + intros id. rewrite find_entry_cons. destruct (decide (id = ReputationEntry.node_id x)) as [->|Hne].
      * by rewrite decide_True.
      * by rewrite decide_False by congruence.
Qed.

(** ** The invariant *)

(** Every entry with the flag is registered and conversely; an excluded entry
    has no weight, an active one no retained balance; all are [u64]. *)
Record entry_ok (excluded : gset NodeId) (e : ReputationEntry.t) : Prop := {
  eo_flag : ReputationEntry.is_excluded e = bool_decide (ReputationEntry.node_id e ∈ excluded);
  eo_weight : ReputationEntry.is_excluded e = true → ReputationEntry.reputation e = 0%N;
  eo_retained : ReputationEntry.is_excluded e = false → ReputationEntry.retained_reputation e = 0%N;
  eo_fits : fits_u64 (ReputationEntry.reputation e);
  eo_retained_fits : fits_u64 (ReputationEntry.retained_reputation e)
}.

Definition latest_valid `{Blake2b} (block : option ReputationBlock) : Prop :=
  match block with
  | Some block => Commitments.validate_reputation_block block = Ok tt
  | None => True
  end.

Record consistent `{Blake2b} (s : ReputationState.t) : Prop := {
  co_round : list_round (ReputationState.state_list s) = ReputationState.current_round s;
  co_sorted : sorted_entries (ReputationState.state_entries s);
  co_registered : ∀ id, id ∈ ReputationState.excluded_keys s →
    is_Some (find_entry (ReputationState.state_entries s) id);
  co_entries : ∀ e, e ∈ ReputationState.state_entries s → entry_ok (ReputationState.excluded_keys s) e;
  co_latest : latest_valid (ReputationState.latest_block s)
}.

Section state.
Context `{Blake2b}.
Import ReputationState.
Implicit Types (s : ReputationState.t).

Inductive step : relation t :=
  | step_add_rating s rating : step s (add_rating s rating)
  | step_set_reputation s id reputation :
    fits_u64 reputation → step s (set_reputation s id reputation)
  | step_eject s s' id : eject_validator s id = Ok s' → step s s'
  | step_vector s s' vector :
    values_fit (values vector) → apply_reputation_vector s vector = Ok s' → step s s'
  | step_block s s' shard wave ratings block config penalties :
    fits_u64 (PorConfig.scale config) →
    apply_reputation_block_with_penalties s shard wave ratings block config penalties = Ok s' →
    step s s'
  | step_checkpoint s s' shard source ratings block config penalties :
    fits_u64 (PorConfig.scale config) →
    apply_checkpoint_reputation_block_with_penalties s shard source ratings block config penalties
      = Ok s' →
    step s s'.

Definition reachable (round : N) : t → Prop := rtc step (new round).

(** An excluded key has its zero entry with the flag set. *)
Lemma excluded_entry s id :
  consistent s → id ∈ excluded_keys s →
  find_entry (state_entries s) id = Some (ReputationEntry.mk id 0 (committed_retained s id) true).
Proof.
  intros Hc Hid. unfold committed_retained. destruct (co_registered s Hc id Hid) as [e He].
  rewrite He. pose proof He as [Hin Eid]%find_entry_elem. simpl.
  destruct (co_entries s Hc e Hin) as [Hf Hw _ _]. rewrite Eid, bool_decide_true in Hf by done.
  rewrite <-(Hw Hf), <-Hf. subst id. by destruct e.
Qed.

(** What a step must provide: sound entries that freeze the excluded ones. *)
Definition keeps s s' : Prop :=
  excluded_keys s ⊆ excluded_keys s' ∧
  ∀ id, id ∈ excluded_keys s →
    find_entry (state_entries s') id = find_entry (state_entries s) id.

Lemma add_rating_ok s rating : consistent s → consistent (add_rating s rating) ∧ keeps s (add_rating s rating).
Proof. intros []. done. Qed.

Lemma set_reputation_ok s id reputation :
  fits_u64 reputation → consistent s →
  consistent (set_reputation s id reputation) ∧ keeps s (set_reputation s id reputation).
Proof.
  intros Hr Hc. unfold set_reputation. case_decide as Hid; [done|].
  destruct (binary_search _ id) as [i|i] eqn:Eb.
  - apply binary_search_Ok in Eb as (e & Hi & He & Eid).
    destruct (alter_entry (state_entries s) i e (PenaltyEvents.set_weight_of reputation) id)
      as [Hs Hf]; [by apply co_sorted|done..|].
    pose proof (co_entries s Hc e (list_elem_of_lookup_2 _ _ _ Hi)) as [Hfl Hw Hret Hfit Hrf].
    rewrite Eid, bool_decide_false in Hfl by done. split; [split|split]; cbn; try done; try apply Hc.
    + intros id' Hid'. unfold state_entries, with_entries; cbn. rewrite Hf. case_decide; [eauto|]. by apply co_registered.
    + intros x Hx. unfold state_entries, with_entries in Hx; cbn in Hx.
      apply (find_entry_sorted _ _ Hs) in Hx. rewrite Hf in Hx. case_decide.
      * injection Hx as <-. split; cbn; [|by rewrite Hfl|by intros _; apply Hret|done..].
        by rewrite Hfl, Eid, bool_decide_false.
      * apply find_entry_elem in Hx as [Hx _]. by apply co_entries.
    + intros id' Hid'. unfold state_entries at 1; cbn. rewrite Hf. by rewrite decide_False by congruence.
  - apply binary_search_Err in Eb as [Hn ->].
    destruct (insert_entry (state_entries s) (ReputationEntry.new id reputation)) as [Hs Hf];
      [by apply co_sorted|done|]. cbn in Hs, Hf.
    split; [split|split]; cbn; try done; try apply Hc.
    + intros id' Hid'. unfold state_entries, with_entries; cbn. rewrite Hf. case_decide; [eauto|]. by apply co_registered.
    + intros x Hx. unfold state_entries, with_entries in Hx; cbn in Hx.
      apply (find_entry_sorted _ _ Hs) in Hx. rewrite Hf in Hx. case_decide.
      * injection Hx as <-. split; cbn; try done. by rewrite bool_decide_false.
      * apply find_entry_elem in Hx as [Hx _]. by apply co_entries.
    + intros id' Hid'. unfold state_entries at 1; cbn. rewrite Hf. by rewrite decide_False by congruence.
Qed.

Lemma entry_ok_other excluded id e :
  ReputationEntry.node_id e ≠ id → entry_ok excluded e → entry_ok ({[id]} ∪ excluded) e.
Proof.
  intros Hne []. split; try done. rewrite eo_flag0. apply bool_decide_ext. set_solver.
Qed.

Lemma eject_ok s s' id :
  eject_validator s id = Ok s' → consistent s → consistent s' ∧ keeps s s'.
Proof.
  unfold eject_validator. case_decide as Hid; [by intros [= <-]|].
  destruct (binary_search _ id) as [i|] eqn:Eb; [|done]. intros [= <-] Hc.
  apply binary_search_Ok in Eb as (e & Hi & He & Eid).
  destruct (alter_entry (state_entries s) i e eject_entry id) as [Hs Hf];
    [by apply co_sorted|done..|].
  pose proof (co_entries s Hc e (list_elem_of_lookup_2 _ _ _ Hi)) as [Hfl Hw Hret Hfit Hrf].
  split; [split|split]; cbn; try done; try apply Hc.
  - intros id' Hid'. unfold state_entries; cbn. rewrite Hf. destruct (decide (id' = id)); [by eexists|].
    apply co_registered; [done|]. set_solver.
  - intros x Hx. unfold state_entries in Hx; cbn in Hx.
    apply (find_entry_sorted _ _ Hs) in Hx. rewrite Hf in Hx. case_decide as E.
    + injection Hx as <-. split; cbn; try done. rewrite Eid, bool_decide_true by set_solver. done.
    + apply find_entry_elem in Hx as [Hx Ex]. apply entry_ok_other; [congruence|]. by apply co_entries.
  - set_solver.
  - intros id' Hid'. unfold state_entries at 1; cbn. rewrite Hf.
    by rewrite decide_False by congruence.
Qed.

(** ** Vectors *)

Lemma insert_tombstone_ok s l id :
  sorted_entries l →
  sorted_entries (insert_tombstone s l id) ∧
  ∀ id', find_entry (insert_tombstone s l id) id' =
    match find_entry l id' with
    | Some e => Some e
    | None => if decide (id' = id) then Some (ReputationEntry.mk id 0 (committed_retained s id) true)
              else None
    end.
Proof.
  intros Hs. unfold insert_tombstone. destruct (binary_search l id) as [i|i] eqn:Eb.
  - apply binary_search_Ok in Eb as (e & _ & He & _). split; [done|]. intros id'.
    destruct (find_entry l id') eqn:E; [done|]. rewrite decide_False; [done|]. congruence.
  - apply binary_search_Err in Eb as [Hn _].
    destruct (insert_entry l (ReputationEntry.mk id 0 (committed_retained s id) true) Hs Hn) as [H1 H2].
    split; [exact H1|]. intros id'. etransitivity; [exact (H2 id')|]. cbn.
    case_decide as E; [by rewrite E, Hn|]. by destruct (find_entry l id').
Qed.

Lemma tombstones_ok s l ids :
  sorted_entries l →
  sorted_entries (foldl (insert_tombstone s) l ids) ∧
  ∀ id, find_entry (foldl (insert_tombstone s) l ids) id =
    match find_entry l id with
    | Some e => Some e
    | None => if decide (id ∈ ids) then Some (ReputationEntry.mk id 0 (committed_retained s id) true)
              else None
    end.
Proof.
  revert l. induction ids as [|i ids IH]; intros l Hs; cbn [foldl].
  { split; [done|]. intros id. destruct (find_entry l id); [done|].
    by rewrite decide_False by (by intros ?%elem_of_nil). }
  destruct (insert_tombstone_ok s l i Hs) as [H1 H2]. destruct (IH _ H1) as [H3 H4].
  split; [done|]. intros id. rewrite H4, H2. destruct (find_entry l id); [done|].
  destruct (decide (id = i)) as [->|Hne]; [by rewrite decide_True by (by left)|].
  destruct (decide (id ∈ ids)); [by rewrite decide_True by (by right)|].
  rewrite decide_False; [done|]. by intros [?|?]%elem_of_cons.
Qed.

Lemma validate_entries_Ok l :
  validate_reputation_entries l = Ok tt ↔
  sorted_entries l ∧ ∀ e, e ∈ l →
    (ReputationEntry.is_excluded e = true → ReputationEntry.reputation e = 0%N) ∧
    (ReputationEntry.is_excluded e = false → ReputationEntry.retained_reputation e = 0%N).
Proof.
  unfold validate_reputation_entries, Evidence.check_all. rewrite result_bind_Ok. split.
  - intros ([] & Hc & Hs%validate_order_sorted). rewrite check_all_Ok in Hc. split; [done|].
    intros e He. specialize (Hc e He). apply bail_Ok in Hc as [Hc _].
    split; intros E; apply dec_stable; tauto.
  - intros [Hs He]. exists tt. rewrite validate_order_sorted, check_all_Ok. split; [|done].
    intros e Hin. apply bail_Ok. split; [|done]. specialize (He e Hin).
    intros [[E Hne]|[E Hne]]; tauto.
Qed.

Lemma vector_entry s vector s' :
  apply_reputation_vector s vector = Ok s' →
  (sorted_entries (values vector) ∧
   (∀ e, e ∈ values vector →
    (ReputationEntry.is_excluded e = true → ReputationEntry.node_id e ∈ excluded_keys s) ∧
    (ReputationEntry.is_excluded e = false → ReputationEntry.retained_reputation e = 0%N))) ∧
  current_round s' = vector_round vector ∧ list_round (state_list s') = vector_round vector ∧
  excluded_keys s' = excluded_keys s ∧ latest_block s' = latest_block s ∧
  sorted_entries (state_entries s') ∧
  ∀ id, find_entry (state_entries s') id =
    if decide (id ∈ excluded_keys s)
    then Some (ReputationEntry.mk id 0 (committed_retained s id) true)
    else find_entry (values vector) id.
Proof.
  unfold apply_reputation_vector. intros Hv. invert_Ok Hv. injection Hv as <-.
  apply validate_entries_Ok in Hok as [Hs He]. apply not_true_is_false in Hguard.
  rewrite existsb_false in Hguard. unfold state_entries. cbn.
  assert (∀ e, ReputationEntry.node_id (reapply_ejection s e) = ReputationEntry.node_id e) as Hn
    by (intros e; unfold reapply_ejection; by case_decide).
  destruct (tombstones_ok s (map (reapply_ejection s) (values vector))
    (sort (elements (excluded_keys s)))) as [H1 H2]; [by apply map_nodes_sorted|].
  split_and!; try done.
  - intros e Hin. split; [|by apply He]. intros Ex. specialize (Hguard e Hin). rewrite Ex in Hguard.
    simpl in Hguard. apply negb_false_iff in Hguard. unfold is_ejected in Hguard.
    by apply bool_decide_true_iff in Hguard.
  - intros id. rewrite H2, find_entry_map_nodes by done.
    assert (id ∈ sort (elements (excluded_keys s)) ↔ id ∈ excluded_keys s) as Hiff
      by (by rewrite sort_perm, elem_of_elements).
    destruct (find_entry (values vector) id) as [e|] eqn:Ee; simpl.
    + apply find_entry_elem in Ee as [_ <-]. unfold reapply_ejection. by case_decide.
    + case_decide as E1; destruct (decide (id ∈ excluded_keys s)); [done|tauto|tauto|done].
Qed.

Lemma vector_ok s s' vector :
  values_fit (values vector) → apply_reputation_vector s vector = Ok s' → consistent s →
  consistent s' ∧ keeps s s'.
Proof.
  intros Hfit Hv Hc. apply vector_entry in Hv as ((Hs & He) & Hr & Hlr & Hx & Hl & Hs' & Hf).
  split; [split|split].
  - congruence.
  - done.
  - intros id Hid. rewrite Hf. case_decide; [by eexists|congruence].
  - intros e Hin. apply (find_entry_sorted _ _ Hs') in Hin. rewrite Hf in Hin. rewrite Hx.
    case_decide as Hid.
    + rewrite <-(excluded_entry s) in Hin by done. apply find_entry_elem in Hin as [Hin _].
      by apply co_entries.
    + apply find_entry_elem in Hin as [Hin _]. destruct (He e Hin) as [Hex Hret].
      assert (ReputationEntry.is_excluded e = false) as Hfl by (destruct (ReputationEntry.is_excluded e); tauto).
      split; [by rewrite Hfl, bool_decide_false|congruence|done|by apply Hfit|by rewrite Hret].
  - rewrite Hl. apply Hc.
  - by rewrite Hx.
  - intros id Hid. rewrite Hf, decide_True by done. symmetry. by apply excluded_entry.
Qed.

(** ** Audited blocks *)

Lemma next_value_fits config p c v :
  valid_config config → fits_u64 (PorConfig.scale config) →
  (∀ x, p = Some x → fits_u64 x) → next_value config p c = Some v → fits_u64 v.
Proof.
  intros Hv Hs Hp. assert (∀ x, fits_u64 (clamp_value x (PorConfig.scale config))) as Hc.
  { intros x. destruct Hv. unfold fits_u64 in *.
    destruct (clamp_value_bounds x (PorConfig.scale config)) as (_ & Hle & _); lia. }
  destruct p as [p|], c as [c|]; simpl; intros [= <-]; auto. case_decide; auto.
Qed.

(** What a replay with penalties makes of each node. *)
Lemma replay_entries previous ratings round config penalties out :
  fits_u64 (PorConfig.scale config) → values_fit (values previous) →
  Replay.replay_reputation_transition_with_penalties previous ratings round config penalties = Ok out →
  sorted_entries (entries out) ∧
  (∀ e, e ∈ entries out → fits_u64 (ReputationEntry.reputation e) ∧
    (fits_u64 (ReputationEntry.retained_reputation e) ∨
     ∃ prior, find_entry (values previous) (ReputationEntry.node_id e) = Some prior ∧
       ReputationEntry.retained_reputation e = ReputationEntry.retained_reputation prior)) ∧
  ∀ id prior, find_entry (values previous) id = Some prior →
    ReputationEntry.is_excluded prior = true →
    find_entry (entries out) id =
      Some (ReputationEntry.mk id 0 (ReputationEntry.retained_reputation prior) true).
Proof.
  intros Hs Hfit Hr. pose proof (replay_validates _ _ _ _ _ _ Hr) as Hcfg%validate_valid.
  unfold Replay.replay_reputation_transition_with_penalties in Hr. invert_Ok Hr.
  apply calculate_spec in Hok2 as (_ & _ & _ & Hsx & _ & Hx); [|done..].
  assert (∀ id, find_entry (map (Replay.carry_exclusion previous) (values x0)) id =
    next_entry config previous ratings id) as Hnext.
  { intros id. rewrite find_entry_map_nodes by apply carry_exclusion_node. rewrite Hx.
    unfold next_entry. destruct (next_value _ _ _); [|done].
    unfold Replay.carry_exclusion, exclusion_kept. simpl. by repeat case_match. }
  assert (sorted_entries (map (Replay.carry_exclusion previous) (values x0))) as Hsn
    by (apply map_nodes_sorted; [apply carry_exclusion_node|done]).
  assert (∀ id e, next_entry config previous ratings id = Some e →
    ReputationEntry.node_id e = id ∧ fits_u64 (ReputationEntry.reputation e) ∧
    (fits_u64 (ReputationEntry.retained_reputation e) ∨
     ∃ prior, find_entry (values previous) id = Some prior ∧
       ReputationEntry.retained_reputation e = ReputationEntry.retained_reputation prior)) as Hfits.
  { intros id e. unfold next_entry. destruct (next_value _ _ _) as [v|] eqn:Ev; [|done].
    apply next_value_fits in Ev; [|done..|intros ?; by apply rep_of_fits]. intros [= <-].
    unfold exclusion_kept. destruct (find_entry (values previous) id) as [prior|];
      [|by split_and!; [..|left]].
    destruct (ReputationEntry.is_excluded prior); simpl; split_and!; try done; [|by left].
    right. eauto. }
  assert (∀ id prior, find_entry (values previous) id = Some prior →
    ReputationEntry.is_excluded prior = true → next_entry config previous ratings id =
      Some (ReputationEntry.mk id 0 (ReputationEntry.retained_reputation prior) true)) as Hkeep.
  { intros id prior Hp Hex. unfold next_entry, exclusion_kept, rep_of. rewrite Hp, Hex. simpl.
    by destruct (share _ _ _ _). }
  destruct penalties as [events|].
  - apply apply_penalties_Ok in Hr as (_ & Hso & _ & Hslash & Hdecay & Hother); [|done].
    cbn [entries] in *. split_and!; [done|..].
    + intros e He. apply (find_entry_sorted _ _ Hso) in He.
      assert (∀ id prior r, active_prior previous id prior →
        fits_u64 (survivor config (ReputationEntry.reputation prior) r)) as Hsurv.
      { intros id prior r [[Hin _]%find_entry_elem _]. apply Hfit in Hin. unfold fits_u64 in *.
        pose proof (survivor_le config (ReputationEntry.reputation prior) r (valid_scale _ Hcfg)). lia. }
      destruct (decide (ReputationEntry.node_id e ∈ offender <$> equivocations events)) as [Hin|Hin].
      { apply list_elem_of_fmap in Hin as (ev & Eid & Hin).
        destruct (Hslash ev Hin) as (prior & Hp & Hf). rewrite <-Eid, He in Hf. injection Hf as ->.
        simpl. split; [done|]. left. by eapply Hsurv. }
      destruct (decide (ReputationEntry.node_id e ∈ inactive_offender <$> inactivity events)) as [Hii|Hii].
      { apply list_elem_of_fmap in Hii as (ev & Eid & Hii).
        destruct (Hdecay ev Hii) as (prior & current & Hp & Hcur & Hf).
        rewrite <-Eid, He in Hf. injection Hf as Hf. rewrite Hnext in Hcur.
        apply Hfits in Hcur as (Hid & _ & Hret). rewrite <-Eid in Hret, Hid. rewrite Hf in Hret |- *.
        rewrite Hf in Hid. simpl in *. split; [by eapply Hsurv|]. done. }
      rewrite Hother, Hnext in He by done. by apply Hfits in He as (_ & ? & ?).
    + intros id prior Hp Hex. rewrite Hother, Hnext; [by apply Hkeep| |];
        intros (ev & -> & Hin)%list_elem_of_fmap.
      * destruct (Hslash ev Hin) as (prior' & [Hp' Ha] & _). congruence.
      * destruct (Hdecay ev Hin) as (prior' & ? & [Hp' Ha] & _). congruence.
  - injection Hr as <-. cbn [entries]. split_and!; [done|..].
    + intros e He. apply (find_entry_sorted _ _ Hsn) in He. rewrite Hnext in He.
      by apply Hfits in He as (_ & ? & ?).
    + intros id prior Hp Hex. rewrite Hnext. by apply Hkeep.
Qed.

Lemma elem_of_excluded_in l id :
  id ∈ excluded_in l ↔ ∃ e, e ∈ l ∧ ReputationEntry.node_id e = id ∧ ReputationEntry.is_excluded e = true.
Proof.
  unfold excluded_in. rewrite elem_of_list_to_set, list_elem_of_fmap.
  setoid_rewrite list_elem_of_filter. naive_solver.
Qed.

Lemma commit_ok s ratings round config penalties block :
  fits_u64 (PorConfig.scale config) → consistent s →
  Replay.replay_reputation_transition_with_penalties (snapshot_vector s) ratings round config penalties
    = Ok (reputation_list block) →
  Commitments.validate_reputation_block block = Ok tt →
  consistent (commit_audited_block s block) ∧ keeps s (commit_audited_block s block).
Proof.
  intros Hs Hc Hr Hv. pose proof (validate_block_parts _ Hv) as (_ & _ & _ & Hl).
  assert (values_fit (values (snapshot_vector s))) as Hfit.
  { intros e He. by apply co_entries in He as []. }
  apply replay_entries in Hr as (Hso & Hfits & Hkeep); [|done..].
  unfold Commitments.reputation_list_commitment, Commitments.list_payload in Hl.
  invert_Ok Hl. invert_Ok Hok. apply validate_entries_Ok in Hok0 as [_ Hval].
  assert (∀ id, id ∈ excluded_keys s → find_entry (entries (reputation_list block)) id =
    find_entry (state_entries s) id) as Hex.
  { intros id Hid. pose proof (excluded_entry s id Hc Hid) as Hp. rewrite Hp.
    by rewrite (Hkeep id _ Hp). }
  assert (∀ e, e ∈ entries (reputation_list block) → ReputationEntry.is_excluded e =
    bool_decide (ReputationEntry.node_id e ∈ excluded_in (entries (reputation_list block)) ∪ excluded_keys s))
    as Hflag.
  { intros e He. symmetry. destruct (ReputationEntry.is_excluded e) eqn:Ex.
    - apply bool_decide_true_iff, elem_of_union_l, elem_of_excluded_in. eauto.
    - apply bool_decide_false_iff. intros [(e' & He' & Eid & Ex')%elem_of_excluded_in|Hid]%elem_of_union.
      + apply (find_entry_sorted _ _ Hso) in He, He'. rewrite Eid in He'. congruence.
      + pose proof (Hex _ Hid) as Hf. rewrite (excluded_entry s) in Hf by done.
        apply (find_entry_sorted _ _ Hso) in He. rewrite He in Hf. injection Hf as Hf. by rewrite Hf in Ex. }
  split; [split|split]; cbn; try done.
  - intros id [(e & He & <- & _)%elem_of_excluded_in|Hid]%elem_of_union.
    + unfold state_entries; cbn. rewrite (find_entry_sorted _ _ Hso) by done. by eexists.
    + unfold state_entries at 1; cbn. rewrite Hex by done. by apply co_registered.
  - intros e He. unfold state_entries in He; cbn in He. destruct (Hval e He) as [Hw Hret].
    split; [by apply Hflag|done|done|by apply Hfits|].
    destruct (ReputationEntry.is_excluded e) eqn:Ex; [|by rewrite Hret].
    destruct (Hfits e He) as [_ [?|(prior & [Hp _]%find_entry_elem & ->)]]; [done|].
    by apply co_entries in Hp as [].
  - set_solver.
Qed.

Lemma step_ok s s' : step s s' → consistent s → consistent s' ∧ keeps s s'.
Proof.
  intros Hstep Hc. destruct Hstep as [s rating|s id r Hr|s s' id He|s s' v Hv He|s s' shard wave
    ratings block config penalties Hs He|s s' shard source ratings block config penalties Hs He].
  - by apply add_rating_ok.
  - by apply set_reputation_ok.
  - by eapply eject_ok.
  - by eapply vector_ok.
  - unfold apply_reputation_block_with_penalties in He. invert_Ok He. injection He as <-.
    apply verify_Ok in Hok as [Hr Hb]. eapply commit_ok; [done..|apply Hb].
  - unfold apply_checkpoint_reputation_block_with_penalties in He. invert_Ok He. injection He as <-.
    apply verify_checkpoint_Ok in Hok as [Hr Hb]. eapply commit_ok; [done..|apply Hb].
Qed.

Lemma new_consistent round : consistent (new round).
Proof. split; cbn; try done; [constructor|..]; by intros ? ?%elem_of_nil. Qed.

Lemma steps_ok s s' : rtc step s s' → consistent s → consistent s' ∧ keeps s s'.
Proof.
  induction 1 as [s|s t s' Hst _ IH]; intros Hc; [done|].
  destruct (step_ok _ _ Hst Hc) as [Ht [Hk1 Hk2]]. destruct (IH Ht) as [Hs' [Hk1' Hk2']].
  split; [done|]. split; [by trans (excluded_keys t)|].
  intros id Hid. rewrite Hk2' by (by apply Hk1). by apply Hk2.
Qed.

(** A state at rest passes its own snapshot validation. *)
Lemma consistent_snapshot s :
  consistent s → pending_ratings s = [] →
  (∀ block, latest_block s = Some block → header_round (header block) = current_round s) →
  validate_snapshot_invariants s = Ok tt.
Proof.
  intros Hc Hp Hl. unfold validate_snapshot_invariants.
  rewrite decide_False by tauto. rewrite decide_False by (intros Hn; by apply Hn, co_round).
  assert (validate_reputation_entries (state_entries s) = Ok tt) as ->.
  { apply validate_entries_Ok. split; [by apply co_sorted|]. intros e He.
    by apply co_entries in He as []. }
  cbn [result_bind]. unfold Evidence.check_all.
  rewrite (proj2 (check_all_Ok _ _)); cbn [result_bind].
  2:{ intros e He. pose proof (co_entries s Hc e He) as [Hf Hw Hr _ _]. apply bail_Ok. split; [|done].
      unfold is_ejected. rewrite <-Hf. destruct (ReputationEntry.is_excluded e); naive_solver. }
  rewrite (proj2 (check_all_Ok _ _)); cbn [result_bind].
  2:{ intros id Hid. rewrite sort_perm, elem_of_elements in Hid.
      destruct (binary_search _ id) eqn:Eb; [done|]. apply binary_search_Err in Eb as [Hn _].
      apply co_registered in Hid as [? ?]; [|done]. congruence. }
  pose proof (co_latest s Hc) as Hlv. destruct (latest_block s) as [block|]; [|done].
  simpl in Hlv. rewrite Hlv. cbn [result_bind]. rewrite decide_False; [done|]. intros Hn. by apply Hn, Hl.
Qed.
End state.

(** ** Projection onto the authorized validators *)

Section weights.
Import Weights.
Variable s : ReputationState.t.

(** The weight of a known validator: an ejected one has none. *)
Definition weight_of (v : NodeId) : option N :=
  (λ e, if ReputationEntry.is_excluded e || ReputationState.is_ejected s v then 0%N
        else ReputationEntry.reputation e) <$> find_entry (ReputationState.state_entries s) v.
Definition weight_or_zero (v : NodeId) : N := default 0%N (weight_of v).

Lemma validator_weight_Ok v w : validator_weight s v = Ok w ↔ weight_of v = Some w.
Proof.
  unfold validator_weight, weight_of.
  destruct (find_entry _ v); simpl; naive_solver.
Qed.

Lemma add_validators_Ok vs m t m' t' :
  (∀ v w, m !! v = Some w → weight_of v = Some w) → (t <= u128_max)%N →
  try_fold (add_validator s) (m, t) vs = Ok (m', t') ↔
  (∀ v, v ∈ vs → is_Some (weight_of v)) ∧
  (∀ v, m' !! v = if decide (v ∈ vs) then weight_of v else m !! v) ∧
  t' = (t + set_weight weight_or_zero (list_to_set vs ∖ dom m))%N ∧ (t' <= u128_max)%N.
Proof.
  revert m t. induction vs as [|v vs IH]; intros m t Hm Ht; cbn [try_fold list_to_set].
  { assert ((∅ : gset NodeId) ∖ dom m = ∅) as Hempty by set_solver.
    change (list_to_set [] : gset NodeId) with (∅ : gset NodeId). rewrite Hempty, set_weight_empty, N.add_0_r. split.
    - intros [= <- <-]. split_and!; [by intros ? ?%elem_of_nil| |done..]. intros v.
      by rewrite decide_False by (by intros ?%elem_of_nil).
    - intros (_ & Hl & -> & _). do 2 f_equal. apply map_eq. intros v. rewrite Hl.
      by rewrite decide_False by (by intros ?%elem_of_nil). }
  unfold add_validator at 1. destruct (decide (is_Some (m !! v))) as [[w Hw]|Hn].
  { cbn [result_bind]. rewrite IH by done. pose proof (Hm _ _ Hw) as Hwv.
    assert (({[v]} ∪ list_to_set vs) ∖ dom m = (list_to_set vs ∖ dom m : gset NodeId)) as ->.
    { apply elem_of_dom_2 in Hw. set_solver. }
    assert ((∀ x, x ∈ v :: vs → is_Some (weight_of x)) ↔ ∀ x, x ∈ vs → is_Some (weight_of x)) as ->.
    { split; [intros Hx x ?; apply Hx; by right|]. intros Hx x [->|?]%elem_of_cons; [by eexists|by apply Hx]. }
    assert ((∀ x, m' !! x = if decide (x ∈ v :: vs) then weight_of x else m !! x) ↔
      ∀ x, m' !! x = if decide (x ∈ vs) then weight_of x else m !! x) as ->; [|done].
    apply forall_proper. intros x. destruct (decide (x ∈ vs)) as [Hx|Hx].
    - by rewrite decide_True by (by right).
    - destruct (decide (x = v)) as [->|Hne].
      + by rewrite decide_True, Hw, Hwv by (by left).
      + by rewrite decide_False by (intros [?|?]%elem_of_cons; done). }
  rewrite eq_None_not_Some in Hn || apply eq_None_not_Some in Hn.
  assert (({[v]} ∪ list_to_set vs) ∖ dom m = {[v]} ∪ (list_to_set vs ∖ dom (<[v:=0%N]> m)) ∧
    {[v]} ## (list_to_set vs ∖ dom (<[v:=0%N]> m) : gset NodeId)) as [Hset Hdisj].
  { apply not_elem_of_dom in Hn. rewrite dom_insert_L. split; [|set_solver].
    apply set_eq. intros x. destruct (decide (x = v)) as [->|]; set_solver. }
  rewrite Hset, set_weight_disj_union, set_weight_singleton by done. unfold weight_or_zero at 1.
  destruct (weight_of v) as [w|] eqn:Hw.
  2:{ destruct (validator_weight s v) eqn:E; [apply validator_weight_Ok in E; congruence|].
      cbn [result_bind]. split; [done|]. intros (Hx & _). destruct (Hx v) as [? ?]; [by left|congruence]. }
  apply validator_weight_Ok in Hw as E. rewrite E. cbn [result_bind default].
  assert (dom (<[v:=0%N]> m) = dom (<[v:=w]> m)) as -> by (by rewrite !dom_insert_L).
  destruct (checked_add u128_max t w) as [t1|] eqn:Et; cbn [ok_or result_bind].
  2:{ apply checked_add_None in Et. split; [done|]. intros (_ & _ & -> & Hle). cbn [id] in Hle. lia. }
  apply checked_add_Some in Et as [-> Hle]. rewrite IH; [|by intros x y [[<- <-]|[? ?%Hm]]%lookup_insert_Some|done].
  rewrite <-N.add_assoc. cbn [id].
  assert ((∀ x, x ∈ v :: vs → is_Some (weight_of x)) ↔ ∀ x, x ∈ vs → is_Some (weight_of x)) as ->.
  { split; [intros Hx x ?; apply Hx; by right|]. intros Hx x [->|?]%elem_of_cons; [by eexists|by apply Hx]. }
  assert ((∀ x, m' !! x = if decide (x ∈ v :: vs) then weight_of x else m !! x) ↔
    ∀ x, m' !! x = if decide (x ∈ vs) then weight_of x else <[v:=w]> m !! x) as ->; [|done].
  apply forall_proper. intros x. destruct (decide (x ∈ vs)) as [Hx|Hx].
  - by rewrite decide_True by (by right).
  - destruct (decide (x = v)) as [->|Hne].
    + by rewrite decide_True, lookup_insert_eq, Hw by (by left).
    + rewrite lookup_insert_ne by done. by rewrite decide_False by (intros [?|?]%elem_of_cons; done).
Qed.
End weights.
