(* ===== verification/PorCodec.v ===== *)
(** * Proof of reputation: wire and snapshot codecs

    The envelope of [block.rs] and the durable snapshots of [snapshot.rs].
    Lengths are [usize] on a 64-bit target, so the conversions from [u64] do
    not fail.  A decoder is the cursor of [Bytes]: the two source files each
    have their own copy of it, which differ in the errors they report. *)

From S2P Require Import Prelude Types PorTypes PorMath Bytes PorCommit PorAudit PorState.
From stdpp Require Import options.

Definition CHECKSUM_LEN : nat := 32.

(** ** The decoders' shared operations, over the errors they report *)

Section cursor.
Context (malformed too_large : PorError).

Definition read_u16 : parser PorError N := read_uint malformed 2.
Definition read_u64 : parser PorError N := read_uint malformed 8.
Definition read_count (max : N) : parser PorError nat :=
  read count := read_u64 in
  if decide (max < count)%N then parse_fail too_large else parse_ret (N.to_nat count).
Definition read_bytes (max_len : N) : parser PorError (list byte) :=
  read len := read_u64 in
  if decide (max_len < len)%N then parse_fail too_large else read_exact malformed (N.to_nat len).
Definition read_entry (max_id : N) : parser PorError ReputationEntry.t :=
  read node_id := read_bytes max_id in
  read reputation := read_u64 in
  read is_excluded := read_discriminant malformed in
  read retained_reputation := read_u64 in
  parse_ret (ReputationEntry.mk node_id reputation retained_reputation is_excluded).
Definition read_list (max_entries max_id : N) : parser PorError ReputationList :=
  read round := read_u64 in
  read count := read_count max_entries in
  read entries := read_many (read_entry max_id) count in
  match validate_reputation_entries entries with
  | Ok _ => parse_ret (mkList round entries)
  | Err e => parse_fail e
  end.
End cursor.

(** ** [block.rs]: the publication envelope *)

Module BlockWire.

Definition POR_REPUTATION_BLOCK_MAGIC : list byte := literal "cordial-por-block".
Definition POR_REPUTATION_BLOCK_WIRE_VERSION : N := 2.
Definition POR_CHECKPOINT_REPUTATION_BLOCK_WIRE_VERSION : N := 3.
Definition REPUTATION_BLOCK_CHECKSUM_DOMAIN : list byte :=
  literal "cordial-por:reputation-block-envelope:v2".
Definition CHECKPOINT_REPUTATION_BLOCK_CHECKSUM_DOMAIN : list byte :=
  literal "cordial-por:reputation-block-envelope:v3".
Definition FIXED_ENVELOPE_LEN : N :=
  len POR_REPUTATION_BLOCK_MAGIC + 2 + 8 + N.of_nat CHECKSUM_LEN.
Definition MAX_REPUTATION_BLOCK_PAYLOAD_LEN : N :=
  MAX_REPUTATION_BLOCK_WIRE_LEN - FIXED_ENVELOPE_LEN.

Definition put_fixed (output bytes : list byte) : result (list byte) PorError :=
  bail ReputationBlockWireTooLarge
    when (MAX_REPUTATION_BLOCK_PAYLOAD_LEN < len output + len bytes)%N;
  Ok (output ++ bytes).
Definition put_u16 (output : list byte) (value : N) := put_fixed output (be_bytes 2 value).
Definition put_u64 (output : list byte) (value : N) := put_fixed output (be64 value).
Definition put_byte (output : list byte) (value : byte) := put_fixed output [value].
Definition put_bytes (output bytes : list byte) : result (list byte) PorError :=
  bail ReputationBlockWireTooLarge when (u64_max < len bytes)%N;
  let? output := put_u64 output (len bytes) in
  put_fixed output bytes.
Definition put_node_id (output : list byte) (node_id : NodeId) : result (list byte) PorError :=
  bail ReputationBlockWireTooLarge when (MAX_REPUTATION_BLOCK_NODE_ID_LEN < len node_id)%N;
  put_bytes output node_id.
Definition put_count (output : list byte) (count : nat) : result (list byte) PorError :=
  bail ReputationBlockWireTooLarge when (MAX_REPUTATION_BLOCK_ENTRIES < N.of_nat count)%N;
  put_u64 output (N.of_nat count).

Definition put_entry (output : list byte) (entry : ReputationEntry.t) :
    result (list byte) PorError :=
  let? output := put_node_id output (ReputationEntry.node_id entry) in
  let? output := put_u64 output (ReputationEntry.reputation entry) in
  let? output := put_byte output (Commitments.bool_byte (ReputationEntry.is_excluded entry)) in
  put_u64 output (ReputationEntry.retained_reputation entry).

Definition encode_reputation_list (output : list byte) (list : ReputationList) :
    result (Datatypes.list byte) PorError :=
  let? _ := validate_reputation_entries (entries list) in
  let? output := put_u64 output (list_round list) in
  let? output := put_count output (length (entries list)) in
  try_fold put_entry output (entries list).

Definition decode_reputation_list : parser PorError ReputationList :=
  read_list MalformedReputationBlockWire ReputationBlockWireTooLarge
    MAX_REPUTATION_BLOCK_ENTRIES MAX_REPUTATION_BLOCK_NODE_ID_LEN.

Definition put_source (output : list byte) (source : option RatingSourceCheckpoint) :
    result (list byte) PorError :=
  match source with
  | Some source =>
    let? output := put_u64 output (finalized_prefix_len source) in
    put_fixed output (finalized_prefix_hash source)
  | None => Ok output
  end.
Definition put_hash_option (output : list byte) (hash : option Hash32) :
    result (list byte) PorError :=
  match hash with
  | Some hash => let? output := put_byte output x01 in put_fixed output hash
  | None => put_byte output x00
  end.

Section wire.
Context `{Blake2b}.

Definition encode_reputation_block_payload (block : ReputationBlock) :
    result (list byte) PorError :=
  let? _ := Commitments.validate_reputation_block block in
  let header := header block in
  let? output := put_u16 [] (version header) in
  let? output := put_bytes output (shard_id header) in
  let? output := put_u64 output (header_source_finalized_wave header) in
  let? output := put_u64 output (header_round header) in
  let? output := put_source output (source_checkpoint header) in
  let? output := put_hash_option output (previous_reputation_hash header) in
  let? output := put_fixed output (config_hash header) in
  let? output := put_fixed output (ratings_hash header) in
  let? output := put_fixed output (penalties_hash header) in
  let? output := put_fixed output (reputation_root header) in
  encode_reputation_list output (reputation_list block).

Definition read_source (version round : N) : parser PorError (option RatingSourceCheckpoint) :=
  if decide (version = REPUTATION_BLOCK_VERSION) then parse_ret None
  else if decide (version = CHECKPOINT_REPUTATION_BLOCK_VERSION) then
    read finalized_prefix_len := read_u64 MalformedReputationBlockWire in
    read finalized_prefix_hash := read_hash MalformedReputationBlockWire in
    parse_ret (Some (mkSource round finalized_prefix_len finalized_prefix_hash))
  else parse_fail (UnsupportedReputationBlockVersion version).
Definition read_hash_option : parser PorError (option Hash32) :=
  read some := read_discriminant MalformedReputationBlockWire in
  if some : bool then
    read hash := read_hash MalformedReputationBlockWire in parse_ret (Some hash)
  else parse_ret None.

Definition read_block : parser PorError ReputationBlock :=
  read version := read_u16 MalformedReputationBlockWire in
  read shard_id := read_bytes MalformedReputationBlockWire ReputationBlockWireTooLarge
    (N.of_nat MAX_REPUTATION_BLOCK_SHARD_ID_LEN) in
  read source_finalized_wave := read_u64 MalformedReputationBlockWire in
  read round := read_u64 MalformedReputationBlockWire in
  read source_checkpoint := read_source version round in
  read previous_reputation_hash := read_hash_option in
  read config_hash := read_hash MalformedReputationBlockWire in
  read ratings_hash := read_hash MalformedReputationBlockWire in
  read penalties_hash := read_hash MalformedReputationBlockWire in
  read reputation_root := read_hash MalformedReputationBlockWire in
  read list := decode_reputation_list in
  parse_ret (mkReputationBlock
    (mkHeader version shard_id source_finalized_wave source_checkpoint round
       previous_reputation_hash config_hash ratings_hash penalties_hash reputation_root) list).

Definition decode_reputation_block_payload (bytes : list byte) : result ReputationBlock PorError :=
  bail ReputationBlockWireTooLarge when (MAX_REPUTATION_BLOCK_PAYLOAD_LEN < len bytes)%N;
  let? parsed := read_block bytes in
  bail MalformedReputationBlockWire when parsed.2 ≠ [];
  let? _ := Commitments.validate_reputation_block parsed.1 in
  Ok parsed.1.

(** The source reaches [unreachable!] for other versions. *)
Definition checksum_domain (version : N) : list byte :=
  if decide (version = POR_REPUTATION_BLOCK_WIRE_VERSION) then REPUTATION_BLOCK_CHECKSUM_DOMAIN
  else CHECKPOINT_REPUTATION_BLOCK_CHECKSUM_DOMAIN.
Definition reputation_block_checksum (version payload_len : N) (payload : list byte) : Hash32 :=
  blake2b256 (checksum_domain version ++ POR_REPUTATION_BLOCK_MAGIC ++ be_bytes 2 version ++
    be64 payload_len ++ payload).

Definition encode_reputation_block (block : ReputationBlock) : result (list byte) PorError :=
  let? payload := encode_reputation_block_payload block in
  let wire_version := version (header block) in
  let payload_len := len payload in
  bail ReputationBlockWireTooLarge when (u64_max < payload_len)%N;
  Ok (POR_REPUTATION_BLOCK_MAGIC ++ be_bytes 2 wire_version ++ be64 payload_len ++ payload ++
      vec_to_list (reputation_block_checksum wire_version payload_len payload)).

(** The envelope up to the checksum comparison: the version and the payload. *)
Definition read_envelope : parser PorError (N * list byte) :=
  read magic := read_exact MalformedReputationBlockWire (length POR_REPUTATION_BLOCK_MAGIC) in
  if decide (magic ≠ POR_REPUTATION_BLOCK_MAGIC) then parse_fail MalformedReputationBlockWire else
  read wire_version := read_u16 MalformedReputationBlockWire in
  if decide (wire_version ≠ POR_REPUTATION_BLOCK_WIRE_VERSION ∧
             wire_version ≠ POR_CHECKPOINT_REPUTATION_BLOCK_WIRE_VERSION)
  then parse_fail (UnsupportedReputationBlockWireVersion wire_version) else
  read payload_len := read_u64 MalformedReputationBlockWire in
  if decide (MAX_REPUTATION_BLOCK_PAYLOAD_LEN < payload_len)%N
  then parse_fail ReputationBlockWireTooLarge else
  read available := remaining in
  if decide (available ≠ N.to_nat payload_len + CHECKSUM_LEN)
  then parse_fail MalformedReputationBlockWire else
  read payload := read_exact MalformedReputationBlockWire (N.to_nat payload_len) in
  read checksum := read_hash MalformedReputationBlockWire in
  if decide (checksum ≠ reputation_block_checksum wire_version payload_len payload)
  then parse_fail ReputationBlockWireChecksumMismatch
  else parse_ret (wire_version, payload).

Definition decode_reputation_block (bytes : list byte) : result ReputationBlock PorError :=
  bail ReputationBlockWireTooLarge when (MAX_REPUTATION_BLOCK_WIRE_LEN < len bytes)%N;
  bail MalformedReputationBlockWire when (len bytes < FIXED_ENVELOPE_LEN)%N;
  let? envelope := read_envelope bytes in
  let? block := decode_reputation_block_payload envelope.1.2 in
  bail MalformedReputationBlockWire when version (header block) ≠ envelope.1.1;
  Ok block.

End wire.
End BlockWire.

(** ** [snapshot.rs] *)

Module Snapshot.

Definition POR_STATE_SNAPSHOT_MAGIC : list byte := literal "cordial-por-state".
Definition POR_STATE_SNAPSHOT_VERSION : N := 2.
Definition POR_CHECKPOINT_STATE_SNAPSHOT_VERSION : N := 3.
Definition MAX_REPUTATION_STATE_SNAPSHOT_LEN : N := 67108864.
Definition MAX_REPUTATION_STATE_ENTRIES : N := MAX_REPUTATION_BLOCK_ENTRIES.
Definition MAX_REPUTATION_STATE_NODE_ID_LEN : N := MAX_REPUTATION_BLOCK_NODE_ID_LEN.
Definition SNAPSHOT_CHECKSUM_DOMAIN : list byte := literal "cordial-por:state-snapshot:v2".
Definition CHECKPOINT_SNAPSHOT_CHECKSUM_DOMAIN : list byte :=
  literal "cordial-por:state-snapshot:v3".
Definition FIXED_ENVELOPE_LEN : N :=
  len POR_STATE_SNAPSHOT_MAGIC + 2 + 8 + N.of_nat CHECKSUM_LEN.

Definition map_reputation_block_wire_error (error : PorError) : PorError :=
  match error with
  | ReputationBlockWireTooLarge => ReputationStateSnapshotTooLarge
  | MalformedReputationBlockWire | UnsupportedReputationBlockWireVersion _
  | ReputationBlockWireChecksumMismatch => MalformedReputationStateSnapshot
  | other => other
  end.

Definition put_bytes (output bytes : list byte) : result (list byte) PorError :=
  bail ReputationStateSnapshotTooLarge when (u64_max < len bytes)%N;
  Ok (output ++ be64 (len bytes) ++ bytes).
Definition put_node_id (output : list byte) (node_id : NodeId) : result (list byte) PorError :=
  bail ReputationStateSnapshotTooLarge when (MAX_REPUTATION_STATE_NODE_ID_LEN < len node_id)%N;
  put_bytes output node_id.
Definition put_count (output : list byte) (count : nat) : result (list byte) PorError :=
  bail ReputationStateSnapshotTooLarge when (MAX_REPUTATION_STATE_ENTRIES < N.of_nat count)%N;
  Ok (output ++ be64 (N.of_nat count)).

Definition put_entry (output : list byte) (entry : ReputationEntry.t) :
    result (list byte) PorError :=
  let? output := put_node_id output (ReputationEntry.node_id entry) in
  Ok (output ++ be64 (ReputationEntry.reputation entry) ++
      [Commitments.bool_byte (ReputationEntry.is_excluded entry)] ++
      be64 (ReputationEntry.retained_reputation entry)).

Definition encode_reputation_list (output : list byte) (list : ReputationList) :
    result (Datatypes.list byte) PorError :=
  let? _ := validate_reputation_entries (entries list) in
  let output := output ++ be64 (list_round list) in
  let? output := put_count output (length (entries list)) in
  try_fold put_entry output (entries list).

Definition decode_reputation_list : parser PorError ReputationList :=
  read_list MalformedReputationStateSnapshot ReputationStateSnapshotTooLarge
    MAX_REPUTATION_STATE_ENTRIES MAX_REPUTATION_STATE_NODE_ID_LEN.

Section snapshot.
Context `{Blake2b}.

Definition checksum_domain (version : N) : list byte :=
  if decide (version = POR_STATE_SNAPSHOT_VERSION) then SNAPSHOT_CHECKSUM_DOMAIN
  else CHECKPOINT_SNAPSHOT_CHECKSUM_DOMAIN.
Definition snapshot_checksum (version payload_len : N) (payload : list byte) : Hash32 :=
  blake2b256 (checksum_domain version ++ POR_STATE_SNAPSHOT_MAGIC ++ be_bytes 2 version ++
    be64 payload_len ++ payload).

Definition snapshot_version (latest_block : option ReputationBlock) : N :=
  match latest_block with
  | Some block =>
    if decide (version (header block) = CHECKPOINT_REPUTATION_BLOCK_VERSION)
    then POR_CHECKPOINT_STATE_SNAPSHOT_VERSION else POR_STATE_SNAPSHOT_VERSION
  | None => POR_STATE_SNAPSHOT_VERSION
  end.

Definition put_block (output : list byte) (latest_block : option ReputationBlock) :
    result (list byte) PorError :=
  match latest_block with
  | Some block =>
    let output := output ++ [x01] in
    let? encoded := map_err map_reputation_block_wire_error
      (BlockWire.encode_reputation_block_payload block) in
    bail ReputationStateSnapshotTooLarge
      when (MAX_REPUTATION_STATE_SNAPSHOT_LEN - FIXED_ENVELOPE_LEN < len output + len encoded)%N;
    Ok (output ++ encoded)
  | None => Ok (output ++ [x00])
  end.

Definition encode_reputation_state_snapshot (state : ReputationState.t) :
    result (list byte) PorError :=
  let? _ := ReputationState.validate_snapshot_invariants state in
  let version := snapshot_version (ReputationState.latest_block state) in
  let? payload := encode_reputation_list (be64 (ReputationState.current_round state))
    (ReputationState.state_list state) in
  let excluded_keys := sort (elements (ReputationState.excluded_keys state)) in
  let? payload := put_count payload (length excluded_keys) in
  let? payload := try_fold put_node_id payload excluded_keys in
  let? payload := put_block payload (ReputationState.latest_block state) in
  bail ReputationStateSnapshotTooLarge
    when (MAX_REPUTATION_STATE_SNAPSHOT_LEN < FIXED_ENVELOPE_LEN + len payload)%N;
  let payload_len := len payload in
  Ok (POR_STATE_SNAPSHOT_MAGIC ++ be_bytes 2 version ++ be64 payload_len ++ payload ++
      vec_to_list (snapshot_checksum version payload_len payload)).

(** [previous_excluded.is_some_and(|previous| previous >= &node_id)]. *)
Definition not_after (previous_excluded : option NodeId) (node_id : NodeId) : bool :=
  from_option (λ previous, bool_decide (¬ ord_lt previous node_id)) false previous_excluded.

(** The excluded keys arrive strictly ascending; the set is built as they do. *)
Fixpoint read_excluded (count : nat) (previous_excluded : option NodeId)
    (excluded_keys : gset NodeId) : parser PorError (gset NodeId) :=
  match count with
  | O => parse_ret excluded_keys
  | S count =>
    read node_id := read_bytes MalformedReputationStateSnapshot ReputationStateSnapshotTooLarge
      MAX_REPUTATION_STATE_NODE_ID_LEN in
    if not_after previous_excluded node_id
    then parse_fail ReputationStateSnapshotExclusionMismatch
    else read_excluded count (Some node_id) ({[node_id]} ∪ excluded_keys)
  end.

Definition read_block : parser PorError (option ReputationBlock) :=
  read some := read_discriminant MalformedReputationStateSnapshot in
  if some : bool then
    read available := remaining in
    read encoded := read_exact MalformedReputationStateSnapshot available in
    match map_err map_reputation_block_wire_error
            (BlockWire.decode_reputation_block_payload encoded) with
    | Ok block => parse_ret (Some block)
    | Err e => parse_fail e
    end
  else parse_ret None.

Definition read_envelope : parser PorError (N * list byte) :=
  read magic := read_exact MalformedReputationStateSnapshot (length POR_STATE_SNAPSHOT_MAGIC) in
  if decide (magic ≠ POR_STATE_SNAPSHOT_MAGIC) then parse_fail MalformedReputationStateSnapshot else
  read version := read_u16 MalformedReputationStateSnapshot in
  if decide (version ≠ POR_STATE_SNAPSHOT_VERSION ∧
             version ≠ POR_CHECKPOINT_STATE_SNAPSHOT_VERSION)
  then parse_fail (UnsupportedReputationStateSnapshotVersion version) else
  read payload_len := read_u64 MalformedReputationStateSnapshot in
  read available := remaining in
  if decide ((MAX_REPUTATION_STATE_SNAPSHOT_LEN - FIXED_ENVELOPE_LEN < payload_len)%N ∨
             N.of_nat available ≠ payload_len + N.of_nat CHECKSUM_LEN)%N
  then parse_fail MalformedReputationStateSnapshot else
  read payload := read_exact MalformedReputationStateSnapshot (N.to_nat payload_len) in
  read checksum := read_hash MalformedReputationStateSnapshot in
  if decide (checksum ≠ snapshot_checksum version payload_len payload)
  then parse_fail ReputationStateSnapshotChecksumMismatch
  else parse_ret (version, payload).

Definition check_block_version (version : N) (latest_block : option ReputationBlock) :
    result unit PorError :=
  let block_version := from_option (λ block, Some (PorCommit.version (header block))) None latest_block in
  if decide ((version = POR_STATE_SNAPSHOT_VERSION ∧
              (block_version = None ∨ block_version = Some REPUTATION_BLOCK_VERSION)) ∨
             (version = POR_CHECKPOINT_STATE_SNAPSHOT_VERSION ∧
              block_version = Some CHECKPOINT_REPUTATION_BLOCK_VERSION))
  then Ok tt else Err ReputationStateSnapshotBlockVersionMismatch.

(** The parts of a payload, in the order they are read. *)
Definition read_parts :
    parser PorError (N * ReputationList * gset NodeId * option ReputationBlock) :=
  read current_round := read_u64 MalformedReputationStateSnapshot in
  read list := decode_reputation_list in
  read excluded_count := read_count MalformedReputationStateSnapshot
    ReputationStateSnapshotTooLarge MAX_REPUTATION_STATE_ENTRIES in
  read excluded_keys := read_excluded excluded_count None ∅ in
  read latest_block := read_block in
  parse_ret (current_round, list, excluded_keys, latest_block).

Definition decode_reputation_state_snapshot (bytes : list byte) :
    result ReputationState.t PorError :=
  bail ReputationStateSnapshotTooLarge when (MAX_REPUTATION_STATE_SNAPSHOT_LEN < len bytes)%N;
  bail MalformedReputationStateSnapshot when (len bytes < FIXED_ENVELOPE_LEN)%N;
  let? envelope := read_envelope bytes in
  let? parsed := read_parts envelope.1.2 in
  let '(current_round, list, excluded_keys, latest_block) := parsed.1 in
  bail MalformedReputationStateSnapshot when parsed.2 ≠ [];
  let? _ := check_block_version envelope.1.1 latest_block in
  ReputationState.from_snapshot_parts current_round list excluded_keys latest_block.

End snapshot.
End Snapshot.
