(* ===== verification/PorCodecFacts.v ===== *)
(** * Facts about the codecs

    Encoders as writers that append known bytes under a size limit, decoders
    as exact parsers of the same bytes. *)

From S2P Require Import Prelude Types Bytes PorTypes PorMath PorMathFacts PorCommit PorAudit.
From S2P Require Import PorAuditFacts PorState PorStateFacts PorCodec.
From stdpp Require Import options.

Lemma len_app {A} (l k : list A) : len (l ++ k) = (len l + len k)%N.
Proof. unfold len. rewrite length_app. lia. Qed.

(** ** The bytes of each part *)

Definition bytes_of (b : list byte) : list byte := be64 (len b) ++ b.
Definition entry_bytes (e : ReputationEntry.t) : list byte :=
  bytes_of (ReputationEntry.node_id e) ++ be64 (ReputationEntry.reputation e) ++
  [Commitments.bool_byte (ReputationEntry.is_excluded e)] ++
  be64 (ReputationEntry.retained_reputation e).
Definition list_bytes (l : ReputationList) : list byte :=
  be64 (list_round l) ++ be64 (len (entries l)) ++ mjoin (entry_bytes <$> entries l).
Definition source_bytes (s : option RatingSourceCheckpoint) : list byte :=
  match s with
  | Some s => be64 (finalized_prefix_len s) ++ vec_to_list (finalized_prefix_hash s)
  | None => []
  end.
Definition block_bytes (b : ReputationBlock) : list byte :=
  let h := header b in
  be_bytes 2 (version h) ++ bytes_of (shard_id h) ++ be64 (header_source_finalized_wave h) ++
  be64 (header_round h) ++ source_bytes (source_checkpoint h) ++
  Commitments.optional_hash (previous_reputation_hash h) ++ vec_to_list (config_hash h) ++
  vec_to_list (ratings_hash h) ++ vec_to_list (penalties_hash h) ++
  vec_to_list (reputation_root h) ++ list_bytes (reputation_list b).

(** What Rust's types guarantee: every integer is a [u64]. *)
Definition typed_entry (e : ReputationEntry.t) : Prop :=
  fits_u64 (ReputationEntry.reputation e) ∧ fits_u64 (ReputationEntry.retained_reputation e).
Definition typed_list (l : ReputationList) : Prop :=
  fits_u64 (list_round l) ∧ Forall typed_entry (entries l).
Definition typed_block (b : ReputationBlock) : Prop :=
  fits_u64 (header_source_finalized_wave (header b)) ∧ fits_u64 (header_round (header b)) ∧
  (∀ s, source_checkpoint (header b) = Some s → fits_u64 (finalized_prefix_len s)) ∧
  typed_list (reputation_list b).

(** The size limits of the format. *)
Definition entry_limit (e : ReputationEntry.t) : Prop :=
  (len (ReputationEntry.node_id e) <= MAX_REPUTATION_BLOCK_NODE_ID_LEN)%N.
Definition list_limits (l : ReputationList) : Prop :=
  (len (entries l) <= MAX_REPUTATION_BLOCK_ENTRIES)%N ∧ Forall entry_limit (entries l).

(** ** Decoders *)

Section decoders.
Context (malformed too_large : PorError).
#[local] Set Default Proof Using "Type".

Lemma exact_bool : exact (read_discriminant malformed) (λ b, [Commitments.bool_byte b]) (λ _, True).
Proof. apply exact_discriminant. Qed.

Lemma exact_bytes max :
  (max <= u64_max)%N →
  exact (read_bytes malformed too_large max) bytes_of (λ b, len b <= max)%N.
Proof.
  intros Hmax input b rest. unfold read_bytes, bytes_of. rewrite parse_bind_Ok. split.
  - intros (n & mid & [Hn ->]%exact_u64 & Hk). case_decide as Hd; [done|].
    apply exact_exact in Hk as [Hl ->]. unfold id. rewrite <-app_assoc.
    assert (len b = n) as -> by (unfold len; lia). split; [lia|done].
  - intros [Hl ->]. exists (len b), (b ++ rest). split.
    + apply exact_u64. split; [lia|by rewrite <-app_assoc].
    + rewrite decide_False by lia. apply exact_exact. split; [unfold len; lia|done].
Qed.
Lemma exact_count max :
  (max <= u64_max)%N →
  exact (read_count malformed too_large max) (λ n, be64 (N.of_nat n)) (λ n, N.of_nat n <= max)%N.
Proof.
  intros Hmax input n rest. unfold read_count. rewrite parse_bind_Ok. split.
  - intros (x & mid & [Hn ->]%exact_u64 & Hk). case_decide; [done|]. injection Hk as <- <-.
    rewrite N2Nat.id. split; [lia|done].
  - intros [Hl ->]. exists (N.of_nat n), rest. split; [apply exact_u64; split; [lia|done]|].
    rewrite decide_False by lia. by rewrite Nat2N.id.
Qed.

Lemma exact_entry max :
  (max <= u64_max)%N →
  exact (read_entry malformed too_large max) entry_bytes
    (λ e, (len (ReputationEntry.node_id e) <= max)%N ∧ typed_entry e).
Proof.
  intros Hmax input e rest. unfold read_entry, entry_bytes. split.
  - intros Hp. invert_parse Hp. injection Hp as <- <-.
    apply exact_bytes in Hread as [? ->]; [|done]. apply exact_u64 in Hread0 as [? ->].
    apply exact_bool in Hread1 as [_ ->]. apply exact_u64 in Hread2 as [? ->].
    rewrite <-!app_assoc. done.
  - intros [[Hid [Hr Ht]] ->]. rewrite <-!app_assoc.
    rewrite (exact_run _ _ _ _ _ _ (exact_bytes max Hmax)) by done.
    rewrite (exact_run _ _ _ _ _ _ (exact_u64 malformed)) by done.
    rewrite (exact_run _ _ _ _ _ _ exact_bool) by done.
    rewrite (exact_run _ _ _ _ _ _ (exact_u64 malformed)) by done. by destruct e.
Qed.

Lemma exact_list max_entries max_id :
  (max_entries <= u64_max)%N → (max_id <= u64_max)%N →
  exact (read_list malformed too_large max_entries max_id) list_bytes
    (λ l, typed_list l ∧ (len (entries l) <= max_entries)%N ∧
      Forall (λ e, (len (ReputationEntry.node_id e) <= max_id)%N) (entries l) ∧
      validate_reputation_entries (entries l) = Ok tt).
Proof.
  intros He Hid input l rest. unfold read_list, list_bytes. split.
  - intros Hp. invert_parse Hp.
    destruct (validate_reputation_entries x1) as [[]|] eqn:Ev; [|done]. injection Hp as <- <-.
    apply exact_u64 in Hread as [Hr ->]. apply exact_count in Hread0 as [Hc ->]; [|done].
    apply (exact_many _ _ _ _ (exact_entry max_id Hid)) in Hread1 as [[<- Hall] ->].
    apply Forall_and in Hall as [Hids Htyped]. rewrite <-!app_assoc. done.
  - intros [([Hr Ht] & Hc & Hids & Hv) ->]. rewrite <-!app_assoc.
    rewrite (exact_run _ _ _ _ _ _ (exact_u64 malformed)) by done.
    rewrite (exact_run _ _ _ _ (length (entries l)) _ (exact_count max_entries He)) by done.
    rewrite (exact_run _ _ _ _ _ _ (exact_many _ _ _ _ (exact_entry max_id Hid)))
      by (split; [done|by apply Forall_and]).
    rewrite Hv. by destruct l.
Qed.
End decoders.

(** ** Encoders *)

Section writers.
Context (fits_in : list byte → Prop).
Hypothesis fits_prefix : ∀ a b, fits_in (a ++ b) → fits_in a.
#[local] Set Default Proof Using "Type".

(** [w] appends [bytes], provided [C] holds and the output stays in its
    limits. *)
Definition writes (w : list byte → result (list byte) PorError) (C : Prop) (bytes : list byte) :
    Prop :=
  ∀ out out', fits_in out → w out = Ok out' ↔ C ∧ out' = out ++ bytes ∧ fits_in out'.

Lemma writes_bind w k C1 C2 b1 b2 :
  writes w C1 b1 → writes k C2 b2 →
  writes (λ out, result_bind (w out) k) (C1 ∧ C2) (b1 ++ b2).
Proof using fits_prefix.
  intros Hw Hk out out' Hout. rewrite result_bind_Ok. split.
  - intros (mid & (H1 & -> & Hm)%Hw & (H2 & -> & Ho)%Hk); [|done..].
    rewrite <-app_assoc in *. done.
  - intros [[H1 H2] [-> Ho]]. rewrite app_assoc in Ho. pose proof (fits_prefix _ _ Ho) as Hm.
    exists (out ++ b1). split; [by apply Hw|]. apply Hk; [done|]. by rewrite app_assoc.
Qed.
Lemma writes_ret : writes Ok True [].
Proof. intros out out' Hout. rewrite app_nil_r. split; [by intros [= <-]|by intros (_ & -> & _)]. Qed.
Lemma writes_iff w C C' b : (C ↔ C') → writes w C b → writes w C' b.
Proof. intros HC Hw out out' Ho. rewrite <-HC. by apply Hw. Qed.
Lemma writes_guard w C b P `{Decision P} e :
  writes w C b → writes (λ out, bail e when P; w out) (¬ P ∧ C) b.
Proof. intros Hw out out' Ho. rewrite bail_Ok, (Hw out out' Ho). tauto. Qed.
Lemma writes_check w C b (r : result unit PorError) :
  writes w C b → writes (λ out, let? _ := r in w out) (r = Ok tt ∧ C) b.
Proof.
  intros Hw out out' Ho. rewrite result_bind_Ok. split.
  - intros ([] & Hr & (? & ?)%Hw); [|done]. tauto.
  - intros [[Hr HC] Hb]. exists tt. split; [done|]. by apply Hw.
Qed.
Lemma writes_fold {A} (w : list byte → A → result (list byte) PorError) C enc l :
  (∀ x, writes (λ out, w out x) (C x) (enc x)) →
  writes (λ out, try_fold w out l) (Forall C l) (mjoin (enc <$> l)).
Proof using fits_prefix.
  intros Hw. induction l as [|x l IH]; cbn [try_fold].
  - eapply writes_iff; [|exact writes_ret]. done.
  - eapply writes_iff; [|exact (writes_bind _ _ _ _ _ _ (Hw x) IH)]. by rewrite Forall_cons.
Qed.
End writers.

(** ** Blocks *)

Section block.
Context `{Blake2b}.
Import BlockWire.

Definition in_payload (out : list byte) : Prop := (len out <= MAX_REPUTATION_BLOCK_PAYLOAD_LEN)%N.
Lemma in_payload_prefix a b : in_payload (a ++ b) → in_payload a.
Proof. unfold in_payload. rewrite len_app. lia. Qed.
Abbreviation emits := (writes in_payload).
#[local] Hint Resolve in_payload_prefix : core.
Abbreviation bind := (writes_bind in_payload in_payload_prefix).

Lemma payload_max : (MAX_REPUTATION_BLOCK_PAYLOAD_LEN <= u64_max)%N.
Proof. by vm_compute. Qed.

Lemma emits_fixed b : emits (λ out, put_fixed out b) True b.
Proof.
  intros out out' Ho. unfold put_fixed, in_payload. rewrite bail_Ok. split.
  - intros [Hl [= <-]]. rewrite len_app. split_and!; [done..|lia].
  - intros (_ & -> & Hl). rewrite len_app in Hl. split; [lia|done].
Qed.
Lemma emits_bytes b : emits (λ out, put_bytes out b) True (bytes_of b).
Proof.
  intros out out' Ho. unfold put_bytes.
  pose proof (bind _ (λ out, put_fixed out b) _ _ _ _ (emits_fixed (be64 (len b))) (emits_fixed b)
    out out' Ho) as Hb. unfold put_u64. rewrite bail_Ok, Hb. unfold bytes_of. split; [naive_solver|].
  intros (_ & -> & Hl). split_and!; try done. pose proof payload_max. unfold in_payload in Hl.
  rewrite !len_app in Hl. lia.
Qed.
Lemma emits_count l :
  emits (λ out, put_count out (length l))
    (len (l : list ReputationEntry.t) <= MAX_REPUTATION_BLOCK_ENTRIES)%N (be64 (len l)).
Proof.
  eapply writes_iff; [|apply writes_guard, emits_fixed]. unfold len. split; [|split; [|done]]; lia.
Qed.
Lemma emits_entry e : emits (λ out, put_entry out e) (entry_limit e) (entry_bytes e).
Proof.
  unfold put_entry, put_node_id, put_u64, put_byte, entry_limit, entry_bytes.
  eapply writes_iff; [|eapply bind; [apply writes_guard, emits_bytes|
    eapply bind; [apply emits_fixed|eapply bind; apply emits_fixed]]].
  rewrite N.nlt_ge. tauto.
Qed.
Lemma emits_list l :
  emits (λ out, encode_reputation_list out l)
    (validate_reputation_entries (entries l) = Ok tt ∧ list_limits l) (list_bytes l).
Proof.
  unfold encode_reputation_list, put_u64, list_limits, list_bytes.
  eapply writes_iff; [|apply writes_check; eapply bind; [apply emits_fixed|
    eapply bind; [apply emits_count|apply (writes_fold in_payload in_payload_prefix), emits_entry]]].
  tauto.
Qed.
Lemma emits_source s : emits (λ out, put_source out s) True (source_bytes s).
Proof.
  destruct s as [s|]; cbn [put_source source_bytes]; unfold put_u64; [|apply writes_ret].
  eapply writes_iff; [|apply (bind (λ out, put_fixed out _) (λ out, put_fixed out _));
    apply emits_fixed]. tauto.
Qed.
Lemma emits_hash_option h : emits (λ out, put_hash_option out h) True (Commitments.optional_hash h).
Proof.
  destruct h as [h|]; cbn [put_hash_option]; unfold put_byte; [|apply emits_fixed].
  change (Commitments.optional_hash (Some h)) with ([x01] ++ vec_to_list h).
  eapply writes_iff; [|apply (bind (λ out, put_fixed out [x01]) (λ out, put_fixed out h));
    apply emits_fixed]. tauto.
Qed.

Lemma encode_payload_Ok b out :
  encode_reputation_block_payload b = Ok out ↔
  Commitments.validate_reputation_block b = Ok tt ∧ list_limits (reputation_list b) ∧
  out = block_bytes b ∧ in_payload out.
Proof.
  unfold encode_reputation_block_payload, put_u16, put_u64, block_bytes.
  assert (in_payload []) as Hnil by (by vm_compute).
  assert (emits (λ out, let? _ := Commitments.validate_reputation_block b in
    let? output := put_fixed out (be_bytes 2 (version (header b))) in
    let? output := put_bytes output (shard_id (header b)) in
    let? output := put_fixed output (be64 (header_source_finalized_wave (header b))) in
    let? output := put_fixed output (be64 (header_round (header b))) in
    let? output := put_source output (source_checkpoint (header b)) in
    let? output := put_hash_option output (previous_reputation_hash (header b)) in
    let? output := put_fixed output (config_hash (header b)) in
    let? output := put_fixed output (ratings_hash (header b)) in
    let? output := put_fixed output (penalties_hash (header b)) in
    let? output := put_fixed output (reputation_root (header b)) in
    encode_reputation_list output (reputation_list b))
    (Commitments.validate_reputation_block b = Ok tt ∧ list_limits (reputation_list b))
    (block_bytes b)) as Hw.
  { eapply writes_iff; [|apply writes_check; eapply bind; [apply emits_fixed|
      eapply bind; [apply emits_bytes|eapply bind; [apply emits_fixed|eapply bind; [apply emits_fixed|
      eapply bind; [apply emits_source|eapply bind; [apply emits_hash_option|
      do 4 (eapply bind; [apply emits_fixed|]); apply emits_list]]]]]]].
    split; [tauto|]. intros [Hv Hl]. split_and!; try done.
    pose proof (validate_block_parts _ Hv) as (_ & _ & _ & Hroot).
    unfold Commitments.reputation_list_commitment, Commitments.list_payload in Hroot.
    invert_Ok Hroot. by invert_Ok Hok. }
  rewrite (Hw [] out Hnil). simpl. tauto.
Qed.

(** *** The decoder *)

Definition block_readable (b : ReputationBlock) : Prop :=
  typed_block b ∧ (version (header b) < 2 ^ 16)%N ∧
  (len (shard_id (header b)) <= N.of_nat MAX_REPUTATION_BLOCK_SHARD_ID_LEN)%N ∧
  list_limits (reputation_list b) ∧
  validate_reputation_entries (entries (reputation_list b)) = Ok tt ∧
  match source_checkpoint (header b) with
  | Some s => version (header b) = CHECKPOINT_REPUTATION_BLOCK_VERSION ∧
              source_round s = header_round (header b)
  | None => version (header b) = REPUTATION_BLOCK_VERSION
  end.

Lemma exact_source version round :
  exact (read_source version round) source_bytes (λ s, match s with
    | Some s => version = CHECKPOINT_REPUTATION_BLOCK_VERSION ∧ source_round s = round ∧
                fits_u64 (finalized_prefix_len s)
    | None => version = REPUTATION_BLOCK_VERSION end).
Proof.
  intros input s rest. unfold read_source. case_decide as Ev; [|case_decide as Ev3].
  - split; [by intros [= <- <-]|]. intros [Hs ->]. destruct s as [s|]; [|done].
    destruct Hs as [Hs _]. rewrite Ev in Hs. done.
  - split.
    + intros Hp. invert_parse Hp. injection Hp as <- <-. apply exact_u64 in Hread as [? ->].
      apply exact_hash in Hread0 as [_ ->]. cbn [source_bytes finalized_prefix_len finalized_prefix_hash].
      rewrite <-app_assoc. done.
    + intros [Hs ->]. destruct s as [s|]; [|done]. destruct Hs as (_ & Hr & Hl). cbn [source_bytes].
      rewrite <-app_assoc. rewrite (exact_run _ _ _ _ _ _ (exact_u64 MalformedReputationBlockWire)) by done.
      rewrite (exact_run _ _ _ _ _ _ (exact_hash MalformedReputationBlockWire)) by done. subst round. by destruct s.
  - split; [done|]. intros [Hs _]. destruct s as [s|]; [by destruct Hs|done].
Qed.
Lemma exact_hash_option : exact read_hash_option Commitments.optional_hash (λ _, True).
Proof.
  intros input h rest. unfold read_hash_option. split; [|intros [_ ->]].
  - intros Hp. invert_parse Hp. apply exact_bool in Hread as [_ ->]. split; [done|]. destruct x.
    + invert_parse Hp. injection Hp as <- <-. by apply exact_hash in Hread as [_ ->].
    + by injection Hp as <- <-.
  - destruct h as [h|].
    + change (Commitments.optional_hash (Some h) ++ rest) with
        ([Commitments.bool_byte true] ++ vec_to_list h ++ rest).
      rewrite (exact_run _ _ _ _ true _ (exact_bool MalformedReputationBlockWire)) by done.
      by rewrite (exact_run _ _ _ _ _ _ (exact_hash MalformedReputationBlockWire)) by done.
    + change (Commitments.optional_hash None ++ rest) with ([Commitments.bool_byte false] ++ rest).
      by rewrite (exact_run _ _ _ _ false _ (exact_bool MalformedReputationBlockWire)) by done.
Qed.

Lemma exact_block : exact read_block block_bytes block_readable.
Proof.
  assert (N.of_nat MAX_REPUTATION_BLOCK_SHARD_ID_LEN <= u64_max)%N as Hs by (by vm_compute).
  assert (MAX_REPUTATION_BLOCK_ENTRIES <= u64_max)%N as He by (by vm_compute).
  assert (MAX_REPUTATION_BLOCK_NODE_ID_LEN <= u64_max)%N as Hi by (by vm_compute).
  intros input b rest. unfold read_block. split.
  - intros Hp. invert_parse Hp. injection Hp as <- <-.
    apply exact_uint in Hread as [Hv ->]. apply exact_bytes in Hread0 as [Hsh ->]; [|done].
    apply exact_u64 in Hread1 as [Hw ->]. apply exact_u64 in Hread2 as [Hr ->].
    apply exact_source in Hread3 as [Hsrc ->]. apply exact_hash_option in Hread4 as [_ ->].
    apply exact_hash in Hread5 as [_ ->]. apply exact_hash in Hread6 as [_ ->].
    apply exact_hash in Hread7 as [_ ->]. apply exact_hash in Hread8 as [_ ->].
    apply exact_list in Hread9 as [(Ht & Hc & Hids & Hval) ->]; [|done..].
    unfold block_bytes, block_readable, typed_block, list_limits.
    cbn [header reputation_list version shard_id header_source_finalized_wave header_round
      source_checkpoint previous_reputation_hash config_hash ratings_hash penalties_hash
      reputation_root]. rewrite <-!app_assoc.
    split; [|done]. split_and!; try done; destruct x3; naive_solver.
  - intros [((Hw & Hr & Hsrc & Hl) & Hv & Hsh & [Hc Hids] & Hval & Hver) ->].
    unfold block_bytes. rewrite <-!app_assoc.
    rewrite (exact_run _ _ _ _ _ _ (exact_uint MalformedReputationBlockWire 2)) by done.
    rewrite (exact_run _ _ _ _ _ _ (exact_bytes MalformedReputationBlockWire ReputationBlockWireTooLarge _ Hs)) by done.
    do 2 rewrite (exact_run _ _ _ _ _ _ (exact_u64 MalformedReputationBlockWire)) by done.
    rewrite (exact_run _ _ _ _ _ _ (exact_source _ _)).
    2:{ destruct (source_checkpoint (header b)); [|done]. destruct Hver. auto. }
    rewrite (exact_run _ _ _ _ _ _ exact_hash_option) by done.
    do 4 rewrite (exact_run _ _ _ _ _ _ (exact_hash MalformedReputationBlockWire)) by done.
    rewrite (exact_run _ _ _ _ _ _ (exact_list MalformedReputationBlockWire
      ReputationBlockWireTooLarge _ _ He Hi)) by done.
    destruct b as [[]]. done.
Qed.

Lemma validate_readable b :
  Commitments.validate_reputation_block b = Ok tt → typed_block b →
  list_limits (reputation_list b) → block_readable b.
Proof.
  intros Hv Ht Hl. pose proof (validate_block_parts _ Hv) as (Hs & Hsrc & Hr & Hroot).
  unfold Commitments.reputation_list_commitment, Commitments.list_payload in Hroot.
  invert_Ok Hroot. invert_Ok Hok. unfold Commitments.validate_shard_id in Hs. invert_Ok Hs.
  assert (version (header b) = REPUTATION_BLOCK_VERSION ∨
    version (header b) = CHECKPOINT_REPUTATION_BLOCK_VERSION) as Hver.
  { clear -Hsrc. unfold Commitments.validate_header_source in Hsrc.
    case_decide; [by left|]. case_decide; [by right|done]. }
  split_and!; [done| |unfold len; lia|done|done|].
  - by destruct Hver as [->| ->].
  - destruct Hver as [E|E].
    + apply wave_header_source in Hsrc as [-> _]; done.
    + apply checkpoint_header_source in Hsrc as (_ & s & -> & Er & _); done.
Qed.

Lemma decode_payload_Ok bytes b :
  decode_reputation_block_payload bytes = Ok b ↔
  Commitments.validate_reputation_block b = Ok tt ∧ list_limits (reputation_list b) ∧
  typed_block b ∧ bytes = block_bytes b ∧ in_payload bytes.
Proof.
  unfold decode_reputation_block_payload. rewrite bail_Ok, result_bind_Ok. split.
  - intros (Hl & [b' rest] & Hp & Hk). invert_Ok Hk. injection Hk as <-.
    apply dec_stable in Hguard. simpl in *. subst rest. apply exact_block in Hp as [Hr ->].
    rewrite app_nil_r in *. split_and!; [done|apply Hr..|done|]. unfold in_payload. lia.
  - intros (Hv & Hl & Ht & -> & Hin). split; [unfold in_payload in Hin; lia|].
    exists (b, []). split.
    + apply exact_block. split; [by apply validate_readable|by rewrite app_nil_r].
    + cbn [fst snd]. rewrite decide_False by tauto. by rewrite Hv.
Qed.

(** *** The envelope *)

Definition envelope (magic : list byte) (version : N) (payload : list byte) (checksum : Hash32) :
    list byte :=
  magic ++ be_bytes 2 version ++ be64 (len payload) ++ payload ++ vec_to_list checksum.

Lemma envelope_len magic v payload checksum :
  len (envelope magic v payload checksum) = (len magic + 2 + 8 + len payload + N.of_nat CHECKSUM_LEN)%N.
Proof.
  unfold envelope. rewrite !len_app. unfold len. rewrite !length_be_bytes, length_vec_to_list.
  unfold CHECKSUM_LEN. lia.
Qed.

Definition wire_version_ok (v : N) : Prop :=
  v = POR_REPUTATION_BLOCK_WIRE_VERSION ∨ v = POR_CHECKPOINT_REPUTATION_BLOCK_WIRE_VERSION.

Lemma read_envelope_Ok bytes v payload rest :
  read_envelope bytes = Ok ((v, payload), rest) ↔
  rest = [] ∧ wire_version_ok v ∧ in_payload payload ∧
  bytes = envelope POR_REPUTATION_BLOCK_MAGIC v payload
    (reputation_block_checksum v (len payload) payload).
Proof.
  unfold read_envelope, envelope, in_payload. split.
  - intros Hp. invert_parse Hp. injection Hp as <- <- <-.
    repeat match goal with Hg : ¬ _ ≠ _ |- _ => apply dec_stable in Hg end.
    apply exact_exact in Hread as [_ ->]. apply exact_uint in Hread0 as [Hv ->].
    apply exact_u64 in Hread1 as [Hl ->]. injection Hread2 as <- <-.
    apply exact_exact in Hread3 as [Hlen ->]. apply exact_hash in Hread4 as [_ ->].
    unfold id in *. rewrite !length_app, length_vec_to_list in Hguard2.
    unfold CHECKSUM_LEN in Hguard2. assert (mid4 = []) as -> by (apply nil_length_inv; lia).
    assert (len x3 = x1) as -> by (unfold len; lia). subst x x4. rewrite app_nil_r.
    split_and!; [done| |lia|done]. unfold wire_version_ok.
    destruct (decide (x0 = POR_REPUTATION_BLOCK_WIRE_VERSION)); [by left|right].
    apply dec_stable. tauto.
  - intros (-> & Hv & Hl & ->).
    pose proof (exact_exact MalformedReputationBlockWire (length POR_REPUTATION_BLOCK_MAGIC)) as He.
    rewrite (exact_run _ id _ _ POR_REPUTATION_BLOCK_MAGIC _ He) by done.
    rewrite decide_False by tauto.
    rewrite (exact_run _ _ _ _ _ _ (exact_uint MalformedReputationBlockWire 2)) by (by destruct Hv as [->| ->]).
    rewrite decide_False by (intros [? ?]; by destruct Hv).
    pose proof payload_max.
    rewrite (exact_run _ _ _ _ _ _ (exact_u64 MalformedReputationBlockWire)) by lia.
    rewrite decide_False by lia. unfold parse_bind at 1, remaining. cbn beta iota zeta.
    rewrite decide_False.
    2:{ intros Hn. apply Hn. rewrite length_app, length_vec_to_list. unfold len, CHECKSUM_LEN. lia. }
    rewrite (exact_run _ id _ _ payload _
      (exact_exact MalformedReputationBlockWire (N.to_nat (len payload))))
      by (unfold len; lia).
    rewrite <-(app_nil_r (vec_to_list _)).
    rewrite (exact_run _ _ _ _ _ _ (exact_hash MalformedReputationBlockWire)) by done.
    by rewrite decide_False by tauto.
Qed.

Lemma block_codec b bytes :
  decode_reputation_block bytes = Ok b ↔ typed_block b ∧ encode_reputation_block b = Ok bytes.
Proof.
  transitivity (Commitments.validate_reputation_block b = Ok tt ∧ list_limits (reputation_list b) ∧
    typed_block b ∧ in_payload (block_bytes b) ∧
    bytes = envelope POR_REPUTATION_BLOCK_MAGIC (version (header b)) (block_bytes b)
      (reputation_block_checksum (version (header b)) (len (block_bytes b)) (block_bytes b))).
  - unfold decode_reputation_block. rewrite !bail_Ok, result_bind_Ok. split.
    + intros (_ & _ & [[v payload] rest] & He & Hk). apply read_envelope_Ok in He as (-> & Hv & Hin & ->).
      invert_Ok Hk. injection Hk as <-. apply dec_stable in Hguard. cbn [fst snd] in *.
      apply decode_payload_Ok in Hok as (Hval & Hlim & Ht & -> & _). by rewrite Hguard.
    + intros (Hval & Hlim & Ht & Hin & ->).
      assert (wire_version_ok (version (header b))) as Hw.
      { pose proof (validate_block_parts _ Hval) as (_ & Hsrc & _).
        unfold Commitments.validate_header_source in Hsrc. unfold wire_version_ok.
        case_decide; [by left|]. case_decide; [by right|done]. }
      rewrite envelope_len. unfold in_payload, MAX_REPUTATION_BLOCK_PAYLOAD_LEN in Hin.
      assert (FIXED_ENVELOPE_LEN = len POR_REPUTATION_BLOCK_MAGIC + 2 + 8 + N.of_nat CHECKSUM_LEN)%N
        as Hfix by done.
      assert (FIXED_ENVELOPE_LEN <= MAX_REPUTATION_BLOCK_WIRE_LEN)%N by (by vm_compute).
      split; [lia|]. split; [lia|]. eexists ((version (header b), block_bytes b), []).
      split; [by apply read_envelope_Ok|]. cbn [fst snd].
      rewrite (proj2 (decode_payload_Ok (block_bytes b) b)) by done. cbn [result_bind].
      by rewrite decide_False by tauto.
  - unfold encode_reputation_block. rewrite result_bind_Ok. split.
    + intros (Hval & Hlim & Ht & Hin & ->). split; [done|]. exists (block_bytes b).
      split; [by apply encode_payload_Ok|]. pose proof payload_max. unfold in_payload in Hin.
      by rewrite decide_False by lia.
    + intros (Ht & payload & (Hval & Hlim & -> & Hin)%encode_payload_Ok & Hk). invert_Ok Hk.
      injection Hk as <-. done.
Qed.
End block.

(** ** The durable snapshots *)

Section snapshot.
Context `{Blake2b}.
Import Snapshot ReputationState.

(** ** The bytes of a state *)

Definition ids_of (X : gset NodeId) : list NodeId := sort (elements X).
Definition latest_bytes (b : option ReputationBlock) : list byte :=
  match b with Some b => [x01] ++ block_bytes b | None => [x00] end.
Definition state_bytes (s : t) : list byte :=
  be64 (current_round s) ++ list_bytes (state_list s) ++ be64 (len (ids_of (excluded_keys s))) ++
  mjoin (bytes_of <$> ids_of (excluded_keys s)) ++ latest_bytes (latest_block s).

Definition typed_state (s : t) : Prop :=
  fits_u64 (current_round s) ∧ typed_list (state_list s) ∧
  ∀ b, latest_block s = Some b → typed_block b.
Definition id_limit (id : NodeId) : Prop := (len id <= MAX_REPUTATION_BLOCK_NODE_ID_LEN)%N.
Definition state_limits (s : t) : Prop :=
  list_limits (state_list s) ∧ (len (ids_of (excluded_keys s)) <= MAX_REPUTATION_BLOCK_ENTRIES)%N ∧
  Forall id_limit (ids_of (excluded_keys s)) ∧
  (∀ b, latest_block s = Some b → list_limits (reputation_list b)) ∧
  (FIXED_ENVELOPE_LEN + len (state_bytes s) <= MAX_REPUTATION_STATE_SNAPSHOT_LEN)%N.

(** ** The encoder *)

Abbreviation emits := (writes (λ _, True)).
Abbreviation bind := (writes_bind (λ _, True) (λ _ _ _, I)).

Lemma snap_app b : emits (λ out, Ok (out ++ b)) True b.
Proof. intros out out' _. split; [by intros [= <-]|by intros (_ & -> & _)]. Qed.
Lemma len_u64_ok (b : list byte) max : (max <= u64_max)%N → (len b <= max)%N → ¬ (u64_max < len b)%N.
Proof. lia. Qed.

Lemma snap_node_id id : emits (λ out, put_node_id out id) (id_limit id) (bytes_of id).
Proof.
  unfold put_node_id, put_bytes, bytes_of, id_limit.
  eapply writes_iff; [|apply writes_guard, writes_guard, snap_app].
  assert (MAX_REPUTATION_STATE_NODE_ID_LEN = MAX_REPUTATION_BLOCK_NODE_ID_LEN) as -> by done.
  assert (MAX_REPUTATION_BLOCK_NODE_ID_LEN <= u64_max)%N by (by vm_compute). split; [lia|].
  intros ?. split_and!; [lia|lia|done].
Qed.
Lemma snap_count {A} (l : list A) :
  emits (λ out, put_count out (length l)) (len l <= MAX_REPUTATION_BLOCK_ENTRIES)%N (be64 (len l)).
Proof.
  unfold put_count. eapply writes_iff; [|apply writes_guard, snap_app].
  unfold len. assert (MAX_REPUTATION_STATE_ENTRIES = MAX_REPUTATION_BLOCK_ENTRIES) as -> by done.
  split; [lia|split; [lia|done]].
Qed.
Lemma snap_entry e : emits (λ out, put_entry out e) (entry_limit e) (entry_bytes e).
Proof.
  unfold put_entry, entry_limit, entry_bytes.
  eapply writes_iff; [|eapply bind; [apply snap_node_id|apply snap_app]]. unfold id_limit. tauto.
Qed.
Lemma snap_list l :
  emits (λ out, encode_reputation_list out l)
    (validate_reputation_entries (entries l) = Ok tt ∧ list_limits l) (list_bytes l).
Proof.
  unfold encode_reputation_list, list_limits, list_bytes.
  eapply writes_iff; [|apply writes_check;
    apply (bind (λ out, Ok (out ++ be64 (list_round l)))
      (λ output, let? output := put_count output (length (entries l)) in
        try_fold put_entry output (entries l))); [apply snap_app|];
    eapply bind; [apply snap_count|apply (writes_fold _ (λ _ _ _, I)), snap_entry]].
  tauto.
Qed.

Lemma snapshot_in_payload s b :
  latest_block s = Some b →
  (FIXED_ENVELOPE_LEN + len (state_bytes s) <= MAX_REPUTATION_STATE_SNAPSHOT_LEN)%N →
  in_payload (block_bytes b).
Proof.
  unfold state_bytes, latest_bytes, in_payload. intros ->. rewrite !len_app.
  assert (BlockWire.MAX_REPUTATION_BLOCK_PAYLOAD_LEN =
    MAX_REPUTATION_STATE_SNAPSHOT_LEN - FIXED_ENVELOPE_LEN)%N as -> by (by vm_compute). lia.
Qed.

Definition state_envelope (s : t) : list byte :=
  envelope POR_STATE_SNAPSHOT_MAGIC (snapshot_version (latest_block s)) (state_bytes s)
    (snapshot_checksum (snapshot_version (latest_block s)) (len (state_bytes s)) (state_bytes s)).

Lemma put_block_Ok out b out' :
  put_block out b = Ok out' ↔
  out' = out ++ latest_bytes b ∧ match b with
    | Some b => Commitments.validate_reputation_block b = Ok tt ∧ list_limits (reputation_list b) ∧
                in_payload (block_bytes b) ∧
                (len out' <= MAX_REPUTATION_STATE_SNAPSHOT_LEN - FIXED_ENVELOPE_LEN)%N
    | None => True
    end.
Proof.
  destruct b as [b|]; cbn [put_block latest_bytes]; [|naive_solver].
  rewrite result_bind_Ok. setoid_rewrite map_err_Ok. split.
  - intros (enc & (Hv & Hl & -> & Hin)%encode_payload_Ok & Hk). invert_Ok Hk. injection Hk as <-.
    rewrite app_assoc. split_and!; try done. rewrite !len_app in *. lia.
  - intros (-> & Hv & Hl & Hin & Hlen). exists (block_bytes b).
    split; [by apply encode_payload_Ok|]. rewrite app_assoc in *. rewrite !len_app in *.
    by rewrite decide_False by lia.
Qed.

Lemma encode_snapshot_Ok s bytes :
  encode_reputation_state_snapshot s = Ok bytes ↔
  validate_snapshot_invariants s = Ok tt ∧ state_limits s ∧ bytes = state_envelope s.
Proof.
  assert (emits (λ out, let? payload := encode_reputation_list out (state_list s) in
    let? payload := put_count payload (length (ids_of (excluded_keys s))) in
    try_fold put_node_id payload (ids_of (excluded_keys s)))
    (validate_reputation_entries (state_entries s) = Ok tt ∧ list_limits (state_list s) ∧
     (len (ids_of (excluded_keys s)) <= MAX_REPUTATION_BLOCK_ENTRIES)%N ∧
     Forall id_limit (ids_of (excluded_keys s)))
    (list_bytes (state_list s) ++ be64 (len (ids_of (excluded_keys s))) ++
     mjoin (bytes_of <$> ids_of (excluded_keys s)))) as Hw.
  { eapply writes_iff; [|eapply bind; [apply snap_list|eapply bind; [apply snap_count|
      apply (writes_fold _ (λ _ _ _, I)), snap_node_id]]]. unfold state_entries. tauto. }
  unfold encode_reputation_state_snapshot. fold (ids_of (excluded_keys s)).
  rewrite result_bind_Ok. split.
  - intros ([] & Hv & Hk). invert_Ok Hk. injection Hk as <-. split; [done|].
    destruct (proj1 (Hw (be64 (current_round s)) x1 I)) as ((He & Hl & Hc & Hi) & -> & _).
    { apply result_bind_Ok. eexists. split; [done|]. apply result_bind_Ok. eauto. }
    apply put_block_Ok in Hok2 as [-> Hb].
    assert ((be64 (current_round s) ++ list_bytes (state_list s) ++ be64 (len (ids_of (excluded_keys s))) ++
      mjoin (bytes_of <$> ids_of (excluded_keys s))) ++ latest_bytes (latest_block s) = state_bytes s) as Es
      by (unfold state_bytes; by rewrite <-!app_assoc).
    rewrite Es in *. split; [|done]. split_and!; try done; [|lia].
    intros b Eb. rewrite Eb in Hb. apply Hb.
  - intros (Hv & (Hl & Hc & Hi & Hb & Hlen) & ->). exists tt. split; [done|].
    assert (validate_reputation_entries (state_entries s) = Ok tt ∧
      ∀ b, latest_block s = Some b → Commitments.validate_reputation_block b = Ok tt) as [He Hvb].
    { unfold validate_snapshot_invariants in Hv. invert_Ok Hv. split; [done|]. intros b Eb.
      rewrite Eb in Hv. by invert_Ok Hv. }
    specialize (Hw (be64 (current_round s)) (be64 (current_round s) ++ list_bytes (state_list s) ++
      be64 (len (ids_of (excluded_keys s))) ++ mjoin (bytes_of <$> ids_of (excluded_keys s))) I).
    apply proj2 in Hw. specialize (Hw ltac:(done)).
    apply result_bind_Ok in Hw as (p1 & E1 & Hw). apply result_bind_Ok in Hw as (p2 & E2 & E3).
    replay_Ok.
    assert (put_block (be64 (current_round s) ++ list_bytes (state_list s) ++
      be64 (len (ids_of (excluded_keys s))) ++ mjoin (bytes_of <$> ids_of (excluded_keys s)))
      (latest_block s) = Ok (state_bytes s)) as E4.
    { apply put_block_Ok. split; [unfold state_bytes; by rewrite <-!app_assoc|].
      destruct (latest_block s) as [b|] eqn:Eb; [|done].
      split_and!; [by apply Hvb|by apply Hb|by eapply snapshot_in_payload|]. lia. }
    rewrite E4. cbn [result_bind]. rewrite decide_False by lia. done.
Qed.

(** ** The decoder *)

Abbreviation M := MalformedReputationStateSnapshot.
Abbreviation T := ReputationStateSnapshotTooLarge.

Lemma node_id_max : (MAX_REPUTATION_STATE_NODE_ID_LEN <= u64_max)%N.
Proof. by vm_compute. Qed.
Lemma entries_max : (MAX_REPUTATION_STATE_ENTRIES <= u64_max)%N.
Proof. by vm_compute. Qed.
Lemma snapshot_max : (MAX_REPUTATION_STATE_SNAPSHOT_LEN <= u64_max)%N.
Proof. by vm_compute. Qed.

(** Strictly ascending identifiers, above the previous one. *)
Definition ascending (previous : option NodeId) (ids : list NodeId) : Prop :=
  StronglySorted ord_lt ids ∧ ∀ p, previous = Some p → ∀ x, x ∈ ids → ord_lt p x.

Lemma ascending_cons previous id ids :
  ascending previous (id :: ids) ↔ not_after previous id = false ∧ ascending (Some id) ids.
Proof.
  unfold ascending, not_after. split.
  - intros [Hs Hp]. apply StronglySorted_inv in Hs as [Hs Hx]. rewrite Forall_forall in Hx.
    split_and!; [|done|by intros p [= <-]]. destruct previous as [p|]; [|done]. simpl.
    apply bool_decide_false_iff. intros Hn. apply Hn, (Hp p); [done|by left].
  - intros (Hn & Hs & Hx). split.
    + constructor; [done|]. apply Forall_forall. intros x Hx'. by apply (Hx id).
    + intros p -> x Hin. simpl in Hn. apply bool_decide_false_iff, dec_stable in Hn.
      apply elem_of_cons in Hin as [->|Hin]; [done|]. trans id; [done|]. by apply (Hx id).
Qed.

Lemma read_excluded_Ok count previous acc input X rest :
  read_excluded count previous acc input = Ok (X, rest) ↔
  ∃ ids, length ids = count ∧ ascending previous ids ∧ Forall id_limit ids ∧
    X = list_to_set ids ∪ acc ∧ input = mjoin (bytes_of <$> ids) ++ rest.
Proof.
  revert previous acc input. induction count as [|count IH]; intros previous acc input; cbn [read_excluded].
  - split.
    + intros [= <- <-]. exists []. split_and!; [done| |done|set_solver|done].
      split; [constructor|by intros ? _ ? ?%elem_of_nil].
    + intros (ids & Hl & _ & _ & -> & ->). apply nil_length_inv in Hl as ->. simpl.
      unfold parse_ret. do 2 f_equal. set_solver.
  - pose proof (exact_bytes M T _ node_id_max) as Hex. split.
    + intros Hp. invert_parse Hp. apply Hex in Hread as [Hx ->].
      destruct (not_after previous x) eqn:Hn; [done|]. apply IH in Hp as (ids & <- & Ha & Hl & -> & ->).
      exists (x :: ids). split_and!; [done|by apply ascending_cons|by constructor|set_solver|].
      simpl. by rewrite app_assoc.
    + intros ([|id ids] & Hl & Ha & Hlim & -> & ->); [done|]. apply ascending_cons in Ha as [Hn Ha].
      apply Forall_cons in Hlim as [Hid Hlim].
      change (mjoin (bytes_of <$> id :: ids)) with (bytes_of id ++ mjoin (bytes_of <$> ids)).
      rewrite <-app_assoc.
      rewrite (exact_run _ _ _ _ _ _ Hex) by done. rewrite Hn. apply IH. exists ids.
      split_and!; try done; [simpl in Hl; lia|set_solver].
Qed.

(** A set is encoded by the one ascending list of its elements. *)
Lemma ascending_ids ids : ascending None ids ↔ ids = ids_of (list_to_set ids) ∧ NoDup ids.
Proof.
  assert (∀ l, NoDup l → StronglySorted ord_le l → StronglySorted (ord_lt (A:=NodeId)) l) as Hstrict.
  { intros l Hd Hs. induction Hs as [|x l Hs IH Hx]; [constructor|]. apply NoDup_cons in Hd as [Hn Hd].
    constructor; [by apply IH|]. rewrite Forall_forall in Hx |- *. intros y Hy.
    destruct (proj1 (ord_le_lt_eq _ _) (Hx y Hy)) as [|E]; [done|]. by subst. }
  split.
  - intros [Hs _]. assert (NoDup ids) as Hd.
    { induction Hs as [|x l Hs IH Hx]; [constructor|]. constructor; [|done].
      intros Hin. rewrite Forall_forall in Hx. by apply (ord_lt_irrefl x), Hx. }
    split; [|done]. unfold ids_of. apply (StronglySorted_unique_strong ord_lt).
    + intros x y _ _ Hxy Hyx. exfalso. apply (ord_lt_irrefl x). by trans y.
    + done.
    + apply Hstrict; [by rewrite sort_perm; apply NoDup_elements|apply sort_sorted].
    + rewrite sort_perm. symmetry. by apply elements_list_to_set.
  - intros [E Hd]. split; [|done]. rewrite E. apply Hstrict; [by rewrite <-E|apply sort_sorted].
Qed.
Lemma ids_of_ascending X : ascending None (ids_of X) ∧ list_to_set (ids_of X) = X.
Proof.
  assert (list_to_set (ids_of X) = X) as E.
  { apply set_eq. intros x. unfold ids_of. by rewrite elem_of_list_to_set, sort_perm, elem_of_elements. }
  split; [|done]. apply ascending_ids. rewrite E. split; [done|]. unfold ids_of. rewrite sort_perm.
  apply NoDup_elements.
Qed.

Lemma read_block_Ok input ob rest :
  read_block input = Ok (ob, rest) ↔
  input = latest_bytes ob ++ rest ∧ match ob with
    | Some b => rest = [] ∧ Commitments.validate_reputation_block b = Ok tt ∧
                list_limits (reputation_list b) ∧ typed_block b ∧ in_payload (block_bytes b)
    | None => True
    end.
Proof.
  unfold read_block. split.
  - intros Hp. apply parse_bind_Ok in Hp as (some & mid & Hr & Hp). apply exact_bool in Hr as [_ ->].
    destruct some; [|by injection Hp as <- <-]. invert_parse Hp. injection Hread as <- <-.
    apply exact_exact in Hread0 as [Hl ->]. unfold id in *. rewrite length_app in Hl.
    assert (mid1 = []) as -> by (apply nil_length_inv; lia).
    destruct (map_err _ _) as [b|] eqn:E; [|done]. injection Hp as <- <-.
    apply map_err_Ok, decode_payload_Ok in E as (Hv & Hlim & Ht & -> & Hin). done.
  - intros [-> Hob]. destruct ob as [b|].
    + destruct Hob as (-> & Hv & Hlim & Ht & Hin). rewrite app_nil_r. cbn [latest_bytes].
      change ([x01] ++ block_bytes b) with ([Commitments.bool_byte true] ++ block_bytes b).
      rewrite (exact_run _ _ _ _ true _ (exact_bool _)) by done. cbn [Commitments.bool_byte].
      unfold parse_bind at 1, remaining. cbn beta iota.
      rewrite <-(app_nil_r (block_bytes b)) at 2.
      rewrite (exact_run _ id _ _ (block_bytes b) _ (exact_exact M _)) by done.
      by rewrite (proj2 (decode_payload_Ok (block_bytes b) b)).
    + cbn [latest_bytes]. change ([x00] ++ rest) with ([Commitments.bool_byte false] ++ rest).
      by rewrite (exact_run _ _ _ _ false _ (exact_bool _)) by done.
Qed.

(** The parts of a state, before they are validated together. *)
Definition parts_ok (s : t) : Prop :=
  typed_state s ∧ list_limits (state_list s) ∧
  validate_reputation_entries (state_entries s) = Ok tt ∧
  (len (ids_of (excluded_keys s)) <= MAX_REPUTATION_BLOCK_ENTRIES)%N ∧
  Forall id_limit (ids_of (excluded_keys s)) ∧
  ∀ b, latest_block s = Some b → Commitments.validate_reputation_block b = Ok tt ∧
    list_limits (reputation_list b) ∧ in_payload (block_bytes b).

Lemma read_parts_Ok input s :
  read_parts input = Ok ((current_round s, state_list s, excluded_keys s, latest_block s), []) ↔
  parts_ok s ∧ input = state_bytes s.
Proof.
  pose proof (exact_list M T _ _ entries_max node_id_max) as Hlist.
  pose proof (exact_count M T _ entries_max) as Hcount.
  unfold read_parts, state_bytes. destruct s as [r l X pending lb].
  cbn [current_round state_list excluded_keys latest_block]. split.
  - intros Hp. invert_parse Hp. injection Hp as -> -> -> -> ->.
    apply exact_u64 in Hread as [Hr ->]. apply Hlist in Hread0 as [(Ht & Hc & Hi & Hv) ->].
    apply Hcount in Hread1 as [Hn ->]. apply read_excluded_Ok in Hread2 as (ids & <- & Ha & Hlim & E & ->).
    apply read_block_Ok in Hread3 as [-> Hb]. rewrite union_empty_r_L in E.
    apply ascending_ids in Ha as [Hids _]. rewrite <-E in Hids. rewrite <-Hids, app_nil_r.
    split; [|done]. unfold parts_ok, typed_state, state_entries.
    cbn [current_round state_list excluded_keys latest_block]. rewrite <-Hids.
    split_and!; try done. 
    + intros b Eb. rewrite Eb in Hb. apply Hb.
    + intros b Eb. rewrite Eb in Hb. by destruct Hb as (_ & ? & ? & _ & ?).
  - intros [((Hr & Ht & Hbt) & [Hc Hi] & Hv & Hn & Hlim & Hb) ->].
    rewrite (exact_run _ _ _ _ _ _ (exact_u64 M)) by done.
    rewrite (exact_run _ _ _ _ _ _ Hlist) by done.
    rewrite (exact_run _ _ _ _ (length (ids_of X)) _ Hcount) by done.
    destruct (ids_of_ascending X) as [Ha E].
    apply parse_bind_Ok. exists X, (latest_bytes lb). split.
    { apply read_excluded_Ok. exists (ids_of X). split_and!; try done.
      by rewrite E, union_empty_r_L. }
    apply parse_bind_Ok. exists lb, []. split; [|done].
    apply read_block_Ok. rewrite app_nil_r. split; [done|]. destruct lb as [b|]; [|done].
    destruct (Hb b eq_refl) as (? & ? & ?). split_and!; try done. by apply Hbt.
Qed.

Definition snapshot_version_ok (v : N) : Prop :=
  v = POR_STATE_SNAPSHOT_VERSION ∨ v = POR_CHECKPOINT_STATE_SNAPSHOT_VERSION.

Lemma read_envelope_snapshot bytes v payload rest :
  Snapshot.read_envelope bytes = Ok ((v, payload), rest) ↔
  rest = [] ∧ snapshot_version_ok v ∧
  (len payload <= MAX_REPUTATION_STATE_SNAPSHOT_LEN - FIXED_ENVELOPE_LEN)%N ∧
  bytes = envelope POR_STATE_SNAPSHOT_MAGIC v payload (snapshot_checksum v (len payload) payload).
Proof.
  unfold Snapshot.read_envelope, envelope. split.
  - intros Hp. invert_parse Hp. injection Hp as <- <- <-.
    repeat match goal with Hg : ¬ _ ≠ _ |- _ => apply dec_stable in Hg end.
    apply exact_exact in Hread as [_ ->]. apply exact_uint in Hread0 as [Hv ->].
    apply exact_u64 in Hread1 as [Hl ->]. injection Hread2 as <- <-.
    apply exact_exact in Hread3 as [Hlen ->]. apply exact_hash in Hread4 as [_ ->].
    apply Decidable.not_or in Hguard1 as [Hmax Hav]. apply dec_stable in Hav.
    unfold id in *. rewrite !length_app, length_vec_to_list in Hav.
    unfold CHECKSUM_LEN in Hav. assert (mid4 = []) as -> by (apply nil_length_inv; lia).
    assert (len x3 = x1) as -> by (unfold len; lia). subst x x4. rewrite app_nil_r.
    split_and!; [done| |lia|done]. unfold snapshot_version_ok.
    destruct (decide (x0 = POR_STATE_SNAPSHOT_VERSION)); [by left|right]. apply dec_stable. tauto.
  - intros (-> & Hv & Hl & ->).
    rewrite (exact_run _ id _ _ POR_STATE_SNAPSHOT_MAGIC _
      (exact_exact M (length POR_STATE_SNAPSHOT_MAGIC))) by done.
    rewrite decide_False by tauto.
    rewrite (exact_run _ _ _ _ _ _ (exact_uint M 2)) by (by destruct Hv as [->| ->]).
    rewrite decide_False by (intros [? ?]; by destruct Hv).
    pose proof snapshot_max.
    rewrite (exact_run _ _ _ _ _ _ (exact_u64 M)) by lia.
    unfold parse_bind at 1, remaining. cbn beta iota zeta.
    rewrite decide_False.
    2:{ rewrite length_app, length_vec_to_list. intros [Hn|Hn]; [lia|]. apply Hn.
        unfold len, CHECKSUM_LEN. lia. }
    rewrite (exact_run _ id _ _ payload _ (exact_exact M (N.to_nat (len payload))))
      by (unfold len; lia).
    rewrite <-(app_nil_r (vec_to_list _)).
    rewrite (exact_run _ _ _ _ _ _ (exact_hash M)) by done.
    by rewrite decide_False by tauto.
Qed.

Lemma snapshot_version_valid b : snapshot_version_ok (snapshot_version b).
Proof. unfold snapshot_version. destruct b; [case_decide|]; [by right|by left..]. Qed.

Lemma check_version_Ok v b :
  (∀ x, b = Some x → Commitments.validate_reputation_block x = Ok tt) → snapshot_version_ok v →
  check_block_version v b = Ok tt ↔ v = snapshot_version b.
Proof.
  intros Hb Hv. unfold check_block_version, snapshot_version.
  destruct b as [b|]; simpl.
  - specialize (Hb b eq_refl). pose proof (validate_block_parts _ Hb) as (_ & Hsrc & _).
    assert (version (header b) = REPUTATION_BLOCK_VERSION ∨
      version (header b) = CHECKPOINT_REPUTATION_BLOCK_VERSION) as Hver.
    { unfold Commitments.validate_header_source in Hsrc.
      case_decide; [by left|]. case_decide; [by right|done]. }
    destruct Hver as [E|E], Hv as [->| ->]; rewrite E; by vm_compute.
  - destruct Hv as [->| ->]; by vm_compute.
Qed.

Lemma snapshot_codec s bytes :
  decode_reputation_state_snapshot bytes = Ok s ↔
  typed_state s ∧ encode_reputation_state_snapshot s = Ok bytes.
Proof.
  rewrite encode_snapshot_Ok. unfold decode_reputation_state_snapshot.
  rewrite !bail_Ok, result_bind_Ok. split.
  - intros (_ & _ & [[v payload] rest] & He & Hk).
    apply read_envelope_snapshot in He as (-> & Hv & Hl & ->).
    apply result_bind_Ok in Hk as ([[[[r l] x] lb] rest'] & Hp & Hk). cbn [fst snd] in *.
    invert_Ok Hk. apply dec_stable in Hguard. subst rest'.
    unfold from_snapshot_parts in Hk. invert_Ok Hk. injection Hk as <-.
    apply (read_parts_Ok _ (mk r l x [] lb)) in Hp as [(Ht & Hlim & Hvl & Hc & Hi & Hb) ->].
    apply check_version_Ok in Hok as ->; [|by apply Hb|done].
    split; [done|]. split; [done|]. split; [|done]. split_and!; try done.
    + intros b Eb. by apply Hb.
    + cbn [latest_block] in *. assert (FIXED_ENVELOPE_LEN <= MAX_REPUTATION_STATE_SNAPSHOT_LEN)%N
        by (by vm_compute). lia.
  - intros (Ht & Hv & (Hlim & Hc & Hi & Hb & Hlen) & ->).
    assert (FIXED_ENVELOPE_LEN = len POR_STATE_SNAPSHOT_MAGIC + 2 + 8 + N.of_nat CHECKSUM_LEN)%N
      as Hfix by done.
    unfold state_envelope. rewrite envelope_len. split; [lia|]. split; [lia|].
    eexists ((snapshot_version (latest_block s), state_bytes s), []). split.
    { apply read_envelope_snapshot. split_and!; [done|apply snapshot_version_valid|lia|done]. }
    cbn [fst snd].
    pose proof Hv as Hv'. unfold validate_snapshot_invariants in Hv'. invert_Ok Hv'.
    apply dec_stable in Hguard.
    assert (∀ b, latest_block s = Some b → Commitments.validate_reputation_block b = Ok tt) as Hvb.
    { intros b Eb. rewrite Eb in Hv'. by invert_Ok Hv'. }
    rewrite (proj2 (read_parts_Ok (state_bytes s) s)).
    2:{ split; [|done]. split_and!; try done. intros b Eb.
        split_and!; [by apply Hvb|by apply Hb|by eapply snapshot_in_payload]. }
    cbn [result_bind fst snd]. rewrite decide_False by tauto.
    rewrite (proj2 (check_version_Ok _ _ Hvb (snapshot_version_valid _)) eq_refl). cbn [result_bind]. unfold from_snapshot_parts.
    assert (mk (current_round s) (state_list s) (excluded_keys s) [] (latest_block s) = s) as ->
      by (destruct s; simpl in *; by subst). by rewrite Hv.
Qed.
End snapshot.
