(* ===== verification/PorSamples.v ===== *)
(** * Concrete reputation inputs

    A small round, and a function in the place of the hash, to evaluate the
    model on. *)

From S2P Require Import Prelude Types PorTypes PorMath Bytes Crypto PorCommit PorAudit PorState.
From S2P Require Import PorCodec.
From stdpp Require Import options.

Module PorSample.

Definition a : NodeId := [x01].
Definition b : NodeId := [x02].
Definition c : NodeId := [x03].

Definition config : PorConfig.t := PorConfig.new 1000 200.

Definition previous : ReputationVector :=
  mkVector 0 [ReputationEntry.new a 300; ReputationEntry.new b 400; ReputationEntry.new c 500].
Definition ratings : list RatingRecord :=
  [new_rating 1 c b 500 [x01]; new_rating 1 a b 1000 [x01]; new_rating 1 b a 700 [x01]].

Definition shard : list byte := [xff].
Definition context : ReputationBlockContext := mkContext shard 0 None.
Definition source : RatingSourceCheckpoint := mkSource 1 16 (vreplicate 32 x07).
Definition checkpoint_context : CheckpointReputationBlockContext := mkCheckpoint shard source None.

(** The state after a first vector was applied. *)
Definition state : ReputationState.t :=
  ReputationState.with_entries (ReputationState.new 0) (values previous).

Section blocks.
Context `{Blake2b}.
Definition next : ReputationList :=
  or_default (mkList 0 []) (Replay.replay_reputation_transition previous ratings 1 config).
Definition empty_block : ReputationBlock :=
  mkReputationBlock (mkHeader 2 [] 0 None 0 None (vreplicate 32 x00) (vreplicate 32 x00)
    (vreplicate 32 x00) (vreplicate 32 x00)) (mkList 0 []).
Definition block : ReputationBlock :=
  or_default empty_block
    (Building.build_reputation_block context (mkBatch 1 ratings) next config).
Definition checkpoint_block : ReputationBlock :=
  or_default empty_block
    (Building.build_checkpoint_reputation_block checkpoint_context (mkBatch 1 ratings) next config).

(** An authorized equivocation of [c] and a missed round of [b]. *)
Definition wave_context : EquivocationAuthorizationContext := mkWaveContext shard 0 1.
Definition proof : list byte := [xaa; xbb].
Definition equivocation : EquivocationPenalty :=
  mkEquivocationPenalty c proof
    (Some (mkAuthorization (Wave wave_context)
      (blake2b256 (or_default [] (Evidence.authorization_payload wave_context c proof))) 7)).
Definition events : ReputationPenaltyEvents := mkEvents 1 [equivocation] [mkInactivityPenalty b 1].
Definition rating_between_others : list RatingRecord := [new_rating 1 c a 500 [x01]].
Definition penalized : ReputationList :=
  or_default (mkList 0 []) (Replay.replay_reputation_transition_with_penalties previous
    rating_between_others 1 config (Some events)).
End blocks.

End PorSample.
