(* ===== verification/PorTheorems.v ===== *)
(** * Properties of the proof of reputation *)

From S2P Require Import Prelude Types PorTypes PorMath PorMathFacts Bytes Crypto PorCommit.
From S2P Require Import PorAudit.
From S2P Require Import PorAuditFacts PorReplayFacts PorState PorStateFacts.
From S2P Require Import PorCodec PorCodecFacts PorSamples.
From stdpp Require Import options.

#[local] Existing Instance sample_hash | 100.

(** ** Audit *)

(** C15: an auditor accepts a reputation block exactly when it is the block an
    honest producer builds from the same inputs: the list is the replay of the
    ratings (and penalties) over the previous reputation, and the header is
    what the builder derives for that list.  The same holds for blocks bound
    to a checkpoint. *)
Theorem audit_accepts_honest_blocks `{Blake2b} previous ratings block config penalties :
  (∀ context,
    Audit.verify_reputation_transition_with_penalties previous ratings block context config
      penalties = Ok tt ↔
    ∃ list,
      Replay.replay_reputation_transition_with_penalties previous ratings (list_round list) config
        penalties = Ok list ∧
      Building.build_reputation_block_with_penalties context (mkBatch (list_round list) ratings) list
        config penalties = Ok block) ∧
  (∀ context,
    Audit.verify_checkpoint_reputation_transition_with_penalties previous ratings block context
      config penalties = Ok tt ↔
    ∃ list,
      Replay.replay_reputation_transition_with_penalties previous ratings (list_round list) config
        penalties = Ok list ∧
      Building.build_checkpoint_reputation_block_with_penalties context
        (mkBatch (list_round list) ratings) list config penalties = Ok block).
Proof.
  split; intros context.
  - rewrite verify_Ok. setoid_rewrite build_Ok. split; [by eauto|].
    intros (list & Hr & Hb). pose proof Hb as [_ _ _ _ (? & ? & ? & ? & _ & _ & _ & E) _].
    assert (reputation_list block = list) as -> by (by rewrite E). done.
  - rewrite verify_checkpoint_Ok. setoid_rewrite build_checkpoint_Ok. split; [by eauto|].
    intros (list & Hr & Hb). pose proof Hb as [_ _ _ _ _ (? & ? & ? & ? & _ & _ & _ & E) _].
    assert (reputation_list block = list) as -> by (by rewrite E). done.
Qed.

(** The sample round: both honest blocks pass. *)
Example honest_sample_passes :
  Audit.verify_reputation_transition PorSample.previous PorSample.ratings PorSample.block
    PorSample.context PorSample.config = Ok tt ∧
  Audit.verify_checkpoint_reputation_transition PorSample.previous PorSample.ratings
    PorSample.checkpoint_block PorSample.checkpoint_context PorSample.config = Ok tt.
Proof. split; vm_compute; reflexivity. Qed.

(** The order in which an auditor received the ratings changes neither the
    reputation it replays nor its verdict on a block. *)
Theorem audit_ignores_rating_order `{Blake2b} previous ratings ratings' config penalties :
  ratings ≡ₚ ratings' →
  (∀ round list,
    Replay.replay_reputation_transition_with_penalties previous ratings round config penalties
      = Ok list ↔
    Replay.replay_reputation_transition_with_penalties previous ratings' round config penalties
      = Ok list) ∧
  ∀ block context,
    Audit.verify_reputation_transition_with_penalties previous ratings block context config
      penalties = Ok tt ↔
    Audit.verify_reputation_transition_with_penalties previous ratings' block context config
      penalties = Ok tt.
Proof.
  intros E. split; [by split; apply replay_perm|].
  assert (∀ l l' context list block, l ≡ₚ l' →
    wave_block context (mkBatch (list_round list) l) list config penalties block →
    wave_block context (mkBatch (list_round list) l') list config penalties block) as Hwb.
  { intros l l' context list block El [Hc Hp Hr Hl (ph & rh & eh & root & E1 & E2 & E3 & E4) Hv].
    split; try done. do 4 eexists. split_and!; [done|by eapply rating_commitment_perm|done..]. }
  intros block context. rewrite !verify_Ok.
  split; intros [Hr Hb]; (split; [by eapply replay_perm|by eapply Hwb]).
Qed.

Lemma audit_ignores_rating_order_witness :
  Audit.verify_reputation_transition_with_penalties PorSample.previous (reverse PorSample.ratings)
    PorSample.block PorSample.context PorSample.config None = Ok tt.
Proof.
  assert (PorSample.ratings ≡ₚ reverse PorSample.ratings) as E by (symmetry; apply reverse_Permutation).
  assert (Audit.verify_reputation_transition_with_penalties PorSample.previous PorSample.ratings
    PorSample.block PorSample.context PorSample.config None = Ok tt) as Hok by (vm_compute; reflexivity).
  exact (proj1 (proj2 (audit_ignores_rating_order PorSample.previous PorSample.ratings
    (reverse PorSample.ratings) PorSample.config None E) PorSample.block PorSample.context) Hok).
Defined.

(** C16: the fixed-point pipeline (batching, matrix, normalization, liquid
    rank, blend, clamp, exclusion) computes, node by node, the specification
    [next_entry]: a rated node gets the clamped blend of its weighted scores
    and its previous reputation, an unrated one is carried forward (or blended,
    as the policy says), and an excluded one stays at zero with its retained
    balance.  The new list is in canonical order, one round later. *)
Theorem replay_computes_specification `{Blake2b} previous ratings round config list :
  fits_u64 (PorConfig.scale config) → values_fit (values previous) →
  Replay.replay_reputation_transition previous ratings round config = Ok list →
  list_round list = round ∧ checked_add u64_max (vector_round previous) 1 = Some round ∧
  sorted_entries (entries list) ∧
  ∀ id, find_entry (entries list) id = next_entry config previous ratings id.
Proof. apply replay_list_spec. Qed.

Lemma replay_computes_specification_witness :
  find_entry (entries PorSample.next) PorSample.b =
  next_entry PorSample.config PorSample.previous PorSample.ratings PorSample.b ∧
  next_entry PorSample.config PorSample.previous PorSample.ratings PorSample.b =
    Some (ReputationEntry.new PorSample.b 474).
Proof.
  split; [|vm_compute; reflexivity].
  assert (fits_u64 (PorConfig.scale PorSample.config)) as Hs by (vm_compute; discriminate).
  assert (values_fit (values PorSample.previous)) as Hf.
  { intros e He. unfold PorSample.previous in He. cbn [values] in He.
    repeat (apply elem_of_cons in He as [->|He]; [vm_compute; discriminate|]).
    by apply elem_of_nil in He. }
  assert (Replay.replay_reputation_transition PorSample.previous PorSample.ratings 1 PorSample.config
    = Ok PorSample.next) as Hr by (vm_compute; reflexivity).
  exact (proj2 (proj2 (proj2 (replay_computes_specification PorSample.previous PorSample.ratings 1
    PorSample.config PorSample.next Hs Hf Hr))) PorSample.b).
Defined.

(** ** The arithmetic *)

(** The clamp returns [value * scale / sqrt(scale² + value²)] rounded to
    the nearest integer, never more than the value or the scale; it fails
    exactly for a zero scale and when the sum of squares leaves [u128]. *)
Theorem clamp_is_rounded_and_bounded value scale :
  (value <= u64_max)%N → (scale <= u64_max)%N →
  match Clamp.clamp_reputation_value value scale with
  | Ok o =>
    (o <= value)%N ∧ (o <= scale)%N ∧
    let d := N.sqrt (scale * scale + value * value) in
    (2 * o * d <= 2 * (value * scale) + d)%N ∧ (2 * (value * scale) < 2 * o * d + d + 2)%N
  | Err InvalidClampScale => scale = 0%N
  | Err ClampOverflow => value ≠ 0%N ∧ (u128_max < scale * scale + value * value)%N
  | Err _ => False
  end.
Proof.
  intros Hv Hs. rewrite clamp_spec by done. case_decide as H0; [done|]. case_decide as H1.
  { subst value. cbn zeta. generalize (N.sqrt (scale * scale + 0 * 0)). intros d. lia. }
  case_decide as H2; [done|].
  destruct (clamp_value_bounds value scale) as (B1 & B2 & B3 & B4); [lia|].
  split_and!; [done..|]. cbn zeta. unfold clamp_denom in *.
  revert B3 B4. generalize (N.sqrt (scale * scale + value * value)). intros d B3 B4.
  pose proof (N.div_mod d 2 ltac:(done)) as Hd. pose proof (N.mod_upper_bound d 2 ltac:(done)) as Hm.
  revert Hd Hm B3 B4. generalize (d / 2)%N (d mod 2)%N. intros h m Hd Hm B3 B4. nia.
Qed.

Lemma clamp_is_rounded_and_bounded_witness :
  (Clamp.clamp_reputation_value 3 4 = Ok 2)%N ∧ (2 <= 3)%N ∧ (2 <= 4)%N.
Proof.
  pose proof (clamp_is_rounded_and_bounded 3 4 ltac:(by vm_compute) ltac:(by vm_compute)) as Hc.
  assert (Clamp.clamp_reputation_value 3 4 = Ok 2%N) as E by (vm_compute; reflexivity).
  rewrite E in Hc. split; [exact E|]. split; [apply Hc|apply Hc].
Defined.

(** Normalizing the scores of a recipient keeps the ratings and their
    order, maps every score into [0, scale], preserves the order of scores,
    and gives the best score exactly [scale]; it fails only when the scaled
    numerator could leave [u128]. *)
Theorem normalization_is_bounded_and_monotone group scale :
  (0 < scale)%N → (scale <= u64_max)%N →
  match Normalization.normalize_recipient_group group scale with
  | Ok out =>
    Forall2 (λ r n, n_rater n = rater r ∧ n_recipient n = recipient r ∧ n_score n = score r ∧
      (normalized_score n <= scale)%N) group out ∧
    (∀ x y, x ∈ out → y ∈ out → (n_score x <= n_score y)%N →
      (normalized_score x <= normalized_score y)%N) ∧
    (∀ x, x ∈ out → (∀ y, y ∈ out → n_score y <= n_score x)%N → normalized_score x = scale)
  | Err e =>
    e = NormalizationOverflow ∧
    let (min, max) := Normalization.min_max group in
    (u128_max / scale < max - min + scale)%N
  end.
Proof.
  intros Hs Hu. rewrite normalize_group_spec by done.
  case_decide as Ho; [split; [done|]; by destruct (Normalization.min_max group)|].
  set (f := λ r, mkNormalized (rater r) (recipient r) (score r) (normalized_of scale group (score r))).
  assert (∀ n, n ∈ map f group → ∃ r, n = f r ∧ r ∈ group) as Hmem
    by (intros n (r & -> & Hr)%list_elem_of_fmap; eauto).
  split_and!.
  - apply Forall2_fmap_r, Forall_Forall2_diag, Forall_forall. intros r Hr.
    split_and!; [done..|]. by apply normalized_of_le.
  - intros x y (r & -> & Hr)%Hmem (r' & -> & Hr')%Hmem Hle. by apply normalized_of_mono.
  - intros x (r & -> & Hr)%Hmem Hmax. simpl.
    transitivity (normalized_of scale group (Normalization.min_max group).2);
      [f_equal|by apply normalized_of_max].
    pose proof (min_max_bounds group r Hr) as Hb.
    assert (group ≠ []) as Hne by (intros ->; by apply elem_of_nil in Hr).
    destruct (min_max_attained group Hne) as (_ & y & _ & Hy & _ & Ey).
    assert (f y ∈ map f group) as Hfy by (by apply list_elem_of_fmap_2).
    specialize (Hmax _ Hfy). simpl in Hmax. lia.
Qed.

Lemma normalization_is_bounded_and_monotone_witness :
  ∃ out, Normalization.normalize_recipient_group PorSample.ratings 1000 = Ok out ∧
    map normalized_score out = [666; 1000; 800]%N ∧
    ∀ x y, x ∈ out → y ∈ out → (n_score x <= n_score y)%N →
      (normalized_score x <= normalized_score y)%N.
Proof.
  pose proof (normalization_is_bounded_and_monotone PorSample.ratings 1000 ltac:(lia)
    ltac:(by vm_compute)) as Hn.
  destruct (Normalization.normalize_recipient_group PorSample.ratings 1000) as [out|] eqn:E.
  - exists out. split; [reflexivity|]. split; [|apply Hn].
    vm_compute in E. injection E as <-. vm_compute. reflexivity.
  - vm_compute in E. discriminate.
Defined.

(** A penalty stage that succeeds slashes each equivocator to a zero
    weight, permanently excluded, with the surviving part of its previous
    weight as retained balance (at the base rate while the weight that
    equivocated in the same proof round stays below the correlation threshold,
    entirely above it); decays each inactive node's previous weight; touches
    nobody else; and only ever penalizes distinct, active, known nodes. *)
Theorem penalties_are_exact `{Blake2b} next previous ratings events config out :
  sorted_entries (entries next) →
  PenaltyEvents.apply_reputation_penalties next previous ratings events config = Ok out →
  list_round out = list_round next ∧ sorted_entries (entries out) ∧
  NoDup ((offender <$> equivocations events) ++ (inactive_offender <$> inactivity events)) ∧
  (∀ e, e ∈ equivocations events → ∃ prior, active_prior previous (offender e) prior ∧
    find_entry (entries out) (offender e) = Some (ReputationEntry.mk (offender e) 0
      (survivor config (ReputationEntry.reputation prior)
        (slash_ratio config (equivocated previous (equivocations events) (event_round e))
          (active_weight previous))) true)) ∧
  (∀ e, e ∈ inactivity events → ∃ prior current, active_prior previous (inactive_offender e) prior ∧
    find_entry (entries next) (inactive_offender e) = Some current ∧
    find_entry (entries out) (inactive_offender e) = Some (PenaltyEvents.set_weight_of
      (survivor config (ReputationEntry.reputation prior) (PorConfig.inactivity_decay_gamma config))
      current)) ∧
  ∀ id, id ∉ offender <$> equivocations events → id ∉ inactive_offender <$> inactivity events →
    find_entry (entries out) id = find_entry (entries next) id.
Proof. apply apply_penalties_Ok. Qed.

Lemma penalties_are_exact_witness :
  ∃ out, PenaltyEvents.apply_reputation_penalties (mkList 1 (values PorSample.previous))
      PorSample.previous PorSample.rating_between_others PorSample.events PorSample.config = Ok out ∧
    (∀ e, e ∈ inactivity PorSample.events → ∃ prior current,
      active_prior PorSample.previous (inactive_offender e) prior ∧
      find_entry (values PorSample.previous) (inactive_offender e) = Some current ∧
      find_entry (entries out) (inactive_offender e) = Some (PenaltyEvents.set_weight_of
        (survivor PorSample.config (ReputationEntry.reputation prior)
          (PorConfig.inactivity_decay_gamma PorSample.config)) current)) ∧
    find_entry (entries out) PorSample.c = Some (ReputationEntry.mk PorSample.c 0 0 true).
Proof.
  destruct (PenaltyEvents.apply_reputation_penalties (mkList 1 (values PorSample.previous))
    PorSample.previous PorSample.rating_between_others PorSample.events PorSample.config)
    as [out|e] eqn:E; [|vm_compute in E; discriminate].
  assert (sorted_entries (values PorSample.previous)) as Hs.
  { apply validate_order_sorted. vm_compute. reflexivity. }
  exists out. split; [reflexivity|]. split.
  - exact (proj1 (proj2 (proj2 (proj2 (proj2 (penalties_are_exact (mkList 1 (values PorSample.previous))
      PorSample.previous PorSample.rating_between_others PorSample.events PorSample.config out Hs E)))))).
  - vm_compute in E. injection E as <-. vm_compute. reflexivity.
Defined.

(** ** The state machine *)

(** C18: every state reachable from a fresh one by any sequence of the state's
    mutating calls is consistent: the list is in canonical order and carries
    the state's round, the registry of excluded keys and the flags of the list
    name the same nodes, an excluded entry has no weight and an active one no
    retained balance, and the latest block passes its structural checks. *)
Theorem reputation_states_are_consistent `{Blake2b} round s :
  reachable round s → consistent s.
Proof. intros Hs. eapply steps_ok; [exact Hs|apply new_consistent]. Qed.

(** A fresh state that sets a reputation, ejects the node and sets it again. *)
Lemma sample_reachable :
  reachable 0 (ReputationState.set_reputation PorSample.state PorSample.a 9).
Proof.
  apply rtc_l with (ReputationState.set_reputation (ReputationState.new 0) PorSample.c 500);
    [by apply step_set_reputation; vm_compute|].
  apply rtc_l with (ReputationState.set_reputation (ReputationState.set_reputation
    (ReputationState.new 0) PorSample.c 500) PorSample.a 300); [by apply step_set_reputation; vm_compute|].
  apply rtc_l with PorSample.state.
  { change PorSample.state with (ReputationState.set_reputation (ReputationState.set_reputation
      (ReputationState.set_reputation (ReputationState.new 0) PorSample.c 500) PorSample.a 300)
      PorSample.b 400). by apply step_set_reputation; vm_compute. }
  apply rtc_once. by apply step_set_reputation; vm_compute.
Qed.

Lemma reputation_states_are_consistent_witness :
  consistent (ReputationState.set_reputation PorSample.state PorSample.a 9).
Proof. exact (reputation_states_are_consistent 0 _ sample_reachable). Defined.

(** C17: an ejection is permanent.  Whatever calls follow (assignments, whole
    vectors that omit or resurrect the node, audited blocks of either kind), an
    ejected key stays in the registry, its entry keeps a zero weight and the
    flag, and its retained balance never changes again. *)
Theorem ejection_is_permanent `{Blake2b} round s s' id :
  reachable round s → rtc step s s' → ReputationState.is_ejected s id = true →
  ReputationState.is_ejected s' id = true ∧
  find_entry (ReputationState.state_entries s') id =
    Some (ReputationEntry.mk id 0 (ReputationState.committed_retained s id) true).
Proof.
  intros Hr Hs Hid%bool_decide_true_iff.
  assert (consistent s) as Hc by (eapply steps_ok; [exact Hr|apply new_consistent]).
  destruct (steps_ok s s' Hs Hc) as [_ [Hk1 Hk2]]. split.
  - apply bool_decide_true_iff, Hk1, Hid.
  - rewrite Hk2 by done. by apply excluded_entry.
Qed.

Definition ejected_sample : ReputationState.t :=
  or_default (ReputationState.new 0)
    (ReputationState.eject_validator (ReputationState.set_reputation (ReputationState.new 0)
      PorSample.c 500) PorSample.c).

Lemma ejection_is_permanent_witness :
  find_entry (ReputationState.state_entries
    (ReputationState.set_reputation ejected_sample PorSample.c 77)) PorSample.c =
  Some (ReputationEntry.mk PorSample.c 0 0 true).
Proof.
  assert (reachable 0 ejected_sample) as Hr.
  { apply rtc_l with (ReputationState.set_reputation (ReputationState.new 0) PorSample.c 500);
      [by apply step_set_reputation; vm_compute|].
    apply rtc_once. apply (step_eject _ _ PorSample.c). vm_compute. reflexivity. }
  assert (step ejected_sample (ReputationState.set_reputation ejected_sample PorSample.c 77)) as Hs
    by (apply step_set_reputation; vm_compute; discriminate).
  assert (ReputationState.is_ejected ejected_sample PorSample.c = true) as Hid by (vm_compute; reflexivity).
  exact (proj2 (ejection_is_permanent 0 _ _ PorSample.c Hr (rtc_once _ _ Hs) Hid)).
Defined.

(** The projection of the reputation onto the validators that the
    consensus authorized succeeds exactly when the set is not empty, every
    validator has an entry, and the total weight is positive and fits in
    [u128]; the map then has exactly the authorized identities, an ejected one
    with weight zero and the others with their reputation. *)
Theorem authorized_weights_are_exact s validators weights :
  Weights.authorized_validator_weights s validators = Ok weights ↔
  validators ≠ [] ∧ (∀ v, v ∈ validators → is_Some (weight_of s v)) ∧
  (∀ v, weights !! v = if decide (v ∈ validators) then weight_of s v else None) ∧
  (0 < set_weight (weight_or_zero s) (list_to_set validators) <= u128_max)%N.
Proof.
  unfold Weights.authorized_validator_weights. rewrite bail_Ok, result_bind_Ok.
  assert ((list_to_set validators ∖ dom (∅ : gmap NodeId N) : gset NodeId) = list_to_set validators)
    as Hdom by (rewrite dom_empty_L; set_solver).
  split.
  - intros (Hne & [m t] & Hf & Hk). invert_Ok Hk. injection Hk as <-.
    apply add_validators_Ok in Hf as (Hv & Hl & -> & Hle); [|by intros ? ? ?|done].
    rewrite Hdom in *. cbn [fst snd] in *. split_and!; [done..|lia|lia].
  - intros (Hne & Hv & Hl & Hpos & Hle). split; [done|].
    exists (weights, set_weight (weight_or_zero s) (list_to_set validators)). split.
    + apply add_validators_Ok; [by intros ? ? ?|done|]. rewrite Hdom. split_and!; try done.
    + cbn [fst snd]. by rewrite decide_False by lia.
Qed.

(** ** Codecs *)

(** C19: the publication envelope of a reputation block is canonical: the
    decoder returns a block on some bytes precisely when those are the bytes
    the encoder produces for it (so decoding inverts encoding, and no two
    inputs decode to the same block). *)
Theorem block_codec_is_exact `{Blake2b} block bytes :
  BlockWire.decode_reputation_block bytes = Ok block ↔
  typed_block block ∧ BlockWire.encode_reputation_block block = Ok bytes.
Proof. apply block_codec. Qed.

(** C20: the durable snapshot of a reputation state is canonical in the same
    sense: a state is restored from some bytes precisely when those are its
    encoding. *)
Theorem snapshot_codec_is_exact `{Blake2b} s bytes :
  Snapshot.decode_reputation_state_snapshot bytes = Ok s ↔
  typed_state s ∧ Snapshot.encode_reputation_state_snapshot s = Ok bytes.
Proof. apply snapshot_codec. Qed.

(** A reachable state without pending ratings, whose latest block (if any)
    is of its own round, can always be persisted within the format's size
    limits, and restoring the snapshot gives back that state. *)
Theorem finalized_states_are_durable `{Blake2b} round s :
  reachable round s → ReputationState.pending_ratings s = [] →
  (∀ block, ReputationState.latest_block s = Some block →
    header_round (header block) = ReputationState.current_round s) →
  typed_state s → state_limits s →
  ∃ bytes, Snapshot.encode_reputation_state_snapshot s = Ok bytes ∧
    Snapshot.decode_reputation_state_snapshot bytes = Ok s.
Proof.
  intros Hr Hp Hb Ht Hl. exists (state_envelope s).
  assert (Snapshot.encode_reputation_state_snapshot s = Ok (state_envelope s)) as He.
  { apply encode_snapshot_Ok. split; [|done]. apply consistent_snapshot; [|done..].
    eapply steps_ok; [exact Hr|apply new_consistent]. }
  split; [done|]. by apply snapshot_codec.
Qed.

Lemma finalized_states_are_durable_witness :
  ∃ bytes, Snapshot.encode_reputation_state_snapshot ejected_sample = Ok bytes ∧
    Snapshot.decode_reputation_state_snapshot bytes = Ok ejected_sample.
Proof.
  assert (reachable 0 ejected_sample) as Hr.
  { apply rtc_l with (ReputationState.set_reputation (ReputationState.new 0) PorSample.c 500);
      [by apply step_set_reputation; vm_compute|].
    apply rtc_once. apply (step_eject _ _ PorSample.c). vm_compute. reflexivity. }
  assert (typed_state ejected_sample) as Ht.
  { split; [vm_compute; discriminate|]. split; [|by intros ? [=]].
    split; [vm_compute; discriminate|]. constructor; [|constructor]. split; vm_compute; discriminate. }
  assert (state_limits ejected_sample) as Hl.
  { split; [split; [vm_compute; discriminate|constructor; [vm_compute; discriminate|constructor]]|].
    split; [vm_compute; discriminate|]. split; [|split; [by intros ? [=]|vm_compute; discriminate]].
    change (ids_of (ReputationState.excluded_keys ejected_sample)) with [PorSample.c].
    constructor; [vm_compute; discriminate|constructor]. }
  exact (finalized_states_are_durable 0 ejected_sample Hr eq_refl ltac:(by intros ? [=]) Ht Hl).
Defined.

(** ** Signed payloads *)

Lemma reference_inj r r' :
  (∀ b, r = Some b → fits b) → (∀ b, r' = Some b → fits b) →
  Payload.reference r = Payload.reference r' → r = r'.
Proof.
  destruct r as [b|], r' as [b'|]; intros Hb Hb' E; try done.
  apply (f_equal tail) in E. change (field b = field b') in E. rewrite <-(app_nil_r (field b)), <-(app_nil_r (field b')) in E.
  apply field_app_inj in E as [-> _]; auto.
Qed.

(** What Rust's types guarantee of a rating: integers are [u64] and a slice is
    no longer than [usize::MAX]. *)
Record typed_rating (r : RatingRecord) : Prop := {
  tr_round : fits_u64 (rating_round r);
  tr_score : fits_u64 (score r);
  tr_rater : fits (rater r);
  tr_recipient : fits (recipient r);
  tr_reference : ∀ b, interaction_ref r = Some b → fits b
}.

(** C21: a rating signature covers the whole rating: equal signed payloads
    mean equal round, rater, recipient, score and interaction reference; a
    checkpoint payload also fixes its finalized prefix, and no payload of one
    kind is a payload of the other. *)
Theorem rating_payloads_bind_the_rating r r' :
  typed_rating r → typed_rating r' →
  (Payload.canonical_rating_payload r = Payload.canonical_rating_payload r' →
   r' = mkRating (rating_round r) (rater r) (recipient r) (score r) (rating_signature r')
          (interaction_ref r)) ∧
  (∀ s s' p, fits_u64 (finalized_prefix_len s) → fits_u64 (finalized_prefix_len s') →
   Payload.canonical_checkpoint_rating_payload r s = Ok p →
   Payload.canonical_checkpoint_rating_payload r' s' = Ok p →
   s = s' ∧ r' = mkRating (rating_round r) (rater r) (recipient r) (score r) (rating_signature r')
          (interaction_ref r)) ∧
  (∀ s, Payload.canonical_checkpoint_rating_payload r s ≠ Ok (Payload.canonical_rating_payload r')).
Proof.
  intros [Hr Hs Ha Hb Hi] [Hr' Hs' Ha' Hb' Hi']. unfold Payload.canonical_rating_payload,
    Payload.canonical_checkpoint_rating_payload.
  split_and!.
  - intros E. apply app_inj_length in E as [_ E]; [|done].
    apply be64_app_inj in E as [E1 E]; [|done..]. apply field_app_inj in E as [E2 E]; [|done..].
    apply field_app_inj in E as [E3 E]; [|done..]. apply be64_app_inj in E as [E4 E]; [|done..].
    apply reference_inj in E; [|done..]. destruct r, r'; simpl in *. by subst.
  - intros s s' p Hl Hl' Hp Hp'. invert_Ok Hp. invert_Ok Hp'. apply (inj Ok) in Hp, Hp'. subst p. rename Hp' into E.
    apply dec_stable in Hguard, Hguard0. rewrite <-Hguard, <-Hguard0 in E. symmetry in E.
    apply app_inj_length in E as [_ E]; [|done].
    apply be64_app_inj in E as [E1 E]; [|done..]. apply be64_app_inj in E as [E2 E]; [|done..].
    apply app_inj_length in E as [E3 E]; [|by rewrite !length_vec_to_list].
    apply vec_to_list_inj2 in E3.
    apply field_app_inj in E as [E4 E]; [|done..]. apply field_app_inj in E as [E5 E]; [|done..].
    apply be64_app_inj in E as [E6 E]; [|done..]. apply reference_inj in E; [|done..].
    destruct s, s', r, r'; simpl in *. by subst.
  - intros s Hp. invert_Ok Hp. apply (inj Ok) in Hp as E.
    apply app_inj_length in E as [E _]; [|done]. by vm_compute in E.
Qed.

Lemma rating_payloads_bind_the_rating_witness :
  Payload.canonical_rating_payload (new_rating 1 PorSample.a PorSample.b 5 [x01]) =
  Payload.canonical_rating_payload (new_rating 1 PorSample.a PorSample.b 5 [x02]) ∧
  new_rating 1 PorSample.a PorSample.b 5 [x02] = mkRating 1 PorSample.a PorSample.b 5 [x02] None.
Proof.
  assert (∀ sig, typed_rating (new_rating 1 PorSample.a PorSample.b 5 sig)) as Ht.
  { intros sig. split; [vm_compute; discriminate..|]. by intros ? [=]. }
  assert (Payload.canonical_rating_payload (new_rating 1 PorSample.a PorSample.b 5 [x01]) =
    Payload.canonical_rating_payload (new_rating 1 PorSample.a PorSample.b 5 [x02])) as E
    by (vm_compute; reflexivity).
  split; [exact E|].
  exact (proj1 (rating_payloads_bind_the_rating _ _ (Ht [x01]) (Ht [x02])) E).
Defined.
