(* ===== verification/FinalOutput.v ===== *)
(** * Finalized output and the rounds it opens

    [ordered_output.rs], [por/finality.rs] and [por/epoch_policy.rs] of
    cordial-f1r3node-adapter: the exported finalized prefix, the rating
    checkpoints and rating rounds that are derived from it, and the wave at
    which new weights take effect.  [usize] has 64 bits, so the conversions
    from [u64] do not fail. *)

From S2P Require Import Prelude Types Lace Bytes Rounds Finality Xsort Ordering.
From S2P Require Import PorTypes PorMath PorCommit.
From stdpp Require Import options.

(** ** [ordered_output.rs] *)

Module OrderedFinalizedOutput.

Record t := mk {
  blocks : list BlockIdentity;
  anchor : option BlockIdentity;
  wavelength : N;
  bond_count : nat;
  total_mirrored_blocks : nat;
  computed_at_ns : N
}.

(** The clock reading is an argument. *)
Definition new (now : N) (blocks : list BlockIdentity) (anchor : option BlockIdentity)
    (wavelength : N) (bond_count total_mirrored_blocks : nat) : t :=
  mk (map consensus_identity blocks) (consensus_identity <$> anchor) wavelength bond_count
    total_mirrored_blocks now.

Definition block_hashes (self : t) : list (list byte) :=
  map (λ id, vec_to_list (content_hash id)) (blocks self).
Definition len (self : t) : nat := length (blocks self).
Definition is_empty (self : t) : bool := bool_decide (blocks self = []).

(** [slice::starts_with]. *)
Definition preserves_prefix (self previous : t) : bool :=
  bool_decide (blocks previous `prefix_of` blocks self).

Definition anchor_hash (self : t) : option (list byte) :=
  (λ id, vec_to_list (content_hash id)) <$> anchor self.

(** Whole seconds and the nanoseconds that remain, as [SystemTime] keeps them. *)
Definition computed_at (self : t) : N * N :=
  ((computed_at_ns self / 1000000000) mod 2 ^ 64, computed_at_ns self mod 1000000000)%N.

Definition with_timestamp (self : t) (ns : N) : t :=
  mk (blocks self) (anchor self) (wavelength self) (bond_count self)
    (total_mirrored_blocks self) ns.

Definition default : t := mk [] None 3 0 0 0.

End OrderedFinalizedOutput.

(** ** [por/finality.rs] *)

Record FinalizedPrefixCheckpoint := mkPrefixCheckpoint {
  por_round : N;
  prefix_len : N;
  prefix_hash : Hash32;
  terminal_block : BlockIdentity
}.
#[export] Instance FinalizedPrefixCheckpoint_eq_dec : EqDecision FinalizedPrefixCheckpoint.
Proof. solve_decision. Defined.

Record FinalizedRatingRound := mkOpened {
  opened_wave : N;
  rating_round_of : N
}.
#[export] Instance FinalizedRatingRound_eq_dec : EqDecision FinalizedRatingRound.
Proof. solve_decision. Defined.

Inductive PorFinalityError :=
  | InvalidWavelength
  | UnknownFinalLeader
  | UnanchoredFinalizedPrefix
  | InvalidPrefixCheckpointRound
  | PrefixCheckpointMismatch
  | ConflictingFinalLeader (wave : N)
  | MissingFinalLeaderForWave (wave : N)
  | HistoricalPrefixMismatch (wave : N)
  | OrderingError_ (error : OrderingError)
  | RatingRound (error : PorError).

Module PorFinality.

Definition POR_FINALIZED_PREFIX_HASH_DOMAIN : list byte :=
  literal "cordial-por:finalized-prefix:v1".

(** [FinalizedPrefixCheckpoint::rating_source]. *)
Definition rating_source (self : FinalizedPrefixCheckpoint) : RatingSourceCheckpoint :=
  mkSource (por_round self) (prefix_len self) (prefix_hash self).

Section finality.
Context `{HO : HashOrder} `{Blake2b}.
Implicit Types (bl : Blocklace.t) (output latest : OrderedFinalizedOutput.t).

Definition finalized_wave_from_output bl output : result (option N) PorFinalityError :=
  match OrderedFinalizedOutput.anchor output with
  | None => Ok None
  | Some final_leader =>
    bail InvalidWavelength when OrderedFinalizedOutput.wavelength output = 0%N;
    let? leader_round := ok_or (Round.depth bl final_leader) UnknownFinalLeader in
    let? wave := ok_or (Wave.wave_of_round leader_round
      (OrderedFinalizedOutput.wavelength output)) InvalidWavelength in
    Ok (Some wave)
  end.

(** One iteration of the rolling hash: the bytes that are hashed. *)
Definition prefix_link (hash : Hash32) (index : N) (block : BlockIdentity) : list byte :=
  POR_FINALIZED_PREFIX_HASH_DOMAIN ++ vec_to_list hash ++ be64 (index mod 2 ^ 64) ++
  vec_to_list (content_hash block) ++ field (creator block) ++ field (signature block).

Fixpoint prefix_hash_from (hash : Hash32) (index : N) (blocks : list BlockIdentity) : Hash32 :=
  match blocks with
  | [] => hash
  | block :: blocks =>
    prefix_hash_from (blake2b256 (prefix_link hash index block)) (index + 1) blocks
  end.

Definition finalized_prefix_hash (blocks : list BlockIdentity) : Hash32 :=
  prefix_hash_from (blake2b256 POR_FINALIZED_PREFIX_HASH_DOMAIN) 0 blocks.

Definition finalized_prefix_checkpoint output (round : N) :
    result (option FinalizedPrefixCheckpoint) PorFinalityError :=
  let blocks := OrderedFinalizedOutput.blocks output in
  bail InvalidPrefixCheckpointRound when round = 0%N;
  let? last := ok_or (checked_mul u64_max round POR_FINALIZED_BLOCKS_PER_CHECKPOINT)
    InvalidPrefixCheckpointRound in
  match OrderedFinalizedOutput.anchor output with
  | None => bail UnanchoredFinalizedPrefix when blocks ≠ []; Ok None
  | Some _ =>
    let index := N.to_nat (last - 1) in
    Ok ((λ terminal_block,
      mkPrefixCheckpoint round last (finalized_prefix_hash (take (S index) blocks))
        terminal_block) <$> blocks !! index)
  end.

Definition validate_finalized_prefix_checkpoint output (checkpoint : FinalizedPrefixCheckpoint) :
    result unit PorFinalityError :=
  let? expected := finalized_prefix_checkpoint output (por_round checkpoint) in
  bail PrefixCheckpointMismatch when expected ≠ Some checkpoint;
  Ok tt.

(** The round-robin leader over the sorted validators. *)
Definition sorted_validators (bonds : gmap NodeId N) : list NodeId := sort (map_iter bonds).*1.
Definition leader_selection (validators : list NodeId) (selected_wave : N) : option NodeId :=
  validators !! N.to_nat (selected_wave mod N.of_nat (length validators)).

(** [None]: the ordering does not return. *)
Definition replayed_blocks bl latest (bonds : gmap NodeId N) (leader : BlockIdentity) :
    option (result (list BlockIdentity) OrderingError) :=
  let validators := sorted_validators bonds in
  if decide (length validators = 1 ∧ Blocklace.checkpoint bl = None) then
    Some (Xsort.xsort
      (collect_blocks (omap (Blocklace.get bl) (hash_iter (Blocklace.observe bl leader)))))
  else
    Ordering.weighted_tau_at_leader bl leader (OrderedFinalizedOutput.wavelength latest) bonds
      (leader_selection validators).

Definition replayed_output latest (leader : BlockIdentity) (blocks : list BlockIdentity)
    (wave : N) : result (option OrderedFinalizedOutput.t) PorFinalityError :=
  bail (HistoricalPrefixMismatch wave)
    when ¬ blocks `prefix_of` OrderedFinalizedOutput.blocks latest ∨
         consensus_identity leader ∉ blocks;
  Ok (Some (OrderedFinalizedOutput.with_timestamp
    (OrderedFinalizedOutput.new 0 blocks (Some leader)
      (OrderedFinalizedOutput.wavelength latest) (OrderedFinalizedOutput.bond_count latest)
      (OrderedFinalizedOutput.total_mirrored_blocks latest))
    (OrderedFinalizedOutput.computed_at_ns latest))).

Definition finalized_output_for_wave bl latest (bonds : gmap NodeId N) (wave : N) :
    option (result (option OrderedFinalizedOutput.t) PorFinalityError) :=
  match finalized_wave_from_output bl latest with
  | Err e => Some (Err e)
  | Ok None => Some (Ok None)
  | Ok (Some latest_wave) =>
    if decide (latest_wave < wave)%N then Some (Ok None)
    else if decide (wave = latest_wave) then Some (Ok (Some latest))
    else if decide (bonds = ∅) then Some (Err (MissingFinalLeaderForWave wave))
    else
      match Finality.weighted_final_leader_for_wave bl wave
              (OrderedFinalizedOutput.wavelength latest) bonds
              (leader_selection (sorted_validators bonds)) with
      | None => Some (Err (MissingFinalLeaderForWave wave))
      | Some leader =>
        (λ blocks, let? blocks := map_err OrderingError_ blocks in
           replayed_output latest leader blocks wave) <$> replayed_blocks bl latest bonds leader
      end
  end.

End finality.

(** *** [PorFinalityTracker] *)

Module Tracker.

Record t := mk {
  last_opened_wave : option N;
  last_final_leader : option BlockIdentity
}.
Definition new : t := mk None None.

Definition open_round (wave : N) : result FinalizedRatingRound PorFinalityError :=
  let? rating_round := map_err RatingRound (Ratings.rating_round_from_finalized_wave wave) in
  Ok (mkOpened wave rating_round).

Section tracker.
Context `{HO : HashOrder}.

(** Opening the waves after the last opened one, up to the finalized one. *)
Definition open_rounds (self : t) (finalized_wave : N) (final_leader : BlockIdentity) :
    result (list FinalizedRatingRound) PorFinalityError * t :=
  let first_missing_wave :=
    match last_opened_wave self with Some w => (w + 1)%N | None => finalized_wave end in
  match try_map open_round (range_incl first_missing_wave finalized_wave) with
  | Err e => (Err e, self)
  | Ok rounds => (Ok rounds, mk (Some finalized_wave) (Some final_leader))
  end.

Definition observe_finalized_output (self : t) (bl : Blocklace.t)
    (output : OrderedFinalizedOutput.t) : result (list FinalizedRatingRound) PorFinalityError * t :=
  match finalized_wave_from_output bl output, OrderedFinalizedOutput.anchor output with
  | Err e, _ => (Err e, self)
  | Ok (Some finalized_wave), Some final_leader =>
    match last_opened_wave self with
    | Some last_opened_wave =>
      if decide (finalized_wave < last_opened_wave)%N then (Ok [], self)
      else if decide (finalized_wave = last_opened_wave) then
        if decide (last_final_leader self = Some final_leader) then (Ok [], self)
        else (Err (ConflictingFinalLeader finalized_wave), self)
      else open_rounds self finalized_wave final_leader
    | None => open_rounds self finalized_wave final_leader
    end
  | Ok _, _ => (Ok [], self)
  end.

End tracker.
End Tracker.
End PorFinality.

(** ** [por/epoch_policy.rs] *)

Inductive PorWeightEpochPolicyError :=
  | ZeroDelay
  | Source (error : PorFinalityError)
  | UnknownTerminalBlock
  | WaveOverflow.

Module PorWeightEpochPolicy.

Record t := mk { delay_waves : N }.

Definition new (delay_waves : N) : result t PorWeightEpochPolicyError :=
  bail ZeroDelay when delay_waves = 0%N; Ok (mk delay_waves).

Definition effective_wave `{HashOrder} `{Blake2b} (self : t) (bl : Blocklace.t)
    (output : OrderedFinalizedOutput.t) (source : FinalizedPrefixCheckpoint) :
    result N PorWeightEpochPolicyError :=
  let? _ := map_err Source (PorFinality.validate_finalized_prefix_checkpoint output source) in
  let? round := ok_or (Round.depth bl (terminal_block source)) UnknownTerminalBlock in
  let? source_wave := ok_or (Wave.wave_of_round round (OrderedFinalizedOutput.wavelength output))
    (Source InvalidWavelength) in
  ok_or (checked_add u64_max source_wave (delay_waves self)) WaveOverflow.

End PorWeightEpochPolicy.
