(* ===== verification/FinalOutputFacts.v ===== *)
(** * Properties of the finalized output

    The rolling prefix hash determines the prefix, a checkpoint is accepted by
    exactly the outputs that share its prefix, and the tracker opens
    consecutive waves.  Then the finalized prefixes and blocklaces on which the
    model of the adapter is evaluated. *)

From S2P Require Import Prelude Types Lace Bytes Crypto LaceFacts Samples Rounds RoundFacts.
From S2P Require Import Cordiality CordialityFacts Finality FinalityFacts Ordering PorTypes.
From S2P Require Import PorMath PorCommit FinalOutput.
From stdpp Require Import options.

(** ** The rolling prefix hash *)

Section prefix_hash.
Context `{Blake2b}.
Implicit Types (blocks : list BlockIdentity) (hash : Hash32).

(** The byte strings that are hashed along a chain. *)
Fixpoint links hash (index : N) blocks : list (list byte) :=
  match blocks with
  | [] => []
  | block :: blocks =>
    let link := PorFinality.prefix_link hash index block in
    link :: links (blake2b256 link) (index + 1) blocks
  end.
Definition prefix_links blocks : list (list byte) :=
  links (blake2b256 PorFinality.POR_FINALIZED_PREFIX_HASH_DOMAIN) 0 blocks.

(** The hash separates the byte strings of a list. *)
Definition separates (inputs : list (list byte)) : Prop :=
  ∀ x y, x ∈ inputs → y ∈ inputs → blake2b256 x = blake2b256 y → x = y.

Definition identity_fits (id : BlockIdentity) : Prop := fits (creator id) ∧ fits (signature id).

Lemma prefix_link_inj hash hash' index block block' :
  identity_fits block → identity_fits block' →
  PorFinality.prefix_link hash index block = PorFinality.prefix_link hash' index block' →
  hash = hash' ∧ block = block'.
Proof.
  intros [Hc Hs] [Hc' Hs'] E. unfold PorFinality.prefix_link in E.
  apply app_inj_length in E as [_ E]; [|done].
  apply app_inj_length in E as [Eh E]; [|by rewrite !length_vec_to_list].
  apply app_inj_length in E as [_ E]; [|by rewrite !length_be_bytes].
  apply app_inj_length in E as [Ec E]; [|by rewrite !length_vec_to_list].
  apply field_app_inj in E as [Er E]; [|done..].
  rewrite <-(app_nil_r (field (signature block))), <-(app_nil_r (field (signature block'))) in E.
  apply field_app_inj in E as [Es _]; [|done..].
  split; [by apply vec_to_list_inj2|]. apply vec_to_list_inj2 in Ec.
  destruct block, block'; simpl in *. by subst.
Qed.

(** Equal digests of equally long chains come from equal chains. *)
Lemma prefix_hash_from_inj blocks blocks' hash hash' index :
  length blocks = length blocks' →
  Forall identity_fits blocks → Forall identity_fits blocks' →
  separates (links hash index blocks ++ links hash' index blocks') →
  PorFinality.prefix_hash_from hash index blocks = PorFinality.prefix_hash_from hash' index blocks' →
  hash = hash' ∧ blocks = blocks'.
Proof.
  revert blocks' hash hash' index.
  induction blocks as [|b blocks IH]; intros [|b' blocks'] hash hash' index Hl Hf Hf' Hs E;
    try done.
  apply Forall_cons in Hf as [Hb Hf], Hf' as [Hb' Hf']. injection Hl as Hl.
  cbn [PorFinality.prefix_hash_from links] in E, Hs.
  apply IH in E as [Eh ->]; [|done..|].
  2:{ intros x y Hx Hy. apply Hs; rewrite elem_of_app, !elem_of_cons;
      apply elem_of_app in Hx, Hy; tauto. }
  apply Hs in Eh; [|rewrite elem_of_app, !elem_of_cons; tauto..].
  by apply prefix_link_inj in Eh as [-> ->].
Qed.

Lemma finalized_prefix_hash_inj blocks blocks' :
  length blocks = length blocks' →
  Forall identity_fits blocks → Forall identity_fits blocks' →
  separates (prefix_links blocks ++ prefix_links blocks') →
  PorFinality.finalized_prefix_hash blocks = PorFinality.finalized_prefix_hash blocks' →
  blocks = blocks'.
Proof. intros ?? ? ? E. by eapply prefix_hash_from_inj. Qed.

(** ** Checkpoints *)

Implicit Types o : OrderedFinalizedOutput.t.

Lemma checkpoint_Ok o r c :
  OrderedFinalizedOutput.anchor o ≠ None →
  PorFinality.finalized_prefix_checkpoint o r = Ok (Some c) ↔
  r ≠ 0%N ∧ (r * 16 <= u64_max)%N ∧
  ∃ terminal, OrderedFinalizedOutput.blocks o !! N.to_nat (r * 16 - 1) = Some terminal ∧
    c = mkPrefixCheckpoint r (r * 16)
      (PorFinality.finalized_prefix_hash
        (take (N.to_nat (r * 16)) (OrderedFinalizedOutput.blocks o))) terminal.
Proof.
  intros Ha. unfold PorFinality.finalized_prefix_checkpoint.
  rewrite bail_Ok, result_bind_Ok. setoid_rewrite ok_or_Ok. setoid_rewrite checked_mul_Some.
  destruct (OrderedFinalizedOutput.anchor o) as [a|]; [|done]. clear Ha a.
  change POR_FINALIZED_BLOCKS_PER_CHECKPOINT with 16%N. split.
  - intros (Hr & e & [-> Hle] & [= Hf]). split_and!; [done..|].
    apply fmap_Some in Hf as (t & Ht & ->). exists t. split; [done|].
    by replace (S (N.to_nat (r * 16 - 1))) with (N.to_nat (r * 16)) by lia.
  - intros (Hr & Hle & t & Ht & ->). split; [done|]. exists (r * 16)%N. split; [done|].
    rewrite Ht. cbn. by replace (S (N.to_nat (r * 16 - 1))) with (N.to_nat (r * 16)) by lia.
Qed.

Lemma validate_checkpoint_Ok o c :
  PorFinality.validate_finalized_prefix_checkpoint o c = Ok tt ↔
  PorFinality.finalized_prefix_checkpoint o (por_round c) = Ok (Some c).
Proof.
  unfold PorFinality.validate_finalized_prefix_checkpoint. rewrite result_bind_Ok.
  setoid_rewrite bail_Ok. split.
  - intros (x & Hx & Hn & _). destruct (decide (x = Some c)) as [->|]; [done|tauto].
  - intros Hc. exists (Some c). split; [done|]. split; [tauto|done].
Qed.

(** A checkpoint is selected from, and accepted by, exactly the outputs that
    share its prefix. *)
Lemma checkpoint_prefix o o' r c :
  OrderedFinalizedOutput.anchor o ≠ None → OrderedFinalizedOutput.anchor o' ≠ None →
  PorFinality.finalized_prefix_checkpoint o r = Ok (Some c) →
  take (N.to_nat (prefix_len c)) (OrderedFinalizedOutput.blocks o') =
    take (N.to_nat (prefix_len c)) (OrderedFinalizedOutput.blocks o) →
  PorFinality.finalized_prefix_checkpoint o' r = Ok (Some c).
Proof.
  intros Ha Ha' Hc E. apply checkpoint_Ok in Hc as (Hr & Hle & t & Ht & ->); [|done].
  cbn [prefix_len] in E. apply checkpoint_Ok; [done|]. split_and!; [done..|]. exists t.
  rewrite E. split; [|done].
  rewrite <-(lookup_take_lt _ (N.to_nat (r * 16))), E, lookup_take_lt by lia. done.
Qed.

Lemma checkpoint_terminal o r c :
  OrderedFinalizedOutput.anchor o ≠ None →
  PorFinality.finalized_prefix_checkpoint o r = Ok (Some c) →
  por_round c = r ∧ N.to_nat (prefix_len c) <= length (OrderedFinalizedOutput.blocks o) ∧
  prefix_hash c = PorFinality.finalized_prefix_hash
    (take (N.to_nat (prefix_len c)) (OrderedFinalizedOutput.blocks o)).
Proof.
  intros Ha Hc. apply checkpoint_Ok in Hc as (Hr & Hle & t & Ht%lookup_lt_Some & ->); [|done].
  cbn [por_round prefix_len prefix_hash]. split_and!; [done|lia|done].
Qed.

End prefix_hash.

(** ** The tracker *)

Lemma range_incl_app a b c :
  (a <= b + 1)%N → (b <= c)%N → range_incl a b ++ range_incl (b + 1) c = range_incl a c.
Proof.
  intros Hab Hbc. unfold range_incl.
  replace (N.to_nat (c + 1 - a)) with (N.to_nat (b + 1 - a) + N.to_nat (c + 1 - (b + 1))) by lia.
  rewrite seq_app, map_app. f_equal. rewrite Nat.add_0_l.
  rewrite <-(Nat.add_0_r (N.to_nat (b + 1 - a))), <-fmap_add_seq.
  unfold fmap. rewrite map_map. apply map_ext. intros i. lia.
Qed.

Section tracker.
Context `{HO : HashOrder}.
Import PorFinality.
Implicit Types (obs : list (Blocklace.t * OrderedFinalizedOutput.t)) (t : Tracker.t).

(** The tracker over a sequence of observations: the rounds it opens, and
    where it ends. *)
Fixpoint observe_all t obs : list FinalizedRatingRound * Tracker.t :=
  match obs with
  | [] => ([], t)
  | (bl, output) :: obs =>
    let '(opened, t) := Tracker.observe_finalized_output t bl output in
    let '(later, t) := observe_all t obs in
    (or_default [] opened ++ later, t)
  end.

(** The finalized wave of an observation that can open a round: the round
    after the last wave of [u64] does not exist. *)
Definition finalized_wave_of (observation : Blocklace.t * OrderedFinalizedOutput.t) : option N :=
  match finalized_wave_from_output observation.1 observation.2 with
  | Ok (Some wave) => if decide (wave < u64_max)%N then Some wave else None
  | _ => None
  end.

Definition opened_waves (first last : N) : list FinalizedRatingRound :=
  map (λ wave, mkOpened wave (wave + 1)) (range_incl first last).

Lemma open_round_Ok wave : (wave < u64_max)%N → Tracker.open_round wave = Ok (mkOpened wave (wave + 1)).
Proof.
  intros Hw. unfold Tracker.open_round, Ratings.rating_round_from_finalized_wave.
  by rewrite checked_add_fits by lia.
Qed.
Lemma open_rounds_all first last :
  (last < u64_max)%N → try_map Tracker.open_round (range_incl first last) = Ok (opened_waves first last).
Proof.
  intros Hl. apply try_map_Ok. unfold opened_waves. apply Forall2_fmap_r, Forall_Forall2_diag.
  apply Forall_forall. intros w Hw%elem_of_range_incl. apply open_round_Ok. lia.
Qed.
Lemma open_rounds_overflow first last :
  (first <= last)%N → (u64_max <= last)%N →
  ∃ e, try_map Tracker.open_round (range_incl first last) = Err e.
Proof.
  intros Hf Hl. destruct (try_map _ _) as [rounds|e] eqn:E; [exfalso|eauto].
  apply try_map_Ok in E.
  assert (last ∈ range_incl first last) as Hin by (apply elem_of_range_incl; lia).
  apply list_elem_of_lookup in Hin as [i Hi].
  destruct (Forall2_lookup_l _ _ _ _ _ E Hi) as (r & _ & Hr).
  unfold Tracker.open_round, Ratings.rating_round_from_finalized_wave in Hr.
  by rewrite (proj2 (checked_add_None u64_max last 1)) in Hr by lia.
Qed.
Lemma opened_waves_app a b c :
  (a <= b + 1)%N → (b <= c)%N → opened_waves a b ++ opened_waves (b + 1) c = opened_waves a c.
Proof. intros. unfold opened_waves. rewrite <-map_app. by rewrite range_incl_app. Qed.
Lemma opened_waves_empty l : opened_waves (l + 1) l = [].
Proof.
  unfold opened_waves, range_incl. replace (N.to_nat (l + 1 - (l + 1))) with 0 by lia. done.
Qed.

Lemma finalized_wave_anchor bl output w :
  finalized_wave_from_output bl output = Ok (Some w) →
  is_Some (OrderedFinalizedOutput.anchor output).
Proof. unfold finalized_wave_from_output. by destruct (OrderedFinalizedOutput.anchor output). Qed.

(** Opening the waves from [first] on, when that is how far the tracker is. *)
Lemma open_rounds_step t first w leader opened t' :
  first = match Tracker.last_opened_wave t with Some l => (l + 1)%N | None => w end →
  (first <= w)%N →
  Tracker.open_rounds t w leader = (opened, t') →
  if decide (w < u64_max)%N
  then or_default [] opened = opened_waves first w ∧ Tracker.last_opened_wave t' = Some w
  else or_default [] opened = [] ∧ t' = t.
Proof.
  intros -> Hw E. unfold Tracker.open_rounds in E. case_decide.
  - rewrite open_rounds_all in E by done. by injection E as <- <-.
  - edestruct (open_rounds_overflow _ w Hw) as [e He]; [lia|]. rewrite He in E.
    by injection E as <- <-.
Qed.

(** One observation by a tracker that has opened up to [l]. *)
Lemma observe_step t bl output l opened t' :
  Tracker.last_opened_wave t = Some l → (l < u64_max)%N →
  Tracker.observe_finalized_output t bl output = (opened, t') →
  let l' := from_option (N.max l) l (finalized_wave_of (bl, output)) in
  or_default [] opened = opened_waves (l + 1) l' ∧ Tracker.last_opened_wave t' = Some l'.
Proof.
  intros Hl Hlm E. unfold Tracker.observe_finalized_output in E.
  unfold finalized_wave_of. cbn [fst snd].
  destruct (finalized_wave_from_output bl output) as [[w|]|e] eqn:Ew;
    [|by injection E as <- <-; rewrite opened_waves_empty..].
  destruct (finalized_wave_anchor _ _ _ Ew) as [leader Ea]. rewrite Ea, Hl in E.
  assert ((w <= l)%N → from_option (N.max l) l (if decide (w < u64_max)%N then Some w else None) = l)
    as Hold by (intros; destruct (decide (w < u64_max)%N); [by apply N.max_l|done]).
  destruct (decide (w < l)%N); [rewrite Hold by lia; by injection E as <- <-; rewrite opened_waves_empty|].
  destruct (decide (w = l)).
  { rewrite Hold by lia. clear Hold. case_decide; injection E as <- <-; by rewrite opened_waves_empty. }
  clear Hold. apply (open_rounds_step t (l + 1)) in E; [|by rewrite Hl|lia].
  case_decide; [by cbn; rewrite N.max_r by lia|cbn].
  destruct E as [-> ->]. by rewrite opened_waves_empty.
Qed.

Lemma observe_first bl output opened t' :
  Tracker.observe_finalized_output Tracker.new bl output = (opened, t') →
  match finalized_wave_of (bl, output) with
  | Some w => or_default [] opened = opened_waves w w ∧ Tracker.last_opened_wave t' = Some w
  | None => or_default [] opened = [] ∧ t' = Tracker.new
  end.
Proof.
  intros E. unfold Tracker.observe_finalized_output in E.
  unfold finalized_wave_of. cbn [fst snd].
  destruct (finalized_wave_from_output bl output) as [[w|]|e] eqn:Ew;
    [|by injection E as <- <-..].
  destruct (finalized_wave_anchor _ _ _ Ew) as [leader Ea]. rewrite Ea in E. cbn in E.
  apply (open_rounds_step _ w) in E; [|done|lia]. by case_decide.
Qed.

Lemma finalized_wave_bound observation w : finalized_wave_of observation = Some w → (w < u64_max)%N.
Proof.
  unfold finalized_wave_of. destruct (finalized_wave_from_output _ _) as [[]|]; [|done..].
  case_decide; [by intros [= <-]|done].
Qed.

Lemma observe_all_after t obs l rounds t' :
  Tracker.last_opened_wave t = Some l → (l < u64_max)%N →
  observe_all t obs = (rounds, t') →
  rounds = opened_waves (l + 1) (foldl N.max l (omap finalized_wave_of obs)) ∧
  Tracker.last_opened_wave t' = Some (foldl N.max l (omap finalized_wave_of obs)).
Proof.
  revert t l rounds. induction obs as [|[bl output] obs IH]; intros t l rounds Hl Hm E.
  { injection E as <- <-. cbn. by rewrite opened_waves_empty. }
  cbn in E. destruct (Tracker.observe_finalized_output t bl output) as [opened t1] eqn:E1.
  destruct (observe_all t1 obs) as [later t2] eqn:E2. injection E as <- <-.
  apply (observe_step _ _ _ l) in E1 as [-> Hl1]; [|done..].
  set (l1 := from_option (N.max l) l (finalized_wave_of (bl, output))) in *.
  assert ((l <= l1)%N ∧ (l1 < u64_max)%N ∧
    foldl N.max l (omap finalized_wave_of ((bl, output) :: obs)) =
    foldl N.max l1 (omap finalized_wave_of obs)) as (Hll & Hl1m & ->).
  { unfold l1. cbn [omap list_omap]. destruct (finalized_wave_of (bl, output)) as [w|] eqn:Ew.
    - apply finalized_wave_bound in Ew. cbn. split_and!; [apply N.le_max_l|by apply N.max_lub_lt|done].
    - cbn. split_and!; [lia|done|done]. }
  destruct (IH t1 l1 later Hl1 Hl1m E2) as [-> ->]. split; [|done].
  apply opened_waves_app; [lia|]. apply foldl_max_spec. by left.
Qed.
End tracker.

(** ** Replaying an earlier wave *)

Section replay.
Context `{HO : HashOrder} `{Blake2b}.
Implicit Types (bl : Blocklace.t) (o latest : OrderedFinalizedOutput.t).

(** The unsigned reference of a stored block resolves to it. *)
Lemma resolve_unsigned bl id :
  unique_variants bl → id ∈ Blocklace.dom bl →
  Blocklace.resolve_identity bl (consensus_identity id) = Some id.
Proof.
  intros Hu Hid. apply resolve_in_unsigned; [|done|by apply elem_of_lace_dom|done].
  intros a b Ha Hb. apply Hu; by apply elem_of_lace_dom.
Qed.

(** The leader of a wave has the first round of the wave. *)
Lemma leader_block_wave bl wave wl ls leader :
  well_formed bl → wl ≠ 0%N →
  Finality.leader_block_for_wave bl wave wl ls = Some leader →
  ∃ r, Round.depth bl (consensus_identity leader) = Some r ∧ Wave.wave_of_round r wl = Some wave.
Proof.
  intros [_ Hu Hac] Hwl. rewrite leader_block_singleton.
  destruct (iter_blocks _) as [|b [|]] eqn:E; try done. intros [= <-].
  assert (b ∈ iter_blocks (Wave.leader_blocks_of_wave bl wave wl ls)) as Hb by (rewrite E; by left).
  apply elem_of_iter_blocks, lookup_leader_blocks in Hb as (p & r & _ & Hr & _ & Hs & Hd); [|done].
  exists r. split.
  - apply depth_spec; [done|]. exists (identity b). split; [|done].
    apply resolve_unsigned; [done|]. apply elem_of_lace_dom. eauto.
  - unfold Wave.leader_round_of_wave, Wave.first_round_of_wave in Hr. unfold Wave.wave_of_round.
    rewrite decide_False in Hr |- * by done. apply checked_mul_Some in Hr as [-> _].
    by rewrite N.div_mul.
Qed.

Lemma finalized_wave_Some bl o w :
  PorFinality.finalized_wave_from_output bl o = Ok (Some w) ↔
  OrderedFinalizedOutput.wavelength o ≠ 0%N ∧ ∃ anchor r,
    OrderedFinalizedOutput.anchor o = Some anchor ∧ Round.depth bl anchor = Some r ∧
    Wave.wave_of_round r (OrderedFinalizedOutput.wavelength o) = Some w.
Proof.
  unfold PorFinality.finalized_wave_from_output.
  destruct (OrderedFinalizedOutput.anchor o) as [a|]; [|naive_solver].
  rewrite bail_Ok, result_bind_Ok. setoid_rewrite result_bind_Ok.
  setoid_rewrite ok_or_Ok. naive_solver.
Qed.

Lemma consensus_identity_map l : map consensus_identity (map consensus_identity l) = map consensus_identity l.
Proof. rewrite map_map. by apply map_ext. Qed.

(** The output of an earlier wave, as it is replayed. *)
Lemma replayed_Ok bl latest bonds w o :
  PorFinality.finalized_output_for_wave bl latest bonds w = Some (Ok (Some o)) →
  ∃ lw, PorFinality.finalized_wave_from_output bl latest = Ok (Some lw) ∧ (w <= lw)%N ∧
    (w = lw ∧ o = latest ∨
     ∃ leader blocks, Finality.weighted_final_leader_for_wave bl w
         (OrderedFinalizedOutput.wavelength latest) bonds
         (PorFinality.leader_selection (PorFinality.sorted_validators bonds)) = Some leader ∧
       blocks `prefix_of` OrderedFinalizedOutput.blocks latest ∧
       consensus_identity leader ∈ blocks ∧
       o = OrderedFinalizedOutput.mk (map consensus_identity blocks)
         (Some (consensus_identity leader)) (OrderedFinalizedOutput.wavelength latest)
         (OrderedFinalizedOutput.bond_count latest)
         (OrderedFinalizedOutput.total_mirrored_blocks latest)
         (OrderedFinalizedOutput.computed_at_ns latest)).
Proof.
  unfold PorFinality.finalized_output_for_wave.
  destruct (PorFinality.finalized_wave_from_output bl latest) as [[lw|]|]; try done.
  case_decide; [done|]. case_decide as Hw.
  { intros [= <-]. exists lw. split_and!; [done|lia|]. by left. }
  case_decide; [done|].
  destruct (Finality.weighted_final_leader_for_wave _ _ _ _ _) as [leader|]; [|done].
  intros ([blocks|e] & _ & Hr)%fmap_Some; [|done]. cbn [map_err result_bind] in Hr.
  unfold PorFinality.replayed_output in Hr. case_decide as Hn; [done|]. injection Hr as ->.
  exists lw. split_and!; [done|lia|]. right. exists leader, blocks.
  apply Decidable.not_or in Hn as [Hp Hl].
  split_and!; [done| | |done].
  - destruct (decide (blocks `prefix_of` OrderedFinalizedOutput.blocks latest)); tauto.
  - destruct (decide (consensus_identity leader ∈ blocks)); tauto.
Qed.

End replay.

(** ** Concrete finalized outputs

    Finalized prefixes and blocklaces of the adapter, to evaluate the model
    on. *)

#[local] Existing Instance sample_hash.

Definition sample_prefix : list BlockIdentity :=
  map (λ i, mkIdentity (vreplicate 32 (byte_of_N (N.of_nat i))) [byte_of_N (N.of_nat i)] [])
    (seq 1 17).
Definition sample_output (n : nat) : OrderedFinalizedOutput.t :=
  OrderedFinalizedOutput.mk (take n sample_prefix) (sample_prefix !! 0) 1 2 17 0.
Definition no_checkpoint : FinalizedPrefixCheckpoint :=
  mkPrefixCheckpoint 0 0 (vreplicate 32 x00) (mkIdentity (vreplicate 32 x00) [] []).
Definition sample_checkpoint : FinalizedPrefixCheckpoint :=
  default no_checkpoint
    (or_default None (PorFinality.finalized_prefix_checkpoint (sample_output 17) 1)).

(** A listed blocklace is well formed when its edges go down the list. *)
Lemma lace_of_well_formed bs :
  NoDup (map consensus_identity (map identity bs)) →
  edges_descend (lace_of bs) (map identity bs) = true →
  @Blocklace.is_closed elements_order (lace_of bs) = true → well_formed (lace_of bs).
Proof.
  intros Hnd He Hc. split.
  - by apply (@is_closed_spec elements_order).
  - by apply (no_variants _ (map identity bs)); [apply lace_of_dom|].
  - apply (edges_descend_acyclic _ (map identity bs)); [|apply lace_of_dom|done].
    by apply NoDup_fmap_1 in Hnd.
Qed.

(** A chain of blocks by one validator; its leaders are final at once. *)
Definition solo0 := sample_block x05 x0a x05 [].
Definition solo1 := sample_block x06 x0a x06 [identity solo0].
Definition solo2 := sample_block x07 x0a x07 [identity solo1].
Definition solo : Blocklace.t := lace_of [solo2; solo1; solo0].
Definition solo_bonds : gmap NodeId N := {[ [x0a] := 5%N ]}.
Definition solo_latest : OrderedFinalizedOutput.t :=
  OrderedFinalizedOutput.new 9 (map identity [solo0; solo1; solo2]) (Some (identity solo2)) 1 1 3.
Definition solo_replayed : OrderedFinalizedOutput.t :=
  OrderedFinalizedOutput.new 9 (map identity [solo0; solo1]) (Some (identity solo1)) 1 1 3.

Lemma solo_well_formed : well_formed solo.
Proof. apply lace_of_well_formed; [decided|by vm_compute..]. Qed.
