(* ===== verification/FinalOutputTheorems.v ===== *)
(** * Theorems about the finalized output

    Rating checkpoints are commitments to a prefix, a replayed output is the
    prefix of its wave, and every wave opens its rating round once. *)

From S2P Require Import Prelude Types Lace LaceFacts Bytes Crypto Samples Rounds Finality.
From S2P Require Import FinalityFacts PorTypes PorCommit FinalOutput FinalOutputFacts.
From stdpp Require Import options.

#[local] Existing Instance sample_hash.

(** C34: a retained checkpoint is accepted by a later or replayed output exactly
    when that output has the same blocks up to the checkpoint, so the checkpoint
    of a round does not depend on when an observer polls, and one hash stands
    for the whole prefix (as far as the hash function separates its inputs). *)
Theorem checkpoints_commit_to_the_prefix `{Blake2b} o o' r c :
  OrderedFinalizedOutput.anchor o ≠ None → OrderedFinalizedOutput.anchor o' ≠ None →
  PorFinality.finalized_prefix_checkpoint o r = Ok (Some c) →
  let prefix o := take (N.to_nat (prefix_len c)) (OrderedFinalizedOutput.blocks o) in
  Forall identity_fits (prefix o) → Forall identity_fits (prefix o') →
  separates (prefix_links (prefix o) ++ prefix_links (prefix o')) →
  PorFinality.validate_finalized_prefix_checkpoint o' c = Ok tt ↔ prefix o' = prefix o.
Proof.
  intros Ha Ha' Hc prefix Hf Hf' Hs.
  destruct (checkpoint_terminal o r c Ha Hc) as (Hr & Hlen & Hh).
  rewrite validate_checkpoint_Ok, Hr. split; [|by apply checkpoint_prefix].
  intros Hc'. destruct (checkpoint_terminal o' r c Ha' Hc') as (_ & Hlen' & Hh').
  symmetry. apply finalized_prefix_hash_inj; [|done..|].
  - unfold prefix. rewrite !length_take. lia.
  - unfold prefix. congruence.
Qed.

(** When the output of a wave is replayed from a later output, the result
    is finalized at exactly that wave, is a prefix of the later output that
    contains its anchor, and every rating checkpoint selected from it is still
    accepted by the later output. *)
Theorem replayed_output_is_the_prefix_of_its_wave `{HO : HashOrder} `{Blake2b} bl latest bonds w o :
  well_formed bl → Forall (λ id, signature id = []) (OrderedFinalizedOutput.blocks latest) →
  PorFinality.finalized_output_for_wave bl latest bonds w = Some (Ok (Some o)) →
  PorFinality.finalized_wave_from_output bl o = Ok (Some w) ∧
  OrderedFinalizedOutput.preserves_prefix latest o = true ∧
  ∀ r c, PorFinality.finalized_prefix_checkpoint o r = Ok (Some c) →
    PorFinality.validate_finalized_prefix_checkpoint latest c = Ok tt.
Proof.
  intros Hwf Hu Ho. apply replayed_Ok in Ho as (lw & Hlw & Hle & Ho).
  pose proof Hlw as (Hwl & la & lr & Hla & _)%finalized_wave_Some.
  assert (PorFinality.finalized_wave_from_output bl o = Ok (Some w) ∧
    OrderedFinalizedOutput.blocks o `prefix_of` OrderedFinalizedOutput.blocks latest) as [Hw Hp].
  { destruct Ho as [[-> ->]|(leader & blocks & Hl & Hp & _ & ->)]; [done|]. split.
    - apply finalized_wave_Some. split; [done|].
      apply bind_Some in Hl as (leader' & Hl & Hf).
      destruct (Finality.is_weighted_final_leader _ _ _ _ _); [|done]. injection Hf as ->.
      destruct (leader_block_wave _ _ _ _ _ Hwf Hwl Hl) as (r & Hd & Hr). eauto 6.
    - cbn. replace (map consensus_identity blocks) with blocks; [done|].
      destruct Hp as [k Hk]. rewrite Hk, Forall_app in Hu. destruct Hu as [Hu _].
      symmetry. etrans; [|apply list_fmap_id]. apply list_fmap_ext. intros i x Hx.
      rewrite Forall_lookup in Hu. specialize (Hu i x Hx). by destruct x; cbn in *; subst. }
  split; [done|]. split; [by apply bool_decide_eq_true|]. intros r c Hc.
  pose proof Hw as (_ & a & _ & Ha & _)%finalized_wave_Some.
  assert (OrderedFinalizedOutput.anchor o ≠ None) as Ha' by (by rewrite Ha).
  destruct (checkpoint_terminal _ _ _ Ha' Hc) as (Hr & Hlen & _).
  apply validate_checkpoint_Ok. rewrite Hr. eapply checkpoint_prefix; [exact Ha'| |done|].
  - by rewrite Hla.
  - destruct Hp as [k ->]. by rewrite take_app_le by lia.
Qed.

(** Whatever outputs are observed, repeated, late, skipping waves or with
    conflicting leaders, the rounds that the tracker opens are the consecutive
    waves from the first finalized one to the highest one, each exactly once and
    in order. *)
Theorem every_wave_opens_once `{HO : HashOrder} obs :
  (observe_all PorFinality.Tracker.new obs).1 =
  match omap finalized_wave_of obs with
  | [] => []
  | first :: later => opened_waves first (foldl N.max first later)
  end.
Proof.
  induction obs as [|[bl output] obs IH]; [done|]. cbn [observe_all omap list_omap].
  destruct (PorFinality.Tracker.observe_finalized_output _ bl output) as [opened t] eqn:E.
  apply observe_first in E. destruct (finalized_wave_of (bl, output)) as [w|] eqn:Ew.
  - destruct E as [-> Ht]. apply finalized_wave_bound in Ew.
    destruct (observe_all t obs) as [later t'] eqn:Er.
    apply (observe_all_after _ _ _ _ _ Ht Ew) in Er as [-> _]. cbn [fst].
    apply opened_waves_app; [lia|]. apply foldl_max_spec. by left.
  - destruct E as [-> ->]. by destruct (observe_all PorFinality.Tracker.new obs).
Qed.

(** ** Instances *)

Lemma separates_twice `{Blake2b} inputs : NoDup (map blake2b256 inputs) → separates (inputs ++ inputs).
Proof.
  intros Hnd x y Hx Hy E.
  assert (x ∈ inputs ∧ y ∈ inputs) as [[i Hi]%list_elem_of_lookup [j Hj]%list_elem_of_lookup]
    by (apply elem_of_app in Hx, Hy; tauto).
  assert (i = j) as ->; [|congruence].
  apply (NoDup_lookup _ i j (blake2b256 x) Hnd); rewrite list_lookup_fmap, ?Hi, ?Hj; cbn; congruence.
Qed.

Lemma checkpoints_commit_to_the_prefix_witness :
  PorFinality.validate_finalized_prefix_checkpoint (sample_output 16) sample_checkpoint = Ok tt ↔
  take 16 (OrderedFinalizedOutput.blocks (sample_output 16)) =
    take 16 (OrderedFinalizedOutput.blocks (sample_output 17)).
Proof.
  apply (checkpoints_commit_to_the_prefix (sample_output 17) (sample_output 16) 1 sample_checkpoint).
  - discriminate.
  - discriminate.
  - vm_compute. reflexivity.
  - unfold identity_fits, fits. decided.
  - unfold identity_fits, fits. decided.
  - apply separates_twice. decided.
Defined.

Lemma replayed_output_is_the_prefix_of_its_wave_witness :
  @PorFinality.finalized_wave_from_output elements_order solo solo_replayed = Ok (Some 1%N) ∧
  OrderedFinalizedOutput.preserves_prefix solo_latest solo_replayed = true.
Proof.
  destruct (@replayed_output_is_the_prefix_of_its_wave elements_order _ solo solo_latest solo_bonds 1
    solo_replayed solo_well_formed) as (H1 & H2 & _).
  - decided.
  - vm_compute. reflexivity.
  - split; [exact H1|exact H2].
Defined.
