(* ===== verification/RatingWire.v ===== *)
(** * Rating envelopes

    [por/transport/wire.rs] and the encoders of [por/transport/mod.rs] of
    cordial-f1r3node-adapter: the bounded bytes that carry one signed rating,
    bound to a finalized wave (version 1) or to a finalized-prefix checkpoint
    (version 2). *)

From S2P Require Import Prelude Types Bytes PorTypes PorCommit PorMath PorMathFacts.
From stdpp Require Import options.

Inductive PorRatingWireError :=
  | EnvelopeTooLong (actual maximum : nat)
  | UnexpectedEnd
  | TrailingBytes
  | InvalidDomain
  | UnsupportedVersion (version : N)
  | InvalidRaterKeyLength (length : nat)
  | InvalidRecipientKeyLength (length : nat)
  | MissingReference
  | InvalidInteractionReferenceLength (length : nat)
  | MissingSignature
  | SignatureTooLong (actual maximum : nat)
  | FinalizedWaveRoundMismatch
  | InvalidSourceCheckpoint
  | SourceCheckpointRoundMismatch.

Module RatingWire.

Definition BLOCK_PRODUCTION_RATING_ENVELOPE_DOMAIN : list byte :=
  literal "cordial-por:block-production-rating-envelope".
Definition BLOCK_PRODUCTION_RATING_ENVELOPE_VERSION : N := 1.
Definition CHECKPOINT_RATING_ENVELOPE_VERSION : N := 2.
Definition COMPRESSED_SECP256K1_PUBLIC_KEY_LEN : nat := 33.
Definition UNCOMPRESSED_SECP256K1_PUBLIC_KEY_LEN : nat := 65.
Definition BLOCK_HASH_LEN : nat := 32.
Definition MAX_SECP256K1_DER_SIGNATURE_LEN : nat := 72.

Definition MAX_BLOCK_PRODUCTION_RATING_ENVELOPE_LEN : nat :=
  length BLOCK_PRODUCTION_RATING_ENVELOPE_DOMAIN + 2 + 8 + 8 + 2 +
  UNCOMPRESSED_SECP256K1_PUBLIC_KEY_LEN + 2 + UNCOMPRESSED_SECP256K1_PUBLIC_KEY_LEN + 8 +
  BLOCK_HASH_LEN + 2 + MAX_SECP256K1_DER_SIGNATURE_LEN.
Definition MAX_CHECKPOINT_RATING_ENVELOPE_LEN : nat :=
  MAX_BLOCK_PRODUCTION_RATING_ENVELOPE_LEN + 32.

(** ** Structural checks *)

Definition validate_public_key_length (bytes : list byte) : result unit nat :=
  if decide (length bytes = COMPRESSED_SECP256K1_PUBLIC_KEY_LEN ∨
             length bytes = UNCOMPRESSED_SECP256K1_PUBLIC_KEY_LEN)
  then Ok tt else Err (length bytes).

Definition validate_rating_fields (rating : RatingRecord) : result unit PorRatingWireError :=
  let? _ := map_err InvalidRaterKeyLength (validate_public_key_length (rater rating)) in
  let? _ := map_err InvalidRecipientKeyLength (validate_public_key_length (recipient rating)) in
  let? interaction_ref := ok_or (interaction_ref rating) MissingReference in
  bail (InvalidInteractionReferenceLength (length interaction_ref))
    when length interaction_ref ≠ BLOCK_HASH_LEN;
  bail MissingSignature when rating_signature rating = [];
  bail (SignatureTooLong (length (rating_signature rating)) MAX_SECP256K1_DER_SIGNATURE_LEN)
    when MAX_SECP256K1_DER_SIGNATURE_LEN < length (rating_signature rating);
  Ok tt.

Definition validate_rating_shape (finalized_wave : N) (rating : RatingRecord) :
    result unit PorRatingWireError :=
  bail FinalizedWaveRoundMismatch
    when checked_add u64_max finalized_wave 1 ≠ Some (rating_round rating);
  validate_rating_fields rating.

(** ** Encoding and decoding of the fields *)

(** [encode] unwraps the reference, which a validated envelope has. *)
Definition reference_of (rating : RatingRecord) : list byte := default [] (interaction_ref rating).

(** The domain and the version that open an envelope. *)
Definition read_opening (version : N) {A} (k : parser PorRatingWireError A) :
    parser PorRatingWireError A :=
  read domain := read_exact UnexpectedEnd (length BLOCK_PRODUCTION_RATING_ENVELOPE_DOMAIN) in
  if decide (domain ≠ BLOCK_PRODUCTION_RATING_ENVELOPE_DOMAIN) then parse_fail InvalidDomain else
  read found := read_uint UnexpectedEnd 2 in
  if decide (found ≠ version) then parse_fail (UnsupportedVersion found) else k.

(** The fields that both versions end with. *)
Definition rating_tail (rating : RatingRecord) : list byte :=
  u16_bytes (rater rating) ++ u16_bytes (recipient rating) ++ be64 (score rating) ++
  reference_of rating ++ u16_bytes (rating_signature rating).
Definition read_rating_tail (round : N) : parser PorRatingWireError RatingRecord :=
  read rater := read_u16_bytes UnexpectedEnd in
  read recipient := read_u16_bytes UnexpectedEnd in
  read score := read_uint UnexpectedEnd 8 in
  read interaction_ref := read_exact UnexpectedEnd BLOCK_HASH_LEN in
  read signature := read_u16_bytes UnexpectedEnd in
  parse_ret (mkRating round rater recipient score signature (Some interaction_ref)).

(** ** Version 1 *)

Module V1.

Record t := mk { finalized_wave : N; rating : RatingRecord }.

Definition new (finalized_wave : N) (rating : RatingRecord) : result t PorRatingWireError :=
  let? _ := validate_rating_shape finalized_wave rating in Ok (mk finalized_wave rating).

Definition encode (self : t) : list byte :=
  BLOCK_PRODUCTION_RATING_ENVELOPE_DOMAIN ++
  be_bytes 2 BLOCK_PRODUCTION_RATING_ENVELOPE_VERSION ++ be64 (finalized_wave self) ++
  be64 (rating_round (rating self)) ++ rating_tail (rating self).

Definition read_fields : parser PorRatingWireError (N * RatingRecord) :=
  read_opening BLOCK_PRODUCTION_RATING_ENVELOPE_VERSION
    (read finalized_wave := read_uint UnexpectedEnd 8 in
     read round := read_uint UnexpectedEnd 8 in
     read rating := read_rating_tail round in
     parse_ret (finalized_wave, rating)).

Definition decode (input : list byte) : result t PorRatingWireError :=
  bail (EnvelopeTooLong (length input) MAX_BLOCK_PRODUCTION_RATING_ENVELOPE_LEN)
    when MAX_BLOCK_PRODUCTION_RATING_ENVELOPE_LEN < length input;
  let? parsed := read_fields input in
  bail TrailingBytes when parsed.2 ≠ [];
  new parsed.1.1 parsed.1.2.

End V1.

(** ** Version 2 *)

Module V2.

Record t := mk { source : RatingSourceCheckpoint; rating : RatingRecord }.

Definition new (source : RatingSourceCheckpoint) (rating : RatingRecord) :
    result t PorRatingWireError :=
  let? _ := map_err (λ _, InvalidSourceCheckpoint) (validate_source source) in
  bail SourceCheckpointRoundMismatch when rating_round rating ≠ source_round source;
  let? _ := validate_rating_fields rating in
  Ok (mk source rating).

Definition encode (self : t) : list byte :=
  BLOCK_PRODUCTION_RATING_ENVELOPE_DOMAIN ++ be_bytes 2 CHECKPOINT_RATING_ENVELOPE_VERSION ++
  be64 (source_round (source self)) ++ be64 (finalized_prefix_len (source self)) ++
  vec_to_list (finalized_prefix_hash (source self)) ++ rating_tail (rating self).

Definition read_fields : parser PorRatingWireError (RatingSourceCheckpoint * RatingRecord) :=
  read_opening CHECKPOINT_RATING_ENVELOPE_VERSION
    (read round := read_uint UnexpectedEnd 8 in
     read prefix_len := read_uint UnexpectedEnd 8 in
     read prefix_hash := read_hash UnexpectedEnd in
     read rating := read_rating_tail round in
     parse_ret (mkSource round prefix_len prefix_hash, rating)).

Definition decode (input : list byte) : result t PorRatingWireError :=
  bail (EnvelopeTooLong (length input) MAX_CHECKPOINT_RATING_ENVELOPE_LEN)
    when MAX_CHECKPOINT_RATING_ENVELOPE_LEN < length input;
  let? parsed := read_fields input in
  bail TrailingBytes when parsed.2 ≠ [];
  new parsed.1.1 parsed.1.2.

End V2.
End RatingWire.

(** ** [por/transport/mod.rs]: batches *)

Inductive BatchEncodingError :=
  | InvalidBatchRound
  | InvalidCheckpointBatchRound
  | Wire (error : PorRatingWireError).

Definition encode_rating_batch (finalized_wave : N) (batch : RatingBatch) :
    result (list (list byte)) BatchEncodingError :=
  bail InvalidBatchRound when checked_add u64_max finalized_wave 1 ≠ Some (batch_round batch);
  try_map (λ rating,
    let? envelope := map_err Wire (RatingWire.V1.new finalized_wave rating) in
    Ok (RatingWire.V1.encode envelope)) (batch_ratings batch).

Definition encode_checkpoint_rating_batch (source : RatingSourceCheckpoint) (batch : RatingBatch) :
    result (list (list byte)) BatchEncodingError :=
  let? _ := map_err (λ _, Wire InvalidSourceCheckpoint) (validate_source source) in
  bail InvalidCheckpointBatchRound when batch_round batch ≠ source_round source;
  try_map (λ rating,
    let? envelope := map_err Wire (RatingWire.V2.new source rating) in
    Ok (RatingWire.V2.encode envelope)) (batch_ratings batch).

(** ** The rating envelopes are exact

    The decoders accept precisely the encodings of the valid envelopes, which
    never exceed the size limit. *)

Import RatingWire.

(** The fields that the encoding of a rating does not lose. *)
Definition typed_rating (r : RatingRecord) : Prop :=
  fits_u64 (score r) ∧
  (N.of_nat (length (rater r)) < 65536)%N ∧ (N.of_nat (length (recipient r)) < 65536)%N ∧
  (N.of_nat (length (rating_signature r)) < 65536)%N ∧
  ∃ reference, interaction_ref r = Some reference ∧ length reference = BLOCK_HASH_LEN.

Lemma exact_rating_tail round :
  exact (read_rating_tail round) rating_tail (λ r, rating_round r = round ∧ typed_rating r).
Proof.
  intros input r rest. unfold read_rating_tail, rating_tail. split.
  - intros Hp. invert_parse Hp. injection Hp as <- <-.
    apply exact_u16_bytes in Hread as [? ->], Hread0 as [? ->]. apply exact_u64 in Hread1 as [? ->].
    apply exact_exact in Hread2 as [? ->]. apply exact_u16_bytes in Hread3 as [? ->].
    unfold typed_rating, reference_of. cbn. rewrite <-!app_assoc. naive_solver.
  - intros [(Hr & Hs & Hra & Hre & Hsig & reference & Href & Hlen) ->]. unfold reference_of.
    rewrite Href. cbn [default from_option]. rewrite <-!app_assoc.
    rewrite (exact_run _ _ _ _ _ _ (exact_u16_bytes UnexpectedEnd)) by done.
    rewrite (exact_run _ _ _ _ _ _ (exact_u16_bytes UnexpectedEnd)) by done.
    rewrite (exact_run _ _ _ _ _ _ (exact_u64 UnexpectedEnd)) by done.
    rewrite (exact_run _ id _ _ reference _ (exact_exact UnexpectedEnd BLOCK_HASH_LEN)) by done.
    rewrite (exact_run _ _ _ _ _ _ (exact_u16_bytes UnexpectedEnd)) by done. destruct r; cbn in *. by subst.
Qed.

Lemma exact_opening {A} version (k : parser PorRatingWireError A) enc wt :
  (version < 65536)%N → exact k enc wt →
  exact (read_opening version k)
    (λ x, BLOCK_PRODUCTION_RATING_ENVELOPE_DOMAIN ++ be_bytes 2 version ++ enc x) wt.
Proof.
  intros Hv Hk input x rest. unfold read_opening. split.
  - intros Hp. invert_parse Hp. apply exact_exact in Hread as [_ ->].
    apply exact_uint in Hread0 as [_ ->]. apply Hk in Hp as [Hx ->]. split; [done|].
    assert (x0 = BLOCK_PRODUCTION_RATING_ENVELOPE_DOMAIN) as -> by (by apply dec_stable).
    assert (x1 = version) as -> by (by apply dec_stable). unfold id. by rewrite <-!app_assoc.
  - intros [Hx ->]. rewrite <-!app_assoc.
    rewrite (exact_run _ id _ _ BLOCK_PRODUCTION_RATING_ENVELOPE_DOMAIN _
      (exact_exact UnexpectedEnd _)) by done.
    rewrite decide_False by tauto.
    rewrite (exact_run _ _ _ _ _ _ (exact_uint UnexpectedEnd 2)) by done.
    rewrite decide_False by tauto. by apply Hk.
Qed.

Lemma exact_v1 :
  exact V1.read_fields (λ e, V1.encode (V1.mk e.1 e.2))
    (λ e, fits_u64 e.1 ∧ fits_u64 (rating_round e.2) ∧ typed_rating e.2).
Proof.
  apply exact_opening; [done|]. intros input [wave r] rest. cbn [fst snd V1.finalized_wave V1.rating].
  split.
  - intros Hp. invert_parse Hp. injection Hp as <- <- <-.
    apply exact_u64 in Hread as [? ->], Hread0 as [? ->].
    apply exact_rating_tail in Hread1 as [[-> ?] ->]. by rewrite <-!app_assoc.
  - intros [(Hw & Hr & Ht) ->]. rewrite <-!app_assoc.
    rewrite (exact_run _ _ _ _ _ _ (exact_u64 UnexpectedEnd)) by done.
    rewrite (exact_run _ _ _ _ _ _ (exact_u64 UnexpectedEnd)) by done.
    by rewrite (exact_run _ _ _ _ _ _ (exact_rating_tail (rating_round r))) by done.
Qed.

Lemma exact_v2 :
  exact V2.read_fields (λ e, V2.encode (V2.mk e.1 e.2))
    (λ e, fits_u64 (source_round e.1) ∧ fits_u64 (finalized_prefix_len e.1) ∧
      rating_round e.2 = source_round e.1 ∧ typed_rating e.2).
Proof.
  apply exact_opening; [done|]. intros input [s r] rest. cbn [fst snd V2.source V2.rating].
  split.
  - intros Hp. invert_parse Hp. injection Hp as <- <- <-.
    apply exact_u64 in Hread as [? ->], Hread0 as [? ->]. apply exact_hash in Hread1 as [_ ->].
    apply exact_rating_tail in Hread2 as [[? ?] ->]. by rewrite <-!app_assoc.
  - intros [(Hw & Hl & Hr & Ht) ->]. rewrite <-!app_assoc.
    rewrite (exact_run _ _ _ _ _ _ (exact_u64 UnexpectedEnd)) by done.
    rewrite (exact_run _ _ _ _ _ _ (exact_u64 UnexpectedEnd)) by done.
    rewrite (exact_run _ _ _ _ _ _ (exact_hash UnexpectedEnd)) by done.
    rewrite (exact_run _ _ _ _ _ _ (exact_rating_tail (source_round s))) by done. by destruct s.
Qed.

(** ** Validation *)

Lemma validate_fields_Ok r :
  validate_rating_fields r = Ok tt ↔
  length (rater r) ∈ [33; 65] ∧ length (recipient r) ∈ [33; 65] ∧
  (∃ reference, interaction_ref r = Some reference ∧ length reference = BLOCK_HASH_LEN) ∧
  rating_signature r ≠ [] ∧ length (rating_signature r) <= MAX_SECP256K1_DER_SIGNATURE_LEN.
Proof.
  assert (∀ (f : nat → PorRatingWireError) l,
    map_err f (validate_public_key_length l) = Ok tt ↔ length l ∈ [33; 65]) as Hkey.
  { intros f l. rewrite map_err_Ok. unfold validate_public_key_length.
    case_decide as Hl; [|split; [done|set_solver]]. split; [intros _|done].
    unfold COMPRESSED_SECP256K1_PUBLIC_KEY_LEN, UNCOMPRESSED_SECP256K1_PUBLIC_KEY_LEN in Hl.
    destruct Hl as [-> | ->]; set_solver. }
  unfold validate_rating_fields. split.
  - intros Hv. invert_Ok Hv. apply Hkey in Hok, Hok0. apply ok_or_Ok in Hok1.
    split_and!; [done..| |done|lia]. exists x. split; [done|]. by apply dec_stable.
  - intros (H1 & H2 & (l & Hl & Hlen) & Hs & Hsl).
    rewrite (proj2 (Hkey _ _) H1), (proj2 (Hkey _ _) H2), Hl. cbn [result_bind ok_or].
    rewrite decide_False by tauto. rewrite decide_False by done. by rewrite decide_False by lia.
Qed.

Lemma valid_rating_typed r :
  validate_rating_fields r = Ok tt → fits_u64 (score r) → typed_rating r.
Proof.
  intros (Hra & Hre & Hr & _ & Hs)%validate_fields_Ok Hscore.
  change MAX_SECP256K1_DER_SIGNATURE_LEN with 72 in Hs.
  assert (∀ n, n ∈ [33; 65] → (N.of_nat n < 65536)%N) as Hkey.
  { intros n Hn. repeat apply elem_of_cons in Hn as [->|Hn]; [lia..|by apply elem_of_nil in Hn]. }
  split_and!; [done|by apply Hkey..|lia|done].
Qed.

Lemma length_rating_tail r :
  validate_rating_fields r = Ok tt → length (rating_tail r) <= 2 + 65 + 2 + 65 + 8 + 32 + 2 + 72.
Proof.
  intros (Hra & Hre & (l & Hl & Hlen) & _ & Hs)%validate_fields_Ok.
  change MAX_SECP256K1_DER_SIGNATURE_LEN with 72 in Hs. change BLOCK_HASH_LEN with 32 in Hlen.
  unfold rating_tail, reference_of. rewrite Hl, !length_app, !length_u16_bytes, length_be_bytes.
  cbn [default from_option]. assert (∀ n, n ∈ [33; 65] → n <= 65) as Hkey.
  { intros n Hn. repeat apply elem_of_cons in Hn as [->|Hn]; [lia..|by apply elem_of_nil in Hn]. }
  apply Hkey in Hra, Hre. unfold id in *. lia.
Qed.

Lemma v1_new_Ok wave r e :
  V1.new wave r = Ok e ↔
  e = V1.mk wave r ∧ rating_round r = (wave + 1)%N ∧ (wave + 1 <= u64_max)%N ∧
  validate_rating_fields r = Ok tt.
Proof.
  unfold V1.new, validate_rating_shape. rewrite result_bind_Ok. setoid_rewrite bail_Ok. split.
  - intros ([] & [Hr%dec_stable Hv] & [= <-]). by apply checked_add_Some in Hr as [-> ?].
  - intros (-> & Hr & Hw & Hv). exists tt. rewrite Hr, checked_add_fits by done. tauto.
Qed.
Lemma v2_new_Ok source r e :
  V2.new source r = Ok e ↔
  e = V2.mk source r ∧ rating_round r = source_round source ∧ validate_source source = Ok tt ∧
  validate_rating_fields r = Ok tt.
Proof.
  unfold V2.new. split.
  - intros Hn. apply result_bind_Ok in Hn as ([] & Hs%map_err_Ok & Hn).
    apply bail_Ok in Hn as [Hr%dec_stable Hn]. apply result_bind_Ok in Hn as ([] & Hv & [= <-]). done.
  - intros (-> & Hr & Hs & Hv). rewrite Hs. cbn [map_err result_bind].
    rewrite decide_False by tauto. by rewrite Hv.
Qed.

Lemma validate_source_Ok s :
  validate_source s = Ok tt ↔
  source_round s ≠ 0%N ∧ finalized_prefix_len s = (source_round s * 16)%N ∧
  (source_round s * 16 <= u64_max)%N.
Proof.
  unfold validate_source. rewrite bail_Ok. change POR_FINALIZED_BLOCKS_PER_CHECKPOINT with 16%N.
  split.
  - intros [[Hz Hm]%Decidable.not_or _]. apply dec_stable, checked_mul_Some in Hm as [-> ?]. done.
  - intros (Hz & -> & Hb). split; [|done]. rewrite checked_mul_fits by done. tauto.
Qed.

(** ** The codecs *)

Lemma v1_decode_Ok input e :
  V1.decode input = Ok e ↔
  V1.new (V1.finalized_wave e) (V1.rating e) = Ok e ∧ fits_u64 (score (V1.rating e)) ∧
  input = V1.encode e.
Proof.
  unfold V1.decode. rewrite bail_Ok, result_bind_Ok. setoid_rewrite bail_Ok. split.
  - intros (_ & [[w r] rest] & ((Hw & _ & Hs & _) & ->)%exact_v1 & Hrest & Hn). cbn in *.
    assert (rest = []) as -> by (by apply dec_stable). rewrite app_nil_r.
    pose proof Hn as (-> & _)%v1_new_Ok. done.
  - intros (Hn & Hs & ->). destruct e as [w r]. cbn [V1.finalized_wave V1.rating] in *.
    pose proof Hn as (_ & Hr & Hb & Hv)%v1_new_Ok. split.
    + unfold V1.encode. rewrite !length_app, !length_be_bytes. cbn [V1.rating].
      pose proof (length_rating_tail _ Hv). unfold MAX_BLOCK_PRODUCTION_RATING_ENVELOPE_LEN.
      unfold UNCOMPRESSED_SECP256K1_PUBLIC_KEY_LEN, BLOCK_HASH_LEN, MAX_SECP256K1_DER_SIGNATURE_LEN.
      lia.
    + exists ((w, r), []). split_and!; [|tauto|done]. apply exact_v1. cbn [fst snd].
      rewrite app_nil_r. split_and!; [| |by apply valid_rating_typed|done]; unfold fits_u64; lia.
Qed.

Lemma v2_decode_Ok input e :
  V2.decode input = Ok e ↔
  V2.new (V2.source e) (V2.rating e) = Ok e ∧ fits_u64 (score (V2.rating e)) ∧
  input = V2.encode e.
Proof.
  unfold V2.decode. rewrite bail_Ok, result_bind_Ok. setoid_rewrite bail_Ok. split.
  - intros (_ & [[s r] rest] & ((_ & _ & _ & Hs & _) & ->)%exact_v2 & Hrest & Hn). cbn in *.
    assert (rest = []) as -> by (by apply dec_stable). rewrite app_nil_r.
    pose proof Hn as (-> & _)%v2_new_Ok. done.
  - intros (Hn & Hs & ->). destruct e as [s r]. cbn [V2.source V2.rating] in *.
    pose proof Hn as (_ & Hr & (Hz & Hl & Hb)%validate_source_Ok & Hv)%v2_new_Ok. split.
    + unfold V2.encode. rewrite !length_app, !length_be_bytes, length_vec_to_list.
      cbn [V2.rating V2.source]. pose proof (length_rating_tail _ Hv).
      unfold MAX_CHECKPOINT_RATING_ENVELOPE_LEN, MAX_BLOCK_PRODUCTION_RATING_ENVELOPE_LEN.
      unfold UNCOMPRESSED_SECP256K1_PUBLIC_KEY_LEN, BLOCK_HASH_LEN, MAX_SECP256K1_DER_SIGNATURE_LEN.
      lia.
    + exists ((s, r), []). split_and!; [|tauto|done]. apply exact_v2. cbn [fst snd].
      rewrite app_nil_r. split_and!; [| |done|by apply valid_rating_typed|done]; unfold fits_u64; lia.
Qed.

(** ** Batches *)

Lemma encoded_v1_decodes wave batch envelopes :
  encode_rating_batch wave batch = Ok envelopes →
  Forall (λ r, fits_u64 (score r)) (batch_ratings batch) →
  Forall2 (λ r bytes, V1.decode bytes = Ok (V1.mk wave r)) (batch_ratings batch) envelopes.
Proof.
  unfold encode_rating_batch. rewrite bail_Ok, try_map_Ok. intros [_ He] Hs.
  induction He as [|r bytes rs bs Hr _ IH]; [constructor|]. apply Forall_cons in Hs as [Hs1 Hs].
  constructor; [|by apply IH]. apply result_bind_Ok in Hr as (e & Hn%map_err_Ok & [= <-]).
  pose proof Hn as (-> & _)%v1_new_Ok. by apply v1_decode_Ok.
Qed.
Lemma encoded_v2_decodes source batch envelopes :
  encode_checkpoint_rating_batch source batch = Ok envelopes →
  Forall (λ r, fits_u64 (score r)) (batch_ratings batch) →
  Forall2 (λ r bytes, V2.decode bytes = Ok (V2.mk source r)) (batch_ratings batch) envelopes.
Proof.
  unfold encode_checkpoint_rating_batch.
  intros (_ & _ & [_ He%try_map_Ok]%bail_Ok)%result_bind_Ok Hs.
  induction He as [|r bytes rs bs Hr _ IH]; [constructor|]. apply Forall_cons in Hs as [Hs1 Hs].
  constructor; [|by apply IH]. apply result_bind_Ok in Hr as (e & Hn%map_err_Ok & [= <-]).
  pose proof Hn as (-> & _)%v2_new_Ok. by apply v2_decode_Ok.
Qed.
