(* ===== verification/RatingFlow.v ===== *)
(** * From finalized blocks to signed ratings

    [por/interactions.rs] and [por/ratings.rs] of cordial-f1r3node-adapter: the
    block-production evidence of a finalized wave or of a checkpoint window,
    its admission, and the ratings that are scored, signed and verified from
    it. *)

From S2P Require Import Prelude Types Lace Bytes Crypto Rounds PorTypes PorMath PorCommit.
From S2P Require Import PorAudit PorState FinalOutput.
From stdpp Require Import options.

(** ** [por/interactions.rs] *)

Module FinalizedInteractions.

Inductive PorInteractionError :=
  | MissingFinalLeader
  | InvalidWavelength
  | UnknownFinalLeader
  | UnknownFinalizedBlock
  | FinalizedRoundMismatch
  | Checkpoint (error : PorFinalityError)
  | RatingRound (error : PorError)
  | Admission (error : PorError).

(** [entry(..).and_modify(..).or_insert(..)]: the least block of each creator. *)
Definition keep_least (canonical_blocks : gmap NodeId BlockIdentity) (block : BlockIdentity) :
    gmap NodeId BlockIdentity :=
  <[creator block :=
      match canonical_blocks !! creator block with
      | Some canonical => if decide (ord_lt block canonical) then block else canonical
      | None => block
      end]> canonical_blocks.

Section interactions.
Context `{HO : HashOrder} `{Blake2b}.
Implicit Types (bl : Blocklace.t) (output : OrderedFinalizedOutput.t) (state : ReputationState.t).

Definition validate_finalized_rating_round bl output (opened : FinalizedRatingRound) :
    result unit PorInteractionError :=
  let? final_leader := ok_or (OrderedFinalizedOutput.anchor output) MissingFinalLeader in
  bail InvalidWavelength when OrderedFinalizedOutput.wavelength output = 0%N;
  let? leader_round := ok_or (Round.depth bl final_leader) UnknownFinalLeader in
  let? finalized_wave := ok_or (Wave.wave_of_round leader_round
    (OrderedFinalizedOutput.wavelength output)) InvalidWavelength in
  let? expected_rating_round :=
    map_err RatingRound (Ratings.rating_round_from_finalized_wave finalized_wave) in
  bail FinalizedRoundMismatch
    when finalized_wave ≠ opened_wave opened ∨ expected_rating_round ≠ rating_round_of opened;
  Ok tt.

(** One iteration of the selection of a wave's blocks. *)
Definition select_wave_block bl output (opened : FinalizedRatingRound) (rater : NodeId)
    (canonical_blocks : gmap NodeId BlockIdentity) (block : BlockIdentity) :
    result (gmap NodeId BlockIdentity) PorInteractionError :=
  let? block_round := ok_or (Round.depth bl block) UnknownFinalizedBlock in
  let? block_wave := ok_or (Wave.wave_of_round block_round
    (OrderedFinalizedOutput.wavelength output)) InvalidWavelength in
  if decide (block_wave ≠ opened_wave opened ∨ creator block = rater) then Ok canonical_blocks
  else Ok (keep_least canonical_blocks block).

Definition extract_block_production_evidence bl output (opened : FinalizedRatingRound)
    (rater : NodeId) : result (list InteractionEvidence) PorInteractionError :=
  let? _ := validate_finalized_rating_round bl output opened in
  let? canonical_blocks := try_fold (select_wave_block bl output opened rater) ∅
    (OrderedFinalizedOutput.blocks output) in
  Ok (map (λ e : NodeId * BlockIdentity,
    mkInteraction (opened_wave opened) (rating_round_of opened) BlockProduction rater e.1
      (vec_to_list (content_hash e.2))) (btree_map_iter canonical_blocks)).

Definition is_active_recipient state (recipient : NodeId) : bool :=
  Interactions.state_contains state recipient && negb (ReputationState.is_ejected state recipient).

Definition admit_finalized_block_production_interactions bl output
    (opened : FinalizedRatingRound) (rater : NodeId) state :
    result (list Interactions.AdmittedInteraction) PorInteractionError :=
  let? evidence := extract_block_production_evidence bl output opened rater in
  try_map (λ evidence, map_err Admission (Interactions.admit_interaction_evidence evidence state))
    (filter (λ evidence, is_active_recipient state (interaction_recipient evidence) = true)
      evidence).

(** [&output.blocks[end - 16..end]]. *)
Definition checkpoint_window output (checkpoint : FinalizedPrefixCheckpoint) :
    list BlockIdentity :=
  let last := N.to_nat (prefix_len checkpoint) in
  let window_len := N.to_nat POR_FINALIZED_BLOCKS_PER_CHECKPOINT in
  take window_len (drop (last - window_len) (OrderedFinalizedOutput.blocks output)).

Definition validate_finalized_checkpoint_window bl output
    (checkpoint : FinalizedPrefixCheckpoint) : result unit PorInteractionError :=
  let? _ := map_err Checkpoint
    (PorFinality.validate_finalized_prefix_checkpoint output checkpoint) in
  let? finalized_wave :=
    map_err Checkpoint (PorFinality.finalized_wave_from_output bl output) in
  bail MissingFinalLeader when finalized_wave = None;
  try_fold (λ _ block, let? _ := ok_or (Round.depth bl block) UnknownFinalizedBlock in Ok tt) tt
    (checkpoint_window output checkpoint).

Definition extract_checkpoint_block_production_evidence bl output
    (checkpoint : FinalizedPrefixCheckpoint) (rater : NodeId) :
    result (list CheckpointInteractionEvidence) PorInteractionError :=
  let? _ := validate_finalized_checkpoint_window bl output checkpoint in
  let canonical_blocks := foldl (λ canonical_blocks block,
    if decide (creator block = rater) then canonical_blocks
    else keep_least canonical_blocks block) ∅ (checkpoint_window output checkpoint) in
  Ok (map (λ e : NodeId * BlockIdentity,
    mkCheckpointInteraction (PorFinality.rating_source checkpoint) BlockProduction rater e.1
      (vec_to_list (content_hash e.2))) (btree_map_iter canonical_blocks)).

Definition admit_checkpoint_block_production_interactions bl output
    (checkpoint : FinalizedPrefixCheckpoint) (rater : NodeId) state :
    result (list Interactions.AdmittedCheckpointInteraction) PorInteractionError :=
  let? evidence := extract_checkpoint_block_production_evidence bl output checkpoint rater in
  try_map (λ evidence,
    map_err Admission (Interactions.admit_checkpoint_interaction_evidence evidence state))
    (filter (λ evidence, is_active_recipient state (checkpoint_recipient evidence) = true)
      evidence).

End interactions.
End FinalizedInteractions.

(** ** [por/ratings.rs] *)

(** [Secp256k1Scheme::sign]: the hash and the private key. *)
Class Secp256k1Sign := secp_sign : Hash32 → list byte → result (list byte) string.

Module SignedRatings.

Inductive PorRatingError :=
  | Interaction (error : FinalizedInteractions.PorInteractionError)
  | Protocol (error : PorError)
  | Signing (message : string)
  | InvalidSignature
  | RatingAlreadySigned.

Definition require_interaction_reference (rating : RatingRecord) : result unit PorRatingError :=
  match interaction_ref rating with
  | Some reference =>
    bail (Protocol MissingInteractionReference) when reference = []; Ok tt
  | None => Err (Protocol MissingInteractionReference)
  end.

Definition with_signature (rating : RatingRecord) (signature : list byte) : RatingRecord :=
  mkRating (rating_round rating) (rater rating) (recipient rating) (score rating) signature
    (interaction_ref rating).

Section ratings.
Context `{HO : HashOrder} `{Blake2b} `{Secp256k1}.
Implicit Types (bl : Blocklace.t) (output : OrderedFinalizedOutput.t) (state : ReputationState.t)
  (rating : RatingRecord) (config : PorConfig.t) (source : RatingSourceCheckpoint).

Definition rating_signing_hash rating : result Hash32 PorRatingError :=
  let? _ := require_interaction_reference rating in
  Ok (blake2b256 (Payload.canonical_rating_payload rating)).

Definition checkpoint_rating_signing_hash rating source : result Hash32 PorRatingError :=
  let? _ := require_interaction_reference rating in
  let? payload := map_err Protocol (Payload.canonical_checkpoint_rating_payload rating source) in
  Ok (blake2b256 payload).

Definition verify_rating_signature rating : result unit PorRatingError :=
  let? signing_hash := rating_signing_hash rating in
  if Crypto.verify signing_hash (rater rating) (rating_signature rating) then Ok tt
  else Err InvalidSignature.

Definition verify_checkpoint_rating_signature rating source : result unit PorRatingError :=
  let? signing_hash := checkpoint_rating_signing_hash rating source in
  if Crypto.verify signing_hash (rater rating) (rating_signature rating) then Ok tt
  else Err InvalidSignature.

Definition validate_signed_rating rating config : result unit PorRatingError :=
  let? _ := map_err Protocol (Ratings.validate_rating rating config) in
  verify_rating_signature rating.

Definition validate_checkpoint_signed_rating rating source config : result unit PorRatingError :=
  let? _ := map_err Protocol (Ratings.validate_rating rating config) in
  verify_checkpoint_rating_signature rating source.

Definition build_verified_rating_batch (round : N) (ratings : list RatingRecord) config :
    result RatingBatch PorRatingError :=
  let? _ := try_fold (λ _ rating, validate_signed_rating rating config) tt ratings in
  map_err Protocol (Ratings.build_rating_batch round ratings config).

Definition build_verified_checkpoint_rating_batch source (ratings : list RatingRecord) config :
    result RatingBatch PorRatingError :=
  let? _ := map_err Protocol (validate_source source) in
  let? _ := try_fold (λ _ rating, validate_checkpoint_signed_rating rating source config) tt
    ratings in
  map_err Protocol (Ratings.build_rating_batch (source_round source) ratings config).

(** ** Signing *)

Context `{Secp256k1Sign}.

Definition sign_admitted_interaction (interaction : Interactions.AdmittedInteraction) config
    (private_key : list byte) : result RatingRecord PorRatingError :=
  let evidence := Interactions.admitted_evidence interaction in
  let? score := map_err Protocol (Interactions.score_admitted_interaction interaction config) in
  let unsigned := mkRating (interaction_round evidence) (interaction_rater evidence)
    (interaction_recipient evidence) score [] (Some (evidence_ref evidence)) in
  let? signing_hash := rating_signing_hash unsigned in
  let? signature := map_err Signing (secp_sign signing_hash private_key) in
  let? rating := map_err Protocol
    (Interactions.build_rating_from_interaction interaction signature config) in
  let? _ := verify_rating_signature rating in
  Ok rating.

Definition sign_checkpoint_rating rating source config (private_key : list byte) :
    result RatingRecord PorRatingError :=
  bail RatingAlreadySigned when rating_signature rating ≠ [];
  let? signing_hash := checkpoint_rating_signing_hash rating source in
  let? signature := map_err Signing (secp_sign signing_hash private_key) in
  let rating := with_signature rating signature in
  let? _ := validate_checkpoint_signed_rating rating source config in
  Ok rating.

Definition build_finalized_block_production_rating_batch bl output
    (opened : FinalizedRatingRound) (rater : NodeId) state config (private_key : list byte) :
    result RatingBatch PorRatingError :=
  let? admitted := map_err Interaction
    (FinalizedInteractions.admit_finalized_block_production_interactions bl output opened rater
      state) in
  let? ratings := try_map (λ interaction, sign_admitted_interaction interaction config private_key)
    admitted in
  build_verified_rating_batch (rating_round_of opened) ratings config.

(** The rating of one admitted checkpoint interaction, before it is signed. *)
Definition checkpoint_rating (interaction : Interactions.AdmittedCheckpointInteraction) source
    config : result RatingRecord PorRatingError :=
  let evidence := Interactions.admitted_checkpoint_evidence interaction in
  let? score := map_err Protocol
    (Interactions.score_admitted_checkpoint_interaction interaction config) in
  Ok (mkRating (source_round source) (checkpoint_rater evidence) (checkpoint_recipient evidence)
        score [] (Some (checkpoint_evidence_ref evidence))).

Definition build_finalized_checkpoint_rating_batch bl output
    (checkpoint : FinalizedPrefixCheckpoint) (rater : NodeId) state config
    (private_key : list byte) : result RatingBatch PorRatingError :=
  let source := PorFinality.rating_source checkpoint in
  let? _ := map_err Protocol (Interactions.validate_checkpoint_rater source rater state) in
  let? admitted := map_err Interaction
    (FinalizedInteractions.admit_checkpoint_block_production_interactions bl output checkpoint
      rater state) in
  let? ratings := try_map (λ interaction,
    let? rating := checkpoint_rating interaction source config in
    sign_checkpoint_rating rating source config private_key) admitted in
  build_verified_checkpoint_rating_batch source ratings config.

End ratings.
End SignedRatings.
