(* ===== verification/Collector.v ===== *)
(** * Evidence-backed collection of ratings

    [por/collector.rs] of cordial-f1r3node-adapter.  The collectors of a wave
    and of a checkpoint differ in who may rate, in what a signature covers and
    in where the expected interactions come from; the rest is written once,
    over a record of those differences.  An operation that fails leaves its
    collector as it was. *)

From S2P Require Import Prelude Types Lace Bytes Crypto PorTypes PorMath PorCommit PorState.
From S2P Require Import FinalOutput RatingFlow RatingWire.
From stdpp Require Import options.

Inductive PorRatingCollectorError :=
  | Interaction (error : FinalizedInteractions.PorInteractionError)
  | Rating (error : SignedRatings.PorRatingError)
  | InvalidStateRound
  | InvalidFinalizedWave
  | InvalidCheckpointSource
  | NoAuthorizedRaters
  | UnauthorizedRater (rater : NodeId)
  | InvalidRatingRound
  | InvalidBatchRound
  | MissingFinalizedInteraction
  | InteractionReferenceMismatch
  | ScoreMismatch
  | DuplicateRating
  | ConflictingRating.

(** [BTreeMap<(NodeId, NodeId), RatingRecord>], keyed by rater and recipient. *)
Abbreviation Collected := (gmap (NodeId * NodeId) RatingRecord).
Definition rating_key (rating : RatingRecord) : NodeId * NodeId := (rater rating, recipient rating).
(** [ratings.values()]. *)
Definition collected_values (ratings : Collected) : list RatingRecord :=
  (btree_map_iter ratings).*2.

(** What the two collectors do differently. *)
Record RatingPolicy := mkPolicy {
  interaction : Type;
  policy_round : N;
  authorize : NodeId → result unit PorRatingCollectorError;
  may_complete : NodeId → result unit PorRatingCollectorError;
  validate_signed : RatingRecord → result unit SignedRatings.PorRatingError;
  admitted : NodeId → result (list interaction) FinalizedInteractions.PorInteractionError;
  recipient_of : interaction → NodeId;
  reference_of : interaction → list byte;
  score_of : interaction → result N PorError;
  build_verified : list RatingRecord → result RatingBatch SignedRatings.PorRatingError
}.

Module Collector.
Section collector.
Context (p : RatingPolicy).
Implicit Types (ratings accepted : Collected) (rating : RatingRecord).

Definition is_rater_complete ratings (rater : NodeId) : result bool PorRatingCollectorError :=
  let? _ := authorize p rater in
  let? _ := may_complete p rater in
  let? expected := map_err Interaction (admitted p rater) in
  let collected := length (filter (λ rating, PorTypes.rater rating = rater)
    (collected_values ratings)) in
  Ok (bool_decide (collected = length expected)).

Definition validate_submission accepted rating : result unit PorRatingCollectorError :=
  bail InvalidRatingRound when rating_round rating ≠ policy_round p;
  let? _ := authorize p (rater rating) in
  let? _ := map_err Rating (validate_signed p rating) in
  match accepted !! rating_key rating with
  | Some existing =>
    if decide (Payload.canonical_rating_payload existing = Payload.canonical_rating_payload rating)
    then Err DuplicateRating
    else Err ConflictingRating
  | None =>
    let? admitted := map_err Interaction (admitted p (rater rating)) in
    let? interaction := ok_or
      (List.find (λ i, bool_decide (recipient_of p i = recipient rating)) admitted)
      MissingFinalizedInteraction in
    bail InteractionReferenceMismatch
      when interaction_ref rating ≠ Some (reference_of p interaction);
    let? expected_score := map_err (λ e, Rating (SignedRatings.Protocol e))
      (score_of p interaction) in
    bail ScoreMismatch when score rating ≠ expected_score;
    Ok tt
  end.

Definition insert ratings rating : result Collected PorRatingCollectorError :=
  let? _ := validate_submission ratings rating in
  Ok (<[rating_key rating:=rating]> ratings).

Definition insert_batch ratings (batch : RatingBatch) : result Collected PorRatingCollectorError :=
  bail InvalidBatchRound when batch_round batch ≠ policy_round p;
  try_fold (λ staged rating,
    let? _ := validate_submission staged rating in
    Ok (<[rating_key rating:=rating]> staged)) ratings (batch_ratings batch).

Definition build_batch ratings : result RatingBatch PorRatingCollectorError :=
  map_err Rating (build_verified p (collected_values ratings)).

(** The raters of the collected ratings whose batches are complete. *)
Definition complete_raters ratings : result (gset NodeId) PorRatingCollectorError :=
  try_fold (λ complete_raters rater,
    let? complete := is_rater_complete ratings rater in
    Ok (if complete : bool then {[rater]} ∪ complete_raters else complete_raters)) ∅
    (btree_iter (list_to_set (map rater (collected_values ratings)))).

Definition build_complete_batch ratings : result RatingBatch PorRatingCollectorError :=
  let? complete_raters := complete_raters ratings in
  map_err Rating (build_verified p
    (filter (λ rating, rater rating ∈ complete_raters) (collected_values ratings))).

(** [for rater in ..{ if !is_rater_complete(rater)? { return Ok(false) } }]. *)
Fixpoint all_complete ratings (raters : list NodeId) : result bool PorRatingCollectorError :=
  match raters with
  | [] => Ok true
  | rater :: raters =>
    let? complete := is_rater_complete ratings rater in
    if complete : bool then all_complete ratings raters else Ok false
  end.

End collector.
End Collector.

(** ** [BlockProductionRatingCollector] *)

Module BlockProductionRatingCollector.

Record t := mk {
  blocklace : Blocklace.t;
  output : OrderedFinalizedOutput.t;
  opened : FinalizedRatingRound;
  state : ReputationState.t;
  config : PorConfig.t;
  ratings : Collected
}.

Definition with_ratings (self : t) (ratings : Collected) : t :=
  mk (blocklace self) (output self) (opened self) (state self) (config self) ratings.
Definition updated {E} (self : t) (r : result Collected E) : result t E :=
  let? ratings := r in Ok (with_ratings self ratings).

Definition round (self : t) : N := rating_round_of (opened self).
Definition len (self : t) : nat := size (ratings self).
Definition is_empty (self : t) : bool := bool_decide (ratings self = ∅).

Section collector.
Context `{HO : HashOrder} `{Blake2b} `{Secp256k1}.

Definition policy (self : t) : RatingPolicy :=
  {| interaction := Interactions.AdmittedInteraction;
     policy_round := rating_round_of (opened self);
     authorize _ := Ok tt;
     may_complete _ := Ok tt;
     validate_signed rating := SignedRatings.validate_signed_rating rating (config self);
     admitted rater := FinalizedInteractions.admit_finalized_block_production_interactions
       (blocklace self) (output self) (opened self) rater (state self);
     recipient_of i := interaction_recipient (Interactions.admitted_evidence i);
     reference_of i := evidence_ref (Interactions.admitted_evidence i);
     score_of i := Interactions.score_admitted_interaction i (config self);
     build_verified ratings := SignedRatings.build_verified_rating_batch
       (rating_round_of (opened self)) ratings (config self) |}.

Definition new (bl : Blocklace.t) (output : OrderedFinalizedOutput.t)
    (opened : FinalizedRatingRound) (state : ReputationState.t) (config : PorConfig.t) :
    result t PorRatingCollectorError :=
  let? _ := map_err Interaction
    (FinalizedInteractions.validate_finalized_rating_round bl output opened) in
  bail InvalidStateRound
    when checked_add u64_max (ReputationState.current_round state) 1 ≠
         Some (rating_round_of opened);
  Ok (mk bl output opened state config ∅).

Definition is_rater_complete (self : t) (rater : NodeId) : result bool PorRatingCollectorError :=
  Collector.is_rater_complete (policy self) (ratings self) rater.
Definition insert (self : t) (rating : RatingRecord) : result t PorRatingCollectorError :=
  updated self (Collector.insert (policy self) (ratings self) rating).
Definition insert_envelope (self : t) (envelope : RatingWire.V1.t) :
    result t PorRatingCollectorError :=
  bail InvalidFinalizedWave
    when RatingWire.V1.finalized_wave envelope ≠ opened_wave (opened self);
  insert self (RatingWire.V1.rating envelope).
Definition insert_batch (self : t) (batch : RatingBatch) : result t PorRatingCollectorError :=
  updated self (Collector.insert_batch (policy self) (ratings self) batch).
Definition build_batch (self : t) : result RatingBatch PorRatingCollectorError :=
  Collector.build_batch (policy self) (ratings self).
Definition finish (self : t) : result RatingBatch PorRatingCollectorError := build_batch self.
Definition build_complete_batch (self : t) : result RatingBatch PorRatingCollectorError :=
  Collector.build_complete_batch (policy self) (ratings self).

End collector.
End BlockProductionRatingCollector.

(** ** [CheckpointBlockProductionRatingCollector] *)

Module CheckpointRatingCollector.

Record t := mk {
  blocklace : Blocklace.t;
  output : OrderedFinalizedOutput.t;
  checkpoint : FinalizedPrefixCheckpoint;
  authorized_raters : gset NodeId;
  state : ReputationState.t;
  config : PorConfig.t;
  ratings : Collected
}.

Definition with_ratings (self : t) (ratings : Collected) : t :=
  mk (blocklace self) (output self) (checkpoint self) (authorized_raters self) (state self)
    (config self) ratings.
Definition updated {E} (self : t) (r : result Collected E) : result t E :=
  let? ratings := r in Ok (with_ratings self ratings).

Definition source (self : t) : RatingSourceCheckpoint :=
  PorFinality.rating_source (checkpoint self).
Definition len (self : t) : nat := size (ratings self).
Definition is_empty (self : t) : bool := bool_decide (ratings self = ∅).

Section collector.
Context `{HO : HashOrder} `{Blake2b} `{Secp256k1}.

Definition policy (self : t) : RatingPolicy :=
  {| interaction := Interactions.AdmittedCheckpointInteraction;
     policy_round := por_round (checkpoint self);
     authorize rater :=
       bail (UnauthorizedRater rater) when rater ∉ authorized_raters self; Ok tt;
     may_complete rater :=
       map_err (λ e, Interaction (FinalizedInteractions.Admission e))
         (Interactions.validate_checkpoint_rater (source self) rater (state self));
     validate_signed rating :=
       SignedRatings.validate_checkpoint_signed_rating rating (source self) (config self);
     admitted rater := FinalizedInteractions.admit_checkpoint_block_production_interactions
       (blocklace self) (output self) (checkpoint self) rater (state self);
     recipient_of i := checkpoint_recipient (Interactions.admitted_checkpoint_evidence i);
     reference_of i := checkpoint_evidence_ref (Interactions.admitted_checkpoint_evidence i);
     score_of i := Interactions.score_admitted_checkpoint_interaction i (config self);
     build_verified ratings := SignedRatings.build_verified_checkpoint_rating_batch (source self)
       ratings (config self) |}.

Definition new (bl : Blocklace.t) (output : OrderedFinalizedOutput.t)
    (checkpoint : FinalizedPrefixCheckpoint) (authorized_raters : list NodeId)
    (state : ReputationState.t) (config : PorConfig.t) : result t PorRatingCollectorError :=
  let? _ := map_err Interaction
    (FinalizedInteractions.validate_finalized_checkpoint_window bl output checkpoint) in
  bail InvalidStateRound
    when checked_add u64_max (ReputationState.current_round state) 1 ≠
         Some (por_round checkpoint);
  Ok (mk bl output checkpoint
        (list_to_set (filter (λ rater, ReputationState.is_ejected state rater = false)
          authorized_raters)) state config ∅).

Definition is_rater_complete (self : t) (rater : NodeId) : result bool PorRatingCollectorError :=
  Collector.is_rater_complete (policy self) (ratings self) rater.
Definition all_authorized_raters_complete (self : t) : result bool PorRatingCollectorError :=
  bail NoAuthorizedRaters when authorized_raters self = ∅;
  Collector.all_complete (policy self) (ratings self) (btree_iter (authorized_raters self)).
Definition insert (self : t) (rating : RatingRecord) : result t PorRatingCollectorError :=
  updated self (Collector.insert (policy self) (ratings self) rating).
Definition insert_envelope (self : t) (envelope : RatingWire.V2.t) :
    result t PorRatingCollectorError :=
  bail InvalidCheckpointSource when RatingWire.V2.source envelope ≠ source self;
  insert self (RatingWire.V2.rating envelope).
Definition insert_batch (self : t) (batch : RatingBatch) : result t PorRatingCollectorError :=
  updated self (Collector.insert_batch (policy self) (ratings self) batch).
Definition build_batch (self : t) : result RatingBatch PorRatingCollectorError :=
  Collector.build_batch (policy self) (ratings self).
Definition finish (self : t) : result RatingBatch PorRatingCollectorError := build_batch self.
Definition build_complete_batch (self : t) : result RatingBatch PorRatingCollectorError :=
  Collector.build_complete_batch (policy self) (ratings self).

End collector.
End CheckpointRatingCollector.
