(* ===== verification/CollectorFacts.v ===== *)
(** * Properties of the rating collectors

    Over any policy: what a submission is accepted for, the invariant of the
    collected ratings, when a rater is complete, and that an honest rater's
    batch is accepted and completes it. *)

From S2P Require Import Prelude Types Bytes Crypto PorTypes PorMath PorCommit PorState.
From S2P Require Import QuorumFacts.
From S2P Require Import PorAuditFacts FinalOutput RatingFlow RatingWire Collector.
From stdpp Require Import options.

(** ** Counting the ratings of one rater *)

Definition ratings_of (ratings : Collected) (x : NodeId) : list RatingRecord :=
  filter (λ rating, rater rating = x) (collected_values ratings).

Lemma collected_values_perm ratings : collected_values ratings ≡ₚ (map_to_list ratings).*2.
Proof. unfold collected_values. by rewrite btree_map_iter_perm. Qed.
Lemma elem_of_collected ratings r :
  r ∈ collected_values ratings ↔ ∃ k, ratings !! k = Some r.
Proof.
  rewrite collected_values_perm, list_elem_of_fmap. split.
  - intros ([k r'] & -> & Hk%elem_of_map_to_list). eauto.
  - intros [k Hk]. exists (k, r). split; [done|]. by apply elem_of_map_to_list.
Qed.
Lemma elem_of_ratings_of ratings x r :
  r ∈ ratings_of ratings x ↔ rater r = x ∧ ∃ k, ratings !! k = Some r.
Proof. unfold ratings_of. by rewrite list_elem_of_filter, elem_of_collected. Qed.
Lemma collected_insert ratings k r :
  ratings !! k = None → collected_values (<[k:=r]> ratings) ≡ₚ r :: collected_values ratings.
Proof. intros Hk. by rewrite !collected_values_perm, map_to_list_insert by done. Qed.
Lemma ratings_of_insert ratings k r x :
  ratings !! k = None →
  ratings_of (<[k:=r]> ratings) x ≡ₚ
    if decide (rater r = x) then r :: ratings_of ratings x else ratings_of ratings x.
Proof. intros Hk. unfold ratings_of. by rewrite collected_insert, filter_cons by done. Qed.

(** Every rating is stored under its own key. *)
Definition keyed (ratings : Collected) : Prop := ∀ k r, ratings !! k = Some r → k = rating_key r.

Lemma keyed_values_NoDup ratings :
  keyed ratings → NoDup (rating_key <$> collected_values ratings).
Proof.
  intros Hk. assert (rating_key <$> (map_to_list ratings).*2 = (map_to_list ratings).*1) as E.
  { rewrite <-list_fmap_compose. apply list_fmap_ext. intros i [k r] Hi. cbn.
    symmetry. apply Hk, elem_of_map_to_list. by eapply list_elem_of_lookup_2. }
  rewrite collected_values_perm, E. apply NoDup_fst_map_to_list.
Qed.
Lemma keyed_rated_once ratings (P : RatingRecord → Prop) `{∀ r, Decision (P r)} :
  keyed ratings → rated_once (filter P (collected_values ratings)).
Proof.
  intros Hk%keyed_values_NoDup. unfold rated_once. revert Hk.
  induction (collected_values ratings) as [|r l IH]; [constructor|].
  rewrite fmap_cons, filter_cons. intros [Hr Hl]%NoDup_cons.
  destruct (decide (P r)); [|by apply IH]. rewrite fmap_cons. constructor; [|by apply IH].
  rewrite list_elem_of_fmap. intros (r' & E & [_ Hr']%list_elem_of_filter). apply Hr.
  apply list_elem_of_fmap. exists r'. split; [|done].
  unfold Ratings.rating_key in E. unfold rating_key. by injection E as -> ->.
Qed.

Section policy.
Context (p : RatingPolicy).
Implicit Types (ratings : Collected) (r : RatingRecord) (x : NodeId) (i : interaction p).

(** What an accepted rating is: it is for the round, by an authorized rater
    with a valid signature, and one of the interactions expected of its rater
    has its recipient, its reference and its score. *)
Record backed r : Prop := {
  backed_round : rating_round r = policy_round p;
  backed_authorized : authorize p (rater r) = Ok tt;
  backed_signed : validate_signed p r = Ok tt;
  backed_interaction : ∃ expected i, admitted p (rater r) = Ok expected ∧ i ∈ expected ∧
    recipient_of p i = recipient r ∧ interaction_ref r = Some (reference_of p i) ∧
    score_of p i = Ok (score r)
}.

Lemma find_recipient expected y i :
  List.find (λ i, bool_decide (recipient_of p i = y)) expected = Some i →
  i ∈ expected ∧ recipient_of p i = y.
Proof.
  intros [Hi Hr]%find_some. apply list_elem_of_In in Hi. by apply bool_decide_eq_true in Hr.
Qed.
Lemma find_recipient_unique expected i :
  NoDup (recipient_of p <$> expected) → i ∈ expected →
  List.find (λ j, bool_decide (recipient_of p j = recipient_of p i)) expected = Some i.
Proof.
  intros Hnd Hi. destruct (List.find _ expected) as [j|] eqn:E.
  - apply find_recipient in E as [Hj E]. f_equal.
    apply list_elem_of_lookup in Hi as [m Hm], Hj as [n Hn].
    assert (m = n) as ->; [|congruence].
    apply (NoDup_lookup _ m n (recipient_of p i) Hnd); rewrite list_lookup_fmap, ?Hm, ?Hn; cbn;
      congruence.
  - apply list_elem_of_In, (find_none _ _ E i) in Hi. by apply bool_decide_eq_false in Hi.
Qed.

Lemma submission_backed ratings r :
  Collector.validate_submission p ratings r = Ok tt →
  backed r ∧ ratings !! rating_key r = None.
Proof.
  unfold Collector.validate_submission.
  intros [Hr%dec_stable (? & Ha & (? & Hs%map_err_Ok & Hk)%result_bind_Ok)%result_bind_Ok]%bail_Ok.
  destruct x, x0. destruct (ratings !! rating_key r) as [e|]; [by case_decide|].
  apply result_bind_Ok in Hk as (expected & He%map_err_Ok & Hk).
  apply result_bind_Ok in Hk as (i & [Hi Hrec]%ok_or_Ok%find_recipient & Hk).
  apply bail_Ok in Hk as [Href%dec_stable Hk]. apply result_bind_Ok in Hk as (s & Hsc%map_err_Ok & Hk).
  apply bail_Ok in Hk as [Hscore%dec_stable _]. split; [|done]. split; [done..|].
  exists expected, i. by rewrite Hscore.
Qed.

(** When the expected interactions have distinct recipients, a backed rating is
    accepted unless its key is taken. *)
Lemma backed_accepted ratings r expected :
  backed r → ratings !! rating_key r = None → admitted p (rater r) = Ok expected →
  NoDup (recipient_of p <$> expected) →
  Collector.validate_submission p ratings r = Ok tt.
Proof.
  intros [Hr Ha Hs (expected' & i & He' & Hi & Hrec & Href & Hsc)] Hk He Hnd.
  assert (expected' = expected) as -> by congruence.
  unfold Collector.validate_submission. rewrite decide_False by tauto. rewrite Ha, Hs, Hk, He.
  cbn [result_bind map_err]. rewrite <-Hrec, (find_recipient_unique _ i) by done.
  cbn [ok_or result_bind]. rewrite decide_False by tauto. rewrite Hsc. cbn [map_err result_bind].
  by rewrite decide_False by tauto.
Qed.

(** ** The invariant *)

Definition collected_ok ratings : Prop :=
  ∀ k r, ratings !! k = Some r → k = rating_key r ∧ backed r.

Lemma collected_ok_empty : collected_ok ∅.
Proof. intros k r. by rewrite lookup_empty. Qed.
Lemma collected_ok_keyed ratings : collected_ok ratings → keyed ratings.
Proof. intros H k r Hk. by apply H. Qed.
Lemma collected_ok_insert ratings r :
  collected_ok ratings → backed r → collected_ok (<[rating_key r:=r]> ratings).
Proof. intros H Hr k r' [[<- <-]|[_ Hk]]%lookup_insert_Some; [done|by apply H]. Qed.

Lemma insert_ok ratings r ratings' :
  Collector.insert p ratings r = Ok ratings' → collected_ok ratings →
  collected_ok ratings' ∧ ratings' = <[rating_key r:=r]> ratings ∧ ratings !! rating_key r = None.
Proof.
  unfold Collector.insert. intros ([] & [Hb Hk]%submission_backed & [= <-])%result_bind_Ok H.
  split; [by apply collected_ok_insert|done].
Qed.

Lemma insert_batch_ok ratings batch ratings' :
  Collector.insert_batch p ratings batch = Ok ratings' → collected_ok ratings →
  collected_ok ratings' ∧ ratings ⊆ ratings' ∧
  (∀ r, r ∈ collected_values ratings' ↔ r ∈ collected_values ratings ∨ r ∈ batch_ratings batch).
Proof.
  unfold Collector.insert_batch. intros [_ Hf]%bail_Ok. revert ratings Hf.
  induction (batch_ratings batch) as [|r rs IH]; intros ratings Hf H.
  { injection Hf as <-. set_solver. }
  apply result_bind_Ok in Hf as (staged & Hs & Hf).
  apply result_bind_Ok in Hs as ([] & [Hb Hk]%submission_backed & [= <-]).
  apply IH in Hf as (Hok & Hsub & Hin); [|by apply collected_ok_insert]. split; [done|]. split.
  - etrans; [|exact Hsub]. by apply insert_subseteq.
  - intros r'. rewrite Hin, collected_insert by done. set_solver.
Qed.

(** ** Completeness *)

Definition expects x (expected : list (interaction p)) : Prop :=
  admitted p x = Ok expected ∧ NoDup (recipient_of p <$> expected).

Lemma is_complete_count ratings x expected :
  authorize p x = Ok tt → may_complete p x = Ok tt → admitted p x = Ok expected →
  Collector.is_rater_complete p ratings x =
    Ok (bool_decide (length (ratings_of ratings x) = length expected)).
Proof. intros Ha Hm He. unfold Collector.is_rater_complete. by rewrite Ha, Hm, He. Qed.

Lemma ratings_of_recipients ratings x expected :
  collected_ok ratings → expects x expected →
  NoDup (recipient <$> ratings_of ratings x) ∧
  (recipient <$> ratings_of ratings x) ⊆ (recipient_of p <$> expected).
Proof.
  intros Hok [He Hnd]. split.
  - pose proof (keyed_values_NoDup _ (collected_ok_keyed _ Hok)) as Hv. unfold ratings_of.
    induction (collected_values ratings) as [|r l IH]; [constructor|].
    rewrite fmap_cons in Hv. apply NoDup_cons in Hv as [Hr Hv]. rewrite filter_cons.
    destruct (decide (rater r = x)) as [Hx|]; [|by apply IH].
    rewrite fmap_cons. constructor; [|by apply IH].
    intros (r' & E & [Hx' Hr']%list_elem_of_filter)%list_elem_of_fmap. apply Hr.
    apply list_elem_of_fmap. exists r'. split; [|done]. unfold rating_key. congruence.
  - intros y (r & -> & [Hx [k Hk]]%elem_of_ratings_of)%list_elem_of_fmap.
    destruct (Hok k r Hk) as [_ [_ _ _ (expected' & i & He' & Hi & Hrec & _)]].
    rewrite Hx, He in He'. injection He' as ->. rewrite <-Hrec. by apply list_elem_of_fmap_2.
Qed.

(** A rater is complete exactly when every expected recipient has its rating. *)
Lemma complete_iff ratings x expected :
  collected_ok ratings → expects x expected → authorize p x = Ok tt → may_complete p x = Ok tt →
  ∃ b, Collector.is_rater_complete p ratings x = Ok b ∧
    (b = true ↔ ∀ i, i ∈ expected → is_Some (ratings !! (x, recipient_of p i))).
Proof.
  intros Hok Hex Ha Hm. pose proof Hex as [He Hnd]. eexists.
  split; [by apply is_complete_count|]. rewrite bool_decide_eq_true.
  destruct (ratings_of_recipients _ _ _ Hok Hex) as [Hnd' Hsub].
  rewrite <-(length_fmap recipient), <-(length_fmap (recipient_of p) expected). split.
  - intros Hlen i Hi.
    assert (recipient_of p i ∈ recipient <$> ratings_of ratings x) as Hin.
    { assert ((recipient <$> ratings_of ratings x) ≡ₚ (recipient_of p <$> expected)) as ->.
      { apply submseteq_length_Permutation; [|lia]. by apply NoDup_submseteq. }
      by apply list_elem_of_fmap_2. }
    apply list_elem_of_fmap in Hin as (r & E & [Hx [k Hk]]%elem_of_ratings_of).
    destruct (Hok k r Hk) as [-> _]. rewrite E, <-Hx. eauto.
  - intros Hall. apply Permutation_length, NoDup_Permutation; [done..|].
    intros y. split; [apply Hsub|]. intros (i & -> & Hi)%list_elem_of_fmap.
    destruct (Hall i Hi) as [r Hr]. destruct (Hok _ _ Hr) as [E _].
    unfold rating_key in E. injection E as Ex Ey. rewrite Ey. apply list_elem_of_fmap_2.
    apply elem_of_ratings_of. eauto.
Qed.

Lemma complete_raters_fold ratings (raters : list NodeId) (X : gset NodeId) :
  (∀ x, x ∈ raters → is_ok (Collector.is_rater_complete p ratings x) = true) →
  ∃ Y : gset NodeId, try_fold (λ (complete_raters : gset NodeId) rater,
      let? complete := Collector.is_rater_complete p ratings rater in
      Ok (if complete : bool then {[rater]} ∪ complete_raters else complete_raters)) X raters = Ok Y ∧
    ∀ x, x ∈ Y ↔ x ∈ X ∨ x ∈ raters ∧ Collector.is_rater_complete p ratings x = Ok true.
Proof.
  revert X. induction raters as [|y raters IH]; intros X Hok; [exists X; set_solver|].
  cbn [try_fold]. assert (is_ok (Collector.is_rater_complete p ratings y) = true) as Hy
    by (apply Hok; by left).
  destruct (Collector.is_rater_complete p ratings y) as [b|e] eqn:Ey; [|done]. cbn [result_bind].
  destruct (IH (if b then {[y]} ∪ X else X)) as (Y & -> & HY); [intros z ?; apply Hok; by right|].
  exists Y. split; [done|]. intros x. rewrite HY, elem_of_cons. destruct b.
  - rewrite elem_of_union, elem_of_singleton. split.
    + intros [[->|?]|[? ?]]; auto.
    + intros [?|[[->|?] ?]]; auto.
  - split; [tauto|]. intros [?|[[->|?] Hc]]; [auto| |auto]. congruence.
Qed.

(** ** Laws of a policy *)

(** What the collectors rely on: distinct expected recipients, a rater with
    something to rate may complete, and the verified batch of valid ratings
    exists. *)
Class PolicyLaws := {
  law_recipients x expected :
    admitted p x = Ok expected → NoDup (recipient_of p <$> expected);
  law_may_complete x i expected :
    admitted p x = Ok expected → i ∈ expected → may_complete p x = Ok tt;
  law_build rs :
    (∀ r, r ∈ rs → rating_round r = policy_round p ∧ validate_signed p r = Ok tt) →
    rated_once rs →
    build_verified p rs = Ok (mkBatch (policy_round p) (sort_by_key Ratings.rating_key rs))
}.
Context `{Hlaws : PolicyLaws}.

Lemma backed_expects r :
  backed r → ∃ expected, expects (rater r) expected ∧ may_complete p (rater r) = Ok tt.
Proof using Hlaws.
  intros [_ _ _ (expected & i & He & Hi & _)]. exists expected. repeat split; [done|..].
  - by eapply law_recipients.
  - by eapply law_may_complete.
Qed.

(** Completeness is kept when ratings are added. *)
Lemma complete_mono ratings ratings' x :
  collected_ok ratings → collected_ok ratings' → ratings ⊆ ratings' →
  Collector.is_rater_complete p ratings x = Ok true →
  Collector.is_rater_complete p ratings' x = Ok true.
Proof using Hlaws.
  intros Hok Hok' Hsub Hc. pose proof Hc as ([] & Ha & ([] & Hm & (expected & He%map_err_Ok & _)%result_bind_Ok)
    %result_bind_Ok)%result_bind_Ok.
  assert (expects x expected) as Hex by (split; [done|by eapply law_recipients]).
  destruct (complete_iff _ x _ Hok Hex Ha Hm) as (b & Hb & Hiff).
  destruct (complete_iff _ x _ Hok' Hex Ha Hm) as (b' & Hb' & Hiff').
  rewrite Hc in Hb. injection Hb as <-. rewrite Hb'. f_equal. apply Hiff'. intros i Hi.
  destruct (proj1 Hiff eq_refl i Hi) as [r Hr]. exists r. by eapply lookup_weaken.
Qed.

(** ** Closing *)

(** The closed batch exists, and holds exactly the ratings of the complete
    raters in canonical order. *)
Lemma complete_batch_ok ratings :
  collected_ok ratings →
  ∃ batch, Collector.build_complete_batch p ratings = Ok batch ∧
    batch_round batch = policy_round p ∧
    StronglySorted key_lt (batch_ratings batch) ∧
    ∀ r, r ∈ batch_ratings batch ↔
      r ∈ collected_values ratings ∧ Collector.is_rater_complete p ratings (rater r) = Ok true.
Proof using Hlaws.
  intros Hok. unfold Collector.build_complete_batch, Collector.complete_raters.
  edestruct (complete_raters_fold ratings) as (Y & -> & HY); [|cbn [result_bind]].
  { intros x (r & -> & [k Hk]%elem_of_collected)%elem_of_btree_iter%elem_of_list_to_set%list_elem_of_fmap.
    destruct (Hok k r Hk) as [_ Hb]. destruct (backed_expects r Hb) as (expected & [He _] & Hm).
    by rewrite (is_complete_count _ _ expected) by (try done; apply Hb). }
  assert (∀ r, r ∈ filter (λ r, rater r ∈ Y) (collected_values ratings) ↔
    r ∈ collected_values ratings ∧ Collector.is_rater_complete p ratings (rater r) = Ok true) as Hin.
  { intros r. rewrite list_elem_of_filter, HY, elem_of_empty, elem_of_btree_iter, elem_of_list_to_set.
    split; [tauto|]. intros [Hr Hc]. split; [|done]. right. split; [|done].
    by apply list_elem_of_fmap_2. }
  pose proof (keyed_rated_once ratings (λ r, rater r ∈ Y) (collected_ok_keyed _ Hok)) as Honce.
  rewrite law_build; [|intros r [[k Hk]%elem_of_collected _]%Hin; by destruct (Hok k r Hk) as [_ []]|done].
  eexists. split; [done|]. cbn [batch_round batch_ratings]. split_and!; [done| |].
  - apply once_strictly_sorted; [apply sort_by_key_sorted|].
    unfold rated_once. by rewrite sort_by_key_perm.
  - intros r. by rewrite sort_by_key_perm.
Qed.

(** ** The batch of an honest rater *)

(** One rating per expected interaction, with what a collector checks. *)
Definition honest x i r : Prop :=
  rater r = x ∧ recipient r = recipient_of p i ∧ interaction_ref r = Some (reference_of p i) ∧
  score_of p i = Ok (score r) ∧ rating_round r = policy_round p ∧ validate_signed p r = Ok tt.

Lemma honest_backed x expected i r :
  authorize p x = Ok tt → admitted p x = Ok expected → i ∈ expected → honest x i r → backed r.
Proof.
  intros Ha He Hi (<- & Hrec & Href & Hsc & Hr & Hs). split; [done..|]. exists expected, i. by rewrite Hrec.
Qed.

Lemma honest_batch_inserted ratings x expected rs :
  collected_ok ratings → authorize p x = Ok tt → expects x expected →
  (∀ r, r ∈ rs → ∃ i, i ∈ expected ∧ honest x i r) → NoDup (recipient <$> rs) →
  (∀ r, r ∈ rs → ratings !! (x, recipient r) = None) →
  ∃ ratings', Collector.insert_batch p ratings (mkBatch (policy_round p) rs) = Ok ratings' ∧
    (∀ r, r ∈ rs → ratings' !! (x, recipient r) = Some r).
Proof.
  clear Hlaws. intros Hok Ha [He Hnd] Hrs Hrec Hfree. unfold Collector.insert_batch. cbn [batch_round batch_ratings].
  rewrite decide_False by tauto. revert ratings Hok Hfree.
  induction rs as [|r rs IH]; intros ratings Hok Hfree; [exists ratings; set_solver|].
  destruct (Hrs r) as (i & Hi & Hh); [by left|]. pose proof Hh as (Hx & _).
  assert (backed r) as Hb by (by eapply honest_backed).
  assert (rating_key r = (x, recipient r)) as Hkey by (unfold rating_key; by rewrite Hx).
  rewrite fmap_cons in Hrec. apply NoDup_cons in Hrec as [Hr Hrec]. cbn [try_fold].
  rewrite (backed_accepted _ _ expected); [|done|rewrite Hkey; apply Hfree; by left|by rewrite Hx|done].
  cbn [result_bind]. rewrite Hkey.
  assert (∀ r', r' ∈ rs → recipient r' ≠ recipient r) as Hne.
  { intros r' Hr' E. apply Hr. rewrite <-E. by apply list_elem_of_fmap_2. }
  destruct (IH ltac:(intros r' ?; apply Hrs; by right) Hrec (<[(x, recipient r):=r]> ratings))
    as (ratings' & E & Hin).
  { rewrite <-Hkey. by apply collected_ok_insert. }
  { intros r' Hr'. rewrite lookup_insert_ne by (intros [=]; by eapply Hne).
    apply Hfree. by right. }
  exists ratings'. split; [done|]. intros r' [->|Hr']%elem_of_cons; [|by apply Hin].
  assert (Collector.insert_batch p (<[(x, recipient r):=r]> ratings) (mkBatch (policy_round p) rs) =
    Ok ratings') as Hb' by (unfold Collector.insert_batch; cbn; by rewrite decide_False by tauto).
  apply insert_batch_ok in Hb' as (_ & Hsub & _); [|rewrite <-Hkey; by apply collected_ok_insert].
  eapply lookup_weaken; [apply lookup_insert_eq|done].
Qed.

End policy.
