(* ===== verification/RatingFlowFacts.v ===== *)
(** * Properties of the extracted evidence and of the signed ratings

    The expected interactions of a rater are finalized blocks of distinct
    active producers; the policies of both collectors keep their laws; the
    batch an honest rater builds is what a collector expects. *)

From S2P Require Import Prelude Types Lace Bytes Crypto Rounds QuorumFacts PorTypes PorMath.
From S2P Require Import PorMathFacts PorCommit PorAudit PorAuditFacts PorState FinalOutput.
From S2P Require Import FinalOutputFacts RatingFlow RatingWire Collector.
From S2P Require Import CollectorFacts.
From stdpp Require Import options.

Section flow.
Context `{HO : HashOrder} `{HB : Blake2b}.
Import FinalizedInteractions.
Implicit Types (bl : Blocklace.t) (output : OrderedFinalizedOutput.t) (state : ReputationState.t)
  (block : BlockIdentity).

(** ** The selected blocks *)

(** [m] holds, for every creator of [blocks], the least of its blocks. *)
Definition least_of (blocks : list BlockIdentity) (m : gmap NodeId BlockIdentity) : Prop :=
  (∀ id b, m !! id = Some b → b ∈ blocks ∧ creator b = id) ∧
  (∀ b, b ∈ blocks → ∃ b', m !! creator b = Some b' ∧ ord_le b' b).

Lemma least_of_nil : least_of [] ∅.
Proof. split; [intros id b; by rewrite lookup_empty|by intros b ?%elem_of_nil]. Qed.
Lemma keep_least_ok blocks m block :
  least_of blocks m → least_of (blocks ++ [block]) (keep_least m block).
Proof.
  intros [Hm Hb]. unfold keep_least. split.
  - intros id b [[<- <-]|[_ Hl]]%lookup_insert_Some.
    + destruct (m !! creator block) as [c|] eqn:Ec; [|set_solver].
      case_decide; [set_solver|]. apply Hm in Ec as [? ?]. set_solver.
    + apply Hm in Hl as [? ?]. set_solver.
  - intros b [Hin|Heq]%elem_of_app; [|apply list_elem_of_singleton in Heq as ->].
    + destruct (Hb b Hin) as (b' & Hl & Hle). destruct (decide (creator b = creator block)) as [E|E].
      * rewrite E, lookup_insert_eq, <-E, Hl. eexists. split; [done|]. case_decide as Hlt; [|done].
        etrans; [|exact Hle]. apply ord_le_lt_eq. by left.
      * rewrite lookup_insert_ne by done. eauto.
    + rewrite lookup_insert_eq. eexists. split; [done|].
      destruct (m !! creator block) as [c|]; [|done]. case_decide as Hlt; [done|].
      by apply not_ord_lt.
Qed.

Lemma select_wave_blocks bl output opened rater blocks seen m out :
  least_of seen m →
  try_fold (select_wave_block bl output opened rater) m blocks = Ok out →
  ∃ chosen, least_of (seen ++ chosen) out ∧
    ∀ b, b ∈ chosen ↔ b ∈ blocks ∧ creator b ≠ rater ∧
      (r ← Round.depth bl b; Wave.wave_of_round r (OrderedFinalizedOutput.wavelength output)) =
        Some (opened_wave opened).
Proof.
  revert seen m. induction blocks as [|b blocks IH]; intros seen m Hm Hf.
  { injection Hf as <-. exists []. rewrite app_nil_r. set_solver. }
  apply result_bind_Ok in Hf as (m' & Hs & Hf). unfold select_wave_block in Hs.
  apply result_bind_Ok in Hs as (r & Hr%ok_or_Ok & Hs).
  apply result_bind_Ok in Hs as (w & Hw%ok_or_Ok & Hs).
  assert ((r ← Round.depth bl b; Wave.wave_of_round r (OrderedFinalizedOutput.wavelength output)) =
    Some w) as Ew by (by rewrite Hr).
  case_decide as Hskip; injection Hs as <-.
  - destruct (IH _ _ Hm Hf) as (chosen & Hl & Hc). exists chosen. split; [done|].
    intros c. rewrite Hc, elem_of_cons. split; [tauto|]. intros ([->|?] & ? & ?); [|done].
    rewrite Ew in *. destruct Hskip; congruence.
  - apply Decidable.not_or in Hskip as [Hwave%dec_stable Hcr].
    destruct (IH _ _ (keep_least_ok _ _ b Hm) Hf) as (chosen & Hl & Hc).
    exists (b :: chosen). rewrite <-app_assoc in Hl. split; [done|].
    intros c. rewrite !elem_of_cons, Hc. split; [|tauto].
    intros [->|?]; [|tauto]. rewrite Ew. subst. tauto.
Qed.

Lemma keys_NoDup {V} (m : gmap NodeId V) : NoDup (btree_map_iter m).*1.
Proof. rewrite btree_map_iter_perm. apply NoDup_fst_map_to_list. Qed.

(** ** Admission returns the evidence it admits *)

Lemma admit_evidence_Ok e state a :
  Interactions.admit_interaction_evidence e state = Ok a →
  a = Interactions.Admit e ∧
  Interactions.validate_interaction_participants (interaction_round e) (interaction_rater e)
    (interaction_recipient e) (evidence_ref e) state = Ok tt.
Proof.
  unfold Interactions.admit_interaction_evidence. intros (? & _ & H)%result_bind_Ok.
  apply bail_Ok in H as [_ H]. by apply result_bind_Ok in H as ([] & ? & [= <-]).
Qed.
Lemma admit_checkpoint_evidence_Ok e state a :
  Interactions.admit_checkpoint_interaction_evidence e state = Ok a →
  a = Interactions.AdmitCheckpoint e ∧ validate_source (interaction_source e) = Ok tt ∧
  Interactions.validate_interaction_participants (source_round (interaction_source e))
    (checkpoint_rater e) (checkpoint_recipient e) (checkpoint_evidence_ref e) state = Ok tt.
Proof.
  unfold Interactions.admit_checkpoint_interaction_evidence. intros ([] & Hs & H)%result_bind_Ok.
  by apply result_bind_Ok in H as ([] & ? & [= <-]).
Qed.

Lemma participants_rater round rater recipient reference state :
  Interactions.validate_interaction_participants round rater recipient reference state = Ok tt →
  rater ≠ recipient ∧ Interactions.validate_interaction_rater round rater state = Ok tt.
Proof.
  unfold Interactions.validate_interaction_participants.
  intros [_ [Hself [_ ([] & Hr & _)%result_bind_Ok]%bail_Ok]%bail_Ok]%bail_Ok. done.
Qed.

(** The admitted list is a filter of the evidence. *)
Lemma admit_all {A B} (admission_of : A → result B PorError) (wrap : A → B) (P : A → Prop)
    `{∀ a, Decision (P a)} l out :
  (∀ a b, admission_of a = Ok b → b = wrap a) →
  try_map (λ a, map_err Admission (admission_of a)) (filter P l) = Ok out →
  out = wrap <$> filter P l ∧ ∀ a, a ∈ filter P l → admission_of a = Ok (wrap a).
Proof.
  intros Hw Hm%try_map_Ok. split.
  - induction Hm as [|a b l' out' Hab _ IH]; [done|]. apply map_err_Ok, Hw in Hab as ->. cbn. by f_equal.
  - intros a Ha. apply list_elem_of_lookup in Ha as [i Hi].
    destruct (Forall2_lookup_l _ _ _ _ _ Hm Hi) as (b & _ & Hb%map_err_Ok).
    by rewrite Hb, (Hw _ _ Hb).
Qed.

(** ** What a wave collector expects of a rater *)

(** The interaction with a producer: its least finalized block of the wave. *)
Definition wave_evidence (opened : FinalizedRatingRound) (rater : NodeId)
    (e : NodeId * BlockIdentity) : InteractionEvidence :=
  mkInteraction (opened_wave opened) (rating_round_of opened) BlockProduction rater e.1
    (vec_to_list (content_hash e.2)).
Definition checkpoint_evidence (c : FinalizedPrefixCheckpoint) (rater : NodeId)
    (e : NodeId * BlockIdentity) : CheckpointInteractionEvidence :=
  mkCheckpointInteraction (PorFinality.rating_source c) BlockProduction rater e.1
    (vec_to_list (content_hash e.2)).

(** The finalized blocks of the opened wave by others than the rater. *)
Definition wave_block bl output opened rater block : Prop :=
  block ∈ OrderedFinalizedOutput.blocks output ∧ creator block ≠ rater ∧
  (r ← Round.depth bl block; Wave.wave_of_round r (OrderedFinalizedOutput.wavelength output)) =
    Some (opened_wave opened).

Lemma admitted_wave_Ok bl output opened rater state l :
  admit_finalized_block_production_interactions bl output opened rater state = Ok l →
  ∃ m : gmap NodeId BlockIdentity,
    l = (λ e, Interactions.Admit (wave_evidence opened rater e)) <$>
        filter (λ e : NodeId * BlockIdentity, is_active_recipient state e.1 = true)
          (btree_map_iter m) ∧
    (∀ id b, m !! id = Some b → wave_block bl output opened rater b ∧ creator b = id ∧
      ∀ b', wave_block bl output opened rater b' → creator b' = id → ord_le b b') ∧
    (∀ b, wave_block bl output opened rater b → is_Some (m !! creator b)).
Proof.
  unfold admit_finalized_block_production_interactions, extract_block_production_evidence.
  intros (ev & (? & _ & (m & Hm & [= <-])%result_bind_Ok)%result_bind_Ok & Ha)%result_bind_Ok.
  apply (select_wave_blocks _ _ _ _ _ []) in Hm as (chosen & [Hl1 Hl2] & Hc); [|apply least_of_nil].
  exists m. split_and!.
  - apply admit_all with (wrap := Interactions.Admit) in Ha as [-> _];
      [|by intros a b [-> _]%admit_evidence_Ok].
    change (λ e : NodeId * BlockIdentity, mkInteraction _ _ _ rater e.1 _)
      with (wave_evidence opened rater).
    induction (btree_map_iter m) as [|e l' IH]; [done|]. cbn [map]. rewrite !filter_cons.
    cbn [wave_evidence interaction_recipient]. destruct (decide _); [|done]. rewrite !fmap_cons.
    by f_equal.
  - intros id b Hb. apply Hl1 in Hb as Hb'. destruct Hb' as [Hin%Hc Hcr]. split_and!; [done..|].
    intros b' Hw Hcr'. destruct (Hl2 b') as (b'' & Hb'' & Hle); [by apply Hc|].
    rewrite Hcr' in Hb''. by simplify_eq.
  - intros b Hw. destruct (Hl2 b) as (b' & Hb' & _); [by apply Hc|]. eauto.
Qed.

Lemma active_keys_NoDup {V} (P : NodeId * V → Prop) `{∀ e, Decision (P e)} (m : gmap NodeId V) :
  NoDup (filter P (btree_map_iter m)).*1.
Proof.
  pose proof (keys_NoDup m) as Hnd. induction (btree_map_iter m) as [|e l IH]; [constructor|].
  rewrite fmap_cons in Hnd. apply NoDup_cons in Hnd as [He Hl]. rewrite filter_cons.
  destruct (decide (P e)); [|by apply IH]. rewrite fmap_cons. constructor; [|by apply IH].
  intros (e' & E & [_ Hin]%list_elem_of_filter)%list_elem_of_fmap. apply He. rewrite E.
  by apply list_elem_of_fmap_2.
Qed.

(** ** What a checkpoint collector expects of a rater *)

Lemma window_fold rater blocks seen m :
  least_of seen m →
  ∃ chosen, least_of (seen ++ chosen) (foldl (λ canonical_blocks block,
      if decide (creator block = rater) then canonical_blocks
      else keep_least canonical_blocks block) m blocks) ∧
    ∀ b, b ∈ chosen ↔ b ∈ blocks ∧ creator b ≠ rater.
Proof.
  revert seen m. induction blocks as [|b blocks IH]; intros seen m Hm.
  { exists []. rewrite app_nil_r. set_solver. }
  cbn [foldl]. case_decide as Hr.
  - destruct (IH _ _ Hm) as (chosen & Hl & Hc). exists chosen. split; [done|].
    intros c. rewrite Hc, elem_of_cons. split; [tauto|]. intros [[->|?] ?]; [done|tauto].
  - destruct (IH _ _ (keep_least_ok _ _ b Hm)) as (chosen & Hl & Hc).
    exists (b :: chosen). rewrite <-app_assoc in Hl. split; [done|].
    intros c. rewrite !elem_of_cons, Hc. split; [|tauto]. intros [->|?]; tauto.
Qed.

Definition window_block output c rater block : Prop :=
  block ∈ checkpoint_window output c ∧ creator block ≠ rater.

Lemma admitted_checkpoint_Ok bl output c rater state l :
  admit_checkpoint_block_production_interactions bl output c rater state = Ok l →
  ∃ m : gmap NodeId BlockIdentity,
    l = (λ e, Interactions.AdmitCheckpoint (checkpoint_evidence c rater e)) <$>
        filter (λ e : NodeId * BlockIdentity, is_active_recipient state e.1 = true)
          (btree_map_iter m) ∧
    (∀ id b, m !! id = Some b → window_block output c rater b ∧ creator b = id ∧
      ∀ b', window_block output c rater b' → creator b' = id → ord_le b b') ∧
    (∀ b, window_block output c rater b → is_Some (m !! creator b)) ∧
    ∀ a, a ∈ l → Interactions.validate_checkpoint_rater (PorFinality.rating_source c) rater state = Ok tt.
Proof.
  unfold admit_checkpoint_block_production_interactions, extract_checkpoint_block_production_evidence.
  intros (ev & ([] & _ & [= <-])%result_bind_Ok & Ha)%result_bind_Ok.
  destruct (window_fold rater (checkpoint_window output c) [] ∅ least_of_nil)
    as (chosen & [Hl1 Hl2] & Hc).
  set (m := foldl _ ∅ (checkpoint_window output c)) in *. clearbody m. cbn [app] in *.
  apply admit_all with (wrap := Interactions.AdmitCheckpoint) in Ha as [-> Ha];
    [|by intros a b [-> _]%admit_checkpoint_evidence_Ok].
  exists m. split_and!.
  - clear. induction (btree_map_iter m) as [|e l' IH]; [done|]. cbn [map]. rewrite !filter_cons.
    cbn [checkpoint_recipient]. destruct (decide _); [|done]. rewrite !fmap_cons.
    by f_equal.
  - intros id b Hb. apply Hl1 in Hb as Hb'. destruct Hb' as [Hin%Hc Hcr]. split_and!; [done..|].
    intros b' Hw Hcr'. destruct (Hl2 b') as (b'' & Hb'' & Hle); [by apply Hc|].
    rewrite Hcr' in Hb''. by simplify_eq.
  - intros b Hw. destruct (Hl2 b) as (b' & Hb' & _); [by apply Hc|]. eauto.
  - intros a (e & -> & He)%list_elem_of_fmap. apply Ha in He as Hadm.
    apply admit_checkpoint_evidence_Ok in Hadm as (_ & Hs & Hp%participants_rater).
    apply list_elem_of_filter in He as [_ He]. apply list_elem_of_In, in_map_iff in He as (kv & <- & _).
    cbn in Hs, Hp. unfold Interactions.validate_checkpoint_rater. rewrite Hs. by destruct Hp.
Qed.

(** ** The policies keep their laws *)

Context `{HS : Secp256k1}.
Import SignedRatings.

Lemma signed_valid r config : validate_signed_rating r config = Ok tt → Ratings.validate_rating r config = Ok tt.
Proof. unfold validate_signed_rating. by intros ([] & ?%map_err_Ok & _)%result_bind_Ok. Qed.
Lemma checkpoint_signed_valid r source config :
  validate_checkpoint_signed_rating r source config = Ok tt → Ratings.validate_rating r config = Ok tt.
Proof. unfold validate_checkpoint_signed_rating. by intros ([] & ?%map_err_Ok & _)%result_bind_Ok. Qed.

Lemma recipients_of_active {A} (wrap : NodeId * BlockIdentity → A) (recip : A → NodeId) state
    (m : gmap NodeId BlockIdentity) :
  (∀ e, recip (wrap e) = e.1) →
  NoDup (recip <$> (wrap <$> filter (λ e : NodeId * BlockIdentity,
    is_active_recipient state e.1 = true) (btree_map_iter m))).
Proof.
  intros Hof. rewrite <-list_fmap_compose. erewrite list_fmap_ext; [apply active_keys_NoDup|].
  intros i e _. apply Hof.
Qed.

Lemma build_valid round rs config :
  (∀ r, r ∈ rs → valid_rating round config r) → rated_once rs →
  Ratings.build_rating_batch round rs config =
    Ok (mkBatch round (sort_by_key Ratings.rating_key rs)).
Proof. intros Hv Ho. by apply build_rating_batch_Ok. Qed.

#[export] Instance wave_policy_laws (c : BlockProductionRatingCollector.t) :
  PolicyLaws (BlockProductionRatingCollector.policy c).
Proof.
  split.
  - intros x expected (m & -> & _)%admitted_wave_Ok. by apply recipients_of_active.
  - done.
  - intros rs Hrs Honce. cbn. unfold build_verified_rating_batch.
    rewrite (proj2 (check_all_Ok (λ r, validate_signed_rating r _) rs)) by (intros r Hr; by apply Hrs).
    cbn [result_bind]. rewrite build_valid; [done| |done].
    intros r Hr. destruct (Hrs r Hr) as [? Hs]. split; [done|]. by apply signed_valid.
Qed.

Lemma checkpoint_policy_laws (c : CheckpointRatingCollector.t) :
  validate_source (CheckpointRatingCollector.source c) = Ok tt →
  PolicyLaws (CheckpointRatingCollector.policy c).
Proof.
  intros Hsrc. split.
  - intros x expected (m & -> & _)%admitted_checkpoint_Ok. by apply recipients_of_active.
  - intros x i expected (m & _ & _ & _ & Hr)%admitted_checkpoint_Ok Hi. cbn.
    unfold CheckpointRatingCollector.source. by rewrite (Hr i Hi).
  - intros rs Hrs Honce. cbn. unfold build_verified_checkpoint_rating_batch. rewrite Hsrc.
    cbn [map_err result_bind].
    rewrite (proj2 (check_all_Ok (λ r, validate_checkpoint_signed_rating r _ _) rs))
      by (intros r Hr; by apply Hrs).
    cbn [result_bind]. rewrite build_valid; [done| |done].
    intros r Hr. destruct (Hrs r Hr) as [? Hs]. split; [done|].
    exact (checkpoint_signed_valid r _ _ Hs).
Qed.

End flow.
