(* ===== verification/RatingRound.v ===== *)
(** * The life of a rating round

    [por/lifecycle/*.rs], the receivers of [por/transport/mod.rs],
    [finalized_authorizations] of [por/evidence.rs] and [por/transition.rs] of
    cordial-f1r3node-adapter: when a round may close, the coordinator of one
    validator's view of it, and the transition of the reputation state that a
    closed round drives. *)

From S2P Require Import Prelude Types Lace Bytes Crypto Rounds Payload PorTypes PorMath PorCommit.
From S2P Require Import PorAudit PorState FinalOutput RatingFlow RatingWire Collector.
From stdpp Require Import options.

(** ** [lifecycle/quorum.rs] *)

Inductive PorRatingQuorumError :=
  | InvalidThreshold (numerator denominator : N)
  | ZeroActiveWeight
  | WeightOverflow
  | QuorumCollector (error : PorRatingCollectorError).

Module ClosurePolicy.

Definition DEFAULT_RATING_QUORUM_NUMERATOR : N := 2.
Definition DEFAULT_RATING_QUORUM_DENOMINATOR : N := 3.

Record t := mk { numerator : N; denominator : N }.

Record progress := mkProgress {
  eligible_raters : nat;
  completed_raters : list NodeId;
  total_active_weight : N;
  completed_weight : N;
  required_weight : N
}.
Definition is_reached (self : progress) : bool :=
  bool_decide (required_weight self <= completed_weight self)%N.

Definition new (numerator denominator : N) : result t PorRatingQuorumError :=
  bail (InvalidThreshold numerator denominator)
    when numerator = 0%N ∨ denominator = 0%N ∨ (denominator <= numerator)%N;
  Ok (mk numerator denominator).

Definition default : t := mk DEFAULT_RATING_QUORUM_NUMERATOR DEFAULT_RATING_QUORUM_DENOMINATOR.

Definition strict_required_weight (total_weight numerator denominator : N) :
    result N PorRatingQuorumError :=
  let? whole := ok_or (checked_mul u128_max (total_weight / denominator) numerator)
    WeightOverflow in
  let? product := ok_or (checked_mul u128_max (total_weight mod denominator) numerator)
    WeightOverflow in
  let remainder := (product / denominator)%N in
  ok_or (floor ← checked_add u128_max whole remainder; checked_add u128_max floor 1)
    WeightOverflow.

(** What the loop threads: eligible raters, completed raters, total and
    completed weight. *)
Definition tally : Type := nat * list NodeId * N * N.

Section evaluate.
Context `{HO : HashOrder} `{Blake2b} `{Secp256k1}.

Definition count_entry (collector : BlockProductionRatingCollector.t) (acc : tally)
    (entry : ReputationEntry.t) : result tally PorRatingQuorumError :=
  let '(eligible, completed, total_weight, completed_weight) := acc in
  let node_id := ReputationEntry.node_id entry in
  if ReputationEntry.is_excluded entry ||
     ReputationState.is_ejected (BlockProductionRatingCollector.state collector) node_id
  then Ok acc
  else
    let weight := ReputationEntry.reputation entry in
    let? total_weight := ok_or (checked_add u128_max total_weight weight) WeightOverflow in
    let? complete := map_err QuorumCollector
      (BlockProductionRatingCollector.is_rater_complete collector node_id) in
    if complete : bool then
      let? completed_weight := ok_or (checked_add u128_max completed_weight weight)
        WeightOverflow in
      Ok (S eligible, completed ++ [node_id], total_weight, completed_weight)
    else Ok (S eligible, completed, total_weight, completed_weight).

Definition evaluate (self : t) (collector : BlockProductionRatingCollector.t) :
    result progress PorRatingQuorumError :=
  let? acc := try_fold (count_entry collector) (0, [], 0%N, 0%N)
    (ReputationState.state_entries (BlockProductionRatingCollector.state collector)) in
  let '(eligible, completed, total_weight, completed_weight) := acc in
  bail ZeroActiveWeight when total_weight = 0%N;
  let? required_weight :=
    strict_required_weight total_weight (numerator self) (denominator self) in
  Ok (mkProgress eligible completed total_weight completed_weight required_weight).

End evaluate.
End ClosurePolicy.

(** ** [lifecycle/cutoff.rs] *)

Inductive PorRatingCutoffError :=
  | ZeroWaveLag
  | RequiredWaveOverflow (finalized_wave wave_lag : N)
  | CutoffNotReached (observed_finalized_wave required_finalized_wave : N).

Module CutoffPolicy.

Definition DEFAULT_RATING_CUTOFF_WAVE_LAG : N := 1.

Record t := mk { wave_lag : N }.

Definition new (wave_lag : N) : result t PorRatingCutoffError :=
  bail ZeroWaveLag when wave_lag = 0%N; Ok (mk wave_lag).
Definition default : t := mk DEFAULT_RATING_CUTOFF_WAVE_LAG.

Definition required_finalized_wave (self : t) (opened : FinalizedRatingRound) :
    result N PorRatingCutoffError :=
  ok_or (checked_add u64_max (opened_wave opened) (wave_lag self))
    (RequiredWaveOverflow (opened_wave opened) (wave_lag self)).

Definition ensure_reached (self : t) (opened : FinalizedRatingRound) (observed_finalized_wave : N) :
    result N PorRatingCutoffError :=
  let? required := required_finalized_wave self opened in
  bail (CutoffNotReached observed_finalized_wave required)
    when (observed_finalized_wave < required)%N;
  Ok required.

End CutoffPolicy.

(** ** Transport: [receive_rating_envelope] *)

Inductive PorRatingTransportError :=
  | Encoding (error : BatchEncodingError)
  | Decoding (error : PorRatingWireError)
  | TransportCollector (error : PorRatingCollectorError).

Section receive.
Context `{HO : HashOrder} `{Blake2b} `{Secp256k1}.

Definition receive_rating_envelope (collector : BlockProductionRatingCollector.t)
    (encoded : list byte) : result BlockProductionRatingCollector.t PorRatingTransportError :=
  let? envelope := map_err Decoding (RatingWire.V1.decode encoded) in
  map_err TransportCollector (BlockProductionRatingCollector.insert_envelope collector envelope).

Definition receive_checkpoint_rating_envelope (collector : CheckpointRatingCollector.t)
    (encoded : list byte) : result CheckpointRatingCollector.t PorRatingTransportError :=
  let? envelope := map_err Decoding (RatingWire.V2.decode encoded) in
  map_err TransportCollector (CheckpointRatingCollector.insert_envelope collector envelope).

End receive.

(** ** [finalized_authorizations] of [por/evidence.rs] *)

Section authorizations.
Context `{HO : HashOrder} `{Bincode Payload.Payload.t} `{Bincode Payload.Payload.legacy}.

(** What a carrier of the source wave must say. *)
Definition wave_carrier (opened : FinalizedRatingRound) (carrier : PorEquivocationAuthorization) :
    Prop :=
  starts_with Evidence.POR_CHECKPOINT_EQUIVOCATION_AUTHORIZATION_DOMAIN (message carrier) = false ∧
  Payload.source_finalized_wave carrier = opened_wave opened ∧
  authorization_round carrier = rating_round_of opened.
#[global] Instance wave_carrier_dec opened carrier : Decision (wave_carrier opened carrier).
Proof. unfold wave_carrier. apply _. Defined.

Definition collect_authorizations (bl : Blocklace.t) (output : OrderedFinalizedOutput.t)
    (opened : FinalizedRatingRound) (messages : gset PorEquivocationAuthorization)
    (reference : BlockIdentity) : result (gset PorEquivocationAuthorization) PorError :=
  let? block := ok_or (Blocklace.get bl reference)
    (InvalidPenaltyEvents "finalized block is unavailable") in
  let? carriers := map_err InvalidPenaltyEvents
    (Payload.Payload.por_authorizations_from_bytes (payload (content block))) in
  if decide (carriers = []) then Ok messages
  else
    let? round := ok_or (Round.depth bl (identity block))
      (InvalidPenaltyEvents "authorization ancestry is unavailable") in
    if decide (Wave.wave_of_round round (OrderedFinalizedOutput.wavelength output) =
               Some (opened_wave opened))
    then Ok (messages ∪ list_to_set (filter (wave_carrier opened) carriers))
    else Ok messages.

Definition finalized_authorizations (bl : Blocklace.t) (output : OrderedFinalizedOutput.t)
    (opened : FinalizedRatingRound) : result (gset PorEquivocationAuthorization) PorError :=
  try_fold (collect_authorizations bl output opened) ∅ (OrderedFinalizedOutput.blocks output).

End authorizations.

(** ** [lifecycle/mod.rs] *)

Inductive PorRatingRoundError :=
  | RoundRating (error : SignedRatings.PorRatingError)
  | RoundPenalty (error : PorError)
  | RoundCollector (error : PorRatingCollectorError)
  | RoundTransport (error : PorRatingTransportError)
  | RoundQuorum (error : PorRatingQuorumError)
  | RoundCutoff (error : PorRatingCutoffError)
  | LocalBatchAlreadyProduced
  | LocalBatchNotProduced
  | PendingOutboundRatings (remaining : nat)
  | RoundNotClosed
  | RoundClosed
  | QuorumNotReached (completed_weight required_weight : N)
  | Broadcast (delivered remaining : nat) (message : string).

Inductive PorRatingRoundStatus := Open | Closed.

Inductive PorRatingRoundCloseReason :=
  | AllAuthorizedRaters
  | QuorumReached (completed_weight required_weight : N)
  | FinalizedWaveCutoff (observed_finalized_wave required_finalized_wave : N).

Module CompletedRound.

Record t := mk {
  opened : FinalizedRatingRound;
  batch : RatingBatch;
  close_reason : PorRatingRoundCloseReason;
  penalties : option ReputationPenaltyEvents;
  finalized_authorizations : gset PorEquivocationAuthorization;
  admitted_authorizations : gset PorEquivocationAuthorization
}.

Definition set_authorized_penalties (self : t) (events : ReputationPenaltyEvents)
    (admitted : gset PorEquivocationAuthorization) : t :=
  mk (opened self) (batch self) (close_reason self) (Some events) (finalized_authorizations self)
    admitted.

Definition of_shard (shard_id : list byte) (carriers : gset PorEquivocationAuthorization) :
    gset PorEquivocationAuthorization :=
  filter (λ carrier, authorization_shard_id carrier = shard_id) carriers.

Definition validate_complete_authorizations (self : t) (shard_id : list byte) :
    result unit PorError :=
  bail (InvalidPenaltyEvents
    "admitted proofs do not match the complete finalized authorization set")
    when of_shard shard_id (finalized_authorizations self) ≠ admitted_authorizations self;
  Ok tt.

End CompletedRound.

(** The state of a [PorRatingRoundCoordinator]. *)
Module Coordinator.

Record t := mk {
  blocklace : Blocklace.t;
  output : OrderedFinalizedOutput.t;
  opened : FinalizedRatingRound;
  state : ReputationState.t;
  config : PorConfig.t;
  collector : option BlockProductionRatingCollector.t;
  local_batch : option RatingBatch;
  outbound_envelopes : list (list byte);
  next_outbound : nat;
  completed_batch : option RatingBatch;
  close_reason : option PorRatingRoundCloseReason
}.

Definition status (self : t) : PorRatingRoundStatus :=
  match completed_batch self with Some _ => Closed | None => Open end.

Definition with_collector (self : t) (c : BlockProductionRatingCollector.t) : t :=
  mk (blocklace self) (output self) (opened self) (state self) (config self) (Some c)
    (local_batch self) (outbound_envelopes self) (next_outbound self) (completed_batch self)
    (close_reason self).
Definition with_local (self : t) (c : BlockProductionRatingCollector.t) (batch : RatingBatch)
    (outbound : list (list byte)) : t :=
  mk (blocklace self) (output self) (opened self) (state self) (config self) (Some c)
    (Some batch) outbound 0 (completed_batch self) (close_reason self).
Definition with_next (self : t) (next : nat) : t :=
  mk (blocklace self) (output self) (opened self) (state self) (config self) (collector self)
    (local_batch self) (outbound_envelopes self) next (completed_batch self)
    (close_reason self).
Definition with_closed (self : t) (batch : RatingBatch) (reason : PorRatingRoundCloseReason) : t :=
  mk (blocklace self) (output self) (opened self) (state self) (config self) None
    (local_batch self) (outbound_envelopes self) (next_outbound self) (Some batch) (Some reason).

Definition pending_outbound (self : t) : nat :=
  length (outbound_envelopes self) - next_outbound self.

Definition collected_len (self : t) : nat :=
  match collector self, completed_batch self with
  | Some collector, _ => BlockProductionRatingCollector.len collector
  | None, Some batch => length (batch_ratings batch)
  | None, None => 0
  end.

Definition require_open (self : t) : result unit PorRatingRoundError :=
  match completed_batch self with Some _ => Err RoundClosed | None => Ok tt end.

Definition require_close_prerequisites (self : t) : result unit PorRatingRoundError :=
  let? _ := require_open self in
  bail LocalBatchNotProduced when local_batch self = None;
  bail (PendingOutboundRatings (pending_outbound self)) when pending_outbound self ≠ 0;
  Ok tt.

(** Delivery stops at the first failure and keeps the position; the second
    component is what the broadcaster was handed. *)
Fixpoint deliver (broadcast : list byte → result unit string) (envelopes : list (list byte)) :
    nat * list (list byte) * option string :=
  match envelopes with
  | [] => (0, [], None)
  | envelope :: envelopes =>
    match broadcast envelope with
    | Err message => (0, [envelope], Some message)
    | Ok _ =>
      let '(delivered, handed, failure) := deliver broadcast envelopes in
      (S delivered, envelope :: handed, failure)
    end
  end.

Definition broadcast_pending (self : t) (broadcast : list byte → result unit string) :
    result nat PorRatingRoundError * t * list (list byte) :=
  match require_open self with
  | Err e => (Err e, self, [])
  | Ok _ =>
    if decide (local_batch self = None) then (Err LocalBatchNotProduced, self, [])
    else
      let '(delivered, handed, failure) :=
        deliver broadcast (drop (next_outbound self) (outbound_envelopes self)) in
      let self := with_next self (next_outbound self + delivered) in
      match failure with
      | Some message => (Err (Broadcast delivered (pending_outbound self) message), self, handed)
      | None => (Ok delivered, self, handed)
      end
  end.

Section coordinator.
Context `{HO : HashOrder} `{Blake2b} `{Secp256k1}.

Definition new (bl : Blocklace.t) (output : OrderedFinalizedOutput.t)
    (opened : FinalizedRatingRound) (state : ReputationState.t) (config : PorConfig.t) :
    result t PorRatingRoundError :=
  let? collector := map_err RoundCollector
    (BlockProductionRatingCollector.new bl output opened state config) in
  Ok (mk bl output opened state config (Some collector) None [] 0 None None).

(** [expect("open coordinator always has a collector")]. *)
Definition open_collector (self : t) : BlockProductionRatingCollector.t :=
  default (BlockProductionRatingCollector.mk (blocklace self) (output self) (opened self)
    (state self) (config self) ∅) (collector self).

Definition quorum_progress (self : t) (policy : ClosurePolicy.t) :
    result ClosurePolicy.progress PorRatingRoundError :=
  let? _ := require_open self in
  map_err RoundQuorum (ClosurePolicy.evaluate policy (open_collector self)).

Definition produce_local_batch `{Secp256k1Sign} (self : t) (rater : NodeId)
    (private_key : list byte) : result t PorRatingRoundError :=
  let? _ := require_open self in
  bail LocalBatchAlreadyProduced when local_batch self ≠ None;
  let? batch := map_err RoundRating
    (SignedRatings.build_finalized_block_production_rating_batch (blocklace self) (output self)
      (opened self) rater (state self) (config self) private_key) in
  let? outbound := map_err (λ e, RoundTransport (Encoding e))
    (encode_rating_batch (opened_wave (opened self)) batch) in
  let? collector := map_err RoundCollector
    (BlockProductionRatingCollector.insert_batch (open_collector self) batch) in
  Ok (with_local self collector batch outbound).

Definition receive_envelope (self : t) (encoded : list byte) : result t PorRatingRoundError :=
  let? _ := require_open self in
  let? collector := map_err RoundTransport
    (receive_rating_envelope (open_collector self) encoded) in
  Ok (with_collector self collector).

Definition finalize (self : t) (reason : PorRatingRoundCloseReason) :
    result t PorRatingRoundError :=
  let? batch := map_err RoundCollector
    (BlockProductionRatingCollector.build_complete_batch (open_collector self)) in
  Ok (with_closed self batch reason).

Definition close_if_quorum (self : t) (policy : ClosurePolicy.t) :
    result t PorRatingRoundError :=
  let? _ := require_close_prerequisites self in
  let? progress := quorum_progress self policy in
  let completed := ClosurePolicy.completed_weight progress in
  let required := ClosurePolicy.required_weight progress in
  bail (QuorumNotReached completed required) when ClosurePolicy.is_reached progress = false;
  finalize self (QuorumReached completed required).

Definition close_at_finalized_wave (self : t) (policy : CutoffPolicy.t)
    (observed_finalized_wave : N) : result t PorRatingRoundError :=
  let? _ := require_close_prerequisites self in
  let? required := map_err RoundCutoff
    (CutoffPolicy.ensure_reached policy (opened self) observed_finalized_wave) in
  finalize self (FinalizedWaveCutoff observed_finalized_wave required).

(** The unwrapped close reason is recorded whenever a batch is. *)
Definition into_completed `{Bincode Payload.Payload.t} `{Bincode Payload.Payload.legacy}
    (self : t) : result CompletedRound.t PorRatingRoundError :=
  let? batch := ok_or (completed_batch self) RoundNotClosed in
  let? authorizations := map_err RoundPenalty
    (finalized_authorizations (blocklace self) (output self) (opened self)) in
  Ok (CompletedRound.mk (opened self) batch (default AllAuthorizedRaters (close_reason self)) None
        authorizations ∅).

End coordinator.
End Coordinator.

(** ** [por/transition.rs] *)

Module RoundTransition.

Record AppliedPorReputationRound := mkApplied {
  applied_reason : PorRatingRoundCloseReason;
  applied_block : ReputationBlock;
  applied_weights : gmap NodeId N
}.

Section transition.
Context `{Blake2b}.

Definition stage_reputation_block (completed : CompletedRound.t) (state : ReputationState.t)
    (config : PorConfig.t) (shard_id : list byte) (block : ReputationBlock) :
    result (ReputationState.t * AppliedPorReputationRound) PorError :=
  let? _ := CompletedRound.validate_complete_authorizations completed shard_id in
  let? staged := ReputationState.apply_reputation_block_with_penalties state shard_id
    (opened_wave (CompletedRound.opened completed))
    (batch_ratings (CompletedRound.batch completed)) block config
    (CompletedRound.penalties completed) in
  Ok (staged, mkApplied (CompletedRound.close_reason completed) block
        (Weights.reputation_weights staged)).

Definition stage_completed_reputation_round (completed : CompletedRound.t)
    (state : ReputationState.t) (config : PorConfig.t) (shard_id : list byte) :
    result (ReputationState.t * AppliedPorReputationRound) PorError :=
  let? _ := CompletedRound.validate_complete_authorizations completed shard_id in
  let batch := CompletedRound.batch completed in
  let? reputation_list := Replay.replay_reputation_transition_with_penalties
    (ReputationState.snapshot_vector state) (batch_ratings batch) (batch_round batch) config
    (CompletedRound.penalties completed) in
  let? block := Building.build_reputation_block_with_penalties
    (mkContext shard_id (opened_wave (CompletedRound.opened completed))
       (ReputationState.latest_block state)) batch reputation_list config
    (CompletedRound.penalties completed) in
  stage_reputation_block completed state config shard_id block.

Definition stage_attested_checkpoint (completed : CompletedRound.t) (state : ReputationState.t)
    (config : PorConfig.t) (shard_id : list byte) (block : ReputationBlock) :
    result (ReputationState.t * AppliedPorReputationRound) PorError :=
  stage_reputation_block completed state config shard_id block.

(** [*state = staged] after every fallible step: an error keeps the state. *)
Definition apply_completed_reputation_round (completed : CompletedRound.t)
    (state : ReputationState.t) (config : PorConfig.t) (shard_id : list byte) :
    result AppliedPorReputationRound PorError * ReputationState.t :=
  match stage_completed_reputation_round completed state config shard_id with
  | Ok (staged, applied) => (Ok applied, staged)
  | Err e => (Err e, state)
  end.

End transition.
End RoundTransition.
