(* ===== verification/HonestFacts.v ===== *)
(** * Honest raters

    The batch that a rater builds from its own evidence has exactly the
    ratings that every collector of the same evidence expects of it, whether
    they arrive as a batch or as envelopes. *)

From S2P Require Import Prelude Types Lace Bytes Crypto PorTypes PorMath PorCommit PorAudit.
From S2P Require Import PorAuditFacts PorMathFacts PorState FinalOutput RatingFlow RatingWire.
From S2P Require Import Collector CollectorFacts RatingFlowFacts RatingRound.
From stdpp Require Import options.

(** A permutation of one side of a pairing permutes the other side. *)
Lemma Forall2_permuted {A B} (P : A → B → Prop) l k k' :
  Forall2 P l k → k ≡ₚ k' → ∃ l', l ≡ₚ l' ∧ Forall2 P l' k'.
Proof.
  intros Hf E. revert l Hf. induction E as [|y k k' _ IH|y z k|k1 k2 k3 _ IH1 _ IH2]; intros l Hf.
  - exists l. by split.
  - apply Forall2_cons_inv_r in Hf as (x & l' & Hx & Hl & ->).
    destruct (IH _ Hl) as (l'' & E & Hf). exists (x :: l''). split; [by constructor|by constructor].
  - apply Forall2_cons_inv_r in Hf as (x & l1 & Hx & Hl1 & ->).
    apply Forall2_cons_inv_r in Hl1 as (x' & l2 & Hx' & Hl2 & ->).
    exists (x' :: x :: l2). split; [by constructor|]. by repeat constructor.
  - destruct (IH1 _ Hf) as (l1 & E1 & Hf1), (IH2 _ Hf1) as (l2 & E2 & Hf2).
    exists l2. split; [by etrans|done].
Qed.

Lemma try_fold_app {A B E} (f : B → A → result B E) acc l k :
  try_fold f acc (l ++ k) = let? acc := try_fold f acc l in try_fold f acc k.
Proof.
  revert acc. induction l as [|x l IH]; intros acc; cbn; [done|]. destruct (f acc x); cbn; [|done].
  apply IH.
Qed.

(** ** Batches and single insertions *)

Lemma insert_batch_fold p ratings batch :
  batch_round batch = policy_round p →
  Collector.insert_batch p ratings batch =
    try_fold (Collector.insert p) ratings (batch_ratings batch).
Proof. intros Hr. unfold Collector.insert_batch. by rewrite decide_False by tauto. Qed.

Section honest_policy.
Context (p : RatingPolicy).

(** [rs] is what [x] owes: an honest rating per expected interaction. *)
Definition owes (x : NodeId) (rs : list RatingRecord) : Prop :=
  ∃ expected, expects p x expected ∧ NoDup (recipient <$> rs) ∧
    (∀ r, r ∈ rs → ∃ i, i ∈ expected ∧ honest p x i r) ∧
    (∀ i, i ∈ expected → ∃ r, r ∈ rs ∧ recipient r = recipient_of p i).

Lemma owes_perm x rs rs' : rs ≡ₚ rs' → owes x rs → owes x rs'.
Proof.
  intros E (expected & Hex & Hnd & H1 & H2). exists expected. split_and!; [done|by rewrite <-E|..].
  - intros r. rewrite <-E. apply H1.
  - intros i Hi. destruct (H2 i Hi) as (r & Hr & ?). exists r. by rewrite <-E.
Qed.

(** A collector without ratings by [x] accepts what [x] owes, and [x] is then
    complete. *)
Lemma owed_accepted ratings x rs :
  collected_ok p ratings → authorize p x = Ok tt → may_complete p x = Ok tt → owes x rs →
  (∀ r, r ∈ collected_values ratings → rater r ≠ x) →
  ∃ ratings', try_fold (Collector.insert p) ratings rs = Ok ratings' ∧ collected_ok p ratings' ∧
    Collector.is_rater_complete p ratings' x = Ok true ∧ ratings ⊆ ratings' ∧
    ∀ r, r ∈ collected_values ratings' ↔ r ∈ collected_values ratings ∨ r ∈ rs.
Proof.
  intros Hok Ha Hm (expected & Hex & Hnd & H1 & H2) Hfree.
  destruct (honest_batch_inserted p ratings x expected rs) as (ratings' & Hb & Hin); [done..| |].
  { intros r Hr. destruct (ratings !! (x, recipient r)) as [r'|] eqn:E; [exfalso|done].
    apply (Hfree r'); [apply elem_of_collected; eauto|]. apply Hok in E as [E _].
    unfold rating_key in E. congruence. }
  pose proof Hb as Hb'. rewrite insert_batch_fold in Hb' by done. exists ratings'. split; [done|].
  apply insert_batch_ok in Hb as (Hok' & Hsub & Hv); [|done]. split; [done|]. split; [|done].
  destruct (complete_iff p ratings' x expected Hok' Hex Ha Hm) as (b & Hc & Hbt). rewrite Hc. f_equal.
  apply Hbt. intros i Hi. destruct (H2 i Hi) as (r & Hr & <-). rewrite Hin by done. eauto.
Qed.
End honest_policy.

Section honest.
Context `{HO : HashOrder} `{HB : Blake2b} `{HS : Secp256k1} `{HK : Secp256k1Sign}.
Import SignedRatings FinalizedInteractions.

(** ** What signing produces *)

Lemma signed_interaction i config key r :
  sign_admitted_interaction i config key = Ok r →
  let e := Interactions.admitted_evidence i in
  rater r = interaction_rater e ∧ recipient r = interaction_recipient e ∧
  interaction_ref r = Some (evidence_ref e) ∧
  Interactions.score_admitted_interaction i config = Ok (score r) ∧
  rating_round r = interaction_round e ∧ validate_signed_rating r config = Ok tt.
Proof.
  unfold sign_admitted_interaction. intros H. invert_Ok H. injection H as ->.
  apply map_err_Ok in Hok, Hok2. unfold Interactions.build_rating_from_interaction in Hok2.
  rewrite Hok in Hok2. cbn [result_bind] in Hok2.
  apply result_bind_Ok in Hok2 as ([] & Hv & [= <-]). cbn in *. split_and!; try done.
  unfold validate_signed_rating. by rewrite Hv.
Qed.

Lemma signed_checkpoint i source config key r :
  (let? rating := checkpoint_rating i source config in sign_checkpoint_rating rating source config key)
    = Ok r →
  let e := Interactions.admitted_checkpoint_evidence i in
  rater r = checkpoint_rater e ∧ recipient r = checkpoint_recipient e ∧
  interaction_ref r = Some (checkpoint_evidence_ref e) ∧
  Interactions.score_admitted_checkpoint_interaction i config = Ok (score r) ∧
  rating_round r = source_round source ∧ validate_checkpoint_signed_rating r source config = Ok tt.
Proof.
  intros (u & (s & Hs%map_err_Ok & [= <-])%result_bind_Ok & H)%result_bind_Ok.
  unfold sign_checkpoint_rating in H. invert_Ok H. injection H as <-. done.
Qed.

(** A rater's ratings of its own interactions, sorted into a batch. *)
Lemma signed_batch_owes p x expected (sign : interaction p → result RatingRecord PorRatingError) rs
    batch round config :
  expects p x expected → (∀ i r, i ∈ expected → sign i = Ok r → honest p x i r) →
  try_map sign expected = Ok rs → Ratings.build_rating_batch round rs config = Ok batch →
  owes p x (batch_ratings batch) ∧ batch_round batch = round.
Proof.
  intros Hex Hsign Hrs%try_map_Ok (_ & _ & ->)%build_rating_batch_Ok. split; [|done].
  apply (owes_perm p x rs); [symmetry; apply sort_by_key_perm|].
  assert (∀ i r n, expected !! n = Some i → rs !! n = Some r → honest p x i r) as Hh.
  { intros i r n Hi Hr. apply Hsign; [by eapply list_elem_of_lookup_2|].
    exact (Forall2_lookup_lr _ _ _ _ _ _ Hrs Hi Hr). }
  assert ((recipient <$> rs) = (recipient_of p <$> expected)) as Erec.
  { apply list_eq_same_length with (n := length rs); rewrite ?length_fmap;
      [by apply Forall2_length in Hrs|done|].
    intros n y z _. rewrite !list_lookup_fmap. intros (r & Hr & ->)%fmap_Some (i & Hi & ->)%fmap_Some.
    by destruct (Hh i r n Hi Hr) as (_ & ? & _). }
  exists expected. split_and!; [done|rewrite Erec; apply Hex|..].
  - intros r [n Hr]%list_elem_of_lookup. destruct (Forall2_lookup_r _ _ _ _ _ Hrs Hr) as (i & Hi & _).
    exists i. split; [by eapply list_elem_of_lookup_2|by eapply Hh].
  - intros i [n Hi]%list_elem_of_lookup. destruct (Forall2_lookup_l _ _ _ _ _ Hrs Hi) as (r & Hr & _).
    exists r. split; [by eapply list_elem_of_lookup_2|]. by destruct (Hh i r n Hi Hr) as (_ & ? & _).
Qed.

(** ** Waves *)

Lemma wave_batch_owed (c : BlockProductionRatingCollector.t) x key batch :
  build_finalized_block_production_rating_batch (BlockProductionRatingCollector.blocklace c)
    (BlockProductionRatingCollector.output c) (BlockProductionRatingCollector.opened c) x
    (BlockProductionRatingCollector.state c) (BlockProductionRatingCollector.config c) key = Ok batch →
  owes (BlockProductionRatingCollector.policy c) x (batch_ratings batch) ∧
  batch_round batch = rating_round_of (BlockProductionRatingCollector.opened c).
Proof.
  unfold build_finalized_block_production_rating_batch, build_verified_rating_batch.
  intros (l & Hl%map_err_Ok & (rs & Hrs & (? & _ & Hb%map_err_Ok)%result_bind_Ok)%result_bind_Ok)%result_bind_Ok.
  eapply (signed_batch_owes (BlockProductionRatingCollector.policy c)); [|clear Hrs|exact Hrs|exact Hb].
  - split; [exact Hl|]. exact (law_recipients _ x l Hl).
  - intros i r Hi Hr. apply signed_interaction in Hr as (Hx & Hrec & Href & Hsc & Hround & Hv).
    apply admitted_wave_Ok in Hl as (m & -> & _). apply list_elem_of_fmap in Hi as (e & -> & _).
    by split_and!.
Qed.

Lemma receive_all (c : BlockProductionRatingCollector.t) rs envelopes ratings' :
  Forall2 (λ r bytes, RatingWire.V1.decode bytes =
    Ok (RatingWire.V1.mk (opened_wave (BlockProductionRatingCollector.opened c)) r)) rs envelopes →
  try_fold (Collector.insert (BlockProductionRatingCollector.policy c))
    (BlockProductionRatingCollector.ratings c) rs = Ok ratings' →
  try_fold receive_rating_envelope c envelopes =
    Ok (BlockProductionRatingCollector.with_ratings c ratings').
Proof.
  intros Hd. revert c envelopes Hd. induction rs as [|r rs IH]; intros c envelopes Hd Hf.
  { inversion Hd; subst. injection Hf as <-. by destruct c. }
  inversion Hd as [|? bytes ? bs Hr Hd']; subst. cbn [try_fold] in Hf |- *.
  apply result_bind_Ok in Hf as (staged & Hs & Hf).
  unfold receive_rating_envelope at 1. rewrite Hr. cbn [map_err result_bind].
  unfold BlockProductionRatingCollector.insert_envelope. cbn [RatingWire.V1.finalized_wave].
  rewrite decide_False by tauto. unfold BlockProductionRatingCollector.insert.
  cbn [RatingWire.V1.rating]. rewrite Hs. cbn [map_err result_bind BlockProductionRatingCollector.updated].
  by rewrite (IH (BlockProductionRatingCollector.with_ratings c staged) bs).
Qed.

(** ** Checkpoints *)

Lemma checkpoint_batch_owed (c : CheckpointRatingCollector.t) x key batch :
  build_finalized_checkpoint_rating_batch (CheckpointRatingCollector.blocklace c)
    (CheckpointRatingCollector.output c) (CheckpointRatingCollector.checkpoint c) x
    (CheckpointRatingCollector.state c) (CheckpointRatingCollector.config c) key = Ok batch →
  owes (CheckpointRatingCollector.policy c) x (batch_ratings batch) ∧
  batch_round batch = por_round (CheckpointRatingCollector.checkpoint c) ∧
  may_complete (CheckpointRatingCollector.policy c) x = Ok tt ∧
  validate_source (CheckpointRatingCollector.source c) = Ok tt.
Proof.
  unfold build_finalized_checkpoint_rating_batch, build_verified_checkpoint_rating_batch.
  intros ([] & Hm%map_err_Ok & (l & Hl%map_err_Ok & (rs & Hrs & H)%result_bind_Ok)%result_bind_Ok)%result_bind_Ok.
  apply result_bind_Ok in H as ([] & Hsrc%map_err_Ok & (? & _ & Hb%map_err_Ok)%result_bind_Ok).
  pose proof (checkpoint_policy_laws c Hsrc) as Hlaws.
  assert (owes (CheckpointRatingCollector.policy c) x (batch_ratings batch) ∧
    batch_round batch = por_round (CheckpointRatingCollector.checkpoint c)) as [Ho Hr].
  { eapply (signed_batch_owes (CheckpointRatingCollector.policy c)); [|clear Hrs|exact Hrs|exact Hb].
    - split; [exact Hl|]. exact (@law_recipients _ Hlaws x l Hl).
    - intros i r Hi Hr. apply signed_checkpoint in Hr as (Hx & Hrec & Href & Hsc & Hround & Hv).
      apply admitted_checkpoint_Ok in Hl as (m & -> & _).
      apply list_elem_of_fmap in Hi as (e & -> & _). by split_and!. }
  split_and!; [done..| |done]. cbn. unfold CheckpointRatingCollector.source. by rewrite Hm.
Qed.

Lemma receive_all_checkpoint (c : CheckpointRatingCollector.t) rs envelopes ratings' :
  Forall2 (λ r bytes, RatingWire.V2.decode bytes =
    Ok (RatingWire.V2.mk (CheckpointRatingCollector.source c) r)) rs envelopes →
  try_fold (Collector.insert (CheckpointRatingCollector.policy c))
    (CheckpointRatingCollector.ratings c) rs = Ok ratings' →
  try_fold receive_checkpoint_rating_envelope c envelopes =
    Ok (CheckpointRatingCollector.with_ratings c ratings').
Proof.
  intros Hd. revert c envelopes Hd. induction rs as [|r rs IH]; intros c envelopes Hd Hf.
  { inversion Hd; subst. injection Hf as <-. by destruct c. }
  inversion Hd as [|? bytes ? bs Hr Hd']; subst. cbn [try_fold] in Hf |- *.
  apply result_bind_Ok in Hf as (staged & Hs & Hf).
  unfold receive_checkpoint_rating_envelope at 1. rewrite Hr. cbn [map_err result_bind].
  unfold CheckpointRatingCollector.insert_envelope. cbn [RatingWire.V2.source].
  rewrite decide_False by tauto. unfold CheckpointRatingCollector.insert.
  cbn [RatingWire.V2.rating]. rewrite Hs. cbn [map_err result_bind CheckpointRatingCollector.updated].
  by rewrite (IH (CheckpointRatingCollector.with_ratings c staged) bs).
Qed.

(** What one honest rater sends to a checkpoint collector: the envelopes of the
    batch it builds from the collector's evidence, in some order. *)
Definition honest_delivery (c : CheckpointRatingCollector.t) (x : NodeId)
    (received : list (list byte)) : Prop :=
  ∃ key batch envelopes,
    build_finalized_checkpoint_rating_batch (CheckpointRatingCollector.blocklace c)
      (CheckpointRatingCollector.output c) (CheckpointRatingCollector.checkpoint c) x
      (CheckpointRatingCollector.state c) (CheckpointRatingCollector.config c) key = Ok batch ∧
    encode_checkpoint_rating_batch (CheckpointRatingCollector.source c) batch = Ok envelopes ∧
    received ≡ₚ envelopes.

Lemma checkpoint_delivery c x received :
  collected_ok (CheckpointRatingCollector.policy c) (CheckpointRatingCollector.ratings c) →
  (∀ r, r ∈ collected_values (CheckpointRatingCollector.ratings c) → rater r ≠ x) →
  x ∈ CheckpointRatingCollector.authorized_raters c →
  fits_u64 (PorConfig.maximum_rating (CheckpointRatingCollector.config c)) →
  honest_delivery c x received →
  ∃ ratings', try_fold receive_checkpoint_rating_envelope c received =
      Ok (CheckpointRatingCollector.with_ratings c ratings') ∧
    collected_ok (CheckpointRatingCollector.policy c) ratings' ∧
    Collector.is_rater_complete (CheckpointRatingCollector.policy c) ratings' x = Ok true ∧
    CheckpointRatingCollector.ratings c ⊆ ratings' ∧
    ∀ r, r ∈ collected_values ratings' →
      r ∈ collected_values (CheckpointRatingCollector.ratings c) ∨ rater r = x.
Proof.
  intros Hok Hfree Hx Hmax (key & batch & envelopes & Hb & He & Hperm).
  apply checkpoint_batch_owed in Hb as (Howes & _ & Hmay & _).
  pose proof Howes as (expected & _ & _ & Hh & _).
  assert (Forall (λ r, fits_u64 (score r)) (batch_ratings batch)) as Hscores.
  { apply Forall_forall. intros r Hr. destruct (Hh r Hr) as (i & Hi & _ & _ & _ & Hsc & _).
    cbn in Hsc. unfold Interactions.score_admitted_checkpoint_interaction,
      Interactions.score_interaction_kind in Hsc.
    apply bail_Ok in Hsc as [_ Hsc]. destruct (checkpoint_kind _); injection Hsc as <-; done. }
  pose proof (encoded_v2_decodes _ _ _ He Hscores) as Hdec.
  destruct (Forall2_permuted _ _ _ _ Hdec (Permutation_sym Hperm)) as (rs & Hrs & Hdec').
  assert (authorize (CheckpointRatingCollector.policy c) x = Ok tt) as Ha
    by (cbn; by rewrite decide_False by tauto).
  destruct (owed_accepted (CheckpointRatingCollector.policy c) _ x rs Hok Ha Hmay
    (owes_perm _ _ _ _ Hrs Howes) Hfree) as (ratings' & Hf & Hok' & Hc & Hsub & Hv).
  exists ratings'. split; [by apply (receive_all_checkpoint c rs)|]. split_and!; [done..|].
  intros r [?|Hr]%Hv; [by left|right]. rewrite <-Hrs in Hr. by destruct (Hh r Hr) as (i & _ & ? & _).
Qed.

(** Deliveries of distinct authorized raters, one after the other. *)
Lemma checkpoint_deliveries c (deliveries : list (NodeId * list (list byte))) :
  PolicyLaws (CheckpointRatingCollector.policy c) →
  collected_ok (CheckpointRatingCollector.policy c) (CheckpointRatingCollector.ratings c) →
  NoDup deliveries.*1 →
  (∀ r, r ∈ collected_values (CheckpointRatingCollector.ratings c) → rater r ∉ deliveries.*1) →
  (∀ x, x ∈ deliveries.*1 → x ∈ CheckpointRatingCollector.authorized_raters c) →
  fits_u64 (PorConfig.maximum_rating (CheckpointRatingCollector.config c)) →
  (∀ x received, (x, received) ∈ deliveries → honest_delivery c x received) →
  ∃ ratings', try_fold receive_checkpoint_rating_envelope c (mjoin deliveries.*2) =
      Ok (CheckpointRatingCollector.with_ratings c ratings') ∧
    collected_ok (CheckpointRatingCollector.policy c) ratings' ∧
    (∀ x, x ∈ deliveries.*1 →
      Collector.is_rater_complete (CheckpointRatingCollector.policy c) ratings' x = Ok true) ∧
    CheckpointRatingCollector.ratings c ⊆ ratings'.
Proof.
  intros Hlaws. revert c Hlaws. induction deliveries as [|[x received] deliveries IH];
    intros c Hlaws Hok Hnd Hfree Hauth Hmax Hh.
  { exists (CheckpointRatingCollector.ratings c). cbn. split_and!; [by destruct c|done| |done].
    by intros x ?%elem_of_nil. }
  rewrite !fmap_cons in *. cbn [fst snd] in *. apply NoDup_cons in Hnd as [Hx Hnd].
  destruct (checkpoint_delivery c x received) as (r1 & Hf & Hok1 & Hc1 & Hsub1 & Hv1); [done|..].
  { intros r Hr E. apply (Hfree r Hr). rewrite E. by left. }
  { apply Hauth. by left. }
  { done. }
  { apply Hh. by left. }
  set (c1 := CheckpointRatingCollector.with_ratings c r1) in *.
  destruct (IH c1 Hlaws Hok1 Hnd) as (r2 & Hf2 & Hok2 & Hc2 & Hsub2).
  { intros r [Hr|E]%Hv1; [|by rewrite E]. intros Hin. apply (Hfree r Hr). by right. }
  { intros y ?. apply Hauth. by right. }
  { done. }
  { intros y rc ?. apply Hh. by right. }
  exists r2. split_and!.
  - cbn [mjoin list_join]. rewrite try_fold_app, Hf. exact Hf2.
  - exact Hok2.
  - intros y [->|Hy]%elem_of_cons; [|by apply Hc2].
    by apply (complete_mono (CheckpointRatingCollector.policy c) r1).
  - by etrans.
Qed.

End honest.
