(* ===== verification/RatingRoundFacts.v ===== *)
(** * Properties of rating rounds

    The arithmetic of the quorum, what the tally counts, the invariant of the
    coordinator over any interleaving of its operations, and the transition
    that a closed round drives. *)

From S2P Require Import Prelude Types Lace Bytes Crypto Samples PorTypes PorMath PorMathFacts.
From S2P Require Import PorCommit PorAudit PorAuditFacts PorState FinalOutput RatingWire.
From S2P Require Import RatingFlow Collector CollectorFacts RatingFlowFacts RatingRound.
From S2P Require Import HonestFacts.
From stdpp Require Import options.

(** ** The quorum *)

Lemma strict_required_exact total n d :
  (0 < n)%N → (n < d)%N → (d <= u64_max)%N → (total <= u128_max)%N →
  ClosurePolicy.strict_required_weight total n d = Ok (total * n / d + 1)%N.
Proof.
  intros Hn Hnd Hd Ht. unfold ClosurePolicy.strict_required_weight.
  assert (total * n / d = total / d * n + total mod d * n / d)%N as E.
  { rewrite (N.div_mod total d) at 1 by lia.
    replace ((d * (total / d) + total mod d) * n)%N with (total mod d * n + (total / d * n) * d)%N by lia.
    rewrite N.div_add by lia. lia. }
  assert (total * n / d <= total)%N as Hle by (apply N.div_le_upper_bound; nia).
  assert (total = 0 ∨ total * n / d < total)%N as Hlt.
  { destruct (decide (total = 0%N)); [by left|right]. apply N.div_lt_upper_bound; nia. }
  assert (total mod d < d)%N as Hm by (apply N.mod_upper_bound; lia).
  assert (u64_max * u64_max <= u128_max)%N as Hu by (by vm_compute).
  rewrite E in Hle, Hlt |- *. clear E.
  assert (total / d * n <= u128_max ∧ total mod d * n <= u128_max)%N as [Hq Hp].
  { split; [|nia]. revert Hle. generalize (total / d * n)%N, (total mod d * n / d)%N. lia. }
  rewrite (checked_mul_fits _ _ _ Hq), (checked_mul_fits _ _ _ Hp). cbn [ok_or result_bind].
  revert Hle Hlt. clear -Ht. generalize (total / d * n)%N, (total mod d * n / d)%N.
  intros q k Hle Hlt. rewrite checked_add_fits by lia. cbn [mbind option_bind].
  rewrite checked_add_fits; [done|]. destruct Hlt; [|lia]. assert (q + k = 0)%N as -> by lia. done.
Qed.

Lemma strict_threshold total n d weight :
  (0 < d)%N → (total * n / d + 1 <= weight)%N ↔ (total * n < weight * d)%N.
Proof.
  intros Hd. split.
  - intros Hw. pose proof (N.mul_succ_div_gt (total * n) d ltac:(lia)). nia.
  - intros Hw. assert (total * n / d < weight)%N by (apply N.div_lt_upper_bound; lia). lia.
Qed.

Section tally.
Context `{HO : HashOrder} `{HB : Blake2b} `{HS : Secp256k1}.
Implicit Types (c : BlockProductionRatingCollector.t) (l : list ReputationEntry.t).

(** The entries that take part, and those of them that are complete. *)
Definition eligible c (entry : ReputationEntry.t) : Prop :=
  ReputationEntry.is_excluded entry = false ∧
  ReputationState.is_ejected (BlockProductionRatingCollector.state c)
    (ReputationEntry.node_id entry) = false.
#[global] Instance eligible_dec c entry : Decision (eligible c entry).
Proof. unfold eligible. apply _. Defined.
Definition completed c (entry : ReputationEntry.t) : Prop :=
  BlockProductionRatingCollector.is_rater_complete c (ReputationEntry.node_id entry) = Ok true.
#[global] Instance completed_dec c entry : Decision (completed c entry).
Proof.
  unfold completed. destruct (BlockProductionRatingCollector.is_rater_complete c _) as [[]|];
    [by left|right; congruence..].
Defined.
Definition weight_in (P : ReputationEntry.t → Prop) `{∀ e, Decision (P e)} l : N :=
  sum_N (map ReputationEntry.reputation (filter P l)).

Lemma weight_in_cons (P : ReputationEntry.t → Prop) `{∀ e, Decision (P e)} e l :
  weight_in P (e :: l) =
    ((if decide (P e) then ReputationEntry.reputation e else 0) + weight_in P l)%N.
Proof. unfold weight_in. rewrite filter_cons. by case_decide. Qed.

Lemma tally_spec c l n done total weight out :
  try_fold (ClosurePolicy.count_entry c) (n, done, total, weight) l = Ok out →
  let counted e := eligible c e ∧ completed c e in
  out = (n + length (filter (eligible c) l),
    done ++ map ReputationEntry.node_id (filter counted l),
    (total + weight_in (eligible c) l)%N, (weight + weight_in counted l)%N) ∧
  ((total <= u128_max)%N → (total + weight_in (eligible c) l <= u128_max)%N).
Proof.
  cbn. revert n done total weight. induction l as [|e l IH]; intros n dn total weight Hf.
  { injection Hf as <-. unfold weight_in. cbn. rewrite app_nil_r, Nat.add_0_r, !N.add_0_r. done. }
  cbn [try_fold] in Hf. apply result_bind_Ok in Hf as (acc & Hc & Hf).
  rewrite !weight_in_cons, !filter_cons. unfold ClosurePolicy.count_entry in Hc.
  destruct (_ || _) eqn:Eo.
  - injection Hc as <-. assert (¬ eligible c e) as Hn.
    { intros [E1 E2]. rewrite E1, E2 in Eo. done. }
    repeat (case_decide; [tauto|]). rewrite !N.add_0_l. by apply IH.
  - apply orb_false_iff in Eo as [E1 E2]. assert (eligible c e) as He by done.
    repeat (rewrite (decide_True _ _ He)).
    apply result_bind_Ok in Hc as (t & [-> Ht]%ok_or_Ok%checked_add_Some & Hc).
    apply result_bind_Ok in Hc as (b & Hb%map_err_Ok & Hc). destruct b.
    + apply result_bind_Ok in Hc as (w & [-> Hw]%ok_or_Ok%checked_add_Some & [= <-]).
      repeat (rewrite (decide_True _ _ (conj He Hb))). apply IH in Hf as [-> Hle]. cbn [map length].
      rewrite <-app_assoc, Nat.add_succ_r, !N.add_assoc. split; [done|]. intros _. by apply Hle.
    + injection Hc as <-. assert (¬ (eligible c e ∧ completed c e)) as Hn.
      { intros [_ Hd]. unfold completed in Hd. congruence. }
      repeat (rewrite (decide_False _ _ Hn)). apply IH in Hf as [-> Hle]. cbn [length].
      rewrite Nat.add_succ_r, N.add_assoc. split; [done|]. intros _. by apply Hle.
Qed.

End tally.

(** ** The coordinator *)

Module CoordinatorFacts.
Import Coordinator.
Section coordinator.
Context `{HO : HashOrder} `{HB : Blake2b} `{HS : Secp256k1} `{HK : Secp256k1Sign}.
Implicit Types s : t.

(** The collector of a coordinator with given ratings. *)
Definition collecting s (ratings : Collected) : BlockProductionRatingCollector.t :=
  BlockProductionRatingCollector.mk (blocklace s) (output s) (opened s) (state s) (config s) ratings.
Definition round_policy s : RatingPolicy := BlockProductionRatingCollector.policy (collecting s ∅).

(** [rs] are complete within [ratings]: they are collected and so is all else
    that their raters owe. *)
Definition complete_in s (ratings : Collected) (rs : list RatingRecord) : Prop :=
  ∀ r, r ∈ rs → r ∈ collected_values ratings ∧
    Collector.is_rater_complete (round_policy s) ratings (rater r) = Ok true.

(** The ratings of a batch are exactly those of the complete raters. *)
Definition closes_with s (ratings : Collected) (batch : RatingBatch) : Prop :=
  batch_round batch = rating_round_of (opened s) ∧
  StronglySorted key_lt (batch_ratings batch) ∧
  ∀ r, r ∈ batch_ratings batch ↔ r ∈ collected_values ratings ∧
    Collector.is_rater_complete (round_policy s) ratings (rater r) = Ok true.

(** Why a round closed. *)
Definition justified s (ratings : Collected) (reason : PorRatingRoundCloseReason) : Prop :=
  match reason with
  | QuorumReached completed required =>
    ∃ policy progress, ClosurePolicy.evaluate policy (collecting s ratings) = Ok progress ∧
      completed = ClosurePolicy.completed_weight progress ∧
      required = ClosurePolicy.required_weight progress ∧ (required <= completed)%N
  | FinalizedWaveCutoff observed required =>
    ∃ lag, required = (opened_wave (opened s) + lag)%N ∧ (required <= observed)%N
  | AllAuthorizedRaters => False
  end.

(** The invariant: while the round is open its collector holds backed ratings,
    among them a complete local batch once it was produced; a closed round has
    sent all of its envelopes and holds the ratings of the complete raters. *)
Record coordinator_ok s (ratings : Collected) : Prop := {
  ok_collected : collected_ok (round_policy s) ratings;
  ok_state : match completed_batch s with
    | None => collector s = Some (collecting s ratings) ∧ close_reason s = None
    | Some batch => collector s = None ∧ closes_with s ratings batch ∧
        local_batch s ≠ None ∧ next_outbound s = length (outbound_envelopes s) ∧
        ∃ reason, close_reason s = Some reason ∧ justified s ratings reason
    end;
  ok_local : match local_batch s with
    | None => outbound_envelopes s = []
    | Some batch => complete_in s ratings (batch_ratings batch) ∧
        encode_rating_batch (opened_wave (opened s)) batch = Ok (outbound_envelopes s)
    end;
  ok_next : next_outbound s <= length (outbound_envelopes s)
}.

Lemma complete_in_mono s ratings ratings' rs :
  collected_ok (round_policy s) ratings → collected_ok (round_policy s) ratings' → ratings ⊆ ratings' →
  complete_in s ratings rs → complete_in s ratings' rs.
Proof.
  intros Hok Hok' Hsub Hc r Hr. destruct (Hc r Hr) as [[k Hk]%elem_of_collected Hcomp]. split.
  - apply elem_of_collected. exists k. by eapply lookup_weaken.
  - by apply (complete_mono (round_policy s) ratings).
Qed.

(** ** Each operation *)

Lemma new_ok bl output opened state config s :
  new bl output opened state config = Ok s → coordinator_ok s ∅.
Proof.
  unfold new, BlockProductionRatingCollector.new.
  intros (c & Hc%map_err_Ok & [= <-])%result_bind_Ok.
  apply result_bind_Ok in Hc as (_ & _ & [_ [= <-]]%bail_Ok).
  split; [apply collected_ok_empty|done|done|cbn; lia].
Qed.

Lemma receive_ok s bytes s' ratings :
  receive_envelope s bytes = Ok s' → coordinator_ok s ratings →
  ∃ ratings', coordinator_ok s' ratings' ∧
    next_outbound s' = next_outbound s ∧ outbound_envelopes s' = outbound_envelopes s.
Proof.
  unfold receive_envelope, require_open. intros H [Hc Hst Hl Hn].
  destruct (completed_batch s) as [|] eqn:Ecb; [done|]. destruct Hst as [Hcol Hreason].
  cbn [result_bind] in H. apply result_bind_Ok in H as (c & Hr%map_err_Ok & [= <-]).
  unfold open_collector in Hr. rewrite Hcol in Hr. cbn [default from_option] in Hr.
  unfold receive_rating_envelope in Hr. apply result_bind_Ok in Hr as (e & _ & Hi%map_err_Ok).
  unfold BlockProductionRatingCollector.insert_envelope in Hi. apply bail_Ok in Hi as [_ Hi].
  unfold BlockProductionRatingCollector.insert, BlockProductionRatingCollector.updated in Hi.
  apply result_bind_Ok in Hi as (ratings' & Hi & [= <-]).
  apply insert_ok in Hi as (Hc' & -> & Hfree); [|done].
  eexists. split; [|done]. split; cbn; [exact Hc'| | |done].
  - by rewrite Ecb.
  - destruct (local_batch s); [|done]. destruct Hl as [Hl He]. split; [|done].
    eapply (complete_in_mono s); [exact Hc|exact Hc'|by apply insert_subseteq|exact Hl].
Qed.

Lemma produce_ok s x key s' ratings :
  produce_local_batch s x key = Ok s' → coordinator_ok s ratings →
  ∃ ratings', coordinator_ok s' ratings' ∧ next_outbound s = 0 ∧ next_outbound s' = 0.
Proof.
  unfold produce_local_batch, require_open. intros H [Hc Hst Hl Hn].
  destruct (completed_batch s) as [|] eqn:Ecb; [done|]. destruct Hst as [Hcol Hreason].
  cbn [result_bind] in H. apply bail_Ok in H as [Elb%dec_stable H]. rewrite Elb in Hl.
  apply result_bind_Ok in H as (batch & Hb%map_err_Ok & H).
  apply result_bind_Ok in H as (outbound & He%map_err_Ok & H).
  apply result_bind_Ok in H as (c & Hi%map_err_Ok & [= <-]).
  unfold open_collector in Hi. rewrite Hcol in Hi. cbn [default from_option] in Hi.
  unfold BlockProductionRatingCollector.insert_batch, BlockProductionRatingCollector.updated in Hi.
  apply result_bind_Ok in Hi as (ratings' & Hi & [= <-]).
  apply insert_batch_ok in Hi as (Hc' & Hsub & Hin); [|done].
  apply (wave_batch_owed (collecting s ∅)) in Hb as [(expected & Hex & _ & Hh & Hall) _].
  exists ratings'. split; [|by rewrite Hl in Hn; cbn in Hn; split; [lia|]].
  split; cbn; [exact Hc'|by rewrite Ecb| |lia]. split; [|done]. intros r Hr.
  assert (r ∈ collected_values ratings') as Hv by (apply Hin; by right). split; [done|].
  destruct (Hh r Hr) as (_ & _ & -> & _).
  destruct (complete_iff _ _ x _ Hc' Hex eq_refl eq_refl) as (b & Hb & Hiff). etrans; [exact Hb|].
  f_equal. apply Hiff. intros j Hj. destruct (Hall j Hj) as (r' & Hr' & Hrec).
  destruct (Hh r' Hr') as (_ & _ & Hx' & _).
  destruct (proj1 (elem_of_collected ratings' r')) as [k Hk]; [apply Hin; by right|].
  destruct (Hc' k r' Hk) as [-> _]. exists r'. unfold rating_key in Hk.
  rewrite Hrec, Hx' in Hk. exact Hk.
Qed.

(** Delivery hands over a prefix. *)
Lemma deliver_prefix (broadcast : list byte → result unit string) envelopes n handed failure :
  deliver broadcast envelopes = (n, handed, failure) →
  n <= length envelopes ∧ filter (λ e, is_ok (broadcast e) = true) handed = take n envelopes ∧
  (failure = None → n = length envelopes).
Proof.
  revert n handed failure. induction envelopes as [|e envelopes IH]; intros n handed failure H.
  { injection H as <- <- <-. done. }
  cbn [deliver] in H. destruct (broadcast e) as [u|m] eqn:Eb.
  - destruct (deliver broadcast envelopes) as [[n' handed'] failure'] eqn:Ed.
    injection H as <- <- <-. destruct (IH _ _ _ eq_refl) as (Hle & Hf & Hn). cbn [length take].
    rewrite filter_cons, Eb. cbn [is_ok]. rewrite decide_True by done. split_and!; [lia|by f_equal|].
    intros Hnone. by rewrite Hn.
  - injection H as <- <- <-. cbn [length take]. rewrite filter_cons, Eb. cbn.
    split_and!; [lia|done|done].
Qed.

Lemma broadcast_ok s broadcast r s' handed ratings :
  broadcast_pending s broadcast = (r, s', handed) → coordinator_ok s ratings →
  coordinator_ok s' ratings ∧ outbound_envelopes s' = outbound_envelopes s ∧
  next_outbound s <= next_outbound s' ∧
  filter (λ e, is_ok (broadcast e) = true) handed =
    take (next_outbound s' - next_outbound s) (drop (next_outbound s) (outbound_envelopes s)).
Proof.
  unfold broadcast_pending, require_open. intros H Hok. pose proof Hok as [Hc Hst Hl Hn].
  destruct (completed_batch s) as [|] eqn:Ecb.
  { injection H as <- <- <-. by rewrite Nat.sub_diag. }
  case_decide as Elb. { injection H as <- <- <-. by rewrite Nat.sub_diag. }
  destruct (deliver broadcast _) as [[n handed'] failure] eqn:Ed.
  apply deliver_prefix in Ed as (Hle & Hf & _). rewrite length_drop in Hle.
  assert (coordinator_ok (with_next s (next_outbound s + n)) ratings) as Hok'.
  { split; cbn; [done|by rewrite Ecb|done|lia]. }
  destruct failure; injection H as <- <- <-; cbn [next_outbound outbound_envelopes with_next];
    (split_and!; [done|done|lia|]); by rewrite Hf, Nat.add_comm, Nat.add_sub.
Qed.

Lemma finalize_ok s reason s' ratings :
  finalize s reason = Ok s' → require_close_prerequisites s = Ok tt → coordinator_ok s ratings →
  justified s ratings reason →
  coordinator_ok s' ratings ∧ next_outbound s' = next_outbound s ∧
  outbound_envelopes s' = outbound_envelopes s.
Proof.
  unfold finalize, require_close_prerequisites, require_open.
  intros (batch & Hb%map_err_Ok & [= <-])%result_bind_Ok Hp [Hc Hst Hl Hn] Hj.
  destruct (completed_batch s) as [|] eqn:Ecb; [done|]. destruct Hst as [Hcol Hreason].
  cbn [result_bind] in Hp. apply bail_Ok in Hp as [Hlocal [Hpending%dec_stable _]%bail_Ok].
  unfold open_collector in Hb. rewrite Hcol in Hb. cbn [default from_option] in Hb.
  destruct (complete_batch_ok (round_policy s) ratings Hc) as (batch' & Hb' & Hr & Hs & Hin).
  assert (batch' = batch) as ->.
  { assert (Ok batch' = Ok batch :> result RatingBatch PorRatingCollectorError) as E
      by (etrans; [symmetry; exact Hb'|exact Hb]). by injection E. }
  split; [|done]. split; cbn; [exact Hc| |exact Hl|exact Hn].
  split_and!; [done|by split_and!|done| |by exists reason]. unfold pending_outbound in Hpending. lia.
Qed.

(** ** Runs

    Any interleaving of the operations, with any peers, broadcasters and
    policies; the log lists the envelopes whose delivery succeeded.  A failed
    operation that changes nothing is not a step. *)
Inductive step : t → list (list byte) → t → Prop :=
  | step_produce s x key s' : produce_local_batch s x key = Ok s' → step s [] s'
  | step_receive s bytes s' : receive_envelope s bytes = Ok s' → step s [] s'
  | step_broadcast s broadcast r s' handed :
      broadcast_pending s broadcast = (r, s', handed) →
      step s (filter (λ e, is_ok (broadcast e) = true) handed) s'
  | step_quorum s policy s' : close_if_quorum s policy = Ok s' → step s [] s'
  | step_cutoff s policy wave s' : close_at_finalized_wave s policy wave = Ok s' → step s [] s'.

Inductive run : t → list (list byte) → t → Prop :=
  | run_nil s : run s [] s
  | run_snoc s log s' sent s'' : run s log s' → step s' sent s'' → run s (log ++ sent) s''.

Lemma quorum_justified s policy s' ratings :
  close_if_quorum s policy = Ok s' → coordinator_ok s ratings →
  ∃ reason, justified s ratings reason ∧ finalize s reason = Ok s' ∧
    require_close_prerequisites s = Ok tt.
Proof.
  unfold close_if_quorum. intros ([] & Hp & (progress & He & [Hr Hf]%bail_Ok)%result_bind_Ok)%result_bind_Ok
    [_ Hst _ _].
  eexists. split; [|done]. unfold quorum_progress, require_open in He.
  unfold require_close_prerequisites, require_open in Hp.
  destruct (completed_batch s); [done|]. destruct Hst as [Hcol _].
  cbn [result_bind] in He. apply map_err_Ok in He. unfold open_collector in He. rewrite Hcol in He.
  exists policy, progress. split_and!; [exact He|done|done|].
  apply not_false_iff_true, bool_decide_eq_true in Hr. exact Hr.
Qed.
Lemma cutoff_justified s policy wave s' ratings :
  close_at_finalized_wave s policy wave = Ok s' →
  ∃ reason, justified s ratings reason ∧ finalize s reason = Ok s' ∧
    require_close_prerequisites s = Ok tt.
Proof.
  unfold close_at_finalized_wave, CutoffPolicy.ensure_reached, CutoffPolicy.required_finalized_wave.
  intros ([] & Hp & (required & He%map_err_Ok & Hf)%result_bind_Ok)%result_bind_Ok.
  apply result_bind_Ok in He as (r & [-> _]%ok_or_Ok%checked_add_Some & [Hle [= <-]]%bail_Ok).
  eexists. split; [|done]. exists (CutoffPolicy.wave_lag policy). split; [done|]. lia.
Qed.

(** One step keeps the invariant, and sends the next envelopes in order. *)
Lemma coordinator_step_ok s sent s' ratings :
  step s sent s' → coordinator_ok s ratings →
  ∃ ratings', coordinator_ok s' ratings' ∧
    take (next_outbound s) (outbound_envelopes s) ++ sent =
      take (next_outbound s') (outbound_envelopes s').
Proof.
  destruct 1 as [s x key s' H|s bytes s' H|s broadcast r s' handed H|s policy s' H|s policy wave s' H];
    intros Hok.
  - destruct (produce_ok _ _ _ _ _ H Hok) as (ratings' & Hok' & -> & ->). by exists ratings'.
  - destruct (receive_ok _ _ _ _ H Hok) as (ratings' & Hok' & -> & ->). exists ratings'.
    by rewrite app_nil_r.
  - destruct (broadcast_ok _ _ _ _ _ _ H Hok) as (Hok' & E & Hle & ->). exists ratings.
    split; [done|]. rewrite E. rewrite take_drop_commute. replace (next_outbound s + _) with
      (next_outbound s') by lia.
    rewrite <-(take_drop (next_outbound s) (take (next_outbound s') (outbound_envelopes s))) at 2.
    by rewrite take_take, Nat.min_l by lia.
  - destruct (quorum_justified _ _ _ _ H Hok) as (reason & Hj & Hf & Hp).
    destruct (finalize_ok _ _ _ _ Hf Hp Hok Hj) as (Hok' & -> & ->). exists ratings.
    by rewrite app_nil_r.
  - destruct (cutoff_justified _ _ _ _ ratings H) as (reason & Hj & Hf & Hp).
    destruct (finalize_ok _ _ _ _ Hf Hp Hok Hj) as (Hok' & -> & ->). exists ratings.
    by rewrite app_nil_r.
Qed.

Lemma coordinator_run_ok s log s' ratings :
  run s log s' → coordinator_ok s ratings → next_outbound s = 0 →
  ∃ ratings', coordinator_ok s' ratings' ∧ log = take (next_outbound s') (outbound_envelopes s').
Proof.
  intros Hrun Hok Hn. induction Hrun as [s|s log s' sent s'' _ IH Hstep].
  - exists ratings. by rewrite Hn.
  - destruct (IH Hok Hn) as (ratings' & Hok' & ->). by eapply coordinator_step_ok.
Qed.

(** A closed round is final. *)
Lemma closed_is_final s sent s' batch :
  completed_batch s = Some batch → step s sent s' → s' = s ∧ sent = [].
Proof.
  intros Hb Hs.
  destruct Hs as [s x key s1 H|s bytes s1 H|s broadcast r s1 handed H|s policy s1 H|s policy wave s1 H].
  - unfold produce_local_batch, require_open in H. by rewrite Hb in H.
  - unfold receive_envelope, require_open in H. by rewrite Hb in H.
  - unfold broadcast_pending, require_open in H. rewrite Hb in H. by injection H as <- <- <-.
  - unfold close_if_quorum, require_close_prerequisites, require_open in H. by rewrite Hb in H.
  - unfold close_at_finalized_wave, require_close_prerequisites, require_open in H. by rewrite Hb in H.
Qed.

End coordinator.
End CoordinatorFacts.

(** ** The tally of a policy *)

Section evaluate.
Context `{HO : HashOrder} `{HB : Blake2b} `{HS : Secp256k1}.

Lemma evaluate_spec policy c progress :
  (0 < ClosurePolicy.numerator policy)%N →
  (ClosurePolicy.numerator policy < ClosurePolicy.denominator policy)%N →
  (ClosurePolicy.denominator policy <= u64_max)%N →
  ClosurePolicy.evaluate policy c = Ok progress →
  let entries := ReputationState.state_entries (BlockProductionRatingCollector.state c) in
  let counted e := eligible c e ∧ completed c e in
  ClosurePolicy.eligible_raters progress = length (filter (eligible c) entries) ∧
  ClosurePolicy.completed_raters progress = map ReputationEntry.node_id (filter counted entries) ∧
  ClosurePolicy.total_active_weight progress = weight_in (eligible c) entries ∧
  ClosurePolicy.completed_weight progress = weight_in counted entries ∧
  (ClosurePolicy.is_reached progress = true ↔
    (weight_in (eligible c) entries * ClosurePolicy.numerator policy <
     weight_in counted entries * ClosurePolicy.denominator policy)%N).
Proof.
  intros Hn Hnd Hd. unfold ClosurePolicy.evaluate. cbv zeta.
  intros (acc & Ht & Hp)%result_bind_Ok. apply tally_spec in Ht as [-> Hle].
  cbn [Nat.add app] in Hp. rewrite !N.add_0_l in Hp, Hle. apply bail_Ok in Hp as [Hz Hp].
  rewrite strict_required_exact in Hp; [|done..|by apply Hle]. injection Hp as <-. cbn.
  split_and!; [done..|]. unfold ClosurePolicy.is_reached. cbn. rewrite bool_decide_eq_true.
  apply strict_threshold. lia.
Qed.

End evaluate.

(** ** The transition *)

Section transition.
Context `{HB : Blake2b}.
Import RoundTransition.

(** Staging succeeds as soon as the replay and the construction do: the audit
    accepts what was just built. *)
Lemma stage_Ok completed state config shard_id out :
  stage_completed_reputation_round completed state config shard_id = Ok out ↔
  CompletedRound.validate_complete_authorizations completed shard_id = Ok tt ∧
  ∃ list block,
    Replay.replay_reputation_transition_with_penalties (ReputationState.snapshot_vector state)
      (batch_ratings (CompletedRound.batch completed)) (batch_round (CompletedRound.batch completed))
      config (CompletedRound.penalties completed) = Ok list ∧
    Building.build_reputation_block_with_penalties
      (mkContext shard_id (opened_wave (CompletedRound.opened completed))
         (ReputationState.latest_block state)) (CompletedRound.batch completed) list config
      (CompletedRound.penalties completed) = Ok block ∧
    let staged := ReputationState.commit_audited_block state block in
    out = (staged, mkApplied (CompletedRound.close_reason completed) block
                     (Weights.reputation_weights staged)).
Proof.
  unfold stage_completed_reputation_round. rewrite result_bind_Ok. split.
  - intros ([] & Hv & (list & Hr & (block & Hb & Hs)%result_bind_Ok)%result_bind_Ok). split; [done|].
    exists list, block. split_and!; [done..|]. unfold stage_reputation_block in Hs.
    rewrite Hv in Hs. cbn [result_bind] in Hs. apply result_bind_Ok in Hs as (staged & Ha & [= <-]).
    unfold ReputationState.apply_reputation_block_with_penalties in Ha.
    by apply result_bind_Ok in Ha as (_ & _ & [= <-]).
  - intros (Hv & list & block & Hr & Hb & ->). exists tt. split; [done|]. rewrite Hr. cbn [result_bind].
    rewrite Hb. cbn [result_bind]. unfold stage_reputation_block. rewrite Hv. cbn [result_bind].
    unfold ReputationState.apply_reputation_block_with_penalties.
    apply build_Ok in Hb as Hw. pose proof Hw as [_ _ Hround Hlist (? & ? & ? & ? & _ & _ & _ & E) _].
    assert (reputation_list block = list) as El by (by rewrite E).
    rewrite (proj2 (verify_Ok _ _ block _ config _)); [done|]. rewrite El.
    split; [by rewrite Hlist|]. rewrite Hlist. by destruct (CompletedRound.batch completed).
Qed.

End transition.

(** ** Samples

    Two validators that take turns in a chain of sixteen blocks: the first wave
    and the first checkpoint of it, rated by both. *)

#[local] Existing Instance elements_order.
#[local] Existing Instance sample_hash.
#[local] Existing Instance sample_scheme.

(** Signing returns the only signature that the sample scheme accepts. *)
Definition sample_sign : Secp256k1Sign := λ _ _, Ok [x01].
#[local] Existing Instance sample_sign.

Module RatingSample.

Definition a : NodeId := replicate 33 x0a.
Definition b : NodeId := replicate 33 x0b.

(** The [n]-th block after [preds]. *)
Definition link (n : nat) (preds : list BlockIdentity) : Block :=
  let h := byte_of_N (N.of_nat n) in
  mkBlock (mkIdentity (h ::: vreplicate 31 x00) (if Nat.even n then a else b) [])
    (mkContent [h] (list_to_set preds)).
Fixpoint chain_from (n : nat) (preds : list BlockIdentity) (count : nat) : list Block :=
  match count with
  | O => []
  | S count => let block := link n preds in block :: chain_from (S n) [identity block] count
  end.
Definition chain : list Block := chain_from 0 [] 16.
Definition lace : Blocklace.t := lace_of (rev chain).

(** The output after the first [n] blocks. *)
Definition output (n : nat) : OrderedFinalizedOutput.t :=
  OrderedFinalizedOutput.new 0 (map identity (take n chain)) (last (map identity (take n chain)))
    2 2 16.

Definition config : PorConfig.t := PorConfig.new 1000 200.
Definition state : ReputationState.t :=
  ReputationState.with_entries (ReputationState.new 0)
    [ReputationEntry.new a 300; ReputationEntry.new b 400].

(** *** The round of the first wave *)

Definition opened : FinalizedRatingRound := mkOpened 0 1.
Definition collector : BlockProductionRatingCollector.t :=
  BlockProductionRatingCollector.mk lace (output 2) opened state config ∅.
Definition no_batch : RatingBatch := mkBatch 0 [].
Definition batch_of (x : NodeId) : RatingBatch :=
  or_default no_batch (SignedRatings.build_finalized_block_production_rating_batch lace (output 2)
    opened x state config []).
Definition envelopes_of (x : NodeId) : list (list byte) :=
  or_default [] (encode_rating_batch 0 (batch_of x)).

Definition fresh : Coordinator.t :=
  or_default (Coordinator.mk lace (output 2) opened state config None None [] 0 None None)
    (Coordinator.new lace (output 2) opened state config).
Definition produced : Coordinator.t :=
  or_default fresh (Coordinator.produce_local_batch fresh a []).
Definition received : Coordinator.t :=
  or_default produced (Coordinator.receive_envelope produced (default [] (head (envelopes_of b)))).
Definition broadcasting : result nat PorRatingRoundError * Coordinator.t * list (list byte) :=
  Coordinator.broadcast_pending received (λ _, Ok tt).
Definition sent : Coordinator.t := broadcasting.1.2.
Definition closed : Coordinator.t :=
  or_default sent (Coordinator.close_if_quorum sent ClosurePolicy.default).

(** *** The round of the first checkpoint *)

Definition checkpoint : FinalizedPrefixCheckpoint :=
  default (mkPrefixCheckpoint 0 0 (vreplicate 32 x00) (mkIdentity (vreplicate 32 x00) [] []))
    (or_default None (PorFinality.finalized_prefix_checkpoint (output 16) 1)).
Definition checkpoint_collector : CheckpointRatingCollector.t :=
  CheckpointRatingCollector.mk lace (output 16) checkpoint
    (list_to_set (filter (λ x, ReputationState.is_ejected state x = false) [a; b])) state config ∅.
Definition checkpoint_batch_of (x : NodeId) : RatingBatch :=
  or_default no_batch (SignedRatings.build_finalized_checkpoint_rating_batch lace (output 16)
    checkpoint x state config []).
Definition checkpoint_envelopes_of (x : NodeId) : list (list byte) :=
  or_default [] (encode_checkpoint_rating_batch (PorFinality.rating_source checkpoint)
    (checkpoint_batch_of x)).
Definition deliveries : list (NodeId * list (list byte)) :=
  map (λ x, (x, checkpoint_envelopes_of x)) [a; b].

(** *** The transition *)

Definition completed : CompletedRound.t :=
  CompletedRound.mk opened
    (default no_batch (Coordinator.completed_batch closed))
    (default AllAuthorizedRaters (Coordinator.close_reason closed)) None ∅ ∅.

End RatingSample.
