(* ===== verification/RatingTheorems.v ===== *)
(** * Theorems about rating rounds

    Envelopes, collection, closure and the transition of a rating round. *)

From S2P Require Import Prelude Types Lace Bytes Crypto Samples PorTypes PorMath PorMathFacts.
From S2P Require Import PorCommit PorAudit PorState FinalOutput FinalOutputFacts RatingFlow.
From S2P Require Import RatingWire Collector CollectorFacts RatingFlowFacts.
From S2P Require Import RatingRound HonestFacts RatingRoundFacts.
From stdpp Require Import options.

(** Rating envelopes of both versions are exact: the decoder returns an
    envelope precisely for the bytes that the encoder writes for it, so
    decoding inverts encoding, no two byte strings decode to the same envelope,
    and everything that is decoded passed the structural validation. *)
Theorem rating_envelopes_are_exact :
  (∀ input e, RatingWire.V1.decode input = Ok e ↔
    RatingWire.V1.new (RatingWire.V1.finalized_wave e) (RatingWire.V1.rating e) = Ok e ∧
    fits_u64 (score (RatingWire.V1.rating e)) ∧ input = RatingWire.V1.encode e) ∧
  (∀ input e, RatingWire.V2.decode input = Ok e ↔
    RatingWire.V2.new (RatingWire.V2.source e) (RatingWire.V2.rating e) = Ok e ∧
    fits_u64 (score (RatingWire.V2.rating e)) ∧ input = RatingWire.V2.encode e).
Proof. split; intros; [apply v1_decode_Ok|apply v2_decode_Ok]. Qed.

Section rounds.
Context `{HO : HashOrder} `{HB : Blake2b} `{HS : Secp256k1} `{HK : Secp256k1Sign}.

(** What a rating of a wave stands for: a valid signature over the maximal
    score, for the least block that an active producer other than the rater
    has in the finalized wave. *)
Definition authentic (bl : Blocklace.t) (output : OrderedFinalizedOutput.t)
    (opened : FinalizedRatingRound) (state : ReputationState.t) (config : PorConfig.t)
    (r : RatingRecord) : Prop :=
  rating_round r = rating_round_of opened ∧ rater r ≠ recipient r ∧
  SignedRatings.validate_signed_rating r config = Ok tt ∧
  score r = PorConfig.maximum_rating config ∧
  FinalizedInteractions.is_active_recipient state (recipient r) = true ∧
  ∃ b, wave_block bl output opened (rater r) b ∧ creator b = recipient r ∧
    interaction_ref r = Some (vec_to_list (content_hash b)) ∧
    ∀ b', wave_block bl output opened (rater r) b' → creator b' = recipient r → ord_le b b'.

Lemma backed_authentic (c : BlockProductionRatingCollector.t) r :
  backed (BlockProductionRatingCollector.policy c) r →
  authentic (BlockProductionRatingCollector.blocklace c) (BlockProductionRatingCollector.output c)
    (BlockProductionRatingCollector.opened c) (BlockProductionRatingCollector.state c)
    (BlockProductionRatingCollector.config c) r.
Proof.
  intros [Hr _ Hs (l & i & (m & -> & Hm & _)%admitted_wave_Ok & Hi & Hrec & Href & Hsc)].
  apply list_elem_of_fmap in Hi as ([id b] & -> & [Hact Hin]%list_elem_of_filter).
  apply QuorumFacts.elem_of_btree_map_iter, Hm in Hin as (Hw & Hcr & Hleast).
  cbn in Hr, Hs, Hrec, Href, Hsc, Hact, Hcr. subst id. split_and!; [done| |done| | |].
  - rewrite <-Hrec. symmetry. apply Hw.
  - unfold Interactions.score_admitted_interaction, Interactions.score_interaction_kind in Hsc.
    apply bail_Ok in Hsc as [_ Hsc]. cbn in Hsc. congruence.
  - by rewrite <-Hrec.
  - exists b. split_and!; [done|done|done|]. intros b' Hw' Hcr'. apply Hleast; [done|congruence].
Qed.

(** C32: over any interleaving of local production, deliveries (failing or
    not), received envelopes and closing attempts, each envelope is delivered
    at most once and in order; a round that closed has delivered all of them,
    holds the whole local batch, and holds only ratings that are authentic for
    the finalized wave, from raters all of whose expected ratings it holds; and
    it stays as it is. *)
Theorem closed_rounds_are_complete_and_authentic bl output opened state config s0 log s :
  Coordinator.new bl output opened state config = Ok s0 →
  CoordinatorFacts.run s0 log s →
  log = take (Coordinator.next_outbound s) (Coordinator.outbound_envelopes s) ∧
  ∀ batch, Coordinator.completed_batch s = Some batch →
    log = Coordinator.outbound_envelopes s ∧
    (∃ local, Coordinator.local_batch s = Some local ∧
      ∀ r, r ∈ batch_ratings local → r ∈ batch_ratings batch) ∧
    (∀ r, r ∈ batch_ratings batch → authentic (Coordinator.blocklace s) (Coordinator.output s)
      (Coordinator.opened s) (Coordinator.state s) (Coordinator.config s) r) ∧
    (∀ r i expected, r ∈ batch_ratings batch →
      FinalizedInteractions.admit_finalized_block_production_interactions (Coordinator.blocklace s)
        (Coordinator.output s) (Coordinator.opened s) (rater r) (Coordinator.state s) = Ok expected →
      i ∈ expected → ∃ r', r' ∈ batch_ratings batch ∧ rater r' = rater r ∧
        recipient r' = interaction_recipient (Interactions.admitted_evidence i)) ∧
    ∀ sent s', CoordinatorFacts.step s sent s' → s' = s ∧ sent = [].
Proof.
  intros Hnew Hrun. pose proof (CoordinatorFacts.new_ok _ _ _ _ _ _ Hnew) as Hok0.
  assert (Coordinator.next_outbound s0 = 0) as Hn0.
  { unfold Coordinator.new in Hnew. by apply result_bind_Ok in Hnew as (? & _ & [= <-]). }
  destruct (CoordinatorFacts.coordinator_run_ok _ _ _ _ Hrun Hok0 Hn0) as (ratings & [Hc Hst Hl _] & Hlog).
  split; [done|]. intros batch Hb. rewrite Hb in Hst.
  destruct Hst as (_ & (_ & _ & Hin) & Hlocal & Hnext & _). split_and!.
  - by rewrite Hlog, Hnext, firstn_all.
  - destruct (Coordinator.local_batch s) as [local|]; [|done]. exists local. split; [done|].
    intros r Hr. by apply Hin, Hl.
  - intros r [[k Hk]%elem_of_collected _]%Hin. apply Hc in Hk as [_ Hbk].
    exact (backed_authentic (CoordinatorFacts.collecting s ∅) r Hbk).
  - intros r i expected [Hv Hcomp]%Hin He Hi.
    assert (expects (CoordinatorFacts.round_policy s) (rater r) expected) as Hex.
    { split; [exact He|]. exact (law_recipients (CoordinatorFacts.round_policy s) (rater r) expected He). }
    destruct (complete_iff _ _ (rater r) _ Hc Hex eq_refl eq_refl) as (b & Hb' & Hiff).
    rewrite Hcomp in Hb'. injection Hb' as <-. destruct (proj1 Hiff eq_refl i Hi) as [r' Hr'].
    destruct (Hc _ _ Hr') as [E _]. unfold rating_key in E. injection E as Ex Er.
    exists r'. split_and!; [|done|done]. apply Hin. split; [apply elem_of_collected; eauto|].
    by rewrite <-Ex.
  - intros sent s' Hs. by eapply CoordinatorFacts.closed_is_final.
Qed.

(** A policy that was accepted counts exactly the weight of the active
    entries and of those of them whose batches are complete, and reports the
    quorum exactly when the completed weight exceeds the configured fraction of
    the active weight; its required weight never overflows. *)
Theorem quorum_is_an_exact_strict_fraction n d policy c progress :
  ClosurePolicy.new n d = Ok policy → (d <= u64_max)%N →
  ClosurePolicy.evaluate policy c = Ok progress →
  let entries := ReputationState.state_entries (BlockProductionRatingCollector.state c) in
  let active := weight_in (eligible c) entries in
  let complete := weight_in (λ e, eligible c e ∧ completed c e) entries in
  ClosurePolicy.total_active_weight progress = active ∧
  ClosurePolicy.completed_weight progress = complete ∧
  ClosurePolicy.completed_raters progress =
    map ReputationEntry.node_id (filter (λ e, eligible c e ∧ completed c e) entries) ∧
  (ClosurePolicy.is_reached progress = true ↔ (active * n < complete * d)%N) ∧
  ∀ total, (total <= u128_max)%N →
    ClosurePolicy.strict_required_weight total n d = Ok (total * n / d + 1)%N.
Proof.
  unfold ClosurePolicy.new. intros [[Hn [Hd Hnd]%Decidable.not_or]%Decidable.not_or [= <-]]%bail_Ok Hm He.
  apply evaluate_spec in He as (_ & H1 & H2 & H3 & H4); cbn in *; [|lia..]. split_and!; try done.
  intros total Ht. apply strict_required_exact; lia.
Qed.

(** The batch that a rater builds from its own evidence completes it at
    every collector of the same finalized wave: its envelopes, received in any
    order by a collector that has no rating of that rater yet, are all accepted
    and make the rater complete. *)
Theorem honest_wave_batches_are_accepted c x key batch envelopes received :
  collected_ok (BlockProductionRatingCollector.policy c) (BlockProductionRatingCollector.ratings c) →
  (∀ r, r ∈ collected_values (BlockProductionRatingCollector.ratings c) → rater r ≠ x) →
  fits_u64 (PorConfig.maximum_rating (BlockProductionRatingCollector.config c)) →
  SignedRatings.build_finalized_block_production_rating_batch
    (BlockProductionRatingCollector.blocklace c) (BlockProductionRatingCollector.output c)
    (BlockProductionRatingCollector.opened c) x (BlockProductionRatingCollector.state c)
    (BlockProductionRatingCollector.config c) key = Ok batch →
  encode_rating_batch (opened_wave (BlockProductionRatingCollector.opened c)) batch = Ok envelopes →
  received ≡ₚ envelopes →
  ∃ c', try_fold receive_rating_envelope c received = Ok c' ∧
    collected_ok (BlockProductionRatingCollector.policy c') (BlockProductionRatingCollector.ratings c') ∧
    BlockProductionRatingCollector.is_rater_complete c' x = Ok true.
Proof.
  intros Hok Hfree Hmax Hb He Hperm.
  destruct (wave_batch_owed c x key batch Hb) as [Howes _].
  assert (Forall (λ r, fits_u64 (score r)) (batch_ratings batch)) as Hscores.
  { apply Forall_forall. intros r Hr. destruct Howes as (expected & [Hadm _] & _ & Hh & _).
    destruct (Hh r Hr) as (i & Hi & _ & _ & _ & Hsc & _). cbn in Hsc.
    unfold Interactions.score_admitted_interaction, Interactions.score_interaction_kind in Hsc.
    apply bail_Ok in Hsc as [_ Hsc]. destruct (interaction_kind _); injection Hsc as <-; done. }
  pose proof (encoded_v1_decodes _ _ _ He Hscores) as Hdec.
  destruct (Forall2_permuted _ _ _ _ Hdec (Permutation_sym Hperm)) as (rs & Hrs & Hdec').
  destruct (owed_accepted _ _ x rs Hok eq_refl eq_refl (owes_perm _ _ _ _ Hrs Howes) Hfree)
    as (ratings' & Hf & Hok' & Hc & _).
  eexists. split; [by apply (receive_all c rs)|]. split; [exact Hok'|exact Hc].
Qed.

(** C33: a checkpoint collector closes once every authorized rater has
    delivered: from a fresh collector, the envelopes of the honest batches of
    all its authorized raters, each rater's in any order, are all accepted;
    then the collector reports every rater complete and its batch exists and
    contains every collected rating. *)
Theorem checkpoints_close_when_everyone_delivers bl output checkpoint authorized state config c
    deliveries :
  CheckpointRatingCollector.new bl output checkpoint authorized state config = Ok c →
  CheckpointRatingCollector.authorized_raters c ≠ ∅ →
  fits_u64 (PorConfig.maximum_rating config) →
  NoDup deliveries.*1 → list_to_set deliveries.*1 = CheckpointRatingCollector.authorized_raters c →
  (∀ x received, (x, received) ∈ deliveries → honest_delivery c x received) →
  ∃ c' batch, try_fold receive_checkpoint_rating_envelope c (mjoin deliveries.*2) = Ok c' ∧
    CheckpointRatingCollector.all_authorized_raters_complete c' = Ok true ∧
    CheckpointRatingCollector.build_complete_batch c' = Ok batch ∧
    ∀ r, r ∈ collected_values (CheckpointRatingCollector.ratings c') → r ∈ batch_ratings batch.
Proof.
  intros Hnew Hne Hmax Hnd Hset Hh. unfold CheckpointRatingCollector.new in Hnew.
  apply result_bind_Ok in Hnew as ([] & Hw%map_err_Ok & [_ [= <-]]%bail_Ok).
  set (c := CheckpointRatingCollector.mk _ _ _ _ _ _ _) in *.
  assert (PolicyLaws (CheckpointRatingCollector.policy c)) as Hlaws.
  { apply checkpoint_policy_laws. unfold FinalizedInteractions.validate_finalized_checkpoint_window in Hw.
    apply result_bind_Ok in Hw as ([] & Hv%map_err_Ok & (w & Hfw%map_err_Ok & [Hsome _]%bail_Ok)%result_bind_Ok).
    apply validate_checkpoint_Ok in Hv. destruct w as [w|]; [|done].
    apply finalized_wave_Some in Hfw as (_ & a & _ & Ha & _).
    apply checkpoint_Ok in Hv as (Hr & Hle & t & _ & E); [|by rewrite Ha].
    apply (proj2 (validate_source_Ok _)). cbn [CheckpointRatingCollector.source]. subst c.
    unfold CheckpointRatingCollector.source. cbn. rewrite E. by rewrite E in Hr, Hle. }
  destruct (checkpoint_deliveries c deliveries) as (ratings' & Hf & Hok & Hc & _); [done| |done|..|done|done|].
  - apply collected_ok_empty.
  - intros r [k Hk]%elem_of_collected. cbn in Hk. by rewrite lookup_empty in Hk.
  - intros x Hx. rewrite <-Hset. by apply elem_of_list_to_set.
  - destruct (complete_batch_ok (CheckpointRatingCollector.policy c) ratings' Hok)
      as (batch & Hb & _ & _ & Hin).
    eexists _, batch. split; [exact Hf|]. split_and!; [|exact Hb|].
    + unfold CheckpointRatingCollector.all_authorized_raters_complete.
      rewrite decide_False by done.
      assert (∀ x, x ∈ btree_iter (CheckpointRatingCollector.authorized_raters c) →
        Collector.is_rater_complete (CheckpointRatingCollector.policy c) ratings' x = Ok true) as Hall.
      { intros x Hx%elem_of_btree_iter. apply Hc. rewrite <-Hset in Hx.
        by apply elem_of_list_to_set in Hx. }
      cbn [CheckpointRatingCollector.authorized_raters CheckpointRatingCollector.with_ratings
        CheckpointRatingCollector.ratings].
      revert Hall. induction (btree_iter _) as [|x l IH]; intros Hall; [done|].
      cbn [Collector.all_complete]. change (CheckpointRatingCollector.policy
        (CheckpointRatingCollector.with_ratings c ratings')) with (CheckpointRatingCollector.policy c).
      rewrite Hall by (by left). cbn [result_bind]. apply IH. intros y ?. apply Hall. by right.
    + intros r Hr. apply Hin. split; [done|]. apply elem_of_collected in Hr as [k Hk].
      destruct (Hok k r Hk) as [_ [_ Ha _ _]]. apply Hc. apply bail_Ok in Ha as [Ha%dec_stable _].
      change (rater r ∈ CheckpointRatingCollector.authorized_raters c) in Ha.
      rewrite <-Hset in Ha. by apply elem_of_list_to_set in Ha.
Qed.

(** C31: a completed round whose authorizations are accounted for drives the
    state exactly as replaying its batch and building its block does: the audit
    of the staged block never rejects them; the new state is the replayed list
    with the block as its latest one, and any error leaves the state as it
    was. *)
Theorem completed_rounds_pass_their_own_audit completed state config shard_id :
  CompletedRound.validate_complete_authorizations completed shard_id = Ok tt →
  let batch := CompletedRound.batch completed in
  let penalties := CompletedRound.penalties completed in
  let '(r, state') := RoundTransition.apply_completed_reputation_round completed state config shard_id in
  match Replay.replay_reputation_transition_with_penalties (ReputationState.snapshot_vector state)
          (batch_ratings batch) (batch_round batch) config penalties with
  | Err _ => is_ok r = false ∧ state' = state
  | Ok list =>
    match Building.build_reputation_block_with_penalties
            (mkContext shard_id (opened_wave (CompletedRound.opened completed))
               (ReputationState.latest_block state)) batch list config penalties with
    | Err _ => is_ok r = false ∧ state' = state
    | Ok block =>
      is_ok r = true ∧ ReputationState.state_list state' = list ∧
      ReputationState.current_round state' = batch_round batch ∧
      ReputationState.latest_block state' = Some block
    end
  end.
Proof.
  intros Hv. cbv zeta. unfold RoundTransition.apply_completed_reputation_round.
  destruct (RoundTransition.stage_completed_reputation_round completed state config shard_id)
    as [[staged applied]|e] eqn:Es.
  - apply stage_Ok in Es as (_ & list & block & Hr & Hb & [= -> ->]). rewrite Hr, Hb.
    apply PorAuditFacts.build_Ok in Hb as [_ _ _ Hl (? & ? & ? & ? & _ & _ & _ & ->) _].
    cbn. done.
  - destruct (Replay.replay_reputation_transition_with_penalties _ _ _ _ _) as [list|] eqn:Er; [|done].
    destruct (Building.build_reputation_block_with_penalties _ _ _ _ _) as [block|] eqn:Eb; [|done].
    exfalso. erewrite (proj2 (stage_Ok _ _ _ _ _)) in Es; [done|]. split; [done|].
    exists list, block. split_and!; [done|done|reflexivity].
Qed.

End rounds.

(** ** Instances *)

#[local] Existing Instance elements_order.
#[local] Existing Instance sample_hash.
#[local] Existing Instance sample_scheme.
#[local] Existing Instance sample_sign.

(** From the fresh coordinator to the closed round. *)
Definition sample_log : list (list byte) :=
  filter (λ _ : list byte, is_ok (Ok (E := string) tt) = true) RatingSample.broadcasting.2.

Lemma sample_broadcast :
  CoordinatorFacts.step RatingSample.received sample_log RatingSample.sent.
Proof.
  apply (CoordinatorFacts.step_broadcast RatingSample.received (λ _, Ok tt)
    RatingSample.broadcasting.1.1 RatingSample.sent RatingSample.broadcasting.2).
  exact (eq_trans (surjective_pairing _) (f_equal2 pair (surjective_pairing _) eq_refl)).
Qed.

Lemma sample_run : CoordinatorFacts.run RatingSample.fresh sample_log RatingSample.closed.
Proof.
  assert (CoordinatorFacts.run RatingSample.fresh [] RatingSample.produced) as H1.
  { refine (CoordinatorFacts.run_snoc _ [] _ [] _ (CoordinatorFacts.run_nil _) _).
    apply (CoordinatorFacts.step_produce _ RatingSample.a []), or_default_Ok. by vm_compute. }
  assert (CoordinatorFacts.run RatingSample.fresh [] RatingSample.received) as H2.
  { refine (CoordinatorFacts.run_snoc _ [] _ [] _ H1 _).
    eapply CoordinatorFacts.step_receive, or_default_Ok. by vm_compute. }
  pose proof (CoordinatorFacts.run_snoc _ [] _ _ _ H2 sample_broadcast) as H3.
  rewrite <-(app_nil_r sample_log).
  refine (CoordinatorFacts.run_snoc _ _ _ [] _ H3 _).
  apply (CoordinatorFacts.step_quorum _ ClosurePolicy.default), or_default_Ok. by vm_compute.
Qed.

Lemma closed_rounds_are_complete_and_authentic_witness :
  sample_log = Coordinator.outbound_envelopes RatingSample.closed ∧
  ∀ sent s', CoordinatorFacts.step RatingSample.closed sent s' → s' = RatingSample.closed ∧ sent = [].
Proof.
  destruct (closed_rounds_are_complete_and_authentic RatingSample.lace (RatingSample.output 2)
    RatingSample.opened RatingSample.state RatingSample.config RatingSample.fresh
    sample_log RatingSample.closed) as [_ H].
  - apply or_default_Ok. vm_compute. reflexivity.
  - exact sample_run.
  - destruct (H (CompletedRound.batch RatingSample.completed)) as (Hlog & _ & _ & _ & Hend).
    + vm_compute. reflexivity.
    + split; [exact Hlog|exact Hend].
Defined.

Definition sample_progress : ClosurePolicy.progress :=
  or_default (ClosurePolicy.mkProgress 0 [] 0 0 0)
    (ClosurePolicy.evaluate ClosurePolicy.default (Coordinator.open_collector RatingSample.sent)).
Lemma quorum_is_an_exact_strict_fraction_witness :
  ClosurePolicy.is_reached sample_progress = true ↔ (700 * 2 < 700 * 3)%N.
Proof.
  destruct (quorum_is_an_exact_strict_fraction 2 3 ClosurePolicy.default
    (Coordinator.open_collector RatingSample.sent) sample_progress) as (_ & _ & _ & H & _).
  - reflexivity.
  - discriminate.
  - apply or_default_Ok. vm_compute. reflexivity.
  - rewrite H. vm_compute. tauto.
Defined.

Lemma honest_wave_batches_are_accepted_witness :
  ∃ c', try_fold receive_rating_envelope RatingSample.collector
      (RatingSample.envelopes_of RatingSample.b) = Ok c' ∧
    collected_ok (BlockProductionRatingCollector.policy c') (BlockProductionRatingCollector.ratings c') ∧
    BlockProductionRatingCollector.is_rater_complete c' RatingSample.b = Ok true.
Proof.
  apply (honest_wave_batches_are_accepted RatingSample.collector RatingSample.b []
    (RatingSample.batch_of RatingSample.b) (RatingSample.envelopes_of RatingSample.b)
    (RatingSample.envelopes_of RatingSample.b)).
  - apply collected_ok_empty.
  - intros r [k Hk]%elem_of_collected. cbn in Hk. by rewrite lookup_empty in Hk.
  - discriminate.
  - apply or_default_Ok. vm_compute. reflexivity.
  - apply or_default_Ok. vm_compute. reflexivity.
  - reflexivity.
Defined.

(** What a collector is when its construction succeeds. *)
Lemma new_collector bl output checkpoint authorized state config :
  is_ok (CheckpointRatingCollector.new bl output checkpoint authorized state config) = true →
  CheckpointRatingCollector.new bl output checkpoint authorized state config =
    Ok (CheckpointRatingCollector.mk bl output checkpoint
      (list_to_set (filter (λ x, ReputationState.is_ejected state x = false) authorized)) state
      config ∅).
Proof.
  unfold CheckpointRatingCollector.new. destruct (map_err _ _); cbn [result_bind]; [|done].
  by case_decide.
Qed.

Lemma sample_delivery y (c := RatingSample.checkpoint_collector) :
  is_ok (SignedRatings.build_finalized_checkpoint_rating_batch
    (CheckpointRatingCollector.blocklace c) (CheckpointRatingCollector.output c)
    (CheckpointRatingCollector.checkpoint c) y (CheckpointRatingCollector.state c)
    (CheckpointRatingCollector.config c) []) = true →
  is_ok (encode_checkpoint_rating_batch (CheckpointRatingCollector.source c)
    (RatingSample.checkpoint_batch_of y)) = true →
  honest_delivery c y (RatingSample.checkpoint_envelopes_of y).
Proof.
  intros Hb He. exists [], (RatingSample.checkpoint_batch_of y), (RatingSample.checkpoint_envelopes_of y).
  split; [exact (or_default_Ok _ _ Hb)|]. split; [exact (or_default_Ok _ _ He)|reflexivity].
Qed.

Lemma checkpoints_close_when_everyone_delivers_witness :
  ∃ c' batch, try_fold receive_checkpoint_rating_envelope RatingSample.checkpoint_collector
      (mjoin RatingSample.deliveries.*2) = Ok c' ∧
    CheckpointRatingCollector.all_authorized_raters_complete c' = Ok true ∧
    CheckpointRatingCollector.build_complete_batch c' = Ok batch.
Proof.
  destruct (checkpoints_close_when_everyone_delivers RatingSample.lace (RatingSample.output 16)
    RatingSample.checkpoint [RatingSample.a; RatingSample.b] RatingSample.state RatingSample.config
    RatingSample.checkpoint_collector RatingSample.deliveries) as (c' & batch & Hr & Ha & Hb & _).
  - apply new_collector. vm_compute. reflexivity.
  - decided.
  - discriminate.
  - decided.
  - decided.
  - intros x received (y & [= -> ->] & Hy)%list_elem_of_fmap.
    apply elem_of_cons in Hy as [->|[->|[]%elem_of_nil]%elem_of_cons];
      apply sample_delivery; vm_compute; reflexivity.
  - exists c', batch. split; [exact Hr|]. split; [exact Ha|exact Hb].
Defined.

Definition sample_list : result ReputationList PorError :=
  Replay.replay_reputation_transition_with_penalties
    (ReputationState.snapshot_vector RatingSample.state)
    (batch_ratings (CompletedRound.batch RatingSample.completed)) 1 RatingSample.config None.
Definition sample_built : result ReputationBlock PorError :=
  Building.build_reputation_block_with_penalties (mkContext [xff] 0 None)
    (CompletedRound.batch RatingSample.completed) (or_default (mkList 0 []) sample_list)
    RatingSample.config None.

Lemma completed_rounds_pass_their_own_audit_witness :
  let '(r, state') := RoundTransition.apply_completed_reputation_round RatingSample.completed
    RatingSample.state RatingSample.config [xff] in
  is_ok r = true ∧ ReputationState.state_list state' = or_default (mkList 0 []) sample_list.
Proof.
  pose proof (completed_rounds_pass_their_own_audit RatingSample.completed RatingSample.state
    RatingSample.config [xff] ltac:(vm_compute; reflexivity)) as H. cbv zeta in H.
  destruct (RoundTransition.apply_completed_reputation_round _ _ _ _) as [r state'].
  change (CompletedRound.penalties RatingSample.completed) with
    (None (A := ReputationPenaltyEvents)) in H.
  replace (batch_round (CompletedRound.batch RatingSample.completed)) with 1%N in H
    by (vm_compute; reflexivity).
  change (Replay.replay_reputation_transition_with_penalties _ _ _ _ _) with sample_list in H.
  rewrite (or_default_Ok (mkList 0 []) sample_list) in H by (vm_compute; reflexivity).
  change (Building.build_reputation_block_with_penalties _ _ _ _ _) with sample_built in H.
  destruct sample_built as [block|] eqn:E.
  - destruct H as (H1 & H2 & _). split; [exact H1|exact H2].
  - exfalso. assert (is_ok sample_built = true) as Hb by (vm_compute; reflexivity).
    by rewrite E in Hb.
Defined.
