(* ===== verification/Authorization.v ===== *)
(** * Authorized equivocation penalties

    The constructors of penalties in [evidence.rs] of cordial-por, and
    [por/evidence.rs], [por/checkpoint_evidence.rs], [por/lifecycle/checkpoint.rs]
    and the checkpoint part of [por/transition.rs] of cordial-f1r3node-adapter:
    from finalized carriers and verified evidence to the penalty events of a
    round, and the checkpoint round that they complete. *)

From S2P Require Import Prelude Types Lace Bytes Crypto Rounds PorTypes PorMath PorCommit.
From S2P Require Import PorAudit PorState FinalOutput RatingFlow RatingRound Payload Evidence.
From stdpp Require Import options.

(** [ToString]: the text of an error, which is stored and never inspected. *)
Class Display (E : Type) := to_string : E → string.

(** ** [evidence.rs] of cordial-por *)

Module EquivocationPenalties.

(** The two policy traits: one method each. *)
Definition EquivocationAuthorizationPolicy : Type :=
  EquivocationAuthorizationContext → VerifiedEvidence.t → result unit PorError.
Definition CheckpointEquivocationAuthorizationPolicy : Type :=
  CheckpointEquivocationAuthorizationContext → VerifiedEvidence.t → result unit PorError.

Section penalties.
Context `{HO : HashOrder} `{Blake2b} `{Display VerifiedEvidence.EvidenceVerificationError}.

Definition equivocation_authorization_payload (context : EquivocationAuthorizationContext)
    (proof : VerifiedEvidence.t) : result (list byte) PorError :=
  PorCommit.Evidence.authorization_payload context (VerifiedEvidence.verified_validator proof)
    (VerifiedEvidence.canonical_bytes proof).

Definition authorize (proof : VerifiedEvidence.t) (context : EquivocationAuthorizationContext)
    (policy : EquivocationAuthorizationPolicy) : result EquivocationPenalty PorError :=
  let evidence := VerifiedEvidence.canonical_bytes proof in
  let? payload := PorCommit.Evidence.authorization_payload context
    (VerifiedEvidence.verified_validator proof) evidence in
  let? _ := policy context proof in
  Ok (mkEquivocationPenalty (VerifiedEvidence.verified_validator proof) evidence
        (Some (PorCommit.mkAuthorization (Wave context) (blake2b256 payload)
                 (VerifiedEvidence.verified_round proof)))).

Definition checkpoint_equivocation_authorization_payload (shard_id : list byte) (round : N)
    (proof : VerifiedEvidence.t) : result (list byte) PorError :=
  PorCommit.Evidence.checkpoint_intent_payload shard_id round (VerifiedEvidence.verified_validator proof)
    (VerifiedEvidence.canonical_bytes proof).

Definition authorize_checkpoint (proof : VerifiedEvidence.t)
    (context : CheckpointEquivocationAuthorizationContext)
    (policy : CheckpointEquivocationAuthorizationPolicy) : result EquivocationPenalty PorError :=
  let evidence := VerifiedEvidence.canonical_bytes proof in
  let? payload := PorCommit.Evidence.checkpoint_capability_payload context
    (VerifiedEvidence.verified_validator proof) evidence in
  let? _ := policy context proof in
  Ok (mkEquivocationPenalty (VerifiedEvidence.verified_validator proof) evidence
        (Some (PorCommit.mkAuthorization (Checkpoint context) (blake2b256 payload)
                 (VerifiedEvidence.verified_round proof)))).

(** The cursor of [decode_checkpoint_equivocation_authorization_payload]. *)
Definition malformed : PorError := InvalidPenaltyEvents "malformed checkpoint authorization".
Definition read_number : parser PorError N := read_uint malformed 8.
Definition read_field (max : N) : parser PorError (list byte) :=
  read n := read_number in
  if decide (max < n)%N then parse_fail malformed else read_exact malformed (N.to_nat n).

Definition read_intent (shard_id : list byte) (round : N) :
    parser PorError (NodeId * list byte) :=
  read shard := read_field (N.of_nat MAX_REPUTATION_BLOCK_SHARD_ID_LEN) in
  if decide (shard ≠ shard_id) then parse_fail malformed else
  read found := read_number in
  if decide (found ≠ round) then parse_fail malformed else
  read offender := read_field MAX_REPUTATION_BLOCK_NODE_ID_LEN in
  read proof := read_field MAX_PENALTY_EVIDENCE_LEN in
  parse_ret (offender, proof).

Definition decode_checkpoint_equivocation_authorization_payload (bytes shard_id : list byte)
    (round : N) : result EquivocationEvidence PorError :=
  let? input := ok_or
    (strip_prefix PorCommit.Evidence.POR_CHECKPOINT_EQUIVOCATION_AUTHORIZATION_DOMAIN bytes) malformed in
  let? parsed := read_intent shard_id round input in
  let '((offender, proof), rest) := parsed in
  bail malformed when rest ≠ [];
  let? payload := PorCommit.Evidence.checkpoint_intent_payload shard_id round offender proof in
  bail malformed when payload ≠ bytes;
  let? raw := map_err (λ e, InvalidPenaltyEvents (to_string e))
    (VerifiedEvidence.decode_equivocation_evidence proof) in
  bail malformed when validator raw ≠ offender;
  Ok raw.

End penalties.
End EquivocationPenalties.

(** Membership is positive stake: [members.get(id).copied().unwrap_or(0) != 0]. *)
Definition bonded (members : gmap NodeId N) (id : NodeId) : Prop := default 0%N (members !! id) ≠ 0%N.
#[export] Instance bonded_dec members id : Decision (bonded members id).
Proof. unfold bonded. apply _. Defined.

(** A finalized block that carries the authorization is signed by its member. *)
Definition published_by_member `{HashOrder} `{Blake2b} `{Secp256k1} (members : gmap NodeId N)
    (block : Block) : bool :=
  bool_decide (bonded members (creator (identity block))) &&
  bool_decide (Crypto.block_hash (creator (identity block)) (content block) =
               content_hash (identity block)) &&
  Crypto.verify (content_hash (identity block)) (creator (identity block))
    (Types.signature (identity block)).

(** [selected]: messages to events; [by_offender] keeps the first event of each
    offender in message order. *)
Definition first_of_offender (by_offender : gmap NodeId EquivocationPenalty)
    (event : EquivocationPenalty) : gmap NodeId EquivocationPenalty :=
  match by_offender !! offender event with
  | Some _ => by_offender
  | None => <[offender event := event]> by_offender
  end.
Definition one_per_offender (selected : gmap (list byte) EquivocationPenalty) :
    list EquivocationPenalty :=
  (btree_map_iter (foldl first_of_offender ∅ (btree_map_iter selected).*2)).*2.

(** ** [por/evidence.rs]: the policy of a finalized wave *)

Module FinalizedEquivocationAuthorization.

Record t := mk {
  blocklace : Blocklace.t;
  output : OrderedFinalizedOutput.t;
  opened : FinalizedRatingRound;
  authorized_validators : gmap NodeId N
}.

Section policy.
Context `{HO : HashOrder} `{Blake2b} `{Secp256k1}.
Context `{Bincode Payload.t} `{Bincode Payload.legacy}.
Context `{Display FinalizedInteractions.PorInteractionError}.

Definition new (bl : Blocklace.t) (output : OrderedFinalizedOutput.t)
    (opened : FinalizedRatingRound) (authorized_validators : gmap NodeId N) : result t PorError :=
  let? _ := map_err (λ e, InvalidPenaltyEvents (to_string e))
    (FinalizedInteractions.validate_finalized_rating_round bl output opened) in
  Ok (mk bl output opened authorized_validators).

(** An equivocating block is not newer than the finalized wave. *)
Definition check_not_newer (self : t) (block : Block) : result unit PorError :=
  let? round := ok_or (Round.candidate_depth (blocklace self) (content block))
    (InvalidPenaltyEvents "equivocation ancestry is unavailable") in
  match Wave.wave_of_round round (OrderedFinalizedOutput.wavelength (output self)) with
  | Some wave =>
    bail (InvalidPenaltyEvents "equivocation is newer than the finalized source wave")
      when (opened_wave (opened self) < wave)%N;
    Ok tt
  | None => Err (InvalidPenaltyEvents "equivocation is newer than the finalized source wave")
  end.

Definition carries (context : EquivocationAuthorizationContext) (payload : list byte)
    (authorization : PorEquivocationAuthorization) : bool :=
  bool_decide (authorization_shard_id authorization = wave_shard_id context ∧
    Payload.source_finalized_wave authorization = PorCommit.source_finalized_wave context ∧
    authorization_round authorization = context_round context ∧
    message authorization = payload).

(** The loop over the finalized blocks: the first carrier decides. *)
Fixpoint find_authorization (self : t) (context : EquivocationAuthorizationContext)
    (payload : list byte) (references : list BlockIdentity) : result unit PorError :=
  match references with
  | [] => Err (InvalidPenaltyEvents "verified equivocation has no finalized authorization payload")
  | reference :: references =>
    let? block := ok_or (Blocklace.get (blocklace self) reference)
      (InvalidPenaltyEvents "finalized authorization block is unavailable") in
    let? authorizations := map_err InvalidPenaltyEvents
      (Payload.por_authorizations_from_bytes (Types.payload (content block))) in
    if existsb (carries context payload) authorizations then
      let? block_round := ok_or (Round.depth (blocklace self) (identity block))
        (InvalidPenaltyEvents "authorization block ancestry is unavailable") in
      bail (InvalidPenaltyEvents "invalid finalized equivocation authorization block")
        when Wave.wave_of_round block_round (OrderedFinalizedOutput.wavelength (output self)) ≠
               Some (opened_wave (opened self)) ∨
             published_by_member (authorized_validators self) block = false;
      Ok tt
    else find_authorization self context payload references
  end.

Definition authorize (self : t) (context : EquivocationAuthorizationContext)
    (evidence : VerifiedEvidence.t) : result unit PorError :=
  bail (InvalidPenaltyEvents "equivocation is outside the authorized validator/round context")
    when context_round context ≠ rating_round_of (opened self) ∨
         PorCommit.source_finalized_wave context ≠ opened_wave (opened self) ∨
         ¬ bonded (authorized_validators self) (VerifiedEvidence.verified_validator evidence);
  let? _ := try_fold (λ _ block, check_not_newer self block) tt
    (VerifiedEvidence.verified_blocks evidence) in
  let? payload := EquivocationPenalties.equivocation_authorization_payload context evidence in
  find_authorization self context payload (OrderedFinalizedOutput.blocks (output self)).

End policy.
End FinalizedEquivocationAuthorization.

(** The accumulators of both admission loops. *)
Record Admission := mkAdmitted {
  selected : gmap (list byte) EquivocationPenalty;
  admitted_carriers : gset PorEquivocationAuthorization
}.

Module WaveAdmission.
Section admission.
Context `{HO : HashOrder} `{Blake2b} `{Secp256k1}.
Context `{Bincode Payload.t} `{Bincode Payload.legacy}.
Context `{Display FinalizedInteractions.PorInteractionError}.
Context `{Display VerifiedEvidence.EvidenceVerificationError}.

Definition admit_claim (bl : Blocklace.t) (policy : FinalizedEquivocationAuthorization.t)
    (context : EquivocationAuthorizationContext) (acc : Admission) (claim : EquivocationEvidence) :
    result Admission PorError :=
  let? proof := map_err (λ e, InvalidPenaltyEvents (to_string e))
    (VerifiedEvidence.verify_equivocation_evidence claim bl) in
  let? message := EquivocationPenalties.equivocation_authorization_payload context proof in
  let? event := EquivocationPenalties.authorize proof context
    (FinalizedEquivocationAuthorization.authorize policy) in
  Ok (mkAdmitted (<[message := event]> (selected acc))
        ({[Payload.mkAuthorization (wave_shard_id context)
             (PorCommit.source_finalized_wave context) (context_round context) message]} ∪
         admitted_carriers acc)).

(** [CompletedPorRatingRound::with_authorized_equivocations]. *)
Definition with_authorized_equivocations (self : CompletedRound.t)
    (raw : list EquivocationEvidence) (bl : Blocklace.t) (output : OrderedFinalizedOutput.t)
    (authorized_validators : gmap NodeId N) (shard_id : list byte) :
    result CompletedRound.t PorError :=
  let? policy := FinalizedEquivocationAuthorization.new bl output (CompletedRound.opened self)
    authorized_validators in
  let round := batch_round (CompletedRound.batch self) in
  let context := mkWaveContext shard_id (opened_wave (CompletedRound.opened self)) round in
  let? acc := try_fold (admit_claim bl policy context) (mkAdmitted ∅ ∅) raw in
  let events := mkEvents round (one_per_offender (selected acc)) [] in
  let? _ := Commitments.penalty_events_commitment round (Some events) in
  let self := CompletedRound.set_authorized_penalties self events (admitted_carriers acc) in
  let? _ := CompletedRound.validate_complete_authorizations self shard_id in
  Ok self.

End admission.
End WaveAdmission.

(** ** [lifecycle/checkpoint.rs] *)

Module CompletedCheckpoint.

Record t := mk {
  checkpoint : FinalizedPrefixCheckpoint;
  batch : RatingBatch;
  finalized_authorizations : gset PorEquivocationAuthorization;
  admitted_authorizations : gset PorEquivocationAuthorization;
  ignored_authorizations : gset PorEquivocationAuthorization;
  preceding_reputation : ReputationList;
  penalties : option ReputationPenaltyEvents
}.

Definition new (checkpoint : FinalizedPrefixCheckpoint) (batch : RatingBatch)
    (finalized_authorizations : gset PorEquivocationAuthorization) (state : ReputationState.t) : t :=
  mk checkpoint batch finalized_authorizations ∅ ∅ (ReputationState.state_list state) None.

Definition validate_preceding_state (self : t) (state : ReputationState.t) :
    result unit PorError :=
  bail (InvalidPenaltyEvents "checkpoint authorization used a different preceding state")
    when preceding_reputation self ≠ ReputationState.state_list state;
  Ok tt.

Definition validate_complete_authorizations (self : t) (shard_id : list byte) :
    result unit PorError :=
  let expected := CompletedRound.of_shard shard_id (finalized_authorizations self) in
  let accounted := admitted_authorizations self ∪ ignored_authorizations self in
  bail (InvalidPenaltyEvents "checkpoint penalties omit or add finalized authorizations")
    when ¬ admitted_authorizations self ## ignored_authorizations self ∨ expected ≠ accounted;
  Ok tt.

Definition source (self : t) : RatingSourceCheckpoint :=
  PorFinality.rating_source (checkpoint self).

Definition with_penalties (self : t) (events : ReputationPenaltyEvents)
    (admitted ignored : gset PorEquivocationAuthorization) : t :=
  mk (checkpoint self) (batch self) (finalized_authorizations self) admitted ignored
    (preceding_reputation self) (Some events).

End CompletedCheckpoint.

(** ** [por/checkpoint_evidence.rs] *)

Section window.
Context `{HO : HashOrder} `{Blake2b}.
Context `{Bincode Payload.t} `{Bincode Payload.legacy}.
Context `{Display FinalizedInteractions.PorInteractionError}.

Definition window (bl : Blocklace.t) (output : OrderedFinalizedOutput.t)
    (checkpoint : FinalizedPrefixCheckpoint) : result (list BlockIdentity) PorError :=
  let? _ := map_err (λ e, InvalidPenaltyEvents (to_string e))
    (FinalizedInteractions.validate_finalized_checkpoint_window bl output checkpoint) in
  Ok (FinalizedInteractions.checkpoint_window output checkpoint).

(** What a carrier of the checkpoint's round must say. *)
Definition checkpoint_carrier (round : N) (carrier : PorEquivocationAuthorization) : Prop :=
  starts_with PorCommit.Evidence.POR_CHECKPOINT_EQUIVOCATION_AUTHORIZATION_DOMAIN
    (message carrier) = true ∧
  Payload.source_finalized_wave carrier = 0%N ∧ authorization_round carrier = round.
#[global] Instance checkpoint_carrier_dec round carrier :
  Decision (checkpoint_carrier round carrier).
Proof. unfold checkpoint_carrier. apply _. Defined.

Definition collect_checkpoint_authorizations (bl : Blocklace.t) (round : N)
    (messages : gset PorEquivocationAuthorization) (id : BlockIdentity) :
    result (gset PorEquivocationAuthorization) PorError :=
  let? block := ok_or (Blocklace.get bl id)
    (InvalidPenaltyEvents "missing finalized authorization block") in
  let? carriers := map_err InvalidPenaltyEvents
    (Payload.por_authorizations_from_bytes (Types.payload (content block))) in
  Ok (foldl (λ messages carrier, {[carrier]} ∪ messages) messages
        (filter (checkpoint_carrier round) carriers)).

Definition finalized_checkpoint_authorizations (bl : Blocklace.t)
    (output : OrderedFinalizedOutput.t) (checkpoint : FinalizedPrefixCheckpoint) :
    result (gset PorEquivocationAuthorization) PorError :=
  let? ids := window bl output checkpoint in
  try_fold (collect_checkpoint_authorizations bl (por_round checkpoint)) ∅ ids.

End window.

Module FinalizedCheckpointAuthorization.

Record t := mk {
  blocklace : Blocklace.t;
  output : OrderedFinalizedOutput.t;
  checkpoint : FinalizedPrefixCheckpoint;
  membership : gmap NodeId N;
  preceding_reputation : ReputationList
}.

Definition eligible_offender (self : t) (offender : NodeId) : bool :=
  bool_decide (is_Some (membership self !! offender)) &&
  existsb (λ entry, bool_decide (ReputationEntry.node_id entry = offender ∧
                                 ReputationEntry.is_excluded entry = false))
    (entries (preceding_reputation self)).

Definition carries (context : CheckpointEquivocationAuthorizationContext) (expected : list byte)
    (carrier : PorEquivocationAuthorization) : bool :=
  bool_decide (Payload.source_finalized_wave carrier = 0%N ∧
    authorization_round carrier = source_round (checkpoint_source context) ∧
    authorization_shard_id carrier = checkpoint_shard_id context ∧ message carrier = expected).

(** The content with signature-independent references. *)
Definition unsigned_content (c : BlockContent) : BlockContent :=
  mkContent (Types.payload c) (set_map consensus_identity (predecessors c)).

Section policy.
Context `{HO : HashOrder} `{Blake2b} `{Secp256k1}.
Context `{Bincode Payload.t} `{Bincode Payload.legacy}.
Context `{Display FinalizedInteractions.PorInteractionError}.

(** The inner loop, which breaks at the first block that is too new. *)
Fixpoint too_new (bl : Blocklace.t) (authorization_depth : N) (blocks : list Block) :
    result bool PorError :=
  match blocks with
  | [] => Ok false
  | conflicting :: blocks =>
    let? proof_depth := ok_or (Round.candidate_depth bl (unsigned_content (content conflicting)))
      (InvalidPenaltyEvents "missing equivocation ancestry") in
    if decide (authorization_depth < proof_depth)%N then Ok true
    else too_new bl authorization_depth blocks
  end.

(** The loop over the window: some publication is acceptable. *)
Fixpoint published (self : t) (context : CheckpointEquivocationAuthorizationContext)
    (proof : VerifiedEvidence.t) (expected : list byte) (ids : list BlockIdentity) :
    result bool PorError :=
  match ids with
  | [] => Ok false
  | id :: ids =>
    let? block := ok_or (Blocklace.get (blocklace self) id)
      (InvalidPenaltyEvents "missing finalized block") in
    let? carriers := map_err InvalidPenaltyEvents
      (Payload.por_authorizations_from_bytes (Types.payload (content block))) in
    if negb (existsb (carries context expected) carriers) then
      published self context proof expected ids
    else if negb (published_by_member (membership self) block) then
      published self context proof expected ids
    else
      let? authorization_depth := ok_or (Round.depth (blocklace self) (identity block))
        (InvalidPenaltyEvents "missing authorization ancestry") in
      let? newer := too_new (blocklace self) authorization_depth
        (VerifiedEvidence.verified_blocks proof) in
      if newer : bool then published self context proof expected ids else Ok true
  end.

Definition is_authorized (self : t) (context : CheckpointEquivocationAuthorizationContext)
    (proof : VerifiedEvidence.t) : result bool PorError :=
  bail (InvalidPenaltyEvents "invalid checkpoint authorization source or offender")
    when checkpoint_source context ≠ PorFinality.rating_source (checkpoint self);
  if negb (eligible_offender self (VerifiedEvidence.verified_validator proof)) then Ok false
  else
    let? expected := EquivocationPenalties.checkpoint_equivocation_authorization_payload
      (checkpoint_shard_id context) (source_round (checkpoint_source context)) proof in
    let? ids := window (blocklace self) (output self) (checkpoint self) in
    published self context proof expected ids.

Definition authorize_checkpoint (self : t)
    (context : CheckpointEquivocationAuthorizationContext) (proof : VerifiedEvidence.t) :
    result unit PorError :=
  let? authorized := is_authorized self context proof in
  if authorized : bool then Ok tt
  else Err (InvalidPenaltyEvents "proof has no eligible authorization in its target checkpoint").

(** [None]: a definitively invalid carrier, which is ignored. *)
Definition extract_valid_claim `{Display VerifiedEvidence.EvidenceVerificationError} (self : t)
    (carrier : PorEquivocationAuthorization) (shard_id : list byte) :
    result (option EquivocationEvidence) PorError :=
  let round := por_round (checkpoint self) in
  if decide (authorization_shard_id carrier ≠ shard_id ∨
             Payload.source_finalized_wave carrier ≠ 0%N ∨ authorization_round carrier ≠ round)
  then Ok None
  else
    match EquivocationPenalties.decode_checkpoint_equivocation_authorization_payload
            (message carrier) shard_id round with
    | Err _ => Ok None
    | Ok claim =>
      if negb (eligible_offender self (validator claim)) then Ok None
      else
        match VerifiedEvidence.verify_equivocation_evidence claim (blocklace self) with
        | Err VerifiedEvidence.MissingHistory =>
          Err (InvalidPenaltyEvents "equivocation verification requires unavailable ancestry")
        | Err _ => Ok None
        | Ok proof =>
          let context := mkCheckpointContext shard_id
            (PorFinality.rating_source (checkpoint self)) in
          let? payload := EquivocationPenalties.checkpoint_equivocation_authorization_payload
            shard_id (source_round (checkpoint_source context)) proof in
          if decide (payload ≠ message carrier) then Ok None
          else
            let? authorized := is_authorized self context proof in
            Ok (if authorized : bool then Some claim else None)
        end
    end.

End policy.
End FinalizedCheckpointAuthorization.

(** ** The admission of a checkpoint round *)

Module CheckpointAdmission.
Section admission.
Context `{HO : HashOrder} `{Blake2b} `{Secp256k1}.
Context `{Bincode Payload.t} `{Bincode Payload.legacy}.
Context `{Display FinalizedInteractions.PorInteractionError}.
Context `{Display VerifiedEvidence.EvidenceVerificationError}.
Implicit Types (self : CompletedCheckpoint.t) (bl : Blocklace.t) (output : OrderedFinalizedOutput.t)
  (membership : gmap NodeId N) (shard_id : list byte).

Definition policy_of self bl output membership : FinalizedCheckpointAuthorization.t :=
  FinalizedCheckpointAuthorization.mk bl output (CompletedCheckpoint.checkpoint self) membership
    (CompletedCheckpoint.preceding_reputation self).

(** The retained carriers of the shard, in order. *)
Definition shard_carriers self shard_id : list PorEquivocationAuthorization :=
  filter (λ carrier, authorization_shard_id carrier = shard_id)
    (btree_iter (CompletedCheckpoint.finalized_authorizations self)).

Definition keep_valid (policy : FinalizedCheckpointAuthorization.t) shard_id
    (valid : gset PorEquivocationAuthorization) (carrier : PorEquivocationAuthorization) :
    result (gset PorEquivocationAuthorization) PorError :=
  let? claim := FinalizedCheckpointAuthorization.extract_valid_claim policy carrier shard_id in
  Ok (match claim with Some _ => {[carrier]} ∪ valid | None => valid end).

Definition admit_claim (bl : Blocklace.t)
    (policy : FinalizedCheckpointAuthorization.t)
    (context : CheckpointEquivocationAuthorizationContext) (acc : Admission)
    (claim : EquivocationEvidence) : result Admission PorError :=
  let shard_id := checkpoint_shard_id context in
  let round := source_round (checkpoint_source context) in
  let? proof := map_err (λ e, InvalidPenaltyEvents (to_string e))
    (VerifiedEvidence.verify_equivocation_evidence claim bl) in
  let? message := EquivocationPenalties.checkpoint_equivocation_authorization_payload shard_id
    round proof in
  let? event := EquivocationPenalties.authorize_checkpoint proof context
    (FinalizedCheckpointAuthorization.authorize_checkpoint policy) in
  Ok (mkAdmitted (<[message := event]> (selected acc))
        ({[Payload.mkAuthorization shard_id 0 round message]} ∪ admitted_carriers acc)).

(** [CompletedCheckpointRatingRound::with_authorized_equivocations]. *)
Definition with_authorized_equivocations self (raw : list EquivocationEvidence) bl output
    membership shard_id : result CompletedCheckpoint.t PorError :=
  let policy := policy_of self bl output membership in
  let? found := finalized_checkpoint_authorizations bl output
    (CompletedCheckpoint.checkpoint self) in
  bail (InvalidPenaltyEvents "retained authorizations differ from finalized checkpoint contents")
    when found ≠ CompletedCheckpoint.finalized_authorizations self;
  let context := mkCheckpointContext shard_id (CompletedCheckpoint.source self) in
  let round := source_round (checkpoint_source context) in
  let? valid := try_fold (keep_valid policy shard_id) ∅ (shard_carriers self shard_id) in
  let? acc := try_fold (admit_claim bl policy context) (mkAdmitted ∅ ∅) raw in
  bail (InvalidPenaltyEvents "checkpoint penalties omit or add finalized authorizations")
    when admitted_carriers acc ≠ valid;
  let events := mkEvents round (one_per_offender (selected acc)) [] in
  let? _ := Commitments.penalty_events_commitment round (Some events) in
  let self := CompletedCheckpoint.with_penalties self events (admitted_carriers acc)
    (filter (λ carrier, authorization_shard_id carrier = shard_id ∧ carrier ∉ valid)
       (CompletedCheckpoint.finalized_authorizations self)) in
  let? _ := CompletedCheckpoint.validate_complete_authorizations self shard_id in
  Ok self.

Definition extract_claim (policy : FinalizedCheckpointAuthorization.t) shard_id
    (raw : list EquivocationEvidence) (carrier : PorEquivocationAuthorization) :
    result (list EquivocationEvidence) PorError :=
  let? claim := FinalizedCheckpointAuthorization.extract_valid_claim policy carrier shard_id in
  Ok (match claim with Some claim => raw ++ [claim] | None => raw end).

Definition with_finalized_equivocations self bl output membership shard_id :
    result CompletedCheckpoint.t PorError :=
  let? raw := try_fold (extract_claim (policy_of self bl output membership) shard_id) []
    (shard_carriers self shard_id) in
  with_authorized_equivocations self raw bl output membership shard_id.

End admission.
End CheckpointAdmission.

(** ** [stage_completed_checkpoint_round] of [por/transition.rs] *)

Section transition.
Context `{Blake2b}.

Definition stage_completed_checkpoint_round (completed : CompletedCheckpoint.t)
    (state : ReputationState.t) (config : PorConfig.t) (shard_id : list byte) :
    result (ReputationState.t * RoundTransition.AppliedPorReputationRound) PorError :=
  let? _ := CompletedCheckpoint.validate_preceding_state completed state in
  let? _ := CompletedCheckpoint.validate_complete_authorizations completed shard_id in
  let source := CompletedCheckpoint.source completed in
  let batch := CompletedCheckpoint.batch completed in
  let? reputation_list := Replay.replay_reputation_transition_with_penalties
    (ReputationState.snapshot_vector state) (batch_ratings batch) (batch_round batch) config
    (CompletedCheckpoint.penalties completed) in
  let? block := Building.build_checkpoint_reputation_block_with_penalties
    (mkCheckpoint shard_id source (ReputationState.latest_block state)) batch reputation_list config
    (CompletedCheckpoint.penalties completed) in
  let? staged := ReputationState.apply_checkpoint_reputation_block_with_penalties state shard_id
    source (batch_ratings batch) block config (CompletedCheckpoint.penalties completed) in
  Ok (staged, RoundTransition.mkApplied AllAuthorizedRaters block
                (Weights.reputation_weights staged)).

End transition.
