(* ===== verification/AuthorizationFacts.v ===== *)
(** * Facts about authorized penalties

    Carriers determine the events they authorize; the admission loops collect
    one event per message; the penalty events keep one per offender. *)

From S2P Require Import Prelude Types Lace Bytes Crypto Samples Rounds PorTypes PorMath PorCommit.
From S2P Require Import PorAudit PorAuditFacts PorState QuorumFacts FinalOutput FinalOutputFacts.
From S2P Require Import RatingWire RatingFlow RatingFlowFacts RatingRound HonestFacts Payload.
From S2P Require Import EvidenceFacts Evidence Authorization.
From stdpp Require Import options.

(** ** One event per offender *)

Section per_offender.
Implicit Types (e : EquivocationPenalty) (m : gmap NodeId EquivocationPenalty).

Lemma first_of_offender_spec l m :
  (∀ v e, m !! v = Some e → offender e = v) →
  let m' := foldl first_of_offender m l in
  (∀ v e, m' !! v = Some e → offender e = v ∧ (m !! v = Some e ∨ e ∈ l)) ∧
  (∀ v, is_Some (m' !! v) ↔ is_Some (m !! v) ∨ ∃ e, e ∈ l ∧ offender e = v).
Proof.
  revert m. induction l as [|x l IH]; intros m Hm; cbn [foldl].
  { split; [intros v e Hv; split; [by apply Hm|by left]|].
    intros v. split; [by left|intros [?|(e & []%elem_of_nil & _)]; done]. }
  assert (∀ v e, first_of_offender m x !! v = Some e → offender e = v ∧ (m !! v = Some e ∨ e = x))
    as Hx.
  { intros v e. unfold first_of_offender. destruct (m !! offender x) as [y|] eqn:E.
    - intros Hv. split; [by apply Hm|by left].
    - rewrite lookup_insert_Some. intros [[<- ->]|[_ Hv]]; [tauto|]. split; [by apply Hm|by left]. }
  assert (∀ v, is_Some (first_of_offender m x !! v) ↔ is_Some (m !! v) ∨ offender x = v) as Hs.
  { intros v. unfold first_of_offender. destruct (m !! offender x) as [y|] eqn:E.
    - split; [by left|]. intros [?| <-]; [done|]. by rewrite E.
    - rewrite lookup_insert_is_Some. destruct (decide (offender x = v)); tauto. }
  destruct (IH (first_of_offender m x)) as [H1 H2]; [intros v e Hv; by apply Hx|]. split.
  - intros v e Hv. destruct (H1 v e Hv) as [Ho Hin]. split; [done|].
    destruct Hin as [[_ [?| ->]]%Hx|?]; [by left|right; by left|right; by right].
  - intros v. rewrite H2, Hs. split.
    + intros [[?|<-]|(e & ? & ?)]; [by left|right; exists x; split; [by left|done]|].
      right. exists e. split; [by right|done].
    + intros [?|(e & [->|He]%elem_of_cons & Ho)]; [by left; left|by left; right|].
      right. by exists e.
Qed.

(** Every event of the list is selected, no offender has two, and every
    offender of a selected event has one. *)
Lemma one_per_offender_spec (selected : gmap (list byte) EquivocationPenalty) :
  (∀ e, e ∈ one_per_offender selected → ∃ message, selected !! message = Some e) ∧
  NoDup (offender <$> one_per_offender selected) ∧
  (∀ message e, selected !! message = Some e →
    ∃ e', e' ∈ one_per_offender selected ∧ offender e' = offender e).
Proof.
  unfold one_per_offender. set (l := (btree_map_iter selected).*2).
  destruct (first_of_offender_spec l ∅) as [H1 H2]; [intros v e; by rewrite lookup_empty|].
  cbv zeta in H1, H2. set (m := foldl first_of_offender ∅ l) in *.
  assert (∀ e, e ∈ l ↔ ∃ message, selected !! message = Some e) as Hl.
  { intros e. unfold l. rewrite list_elem_of_fmap. split.
    - intros ([k e'] & -> & Hk%elem_of_btree_map_iter). by exists k.
    - intros [k Hk]. exists (k, e). split; [done|]. by apply elem_of_btree_map_iter. }
  split_and!.
  - intros e ([v e'] & -> & Hv%elem_of_btree_map_iter)%list_elem_of_fmap. cbn.
    destruct (H1 v e' Hv) as [_ [Hn|Hin]]; [by rewrite lookup_empty in Hn|by apply Hl].
  - rewrite <-list_fmap_compose.
    rewrite (list_fmap_ext _ fst); [apply keys_NoDup|].
    intros i [v e] Hi%list_elem_of_lookup_2%elem_of_btree_map_iter. cbn.
    by apply H1.
  - intros k e Hk. assert (e ∈ l) as He by (apply Hl; eauto).
    destruct (proj2 (H2 (offender e))) as [e' He']; [right; by exists e|].
    exists e'. split; [|by apply (H1 (offender e) e')]. apply list_elem_of_fmap.
    exists (offender e, e'). split; [done|]. by apply elem_of_btree_map_iter.
Qed.

End per_offender.

(** ** The admission loops *)

Section admission.
Context (entry : EquivocationEvidence → result (list byte * EquivocationPenalty) PorError).
Context (carrier_of : list byte → PorEquivocationAuthorization).

Definition admission_step (acc : Admission) (claim : EquivocationEvidence) :
    result Admission PorError :=
  let? e := entry claim in
  Ok (mkAdmitted (<[e.1 := e.2]> (selected acc)) ({[carrier_of e.1]} ∪ admitted_carriers acc)).

(** A message stands for one event. *)
Definition entries_agree : Prop :=
  ∀ c c' message e e', entry c = Ok (message, e) → entry c' = Ok (message, e') → e = e'.

Record admitted_from (raw : list EquivocationEvidence) (acc : Admission) : Prop := {
  admitted_selected : ∀ message e, selected acc !! message = Some e ↔
    ∃ claim, claim ∈ raw ∧ entry claim = Ok (message, e);
  admitted_carrier : ∀ a, a ∈ admitted_carriers acc ↔
    ∃ claim message e, claim ∈ raw ∧ entry claim = Ok (message, e) ∧ a = carrier_of message
}.

Lemma admission_loop raw acc :
  entries_agree → try_fold admission_step (mkAdmitted ∅ ∅) raw = Ok acc →
  admitted_from raw acc ∧ ∀ claim, claim ∈ raw → is_ok (entry claim) = true.
Proof.
  intros Hag. revert acc. induction raw as [|claim raw IH] using rev_ind; intros acc.
  { intros [= <-]. split; [split|by intros ? ?%elem_of_nil].
    - intros message e. cbn. rewrite lookup_empty. split; [done|by intros (? & ?%elem_of_nil & _)].
    - intros a. cbn. split; [by intros ?%elem_of_empty|by intros (? & ? & ? & ?%elem_of_nil & _)]. }
  rewrite try_fold_app. intros (acc' & Hacc & H)%result_bind_Ok. cbn [try_fold] in H.
  apply result_bind_Ok in H as (acc'' & ([message e] & He & [= <-])%result_bind_Ok & [= <-]).
  destruct (IH _ Hacc) as [[Hs Hc] Hok]. cbn [fst snd]. split; [split|].
  - intros k e'. cbn [selected]. rewrite lookup_insert_Some. split.
    + intros [[<- <-]|[_ (c & Hc' & He')%Hs]].
      * exists claim. split; [apply elem_of_app; right; by left|done].
      * exists c. split; [apply elem_of_app; by left|done].
    + intros (c & [Hin|Hin%list_elem_of_singleton]%elem_of_app & He').
      * destruct (decide (message = k)) as [<-|]; [left; split; [done|by eapply Hag]|].
        right. split; [done|]. apply Hs. eauto.
      * subst c. rewrite He in He'. injection He' as <- <-. by left.
  - intros a. cbn [admitted_carriers]. rewrite elem_of_union, elem_of_singleton, Hc. split.
    + intros [->|(c & m & e' & Hin & ? & ?)].
      * exists claim, message, e. split; [apply elem_of_app; right; by left|done].
      * exists c, m, e'. split; [apply elem_of_app; by left|done].
    + intros (c & m & e' & [Hin|Hin%list_elem_of_singleton]%elem_of_app & He' & ->).
      * right. eauto 6.
      * left. subst c. rewrite He in He'. by injection He' as <- <-.
  - intros c [Hin|Hin%list_elem_of_singleton]%elem_of_app; [by apply Hok|by rewrite Hin, He].
Qed.

Lemma admission_succeeds raw :
  (∀ claim, claim ∈ raw → is_ok (entry claim) = true) →
  ∃ acc, try_fold admission_step (mkAdmitted ∅ ∅) raw = Ok acc.
Proof.
  induction raw as [|claim raw IH] using rev_ind; intros Hok; [by eexists|].
  destruct IH as [acc Hacc]; [intros c Hc; apply Hok, elem_of_app; by left|].
  rewrite try_fold_app, Hacc. cbn [result_bind try_fold]. unfold admission_step.
  assert (is_ok (entry claim) = true) as He by (apply Hok, elem_of_app; right; by left).
  destruct (entry claim) as [e|]; [|done]. by eexists.
Qed.

(** The same carriers come from the same events. *)
Lemma admitted_determined raw raw' acc acc' :
  entries_agree → (∀ m m', carrier_of m = carrier_of m' → m = m') →
  admitted_from raw acc → admitted_from raw' acc' →
  admitted_carriers acc = admitted_carriers acc' → acc = acc'.
Proof.
  intros Hag Hinj.
  assert (∀ raw raw' acc acc', admitted_from raw acc → admitted_from raw' acc' →
    admitted_carriers acc = admitted_carriers acc' →
    ∀ m e, selected acc !! m = Some e → selected acc' !! m = Some e) as Hle.
  { clear raw raw' acc acc'. intros raw raw' acc acc' [Hs Hc] [Hs' Hc'] E m e (c & Hin & He)%Hs.
    assert (carrier_of m ∈ admitted_carriers acc') as (c' & m' & e' & Hin' & He' & Em%Hinj)%Hc'.
    { rewrite <-E. apply Hc. eauto 6. }
    subst m'. apply Hs'. exists c'. split; [done|]. by rewrite (Hag _ _ _ _ _ He He'). }
  intros Ha Ha' E. destruct acc as [s a], acc' as [s' a']. cbn in E. subst a'. f_equal.
  apply map_eq. intros m. apply option_eq. intros e. split.
  - by apply (Hle raw raw' (mkAdmitted s a) (mkAdmitted s' a)).
  - by apply (Hle raw' raw (mkAdmitted s' a) (mkAdmitted s a)).
Qed.

End admission.

(** ** What a message binds *)

Section messages.
Context `{HO : HashOrder} `{HB : Blake2b} `{HS : Secp256k1}.
Import VerifiedEvidence.

Lemma verified_round_fits raw bl proof :
  verify_equivocation_evidence raw bl = Ok proof → (verified_round proof <= u64_max)%N.
Proof.
  intros [Hg ->]%verify_genuine. cbn. destruct (genuine_round _ _ Hg) as (b & Hb & Hl).
  by apply (longest_fits bl b); [by apply (genuine_clean _ _ Hg)|].
Qed.

(** The offender is part of the proof, so a bounded proof bounds it. *)
Lemma validator_below_proof proof :
  length (verified_validator proof) ≤ length (canonical_bytes proof).
Proof. unfold canonical_bytes, field. rewrite !length_app. lia. Qed.

Lemma canonical_bytes_inj proof proof' :
  fits (verified_validator proof) → fits (verified_validator proof') →
  (verified_round proof <= u64_max)%N → (verified_round proof' <= u64_max)%N →
  canonical_bytes proof = canonical_bytes proof' →
  verified_validator proof = verified_validator proof' ∧
  verified_round proof = verified_round proof'.
Proof.
  unfold canonical_bytes. intros Hv Hv' Hr Hr' E%app_inv_head.
  apply field_app_inj in E as [-> E]; [|done..]. by apply be64_app_inj in E as [-> _].
Qed.

Lemma bounded_fits {A} (l : list A) : (PorCommit.len l <= MAX_PENALTY_EVIDENCE_LEN)%N →
  (N.of_nat (length l) <= u64_max)%N.
Proof. unfold PorCommit.len, MAX_PENALTY_EVIDENCE_LEN, u64_max. lia. Qed.

Lemma intent_Ok shard_id round v proof bytes :
  PorCommit.Evidence.checkpoint_intent_payload shard_id round v proof = Ok bytes ↔
  (shard_id ≠ [] ∧ length shard_id ≤ MAX_REPUTATION_BLOCK_SHARD_ID_LEN ∧ round ≠ 0%N ∧
   checked_mul u64_max round POR_FINALIZED_BLOCKS_PER_CHECKPOINT ≠ None ∧ proof ≠ [] ∧
   (PorCommit.len proof <= MAX_PENALTY_EVIDENCE_LEN)%N) ∧
  bytes = PorCommit.Evidence.POR_CHECKPOINT_EQUIVOCATION_AUTHORIZATION_DOMAIN ++ field shard_id ++
          be64 round ++ field v ++ field proof.
Proof.
  unfold PorCommit.Evidence.checkpoint_intent_payload. rewrite bail_Ok. split.
  - intros [Hn [= <-]]. split; [|done]. apply Decidable.not_or in Hn as [? Hn].
    do 4 (apply Decidable.not_or in Hn as [? Hn]). split_and!; try done; lia.
  - intros [(? & ? & ? & ? & ? & ?) ->]. split; [|done]. intros [?|[?|[?|[?|[?|?]]]]]; try done; lia.
Qed.

(** The bounds that a verified proof of at most the maximal size satisfies. *)
Lemma intent_fits shard_id round proof bytes :
  PorCommit.Evidence.checkpoint_intent_payload shard_id round (verified_validator proof)
    (canonical_bytes proof) = Ok bytes →
  fits (verified_validator proof) ∧ fits (canonical_bytes proof).
Proof.
  intros [(_ & _ & _ & _ & _ & Hl) _]%intent_Ok. pose proof (validator_below_proof proof).
  apply bounded_fits in Hl. unfold fits. lia.
Qed.

Lemma intent_binds shard_id round raw raw' bl bl' proof proof' bytes :
  verify_equivocation_evidence raw bl = Ok proof →
  verify_equivocation_evidence raw' bl' = Ok proof' →
  EquivocationPenalties.checkpoint_equivocation_authorization_payload shard_id round proof
    = Ok bytes →
  EquivocationPenalties.checkpoint_equivocation_authorization_payload shard_id round proof'
    = Ok bytes →
  verified_validator proof = verified_validator proof' ∧
  verified_round proof = verified_round proof' ∧ canonical_bytes proof = canonical_bytes proof'.
Proof.
  unfold EquivocationPenalties.checkpoint_equivocation_authorization_payload.
  intros Hr%verified_round_fits Hr'%verified_round_fits H1 H2.
  destruct (intent_fits _ _ _ _ H1), (intent_fits _ _ _ _ H2).
  apply intent_Ok in H1 as [_ ->], H2 as [_ E].
  apply app_inv_head, app_inv_head, app_inv_head in E.
  apply field_app_inj in E as [Ev E]; [|done..].
  apply (f_equal (λ l, l ++ [])) in E. apply field_app_inj in E as [E _]; [|done..].
  destruct (canonical_bytes_inj proof proof') as [_ ->]; done.
Qed.

(** Exactness of the decoder: the intents of the shard and round, whose proof
    decodes to a claim about their offender. *)
Context `{HD : Display EvidenceVerificationError}.
Import EquivocationPenalties.

Lemma exact_bounded_field max :
  (max <= u64_max)%N → exact (read_field max) field (λ x, PorCommit.len x <= max)%N.
Proof.
  intros Hmax input x rest. unfold read_field, field. rewrite parse_bind_Ok. split.
  - intros (n & mid & [Hn ->]%exact_u64 & Hk). case_decide as Hd; [done|].
    apply exact_exact in Hk as [Hl ->]. unfold id. rewrite <-app_assoc.
    assert (PorCommit.len x = n) as <- by (unfold PorCommit.len; lia). unfold PorCommit.len in *.
    rewrite N.mod_small; [split; [lia|done]|]. unfold u64_max in *. lia.
  - unfold PorCommit.len. intros [Hl ->]. exists (N.of_nat (length x)), (x ++ rest). split.
    + apply exact_u64. rewrite N.mod_small, <-app_assoc; [split; [lia|done]|]. unfold u64_max in *. lia.
    + rewrite decide_False by lia. apply exact_exact. split; [lia|done].
Qed.

Lemma read_intent_Ok shard_id round input v proof rest :
  read_intent shard_id round input = Ok ((v, proof), rest) ↔
  (PorCommit.len shard_id <= N.of_nat MAX_REPUTATION_BLOCK_SHARD_ID_LEN)%N ∧
  (round <= u64_max)%N ∧ (PorCommit.len v <= MAX_REPUTATION_BLOCK_NODE_ID_LEN)%N ∧
  (PorCommit.len proof <= MAX_PENALTY_EVIDENCE_LEN)%N ∧
  input = field shard_id ++ be64 round ++ field v ++ field proof ++ rest.
Proof.
  assert (exact (read_field (N.of_nat MAX_REPUTATION_BLOCK_SHARD_ID_LEN)) field
    (λ x, PorCommit.len x <= N.of_nat MAX_REPUTATION_BLOCK_SHARD_ID_LEN)%N) as Hs
    by (by apply exact_bounded_field).
  assert (exact (read_field MAX_REPUTATION_BLOCK_NODE_ID_LEN) field
    (λ x, PorCommit.len x <= MAX_REPUTATION_BLOCK_NODE_ID_LEN)%N) as Hv by (by apply exact_bounded_field).
  assert (exact (read_field MAX_PENALTY_EVIDENCE_LEN) field
    (λ x, PorCommit.len x <= MAX_PENALTY_EVIDENCE_LEN)%N) as Hp by (by apply exact_bounded_field).
  unfold read_intent. split.
  - intros Hr. invert_parse Hr. injection Hr as <- <- <-. apply dec_stable in Hguard, Hguard0.
    subst. apply Hs in Hread as [? ->]. apply exact_u64 in Hread0 as [? ->].
    apply Hv in Hread1 as [? ->]. by apply Hp in Hread2 as [? ->].
  - intros (H1 & H2 & H3 & H4 & ->).
    rewrite (exact_run _ _ _ _ _ _ Hs H1), decide_False by tauto.
    rewrite (exact_run _ _ _ _ _ _ (exact_u64 malformed) H2), decide_False by tauto.
    rewrite (exact_run _ _ _ _ _ _ Hv H3). by rewrite (exact_run _ _ _ _ _ _ Hp H4).
Qed.

Lemma decode_intent_Ok bytes shard_id round raw :
  decode_checkpoint_equivocation_authorization_payload bytes shard_id round = Ok raw ↔
  (PorCommit.len (validator raw) <= MAX_REPUTATION_BLOCK_NODE_ID_LEN)%N ∧
  ∃ proof, PorCommit.Evidence.checkpoint_intent_payload shard_id round (validator raw) proof
      = Ok bytes ∧
    decode_equivocation_evidence proof = Ok raw.
Proof.
  unfold decode_checkpoint_equivocation_authorization_payload. split.
  - intros (input & Hpre%ok_or_Ok & H)%result_bind_Ok.
    apply result_bind_Ok in H as ([[v proof] rest] & (_ & _ & Hv & _)%read_intent_Ok & H).
    apply bail_Ok in H as [Hrest%dec_stable H]. apply result_bind_Ok in H as (payload & Hp & H).
    apply bail_Ok in H as [->%dec_stable H]. apply result_bind_Ok in H as (raw' & Hd%map_err_Ok & H).
    apply bail_Ok in H as [<-%dec_stable [= ->]]. split; [done|]. by exists proof.
  - intros (Hv & proof & Hp & Hd). pose proof Hp as [(_ & Hs & _ & Hr & _ & Hl) E]%intent_Ok.
    assert (round <= u64_max)%N as Hround.
    { destruct (checked_mul u64_max round _) as [z|] eqn:Ez; [|done].
      apply checked_mul_Some in Ez as [_ Hz].
      change POR_FINALIZED_BLOCKS_PER_CHECKPOINT with 16%N in Hz. lia. }
    assert (strip_prefix PorCommit.Evidence.POR_CHECKPOINT_EQUIVOCATION_AUTHORIZATION_DOMAIN bytes
      = Some (field shard_id ++ be64 round ++ field (validator raw) ++ field proof)) as ->.
    { rewrite E. apply strip_prefix_app. }
    cbn [ok_or result_bind].
    rewrite (proj2 (read_intent_Ok shard_id round _ (validator raw) proof [])).
    + cbn [result_bind]. rewrite decide_False by tauto. rewrite Hp. cbn [result_bind].
      rewrite decide_False by tauto. rewrite Hd. cbn [map_err result_bind].
      by rewrite decide_False by tauto.
    + split_and!; try done; [unfold PorCommit.len; lia|]. by rewrite app_nil_r.
Qed.

End messages.

(** ** Facts about the admission of a checkpoint round

    The valid carriers of the window, the claims they carry, and the penalty
    events that any accepted list of claims yields. *)

Section checkpoint.
Context `{HO : HashOrder} `{HB : Blake2b} `{HS : Secp256k1}.
Context `{HP : Bincode Payload.t} `{HL : Bincode Payload.legacy}.
Context `{HI : Display FinalizedInteractions.PorInteractionError}.
Context `{HE : Display VerifiedEvidence.EvidenceVerificationError}.
Import CheckpointAdmission FinalizedCheckpointAuthorization.
Implicit Types (policy : FinalizedCheckpointAuthorization.t) (bl : Blocklace.t).

Lemma window_Ok bl output checkpoint ids :
  window bl output checkpoint = Ok ids ↔
  FinalizedInteractions.validate_finalized_checkpoint_window bl output checkpoint = Ok tt ∧
  ids = FinalizedInteractions.checkpoint_window output checkpoint.
Proof.
  unfold window. rewrite result_bind_Ok. split.
  - intros ([] & ?%map_err_Ok & [= <-]). done.
  - intros [Hv ->]. exists tt. by rewrite Hv.
Qed.

(** ** The policy *)

Lemma too_new_false bl d blocks :
  too_new bl d blocks = Ok false →
  ∀ b, b ∈ blocks → ∃ n, Round.candidate_depth bl (unsigned_content (content b)) = Some n ∧ (n <= d)%N.
Proof.
  induction blocks as [|b blocks IH]; intros H c; [by intros ?%elem_of_nil|]. cbn [too_new] in H.
  apply result_bind_Ok in H as (n & Hn%ok_or_Ok & H). case_decide as Hd; [done|].
  intros [->|Hc]%elem_of_cons; [|by apply IH]. exists n. split; [done|lia].
Qed.

(** Some block of the window carries the authorization, is signed by a bonded
    member, and is not older than any of the conflicting blocks. *)
Record publication policy (context : CheckpointEquivocationAuthorizationContext)
    (proof : VerifiedEvidence.t) (expected : list byte) (block : Block) : Prop := {
  publication_carried : ∃ carriers carrier,
    Payload.por_authorizations_from_bytes (Types.payload (content block)) = Ok carriers ∧
    carrier ∈ carriers ∧ carries context expected carrier = true;
  publication_signed : published_by_member (membership policy) block = true;
  publication_depth : ∃ d, Round.depth (blocklace policy) (identity block) = Some d ∧
    ∀ b, b ∈ VerifiedEvidence.verified_blocks proof →
      ∃ n, Round.candidate_depth (blocklace policy) (unsigned_content (content b)) = Some n ∧
        (n <= d)%N
}.

Lemma published_true policy context proof expected ids :
  published policy context proof expected ids = Ok true →
  ∃ id block, id ∈ ids ∧ Blocklace.get (blocklace policy) id = Some block ∧
    publication policy context proof expected block.
Proof.
  assert (∀ id ids' (P : Prop), (P → ∃ id' block, id' ∈ ids' ∧
    Blocklace.get (blocklace policy) id' = Some block ∧ publication policy context proof expected block) →
    P → ∃ id' block, id' ∈ id :: ids' ∧
    Blocklace.get (blocklace policy) id' = Some block ∧ publication policy context proof expected block)
    as Hnext.
  { intros id ids' P Hk HP0. destruct (Hk HP0) as (id' & block & ? & ? & ?). exists id', block.
    split_and!; [by right|done|done]. }
  induction ids as [|id ids IH]; [done|]. cbn [published].
  intros (block & Hb%ok_or_Ok & (carriers & Hc%map_err_Ok & H)%result_bind_Ok)%result_bind_Ok.
  destruct (existsb (carries context expected) carriers) eqn:Ex; cbn [negb] in H; [|by eapply Hnext].
  destruct (published_by_member (membership policy) block) eqn:Em; cbn [negb] in H; [|by eapply Hnext].
  apply result_bind_Ok in H as (d & Hd%ok_or_Ok & (newer & Ht & H)%result_bind_Ok).
  destruct newer; [by eapply Hnext|]. exists id, block. split_and!; [by left|done|].
  apply existsb_true in Ex as (carrier & Hin & Hca). split; [by exists carriers, carrier|done|].
  exists d. split; [done|]. by apply too_new_false.
Qed.

Lemma is_authorized_true policy context proof :
  is_authorized policy context proof = Ok true →
  checkpoint_source context = PorFinality.rating_source (checkpoint policy) ∧
  eligible_offender policy (VerifiedEvidence.verified_validator proof) = true ∧
  FinalizedInteractions.validate_finalized_checkpoint_window (blocklace policy) (output policy)
    (checkpoint policy) = Ok tt ∧
  ∃ expected id block,
    EquivocationPenalties.checkpoint_equivocation_authorization_payload
      (checkpoint_shard_id context) (source_round (checkpoint_source context)) proof = Ok expected ∧
    id ∈ FinalizedInteractions.checkpoint_window (output policy) (checkpoint policy) ∧
    Blocklace.get (blocklace policy) id = Some block ∧
    publication policy context proof expected block.
Proof.
  unfold is_authorized. intros [Hs%dec_stable H]%bail_Ok. split; [done|].
  destruct (eligible_offender _ _); [|done]. cbn [negb] in H.
  apply result_bind_Ok in H as (expected & He & (ids & [Hw ->]%window_Ok & H)%result_bind_Ok).
  apply published_true in H as (id & block & ? & ? & ?). split_and!; [done..|]. by exists expected, id, block.
Qed.

Lemma authorize_checkpoint_Ok policy context proof :
  authorize_checkpoint policy context proof = Ok tt ↔ is_authorized policy context proof = Ok true.
Proof.
  unfold authorize_checkpoint. rewrite result_bind_Ok. split.
  - intros ([] & ? & H); done.
  - intros H. by exists true.
Qed.

Lemma extract_Some policy carrier shard_id claim :
  extract_valid_claim policy carrier shard_id = Ok (Some claim) →
  let round := por_round (checkpoint policy) in
  let context := mkCheckpointContext shard_id (PorFinality.rating_source (checkpoint policy)) in
  carrier = Payload.mkAuthorization shard_id 0 round (message carrier) ∧
  eligible_offender policy (validator claim) = true ∧
  ∃ proof, VerifiedEvidence.verify_equivocation_evidence claim (blocklace policy) = Ok proof ∧
    EquivocationPenalties.checkpoint_equivocation_authorization_payload shard_id round proof
      = Ok (message carrier) ∧
    is_authorized policy context proof = Ok true.
Proof.
  unfold extract_valid_claim. cbv zeta. case_decide as Hd; [done|].
  apply Decidable.not_or in Hd as [Hs%dec_stable [Hw%dec_stable Hr%dec_stable]%Decidable.not_or].
  intros H. split.
  { destruct carrier. cbn in *. by subst. }
  destruct (EquivocationPenalties.decode_checkpoint_equivocation_authorization_payload _ _ _)
    as [claim'|]; [|done].
  destruct (eligible_offender policy (validator claim')) eqn:Ee; [|done]. cbn [negb] in H.
  destruct (VerifiedEvidence.verify_equivocation_evidence claim' _) as [proof|[]] eqn:Ev; try done.
  apply result_bind_Ok in H as (payload & Hp & H). case_decide as Hm; [done|].
  apply result_bind_Ok in H as ([] & Ha & [= <-]). split; [done|]. exists proof.
  cbn in Hp. by rewrite Hp, Hm.
Qed.

(** ** The admission loops *)

(** A validated window has a valid source. *)
Lemma window_source bl output checkpoint :
  FinalizedInteractions.validate_finalized_checkpoint_window bl output checkpoint = Ok tt →
  validate_source (PorFinality.rating_source checkpoint) = Ok tt.
Proof.
  unfold FinalizedInteractions.validate_finalized_checkpoint_window.
  intros ([] & Hv%map_err_Ok & (w & Hw%map_err_Ok & [Hsome _]%bail_Ok)%result_bind_Ok)%result_bind_Ok.
  apply validate_checkpoint_Ok in Hv. destruct w as [w|]; [|done].
  apply finalized_wave_Some in Hw as (_ & a & _ & Ha & _).
  apply checkpoint_Ok in Hv as (Hr & Hle & t & _ & E); [|by rewrite Ha].
  apply (proj2 (validate_source_Ok _)). rewrite E. by rewrite E in Hr, Hle.
Qed.

(** One claim's message and event. *)
Definition checkpoint_entry bl policy (context : CheckpointEquivocationAuthorizationContext)
    (claim : EquivocationEvidence) : result (list byte * EquivocationPenalty) PorError :=
  let? proof := map_err (λ e, InvalidPenaltyEvents (to_string e))
    (VerifiedEvidence.verify_equivocation_evidence claim bl) in
  let? message := EquivocationPenalties.checkpoint_equivocation_authorization_payload
    (checkpoint_shard_id context) (source_round (checkpoint_source context)) proof in
  let? event := EquivocationPenalties.authorize_checkpoint proof context
    (authorize_checkpoint policy) in
  Ok (message, event).
Definition checkpoint_carrier_of (context : CheckpointEquivocationAuthorizationContext)
    (message : list byte) : PorEquivocationAuthorization :=
  Payload.mkAuthorization (checkpoint_shard_id context) 0
    (source_round (checkpoint_source context)) message.

Lemma admit_claim_step bl policy context acc claim :
  admit_claim bl policy context acc claim =
    admission_step (checkpoint_entry bl policy context) (checkpoint_carrier_of context) acc claim.
Proof.
  unfold admit_claim, admission_step, checkpoint_entry.
  destruct (VerifiedEvidence.verify_equivocation_evidence claim bl) as [proof|]; cbn; [|done].
  destruct (EquivocationPenalties.checkpoint_equivocation_authorization_payload _ _ _); cbn; [|done].
  by destruct (EquivocationPenalties.authorize_checkpoint _ _ _).
Qed.
Lemma admit_claims bl policy context raw :
  try_fold (admit_claim bl policy context) (mkAdmitted ∅ ∅) raw =
    try_fold (admission_step (checkpoint_entry bl policy context) (checkpoint_carrier_of context))
      (mkAdmitted ∅ ∅) raw.
Proof. apply try_fold_ext. intros. apply admit_claim_step. Qed.

Lemma checkpoint_entry_Ok bl policy context claim message e :
  checkpoint_entry bl policy context claim = Ok (message, e) ↔
  ∃ proof payload, VerifiedEvidence.verify_equivocation_evidence claim bl = Ok proof ∧
    EquivocationPenalties.checkpoint_equivocation_authorization_payload
      (checkpoint_shard_id context) (source_round (checkpoint_source context)) proof = Ok message ∧
    PorCommit.Evidence.checkpoint_capability_payload context
      (VerifiedEvidence.verified_validator proof) (VerifiedEvidence.canonical_bytes proof) = Ok payload ∧
    is_authorized policy context proof = Ok true ∧
    e = mkEquivocationPenalty (VerifiedEvidence.verified_validator proof)
          (VerifiedEvidence.canonical_bytes proof)
          (Some (PorCommit.mkAuthorization (Checkpoint context) (blake2b256 payload)
             (VerifiedEvidence.verified_round proof))).
Proof.
  unfold checkpoint_entry, EquivocationPenalties.authorize_checkpoint. split.
  - intros (proof & Hv%map_err_Ok & (m & Hm & (ev & He & [= <- <-])%result_bind_Ok)%result_bind_Ok)%result_bind_Ok.
    apply result_bind_Ok in He as (payload & Hp & ([] & Ha%authorize_checkpoint_Ok & [= <-])%result_bind_Ok).
    by exists proof, payload.
  - intros (proof & payload & -> & Hm & Hp & Ha & ->). cbn [map_err result_bind]. rewrite Hm.
    cbn [result_bind]. rewrite Hp. cbn [result_bind].
    by rewrite (proj2 (authorize_checkpoint_Ok _ _ _) Ha).
Qed.

Lemma checkpoint_entries_agree bl policy context : entries_agree (checkpoint_entry bl policy context).
Proof.
  intros c c' m e e' (p & payload & Hv & Hm & Hp & _ & ->)%checkpoint_entry_Ok
    (p' & payload' & Hv' & Hm' & Hp' & _ & ->)%checkpoint_entry_Ok.
  destruct (intent_binds _ _ _ _ _ _ _ _ _ Hv Hv' Hm Hm') as (Ev & Er & Eb).
  rewrite Ev, Eb in Hp. rewrite Hp in Hp'. injection Hp' as <-. by rewrite Ev, Er, Eb.
Qed.

(** What a valid carrier carries is admitted under the carrier's message. *)
Lemma valid_claim_entry policy carrier shard_id claim :
  let context := mkCheckpointContext shard_id (PorFinality.rating_source (checkpoint policy)) in
  extract_valid_claim policy carrier shard_id = Ok (Some claim) →
  carrier = checkpoint_carrier_of context (message carrier) ∧
  ∃ e, checkpoint_entry (blocklace policy) policy context claim = Ok (message carrier, e) ∧
    offender e = validator claim.
Proof.
  intros context (E & _ & proof & Hv & Hp & Ha)%extract_Some. split; [exact E|].
  pose proof Ha as (_ & _ & Hw & _)%is_authorized_true.
  assert (PorCommit.Evidence.checkpoint_capability_payload context
    (VerifiedEvidence.verified_validator proof) (VerifiedEvidence.canonical_bytes proof) =
    Ok (message carrier ++ be64 (finalized_prefix_len (checkpoint_source context)) ++
        vec_to_list (finalized_prefix_hash (checkpoint_source context)))) as Hc.
  { unfold PorCommit.Evidence.checkpoint_capability_payload. subst context.
    cbn [checkpoint_source checkpoint_shard_id]. rewrite (window_source _ _ _ Hw). cbn [result_bind].
    unfold EquivocationPenalties.checkpoint_equivocation_authorization_payload in Hp. cbn in Hp |- *.
    by rewrite Hp. }
  eexists. split.
  - apply checkpoint_entry_Ok. exists proof. eexists. split_and!; [done|exact Hp|exact Hc|exact Ha|done].
  - cbn. by apply verify_genuine in Hv as [_ ->].
Qed.

Lemma keep_valid_fold policy shard_id carriers valid :
  try_fold (keep_valid policy shard_id) ∅ carriers = Ok valid →
  (∀ a, a ∈ valid ↔ a ∈ carriers ∧ ∃ claim, extract_valid_claim policy a shard_id = Ok (Some claim)) ∧
  ∃ claims, try_fold (extract_claim policy shard_id) [] carriers = Ok claims ∧
    ∀ claim, claim ∈ claims ↔
      ∃ a, a ∈ carriers ∧ extract_valid_claim policy a shard_id = Ok (Some claim).
Proof.
  revert valid. induction carriers as [|x carriers IH] using rev_ind; intros valid.
  { intros [= <-]. split; [|exists []; split; [done|]].
    - intros a. rewrite elem_of_nil. split; [by intros ?%elem_of_empty|by intros [? _]].
    - intros claim. rewrite elem_of_nil. split; [done|by intros (? & ?%elem_of_nil & _)]. }
  rewrite try_fold_app. intros (valid' & Hv & H)%result_bind_Ok.
  destruct (IH _ Hv) as (Hin & claims & Hf & Hcl). cbn [try_fold] in H. unfold keep_valid in H.
  apply result_bind_Ok in H as (? & (claim & Hx & [= <-])%result_bind_Ok & [= <-]).
  rewrite try_fold_app, Hf. cbn [result_bind try_fold]. unfold extract_claim. rewrite Hx.
  cbn [result_bind]. split; [|eexists; split; [reflexivity|]].
  - intros a. rewrite elem_of_app, list_elem_of_singleton. destruct claim as [claim|].
    + rewrite elem_of_union, elem_of_singleton, Hin. split.
      * intros [->|[? ?]]; [|tauto]. split; [by right|by exists claim].
      * intros [[?| ->] ?]; tauto.
    + rewrite Hin. split; [tauto|]. intros [[?| ->] [c Hc]]; [split; [done|by exists c]|congruence].
  - intros c. setoid_rewrite elem_of_app. setoid_rewrite list_elem_of_singleton.
    destruct claim as [claim|]; [rewrite elem_of_app, list_elem_of_singleton|]; rewrite Hcl.
    + split; [intros [(a & ? & ?)| ->]; eauto|]. intros (a & [?| ->] & Ha); [eauto|].
      right. congruence.
    + split; [intros (a & ? & ?); eauto|]. intros (a & [?| ->] & Ha); [eauto|]. congruence.
Qed.

End checkpoint.

(** ** Samples

    A validator signs two first blocks; the chain of the others finalizes the
    authorization of its penalty in the first checkpoint window. *)

#[local] Existing Instance elements_order.
#[local] Existing Instance sample_hash.

(** A scheme whose only valid signature is the empty one, so that signed and
    unsigned identities coincide. *)
#[export] Instance empty_scheme : Secp256k1 := λ _ _ signature, bool_decide (signature = []).
Definition signed (p : NodeId) (payload : list byte) (preds : list BlockIdentity) : Block :=
  let c := mkContent payload (list_to_set preds) in
  mkBlock (mkIdentity (Crypto.block_hash p c) p []) c.

(** A codec that keeps the authorizations of a payload. *)
Definition carrier_bytes (a : PorEquivocationAuthorization) : list byte :=
  field (authorization_shard_id a) ++ be64 (Payload.source_finalized_wave a) ++
  be64 (authorization_round a) ++ field (message a).
Definition read_sized : parser string (list byte) :=
  read n := read_uint "end"%string 8 in read_exact "end"%string (N.to_nat n).
Definition read_carrier : parser string PorEquivocationAuthorization :=
  read shard_id := read_sized in
  read wave := read_uint "end"%string 8 in
  read round := read_uint "end"%string 8 in
  read message := read_sized in
  parse_ret (Payload.mkAuthorization shard_id wave round message).
Definition no_state : BlockState := mkState [] [] [] 0.
#[export] Instance carrier_codec : Bincode Payload.t :=
  {| serialize p := be64 (N.of_nat (length (Payload.por_authorizations p))) ++
       mjoin (map carrier_bytes (Payload.por_authorizations p));
     deserialize _ l :=
       (let? parsed := (read n := read_uint "end"%string 8 in
         read_many read_carrier (N.to_nat n)) l in
         Ok (Payload.mk parsed.1 no_state [] [] [])) |}.
#[export] Instance legacy_bytes : Bincode Payload.legacy :=
  {| serialize _ := []; deserialize _ _ := Err "untagged"%string |}.
#[export] Instance sample_wave_display : Display FinalizedInteractions.PorInteractionError :=
  λ _, "unavailable window"%string.
#[export] Instance sample_evidence_display : Display VerifiedEvidence.EvidenceVerificationError :=
  λ _, "invalid Cordial equivocation evidence"%string.

Module PenaltySample.

Definition a : NodeId := [x0a].
Definition c : NodeId := [x0c].
Definition shard : list byte := [xff].

Definition left := signed c [x01] [].
Definition right := signed c [x02] [].
Definition claim : EquivocationEvidence := mkEvidence c 0 [left; right].
Definition no_proof : VerifiedEvidence.t := VerifiedEvidence.mk [] 0 [].
Definition proof : VerifiedEvidence.t :=
  or_default no_proof (VerifiedEvidence.verify_equivocation_evidence claim (lace_of [left])).
Definition message : list byte :=
  or_default [] (EquivocationPenalties.checkpoint_equivocation_authorization_payload shard 1 proof).
Definition carrier : PorEquivocationAuthorization := Payload.mkAuthorization shard 0 1 message.
Definition authorizing : list byte :=
  Payload.to_bytes (Payload.mk [carrier] no_state [] [] []).

(** Sixteen blocks by [a]; the second one carries the authorization. *)
Fixpoint chain_from (n : nat) (preds : list BlockIdentity) (count : nat) : list Block :=
  match count with
  | O => []
  | S count =>
    let block := signed a (if decide (n = 1) then authorizing else [byte_of_N (N.of_nat n)])
      preds in
    block :: chain_from (S n) [identity block] count
  end.
Definition chain : list Block := chain_from 0 [] 16.
Definition lace : Blocklace.t := lace_of (rev chain).
Definition output : OrderedFinalizedOutput.t :=
  OrderedFinalizedOutput.new 0 (map identity chain) (last (map identity chain)) 1 1 16.
Definition checkpoint : FinalizedPrefixCheckpoint :=
  default (mkPrefixCheckpoint 0 0 (vreplicate 32 x00) (mkIdentity (vreplicate 32 x00) [] []))
    (or_default None (PorFinality.finalized_prefix_checkpoint output 1)).

Definition membership : gmap NodeId N := {[ a := 10%N; c := 0%N ]}.
Definition config : PorConfig.t := PorConfig.new 1000 200.
Definition state : ReputationState.t :=
  ReputationState.with_entries (ReputationState.new 0)
    [ReputationEntry.new a 300; ReputationEntry.new c 400].

Definition closed : CompletedCheckpoint.t :=
  CompletedCheckpoint.new checkpoint (mkBatch 1 []) {[ carrier ]} state.
Definition completed : CompletedCheckpoint.t :=
  or_default closed (CheckpointAdmission.with_authorized_equivocations closed [claim; claim] lace
    output membership shard).

End PenaltySample.
