(* ===== verification/AuthorizationTheorems.v ===== *)
(** * Theorems about authorized penalties

    The penalty events of a checkpoint round are fixed by the finalized window
    and name only proven equivocators; the round then passes its own audit. *)

From S2P Require Import Prelude Types Lace Bytes Crypto Rounds Samples ProtocolSamples PorTypes.
From S2P Require Import PorMath PorCommit PorAudit PorAuditFacts PorState FinalOutput RatingFlow.
From S2P Require Import RatingRound HonestFacts Payload EvidenceFacts Evidence Authorization.
From S2P Require Import AuthorizationFacts.
From stdpp Require Import options.

Section checkpoint.
Context `{HO : HashOrder} `{HB : Blake2b} `{HS : Secp256k1}.
Context `{HP : Bincode Payload.t} `{HL : Bincode Payload.legacy}.
Context `{HI : Display FinalizedInteractions.PorInteractionError}.
Context `{HE : Display VerifiedEvidence.EvidenceVerificationError}.
Import CheckpointAdmission FinalizedCheckpointAuthorization.

(** What an accepted admission went through. *)
Lemma admission_Ok self raw bl output membership shard_id c :
  with_authorized_equivocations self raw bl output membership shard_id = Ok c →
  let policy := policy_of self bl output membership in
  let context := mkCheckpointContext shard_id (CompletedCheckpoint.source self) in
  ∃ valid acc,
    try_fold (keep_valid policy shard_id) ∅ (shard_carriers self shard_id) = Ok valid ∧
    admitted_from (checkpoint_entry bl policy context) (checkpoint_carrier_of context) raw acc ∧
    admitted_carriers acc = valid ∧
    CompletedCheckpoint.validate_complete_authorizations c shard_id = Ok tt ∧
    c = CompletedCheckpoint.with_penalties self
          (mkEvents (por_round (CompletedCheckpoint.checkpoint self))
             (one_per_offender (selected acc)) []) valid
          (filter (λ carrier, authorization_shard_id carrier = shard_id ∧ carrier ∉ valid)
             (CompletedCheckpoint.finalized_authorizations self)).
Proof.
  unfold with_authorized_equivocations.
  intros (found & _ & [_ (valid & Hv & (acc & Ha & H)%result_bind_Ok)%result_bind_Ok]%bail_Ok)%result_bind_Ok.
  apply bail_Ok in H as [E%dec_stable H]. apply result_bind_Ok in H as (hash & _ & H).
  apply result_bind_Ok in H as ([] & Hc & [= <-]). exists valid, acc. rewrite admit_claims in Ha.
  apply admission_loop in Ha as [Ha _]; [|apply checkpoint_entries_agree].
  split_and!; [done..|]. by rewrite E.
Qed.

(** C36: the caller cannot choose the penalties of a checkpoint round.  Whatever
    list of claims is accepted, in whatever order and with whatever repetitions,
    the completed round is the one that the carriers finalized in the window
    determine by themselves. *)
Theorem claims_cannot_choose_the_penalties self raw bl output membership shard_id c :
  with_authorized_equivocations self raw bl output membership shard_id = Ok c →
  with_finalized_equivocations self bl output membership shard_id = Ok c.
Proof.
  intros Hok. pose proof Hok as (valid & acc & Hv & Ha & Hacc & _ & _)%admission_Ok.
  set (policy := policy_of self bl output membership) in *.
  set (context := mkCheckpointContext shard_id (CompletedCheckpoint.source self)) in *.
  destruct (keep_valid_fold _ _ _ _ Hv) as (Hvalid & claims & Hcl & Hin).
  unfold with_finalized_equivocations. fold policy. rewrite Hcl. cbn [result_bind].
  assert (∀ carrier claim, extract_valid_claim policy carrier shard_id = Ok (Some claim) →
    carrier = checkpoint_carrier_of context (message carrier) ∧
    ∃ e, checkpoint_entry bl policy context claim = Ok (message carrier, e)) as Hentry.
  { intros carrier claim [Ec (e & He & _)]%valid_claim_entry. split; [exact Ec|]. by exists e. }
  destruct (admission_succeeds (checkpoint_entry bl policy context) (checkpoint_carrier_of context)
    claims) as [acc' Hacc'].
  { intros claim (a & _ & Hx)%Hin. apply Hentry in Hx as (_ & e & ->). done. }
  pose proof (admission_loop _ _ _ _ (checkpoint_entries_agree bl policy context) Hacc') as [Ha' _].
  assert (acc = acc') as <-.
  { eapply admitted_determined; [apply checkpoint_entries_agree| |exact Ha|exact Ha'|].
    - unfold checkpoint_carrier_of. intros m m' E. congruence.
    - rewrite Hacc. apply set_eq. intros a. rewrite Hvalid, (admitted_carrier _ _ _ _ Ha'). split.
      + intros (Hc & claim & Hx). pose proof Hx as (Ea & e & He)%Hentry.
        exists claim, (message a), e. split_and!; [apply Hin; eauto|done|done].
      + intros (claim & m & e & (a' & Hc & Hx)%Hin & He & ->). pose proof Hx as (Ea & e' & He')%Hentry.
        rewrite He in He'. injection He' as -> ->. rewrite <-Ea. eauto. }
  unfold with_authorized_equivocations in *. fold policy context in Hok |- *.
  apply result_bind_Ok in Hok as (found & Hf & Hok). rewrite Hf. cbn [result_bind].
  apply bail_Ok in Hok as [Hn Hok]. rewrite decide_False by done. rewrite Hv in Hok |- *.
  cbn [result_bind] in Hok |- *. rewrite admit_claims in Hok |- *.
  apply result_bind_Ok in Hok as (acc'' & Hacc'' & Hok). rewrite Hacc'. cbn [result_bind].
  assert (acc'' = acc) as ->; [|done].
  apply admission_loop in Hacc'' as [Ha'' _]; [|apply checkpoint_entries_agree].
  apply bail_Ok in Hok as [E%dec_stable _].
  eapply admitted_determined; [apply checkpoint_entries_agree| |exact Ha''|exact Ha|congruence].
  unfold checkpoint_carrier_of. intros m m' E'. congruence.
Qed.

(** An authorization that was just granted validates in its round and source. *)
Lemma granted_valid context proof payload (source := checkpoint_source context) :
  PorCommit.Evidence.checkpoint_capability_payload context
    (VerifiedEvidence.verified_validator proof) (VerifiedEvidence.canonical_bytes proof) = Ok payload →
  let e := mkEquivocationPenalty (VerifiedEvidence.verified_validator proof)
    (VerifiedEvidence.canonical_bytes proof)
    (Some (PorCommit.mkAuthorization (Checkpoint context) (blake2b256 payload)
       (VerifiedEvidence.verified_round proof))) in
  PorCommit.Evidence.validate_authorization e (source_round source) = Ok tt.
Proof.
  intros Hp. unfold PorCommit.Evidence.validate_authorization. cbn [authorization ok_or result_bind
    authorization_context offender evidence]. rewrite Hp. cbn [result_bind fst snd binding].
  by rewrite decide_False by tauto.
Qed.

(** A block publishes an accusation: it is at depth [d], was created under its own
    hash and signed by a member with stake, and its payload holds the
    authorization of the shard and round whose message is the tag, the shard, the
    round, the accused and the proof. *)
Record announces bl (membership : gmap NodeId N) (shard_id : list byte) (round : N)
    (accused : NodeId) (proof : list byte) (block : Block) (d : N) : Prop := {
  announces_message : ∃ carriers,
    Payload.por_authorizations_from_bytes (Types.payload (content block)) = Ok carriers ∧
    Payload.mkAuthorization shard_id 0 round
      (PorCommit.Evidence.POR_CHECKPOINT_EQUIVOCATION_AUTHORIZATION_DOMAIN ++ field shard_id ++
       be64 round ++ field accused ++ field proof) ∈ carriers;
  announces_member : ∃ stake, membership !! creator (identity block) = Some stake ∧ stake ≠ 0%N;
  announces_hash :
    Crypto.block_hash (creator (identity block)) (content block) = content_hash (identity block);
  announces_signature : Crypto.verify (content_hash (identity block)) (creator (identity block))
    (Types.signature (identity block)) = true;
  announces_depth : Round.depth bl (identity block) = Some d
}.

Lemma publication_announces policy context proof expected block :
  EquivocationPenalties.checkpoint_equivocation_authorization_payload
    (checkpoint_shard_id context) (source_round (checkpoint_source context)) proof = Ok expected →
  publication policy context proof expected block →
  ∃ d, announces (blocklace policy) (membership policy) (checkpoint_shard_id context)
      (source_round (checkpoint_source context)) (VerifiedEvidence.verified_validator proof)
      (VerifiedEvidence.canonical_bytes proof) block d ∧
    ∀ b, b ∈ VerifiedEvidence.verified_blocks proof →
      ∃ n, Round.candidate_depth (blocklace policy) (unsigned_content (content b)) = Some n ∧
        (n <= d)%N.
Proof.
  intros [_ ->]%intent_Ok [(carriers & carrier & Hc & Hin & Hca) Hs (d & Hd & Hn)].
  exists d. split; [|done]. unfold published_by_member in Hs.
  apply andb_true_iff in Hs as [[Hb%bool_decide_eq_true Hh%bool_decide_eq_true]%andb_true_iff Hv].
  split; [|..|done|done|done].
  - exists carriers. split; [done|]. unfold FinalizedCheckpointAuthorization.carries in Hca.
    apply bool_decide_eq_true in Hca as (<- & <- & <- & <-). by destruct carrier.
  - unfold bonded in Hb. destruct (membership policy !! _) as [stake|]; [by exists stake|done].
Qed.

(** C35: the penalties of an admitted checkpoint round name exactly the accused
    of the valid finalized carriers, each once, and every event is justified: the
    offender is a member that the preceding state does not exclude, its evidence
    is the bytes of a verified proof of a genuine equivocation, and a block of
    the window published exactly this accusation, signed by a member with stake,
    at no smaller depth than the equivocating blocks; every carrier of the shard
    is accounted for, as admitted or as ignored. *)
Theorem checkpoint_penalties_are_exact_and_proven self raw bl output membership shard_id c :
  with_authorized_equivocations self raw bl output membership shard_id = Ok c →
  let policy := policy_of self bl output membership in
  let round := por_round (CompletedCheckpoint.checkpoint self) in
  let valid carrier claim := carrier ∈ CompletedCheckpoint.finalized_authorizations self ∧
    authorization_shard_id carrier = shard_id ∧
    extract_valid_claim policy carrier shard_id = Ok (Some claim) in
  CompletedCheckpoint.validate_complete_authorizations c shard_id = Ok tt ∧
  ∃ events, CompletedCheckpoint.penalties c = Some events ∧
    events_round events = round ∧ inactivity events = [] ∧
    NoDup (offender <$> equivocations events) ∧
    (∀ v, v ∈ offender <$> equivocations events ↔
      ∃ carrier claim, valid carrier claim ∧ validator claim = v) ∧
    ∀ e, e ∈ equivocations events →
      PorCommit.Evidence.validate_authorization e round = Ok tt ∧
      is_Some (membership !! offender e) ∧
      (∃ entry, entry ∈ entries (CompletedCheckpoint.preceding_reputation self) ∧
        ReputationEntry.node_id entry = offender e ∧ ReputationEntry.is_excluded entry = false) ∧
      ∃ claim proof id block d, genuine bl claim ∧ validator claim = offender e ∧
        VerifiedEvidence.verify_equivocation_evidence claim bl = Ok proof ∧
        evidence e = VerifiedEvidence.canonical_bytes proof ∧
        id ∈ FinalizedInteractions.checkpoint_window output (CompletedCheckpoint.checkpoint self) ∧
        Blocklace.get bl id = Some block ∧
        announces bl membership shard_id round (offender e) (evidence e) block d ∧
        ∀ b, b ∈ VerifiedEvidence.verified_blocks proof →
          ∃ n, Round.candidate_depth bl (unsigned_content (content b)) = Some n ∧ (n <= d)%N.
Proof.
  intros (valid & acc & Hv & Ha & Hacc & Hcomplete & ->)%admission_Ok. cbv zeta.
  set (policy := policy_of self bl output membership) in *.
  set (context := mkCheckpointContext shard_id (CompletedCheckpoint.source self)) in *.
  destruct (keep_valid_fold _ _ _ _ Hv) as (Hvalid & _).
  assert (∀ a, a ∈ shard_carriers self shard_id ↔
    a ∈ CompletedCheckpoint.finalized_authorizations self ∧ authorization_shard_id a = shard_id)
    as Hsh.
  { intros a. unfold shard_carriers. rewrite list_elem_of_filter, elem_of_btree_iter. tauto. }
  destruct (one_per_offender_spec (selected acc)) as (Hin & Hnd & Hcov).
  split; [done|]. eexists. split; [done|]. cbn [events_round inactivity equivocations].
  split_and!; [done..| |].
  - intros v. split.
    + intros (e & -> & [m Hm]%Hin)%list_elem_of_fmap.
      pose proof Hm as (claim & Hraw & He)%(admitted_selected _ _ _ _ Ha).
      assert (checkpoint_carrier_of context m ∈ admitted_carriers acc) as Hc
        by (apply (admitted_carrier _ _ _ _ Ha); eauto 6).
      rewrite Hacc in Hc. apply Hvalid in Hc as [[? ?]%Hsh (claim' & Hx)].
      pose proof Hx as [_ (e' & He' & Ho)]%valid_claim_entry.
      exists (checkpoint_carrier_of context m), claim'. split; [done|]. rewrite <-Ho. f_equal.
      by apply (checkpoint_entries_agree bl policy context claim' claim m).
    + intros (carrier & claim & (Hc & Hs & Hx) & <-).
      pose proof Hx as [Ec (e & He & <-)]%valid_claim_entry.
      assert (carrier ∈ admitted_carriers acc) as Hadm.
      { rewrite Hacc. apply Hvalid. split; [by apply Hsh|by exists claim]. }
      apply (admitted_carrier _ _ _ _ Ha) in Hadm as (claim' & m & e' & Hraw & He' & Em).
      assert (m = message carrier) as -> by (by rewrite Em).
      assert (e = e') as <- by (by eapply checkpoint_entries_agree).
      destruct (Hcov (message carrier) e) as (e'' & Hsel & <-).
      { apply (admitted_selected _ _ _ _ Ha). eauto. }
      by apply list_elem_of_fmap_2.
  - intros e [m Hm]%Hin. apply (admitted_selected _ _ _ _ Ha) in Hm as (claim & Hraw & He).
    apply checkpoint_entry_Ok in He as (proof & payload & Hver & Hmsg & Hpay & Hauth & ->).
    pose proof Hver as [Hg E]%verify_genuine.
    apply is_authorized_true in Hauth as (Esrc & Hel & _ & expected & id & block & Hexp & Hid & Hget & Hpub).
    apply publication_announces in Hpub as (d & Hann & Hdepth); [|done].
    rewrite Esrc in Hann.
    unfold eligible_offender in Hel.
    apply andb_true_iff in Hel as [Hmem%bool_decide_eq_true (entry & Hin' & Hent%bool_decide_eq_true)%existsb_true].
    split_and!; [by apply granted_valid|done|by exists entry|]. exists claim, proof, id, block, d.
    split_and!; try done. cbn. by rewrite E.
Qed.

(** A completed checkpoint round whose authorizations are accounted for and
    whose preceding state is still current drives the state exactly as replaying
    its batch and building its block does; the audit of the staged block never
    rejects them. *)
Theorem checkpoint_rounds_pass_their_own_audit completed state config shard_id :
  CompletedCheckpoint.validate_preceding_state completed state = Ok tt →
  CompletedCheckpoint.validate_complete_authorizations completed shard_id = Ok tt →
  let batch := CompletedCheckpoint.batch completed in
  let penalties := CompletedCheckpoint.penalties completed in
  stage_completed_checkpoint_round completed state config shard_id =
    let? list := Replay.replay_reputation_transition_with_penalties
      (ReputationState.snapshot_vector state) (batch_ratings batch) (batch_round batch) config
      penalties in
    let? block := Building.build_checkpoint_reputation_block_with_penalties
      (mkCheckpoint shard_id (CompletedCheckpoint.source completed)
         (ReputationState.latest_block state)) batch list config penalties in
    let staged := ReputationState.commit_audited_block state block in
    Ok (staged, RoundTransition.mkApplied AllAuthorizedRaters block
                  (Weights.reputation_weights staged)).
Proof.
  intros Hp Hc. cbv zeta. unfold stage_completed_checkpoint_round. rewrite Hp, Hc. cbn [result_bind].
  destruct (Replay.replay_reputation_transition_with_penalties _ _ _ _ _) as [list|] eqn:Hr; [|done].
  cbn [result_bind].
  destruct (Building.build_checkpoint_reputation_block_with_penalties _ _ _ _ _) as [block|] eqn:Hb;
    [|done].
  cbn [result_bind]. unfold ReputationState.apply_checkpoint_reputation_block_with_penalties.
  apply build_checkpoint_Ok in Hb. pose proof Hb as [_ _ _ Hround Hlist (? & ? & ? & ? & _ & _ & _ & E) _].
  assert (reputation_list block = list) as El by (by rewrite E).
  rewrite (proj2 (verify_checkpoint_Ok _ _ block _ config _)); [done|]. rewrite El.
  replace (list_round list) with (batch_round (CompletedCheckpoint.batch completed)) by congruence.
  split; [done|]. by destruct (CompletedCheckpoint.batch completed).
Qed.

End checkpoint.

(** ** Instances *)

#[local] Existing Instance elements_order.
#[local] Existing Instance sample_hash.
Import PenaltySample.

Lemma sample_admission :
  CheckpointAdmission.with_authorized_equivocations closed [claim; claim] lace output membership shard
    = Ok completed.
Proof. apply or_default_Ok. vm_compute. reflexivity. Qed.

Lemma claims_cannot_choose_the_penalties_witness :
  CheckpointAdmission.with_finalized_equivocations closed lace output membership shard = Ok completed.
Proof.
  apply (claims_cannot_choose_the_penalties closed [claim; claim] lace output membership shard).
  exact sample_admission.
Defined.

Lemma checkpoint_penalties_are_exact_and_proven_witness :
  ∃ events, CompletedCheckpoint.penalties completed = Some events ∧
    c ∈ offender <$> equivocations events.
Proof.
  destruct (checkpoint_penalties_are_exact_and_proven closed [claim; claim] lace output membership
    shard completed sample_admission) as (_ & events & Hp & _ & _ & _ & Ho & _).
  exists events. split; [exact Hp|]. apply Ho. exists carrier, claim. split; [|reflexivity].
  split; [decided|].
  split; [reflexivity|].
  vm_compute. reflexivity.
Defined.

Lemma checkpoint_rounds_pass_their_own_audit_witness :
  is_ok (stage_completed_checkpoint_round completed state config shard) = true.
Proof.
  etrans; [eapply (f_equal is_ok), (checkpoint_rounds_pass_their_own_audit completed state config shard)|].
  - vm_compute. reflexivity.
  - vm_compute. reflexivity.
  - vm_compute. reflexivity.
Defined.
