(* ===== verification/Attestation.v ===== *)
(** * Attested reputation checkpoints

    [por/transport/reputation_block.rs] and [por/checkpoint.rs] of
    cordial-f1r3node-adapter: the signed publication of a canonical reputation
    block, and the collection of publications of one block by attesters of
    enough weight. *)

From S2P Require Import Prelude Types Lace Bytes Crypto PorTypes PorMath PorCommit PorAudit.
From S2P Require Import PorState.
From S2P Require Import PorCodec FinalOutput RatingFlow RatingWire Collector RatingRound.
From stdpp Require Import options.

(** Reputation blocks are compared with the derived equality. *)
#[export] Instance ReputationBlockHeader_eq_dec : EqDecision ReputationBlockHeader.
Proof. solve_decision. Defined.
#[export] Instance ReputationBlock_eq_dec : EqDecision ReputationBlock.
Proof. solve_decision. Defined.

(** ** [transport/reputation_block.rs] *)

Module Publication.

Definition REPUTATION_BLOCK_PUBLICATION_DOMAIN : list byte :=
  literal "cordial-por:reputation-block-publication".
Definition REPUTATION_BLOCK_PUBLICATION_VERSION : N := 1.
Definition COMPRESSED_SECP256K1_PUBLIC_KEY_LEN : nat := 33.
Definition UNCOMPRESSED_SECP256K1_PUBLIC_KEY_LEN : nat := 65.
Definition MAX_SECP256K1_DER_SIGNATURE_LEN : nat := 72.
Definition PUBLICATION_FIXED_LEN : N := len REPUTATION_BLOCK_PUBLICATION_DOMAIN + 2 + 2 + 8 + 2.
Definition MAX_REPUTATION_BLOCK_PUBLICATION_LEN : N :=
  PUBLICATION_FIXED_LEN + N.of_nat UNCOMPRESSED_SECP256K1_PUBLIC_KEY_LEN +
  MAX_REPUTATION_BLOCK_WIRE_LEN + N.of_nat MAX_SECP256K1_DER_SIGNATURE_LEN.

Inductive PorReputationBlockPublicationError :=
  | PublicationTooLong (actual maximum : N)
  | UnexpectedEnd
  | TrailingBytes
  | InvalidDomain
  | UnsupportedVersion (version : N)
  | InvalidPublisherKeyLength (length : nat)
  | BlockEnvelopeTooLong (actual maximum : N)
  | MissingSignature
  | SignatureTooLong (actual maximum : nat)
  | Signing (message : string)
  | InvalidSignature
  | InvalidBlock (error : PorError).

Record t := mk {
  publisher : NodeId;
  block : ReputationBlock;
  block_envelope : list byte;
  publication_signature : list byte
}.

Definition validate_publisher (publisher : NodeId) :
    result unit PorReputationBlockPublicationError :=
  if decide (length publisher = COMPRESSED_SECP256K1_PUBLIC_KEY_LEN ∨
             length publisher = UNCOMPRESSED_SECP256K1_PUBLIC_KEY_LEN)
  then Ok tt else Err (InvalidPublisherKeyLength (length publisher)).

Definition validate_signature (signature : list byte) :
    result unit PorReputationBlockPublicationError :=
  bail MissingSignature when signature = [];
  bail (SignatureTooLong (length signature) MAX_SECP256K1_DER_SIGNATURE_LEN)
    when MAX_SECP256K1_DER_SIGNATURE_LEN < length signature;
  Ok tt.

(** [put_u64_bytes]. *)
Definition u64_bytes (bytes : list byte) : list byte := be64 (len bytes) ++ bytes.

(** The signed bytes; an encoded publication goes on with the signature. *)
Definition publication_payload (publisher : NodeId) (block_envelope : list byte) : list byte :=
  REPUTATION_BLOCK_PUBLICATION_DOMAIN ++ be_bytes 2 REPUTATION_BLOCK_PUBLICATION_VERSION ++
  u16_bytes publisher ++ u64_bytes block_envelope.

Definition encode (self : t) : list byte :=
  publication_payload (publisher self) (block_envelope self) ++
  u16_bytes (publication_signature self).

Section publication.
Context `{Blake2b} `{Secp256k1} `{Secp256k1Sign}.

Definition publication_signing_hash (publisher : NodeId) (block_envelope : list byte) : Hash32 :=
  blake2b256 (publication_payload publisher block_envelope).

Definition from_encoded_parts (publisher : NodeId) (block : ReputationBlock)
    (block_envelope signature : list byte) : result t PorReputationBlockPublicationError :=
  let? _ := validate_publisher publisher in
  let? _ := validate_signature signature in
  bail (BlockEnvelopeTooLong (len block_envelope) MAX_REPUTATION_BLOCK_WIRE_LEN)
    when (MAX_REPUTATION_BLOCK_WIRE_LEN < len block_envelope)%N;
  let signing_hash := publication_signing_hash publisher block_envelope in
  bail InvalidSignature when secp_verify signing_hash publisher signature = false;
  Ok (mk publisher block block_envelope signature).

Definition new (publisher : NodeId) (block : ReputationBlock) (signature : list byte) :
    result t PorReputationBlockPublicationError :=
  let? block_envelope := map_err InvalidBlock (BlockWire.encode_reputation_block block) in
  from_encoded_parts publisher block block_envelope signature.

Definition sign (publisher : NodeId) (block : ReputationBlock) (private_key : list byte) :
    result t PorReputationBlockPublicationError :=
  let? _ := validate_publisher publisher in
  let? block_envelope := map_err InvalidBlock (BlockWire.encode_reputation_block block) in
  let signing_hash := publication_signing_hash publisher block_envelope in
  let? signature := map_err Signing (secp_sign signing_hash private_key) in
  from_encoded_parts publisher block block_envelope signature.

Definition reputation_block_publication_signing_hash (publisher : NodeId)
    (block : ReputationBlock) : result Hash32 PorReputationBlockPublicationError :=
  let? _ := validate_publisher publisher in
  let? block_envelope := map_err InvalidBlock (BlockWire.encode_reputation_block block) in
  Ok (publication_signing_hash publisher block_envelope).

(** The fields in the order of the bytes, each checked as soon as it is read. *)
Definition read_parts :
    parser PorReputationBlockPublicationError (NodeId * ReputationBlock * list byte * list byte) :=
  read domain := read_exact UnexpectedEnd (length REPUTATION_BLOCK_PUBLICATION_DOMAIN) in
  if decide (domain ≠ REPUTATION_BLOCK_PUBLICATION_DOMAIN) then parse_fail InvalidDomain else
  read version := read_uint UnexpectedEnd 2 in
  if decide (version ≠ REPUTATION_BLOCK_PUBLICATION_VERSION)
  then parse_fail (UnsupportedVersion version) else
  read publisher := read_u16_bytes UnexpectedEnd in
  read _ := parse_result (validate_publisher publisher) in
  read block_len := read_uint UnexpectedEnd 8 in
  if decide (MAX_REPUTATION_BLOCK_WIRE_LEN < block_len)%N
  then parse_fail (BlockEnvelopeTooLong block_len MAX_REPUTATION_BLOCK_WIRE_LEN) else
  read block_envelope := read_exact UnexpectedEnd (N.to_nat block_len) in
  read block :=
    parse_result (map_err InvalidBlock (BlockWire.decode_reputation_block block_envelope)) in
  read signature := read_u16_bytes UnexpectedEnd in
  read _ := parse_result (validate_signature signature) in
  parse_ret (publisher, block, block_envelope, signature).

Definition decode (input : list byte) : result t PorReputationBlockPublicationError :=
  bail (PublicationTooLong (len input) MAX_REPUTATION_BLOCK_PUBLICATION_LEN)
    when (MAX_REPUTATION_BLOCK_PUBLICATION_LEN < len input)%N;
  let? parsed := read_parts input in
  let '(publisher, block, block_envelope, signature) := parsed.1 in
  bail TrailingBytes when parsed.2 ≠ [];
  from_encoded_parts publisher block block_envelope signature.

End publication.
End Publication.

(** The boundary to a peer transport: a broadcaster answers each delivery, and
    may fail. *)
Module PublicationTransport.

Inductive PorReputationBlockTransportError :=
  | PublicationFailed (error : Publication.PorReputationBlockPublicationError)
  | BroadcastFailed (message : string).

Section transport.
Context `{Blake2b} `{Secp256k1} `{Secp256k1Sign}.
Context (broadcast_envelope : list byte → result unit string).

Definition broadcast_reputation_block_publication (publication : Publication.t) :
    result unit PorReputationBlockTransportError :=
  map_err BroadcastFailed (broadcast_envelope (Publication.encode publication)).

Definition broadcast_reputation_block (publisher : NodeId) (block : ReputationBlock)
    (private_key : list byte) : result Publication.t PorReputationBlockTransportError :=
  let? publication := map_err PublicationFailed (Publication.sign publisher block private_key) in
  let? _ := broadcast_reputation_block_publication publication in
  Ok publication.

Definition receive_reputation_block_envelope (encoded : list byte) :
    result Publication.t PorReputationBlockTransportError :=
  map_err PublicationFailed (Publication.decode encoded).

End transport.
End PublicationTransport.

(** ** [checkpoint.rs] *)

Module Attestation.

Definition DEFAULT_POR_CHECKPOINT_THRESHOLD_NUMERATOR : N := 2.
Definition DEFAULT_POR_CHECKPOINT_THRESHOLD_DENOMINATOR : N := 3.

Record PorCheckpointConflictEvidence := mkConflict {
  attester : NodeId;
  first_hash : Hash32;
  conflicting_hash : Hash32;
  first_publication : Publication.t;
  conflicting_publication : Publication.t
}.

Inductive PorCheckpointError :=
  | InvalidThreshold (numerator denominator : N)
  | EmptyAttesterSet
  | UnknownAttester (attester : NodeId)
  | ExcludedAttester (attester : NodeId)
  | ZeroAttesterWeight
  | WeightOverflow
  | UnauthorizedAttester (attester : NodeId)
  | ConflictingPublication (evidence : PorCheckpointConflictEvidence)
  | CompetingAuditedBlock (first_hash competing_hash : Hash32)
  | AuditFailed (error : PorError)
  | ThresholdAlreadyReached
  | ThresholdNotReached (signed_weight required_weight : N).

Record PorCheckpointPolicy := mkPolicy { numerator : N; denominator : N }.

Definition new_policy (numerator denominator : N) :
    result PorCheckpointPolicy PorCheckpointError :=
  bail (InvalidThreshold numerator denominator)
    when numerator = 0%N ∨ denominator = 0%N ∨ (denominator <= numerator)%N;
  Ok (mkPolicy numerator denominator).
Definition default_policy : PorCheckpointPolicy :=
  mkPolicy DEFAULT_POR_CHECKPOINT_THRESHOLD_NUMERATOR DEFAULT_POR_CHECKPOINT_THRESHOLD_DENOMINATOR.

Record PorCheckpointProgress := mkProgress {
  authorized_attesters : nat;
  attesters : list NodeId;
  progress_candidate_hash : option Hash32;
  progress_total_weight : N;
  progress_signed_weight : N;
  progress_required_weight : N
}.
Definition is_reached (self : PorCheckpointProgress) : bool :=
  bool_decide (progress_required_weight self <= progress_signed_weight self)%N.

Inductive PorCheckpointObservation := Counted | Duplicate.

Record AttestedPorCheckpoint := mkAttested {
  attested_block : ReputationBlock;
  block_hash : Hash32;
  attested_publications : list Publication.t;
  attested_progress : PorCheckpointProgress
}.

Definition strict_required_weight (total_weight numerator denominator : N) : option N :=
  whole ← checked_mul u128_max (total_weight / denominator) numerator;
  product ← checked_mul u128_max (total_weight mod denominator) numerator;
  floor ← checked_add u128_max whole (product / denominator);
  checked_add u128_max floor 1.

Record t := mk {
  state : ReputationState.t;
  completed : CompletedRound.t;
  config : PorConfig.t;
  attested_shard : list byte;
  attester_weights : gmap NodeId N;
  total_attester_weight : N;
  required_weight : N;
  signed_weight : N;
  candidate_hash : option Hash32;
  candidate_block : option ReputationBlock;
  publications : gmap NodeId Publication.t
}.

(** One attester of the loop in [new]: the weights so far and their sum. *)
Definition add_attester (state : ReputationState.t) (acc : gmap NodeId N * N)
    (attester : NodeId) : result (gmap NodeId N * N) PorCheckpointError :=
  let? entry := ok_or (find_entry (ReputationState.state_entries state) attester)
    (UnknownAttester attester) in
  bail (ExcludedAttester attester)
    when ReputationEntry.is_excluded entry || ReputationState.is_ejected state attester = true;
  if decide (is_Some (acc.1 !! attester)) then Ok acc
  else
    let? total := ok_or (checked_add u128_max acc.2 (ReputationEntry.reputation entry))
      WeightOverflow in
    Ok (<[attester := ReputationEntry.reputation entry]> acc.1, total).

Definition new (state : ReputationState.t) (completed : CompletedRound.t) (config : PorConfig.t)
    (shard_id : list byte) (authorized_attesters : list NodeId) (policy : PorCheckpointPolicy) :
    result t PorCheckpointError :=
  let? acc := try_fold (add_attester state) (∅, 0%N) authorized_attesters in
  bail EmptyAttesterSet when acc.1 = ∅;
  bail ZeroAttesterWeight when acc.2 = 0%N;
  let? required_weight :=
    ok_or (strict_required_weight acc.2 (numerator policy) (denominator policy))
      WeightOverflow in
  Ok (mk state completed config shard_id acc.1 acc.2 required_weight 0 None None ∅).

Definition progress (self : t) : PorCheckpointProgress :=
  mkProgress (size (attester_weights self)) (btree_map_iter (publications self)).*1
    (candidate_hash self) (total_attester_weight self) (signed_weight self)
    (required_weight self).

Definition count_publication (self : t) (attester : NodeId) (publication : Publication.t)
    (block_hash : Hash32) (signed_weight : N) : t :=
  let first := decide (candidate_hash self = None) in
  mk (state self) (completed self) (config self) (attested_shard self) (attester_weights self)
    (total_attester_weight self) (required_weight self) signed_weight
    (if first then Some block_hash else candidate_hash self)
    (if first then Some (Publication.block publication) else candidate_block self)
    (<[attester := publication]> (publications self)).

Section attestation.
Context `{Blake2b}.

Definition audit (self : t) (block : ReputationBlock) : result unit PorError :=
  let? _ := CompletedRound.validate_complete_authorizations (completed self)
    (attested_shard self) in
  Audit.verify_reputation_transition_with_penalties
    (ReputationState.snapshot_vector (state self))
    (batch_ratings (CompletedRound.batch (completed self))) block
    (mkContext (attested_shard self) (opened_wave (CompletedRound.opened (completed self)))
       (ReputationState.latest_block (state self)))
    (config self) (CompletedRound.penalties (completed self)).

(** [reputation_block_hash(..)?]. *)
Definition hash_of (publication : Publication.t) : result Hash32 PorCheckpointError :=
  map_err AuditFailed (Commitments.reputation_block_hash (Publication.block publication)).

(** A second publication of an attester that was counted before. *)
Definition compare_previous (attester : NodeId) (previous publication : Publication.t)
    (block_hash : Hash32) : result PorCheckpointObservation PorCheckpointError :=
  let? previous_hash := hash_of previous in
  if decide (previous_hash = block_hash) then Ok Duplicate
  else Err (ConflictingPublication
    (mkConflict attester previous_hash block_hash previous publication)).

(** The observation and the collector after it: every [return Err] comes
    before the first assignment, so an error keeps the collector. *)
Definition observe (self : t) (publication : Publication.t) :
    result (PorCheckpointObservation * t) PorCheckpointError :=
  bail ThresholdAlreadyReached when is_reached (progress self) = true;
  let attester := Publication.publisher publication in
  let? weight := ok_or (attester_weights self !! attester) (UnauthorizedAttester attester) in
  let? block_hash := hash_of publication in
  match publications self !! attester with
  | Some previous =>
    let? observation := compare_previous attester previous publication block_hash in
    Ok (observation, self)
  | None =>
    let? _ := map_err AuditFailed (audit self (Publication.block publication)) in
    bail (CompetingAuditedBlock (default block_hash (candidate_hash self)) block_hash)
      when candidate_hash self ≠ None ∧ candidate_hash self ≠ Some block_hash;
    let? signed_weight := ok_or (checked_add u128_max (signed_weight self) weight)
      WeightOverflow in
    Ok (Counted, count_publication self attester publication block_hash signed_weight)
  end.

End attestation.

(** The outer [None] is the panic of [expect]. *)
Definition into_attested (self : t) :
    option (result AttestedPorCheckpoint PorCheckpointError) :=
  let progress := progress self in
  if is_reached progress then
    block ← candidate_block self;
    block_hash ← candidate_hash self;
    Some (Ok (mkAttested block block_hash (btree_map_iter (publications self)).*2 progress))
  else Some (Err (ThresholdNotReached (progress_signed_weight progress)
    (progress_required_weight progress))).

End Attestation.
