(* ===== verification/AttestationFacts.v ===== *)
(** * Facts about attested checkpoints

    What a publication authenticates, the invariant of the collector over any
    sequence of observations, and when it attests. *)

From S2P Require Import Prelude Types Lace Bytes Crypto PorTypes PorMath PorMathFacts PorCommit.
From S2P Require Import PorAudit.
From S2P Require Import PorAuditFacts PorReplayFacts PorState PorCodec PorCodecFacts FinalOutput.
From S2P Require Import RatingFlow RatingWire.
From S2P Require Import QuorumFacts RatingFlowFacts Collector RatingRound RatingRoundFacts.
From S2P Require Import Attestation.
From stdpp Require Import options.

(** ** Publications *)

Module PublicationFacts.
Import Publication.
Section publication.
Context `{HB : Blake2b} `{HS : Secp256k1} `{HK : Secp256k1Sign}.

(** What the constructors and the decoder establish, and nothing can change
    afterwards. *)
Record authentic (p : t) : Prop := {
  authentic_publisher : validate_publisher (publisher p) = Ok tt;
  authentic_signature : validate_signature (publication_signature p) = Ok tt;
  authentic_envelope : BlockWire.encode_reputation_block (block p) = Ok (block_envelope p);
  authentic_signed : secp_verify (publication_signing_hash (publisher p) (block_envelope p))
    (publisher p) (publication_signature p) = true
}.

Lemma envelope_bounded b bytes :
  BlockWire.encode_reputation_block b = Ok bytes → (len bytes <= MAX_REPUTATION_BLOCK_WIRE_LEN)%N.
Proof.
  unfold BlockWire.encode_reputation_block.
  intros (payload & (_ & _ & -> & Hin)%encode_payload_Ok & Hk)%result_bind_Ok. invert_Ok Hk.
  injection Hk as <-. change (len (envelope BlockWire.POR_REPUTATION_BLOCK_MAGIC
    (version (header b)) (block_bytes b) (BlockWire.reputation_block_checksum
      (version (header b)) (len (block_bytes b)) (block_bytes b)))
    <= MAX_REPUTATION_BLOCK_WIRE_LEN)%N. rewrite envelope_len.
  unfold in_payload, BlockWire.MAX_REPUTATION_BLOCK_PAYLOAD_LEN in Hin.
  assert (BlockWire.FIXED_ENVELOPE_LEN =
    len BlockWire.POR_REPUTATION_BLOCK_MAGIC + 2 + 8 + N.of_nat CHECKSUM_LEN)%N as Hfix by done.
  assert (BlockWire.FIXED_ENVELOPE_LEN <= MAX_REPUTATION_BLOCK_WIRE_LEN)%N by (by vm_compute). lia.
Qed.

Lemma parts_Ok pub b env sig p :
  from_encoded_parts pub b env sig = Ok p ↔
  p = mk pub b env sig ∧ validate_publisher pub = Ok tt ∧ validate_signature sig = Ok tt ∧
  (len env <= MAX_REPUTATION_BLOCK_WIRE_LEN)%N ∧
  secp_verify (publication_signing_hash pub env) pub sig = true.
Proof.
  unfold from_encoded_parts. split.
  - intros Hp. invert_Ok Hp. injection Hp as <-. apply not_false_iff_true in Hguard0.
    split_and!; [done..|lia|done].
  - intros (-> & -> & -> & Hl & Hv). cbn [result_bind]. rewrite decide_False by lia.
    rewrite Hv. by rewrite decide_False.
Qed.

Lemma publication_new_Ok pub b sig p :
  new pub b sig = Ok p ↔
  authentic p ∧ publisher p = pub ∧ block p = b ∧ publication_signature p = sig.
Proof.
  unfold new. rewrite result_bind_Ok. setoid_rewrite map_err_Ok. setoid_rewrite parts_Ok. split.
  - intros (env & He & -> & Hp & Hs & _ & Hv). by repeat split.
  - intros ([Hp Hs He Hv] & <- & <- & <-). exists (block_envelope p). split; [done|].
    split_and!; [by destruct p|done..|by eapply envelope_bounded|done].
Qed.

(** Signing publishes the given block, under a signature that verifies. *)
Lemma sign_Ok pub b key p :
  sign pub b key = Ok p → authentic p ∧ publisher p = pub ∧ block p = b.
Proof.
  unfold sign. intros (_ & _ & (env & He%map_err_Ok & (sig & _ & (-> & ? & ? & _ & ?)%parts_Ok)
    %result_bind_Ok)%result_bind_Ok)%result_bind_Ok. by repeat split.
Qed.

Lemma valid_publisher_len l : validate_publisher l = Ok tt → length l <= 65.
Proof.
  unfold validate_publisher. case_decide as Hl; [|done]. intros _. destruct Hl as [-> | ->]; cbv; lia.
Qed.
Lemma valid_signature_len l : validate_signature l = Ok tt → length l <= 72.
Proof. unfold validate_signature. rewrite !bail_Ok. intros (_ & Hl & _).
  change MAX_SECP256K1_DER_SIGNATURE_LEN with 72 in Hl. lia.
Qed.

Lemma encode_len p :
  validate_publisher (publisher p) = Ok tt → validate_signature (publication_signature p) = Ok tt →
  (len (block_envelope p) <= MAX_REPUTATION_BLOCK_WIRE_LEN)%N →
  (len (encode p) <= MAX_REPUTATION_BLOCK_PUBLICATION_LEN)%N.
Proof.
  intros Hp%valid_publisher_len Hs%valid_signature_len He.
  unfold encode, publication_payload, u64_bytes. unfold len in *. rewrite !length_app, !length_u16_bytes.
  rewrite !length_be_bytes. unfold MAX_REPUTATION_BLOCK_PUBLICATION_LEN, PUBLICATION_FIXED_LEN, len.
  unfold UNCOMPRESSED_SECP256K1_PUBLIC_KEY_LEN, MAX_SECP256K1_DER_SIGNATURE_LEN. lia.
Qed.

Lemma publication_parts_Ok input pub b env sig rest :
  read_parts input = Ok ((pub, b, env, sig), rest) ↔
  validate_publisher pub = Ok tt ∧ validate_signature sig = Ok tt ∧
  (len env <= MAX_REPUTATION_BLOCK_WIRE_LEN)%N ∧ BlockWire.decode_reputation_block env = Ok b ∧
  input = encode (mk pub b env sig) ++ rest.
Proof.
  assert (MAX_REPUTATION_BLOCK_WIRE_LEN <= u64_max)%N as Hmax by (by vm_compute).
  unfold read_parts, encode, publication_payload, u64_bytes. cbn [publisher block_envelope publication_signature].
  split.
  - intros Hp. invert_parse Hp. injection Hp as <- <- <- <- <-. apply dec_stable in Hguard, Hguard0.
    apply exact_exact in Hread as [_ ->]. apply exact_uint in Hread0 as [_ ->].
    apply exact_u16_bytes in Hread1 as [_ ->]. apply parse_result_Ok in Hread2 as [Hpub ->].
    apply exact_u64 in Hread3 as [_ ->]. apply exact_exact in Hread4 as [Hl ->].
    apply parse_result_Ok in Hread5 as [Hb%map_err_Ok ->]. apply exact_u16_bytes in Hread6 as [_ ->].
    apply parse_result_Ok in Hread7 as [Hsig ->]. unfold id, len.
    rewrite Hl, N2Nat.id. subst. rewrite <-!app_assoc. destruct x2, x7. split_and!; try done; lia.
  - intros (Hp & Hs & Hl & Hb & ->). rewrite <-!app_assoc.
    pose proof (valid_publisher_len _ Hp). pose proof (valid_signature_len _ Hs).
    rewrite (exact_run _ id _ _ REPUTATION_BLOCK_PUBLICATION_DOMAIN _ (exact_exact UnexpectedEnd _))
      by done.
    rewrite decide_False by tauto.
    rewrite (exact_run _ _ _ _ _ _ (exact_uint UnexpectedEnd 2)) by done.
    rewrite decide_False by tauto.
    rewrite (exact_run _ _ _ _ _ _ (exact_u16_bytes UnexpectedEnd)) by lia.
    rewrite Hp. unfold parse_bind at 1. cbn [parse_result].
    rewrite (exact_run _ _ _ _ _ _ (exact_u64 UnexpectedEnd)) by lia.
    rewrite decide_False by lia.
    rewrite (exact_run _ id _ _ env _ (exact_exact UnexpectedEnd _)) by (unfold len; lia).
    rewrite Hb. unfold parse_bind at 1. cbn [parse_result map_err].
    rewrite (exact_run _ _ _ _ _ _ (exact_u16_bytes UnexpectedEnd)) by lia.
    rewrite Hs. done.
Qed.

Lemma decode_Ok input p :
  decode input = Ok p ↔ authentic p ∧ typed_block (block p) ∧ input = encode p.
Proof.
  unfold decode. rewrite bail_Ok, result_bind_Ok. split.
  - intros (_ & [[[[pub b] env] sig] rest] & (_ & _ & _ & Hb & ->)%publication_parts_Ok & Hk). cbn [fst snd] in Hk.
    apply bail_Ok in Hk as [->%dec_stable (-> & Hp & Hs & _ & Hv)%parts_Ok].
    apply block_codec in Hb as [Ht He]. rewrite app_nil_r. split; [by split|done].
  - intros ([Hp Hs He Hv] & Ht & ->). pose proof (envelope_bounded _ _ He) as Hl.
    pose proof (encode_len p Hp Hs Hl). split; [lia|].
    exists ((publisher p, block p, block_envelope p, publication_signature p), []). split.
    + apply publication_parts_Ok. split_and!; [done..|by apply block_codec|]. rewrite app_nil_r. by destruct p.
    + cbn [fst snd]. rewrite decide_False by tauto. apply parts_Ok. split_and!; [by destruct p|done..].
Qed.

End publication.
End PublicationFacts.

(** ** The collector *)

Module AttestationFacts.
Import Attestation PublicationFacts.

(** The weight a state gives an attester. *)
Definition weight_of (s : ReputationState.t) (x : NodeId) : N :=
  from_option ReputationEntry.reputation 0%N (find_entry (ReputationState.state_entries s) x).

(** The batch of the round is of the round its wave opens. *)
Definition in_step (round : CompletedRound.t) : Prop :=
  Ratings.rating_round_from_finalized_wave (opened_wave (CompletedRound.opened round)) =
    Ok (batch_round (CompletedRound.batch round)).

Section attestation.
Context `{HB : Blake2b} `{HS : Secp256k1} `{HK : Secp256k1Sign}.
Implicit Types (c : t) (p : Publication.t).

(** The block that the holder of these inputs builds itself. *)
Definition own_block (state : ReputationState.t) (round : CompletedRound.t) (config : PorConfig.t)
    (shard_id : list byte) : option ReputationBlock :=
  match RoundTransition.stage_completed_reputation_round round state config shard_id with
  | Ok (_, applied) => Some (RoundTransition.applied_block applied)
  | Err _ => None
  end.
Definition own c : option ReputationBlock :=
  own_block (state c) (completed c) (config c) (attested_shard c).

Lemma audit_own c b : in_step (completed c) → audit c b = Ok tt ↔ own c = Some b.
Proof.
  intros Hstep. unfold audit, own, own_block. rewrite result_bind_Ok. setoid_rewrite verify_Ok. split.
  - intros ([] & Hv & Hr & Hw). pose proof Hw as [_ _ Hround _ _ _]. cbn in Hround.
    unfold in_step in Hstep. rewrite Hstep in Hround. injection Hround as Hround.
    rewrite <-Hround in Hr, Hw.
    destruct (RoundTransition.stage_completed_reputation_round _ _ _ _) as [[staged applied]|e] eqn:Es.
    + apply stage_Ok in Es as (_ & list & block & Hr' & Hb & [= -> ->]). cbn.
      rewrite Hr in Hr'. injection Hr' as <-. f_equal.
      assert (Ok (E := PorError) block = Ok b) as [= ->]; [|done]. rewrite <-Hb. apply build_Ok.
      by destruct (CompletedRound.batch (completed c)).
    + exfalso. erewrite (proj2 (stage_Ok _ _ _ _ _)) in Es; [done|]. split; [exact Hv|].
      exists (reputation_list b), b. split; [exact Hr|]. split; [|reflexivity].
      apply build_Ok. by destruct (CompletedRound.batch (completed c)).
  - destruct (RoundTransition.stage_completed_reputation_round _ _ _ _) as [[staged applied]|] eqn:Es;
      [|done]. apply stage_Ok in Es as (Hv & list & block & Hr & Hb & [= -> ->]). intros [= ->].
    exists tt. split; [done|]. apply build_Ok in Hb as Hw.
    pose proof Hw as [_ _ _ Hl (? & ? & ? & ? & _ & _ & _ & E) _].
    assert (reputation_list b = list) as El by (by rewrite E). rewrite El, Hl. split; [done|].
    by destruct (CompletedRound.batch (completed c)).
Qed.

Lemma own_hash c b :
  in_step (completed c) → own c = Some b → ∃ h, Commitments.reputation_block_hash b = Ok h.
Proof.
  intros Hstep Hb%audit_own; [|done]. unfold audit in Hb.
  apply result_bind_Ok in Hb as (_ & _ & [_ [_ _ _ _ _ Hv]]%verify_Ok).
  unfold Commitments.reputation_block_hash. rewrite Hv. cbn [result_bind].
  pose proof (validate_block_parts _ Hv) as (Hs & _). unfold Commitments.validate_shard_id in Hs.
  rewrite !bail_Ok in Hs. destruct Hs as (_ & Hs & _).
  unfold Commitments.put_bytes, Commitments.put_len. change MAX_REPUTATION_BLOCK_SHARD_ID_LEN with 256 in Hs.
  rewrite decide_False by (unfold u64_max; lia). cbn [result_bind]. eauto.
Qed.

(** ** The weights of the attesters *)

Lemma add_attesters_Ok s l m total m' total' :
  try_fold (add_attester s) (m, total) l = Ok (m', total') →
  (∀ x w, m !! x = Some w → w = weight_of s x) →
  total = set_weight (weight_of s) (dom m) → (total <= u128_max)%N →
  (∀ x w, m' !! x = Some w → w = weight_of s x) ∧
  total' = set_weight (weight_of s) (dom m') ∧ (total' <= u128_max)%N ∧
  dom m' = dom m ∪ list_to_set l.
Proof.
  revert m total. induction l as [|x l IH]; intros m total Hf Hm Ht Hb.
  { injection Hf as <- <-. cbn. by rewrite (right_id_L ∅ (∪)). }
  cbn [try_fold] in Hf. apply result_bind_Ok in Hf as ([m1 t1] & Hx & Hf).
  unfold add_attester in Hx. apply result_bind_Ok in Hx as (e & He%ok_or_Ok & Hx).
  apply bail_Ok in Hx as [_ Hx]. cbn [fst snd list_to_set] in Hx |- *.
  assert (weight_of s x = ReputationEntry.reputation e) as Hw by (unfold weight_of; by rewrite He).
  destruct (decide (is_Some (m !! x))) as [Hin|Hnew].
  - injection Hx as <- <-. destruct (IH _ _ Hf Hm Ht Hb) as (H1 & H2 & H3 & H4).
    split_and!; [done..|]. rewrite H4. apply elem_of_dom in Hin. set_solver.
  - apply result_bind_Ok in Hx as (t & [-> Hle]%ok_or_Ok%checked_add_Some & [= <- <-]).
    assert (x ∉ dom m) as Hd by (by rewrite elem_of_dom).
    destruct (IH _ _ Hf) as (H1 & H2 & H3 & H4).
    + intros y w. rewrite lookup_insert_Some. intros [[<- <-]|[_ Hy]]; [done|by apply Hm].
    + rewrite dom_insert_L, set_weight_disj_union by set_solver.
      rewrite set_weight_singleton. rewrite Hw, Ht. lia.
    + done.
    + split_and!; [done..|]. rewrite H4, dom_insert_L. set_solver.
Qed.

(** ** The invariant of the collector *)

Record consistent c : Prop := {
  consistent_step : in_step (completed c);
  consistent_weights x w : attester_weights c !! x = Some w → w = weight_of (state c) x;
  consistent_total : total_attester_weight c =
    set_weight (weight_of (state c)) (dom (attester_weights c));
  consistent_bound : (total_attester_weight c <= u128_max)%N;
  consistent_required : (0 < required_weight c)%N;
  consistent_counted x p : publications c !! x = Some p →
    authentic p ∧ Publication.publisher p = x ∧ x ∈ dom (attester_weights c) ∧
    own c = Some (Publication.block p);
  consistent_signed : signed_weight c = set_weight (weight_of (state c)) (dom (publications c));
  consistent_candidate : match candidate_block c with
    | None => candidate_hash c = None ∧ publications c = ∅
    | Some b => own c = Some b ∧ publications c ≠ ∅ ∧
        ∃ h, candidate_hash c = Some h ∧ Commitments.reputation_block_hash b = Ok h
    end
}.

Lemma collector_consistent s round cfg shard l policy c :
  new s round cfg shard l policy = Ok c → in_step round → consistent c.
Proof.
  intros Hn Hstep. unfold new in Hn. apply result_bind_Ok in Hn as ([m total] & Ha & Hn).
  apply bail_Ok in Hn as [_ [_ (req & Hr%ok_or_Ok & [= <-])%result_bind_Ok]%bail_Ok].
  apply add_attesters_Ok in Ha as (Hm & Ht & Hb & _); cycle 1.
  { intros x w ?%lookup_empty_Some. done. } { by rewrite dom_empty_L, set_weight_empty. } { done. }
  split; cbn; try done.
  - unfold strict_required_weight in Hr. cbn [fst snd] in Hr.
    destruct (checked_mul _ (_ / _) _) as [whole|]; [|done].
    destruct (checked_mul _ (_ mod _) _) as [product|]; [|done]. cbn in Hr.
    destruct (checked_add _ whole _) as [floor|]; [|done]. cbn in Hr.
    apply checked_add_Some in Hr as [-> _]. lia.
Qed.

(** Counting a new attester's publication of the own block. *)
Lemma count_consistent c p h :
  consistent c → authentic p → Publication.publisher p ∈ dom (attester_weights c) →
  publications c !! Publication.publisher p = None → own c = Some (Publication.block p) →
  Commitments.reputation_block_hash (Publication.block p) = Ok h →
  consistent (count_publication c (Publication.publisher p) p h
    (signed_weight c + weight_of (state c) (Publication.publisher p))).
Proof.
  intros [Hstep Hw Ht Hb Hreq Hc Hs Hcand] Hp Hauth Hnew Hown Hh. split; cbn; try done.
  - intros x q. rewrite lookup_insert_Some. intros [[<- <-]|[_ Hx]]; [done|by apply Hc].
  - rewrite Hs, dom_insert_L. apply not_elem_of_dom in Hnew.
    rewrite set_weight_disj_union by set_solver. rewrite set_weight_singleton. lia.
  - destruct (candidate_block c) as [b|].
    + destruct Hcand as (Hb' & _ & h' & -> & Hh'). rewrite decide_False by done.
      split; [done|]. split; [apply insert_non_empty|]. eauto.
    + destruct Hcand as [-> _]. rewrite decide_True by done.
      split; [done|]. split; [apply insert_non_empty|]. eauto.
Qed.

(** The whole observation: no competing candidate and no overflow occurs. *)
Lemma observe_consistent c p :
  consistent c →
  observe c p =
    if is_reached (progress c) then Err ThresholdAlreadyReached
    else match attester_weights c !! Publication.publisher p with
    | None => Err (UnauthorizedAttester (Publication.publisher p))
    | Some _ =>
      let? h := hash_of p in
      match publications c !! Publication.publisher p with
      | Some previous =>
        let? observation := compare_previous (Publication.publisher p) previous p h in
        Ok (observation, c)
      | None =>
        let? _ := map_err AuditFailed (audit c (Publication.block p)) in
        Ok (Counted, count_publication c (Publication.publisher p) p h
          (signed_weight c + weight_of (state c) (Publication.publisher p)))
      end
    end.
Proof.
  intros [Hstep Hw Ht Hb _ Hc Hs Hcand]. unfold observe. destruct (is_reached _); [done|].
  rewrite decide_False by done.
  destruct (attester_weights c !! Publication.publisher p) as [w|] eqn:Ew; [|done].
  cbn [ok_or result_bind]. destruct (hash_of p) as [h|] eqn:Eh; [|done]. cbn [result_bind].
  destruct (publications c !! Publication.publisher p) as [q|] eqn:Eq; [done|].
  destruct (audit c (Publication.block p)) as [[]|] eqn:Ea; [|done]. cbn [map_err result_bind].
  apply audit_own in Ea as Hown; [|done]. rewrite decide_False.
  - assert (signed_weight c + w <= u128_max)%N as Hfit; [|rewrite checked_add_fits by done;
      cbn [ok_or result_bind]; by rewrite (Hw _ _ Ew)].
    etrans; [|exact Hb]. rewrite Hs, Ht, (Hw _ _ Ew), <-(set_weight_singleton (weight_of (state c))).
    apply not_elem_of_dom in Eq. rewrite <-set_weight_disj_union by set_solver.
    apply set_weight_mono. intros x [(q & Hx)%elem_of_dom| ->%elem_of_singleton]%elem_of_union.
    + by apply Hc in Hx as (_ & _ & ? & _).
    + by apply elem_of_dom_2 in Ew.
  - destruct (candidate_block c) as [b|]; [|by destruct Hcand as [-> _]; intros [? _]].
    destruct Hcand as (Hb' & _ & h' & -> & Hh'). intros [_ Hne]. destruct Hne. f_equal.
    rewrite Hown in Hb'. injection Hb' as <-. unfold hash_of in Eh. rewrite Hh' in Eh. by injection Eh.
Qed.

(** ** Runs of the collector *)

(** One call of [observe] on the collector that is kept, and a run of calls. *)
Definition after c p : t := match observe c p with Ok (_, c') => c' | Err _ => c end.
Definition observe_all c (l : list Publication.t) : t := foldl after c l.

(** The publication is counted. *)
Record counts c p : Prop := {
  counts_open : is_reached (progress c) = false;
  counts_authorized : Publication.publisher p ∈ dom (attester_weights c);
  counts_first : publications c !! Publication.publisher p = None;
  counts_own : own c = Some (Publication.block p)
}.

Lemma observe_counted c p c' :
  consistent c →
  observe c p = Ok (Counted, c') ↔
  counts c p ∧ ∃ h, Commitments.reputation_block_hash (Publication.block p) = Ok h ∧
    c' = count_publication c (Publication.publisher p) p h
      (signed_weight c + weight_of (state c) (Publication.publisher p)).
Proof.
  intros Hc. rewrite observe_consistent by done. pose proof (consistent_step _ Hc) as Hstep. split.
  - destruct (is_reached _) eqn:Er; [done|]. destruct (attester_weights c !! _) eqn:Ew; [|done].
    intros (h & Hh%map_err_Ok & Hk)%result_bind_Ok.
    destruct (publications c !! _) as [q|] eqn:Eq.
    { apply result_bind_Ok in Hk as (o & Ho & [= -> _]). unfold compare_previous in Ho.
      apply result_bind_Ok in Ho as (h' & _ & Ho). by case_decide. }
    apply result_bind_Ok in Hk as ([] & Ha%map_err_Ok & [= <-]). split; [|eauto].
    split; [done|by eapply elem_of_dom_2|done|by apply audit_own].
  - intros ([Hr [w Hw]%elem_of_dom Hq Hown] & h & Hh & ->). rewrite Hr, Hw, Hq. unfold hash_of.
    rewrite Hh. cbn [map_err result_bind]. by rewrite (proj2 (audit_own _ _ Hstep) Hown).
Qed.

Lemma after_counts c p : consistent c → counts c p → ∃ h,
  Commitments.reputation_block_hash (Publication.block p) = Ok h ∧
  after c p = count_publication c (Publication.publisher p) p h
    (signed_weight c + weight_of (state c) (Publication.publisher p)).
Proof.
  intros Hc Hp. destruct (own_hash c (Publication.block p)) as [h Hh];
    [apply Hc|apply Hp|]. exists h. split; [done|]. unfold after.
  by rewrite (proj2 (observe_counted _ _ _ Hc)) by eauto.
Qed.
Lemma after_same c p : consistent c → ¬ counts c p → after c p = c.
Proof.
  intros Hc Hp. unfold after. destruct (observe c p) as [[[] c']|] eqn:Eo; [|clear Hp|done].
  - by apply observe_counted in Eo as [? _].
  - rewrite observe_consistent in Eo by done. destruct (is_reached _); [done|].
    destruct (attester_weights c !! _); [|done]. apply result_bind_Ok in Eo as (h & _ & Eo).
    destruct (publications c !! _); apply result_bind_Ok in Eo as (o & _ & [= ]); done.
Qed.
Lemma counts_dec c p : counts c p ∨ ¬ counts c p.
Proof.
  destruct (is_reached (progress c)) eqn:E1; [right; intros []; congruence|].
  destruct (decide (Publication.publisher p ∈ dom (attester_weights c))); [|right; by intros []].
  destruct (publications c !! Publication.publisher p) eqn:E2; [right; intros []; congruence|].
  destruct (decide (own c = Some (Publication.block p))); [by left|right; by intros []].
Qed.

(** What a run never changes. *)
Definition same_inputs c c' : Prop :=
  state c' = state c ∧ completed c' = completed c ∧ config c' = config c ∧
  attested_shard c' = attested_shard c ∧ attester_weights c' = attester_weights c ∧
  total_attester_weight c' = total_attester_weight c ∧ required_weight c' = required_weight c.

Lemma same_own c c' : same_inputs c c' → own c' = own c.
Proof. unfold own. by intros (-> & -> & -> & -> & _). Qed.

(** The attesters with a publication of the own block in a list. *)
Definition confirms c l (x : NodeId) : Prop :=
  Exists (λ p, Publication.publisher p = x ∧ own c = Some (Publication.block p)) l.
#[global] Instance confirms_dec c l x : Decision (confirms c l x) := _.
Definition confirmers c l : gset NodeId :=
  filter (λ x, confirms c l x) (dom (attester_weights c)).

Lemma elem_of_confirmers c l x :
  x ∈ confirmers c l ↔ x ∈ dom (attester_weights c) ∧
    ∃ p, p ∈ l ∧ Publication.publisher p = x ∧ own c = Some (Publication.block p).
Proof. unfold confirmers, confirms. rewrite elem_of_filter, Exists_exists. naive_solver. Qed.

Lemma confirmers_snoc c l p :
  confirmers c (l ++ [p]) =
    if decide (Publication.publisher p ∈ dom (attester_weights c) ∧
               own c = Some (Publication.block p))
    then confirmers c l ∪ {[Publication.publisher p]} else confirmers c l.
Proof.
  apply set_eq. intros x. unfold confirmers, confirms.
  case_decide as Hp; rewrite ?elem_of_union, ?elem_of_singleton, !elem_of_filter, Exists_app, Exists_cons,
    Exists_nil; [|naive_solver].
  split; [naive_solver|]. intros [?|Hx]; [naive_solver|]. subst x. destruct Hp. auto.
Qed.

(** After any run: the counted attesters are confirmers, and all of them as
    long as the threshold is not reached. *)
Lemma run_spec c l :
  consistent c → publications c = ∅ → Forall authentic l →
  let c' := observe_all c l in
  consistent c' ∧ same_inputs c c' ∧
  (∀ x p, publications c' !! x = Some p → p ∈ l) ∧
  dom (publications c') ⊆ confirmers c l ∧
  (is_reached (progress c') = false → dom (publications c') = confirmers c l).
Proof.
  intros Hc Hempty. cbv zeta. induction l as [|p l IH] using rev_ind; intros Hl.
  { cbn. unfold same_inputs. rewrite Hempty. split_and!; try done.
    intros _. rewrite dom_empty_L. symmetry. apply set_eq. intros x. rewrite elem_of_confirmers.
      split; [by intros (_ & p & ?%elem_of_nil & _)|by intros ?%elem_of_empty]. }
  apply Forall_app in Hl as [Hl [Hp _]%Forall_cons].
  destruct (IH Hl) as (Hc' & Hin & Hmem & Hsub & Heq). clear IH.
  unfold observe_all. rewrite foldl_app. cbn [foldl]. change (foldl after c l) with (observe_all c l).
  pose proof (same_own _ _ Hin) as Ho. assert (attester_weights (observe_all c l) = attester_weights c)
    as Haw by apply Hin. rewrite confirmers_snoc. revert Hc' Hin Hmem Hsub Heq Ho Haw.
  generalize (observe_all c l). intros k Hc' Hin Hmem Hsub Heq Ho Haw.
  destruct (counts_dec k p) as [Hk|Hk].
  - destruct (after_counts k p Hc' Hk) as (h & Hh & ->). destruct Hk as [Hr Ha Hf Hown].
    rewrite Haw in Ha. rewrite decide_True by (by rewrite <-Ho). 
    split_and!; [by apply count_consistent; rewrite ?Haw|exact Hin| | |]; cbn.
    + intros x q. rewrite lookup_insert_Some. intros [[_ <-]|[_ ?%Hmem]]; apply elem_of_app; [right; by left|by left].
    + rewrite dom_insert_L, (Heq Hr). by rewrite (comm_L (∪)).
    + intros _. rewrite dom_insert_L, (Heq Hr). by rewrite (comm_L (∪)).
  - rewrite after_same by done. split_and!; [done..| | |].
    + intros x q ?%Hmem. apply elem_of_app. by left.
    + case_decide; [by apply union_subseteq_l'|done].
    + intros Hr. rewrite (Heq Hr). case_decide as Hd; [|done]. destruct Hd as [Ha Hown].
      symmetry. rewrite (comm_L (∪)). apply subseteq_union_1_L, singleton_subseteq_l. rewrite <-(Heq Hr).
      apply dec_stable. intros Hn%not_elem_of_dom. apply Hk. split; [done|by rewrite Haw|done|by rewrite Ho].
Qed.

(** ** The threshold *)

Lemma required_exact total n d x :
  (0 < n)%N → (n < d)%N → (d <= u64_max)%N → (total <= u128_max)%N →
  strict_required_weight total n d = Some x → x = (total * n / d + 1)%N.
Proof.
  intros Hn Hnd Hd Ht Hx. pose proof (strict_required_exact total n d Hn Hnd Hd Ht) as Hr.
  revert Hr Hx. unfold ClosurePolicy.strict_required_weight, strict_required_weight.
  destruct (checked_mul _ (_ / _) _); [|done]. destruct (checked_mul _ (_ mod _) _); [|done].
  cbn [ok_or result_bind mbind option_bind].
  destruct (checked_add _ _ (_ / _)); [|done]. cbn [mbind option_bind].
  destruct (checked_add _ _ 1); [|done]. cbn [ok_or]. by intros [= ->] [= <-].
Qed.

Lemma collector_new_Ok s round cfg shard l policy c :
  new s round cfg shard l policy = Ok c →
  state c = s ∧ completed c = round ∧ config c = cfg ∧ attested_shard c = shard ∧
  publications c = ∅ ∧ dom (attester_weights c) = list_to_set l ∧
  total_attester_weight c = set_weight (weight_of s) (list_to_set l) ∧
  (total_attester_weight c <= u128_max)%N ∧
  strict_required_weight (total_attester_weight c) (numerator policy) (denominator policy) =
    Some (required_weight c).
Proof.
  intros Hn. unfold new in Hn. apply result_bind_Ok in Hn as ([m total] & Ha & Hn).
  apply bail_Ok in Hn as [_ [_ (req & Hr%ok_or_Ok & [= <-])%result_bind_Ok]%bail_Ok].
  apply add_attesters_Ok in Ha as (_ & Ht & Hb & Hd); cycle 1.
  { intros x w ?%lookup_empty_Some. done. } { by rewrite dom_empty_L, set_weight_empty. } { done. }
  rewrite dom_empty_L, (left_id_L ∅ (∪)) in Hd. cbn. by rewrite Ht, Hd in *.
Qed.

Lemma new_policy_Ok n d policy :
  new_policy n d = Ok policy ↔ policy = mkPolicy n d ∧ (0 < n)%N ∧ (n < d)%N.
Proof.
  unfold new_policy. rewrite bail_Ok. split.
  - intros [H [= <-]]. split; [done|lia].
  - intros (-> & ? & ?). split; [lia|done].
Qed.

(** A reached threshold has a candidate: [expect] does not panic. *)
Lemma into_attested_spec c :
  consistent c →
  match into_attested c with
  | None => False
  | Some (Err _) => (signed_weight c < required_weight c)%N
  | Some (Ok a) => (required_weight c <= signed_weight c)%N ∧ own c = Some (attested_block a) ∧
      Commitments.reputation_block_hash (attested_block a) = Ok (block_hash a) ∧
      attested_publications a = (btree_map_iter (publications c)).*2
  end.
Proof.
  intros [_ _ _ _ Hreq _ Hs Hcand]. unfold into_attested.
  destruct (is_reached _) eqn:Er; unfold is_reached in Er; cbn in Er.
  - apply bool_decide_eq_true in Er. destruct (candidate_block c) as [b|]; cbn.
    + destruct Hcand as (Ho & _ & h & -> & Hh). done.
    + destruct Hcand as [_ Hn]. rewrite Hs, Hn, dom_empty_L, set_weight_empty in Er. lia.
  - apply bool_decide_eq_false in Er. lia.
Qed.

Lemma elem_of_counted c p :
  consistent c → p ∈ (btree_map_iter (publications c)).*2 ↔
  publications c !! Publication.publisher p = Some p.
Proof.
  intros Hc. rewrite list_elem_of_fmap. split.
  - intros ([x q] & -> & Hx%elem_of_btree_map_iter). cbn.
    pose proof (consistent_counted _ Hc _ _ Hx) as (_ & -> & _). done.
  - intros Hp. exists (Publication.publisher p, p). split; [done|]. by apply elem_of_btree_map_iter.
Qed.
Lemma counted_publishers c :
  consistent c →
  Publication.publisher <$> (btree_map_iter (publications c)).*2 = (btree_map_iter (publications c)).*1.
Proof.
  intros Hc. rewrite <-list_fmap_compose. apply list_fmap_ext. intros i [x p] Hx. cbn.
  apply list_elem_of_lookup_2, elem_of_btree_map_iter in Hx.
  by apply (consistent_counted _ Hc) in Hx as (_ & -> & _).
Qed.

Lemma counted_set c :
  list_to_set (btree_map_iter (publications c)).*1 =@{gset NodeId} dom (publications c).
Proof.
  apply set_eq. intros x. rewrite elem_of_list_to_set, list_elem_of_fmap, elem_of_dom. split.
  - intros ([y p] & -> & Hy%elem_of_btree_map_iter). eauto.
  - intros [p Hp]. exists (x, p). by rewrite elem_of_btree_map_iter.
Qed.

(** Staging the block that one builds oneself is staging one's own round. *)
Lemma stage_own s round cfg shard b :
  own_block s round cfg shard = Some b →
  RoundTransition.stage_attested_checkpoint round s cfg shard b =
    RoundTransition.stage_completed_reputation_round round s cfg shard.
Proof.
  unfold own_block, RoundTransition.stage_attested_checkpoint.
  destruct (RoundTransition.stage_completed_reputation_round _ _ _ _) as [[staged applied]|] eqn:Es;
    [|done]. intros [= <-]. pose proof Es as (_ & list & block & Hr & Hb & [= _ ->])%stage_Ok.
  cbn [RoundTransition.applied_block]. rewrite <-Es. unfold RoundTransition.stage_completed_reputation_round.
  rewrite Hr. cbn [result_bind]. rewrite Hb. cbn [result_bind]. 
  unfold RoundTransition.stage_reputation_block.
  by destruct (CompletedRound.validate_complete_authorizations round shard) as [[]|].
Qed.

(** The outcome of an observation, case by case. *)
Lemma observation_spec c p :
  consistent c →
  match observe c p with
  | Ok (Counted, c') =>
    own c = Some (Publication.block p) ∧ Publication.publisher p ∈ dom (attester_weights c) ∧
    publications c !! Publication.publisher p = None ∧
    publications c' = <[Publication.publisher p := p]> (publications c) ∧
    signed_weight c' = (signed_weight c + weight_of (state c) (Publication.publisher p))%N
  | Ok (Duplicate, c') =>
    c' = c ∧ ∃ q, publications c !! Publication.publisher p = Some q ∧
      Commitments.reputation_block_hash (Publication.block q) =
        Commitments.reputation_block_hash (Publication.block p)
  | Err (ConflictingPublication e) =>
    conflicting_publication e = p ∧
    publications c !! Publication.publisher p = Some (first_publication e) ∧
    Commitments.reputation_block_hash (Publication.block (first_publication e)) = Ok (first_hash e) ∧
    Commitments.reputation_block_hash (Publication.block p) = Ok (conflicting_hash e) ∧
    first_hash e ≠ conflicting_hash e
  | Err (AuditFailed _) => own c ≠ Some (Publication.block p)
  | Err (UnauthorizedAttester x) => x = Publication.publisher p ∧ x ∉ dom (attester_weights c)
  | Err ThresholdAlreadyReached => (required_weight c <= signed_weight c)%N
  | Err _ => False
  end.
Proof.
  intros Hc. pose proof (consistent_step _ Hc) as Hstep. rewrite observe_consistent by done.
  destruct (is_reached _) eqn:Er; [by apply bool_decide_eq_true in Er|].
  destruct (attester_weights c !! Publication.publisher p) as [w|] eqn:Ew;
    [|split; [done|by apply not_elem_of_dom]].
  destruct (hash_of p) as [h|e] eqn:Eh; cbn [result_bind].
  2:{ unfold hash_of in Eh. destruct (Commitments.reputation_block_hash _) eqn:E; [done|].
      cbn in Eh. injection Eh as <-. intros (h & Hh)%own_hash; [congruence|done]. }
  apply map_err_Ok in Eh. destruct (publications c !! Publication.publisher p) as [q|] eqn:Eq.
  - pose proof (consistent_counted _ Hc _ _ Eq) as (_ & _ & _ & Hq).
    apply own_hash in Hq as [h' Hh']; [|done]. unfold compare_previous, hash_of. rewrite Hh'.
    cbn [map_err result_bind]. case_decide as Hhh; cbn [result_bind].
    + split; [done|]. exists q. split; [done|]. congruence.
    + done.
  - destruct (audit c (Publication.block p)) as [[]|e] eqn:Ea; cbn [map_err result_bind].
    + split; [by apply audit_own|]. split; [by eapply elem_of_dom_2|done].
    + intros Ho%audit_own; [|done]. congruence.
Qed.

End attestation.
End AttestationFacts.
