(* ===== verification/AttestationTheorems.v ===== *)
(** * Theorems about attested checkpoints

    Publications are authenticated bytes; a collector counts exactly the
    publications of the block that its owner builds itself; and it attests that
    block precisely when attesters of enough weight confirmed it. *)

From S2P Require Import Prelude Types Lace Bytes Crypto Samples PorTypes PorMath PorMathFacts.
From S2P Require Import PorCommit.
From S2P Require Import PorAudit PorAuditFacts PorState PorCodec PorCodecFacts FinalOutput.
From S2P Require Import RatingFlow QuorumFacts RatingFlowFacts.
From S2P Require Import RatingRound RatingRoundFacts Attestation AttestationFacts.
From stdpp Require Import options.

Import PublicationFacts AttestationFacts.

Section attestation.
Context `{HB : Blake2b} `{HS : Secp256k1} `{HK : Secp256k1Sign}.

(** C38: publications are canonical and authenticated: the decoder returns one on
    some bytes exactly when it is authentic (valid key, block that encodes to
    the signed envelope, signature that verifies over the envelope) and the
    bytes are its encoding; the constructor accepts exactly the authentic
    publications, and signing makes one of the given block. *)
Theorem publications_are_authenticated p bytes publisher block signature key :
  (Publication.decode bytes = Ok p ↔
    authentic p ∧ typed_block (Publication.block p) ∧ bytes = Publication.encode p) ∧
  (Publication.new publisher block signature = Ok p ↔
    authentic p ∧ Publication.publisher p = publisher ∧ Publication.block p = block ∧
    Publication.publication_signature p = signature) ∧
  (Publication.sign publisher block key = Ok p →
    authentic p ∧ Publication.publisher p = publisher ∧ Publication.block p = block).
Proof. split; [apply decode_Ok|]. split; [apply publication_new_Ok|apply sign_Ok]. Qed.

(** C37: over any run of observations of authentic publications, a collector
    never panics, and it attests a checkpoint exactly when the attesters that
    published the block its owner builds itself hold more than the configured
    fraction of the weight of all attesters, whatever else was published and in
    whatever order. *)
Theorem attestation_is_exact s round cfg shard l n d policy c pubs :
  in_step round → Attestation.new_policy n d = Ok policy → fits_u64 d →
  Attestation.new s round cfg shard l policy = Ok c → Forall authentic pubs →
  Attestation.into_attested (observe_all c pubs) ≠ None ∧
  ((∃ a, Attestation.into_attested (observe_all c pubs) = Some (Ok a)) ↔
    (set_weight (weight_of s) (list_to_set l) * n <
      set_weight (weight_of s) (confirmers c pubs) * d)%N).
Proof.
  intros Hstep (-> & Hn & Hnd)%new_policy_Ok Hd Hnew Hp.
  pose proof (collector_consistent _ _ _ _ _ _ _ Hnew Hstep) as Hc.
  pose proof (collector_new_Ok _ _ _ _ _ _ _ Hnew) as (Hs & _ & _ & _ & He & _ & Ht & Hb & Hr).
  cbn in Hr. apply required_exact in Hr; [|done..].
  destruct (run_spec c pubs Hc He Hp) as (Hc' & Hin & _ & Hsub & Heq).
  pose proof (into_attested_spec _ Hc') as Hspec.
  assert (Attestation.state (observe_all c pubs) = s) as Hs' by (rewrite <-Hs; apply Hin).
  assert (Attestation.required_weight (observe_all c pubs) = Attestation.required_weight c) as Hr'
    by apply Hin.
  pose proof (consistent_signed _ Hc') as Hsg. rewrite Hs' in Hsg.
  rewrite <-Ht, <-strict_threshold, <-Hr by lia.
  destruct (Attestation.into_attested _) as [[a|e]|]; [| |done].
  - split; [done|]. split; [intros _|eauto]. destruct Hspec as [Hle _]. rewrite Hr', Hsg in Hle.
    etrans; [exact Hle|]. by apply set_weight_mono.
  - split; [done|]. split; [by intros [a [= ]]|]. intros Hle. exfalso. rewrite Hr', Hsg in Hspec.
    rewrite Heq in Hspec; [lia|]. unfold Attestation.is_reached. cbn. apply bool_decide_eq_false.
    rewrite Hr', Hsg. lia.
Qed.

(** An attested checkpoint is agreement on the honest block: it carries the
    block that the owner of the collector builds itself, so staging it is
    staging the owner's own round; its hash is the block's; and its publications
    are authentic, of distinct attesters of the given set, all of that block,
    with more than the configured fraction of the weight. *)
Theorem attested_checkpoints_are_the_own_block s round cfg shard l n d policy c pubs a :
  in_step round → Attestation.new_policy n d = Ok policy → fits_u64 d →
  Attestation.new s round cfg shard l policy = Ok c → Forall authentic pubs →
  Attestation.into_attested (observe_all c pubs) = Some (Ok a) →
  let block := Attestation.attested_block a in
  let attesters := Publication.publisher <$> Attestation.attested_publications a in
  RoundTransition.stage_attested_checkpoint round s cfg shard block =
    RoundTransition.stage_completed_reputation_round round s cfg shard ∧
  own_block s round cfg shard = Some block ∧
  Commitments.reputation_block_hash block = Ok (Attestation.block_hash a) ∧
  (∀ p, p ∈ Attestation.attested_publications a →
    p ∈ pubs ∧ authentic p ∧ Publication.publisher p ∈ l ∧ Publication.block p = block) ∧
  NoDup attesters ∧
  (set_weight (weight_of s) (list_to_set l) * n <
    set_weight (weight_of s) (list_to_set attesters) * d)%N.
Proof.
  intros Hstep (-> & Hn & Hnd)%new_policy_Ok Hd Hnew Hp Ha. cbv zeta.
  pose proof (collector_consistent _ _ _ _ _ _ _ Hnew Hstep) as Hc.
  pose proof (collector_new_Ok _ _ _ _ _ _ _ Hnew)
    as (Hs & Hrd & Hcf & Hsh & He & Hdom & Ht & Hb & Hr).
  cbn in Hr. apply required_exact in Hr; [|done..].
  destruct (run_spec c pubs Hc He Hp) as (Hc' & Hin & Hmem & _).
  pose proof (into_attested_spec _ Hc') as Hspec. rewrite Ha in Hspec.
  destruct Hspec as (Hle & Hown & Hh & Hpubs). rewrite (same_own _ _ Hin) in Hown.
  assert (own_block s round cfg shard = Some (Attestation.attested_block a)) as Hob
    by (unfold own in Hown; by rewrite Hs, Hrd, Hcf, Hsh in Hown).
  rewrite Hpubs, counted_publishers by done. split_and!.
  - by apply stage_own.
  - done.
  - done.
  - intros p Hx%elem_of_counted; [|done]. pose proof (consistent_counted _ Hc' _ _ Hx) as (H1 & _ & H2 & H3).
    split; [by eapply Hmem|]. split; [done|]. rewrite (same_own _ _ Hin) in H3. split; [|congruence].
    destruct Hin as (_ & _ & _ & _ & Hw & _). rewrite Hw, Hdom in H2. by apply elem_of_list_to_set in H2.
  - apply keys_NoDup.
  - rewrite counted_set, <-Ht, <-strict_threshold, <-Hr by lia.
    rewrite (consistent_signed _ Hc') in Hle.
    destruct Hin as (Hs' & _ & _ & _ & _ & _ & Hr'). by rewrite Hs', Hs, Hr' in Hle.
Qed.

(** What an observation reports, in any collector that a run of observations
    leads to: it counts the first publication of an attester that carries the
    own block, and only that; a conflict comes with two authentic publications
    of the attester with different block hashes, the first of them counted; an
    audit failure means another block than the own one; two audited candidates
    never compete and no weight overflows. *)
Theorem observations_are_exact s round cfg shard l policy c0 pubs p :
  in_step round → Attestation.new s round cfg shard l policy = Ok c0 → Forall authentic pubs →
  authentic p →
  let c := observe_all c0 pubs in
  match Attestation.observe c p with
  | Ok (Attestation.Counted, c') =>
    own_block s round cfg shard = Some (Publication.block p) ∧ Publication.publisher p ∈ l ∧
    Attestation.publications c !! Publication.publisher p = None ∧
    Attestation.publications c' =
      <[Publication.publisher p := p]> (Attestation.publications c) ∧
    Attestation.signed_weight c' =
      (Attestation.signed_weight c + weight_of s (Publication.publisher p))%N
  | Ok (Attestation.Duplicate, c') =>
    c' = c ∧ ∃ q, Attestation.publications c !! Publication.publisher p = Some q ∧
      Commitments.reputation_block_hash (Publication.block q) =
        Commitments.reputation_block_hash (Publication.block p)
  | Err (Attestation.ConflictingPublication e) =>
    let first := Attestation.first_publication e in
    Attestation.conflicting_publication e = p ∧ first ∈ pubs ∧ authentic first ∧
    Publication.publisher first = Publication.publisher p ∧
    own_block s round cfg shard = Some (Publication.block first) ∧
    Commitments.reputation_block_hash (Publication.block first) = Ok (Attestation.first_hash e) ∧
    Commitments.reputation_block_hash (Publication.block p) = Ok (Attestation.conflicting_hash e) ∧
    Attestation.first_hash e ≠ Attestation.conflicting_hash e
  | Err (Attestation.AuditFailed _) => own_block s round cfg shard ≠ Some (Publication.block p)
  | Err (Attestation.UnauthorizedAttester x) => x = Publication.publisher p ∧ x ∉ l
  | Err Attestation.ThresholdAlreadyReached =>
    (Attestation.required_weight c <= Attestation.signed_weight c)%N
  | Err _ => False
  end.
Proof.
  intros Hstep Hnew Hp Hauth. cbv zeta.
  pose proof (collector_consistent _ _ _ _ _ _ _ Hnew Hstep) as Hc.
  pose proof (collector_new_Ok _ _ _ _ _ _ _ Hnew) as (Hs & Hrd & Hcf & Hsh & He & Hdom & _).
  destruct (run_spec c0 pubs Hc He Hp) as (Hc' & Hin & Hmem & _).
  assert (own (observe_all c0 pubs) = own_block s round cfg shard) as Ho
    by (rewrite (same_own _ _ Hin); unfold own; by rewrite Hs, Hrd, Hcf, Hsh).
  assert (dom (Attestation.attester_weights (observe_all c0 pubs)) = list_to_set l) as Hd
    by (destruct Hin as (_ & _ & _ & _ & -> & _); done).
  assert (Attestation.state (observe_all c0 pubs) = s) as Hs' by (rewrite <-Hs; apply Hin).
  revert Hc' Hmem Ho Hd Hs'. generalize (observe_all c0 pubs). intros c Hc' Hmem Ho Hd Hs'.
  pose proof (observation_spec c p Hc') as Hspec. rewrite Ho, Hd, Hs' in Hspec.
  destruct (Attestation.observe c p) as [[[] c']|[]]; try done.
  - destruct Hspec as (? & ?%elem_of_list_to_set & ?). done.
  - destruct Hspec as [-> Hx]. split; [done|]. by rewrite <-(elem_of_list_to_set (C := gset NodeId)).
  - destruct Hspec as (E & Hq & H1 & H2 & H3).
    pose proof (consistent_counted _ Hc' _ _ Hq) as (Hf & Hpub & _ & Hown). rewrite Ho in Hown.
    by pose proof (Hmem _ _ Hq).
Qed.

End attestation.

(** ** Instances: the round of the sample validators, confirmed by both *)

#[local] Existing Instance elements_order.
#[local] Existing Instance sample_hash.
#[local] Existing Instance sample_scheme.
#[local] Existing Instance sample_sign.

Definition sample_block : ReputationBlock :=
  match RoundTransition.stage_completed_reputation_round RatingSample.completed
    RatingSample.state RatingSample.config [xff] with
  | Ok (_, applied) => RoundTransition.applied_block applied
  | Err _ => mkReputationBlock (mkHeader 0 [] 0 None 0 None (vreplicate 32 x00) (vreplicate 32 x00)
      (vreplicate 32 x00) (vreplicate 32 x00)) (mkList 0 [])
  end.
Definition no_publication : Publication.t := Publication.mk [] sample_block [] [].
Definition published (x : NodeId) : Publication.t :=
  or_default no_publication (Publication.sign x sample_block []).
Definition sample_attesters : list NodeId := [RatingSample.a; RatingSample.b].
Definition no_collector : Attestation.t :=
  Attestation.mk RatingSample.state RatingSample.completed RatingSample.config [xff] ∅ 0 0 0 None
    None ∅.
Definition sample_collector : Attestation.t :=
  or_default no_collector (Attestation.new RatingSample.state RatingSample.completed
    RatingSample.config [xff] sample_attesters Attestation.default_policy).

Lemma published_Ok x :
  is_ok (Publication.sign x sample_block []) = true →
  Publication.sign x sample_block [] = Ok (published x).
Proof. apply or_default_Ok. Qed.
Lemma published_a : Publication.sign RatingSample.a sample_block [] = Ok (published RatingSample.a).
Proof. apply published_Ok. vm_compute. reflexivity. Qed.
Lemma published_b : Publication.sign RatingSample.b sample_block [] = Ok (published RatingSample.b).
Proof. apply published_Ok. vm_compute. reflexivity. Qed.

Lemma sample_new :
  Attestation.new RatingSample.state RatingSample.completed RatingSample.config [xff]
    sample_attesters Attestation.default_policy = Ok sample_collector.
Proof. apply (or_default_Ok no_collector). vm_compute. reflexivity. Qed.
Lemma sample_in_step : in_step RatingSample.completed.
Proof. unfold in_step. vm_compute. reflexivity. Qed.

Definition sample_publications : list Publication.t :=
  [published RatingSample.b; published RatingSample.a].
Lemma sample_authentic : Forall authentic sample_publications.
Proof.
  apply Forall_cons. split; [apply (sign_Ok _ _ _ _ published_b)|].
  apply Forall_singleton, (sign_Ok _ _ _ _ published_a).
Qed.

Definition attests (r : option (result Attestation.AttestedPorCheckpoint
    Attestation.PorCheckpointError)) : bool :=
  match r with Some (Ok _) => true | _ => false end.
Lemma sample_attests :
  attests (Attestation.into_attested (observe_all sample_collector sample_publications)) = true.
Proof. vm_compute. reflexivity. Qed.

Lemma publications_are_authenticated_witness :
  authentic (published RatingSample.a) ∧
  Publication.publisher (published RatingSample.a) = RatingSample.a ∧
  Publication.block (published RatingSample.a) = sample_block.
Proof.
  apply (publications_are_authenticated (published RatingSample.a) [] RatingSample.a sample_block [] []).
  exact published_a.
Defined.

Lemma attestation_is_exact_witness :
  ∃ a, Attestation.into_attested (observe_all sample_collector sample_publications) = Some (Ok a).
Proof.
  apply (proj2 (attestation_is_exact _ _ _ _ _ 2 3 Attestation.default_policy _ _
    sample_in_step eq_refl ltac:(decided) sample_new sample_authentic)).
  decided.
Defined.

Lemma attested_checkpoints_are_the_own_block_witness :
  ∃ a, Attestation.into_attested (observe_all sample_collector sample_publications) = Some (Ok a) ∧
    own_block RatingSample.state RatingSample.completed RatingSample.config [xff] =
      Some (Attestation.attested_block a).
Proof.
  pose proof sample_attests as Ha.
  destruct (Attestation.into_attested (observe_all sample_collector sample_publications))
    as [[a|]|] eqn:E; [|done..]. exists a. split; [reflexivity|].
  apply (attested_checkpoints_are_the_own_block _ _ _ _ _ 2 3 Attestation.default_policy _ _ _
    sample_in_step eq_refl ltac:(decided) sample_new sample_authentic E).
Defined.

Definition counted (r : result (Attestation.PorCheckpointObservation * Attestation.t)
    Attestation.PorCheckpointError) : bool :=
  match r with Ok (Attestation.Counted, _) => true | _ => false end.
Lemma sample_counted :
  counted (Attestation.observe (observe_all sample_collector [published RatingSample.b])
    (published RatingSample.a)) = true.
Proof. vm_compute. reflexivity. Qed.

Lemma observations_are_exact_witness :
  own_block RatingSample.state RatingSample.completed RatingSample.config [xff] =
    Some (Publication.block (published RatingSample.a)).
Proof.
  pose proof sample_authentic as Hp. apply Forall_cons in Hp as [Hb Ha]. apply Forall_cons in Ha as [Ha _].
  pose proof (observations_are_exact _ _ _ _ _ Attestation.default_policy _ [published RatingSample.b]
    (published RatingSample.a) sample_in_step sample_new (proj2 (Forall_singleton _ _) Hb) Ha) as H.
  cbv zeta in H. pose proof sample_counted as Hc. revert Hc H.
  generalize (Attestation.observe (observe_all sample_collector [published RatingSample.b])
    (published RatingSample.a)).
  generalize (observe_all sample_collector [published RatingSample.b]).
  generalize (own_block RatingSample.state RatingSample.completed RatingSample.config [xff]).
  intros own c r Hr H. destruct r as [[[] c']|]; [exact (proj1 H)|discriminate Hr..].
Defined.
