(* ===== verification/Durable.v ===== *)
(** * Durable reputation state

    [por/history.rs], [por/activation.rs] and the storage side of
    [por/persistence.rs] of cordial-f1r3node-adapter: the files a node keeps of
    its reputation state, how a round is committed to them, and how a start
    reads them back.  Any file operation may be the one that fails, or the last
    one before the process stops. *)

From S2P Require Import Prelude Types Bytes Payload RatingFlow Collector RatingRound.
From S2P Require Import Authorization.
From S2P Require Import Attestation PorTypes PorMath PorCommit PorAudit PorState PorCodec.
From stdpp Require Import options.

(** ** File operations

    The standard library's file operations on the two directories that are
    used, [<data_dir>/por] and [<data_dir>/por/reputation-blocks].  File names
    are UTF-8 and entries are regular files.  What is not synced may be lost: the
    content of a file that was not synced, and the changes of a directory since
    it was synced. *)

Module FileSystem.

Inductive IoError := NotFound | AlreadyExists | Failure.

Inductive directory := Por | Blocks.

Record file := mkFile { content : list byte; flushed : bool }.
Abbreviation entries_of_directory := (gmap (list byte) file).

Record disk := mkDisk { por_files : entries_of_directory; block_files : entries_of_directory }.

Definition listing (dir : directory) (d : disk) : entries_of_directory :=
  match dir with Por => por_files d | Blocks => block_files d end.
Definition with_listing (dir : directory) (d : disk) (l : entries_of_directory) : disk :=
  match dir with Por => mkDisk l (block_files d) | Blocks => mkDisk (por_files d) l end.

(** The directories as they are seen and as they were synced; how many
    operations of the process are left before one fails ([None]: all succeed),
    after which no other succeeds; how much of an unfinished write reaches the
    disk. *)
Record machine := mkMachine {
  files : disk;
  synced : disk;
  budget : option nat;
  torn : nat
}.

(** What is left without power: a directory with or without the changes since its
    sync, files that were not synced with a part of their content. *)
Definition settle (torn : nat) (l : entries_of_directory) : entries_of_directory :=
  (λ f, if flushed f then f else mkFile (take torn (content f)) true) <$> l.
Definition mixed (lost : directory → bool) (m : machine) : disk :=
  mkDisk (por_files (if lost Por then synced m else files m))
    (block_files (if lost Blocks then synced m else files m)).
Definition stop (lost : directory → bool) (m : machine) : disk :=
  let d := mixed lost m in
  mkDisk (settle (torn m) (por_files d)) (settle (torn m) (block_files d)).

(** A machine that was turned on, and a process that starts on a machine: it sees
    what the processes before it left, synced or not. *)
Definition boot (d : disk) : machine := mkMachine d d None 0.
Definition start (m : machine) (budget : option nat) (torn : nat) : machine :=
  mkMachine (files m) (synced m) budget torn.

(** How a process ends: alone, and then the machine keeps what it did, or with
    the machine. *)
Inductive ending := Killed | PowerLost (lost : directory → bool).
Definition after (e : ending) (m : machine) : machine :=
  match e with Killed => m | PowerLost lost => boot (stop lost m) end.

Definition io (E A : Type) : Type := machine → result A E * machine.

Definition io_ret {E A} (x : A) : io E A := λ m, (Ok x, m).
Definition io_bind {E A B} (c : io E A) (k : A → io E B) : io E B := λ m,
  match c m with (Ok x, m) => k x m | (Err e, m) => (Err e, m) end.
Definition io_lift {E A} (r : result A E) : io E A := λ m, (r, m).
Definition io_map_err {E F A} (f : E → F) (c : io E A) : io F A := λ m,
  let '(r, m) := c m in (map_err f r, m).
Notation "'perform' x := c 'in' k" := (io_bind c (λ x, k))
  (at level 200, x pattern, c at level 100, k at level 200).

(** An operation: its effect on what is seen and what is synced, and what a
    failure leaves of it. *)
Definition operation {A} (effect : disk → disk → result (A * disk * disk) IoError)
    (partial : nat → disk → disk) : io IoError A := λ m,
  match budget m with
  | Some O => (Err Failure, mkMachine (partial (torn m) (files m)) (synced m) (Some O) (torn m))
  | remaining_ops =>
    match effect (files m) (synced m) with
    | Ok (x, d, sync) => (Ok x, mkMachine d sync (pred <$> remaining_ops) (torn m))
    | Err e => (Err e, mkMachine (files m) (synced m) (pred <$> remaining_ops) (torn m))
    end
  end.
Definition unchanged (torn : nat) (d : disk) : disk := d.
Definition change (dir : directory) (f : entries_of_directory → result entries_of_directory IoError) :
    io IoError unit :=
  operation (λ d sync, let? l := f (listing dir d) in Ok (tt, with_listing dir d l, sync)) unchanged.
Definition query {A} (f : disk → A) : io IoError A :=
  operation (λ d sync, Ok (f d, d, sync)) unchanged.

(** [create_dir_all], and [sync_all] of the data directory: the two directories
    are there since the first start. *)
Definition prepare : io IoError unit := query (λ _, tt).
(** [sync_all] of a file and of a directory. *)
Definition sync_file dir name : io IoError unit :=
  change dir (λ l, let? f := ok_or (l !! name) NotFound in
    Ok (<[name := mkFile (content f) true]> l)).
Definition sync_directory dir : io IoError unit :=
  operation (λ d sync, Ok (tt, d, with_listing dir sync (listing dir d))) unchanged.
(** [create(true).truncate(true)] and [create_new(true)]. *)
Definition create_truncate dir name : io IoError unit :=
  change dir (λ l, Ok (<[name := mkFile [] false]> l)).
Definition create_new dir name : io IoError unit :=
  change dir (λ l, if l !! name then Err AlreadyExists else Ok (<[name := mkFile [] false]> l)).
Definition write_all dir name (bytes : list byte) : io IoError unit :=
  let written bytes d := with_listing dir d (<[name := mkFile bytes false]> (listing dir d)) in
  operation (λ d sync, Ok (tt, written bytes d, sync)) (λ torn d, written (take torn bytes) d).
Definition rename dir (from to : list byte) : io IoError unit :=
  change dir (λ l, let? f := ok_or (l !! from) NotFound in Ok (<[to := f]> (delete from l))).
Definition hard_link dir (from to : list byte) : io IoError unit :=
  change dir (λ l, let? f := ok_or (l !! from) NotFound in
    if l !! to then Err AlreadyExists else Ok (<[to := f]> l)).
Definition remove_file dir name : io IoError unit :=
  change dir (λ l, if l !! name then Ok (delete name l) else Err NotFound).
(** [File::open] and [read_to_end]; [None] when there is no such file. *)
Definition read_file dir name : io IoError (option (list byte)) :=
  query (λ d, content <$> listing dir d !! name).
Definition exists_file dir name : io IoError bool :=
  query (λ d, bool_decide (is_Some (listing dir d !! name))).
Definition read_dir `{HashOrder} dir : io IoError (list (list byte)) :=
  query (λ d, hash_iter (dom (listing dir d))).

(** Both stores replace their file this way. *)
Definition replace_file (temporary target bytes : list byte) : io IoError unit :=
  perform _ := create_truncate Por temporary in
  perform _ := write_all Por temporary bytes in
  perform _ := sync_file Por temporary in
  perform _ := rename Por temporary target in
  sync_directory Por.

End FileSystem.
Import FileSystem.

(** ** [history.rs] *)

Module History.

Definition REPUTATION_BLOCK_FILE_PREFIX : list byte := literal "reputation-block-".
Definition REPUTATION_BLOCK_FILE_SUFFIX : list byte := literal ".bin".
Definition REPUTATION_BLOCK_ROUND_DIGITS : nat := 20.
Definition LEGACY_REPUTATION_BLOCK_TEMP_FILE_NAME : list byte :=
  literal ".reputation-block.bin.tmp".
Definition REPUTATION_BLOCK_TEMP_FILE_PREFIX : list byte := literal ".reputation-block-".
Definition REPUTATION_BLOCK_TEMP_FILE_SUFFIX : list byte := literal ".bin.tmp".

Inductive PorReputationBlockAppendOutcome := Appended | AlreadyPresent.

Inductive PorReputationBlockHistoryError :=
  | HistoryIo (error : IoError)
  | InvalidBlock (error : PorError)
  | InvalidFileName (name : list byte)
  | FileRoundMismatch (file_round block_round : N)
  | NonConsecutiveRound (expected actual : N)
  | RoundOverflow (round : N)
  | ShardMismatch
  | PreviousHashMismatch
  | FirstBlockHasPredecessor
  | ConflictingRound (round : N)
  | HistoryRecoveryRequired
  | HistoryAheadOfState (history_round : N)
  | StateHistoryTipMismatch (state_round history_round : N).

(** [RecoveredHistory]: what is kept in memory of the retained blocks. *)
Record t := mk { tip : option ReputationBlock; history_len : nat; recovery_required : bool }.

(** *** File names *)

(** [{round:020}]: a [u64] has at most twenty digits. *)
Fixpoint decimal (digits : nat) (x : N) : list byte :=
  match digits with
  | O => []
  | S digits => decimal digits (x / 10) ++ [byte_of_N (48 + x mod 10)]
  end.
Definition is_ascii_digit (b : byte) : bool := bool_decide (48 <= Byte.to_N b <= 57)%N.
Definition digits_value (l : list byte) : N :=
  foldl (λ acc b, acc * 10 + (Byte.to_N b - 48))%N 0%N l.
(** [slice::strip_suffix]. *)
Definition strip_suffix (suffix bytes : list byte) : option (list byte) :=
  reverse <$> Payload.strip_prefix (reverse suffix) (reverse bytes).

Definition round_digits (digits : list byte) : bool :=
  bool_decide (length digits = REPUTATION_BLOCK_ROUND_DIGITS) && forallb is_ascii_digit digits.
Definition is_reputation_block_temp_file_name (name : list byte) : bool :=
  if decide (name = LEGACY_REPUTATION_BLOCK_TEMP_FILE_NAME) then true
  else
    match rest ← Payload.strip_prefix REPUTATION_BLOCK_TEMP_FILE_PREFIX name;
          strip_suffix REPUTATION_BLOCK_TEMP_FILE_SUFFIX rest with
    | None => false
    | Some digits => round_digits digits
    end.
Definition reputation_block_file_name (round : N) : list byte :=
  REPUTATION_BLOCK_FILE_PREFIX ++ decimal REPUTATION_BLOCK_ROUND_DIGITS round ++
  REPUTATION_BLOCK_FILE_SUFFIX.
Definition reputation_block_temp_file_name (round : N) : list byte :=
  REPUTATION_BLOCK_TEMP_FILE_PREFIX ++ decimal REPUTATION_BLOCK_ROUND_DIGITS round ++
  REPUTATION_BLOCK_TEMP_FILE_SUFFIX.
Definition parse_reputation_block_file_name (name : list byte) : option N :=
  rest ← Payload.strip_prefix REPUTATION_BLOCK_FILE_PREFIX name;
  digits ← strip_suffix REPUTATION_BLOCK_FILE_SUFFIX rest;
  if round_digits digits
  then if decide (digits_value digits <= u64_max)%N then Some (digits_value digits) else None
  else None.

Section history.
Context `{HashOrder} `{Blake2b}.

(** *** Reading *)

Definition parse_block_file (file_round : N) (encoded : list byte) :
    result ReputationBlock PorReputationBlockHistoryError :=
  bail (InvalidBlock ReputationBlockWireTooLarge) when (MAX_REPUTATION_BLOCK_WIRE_LEN < len encoded)%N;
  let? block := map_err InvalidBlock (BlockWire.decode_reputation_block encoded) in
  bail (FileRoundMismatch file_round (header_round (header block)))
    when header_round (header block) ≠ file_round;
  Ok block.
Definition read_block_file (name : list byte) (file_round : N) :
    io PorReputationBlockHistoryError ReputationBlock :=
  perform encoded := io_map_err HistoryIo (read_file Blocks name) in
  io_lift (let? encoded := ok_or encoded (HistoryIo NotFound) in parse_block_file file_round encoded).

Definition validate_successor (previous next : ReputationBlock) :
    result unit PorReputationBlockHistoryError :=
  let? expected_round := ok_or (checked_add u64_max (header_round (header previous)) 1)
    (RoundOverflow (header_round (header previous))) in
  bail (NonConsecutiveRound expected_round (header_round (header next)))
    when header_round (header next) ≠ expected_round;
  bail ShardMismatch when shard_id (header next) ≠ shard_id (header previous);
  let? hash := map_err InvalidBlock (Commitments.reputation_block_hash previous) in
  bail PreviousHashMismatch when previous_reputation_hash (header next) ≠ Some hash;
  Ok tt.

(** *** Opening *)

Fixpoint remove_temporary (names : list (list byte)) (removed : bool) :
    io PorReputationBlockHistoryError bool :=
  match names with
  | [] => io_ret removed
  | name :: names =>
    if is_reputation_block_temp_file_name name
    then perform _ := io_map_err HistoryIo (remove_file Blocks name) in remove_temporary names true
    else remove_temporary names removed
  end.
Definition cleanup_temporary_files : io PorReputationBlockHistoryError unit :=
  perform names := io_map_err HistoryIo (read_dir Blocks) in
  perform removed := remove_temporary names false in
  if removed : bool then io_map_err HistoryIo (sync_directory Blocks) else io_ret tt.

(** The rounds that have a file. *)
Definition retain (retained : gmap N (list byte)) (name : list byte) :
    result (gmap N (list byte)) PorReputationBlockHistoryError :=
  if is_reputation_block_temp_file_name name then Ok retained
  else
    match parse_reputation_block_file_name name with
    | None =>
      bail (InvalidFileName name)
        when starts_with REPUTATION_BLOCK_FILE_PREFIX name = true;
      Ok retained
    | Some round =>
      bail (InvalidFileName name) when is_Some (retained !! round);
      Ok (<[round := name]> retained)
    end.

Fixpoint recover_blocks (retained : list (N * list byte)) (recovered : t) :
    io PorReputationBlockHistoryError t :=
  match retained with
  | [] => io_ret recovered
  | (round, name) :: retained =>
    perform block := read_block_file name round in
    perform _ := io_lift match tip recovered with
      | Some previous => validate_successor previous block
      | None => Ok tt
      end in
    recover_blocks retained
      (mk (Some block) (S (history_len recovered)) (recovery_required recovered))
  end.
Definition recover_history : io PorReputationBlockHistoryError t :=
  perform names := io_map_err HistoryIo (read_dir Blocks) in
  perform retained := io_lift (try_fold retain ∅ names) in
  recover_blocks (btree_map_iter retained) (mk None 0 false).

Definition open : io PorReputationBlockHistoryError t :=
  perform _ := io_map_err HistoryIo prepare in
  perform _ := io_map_err HistoryIo prepare in
  perform _ := io_map_err HistoryIo (sync_directory Por) in
  perform _ := cleanup_temporary_files in
  recover_history.

Definition ensure_healthy (self : t) : result unit PorReputationBlockHistoryError :=
  bail HistoryRecoveryRequired when recovery_required self = true; Ok tt.

Definition len (self : t) : result nat PorReputationBlockHistoryError :=
  let? _ := ensure_healthy self in Ok (history_len self).
Definition is_empty (self : t) : result bool PorReputationBlockHistoryError :=
  let? len := len self in Ok (bool_decide (len = 0)).
Definition latest (self : t) : result (option ReputationBlock) PorReputationBlockHistoryError :=
  let? _ := ensure_healthy self in Ok (tip self).
Definition load (self : t) (round : N) :
    io PorReputationBlockHistoryError (option ReputationBlock) :=
  perform _ := io_lift (ensure_healthy self) in
  perform encoded := io_map_err HistoryIo (read_file Blocks (reputation_block_file_name round)) in
  match encoded with
  | None => io_ret None
  | Some encoded =>
    perform block := io_lift (parse_block_file round encoded) in io_ret (Some block)
  end.

(** *** Appending *)

Definition commit_block_file (temporary committed encoded : list byte) : io IoError unit :=
  perform _ := create_new Blocks temporary in
  perform _ := write_all Blocks temporary encoded in
  perform _ := sync_file Blocks temporary in
  perform _ := hard_link Blocks temporary committed in
  perform _ := remove_file Blocks temporary in
  sync_directory Blocks.

Definition existing_outcome (block : ReputationBlock) :
    io PorReputationBlockHistoryError PorReputationBlockAppendOutcome :=
  let round := header_round (header block) in
  perform existing := read_block_file (reputation_block_file_name round) round in
  io_lift (if decide (existing = block) then Ok AlreadyPresent else Err (ConflictingRound round)).

(** Everything before the block is written to its file. *)
Definition admit_block (self : t) (block : ReputationBlock) (allow_checkpoint : bool) :
    io PorReputationBlockHistoryError (option PorReputationBlockAppendOutcome) :=
  let round := header_round (header block) in
  perform _ := io_lift (ensure_healthy self) in
  perform behind := io_lift match tip self with
    | Some tip =>
      if decide (round <= header_round (header tip))%N then Ok true
      else let? _ := validate_successor tip block in Ok false
    | None =>
      bail FirstBlockHasPredecessor
        when is_Some (previous_reputation_hash (header block)) ∧ allow_checkpoint = false;
      Ok false
    end in
  perform exists_already := (if behind : bool then io_ret true
    else io_map_err HistoryIo (exists_file Blocks (reputation_block_file_name round))) in
  if exists_already : bool then perform outcome := existing_outcome block in io_ret (Some outcome)
  else io_ret None.

(** The outcome and the history after it: a failed write closes it. *)
Definition append_inner (self : t) (block : ReputationBlock) (allow_checkpoint : bool) :
    machine → result PorReputationBlockAppendOutcome PorReputationBlockHistoryError * t * machine :=
  λ m,
  let round := header_round (header block) in
  match map_err InvalidBlock (BlockWire.encode_reputation_block block) with
  | Err e => (Err e, self, m)
  | Ok encoded =>
    match admit_block self block allow_checkpoint m with
    | (Err e, m) => (Err e, self, m)
    | (Ok (Some outcome), m) => (Ok outcome, self, m)
    | (Ok None, m) =>
      match commit_block_file (reputation_block_temp_file_name round)
              (reputation_block_file_name round) encoded m with
      | (Err e, m) => (Err (HistoryIo e), mk (tip self) (history_len self) true, m)
      | (Ok _, m) => (Ok Appended, mk (Some block) (S (history_len self)) (recovery_required self), m)
      end
    end
  end.
Definition append (self : t) (block : ReputationBlock) := append_inner self block false.

Definition reconcile_state_tip (self : t) (state_tip : option ReputationBlock) :
    machine → result unit PorReputationBlockHistoryError * t * machine := λ m,
  match latest self with
  | Err e => (Err e, self, m)
  | Ok history_tip =>
    let drop_outcome '(r, self, m) := (let? _ := r in Ok tt, self, m) in
    match history_tip, state_tip with
    | None, None => (Ok tt, self, m)
    | None, Some block => drop_outcome (append_inner self block true m)
    | Some history, None => (Err (HistoryAheadOfState (header_round (header history))), self, m)
    | Some history, Some state =>
      if decide (history = state) then (Ok tt, self, m)
      else if decide (checked_add u64_max (header_round (header history)) 1 =
                      Some (header_round (header state)))
      then drop_outcome (append_inner self state false m)
      else (Err (StateHistoryTipMismatch (header_round (header state))
                  (header_round (header history))), self, m)
    end
  end.

End history.
End History.

(** ** [activation.rs] *)

Module Activation.

Definition POR_WEIGHT_ACTIVATION_FILE_NAME : list byte := literal "weight-activation.bin".
Definition POR_WEIGHT_ACTIVATION_TEMP_FILE_NAME : list byte :=
  literal ".weight-activation.bin.tmp".
Definition POR_WEIGHT_ACTIVATION_MAGIC : list byte := literal "cordial-por-weight-activation".
Definition POR_WEIGHT_ACTIVATION_VERSION : N := 2.
Definition POR_WEIGHT_ACTIVATION_CHECKSUM_DOMAIN : list byte :=
  literal "cordial-por:weight-activation-record:v2".
Definition POR_WEIGHT_COMMITMENT_DOMAIN : list byte :=
  literal "cordial-por:authorized-weight-map:v1".
Definition MAX_POR_WEIGHT_ACTIVATION_RECORD_LEN : N := Snapshot.MAX_REPUTATION_STATE_SNAPSHOT_LEN.

Inductive PorWeightActivationStoreError :=
  | ActivationIo (error : IoError)
  | MalformedRecord
  | RecordTooLarge (actual maximum : N)
  | ProjectionCommitmentMismatch
  | UnsupportedVersion (version : N)
  | ChecksumMismatch.

(** [checkpoint_hash] and [source_finalized_wave] are constructed together, as
    the code says where it encodes them; here they are one pair. *)
Record t := mk {
  reputation_round : N;
  checkpoint : option (Hash32 * N);
  weights : gmap NodeId N;
  weights_commitment : Hash32
}.

Definition entry_bytes (entry : NodeId * N) : list byte :=
  be64 (len entry.1) ++ entry.1 ++ be64 entry.2.
(** The sorted map with its length: what a commitment and a record contain. *)
Definition weights_bytes (weights : gmap NodeId N) : list byte :=
  be64 (N.of_nat (size weights)) ++ mjoin (entry_bytes <$> btree_map_iter weights).

Section activation.
Context `{Blake2b}.

Definition authorized_weight_commitment (weights : gmap NodeId N) : Hash32 :=
  blake2b256 (POR_WEIGHT_COMMITMENT_DOMAIN ++ weights_bytes weights).

Definition checkpoint_of (state : ReputationState.t) : result (option (Hash32 * N)) PorError :=
  match ReputationState.latest_block state with
  | Some block =>
    let? hash := Commitments.reputation_block_hash block in
    Ok (Some (hash, header_source_finalized_wave (header block)))
  | None => Ok None
  end.
Definition from_state_and_weights (state : ReputationState.t) (weights : gmap NodeId N) :
    result t PorError :=
  let? checkpoint := checkpoint_of state in
  Ok (mk (ReputationState.current_round state) checkpoint weights
        (authorized_weight_commitment weights)).

Definition matches_state_checkpoint (self : t) (state : ReputationState.t) : result bool PorError :=
  if decide (reputation_round self ≠ ReputationState.current_round state) then Ok false
  else
    let? expected := checkpoint_of state in
    Ok (bool_decide (checkpoint self = expected)).

Definition checkpoint_bytes (checkpoint : option (Hash32 * N)) : list byte :=
  match checkpoint with
  | Some (hash, source_wave) => x01 :: vec_to_list hash ++ be64 source_wave
  | None => [x00]
  end.
Definition payload_bytes (record : t) : list byte :=
  be64 (reputation_round record) ++ checkpoint_bytes (checkpoint record) ++
  vec_to_list (weights_commitment record) ++ weights_bytes (weights record).
Definition with_checksum (encoded : list byte) : list byte :=
  encoded ++ vec_to_list (blake2b256 (POR_WEIGHT_ACTIVATION_CHECKSUM_DOMAIN ++ encoded)).
Definition encode_activation_record (record : t) : list byte :=
  let payload := payload_bytes record in
  with_checksum (POR_WEIGHT_ACTIVATION_MAGIC ++ be_bytes 2 POR_WEIGHT_ACTIVATION_VERSION ++
    be64 (len payload) ++ payload).

(** *** Decoding *)

Definition take_u64 : parser PorWeightActivationStoreError N := read_uint MalformedRecord 8.
Definition take_len (maximum : N) : parser PorWeightActivationStoreError N :=
  read value := take_u64 in
  if decide (maximum < value)%N then parse_fail MalformedRecord else parse_ret value.
Definition read_checkpoint : parser PorWeightActivationStoreError (option (Hash32 * N)) :=
  read present := read_discriminant MalformedRecord in
  if present : bool then
    read hash := read_hash MalformedRecord in
    read source_wave := take_u64 in
    parse_ret (Some (hash, source_wave))
  else parse_ret None.

(** The loop over the entries: the previous key, the map and the total. *)
Fixpoint read_weights (count : nat) (previous : option NodeId) (weights : gmap NodeId N)
    (total_weight : N) : parser PorWeightActivationStoreError (gmap NodeId N * N) :=
  match count with
  | O => parse_ret (weights, total_weight)
  | S count =>
    read node_id_len := take_len Snapshot.MAX_REPUTATION_STATE_NODE_ID_LEN in
    read node_id := read_exact MalformedRecord (N.to_nat node_id_len) in
    if Snapshot.not_after previous node_id then parse_fail MalformedRecord
    else
      read weight := take_u64 in
      read_weights count (Some node_id) (<[node_id := weight]> weights) (total_weight + weight)
  end.

Definition read_payload : parser PorWeightActivationStoreError (t * N) :=
  read reputation_round := take_u64 in
  read checkpoint := read_checkpoint in
  read weights_commitment := read_hash MalformedRecord in
  read entry_count := take_len Snapshot.MAX_REPUTATION_STATE_ENTRIES in
  if decide (entry_count = 0%N) then parse_fail MalformedRecord else
  read weights := read_weights (N.to_nat entry_count) None ∅ 0 in
  parse_ret (mk reputation_round checkpoint weights.1 weights_commitment, weights.2).

(** The envelope up to the checksum, and the payload in it. *)
Definition read_envelope (encoded : list byte) :
    result (list byte) PorWeightActivationStoreError :=
  let magic_len := length POR_WEIGHT_ACTIVATION_MAGIC in
  let header_len := magic_len + 2 + 8 in
  bail MalformedRecord when length encoded < header_len + CHECKSUM_LEN ∨
    take magic_len encoded ≠ POR_WEIGHT_ACTIVATION_MAGIC;
  let version := of_be (take 2 (drop magic_len encoded)) in
  bail (UnsupportedVersion version) when version ≠ POR_WEIGHT_ACTIVATION_VERSION;
  let payload_len := of_be (take 8 (drop (magic_len + 2) encoded)) in
  let? checksum_offset := ok_or (checked_add u64_max (N.of_nat header_len) payload_len)
    MalformedRecord in
  let? expected_len := ok_or (checked_add u64_max checksum_offset (N.of_nat CHECKSUM_LEN))
    MalformedRecord in
  bail MalformedRecord when len encoded ≠ expected_len;
  bail ChecksumMismatch when with_checksum (take (N.to_nat checksum_offset) encoded) ≠ encoded;
  Ok (drop header_len (take (N.to_nat checksum_offset) encoded)).

Definition decode_activation_record (encoded : list byte) :
    result t PorWeightActivationStoreError :=
  let? payload := read_envelope encoded in
  let? parsed := read_payload payload in
  let '(record, total_weight) := parsed.1 in
  bail MalformedRecord when parsed.2 ≠ [] ∨ total_weight = 0%N;
  bail ProjectionCommitmentMismatch
    when authorized_weight_commitment (weights record) ≠ weights_commitment record;
  Ok record.

(** *** The store *)

Definition open : io PorWeightActivationStoreError unit :=
  perform _ := io_map_err ActivationIo prepare in io_map_err ActivationIo prepare.

Definition restore : io PorWeightActivationStoreError (option t) :=
  perform encoded := io_map_err ActivationIo (read_file Por POR_WEIGHT_ACTIVATION_FILE_NAME) in
  match encoded with
  | None => io_ret None
  | Some encoded =>
    perform record := io_lift
      (bail MalformedRecord when (MAX_POR_WEIGHT_ACTIVATION_RECORD_LEN < len encoded)%N;
       decode_activation_record encoded) in
    io_ret (Some record)
  end.

Definition persist (record : t) : io PorWeightActivationStoreError unit :=
  let encoded := encode_activation_record record in
  perform _ := io_lift
    (bail (RecordTooLarge (len encoded) MAX_POR_WEIGHT_ACTIVATION_RECORD_LEN)
       when (MAX_POR_WEIGHT_ACTIVATION_RECORD_LEN < len encoded)%N; Ok tt) in
  io_map_err ActivationIo (replace_file POR_WEIGHT_ACTIVATION_TEMP_FILE_NAME
    POR_WEIGHT_ACTIVATION_FILE_NAME encoded).

End activation.
End Activation.

(** ** [persistence.rs] *)

Module StateStore.

Definition POR_STATE_FILE_NAME : list byte := literal "reputation-state.bin".
Definition POR_STATE_TEMP_FILE_NAME : list byte := literal ".reputation-state.bin.tmp".

Inductive PorStateStoreError :=
  | StoreIo (error : IoError)
  | InvalidSnapshot (error : PorError).

Section store.
Context `{Blake2b}.

Definition open : io PorStateStoreError unit :=
  perform _ := io_map_err StoreIo prepare in io_map_err StoreIo prepare.

Definition persist (state : ReputationState.t) : io PorStateStoreError unit :=
  perform encoded := io_lift (map_err InvalidSnapshot
    (Snapshot.encode_reputation_state_snapshot state)) in
  io_map_err StoreIo (replace_file POR_STATE_TEMP_FILE_NAME POR_STATE_FILE_NAME encoded).

Definition restore : io PorStateStoreError (option ReputationState.t) :=
  perform encoded := io_map_err StoreIo (read_file Por POR_STATE_FILE_NAME) in
  match encoded with
  | None => io_ret None
  | Some encoded =>
    perform state := io_lift
      (bail (InvalidSnapshot ReputationStateSnapshotTooLarge)
         when (Snapshot.MAX_REPUTATION_STATE_SNAPSHOT_LEN < len encoded)%N;
       map_err InvalidSnapshot (Snapshot.decode_reputation_state_snapshot encoded)) in
    io_ret (Some state)
  end.

End store.
End StateStore.

Module Durable.

Inductive DurablePorStateError :=
  | Persistence (error : StateStore.PorStateStoreError)
  | HistoryFailed (error : History.PorReputationBlockHistoryError)
  | TransitionFailed (error : PorError)
  | ActivationPersistence (error : Activation.PorWeightActivationStoreError)
  | ActivationFailed (error : PorError)
  | ActivationAheadOfState (activated_round committed_round : N)
  | ActivationCheckpointMismatch (round : N)
  | ActivationProjectionMismatch (round : N)
  | RecoveryRequired.

Record t := mk {
  history : History.t;
  live_state : ReputationState.t;
  activated_weights : option Activation.t;
  recovery_required : bool
}.

Section durable.
Context `{HashOrder} `{Blake2b}.

Definition validate_activation_record (activated : option Activation.t)
    (state : ReputationState.t) : result unit DurablePorStateError :=
  match activated with
  | None => Ok tt
  | Some activated =>
    let round := ReputationState.current_round state in
    bail (ActivationAheadOfState (Activation.reputation_round activated) round)
      when (round < Activation.reputation_round activated)%N;
    if decide (Activation.reputation_round activated = round) then
      let? matches := map_err ActivationFailed
        (Activation.matches_state_checkpoint activated state) in
      bail (ActivationCheckpointMismatch round) when matches = false;
      let? projected := map_err ActivationFailed
        (Weights.authorized_validator_weights state
           (btree_map_iter (Activation.weights activated)).*1) in
      bail (ActivationProjectionMismatch round) when projected ≠ Activation.weights activated;
      Ok tt
    else Ok tt
  end.

(** The committed state, or the initial one of a fresh directory. *)
Definition open_state (initial_state : ReputationState.t) :
    io DurablePorStateError ReputationState.t :=
  perform _ := io_map_err Persistence StateStore.open in
  perform restored := io_map_err Persistence StateStore.restore in
  match restored with
  | Some restored => io_ret restored
  | None =>
    perform _ := io_map_err Persistence (StateStore.persist initial_state) in io_ret initial_state
  end.
Definition reconciled (history : History.t) (tip : option ReputationBlock) :
    io DurablePorStateError History.t := λ m,
  let '(r, history, m) := History.reconcile_state_tip history tip m in
  (let? _ := map_err HistoryFailed r in Ok history, m).
Definition open (initial_state : ReputationState.t) : io DurablePorStateError t :=
  perform state := open_state initial_state in
  perform history := io_map_err HistoryFailed History.open in
  perform history := reconciled history (ReputationState.latest_block state) in
  perform _ := io_map_err ActivationPersistence Activation.open in
  perform activated := io_map_err ActivationPersistence Activation.restore in
  perform _ := io_lift (validate_activation_record activated state) in
  io_ret (mk history state activated false).

Definition ensure_healthy (self : t) : result unit DurablePorStateError :=
  bail RecoveryRequired when recovery_required self = true; Ok tt.

Definition state (self : t) : result ReputationState.t DurablePorStateError :=
  let? _ := ensure_healthy self in Ok (live_state self).
Definition committed_checkpoint_source (self : t) :
    result (option RatingSourceCheckpoint) DurablePorStateError :=
  let? _ := ensure_healthy self in
  Ok (block ← ReputationState.latest_block (live_state self); source_checkpoint (header block)).
Definition activated_weight_record (self : t) :
    result (option Activation.t) DurablePorStateError :=
  let? _ := ensure_healthy self in Ok (activated_weights self).

Definition has_unactivated_committed_round (self : t) : result bool DurablePorStateError :=
  let? _ := ensure_healthy self in
  match activated_weights self with
  | Some record =>
    if decide (Activation.reputation_round record =
               ReputationState.current_round (live_state self))
    then
      let? matches := map_err ActivationFailed
        (Activation.matches_state_checkpoint record (live_state self)) in
      Ok (negb matches)
    else Ok true
  | None => Ok true
  end.

(** The owner with an error that closes it, and after a published round. *)
Definition closed (self : t) (history : History.t) : t :=
  mk history (live_state self) (activated_weights self) true.

Definition commit_staged (self : t) (staged : ReputationState.t)
    (applied : RoundTransition.AppliedPorReputationRound) :
    machine → result RoundTransition.AppliedPorReputationRound DurablePorStateError * t * machine :=
  λ m,
  match StateStore.persist staged m with
  | (Err e, m) => (Err (Persistence e), closed self (history self), m)
  | (Ok _, m) =>
    match History.append (history self) (RoundTransition.applied_block applied) m with
    | (Err e, history, m) => (Err (HistoryFailed e), closed self history, m)
    | (Ok _, history, m) =>
      (Ok applied, mk history staged (activated_weights self) (recovery_required self), m)
    end
  end.

(** The three ways to a staged state. *)
Definition apply_staged (self : t)
    (stage : ReputationState.t →
      result (ReputationState.t * RoundTransition.AppliedPorReputationRound) PorError) :
    machine → result RoundTransition.AppliedPorReputationRound DurablePorStateError * t * machine :=
  λ m,
  match let? _ := ensure_healthy self in map_err TransitionFailed (stage (live_state self)) with
  | Err e => (Err e, self, m)
  | Ok (staged, applied) => commit_staged self staged applied m
  end.
Definition apply_completed_round (self : t) (completed : CompletedRound.t) (config : PorConfig.t)
    (shard_id : list byte) :=
  apply_staged self (λ state,
    RoundTransition.stage_completed_reputation_round completed state config shard_id).
Definition apply_completed_checkpoint_round (self : t) (completed : CompletedCheckpoint.t)
    (config : PorConfig.t) (shard_id : list byte) :=
  apply_staged self (λ state, stage_completed_checkpoint_round completed state config shard_id).
Definition apply_attested_checkpoint (self : t) (attested : Attestation.AttestedPorCheckpoint)
    (completed : CompletedRound.t) (config : PorConfig.t) (shard_id : list byte) :=
  apply_staged self (λ state,
    RoundTransition.stage_attested_checkpoint completed state config shard_id
      (Attestation.attested_block attested)).

End durable.
End Durable.
