(* ===== verification/DurableFacts.v ===== *)
(** * Facts about the durable reputation state

    File names, what a disk stores, and what is left of it by an operation that
    fails at any point. *)

From S2P Require Import Prelude Types Lace Bytes QuorumFacts Payload PorTypes PorMath.
From S2P Require Import PorMathFacts PorCommit PorAudit PorAuditFacts PorReplayFacts PorState.
From S2P Require Import PorCodec PorCodecFacts RatingFlow Collector RatingFlowFacts RatingRound.
From S2P Require Import RatingRoundFacts Authorization AuthorizationFacts Attestation.
From S2P Require Import AttestationFacts Durable.
From stdpp Require Import options.

Import FileSystem.

(** ** File names *)

Module NameFacts.
Import History.

Lemma digit_value x : (x < 10)%N → Byte.to_N (byte_of_N (48 + x)) = (48 + x)%N.
Proof. intros. apply byte_to_of_N. lia. Qed.

Lemma length_decimal n x : length (decimal n x) = n.
Proof.
  revert x. induction n as [|n IH]; intros x; [done|]. cbn. rewrite length_app, IH. cbn. lia.
Qed.
Lemma decimal_digits n x : forallb is_ascii_digit (decimal n x) = true.
Proof.
  revert x. induction n as [|n IH]; intros x; [done|]. cbn [decimal]. rewrite forallb_app, IH.
  cbn [forallb andb].
  assert (x mod 10 < 10)%N as Hm by (apply N.mod_upper_bound; done).
  unfold is_ascii_digit. rewrite digit_value by done. apply andb_true_iff. split; [|done]. apply bool_decide_eq_true. revert Hm. generalize (x mod 10)%N. intros k Hk. split; lia.
Qed.
Lemma digits_value_snoc l b : digits_value (l ++ [b]) = (digits_value l * 10 + (Byte.to_N b - 48))%N.
Proof. unfold digits_value. by rewrite foldl_app. Qed.
Lemma digits_decimal n x : (x < 10 ^ N.of_nat n)%N → digits_value (decimal n x) = x.
Proof.
  revert x. induction n as [|n IH]; intros x Hx; [cbn in *; lia|].
  assert (x mod 10 < 10)%N as Hm by (apply N.mod_upper_bound; done).
  cbn [decimal]. rewrite digits_value_snoc, digit_value, IH; [|..|done].
  - pose proof (N.div_mod x 10 ltac:(done)) as E. rewrite E at 3. clear E.
    revert Hm. generalize (x / 10)%N, (x mod 10)%N. intros q r Hr. lia.
  - rewrite Nat2N.inj_succ, N.pow_succ_r' in Hx. apply N.Div0.div_lt_upper_bound. lia.
Qed.
Lemma decimal_digits_value l :
  forallb is_ascii_digit l = true → decimal (length l) (digits_value l) = l.
Proof.
  induction l as [|b l IH] using rev_ind; intros Hl; [done|].
  rewrite forallb_app in Hl. apply andb_true_iff in Hl as [Hl Hb]. cbn in Hb.
  rewrite andb_true_r in Hb. apply bool_decide_eq_true in Hb.
  rewrite length_app, digits_value_snoc. cbn [length]. rewrite Nat.add_1_r. cbn [decimal].
  assert ((digits_value l * 10 + (Byte.to_N b - 48)) / 10 = digits_value l)%N as ->.
  { symmetry. apply (N.div_unique _ _ _ (Byte.to_N b - 48)); lia. }
  assert ((digits_value l * 10 + (Byte.to_N b - 48)) mod 10 = Byte.to_N b - 48)%N as ->.
  { symmetry. apply (N.mod_unique _ _ (digits_value l)); lia. }
  rewrite IH by done. replace (48 + (Byte.to_N b - 48))%N with (Byte.to_N b) by lia.
  by rewrite byte_of_to_N.
Qed.

Lemma strip_suffix_Some suffix bytes l : strip_suffix suffix bytes = Some l ↔ bytes = l ++ suffix.
Proof.
  unfold strip_suffix. rewrite fmap_Some. setoid_rewrite strip_prefix_Some. split.
  - intros (k & Hk & ->). rewrite <-(reverse_involutive bytes), Hk, reverse_app, reverse_involutive.
    done.
  - intros ->. exists (reverse l). rewrite reverse_app, reverse_involutive. done.
Qed.

Lemma round_digits_decimal x : round_digits (decimal REPUTATION_BLOCK_ROUND_DIGITS x) = true.
Proof.
  unfold round_digits. rewrite length_decimal, bool_decide_true by done. apply decimal_digits.
Qed.

(** Round and file name determine each other. *)
Lemma parse_file_name name round :
  parse_reputation_block_file_name name = Some round ↔
  name = reputation_block_file_name round ∧ (round <= u64_max)%N.
Proof.
  unfold parse_reputation_block_file_name, reputation_block_file_name. rewrite bind_Some. split.
  - intros (rest & ->%strip_prefix_Some & Hd). apply bind_Some in Hd as (digits & ->%strip_suffix_Some & Hd).
    destruct (round_digits digits) eqn:Er; [|done]. case_decide as Hle; [|done]. injection Hd as <-.
    split; [|done]. apply andb_true_iff in Er as [Hl%bool_decide_eq_true Ha]. rewrite <-Hl.
    by rewrite decimal_digits_value.
  - intros [-> Hle]. eexists. split; [apply strip_prefix_app|]. apply bind_Some. eexists.
    split; [by apply strip_suffix_Some|]. rewrite round_digits_decimal.
    rewrite digits_decimal; [by rewrite decide_True|].
    apply (N.le_lt_trans _ u64_max); [done|by vm_compute].
Qed.
Lemma parse_own_name round :
  (round <= u64_max)%N → parse_reputation_block_file_name (reputation_block_file_name round) = Some round.
Proof. intros. by apply parse_file_name. Qed.
Lemma file_name_inj x y :
  (x <= u64_max)%N → (y <= u64_max)%N →
  reputation_block_file_name x = reputation_block_file_name y → x = y.
Proof. intros Hx Hy E. apply parse_own_name in Hx, Hy. rewrite E in Hx. congruence. Qed.

Lemma file_name_not_temp round :
  is_reputation_block_temp_file_name (reputation_block_file_name round) = false.
Proof.
  unfold is_reputation_block_temp_file_name. rewrite decide_False by done.
  destruct (Payload.strip_prefix _ _) as [rest|] eqn:E; [|done].
  by apply strip_prefix_Some in E.
Qed.
Lemma temp_name_temp round :
  is_reputation_block_temp_file_name (reputation_block_temp_file_name round) = true.
Proof.
  unfold is_reputation_block_temp_file_name, reputation_block_temp_file_name.
  case_decide; [done|]. rewrite strip_prefix_app. cbn [mbind option_bind].
  rewrite (proj2 (strip_suffix_Some _ _ _) eq_refl). apply round_digits_decimal.
Qed.
Lemma file_name_ne_temp round round' :
  reputation_block_file_name round ≠ reputation_block_temp_file_name round'.
Proof. intros E. pose proof (file_name_not_temp round). by rewrite E, temp_name_temp in *. Qed.

End NameFacts.

(** ** Runs of file operations *)

Module IoFacts.

Implicit Types (l : entries_of_directory) (m : machine).

(** A run that cannot fail by itself. *)
Definition fault_free m : Prop := budget m = None.

(** The listings of a directory that a stop may leave. *)
Definition seen dir m l : Prop := l = listing dir (files m) ∨ l = listing dir (synced m).

(** Nothing new may be left, and what is read is the same. *)
Definition kept m m' : Prop := files m' = files m ∧ ∀ dir l, seen dir m' l → seen dir m l.

Lemma kept_refl m : kept m m.
Proof. by split. Qed.
Lemma kept_trans m1 m2 m3 : kept m1 m2 → kept m2 m3 → kept m1 m3.
Proof. intros [E1 S1] [E2 S2]. split; [congruence|auto]. Qed.
#[export] Hint Resolve kept_refl : core.

(** The file has the old or the new bytes; only its temporary name changes
    besides. *)
Definition replaced (temporary target bytes : list byte) l l' : Prop :=
  (∀ name, name ≠ temporary → name ≠ target → l' !! name = l !! name) ∧
  (l' !! target = l !! target ∨ l' !! target = Some (mkFile bytes true)).

Ltac run_operations :=
  unfold replace_file, History.commit_block_file, io_bind, create_truncate, create_new, write_all, rename,
    hard_link, remove_file, sync_file, sync_directory, change, operation, fault_free, seen, replaced;
  cbn; simplify_map_eq; cbn.
Ltac left_over :=
  intros l' [->| ->]; first
    [ eexists; split; [left; reflexivity|split; intros; simplify_map_eq; by auto]
    | eexists; split; [right; reflexivity|split; intros; simplify_map_eq; by auto] ].

Lemma replace_file_spec temporary target bytes m r m' :
  temporary ≠ target → replace_file temporary target bytes m = (r, m') →
  (block_files (files m') = block_files (files m) ∧ ∀ l, seen Blocks m' l → seen Blocks m l) ∧
  (∀ l', seen Por m' l' → ∃ l, seen Por m l ∧ replaced temporary target bytes l l') ∧
  (r = Ok tt → ∀ l, seen Por m' l → l !! target = Some (mkFile bytes true)) ∧
  (fault_free m → r = Ok tt ∧ fault_free m').
Proof.
  intros Hne. destruct m as [[p b] [ps bs] budget torn]. run_operations.
  destruct budget as [[|[|[|[|[|n]]]]]|]; cbn; simplify_map_eq; cbn; simplify_map_eq; cbn;
    intros [= <- <-]; cbn; split_and!; try done; try left_over;
    intros; try destruct_or!; simplify_map_eq; auto.
Qed.

(** The commit of a block file. *)
Lemma commit_block_file_spec temporary committed encoded m r m' :
  temporary ≠ committed → block_files (files m) !! committed = None →
  History.commit_block_file temporary committed encoded m = (r, m') →
  (por_files (files m') = por_files (files m) ∧ ∀ l, seen Por m' l → seen Por m l) ∧
  (∀ l', seen Blocks m' l' → ∃ l, seen Blocks m l ∧ replaced temporary committed encoded l l') ∧
  (r = Ok tt → replaced temporary committed encoded (block_files (files m)) (block_files (files m')) ∧
    (∀ l, seen Blocks m' l → l = block_files (files m')) ∧
    block_files (files m') !! committed = Some (mkFile encoded true) ∧
    block_files (files m') !! temporary = None) ∧
  (fault_free m → block_files (files m) !! temporary = None → r = Ok tt ∧ fault_free m').
Proof.
  intros Hne. destruct m as [[p b] [ps bs] budget torn]. cbn [files block_files por_files].
  destruct (b !! temporary) as [old|] eqn:Et; intros Hc; run_operations.
  - destruct budget as [[|n]|]; cbn; rewrite ?Et; cbn; intros [= <- <-]; cbn; split_and!; try done;
      left_over.
  - destruct budget as [[|[|[|[|[|[|n]]]]]]|]; cbn; rewrite ?Et; cbn; simplify_map_eq; cbn;
      rewrite ?lookup_insert_ne by done; rewrite ?Hc; cbn; simplify_map_eq; cbn;
      intros [= <- <-]; cbn; split_and!; try done; try left_over;
      intros; try destruct_or!; simplify_map_eq; split_and!; intros; try destruct_or!; simplify_map_eq; auto.
Qed.

(** Outside the temporary files, listings are the same. *)
Definition agree l l' : Prop :=
  ∀ name, History.is_reputation_block_temp_file_name name = false → l' !! name = l !! name.

Lemma remove_temporary_spec names removed m r m' :
  NoDup names → (∀ name, name ∈ names → is_Some (block_files (files m) !! name)) →
  History.remove_temporary names removed m = (r, m') →
  (por_files (files m') = por_files (files m) ∧ ∀ l, seen Por m' l → seen Por m l) ∧
  (∀ l', seen Blocks m' l' → ∃ l, seen Blocks m l ∧ agree l l') ∧
  agree (block_files (files m)) (block_files (files m')) ∧
  (∀ name, block_files (files m) !! name = None → block_files (files m') !! name = None) ∧
  (fault_free m → is_ok r = true ∧ fault_free m' ∧
    ∀ name, name ∈ names → History.is_reputation_block_temp_file_name name = true →
      block_files (files m') !! name = None).
Proof.
  revert removed m r m'. induction names as [|name names IH]; intros removed m r m' Hnd Hin.
  { intros [= <- <-]. split_and!; try done; [by intros l' ?; exists l'|].
    intros. split_and!; [done..|]. by intros ? ?%elem_of_nil. }
  apply NoDup_cons in Hnd as [Hn Hnd]. cbn [History.remove_temporary].
  destruct (History.is_reputation_block_temp_file_name name) eqn:Et.
  2:{ intros Hr. apply IH in Hr as (H1 & H2 & H3 & H4 & H5); [|done|by intros; apply Hin; right].
      do 4 (split; [done|]). intros Hf. destruct (H5 Hf) as (? & ? & Hall). split_and!; [done..|].
      intros x [->|?]%elem_of_cons ?; [congruence|auto]. }
  destruct (Hin name) as [f Hb]; [by left|]. destruct m as [[p b] [ps bs] budget torn].
  cbn [files block_files por_files] in Hin, Hb |- *.
  assert (agree b (delete name b)) as Hagree.
  { intros x Hx. rewrite lookup_delete_ne; [done|]. intros ->. congruence. }
  assert (∀ budget', History.remove_temporary names true
      (mkMachine (mkDisk p (delete name b)) (mkDisk ps bs) budget' torn) = (r, m') →
    (por_files (files m') = p ∧ ∀ l, seen Por m' l → l = p ∨ l = ps) ∧
    (∀ l', seen Blocks m' l' → ∃ l, (l = b ∨ l = bs) ∧ agree l l') ∧
    agree b (block_files (files m')) ∧
    (∀ name, b !! name = None → block_files (files m') !! name = None) ∧
    (budget' = None → is_ok r = true ∧ fault_free m' ∧
      ∀ x, x ∈ name :: names → History.is_reputation_block_temp_file_name x = true →
        block_files (files m') !! x = None)) as Hrest.
  { intros budget' Hr. apply IH in Hr as (H1 & H2 & H3 & H4 & H5); [|done|].
    2:{ intros x Hx. cbn. rewrite lookup_delete_ne; [by apply Hin; right|]. by intros ->. }
    split; [done|]. split; [|split; [|split]].
    - intros l' (l & [-> | ->] & Ha)%H2; cbn in Ha; [exists b|exists bs; auto].
      split; [by left|]. intros x Hx. by rewrite Ha, Hagree.
    - intros x Hx. by rewrite H3, Hagree.
    - intros x Hx. apply H4. cbn. by apply lookup_delete_None; right.
    - intros ->. destruct (H5 eq_refl) as (? & ? & Hall). split_and!; [done..|].
      intros x [->|Hx]%elem_of_cons Ht; [|auto]. apply H4. apply lookup_delete_eq. }
  unfold io_bind, io_map_err, remove_file, change, operation.
  cbn [files synced FileSystem.budget FileSystem.torn listing].
  destruct budget as [[|n]|]; cbn [map_err listing block_files].
  - intros [= <- <-]. split_and!; try done. by intros l' ?; exists l'.
  - rewrite Hb. cbn. intros Hr%Hrest. destruct Hr as (? & ? & ? & ? & _). done.
  - rewrite Hb. cbn. intros Hr%Hrest. destruct Hr as (? & ? & ? & ? & H5). split; [done|].
    do 3 (split; [done|]). intros _. by apply H5.
Qed.

End IoFacts.

(** ** What a directory stores *)

Module HistoryFacts.
Import History NameFacts IoFacts.
Section history.
Context `{HO : HashOrder} `{HB : Blake2b}.
Implicit Types (l : entries_of_directory) (bs : list ReputationBlock).

Abbreviation round_of b := (header_round (header b)).

(** The directory holds exactly the blocks [bs], a chain, besides temporary and
    foreign files. *)
Record stores l bs : Prop := {
  stores_chain : windows2 validate_successor bs = Ok tt;
  stores_blocks b : b ∈ bs → ∃ bytes,
    l !! reputation_block_file_name (round_of b) = Some (mkFile bytes true) ∧
    BlockWire.decode_reputation_block bytes = Ok b;
  stores_only name round : is_Some (l !! name) → parse_reputation_block_file_name name = Some round →
    ∃ b, b ∈ bs ∧ round_of b = round;
  stores_names name : is_Some (l !! name) → is_reputation_block_temp_file_name name = false →
    parse_reputation_block_file_name name = None →
    starts_with REPUTATION_BLOCK_FILE_PREFIX name = false
}.

Lemma successor_round b b' : validate_successor b b' = Ok tt →
  round_of b' = (round_of b + 1)%N ∧ (round_of b' <= u64_max)%N.
Proof.
  unfold validate_successor. intros (x & [-> Hle]%ok_or_Ok%checked_add_Some & [Hr%dec_stable _]%bail_Ok)%result_bind_Ok.
  by rewrite Hr.
Qed.

Lemma chain_cons b bs :
  windows2 validate_successor (b :: bs) = Ok tt ↔
  match bs with [] => True | b' :: _ => validate_successor b b' = Ok tt end ∧
  windows2 validate_successor bs = Ok tt.
Proof.
  destruct bs as [|b' bs]; [done|]. cbn [windows2]. rewrite result_bind_Ok.
  split; [by intros ([] & ? & ?)|by intros [? ?]; exists tt].
Qed.
Lemma chain_snoc bs b :
  windows2 validate_successor (bs ++ [b]) = Ok tt ↔
  windows2 validate_successor bs = Ok tt ∧
  match last bs with None => True | Some t => validate_successor t b = Ok tt end.
Proof.
  induction bs as [|b' bs IH]; [done|]. rewrite <-app_comm_cons, !chain_cons, IH.
  destruct bs as [|b'' bs]; cbn [app last]; [naive_solver|]. naive_solver.
Qed.

(** Rounds grow along a chain. *)
Lemma chain_rounds b bs :
  windows2 validate_successor (b :: bs) = Ok tt → Forall (λ b', round_of b < round_of b')%N bs.
Proof.
  revert b. induction bs as [|b' bs IH]; intros b; [constructor|].
  intros [[H1 _]%successor_round Hc]%chain_cons. constructor; [lia|].
  eapply Forall_impl; [by apply IH|]. cbn. lia.
Qed.
Lemma chain_sorted bs :
  windows2 validate_successor bs = Ok tt → StronglySorted (λ b b', round_of b < round_of b')%N bs.
Proof.
  induction bs as [|b bs IH]; intros Hc; [constructor|]. constructor; [|by apply chain_rounds].
  apply IH. by apply chain_cons in Hc as [_ ?].
Qed.
Lemma chain_last bs t b :
  windows2 validate_successor bs = Ok tt → last bs = Some t → b ∈ bs → (round_of b <= round_of t)%N.
Proof.
  intros Hc Hl Hb. induction bs as [|x bs IH]; [done|]. destruct bs as [|y bs].
  - injection Hl as <-. apply list_elem_of_singleton in Hb as ->. lia.
  - pose proof (chain_rounds _ _ Hc) as Hr. apply chain_cons in Hc as [_ Hc].
    apply elem_of_cons in Hb as [->|Hb]; [|by apply IH].
    rewrite Forall_forall in Hr. assert (t ∈ y :: bs) as Ht by (by apply last_Some_elem_of).
    specialize (Hr _ Ht). lia.
Qed.

Lemma decoded_round bytes b : BlockWire.decode_reputation_block bytes = Ok b → (round_of b <= u64_max)%N.
Proof. by intros [(_ & Hr & _) _]%block_codec. Qed.
Lemma stored_round l bs b : stores l bs → b ∈ bs → (round_of b <= u64_max)%N.
Proof. intros Hs (bytes & _ & Hd)%(stores_blocks _ _ Hs). by eapply decoded_round. Qed.

(** *** The names of the retained rounds *)

Lemma retain_all names acc :
  NoDup names →
  (∀ name, name ∈ names → is_reputation_block_temp_file_name name = false →
    parse_reputation_block_file_name name = None →
    starts_with REPUTATION_BLOCK_FILE_PREFIX name = false) →
  (∀ name round, name ∈ names → parse_reputation_block_file_name name = Some round →
    acc !! round = None) →
  ∃ retained, try_fold retain acc names = Ok retained ∧
    ∀ round name, retained !! round = Some name ↔
      acc !! round = Some name ∨ name ∈ names ∧ parse_reputation_block_file_name name = Some round.
Proof.
  revert acc. induction names as [|name names IH]; intros acc Hnd Hnames Hacc.
  { exists acc. split; [done|]. intros. rewrite elem_of_nil. naive_solver. }
  apply NoDup_cons in Hnd as [Hn Hnd]. cbn [try_fold].
  assert (∃ acc', retain acc name = Ok acc' ∧
    (∀ round x, acc' !! round = Some x ↔
      acc !! round = Some x ∨ x = name ∧ parse_reputation_block_file_name name = Some round))
    as (acc' & Hr & Hacc').
  { unfold retain. destruct (is_reputation_block_temp_file_name name) eqn:Et.
    - exists acc. split; [done|]. intros round x. split; [by left|]. intros [?|[-> Hp]]; [done|].
      apply parse_file_name in Hp as [-> _]. by rewrite file_name_not_temp in Et.
    - destruct (parse_reputation_block_file_name name) as [round|] eqn:Ep.
      + pose proof (Hacc name round ltac:(by left) Ep) as Hnone. rewrite Hnone.
        rewrite decide_False by (by intros [? ?]). eexists. split; [done|]. intros round' x.
        rewrite lookup_insert_Some. naive_solver.
      + rewrite Hnames by (done || by left). rewrite decide_False by done. exists acc. split; [done|].
        naive_solver. }
  rewrite Hr. cbn [result_bind]. destruct (IH acc' Hnd) as (retained & Hf & Hret).
  - intros x ?. apply Hnames. by right.
  - intros x round Hx Hp. destruct (acc' !! round) as [y|] eqn:Ey; [|done].
    apply Hacc' in Ey as [Ey|[-> Hp']].
    + rewrite (Hacc x round) in Ey; [done|by right|done].
    + apply parse_file_name in Hp as [-> _], Hp' as [-> _]. done.
  - exists retained. split; [done|]. intros round x. rewrite Hret, Hacc', elem_of_cons. naive_solver.
Qed.

Definition named b : N * list byte := (round_of b, reputation_block_file_name (round_of b)).

Lemma retained_blocks l bs retained :
  stores l bs →
  (∀ round name, retained !! round = Some name ↔
    is_Some (l !! name) ∧ parse_reputation_block_file_name name = Some round) →
  btree_map_iter retained = named <$> bs.
Proof.
  intros Hs Hret. pose proof (chain_sorted _ (stores_chain _ _ Hs)) as Hsorted.
  apply (StronglySorted_unique_strong (λ x y : N * list byte, ord_le x.1 y.1)).
  - intros [r n] [r' n'] H1 H2 Hle Hge. apply elem_of_btree_map_iter in H1.
    apply list_elem_of_fmap in H2 as (b & [= -> ->] & Hb).
    assert (r = round_of b) as -> by (eapply (anti_symm ord_le); [exact Hle|exact Hge]).
    apply Hret in H1 as [_ [-> _]%parse_file_name]. done.
  - apply sort_by_key_sorted.
  - clear -Hsorted. induction Hsorted as [|b bs _ IH Hb]; [constructor|]. cbn. constructor; [done|].
    apply Forall_fmap. eapply Forall_impl; [exact Hb|]. cbn. intros b' Hlt. unfold ord_le. cbn.
    rewrite N.compare_gt_iff. lia.
  - apply NoDup_Permutation.
    + apply NoDup_fmap_1 with fst. rewrite btree_map_iter_perm. apply NoDup_fst_map_to_list.
    + clear -Hsorted. apply NoDup_fmap_1 with fst. rewrite <-list_fmap_compose.
      induction Hsorted as [|b bs _ IH Hb]; [constructor|]. cbn. constructor; [|done].
      intros (b' & E & Hb')%list_elem_of_fmap. rewrite Forall_forall in Hb. specialize (Hb _ Hb').
      cbn in E. lia.
    + intros [r n]. rewrite elem_of_btree_map_iter, Hret, list_elem_of_fmap. split.
      * intros [Hl Hp]. destruct (stores_only _ _ Hs _ _ Hl Hp) as (b & Hb & <-). exists b.
        apply parse_file_name in Hp as [-> _]. done.
      * intros (b & [= -> ->] & Hb). destruct (stores_blocks _ _ Hs b Hb) as (bytes & Hl & Hd).
        split; [eauto|]. by eapply parse_own_name, decoded_round.
Qed.

(** *** Recovery *)

Lemma parse_stored bytes b :
  BlockWire.decode_reputation_block bytes = Ok b → parse_block_file (round_of b) bytes = Ok b.
Proof.
  intros Hd. unfold parse_block_file. pose proof Hd as [_ He]%block_codec.
  apply PublicationFacts.envelope_bounded in He. rewrite decide_False by lia. rewrite Hd.
  cbn [map_err result_bind]. by rewrite decide_False by tauto.
Qed.

(** Reading never changes the disk. *)
Definition read_only {E A} (c : io E A) : Prop := ∀ m r m', c m = (r, m') → kept m m'.

Lemma read_only_ret {E A} (x : A) : read_only (io_ret x : io E A).
Proof. by intros m r m' [= _ <-]. Qed.
Lemma read_only_bind {E A B} (c : io E A) (k : A → io E B) :
  read_only c → (∀ x, read_only (k x)) → read_only (io_bind c k).
Proof.
  intros Hc Hk m r m'. unfold io_bind. destruct (c m) as [[x|e] m1] eqn:Ec.
  - intros Hrun. eapply kept_trans; [by eapply Hc|by eapply Hk].
  - intros [= <- <-]. by eapply Hc.
Qed.
Lemma read_only_lift {E A} (x : result A E) : read_only (io_lift x).
Proof. by intros m r m' [= _ <-]. Qed.
Lemma read_only_map_err {E F A} (f : E → F) (c : io E A) : read_only c → read_only (io_map_err f c).
Proof.
  intros Hc m r m'. unfold io_map_err. destruct (c m) as [x m1] eqn:Ec. intros [= _ <-].
  by eapply Hc.
Qed.
Lemma read_only_query {A} (f : disk → A) : read_only (query f).
Proof.
  intros [d s b t] r m'. unfold query, operation. cbn.
  destruct b as [[|n]|]; by intros [= _ <-].
Qed.
Lemma read_only_sync dir : read_only (sync_directory dir).
Proof.
  intros [[p b] [ps bs] [[|n]|] t] r m'; unfold sync_directory, operation; cbn; intros [= _ <-];
    split; try done; intros dir' l [->| ->]; destruct dir, dir'; cbn; by (left + right).
Qed.

(** Without faults these succeed; a query leaves the machine as it was. *)
Lemma free_query {A} (f : disk → A) m : fault_free m → query f m = (Ok (f (files m)), m).
Proof. destruct m as [d s b t]. unfold fault_free. cbn. by intros ->. Qed.
Lemma free_sync dir m : fault_free m → ∃ m', sync_directory dir m = (Ok tt, m') ∧ fault_free m'.
Proof. destruct m as [d s b t]. unfold fault_free. cbn. intros ->. by eexists. Qed.

Lemma query_run {A} (f : disk → A) m r m' :
  query f m = (r, m') →
  (∀ x, r = Ok x → x = f (files m)) ∧ kept m m' ∧ (fault_free m → is_ok r = true ∧ m' = m).
Proof.
  intros Hq. split; [|split; [by eapply read_only_query|]].
  - destruct m as [d s b t]. intros x ->. revert Hq. unfold query, operation. cbn.
    by destruct b as [[|n]|]; intros [= <- _].
  - intros Hm. rewrite free_query in Hq by done. by injection Hq as <- <-.
Qed.

Lemma free_block_file m b bytes :
  fault_free m →
  block_files (files m) !! reputation_block_file_name (round_of b) = Some (mkFile bytes true) →
  BlockWire.decode_reputation_block bytes = Ok b →
  read_block_file (reputation_block_file_name (round_of b)) (round_of b) m = (Ok b, m).
Proof.
  intros Hm Hb Hd. unfold read_block_file, io_bind, io_map_err, read_file. rewrite free_query by done.
  cbn [map_err listing]. rewrite Hb. unfold io_lift. cbn [fmap option_fmap option_map content ok_or result_bind].
  by rewrite (parse_stored _ _ Hd).
Qed.

Lemma recover_blocks_run m bs acc :
  fault_free m →
  (∀ b, b ∈ bs → ∃ bytes,
    block_files (files m) !! reputation_block_file_name (round_of b) = Some (mkFile bytes true) ∧
    BlockWire.decode_reputation_block bytes = Ok b) →
  windows2 validate_successor (option_list (tip acc) ++ bs) = Ok tt →
  recover_blocks (named <$> bs) acc m =
    (Ok (mk (last (option_list (tip acc) ++ bs)) (history_len acc + length bs)
       (recovery_required acc)), m).
Proof.
  intros Hm. revert acc. induction bs as [|b bs IH]; intros acc Hst Hc.
  { cbn. rewrite app_nil_r, Nat.add_0_r. destruct acc as [[t|] n r]; done. }
  cbn [fmap list_fmap recover_blocks named]. unfold io_bind at 1.
  destruct (Hst b) as (bytes & Hb & Hd); [by left|]. rewrite (free_block_file _ _ _ Hm Hb Hd).
  assert (match tip acc with Some previous => validate_successor previous b | None => Ok tt end = Ok tt)
    as Hv.
  { destruct (tip acc) as [t|]; [|done]. cbn in Hc. by apply (chain_cons t (b :: bs)) in Hc as [? _]. }
  unfold io_bind, io_lift. rewrite Hv. rewrite IH.
  - cbn. rewrite Nat.add_succ_r. destruct (tip acc); done.
  - intros x ?. apply Hst. by right.
  - cbn. destruct (tip acc) as [t|]; [|done]. cbn in Hc. by apply (chain_cons t (b :: bs)) in Hc as [_ ?].
Qed.

Lemma recover_run m bs :
  fault_free m → stores (block_files (files m)) bs →
  recover_history m = (Ok (mk (last bs) (length bs) false), m).
Proof.
  intros Hm Hs. unfold recover_history, io_bind at 1, io_map_err, read_dir. rewrite free_query by done.
  cbn [map_err listing].
  destruct (retain_all (hash_iter (dom (block_files (files m)))) ∅) as (retained & Hf & Hret).
  - apply NoDup_hash_iter.
  - intros name [Hn]%elem_of_hash_iter%elem_of_dom. by eapply stores_names; [|econstructor].
  - intros. apply lookup_empty.
  - unfold io_bind, io_lift. rewrite Hf. rewrite (retained_blocks _ _ _ Hs).
    + rewrite recover_blocks_run; [done|done|apply Hs|apply Hs].
    + intros round name. rewrite Hret, lookup_empty, elem_of_hash_iter, elem_of_dom. naive_solver.
Qed.

(** What is stored only depends on the files that are not temporary. *)
Lemma stores_agree l l' bs : agree l l' → stores l bs → stores l' bs.
Proof.
  intros Ha Hs. split.
  - apply Hs.
  - intros b Hb. destruct (stores_blocks _ _ Hs b Hb) as (bytes & Hl & Hd). exists bytes.
    by rewrite Ha by apply file_name_not_temp.
  - intros name round Hn Hp. eapply stores_only; [done| |done]. rewrite <-Ha; [done|].
    apply parse_file_name in Hp as [-> _]. apply file_name_not_temp.
  - intros name Hn Ht Hp. eapply stores_names; [done| |done..]. by rewrite <-Ha.
Qed.

(** The next block of the chain, in its file. *)
Lemma stores_snoc l l' bs b bytes :
  (∀ name, is_reputation_block_temp_file_name name = false →
    name ≠ reputation_block_file_name (round_of b) → l' !! name = l !! name) →
  l' !! reputation_block_file_name (round_of b) = Some (mkFile bytes true) →
  BlockWire.decode_reputation_block bytes = Ok b →
  match last bs with None => True | Some t => validate_successor t b = Ok tt end →
  stores l bs → stores l' (bs ++ [b]).
Proof.
  intros Ha Hb Hd Hv Hs. pose proof (decoded_round _ _ Hd) as Hr. split.
  - apply chain_snoc. split; [apply Hs|done].
  - intros x [Hx|Hx]%elem_of_app; [|apply list_elem_of_singleton in Hx as ->; eauto].
    destruct (stores_blocks _ _ Hs x Hx) as (bytes' & Hl & Hd'). exists bytes'.
    rewrite Ha; [done|apply file_name_not_temp|]. intros E.
    apply file_name_inj in E; [|by eapply decoded_round|done].
    destruct (last bs) as [t|] eqn:El; [|apply last_None in El as ->; by apply elem_of_nil in Hx].
    apply successor_round in Hv as [Hv _].
    pose proof (chain_last _ _ _ (stores_chain _ _ Hs) El Hx). lia.
  - intros name round Hn Hp. pose proof Hp as [-> Hle]%parse_file_name.
    destruct (decide (round = round_of b)) as [->|Hne].
    { exists b. split; [apply elem_of_app; right; by left|done]. }
    destruct (stores_only _ _ Hs (reputation_block_file_name round) round) as (x & Hx & <-); [|done|].
    + rewrite <-Ha; [done|apply file_name_not_temp|]. intros E. apply Hne. by apply file_name_inj.
    + exists x. split; [by apply elem_of_app; left|done].
  - intros name Hn Ht Hp. destruct (decide (name = reputation_block_file_name (round_of b))) as [->|].
    { by rewrite parse_own_name in Hp. }
    eapply stores_names; [done| |done..]. by rewrite <-Ha.
Qed.

(** The round after the chain has no file yet. *)
Lemma next_round_is_free l bs b :
  stores l bs → (round_of b <= u64_max)%N →
  match last bs with None => True | Some t => validate_successor t b = Ok tt end →
  l !! reputation_block_file_name (round_of b) = None.
Proof.
  intros Hs Hr Hv. destruct (l !! _) as [x|] eqn:Ex; [|done].
  destruct (stores_only _ _ Hs (reputation_block_file_name (round_of b)) (round_of b))
    as (y & Hy & Ey); [by rewrite Ex|by apply parse_own_name|].
  destruct (last bs) as [t|] eqn:El; [|apply last_None in El as ->; by apply elem_of_nil in Hy].
  apply successor_round in Hv as [Hv _].
  pose proof (chain_last _ _ _ (stores_chain _ _ Hs) El Hy). lia.
Qed.

(** No temporary file is left. *)
Definition clean l : Prop :=
  ∀ name, is_reputation_block_temp_file_name name = true → l !! name = None.

(** What a stop leaves of a directory holds the same blocks. *)
Lemma stores_settle torn l bs : stores l bs → stores (settle torn l) bs.
Proof.
  intros Hs. assert (∀ name, is_Some (settle torn l !! name) → is_Some (l !! name)) as Hsub.
  { intros name. unfold settle. rewrite lookup_fmap. by destruct (l !! name). }
  split.
  - apply Hs.
  - intros b Hb. destruct (stores_blocks _ _ Hs b Hb) as (bytes & Hl & Hd). exists bytes.
    unfold settle. by rewrite lookup_fmap, Hl.
  - intros name round Hn. eapply stores_only; eauto.
  - intros name Hn. eapply stores_names; eauto.
Qed.

Lemma seen_kept dir m m' l : kept m m' → seen dir m' l → seen dir m l.
Proof. intros [_ H]. apply H. Qed.

Lemma cleanup_spec m r m' :
  cleanup_temporary_files m = (r, m') →
  (por_files (files m') = por_files (files m) ∧ ∀ l, seen Por m' l → seen Por m l) ∧
  (∀ l', seen Blocks m' l' → ∃ l, seen Blocks m l ∧ agree l l') ∧
  agree (block_files (files m)) (block_files (files m')) ∧
  (fault_free m → r = Ok tt ∧ fault_free m' ∧ clean (block_files (files m'))).
Proof.
  unfold cleanup_temporary_files, io_bind at 1, io_map_err.
  destruct (read_dir Blocks m) as [r1 m1] eqn:Er.
  apply query_run in Er as (Hnames & Hkept & Hfree). pose proof Hkept as [Hf Hk].
  destruct r1 as [names|e]; cbn [map_err].
  2:{ intros [= <- <-]. rewrite Hf. split; [split; [done|apply Hk]|].
      split; [intros l' ?; exists l'; split; [by apply Hk|done]|]. split; [done|].
      intros Hm. by destruct (Hfree Hm). }
  rewrite (Hnames names eq_refl). unfold io_bind at 1.
  destruct (remove_temporary _ false m1) as [r2 m2] eqn:E2.
  apply remove_temporary_spec in E2 as ([P1 P2] & B1 & B2 & B3 & F);
    [|apply NoDup_hash_iter|intros name; rewrite Hf, elem_of_hash_iter, elem_of_dom; done].
  intros Hlast. assert (kept m2 m') as [Hf' Hk'].
  { destruct r2 as [[]|]; [| |by injection Hlast as _ <-].
    - revert Hlast. apply (read_only_map_err HistoryIo _ (read_only_sync Blocks)).
    - by injection Hlast as _ <-. }
  rewrite Hf', Hf in *. split; [split; [done|]; intros l Hl; by apply Hk, P2, Hk'|].
  split. { intros l' (l & Hl & Ha)%Hk'%B1. exists l. split; [by apply Hk|done]. }
  split; [done|]. intros Hm. destruct (Hfree Hm) as [_ ->]. destruct (F Hm) as (Hr & Hm2 & Hgone).
  assert (r = Ok tt ∧ fault_free m') as [-> ?].
  { destruct r2 as [[]|]; [| |done].
    - destruct (free_sync Blocks m2 Hm2) as (m3 & Hs & Hm3). rewrite Hs in Hlast.
      by injection Hlast as <- <-.
    - by injection Hlast as <- <-. }
  split_and!; [done..|]. intros name Ht. destruct (block_files (files m) !! name) as [x|] eqn:Ex; [|auto].
  apply Hgone; [|done]. apply elem_of_hash_iter, elem_of_dom. cbn [listing]. eauto.
Qed.

End history.
End HistoryFacts.

(** ** Runs of the durable state

    What a commit leaves on the disk when it stops at any operation, and what a
    start reads back from it. *)

Import FileSystem.

(** ** Runs with and without failures *)

Module RunFacts.
Import IoFacts.

(** The machine whose operations all succeed. *)
Definition unfailing (m : machine) : machine := mkMachine (files m) (synced m) None (torn m).

(** A run that succeeded on a failing machine is the run of the unfailing one. *)
Definition faithful {E A} (c : io E A) : Prop := ∀ m x m',
  c m = (Ok x, m') → c (unfailing m) = (Ok x, unfailing m').

Lemma faithful_ret {E A} (x : A) : faithful (io_ret x : io E A).
Proof. by intros m y m' [= <- <-]. Qed.
Lemma faithful_lift {E A} (r : result A E) : faithful (io_lift r).
Proof. by intros m y m' [= -> <-]. Qed.
Lemma faithful_bind {E A B} (c : io E A) (k : A → io E B) :
  faithful c → (∀ x, faithful (k x)) → faithful (io_bind c k).
Proof.
  intros Hc Hk m y m'. unfold io_bind. destruct (c m) as [[x|e] m1] eqn:Ec; [|done].
  apply Hc in Ec as ->. apply Hk.
Qed.
Lemma faithful_map_err {E F A} (f : E → F) (c : io E A) : faithful c → faithful (io_map_err f c).
Proof.
  intros Hc m y m'. unfold io_map_err. destruct (c m) as [[x|e] m1] eqn:Ec; [|done].
  intros [= <- <-]. by apply Hc in Ec as ->.
Qed.
Lemma faithful_operation {A} (effect : disk → disk → result (A * disk * disk) IoError) partial :
  faithful (operation effect partial).
Proof.
  intros [d s b t] y m'. unfold operation, unfailing. cbn.
  destruct b as [[|n]|]; [done|..]; destruct (effect d s) as [[[]]|]; cbn; try done;
    by intros [= <- <-].
Qed.

(** Compositions of operations and lifted results. *)
Ltac faithful :=
  repeat first
    [ apply faithful_bind; [|intros ?]
    | apply faithful_map_err | apply faithful_operation | apply faithful_ret | apply faithful_lift
    | progress unfold History.cleanup_temporary_files, History.recover_history, History.open,
        History.read_block_file, History.admit_block, History.existing_outcome,
        History.commit_block_file, replace_file, StateStore.open, StateStore.persist,
        StateStore.restore, Activation.open, Activation.restore
    | match goal with
      | |- faithful (match ?x with _ => _ end) => destruct x
      | |- faithful (if ?x then _ else _) => destruct x
      end ].

Section run.
Context `{HO : HashOrder} `{HB : Blake2b}.

Lemma faithful_remove_temporary names removed : faithful (History.remove_temporary names removed).
Proof.
  revert removed. induction names as [|name names IH]; intros removed; cbn; faithful; apply IH.
Qed.
Lemma faithful_recover_blocks retained acc : faithful (History.recover_blocks retained acc).
Proof.
  revert acc. induction retained as [|[round name] retained IH]; intros acc; cbn; faithful; apply IH.
Qed.
Lemma faithful_history_open : faithful History.open.
Proof. faithful; [apply faithful_remove_temporary|apply faithful_recover_blocks]. Qed.
Lemma faithful_replace temporary target bytes : faithful (replace_file temporary target bytes).
Proof. faithful. Qed.
Lemma faithful_commit_block temporary committed bytes :
  faithful (History.commit_block_file temporary committed bytes).
Proof. faithful. Qed.

End run.
End RunFacts.

(** ** [history.rs] *)

Module AppendFacts.
Import History NameFacts IoFacts HistoryFacts RunFacts.
Section append.
Context `{HO : HashOrder} `{HB : Blake2b}.
Implicit Types (l : entries_of_directory) (bs : list ReputationBlock).

(** The history in memory of a chain of blocks. *)
Definition owner bs : History.t := mk (last bs) (length bs) false.

(** A step that only reads, when it succeeds with [x]. *)
Record reads {E A} (c : io E A) (d : disk) (x : A) : Prop := {
  reads_faithful : faithful c;
  reads_only : read_only c;
  reads_free m : files m = d → fault_free m → ∃ m', c m = (Ok x, m') ∧ fault_free m'
}.

Lemma run_read {E A B} (c : io E A) (k : A → io E B) m r m' x :
  reads c (files m) x → io_bind c k m = (r, m') →
  (is_ok r = false ∧ kept m m' ∧ ¬ fault_free m) ∨
  ∃ m1, k x m1 = (r, m') ∧ kept m m1 ∧ (fault_free m → fault_free m1).
Proof.
  intros [Hfaith Hro Hfree]. unfold io_bind. destruct (c m) as [[y|e] m1] eqn:E1.
  - intros Hk. right. exists m1. pose proof (Hro _ _ _ E1) as Hf.
    apply Hfaith in E1 as E2. destruct (Hfree (unfailing m)) as (m2 & E3 & _); [done..|].
    rewrite E3 in E2. injection E2 as -> _. split_and!; [done..|]. intros Hm.
    destruct (Hfree m) as (m3 & E4 & Hm3); [done..|]. rewrite E4 in E1. by injection E1 as <-.
  - intros [= <- <-]. left. split; [done|]. split; [by eapply Hro|]. intros Hm.
    destruct (Hfree m) as (m3 & E4 & _); [done..|]. by rewrite E4 in E1.
Qed.
(** The same at the end of a run. *)
Lemma run_last {E A} (c : io E A) m r m' x :
  reads c (files m) x → c m = (r, m') →
  kept m m' ∧ (is_ok r = true → r = Ok x) ∧ (fault_free m → is_ok r = true ∧ fault_free m').
Proof.
  intros [Hfaith Hro Hfree] Hrun. split; [by eapply Hro|]. split.
  - destruct r as [y|]; [|done]. intros _. apply Hfaith in Hrun.
    destruct (Hfree (unfailing m)) as (m2 & E3 & _); [done..|]. rewrite E3 in Hrun. by injection Hrun as -> _.
  - intros Hm. destruct (Hfree m) as (m2 & E3 & ?); [done..|]. rewrite E3 in Hrun. by injection Hrun as <- <-.
Qed.

Lemma reads_query {A} (f : disk → A) d : reads (query f) d (f d).
Proof.
  split; [apply faithful_operation|apply read_only_query|]. intros m <- Hm. exists m.
  by rewrite free_query.
Qed.
Lemma reads_sync dir d : reads (sync_directory dir) d tt.
Proof. split; [faithful|apply read_only_sync|]. intros m _. apply free_sync. Qed.
Lemma reads_map_err {E F A} (f : E → F) (c : io E A) d x : reads c d x → reads (io_map_err f c) d x.
Proof.
  intros [H1 H2 H3]. split; [by apply faithful_map_err|by apply read_only_map_err|].
  intros m Hd Hm. destruct (H3 m Hd Hm) as (m' & E' & ?). exists m'. unfold io_map_err. by rewrite E'.
Qed.
Lemma reads_lift {E A} (r : result A E) d x : r = Ok x → reads (io_lift r) d x.
Proof. intros ->. split; [faithful|apply read_only_lift|]. intros m _ Hm. by exists m. Qed.
Lemma reads_ret {E A} (x : A) d : reads (io_ret x : io E A) d x.
Proof. split; [faithful|apply read_only_ret|]. intros m _ Hm. by exists m. Qed.
Lemma reads_bind {E A B} (c : io E A) (k : A → io E B) d x y :
  reads c d x → (∀ x, faithful (k x)) → (∀ x, read_only (k x)) → reads (k x) d y →
  reads (io_bind c k) d y.
Proof.
  intros [H1 H2 H3] Hf Hr [_ _ Hk]. split; [by apply faithful_bind|by apply read_only_bind|].
  intros m Hd Hm. destruct (H3 m Hd Hm) as (m1 & E1 & Hm1). unfold io_bind. rewrite E1.
  apply Hk; [|done]. destruct (H2 _ _ _ E1) as [-> _]. done.
Qed.

Lemma recover_read_only : read_only recover_history.
Proof.
  apply read_only_bind; [apply read_only_map_err, read_only_query|intros names].
  apply read_only_bind; [apply read_only_lift|intros retained].
  generalize (btree_map_iter retained), (mk None 0 false). clear.
  induction l as [|[round name] l IH]; intros acc; [apply read_only_ret|].
  apply read_only_bind; [|intros block; apply read_only_bind; [apply read_only_lift|auto]].
  apply read_only_bind; [apply read_only_map_err, read_only_query|intros ?; apply read_only_lift].
Qed.

(** The directories are prepared, then read. *)
Lemma open_prepares m r m' :
  History.open m = (r, m') →
  (is_ok r = false ∧ kept m m' ∧ ¬ fault_free m) ∨
  ∃ m1, io_bind cleanup_temporary_files (λ _, recover_history) m1 = (r, m') ∧ kept m m1 ∧
    (fault_free m → fault_free m1).
Proof.
  unfold History.open.
  intros [?|(m1 & Hrun & K1 & Hm1)]%(run_read _ _ _ _ _ tt);
    [by left| |apply reads_map_err, (reads_query (λ _, tt))].
  apply (run_read _ _ _ _ _ tt) in Hrun as [(? & K2 & ?)|(m2 & Hrun & K2 & Hm2)];
    [left; split; [done|split; [by eapply kept_trans|tauto]]| |apply reads_map_err, (reads_query (λ _, tt))].
  apply (run_read _ _ _ _ _ tt) in Hrun as [(? & K3 & ?)|(m3 & Hrun & K3 & Hm3)];
    [left; split; [done|split; [|tauto]]|right; exists m3; split; [done|split; [|auto]]
    |apply reads_map_err, reads_sync]; (eapply kept_trans; [|done]); by eapply kept_trans.
Qed.

(** The state directory is as it was, and the blocks are those of [bs]. *)
Definition same_blocks m bs m' : Prop :=
  (por_files (files m') = por_files (files m) ∧ ∀ l, seen Por m' l → seen Por m l) ∧
  ∀ l, seen Blocks m' l → stores l bs.
Lemma same_blocks_kept m bs m1 m2 : same_blocks m bs m1 → kept m1 m2 → same_blocks m bs m2.
Proof.
  intros [[P S] B] [Hf Hk]. split; [split; [by rewrite Hf|]|]; intros l Hl.
  - by apply S, Hk.
  - by apply B, Hk.
Qed.

Lemma history_open_spec bs m r m' :
  (∀ l, seen Blocks m l → stores l bs) → History.open m = (r, m') →
  same_blocks m bs m' ∧
  (fault_free m → r = Ok (owner bs) ∧ fault_free m' ∧ clean (block_files (files m'))).
Proof.
  intros Hs Hrun. assert (same_blocks m bs m) as Hm by done.
  apply open_prepares in Hrun as [(Hr & K & ?)|(m1 & Hrun & K & Hfree)].
  { split; [by eapply same_blocks_kept|done]. }
  pose proof (same_blocks_kept _ _ _ _ Hm K) as [[P1 S1] B1]. unfold io_bind in Hrun.
  destruct (cleanup_temporary_files m1) as [rc m2] eqn:Ec.
  apply cleanup_spec in Ec as ([P2 S2] & B2 & _ & F).
  assert (same_blocks m bs m2) as H2.
  { split; [split; [by rewrite P2|auto]|]. intros l (l0 & Hl & Ha)%B2. eapply stores_agree; [done|auto]. }
  destruct rc as [[]|e].
  - pose proof (recover_read_only _ _ _ Hrun) as K2. split; [by eapply same_blocks_kept|].
    intros Hf. destruct (F (Hfree Hf)) as (_ & Hf2 & Hclean).
    rewrite (recover_run _ bs) in Hrun by (first [done|by apply H2; left]). by injection Hrun as <- <-.
  - injection Hrun as <- <-. split; [done|]. intros Hf. by destruct (F (Hfree Hf)).
Qed.

Lemma history_open_Ok bs m h m' :
  (∀ l, seen Blocks m l → stores l bs) → History.open m = (Ok h, m') →
  h = owner bs ∧ clean (block_files (files m')).
Proof.
  intros Hs Hrun%faithful_history_open. apply (history_open_spec bs) in Hrun as (_ & H); [|done].
  destruct (H eq_refl) as ([= ->] & _ & ?). done.
Qed.

(** A block that may be written after the chain. *)
Record appendable bs (block : ReputationBlock) (allow_checkpoint : bool) : Prop := {
  appendable_encodes : ∃ bytes, BlockWire.decode_reputation_block bytes = Ok block;
  appendable_links : match last bs with
    | None => allow_checkpoint = true ∨ previous_reputation_hash (header block) = None
    | Some tip => validate_successor tip block = Ok tt
    end
}.
Lemma appendable_link bs block allow : appendable bs block allow →
  match last bs with None => True | Some t => validate_successor t block = Ok tt end.
Proof. intros [_ Hl]. by destruct (last bs). Qed.

Lemma admit_block_spec bs block allow m r m' :
  stores (block_files (files m)) bs → appendable bs block allow →
  admit_block (owner bs) block allow m = (r, m') →
  kept m m' ∧ (is_ok r = true → r = Ok None) ∧ (fault_free m → is_ok r = true ∧ fault_free m').
Proof.
  intros Hs Ha. pose proof (appendable_link _ _ _ Ha) as Hlink. destruct Ha as [[bytes Hd] Hl].
  assert (block_files (files m) !! reputation_block_file_name (header_round (header block)) = None)
    as Hfree by (eapply next_round_is_free; [done|by eapply decoded_round|done]).
  unfold admit_block. change (ensure_healthy (owner bs)) with (Ok tt : result () PorReputationBlockHistoryError).
  unfold io_bind at 1, io_lift at 1. cbv beta iota. unfold io_bind at 1, io_lift at 1.
  assert ((match tip (owner bs) with
    | Some tip => if decide (header_round (header block) <= header_round (header tip))%N then Ok true
        else let? _ := validate_successor tip block in Ok false
    | None => bail FirstBlockHasPredecessor
        when is_Some (previous_reputation_hash (header block)) ∧ allow = false; Ok false
    end) = Ok false) as ->.
  { cbn [tip owner]. destruct (last bs) as [t|].
    - pose proof (successor_round _ _ Hl) as [Hr _]. rewrite decide_False by lia. by rewrite Hl.
    - rewrite decide_False; [done|]. intros [[? ?] ?]. destruct Hl; congruence. }
  intros [(Hr & K & Hnf)|(m1 & Hk & K & Hm)]%(run_read _ _ _ _ _ false).
  - split; [done|]. split; [by rewrite Hr|done].
  - injection Hk as <- <-. split_and!; auto.
  - replace false with (bool_decide (is_Some (block_files (files m) !!
      reputation_block_file_name (header_round (header block))))).
    { apply reads_map_err. exact (reads_query (λ d, bool_decide (is_Some (block_files d !! _))) _). }
    rewrite Hfree. by apply bool_decide_eq_false.
Qed.

(** A listing before or after the block is written to its file. *)
Lemma stores_replaced l l' bs block bytes :
  BlockWire.decode_reputation_block bytes = Ok block →
  match last bs with None => True | Some t => validate_successor t block = Ok tt end →
  replaced (reputation_block_temp_file_name (header_round (header block)))
    (reputation_block_file_name (header_round (header block))) bytes l l' →
  stores l bs →
  (l' !! reputation_block_file_name (header_round (header block)) = Some (mkFile bytes true) →
   stores l' (bs ++ [block])) ∧ (stores l' bs ∨ stores l' (bs ++ [block])).
Proof.
  intros Hd Hlink [Hother Hname] Hs.
  assert (∀ x, is_reputation_block_temp_file_name x = false →
    x ≠ reputation_block_file_name (header_round (header block)) → l' !! x = l !! x) as Hagree.
  { intros x Hx Hn. apply Hother; [|done]. intros ->. by rewrite temp_name_temp in Hx. }
  assert (l' !! reputation_block_file_name (header_round (header block)) = Some (mkFile bytes true) →
    stores l' (bs ++ [block])) as Hnew by (intros; by eapply stores_snoc).
  split; [done|]. destruct Hname as [Hn|Hn]; [left|right; by apply Hnew].
  eapply stores_agree; [|done]. intros x Hx.
  destruct (decide (x = reputation_block_file_name (header_round (header block)))) as [->|]; auto.
Qed.

(** What an append leaves: the blocks with or without the new one; with it and
    nothing temporary when it is acknowledged. *)
Record appended bs bs' m m' : Prop := {
  appended_state : por_files (files m') = por_files (files m) ∧ ∀ l, seen Por m' l → seen Por m l;
  appended_blocks l : seen Blocks m' l → stores l bs ∨ stores l bs'
}.

Lemma append_spec bs block allow m r self' m' :
  (∀ l, seen Blocks m l → stores l bs) → appendable bs block allow →
  append_inner (owner bs) block allow m = (r, self', m') →
  appended bs (bs ++ [block]) m m' ∧
  (is_ok r = true → r = Ok Appended ∧ self' = owner (bs ++ [block]) ∧
    (∀ l, seen Blocks m' l → stores l (bs ++ [block])) ∧
    (clean (block_files (files m)) → clean (block_files (files m')))) ∧
  (fault_free m → clean (block_files (files m)) → is_ok r = true ∧ fault_free m').
Proof.
  intros Hs Ha. pose proof (appendable_link _ _ _ Ha) as Hlink.
  pose proof (appendable_encodes _ _ _ Ha) as [bytes Hd]. pose proof (decoded_round _ _ Hd) as Hround.
  pose proof Hd as [_ He]%block_codec. unfold append_inner. rewrite He. cbn [map_err].
  destruct (admit_block _ _ _ _) as [ra m1] eqn:Ea. assert (stores (block_files (files m)) bs) as Hs0 by (apply Hs; by left).
  apply (admit_block_spec bs) in Ea as ([F1 K1] & Hra & Hm1); [|done..].
  destruct ra as [out|e].
  2:{ intros [= <- <- <-]. split_and!; [|done|intros Hm _; by destruct (Hm1 Hm)].
      split; [split; [by rewrite F1|apply K1]|]. intros l Hl. left. by apply Hs, K1. }
  specialize (Hra eq_refl). injection Hra as ->.
  destruct (commit_block_file _ _ _ m1) as [rc m2] eqn:Ec.
  apply commit_block_file_spec in Ec as ([P S] & Hall & Hok & Hclean);
    [|by intros E; eapply file_name_ne_temp|by rewrite F1; eapply next_round_is_free].
  assert (appended bs (bs ++ [block]) m m2) as Happ.
  { split; [split; [by rewrite P, F1|intros l ?; by apply K1, S]|].
    intros l' (l & Hl & Hrep)%Hall. by eapply stores_replaced; [..|apply Hs, K1]. }
  rewrite F1 in *. destruct rc as [[]|e]; intros [= <- <- <-].
  - destruct (Hok eq_refl) as (Hrep & Hseen & Hn & Ht). split_and!; [done| |].
    + intros _. unfold owner. rewrite last_snoc, length_app, Nat.add_1_r. split_and!; [done..| |].
      * intros l ->%Hseen. by eapply stores_replaced.
      * intros Hc x Hx. destruct (decide (x = reputation_block_temp_file_name (header_round (header block))))
          as [->|]; [done|]. destruct Hrep as [Hother _]. rewrite Hother; [by apply Hc|done|].
        intros ->. by rewrite file_name_not_temp in Hx.
    + intros Hm Hc. split; [done|]. destruct (Hm1 Hm) as [_ Hm1']. apply Hclean; [done|].
      apply Hc, temp_name_temp.
  - split_and!; [done..|]. intros Hm Hc. exfalso. destruct (Hm1 Hm) as [_ Hm1'].
    destruct Hclean as [? _]; [done|apply Hc, temp_name_temp|done].
Qed.

(** *** Reconciliation *)

(** The history is at the state's block or, a crash before, one block behind. *)
Definition aligned bs (tip : option ReputationBlock) : Prop :=
  last bs = tip ∨ ∃ block, tip = Some block ∧ appendable bs block true.
Definition caught_up bs (tip : option ReputationBlock) : list ReputationBlock :=
  match tip with
  | Some block => if decide (last bs = Some block) then bs else bs ++ [block]
  | None => bs
  end.

Lemma caught_up_last bs tip : aligned bs tip → last (caught_up bs tip) = tip.
Proof.
  destruct tip as [block|]; cbn; [|by intros [?|(? & ? & _)]].
  intros _. case_decide; [done|]. apply last_snoc.
Qed.
Lemma caught_up_id bs tip : last bs = tip → caught_up bs tip = bs.
Proof. destruct tip; [|done]. cbn. intros ->. by rewrite decide_True. Qed.

Lemma appendable_allow bs block allow : bs ≠ [] →
  appendable bs block allow → appendable bs block (negb allow).
Proof.
  intros Hne [He Hl]. split; [done|]. destruct (last bs) as [t|] eqn:El; [done|].
  by apply last_None in El.
Qed.

Lemma appended_refl bs bs' m : (∀ l, seen Blocks m l → stores l bs) → appended bs bs' m m.
Proof. intros Hs. split; [done|]. intros l Hl. left. by apply Hs. Qed.

Lemma reconcile_spec bs tip m r self' m' :
  (∀ l, seen Blocks m l → stores l bs) → aligned bs tip →
  reconcile_state_tip (owner bs) tip m = (r, self', m') →
  appended bs (caught_up bs tip) m m' ∧
  (is_ok r = true → self' = owner (caught_up bs tip) ∧
    (∀ l, seen Blocks m' l → stores l (caught_up bs tip)) ∧
    (clean (block_files (files m)) → clean (block_files (files m')))) ∧
  (fault_free m → clean (block_files (files m)) → is_ok r = true ∧ fault_free m').
Proof.
  intros Hs Hal. unfold reconcile_state_tip, latest, ensure_healthy.
  cbn [History.recovery_required owner]. rewrite decide_False by done. cbn [result_bind History.tip].
  destruct (decide (last bs = tip)) as [Hlast|Hne].
  { rewrite caught_up_id by done. intros Hrun.
    assert ((Ok tt, owner bs, m) = (r, self', m')) as [= <- <- <-].
    { rewrite <-Hrun. cbn [owner History.tip]. rewrite Hlast. destruct tip; [|done].
      by rewrite decide_True. }
    split_and!; auto using appended_refl. }
  destruct Hal as [?|(block & -> & Ha)]; [done|].
  assert (caught_up bs (Some block) = bs ++ [block]) as -> by (cbn; by rewrite decide_False).
  intros Hrun. change (History.tip (owner bs)) with (last bs) in Hrun.
  assert (∃ allow r0, appendable bs block allow ∧
    append_inner (owner bs) block allow m = (r0, self', m') ∧ r = (let? _ := r0 in Ok tt))
    as (allow & r0 & Ha' & Happ & ->).
  { destruct (last bs) as [t|] eqn:El.
    - pose proof (appendable_links _ _ _ Ha) as Hv. rewrite El in Hv.
      pose proof (successor_round _ _ Hv) as [Hr Hmax].
      rewrite decide_False in Hrun by congruence.
      rewrite decide_True in Hrun by (apply checked_add_Some; lia).
      destruct (append_inner (owner bs) block false m) as [[r0 s0] m0] eqn:Eap.
      injection Hrun as <- <- <-. exists false, r0. split_and!; [|done..].
      apply (appendable_allow _ _ true); [|done]. by intros ->.
    - destruct (append_inner (owner bs) block true m) as [[r0 s0] m0] eqn:Eap.
      injection Hrun as <- <- <-. by exists true, r0. }
  apply append_spec in Happ as (H1 & H3 & H4); [|done..].
  assert (is_ok (let? _ := r0 in Ok tt : result unit PorReputationBlockHistoryError) = is_ok r0) as ->
    by (by destruct r0).
  split_and!; [done..| |done]. intros Hok. by destruct (H3 Hok) as (_ & ? & ? & ?).
Qed.

End append.
End AppendFacts.

(** ** [persistence.rs] *)

Module StoreFacts.
Import NameFacts IoFacts HistoryFacts RunFacts AppendFacts.
Section store.
Context `{HO : HashOrder} `{HB : Blake2b}.
Implicit Types (d : disk) (l : entries_of_directory) (m : machine) (s : ReputationState.t).
Implicit Types (bs : list ReputationBlock) (act : option Activation.t).

Lemma reads_prepare {E} (f : IoError → E) d :
  reads (perform _ := io_map_err f prepare in io_map_err f prepare) d tt.
Proof.
  apply (reads_bind _ _ _ tt); [apply reads_map_err, (reads_query (λ _, tt))|intros; faithful| |].
  - intros. apply read_only_map_err, read_only_query.
  - apply reads_map_err, (reads_query (λ _, tt)).
Qed.
(** A file that is read and parsed when it is there. *)
Lemma reads_parsed {E A} (f : IoError → E) (parse : list byte → result A E) name d x :
  match content <$> por_files d !! name with
  | None => x = None
  | Some bytes => ∃ y, x = Some y ∧ parse bytes = Ok y
  end →
  reads (perform encoded := io_map_err f (read_file Por name) in
    match encoded with
    | None => io_ret None
    | Some encoded => perform y := io_lift (parse encoded) in io_ret (Some y)
    end) d x.
Proof.
  intros Hx. apply (reads_bind _ _ _ (content <$> por_files d !! name)).
  - apply reads_map_err. exact (reads_query (λ d, content <$> por_files d !! name) d).
  - intros. faithful.
  - intros [bytes|]; [|apply read_only_ret].
    apply read_only_bind; [apply read_only_lift|intros; apply read_only_ret].
  - destruct (content <$> _) as [bytes|]; [|subst x; apply reads_ret]. destruct Hx as (y & -> & Hy).
    eapply reads_bind; [by apply reads_lift|intros; faithful|intros; apply read_only_ret|apply reads_ret].
Qed.

(** *** The committed snapshot *)

Definition snapshot_of l s : Prop := ∃ bytes,
  l !! StateStore.POR_STATE_FILE_NAME = Some (mkFile bytes true) ∧
  Snapshot.decode_reputation_state_snapshot bytes = Ok s.

Lemma snapshot_bounded bytes s :
  Snapshot.decode_reputation_state_snapshot bytes = Ok s →
  ¬ (Snapshot.MAX_REPUTATION_STATE_SNAPSHOT_LEN < len bytes)%N.
Proof. unfold Snapshot.decode_reputation_state_snapshot. by intros [? _]%bail_Ok. Qed.

Lemma reads_restore d s : snapshot_of (por_files d) s → reads StateStore.restore d (Some s).
Proof.
  intros (bytes & Hb & Hd). apply reads_parsed. rewrite Hb. exists s. split; [done|].
  cbn [content]. rewrite decide_False by (by eapply snapshot_bounded). by rewrite Hd.
Qed.
Lemma reads_nothing d :
  por_files d !! StateStore.POR_STATE_FILE_NAME = None → reads StateStore.restore d None.
Proof. intros Hb. apply reads_parsed. by rewrite Hb. Qed.

(** The block of a snapshot has an envelope of its own. *)
Lemma snapshot_block_encodes s bytes b :
  typed_state s → Snapshot.encode_reputation_state_snapshot s = Ok bytes →
  ReputationState.latest_block s = Some b →
  ∃ enc, BlockWire.decode_reputation_block enc = Ok b.
Proof.
  intros (_ & _ & Ht) (Hv & (_ & _ & _ & Hlim & Hlen) & _)%encode_snapshot_Ok Eb.
  assert (Commitments.validate_reputation_block b = Ok tt) as Hb.
  { unfold ReputationState.validate_snapshot_invariants in Hv. invert_Ok Hv. rewrite Eb in Hv.
    by invert_Ok Hv. }
  pose proof (snapshot_in_payload _ _ Eb Hlen) as Hin.
  eexists. apply block_codec. split; [by apply Ht|]. unfold BlockWire.encode_reputation_block.
  apply result_bind_Ok. exists (block_bytes b). split; [apply encode_payload_Ok; by auto|].
  apply bail_Ok. split; [|reflexivity]. pose proof payload_max. unfold in_payload in Hin. lia.
Qed.
Lemma snapshot_aligned l s : snapshot_of l s → aligned [] (ReputationState.latest_block s).
Proof.
  intros (bytes & _ & [Ht He]%snapshot_codec).
  destruct (ReputationState.latest_block s) as [b|] eqn:Eb; [right|by left].
  exists b. split; [done|]. split; [by eapply snapshot_block_encodes|by left].
Qed.

(** *** The activation record *)

Definition activation_of l act : Prop :=
  match l !! Activation.POR_WEIGHT_ACTIVATION_FILE_NAME with
  | None => act = None
  | Some f => flushed f = true ∧ ∃ record, act = Some record ∧
      (len (content f) <= Activation.MAX_POR_WEIGHT_ACTIVATION_RECORD_LEN)%N ∧
      Activation.decode_activation_record (content f) = Ok record
  end.
Lemma activation_same l l' act :
  l' !! Activation.POR_WEIGHT_ACTIVATION_FILE_NAME = l !! Activation.POR_WEIGHT_ACTIVATION_FILE_NAME →
  activation_of l act → activation_of l' act.
Proof. unfold activation_of. by intros ->. Qed.

Lemma reads_activation d act : activation_of (por_files d) act → reads Activation.restore d act.
Proof.
  unfold activation_of. intros Ha. apply reads_parsed.
  destruct (por_files d !! _) as [f|]; [|done]. destruct Ha as (_ & record & -> & Hl & Hd).
  exists record. split; [done|]. by rewrite decide_False by lia.
Qed.

(** *** A snapshot replaces the one before, or leaves it *)

Definition persisted l s : Prop := ∃ bytes,
  l !! StateStore.POR_STATE_FILE_NAME = Some (mkFile bytes true) ∧
  Snapshot.encode_reputation_state_snapshot s = Ok bytes.
Lemma persisted_snapshot l s : typed_state s → persisted l s → snapshot_of l s.
Proof. intros Ht (bytes & Hb & He). exists bytes. split; [done|]. by apply snapshot_codec. Qed.

Record persists s m m' : Prop := {
  persists_blocks : block_files (files m') = block_files (files m) ∧
    ∀ l, seen Blocks m' l → seen Blocks m l;
  persists_state l' : seen Por m' l' → ∃ l, seen Por m l ∧
    l' !! Activation.POR_WEIGHT_ACTIVATION_FILE_NAME = l !! Activation.POR_WEIGHT_ACTIVATION_FILE_NAME ∧
    (l' !! StateStore.POR_STATE_FILE_NAME = l !! StateStore.POR_STATE_FILE_NAME ∨ persisted l' s)
}.

Lemma persist_spec s m r m' :
  StateStore.persist s m = (r, m') →
  persists s m m' ∧
  (is_ok r = true → r = Ok tt ∧ ∀ l, seen Por m' l → persisted l s) ∧
  (fault_free m → is_ok (Snapshot.encode_reputation_state_snapshot s) = true →
    is_ok r = true ∧ fault_free m').
Proof.
  unfold StateStore.persist, io_bind, io_lift.
  destruct (Snapshot.encode_reputation_state_snapshot s) as [bytes|e] eqn:Ee; cbn [map_err].
  2:{ intros [= <- <-]. split; [|done]. split; [done|]. intros l' ?. exists l'. auto. }
  unfold io_map_err. destruct (replace_file _ _ bytes m) as [r1 m1] eqn:Er. intros [= <- <-].
  apply replace_file_spec in Er as (H1 & H2 & H3 & H4); [|done]. split_and!.
  - split; [done|]. intros l' (l & Hl & Hother & Hname)%H2. exists l. split; [done|].
    split; [by apply Hother|]. destruct Hname as [?|?]; [by left|right]. by exists bytes.
  - destruct r1 as [[]|]; [|done]. intros _. split; [done|]. intros l Hl. exists bytes. auto.
  - intros Hm _. by destruct (H4 Hm) as [-> ?].
Qed.

(** *** The disk of a node *)

(** Committed: [s] is the snapshot; the blocks [bs] are its history, at most one
    behind it. *)
Record recoverable d s bs act : Prop := {
  recoverable_snapshot : snapshot_of (por_files d) s;
  recoverable_blocks : stores (block_files d) bs;
  recoverable_tip : aligned bs (ReputationState.latest_block s);
  recoverable_activation : activation_of (por_files d) act;
  recoverable_valid : Durable.validate_activation_record act s = Ok tt
}.
(** Nothing was committed yet. *)
Record fresh d : Prop := {
  fresh_snapshot : por_files d !! StateStore.POR_STATE_FILE_NAME = None;
  fresh_blocks : stores (block_files d) [];
  fresh_activation : por_files d !! Activation.POR_WEIGHT_ACTIVATION_FILE_NAME = None
}.

(** The disks that a stop may leave, up to files that were not synced. *)
Definition left_by m d : Prop := seen Por m (por_files d) ∧ seen Blocks m (block_files d).

(** Whatever a stop leaves is committed. *)
Record commits m s bs act : Prop := {
  commits_snapshot l : seen Por m l → snapshot_of l s;
  commits_activation l : seen Por m l → activation_of l act;
  commits_blocks l : seen Blocks m l → stores l bs;
  commits_tip : aligned bs (ReputationState.latest_block s);
  commits_valid : Durable.validate_activation_record act s = Ok tt
}.
(** And nothing is left to do. *)
Record settled m s bs act : Prop := {
  settled_commits : commits m s bs act;
  settled_tip : last bs = ReputationState.latest_block s;
  settled_clean : clean (block_files (files m))
}.

Lemma commits_left m s bs act d : commits m s bs act → left_by m d → recoverable d s bs act.
Proof. intros [] []. split; auto. Qed.
Lemma commits_kept m m' s bs act : commits m s bs act → kept m m' → commits m' s bs act.
Proof. intros [] [_ Hk]. split; auto. Qed.
Lemma start_commits d budget torn s bs act :
  recoverable d s bs act → commits (start (boot d) budget torn) s bs act.
Proof. intros []. split; try done; by intros l [->| ->]. Qed.
Lemma left_kept m m' d : kept m m' → left_by m' d → left_by m d.
Proof. intros [_ Hk] []. split; auto. Qed.
Lemma left_start d budget torn d' : left_by (start (boot d) budget torn) d' ↔ d' = d.
Proof.
  unfold left_by, seen. cbn. destruct d as [p b], d' as [p' b']. cbn. split.
  - by intros [[-> | ->] [-> | ->]].
  - intros [= -> ->]. auto.
Qed.

(** Appending to a committed machine. *)
Lemma commits_appended m m' s bs bs' act :
  commits m s bs act → appended bs bs' m m' → aligned bs' (ReputationState.latest_block s) →
  (∀ d, left_by m' d → recoverable d s bs act ∨ recoverable d s bs' act) ∧
  ((∀ l, seen Blocks m' l → stores l bs') → commits m' s bs' act).
Proof.
  intros [Hsn Hact Hb Ht Hv] [[_ Hs] Hblocks] Ht'. split.
  - intros d [Hp Hd]. destruct (Hblocks _ Hd); [left|right]; split; auto.
  - intros Hall. split; auto.
Qed.

(** *** What a stop leaves *)

Definition settle_disk torn d : disk := mkDisk (settle torn (por_files d)) (settle torn (block_files d)).

Lemma stop_left lost m : ∃ d, left_by m d ∧ stop lost m = settle_disk (torn m) d.
Proof.
  exists (mixed lost m). split; [|done]. unfold left_by, seen, mixed. cbn.
  destruct (lost Por), (lost Blocks); auto.
Qed.
Lemma settle_lookup torn l name f :
  l !! name = Some f → flushed f = true → settle torn l !! name = Some f.
Proof. intros Hl Hf. unfold settle. rewrite lookup_fmap, Hl. cbn. by rewrite Hf. Qed.
Lemma settle_lookup_None torn l name : l !! name = None → settle torn l !! name = None.
Proof. intros Hl. unfold settle. by rewrite lookup_fmap, Hl. Qed.

Lemma recoverable_settle torn d s bs act :
  recoverable d s bs act → recoverable (settle_disk torn d) s bs act.
Proof.
  intros [(bytes & Hb & Hd) Hs Ht Ha Hv]. split; [|by apply stores_settle|done| |done].
  - exists bytes. split; [by apply settle_lookup|done].
  - unfold activation_of in *. cbn [por_files settle_disk].
    destruct (por_files d !! Activation.POR_WEIGHT_ACTIVATION_FILE_NAME) as [f|] eqn:Ef.
    + by rewrite (settle_lookup _ _ _ _ Ef) by apply Ha.
    + by rewrite settle_lookup_None.
Qed.
Lemma fresh_settle torn d : fresh d → fresh (settle_disk torn d).
Proof. intros []. split; [by apply settle_lookup_None|by apply stores_settle|by apply settle_lookup_None]. Qed.

End store.
End StoreFacts.

(** ** Starts and commits *)

Module CommitFacts.
Import NameFacts IoFacts HistoryFacts RunFacts AppendFacts StoreFacts.
Section commit.
Context `{HO : HashOrder} `{HB : Blake2b}.
Implicit Types (d : disk) (l : entries_of_directory) (m : machine) (s : ReputationState.t).
Implicit Types (bs : list ReputationBlock) (act : option Activation.t).

Lemma aligned_caught_up bs tip : aligned bs tip → aligned (caught_up bs tip) tip.
Proof. intros Ha. left. by apply caught_up_last. Qed.

(** *** Opening *)

Lemma reconciled_spec bs tip m r m' :
  (∀ l, seen Blocks m l → stores l bs) → aligned bs tip →
  Durable.reconciled (owner bs) tip m = (r, m') →
  appended bs (caught_up bs tip) m m' ∧
  (is_ok r = true → r = Ok (owner (caught_up bs tip)) ∧
    (∀ l, seen Blocks m' l → stores l (caught_up bs tip)) ∧
    (clean (block_files (files m)) → clean (block_files (files m')))) ∧
  (fault_free m → clean (block_files (files m)) → is_ok r = true ∧ fault_free m').
Proof.
  intros Hs Ha. unfold Durable.reconciled.
  destruct (History.reconcile_state_tip _ _ _) as [[r1 h1] m1] eqn:Er.
  apply reconcile_spec in Er as (H2 & H3 & H4); [|done..]. intros [= <- <-].
  split_and!; [done| |].
  - destruct r1 as [[]|]; [|done]. cbn. intros _. by destruct (H3 eq_refl) as (-> & ? & ?).
  - intros Hm Hc. destruct (H4 Hm Hc) as [? ?]. by destruct r1.
Qed.

(** What follows the state. *)
Definition open_activation s (history : History.t) : io Durable.DurablePorStateError Durable.t :=
  perform _ := io_map_err Durable.ActivationPersistence Activation.open in
  perform activated := io_map_err Durable.ActivationPersistence Activation.restore in
  perform _ := io_lift (Durable.validate_activation_record activated s) in
  io_ret (Durable.mk history s activated false).
Definition open_rest s : io Durable.DurablePorStateError Durable.t :=
  perform history := io_map_err Durable.HistoryFailed History.open in
  perform history := Durable.reconciled history (ReputationState.latest_block s) in
  open_activation s history.

Lemma reads_owner d s bs act : recoverable d s bs act → ∀ history,
  reads (open_activation s history) d (Durable.mk history s act false).
Proof.
  intros [_ _ _ Hact Hv] history. pose proof (reads_activation _ _ Hact) as [_ Hro _].
  eapply reads_bind; [apply reads_map_err, reads_prepare|intros; faithful| |].
  - intros _. apply read_only_bind; [by apply read_only_map_err|].
    intros x; apply read_only_bind; [apply read_only_lift|intros _; apply read_only_ret].
  - eapply reads_bind; [by apply reads_map_err, reads_activation|intros; faithful| |].
    + intros x. apply read_only_bind; [apply read_only_lift|intros _; apply read_only_ret].
    + eapply reads_bind; [by apply reads_lift|intros; faithful|intros _; apply read_only_ret|].
      apply reads_ret.
Qed.

Lemma commits_same_blocks m m' s bs act :
  commits m s bs act → same_blocks m bs m' → commits m' s bs act.
Proof. intros [] [[_ Hs] Hb]. split; auto. Qed.

Lemma open_rest_spec s bs act m r m' (bs' := caught_up bs (ReputationState.latest_block s)) :
  commits m s bs act → open_rest s m = (r, m') →
  (∀ d, left_by m' d → recoverable d s bs act ∨ recoverable d s bs' act) ∧
  (is_ok r = true → r = Ok (Durable.mk (owner bs') s act false) ∧ settled m' s bs' act) ∧
  (fault_free m → is_ok r = true ∧ fault_free m').
Proof.
  intros Hc. pose proof (commits_blocks _ _ _ _ Hc) as Hs. unfold open_rest, io_bind at 1, io_map_err.
  destruct (History.open m) as [rh m1] eqn:Eh.
  pose proof Eh as Eh'. apply (history_open_spec bs) in Eh' as (S1 & F1); [|done].
  pose proof (commits_same_blocks _ _ _ _ _ Hc S1) as C1.
  destruct rh as [h|e]; cbn [map_err].
  2:{ intros [= <- <-]. split_and!; [|done|intros Hm; by destruct (F1 Hm)].
      intros d Hd. left. by eapply commits_left. }
  apply (history_open_Ok bs) in Eh as [-> Hclean1]; [|done].
  unfold io_bind at 1. destruct (Durable.reconciled _ _ m1) as [rr m2] eqn:Er.
  pose proof (commits_tip _ _ _ _ Hc) as Ht. pose proof (aligned_caught_up _ _ Ht) as Ht'.
  apply reconciled_spec in Er as (A2 & O2 & F2); [|apply C1|done].
  destruct (commits_appended _ _ _ _ _ _ C1 A2 Ht') as [D2 C2]. fold bs' in D2, C2, O2.
  assert (fault_free m → is_ok rr = true ∧ fault_free m2) as Hm2.
  { intros Hm. destruct (F1 Hm) as (_ & Hm1 & _). auto. }
  destruct rr as [h'|e].
  2:{ intros [= <- <-]. split_and!; [done..|]. intros Hm. by destruct (Hm2 Hm). }
  destruct (O2 eq_refl) as ([= ->] & S2' & Hclean2). specialize (C2 S2').
  intros Hrun. eapply run_last in Hrun as (K & Hok & Hf).
  2:{ eapply reads_owner, commits_left; [done|]. split; by left. }
  pose proof (commits_kept _ _ _ _ _ C2 K) as C3. split_and!.
  - intros d Hd. right. by eapply commits_left.
  - intros Hr. split; [auto|]. split; [done|by apply caught_up_last|]. destruct K as [-> _]. auto.
  - intros Hm. apply Hf. by apply Hm2.
Qed.

Lemma io_bind_assoc {E A B C} (c : io E A) (k : A → io E B) (k' : B → io E C) m :
  io_bind (io_bind c k) k' m = io_bind c (λ x, io_bind (k x) k') m.
Proof. unfold io_bind. by destruct (c m) as [[x|e] m1]. Qed.

(** Opening reads the snapshot first. *)
Lemma open_reads initial m r m' found :
  reads StateStore.restore (files m) found → Durable.open initial m = (r, m') →
  (is_ok r = false ∧ kept m m' ∧ ¬ fault_free m) ∨
  ∃ m1, kept m m1 ∧ (fault_free m → fault_free m1) ∧
    match found with
    | Some s => open_rest s m1 = (r, m')
    | None =>
      io_bind (io_map_err Durable.Persistence (StateStore.persist initial))
        (λ _, open_rest initial) m1 = (r, m')
    end.
Proof.
  intros Hfound Hrun.
  change (io_bind (Durable.open_state initial) open_rest m = (r, m')) in Hrun.
  unfold Durable.open_state in Hrun. rewrite io_bind_assoc in Hrun.
  apply (run_read _ _ _ _ _ tt) in Hrun as [?|(m1 & Hrun & K1 & Hm1)]; [by left| |].
  2:{ apply reads_map_err, reads_prepare. }
  cbv beta in Hrun. rewrite io_bind_assoc in Hrun. pose proof K1 as [F1 _]. rewrite <-F1 in Hfound.
  apply (run_read _ _ _ _ _ found) in Hrun as [(? & K2 & Hf)|(m2 & Hrun & K2 & Hm2)];
    [| |by apply reads_map_err].
  - left. split; [done|]. split; [by eapply kept_trans|tauto].
  - right. exists m2. split; [by eapply kept_trans|]. split; [auto|].
    destruct found as [s|]; [done|]. by rewrite io_bind_assoc in Hrun.
Qed.

(** A restart. *)
Lemma restart_spec initial s bs act m r m' (bs' := caught_up bs (ReputationState.latest_block s)) :
  commits m s bs act → Durable.open initial m = (r, m') →
  (∀ d, left_by m' d → recoverable d s bs act ∨ recoverable d s bs' act) ∧
  (is_ok r = true → r = Ok (Durable.mk (owner bs') s act false) ∧ settled m' s bs' act) ∧
  (fault_free m → is_ok r = true ∧ fault_free m').
Proof.
  intros Hc. assert (snapshot_of (por_files (files m)) s) as Hsn by (apply Hc; by left).
  intros [(Hr & K & Hf)|(m1 & K1 & Hm1 & Hrun)]%(open_reads _ _ _ _ _ (reads_restore _ _ Hsn)).
  - split_and!; [|by rewrite Hr|done]. intros d Hd. left. eapply commits_left; [done|by eapply left_kept].
  - apply (open_rest_spec _ bs act) in Hrun as (H1 & H2 & H3); [|by eapply commits_kept]. auto.
Qed.

(** A first start. *)
Lemma persisted_commits m s :
  typed_state s → (∀ l, seen Por m l → persisted l s ∧ activation_of l None) →
  (∀ l, seen Blocks m l → stores l []) → commits m s [] None.
Proof.
  intros Ht Hp Hs. assert (∀ l, seen Por m l → snapshot_of l s) as Hsn.
  { intros l Hl. apply persisted_snapshot; [done|by apply Hp]. }
  split; [done|apply Hp|done| |done]. eapply snapshot_aligned, Hsn. by left.
Qed.

Lemma first_start_spec s m r m' (bs := caught_up [] (ReputationState.latest_block s)) :
  typed_state s → (∀ d, left_by m d → fresh d) → Durable.open s m = (r, m') →
  (∀ d, left_by m' d → fresh d ∨ recoverable d s [] None ∨ recoverable d s bs None) ∧
  (is_ok r = true → r = Ok (Durable.mk (owner bs) s None false) ∧ settled m' s bs None) ∧
  (fault_free m → is_ok (Snapshot.encode_reputation_state_snapshot s) = true →
    is_ok r = true ∧ fault_free m').
Proof.
  intros Ht Hfresh. assert (fresh (files m)) as [Hsnap _ _] by (apply Hfresh; split; by left).
  intros [(Hr & K & Hf)|(m1 & K1 & Hm1 & Hrun)]%(open_reads _ _ _ _ _ (reads_nothing _ Hsnap)).
  { split_and!; [|by rewrite Hr|done]. intros d Hd. left. by eapply Hfresh, left_kept. }
  unfold io_bind, io_map_err in Hrun. destruct (StateStore.persist s m1) as [r2 m2] eqn:Ep.
  apply persist_spec in Ep as (P & Hok & Hfree).
  assert (∀ l', seen Por m2 l' → activation_of l' None ∧
    (l' !! StateStore.POR_STATE_FILE_NAME = None ∨ persisted l' s)) as Hpor.
  { intros l' (l & Hl & Ha & Hs)%(persists_state _ _ _ P).
    destruct (Hfresh (mkDisk l (block_files (files m)))) as [H1 _ H3]; [split; [by apply K1|by left]|].
    cbn [por_files] in H1, H3. unfold activation_of. rewrite Ha, H3. split; [done|]. by rewrite H1 in Hs. }
  assert (∀ l, seen Blocks m2 l → stores l []) as Hblocks.
  { intros l Hl%(persists_blocks _ _ _ P). destruct (Hfresh (mkDisk (por_files (files m)) l)) as [_ ? _];
      [split; [by left|by apply K1]|done]. }
  destruct r2 as [[]|e]; cbn [map_err] in Hrun.
  - destruct (Hok eq_refl) as [_ Hp]. apply (open_rest_spec _ [] None) in Hrun as (H1 & H2 & H3).
    + split_and!; [auto|done|]. intros Hm He. apply H3, Hfree; auto.
    + apply persisted_commits; [done| |done]. intros l Hl. split; [auto|]. by apply Hpor.
  - injection Hrun as <- <-. split_and!; [|done|intros Hm He; by destruct Hfree; auto].
    intros d [Hp Hb]. destruct (Hpor _ Hp) as [Ha [Hn|Hn]]; [left|right; left].
    + split; [done|auto|]. unfold activation_of in Ha. by destruct (por_files d !! _) as [f|]; [destruct Ha as (_ & ? & ? & _)|].
    + pose proof (persisted_snapshot _ _ Ht Hn) as Hsn. split; [done|auto|by eapply snapshot_aligned|done..].
Qed.

(** *** Committing *)

(** A state that a round may replace the one of the owner with. *)
Record successor bs act (staged : ReputationState.t) (block : ReputationBlock) : Prop := {
  successor_block : ReputationState.latest_block staged = Some block;
  successor_link : match last bs with
    | None => previous_reputation_hash (header block) = None
    | Some tip => History.validate_successor tip block = Ok tt
    end;
  successor_typed : typed_state staged;
  successor_activation : Durable.validate_activation_record act staged = Ok tt
}.

Lemma successor_appendable l bs act staged block allow :
  successor bs act staged block → persisted l staged → appendable bs block allow.
Proof.
  intros [Hb Hl Ht _] (bytes & _ & He). split; [by eapply snapshot_block_encodes|].
  destruct (last bs); [done|by right].
Qed.

(** The snapshot of the next state is written, on every disk or on some. *)
Lemma persist_commits s bs act staged block m r m' :
  commits m s bs act → successor bs act staged block → StateStore.persist staged m = (r, m') →
  (∀ d, left_by m' d → recoverable d s bs act ∨ recoverable d staged bs act) ∧
  (is_ok r = true → commits m' staged bs act ∧ ∃ l, persisted l staged).
Proof.
  intros Hc Hsucc Hp. apply persist_spec in Hp as ([[_ Hblocks] Hstate] & Hok & _).
  assert (∀ l, seen Blocks m' l → stores l bs) as Hs by (intros l Hl; by eapply commits_blocks, Hblocks).
  assert (∀ l, seen Por m' l → activation_of l act ∧ (snapshot_of l s ∨ persisted l staged)) as Hpor.
  { intros l' (l & Hl & Ha & Hn)%Hstate. split; [by eapply activation_same, commits_activation|].
    destruct Hn as [Hn|?]; [left|by right]. unfold snapshot_of. rewrite Hn. by eapply commits_snapshot. }
  assert (∀ l, persisted l staged → aligned bs (ReputationState.latest_block staged)) as Hal.
  { intros l Hl. right. exists block. split; [apply Hsucc|by eapply successor_appendable]. }
  split.
  - intros d [Hp Hb]. destruct (Hpor _ Hp) as [Ha [Hn|Hn]]; [left|right].
    + split; [done|auto|by eapply commits_tip|done|by eapply commits_valid].
    + split; [apply persisted_snapshot; [apply Hsucc|done]|auto|by eapply Hal|done|apply Hsucc].
  - intros Hr. destruct (Hok Hr) as [_ Hall].
    assert (persisted (por_files (files m')) staged) as Hp by (apply Hall; by left).
    split; [|by eexists]. split; [|apply Hpor|done|by eapply Hal|apply Hsucc].
    intros l Hl. apply persisted_snapshot; [apply Hsucc|auto].
Qed.

Lemma commit_spec s bs act staged applied m r self' m'
    (block := RoundTransition.applied_block applied) :
  settled m s bs act → successor bs act staged block →
  Durable.commit_staged (Durable.mk (owner bs) s act false) staged applied m = (r, self', m') →
  (∀ d, left_by m' d → recoverable d s bs act ∨ recoverable d staged bs act ∨
     recoverable d staged (bs ++ [block]) act) ∧
  (is_ok r = true → r = Ok applied ∧ self' = Durable.mk (owner (bs ++ [block])) staged act false ∧
    settled m' staged (bs ++ [block]) act) ∧
  (is_ok r = false → Durable.recovery_required self' = true ∧ Durable.live_state self' = s) ∧
  (fault_free m → is_ok (Snapshot.encode_reputation_state_snapshot staged) = true →
    is_ok r = true ∧ fault_free m').
Proof.
  intros [Hc Htip Hclean] Hsucc. unfold Durable.commit_staged. cbn [Durable.history]. fold block.
  destruct (StateStore.persist staged m) as [r1 m1] eqn:Ep.
  pose proof (persist_commits _ _ _ _ _ _ _ _ Hc Hsucc Ep) as [D1 C1].
  apply persist_spec in Ep as ([[Hblocks _] _] & _ & Hfree1).
  destruct r1 as [[]|e].
  2:{ intros [= <- <- <-]. split_and!; [|done..|intros Hm He; by destruct Hfree1].
      intros d Hd%D1. tauto. }
  destruct (C1 eq_refl) as [Hc1 [l Hp]]. pose proof (commits_blocks _ _ _ _ Hc1) as Hs1.
  unfold History.append. destruct (History.append_inner _ _ _ m1) as [[r2 h2] m2] eqn:Eap.
  apply append_spec in Eap as (A1 & A3 & A4); [|done|by eapply successor_appendable].
  rewrite Hblocks in A3, A4.
  assert (aligned (bs ++ [block]) (ReputationState.latest_block staged)) as Hal
    by (left; rewrite last_snoc; symmetry; apply Hsucc).
  destruct (commits_appended _ _ _ _ _ _ Hc1 A1 Hal) as [D2 C2].
  destruct r2 as [out|e]; intros [= <- <- <-].
  - destruct (A3 eq_refl) as (_ & -> & Hst & Hcl). split_and!; [intros d Hd%D2; tauto|..|done|].
    + intros _. split_and!; [done..|]. split; [auto| |auto]. rewrite last_snoc. symmetry. apply Hsucc.
    + intros Hm He. split; [done|]. destruct (Hfree1 Hm He) as [_ Hm1]. by apply A4.
  - split_and!; [intros d Hd%D2; tauto|done..|]. intros Hm He. destruct (Hfree1 Hm He) as [_ Hm1].
    by destruct (A4 Hm1 Hclean).
Qed.

End commit.
End CommitFacts.

(** ** Processes after a process

    A process sees what the ones before it left, also what they did not sync.
    Its twin sees the same on a machine where all of it was synced: they do the
    same, and a directory that the process synced is also synced alike. *)

Module MirrorFacts.
Import NameFacts IoFacts RunFacts StoreFacts.
Implicit Types (l : entries_of_directory) (m g : machine).

(** The files that are not temporary are still there. *)
Definition extends l l' : Prop := ∀ name f,
  History.is_reputation_block_temp_file_name name = false → l !! name = Some f → l' !! name = Some f.
#[export] Instance extends_preorder : PreOrder extends.
Proof. split; [by intros l name f|]. intros l1 l2 l3 H1 H2 name f Ht Hl. auto. Qed.

(** No history file is synced that is not there any more. *)
Definition behind m : Prop := extends (block_files (synced m)) (block_files (files m)).

Definition twins m g : Prop := files m = files g ∧ budget m = budget g ∧ torn m = torn g.

(** What is synced of a directory: the same, or what it was before. *)
Definition synced_alike m g m' g' (dir : directory) : Prop :=
  listing dir (synced m') = listing dir (synced g') ∨
  (listing dir (synced m') = listing dir (synced m) ∧ listing dir (synced g') = listing dir (synced g)).

Record mirrors {A} (c : machine → A * machine) : Prop := {
  mirrors_twin m g x m' : twins m g → c m = (x, m') →
    ∃ g', c g = (x, g') ∧ twins m' g' ∧ ∀ dir, synced_alike m g m' g' dir;
  mirrors_grows m x m' : c m = (x, m') → extends (block_files (files m)) (block_files (files m'));
  mirrors_behind m x m' : c m = (x, m') → behind m → behind m'
}.

Lemma mirrors_pure {A} (x : A) : mirrors (λ m, (x, m)).
Proof.
  split; [|by intros m y m' [= _ <-]..]. intros m g y m' Ht [= <- <-]. exists g. split_and!; [done..|].
  intros dir. by right.
Qed.
Lemma mirrors_seq {A B} (c : machine → A * machine) (k : A → machine → B * machine) :
  mirrors c → (∀ x, mirrors (k x)) → mirrors (λ m, let '(x, m) := c m in k x m).
Proof.
  intros Hc Hk. split.
  - intros m g y m' Ht. destruct (c m) as [x m1] eqn:Ec. intros Ek.
    destruct (mirrors_twin _ Hc _ _ _ _ Ht Ec) as (g1 & -> & Ht1 & H1).
    destruct (mirrors_twin _ (Hk x) _ _ _ _ Ht1 Ek) as (g2 & E2 & Ht2 & H2).
    exists g2. split_and!; [done..|]. intros dir. destruct (H2 dir) as [E|[E E']]; [by left|].
    unfold synced_alike. rewrite E, E'. apply H1.
  - intros m y m'. destruct (c m) as [x m1] eqn:Ec. intros Ek.
    etransitivity; [by eapply (mirrors_grows _ Hc)|by eapply (mirrors_grows _ (Hk x))].
  - intros m y m'. destruct (c m) as [x m1] eqn:Ec. intros Ek Hb.
    eapply (mirrors_behind _ (Hk x)); [done|]. by eapply (mirrors_behind _ Hc).
Qed.
Lemma mirrors_ext {A} (c c' : machine → A * machine) : (∀ m, c m = c' m) → mirrors c → mirrors c'.
Proof.
  intros He Hc. split.
  - intros m g x m' Ht Hr. rewrite <-He in Hr. destruct (mirrors_twin _ Hc _ _ _ _ Ht Hr) as (g' & E & ?).
    exists g'. by rewrite <-He.
  - intros m x m'. rewrite <-He. by apply (mirrors_grows _ Hc).
  - intros m x m'. rewrite <-He. by apply (mirrors_behind _ Hc).
Qed.
(** The shape of a computation, up to the equality of its results. *)
Ltac mirrors_by t := apply (mirrors_ext t); [intros ?; repeat case_match; simplify_eq; done|].

Lemma mirrors_ret {E A} (x : A) : mirrors (io_ret x : io E A).
Proof. apply mirrors_pure. Qed.
Lemma mirrors_lift {E A} (r : result A E) : mirrors (io_lift r).
Proof. apply mirrors_pure. Qed.
Lemma mirrors_bind {E A B} (c : io E A) (k : A → io E B) :
  mirrors c → (∀ x, mirrors (k x)) → mirrors (io_bind c k).
Proof.
  intros Hc Hk. apply (mirrors_ext (λ m, let '(r, m) := c m in
    match r with Ok x => k x | Err e => λ m, (Err e, m) end m)).
  - intros m. unfold io_bind. by destruct (c m) as [[x|e] m1].
  - apply mirrors_seq; [done|]. intros [x|e]; [apply Hk|apply mirrors_pure].
Qed.
Lemma mirrors_map_err {E F A} (f : E → F) (c : io E A) : mirrors c → mirrors (io_map_err f c).
Proof.
  intros Hc. apply (mirrors_seq c (λ r m, (map_err f r, m))); [done|]. intros r. apply mirrors_pure.
Qed.

(** *** The operations *)

Lemma mirrors_query {A} (f : disk → A) : mirrors (query f).
Proof.
  split.
  - intros [d s b t] [d' s' b' t'] x m' (E1 & E2 & E3). cbn in E1, E2, E3. subst d' b' t'. unfold query, operation.
    cbn. destruct b as [[|n]|]; intros [= <- <-]; (eexists; split; [reflexivity|]);
      (split; [done|]); intros dir; by right.
  - intros [d s b t] x m'. unfold query, operation. cbn. by destruct b as [[|n]|]; intros [= _ <-].
  - intros [d s b t] x m'. unfold query, operation. cbn. by destruct b as [[|n]|]; intros [= _ <-].
Qed.

Lemma blocks_sync (P : entries_of_directory → Prop) dir d s :
  P (block_files s) → P (block_files d) → P (block_files (with_listing dir s (listing dir d))).
Proof. by destruct dir. Qed.

Lemma mirrors_sync dir : mirrors (sync_directory dir).
Proof.
  split.
  - intros [d s b t] [d' s' b' t'] x m' (E1 & E2 & E3). cbn in E1, E2, E3. subst d' b' t'. unfold sync_directory, operation.
    cbn. destruct b as [[|n]|]; intros [= <- <-]; (eexists; split; [reflexivity|]);
      (split; [done|]); intros dir'; destruct dir, dir'; first [by left|by right].
  - intros [d s b t] x m'. unfold sync_directory, operation. cbn. by destruct b as [[|n]|]; intros [= _ <-].
  - intros [d s b t] x m'. unfold sync_directory, operation, behind. cbn.
    destruct b as [[|n]|]; intros [= _ <-]; [done|..]; cbn [synced files]; intros Hb;
      by apply (blocks_sync (λ l, extends l (block_files d))).
Qed.

(** An operation that only changes what is seen, and keeps the history files. *)
Lemma mirrors_operation (effect : disk → result disk IoError) (partial : nat → disk → disk) :
  (∀ d d', effect d = Ok d' → extends (block_files d) (block_files d')) →
  (∀ torn d, extends (block_files d) (block_files (partial torn d))) →
  mirrors (operation (λ d sync, let? d := effect d in Ok (tt, d, sync)) partial).
Proof.
  intros He Hp. split.
  - intros [d s b t] [d' s' b' t'] x m' (E1 & E2 & E3). cbn in E1, E2, E3. subst d' b' t'. unfold operation. cbn.
    destruct b as [[|n]|], (effect d) as [d'|e]; cbn; intros [= <- <-];
      (eexists; split; [reflexivity|]); (split; [done|]); intros dir; by right.
  - intros [d s b t] x m'. unfold operation. cbn.
    destruct b as [[|n]|], (effect d) as [d'|e] eqn:Ee; cbn; intros [= _ <-]; cbn; auto; reflexivity.
  - intros [d s b t] x m'. unfold operation, behind. cbn.
    destruct b as [[|n]|], (effect d) as [d'|e] eqn:Ee; cbn; intros [= _ <-]; cbn; intros Hb; try done;
      (etransitivity; [exact Hb|]); auto.
Qed.

Definition keeps_history (dir : directory) (f : entries_of_directory → result entries_of_directory IoError) :=
  dir = Blocks → ∀ l l', f l = Ok l' → extends l l'.
Lemma mirrors_change dir f : keeps_history dir f → mirrors (change dir f).
Proof.
  intros Hf. apply (mirrors_ext (operation (λ d sync, let? d := (let? l := f (listing dir d) in
    Ok (with_listing dir d l)) in Ok (tt, d, sync)) unchanged)).
  - intros m. unfold change, operation. destruct (budget m) as [[|n]|]; try done; by destruct (f _).
  - apply mirrors_operation; [|by intros]. intros d d'. destruct (f _) as [l|e] eqn:Ef; [|done].
    cbn. intros [= <-]. destruct dir; cbn; [reflexivity|by eapply Hf].
Qed.
Lemma mirrors_write dir name bytes :
  (dir = Blocks → History.is_reputation_block_temp_file_name name = true) → mirrors (write_all dir name bytes).
Proof.
  intros Hn.
  assert (∀ bytes d, extends (block_files d)
    (block_files (with_listing dir d (<[name := mkFile bytes false]> (listing dir d))))) as H.
  { intros bs d. destruct dir; cbn; [reflexivity|]. intros x f Hx Hl. rewrite lookup_insert_ne; [done|].
    intros ->. by rewrite Hn in Hx. }
  apply (mirrors_operation (λ d, Ok (with_listing dir d (<[name := mkFile bytes false]> (listing dir d)))));
    [|auto]. intros d d' [= <-]. apply H.
Qed.

Lemma mirrors_create_truncate dir name : dir = Por → mirrors (create_truncate dir name).
Proof. intros ->. by apply mirrors_change. Qed.
Lemma mirrors_create_new name : mirrors (create_new Blocks name).
Proof.
  apply mirrors_change. intros _ l l'. destruct (l !! name) eqn:El; intros [= <-] x y _ Hx.
  rewrite lookup_insert_ne; [done|]. congruence.
Qed.
Lemma mirrors_hard_link from to : mirrors (hard_link Blocks from to).
Proof.
  apply mirrors_change. intros _ l l'. destruct (l !! from) as [f'|], (l !! to) eqn:El; cbn; try done.
  intros [= <-] x y _ Hx. rewrite lookup_insert_ne; [done|]. congruence.
Qed.
Lemma mirrors_remove name :
  History.is_reputation_block_temp_file_name name = true → mirrors (remove_file Blocks name).
Proof.
  intros Hn. apply mirrors_change. intros _ l l'. destruct (l !! name); intros [= <-] x y Ht Hx.
  rewrite lookup_delete_ne; [done|]. congruence.
Qed.
Lemma mirrors_sync_file dir name :
  (dir = Blocks → History.is_reputation_block_temp_file_name name = true) → mirrors (sync_file dir name).
Proof.
  intros Hn. apply mirrors_change. intros Hd l l'. destruct (l !! name); intros [= <-] x y Ht Hx.
  rewrite lookup_insert_ne; [done|]. intros ->. by rewrite Hn in Ht.
Qed.
Lemma mirrors_rename from to : mirrors (rename Por from to).
Proof. by apply mirrors_change. Qed.

Ltac mirrors :=
  repeat first
    [ apply mirrors_bind; [|intros ?]
    | apply mirrors_map_err | apply mirrors_query | apply mirrors_sync | apply mirrors_ret
    | apply mirrors_lift | apply mirrors_create_truncate; reflexivity | apply mirrors_create_new
    | apply mirrors_hard_link | apply mirrors_rename
    | apply mirrors_write; intros; solve [done|apply temp_name_temp]
    | apply mirrors_sync_file; intros; solve [done|apply temp_name_temp]
    | apply mirrors_remove; solve [done|apply temp_name_temp]
    | progress unfold History.cleanup_temporary_files, History.recover_history, History.open,
        History.read_block_file, History.admit_block, History.existing_outcome,
        replace_file, StateStore.open, StateStore.persist,
        StateStore.restore, Activation.open, Activation.restore, prepare, read_file, read_dir, exists_file
    | match goal with
      | |- mirrors (match ?x with _ => _ end) => destruct x eqn:?
      | |- mirrors (if ?x then _ else _) => destruct x eqn:?
      end ].

Section mirror.
Context `{HO : HashOrder} `{HB : Blake2b}.

Lemma mirrors_remove_temporary names removed : mirrors (History.remove_temporary names removed).
Proof.
  revert removed. induction names as [|name names IH]; intros removed; cbn; mirrors; [done|apply IH..].
Qed.
Lemma mirrors_recover_blocks retained acc : mirrors (History.recover_blocks retained acc).
Proof.
  revert acc. induction retained as [|[round name] retained IH]; intros acc; cbn; mirrors; apply IH.
Qed.
Lemma mirrors_history_open : mirrors History.open.
Proof. mirrors; [apply mirrors_remove_temporary|apply mirrors_recover_blocks]. Qed.
Lemma mirrors_commit_block round name bytes : name = History.reputation_block_temp_file_name round →
  ∀ committed, mirrors (History.commit_block_file name committed bytes).
Proof. intros -> committed. unfold History.commit_block_file. mirrors. Qed.

Lemma mirrors_append self block allow : mirrors (History.append_inner self block allow).
Proof.
  unfold History.append_inner. destruct (map_err _ _) as [encoded|e]; [|apply mirrors_pure].
  set (round := header_round (header block)).
  apply (mirrors_ext (λ m, let '(r, m) := History.admit_block self block allow m in
    match r with
    | Err e => λ m, (Err e, self, m)
    | Ok (Some outcome) => λ m, (Ok outcome, self, m)
    | Ok None => λ m,
      let '(r, m) := History.commit_block_file (History.reputation_block_temp_file_name round)
        (History.reputation_block_file_name round) encoded m in
      (match r with
       | Err e => (Err (History.HistoryIo e), History.mk (History.tip self) (History.history_len self) true)
       | Ok _ => (Ok History.Appended, History.mk (Some block) (S (History.history_len self))
           (History.recovery_required self))
       end, m)
    end m)).
  - intros m. destruct (History.admit_block _ _ _ m) as [[[out|]|e] m1]; [done| |done].
    by destruct (History.commit_block_file _ _ _ m1) as [[]].
  - apply mirrors_seq; [mirrors|]. intros [[out|]|e]; [apply mirrors_pure| |apply mirrors_pure].
    apply mirrors_seq; [by eapply mirrors_commit_block|]. intros r. apply mirrors_pure.
Qed.

Lemma mirrors_reconcile self tip : mirrors (History.reconcile_state_tip self tip).
Proof.
  assert (∀ block allow, mirrors (λ m, let '(r, self, m) := History.append_inner self block allow m in
    (let? _ := r in Ok tt, self, m))) as Happ.
  { intros block allow. pose proof (mirrors_seq (History.append_inner self block allow)
      (λ x m, (let? _ := x.1 in Ok tt, x.2, m)) (mirrors_append _ _ _) ltac:(intros; apply mirrors_pure)) as H.
    eapply mirrors_ext; [|exact H]. intros m. cbv beta. destruct (History.append_inner self block allow m) as [[r s] m1]. reflexivity. }
  unfold History.reconcile_state_tip.
  destruct (History.latest self) as [[history|]|e], tip as [state|]; try apply mirrors_pure; [|apply Happ].
  destruct (decide (history = state)); [apply mirrors_pure|].
  destruct (decide _); [apply Happ|apply mirrors_pure].
Qed.
Lemma mirrors_reconciled history tip : mirrors (Durable.reconciled history tip).
Proof.
  apply (mirrors_ext (λ m, let '(x, m) := History.reconcile_state_tip history tip m in
    (let? _ := map_err Durable.HistoryFailed x.1 in Ok x.2, m))).
  - intros m. unfold Durable.reconciled. by destruct (History.reconcile_state_tip _ _ m) as [[r h] m1].
  - apply mirrors_seq; [apply mirrors_reconcile|]. intros x. apply mirrors_pure.
Qed.
Lemma mirrors_open_state initial : mirrors (Durable.open_state initial).
Proof. unfold Durable.open_state. mirrors. Qed.
Lemma mirrors_open initial : mirrors (Durable.open initial).
Proof.
  unfold Durable.open. apply mirrors_bind; [apply mirrors_open_state|intros s].
  apply mirrors_bind; [apply mirrors_map_err, mirrors_history_open|intros h].
  apply mirrors_bind; [apply mirrors_reconciled|intros h']. mirrors.
Qed.
Lemma mirrors_commit_staged self staged applied : mirrors (Durable.commit_staged self staged applied).
Proof.
  apply (mirrors_ext (λ m, let '(r, m) := StateStore.persist staged m in
    match r with
    | Err e => λ m, (Err (Durable.Persistence e), Durable.closed self (Durable.history self), m)
    | Ok _ => λ m,
      let '(x, m) := History.append_inner (Durable.history self) (RoundTransition.applied_block applied) false m in
      (match x.1 with
       | Err e => (Err (Durable.HistoryFailed e), Durable.closed self x.2)
       | Ok _ => (Ok applied, Durable.mk x.2 staged (Durable.activated_weights self)
           (Durable.recovery_required self))
       end, m)
    end m)).
  - intros m. unfold Durable.commit_staged, History.append. destruct (StateStore.persist _ m) as [[[]|e] m1]; [|done].
    by destruct (History.append_inner _ _ _ m1) as [[[] h] m2].
  - apply mirrors_seq; [mirrors|]. intros [[]|e]; [|apply mirrors_pure].
    apply mirrors_seq; [apply mirrors_append|]. intros x. apply mirrors_pure.
Qed.
Lemma mirrors_apply_staged self stage : mirrors (Durable.apply_staged self stage).
Proof.
  unfold Durable.apply_staged. destruct (let? _ := _ in _) as [[staged applied]|e]; [|apply mirrors_pure].
  apply mirrors_commit_staged.
Qed.

(** *** The start of a process

    Until the state directory is synced nothing happens to the history. *)

Definition spares {A} (c : machine → A * machine) : Prop := ∀ m x m', c m = (x, m') →
  block_files (files m') = block_files (files m) ∧ block_files (synced m') = block_files (synced m).

Lemma spares_pure {A} (x : A) : spares (λ m, (x, m)).
Proof. by intros m y m' [= _ <-]. Qed.
Lemma spares_bind {E A B} (c : io E A) (k : A → io E B) :
  spares c → (∀ x, spares (k x)) → spares (io_bind c k).
Proof.
  intros Hc Hk m x m'. unfold io_bind. destruct (c m) as [[y|e] m1] eqn:Ec; apply Hc in Ec as [E1 E2].
  - intros [-> ->]%Hk. done.
  - by intros [= <- <-].
Qed.
Lemma spares_map_err {E F A} (f : E → F) (c : io E A) : spares c → spares (io_map_err f c).
Proof.
  intros Hc m x m'. unfold io_map_err. destruct (c m) as [y m1] eqn:Ec. intros [= _ <-]. by eapply Hc.
Qed.
Lemma spares_query {A} (f : disk → A) : spares (query f).
Proof. intros [d s b t] x m'. unfold query, operation. cbn. by destruct b as [[|n]|]; intros [= _ <-]. Qed.
Lemma spares_sync : spares (sync_directory Por).
Proof.
  intros [d s b t] x m'. unfold sync_directory, operation. cbn. by destruct b as [[|n]|]; intros [= _ <-].
Qed.
Lemma spares_change f : spares (change Por f).
Proof.
  intros [d s b t] x m'. unfold change, operation. cbn.
  destruct b as [[|n]|]; [by intros [= _ <-]|..]; destruct (f _); cbn; by intros [= _ <-].
Qed.
Lemma spares_write name bytes : spares (write_all Por name bytes).
Proof. intros [d s b t] x m'. unfold write_all, operation. cbn. by destruct b as [[|n]|]; intros [= _ <-]. Qed.

Ltac spares :=
  repeat first
    [ apply spares_bind; [|intros ?] | apply spares_map_err | apply spares_query | apply spares_sync
    | apply spares_change | apply spares_write | apply spares_pure
    | progress unfold Durable.open_state, replace_file, StateStore.open, StateStore.persist,
        StateStore.restore, prepare, read_file, create_truncate, sync_file, rename
    | match goal with |- spares (match ?x with _ => _ end) => destruct x end ].

(** The operations up to that sync. *)
Definition opening initial : io Durable.DurablePorStateError ReputationState.t :=
  perform state := Durable.open_state initial in
  perform _ := io_map_err Durable.HistoryFailed (io_map_err History.HistoryIo prepare) in
  perform _ := io_map_err Durable.HistoryFailed (io_map_err History.HistoryIo prepare) in
  perform _ := io_map_err Durable.HistoryFailed (io_map_err History.HistoryIo (sync_directory Por)) in
  io_ret state.

Lemma open_opening initial : ∃ rest, (∀ s, mirrors (rest s)) ∧
  ∀ m, Durable.open initial m = io_bind (opening initial) rest m.
Proof.
  exists (λ state, perform history := io_map_err Durable.HistoryFailed
      (perform _ := History.cleanup_temporary_files in History.recover_history) in
    perform history := Durable.reconciled history (ReputationState.latest_block state) in
    CommitFacts.open_activation state history). split.
  - intros s. apply mirrors_bind.
    + mirrors; [apply mirrors_remove_temporary|apply mirrors_recover_blocks].
    + intros h. apply mirrors_bind; [apply mirrors_reconciled|intros h']. unfold CommitFacts.open_activation. mirrors.
  - intros m. unfold Durable.open, opening, History.open, io_bind, io_map_err, io_ret.
    destruct (Durable.open_state initial m) as [[s|e] m1]; [|done].
    destruct (prepare m1) as [[[]|e] m2]; cbn [map_err]; [|done].
    destruct (prepare m2) as [[[]|e] m3]; cbn [map_err]; [|done].
    by destruct (sync_directory Por m3) as [[[]|e] m4].
Qed.

Lemma mirrors_opening initial : mirrors (opening initial).
Proof. unfold opening. apply mirrors_bind; [apply mirrors_open_state|intros s]. mirrors. Qed.
Lemma spares_opening initial : spares (opening initial).
Proof. unfold opening. spares. Qed.

Lemma synced_directory dir m x m' :
  sync_directory dir m = (Ok x, m') → listing dir (synced m') = listing dir (files m').
Proof.
  destruct m as [d s b t]. unfold sync_directory, operation. cbn.
  destruct b as [[|n]|]; [done|..]; intros [= _ <-]; by destruct dir.
Qed.
Lemma opening_syncs initial m s m' :
  opening initial m = (Ok s, m') → por_files (synced m') = por_files (files m').
Proof.
  unfold opening, io_bind, io_map_err, io_ret. destruct (Durable.open_state initial m) as [[s0|e] m1]; [|done].
  destruct (prepare m1) as [[[]|e] m2]; cbn [map_err]; [|done].
  destruct (prepare m2) as [[[]|e] m3]; cbn [map_err]; [|done].
  destruct (sync_directory Por m3) as [[[]|e] m4] eqn:Es; cbn [map_err]; [|done].
  intros [= _ <-]. by apply (synced_directory Por) in Es.
Qed.

(** What a start does is synced like on its twin, or nothing of it is. *)
Lemma open_twin {A} initial (k : result Durable.t Durable.DurablePorStateError → machine → A * machine)
    (none : A) m g x m' :
  (∀ r, mirrors (k r)) → (∀ e m, k (Err e) m = (none, m)) → twins m g →
  (let '(r, m) := Durable.open initial m in k r m) = (x, m') →
  ∃ g', (let '(r, g) := Durable.open initial g in k r g) = (x, g') ∧ twins m' g' ∧
    synced_alike m g m' g' Blocks ∧
    (por_files (synced m') = por_files (synced g') ∨
     x = none ∧ por_files (synced m') = por_files (synced m) ∧
     block_files (files m') = block_files (files m) ∧ block_files (synced m') = block_files (synced m)).
Proof.
  intros Hk He Ht Hrun. destruct (open_opening initial) as (rest & Hrest & Em).
  rewrite Em in Hrun. unfold io_bind in Hrun. destruct (opening initial m) as [[s|e] m1] eqn:Eo.
  - destruct (mirrors_twin _ (mirrors_opening initial) _ _ _ _ Ht Eo) as (g1 & Eg & Ht1 & H1).
    destruct (mirrors_twin _ (mirrors_seq _ _ (Hrest s) Hk) _ _ _ _ Ht1 Hrun) as (g' & Eg' & Ht' & H').
    exists g'. rewrite Em. unfold io_bind. rewrite Eg. split_and!; [done..| |].
    + destruct (H' Blocks) as [E|[E E']]; [by left|]. unfold synced_alike. rewrite E, E'. apply H1.
    + left. destruct (H' Por) as [E|[E E']]; [done|]. cbn [listing] in E, E'. rewrite E, E'.
      apply opening_syncs in Eo as ->, Eg as ->. by destruct Ht1 as [-> _].
  - rewrite He in Hrun. injection Hrun as <- <-.
    destruct (mirrors_twin _ (mirrors_opening initial) _ _ _ _ Ht Eo) as (g1 & Eg & Ht1 & H1).
    exists g1. rewrite Em. unfold io_bind. rewrite Eg, He. split_and!; [done..|apply H1|].
    destruct (H1 Por) as [E|[E _]]; [by left|right]. apply spares_opening in Eo as [? ?]. done.
Qed.

End mirror.
End MirrorFacts.
