(* ===== verification/DurableTheorems.v ===== *)
(** * The durable reputation state

    What a node promises whose processes may be killed at any file operation and
    whose machine may lose its power: an acknowledged round is not lost, a commit
    is done or not done, and a start succeeds. *)

From S2P Require Import Prelude Types Lace Bytes Payload RatingFlow Collector QuorumFacts.
From S2P Require Import RatingFlowFacts.
From S2P Require Import RatingRound RatingRoundFacts Authorization AuthorizationFacts Attestation.
From S2P Require Import AttestationFacts.
From S2P Require Import PorTypes PorMath PorMathFacts PorCommit PorAudit PorAuditFacts.
From S2P Require Import PorReplayFacts.
From S2P Require Import PorState PorCodec PorCodecFacts Durable DurableFacts.
From S2P Require Import FinalOutput Crypto Samples.
From stdpp Require Import options.

Import FileSystem.

(** ** Rounds of a node *)

Module NodeRounds.
Import NameFacts IoFacts HistoryFacts RunFacts AppendFacts StoreFacts CommitFacts MirrorFacts.
Abbreviation Applied := RoundTransition.AppliedPorReputationRound.
Abbreviation blocks := (fmap RoundTransition.applied_block).

Section rounds.
Context `{HO : HashOrder} `{HB : Blake2b}.
Implicit Types (d : disk) (s : ReputationState.t) (bs : list ReputationBlock) (act : option Activation.t).

(** A round that a node is asked to commit. *)
Inductive round :=
  | Completed (completed : CompletedRound.t)
  | CompletedCheckpointRound (completed : CompletedCheckpoint.t)
  | AttestedRound (attested : Attestation.AttestedPorCheckpoint) (completed : CompletedRound.t).
Record request := mkRequest { asked : round; asked_config : PorConfig.t; asked_shard : list byte }.

Definition stage (r : request) s : result (ReputationState.t * Applied) PorError :=
  match asked r with
  | Completed completed => RoundTransition.stage_completed_reputation_round completed s
      (asked_config r) (asked_shard r)
  | CompletedCheckpointRound completed => stage_completed_checkpoint_round completed s
      (asked_config r) (asked_shard r)
  | AttestedRound attested completed => RoundTransition.stage_attested_checkpoint completed s
      (asked_config r) (asked_shard r) (Attestation.attested_block attested)
  end.
Definition apply (self : Durable.t) (r : request) :=
  match asked r with
  | Completed completed => Durable.apply_completed_round self completed (asked_config r) (asked_shard r)
  | CompletedCheckpointRound completed => Durable.apply_completed_checkpoint_round self completed
      (asked_config r) (asked_shard r)
  | AttestedRound attested completed => Durable.apply_attested_checkpoint self attested completed
      (asked_config r) (asked_shard r)
  end.
Lemma apply_stage self r : apply self r = Durable.apply_staged self (stage r).
Proof. destruct r as [[]]; done. Qed.

(** The rounds one after the other, without any storage. *)
Inductive committed (available : list request) s : list Applied → ReputationState.t → Prop :=
  | committed_nil : committed available s [] s
  | committed_snoc log s' r staged applied :
      committed available s log s' → r ∈ available → stage r s' = Ok (staged, applied) →
      committed available s (log ++ [applied]) staged.

(** *** A process of the node: it starts, and is asked for rounds *)

Fixpoint serve (self : Durable.t) (requests : list request) (m : machine) : list Applied * machine :=
  match requests with
  | [] => ([], m)
  | r :: requests =>
    let '(outcome, self, m) := apply self r m in
    let '(acknowledged, m) := serve self requests m in
    (match outcome with Ok applied => [applied] | Err _ => [] end ++ acknowledged, m)
  end.
Definition process (initial : ReputationState.t) (requests : list request) (m : machine) :
    list Applied * machine :=
  match Durable.open initial m with
  | (Ok self, m) => serve self requests m
  | (Err _, m) => ([], m)
  end.

(** The processes of a node on one machine: the operation that each stops at, how
    much of an unfinished write is done, and how it ends. *)
Record run := mkRun {
  run_budget : option nat;
  run_torn : nat;
  run_end : ending;
  run_requests : list request
}.
Definition session (initial : ReputationState.t) (r : run) (m : machine) : list Applied * machine :=
  process initial (run_requests r) (start m (run_budget r) (run_torn r)).
Fixpoint lifetime (initial : ReputationState.t) (runs : list run) (m : machine) :
    list Applied * machine :=
  match runs with
  | [] => ([], m)
  | r :: runs =>
    let '(acknowledged, m) := session initial r m in
    let '(later, m) := lifetime initial runs (after (run_end r) m) in
    (acknowledged ++ later, m)
  end.

(** A loss of power takes back no block file that its session found, unless all
    of them were synced when it started: so it is when the machine was turned
    on for the session. *)
Definition keeps_history (m m' : machine) (e : ending) : Prop :=
  match e with
  | Killed => True
  | PowerLost lost => block_files (synced m) = block_files (files m) ∨
      extends (block_files (files m)) (block_files (mixed lost m'))
  end.
Fixpoint history_kept (initial : ReputationState.t) (runs : list run) (m : machine) : Prop :=
  match runs with
  | [] => True
  | r :: runs =>
    let m' := (session initial r m).2 in
    keeps_history m m' (run_end r) ∧ history_kept initial runs (after (run_end r) m')
  end.

(** *** What a staged round is *)

Lemma blend_advances contribution previous config out :
  Transition.blend_reputation_transition contribution previous config = Ok out →
  checked_add u64_max (vector_round previous) 1 = Some (vector_round out).
Proof.
  unfold Transition.blend_reputation_transition.
  intros (_ & (_ & (_ & _ & (Hround%dec_stable & (_ & _ & (_ & _ & (es & _ & [= <-])%result_bind_Ok)%result_bind_Ok)%result_bind_Ok)%bail_Ok)%result_bind_Ok)%bail_Ok)%bail_Ok.
  exact Hround.
Qed.
Lemma clamp_keeps_round blended previous contribution config out :
  Clamp.clamp_reputation_transition blended previous contribution config = Ok out →
  vector_round out = vector_round blended.
Proof.
  unfold Clamp.clamp_reputation_transition, Clamp.clamp_reputation_vector. intros Ho.
  case_decide; invert_Ok Ho; by injection Ho as <-.
Qed.

Lemma replay_advances previous ratings round config penalties out :
  Replay.replay_reputation_transition_with_penalties previous ratings round config penalties = Ok out →
  (round = vector_round previous + 1 ∧ round <= u64_max)%N.
Proof.
  unfold Replay.replay_reputation_transition_with_penalties.
  intros (_ & _ & (_ & _ & (_ & _ & (v & Hc & _)%result_bind_Ok)%result_bind_Ok)%result_bind_Ok)%result_bind_Ok.
  pose proof (calculate_round _ _ _ _ _ Hc) as <-. unfold Replay.calculate in Hc.
  apply result_bind_Ok in Hc as (? & _ & (? & _ & (? & _ & (? & _ & (b & Hb & Hc)%result_bind_Ok)%result_bind_Ok)%result_bind_Ok)%result_bind_Ok).
  apply clamp_keeps_round in Hc as ->. apply blend_advances, checked_add_Some in Hb as [-> ?]. done.
Qed.

(** A round that is applied to a state follows its block. *)
Record advances s staged (block : ReputationBlock) : Prop := {
  advances_commits : staged = ReputationState.commit_audited_block s block;
  advances_round : ReputationState.current_round staged = (ReputationState.current_round s + 1)%N;
  advances_link : Building.previous_hash (shard_id (header block)) (header_round (header block))
    (ReputationState.latest_block s) = Ok (previous_reputation_hash (header block));
  advances_max : (header_round (header block) <= u64_max)%N
}.

Lemma stage_advances r s staged applied :
  stage r s = Ok (staged, applied) →
  advances s staged (RoundTransition.applied_block applied).
Proof.
  assert (∀ completed config shard block,
    RoundTransition.stage_reputation_block completed s config shard block = Ok (staged, applied) →
    advances s staged (RoundTransition.applied_block applied)) as Hwave.
  { intros completed config shard block Hs. unfold RoundTransition.stage_reputation_block in Hs.
    apply result_bind_Ok in Hs as (_ & _ & (st & Ha & [= <- <-])%result_bind_Ok).
    apply result_bind_Ok in Ha as ([] & [Hr Hw]%verify_Ok & [= <-]).
    apply replay_advances in Hr as [Hr Hmax]. destruct Hw as [_ _ _ _ (ph & ? & ? & ? & Hp & _ & _ & E) _].
    cbn [RoundTransition.applied_block]. split; [done|done| |by rewrite E]. rewrite E. exact Hp. }
  unfold stage. destruct (asked r) as [completed|completed|attested completed].
  - unfold RoundTransition.stage_completed_reputation_round.
    intros (_ & _ & (list & _ & (block & _ & Hs)%result_bind_Ok)%result_bind_Ok)%result_bind_Ok.
    by eapply Hwave.
  - unfold stage_completed_checkpoint_round.
    intros (_ & _ & (_ & _ & (list & _ & (block & _ & (st & Ha & [= <- <-])%result_bind_Ok)%result_bind_Ok)%result_bind_Ok)%result_bind_Ok)%result_bind_Ok.
    apply result_bind_Ok in Ha as ([] & [Hr Hc]%verify_checkpoint_Ok & [= <-]).
    apply replay_advances in Hr as [Hr Hmax].
    destruct Hc as [_ _ _ _ Hl (ph & ? & ? & ? & Hp & _ & _ & E) _].
    cbn [RoundTransition.applied_block]. split; [done|done| |]; rewrite E; [exact Hp|]. cbn in Hl |- *. by rewrite <-Hl.
  - apply Hwave.
Qed.

Lemma advances_typed s staged block :
  advances s staged block → fits_u64 (header_source_finalized_wave (header block)) →
  source_checkpoint (header block) = None → typed_list (ReputationState.state_list staged) →
  typed_state staged.
Proof.
  intros [-> _ _ Hmax] Hwave Hsource Hl. split; [apply Hl|]. split; [done|].
  intros b [= <-]. split_and!; [done|done| |done]. by rewrite Hsource.
Qed.

(** The next block of a settled history, whatever the round. *)
Lemma advances_successor m s bs act staged block :
  settled m s bs act → advances s staged block → typed_state staged →
  successor bs act staged block.
Proof.
  intros [[_ _ _ _ Hv] Htip _] [-> Hround Hlink Hmax] Ht. split; [done| |done|].
  - rewrite Htip. unfold Building.previous_hash in Hlink.
    destruct (ReputationState.latest_block s) as [tip|]; [|by injection Hlink].
    apply bail_Ok in Hlink as [Hshard%dec_stable [Hr%dec_stable Hlink]%bail_Ok].
    apply result_bind_Ok in Hlink as (hash & Hh & [= Hprev]). unfold History.validate_successor.
    rewrite Hr. cbn [ok_or result_bind]. rewrite decide_False by tauto. rewrite decide_False by congruence.
    rewrite Hh. cbn [map_err result_bind]. by rewrite decide_False by congruence.
  - destruct act as [record|]; [|done]. unfold Durable.validate_activation_record in *.
    assert (Activation.reputation_round record <= ReputationState.current_round s)%N as Hle.
    { apply bail_Ok in Hv as [Hle _]. lia. }
    apply bail_Ok. split; [lia|]. by rewrite decide_False by lia.
Qed.

(** *** What a disk holds *)

(** The state and its whole history, whether or not its last block is in it. *)
Inductive holds (initial : ReputationState.t) : option Activation.t →
    disk → ReputationState.t → list ReputationBlock → Prop :=
  | holds_fresh d : fresh d →
      holds initial None d initial (caught_up [] (ReputationState.latest_block initial))
  | holds_committed act d s bs : recoverable d s bs act →
      holds initial act d s (caught_up bs (ReputationState.latest_block s)).

Lemma holds_done initial act d s bs :
  recoverable d s bs act → last bs = ReputationState.latest_block s → holds initial act d s bs.
Proof. intros Hr Ht. rewrite <-(caught_up_id bs _ Ht). by constructor. Qed.
Lemma holds_settled initial act m d s bs : settled m s bs act → left_by m d → holds initial act d s bs.
Proof. intros [Hc Ht _] Hd. apply holds_done; [by eapply commits_left|done]. Qed.
Lemma holds_recovered initial act d s bs (bs' := caught_up bs (ReputationState.latest_block s)) :
  aligned bs (ReputationState.latest_block s) →
  recoverable d s bs act ∨ recoverable d s bs' act → holds initial act d s bs'.
Proof. intros Ha [Hr|Hr]; [by constructor|]. apply holds_done; [done|by apply caught_up_last]. Qed.
Lemma holds_settle initial act torn d s bs :
  holds initial act d s bs → holds initial act (settle_disk torn d) s bs.
Proof. destruct 1; constructor; [by apply fresh_settle|by apply recoverable_settle]. Qed.

(** A start, whatever happens to it. *)
Lemma open_holds initial act d budget torn s bs r m' (m := start (boot d) budget torn) :
  typed_state initial → holds initial act d s bs → Durable.open initial m = (r, m') →
  (∀ d', left_by m' d' → holds initial act d' s bs) ∧
  (is_ok r = true → r = Ok (Durable.mk (owner bs) s act false) ∧ settled m' s bs act) ∧
  (fault_free m → is_ok (Snapshot.encode_reputation_state_snapshot initial) = true →
    is_ok r = true ∧ fault_free m').
Proof.
  intros Ht Hh. inversion Hh as [d' Hf E1 E2 E3 E4|act' d' s' bs0 Hr E1 E2 E3 E4]; subst; intros Hrun.
  - apply first_start_spec in Hrun as (H1 & H2 & H3); [|done|by intros d' ->%left_start].
    split_and!; [|done..]. intros d' [H|[H|H]]%H1; [by constructor| |];
      (apply holds_recovered; [eapply snapshot_aligned, H|auto]).
  - pose proof (start_commits _ budget torn _ _ _ Hr) as Hc.
    eapply restart_spec in Hrun as (H1 & H2 & H3); [|done]. split_and!; [|done|auto].
    intros d' Hd'. apply holds_recovered; [apply Hr|auto].
Qed.

(** *** One round *)

(** What is left of a request to a settled owner. *)
Lemma apply_holds initial act m s bs req r self m' :
  settled m s bs act →
  (∀ out, stage req s = Ok out → typed_state out.1) →
  apply (Durable.mk (owner bs) s act false) req m = (r, self, m') →
  (∃ e, r = Err e ∧ m' = m ∧ self = Durable.mk (owner bs) s act false ∧
     map_err Durable.TransitionFailed (stage req s) = Err e) ∨
  ∃ staged applied (bs' := bs ++ [RoundTransition.applied_block applied]),
    stage req s = Ok (staged, applied) ∧
    (∀ d, left_by m' d → holds initial act d s bs ∨ holds initial act d staged bs') ∧
    (is_ok r = true → r = Ok applied ∧ self = Durable.mk (owner bs') staged act false ∧
      settled m' staged bs' act) ∧
    (is_ok r = false → Durable.recovery_required self = true) ∧
    (fault_free m → is_ok (Snapshot.encode_reputation_state_snapshot staged) = true →
      is_ok r = true ∧ fault_free m').
Proof.
  intros Hset Ht. rewrite apply_stage. unfold Durable.apply_staged.
  change (Durable.ensure_healthy _) with (Ok tt : result () Durable.DurablePorStateError).
  cbn [result_bind Durable.live_state].
  destruct (stage req s) as [[staged applied]|e] eqn:Es; cbn [map_err].
  2:{ intros [= <- <- <-]. left. by exists (Durable.TransitionFailed e). }
  pose proof (stage_advances _ _ _ _ Es) as Hadv. set (block := RoundTransition.applied_block applied) in *.
  pose proof (advances_successor _ _ _ _ _ _ Hset Hadv (Ht _ eq_refl)) as Hsucc.
  intros Hrun. apply (commit_spec s bs act) in Hrun as (H1 & H2 & H3 & H4); [|done..].
  right. exists staged, applied. fold block in H1, H2 |- *. split; [done|]. split_and!; [|done| |done].
  - pose proof (successor_block _ _ _ _ Hsucc) as Hb. intros d [H|[H|H]]%H1; [left|right|right].
    + apply holds_done; [done|apply Hset].
    + replace (bs ++ [block]) with (caught_up bs (ReputationState.latest_block staged)); [by constructor|].
      rewrite Hb. cbn. rewrite decide_False; [done|]. intros Hl.
      pose proof (successor_link _ _ _ _ Hsucc) as Hlink. rewrite Hl in Hlink.
      apply successor_round in Hlink as [? _]. lia.
    + apply holds_done; [done|]. by rewrite last_snoc.
  - intros Hr. by apply H3.
Qed.

(** *** A process, and the processes of a node *)

(** What the committed rounds of [available] reach is of machine width. *)
Definition typed_rounds available s : Prop :=
  ∀ log s', committed available s log s' → typed_state s'.

Lemma committed_app available s log s' log' s'' :
  committed available s log s' → committed available s' log' s'' →
  committed available s (log ++ log') s''.
Proof.
  intros H1. induction 1 as [|log' s2 r staged applied _ IH Hr Hs]; [by rewrite app_nil_r|].
  rewrite app_assoc. by econstructor.
Qed.
Lemma committed_weaken available available' s log s' :
  available ⊆ available' → committed available s log s' → committed available' s log s'.
Proof. intros Hsub. induction 1; econstructor; eauto. Qed.
Lemma committed_one available r s staged applied :
  r ∈ available → stage r s = Ok (staged, applied) → committed available s [applied] staged.
Proof. intros. eapply (committed_snoc _ _ []); [constructor|done..]. Qed.

(** A request that is accepted once. *)
Lemma committed_once available s r out log s' :
  available ⊆ [r] → stage r s = Ok out → is_ok (stage r out.1) = false →
  committed available s log s' → s' = s ∨ s' = out.1.
Proof.
  intros Hsub Hs Hno. induction 1 as [|log s' r' staged applied _ IH Hr Hst]; [by left|].
  apply Hsub, list_elem_of_singleton in Hr as ->. destruct IH as [->| ->].
  - right. rewrite Hs in Hst. by injection Hst as ->.
  - by rewrite Hst in Hno.
Qed.

Lemma serve_closed self requests m :
  Durable.recovery_required self = true → serve self requests m = ([], m).
Proof.
  intros Hc. induction requests as [|r requests IH]; [done|]. cbn [serve]. rewrite apply_stage.
  unfold Durable.apply_staged, Durable.ensure_healthy. rewrite decide_True by done.
  cbn [result_bind]. by rewrite IH.
Qed.

(** What a run leads to from [s]: committed rounds, which contain the
    acknowledged ones in their order. *)
Definition leads initial act available s bs (acknowledged : list Applied) d : Prop :=
  ∃ log s', committed available s log s' ∧ acknowledged `sublist_of` log ∧
    holds initial act d s' (bs ++ blocks log).

Lemma leads_nowhere initial act available s bs d :
  holds initial act d s bs → leads initial act available s bs [] d.
Proof.
  intros Hh. exists [], s. split; [constructor|]. split; [done|]. cbn. by rewrite app_nil_r.
Qed.
Lemma leads_on initial act available s s' bs log acknowledged acknowledged' d :
  committed available s log s' → acknowledged `sublist_of` log →
  leads initial act available s' (bs ++ blocks log) acknowledged' d →
  leads initial act available s bs (acknowledged ++ acknowledged') d.
Proof.
  intros Hc Hl (log' & s'' & Hc' & Hl' & Hh). exists (log ++ log'), s''.
  split; [by eapply committed_app|]. split; [by apply sublist_app|]. by rewrite fmap_app, app_assoc.
Qed.

Lemma serve_leads initial act available requests m s bs acknowledged m' d :
  requests ⊆ available → typed_rounds available s → settled m s bs act →
  serve (Durable.mk (owner bs) s act false) requests m = (acknowledged, m') → left_by m' d →
  leads initial act available s bs acknowledged d.
Proof.
  revert m s bs acknowledged. induction requests as [|r requests IH];
    intros m s bs acknowledged Hsub Ht Hset.
  { intros [= <- <-] Hd. by eapply leads_nowhere, holds_settled. }
  assert (r ∈ available) as Hr by (apply Hsub; by left).
  assert (requests ⊆ available) as Hsub' by (intros x ?; apply Hsub; by right).
  cbn [serve]. destruct (apply _ r m) as [[outcome self] m1] eqn:Ea.
  apply (apply_holds initial) in Ea as [(e & -> & -> & -> & _)|(staged & applied & Hs & Hh & Hok & Herr & _)];
    [..|done|intros [st ap] Hs; eapply Ht, committed_one; done].
  { destruct (serve _ requests m) as [rest m2] eqn:Es. intros [= <- <-]. by eapply IH. }
  pose proof (committed_one available r s staged applied Hr Hs) as Hone.
  assert (typed_rounds available staged) as Ht'.
  { intros log s' Hc. eapply Ht, committed_app; done. }
  destruct outcome as [x|e].
  - destruct (Hok eq_refl) as ([= ->] & -> & Hset'). destruct (serve _ requests m1) as [rest m2] eqn:Es.
    intros [= <- <-] Hd. eapply (leads_on _ _ _ _ _ _ [_] [_]); [done|done|]. by eapply IH.
  - rewrite serve_closed by auto. intros [= <- <-] Hd. destruct (Hh d Hd) as [Hh'|Hh'].
    + by apply leads_nowhere.
    + eapply (leads_on _ _ _ _ _ _ [_] []); [done|constructor; constructor|]. by apply leads_nowhere.
Qed.

Lemma process_leads initial act available requests d budget torn s bs acknowledged m' d' :
  requests ⊆ available → typed_state initial → typed_rounds available s →
  holds initial act d s bs → process initial requests (start (boot d) budget torn) = (acknowledged, m') →
  left_by m' d' → leads initial act available s bs acknowledged d'.
Proof.
  intros Hsub Hi Ht Hh. unfold process.
  destruct (Durable.open initial (start (boot d) budget torn)) as [r m1] eqn:Eo.
  apply (open_holds _ act _ _ _ s bs) in Eo as (H1 & H2 & _); [|done..]. destruct r as [self|e].
  - destruct (H2 eq_refl) as [[= ->] Hset]. by apply serve_leads.
  - intros [= <- <-] Hd. by apply leads_nowhere, H1.
Qed.

(** *** A process after processes that did not sync *)

Lemma mirrors_apply self r : mirrors (apply self r).
Proof. rewrite apply_stage. apply mirrors_apply_staged. Qed.
Lemma mirrors_serve self requests : mirrors (serve self requests).
Proof.
  revert self. induction requests as [|r requests IH]; intros self; [apply mirrors_pure|].
  apply (mirrors_ext (λ m, let '(x, m) := apply self r m in
    let '(acknowledged, m) := serve x.2 requests m in
    (match x.1 with Ok applied => [applied] | Err _ => [] end ++ acknowledged, m))).
  - intros m. cbn [serve]. by destruct (apply self r m) as [[outcome self'] m1].
  - apply mirrors_seq; [apply mirrors_apply|]. intros x. apply mirrors_seq; [apply IH|].
    intros acknowledged. apply mirrors_pure.
Qed.

Lemma process_twin initial requests m g acknowledged m' :
  twins m g → process initial requests m = (acknowledged, m') →
  ∃ g', process initial requests g = (acknowledged, g') ∧ twins m' g' ∧
    synced_alike m g m' g' Blocks ∧
    (por_files (synced m') = por_files (synced g') ∨
     acknowledged = [] ∧ por_files (synced m') = por_files (synced m) ∧
     block_files (files m') = block_files (files m) ∧ block_files (synced m') = block_files (synced m)).
Proof.
  intros Ht Hp.
  set (k := λ (r : result Durable.t Durable.DurablePorStateError) m,
    match r with Ok self => serve self requests m | Err _ => ([], m) end).
  assert (∀ m, process initial requests m = let '(r, m) := Durable.open initial m in k r m) as Ek.
  { intros m0. unfold process. by destruct (Durable.open initial m0) as [[self|e] m1]. }
  setoid_rewrite Ek. rewrite Ek in Hp. eapply (open_twin initial k []); [|done|done|done].
  intros [self|e]; [apply mirrors_serve|apply mirrors_pure].
Qed.
Lemma mirrors_process initial requests : mirrors (process initial requests).
Proof.
  apply (mirrors_ext (λ m, let '(r, m) := Durable.open initial m in
    match r with Ok self => serve self requests | Err _ => λ m, ([], m) end m)).
  - intros m. unfold process. by destruct (Durable.open initial m) as [[self|e] m1].
  - apply mirrors_seq; [apply mirrors_open|]. intros [self|e]; [apply mirrors_serve|apply mirrors_pure].
Qed.

Lemma holds_agree initial act p b b' s bs :
  agree b b' → holds initial act (mkDisk p b) s bs → holds initial act (mkDisk p b') s bs.
Proof.
  intros Ha Hh. inversion Hh as [d' Hf E1 E2 E3 E4|act' d' s' bs0 Hr E1 E2 E3 E4]; subst; constructor.
  - destruct Hf. split; [done|by eapply stores_agree|done].
  - destruct Hr. split; [done|by eapply stores_agree|done..].
Qed.
Lemma leads_agree initial act available s bs acknowledged p b b' :
  agree b b' → leads initial act available s bs acknowledged (mkDisk p b) →
  leads initial act available s bs acknowledged (mkDisk p b').
Proof. intros Ha (log & s' & ? & ? & ?). exists log, s'. split_and!; [done..|]. by eapply holds_agree. Qed.
Lemma extends_agree l l' : extends l l' → extends l' l → agree l l'.
Proof.
  intros H H' name Hn. destruct (l !! name) as [f|] eqn:El; [by apply H|].
  destruct (l' !! name) as [f|] eqn:El'; [|done]. by rewrite (H' _ _ Hn El') in El.
Qed.

(** What a loss of power leaves of the machine, if it does not take back history
    files. *)
Definition promises initial act available s bs acknowledged m : Prop :=
  behind m ∧ ∀ lost, (lost Blocks = true → agree (block_files (files m)) (block_files (synced m))) →
    leads initial act available s bs acknowledged (mixed lost m).

Lemma promises_files initial act available s bs acknowledged m :
  promises initial act available s bs acknowledged m →
  leads initial act available s bs acknowledged (files m).
Proof.
  intros [_ H]. specialize (H (λ _, false)). cbn in H. unfold mixed in H. cbn in H.
  destruct (files m). by apply H.
Qed.

Section session.
#[local] Set Default Proof Using "All".
Context (initial : ReputationState.t) (act : option Activation.t) (available : list request)
  (s : ReputationState.t) (bs : list ReputationBlock) (acknowledged ack : list Applied)
  (r : run) (m m' : machine)
  (Hsub : run_requests r ⊆ available) (Hi : typed_state initial) (Ht : typed_rounds available s)
  (Hm : promises initial act available s bs acknowledged m)
  (Hr : session initial r m = (ack, m')).

(** Whatever the twin of the session leaves. *)
Lemma twin_leads g' p b :
  process initial (run_requests r) (start (boot (files m)) (run_budget r) (run_torn r)) = (ack, g') →
  seen Por g' p → seen Blocks g' b →
  leads initial act available s bs (acknowledged ++ ack) (mkDisk p b).
Proof.
  intros Hg Hp Hb. destruct (promises_files _ _ _ _ _ _ _ Hm) as (log & s1 & Hc & Hl & Hh).
  eapply leads_on; [done|done|]. eapply process_leads; [done|done| |done|done|by split].
  intros log' s' Hc'. eapply Ht, committed_app; done.
Qed.

Lemma session_leads lost :
  (lost Blocks = true → block_files (synced m) = block_files (files m) ∨
     extends (block_files (files m)) (block_files (synced m'))) →
  leads initial act available s bs (acknowledged ++ ack) (mixed lost m').
Proof.
  intros Hlost. pose proof Hr as Hp. unfold session in Hp.
  destruct Hm as [Hbehind Hpromise].
  eapply (process_twin _ _ _ (start (boot (files m)) (run_budget r) (run_torn r))) in Hp
    as (g' & Hg & (Ef & _ & _) & Hblocks & Hpor); [|done].
  assert (lost Blocks = true → block_files (synced m') = block_files (synced m) →
    agree (block_files (files m)) (block_files (synced m))) as Hagree.
  { intros Hl Eb. destruct (Hlost Hl) as [E|He]; [by rewrite E|]. rewrite Eb in He. by apply extends_agree. }
  assert (∀ p, seen Por g' p → leads initial act available s bs (acknowledged ++ ack)
    (mkDisk p (block_files (if lost Blocks then synced m' else files m')))) as Hseen.
  { intros p Hseen. destruct (lost Blocks) eqn:El.
    - destruct Hblocks as [E|[E E']]; cbn [listing] in E.
      + rewrite E. eapply twin_leads; [done..|]. by right.
      + cbn in E, E'. rewrite E. eapply leads_agree; [by apply Hagree|].
        eapply twin_leads; [done..|]. right. by symmetry.
    - rewrite Ef. eapply twin_leads; [done..|]. by left. }
  unfold mixed. destruct (lost Por) eqn:Elp; [|apply Hseen; left; by rewrite Ef].
  destruct Hpor as [E|(-> & Ep & Eb & Es)]; [apply Hseen; right; by rewrite E|].
  rewrite app_nil_r, Ep. assert (∀ x : bool, block_files (if x then synced m' else files m') =
    block_files (if x then synced m else files m)) as -> by (by intros []).
  specialize (Hpromise lost). unfold mixed in Hpromise. rewrite Elp in Hpromise. apply Hpromise.
  intros Hl. by apply Hagree.
Qed.

Lemma session_promises :
  keeps_history m m' (run_end r) →
  promises initial act available s bs (acknowledged ++ ack) (after (run_end r) m').
Proof.
  pose proof (mirrors_process initial (run_requests r)) as Hmir. destruct Hm as [Hb _].
  pose proof (mirrors_grows _ Hmir _ _ _ Hr) as Hgrow.
  pose proof (mirrors_behind _ Hmir _ _ _ Hr Hb) as Hb'.
  destruct (run_end r) as [|lost]; cbn [after keeps_history].
  - intros _. split; [done|]. intros lost Hl. apply session_leads. intros El. right.
    etransitivity; [exact Hgrow|]. intros name f Hn Hf. by rewrite (Hl El name Hn).
  - intros Hk. split; [by intros name f _|]. intros lost' _.
    assert (mixed lost' (boot (stop lost m')) = stop lost m') as ->
      by (unfold mixed, boot; cbn; by destruct (lost' Por), (lost' Blocks)).
    destruct (session_leads lost) as (log & s' & ? & ? & ?).
    + intros El. destruct Hk as [Hk|Hk]; [by left|right]. unfold mixed in Hk. by rewrite El in Hk.
    + exists log, s'. split_and!; [done..|]. by apply holds_settle.
Qed.

End session.

Lemma lifetime_promises initial act available runs m s bs acknowledged ack m' :
  (∀ r, r ∈ runs → run_requests r ⊆ available) → typed_state initial → typed_rounds available s →
  promises initial act available s bs acknowledged m → history_kept initial runs m →
  lifetime initial runs m = (ack, m') →
  promises initial act available s bs (acknowledged ++ ack) m'.
Proof.
  revert m acknowledged ack. induction runs as [|r runs IH];
    intros m acknowledged ack Hsub Hi Ht Hm Hk.
  { intros [= <- <-]. by rewrite app_nil_r. }
  cbn [lifetime]. cbn [history_kept] in Hk. destruct Hk as [Hk Hks].
  destruct (session initial r m) as [ack1 m1] eqn:E1. cbn [snd] in Hk, Hks.
  destruct (lifetime initial runs _) as [ack2 m2] eqn:E2. intros [= <- <-]. rewrite app_assoc.
  eapply IH; [|done..| |done|done].
  - intros x ?. apply Hsub. by right.
  - eapply session_promises; [|done..]. apply Hsub. by left.
Qed.

(** Every block of the history is read back. *)
Lemma load_stored m bs block :
  stores (block_files (files m)) bs → fault_free m → block ∈ bs →
  History.load (owner bs) (header_round (header block)) m = (Ok (Some block), m).
Proof.
  intros Hs Hm Hb. destruct (stores_blocks _ _ Hs _ Hb) as (bytes & Hl & Hd). unfold History.load.
  unfold io_bind, io_lift, io_map_err, read_file.
  change (History.ensure_healthy _) with (Ok tt : result () History.PorReputationBlockHistoryError).
  rewrite free_query by done. cbn [map_err listing]. rewrite Hl. cbn [fmap option_fmap option_map content].
  by rewrite (parse_stored _ _ Hd).
Qed.

(** What a start without failures finds. *)
Definition restarts initial m s bs act : Prop := ∀ torn, ∃ self m',
  Durable.open initial (start m None torn) = (Ok self, m') ∧
  Durable.state self = Ok s ∧ Durable.activated_weight_record self = Ok act ∧
  ∀ block, block ∈ bs →
    History.load (Durable.history self) (header_round (header block)) m' = (Ok (Some block), m').

Lemma holds_restarts initial act m s bs :
  typed_state initial → is_ok (Snapshot.encode_reputation_state_snapshot initial) = true →
  holds initial act (files m) s bs → restarts initial m s bs act.
Proof.
  intros Ht He Hh torn. destruct (Durable.open initial (start (boot (files m)) None torn)) as [r g] eqn:Eo.
  pose proof (mirrors_twin _ (mirrors_open initial) (start (boot (files m)) None torn)
    (start m None torn) _ _ (conj eq_refl (conj eq_refl eq_refl)) Eo) as (m' & Em & (Ef & Eb & _) & _).
  apply (open_holds _ act _ _ _ s bs) in Eo as (_ & H2 & H3); [|done..].
  destruct (H3 eq_refl He) as [Hr Hm]. destruct (H2 Hr) as [-> Hset].
  eexists _, m'. split_and!; [done..|]. intros block Hb. cbn [Durable.history].
  apply load_stored; [rewrite <-Ef; apply Hset; by left|by unfold fault_free; rewrite <-Eb|done].
Qed.
Lemma after_restarts initial act m e s bs :
  typed_state initial → is_ok (Snapshot.encode_reputation_state_snapshot initial) = true →
  (∀ d, left_by m d → holds initial act d s bs) → restarts initial (after e m) s bs act.
Proof.
  intros Ht He Hh. apply holds_restarts; [done..|]. destruct e as [|lost]; cbn.
  - apply Hh. split; by left.
  - destruct (stop_left lost m) as (d & Hd & ->). by apply holds_settle, Hh.
Qed.

End rounds.
End NodeRounds.

(** ** The theorems *)

Section theorems.
Context `{HO : HashOrder} `{HB : Blake2b}.
Import IoFacts StoreFacts CommitFacts AppendFacts MirrorFacts NodeRounds.

(** C4: whatever file operations fail and wherever the processes of a node are
    killed, also in the middle of a write or of a start, and whether or not what
    no process synced is lost with the power of the machine, the next start
    succeeds and finds the state of a sequence of rounds, each accepted by the
    transition on the state before, that contains every round that was
    acknowledged, in their order; the activation record is the one from before,
    and the history returns the block of every one of these rounds.  One loss is
    excluded: that of a block file which a process found when it started and no
    process before it had synced (see [found_history_is_not_synced]). *)
Theorem acknowledged_rounds_survive_crashes initial act runs d s bs acknowledged m :
  typed_state initial → is_ok (Snapshot.encode_reputation_state_snapshot initial) = true →
  typed_rounds (mjoin (run_requests <$> runs)) s → holds initial act d s bs →
  history_kept initial runs (boot d) → lifetime initial runs (boot d) = (acknowledged, m) →
  ∃ log s', committed (mjoin (run_requests <$> runs)) s log s' ∧ acknowledged `sublist_of` log ∧
    restarts initial m s' (bs ++ blocks log) act.
Proof.
  intros Hi He Ht Hh Hk Hl. set (available := mjoin (run_requests <$> runs)) in *.
  assert (∀ r, r ∈ runs → run_requests r ⊆ available) as Hsub.
  { intros r Hr q Hq. apply list_elem_of_join. exists (run_requests r). split; [done|].
    by apply list_elem_of_fmap_2. }
  assert (promises initial act available s bs [] (boot d)) as Hp.
  { split; [by intros name f _|]. intros lost _. apply leads_nowhere. unfold mixed, boot. cbn.
    by destruct d, (lost Por), (lost Blocks). }
  pose proof (lifetime_promises _ _ _ _ _ _ _ _ _ _ Hsub Hi Ht Hp Hk Hl) as
    (log & s' & Hc & Hl' & Hh')%promises_files.
  exists log, s'. split; [done|]. split; [done|]. by apply holds_restarts.
Qed.

(** C5: a round that the transition rejects leaves the owner and the disk as
    they were.  A round that it accepts is either acknowledged, and then it is
    the live state and every later start finds it, or it fails, and then the
    owner answers nothing more until it is opened again, which finds the state
    before or the state after, with its whole history.  Without a failure of the
    device a round within the limits of a snapshot is acknowledged. *)
Theorem commits_are_atomic_and_fail_closed initial act m s bs req e
    (self := Durable.mk (owner bs) s act false) :
  typed_state initial → is_ok (Snapshot.encode_reputation_state_snapshot initial) = true →
  settled m s bs act → (∀ out, stage req s = Ok out → typed_state out.1) →
  let '(r, self', m') := apply self req m in
  match stage req s with
  | Err e => r = Err (Durable.TransitionFailed e) ∧ self' = self ∧ m' = m
  | Ok (staged, applied) =>
    let bs' := bs ++ [RoundTransition.applied_block applied] in
    (r = Ok applied ∧ Durable.state self' = Ok staged ∧ restarts initial (after e m') staged bs' act ∨
     is_ok r = false ∧ Durable.state self' = Err Durable.RecoveryRequired ∧
       (restarts initial (after e m') s bs act ∨ restarts initial (after e m') staged bs' act)) ∧
    (fault_free m → is_ok (Snapshot.encode_reputation_state_snapshot staged) = true → r = Ok applied)
  end.
Proof.
  intros Hi He Hset Ht. destruct (apply self req m) as [[r self'] m'] eqn:Ea.
  apply (apply_holds initial) in Ea as [(e0 & -> & -> & -> & Es)|(staged & applied & -> & Hh & Hok & Herr & Hfree)];
    [..|done|done].
  { destruct (stage req s) as [|e']; [done|]. by injection Es as <-. }
  split.
  - destruct r as [x|e']; [left|right].
    + destruct (Hok eq_refl) as ([= ->] & -> & Hset'). split_and!; [done..|].
      apply after_restarts; [done..|]. intros d Hd. by eapply holds_settled.
    + split; [done|]. split.
      { unfold Durable.state, Durable.ensure_healthy. by rewrite decide_True by auto. }
      destruct e as [|lost]; cbn [after].
      * destruct (Hh (files m')); [split; by left|left|right]; by apply holds_restarts.
      * destruct (stop_left lost m') as (d & Hd & ->).
        destruct (Hh d Hd); [left|right]; by apply holds_restarts; [..|apply holds_settle].
  - intros Hm Hes. destruct (Hfree Hm Hes) as [Hr _]. by destruct (Hok Hr) as [-> _].
Qed.

End theorems.

(** ** Instances: the round of the sample validators on an empty disk *)

#[local] Existing Instance elements_order.
#[local] Existing Instance sample_hash.

Module DurableSample.
Import NodeRounds.

Definition round : request :=
  mkRequest (Completed RatingSample.completed) RatingSample.config [xff].
Definition no_block : ReputationBlock :=
  mkReputationBlock (mkHeader 0 [] 0 None 0 None (vreplicate 32 x00) (vreplicate 32 x00)
    (vreplicate 32 x00) (vreplicate 32 x00)) (mkList 0 []).
Definition staged : ReputationState.t * Applied :=
  or_default (RatingSample.state, RoundTransition.mkApplied AllAuthorizedRaters no_block ∅)
    (stage round RatingSample.state).

(** The first process stops in the commit, after the snapshot and three bytes
    of the block; the second is asked for the round again. *)
Definition processes : list run :=
  [mkRun (Some 23) 3 Killed [round]; mkRun None 0 (PowerLost (λ _, true)) [round]].
Definition disk0 : disk := mkDisk ∅ ∅.

Lemma staged_Ok : stage round RatingSample.state = Ok staged.
Proof. apply or_default_Ok. vm_compute. reflexivity. Qed.

(** The round is committed, but no process acknowledged it. *)
Example finished_by_the_restart :
  let '(acknowledged, m) := lifetime RatingSample.state processes (boot disk0) in
  acknowledged = [] ∧ (let? self := (Durable.open RatingSample.state (start m None 0)).1 in
    Ok (ReputationState.current_round (Durable.live_state self))) = Ok 1%N.
Proof. vm_compute. done. Qed.

(** A start does not sync the history that it finds.  The second process is
    killed before it synced the block of its round; the third finds the block,
    and its machine loses power after the snapshot of the next round: the block
    is lost and no process starts again. *)
Definition quiet (n : N) : request :=
  mkRequest (Completed (CompletedRound.mk (mkOpened (n - 1) n) (mkBatch n []) AllAuthorizedRaters
    None ∅ ∅)) RatingSample.config [xff].
Definition loses_blocks (dir : directory) : bool := match dir with Por => false | Blocks => true end.
Example found_history_is_not_synced :
  let '(acknowledged, m) := lifetime RatingSample.state
    [mkRun None 0 Killed [round]; mkRun (Some 23) 0 Killed [quiet 2];
     mkRun (Some 18) 0 (PowerLost loses_blocks) [quiet 3]] (boot disk0) in
  (Durable.open RatingSample.state (start m None 0)).1 =
    Err (Durable.HistoryFailed (History.StateHistoryTipMismatch 3 1)).
Proof. vm_compute. reflexivity. Qed.

Lemma extends_check (l l' : entries_of_directory) :
  forallb (λ x, History.is_reputation_block_temp_file_name x.1 ||
    match l' !! x.1 with
    | Some f => bool_decide (content f = content x.2) && Bool.eqb (flushed f) (flushed x.2)
    | None => false
    end) (map_to_list l) = true → MirrorFacts.extends l l'.
Proof.
  intros Hl name f Hn Hf. rewrite forallb_forall in Hl. specialize (Hl (name, f)). cbn in Hl.
  rewrite Hn in Hl. assert (In (name, f) (map_to_list l)) as Hin
    by (by apply list_elem_of_In, elem_of_map_to_list).
  specialize (Hl Hin). cbn in Hl. destruct (l' !! name) as [[c b]|]; [|done].
  apply andb_true_iff in Hl as [Hc%bool_decide_eq_true Hb%Bool.eqb_prop]. cbn in Hc, Hb. subst c b. by destruct f.
Qed.
Lemma sample_history_kept : history_kept RatingSample.state processes (boot disk0).
Proof. split; [exact I|]. split; [|exact I]. right. apply extends_check. vm_compute. reflexivity. Qed.

Lemma state_typed : typed_state RatingSample.state.
Proof.
  split; [vm_compute; discriminate|]. split; [|by intros ? [=]]. split; [vm_compute; discriminate|].
  repeat constructor; vm_compute; discriminate.
Qed.
Lemma staged_typed : typed_state staged.1.
Proof.
  apply (advances_typed RatingSample.state staged.1 (RoundTransition.applied_block staged.2)).
  - apply (stage_advances round). rewrite staged_Ok. by destruct staged.
  - vm_compute. discriminate.
  - vm_compute. reflexivity.
  - split; [vm_compute; discriminate|]. unfold typed_entry, fits_u64. decided.
Qed.

Lemma sample_typed available : available ⊆ [round] → typed_rounds available RatingSample.state.
Proof.
  intros Hsub log s Hc.
  destruct (committed_once available RatingSample.state round staged log s) as [->| ->].
  - exact Hsub.
  - exact staged_Ok.
  - vm_compute. reflexivity.
  - exact Hc.
  - exact state_typed.
  - exact staged_typed.
Qed.

Lemma fresh_disk : StoreFacts.fresh disk0.
Proof.
  split; [reflexivity| |reflexivity]. split; [reflexivity|by intros ? ?%elem_of_nil| |]; intros ?;
    change (block_files disk0) with (∅ : entries_of_directory); rewrite lookup_empty; by intros ? [].
Qed.

End DurableSample.

Section witnesses.
Import NodeRounds DurableSample.

Lemma acknowledged_rounds_survive_crashes_witness :
  let '(acknowledged, m) := lifetime RatingSample.state processes (boot disk0) in
  ∃ log s, committed [round; round] RatingSample.state log s ∧ acknowledged `sublist_of` log ∧
    restarts RatingSample.state m s (blocks log) None.
Proof.
  destruct (lifetime RatingSample.state processes (boot disk0)) as [acknowledged m] eqn:E.
  apply (acknowledged_rounds_survive_crashes RatingSample.state None processes disk0 RatingSample.state []
    acknowledged m).
  - exact state_typed.
  - vm_compute. reflexivity.
  - apply sample_typed. change (mjoin (run_requests <$> processes)) with [round; round]. generalize round.
    intros x y [->|[->|[]%elem_of_nil]%elem_of_cons]%elem_of_cons; by left.
  - exact (holds_fresh RatingSample.state disk0 fresh_disk).
  - exact sample_history_kept.
  - exact E.
Defined.

(** The same machine, with other failures ahead. *)
Definition rearmed (m : machine) (budget : option nat) (torn : nat) : machine :=
  mkMachine (files m) (synced m) budget torn.
Lemma settled_rearmed m budget torn s bs act :
  StoreFacts.settled m s bs act → StoreFacts.settled (rearmed m budget torn) s bs act.
Proof. intros [[] Ht Hc]. split; [split; done|done|done]. Qed.

Lemma commits_are_atomic_and_fail_closed_witness :
  ∃ m, StoreFacts.settled m RatingSample.state [] None ∧
    let '(r, self, m') := apply (Durable.mk (AppendFacts.owner []) RatingSample.state None false) round m in
    is_ok r = false ∧ Durable.state self = Err Durable.RecoveryRequired ∧
    (restarts RatingSample.state (after (PowerLost (λ _, true)) m') RatingSample.state [] None ∨
     restarts RatingSample.state (after (PowerLost (λ _, true)) m') staged.1
       [RoundTransition.applied_block staged.2] None).
Proof.
  destruct (Durable.open RatingSample.state (start (boot disk0) None 0)) as [r m] eqn:Eo.
  pose proof (open_holds RatingSample.state None disk0 None 0 RatingSample.state [] r m
    state_typed (holds_fresh RatingSample.state disk0 fresh_disk) Eo) as (_ & Hok & Hfree).
  destruct (Hfree eq_refl ltac:(vm_compute; reflexivity)) as [Hr _]. destruct (Hok Hr) as [_ Hset].
  apply (settled_rearmed _ (Some 7) 3) in Hset. exists (rearmed m (Some 7) 3). split; [exact Hset|].
  pose proof (commits_are_atomic_and_fail_closed RatingSample.state None (rearmed m (Some 7) 3)
    RatingSample.state [] round (PowerLost (λ _, true)) state_typed ltac:(vm_compute; reflexivity) Hset) as H.
  cbv zeta in H. rewrite staged_Ok in H.
  assert (is_ok (apply (Durable.mk (AppendFacts.owner []) RatingSample.state None false) round
    (rearmed m (Some 7) 3)).1.1 = false) as Hfail.
  { replace m with (Durable.open RatingSample.state (start (boot disk0) None 0)).2 by (by rewrite Eo).
    vm_compute. reflexivity. }
  revert H Hfail. generalize staged_typed. destruct staged as [st ap]. intros Hst H.
  destruct (apply _ round _) as [[out self] m']. cbn [fst]. intros Hfail.
  destruct H as [[(-> & _)|H] _]; [|discriminate Hfail|exact H]. intros ? [= <-]. exact Hst.
Defined.

End witnesses.
