(* ===== verification/Live.v ===== *)
(** * Live ingress

    [live_ingress.rs], [shared_ordered_output.rs], the ordering half of
    [snapshot.rs] and the record and its replay of [por/epoch_record.rs] of
    cordial-f1r3node-adapter, and the two operations of [por/persistence.rs]
    that hand weights to the live ingress: the mirror of the blocklace, the
    published finalized output, and the weights under which it is computed. *)

From S2P Require Import Prelude Types Lace Bytes Rounds Quorum Finality Xsort Ordering.
From S2P Require Import PorTypes PorMath PorCommit PorState FinalOutput Authorization.
From S2P Require Import Attestation PorCodec Durable.
From stdpp Require Import options.

(** ** The mirror *)

(** [AlreadyValidatedVerifier]. *)
Definition AlreadyValidatedVerifier : CryptoVerifier :=
  {| verifier_error := list byte; verify_block := λ _ _ _, Ok tt |}.

Inductive MirrorDisposition := Applied | Buffered | Duplicate.
#[export] Instance MirrorDisposition_eq_dec : EqDecision MirrorDisposition.
Proof. solve_decision. Defined.

Record MirrorUpdate := mkUpdate {
  disposition : MirrorDisposition;
  released_from_buffer : nat
}.

Module LiveBlocklaceMirror.

Record t := mk {
  blocklace : Blocklace.t;
  pending : gmap BlockIdentity Block
}.

(** [address]: see [Blocklace.new]. *)
Definition new (address : N) : t := mk (Blocklace.new address) ∅.

Section mirror.
Context `{HO : HashOrder} `{CV : CryptoVerifier}.
Implicit Types self : t.

(** The messages, with the data they print. *)
Inductive MirrorError :=
  | IdentityConflict (conflicting : BlockIdentity)
  | InsertFailed (error : Blocklace.InsertError).

Definition pending_variant self (id : BlockIdentity) : option BlockIdentity :=
  snd <$> list_find (λ candidate, same_consensus_identity candidate id)
    (map_iter (pending self)).*1.

Definition duplicate_or_identity_conflict self (id : BlockIdentity) : result bool MirrorError :=
  if decide (is_Some (Blocklace.get (blocklace self) id) ∨ is_Some (pending self !! id)) then Ok true
  else
    match
      match Blocklace.conflicting_identity_variant (blocklace self) id with
      | Some conflicting => Some conflicting
      | None => pending_variant self id
      end
    with
    | Some conflicting => Err (IdentityConflict conflicting)
    | None => Ok false
    end.

Definition predecessors_available self (b : Block) : bool :=
  forallb (λ pred_id, bool_decide (is_Some (Blocklace.content (blocklace self) pred_id)))
    (hash_iter (predecessors (content b))).

(** The inner loop of [release_pending].  The outer [None] is the panic of a
    ready block that is not pending any more. *)
Fixpoint release_ready (ready_ids : list BlockIdentity) (self : t) (released : nat) :
    option (result nat MirrorError * t) :=
  match ready_ids with
  | [] => Some (Ok released, self)
  | id :: ready_ids =>
    block ← pending self !! id;
    let removed := mk (blocklace self) (delete id (pending self)) in
    match Blocklace.insert (blocklace self) block with
    | Err e => Some (Err (InsertFailed e), removed)
    | Ok blocklace => release_ready ready_ids (mk blocklace (pending removed)) (S released)
    end
  end.

Definition ready_ids self : list BlockIdentity :=
  (filter (λ e : BlockIdentity * Block, predecessors_available self e.2 = true)
    (map_iter (pending self))).*1.

Fixpoint release_loop (fuel : nat) (self : t) (released : nat) :
    option (result nat MirrorError * t) :=
  match fuel with
  | O => None
  | S fuel =>
    match ready_ids self with
    | [] => Some (Ok released, self)
    | ids =>
      r ← release_ready ids self released;
      match r.1 with
      | Err _ => Some r
      | Ok released => release_loop fuel r.2 released
      end
    end
  end.

(** Every round releases at least one block. *)
Definition release_pending self : option (result nat MirrorError * t) :=
  release_loop (S (size (pending self))) self 0.

(** After the block is in the blocklace. *)
Definition applied self : option (result MirrorUpdate MirrorError * t) :=
  r ← release_pending self;
  Some (let? released := r.1 in Ok (mkUpdate Applied released), r.2).

Definition ingest self (block : Block) : option (result MirrorUpdate MirrorError * t) :=
  match duplicate_or_identity_conflict self (identity block) with
  | Err e => Some (Err e, self)
  | Ok true => Some (Ok (mkUpdate Duplicate 0), self)
  | Ok false =>
    if predecessors_available self block then
      match Blocklace.insert (blocklace self) block with
      | Err e => Some (Err (InsertFailed e), self)
      | Ok blocklace => applied (mk blocklace (pending self))
      end
    else
      Some (Ok (mkUpdate Buffered 0),
        mk (blocklace self) (<[identity block := block]> (pending self)))
  end.

Definition ingest_with_trusted_boundary self (block : Block) :
    option (result MirrorUpdate MirrorError * t) :=
  match duplicate_or_identity_conflict self (identity block) with
  | Err e => Some (Err e, self)
  | Ok true => Some (Ok (mkUpdate Duplicate 0), self)
  | Ok false =>
    match Blocklace.insert_with_trusted_boundary (blocklace self) block with
    | Err e => Some (Err (InsertFailed e), self)
    | Ok (_, blocklace) => applied (mk blocklace (pending self))
    end
  end.

End mirror.
#[global] Arguments MirrorError {CV}.
End LiveBlocklaceMirror.

(** ** [shared_ordered_output.rs] *)

Inductive SharedOrderedOutputError := PrefixViolation.

Module SharedOrderedOutput.

Definition t : Type := option OrderedFinalizedOutput.t.
Definition new : t := None.
Definition from_output (output : OrderedFinalizedOutput.t) : t := Some output.
Definition latest (self : t) : option OrderedFinalizedOutput.t := self.
Definition anchor_hash (self : t) : option (list byte) :=
  output ← latest self; OrderedFinalizedOutput.anchor_hash output.
(** The clock reading is an argument. *)
Definition is_stale (self : t) (now max_age_ns : N) : bool :=
  match latest self with
  | None => true
  | Some output => bool_decide (max_age_ns < now - OrderedFinalizedOutput.computed_at_ns output)%N
  end.
Definition update (self : t) (output : OrderedFinalizedOutput.t) :
    result t SharedOrderedOutputError :=
  match self with
  | Some previous =>
    if OrderedFinalizedOutput.preserves_prefix output previous then Ok (Some output)
    else Err PrefixViolation
  | None => Ok (Some output)
  end.
Definition clear (self : t) : t := None.

End SharedOrderedOutput.

(** ** The ordering half of [snapshot.rs] *)

Module Snapshots.

Definition CORDIAL_WAVELENGTH : N := 3.

Inductive SingleValidatorLeader :=
  | Fork
  | Found (leader : BlockIdentity)
  | Incomplete.

Section snapshot.
Context `{HO : HashOrder}.
Implicit Types (bl : Blocklace.t) (bonds : gmap NodeId N) (cache : Ordering.OrderingCache).

Definition ordered_validators bonds : list NodeId := sort (map_iter bonds).*1.
Definition leader_of_wave (leaders : list NodeId) (wave : N) : option NodeId :=
  leaders !! N.to_nat (wave mod N.of_nat (length leaders)).

(** *** A single validator *)

(** The loop over the depths, with the count of the validator's blocks per
    round. *)
Fixpoint fork_loop (depths : list (BlockIdentity * N)) (validator : NodeId)
    (rounds : gmap N nat) : bool :=
  match depths with
  | [] => false
  | (id, round) :: depths =>
    if decide (creator id ≠ validator) then fork_loop depths validator rounds
    else
      let count := S (default 0 (rounds !! round)) in
      if decide (1 < count) then true
      else fork_loop depths validator (<[round := count]> rounds)
  end.
Definition has_same_round_fork (depths : gmap BlockIdentity N) (validator : NodeId) : bool :=
  fork_loop (map_iter depths) validator ∅.

(** [depths.iter().filter(..).map(|(id, _)| id)]. *)
Definition round_blocks (depths : gmap BlockIdentity N) (validator : NodeId) (round : N) :
    list BlockIdentity :=
  (filter (λ e : BlockIdentity * N, e.2 = round ∧ creator e.1 = validator) (map_iter depths)).*1.

(** The inner loop: [None] when a round has no block or several, otherwise the
    block of the first round. *)
Fixpoint wave_leader (depths : gmap BlockIdentity N) (validator : NodeId) (first_round : N)
    (rounds : list N) (leader : option BlockIdentity) : option (option BlockIdentity) :=
  match rounds with
  | [] => Some leader
  | round :: rounds =>
    match round_blocks depths validator round with
    | [round_block] =>
      wave_leader depths validator first_round rounds
        (if decide (round = first_round) then Some round_block else leader)
    | _ => None
    end
  end.

(** The outer loop, from the latest wave down; an overflow ends the search. *)
Fixpoint single_validator_waves (depths : gmap BlockIdentity N) (validator : NodeId)
    (wavelength max_round : N) (waves : list N) : option BlockIdentity :=
  match waves with
  | [] => None
  | wave :: waves =>
    last_round ← Wave.last_round_of_wave wave wavelength;
    if decide (max_round < last_round)%N then
      single_validator_waves depths validator wavelength max_round waves
    else
      first_round ← checked_mul u64_max wave wavelength;
      match wave_leader depths validator first_round (range_incl first_round last_round) None with
      | Some leader => leader
      | None => single_validator_waves depths validator wavelength max_round waves
      end
  end.

Definition latest_single_validator_finalized_block_id_from_depths
    (depths : gmap BlockIdentity N) (validator : NodeId) (wavelength : N) : option BlockIdentity :=
  if has_same_round_fork depths validator then None
  else
    max_round ← iter_max (map_iter depths).*2;
    latest_wave ← Wave.wave_of_round max_round wavelength;
    single_validator_waves depths validator wavelength max_round
      (reverse (range_incl 0 latest_wave)).

Definition single_validator_leader bl (validator : NodeId) (wavelength : N) :
    SingleValidatorLeader :=
  let depths := Round.compute_all_depths bl in
  if has_same_round_fork depths validator then Fork
  else
    match latest_single_validator_finalized_block_id_from_depths depths validator wavelength with
    | Some leader => Found leader
    | None => Incomplete
    end.

(** [Some validator] when the single-validator path is tried. *)
Definition sole_validator bl (leaders : list NodeId) : option NodeId :=
  match leaders with
  | [validator] => if decide (Blocklace.checkpoint bl = None) then Some validator else None
  | _ => None
  end.

Definition latest_finalized_block_id bl bonds : option BlockIdentity :=
  let leaders := ordered_validators bonds in
  let weighted :=
    Finality.latest_weighted_final_leader bl CORDIAL_WAVELENGTH bonds (leader_of_wave leaders) in
  if decide (leaders = []) then None
  else
    match sole_validator bl leaders with
    | Some validator =>
      match single_validator_leader bl validator CORDIAL_WAVELENGTH with
      | Fork => None
      | Found leader => Some leader
      | Incomplete => weighted
      end
    | None => weighted
    end.

(** *** Any number of validators *)

Abbreviation ordered_and_anchor := (list BlockIdentity * option BlockIdentity)%type.

Definition weighted_order bl bonds (wavelength : N) cache :
    option (result ordered_and_anchor OrderingError * Ordering.OrderingCache) :=
  let ls := leader_of_wave (ordered_validators bonds) in
  let anchor := Finality.latest_weighted_final_leader bl wavelength bonds ls in
  r ← Ordering.weighted_tau_with_cache bl wavelength bonds 0 ls cache;
  Some (let? blocks := r.1 in Ok (blocks, anchor), r.2).

(** [xsort] of what the leader observes. *)
Definition single_validator_order bl (leader : BlockIdentity) :
    result ordered_and_anchor OrderingError :=
  let? blocks := Xsort.xsort
    (collect_blocks (omap (Blocklace.get bl) (hash_iter (Blocklace.observe bl leader)))) in
  Ok (blocks, Some leader).

Definition try_ordered_block_identities_with_cache bl bonds (wavelength : N) cache :
    option (result ordered_and_anchor OrderingError * Ordering.OrderingCache) :=
  let leaders := ordered_validators bonds in
  if decide (leaders = []) then Some (Ok ([], None), cache)
  else
    match sole_validator bl leaders with
    | Some validator =>
      match single_validator_leader bl validator wavelength with
      | Fork => Some (Ok ([], None), cache)
      | Found leader => Some (single_validator_order bl leader, cache)
      | Incomplete => weighted_order bl bonds wavelength cache
      end
    | None => weighted_order bl bonds wavelength cache
    end.

Definition ordered_block_identities_with_cache bl bonds (wavelength : N) cache :
    option (ordered_and_anchor * Ordering.OrderingCache) :=
  r ← try_ordered_block_identities_with_cache bl bonds wavelength cache;
  Some (or_default ([], None) r.1, r.2).

Definition ordered_block_identities_with_verified_prefix bl bonds (wavelength : N) cache
    (previous_prefix : list BlockIdentity) (previous_anchor : BlockIdentity) :
    option (result (option (list BlockIdentity * BlockIdentity)) OrderingError *
            Ordering.OrderingCache) :=
  let leaders := ordered_validators bonds in
  if decide (length leaders < 2 ∨ is_Some (Blocklace.checkpoint bl) ∨
             Blocklace.has_trusted_boundaries bl = true)
  then Some (Ok None, cache)
  else
    Ordering.weighted_tau_suffix_with_cache bl wavelength bonds 0 (leader_of_wave leaders)
      previous_anchor previous_prefix cache.

Definition ordered_finalized_block_hashes_with_cache bl bonds cache :
    option (list (list byte) * Ordering.OrderingCache) :=
  r ← ordered_block_identities_with_cache bl bonds CORDIAL_WAVELENGTH cache;
  Some (map (λ id, vec_to_list (content_hash id)) r.1.1, r.2).

Definition ordered_finalized_block_hashes bl bonds : option (list (list byte)) :=
  r ← ordered_finalized_block_hashes_with_cache bl bonds Ordering.default_cache; Some r.1.

Definition ordered_finalized_output bl bonds (now : N) : option OrderedFinalizedOutput.t :=
  r ← ordered_block_identities_with_cache bl bonds CORDIAL_WAVELENGTH Ordering.default_cache;
  Some (OrderedFinalizedOutput.new now r.1.1 r.1.2 CORDIAL_WAVELENGTH (size bonds)
    (size (Blocklace.dom bl))).

End snapshot.
End Snapshots.

(** ** The weight epoch record *)

(** [PorWeightActivationError], of [live_ingress.rs]. *)
Inductive PorWeightActivationError :=
  | Projection (error : PorError)
  | MissingReputationCheckpoint (round : N)
  | MissingFinalizedOutput (source_wave : N)
  | FinalizedCheckpointUnavailable (round : N)
  | FinalizedCheckpointMismatch (round : N)
  | InvalidWavelength
  | UnknownFinalizedAnchor
  | FinalizedWaveBehind (required available : N)
  | ActivatedValidatorSetMismatch (configured recorded : nat)
  | WouldRewriteFinalizedOutput
  | OrderingFailed (error : OrderingError)
  | WouldRewriteFinalizedLeader
  | MissingEpochBoundary
  | EffectiveWaveAlreadyPublished (effective_wave published_wave : N)
  | FutureEpoch (error : Ordering.WeightedEpochError)
  | FutureEpochPolicy (error : PorWeightEpochPolicyError)
  | EpochBoundaryWavePending (required published : N)
  | FutureEpochAlreadyActive.

(** [collect] into a [HashMap]: the last entry of a key stays. *)
Definition collect_map (entries : list (NodeId * N)) : gmap NodeId N :=
  foldl (λ m e, <[e.1 := e.2]> m) ∅ entries.

Module PorWeightEpochRecord.

Definition PREFIX_DOMAIN : list byte := literal "cordial-por:sealed-epoch-prefix:v1".

(** The errors of a record.  Those of its store, which keeps it as JSON of a
    third-party crate, are left out. *)
Inductive PorWeightEpochRecordError :=
  | Malformed (message : list byte)
  | Preview (error : PorWeightActivationError)
  | Source (error : PorFinalityError)
  | Policy (error : PorWeightEpochPolicyError)
  | OrderingReplay (error : Ordering.WeightedEpochError).

Record t := mk {
  round : N;
  reputation_checkpoint_hash : Hash32;
  source : FinalizedPrefixCheckpoint;
  delay_waves : N;
  effective_wave : N;
  wavelength : N;
  sealed_leader : BlockIdentity;
  sealed_prefix_len : N;
  sealed_prefix_hash_of : Hash32;
  old_weights_table : list (NodeId * N);
  new_weights_table : list (NodeId * N);
  old_weights_commitment : Hash32;
  new_weights_commitment : Hash32
}.
#[export] Instance t_eq_dec : EqDecision t.
Proof. solve_decision. Defined.

Definition old_weights (self : t) : gmap NodeId N := collect_map (old_weights_table self).
Definition new_weights (self : t) : gmap NodeId N := collect_map (new_weights_table self).

Definition sorted_weights (weights : gmap NodeId N) : list (NodeId * N) := btree_map_iter weights.

(** [table.windows(2).any(|pair| pair[0].0 >= pair[1].0)] *)
Fixpoint unordered_keys (table : list (NodeId * N)) : bool :=
  match table with
  | first :: ((second :: _) as rest) =>
    bool_decide (¬ ord_lt first.1 second.1) || unordered_keys rest
  | _ => false
  end.

Definition valid_table (table : list (NodeId * N)) : bool :=
  negb (bool_decide (table = []) ||
        bool_decide (Snapshot.MAX_REPUTATION_STATE_ENTRIES < len table)%N ||
        existsb (λ e : NodeId * N, bool_decide (e.1 = [] ∨
          (Snapshot.MAX_REPUTATION_STATE_NODE_ID_LEN < len e.1)%N)) table ||
        unordered_keys table ||
        bool_decide (sum_N table.*2 = 0%N)).

Section epoch_record.
Context `{HO : HashOrder} `{Blake2b}.
Implicit Types (self : t) (bl : Blocklace.t).

Definition prefix_payload (prefix : list BlockIdentity) : list byte :=
  PREFIX_DOMAIN ++ be64 (len prefix) ++
  mjoin ((λ i, vec_to_list (content_hash i) ++ field (creator i)) <$> prefix).
Definition sealed_prefix_hash (prefix : list BlockIdentity) : Hash32 :=
  blake2b256 (prefix_payload prefix).

Definition validate_structure self : result unit PorWeightEpochRecordError :=
  bail (Malformed (literal "invalid epoch fields"))
    when round self = 0%N ∨ por_round (source self) ≠ round self ∨
         prefix_len (source self) = 0%N ∨
         (sealed_prefix_len self < prefix_len (source self))%N ∨
         delay_waves self = 0%N ∨ effective_wave self = 0%N ∨ wavelength self = 0%N ∨
         signature (sealed_leader self) ≠ [] ∨ signature (terminal_block (source self)) ≠ [];
  bail (Malformed (literal "invalid weight table"))
    when forallb valid_table [old_weights_table self; new_weights_table self] = false;
  bail (Malformed (literal "validator membership changed"))
    when (old_weights_table self).*1 ≠ (new_weights_table self).*1;
  bail (Malformed (literal "weight commitment changed"))
    when Activation.authorized_weight_commitment (old_weights self) ≠
           old_weights_commitment self ∨
         Activation.authorized_weight_commitment (new_weights self) ≠
           new_weights_commitment self;
  Ok tt.

(** The checks of [verify_replay] before the ordering is recomputed. *)
Definition check_boundary self bl (authorized : list NodeId) (committed_checkpoint_hash : Hash32) :
    result unit PorWeightEpochRecordError :=
  let? _ := validate_structure self in
  bail (Malformed (literal "reputation checkpoint changed"))
    when reputation_checkpoint_hash self ≠ committed_checkpoint_hash;
  bail (Malformed (literal "authorized validator set changed"))
    when sort authorized ≠ (old_weights_table self).*1;
  let? boundary_wave := ok_or
    (round ← Round.depth bl (sealed_leader self); Wave.wave_of_round round (wavelength self))
    (Malformed (literal "sealed leader wave is unavailable")) in
  bail (Malformed (literal "sealed leader is not immediately before the effective wave"))
    when checked_add u64_max boundary_wave 1 ≠ Some (effective_wave self);
  Ok tt.

(** The checks on the recomputed old-weight prefix. *)
Definition check_sealed self bl (now : N) (authorized : list NodeId)
    (sealed : list BlockIdentity) : result unit PorWeightEpochRecordError :=
  bail (Malformed (literal "sealed Cordial prefix changed"))
    when len sealed ≠ sealed_prefix_len self ∨
         sealed_prefix_hash sealed ≠ sealed_prefix_hash_of self;
  let sealed_output := OrderedFinalizedOutput.new now sealed (Some (sealed_leader self))
    (wavelength self) (length authorized) (size (Blocklace.dom bl)) in
  let? _ := map_err Source
    (PorFinality.validate_finalized_prefix_checkpoint sealed_output (source self)) in
  let? policy := map_err Policy (PorWeightEpochPolicy.new (delay_waves self)) in
  let? wave := map_err Policy
    (PorWeightEpochPolicy.effective_wave policy bl sealed_output (source self)) in
  bail (Malformed (literal "effective wave changed")) when wave ≠ effective_wave self;
  Ok tt.

(** [None]: the ordering does not return.  [now]: the clock reading. *)
Definition verify_replay self bl (now : N) (authorized : list NodeId)
    (committed_checkpoint_hash : Hash32) :
    option (result OrderedFinalizedOutput.t PorWeightEpochRecordError) :=
  match check_boundary self bl authorized committed_checkpoint_hash with
  | Err e => Some (Err e)
  | Ok _ =>
    let authorized := sort authorized in
    let ls := Snapshots.leader_of_wave authorized in
    sealed ← Ordering.weighted_tau_at_leader bl (sealed_leader self) (wavelength self)
               (old_weights self) ls;
    match sealed with
    | Err e => Some (Err (OrderingReplay (Ordering.OrderingFailed e)))
    | Ok sealed =>
      match check_sealed self bl now authorized sealed with
      | Err e => Some (Err e)
      | Ok _ =>
        r ← Ordering.weighted_tau_after_epoch_boundary bl (wavelength self) (old_weights self)
              (new_weights self)
              (Ordering.mkBoundary (sealed_leader self) sealed (effective_wave self)) ls;
        Some (let? output := map_err OrderingReplay r in
          Ok (OrderedFinalizedOutput.new now output.1 (Some output.2) (wavelength self)
            (length authorized) (size (Blocklace.dom bl))))
      end
    end
  end.

End epoch_record.
End PorWeightEpochRecord.
#[export] Existing Instance PorWeightEpochRecord.t_eq_dec.

(** ** [LiveIngress] *)

(** [BlocklaceAdapter]: the component behind the ingress. *)
Class BlocklaceAdapter := {
  adapter_state : Type;
  adapter_error : Type;
  on_block : adapter_state → Block → result unit adapter_error * adapter_state
}.

Module LiveIngress.

Inductive LiveIngressPhase := Defined | Traced | Connected.
Inductive OrderingPath := Unchanged | VerifiedPrefix | Full.
Inductive FallbackReason :=
  | no_saved_prefix | unsafe_mirror_mutation | generation_mismatch | mirror_size_mismatch
  | unchanged_generation | no_mirror_growth | wavelength_changed | weights_changed
  | trusted_boundary | missing_published_output | anchor_not_verified | suffix_prefix_mismatch.
#[export] Instance FallbackReason_eq_dec : EqDecision FallbackReason.
Proof. solve_decision. Defined.

Record OrderingDiagnostics := mkDiagnostics {
  last_path : option OrderingPath;
  last_fallback_reason : option FallbackReason;
  cache_entries : nat;
  unchanged_polls : N;
  verified_prefix_extensions : N;
  full_recomputations : N;
  full_fallbacks : N;
  fallbacks_by_reason : FallbackReason → option N
}.
Definition default_diagnostics : OrderingDiagnostics :=
  mkDiagnostics None None 0 0 0 0 0 (λ _, None).

Record FinalizedOutputFingerprint := mkFingerprint {
  fp_generation : N;
  mirrored_blocks : nat;
  fp_wavelength : N;
  fp_weights : WeightSnapshot.t
}.
#[export] Instance FinalizedOutputFingerprint_eq_dec : EqDecision FinalizedOutputFingerprint.
Proof. solve_decision. Defined.

Record FinalizedPrefixReuse := mkReuse {
  fingerprint : FinalizedOutputFingerprint;
  reuse_anchor : BlockIdentity;
  anchor_wave_end : N;
  observed_generation : N;
  observed_mirrored_blocks : nat;
  safe_append : bool
}.

(** The format of [PorWeightEpochRecordError] is the error itself. *)
Inductive EpochReplayReason :=
  | ReplayMessage (message : list byte)
  | ReplayFailed (error : PorWeightEpochRecord.PorWeightEpochRecordError).

(** Without the errors of building a snapshot. *)
Inductive SnapshotError :=
  | OrderedOutputPrefixViolation
  | OrderingFailed (error : OrderingError)
  | EpochReplay (reason : EpochReplayReason).

Section ingress.
Context `{HO : HashOrder} `{Blake2b} `{BA : BlocklaceAdapter}.

Inductive LiveIngressError :=
  | AdapterRejected (error : adapter_error)
  | Mirror (error : @LiveBlocklaceMirror.MirrorError AlreadyValidatedVerifier).

(** Without the mapper and the index of native blocks, the shard
    configuration, and the deploy tracer, which only observe or translate. *)
Record t := mk {
  phase : LiveIngressPhase;
  adapter : adapter_state;
  mirror : LiveBlocklaceMirror.t;
  ordering_cache : Ordering.OrderingCache;
  last_finalized_output_fingerprint : option FinalizedOutputFingerprint;
  finalized_prefix_reuse : option FinalizedPrefixReuse;
  ordering_diagnostics : OrderingDiagnostics;
  shared_ordered_output : SharedOrderedOutput.t;
  bonds : gmap NodeId N;
  future_epoch : option PorWeightEpochRecord.t
}.
Implicit Types self : t.

Definition with_consensus_view (address : N) (adapter : adapter_state) (bonds : gmap NodeId N) : t :=
  mk Defined adapter (LiveBlocklaceMirror.new address) Ordering.default_cache None None
    default_diagnostics SharedOrderedOutput.new bonds None.
Definition new (address : N) (adapter : adapter_state) : t := with_consensus_view address adapter ∅.

Definition blocklace self : Blocklace.t := LiveBlocklaceMirror.blocklace (mirror self).
Definition pending_blocks self : gmap BlockIdentity Block :=
  LiveBlocklaceMirror.pending (mirror self).
Definition latest self : option OrderedFinalizedOutput.t :=
  SharedOrderedOutput.latest (shared_ordered_output self).

(** Assignments to fields. *)
Definition set_phase self p : t :=
  mk p (adapter self) (mirror self) (ordering_cache self) (last_finalized_output_fingerprint self)
    (finalized_prefix_reuse self) (ordering_diagnostics self) (shared_ordered_output self)
    (bonds self) (future_epoch self).
Definition set_adapter self a : t :=
  mk (phase self) a (mirror self) (ordering_cache self) (last_finalized_output_fingerprint self)
    (finalized_prefix_reuse self) (ordering_diagnostics self) (shared_ordered_output self)
    (bonds self) (future_epoch self).
Definition set_mirror self m : t :=
  mk (phase self) (adapter self) m (ordering_cache self) (last_finalized_output_fingerprint self)
    (finalized_prefix_reuse self) (ordering_diagnostics self) (shared_ordered_output self)
    (bonds self) (future_epoch self).
Definition set_cache self c : t :=
  mk (phase self) (adapter self) (mirror self) c (last_finalized_output_fingerprint self)
    (finalized_prefix_reuse self) (ordering_diagnostics self) (shared_ordered_output self)
    (bonds self) (future_epoch self).
Definition set_fingerprint self f : t :=
  mk (phase self) (adapter self) (mirror self) (ordering_cache self) f
    (finalized_prefix_reuse self) (ordering_diagnostics self) (shared_ordered_output self)
    (bonds self) (future_epoch self).
Definition set_reuse self r : t :=
  mk (phase self) (adapter self) (mirror self) (ordering_cache self)
    (last_finalized_output_fingerprint self) r (ordering_diagnostics self)
    (shared_ordered_output self) (bonds self) (future_epoch self).
Definition set_diagnostics self d : t :=
  mk (phase self) (adapter self) (mirror self) (ordering_cache self)
    (last_finalized_output_fingerprint self) (finalized_prefix_reuse self) d
    (shared_ordered_output self) (bonds self) (future_epoch self).
Definition set_shared self s : t :=
  mk (phase self) (adapter self) (mirror self) (ordering_cache self)
    (last_finalized_output_fingerprint self) (finalized_prefix_reuse self)
    (ordering_diagnostics self) s (bonds self) (future_epoch self).
Definition set_bonds_field self b : t :=
  mk (phase self) (adapter self) (mirror self) (ordering_cache self)
    (last_finalized_output_fingerprint self) (finalized_prefix_reuse self)
    (ordering_diagnostics self) (shared_ordered_output self) b (future_epoch self).
Definition set_epoch self e : t :=
  mk (phase self) (adapter self) (mirror self) (ordering_cache self)
    (last_finalized_output_fingerprint self) (finalized_prefix_reuse self)
    (ordering_diagnostics self) (shared_ordered_output self) (bonds self) e.

Definition mark_traced self : t := set_phase self Traced.
Definition mark_connected self : t := set_phase self Connected.

Definition unsafe_reuse (reuse : FinalizedPrefixReuse) : FinalizedPrefixReuse :=
  mkReuse (fingerprint reuse) (reuse_anchor reuse) (anchor_wave_end reuse)
    (observed_generation reuse) (observed_mirrored_blocks reuse) false.
Definition invalidate_finalized_prefix_reuse self : t :=
  set_reuse self (unsafe_reuse <$> finalized_prefix_reuse self).

(** What every replacement of the weights does. *)
Definition replace_weights self (weights : gmap NodeId N) : t :=
  invalidate_finalized_prefix_reuse
    (set_cache (set_bonds_field self weights) Ordering.default_cache).

(** *** Future epochs *)

Definition replay_message {A} (message : String.string) : result A SnapshotError :=
  Err (EpochReplay (ReplayMessage (literal message))).

Definition replayed (r : result OrderedFinalizedOutput.t PorWeightEpochRecord.PorWeightEpochRecordError) :
    result OrderedFinalizedOutput.t SnapshotError :=
  map_err (λ e, EpochReplay (ReplayFailed e)) r.

Definition install_future_epoch self (now : N) (record : PorWeightEpochRecord.t)
    (committed_checkpoint_hash : Hash32) : option (result unit SnapshotError * t) :=
  if decide (PorWeightEpochRecord.reputation_checkpoint_hash record ≠ committed_checkpoint_hash)
  then Some (replay_message "committed checkpoint changed", self)
  else
    match future_epoch self with
    | Some active =>
      if decide (active = record) then Some (Ok tt, self)
      else Some (replay_message "a different future epoch is active", self)
    | None =>
      if decide (bonds self ≠ PorWeightEpochRecord.old_weights record)
      then Some (replay_message "old epoch weights changed", self)
      else
        r ← PorWeightEpochRecord.verify_replay record (blocklace self) now
              (Snapshots.ordered_validators (bonds self)) committed_checkpoint_hash;
        match replayed r with
        | Err e => Some (Err e, self)
        | Ok output =>
          match SharedOrderedOutput.update (shared_ordered_output self) output with
          | Err _ => Some (Err OrderedOutputPrefixViolation, self)
          | Ok shared =>
            Some (Ok tt,
              set_epoch (set_cache (set_bonds_field (set_shared self shared)
                (PorWeightEpochRecord.new_weights record)) Ordering.default_cache) (Some record))
          end
        end
    end.

(** [record] is the active epoch. *)
Definition replay_future_epoch self (now : N) (record : PorWeightEpochRecord.t) :
    option (result OrderedFinalizedOutput.t SnapshotError) :=
  if decide (bonds self ≠ PorWeightEpochRecord.new_weights record)
  then Some (replay_message "active epoch weights changed")
  else
    replayed <$> PorWeightEpochRecord.verify_replay record (blocklace self) now
      (Snapshots.ordered_validators (bonds self))
      (PorWeightEpochRecord.reputation_checkpoint_hash record).

Definition same_membership self (weights : gmap NodeId N) : bool :=
  bool_decide (size (bonds self) = size weights) &&
  forallb (λ validator, bool_decide (is_Some (weights !! validator))) (map_iter (bonds self)).*1.

(** The wave of the published leader. *)
Definition published_wave self (leader : BlockIdentity) (wavelength : N) :
    result N PorWeightActivationError :=
  let? leader_round := ok_or (Round.depth (blocklace self) leader) UnknownFinalizedAnchor in
  ok_or (Wave.wave_of_round leader_round wavelength) InvalidWavelength.

Definition published_boundary self :
    result (OrderedFinalizedOutput.t * BlockIdentity) PorWeightActivationError :=
  let? published := ok_or (latest self) MissingEpochBoundary in
  let? leader := ok_or (OrderedFinalizedOutput.anchor published) MissingEpochBoundary in
  Ok (published, leader).

Definition preview_future_weight_epoch self (now : N) (projected : gmap NodeId N)
    (effective_wave : N) : option (result OrderedFinalizedOutput.t PorWeightActivationError) :=
  let checked :=
    bail (ActivatedValidatorSetMismatch (size (bonds self)) (size projected))
      when same_membership self projected = false;
    bail MissingEpochBoundary when bonds self = ∅;
    let? boundary := published_boundary self in
    let '(published, leader) := boundary in
    let? wave := published_wave self leader (OrderedFinalizedOutput.wavelength published) in
    bail (EffectiveWaveAlreadyPublished effective_wave wave) when (effective_wave <= wave)%N;
    Ok (published, leader) in
  match checked with
  | Err e => Some (Err e)
  | Ok (published, leader) =>
    let wavelength := OrderedFinalizedOutput.wavelength published in
    r ← Ordering.weighted_tau_after_epoch_boundary (blocklace self) wavelength (bonds self)
          projected
          (Ordering.mkBoundary leader (OrderedFinalizedOutput.blocks published) effective_wave)
          (Snapshots.leader_of_wave (Snapshots.ordered_validators (bonds self)));
    Some (let? output := map_err FutureEpoch r in
      Ok (OrderedFinalizedOutput.new now output.1 (Some output.2) wavelength (size projected)
        (size (Blocklace.dom (blocklace self)))))
  end.

Definition preview_checkpoint_weight_epoch self (now : N) (projected : gmap NodeId N)
    (source : FinalizedPrefixCheckpoint) (policy : PorWeightEpochPolicy.t) :
    option (result (N * OrderedFinalizedOutput.t) PorWeightActivationError) :=
  let checked :=
    let? published := ok_or (latest self) MissingEpochBoundary in
    let? effective_wave := map_err FutureEpochPolicy
      (PorWeightEpochPolicy.effective_wave policy (blocklace self) published source) in
    let? leader := ok_or (OrderedFinalizedOutput.anchor published) MissingEpochBoundary in
    let? wave := published_wave self leader (OrderedFinalizedOutput.wavelength published) in
    let required_boundary_wave := (effective_wave - 1)%N in
    bail (EpochBoundaryWavePending required_boundary_wave wave)
      when (wave < required_boundary_wave)%N;
    Ok effective_wave in
  match checked with
  | Err e => Some (Err e)
  | Ok effective_wave =>
    r ← preview_future_weight_epoch self now projected effective_wave;
    Some (let? preview := r in Ok (effective_wave, preview))
  end.

(** [PorWeightEpochRecord::prepare]. *)
Definition prepare_epoch self (now : N) (source : FinalizedPrefixCheckpoint)
    (reputation_checkpoint_hash : Hash32) (projected : gmap NodeId N)
    (policy : PorWeightEpochPolicy.t) :
    option (result PorWeightEpochRecord.t PorWeightEpochRecord.PorWeightEpochRecordError) :=
  r ← preview_checkpoint_weight_epoch self now projected source policy;
  Some (
    let? previewed := map_err PorWeightEpochRecord.Preview r in
    let? sealed := ok_or (latest self)
      (PorWeightEpochRecord.Malformed (literal "missing sealed output")) in
    let? sealed_leader := ok_or (OrderedFinalizedOutput.anchor sealed)
      (PorWeightEpochRecord.Malformed (literal "missing sealed leader")) in
    let blocks := OrderedFinalizedOutput.blocks sealed in
    let record := PorWeightEpochRecord.mk (por_round source) reputation_checkpoint_hash source
      (PorWeightEpochPolicy.delay_waves policy) previewed.1
      (OrderedFinalizedOutput.wavelength sealed) sealed_leader (len blocks)
      (PorWeightEpochRecord.sealed_prefix_hash blocks)
      (PorWeightEpochRecord.sorted_weights (bonds self))
      (PorWeightEpochRecord.sorted_weights projected)
      (Activation.authorized_weight_commitment (bonds self))
      (Activation.authorized_weight_commitment projected) in
    let? _ := PorWeightEpochRecord.validate_structure record in
    Ok record).

(** *** Weights *)

Definition restore_activated_por_weights self (weights : gmap NodeId N) :
    result unit PorWeightActivationError * t :=
  if decide (is_Some (future_epoch self)) then (Err FutureEpochAlreadyActive, self)
  else if same_membership self weights then (Ok tt, replace_weights self weights)
  else (Err (ActivatedValidatorSetMismatch (size (bonds self)) (size weights)), self).

(** That the checkpoint the state was built at is finalized here. *)
Definition check_source self (block : ReputationBlock) : result unit PorWeightActivationError :=
  let source_wave := header_source_finalized_wave (header block) in
  let? output := ok_or (latest self) (MissingFinalizedOutput source_wave) in
  let wavelength := OrderedFinalizedOutput.wavelength output in
  bail InvalidWavelength when wavelength = 0%N;
  let? anchor := ok_or (OrderedFinalizedOutput.anchor output)
    (MissingFinalizedOutput source_wave) in
  match source_checkpoint (header block) with
  | Some source =>
    let round := source_round source in
    let? local := map_err (λ _, FinalizedCheckpointMismatch round)
      (PorFinality.finalized_prefix_checkpoint output round) in
    let? local := ok_or local (FinalizedCheckpointUnavailable round) in
    bail (FinalizedCheckpointMismatch round) when PorFinality.rating_source local ≠ source;
    Ok tt
  | None =>
    let? available := published_wave self anchor wavelength in
    bail (FinalizedWaveBehind source_wave available) when (available < source_wave)%N;
    Ok tt
  end.

(** That the weights do not change the published leader. *)
Definition check_leader self (authorized : list NodeId) (weights : gmap NodeId N)
    (previous : OrderedFinalizedOutput.t) : result unit PorWeightActivationError :=
  match OrderedFinalizedOutput.anchor previous with
  | Some leader =>
    if decide (1 < size weights) then
      let wavelength := OrderedFinalizedOutput.wavelength previous in
      let? wave := published_wave self leader wavelength in
      bail WouldRewriteFinalizedLeader
        when Finality.weighted_final_leader_for_wave (blocklace self) wave wavelength weights
               (Snapshots.leader_of_wave authorized) ≠ Some leader;
      Ok tt
    else Ok tt
  | None => Ok tt
  end.

(** That they do not change the published order. *)
Definition check_order self (weights : gmap NodeId N) (previous : OrderedFinalizedOutput.t) :
    option (result unit PorWeightActivationError) :=
  r ← Snapshots.try_ordered_block_identities_with_cache (blocklace self) weights
        (OrderedFinalizedOutput.wavelength previous) Ordering.default_cache;
  Some (
    let? prospective := map_err Live.OrderingFailed r.1 in
    bail WouldRewriteFinalizedOutput
      when ¬ OrderedFinalizedOutput.blocks previous `prefix_of`
             map consensus_identity prospective.1;
    Ok tt).

Definition check_published self (authorized : list NodeId) (weights : gmap NodeId N) :
    option (result unit PorWeightActivationError) :=
  match latest self with
  | None => Some (Ok tt)
  | Some previous =>
    match check_leader self authorized weights previous with
    | Err e => Some (Err e)
    | Ok _ => check_order self weights previous
    end
  end.

Definition checked_por_weights self (state : ReputationState.t) :
    option (result (gmap NodeId N) PorWeightActivationError) :=
  let authorized_validators := Snapshots.ordered_validators (bonds self) in
  let projected :=
    let? next_weights := map_err Projection
      (Weights.authorized_validator_weights state authorized_validators) in
    let round := ReputationState.current_round state in
    match ReputationState.latest_block state with
    | None => bail (MissingReputationCheckpoint round) when round ≠ 0%N; Ok next_weights
    | Some checkpoint => let? _ := check_source self checkpoint in Ok next_weights
    end in
  match projected with
  | Err e => Some (Err e)
  | Ok next_weights =>
    r ← check_published self authorized_validators next_weights;
    Some (let? _ := r in Ok next_weights)
  end.

Definition apply_por_weights self (state : ReputationState.t) :
    option (result unit PorWeightActivationError * t) :=
  if decide (is_Some (future_epoch self)) then Some (Err FutureEpochAlreadyActive, self)
  else
    r ← checked_por_weights self state;
    match r with
    | Err e => Some (Err e, self)
    | Ok next_weights => Some (Ok tt, replace_weights self next_weights)
    end.

Definition validate_por_weights self (state : ReputationState.t) :
    option (result unit PorWeightActivationError) :=
  r ← checked_por_weights self state; Some (let? _ := r in Ok tt).

Definition set_bonds self (weights : gmap NodeId N) : t :=
  if decide (bonds self ≠ weights) then replace_weights self weights else self.

(** *** Finalized output *)

Definition last_finalized_block_hash self (now : N) :
    option (result (option (list byte)) SnapshotError) :=
  match future_epoch self with
  | Some record =>
    r ← replay_future_epoch self now record;
    Some (let? output := r in Ok (OrderedFinalizedOutput.anchor_hash output))
  | None =>
    Some (Ok ((λ id, vec_to_list (content_hash id)) <$>
      Snapshots.latest_finalized_block_id (blocklace self) (bonds self)))
  end.

Definition ordered_finalized_blocks self (now : N) :
    option (result (list (list byte)) SnapshotError * t) :=
  match future_epoch self with
  | Some record =>
    r ← replay_future_epoch self now record;
    Some (let? output := r in Ok (OrderedFinalizedOutput.block_hashes output), self)
  | None =>
    r ← Snapshots.ordered_finalized_block_hashes_with_cache (blocklace self) (bonds self)
          (ordering_cache self);
    Some (Ok r.1, set_cache self r.2)
  end.

Definition current_fingerprint self (wave_length : N) : FinalizedOutputFingerprint :=
  mkFingerprint (Blocklace.generation (blocklace self)) (size (Blocklace.dom (blocklace self)))
    wave_length (WeightSnapshot.from_bonds (bonds self)).

(** Why the saved prefix is not extended; [None]: it may be. *)
Definition fallback_reason self (fp : FinalizedOutputFingerprint) (reuse : FinalizedPrefixReuse) :
    option FallbackReason :=
  let saved := fingerprint reuse in
  if negb (safe_append reuse) then Some unsafe_mirror_mutation
  else if decide (observed_generation reuse ≠ fp_generation fp) then Some generation_mismatch
  else if decide (observed_mirrored_blocks reuse ≠ mirrored_blocks fp)
  then Some mirror_size_mismatch
  else if decide (fp_generation saved = fp_generation fp) then Some unchanged_generation
  else if decide (mirrored_blocks fp ≤ mirrored_blocks saved) then Some no_mirror_growth
  else if decide (fp_wavelength saved ≠ fp_wavelength fp) then Some wavelength_changed
  else if decide (fp_weights saved ≠ fp_weights fp) then Some weights_changed
  else if Blocklace.has_trusted_boundaries (blocklace self) then Some trusted_boundary
  else None.

Definition extension : Type :=
  option (list BlockIdentity * BlockIdentity) * option FallbackReason.

Definition try_extend_finalized_prefix self (fp : FinalizedOutputFingerprint) :
    option (result extension OrderingError * Ordering.OrderingCache) :=
  let skip reason := Some (Ok (None, Some reason), ordering_cache self) in
  match finalized_prefix_reuse self with
  | None => skip no_saved_prefix
  | Some reuse =>
    match fallback_reason self fp reuse with
    | Some reason => skip reason
    | None =>
      match latest self with
      | None => skip missing_published_output
      | Some published =>
        let previous := OrderedFinalizedOutput.blocks published in
        r ← Snapshots.ordered_block_identities_with_verified_prefix (blocklace self) (bonds self)
              (fp_wavelength fp) (ordering_cache self) previous (reuse_anchor reuse);
        Some (let? extended := r.1 in
          Ok match extended with
             | None => (None, Some anchor_not_verified)
             | Some (blocks, anchor) =>
               if decide (previous `prefix_of` blocks) then (Some (blocks, anchor), None)
               else (None, Some suffix_prefix_mismatch)
             end, r.2)
      end
    end
  end.

(** The output and the path it was found on. *)
Definition compute_output self (fp : FinalizedOutputFingerprint) :
    option (result (list BlockIdentity * option BlockIdentity * OrderingPath *
                    option FallbackReason) OrderingError * Ordering.OrderingCache) :=
  r ← try_extend_finalized_prefix self fp;
  match r.1 with
  | Err e => Some (Err e, r.2)
  | Ok (Some (blocks, anchor), reason) => Some (Ok (blocks, Some anchor, VerifiedPrefix, reason), r.2)
  | Ok (None, reason) =>
    f ← Snapshots.try_ordered_block_identities_with_cache (blocklace self) (bonds self)
          (fp_wavelength fp) r.2;
    Some (let? output := f.1 in Ok (output.1, output.2, Full, reason), f.2)
  end.

Definition prefix_reuse self (fp : FinalizedOutputFingerprint) (output : OrderedFinalizedOutput.t) :
    option FinalizedPrefixReuse :=
  anchor ← OrderedFinalizedOutput.anchor output;
  anchor_round ← Round.depth (blocklace self) anchor;
  anchor_wave ← Wave.wave_of_round anchor_round (fp_wavelength fp);
  anchor_wave_end ← Wave.last_round_of_wave anchor_wave (fp_wavelength fp);
  Some (mkReuse fp anchor anchor_wave_end (fp_generation fp) (mirrored_blocks fp)
    (negb (Blocklace.has_trusted_boundaries (blocklace self)))).
Definition update_finalized_prefix_reuse self (fp : FinalizedOutputFingerprint)
    (output : OrderedFinalizedOutput.t) : t :=
  set_reuse self (prefix_reuse self fp output).

Definition bump (x : N) : N := wrapping_add64 x 1.
Definition diagnose_unchanged (d : OrderingDiagnostics) (entries : nat) : OrderingDiagnostics :=
  mkDiagnostics (Some Unchanged) None entries (bump (unchanged_polls d))
    (verified_prefix_extensions d) (full_recomputations d) (full_fallbacks d)
    (fallbacks_by_reason d).
Definition diagnose_computed (d : OrderingDiagnostics) (entries : nat) (path : OrderingPath)
    (reason : option FallbackReason) : OrderingDiagnostics :=
  match path with
  | VerifiedPrefix =>
    mkDiagnostics (Some path) reason entries (unchanged_polls d)
      (bump (verified_prefix_extensions d)) (full_recomputations d) (full_fallbacks d)
      (fallbacks_by_reason d)
  | _ =>
    let fallback := reason ← reason; if decide (reason = no_saved_prefix) then None else Some reason in
    mkDiagnostics (Some path) reason entries (unchanged_polls d) (verified_prefix_extensions d)
      (bump (full_recomputations d))
      (match fallback with Some _ => bump (full_fallbacks d) | None => full_fallbacks d end)
      (match fallback with
       | Some reason => λ r, if decide (r = reason)
         then Some (bump (default 0%N (fallbacks_by_reason d r))) else fallbacks_by_reason d r
       | None => fallbacks_by_reason d
       end)
  end.

(** The poll of an active epoch. *)
Definition epoch_output self (now wave_length : N) (record : PorWeightEpochRecord.t) :
    option (result OrderedFinalizedOutput.t SnapshotError * t) :=
  r ← replay_future_epoch self now record;
  match r with
  | Err e => Some (Err e, self)
  | Ok output =>
    if decide (OrderedFinalizedOutput.wavelength output ≠ wave_length)
    then Some (replay_message "epoch wavelength changed", self)
    else
      match SharedOrderedOutput.update (shared_ordered_output self) output with
      | Err _ => Some (Err OrderedOutputPrefixViolation, self)
      | Ok shared =>
        Some (Ok output, set_reuse (set_fingerprint (set_shared self shared) None) None)
      end
  end.

(** The poll that computes: what is published, and what is remembered of it. *)
Definition computed_output self (now : N) (fp : FinalizedOutputFingerprint) :
    option (result OrderedFinalizedOutput.t SnapshotError * t) :=
  r ← compute_output self fp;
  let self := set_cache self r.2 in
  match r.1 with
  | Err e => Some (Err (OrderingFailed e), self)
  | Ok (blocks, anchor, path, reason) =>
    let output := OrderedFinalizedOutput.new now blocks anchor (fp_wavelength fp)
      (size (bonds self)) (mirrored_blocks fp) in
    match SharedOrderedOutput.update (shared_ordered_output self) output with
    | Err _ => Some (Err OrderedOutputPrefixViolation, self)
    | Ok shared =>
      let self := set_fingerprint (set_shared self shared) (Some fp) in
      let self := update_finalized_prefix_reuse self fp output in
      Some (Ok output, set_diagnostics self (diagnose_computed (ordering_diagnostics self)
        (Ordering.cached_entries (ordering_cache self)) path reason))
    end
  end.

Definition latest_finalized_ordered_output self (now wave_length : N) :
    option (result OrderedFinalizedOutput.t SnapshotError * t) :=
  match future_epoch self with
  | Some record => epoch_output self now wave_length record
  | None =>
    let fp := current_fingerprint self wave_length in
    match last_finalized_output_fingerprint self, latest self with
    | Some last, Some output =>
      if decide (last = fp) then
        Some (Ok output, set_diagnostics self (diagnose_unchanged (ordering_diagnostics self)
          (Ordering.cached_entries (ordering_cache self))))
      else computed_output self now fp
    | _, _ => computed_output self now fp
    end
  end.

(** *** Blocks *)

Definition deeper_than (bl : Blocklace.t) (round : N) (id : BlockIdentity) : bool :=
  match Round.depth bl id with Some depth => bool_decide (round < depth)%N | None => false end.

Definition record_strict_mirror_update self (generation_before : N)
    (mirrored_blocks_before : nat) (update : MirrorUpdate) (inserted_block : BlockIdentity) : t :=
  match finalized_prefix_reuse self with
  | None => self
  | Some reuse =>
    let bl := blocklace self in
    let after := size (Blocklace.dom bl) in
    if decide (disposition update = Duplicate) then self
    else if decide (disposition update ≠ Applied ∨
                    observed_generation reuse ≠ generation_before ∨
                    observed_mirrored_blocks reuse ≠ mirrored_blocks_before)
    then set_reuse self (Some (unsafe_reuse reuse))
    else if decide (released_from_buffer update = 0 ∧
                    checked_sub (Blocklace.generation bl) generation_before = Some 1%N ∧
                    checked_sub (N.of_nat after) (N.of_nat mirrored_blocks_before) = Some 1%N ∧
                    deeper_than bl (anchor_wave_end reuse) inserted_block = true)
    then
      set_reuse self (Some (mkReuse (fingerprint reuse) (reuse_anchor reuse)
        (anchor_wave_end reuse) (Blocklace.generation bl) after (safe_append reuse)))
    else set_reuse self (Some (unsafe_reuse reuse))
  end.

Definition ingest_trusted_block self (block : Block) :
    option (result MirrorUpdate LiveIngressError * t) :=
  match on_block (adapter self) block with
  | (Err e, adapter) => Some (Err (AdapterRejected e), set_adapter self adapter)
  | (Ok _, adapter) =>
    let before := blocklace self in
    r ← @LiveBlocklaceMirror.ingest HO AlreadyValidatedVerifier (mirror self) block;
    let self := set_mirror (set_adapter self adapter) r.2 in
    match r.1 with
    | Err e => Some (Err (Mirror e), invalidate_finalized_prefix_reuse self)
    | Ok update =>
      let self := record_strict_mirror_update self (Blocklace.generation before)
        (size (Blocklace.dom before)) update (identity block) in
      Some (Ok update, set_phase self Connected)
    end
  end.

Definition ingest_trusted_window_block self (block : Block) :
    option (result MirrorUpdate LiveIngressError * t) :=
  match on_block (adapter self) block with
  | (Err e, adapter) => Some (Err (AdapterRejected e), set_adapter self adapter)
  | (Ok _, adapter) =>
    r ← @LiveBlocklaceMirror.ingest_with_trusted_boundary HO AlreadyValidatedVerifier
          (mirror self) block;
    let self := set_mirror (set_adapter self adapter) r.2 in
    match r.1 with
    | Err e => Some (Err (Mirror e), invalidate_finalized_prefix_reuse self)
    | Ok update =>
      let self := if decide (disposition update ≠ Duplicate)
        then invalidate_finalized_prefix_reuse self else self in
      Some (Ok update, set_phase self Connected)
    end
  end.

End ingress.
End LiveIngress.

(** ** The weights of a durable state

    [restore_activated_weights] and [activate_weights] of [persistence.rs]:
    the operations that hold both the durable owner and the ingress. *)

#[export] Instance Activation_eq_dec : EqDecision Activation.t.
Proof. solve_decision. Defined.

Module DurableWeights.

(** The owner with the activation that this process has restored or made,
    [process_activation], which no other operation reads. *)
Record t := mk {
  durable : Durable.t;
  process_activation : option Activation.t
}.

Inductive PorWeightActivationOutcome := Activated | Restored | AlreadyActive.

(** The errors of [DurablePorStateError] these operations add to those of
    [Durable]: its [ActivationFailed e] is [ActivationRejected (Projection e)]
    in the code. *)
Inductive WeightsError :=
  | StateFailed (error : Durable.DurablePorStateError)
  | MissingActivatedWeights (committed_round : N)
  | ActivationRejected (error : PorWeightActivationError).

Section weights.
Context `{HO : HashOrder} `{Blake2b} `{BA : BlocklaceAdapter}.
Implicit Types (self : t) (ingress : LiveIngress.t).

Definition restore_activated_weights self ingress :
    result (option PorWeightActivationOutcome) WeightsError * t * LiveIngress.t :=
  match Durable.ensure_healthy (durable self) with
  | Err e => (Err (StateFailed e), self, ingress)
  | Ok _ =>
    match Durable.activated_weights (durable self) with
    | None =>
      let round := ReputationState.current_round (Durable.live_state (durable self)) in
      (bail (MissingActivatedWeights round) when round ≠ 0%N; Ok None, self, ingress)
    | Some activated =>
      let r := LiveIngress.restore_activated_por_weights ingress (Activation.weights activated) in
      match r.1 with
      | Err e => (Err (ActivationRejected e), self, r.2)
      | Ok _ => (Ok (Some Restored), mk (durable self) (Some activated), r.2)
      end
    end
  end.

(** The projection and the record [activate_weights] asks for. *)
Definition desired_record self ingress : result (gmap NodeId N * Activation.t) WeightsError :=
  let? _ := map_err StateFailed (Durable.ensure_healthy (durable self)) in
  let state := Durable.live_state (durable self) in
  let round := ReputationState.current_round state in
  let? projected := map_err (λ e, ActivationRejected (Projection e))
    (Weights.authorized_validator_weights state
       (Snapshots.ordered_validators (LiveIngress.bonds ingress))) in
  bail (ActivationRejected (MissingReputationCheckpoint round))
    when round ≠ 0%N ∧ ReputationState.latest_block state = None;
  let? desired := map_err (λ e, ActivationRejected (Projection e))
    (Activation.from_state_and_weights state projected) in
  let? _ := map_err StateFailed (Durable.validate_activation_record
    (Durable.activated_weights (durable self)) state) in
  Ok (projected, desired).

(** The owner after its marker was written or not. *)
Definition with_activated (owner : Durable.t) (activated : option Activation.t) : Durable.t :=
  Durable.mk (Durable.history owner) (Durable.live_state owner) activated
    (Durable.recovery_required owner).

(** After the live weights were replaced. *)
Definition record_activation self (desired : Activation.t) :
    FileSystem.machine →
    result PorWeightActivationOutcome WeightsError * t * FileSystem.machine := λ m,
  if decide (Durable.activated_weights (durable self) = Some desired)
  then (Ok Restored, mk (durable self) (Some desired), m)
  else
    match Activation.persist desired m with
    | (Err e, m) =>
      (Err (StateFailed (Durable.ActivationPersistence e)),
       mk (Durable.closed (durable self) (Durable.history (durable self)))
         (process_activation self), m)
    | (Ok _, m) =>
      (Ok Activated, mk (with_activated (durable self) (Some desired)) (Some desired), m)
    end.

Definition activate_weights self ingress (m : FileSystem.machine) :
    option (result PorWeightActivationOutcome WeightsError * t * LiveIngress.t *
            FileSystem.machine) :=
  match desired_record self ingress with
  | Err e => Some (Err e, self, ingress, m)
  | Ok (projected, desired) =>
    if decide (process_activation self = Some desired ∧ LiveIngress.bonds ingress = projected)
    then Some (Ok AlreadyActive, self, ingress, m)
    else
      r ← LiveIngress.apply_por_weights ingress (Durable.live_state (durable self));
      match r.1 with
      | Err e => Some (Err (ActivationRejected e), self, r.2, m)
      | Ok _ =>
        let '(outcome, self, m) := record_activation self desired m in
        Some (outcome, self, r.2, m)
      end
  end.

End weights.
End DurableWeights.
