(* ===== verification/LiveFacts.v ===== *)
(** * Properties of the live ingress

    What a blocklace that only grew still says about its old blocks, the
    ordering through its cache and as an extension of a published prefix, the
    mirror, and the invariant of the ingress. *)

From S2P Require Import Prelude Types Lace LaceFacts AncestorIndex IndexFacts Rounds RoundFacts.
From S2P Require Import Quorum QuorumFacts Cordiality CordialityFacts Finality FinalityFacts.
From S2P Require Import Xsort XsortFacts Ordering OrderingFacts AdmissionFacts PruningFacts.
From S2P Require Import PorTypes PorState FinalOutput Durable Live.
From stdpp Require Import options.

(** ** Growth

    [bl'] has the blocks of [bl] and others deeper than the round [z]. *)

Record grown (z : N) (bl bl' : Blocklace.t) : Prop := {
  grown_wf : well_formed bl;
  grown_wf' : well_formed bl';
  grown_no : Blocklace.checkpoint bl = None;
  grown_no' : Blocklace.checkpoint bl' = None;
  grown_blocks : Blocklace.blocks bl ⊆ Blocklace.blocks bl';
  grown_deep : ∀ i d, is_depth bl' i d → i ∉ Blocklace.dom bl → (z < d)%N
}.

Section growth.
Context `{HO : HashOrder}.
Variables (z : N) (bl bl' : Blocklace.t).
Hypothesis Hg : grown z bl bl'.
#[local] Set Default Proof Using "Type* HO Hg".

Let Hac : acyclic bl := wf_acyclic _ (grown_wf _ _ _ Hg).
Let Hac' : acyclic bl' := wf_acyclic _ (grown_wf' _ _ _ Hg).
Let Hu' : unique_variants bl' := wf_unique _ (grown_wf' _ _ _ Hg).

Lemma grown_lookup i c : Blocklace.blocks bl !! i = Some c → Blocklace.blocks bl' !! i = Some c.
Proof. intros Hi. eapply lookup_weaken; [done|apply Hg]. Qed.
Lemma grown_lookup_iff i c :
  i ∈ Blocklace.dom bl → Blocklace.blocks bl' !! i = Some c ↔ Blocklace.blocks bl !! i = Some c.
Proof.
  intros [c0 Hc0]%elem_of_lace_dom. pose proof (grown_lookup _ _ Hc0). naive_solver congruence.
Qed.
Lemma grown_dom i : i ∈ Blocklace.dom bl → i ∈ Blocklace.dom bl'.
Proof. rewrite !elem_of_lace_dom. intros [c Hc]. exists c. by apply grown_lookup. Qed.
Lemma grown_resolve p r :
  Blocklace.resolve_identity bl p = Some r → Blocklace.resolve_identity bl' p = Some r.
Proof.
  intros (Hr & Hs & Hp)%resolve_Some. apply grown_dom in Hr. destruct Hp as [->|Hp].
  - by apply resolve_stored.
  - apply resolve_in_unsigned; [|done| |done]; [|by apply elem_of_lace_dom].
    intros a b Ha Hb. apply Hu'; by apply elem_of_lace_dom.
Qed.
Lemma grown_points a b : a ∈ Blocklace.dom bl → points bl' a b ↔ points bl a b.
Proof.
  intros Ha. unfold points. setoid_rewrite grown_lookup_iff; [|done].
  rewrite (grown_no _ _ _ Hg), (grown_no' _ _ _ Hg). split.
  - intros (c & p & Hc & Hp & Hr & _). exists c, p. split_and!; try done.
    destruct (wf_closed _ (grown_wf _ _ _ Hg) a c p) as [r Hr0]; [done|by rewrite (grown_no _ _ _ Hg)|done|].
    apply grown_resolve in Hr0 as Hr1. congruence.
  - intros (c & p & Hc & Hp & Hr & _). exists c, p. split_and!; try done. by apply grown_resolve.
Qed.
Lemma grown_rtc a b : a ∈ Blocklace.dom bl → rtc (points bl') a b ↔ rtc (points bl) a b.
Proof.
  intros Ha. split.
  - intros H. induction H as [|a m b Ham _ IH]; [done|]. apply grown_points in Ham; [|done].
    eapply rtc_l; [done|]. apply IH. apply (points_dom _ _ _ Ham).
  - intros H. induction H as [|a m b Ham _ IH]; [done|]. eapply rtc_l; [by apply grown_points|].
    apply IH. apply (points_dom _ _ _ Ham).
Qed.

Lemma grown_depth_fwd i d : is_depth bl i d → is_depth bl' i d.
Proof.
  induction 1 as [i Hcp|i c Hcp Hi He|i c target depth_of m Hcp Hi Hne Ht Hd IH Hm Hex].
  - by rewrite (grown_no _ _ _ Hg) in Hcp.
  - apply (depth_initial bl' i c); [by rewrite (grown_no' _ _ _ Hg)|by apply grown_lookup|done].
  - apply (depth_above bl' i c target depth_of m); try done.
    + by rewrite (grown_no' _ _ _ Hg).
    + by apply grown_lookup.
    + intros p Hp. by apply grown_resolve, Ht.
Qed.
Lemma grown_depth i d : i ∈ Blocklace.dom bl → is_depth bl' i d ↔ is_depth bl i d.
Proof.
  intros Hi. split; [|apply grown_depth_fwd]. intros Hd.
  destruct (depth_exists bl i (wf_closed _ (grown_wf _ _ _ Hg)) Hac Hi) as [d0 Hd0].
  apply grown_depth_fwd in Hd0 as Hd0'. by rewrite (is_depth_det _ _ _ _ Hd Hd0').
Qed.
(** Up to the round [z] both have the same layers. *)
Lemma shallow_dom i d : (d <= z)%N → is_depth bl' i d → i ∈ Blocklace.dom bl.
Proof.
  intros Hz Hd. destruct (decide (i ∈ Blocklace.dom bl)) as [|Hi]; [done|].
  pose proof (grown_deep _ _ _ Hg i d Hd Hi). lia.
Qed.
Lemma shallow_layer i c d :
  (d <= z)%N →
  Blocklace.blocks bl' !! i = Some c ∧ is_depth bl' i d ↔
  Blocklace.blocks bl !! i = Some c ∧ is_depth bl i d.
Proof.
  intros Hz. split; intros [Hi Hd].
  - pose proof (shallow_dom i d Hz Hd). by rewrite grown_lookup_iff, grown_depth in *.
  - pose proof (is_depth_dom _ _ _ Hd). by rewrite grown_lookup_iff, grown_depth.
Qed.

(** *** Approval and ratification *)

Lemma grown_rival a b :
  a ∈ Blocklace.dom bl → b ∈ Blocklace.dom bl → rival bl' a b ↔ rival bl a b.
Proof. intros Ha Hb. unfold rival. by rewrite !grown_rtc. Qed.
Lemma grown_approved a t : a ∈ Blocklace.dom bl → approved bl' a t ↔ approved bl a t.
Proof.
  intros Ha. unfold approved. rewrite grown_rtc by done. split; intros [Ht Hn]; (split; [done|]);
    pose proof (rtc_points_dom _ _ _ Ha Ht) as Htd; intros r Hr.
  - pose proof (rtc_points_dom _ _ _ Ha Hr). rewrite <-grown_rival by done. apply Hn.
    by apply grown_rtc.
  - apply grown_rtc in Hr; [|done]. pose proof (rtc_points_dom _ _ _ Ha Hr).
    rewrite grown_rival by done. by apply Hn.
Qed.
Lemma grown_get i : i ∈ Blocklace.dom bl → Blocklace.get bl' i = Blocklace.get bl i.
Proof.
  intros [c Hc]%elem_of_lace_dom. rewrite (get_stored _ _ _ Hc).
  by apply grown_lookup, get_stored in Hc.
Qed.
Lemma grown_support r t weights :
  r ∈ Blocklace.dom bl →
  approving_support bl' (observed_blocks bl' r) t weights =
  approving_support bl (observed_blocks bl r) t weights.
Proof.
  intros Hr. apply set_eq. intros p. rewrite !elem_of_approving_support. apply and_iff_compat_l.
  setoid_rewrite lookup_observed_blocks.
  setoid_rewrite elem_of_observe_stored; [|by try apply grown_dom..].
  split; intros (i & c & [Hri Hi] & Hcr & Ha); exists i, c.
  - apply grown_rtc in Hri; [|done]. pose proof (rtc_points_dom _ _ _ Hr Hri) as Hd.
    apply grown_lookup_iff in Hi; [|done]. split_and!; try done.
    apply approves_stored in Ha; [|done|by apply grown_dom].
    apply approves_stored; [done..|]. by apply grown_approved.
  - pose proof (rtc_points_dom _ _ _ Hr Hri) as Hd. apply grown_lookup in Hi.
    rewrite grown_rtc by done. split_and!; try done.
    apply approves_stored in Ha; [|done..].
    apply approves_stored; [done|by apply grown_dom|]. by apply grown_approved.
Qed.
Lemma grown_ratification (r t : Block) weights :
  identity r ∈ Blocklace.dom bl → identity t ∈ Blocklace.dom bl →
  is_Some (ratification bl' r t weights) ↔ is_Some (ratification bl r t weights).
Proof.
  intros Hr Ht. unfold ratification. rewrite !grown_get, grown_support by done.
  case_decide; [done|]. cbn zeta. by destruct (Quorum.is_weighted_supermajority_snapshot _ _).
Qed.
Lemma grown_super_ratification blocks (t : Block) weights :
  identity t ∈ Blocklace.dom bl → (∀ b, b ∈ iter_blocks blocks → identity b ∈ Blocklace.dom bl) →
  super_ratification bl' blocks t weights = super_ratification bl blocks t weights.
Proof.
  intros Ht Hb. unfold super_ratification.
  assert (ratifying_blocks bl' blocks t weights = ratifying_blocks bl blocks t weights) as ->; [|done].
  unfold ratifying_blocks. f_equal. apply PruningFacts.filter_ext_in. intros b Hin.
  rewrite sort_by_key_perm in Hin. apply Hb in Hin.
  rewrite !bool_decide_eq_true. by apply grown_ratification.
Qed.

(** *** Waves that end by the round [z] *)

Lemma wave_rounds wave wl last :
  Wave.last_round_of_wave wave wl = Some last →
  Wave.leader_round_of_wave wave wl = Some (wave * wl)%N ∧ (wave * wl <= last)%N ∧ wl ≠ 0%N.
Proof.
  unfold Wave.last_round_of_wave, Wave.leader_round_of_wave, Wave.first_round_of_wave.
  case_decide; [done|]. destruct (checked_mul _ _ _) as [f|] eqn:E; [|done].
  apply checked_mul_Some in E as [-> _]. cbn [mbind option_bind].
  intros [-> _]%checked_add_Some. split_and!; [done|lia|done].
Qed.

Lemma grown_leader_blocks wave wl ls last :
  Wave.last_round_of_wave wave wl = Some last → (last <= z)%N →
  Wave.leader_blocks_of_wave bl' wave wl ls = Wave.leader_blocks_of_wave bl wave wl ls.
Proof.
  intros (Hr & Hle & _)%wave_rounds Hz. apply map_eq. intros i. apply option_eq. intros c.
  rewrite !lookup_leader_blocks by done. split; intros (p & r' & Hls & Hr' & Hcr & Hi & Hd);
    (rewrite Hr in Hr'; injection Hr' as <-);
    exists p, (wave * wl)%N; split_and!; try done; (eapply shallow_layer; [|by split]; lia).
Qed.
Lemma grown_leader_block wave wl ls last :
  Wave.last_round_of_wave wave wl = Some last → (last <= z)%N →
  Finality.leader_block_for_wave bl' wave wl ls = Finality.leader_block_for_wave bl wave wl ls.
Proof. intros ??. unfold Finality.leader_block_for_wave. by erewrite grown_leader_blocks. Qed.
Lemma grown_witness a last :
  (last <= z)%N → Finality.witness_blocks bl' a last = Finality.witness_blocks bl a last.
Proof.
  intros Hle. apply map_eq. intros i. apply option_eq. intros c.
  change (Finality.witness_blocks bl' a last !! identity (mkBlock i c) = Some (content (mkBlock i c)) ↔
    Finality.witness_blocks bl a last !! identity (mkBlock i c) = Some (content (mkBlock i c))).
  rewrite <-!elem_of_iter_blocks, !elem_of_witness by done. cbn [identity content].
  split; intros (Hi & d & Hd & Hr);
    (edestruct (shallow_layer i c d) as [H1 H2]; [lia|]); naive_solver.
Qed.
Lemma grown_final wave wl bonds ls l last :
  Wave.last_round_of_wave wave wl = Some last → (last <= z)%N →
  Finality.leader_block_for_wave bl wave wl ls = Some l →
  Finality.is_weighted_final_leader bl' l wl bonds ls = Finality.is_weighted_final_leader bl l wl bonds ls.
Proof.
  intros Hlast Hle Hl. destruct (wave_rounds _ _ _ Hlast) as (Hr & Hrl & Hwl).
  pose proof (grown_leader_blocks wave wl ls last Hlast Hle) as Hsame.
  rewrite leader_block_singleton in Hl.
  destruct (iter_blocks (Wave.leader_blocks_of_wave bl wave wl ls)) as [|b [|]] eqn:Eb; try done.
  injection Hl as <-.
  assert (b ∈ iter_blocks (Wave.leader_blocks_of_wave bl wave wl ls)) as Hb by (rewrite Eb; by left).
  assert (b ∈ iter_blocks (Wave.leader_blocks_of_wave bl' wave wl ls)) as Hb' by by rewrite Hsame.
  destruct (leader_candidate_of_wave bl wave wl ls b Hac Hwl Hb) as (d & Hd & Hc).
  destruct (leader_candidate_of_wave bl' wave wl ls b Hac' Hwl Hb') as (d' & Hd' & Hc').
  apply compute_all_depths_spec in Hd, Hd'; [|done..].
  pose proof (is_depth_dom _ _ _ Hd) as Hbd. apply grown_depth in Hd'; [|done].
  assert (d' = d) as -> by by eapply is_depth_det.
  unfold Finality.is_weighted_final_leader, Finality.weighted_final_leader_certificate.
  rewrite Hc, Hc', Hlast. cbn [mbind option_bind].
  rewrite !weighted_certificate_spec, grown_witness by done.
  rewrite grown_super_ratification; [done|done|].
  intros x (Hx & _)%elem_of_witness; [|done]. apply elem_of_lace_dom. by eexists.
Qed.
Lemma grown_final_for_wave wave wl bonds ls last :
  Wave.last_round_of_wave wave wl = Some last → (last <= z)%N →
  Finality.weighted_final_leader_for_wave bl' wave wl bonds ls =
  Finality.weighted_final_leader_for_wave bl wave wl bonds ls.
Proof.
  intros Hlast Hle. unfold Finality.weighted_final_leader_for_wave.
  erewrite grown_leader_block by done.
  destruct (Finality.leader_block_for_wave bl wave wl ls) as [l|] eqn:El; [|done].
  cbn [mbind option_bind]. by erewrite grown_final.
Qed.

(** *** The chain of leaders below a leader whose wave ends by [z] *)

Definition settled_leader (wl : N) (leader : BlockIdentity) : Prop :=
  leader ∈ Blocklace.dom bl ∧ ∃ d w last, is_depth bl leader d ∧ Wave.wave_of_round d wl = Some w ∧
    Wave.last_round_of_wave w wl = Some last ∧ (last <= z)%N.

Lemma last_round_lt w w' wl last :
  Wave.last_round_of_wave w wl = Some last → (w' <= w)%N →
  ∃ last', Wave.last_round_of_wave w' wl = Some last' ∧ (last' <= last)%N.
Proof.
  unfold Wave.last_round_of_wave, Wave.first_round_of_wave. case_decide; [done|].
  destruct (checked_mul _ w _) as [f|] eqn:E; [|done]. apply checked_mul_Some in E as [-> Hf].
  cbn [mbind option_bind]. intros [-> Hl]%checked_add_Some Hw.
  assert (w' * wl <= w * wl)%N by nia.
  assert (checked_mul u64_max w' wl = Some (w' * wl)%N) as -> by (apply checked_mul_Some; split; [done|lia]).
  cbn [mbind option_bind]. exists (w' * wl + (wl - 1))%N. split; [|lia].
  apply checked_add_Some. split; [done|lia].
Qed.
Lemma grown_depth_of i : i ∈ Blocklace.dom bl → Round.depth bl' i = Round.depth bl i.
Proof.
  intros Hi. apply option_eq. intros d. rewrite !depth_spec by done.
  rewrite (resolve_stored bl i) by done. rewrite (resolve_stored bl' i) by by apply grown_dom.
  split; intros (j & [= <-] & Hd); exists i; (split; [done|]); by apply grown_depth.
Qed.
Lemma grown_previous wl bonds ls leader :
  settled_leader wl leader →
  Ordering.weighted_previous_final_leader bl' leader wl bonds ls =
  Ordering.weighted_previous_final_leader bl leader wl bonds ls.
Proof.
  intros (Hl & d & w & last & Hd & Hw & Hlast & Hz).
  unfold Ordering.weighted_previous_final_leader. rewrite grown_get, grown_depth_of by done.
  destruct (Blocklace.get bl leader) as [b|] eqn:Eb; [|done]. cbn [mbind option_bind].
  assert (Round.depth bl leader = Some d) as ->.
  { apply depth_spec; [done|]. exists leader. split; [by apply resolve_stored|done]. }
  cbn [mbind option_bind]. rewrite Hw. cbn [mbind option_bind]. case_decide; [done|].
  unfold Ordering.checkpoint_floor. rewrite (grown_no _ _ _ Hg), (grown_no' _ _ _ Hg). cbn [mbind option_bind].
  apply first_some_ext. intros w' Hw'. rewrite elem_of_reverse, elem_of_range_incl in Hw'.
  unfold Ordering.previous_in_wave.
  destruct (last_round_lt w w' wl last) as (last' & Hlast' & Hle); [done|lia|].
  erewrite grown_final_for_wave; [|done|lia].
  destruct (Finality.weighted_final_leader_for_wave bl w' wl bonds ls) as [prev|] eqn:Ep; [|done].
  cbn [mbind option_bind].
  assert (prev ∈ Blocklace.dom bl) as Hprev.
  { unfold Finality.weighted_final_leader_for_wave in Ep.
    destruct (Finality.leader_block_for_wave bl w' wl ls) as [l0|] eqn:El; [|done].
    cbn [mbind option_bind] in Ep. destruct (Finality.is_weighted_final_leader _ _ _ _ _); [|done].
    injection Ep as <-. by eapply leader_block_stored. }
  rewrite grown_get by done. destruct (Blocklace.get bl prev) as [pb|] eqn:Epb; [|done].
  cbn [mbind option_bind]. rewrite !weighted_ratifies_ratification.
  apply get_Some in Eb as [Eb _], Epb as [Epb _].
  rewrite resolve_stored in Eb by done. rewrite resolve_stored in Epb by done.
  injection Eb as Eb. injection Epb as Epb.
  replace (bool_decide (is_Some (ratification bl' b pb (WeightSnapshot.from_bonds bonds)))) with
    (bool_decide (is_Some (ratification bl b pb (WeightSnapshot.from_bonds bonds)))); [done|].
  apply bool_decide_ext. symmetry. apply grown_ratification; congruence.
Qed.

(** A previous leader is again settled. *)
Lemma settled_previous wl bonds ls leader prev :
  settled_leader wl leader →
  Ordering.weighted_previous_final_leader bl leader wl bonds ls = Some prev →
  settled_leader wl prev.
Proof.
  intros (Hl & d & w & last & Hd & Hw & Hlast & Hz).
  unfold Ordering.weighted_previous_final_leader.
  destruct (Blocklace.get bl leader) as [b|] eqn:Eb; [|done]. cbn [mbind option_bind].
  assert (Round.depth bl leader = Some d) as ->.
  { apply depth_spec; [done|]. exists leader. split; [by apply resolve_stored|done]. }
  cbn [mbind option_bind]. rewrite Hw. cbn [mbind option_bind]. case_decide; [done|].
  unfold Ordering.checkpoint_floor. rewrite (grown_no _ _ _ Hg). cbn [mbind option_bind].
  intros (w' & Hw' & Hp)%first_some_Some. rewrite elem_of_reverse, elem_of_range_incl in Hw'.
  unfold Ordering.previous_in_wave, Finality.weighted_final_leader_for_wave in Hp.
  destruct (Finality.leader_block_for_wave bl w' wl ls) as [l0|] eqn:El; [|done].
  cbn [mbind option_bind] in Hp. destruct (Finality.is_weighted_final_leader _ _ _ _ _); [|done].
  cbn [mbind option_bind] in Hp. destruct (Blocklace.get bl l0); [|done].
  cbn [mbind option_bind] in Hp. destruct (Cordiality.weighted_ratifies _ _ _ _); [|done].
  injection Hp as <-. apply leader_block_depth in El as (Hl0 & r & Hr & Hd0); [|done].
  destruct (last_round_lt w w' wl last) as (last' & Hlast' & Hle); [done|lia|].
  split; [done|]. exists r, w', last'. split_and!; [done|by eapply wave_of_leader_round|done|lia].
Qed.
Lemma grown_approved_blocks leader :
  leader ∈ Blocklace.dom bl →
  Ordering.approved_blocks_for_leader bl' leader = Ordering.approved_blocks_for_leader bl leader.
Proof.
  intros Hl. apply map_eq. intros i. apply option_eq. intros c.
  rewrite !lookup_approved_blocks by (done || by apply grown_dom). rewrite grown_approved by done.
  split; intros [Hi Ha]; (split; [|done]); [|by apply grown_lookup].
  apply grown_lookup_iff; [|done]. apply (rtc_points_dom _ leader); [done|apply Ha].
Qed.
End growth.

(** ** Sorting blocks of an acyclic blocklace *)

Section sorting.
Context `{HO : HashOrder}.
Variable bl : Blocklace.t.
Hypothesis Hac : acyclic bl.
Hypothesis Hu : unique_variants bl.
Hypothesis Hno : Blocklace.checkpoint bl = None.
#[local] Set Default Proof Using "Type* HO Hac Hu Hno".

Lemma xsort_subset (S : BlockSet) :
  S ⊆ Blocklace.blocks bl →
  ∃ out, Xsort.xsort S = Ok out ∧ ∀ x, x ∈ out → consensus_identity x = x.
Proof.
  intros HS. assert (∀ i, i ∈ dom S → i ∈ Blocklace.dom bl) as Hd.
  { intros i [c Hc]%elem_of_dom. apply elem_of_lace_dom. exists c. by eapply lookup_weaken. }
  assert (distinct_blocks S) as Hds by (intros i j ?%Hd ?%Hd; by apply Hu).
  destruct (xsort_acyclic S Hds (ancestor_rank bl)) as [out Hout].
  - intros j i (c & p & Hj & Hp & Hi & Hs & Hsig). apply ancestor_rank_lt; [done|].
    exists c, p. split_and!; [by eapply lookup_weaken|done| |by rewrite Hno].
    apply Hd in Hi. destruct Hsig as [->|Hsig]; [by apply resolve_stored|].
    apply resolve_in_unsigned; [|done|by apply elem_of_lace_dom|done].
    intros a b. rewrite <-!elem_of_lace_dom. apply Hu.
  - exists out. split; [done|]. apply xsort_spec in Hout as (l & _ & ->); [|done].
    intros x (i & -> & _)%list_elem_of_fmap. apply consensus_identity_idemp.
Qed.
Lemma approved_subset leader :
  leader ∈ Blocklace.dom bl →
  Ordering.approved_blocks_for_leader bl leader ⊆ Blocklace.blocks bl.
Proof.
  intros Hl. apply map_subseteq_spec. intros i c. rewrite lookup_approved_blocks by done. tauto.
Qed.
End sorting.

(** ** The recursion without its cache *)

(** Output lists name blocks by their consensus identity, each once. *)
Definition output_ok (st : Ordering.TauState) : Prop :=
  state_ok st ∧ ∀ x, x ∈ Ordering.ordered st → consensus_identity x = x.
Lemma empty_output_ok : output_ok Ordering.empty_state.
Proof. split; [apply empty_state_ok|]. by intros x ?%elem_of_nil. Qed.
Lemma emits_output_ok out st :
  output_ok st → (∀ x, x ∈ out → consensus_identity x = x) →
  output_ok (foldl Ordering.emit st out).
Proof.
  revert st. induction out as [|x out IH]; intros st [Hst Hc] Hout; simpl; [done|].
  apply IH; [|intros y Hy; apply Hout; by right]. split; [by apply emit_ok|].
  intros y. unfold Ordering.emit. case_decide; [by apply Hc|]. cbn [Ordering.ordered].
  rewrite elem_of_app, list_elem_of_singleton. intros [?| ->]; [by apply Hc|apply Hout; by left].
Qed.

Section plain.
Context `{HO : HashOrder}.
Variable bl : Blocklace.t.

(** What [from_leader_cached] computes on a blocklace without a checkpoint. *)
Fixpoint plain (previous : BlockIdentity → option BlockIdentity) (fuel : nat)
    (leader : BlockIdentity) (state : Ordering.TauState) :
    option (result Ordering.TauState OrderingError) :=
  match fuel with
  | O => None
  | S fuel =>
    r ← match previous leader with
        | Some previous_leader => plain previous fuel previous_leader state
        | None => Some (Ok state)
        end;
    Some (let? state := r in
          let? ids := Xsort.xsort (Ordering.approved_blocks_for_leader bl leader) in
          Ok (foldl Ordering.emit state ids))
  end.

Lemma plain_fuel previous fuel fuel' leader st r :
  plain previous fuel leader st = Some r → fuel ≤ fuel' → plain previous fuel' leader st = Some r.
Proof.
  revert fuel' leader st r. induction fuel as [|fuel IH]; intros fuel' leader st r E Hle; [done|].
  destruct fuel' as [|fuel']; [lia|]. cbn [plain] in E |- *.
  destruct (previous leader) as [prev|]; [|done].
  destruct (plain previous fuel prev st) as [r'|] eqn:Er; [|done].
  by rewrite (IH fuel' prev st r' Er) by lia.
Qed.

Hypothesis Hac : acyclic bl.
Hypothesis Hu : unique_variants bl.
Hypothesis Hno : Blocklace.checkpoint bl = None.
Variable previous : BlockIdentity → option BlockIdentity.
Hypothesis previous_points : ∀ leader prev,
  leader ∈ Blocklace.dom bl → previous leader = Some prev →
  prev ∈ Blocklace.dom bl ∧ tc (points bl) leader prev.
#[local] Set Default Proof Using "Type* HO Hac Hu Hno previous_points".

Lemma plain_total fuel leader st :
  output_ok st → leader ∈ Blocklace.dom bl → ancestor_rank bl leader < fuel →
  ∃ st', plain previous fuel leader st = Some (Ok st') ∧ output_ok st'.
Proof.
  revert leader st. induction fuel as [|fuel IH]; intros leader st Hst Hl Hf; [lia|]. cbn [plain].
  assert (∃ st1, match previous leader with
    | Some prev => plain previous fuel prev st | None => Some (Ok st) end = Some (Ok st1) ∧
    output_ok st1) as (st1 & -> & H1).
  { destruct (previous leader) as [prev|] eqn:Ep; [|eauto].
    apply previous_points in Ep as [Hp Ht]; [|done].
    apply (tc_rank bl [] previous Hac previous_points) in Ht. apply IH; [done..|lia]. }
  destruct (xsort_subset bl Hac Hu Hno _ (approved_subset bl Hac Hu Hno leader Hl)) as (out & -> & Hout).
  eexists. split; [reflexivity|]. by apply emits_output_ok.
Qed.
End plain.

(** A settled leader has the output it had. *)
Lemma plain_grown `{HO : HashOrder} z bl bl' wl bonds ls fuel leader st :
  grown z bl bl' → settled_leader z bl wl leader →
  plain bl' (λ l, Ordering.weighted_previous_final_leader bl' l wl bonds ls) fuel leader st =
  plain bl (λ l, Ordering.weighted_previous_final_leader bl l wl bonds ls) fuel leader st.
Proof.
  intros Hg. revert leader. induction fuel as [|fuel IH]; intros leader Hl; [done|]. cbn [plain].
  rewrite (grown_previous z bl bl' Hg) by done.
  rewrite (grown_approved_blocks z bl bl' Hg) by apply Hl.
  destruct (Ordering.weighted_previous_final_leader bl leader wl bonds ls) as [prev|] eqn:Ep; [|done].
  by rewrite IH by (by eapply settled_previous).
Qed.

(** ** The ordering cache *)

Definition ls_of `{HashOrder} (b : gmap NodeId N) : N → option NodeId :=
  Snapshots.leader_of_wave (Snapshots.ordered_validators b).
Definition previous_of `{HashOrder} (bl : Blocklace.t) (wl : N) (b : gmap NodeId N)
    (leader : BlockIdentity) : option BlockIdentity :=
  Ordering.weighted_previous_final_leader bl leader wl b (ls_of b).
Definition plain_output `{HashOrder} (bl : Blocklace.t) (wl : N) (b : gmap NodeId N)
    (leader : BlockIdentity) : option Ordering.Output :=
  Ordering.output <$> plain bl (previous_of bl wl b) (Ordering.tau_fuel bl) leader
    Ordering.empty_state.

(** A cache that was synced with [bl], and entries that are right for it. *)
Record cache_good `{HashOrder} (bl : Blocklace.t) (cache : Ordering.OrderingCache) : Prop := {
  good_identity : Ordering.cache_blocklace_identity cache = Some (Blocklace.cache_identity bl);
  good_generation :
    Ordering.cache_generation cache = (Blocklace.generation bl, size (Blocklace.dom bl));
  good_previous : ∀ leader wl b p,
    Ordering.weighted_previous_final_by_leader cache !!
      (leader, wl, WeightSnapshot.from_bonds b, 0%N) = Some p → p = previous_of bl wl b leader;
  good_output : ∀ leader wl b out,
    Ordering.weighted_tau_output_by_latest_leader cache !!
      (leader, wl, WeightSnapshot.from_bonds b, 0%N) = Some out →
    plain_output bl wl b leader = Some out
}.
(** Any cache of an earlier or the present [bl]. *)
Definition cache_ok `{HashOrder} (bl : Blocklace.t) (cache : Ordering.OrderingCache) : Prop :=
  (Ordering.cache_generation cache).2 ≤ size (Blocklace.dom bl) ∧
  (Ordering.cache_blocklace_identity cache = Some (Blocklace.cache_identity bl) →
   Ordering.cache_generation cache = (Blocklace.generation bl, size (Blocklace.dom bl)) →
   cache_good bl cache).

Section cache.
Context `{HO : HashOrder}.
Implicit Types (bl : Blocklace.t) (cache : Ordering.OrderingCache).

Lemma from_bonds_inj b b' : WeightSnapshot.from_bonds b = WeightSnapshot.from_bonds b' → b = b'.
Proof. intros E. by rewrite <-(from_bonds_bonds b), E, from_bonds_bonds. Qed.

(** Keys determine the weights, so an insertion keeps a property of entries. *)
Definition weight_key (leader : BlockIdentity) (wl : N) (b : gmap NodeId N) :
    Ordering.WeightedLeaderKey := (leader, wl, WeightSnapshot.from_bonds b, 0%N).
Lemma weight_key_inj leader wl b leader' wl' b' :
  weight_key leader wl b = weight_key leader' wl' b' → leader = leader' ∧ wl = wl' ∧ b = b'.
Proof.
  intros E. pose proof (f_equal (λ k, k.1.1.1) E) as E1. pose proof (f_equal (λ k, k.1.1.2) E) as E2.
  pose proof (f_equal (λ k, k.1.2) E) as E3. split_and!; [done..|by apply from_bonds_inj].
Qed.
Lemma insert_weight_key {V} (m : gmap Ordering.WeightedLeaderKey V) leader wl b v
    (P : BlockIdentity → N → gmap NodeId N → V → Prop) :
  P leader wl b v →
  (∀ leader wl b v, m !! weight_key leader wl b = Some v → P leader wl b v) →
  ∀ leader' wl' b' v', <[weight_key leader wl b := v]> m !! weight_key leader' wl' b' = Some v' →
    P leader' wl' b' v'.
Proof.
  intros Hv Hm leader' wl' b' v'. rewrite lookup_insert_Some. intros [[E <-]|[_ E]]; [|by apply Hm].
  by apply weight_key_inj in E as (-> & -> & ->).
Qed.

Lemma default_cache_ok bl : cache_ok bl Ordering.default_cache.
Proof. split; [simpl; lia|done]. Qed.
Lemma good_ok bl cache : cache_good bl cache → cache_ok bl cache.
Proof. intros Hc. split; [|done]. by rewrite (good_generation _ _ Hc). Qed.
(** A cache of a smaller blocklace says nothing. *)
Lemma cache_ok_grown bl bl' cache :
  cache_ok bl cache → size (Blocklace.dom bl) < size (Blocklace.dom bl') → cache_ok bl' cache.
Proof.
  intros [Hle _] Hlt. split; [lia|]. intros _ E. rewrite E in Hle. simpl in Hle. lia.
Qed.
Lemma sync_good bl cache : cache_ok bl cache → cache_good bl (Ordering.sync_cache_generation bl cache).
Proof.
  intros [_ Hok]. unfold Ordering.sync_cache_generation. case_decide as Hd; [by constructor|].
  apply Hok; apply dec_stable; tauto.
Qed.
Lemma good_synced bl cache :
  cache_good bl cache → Ordering.sync_cache_generation bl cache = cache.
Proof.
  intros Hc. unfold Ordering.sync_cache_generation. rewrite decide_False; [done|].
  rewrite (good_identity _ _ Hc), (good_generation _ _ Hc). tauto.
Qed.

Definition config_of (wl : N) (b : gmap NodeId N) : Ordering.WeightedTauConfig :=
  Ordering.mkWeightedConfig wl b (WeightSnapshot.from_bonds b) 0 (ls_of b).

Lemma previous_cached_spec bl wl b leader cache :
  cache_good bl cache →
  let p := Ordering.weighted_previous_final_leader_cached bl (config_of wl b) leader cache in
  p.1 = previous_of bl wl b leader ∧ cache_good bl p.2.
Proof.
  intros Hc. unfold Ordering.weighted_previous_final_leader_cached. cbn zeta.
  rewrite (good_synced _ _ Hc). cbn [config_of Ordering.w_wavelength Ordering.weights
    Ordering.w_leader_selection_id Ordering.bonds Ordering.w_leader_selection].
  destruct (Ordering.weighted_previous_final_by_leader cache !! _) as [p|] eqn:E; cbn [fst snd].
  - split; [by eapply good_previous|done].
  - split; [done|]. destruct Hc as [H1 H2 H3 H4]. constructor; try done.
    by apply (insert_weight_key _ leader wl b _ (λ leader wl b p, p = previous_of bl wl b leader)).
Qed.

Section recursion.
Variable bl : Blocklace.t.
Hypothesis Hno : Blocklace.checkpoint bl = None.
#[local] Set Default Proof Using "Type* HO Hno".

Lemma no_emit prefix leader st : Ordering.emit_prefix bl prefix leader st = (false, st).
Proof. unfold Ordering.emit_prefix. rewrite decide_True; [done|]. left. by rewrite Hno. Qed.
Lemma no_checkpoint_predecessor leader : Ordering.checkpoint_predecessor bl leader = None.
Proof. unfold Ordering.checkpoint_predecessor. by rewrite Hno. Qed.

Lemma cached_plain wl b fuel leader cache st :
  cache_good bl cache →
  match Ordering.from_leader_cached bl (Ordering.emit_weighted_checkpoint_prefix bl)
    (Ordering.weighted_previous_final_leader_cached bl (config_of wl b)) fuel leader cache st with
  | Some r => plain bl (previous_of bl wl b) fuel leader st = Some r.1 ∧ cache_good bl r.2
  | None => plain bl (previous_of bl wl b) fuel leader st = None
  end.
Proof.
  revert leader cache st. induction fuel as [|fuel IH]; intros leader cache st Hc; [done|].
  cbn [Ordering.from_leader_cached plain]. unfold Ordering.emit_weighted_checkpoint_prefix at 1.
  rewrite no_emit, no_checkpoint_predecessor. cbn [fst snd].
  destruct (previous_cached_spec bl wl b leader cache Hc) as [Ep Hp].
  destruct (Ordering.weighted_previous_final_leader_cached bl (config_of wl b) leader cache)
    as [p cache1]. cbn [fst snd] in Ep, Hp |- *. subst p.
  assert (∀ (o : option (result Ordering.TauState OrderingError * Ordering.OrderingCache)) o',
    match o with Some r => o' = Some r.1 ∧ cache_good bl r.2 | None => o' = None end →
    match r ← o;
      match r.1 with
      | Err e => Some (Err e, r.2)
      | Ok state =>
        let fragment := Ordering.sorted_approved_fragment bl leader r.2 in
        Some (let? ids := fragment.1 in Ok (foldl Ordering.emit state ids), fragment.2)
      end with
    | Some r => (r ← o'; Some (let? state := r in
          let? ids := Xsort.xsort (Ordering.approved_blocks_for_leader bl leader) in
          Ok (foldl Ordering.emit state ids))) = Some r.1 ∧ cache_good bl r.2
    | None => (r ← o'; Some (let? state := r in
          let? ids := Xsort.xsort (Ordering.approved_blocks_for_leader bl leader) in
          Ok (foldl Ordering.emit state ids))) = None
    end) as Hstep.
  { intros [[[st1|e] c1]|] o'; cbn [fst snd].
    - intros [-> Hc1]. cbn [mbind option_bind fst snd result_bind Ordering.sorted_approved_fragment].
      by rewrite (good_synced _ _ Hc1).
    - by intros [-> Hc1].
    - by intros ->. }
  destruct (previous_of bl wl b leader) as [prev|]; apply Hstep; [by apply IH|done].
Qed.

Lemma with_cache_spec wl b cache :
  cache_ok bl cache →
  match Ordering.weighted_tau_with_cache bl wl b 0 (ls_of b) cache with
  | Some r =>
    match Finality.latest_weighted_final_leader bl wl b (ls_of b) with
    | None => r.1 = Ok []
    | Some leader => plain_output bl wl b leader = Some r.1
    end ∧ cache_good bl r.2
  | None => ∃ leader, Finality.latest_weighted_final_leader bl wl b (ls_of b) = Some leader ∧
      plain_output bl wl b leader = None
  end.
Proof.
  intros Hc%sync_good. unfold Ordering.weighted_tau_with_cache.
  destruct (Finality.latest_weighted_final_leader bl wl b (ls_of b)) as [leader|] eqn:El; [|done].
  cbn zeta. destruct (_ !! (leader, wl, WeightSnapshot.from_bonds b, 0%N)) as [out|] eqn:Eo.
  { cbn [fst snd]. split; [by eapply good_output|done]. }
  unfold Ordering.weighted_tau_from_leader_cached.
  pose proof (cached_plain wl b (Ordering.tau_fuel bl) leader _ Ordering.empty_state Hc) as Hp.
  unfold config_of in Hp. destruct (Ordering.from_leader_cached _ _ _ _ _ _ _) as [[r c1]|]; cbn [mbind option_bind fst snd].
  - destruct Hp as [Hp Hc1]. cbn [fst snd] in Hp, Hc1. unfold plain_output. rewrite Hp. split; [done|].
    destruct Hc1 as [H1 H2 H3 H4]. constructor; try done.
    apply (insert_weight_key _ leader wl b _ (λ leader wl b out, plain_output bl wl b leader = Some out));
      [|done]. unfold plain_output. by rewrite Hp.
  - exists leader. unfold plain_output. by rewrite Hp.
Qed.
End recursion.
End cache.

(** ** Full computations and extensions *)

(** The ordering computed from nothing. *)
Definition full_order `{HashOrder} (bl : Blocklace.t) (b : gmap NodeId N) (wl : N) :
    option (result (list BlockIdentity * option BlockIdentity) OrderingError) :=
  fst <$> Snapshots.try_ordered_block_identities_with_cache bl b wl Ordering.default_cache.

Section orders.
Context `{HO : HashOrder}.
Variable bl : Blocklace.t.
Hypothesis Hac : acyclic bl.
Hypothesis Hu : unique_variants bl.
Hypothesis Hno : Blocklace.checkpoint bl = None.
#[local] Set Default Proof Using "Type* HO Hac Hu Hno".

Lemma previous_of_points wl b leader prev :
  leader ∈ Blocklace.dom bl → previous_of bl wl b leader = Some prev →
  prev ∈ Blocklace.dom bl ∧ tc (points bl) leader prev.
Proof. intros Hl. by apply weighted_previous_final_leader_points. Qed.

Lemma plain_output_total wl b leader :
  leader ∈ Blocklace.dom bl → ∃ st, output_ok st ∧ plain_output bl wl b leader = Some (Ok (Ordering.ordered st)) ∧
    plain bl (previous_of bl wl b) (Ordering.tau_fuel bl) leader Ordering.empty_state = Some (Ok st).
Proof.
  intros Hl. destruct (plain_total bl Hac Hu Hno (previous_of bl wl b) (previous_of_points wl b)
    (Ordering.tau_fuel bl) leader Ordering.empty_state) as (st & E & Hst);
    [apply empty_output_ok|done|apply leader_rank_fuel|].
  exists st. unfold plain_output. by rewrite E.
Qed.

(** What the weighted order is, whatever the cache. *)
Definition weighted_result wl b (r : list BlockIdentity * option BlockIdentity) : Prop :=
  match Finality.latest_weighted_final_leader bl wl b (ls_of b) with
  | None => r = ([], None)
  | Some leader => leader ∈ Blocklace.dom bl ∧ ∃ st, output_ok st ∧
      plain bl (previous_of bl wl b) (Ordering.tau_fuel bl) leader Ordering.empty_state = Some (Ok st) ∧
      r = (Ordering.ordered st, Some leader)
  end.
Lemma weighted_result_det wl b r r' : weighted_result wl b r → weighted_result wl b r' → r = r'.
Proof.
  unfold weighted_result. destruct (Finality.latest_weighted_final_leader bl wl b (ls_of b)); [|congruence].
  intros (_ & st & _ & E & ->) (_ & st' & _ & E' & ->). congruence.
Qed.
Lemma weighted_order_spec wl b cache :
  cache_ok bl cache →
  ∃ r c', Snapshots.weighted_order bl b wl cache = Some (Ok r, c') ∧ cache_ok bl c' ∧
    weighted_result wl b r.
Proof.
  intros Hc. pose proof (with_cache_spec bl Hno wl b cache Hc) as Hs.
  unfold Snapshots.weighted_order, weighted_result. fold (ls_of b).
  destruct (Ordering.weighted_tau_with_cache _ _ _ _ _ _) as [[out c']|]; cbn [mbind option_bind fst snd] in *.
  - destruct Hs as [Hs Hc'].
    destruct (Finality.latest_weighted_final_leader bl wl b (ls_of b)) as [leader|] eqn:El.
    + destruct (plain_output_total wl b leader) as (st & Hst & Ho & Hp);
        [by eapply latest_weighted_final_leader_stored|].
      rewrite Ho in Hs. injection Hs as <-. eexists _, c'. split; [reflexivity|].
      split; [by apply good_ok|]. split; [by eapply latest_weighted_final_leader_stored|]. eauto.
    + subst out. eexists _, c'. split; [reflexivity|]. split; [by apply good_ok|done].
  - destruct Hs as (leader & El & Hn).
    destruct (plain_output_total wl b leader) as (st & _ & Ho & _); [|congruence].
    by eapply latest_weighted_final_leader_stored.
Qed.

Lemma observed_subset leader :
  collect_blocks (omap (Blocklace.get bl) (hash_iter (Blocklace.observe bl leader))) ⊆
  Blocklace.blocks bl.
Proof.
  apply map_subseteq_spec. intros i c Hi.
  apply (lookup_get_set bl (Blocklace.observe bl leader)) in Hi as [_ Hi]; [done|].
  intros x. apply observe_dom.
Qed.

(** The full computation returns, and does not depend on the cache. *)
Lemma try_ordered_spec wl b cache :
  cache_ok bl cache →
  ∃ r c', Snapshots.try_ordered_block_identities_with_cache bl b wl cache = Some (Ok r, c') ∧
    cache_ok bl c' ∧ (∀ x, x ∈ r.1 → consensus_identity x = x) ∧ full_order bl b wl = Some (Ok r) ∧
    (Snapshots.ordered_validators b ≠ [] →
     Snapshots.sole_validator bl (Snapshots.ordered_validators b) = None → weighted_result wl b r).
Proof.
  intros Hc.
  assert (∀ r, weighted_result wl b r → ∀ x, x ∈ r.1 → consensus_identity x = x) as Hcons.
  { intros r. unfold weighted_result. destruct (Finality.latest_weighted_final_leader _ _ _ _).
    - intros (_ & st & [_ Hst] & _ & ->). apply Hst.
    - intros ->. by intros x ?%elem_of_nil. }
  assert (∃ r c', Snapshots.weighted_order bl b wl cache = Some (Ok r, c') ∧ cache_ok bl c' ∧
    (∀ x, x ∈ r.1 → consensus_identity x = x) ∧ weighted_result wl b r ∧
    fst <$> Snapshots.weighted_order bl b wl Ordering.default_cache = Some (Ok r))
    as (r & c' & E & Hc' & Hr & Hw & Hf).
  { destruct (weighted_order_spec wl b cache Hc) as (r & c' & E & Hc' & Hr).
    destruct (weighted_order_spec wl b Ordering.default_cache (default_cache_ok bl))
      as (r2 & c2 & E2 & _ & Hr2). rewrite (weighted_result_det wl b r2 r Hr2 Hr) in E2.
    exists r, c'. rewrite E2. split_and!; [done..|by apply Hcons|done|done]. }
  unfold full_order, Snapshots.try_ordered_block_identities_with_cache.
  case_decide as Hempty.
  { eexists _, cache. split; [reflexivity|]. split_and!; [done| |done|done]. by intros x ?%elem_of_nil. }
  destruct (Snapshots.sole_validator bl (Snapshots.ordered_validators b)) as [v|].
  - destruct (Snapshots.single_validator_leader bl v wl) as [|leader|].
    + eexists _, cache. split; [reflexivity|]. split_and!; [done| |done|done]. by intros x ?%elem_of_nil.
    + destruct (xsort_subset bl Hac Hu Hno _ (observed_subset leader)) as (out & Ho & Hout).
      unfold Snapshots.single_validator_order. rewrite Ho.
      eexists _, cache. split; [reflexivity|]. by split_and!.
    + by exists r, c'.
  - by exists r, c'.
Qed.
Lemma full_order_Ok wl b :
  ∃ r, full_order bl b wl = Some (Ok r) ∧ ∀ x, x ∈ r.1 → consensus_identity x = x.
Proof.
  destruct (try_ordered_spec wl b _ (default_cache_ok bl)) as (r & _ & _ & _ & Hx & Hf & _).
  by exists r.
Qed.

(** *** Extending a prefix *)

Lemma state_of_prefix st :
  output_ok st →
  let prefix := map consensus_identity (Ordering.ordered st) in
  Ordering.mkState (list_to_set prefix) prefix = st.
Proof.
  intros [[_ He] Hc]. cbn zeta.
  assert (map consensus_identity (Ordering.ordered st) = Ordering.ordered st) as ->.
  { rewrite <-map_id. apply map_ext_Forall, Forall_forall, Hc. }
  destruct st as [emitted ordered]. f_equal. apply set_eq. intros x. rewrite elem_of_list_to_set.
  symmetry. apply He.
Qed.

Section suffix.
Variables (wl : N) (b : gmap NodeId N) (anchor previous_anchor : BlockIdentity).
Variables (st0 : Ordering.TauState) (n0 : nat).
Hypothesis Hanchor : anchor ∈ Blocklace.dom bl.
Hypothesis Hsame : same_consensus_identity anchor previous_anchor.
Hypothesis Hst0 : output_ok st0.
Hypothesis Hplain : plain bl (previous_of bl wl b) n0 anchor Ordering.empty_state = Some (Ok st0).
#[local] Set Default Proof Using "Type* HO Hac Hu Hno Hanchor Hsame Hst0 Hplain".

(** The extension goes on where the output at the anchor ended. *)
Lemma suffix_plain fuel leader cache :
  leader ∈ Blocklace.dom bl → ancestor_rank bl leader < fuel → cache_good bl cache →
  ∃ reached st c', Ordering.weighted_tau_suffix_from_leader_cached bl fuel leader (config_of wl b)
      cache previous_anchor st0 = Some (Ok (reached, st), c') ∧ cache_good bl c' ∧ output_ok st ∧
    (reached = true →
     plain bl (previous_of bl wl b) (fuel + n0) leader Ordering.empty_state = Some (Ok st)).
Proof.
  revert leader cache. induction fuel as [|fuel IH]; intros leader cache Hl Hf Hc; [lia|].
  cbn [Ordering.weighted_tau_suffix_from_leader_cached]. case_decide as Hsa.
  { exists true, st0, cache. split_and!; [done..|]. intros _.
    assert (leader = anchor) as ->. { apply Hu; [done..|]. by rewrite Hsa, Hsame. }
    eapply plain_fuel; [exact Hplain|lia]. }
  unfold Ordering.emit_weighted_checkpoint_prefix at 1. rewrite no_emit by done. cbn [fst snd].
  destruct (previous_cached_spec bl wl b leader cache Hc) as [Ep Hp].
  destruct (Ordering.weighted_previous_final_leader_cached bl (config_of wl b) leader cache)
    as [p cache1]. cbn [fst snd] in Ep, Hp |- *. subst p.
  destruct (previous_of bl wl b leader) as [prev|] eqn:Eprev.
  - destruct (previous_of_points wl b leader prev Hl Eprev) as [Hprev Ht].
    apply (tc_rank bl [] (previous_of bl wl b) Hac (previous_of_points wl b)) in Ht.
    destruct (IH prev cache1) as (reached & st & c' & -> & Hc' & Hst & Hr); [done|lia|done|].
    cbn [mbind option_bind fst snd].
    destruct reached; [|by exists false, st, c'].
    destruct (xsort_subset bl Hac Hu Hno _ (approved_subset bl Hac Hu Hno leader Hl)) as (out & Eo & Hout).
    cbn [Ordering.sorted_approved_fragment fst snd]. rewrite Eo, (good_synced _ _ Hc').
    exists true, (foldl Ordering.emit st out), c'. split_and!; [done|done|by apply emits_output_ok|].
    intros _. cbn [plain Nat.add]. rewrite Eprev, Hr by done. cbn [mbind option_bind result_bind].
    by rewrite Eo.
  - by exists false, st0, cache1.
Qed.

Lemma suffix_is_full cache :
  cache_ok bl cache →
  ∃ r c', Ordering.weighted_tau_suffix_with_cache bl wl b 0 (ls_of b) previous_anchor
      (Ordering.ordered st0) cache = Some (Ok r, c') ∧ cache_ok bl c' ∧
    ∀ blocks leader, r = Some (blocks, leader) → weighted_result wl b (blocks, Some leader).
Proof.
  intros Hc%sync_good. unfold Ordering.weighted_tau_suffix_with_cache. cbn zeta.
  match goal with |- context [match ?o with Some _ => _ | None => Some (Ok None, _) end] =>
    destruct o as [leader|] eqn:Ea end; [|eexists None, _; split; [reflexivity|]; by split; [apply good_ok|]].
  assert (Finality.latest_weighted_final_leader bl wl b (ls_of b) = Some leader) as El.
  { destruct (last (Ordering.ordered st0)); [|done]. cbn [mbind option_bind] in Ea.
    case_decide; [|done]. destruct (Round.depth bl previous_anchor); [|done].
    cbn [mbind option_bind] in Ea. destruct (Wave.wave_of_round _ _); [|done].
    cbn [mbind option_bind] in Ea. destruct (Finality.weighted_final_leader_for_wave _ _ _ _ _); [|done].
    cbn [mbind option_bind] in Ea. by case_decide. }
  assert (leader ∈ Blocklace.dom bl) as Hl by (by eapply latest_weighted_final_leader_stored).
  rewrite (state_of_prefix st0 Hst0). fold (config_of wl b).
  destruct (suffix_plain (Ordering.tau_fuel bl) leader _ Hl (leader_rank_fuel bl leader) Hc)
    as (reached & st & c' & -> & Hc' & Hst & Hr).
  cbn [mbind option_bind fst snd result_bind]. eexists _, c'. split; [reflexivity|].
  split; [by apply good_ok|]. intros blocks leader'. destruct reached; [|done]. intros [= <- <-].
  unfold weighted_result. rewrite El. split; [done|].
  destruct (plain_total bl Hac Hu Hno (previous_of bl wl b) (previous_of_points wl b)
    (Ordering.tau_fuel bl) leader Ordering.empty_state) as (st' & E & Hst');
    [apply empty_output_ok|done|apply leader_rank_fuel|].
  exists st'. split_and!; [done..|]. apply (plain_fuel _ _ _ (Ordering.tau_fuel bl + n0)) in E; [|lia].
  rewrite Hr in E by done. injection E as ->. done.
Qed.
End suffix.
End orders.
