(* ===== verification/IngressFacts.v ===== *)
(** * Properties of the live ingress: runs

    What a blocklace of blocks that name only lower blocks keeps under
    insertion; what the mirror does with a block: it stores every block whose
    references are stored, and buffers the others; and the invariant of the
    ingress, by which what it remembers of a publication is right. *)

From S2P Require Import Prelude Types Lace LaceFacts Rounds RoundFacts Quorum QuorumFacts.
From S2P Require Import CordialityFacts Finality FinalityFacts Xsort Ordering OrderingFacts.
From S2P Require Import PorTypes PorState FinalOutput Durable Live LiveFacts.
From stdpp Require Import options.

#[local] Existing Instance AlreadyValidatedVerifier.

(** ** Blocklaces of descending references *)

(** A height of blocks that every reference of a block is below, as the
    creation order of blocks named by their hashes. *)
Class Heights := {
  height : BlockIdentity → nat;
  height_consensus i : height (consensus_identity i) = height i
}.
Definition descends `{Heights} (i : BlockIdentity) (c : BlockContent) : Prop :=
  ∀ p, p ∈ predecessors c → height p < height i.

Record lace_ok `{Heights} (bl : Blocklace.t) : Prop := {
  lo_unique : unique_variants bl;
  lo_descends : ∀ i c, Blocklace.blocks bl !! i = Some c → descends i c;
  lo_checkpoint : Blocklace.checkpoint bl = None;
  lo_boundary : ∀ i c p, Blocklace.blocks bl !! i = Some c → p ∈ predecessors c →
    Blocklace.resolve_identity bl p = None →
    ∃ X : gset BlockIdentity, Blocklace.trusted_boundary_predecessors bl !! i = Some X ∧ p ∈ X
}.

(** The blocklace after a commit of a fresh block. *)
Definition committed `{HashOrder} (bl : Blocklace.t) (b : Block) (bl' : Blocklace.t) : Prop :=
  identity b ∉ Blocklace.dom bl ∧
  Blocklace.commit_validated bl (identity b) (content b) = Ok bl'.

Section lace.
Context `{HO : HashOrder} `{Hh : Heights}.
Implicit Types (bl : Blocklace.t) (b : Block).

Lemma height_same i j : same_consensus_identity i j → height i = height j.
Proof.
  intros E%same_consensus_identity_alt. by rewrite <-height_consensus, E, height_consensus.
Qed.
Lemma lo_acyclic bl : lace_ok bl → acyclic bl.
Proof.
  intros [_ Hd _ _]. apply (acyclic_from_rank _ height).
  intros a x (c & p & Hc & Hp & (_ & Hs & _)%resolve_Some & _).
  rewrite (height_same x p) by done. by apply (Hd a c).
Qed.
Lemma lo_well_formed bl :
  lace_ok bl → Blocklace.has_trusted_boundaries bl = false → well_formed bl.
Proof.
  intros Hok Hb. split; [|apply Hok|by apply lo_acyclic]. intros a c p Hc _ Hp.
  destruct (Blocklace.resolve_identity bl p) eqn:E; [done|].
  destruct (lo_boundary _ Hok a c p Hc Hp E) as (X & HX & _).
  unfold Blocklace.has_trusted_boundaries in Hb. apply bool_decide_eq_false in Hb.
  apply dec_stable in Hb. by rewrite Hb in HX.
Qed.
Lemma new_lace_ok address : lace_ok (Blocklace.new address).
Proof.
  split; [|done|done|done]. intros a x [c Hc]%elem_of_lace_dom. done.
Qed.

Lemma commit_fresh bl b :
  (∀ k, k ∈ Blocklace.dom bl → ¬ same_consensus_identity k (identity b)) →
  ∃ bl', committed bl b bl'.
Proof.
  intros Hf. unfold committed, Blocklace.commit_validated.
  assert (Blocklace.conflicting_identity_variant bl (identity b) = None) as ->
    by (apply conflicting_None; by right).
  eexists. split; [|reflexivity]. intros Hd. by apply (Hf _ Hd).
Qed.

Section committed.
Variables (bl bl' : Blocklace.t) (b : Block).
Hypothesis Hc : committed bl b bl'.
#[local] Set Default Proof Using "Type HO Hc".

Lemma committed_lookup i c :
  Blocklace.blocks bl' !! i = Some c ↔
  (i = identity b ∧ c = content b) ∨ Blocklace.blocks bl !! i = Some c.
Proof.
  destruct Hc as [Hf (Hb & _)%commit_Ok]. rewrite Hb, lookup_insert_Some, elem_of_lace_dom in *.
  split; [naive_solver|]. intros [[-> ->]|Hi]; [by left|right]. split; [|done]. intros <-. eauto.
Qed.
Lemma committed_dom i : i ∈ Blocklace.dom bl' ↔ i = identity b ∨ i ∈ Blocklace.dom bl.
Proof.
  rewrite !elem_of_lace_dom. unfold is_Some. setoid_rewrite committed_lookup. naive_solver.
Qed.
Lemma committed_size : size (Blocklace.dom bl') = S (size (Blocklace.dom bl)).
Proof.
  destruct Hc as [Hf (Hb & _)%commit_Ok]. unfold Blocklace.dom. rewrite !size_dom, Hb.
  apply map_size_insert_None. apply eq_None_not_Some. by rewrite <-elem_of_lace_dom.
Qed.
Lemma committed_no_checkpoint : Blocklace.checkpoint bl = None → Blocklace.checkpoint bl' = None.
Proof. destruct Hc as [_ (_ & -> & _)%commit_Ok]. done. Qed.
Lemma committed_identity : Blocklace.cache_identity bl' = Blocklace.cache_identity bl.
Proof. destruct Hc as [_ (_ & _ & _ & _ & -> & _)%commit_Ok]. done. Qed.
Lemma committed_resolve p r :
  unique_variants bl → Blocklace.resolve_identity bl p = Some r →
  Blocklace.resolve_identity bl' p = Some r.
Proof.
  intros Hu Hr. destruct Hc as [_ Hcm].
  pose proof (commit_resolve bl _ _ bl' p Hu Hcm) as H. by rewrite Hr in H.
Qed.
Lemma committed_boundary i (X : gset BlockIdentity) p :
  i ≠ identity b → Blocklace.trusted_boundary_predecessors bl !! i = Some X → p ∈ X →
  Blocklace.resolve_identity bl' p = None →
  ∃ X', Blocklace.trusted_boundary_predecessors bl' !! i = Some X' ∧ p ∈ X'.
Proof.
  intros Hne HX Hp Hr. destruct Hc as [_ Hcm]. unfold Blocklace.commit_validated in Hcm.
  destruct (Blocklace.conflicting_identity_variant bl (identity b)); [done|].
  injection Hcm as <-. cbn [Blocklace.trusted_boundary_predecessors].
  unfold Blocklace.resolve_identity in Hr. cbn [Blocklace.blocks] in Hr.
  match goal with |- context [filter ?P (?f <$> _)] =>
    exists (filter (λ pred_id, Blocklace.resolve_identity_in
      (<[identity b:=content b]> (Blocklace.blocks bl)) pred_id = None) X) end.
  rewrite map_lookup_filter_Some, lookup_fmap, lookup_delete_ne, HX by done.
  assert (p ∈ filter (λ pred_id, Blocklace.resolve_identity_in
    (<[identity b:=content b]> (Blocklace.blocks bl)) pred_id = None) X) as Hin
    by by apply elem_of_filter.
  split_and!; [done| |done]. cbn [snd]. intros E. rewrite E in Hin. by apply elem_of_empty in Hin.
Qed.

(** The invariant, when the references of the block are stored. *)
Lemma committed_ok :
  lace_ok bl → descends (identity b) (content b) →
  (∀ p, p ∈ predecessors (content b) → is_Some (Blocklace.resolve_identity bl p)) →
  lace_ok bl'.
Proof.
  intros Hok Hd Hp. destruct Hok as [Hu Hds Hno Hbd]. split.
  - destruct Hc as [_ Hcm]. by eapply commit_unique.
  - intros i c [[-> ->]|Hi]%committed_lookup; [done|by apply Hds].
  - by apply committed_no_checkpoint.
  - intros i c p Hi Hpi Hr. apply committed_lookup in Hi as [[-> ->]|Hi].
    { destruct (Hp p Hpi) as [r Hr0]. apply committed_resolve in Hr0; [congruence|done]. }
    destruct (Blocklace.resolve_identity bl p) as [r|] eqn:Er.
    { apply committed_resolve in Er; [congruence|done]. }
    destruct (Hbd i c p Hi Hpi Er) as (X & HX & HpX).
    eapply committed_boundary; [|done..]. intros ->. destruct Hc as [Hf _].
    apply Hf, elem_of_lace_dom. eauto.
Qed.
End committed.

(** Deep insertions are growth. *)
Lemma grown_refl z bl :
  well_formed bl → Blocklace.checkpoint bl = None → grown z bl bl.
Proof. intros Hwf Hno. split; try done. intros i d Hd%is_depth_dom. done. Qed.
Lemma grown_trans z bl1 bl2 bl3 : grown z bl1 bl2 → grown z bl2 bl3 → grown z bl1 bl3.
Proof using HO.
  intros H1 H2. split; [apply H1|apply H2|apply H1|apply H2|etrans; [apply H1|apply H2]|].
  intros i d Hd Hi. destruct (decide (i ∈ Blocklace.dom bl2)) as [Hi2|Hi2].
  - apply (grown_deep _ _ _ H1 i); [|done]. by apply (grown_depth z bl2 bl3 H2).
  - by apply (grown_deep _ _ _ H2 i).
Qed.
Lemma grown_committed z bl b bl' d :
  committed bl b bl' → well_formed bl → well_formed bl' → Blocklace.checkpoint bl = None →
  Round.depth bl' (identity b) = Some d → (z < d)%N → grown z bl bl'.
Proof using HO.
  intros Hc Hwf Hwf' Hno Hd Hz.
  assert (identity b ∈ Blocklace.dom bl') as Hb by (apply (committed_dom bl bl' b Hc); by left).
  split; [done|done|done|by eapply committed_no_checkpoint| |].
  - apply map_subseteq_spec. intros i c Hi. apply (committed_lookup bl bl' b Hc). by right.
  - intros i d' Hd' Hi. assert (i = identity b) as ->.
    { apply is_depth_dom in Hd' as Hid. apply (committed_dom bl bl' b Hc) in Hid. tauto. }
    apply depth_spec in Hd as (j & Hj & Hd); [|by apply wf_acyclic].
    rewrite resolve_stored in Hj by done. injection Hj as <-.
    by rewrite (is_depth_det _ _ _ _ Hd' Hd).
Qed.
End lace.

(** ** The mirror *)

Module Mirror := LiveBlocklaceMirror.

Record mirror_ok `{Heights} (m : Mirror.t) : Prop := {
  mo_lace : lace_ok (Mirror.blocklace m);
  mo_pending : ∀ i b, Mirror.pending m !! i = Some b →
    identity b = i ∧ descends i (content b) ∧
    ∀ k, k ∈ Blocklace.dom (Mirror.blocklace m) → ¬ same_consensus_identity k i;
  mo_distinct : ∀ i j, is_Some (Mirror.pending m !! i) → is_Some (Mirror.pending m !! j) →
    same_consensus_identity i j → i = j
}.

(** One pending block whose references are stored moves to the blocklace. *)
Definition moves `{HashOrder} (m m' : Mirror.t) : Prop :=
  ∃ b, Mirror.pending m !! identity b = Some b ∧
    (∀ p, p ∈ predecessors (content b) →
      is_Some (Blocklace.resolve_identity (Mirror.blocklace m) p)) ∧
    committed (Mirror.blocklace m) b (Mirror.blocklace m') ∧
    Mirror.pending m' = delete (identity b) (Mirror.pending m).

Definition known (m : Mirror.t) (i : BlockIdentity) : Prop :=
  i ∈ Blocklace.dom (Mirror.blocklace m) ∨ is_Some (Mirror.pending m !! i).
(** No block with the hash and creator of [i], under whatever signature. *)
Definition unknown (m : Mirror.t) (i : BlockIdentity) : Prop :=
  ∀ k, known m k → ¬ same_consensus_identity k i.

(** The outcomes of ingesting a block. *)
Inductive ingests `{HashOrder} (m : Mirror.t) (b : Block) :
    result MirrorUpdate Mirror.MirrorError → Mirror.t → Prop :=
  | ingests_known :
      is_Some (Blocklace.get (Mirror.blocklace m) (identity b)) ∨
        is_Some (Mirror.pending m !! identity b) →
      ingests m b (Ok (mkUpdate Duplicate 0)) m
  | ingests_conflict k :
      ¬ known m (identity b) → known m k → same_consensus_identity k (identity b) →
      ingests m b (Err (Mirror.IdentityConflict k)) m
  | ingests_buffered :
      unknown m (identity b) → Mirror.predecessors_available m b = false →
      ingests m b (Ok (mkUpdate Buffered 0))
        (Mirror.mk (Mirror.blocklace m) (<[identity b := b]> (Mirror.pending m)))
  | ingests_applied bl released m' :
      unknown m (identity b) → Mirror.predecessors_available m b = true →
      committed (Mirror.blocklace m) b bl → rtc moves (Mirror.mk bl (Mirror.pending m)) m' →
      Mirror.ready_ids m' = [] →
      ingests m b (Ok (mkUpdate Applied released)) m'.

Section mirror.
Context `{HO : HashOrder} `{Hh : Heights}.
Implicit Types (m : Mirror.t) (b : Block).

Lemma available_spec m b :
  Mirror.predecessors_available m b = true ↔
  ∀ p, p ∈ predecessors (content b) → is_Some (Blocklace.resolve_identity (Mirror.blocklace m) p).
Proof.
  unfold Mirror.predecessors_available. rewrite forallb_true.
  setoid_rewrite bool_decide_eq_true. setoid_rewrite content_is_Some.
  split; intros H p; [rewrite <-elem_of_hash_iter|rewrite elem_of_hash_iter]; apply H.
Qed.
Lemma insert_committed bl b :
  (∀ p, p ∈ predecessors (content b) → is_Some (Blocklace.resolve_identity bl p)) →
  (∀ k, k ∈ Blocklace.dom bl → ¬ same_consensus_identity k (identity b)) →
  ∃ bl', Blocklace.insert bl b = Ok bl' ∧ committed bl b bl'.
Proof.
  intros Hp Hf. destruct (commit_fresh bl b Hf) as [bl' Hc]. exists bl'. split; [|done].
  apply insert_Ok. split_and!; [done|done|apply Hc].
Qed.
Lemma moves_ok m m' : mirror_ok m → moves m m' → mirror_ok m'.
Proof.
  intros Hm (b & Hb & Hp & Hc & Hpd). destruct (mo_pending _ Hm _ _ Hb) as (_ & Hd & Hf). split.
  - eapply committed_ok; [done|apply Hm|done|done].
  - intros i b'. rewrite Hpd, lookup_delete_Some. intros [Hne Hb'].
    destruct (mo_pending _ Hm _ _ Hb') as (Hi & Hd' & Hf'). split_and!; [done|done|].
    intros k [->|Hk]%(committed_dom _ _ _ Hc); [|by apply Hf'].
    intros Hs. apply Hne. by apply (mo_distinct _ Hm).
  - intros i j. rewrite Hpd. unfold is_Some. setoid_rewrite lookup_delete_Some.
    intros [b1 [_ H1]] [b2 [_ H2]]. by apply (mo_distinct _ Hm).
Qed.
Lemma moves_rtc_ok m m' : mirror_ok m → rtc moves m m' → mirror_ok m'.
Proof. intros Hm H. induction H; [done|]. eauto using moves_ok. Qed.
Lemma moves_resolve m m' p :
  mirror_ok m → moves m m' → is_Some (Blocklace.resolve_identity (Mirror.blocklace m) p) →
  is_Some (Blocklace.resolve_identity (Mirror.blocklace m') p).
Proof.
  intros Hm (b & _ & _ & Hc & _) [r Hr]. exists r. eapply committed_resolve; [done|apply Hm|done].
Qed.

(** The blocks found ready are moved one after the other. *)
Lemma release_ready_spec ids m n :
  mirror_ok m → NoDup ids →
  (∀ i, i ∈ ids → ∃ b, Mirror.pending m !! i = Some b ∧ Mirror.predecessors_available m b = true) →
  ∃ m', Mirror.release_ready ids m n = Some (Ok (length ids + n), m') ∧ rtc moves m m' ∧
    size (Mirror.pending m') + length ids = size (Mirror.pending m).
Proof.
  revert m n. induction ids as [|i ids IH]; intros m n Hm Hnd Hids.
  { exists m. split_and!; [done..|simpl; lia]. }
  apply NoDup_cons in Hnd as [Hi Hnd].
  destruct (Hids i ltac:(by left)) as (b & Hb & Hav).
  destruct (mo_pending _ Hm _ _ Hb) as (<- & Hd & Hf). pose proof Hav as Hp. rewrite available_spec in Hp.
  destruct (insert_committed _ b Hp Hf) as (bl' & Hins & Hc).
  cbn [Mirror.release_ready]. rewrite Hb. cbn [mbind option_bind]. rewrite Hins.
  set (m1 := Mirror.mk bl' (delete (identity b) (Mirror.pending m))).
  assert (moves m m1) as Hmv by (by exists b).
  destruct (IH m1 (S n)) as (m' & E & Hr & Hs); [by eapply moves_ok|done| |].
  - intros j Hj. destruct (Hids j ltac:(by right)) as (b' & Hb' & Hav'). exists b'.
    cbn [m1 Mirror.pending]. rewrite lookup_delete_ne by (by intros <-). split; [done|].
    apply available_spec. intros p Hpp. eapply moves_resolve; [done..|].
    by apply (proj1 (available_spec m b') Hav').
  - exists m'. cbn [Mirror.pending]. fold m1. rewrite E.
    split_and!; [cbn [length]; do 3 f_equal; lia|by eapply rtc_l|].
    cbn [m1 Mirror.pending length] in Hs |- *. rewrite map_size_delete_Some in Hs by eauto.
    assert (size (Mirror.pending m) ≠ 0); [|lia]. intros Hz%map_size_empty_inv. by rewrite Hz in Hb.
Qed.
Lemma elem_of_ready m i :
  i ∈ Mirror.ready_ids m ↔
  ∃ b, Mirror.pending m !! i = Some b ∧ Mirror.predecessors_available m b = true.
Proof.
  unfold Mirror.ready_ids. rewrite list_elem_of_fmap. setoid_rewrite list_elem_of_filter. split.
  - intros ([j b] & -> & Ha & Hin). exists b. by apply elem_of_map_iter in Hin.
  - intros (b & Hb & Ha). exists (i, b). split_and!; [done..|]. by apply elem_of_map_iter.
Qed.
Lemma NoDup_ready m : NoDup (Mirror.ready_ids m).
Proof.
  unfold Mirror.ready_ids. eapply sublist_NoDup; [apply (NoDup_map_iter (Mirror.pending m))|].
  apply fmap_sublist, sublist_filter.
Qed.

(** Releasing ends when no pending block is ready. *)
Lemma release_loop_spec fuel m n :
  mirror_ok m → size (Mirror.pending m) < fuel →
  ∃ k m', Mirror.release_loop fuel m n = Some (Ok (k + n), m') ∧ rtc moves m m' ∧
    size (Mirror.pending m') + k = size (Mirror.pending m) ∧ Mirror.ready_ids m' = [].
Proof.
  revert m n. induction fuel as [|fuel IH]; intros m n Hm Hf; [lia|]. cbn [Mirror.release_loop].
  destruct (Mirror.ready_ids m) as [|i ids] eqn:E.
  { exists 0, m. split_and!; [done..|lia|done]. }
  rewrite <-E. destruct (release_ready_spec (Mirror.ready_ids m) m n) as (m1 & E1 & Hr1 & Hs1);
    [done|apply NoDup_ready|intros; by apply elem_of_ready|].
  rewrite E1. cbn [mbind option_bind fst snd]. rewrite E in Hs1. cbn [length] in Hs1.
  destruct (IH m1 (length (Mirror.ready_ids m) + n)) as (k & m' & -> & Hr & Hs & Hready);
    [by eapply moves_rtc_ok|lia|].
  exists (k + length (Mirror.ready_ids m)), m'. rewrite E. cbn [length].
  split_and!; [do 3 f_equal; lia|by etrans|lia|done].
Qed.
Lemma applied_spec m :
  mirror_ok m →
  ∃ k m', Mirror.applied m = Some (Ok (mkUpdate Applied k), m') ∧ rtc moves m m' ∧
    size (Mirror.pending m') + k = size (Mirror.pending m) ∧ Mirror.ready_ids m' = [].
Proof.
  intros Hm. unfold Mirror.applied, Mirror.release_pending.
  destruct (release_loop_spec (S (size (Mirror.pending m))) m 0 Hm) as (k & m' & -> & Hr & Hs & Hn); [lia|].
  exists k, m'. split_and!; [|done..]. cbn [mbind option_bind fst snd result_bind]. by rewrite Nat.add_0_r.
Qed.


(** *** Ingesting *)

Lemma known_or_conflict m b :
  match Mirror.duplicate_or_identity_conflict m (identity b) with
  | Ok true => is_Some (Blocklace.get (Mirror.blocklace m) (identity b)) ∨
               is_Some (Mirror.pending m !! identity b)
  | Ok false => unknown m (identity b)
  | Err e => ∃ k, e = Mirror.IdentityConflict k ∧ ¬ known m (identity b) ∧ known m k ∧
               same_consensus_identity k (identity b)
  end.
Proof.
  unfold Mirror.duplicate_or_identity_conflict. case_decide as Hk; [done|].
  assert (¬ known m (identity b)) as Hn.
  { intros [[c Hc]%elem_of_lace_dom|Hp]; apply Hk; [left|by right].
    by rewrite (get_stored _ _ _ Hc). }
  destruct (Blocklace.conflicting_identity_variant _ _) as [k|] eqn:Ec.
  { apply conflicting_Some in Ec as (_ & Hk1 & Hs). exists k. split_and!; [done..|by left|done]. }
  apply conflicting_None in Ec as [Hd|Hf]; [exfalso; apply Hn; by left|].
  unfold Mirror.pending_variant.
  destruct (list_find _ (map_iter (Mirror.pending m)).*1) as [[n k]|] eqn:Ef; cbn [fmap option_fmap option_map snd].
  - apply list_find_Some in Ef as (Hin & Hs & _). apply list_elem_of_lookup_2 in Hin.
    exists k. split_and!; [done..| |done]. right.
    apply list_elem_of_fmap in Hin as ([j b'] & -> & Hin). apply elem_of_map_iter in Hin. by eexists.
  - apply list_find_None in Ef. rewrite Forall_forall in Ef.
    intros k [Hd|[b' Hb']]; [by apply Hf|]. apply Ef. apply list_elem_of_fmap. exists (k, b').
    split; [done|by apply elem_of_map_iter].
Qed.
Lemma unknown_insert_ok m b bl :
  mirror_ok m → unknown m (identity b) → lace_ok bl → committed (Mirror.blocklace m) b bl →
  mirror_ok (Mirror.mk bl (Mirror.pending m)).
Proof.
  intros Hm Hun Hbl Hc. split; [done| |apply Hm]. cbn [Mirror.pending Mirror.blocklace].
  intros i b' Hb'. destruct (mo_pending _ Hm _ _ Hb') as (Hi & Hd & Hf). split_and!; [done..|].
  intros k [->|Hk]%(committed_dom _ _ _ Hc); [|by apply Hf]. intros Hs.
  apply (Hun i); [right; eauto|by symmetry].
Qed.
Lemma ingest_spec m b :
  mirror_ok m → descends (identity b) (content b) →
  ∃ r m', Mirror.ingest m b = Some (r, m') ∧ ingests m b r m' ∧ mirror_ok m'.
Proof.
  intros Hm Hd. pose proof (known_or_conflict m b) as Hk. unfold Mirror.ingest.
  destruct (Mirror.duplicate_or_identity_conflict m (identity b)) as [[|]|e].
  - eexists _, m. split; [reflexivity|]. by split; [constructor|].
  - destruct (Mirror.predecessors_available m b) eqn:Ea.
    + pose proof Ea as Hp. rewrite available_spec in Hp.
      destruct (insert_committed (Mirror.blocklace m) b Hp) as (bl & -> & Hc).
      { intros k Hkd. apply Hk. by left. }
      assert (mirror_ok (Mirror.mk bl (Mirror.pending m))) as Hm1.
      { eapply unknown_insert_ok; [done..| |done]. eapply committed_ok; [done|apply Hm|done..]. }
      destruct (applied_spec _ Hm1) as (n & m' & -> & Hr & _ & Hready).
      eexists _, m'. split; [reflexivity|]. split; [by eapply ingests_applied|by eapply moves_rtc_ok].
    + eexists _, _. split; [reflexivity|]. split; [by constructor|]. split; [apply Hm| |];
        cbn [Mirror.pending Mirror.blocklace].
      * intros i b'. rewrite lookup_insert_Some. intros [[<- <-]|[_ Hb']]; [|by apply Hm].
        split_and!; [done..|]. intros k Hkd. apply Hk. by left.
      * intros i j Hi Hj Hs. destruct (decide (i = j)) as [|Hne]; [done|exfalso].
        unfold is_Some in Hi, Hj. setoid_rewrite lookup_insert_Some in Hi.
        setoid_rewrite lookup_insert_Some in Hj.
        destruct Hi as [bi [[<- _]|[Hni Hi]]], Hj as [bj [[<- _]|[Hnj Hj]]]; [done| | |].
        -- apply (Hk j); [right; eauto|by symmetry].
        -- apply (Hk i); [right; eauto|done].
        -- apply Hne, (mo_distinct _ Hm); eauto.
  - destruct Hk as (k & -> & Hn & Hk & Hs). eexists _, m. split; [reflexivity|].
    by split; [econstructor|].
Qed.

(** *** Ingesting with missing references *)

Lemma resolve_same_dom bl bl' p :
  Blocklace.dom bl = Blocklace.dom bl' → Blocklace.resolve_identity bl' p = None →
  Blocklace.resolve_identity bl p = None.
Proof. intros Hd <-. by apply resolve_dom_eq. Qed.
Lemma boundary_committed_ok bl b bl1 bl' :
  lace_ok bl → descends (identity b) (content b) → committed bl b bl1 →
  Blocklace.dom bl1 = Blocklace.dom bl' → Blocklace.blocks bl1 = Blocklace.blocks bl' →
  Blocklace.checkpoint bl' = None →
  (∀ p, p ∈ predecessors (content b) → Blocklace.resolve_identity bl p = None →
    ∃ X : gset BlockIdentity, Blocklace.trusted_boundary_predecessors bl' !! identity b = Some X ∧ p ∈ X) →
  (∀ i, i ≠ identity b → Blocklace.trusted_boundary_predecessors bl' !! i =
    Blocklace.trusted_boundary_predecessors bl1 !! i) →
  lace_ok bl'.
Proof.
  intros [Hu Hds Hno Hbd] Hd Hc Hdom Hblocks Hno' Hmissing Hother.
  assert (∀ p, Blocklace.resolve_identity bl' p = None → Blocklace.resolve_identity bl p = None) as Hres.
  { intros p Hp%(resolve_same_dom _ _ _ Hdom). destruct (Blocklace.resolve_identity bl p) eqn:E; [|done].
    apply (committed_resolve bl bl1 b Hc) in E; [congruence|done]. }
  split.
  - intros i j. rewrite <-Hdom. destruct Hc as [_ Hcm]. by eapply commit_unique.
  - intros i c. rewrite <-Hblocks. intros [[-> ->]|Hi]%(committed_lookup _ _ _ Hc); [done|by apply Hds].
  - done.
  - intros i c p. rewrite <-Hblocks. intros Hi Hpi Hr.
    apply (committed_lookup _ _ _ Hc) in Hi as [[-> ->]|Hi]; [by apply Hmissing; [|apply Hres]|].
    assert (i ≠ identity b) as Hne.
    { intros ->. destruct Hc as [Hf _]. apply Hf, elem_of_lace_dom. eauto. }
    destruct (Hbd i c p Hi Hpi (Hres _ Hr)) as (X & HX & HpX). rewrite Hother by done.
    eapply committed_boundary; [done|done|done|done|]. rewrite (resolve_dom_eq bl1 bl') by done. done.
Qed.
Lemma insert_boundary_spec m b :
  lace_ok (Mirror.blocklace m) → unknown m (identity b) → descends (identity b) (content b) →
  ∃ missing bl', Blocklace.insert_with_trusted_boundary (Mirror.blocklace m) b = Ok (missing, bl') ∧
    lace_ok bl' ∧ (∀ i, i ∈ Blocklace.dom bl' ↔ i = identity b ∨ i ∈ Blocklace.dom (Mirror.blocklace m)) ∧
    size (Blocklace.dom bl') = S (size (Blocklace.dom (Mirror.blocklace m))).
Proof.
  intros Hl Hun Hd. set (bl := Mirror.blocklace m) in *.
  destruct (commit_fresh bl b) as [bl1 Hc]; [intros k Hk; apply Hun; by left|].
  assert (Blocklace.checkpoint bl1 = None) as Hno1 by (eapply committed_no_checkpoint; [done|apply Hl]).
  pose proof (committed_dom _ _ _ Hc) as Hdom. pose proof (committed_size _ _ _ Hc) as Hsz.
  unfold Blocklace.insert_with_trusted_boundary. cbn [verify_block AlreadyValidatedVerifier map_err result_bind].
  rewrite (proj2 Hc). cbn [map_err result_bind].
  assert (∀ p, p ∈ predecessors (content b) → Blocklace.resolve_identity bl p = None →
    p ∈ (list_to_set (Blocklace.missing_predecessors bl b) : gset BlockIdentity)) as Hmiss.
  { intros p Hp Hr. rewrite elem_of_list_to_set. unfold Blocklace.missing_predecessors.
    rewrite list_elem_of_filter, elem_of_hash_iter. done. }
  case_decide as Hempty.
  - eexists _, bl1. split; [reflexivity|].
    split; [|split; [exact Hdom|exact Hsz]].
    apply (boundary_committed_ok bl b bl1 bl1); [done..| |done].
    intros p Hp Hr. pose proof (Hmiss p Hp Hr) as Hin. rewrite Hempty in Hin. by apply elem_of_empty in Hin.
  - eexists _, _. split; [reflexivity|].
    split; [|split; [exact Hdom|exact Hsz]].
    eapply (boundary_committed_ok bl b bl1); [done..| |]; cbn [Blocklace.trusted_boundary_predecessors].
    + intros p Hp Hr. eexists. split; [apply lookup_insert_eq|by apply Hmiss].
    + intros i Hne. by rewrite lookup_insert_ne by done.
Qed.
Lemma moves_size m m' :
  rtc moves m m' → size (Blocklace.dom (Mirror.blocklace m)) ≤ size (Blocklace.dom (Mirror.blocklace m')).
Proof.
  induction 1 as [|m m1 m' (b & _ & _ & Hc & _) _ IH]; [done|].
  rewrite (committed_size _ _ _ Hc) in IH. lia.
Qed.
Lemma moves_none m m' :
  rtc moves m m' → size (Blocklace.dom (Mirror.blocklace m)) = size (Blocklace.dom (Mirror.blocklace m')) →
  m' = m.
Proof.
  intros [->|(m1 & (b & _ & _ & Hc & _) & Hr)]%rtc_inv; [done|]. intros Hs.
  apply moves_size in Hr. rewrite (committed_size _ _ _ Hc) in Hr. lia.
Qed.
Lemma ingest_window_spec m b :
  mirror_ok m → descends (identity b) (content b) →
  ∃ r m', Mirror.ingest_with_trusted_boundary m b = Some (r, m') ∧ mirror_ok m' ∧
    (m' = m ∨ size (Blocklace.dom (Mirror.blocklace m)) < size (Blocklace.dom (Mirror.blocklace m'))) ∧
    (∀ u, r = Ok u → disposition u = Duplicate → m' = m) ∧
    (∀ e, r = Err e → m' = m).
Proof.
  intros Hm Hd. pose proof (known_or_conflict m b) as Hk. unfold Mirror.ingest_with_trusted_boundary.
  destruct (Mirror.duplicate_or_identity_conflict m (identity b)) as [[|]|e].
  - eexists _, m. split; [reflexivity|]. split_and!; [done|by left|done..].
  - destruct (insert_boundary_spec m b (mo_lace _ Hm) Hk Hd) as (missing & bl & -> & Hbl & Hdom & Hsz).
    assert (mirror_ok (Mirror.mk bl (Mirror.pending m))) as Hm1.
    { split; [done| |apply Hm]. cbn [Mirror.pending Mirror.blocklace].
      intros i b' Hb'. destruct (mo_pending _ Hm _ _ Hb') as (Hi & Hd' & Hf). split_and!; [done..|].
      intros k [->|Hkd]%Hdom; [|by apply Hf]. intros Hs.
      apply (Hk i); [right; eauto|by symmetry]. }
    destruct (applied_spec _ Hm1) as (n & m' & -> & Hr & _ & _).
    eexists _, m'. split; [reflexivity|]. split_and!; [by eapply moves_rtc_ok| |by intros u [= <-]|done].
    right. apply moves_size in Hr. cbn [Mirror.blocklace] in Hr. lia.
  - eexists _, m. split; [reflexivity|]. split_and!; [done|by left|done..].
Qed.
End mirror.

(** ** The ingress *)

Module Ingress := LiveIngress.

(** [bl0] is [bl] or an earlier, smaller blocklace. *)
Definition earlier (bl0 bl : Blocklace.t) : Prop :=
  bl0 = bl ∨ size (Blocklace.dom bl0) < size (Blocklace.dom bl).

Lemma earlier_trans bl0 bl1 bl2 : earlier bl0 bl1 → earlier bl1 bl2 → earlier bl0 bl2.
Proof. intros [->|H1] [<-|H2]; [by left|by right|by right|right; lia]. Qed.
Lemma earlier_same bl0 bl :
  earlier bl0 bl → size (Blocklace.dom bl0) = size (Blocklace.dom bl) → bl0 = bl.
Proof. intros [?|?] ?; [done|lia]. Qed.

Section ingress.
Context `{HO : HashOrder} `{Blake2b} `{BA : BlocklaceAdapter} `{Hh : Heights}.
Implicit Types (self : Ingress.t) (bl : Blocklace.t).

(** [out] was computed from [bl0] and the weights [b0] and published with the
    fingerprint [fp]. *)
Definition publication bl0 (b0 : gmap NodeId N) (fp : Ingress.FinalizedOutputFingerprint)
    (out : OrderedFinalizedOutput.t) : Prop :=
  ∃ r now, lace_ok bl0 ∧
    fp = Ingress.mkFingerprint (Blocklace.generation bl0) (size (Blocklace.dom bl0))
           (Ingress.fp_wavelength fp) (WeightSnapshot.from_bonds b0) ∧
    full_order bl0 b0 (Ingress.fp_wavelength fp) = Some (Ok r) ∧
    out = OrderedFinalizedOutput.new now r.1 r.2 (Ingress.fp_wavelength fp) (size b0)
            (size (Blocklace.dom bl0)).

(** The wave of the anchor, and the growth since. *)
Definition reuse_ok bl0 bl (out : OrderedFinalizedOutput.t) (reuse : Ingress.FinalizedPrefixReuse) :
    Prop :=
  let wl := Ingress.fp_wavelength (Ingress.fingerprint reuse) in
  OrderedFinalizedOutput.anchor out = Some (Ingress.reuse_anchor reuse) ∧
  (∃ d w, Round.depth bl0 (Ingress.reuse_anchor reuse) = Some d ∧ Wave.wave_of_round d wl = Some w ∧
    Wave.last_round_of_wave w wl = Some (Ingress.anchor_wave_end reuse)) ∧
  (Ingress.safe_append reuse = true → ∃ bl1,
    grown (Ingress.anchor_wave_end reuse) bl0 bl1 ∧ lace_ok bl1 ∧ earlier bl1 bl ∧
    Ingress.observed_mirrored_blocks reuse = size (Blocklace.dom bl1)).

Definition published_ok self : Prop :=
  match Ingress.last_finalized_output_fingerprint self with
  | None => Ingress.finalized_prefix_reuse self = None ∧ Ingress.latest self = None
  | Some fp => ∃ bl0 b0 out, Ingress.latest self = Some out ∧ publication bl0 b0 fp out ∧
      earlier bl0 (Ingress.blocklace self) ∧
      ∀ reuse, Ingress.finalized_prefix_reuse self = Some reuse →
        Ingress.fingerprint reuse = fp ∧ reuse_ok bl0 (Ingress.blocklace self) out reuse
  end.
Record ingress_ok self : Prop := {
  io_mirror : mirror_ok (Ingress.mirror self);
  io_cache : cache_ok (Ingress.blocklace self) (Ingress.ordering_cache self);
  io_published : Ingress.future_epoch self = None → published_ok self
}.

Lemma io_lace self : ingress_ok self → lace_ok (Ingress.blocklace self).
Proof. intros H0. apply H0. Qed.

(** *** Extending a publication *)

Lemma consensus_list (l : list BlockIdentity) :
  (∀ x, x ∈ l → consensus_identity x = x) → map consensus_identity l = l.
Proof. intros Hl. rewrite <-map_id. by apply map_ext_Forall, Forall_forall. Qed.

Lemma sole_validator_many bl leaders :
  2 ≤ length leaders → Snapshots.sole_validator bl leaders = None.
Proof. destruct leaders as [|? [|]]; simpl; [lia|lia|done]. Qed.

(** What was published with several validators. *)
Lemma publication_anchor bl0 b0 fp out a :
  publication bl0 b0 fp out → 2 ≤ length (Snapshots.ordered_validators b0) →
  OrderedFinalizedOutput.anchor out = Some a →
  ∃ leader st, leader ∈ Blocklace.dom bl0 ∧ a = consensus_identity leader ∧ output_ok st ∧
    OrderedFinalizedOutput.blocks out = Ordering.ordered st ∧
    plain bl0 (previous_of bl0 (Ingress.fp_wavelength fp) b0) (Ordering.tau_fuel bl0) leader
      Ordering.empty_state = Some (Ok st).
Proof.
  intros (r & now & Hok & _ & Hf & ->) Hlen Ha. cbn [OrderedFinalizedOutput.anchor OrderedFinalizedOutput.new] in Ha.
  destruct (try_ordered_spec bl0 (lo_acyclic _ Hok) (lo_unique _ Hok) (lo_checkpoint _ Hok)
    (Ingress.fp_wavelength fp) b0 _ (default_cache_ok bl0)) as (r' & _ & _ & _ & Hcons & Hf' & Hw).
  rewrite Hf in Hf'. injection Hf' as <-.
  assert (Snapshots.ordered_validators b0 ≠ []) as Hne by (intros E; rewrite E in Hlen; simpl in Hlen; lia).
  specialize (Hw Hne (sole_validator_many _ _ Hlen)). unfold weighted_result in Hw.
  destruct (Finality.latest_weighted_final_leader _ _ _ _) as [leader|]; [|by rewrite Hw in Ha].
  destruct Hw as (Hl & st & Hst & Hp & ->). cbn [fst snd] in *. injection Ha as <-.
  exists leader, st. split_and!; try done. cbn [OrderedFinalizedOutput.blocks OrderedFinalizedOutput.new].
  by apply consensus_list.
Qed.

Lemma depth_resolved bl i d :
  acyclic bl → unique_variants bl → i ∈ Blocklace.dom bl →
  Round.depth bl (consensus_identity i) = Some d → is_depth bl i d.
Proof.
  intros Hac Hu Hi (j & Hj & Hd)%depth_spec; [|done].
  apply resolve_Some in Hj as (Hj & Hs & _). assert (j = i) as <-; [|done].
  apply Hu; [done..|]. by rewrite Hs.
Qed.

(** The verified prefix is extended to the full computation. *)
Lemma verified_prefix_is_full bl0 bl b fp out reuse cache :
  publication bl0 b fp out → Ingress.fingerprint reuse = fp →
  OrderedFinalizedOutput.anchor out = Some (Ingress.reuse_anchor reuse) →
  (∃ d w, Round.depth bl0 (Ingress.reuse_anchor reuse) = Some d ∧
    Wave.wave_of_round d (Ingress.fp_wavelength fp) = Some w ∧
    Wave.last_round_of_wave w (Ingress.fp_wavelength fp) = Some (Ingress.anchor_wave_end reuse)) →
  grown (Ingress.anchor_wave_end reuse) bl0 bl → lace_ok bl → cache_ok bl cache →
  ∃ r c', Snapshots.ordered_block_identities_with_verified_prefix bl b (Ingress.fp_wavelength fp) cache
      (OrderedFinalizedOutput.blocks out) (Ingress.reuse_anchor reuse) = Some (Ok r, c') ∧
    cache_ok bl c' ∧
    ∀ blocks leader, r = Some (blocks, leader) →
      full_order bl b (Ingress.fp_wavelength fp) = Some (Ok (blocks, Some leader)).
Proof.
  intros Hpub Hfp Ha (d & w & Hd & Hw & Hlast) Hg Hok Hc.
  unfold Snapshots.ordered_block_identities_with_verified_prefix.
  case_decide as Hcond. { exists None, cache. split_and!; done. }
  assert (2 ≤ length (Snapshots.ordered_validators b)) as Hlen by lia.
  destruct (publication_anchor _ _ _ _ _ Hpub Hlen Ha) as (leader & st & Hl & Ea & Hst & -> & Hp).
  destruct Hpub as (r0 & now & Hok0 & _).
  set (wl := Ingress.fp_wavelength fp) in *.
  assert (settled_leader (Ingress.anchor_wave_end reuse) bl0 wl leader) as Hset.
  { split; [done|]. rewrite Ea in Hd. exists d, w, (Ingress.anchor_wave_end reuse).
    split_and!; [|done|done|lia]. by apply depth_resolved; [apply lo_acyclic|apply Hok0| |]. }
  assert (plain bl (previous_of bl wl b) (Ordering.tau_fuel bl0) leader Ordering.empty_state =
    Some (Ok st)) as Hp'.
  { etrans; [exact (plain_grown _ bl0 bl wl b (ls_of b) _ _ _ Hg Hset)|exact Hp]. }
  destruct (suffix_is_full bl (lo_acyclic _ Hok) (lo_unique _ Hok) (lo_checkpoint _ Hok) wl b leader
    (Ingress.reuse_anchor reuse) st (Ordering.tau_fuel bl0)) with (cache := cache)
    as (r & c' & E & Hc' & Hr); [by eapply grown_dom|by rewrite Ea|done|exact Hp'|done|].
  exists r, c'. split_and!; [exact E|done|]. intros blocks leader' ->.
  specialize (Hr blocks leader' eq_refl).
  destruct (try_ordered_spec bl (lo_acyclic _ Hok) (lo_unique _ Hok) (lo_checkpoint _ Hok) wl b _
    (default_cache_ok bl)) as (r' & _ & _ & _ & _ & Hf & Hw').
  rewrite Hf. do 2 f_equal. eapply weighted_result_det; [by apply lo_acyclic|apply Hok|apply Hok| |exact Hr].
  apply Hw'.
  - intros E0. rewrite E0 in Hlen. simpl in Hlen. lia.
  - by apply sole_validator_many.
Qed.

(** *** Polls *)

Lemma fallback_none self fp reuse :
  Ingress.fallback_reason self fp reuse = None →
  Ingress.safe_append reuse = true ∧
  Ingress.observed_mirrored_blocks reuse = Ingress.mirrored_blocks fp ∧
  Ingress.fp_wavelength (Ingress.fingerprint reuse) = Ingress.fp_wavelength fp ∧
  Ingress.fp_weights (Ingress.fingerprint reuse) = Ingress.fp_weights fp.
Proof.
  unfold Ingress.fallback_reason. destruct (Ingress.safe_append reuse); [cbn [negb]|done].
  by repeat case_decide.
Qed.

(** An attempt to extend finds nothing or the full order. *)
Definition extends_full self (wl : N)
    (o : option (result Ingress.extension OrderingError * Ordering.OrderingCache)) : Prop :=
  ∃ r reason c', o = Some (Ok (r, reason), c') ∧ cache_ok (Ingress.blocklace self) c' ∧
    ∀ blocks leader, r = Some (blocks, leader) →
      full_order (Ingress.blocklace self) (Ingress.bonds self) wl = Some (Ok (blocks, Some leader)).

Lemma try_extend_spec self wl :
  ingress_ok self → Ingress.future_epoch self = None →
  extends_full self wl
    (Ingress.try_extend_finalized_prefix self (Ingress.current_fingerprint self wl)).
Proof.
  intros Hok Hfe. set (fp := Ingress.current_fingerprint self wl).
  pose proof (io_cache _ Hok) as Hc. pose proof (io_published _ Hok Hfe) as Hp.
  assert (∀ reason, extends_full self wl (Some (Ok (None, Some reason), Ingress.ordering_cache self)))
    as Hskip by (intros reason; eexists None, _, _; by split_and!).
  unfold Ingress.try_extend_finalized_prefix, published_ok in *.
  destruct (Ingress.finalized_prefix_reuse self) as [reuse|]; [|by apply Hskip].
  destruct (Ingress.fallback_reason self fp reuse) as [reason|] eqn:Ef; [by apply Hskip|].
  apply fallback_none in Ef as (Hsafe & Hblocks & Hwl & Hw).
  destruct (Ingress.last_finalized_output_fingerprint self) as [fp0|]; [|by destruct Hp as [? _]].
  destruct Hp as (bl0 & b0 & out & Hl & Hpub & He & Hr). rewrite Hl.
  destruct (Hr _ eq_refl) as (<- & Ha & Hd & Hs). destruct (Hs Hsafe) as (bl1 & Hg & _ & He1 & Ho).
  rewrite Hblocks in Ho. cbn [fp Ingress.current_fingerprint Ingress.mirrored_blocks] in Ho.
  apply earlier_same in He1; [|done]. subst bl1.
  assert (b0 = Ingress.bonds self) as ->.
  { destruct Hpub as (_ & _ & _ & Efp & _). apply (f_equal Ingress.fp_weights) in Efp.
    cbn [Ingress.fp_weights] in Efp. apply from_bonds_inj. rewrite <-Efp. exact Hw. }
  change wl with (Ingress.fp_wavelength fp). rewrite <-Hwl in *.
  destruct (verified_prefix_is_full bl0 (Ingress.blocklace self) _ _ out reuse
    (Ingress.ordering_cache self) Hpub eq_refl Ha Hd Hg (io_lace _ Hok) Hc) as (r & c' & -> & Hc' & Hfull).
  cbn [mbind option_bind fst snd result_bind].
  destruct r as [[blocks leader]|]; [|by eexists None, _, c'].
  case_decide; [|by eexists None, _, c'].
  eexists (Some (blocks, leader)), _, c'. split_and!; [done..|]. intros ?? [= <- <-]. by apply Hfull.
Qed.

(** Whichever way it goes, a poll computes the full order. *)
Lemma compute_output_spec self wl :
  ingress_ok self → Ingress.future_epoch self = None →
  let fp := Ingress.current_fingerprint self wl in
  ∃ r path reason c', Ingress.compute_output self fp = Some (Ok (r.1, r.2, path, reason), c') ∧
    cache_ok (Ingress.blocklace self) c' ∧
    full_order (Ingress.blocklace self) (Ingress.bonds self) wl = Some (Ok r).
Proof.
  intros Hok Hfe. cbn zeta. set (fp := Ingress.current_fingerprint self wl).
  destruct (try_extend_spec self wl Hok Hfe) as (r & reason & c' & E & Hc' & Hr).
  unfold Ingress.compute_output. fold fp in E. rewrite E. cbn [mbind option_bind fst snd].
  destruct r as [[blocks leader]|].
  - by exists (blocks, Some leader), Ingress.VerifiedPrefix, reason, c'; split_and!; [done..|apply Hr].
  - pose proof (io_lace _ Hok) as Hl.
    destruct (try_ordered_spec _ (lo_acyclic _ Hl) (lo_unique _ Hl) (lo_checkpoint _ Hl) wl
      (Ingress.bonds self) c' Hc') as (r & c2 & E2 & Hc2 & _ & Hf & _).
    change (Ingress.fp_wavelength fp) with wl. rewrite E2. cbn [mbind option_bind fst snd result_bind].
    by exists r, Ingress.Full, reason, c2.
Qed.

Definition output_of self (now wl : N) (r : list BlockIdentity * option BlockIdentity) :
    OrderedFinalizedOutput.t :=
  OrderedFinalizedOutput.new now r.1 r.2 wl (size (Ingress.bonds self))
    (size (Blocklace.dom (Ingress.blocklace self))).

(** The parts of the state that a poll leaves alone. *)
Definition same_inputs self self' : Prop :=
  Ingress.mirror self' = Ingress.mirror self ∧ Ingress.bonds self' = Ingress.bonds self ∧
  Ingress.adapter self' = Ingress.adapter self ∧
  Ingress.future_epoch self' = Ingress.future_epoch self.

Definition extends_published self (out : OrderedFinalizedOutput.t) : Prop :=
  match Ingress.latest self with
  | Some previous => OrderedFinalizedOutput.blocks previous `prefix_of` OrderedFinalizedOutput.blocks out
  | None => True
  end.
Lemma update_spec self out :
  (extends_published self out ∧
   SharedOrderedOutput.update (Ingress.shared_ordered_output self) out = Ok (Some out)) ∨
  (¬ extends_published self out ∧
   SharedOrderedOutput.update (Ingress.shared_ordered_output self) out = Err PrefixViolation).
Proof.
  unfold extends_published, Ingress.latest, SharedOrderedOutput.latest, SharedOrderedOutput.update.
  destruct (Ingress.shared_ordered_output self) as [previous|]; [|by left].
  unfold OrderedFinalizedOutput.preserves_prefix.
  destruct (decide (OrderedFinalizedOutput.blocks previous `prefix_of` OrderedFinalizedOutput.blocks out)).
  - left. by rewrite bool_decide_eq_true_2.
  - right. by rewrite bool_decide_eq_false_2.
Qed.

(** What the ingress remembers of an output it has computed. *)
Lemma prefix_reuse_ok self now wl r reuse :
  ingress_ok self →
  full_order (Ingress.blocklace self) (Ingress.bonds self) wl = Some (Ok r) →
  let fp := Ingress.current_fingerprint self wl in
  Ingress.prefix_reuse self fp (output_of self now wl r) = Some reuse →
  Ingress.fingerprint reuse = fp ∧
  reuse_ok (Ingress.blocklace self) (Ingress.blocklace self) (output_of self now wl r) reuse.
Proof.
  intros Hok Hf. cbn zeta. unfold Ingress.prefix_reuse.
  destruct (OrderedFinalizedOutput.anchor _) as [a|] eqn:Ea; [|done]. cbn [mbind option_bind].
  destruct (Round.depth _ a) as [d|] eqn:Ed; [|done]. cbn [mbind option_bind].
  destruct (Wave.wave_of_round d _) as [w|] eqn:Ew; [|done]. cbn [mbind option_bind].
  destruct (Wave.last_round_of_wave w _) as [z|] eqn:Ez; [|done]. cbn [mbind option_bind].
  intros [= <-]. split; [done|]. unfold reuse_ok.
  cbn [Ingress.fingerprint Ingress.reuse_anchor Ingress.anchor_wave_end Ingress.safe_append
    Ingress.observed_mirrored_blocks].
  split_and!; [done|by exists d, w|]. intros Hs%negb_true_iff. exists (Ingress.blocklace self).
  split_and!; [|by apply io_lace|by left|done].
  apply grown_refl; [|apply (io_lace _ Hok)]. by apply lo_well_formed; [apply io_lace|].
Qed.

Lemma computed_output_spec self now wl :
  ingress_ok self → Ingress.future_epoch self = None →
  ∃ r res self', full_order (Ingress.blocklace self) (Ingress.bonds self) wl = Some (Ok r) ∧
    Ingress.computed_output self now (Ingress.current_fingerprint self wl) = Some (res, self') ∧
    same_inputs self self' ∧ ingress_ok self' ∧
    (extends_published self (output_of self now wl r) ∧ res = Ok (output_of self now wl r) ∧
       Ingress.latest self' = Some (output_of self now wl r) ∨
     ¬ extends_published self (output_of self now wl r) ∧
       res = Err Ingress.OrderedOutputPrefixViolation ∧ Ingress.latest self' = Ingress.latest self).
Proof.
  intros Hok Hfe. destruct (compute_output_spec self wl Hok Hfe) as (r & path & reason & c' & E & Hc & Hf).
  exists r. unfold Ingress.computed_output. rewrite E. cbn [mbind option_bind fst snd].
  set (fp := Ingress.current_fingerprint self wl).
  change (OrderedFinalizedOutput.new now r.1 r.2 (Ingress.fp_wavelength fp)
    (size (Ingress.bonds (Ingress.set_cache self c'))) (Ingress.mirrored_blocks fp))
    with (output_of self now wl r).
  destruct (update_spec (Ingress.set_cache self c') (output_of self now wl r)) as [[Hex ->]|[Hex ->]].
  - eexists _, _. split; [done|]. split; [reflexivity|]. split; [done|]. split; [|by left].
    split; [apply Hok|exact Hc|]. intros _. unfold published_ok.
    exists (Ingress.blocklace self), (Ingress.bonds self), (output_of self now wl r).
    split; [done|]. split; [by exists r, now; split_and!; [apply io_lace| |..]|].
    split; [by left|]. intros reuse. apply (prefix_reuse_ok self); done.
  - eexists _, _. split; [done|]. split; [reflexivity|]. split; [done|]. split; [|by right].
    split; [apply Hok|exact Hc|]. intros _. exact (io_published _ Hok Hfe).
Qed.

(** *** Every operation keeps the invariant *)

Lemma unsafe_ok bl0 bl bl' out reuse :
  reuse_ok bl0 bl out reuse → reuse_ok bl0 bl' out (Ingress.unsafe_reuse reuse).
Proof. by intros (Ha & Hd & _). Qed.
Lemma reuse_later bl0 bl bl' out reuse :
  earlier bl bl' → reuse_ok bl0 bl out reuse → reuse_ok bl0 bl' out reuse.
Proof.
  intros He (Ha & Hd & Hs). split_and!; [done..|]. intros Hsafe.
  destruct (Hs Hsafe) as (bl1 & Hg & Hl & He1 & Ho). exists bl1.
  split_and!; [done..|by eapply earlier_trans|done].
Qed.

(** The invariant of a state whose mirror changed to a later one, and which
    kept, marked or dropped what it remembers. *)
Lemma later_ok self self' :
  ingress_ok self → mirror_ok (Ingress.mirror self') →
  earlier (Ingress.blocklace self) (Ingress.blocklace self') →
  Ingress.ordering_cache self' = Ingress.ordering_cache self ∨
    Ingress.ordering_cache self' = Ordering.default_cache →
  Ingress.future_epoch self' = Ingress.future_epoch self →
  Ingress.last_finalized_output_fingerprint self' = Ingress.last_finalized_output_fingerprint self →
  Ingress.latest self' = Ingress.latest self →
  (Ingress.finalized_prefix_reuse self = None → Ingress.finalized_prefix_reuse self' = None) →
  (∀ reuse, Ingress.finalized_prefix_reuse self = Some reuse → ∃ reuse',
    Ingress.finalized_prefix_reuse self' = Some reuse' ∧
    Ingress.fingerprint reuse' = Ingress.fingerprint reuse ∧
    ∀ bl0 out, reuse_ok bl0 (Ingress.blocklace self) out reuse →
      reuse_ok bl0 (Ingress.blocklace self') out reuse') →
  ingress_ok self'.
Proof.
  intros Hok Hm He Hc Hfe Hfp Hl Hnone Hsome. split; [done| |].
  - destruct Hc as [-> | ->]; [|apply default_cache_ok]. pose proof (io_cache _ Hok) as Hcache.
    destruct He as [<-|He]; [done|by eapply cache_ok_grown].
  - rewrite Hfe. intros Hf. pose proof (io_published _ Hok Hf) as Hp. unfold published_ok in *.
    rewrite Hfp, Hl. destruct (Ingress.last_finalized_output_fingerprint self) as [fp|].
    + destruct Hp as (bl0 & b0 & out & Hlat & Hpub & He0 & Hr). exists bl0, b0, out.
      split_and!; [done..|by eapply earlier_trans|]. intros reuse' Hreuse'.
      destruct (Ingress.finalized_prefix_reuse self) as [reuse|]; [|by rewrite Hnone in Hreuse'].
      destruct (Hsome _ eq_refl) as (reuse2 & E & Efp & Hk). rewrite E in Hreuse'. injection Hreuse' as ->.
      destruct (Hr _ eq_refl) as [<- Hro]. split; [done|by apply Hk].
    + destruct Hp as [Hn Hlat]. split; [by apply Hnone|done].
Qed.

Lemma replace_weights_ok self weights :
  ingress_ok self → ingress_ok (Ingress.replace_weights self weights).
Proof.
  intros Hok. apply (later_ok self); try done; [apply Hok|by left|by right| |].
  - intros E. cbn. by rewrite E.
  - intros reuse E. exists (Ingress.unsafe_reuse reuse). cbn. rewrite E. split_and!; [done..|].
    intros bl0 out. apply unsafe_ok.
Qed.

(** Nothing that is remembered mentions the phase, the adapter or the
    diagnostics. *)
Lemma same_memory_ok self self' :
  ingress_ok self → Ingress.mirror self' = Ingress.mirror self →
  Ingress.ordering_cache self' = Ingress.ordering_cache self →
  Ingress.future_epoch self' = Ingress.future_epoch self →
  Ingress.last_finalized_output_fingerprint self' = Ingress.last_finalized_output_fingerprint self →
  Ingress.latest self' = Ingress.latest self →
  Ingress.finalized_prefix_reuse self' = Ingress.finalized_prefix_reuse self → ingress_ok self'.
Proof.
  intros Hok Hm Hc Hfe Hfp Hl Hr. assert (Ingress.blocklace self' = Ingress.blocklace self) as Hbl
    by (unfold Ingress.blocklace; by rewrite Hm).
  apply (later_ok self); try done; [rewrite Hm; apply Hok|left; done|by left|by rewrite Hr|].
  intros reuse E. exists reuse. rewrite Hr, Hbl. done.
Qed.

(** A deep strict insertion is recorded as growth. *)
Lemma deep_insertion m b bl released bl0 out reuse :
  mirror_ok m → committed (Mirror.blocklace m) b bl →
  (∀ p, p ∈ predecessors (content b) → is_Some (Blocklace.resolve_identity (Mirror.blocklace m) p)) →
  descends (identity b) (content b) →
  Ingress.deeper_than bl (Ingress.anchor_wave_end reuse) (identity b) = true →
  Ingress.observed_mirrored_blocks reuse = size (Blocklace.dom (Mirror.blocklace m)) →
  reuse_ok bl0 (Mirror.blocklace m) out reuse →
  reuse_ok bl0 bl out (Ingress.mkReuse (Ingress.fingerprint reuse) (Ingress.reuse_anchor reuse)
    (Ingress.anchor_wave_end reuse) released (size (Blocklace.dom bl)) (Ingress.safe_append reuse)).
Proof.
  intros Hm Hc Hp Hd Hdeep Ho (Ha & Hdw & Hs). split_and!; [done..|].
  cbn [Ingress.safe_append Ingress.anchor_wave_end Ingress.observed_mirrored_blocks]. intros Hsafe.
  destruct (Hs Hsafe) as (bl1 & Hg & Hl & He & Ho1). rewrite Ho in Ho1.
  apply earlier_same in He; [|done]. subst bl1. exists bl.
  assert (lace_ok bl) as Hlbl by (eapply committed_ok; done).
  split_and!; [|done|by left|done]. eapply grown_trans; [exact Hg|].
  unfold Ingress.deeper_than in Hdeep. destruct (Round.depth bl (identity b)) as [d|] eqn:Ed; [|done].
  apply bool_decide_eq_true in Hdeep. eapply grown_committed; [done| | |apply Hl|done|done].
  - apply Hg.
  - apply (commit_fresh_well_formed (Mirror.blocklace m) (identity b) (content b));
      [apply Hg|apply Hc|done|apply Hc].
Qed.

Lemma strict_update_reuse self m' b r reuse :
  ingress_ok self → descends (identity b) (content b) →
  ingests (Ingress.mirror self) b (Ok r) m' →
  Ingress.finalized_prefix_reuse self = Some reuse →
  let self' := Ingress.record_strict_mirror_update (Ingress.set_mirror self m')
    (Blocklace.generation (Ingress.blocklace self)) (size (Blocklace.dom (Ingress.blocklace self)))
    r (identity b) in
  ∃ reuse', Ingress.finalized_prefix_reuse self' = Some reuse' ∧
    Ingress.fingerprint reuse' = Ingress.fingerprint reuse ∧
    ∀ bl0 out, reuse_ok bl0 (Ingress.blocklace self) out reuse →
      reuse_ok bl0 (Mirror.blocklace m') out reuse'.
Proof.
  intros Hok Hd Hi Hr. cbn zeta. unfold Ingress.record_strict_mirror_update.
  cbn [Ingress.set_mirror Ingress.finalized_prefix_reuse]. rewrite Hr.
  case_decide as Hdup.
  { exists reuse. cbn. split_and!; [done..|]. inversion Hi; subst; done. }
  case_decide as Hmis.
  { exists (Ingress.unsafe_reuse reuse). split_and!; [done..|]. intros bl0 out. apply unsafe_ok. }
  case_decide as Hdeep; [|exists (Ingress.unsafe_reuse reuse); split_and!;
    [done..|intros bl0 out; apply unsafe_ok]].
  assert (Ingress.observed_mirrored_blocks reuse = size (Blocklace.dom (Ingress.blocklace self))) as Ho
    by (apply dec_stable; tauto).
  destruct Hdeep as (_ & _ & Hsz & Hdeep).
  inversion Hi as [| | |bl released m1 Hun Hav Hc Hmv Hready]; subst; try done; [by destruct Hmis; left|].
  apply checked_sub_Some in Hsz as [Hsz _]. pose proof (committed_size _ _ _ Hc) as Hc1.
  change (Ingress.blocklace (Ingress.set_mirror self m')) with (Mirror.blocklace m') in *.
  change (Ingress.blocklace self) with (Mirror.blocklace (Ingress.mirror self)) in *.
  apply moves_none in Hmv; [|cbn [Mirror.blocklace]; lia]. subst m'. cbn [Mirror.blocklace] in *.
  eexists. split; [reflexivity|]. split; [done|]. intros bl0 out Hro.
  eapply deep_insertion; [apply Hok|exact Hc| |done..].
  by apply available_spec.
Qed.

Lemma ingests_earlier m b r m' :
  ingests m b r m' → earlier (Mirror.blocklace m) (Mirror.blocklace m').
Proof.
  intros [| | |bl released m1 _ _ Hc Hmv _]; [by left..|]. right.
  apply moves_size in Hmv. cbn [Mirror.blocklace] in Hmv. rewrite (committed_size _ _ _ Hc) in Hmv. lia.
Qed.
Lemma strict_update_fields self g n u i :
  let self' := Ingress.record_strict_mirror_update self g n u i in
  Ingress.mirror self' = Ingress.mirror self ∧
  Ingress.ordering_cache self' = Ingress.ordering_cache self ∧
  Ingress.future_epoch self' = Ingress.future_epoch self ∧
  Ingress.last_finalized_output_fingerprint self' = Ingress.last_finalized_output_fingerprint self ∧
  Ingress.latest self' = Ingress.latest self ∧ Ingress.bonds self' = Ingress.bonds self ∧
  (Ingress.finalized_prefix_reuse self = None → Ingress.finalized_prefix_reuse self' = None).
Proof.
  cbn zeta. unfold Ingress.record_strict_mirror_update.
  destruct (Ingress.finalized_prefix_reuse self) eqn:E; [|by split_and!].
  repeat case_decide; by split_and!.
Qed.
Lemma invalidate_ok self :
  ingress_ok self → ingress_ok (Ingress.invalidate_finalized_prefix_reuse self).
Proof.
  intros Hok. apply (later_ok self); try done; [apply Hok|by left|by left| |].
  - intros E. cbn. by rewrite E.
  - intros reuse E. exists (Ingress.unsafe_reuse reuse). cbn. rewrite E. split_and!; [done..|].
    intros bl0 out. apply unsafe_ok.
Qed.

Lemma ingest_block_ok self b :
  ingress_ok self → descends (identity b) (content b) →
  ∃ r self', Ingress.ingest_trusted_block self b = Some (r, self') ∧ ingress_ok self' ∧
    Ingress.latest self' = Ingress.latest self ∧ Ingress.bonds self' = Ingress.bonds self ∧
    Ingress.future_epoch self' = Ingress.future_epoch self.
Proof.
  intros Hok Hd. unfold Ingress.ingest_trusted_block.
  destruct (on_block (Ingress.adapter self) b) as [[|e] a].
  2:{ eexists _, _. split; [reflexivity|]. split_and!; [|done..]. by apply (same_memory_ok self). }
  assert (ingress_ok (Ingress.set_adapter self a)) as Hok1 by by apply (same_memory_ok self).
  destruct (ingest_spec (Ingress.mirror self) b (io_mirror _ Hok) Hd) as (r & m' & -> & Hi & Hm').
  cbn [mbind option_bind fst snd]. destruct r as [u|e].
  - eexists _, _. split; [reflexivity|].
    pose proof (strict_update_fields (Ingress.set_mirror (Ingress.set_adapter self a) m')
      (Blocklace.generation (Ingress.blocklace self)) (size (Blocklace.dom (Ingress.blocklace self)))
      u (identity b)) as (Em & Ec & Ef & Efp & El & Eb & En). cbn zeta in *.
    split; [|split; [exact El|split; [exact Eb|exact Ef]]].
    match type of Em with Ingress.mirror ?s = _ => apply (same_memory_ok s); [|reflexivity..] end.
    apply (later_ok (Ingress.set_adapter self a)); [done|by rewrite Em| |by left|done..|].
    + unfold Ingress.blocklace at 2. rewrite Em. by eapply ingests_earlier.
    + intros reuse Hr.
      destruct (strict_update_reuse (Ingress.set_adapter self a) m' b u reuse Hok1 Hd Hi Hr)
        as (reuse' & E & Efp' & Hk). exists reuse'. split_and!; [exact E|done|].
      intros bl0 out Hro.
      exact (eq_ind_r (λ bl, reuse_ok bl0 bl out reuse') (Hk bl0 out Hro) (f_equal Mirror.blocklace Em)).
  - eexists _, _. split; [reflexivity|]. split_and!; [|done..]. apply invalidate_ok.
    assert (m' = Ingress.mirror self) as -> by (by inversion Hi).
    by apply (same_memory_ok self).
Qed.

Lemma ingest_window_ok self b :
  ingress_ok self → descends (identity b) (content b) →
  ∃ r self', Ingress.ingest_trusted_window_block self b = Some (r, self') ∧ ingress_ok self' ∧
    Ingress.latest self' = Ingress.latest self ∧ Ingress.bonds self' = Ingress.bonds self ∧
    Ingress.future_epoch self' = Ingress.future_epoch self.
Proof.
  intros Hok Hd. unfold Ingress.ingest_trusted_window_block.
  destruct (on_block (Ingress.adapter self) b) as [[|e] a].
  2:{ eexists _, _. split; [reflexivity|]. split_and!; [|done..]. by apply (same_memory_ok self). }
  destruct (ingest_window_spec (Ingress.mirror self) b (io_mirror _ Hok) Hd)
    as (r & m' & -> & Hm' & He & Hdup & Herr). cbn [mbind option_bind fst snd].
  assert (earlier (Ingress.blocklace self) (Mirror.blocklace m')) as Hearlier.
  { destruct He as [->|?]; [by left|by right]. }
  assert (∀ self', self' = Ingress.invalidate_finalized_prefix_reuse
    (Ingress.set_mirror (Ingress.set_adapter self a) m') → ingress_ok self') as Hinv.
  { intros self' ->. apply (later_ok self); try done; [by left| |].
    - intros E. cbn. by rewrite E.
    - intros reuse E. exists (Ingress.unsafe_reuse reuse). cbn. rewrite E. split_and!; [done..|].
      intros bl0 out. apply unsafe_ok. }
  destruct r as [u|e].
  - eexists _, _. split; [reflexivity|]. case_decide as Hd'.
    + split_and!; [|done..]. eapply same_memory_ok; [by apply Hinv|done..].
    + split_and!; [|done..]. rewrite (Hdup u eq_refl) by (done || by apply dec_stable).
      by apply (same_memory_ok self).
  - eexists _, _. split; [reflexivity|]. split_and!; [|done..]. by apply Hinv.
Qed.

(** A poll answers with the full order, or says that it would rewrite the
    published one. *)
Definition answers_poll self (now wl : N) (r : list BlockIdentity * option BlockIdentity)
    (res : result OrderedFinalizedOutput.t Ingress.SnapshotError) self' : Prop :=
  extends_published self (output_of self now wl r) ∧
    (∃ t, res = Ok (OrderedFinalizedOutput.with_timestamp (output_of self now wl r) t) ∧
      Ingress.latest self' = Some (OrderedFinalizedOutput.with_timestamp (output_of self now wl r) t)) ∨
  ¬ extends_published self (output_of self now wl r) ∧
    res = Err Ingress.OrderedOutputPrefixViolation ∧ Ingress.latest self' = Ingress.latest self.

Lemma poll_ok self now wl :
  ingress_ok self → Ingress.future_epoch self = None →
  ∃ r res self', full_order (Ingress.blocklace self) (Ingress.bonds self) wl = Some (Ok r) ∧
    Ingress.latest_finalized_ordered_output self now wl = Some (res, self') ∧
    same_inputs self self' ∧ ingress_ok self' ∧ answers_poll self now wl r res self'.
Proof.
  intros Hok Hfe. unfold Ingress.latest_finalized_ordered_output. rewrite Hfe. cbn zeta.
  assert (∃ r res self', full_order (Ingress.blocklace self) (Ingress.bonds self) wl = Some (Ok r) ∧
    Ingress.computed_output self now (Ingress.current_fingerprint self wl) = Some (res, self') ∧
    same_inputs self self' ∧ ingress_ok self' ∧ answers_poll self now wl r res self') as Hcomputed.
  { destruct (computed_output_spec self now wl Hok Hfe) as (r & res & self' & Hf & E & Hs & Hok' & Hr).
    exists r, res, self'. do 4 (split; [done|]). destruct Hr as [(? & -> & ?)|?]; [left|by right].
    split; [done|]. by exists now. }
  destruct (Ingress.last_finalized_output_fingerprint self) as [last|] eqn:Elast; [|done].
  destruct (Ingress.latest self) as [out|] eqn:Eout; [|done].
  case_decide as Hfp; [subst last|done].
  pose proof (io_published _ Hok Hfe) as Hp. unfold published_ok in Hp. rewrite Elast, Eout in Hp.
  destruct Hp as (bl0 & b0 & out' & [= <-] & (r & now0 & _ & Efp & Hf & ->) & He & _).
  pose proof (f_equal Ingress.fp_weights Efp) as Ew. pose proof (f_equal Ingress.mirrored_blocks Efp) as Es.
  change (WeightSnapshot.from_bonds (Ingress.bonds self) = WeightSnapshot.from_bonds b0) in Ew.
  change (size (Blocklace.dom (Ingress.blocklace self)) = size (Blocklace.dom bl0)) in Es.
  apply from_bonds_inj in Ew. subst b0. apply earlier_same in He; [|done]. subst bl0.
  eexists r, _, _. split; [exact Hf|]. split; [reflexivity|]. split; [done|].
  split; [by apply (same_memory_ok self)|]. left. split.
  - unfold extends_published. by rewrite Eout.
  - exists now0. split; [done|]. exact Eout.
Qed.

(** *** Runs *)

Inductive operation :=
  | IngestTrusted (b : Block)
  | IngestWindow (b : Block)
  | Poll (now wave_length : N)
  | OrderedBlocks (now : N)
  | SetBonds (weights : gmap NodeId N)
  | ApplyWeights (state : ReputationState.t)
  | RestoreWeights (weights : gmap NodeId N)
  | InstallEpoch (now : N) (record : PorWeightEpochRecord.t) (committed_checkpoint_hash : Hash32)
  | MarkTraced
  | MarkConnected.

(** The state after an operation, whatever it answers. *)
Definition step self (op : operation) : option Ingress.t :=
  match op with
  | IngestTrusted b => snd <$> Ingress.ingest_trusted_block self b
  | IngestWindow b => snd <$> Ingress.ingest_trusted_window_block self b
  | Poll now wl => snd <$> Ingress.latest_finalized_ordered_output self now wl
  | OrderedBlocks now => snd <$> Ingress.ordered_finalized_blocks self now
  | SetBonds weights => Some (Ingress.set_bonds self weights)
  | ApplyWeights state => snd <$> Ingress.apply_por_weights self state
  | RestoreWeights weights => Some (Ingress.restore_activated_por_weights self weights).2
  | InstallEpoch now record hash => snd <$> Ingress.install_future_epoch self now record hash
  | MarkTraced => Some (Ingress.mark_traced self)
  | MarkConnected => Some (Ingress.mark_connected self)
  end.
(** The blocks that arrive name only lower blocks. *)
Definition admissible (op : operation) : Prop :=
  match op with
  | IngestTrusted b | IngestWindow b => descends (identity b) (content b)
  | _ => True
  end.

Inductive reached : Ingress.t → Prop :=
  | reached_start address adapter bonds :
      reached (Ingress.with_consensus_view address adapter bonds)
  | reached_step self op self' :
      reached self → admissible op → step self op = Some self' → reached self'.

Definition publication_grows self self' : Prop :=
  ∀ out, Ingress.latest self = Some out → ∃ out', Ingress.latest self' = Some out' ∧
    OrderedFinalizedOutput.blocks out `prefix_of` OrderedFinalizedOutput.blocks out'.

Lemma same_publication_grows self self' :
  Ingress.latest self' = Ingress.latest self → publication_grows self self'.
Proof. intros E out Hout. exists out. by rewrite E. Qed.
Lemma extends_grows self self' out :
  extends_published self out → Ingress.latest self' = Some out → publication_grows self self'.
Proof. unfold extends_published. intros He E out0 Hout. rewrite Hout in He. eauto. Qed.

Lemma apply_weights_step self state res self' :
  Ingress.apply_por_weights self state = Some (res, self') →
  self' = self ∧ (∀ u, res ≠ Ok u) ∨ res = Ok tt ∧ Ingress.future_epoch self = None ∧
    ∃ weights, Ingress.checked_por_weights self state = Some (Ok weights) ∧
      self' = Ingress.replace_weights self weights.
Proof.
  unfold Ingress.apply_por_weights. case_decide as Hfe; [intros [= <- <-]; by left|].
  destruct (Ingress.checked_por_weights self state) as [[weights|e]|]; cbn [mbind option_bind];
    [intros [= <- <-]; right|intros [= <- <-]; by left|done].
  split_and!; [done|by apply eq_None_not_Some|by exists weights].
Qed.

Lemma ordered_blocks_ok self now self' :
  ingress_ok self → step self (OrderedBlocks now) = Some self' →
  ingress_ok self' ∧ publication_grows self self'.
Proof.
  intros Hok. cbn [step]. unfold Ingress.ordered_finalized_blocks.
  destruct (Ingress.future_epoch self) as [record|] eqn:Efe.
  { destruct (Ingress.replay_future_epoch self now record); [|done]. intros [= <-].
    split; [done|by apply same_publication_grows]. }
  pose proof (io_lace _ Hok) as Hl.
  unfold Snapshots.ordered_finalized_block_hashes_with_cache, Snapshots.ordered_block_identities_with_cache.
  destruct (try_ordered_spec _ (lo_acyclic _ Hl) (lo_unique _ Hl) (lo_checkpoint _ Hl)
    Snapshots.CORDIAL_WAVELENGTH (Ingress.bonds self) _ (io_cache _ Hok)) as (r & c' & -> & Hc' & _).
  cbn [mbind option_bind fst snd fmap option_fmap option_map]. intros [= <-].
  split; [|by apply same_publication_grows].
  split; [apply Hok|exact Hc'|]. intros _. exact (io_published _ Hok Efe).
Qed.

Lemma epoch_ok self self' :
  ingress_ok self → Ingress.mirror self' = Ingress.mirror self →
  Ingress.ordering_cache self' = Ingress.ordering_cache self ∨
    Ingress.ordering_cache self' = Ordering.default_cache →
  is_Some (Ingress.future_epoch self') → ingress_ok self'.
Proof.
  intros Hok Hm Hc [record Hfe]. split; [rewrite Hm; apply Hok| |by rewrite Hfe].
  unfold Ingress.blocklace. rewrite Hm. destruct Hc as [-> | ->]; [apply Hok|apply default_cache_ok].
Qed.
Lemma epoch_poll_ok self now wl record self' :
  ingress_ok self → Ingress.future_epoch self = Some record →
  step self (Poll now wl) = Some self' → ingress_ok self' ∧ publication_grows self self'.
Proof.
  intros Hok Hfe. cbn [step]. unfold Ingress.latest_finalized_ordered_output, Ingress.epoch_output.
  rewrite Hfe. destruct (Ingress.replay_future_epoch self now record) as [[out|e]|]; [|intros [= <-]|done].
  2:{ split; [done|by apply same_publication_grows]. }
  cbn [mbind option_bind]. case_decide; [intros [= <-]; split; [done|by apply same_publication_grows]|].
  destruct (update_spec self out) as [[Hex ->]|[_ ->]]; intros [= <-].
  - split; [|by apply (extends_grows _ _ out)]. apply (epoch_ok self); [done|done|by left|by eexists].
  - split; [done|by apply same_publication_grows].
Qed.
Lemma install_ok self now record hash self' :
  ingress_ok self → step self (InstallEpoch now record hash) = Some self' →
  ingress_ok self' ∧ publication_grows self self'.
Proof.
  intros Hok. cbn [step]. unfold Ingress.install_future_epoch.
  assert (ingress_ok self ∧ publication_grows self self) as Hsame
    by (split; [done|by apply same_publication_grows]).
  case_decide; [by intros [= <-]|]. destruct (Ingress.future_epoch self) as [active|].
  { case_decide; by intros [= <-]. }
  case_decide; [by intros [= <-]|].
  destruct (PorWeightEpochRecord.verify_replay _ _ _ _ _) as [r|]; [|done].
  cbn [mbind option_bind]. destruct (Ingress.replayed r) as [out|e]; [|by intros [= <-]].
  destruct (update_spec self out) as [[Hex ->]|[_ ->]]; intros [= <-]; [|done].
  split; [|by apply (extends_grows _ _ out)]. apply (epoch_ok self); [done|done|by right|by eexists].
Qed.

Lemma operation_ok self op self' :
  ingress_ok self → admissible op → step self op = Some self' →
  ingress_ok self' ∧ publication_grows self self'.
Proof.
  intros Hok Ha. destruct op as [b|b|now wl|now|weights|state|weights|now record hash| |].
  - destruct (ingest_block_ok self b Hok Ha) as (r & s & E & Hs & El & _). cbn [step]. rewrite E.
    intros [= <-]. split; [done|by apply same_publication_grows].
  - destruct (ingest_window_ok self b Hok Ha) as (r & s & E & Hs & El & _). cbn [step]. rewrite E.
    intros [= <-]. split; [done|by apply same_publication_grows].
  - destruct (Ingress.future_epoch self) as [record|] eqn:Hfe; [by apply (epoch_poll_ok _ _ _ record)|].
    destruct (poll_ok self now wl Hok Hfe) as (r & res & s & _ & E & _ & Hs & Hr). cbn [step]. rewrite E.
    intros [= <-]. split; [done|]. destruct Hr as [(Hex & t & _ & El)|(_ & _ & El)].
    + eapply extends_grows; [|exact El]. exact Hex.
    + by apply same_publication_grows.
  - by apply ordered_blocks_ok.
  - intros [= <-]. unfold Ingress.set_bonds. case_decide.
    + split; [by apply replace_weights_ok|by apply same_publication_grows].
    + split; [done|by apply same_publication_grows].
  - cbn [step]. destruct (Ingress.apply_por_weights self state) as [[res s]|] eqn:E; [|done].
    intros [= <-]. apply apply_weights_step in E as [[-> _]|(_ & _ & weights & _ & ->)].
    + split; [done|by apply same_publication_grows].
    + split; [by apply replace_weights_ok|by apply same_publication_grows].
  - intros [= <-]. unfold Ingress.restore_activated_por_weights. case_decide; cbn [snd].
    { split; [done|by apply same_publication_grows]. }
    destruct (Ingress.same_membership self weights); cbn [snd].
    + split; [by apply replace_weights_ok|by apply same_publication_grows].
    + split; [done|by apply same_publication_grows].
  - by apply install_ok.
  - intros [= <-]. split; [by apply (same_memory_ok self)|by apply same_publication_grows].
  - intros [= <-]. split; [by apply (same_memory_ok self)|by apply same_publication_grows].
Qed.

Lemma start_ok address adapter bonds :
  ingress_ok (Ingress.with_consensus_view address adapter bonds).
Proof.
  split; [|apply default_cache_ok|by split]. split; [apply new_lace_ok| |];
    cbn [Ingress.with_consensus_view Ingress.mirror Mirror.new Mirror.pending].
  - intros i b. by rewrite lookup_empty.
  - intros i j [b Hb]. by rewrite lookup_empty in Hb.
Qed.
Lemma reached_ok self : reached self → ingress_ok self.
Proof. induction 1; [apply start_ok|by eapply operation_ok]. Qed.

End ingress.
