(* ===== verification/LiveTheorems.v ===== *)
(** * Theorems: the live ingress

    The mirror does not depend on the order in which blocks arrive; what is
    remembered between polls cannot be observed; published output only grows;
    and when weights can be activated. *)

From S2P Require Import Prelude Types Lace LaceFacts Samples Rounds RoundFacts Quorum QuorumFacts.
From S2P Require Import Finality FinalityFacts Ordering OrderingFacts.
From S2P Require Import PorTypes PorMath PorState PorStateFacts PorTheorems FinalOutput Durable.
From S2P Require Import Live LiveFacts.
From S2P Require Import IngressFacts.
From stdpp Require Import options.

#[local] Existing Instance AlreadyValidatedVerifier.

(** ** The mirror as a set of blocks *)

(** [p] is a reference to the block [b]. *)
Definition refers_to (p : BlockIdentity) (b : Block) : Prop :=
  p = identity b ∨ signature p = [] ∧ same_consensus_identity p (identity b).

(** The blocks of [bs] whose whole past is in [bs]. *)
Inductive supported (bs : list Block) : Block → Prop :=
  | supported_intro b (target : BlockIdentity → Block) :
      b ∈ bs → (∀ p, p ∈ predecessors (content b) → refers_to p (target p)) →
      (∀ p, p ∈ predecessors (content b) → supported bs (target p)) → supported bs b.

Definition stored (m : Mirror.t) (b : Block) : Prop :=
  Blocklace.blocks (Mirror.blocklace m) !! identity b = Some (content b).
Definition waiting_block (m : Mirror.t) (b : Block) : Prop :=
  Mirror.pending m !! identity b = Some b.

(** No two of the blocks share a hash and a creator. *)
Definition one_per_identity (bs : list Block) : Prop :=
  ∀ b b', b ∈ bs → b' ∈ bs → same_consensus_identity (identity b) (identity b') → b = b'.

Fixpoint ingest_all `{HashOrder} (m : Mirror.t) (bs : list Block) : option Mirror.t :=
  match bs with
  | [] => Some m
  | b :: bs =>
    r ← Mirror.ingest m b;
    match r.1 with Ok _ => ingest_all r.2 bs | Err _ => None end
  end.

Section mirror.
Context `{HO : HashOrder} `{Hh : Heights}.
Implicit Types (m : Mirror.t) (b : Block).

(** The mirror holds the blocks of [bs], and stores only supported ones. *)
Record holds_blocks (bs : list Block) m : Prop := {
  hb_ok : mirror_ok m;
  hb_ready : Mirror.ready_ids m = [];
  hb_all b : stored m b ∨ waiting_block m b ↔ b ∈ bs;
  hb_supported b : stored m b → supported bs b
}.

Lemma supported_mono bs bs' b : bs ⊆ bs' → supported bs b → supported bs' b.
Proof. intros Hs. induction 1 as [b target Hb Ht _ IH]. by apply (supported_intro _ b target); [apply Hs|..]. Qed.
Lemma supported_in bs b : supported bs b → b ∈ bs.
Proof. by intros []. Qed.

Lemma stored_resolve m p b :
  unique_variants (Mirror.blocklace m) → stored m b → refers_to p b →
  Blocklace.resolve_identity (Mirror.blocklace m) p = Some (identity b).
Proof.
  intros Hu Hb. assert (identity b ∈ Blocklace.dom (Mirror.blocklace m)) as Hd by (apply elem_of_lace_dom; by eexists).
  intros [->|[Hsig Hs]]; [by apply resolve_stored|].
  apply resolve_in_unsigned; [|done|by apply elem_of_lace_dom|by symmetry].
  intros i j. rewrite <-!elem_of_lace_dom. apply Hu.
Qed.
(** A block whose references resolve to supported blocks is supported. *)
Lemma available_supported bs m b :
  b ∈ bs → (∀ b', stored m b' → supported bs b') → Mirror.predecessors_available m b = true →
  supported bs b.
Proof.
  intros Hb Hs Hp. rewrite available_spec in Hp.
  set (target p := default b (r ← Blocklace.resolve_identity (Mirror.blocklace m) p;
    c ← Blocklace.blocks (Mirror.blocklace m) !! r; Some (mkBlock r c))).
  assert (∀ p, p ∈ predecessors (content b) → refers_to p (target p) ∧ stored m (target p)) as Ht.
  { intros p [r Hr]%Hp. unfold target. rewrite Hr. cbn [mbind option_bind].
    apply resolve_Some in Hr as ([c Hc]%elem_of_lace_dom & Hsame & Hsig). rewrite Hc. cbn [mbind option_bind default].
    split; [|done]. destruct Hsig as [->|Hsig]; [by left|]. right. by split; [|symmetry]. }
  apply (supported_intro _ b target); [done|..]; intros p Hpp; [apply Ht; done|]. by apply Hs, Ht.
Qed.
(** Everything supported is stored, since nothing that waits is ready. *)
Lemma supported_stored bs m b : holds_blocks bs m → supported bs b → stored m b.
Proof.
  intros Hm. induction 1 as [b target Hb Ht _ IH]. apply (hb_all _ _ Hm) in Hb as [|Hw]; [done|exfalso].
  assert (identity b ∈ Mirror.ready_ids m) as Hr; [|rewrite (hb_ready _ _ Hm) in Hr; by apply elem_of_nil in Hr].
  apply elem_of_ready. exists b. split; [done|]. apply available_spec. intros p Hp.
  exists (identity (target p)). apply stored_resolve; [apply Hm|by apply IH|by apply Ht].
Qed.

Lemma moves_holds bs m m' :
  (∀ b, stored m b ∨ waiting_block m b ↔ b ∈ bs) → (∀ b, stored m b → supported bs b) →
  mirror_ok m → moves m m' →
  (∀ b, stored m' b ∨ waiting_block m' b ↔ b ∈ bs) ∧ ∀ b, stored m' b → supported bs b.
Proof.
  intros Hall Hsup Hm (b0 & Hb0 & Hp & Hc & Hpd).
  assert (∀ b, stored m' b ↔ b = b0 ∨ stored m b) as Hst.
  { intros b. unfold stored. rewrite (committed_lookup _ _ _ Hc). destruct b, b0; naive_solver. }
  assert (∀ b, waiting_block m' b ↔ b ≠ b0 ∧ waiting_block m b) as Hwt.
  { intros b. unfold waiting_block. rewrite Hpd, lookup_delete_Some. split.
    - intros [Hne Hb]. split; [by intros ->|done].
    - intros [Hne Hb]. split; [|done]. intros E. rewrite <-E, Hb0 in Hb. naive_solver. }
  split.
  - intros b. rewrite <-Hall, Hst, Hwt. destruct (decide (b = b0)) as [->|]; [|tauto].
    split; [intros _; by right|intros _; left; by left].
  - intros b [->|Hb]%Hst; [|by apply Hsup]. apply (available_supported bs m); [|done|by apply available_spec].
    apply Hall. by right.
Qed.
Lemma moves_rtc_holds bs m m' :
  (∀ b, stored m b ∨ waiting_block m b ↔ b ∈ bs) → (∀ b, stored m b → supported bs b) →
  mirror_ok m → rtc moves m m' →
  (∀ b, stored m' b ∨ waiting_block m' b ↔ b ∈ bs) ∧ ∀ b, stored m' b → supported bs b.
Proof.
  intros Hall Hsup Hm H. induction H as [|m m1 m' Hmv _ IH]; [done|].
  destruct (moves_holds _ _ _ Hall Hsup Hm Hmv). apply IH; [done..|by eapply moves_ok].
Qed.
Lemma known_block m i : mirror_ok m → known m i → ∃ b, identity b = i ∧ (stored m b ∨ waiting_block m b).
Proof.
  intros Hm [[c Hc]%elem_of_lace_dom|[b Hb]]; [by exists (mkBlock i c); split; [|left]|].
  destruct (mo_pending _ Hm _ _ Hb) as (<- & _). exists b. split; [done|by right].
Qed.

Lemma ingest_holds bs m b :
  holds_blocks bs m → one_per_identity (b :: bs) → descends (identity b) (content b) →
  ∃ r m', Mirror.ingest m b = Some (r, m') ∧ holds_blocks (b :: bs) m' ∧
    (∃ u, r = Ok u).
Proof.
  intros Hh1 Hone Hd. pose proof (hb_ok _ _ Hh1) as Hm. pose proof (hb_all _ _ Hh1) as Hall.
  destruct (ingest_spec m b Hm Hd) as (r & m' & E & Hi & Hm'). exists r, m'. split; [done|].
  assert (∀ i, known m i → same_consensus_identity i (identity b) → b ∈ bs ∧ i = identity b) as Hin.
  { intros i Hk Hs. destruct (known_block m i Hm Hk) as (b' & <- & Hb'%Hall).
    assert (b' = b) as -> by (apply Hone; [by right|by left|done]). done. }
  assert (bs ⊆ b :: bs) as Hsub by (intros x; by right).
  destruct Hi as [Hk|k Hn Hk Hs|Hun Hav|bl n m' Hun Hav Hc Hmv Hready].
  - assert (b ∈ bs) as Hb.
    { destruct Hk as [[b' Hb']|Hp]; [|by apply (Hin (identity b)); [right|]].
      apply get_Some in Hb' as [(Hb' & Hs & _)%resolve_Some _].
      apply (Hin (identity b')); [by left|done]. }
    split; [|by eexists]. split; [done|apply Hh1| |].
    + intros x. rewrite Hall, elem_of_cons. naive_solver.
    + intros x Hx. by eapply supported_mono, (hb_supported _ _ Hh1).
  - exfalso. apply Hn. destruct (Hin k Hk Hs) as [_ <-]. done.
  - split; [|by eexists]. split; [done| | |].
    + destruct (Mirror.ready_ids _) as [|i l] eqn:El; [done|exfalso].
      assert (i ∈ i :: l) as Hi by by left. rewrite <-El in Hi.
      apply elem_of_ready in Hi as (x & Hx & Hax). cbn [Mirror.pending] in Hx.
      apply lookup_insert_Some in Hx as [[<- <-]|[_ Hx]].
      { change (Mirror.predecessors_available m b = true) in Hax. congruence. }
      assert (i ∈ Mirror.ready_ids m) as Hr by (apply elem_of_ready; by exists x).
      rewrite (hb_ready _ _ Hh1) in Hr. by apply elem_of_nil in Hr.
    + intros x. rewrite elem_of_cons, <-Hall. unfold stored, waiting_block. cbn [Mirror.blocklace Mirror.pending].
      rewrite lookup_insert_Some. split; [naive_solver|].
      intros [->|[Hx|Hx]]; [right; by left|by left|right; right]. split; [|done]. intros Ei.
      apply (Hun (identity x)); [right; by eexists|]. by rewrite Ei.
    + intros x Hx. by eapply supported_mono, (hb_supported _ _ Hh1).
  - set (m1 := Mirror.mk bl (Mirror.pending m)) in *.
    assert (∀ x, stored m1 x ↔ x = b ∨ stored m x) as Hst.
    { intros x. unfold stored. cbn [m1 Mirror.blocklace]. rewrite (committed_lookup _ _ _ Hc).
      destruct x, b; naive_solver. }
    assert (mirror_ok m1) as Hm1.
    { apply (unknown_insert_ok m b); [done..| |done]. eapply committed_ok; [done|apply Hm|done|].
      by apply available_spec. }
    destruct (moves_rtc_holds (b :: bs) m1 m') as [Hall' Hsup']; [| |done..|].
    + intros x. rewrite Hst, elem_of_cons, <-Hall. change (waiting_block m1 x) with (waiting_block m x). tauto.
    + intros x [->|Hx]%Hst; [|by eapply supported_mono, (hb_supported _ _ Hh1)].
      apply (available_supported _ m); [by left| |done].
      intros y Hy. by eapply supported_mono, (hb_supported _ _ Hh1).
    + split; [|by eexists]. by split.
Qed.

Lemma ingest_all_holds done todo m :
  holds_blocks done m → one_per_identity (done ++ todo) →
  (∀ b, b ∈ todo → descends (identity b) (content b)) →
  ∃ m', ingest_all m todo = Some m' ∧ holds_blocks (reverse todo ++ done) m'.
Proof.
  revert done m. induction todo as [|b todo IH]; intros done m Hm Hone Hd; [by exists m|].
  destruct (ingest_holds done m b Hm) as (r & m1 & E & Hm1 & u & ->).
  - intros x y. rewrite !elem_of_cons. intros Hx Hy. apply Hone; rewrite elem_of_app, elem_of_cons; tauto.
  - apply Hd. by left.
  - cbn [ingest_all]. rewrite E. cbn [mbind option_bind fst snd].
    destruct (IH (b :: done) m1 Hm1) as (m' & E' & Hm').
    + intros x y Hx Hy. apply Hone; set_solver.
    + intros x Hx. apply Hd. by right.
    + exists m'. split; [done|]. by rewrite reverse_cons, <-app_assoc.
Qed.
Lemma new_holds address : holds_blocks [] (Mirror.new address).
Proof.
  split.
  - apply (start_ok (BA := {| adapter_state := unit; adapter_error := unit;
      on_block := λ s _, (Ok tt, s) |}) address tt ∅).
  - destruct (Mirror.ready_ids _) as [|i l] eqn:E; [done|]. assert (i ∈ i :: l) as Hi by by left.
    rewrite <-E, elem_of_ready in Hi. destruct Hi as (b & Hb & _). cbn in Hb. by rewrite lookup_empty in Hb.
  - intros b. rewrite elem_of_nil. unfold stored, waiting_block. cbn. rewrite !lookup_empty. naive_solver.
  - intros b. unfold stored. cbn. by rewrite lookup_empty.
Qed.

(** C7: in whatever order and however often blocks with one content per hash and
    creator arrive, the mirror accepts them, and then stores exactly the blocks
    whose whole past arrived and buffers exactly the others. *)
Theorem mirror_is_order_independent address bs :
  one_per_identity bs → (∀ b, b ∈ bs → descends (identity b) (content b)) →
  ∃ m, ingest_all (Mirror.new address) bs = Some m ∧
    (∀ b, stored m b ↔ supported bs b) ∧
    ∀ i b, Mirror.pending m !! i = Some b ↔ i = identity b ∧ b ∈ bs ∧ ¬ supported bs b.
Proof.
  intros Hone Hd. destruct (ingest_all_holds [] bs (Mirror.new address)) as (m & E & Hm);
    [apply new_holds|done|done|]. rewrite app_nil_r in Hm. exists m. split; [done|].
  assert (∀ b, supported (reverse bs) b ↔ supported bs b) as Hrev.
  { intros b. split; apply supported_mono; intros x; by rewrite elem_of_reverse. }
  assert (∀ b, stored m b ↔ supported bs b) as Hst.
  { intros b. rewrite <-Hrev. split; [apply (hb_supported _ _ Hm)|by apply supported_stored]. }
  split; [done|]. intros i b. rewrite <-Hst. pose proof (hb_all _ _ Hm b) as Hall.
  rewrite elem_of_reverse in Hall. split.
  - intros Hb. destruct (mo_pending _ (hb_ok _ _ Hm) _ _ Hb) as (<- & _ & Hf).
    split_and!; [done|apply Hall; by right|]. intros Hs. apply (Hf (identity b)); [|done].
    apply elem_of_lace_dom. by eexists.
  - intros (-> & Hb & Hn). apply Hall in Hb as [|]; done.
Qed.
End mirror.

(** ** The ingress *)

Section ingress.
Context `{HO : HashOrder} `{HB : Blake2b} `{BA : BlocklaceAdapter} `{Hh : Heights}.
Implicit Types self : Ingress.t.

(** C6: in every reachable state without a future epoch a poll returns, and what
    it answers is what the ordering computed from the blocklace and the weights
    alone answers: that order is published if it extends the published one, and
    otherwise refused, with nothing changed.  Fingerprints, the ordering cache
    and the extension of a remembered prefix cannot be observed. *)
Theorem polls_are_full_recomputations self now wl :
  reached self → Ingress.future_epoch self = None →
  ∃ blocks anchor res self',
    Snapshots.try_ordered_block_identities_with_cache (Ingress.blocklace self) (Ingress.bonds self) wl
      Ordering.default_cache ≫= Some ∘ fst = Some (Ok (blocks, anchor)) ∧
    Ingress.latest_finalized_ordered_output self now wl = Some (res, self') ∧
    same_inputs self self' ∧
    let out := output_of self now wl (blocks, anchor) in
    (extends_published self out ∧ (∃ t, res = Ok (OrderedFinalizedOutput.with_timestamp out t)) ∧
       (∀ out', res = Ok out' → Ingress.latest self' = Some out') ∨
     ¬ extends_published self out ∧ res = Err Ingress.OrderedOutputPrefixViolation ∧
       Ingress.latest self' = Ingress.latest self).
Proof.
  intros Hr Hfe. destruct (poll_ok self now wl (reached_ok _ Hr) Hfe)
    as ([blocks anchor] & res & self' & Hf & E & Hs & _ & Hres).
  exists blocks, anchor, res, self'. unfold full_order in Hf.
  split; [by destruct (Snapshots.try_ordered_block_identities_with_cache _ _ _ _)|].
  split; [done|]. split; [done|]. destruct Hres as [(Hex & t & -> & El)|Hno]; [left|by right].
  split; [done|]. split; [by exists t|]. by intros out' [= <-].
Qed.

(** C8: whatever operations run, accepted, rejected or failed, the published
    order is only ever extended. *)
Theorem published_output_only_grows self self' :
  reached self → rtc (λ s s', ∃ op, admissible op ∧ step s op = Some s') self self' →
  publication_grows self self'.
Proof.
  intros Hr%reached_ok H. revert Hr.
  induction H as [self|self self1 self' (op & Ha & Hs) _ IH]; intros Hr.
  - by apply same_publication_grows.
  - destruct (operation_ok _ _ _ Hr Ha Hs) as [Hr1 Hg]. intros out Hout.
    destruct (Hg out Hout) as (out1 & Hout1 & Hp1). destruct (IH Hr1 out1 Hout1) as (out2 & Hout2 & Hp2).
    exists out2. split; [done|by etrans].
Qed.

Lemma checked_weights_projected self state weights :
  Ingress.checked_por_weights self state = Some (Ok weights) →
  Weights.authorized_validator_weights state
    (Snapshots.ordered_validators (Ingress.bonds self)) = Ok weights ∧
  Ingress.check_published self (Snapshots.ordered_validators (Ingress.bonds self)) weights = Some (Ok tt).
Proof.
  unfold Ingress.checked_por_weights. cbn zeta.
  destruct (Weights.authorized_validator_weights _ _) as [w|e]; [|done]. cbn [map_err result_bind].
  assert (∀ u : result unit PorWeightActivationError,
    match (let? _ := u in Ok w) with
    | Ok next_weights =>
      r ← Ingress.check_published self (Snapshots.ordered_validators (Ingress.bonds self)) next_weights;
      Some (let? _ := r in Ok next_weights)
    | Err e => Some (Err e)
    end = Some (Ok weights) → Ok w =@{result _ PorError} Ok weights ∧
    Ingress.check_published self (Snapshots.ordered_validators (Ingress.bonds self)) weights = Some (Ok tt))
    as Hcheck.
  { intros [u|e]; [|done]. cbn [result_bind].
    destruct (Ingress.check_published _ _ w) as [[[]|e]|] eqn:Ec; cbn [mbind option_bind result_bind]; [|done..].
    by intros [= <-]. }
  destruct (ReputationState.latest_block state) as [block|].
  - apply (Hcheck (Ingress.check_source self block)).
  - intros E. apply (Hcheck (bail (MissingReputationCheckpoint (ReputationState.current_round state))
      when ReputationState.current_round state ≠ 0%N; Ok tt)). revert E. by case_decide.
Qed.
Lemma elem_of_ordered_validators (b : gmap NodeId N) v :
  v ∈ Snapshots.ordered_validators b ↔ v ∈ dom b.
Proof.
  unfold Snapshots.ordered_validators, sort. rewrite merge_sort_Permutation, list_elem_of_fmap, elem_of_dom.
  split.
  - intros ([k x] & -> & Hin). exists x. by apply elem_of_map_iter in Hin.
  - intros [x Hx]. exists (v, x). split; [done|]. by apply elem_of_map_iter.
Qed.

Lemma projected_dom state (b weights : gmap NodeId N) :
  Weights.authorized_validator_weights state (Snapshots.ordered_validators b) = Ok weights →
  dom weights = dom b.
Proof.
  intros (_ & Hv & Hl & _)%authorized_weights_are_exact. apply set_eq. intros v.
  rewrite <-(elem_of_ordered_validators b), elem_of_dom, Hl.
  case_decide as Hd; [|by split; [intros []|]]. by split; [|intros _; apply Hv].
Qed.

(** C9: weights that were accepted keep the validators, and never block
    publication: the next poll succeeds and extends what is published. *)
Theorem activation_keeps_publishing self state self' out now :
  reached self → Ingress.latest self = Some out →
  Ingress.apply_por_weights self state = Some (Ok tt, self') →
  dom (Ingress.bonds self') = dom (Ingress.bonds self) ∧
  ∃ out' self'', Ingress.latest_finalized_ordered_output self' now
      (OrderedFinalizedOutput.wavelength out) = Some (Ok out', self'') ∧
    OrderedFinalizedOutput.blocks out `prefix_of` OrderedFinalizedOutput.blocks out'.
Proof.
  intros Hr Hout Ha. pose proof (apply_weights_step _ _ _ _ Ha) as [[_ Hn]|(_ & Hfe & weights & Hw & ->)];
    [by destruct (Hn tt)|].
  pose proof (reached_ok _ Hr) as Hok.
  apply checked_weights_projected in Hw as [Hproj Hpub].
  split; [by apply projected_dom in Hproj|].
  destruct (poll_ok (Ingress.replace_weights self weights) now (OrderedFinalizedOutput.wavelength out))
    as (r & res & self'' & Hf & E & _ & _ & Hres); [by apply replace_weights_ok|exact Hfe|].
  cbn [Ingress.replace_weights Ingress.invalidate_finalized_prefix_reuse Ingress.set_reuse
    Ingress.set_cache Ingress.set_bonds_field Ingress.bonds] in Hf.
  change (full_order (Ingress.blocklace self) weights (OrderedFinalizedOutput.wavelength out) =
    Some (Ok r)) in Hf.
  assert (extends_published (Ingress.replace_weights self weights)
    (output_of (Ingress.replace_weights self weights) now (OrderedFinalizedOutput.wavelength out) r)) as Hex.
  { unfold extends_published. change (Ingress.latest (Ingress.replace_weights self weights)) with (Ingress.latest self).
    rewrite Hout. unfold Ingress.check_published in Hpub. rewrite Hout in Hpub.
    destruct (Ingress.check_leader _ _ _ _); [|done]. unfold Ingress.check_order in Hpub.
    unfold full_order in Hf.
    destruct (Snapshots.try_ordered_block_identities_with_cache _ _ _ _) as [[r' c']|]; [|done].
    cbn [fmap option_fmap option_map fst] in Hf. injection Hf as ->.
    cbn [mbind option_bind map_err result_bind fst] in Hpub. revert Hpub. case_decide as Hpre; [done|].
    intros _. exact Hpre. }
  destruct Hres as [(_ & t & -> & _)|[Hno _]]; [|done].
  eexists _, self''. split; [exact E|]. unfold extends_published in Hex.
  change (Ingress.latest (Ingress.replace_weights self weights)) with (Ingress.latest self) in Hex.
  by rewrite Hout in Hex.
Qed.

(** An application of weights returns. *)
Lemma apply_weights_total self state :
  ingress_ok self → is_Some (Ingress.apply_por_weights self state).
Proof.
  intros Hok. pose proof (io_lace _ Hok) as Hl. unfold Ingress.apply_por_weights. case_decide; [done|].
  assert (∀ authorized weights, is_Some (Ingress.check_published self authorized weights)) as Hpub.
  { intros authorized weights. unfold Ingress.check_published. destruct (Ingress.latest self) as [out|]; [|done].
    destruct (Ingress.check_leader self authorized weights out); [|done]. unfold Ingress.check_order.
    by destruct (try_ordered_spec _ (lo_acyclic _ Hl) (lo_unique _ Hl) (lo_checkpoint _ Hl)
      (OrderedFinalizedOutput.wavelength out) weights _ (default_cache_ok _)) as (r & c' & -> & _). }
  assert (is_Some (Ingress.checked_por_weights self state)) as [[weights|e] ->]; [|done..].
  unfold Ingress.checked_por_weights. cbn zeta.
  match goal with |- context [match ?x with Ok _ => _ | Err _ => _ end] => destruct x as [weights|e] end; [|done].
  by destruct (Hpub (Snapshots.ordered_validators (Ingress.bonds self)) weights) as [r ->].
Qed.

(** C39: the published anchor has lost its signature, and the leader it is
    compared with has not: when blocks are signed and a leader is published, no
    reputation is accepted as weights for two or more validators, not even one
    that leaves the weights as they are. *)
Theorem signed_leaders_block_activation self state out anchor :
  reached self → Ingress.latest self = Some out → OrderedFinalizedOutput.anchor out = Some anchor →
  1 < size (Ingress.bonds self) →
  (∀ i, i ∈ Blocklace.dom (Ingress.blocklace self) → signature i ≠ []) →
  ∃ e, Ingress.apply_por_weights self state = Some (Err e, self).
Proof.
  intros Hr Hout Ha Hsize Hsigned. pose proof (reached_ok _ Hr) as Hok.
  destruct (apply_weights_total self state Hok) as [[res self'] Happly]. rewrite Happly.
  apply apply_weights_step in Happly as [[-> Hn]|(_ & Hfe & weights & Hw & _)].
  { destruct res as [u|e]; [by destruct (Hn u)|by exists e]. }
  exfalso.
  apply checked_weights_projected in Hw as [Hproj Hpub].
  assert (size weights = size (Ingress.bonds self)) as Hsz.
  { apply projected_dom in Hproj. by rewrite <-!(size_dom (D := gset NodeId)), Hproj. }
  assert (signature anchor = []) as Hsig.
  { pose proof (io_published _ Hok Hfe) as Hp. unfold published_ok in Hp.
    destruct (Ingress.last_finalized_output_fingerprint self); [|destruct Hp; congruence].
    destruct Hp as (bl0 & b0 & out' & Hl & (r & n & _ & _ & _ & ->) & _). rewrite Hout in Hl. injection Hl as ->.
    cbn [OrderedFinalizedOutput.anchor OrderedFinalizedOutput.new] in Ha.
    destruct r.2; [|done]. by injection Ha as <-. }
  unfold Ingress.check_published, Ingress.check_leader in Hpub. rewrite Hout, Ha in Hpub.
  rewrite decide_True in Hpub by lia. cbn zeta in Hpub.
  destruct (Ingress.published_wave _ _ _) as [wave|e]; [|done]. cbn [result_bind] in Hpub.
  case_decide as Hl; [done|]. assert (Finality.weighted_final_leader_for_wave (Ingress.blocklace self) wave
    (OrderedFinalizedOutput.wavelength out) weights
    (Snapshots.leader_of_wave (Snapshots.ordered_validators (Ingress.bonds self))) = Some anchor) as Hf
    by exact Hl.
  unfold Finality.weighted_final_leader_for_wave in Hf.
  destruct (Finality.leader_block_for_wave _ _ _ _) as [l|] eqn:El; [|done]. cbn [mbind option_bind] in Hf.
  destruct (Finality.is_weighted_final_leader _ _ _ _ _); [|done]. injection Hf as ->.
  apply leader_block_stored in El; [|by apply lo_acyclic, io_lace]. by apply (Hsigned anchor).
Qed.
End ingress.

(** ** Instances *)

Module LiveSample.
#[export] Existing Instance elements_order.
#[export] Instance hash : Blake2b := λ _, vreplicate 32 x00.
(** [PassthroughAdapter]. *)
#[export] Instance adapter : BlocklaceAdapter :=
  {| adapter_state := unit; adapter_error := unit; on_block := λ s _, (Ok tt, s) |}.
(** The hashes of the samples count upwards. *)
#[export, program] Instance heights : Heights :=
  {| height i := N.to_nat (Byte.to_N (hd x00 (vec_to_list (content_hash i)))) |}.
Next Obligation. done. Qed.

Definition n1 := sample_block x01 x0a x01 [].
Definition n2 := sample_block x02 x0b x02 [identity n1].
Definition n3 := sample_block x03 x0a x03 [identity n2].
Definition n5 := sample_block x05 x0b x05 [sample_id x04 x0a x04].

(** The blocks arrive in a bad order, one of them twice and one too soon. *)
Definition arrivals : list Block := [n3; n5; n1; n2; n1].

Definition identity_check (bs : list Block) : bool :=
  forallb (λ b, forallb (λ b', bool_decide
    (same_consensus_identity (identity b) (identity b') → b = b')) bs) bs.
Lemma identity_check_sound bs : identity_check bs = true → one_per_identity bs.
Proof.
  unfold identity_check. rewrite forallb_true. intros H b b' Hb Hb'.
  specialize (H b Hb). rewrite forallb_true in H. specialize (H b' Hb').
  by apply bool_decide_eq_true in H.
Qed.
Definition descends_check (b : Block) : bool :=
  forallb (λ p, bool_decide (height p < height (identity b))) (elements (predecessors (content b))).
Lemma descends_check_sound b : descends_check b = true → descends (identity b) (content b).
Proof.
  unfold descends_check. rewrite forallb_true. intros H p Hp.
  apply elem_of_elements, H in Hp. by apply bool_decide_eq_true in Hp.
Qed.

Definition admissible_check (op : operation) : bool :=
  match op with IngestTrusted b | IngestWindow b => descends_check b | _ => true end.
Lemma admissible_check_sound ops : forallb admissible_check ops = true → Forall admissible ops.
Proof.
  rewrite forallb_true, Forall_forall. intros H op Hop. specialize (H op Hop).
  destruct op; try done; by apply descends_check_sound.
Qed.

Fixpoint run (self : Ingress.t) (ops : list operation) : option Ingress.t :=
  match ops with [] => Some self | op :: ops => self ← step self op; run self ops end.
Lemma run_reached self ops self' :
  reached self → Forall admissible ops → run self ops = Some self' →
  reached self' ∧ rtc (λ s s', ∃ op, admissible op ∧ step s op = Some s') self self'.
Proof.
  intros Hr Hops. revert self Hr. induction Hops as [|op ops Ha Hops IH]; intros self Hr E.
  - injection E as <-. by split.
  - cbn [run] in E. destruct (step self op) as [self1|] eqn:Es; [|done]. cbn [mbind option_bind] in E.
    destruct (IH self1) as [? ?]; [by eapply reached_step|done|]. split; [done|]. eapply rtc_l; [|done]. by exists op.
Qed.

(** Two validators, a published leader, and later blocks. *)
Definition weights : gmap NodeId N := {[ [x0a] := 100%N; [x0b] := 10%N ]}.
Definition start : Ingress.t := Ingress.with_consensus_view 7 tt weights.
Definition polled_ops : list operation := [IngestTrusted n1; Poll 5 1].
Definition grown_ops : list operation := [IngestTrusted n2; IngestTrusted n3].
Definition polled : Ingress.t := default start (run start polled_ops).
Definition extended : Ingress.t := default start (run polled grown_ops).

Lemma default_run self ops : bool_decide (is_Some (run self ops)) = true →
  run self ops = Some (default start (run self ops)).
Proof. intros [s ->]%bool_decide_eq_true. done. Qed.
Lemma polled_run : run start polled_ops = Some polled.
Proof. apply default_run. vm_compute. reflexivity. Qed.
Lemma extended_run : run polled grown_ops = Some extended.
Proof. apply default_run. vm_compute. reflexivity. Qed.
Lemma polled_reached : reached polled.
Proof.
  eapply run_reached; [apply reached_start| |apply polled_run].
  apply admissible_check_sound. vm_compute. reflexivity.
Qed.
Lemma grown_admissible : Forall admissible grown_ops.
Proof. apply admissible_check_sound. vm_compute. reflexivity. Qed.
Lemma extended_reached : reached extended.
Proof. by apply (run_reached polled grown_ops); [apply polled_reached|apply grown_admissible|apply extended_run]. Qed.

(** The reputations that are the weights. *)
Definition state : ReputationState.t :=
  ReputationState.set_reputation (ReputationState.set_reputation (ReputationState.new 0) [x0a] 100)
    [x0b] 10.

(** One validator. *)
Definition sole_ops : list operation := [IngestTrusted n1; Poll 5 1].
Definition sole_start : Ingress.t := Ingress.with_consensus_view 7 tt {[ [x0a] := 100%N ]}.
Definition sole : Ingress.t := default start (run sole_start sole_ops).
Lemma sole_reached : reached sole.
Proof.
  eapply run_reached; [apply reached_start| |].
  2:{ apply default_run. vm_compute. reflexivity. }
  apply admissible_check_sound. vm_compute. reflexivity.
Qed.
Definition sole_activated : Ingress.t :=
  default start (snd <$> Ingress.apply_por_weights sole state).
End LiveSample.

Section witnesses.
Import LiveSample.

Definition is_some {A} (o : option A) : bool := match o with Some _ => true | None => false end.
Lemma is_some_sound {A} (o : option A) : is_some o = true → is_Some o.
Proof. by destruct o; [eexists|]. Qed.

Lemma mirror_is_order_independent_witness :
  ∃ m, ingest_all (Mirror.new 0) arrivals = Some m ∧
    (∀ b, stored m b ↔ supported arrivals b) ∧
    ∀ i b, Mirror.pending m !! i = Some b ↔ i = identity b ∧ b ∈ arrivals ∧ ¬ supported arrivals b.
Proof.
  apply (mirror_is_order_independent 0 arrivals).
  - apply identity_check_sound. vm_compute. reflexivity.
  - intros b Hb. apply descends_check_sound.
    assert (forallb descends_check arrivals = true) as H by (vm_compute; reflexivity).
    rewrite forallb_true in H. by apply H.
Defined.

Lemma polls_are_full_recomputations_witness :
  ∃ blocks anchor res self',
    Snapshots.try_ordered_block_identities_with_cache (Ingress.blocklace extended)
      (Ingress.bonds extended) 1 Ordering.default_cache ≫= Some ∘ fst = Some (Ok (blocks, anchor)) ∧
    Ingress.latest_finalized_ordered_output extended 9 1 = Some (res, self').
Proof.
  destruct (polls_are_full_recomputations extended 9 1) as (blocks & anchor & res & self' & H1 & H2 & _).
  - apply extended_reached.
  - vm_compute. reflexivity.
  - exists blocks, anchor, res, self'. split; [exact H1|exact H2].
Defined.

Lemma published_output_only_grows_witness : publication_grows polled extended.
Proof.
  apply published_output_only_grows; [apply polled_reached|].
  by apply (run_reached polled grown_ops); [apply polled_reached|apply grown_admissible|apply extended_run].
Defined.

Lemma activation_keeps_publishing_witness :
  ∃ out out' self'', Ingress.latest sole = Some out ∧
    Ingress.latest_finalized_ordered_output sole_activated 9 (OrderedFinalizedOutput.wavelength out) =
      Some (Ok out', self'') ∧
    OrderedFinalizedOutput.blocks out `prefix_of` OrderedFinalizedOutput.blocks out'.
Proof.
  assert (is_Some (Ingress.latest sole)) as [out Hout].
  { apply is_some_sound. vm_compute. reflexivity. }
  assert (Ingress.apply_por_weights sole state = Some (Ok tt, sole_activated)) as Ha.
  { unfold sole_activated. assert (match Ingress.apply_por_weights sole state with
      | Some (Ok _, _) => true | _ => false end = true) as H by (vm_compute; reflexivity).
    revert H. generalize (Ingress.apply_por_weights sole state). by intros [[[[]|] ?]|]. }
  destruct (activation_keeps_publishing sole state sole_activated out 9 sole_reached Hout Ha)
    as (_ & out' & self'' & E & Hp).
  exists out, out', self''. split; [exact Hout|]. split; [exact E|exact Hp].
Defined.

Lemma signed_leaders_block_activation_witness :
  ∃ e, Ingress.apply_por_weights polled state = Some (Err e, polled).
Proof.
  assert (is_Some (Ingress.latest polled)) as [out Hout].
  { apply is_some_sound. vm_compute. reflexivity. }
  assert (is_Some (Ingress.latest polled ≫= OrderedFinalizedOutput.anchor)) as [anchor Ha].
  { apply is_some_sound. vm_compute. reflexivity. }
  rewrite Hout in Ha. cbn [mbind option_bind] in Ha.
  apply (signed_leaders_block_activation polled state out anchor).
  - apply polled_reached.
  - exact Hout.
  - exact Ha.
  - apply Nat.ltb_lt. vm_compute. reflexivity.
  - assert (forallb (λ i, bool_decide (signature i ≠ []))
      (elements (Blocklace.dom (Ingress.blocklace polled))) = true) as H by (vm_compute; reflexivity).
    rewrite forallb_true in H. intros i Hi. apply elem_of_elements, H in Hi. by apply bool_decide_eq_true in Hi.
Defined.
End witnesses.
