(* ===== verification/App.v ===== *)
(** * Applications over the finalized order

    [app_event_envelope.rs], [app_event_block_scan.rs], [app_event_extractor.rs]
    and [app_event_extraction_pipeline.rs] of cordial-f1r3node-adapter, with the
    block messages of [block_translation.rs] they read, and the crate
    cordial-app-runtime: application events are found in the deploys of
    finalized blocks and handed to the applications in the finalized order. *)

From S2P Require Import Prelude Types Lace Bytes Crypto Runtime PorTypes FinalOutput.
From S2P Require Import Authorization.
From stdpp Require Import options.

(** A [String] is its bytes, unless it is only a message. *)

(** ** The crate cordial-app-runtime *)

(** [event.rs], [error.rs] and [receipt.rs]. *)
Definition AppId : Type := list byte.
Definition AppEventId : Type := list byte.

Record AppEvent := mkAppEvent {
  event_id : AppEventId;
  event_app : AppId;
  event_type : list byte;
  event_payload : list byte;
  event_submitter : list byte;
  ordered_index : N;
  event_block_hash : list byte;
  event_deploy_signature : option (list byte);
  finalized_anchor : list byte
}.

Record AppCursor := mkAppCursor {
  cursor_anchor : list byte;
  cursor_index : N
}.

Record AppSnapshot := mkAppSnapshot {
  snapshot_app : AppId;
  snapshot_cursor : option AppCursor;
  snapshot_root : option (list byte);
  snapshot_payload : list byte
}.

Inductive AppError :=
  | UnknownApp (app_id : AppId)
  | DuplicateEvent (event_id : AppEventId)
  | ValidationRejected (message : string)
  | ApplyFailed (message : string).

Inductive AppReceiptStatus := Applied | Rejected.

Record AppReceipt := mkAppReceipt {
  receipt_app : AppId;
  receipt_event : AppEventId;
  receipt_index : N;
  status : AppReceiptStatus;
  receipt_root : option (list byte);
  receipt_message : option string
}.

(** [CordialApp].  [app_state] is the sum of the states of all applications. *)
Class CordialApp := {
  app_state : Type;
  app_id : app_state → AppId;
  validate : app_state → AppEvent → result unit AppError;
  apply : app_state → AppEvent → result AppReceipt AppError * app_state;
  app_snapshot : app_state → AppSnapshot
}.

Module AppRuntime.

Section runtime.
Context `{CA : CordialApp} `{Display AppError}.

Record t := mk {
  apps : gmap AppId app_state;
  processed_event_ids : gset AppEventId;
  receipts_by_id : gmap AppEventId AppReceipt;
  receipt_order : list AppEventId;
  cursor : option AppCursor
}.
Implicit Types self : t.

Definition new : t := mk ∅ ∅ ∅ [] None.

Definition set_apps self apps : t :=
  mk apps (processed_event_ids self) (receipts_by_id self) (receipt_order self) (cursor self).

(** The replaced application is returned. *)
Definition register_app self (app : app_state) : option app_state * t :=
  (apps self !! app_id app, set_apps self (<[app_id app := app]> (apps self))).
Definition app_count self : nat := size (apps self).
Definition is_empty self : bool := bool_decide (apps self = ∅).

Definition validation_rejection_message (error : AppError) : string :=
  match error with
  | ValidationRejected message => message
  | error => to_string error
  end.

Definition record_processed_event self (event : AppEvent) (receipt : AppReceipt) : t :=
  mk (apps self) ({[event_id event]} ∪ processed_event_ids self)
    (<[event_id event := receipt]> (receipts_by_id self))
    (receipt_order self ++ [event_id event])
    (Some (mkAppCursor (finalized_anchor event) (ordered_index event))).

Definition receipt_of (event : AppEvent) (status : AppReceiptStatus) (root : option (list byte))
    (message : option string) : AppReceipt :=
  mkAppReceipt (event_app event) (event_id event) (ordered_index event) status root message.

(** The receipt of an application for a new event, and its new state. *)
Definition deliver (app : app_state) (event : AppEvent) : result AppReceipt AppError * app_state :=
  match validate app event with
  | Ok _ =>
    let '(applied, app) := apply app event in
    (let? receipt := applied in
     Ok (receipt_of event Applied (receipt_root receipt) (receipt_message receipt)), app)
  | Err error =>
    (Ok (receipt_of event Rejected (snapshot_root (app_snapshot app))
       (Some (validation_rejection_message error))), app)
  end.

(** A failed application keeps what it did before it failed. *)
Definition process_event self (event : AppEvent) : result AppReceipt AppError * t :=
  if decide (event_id event ∈ processed_event_ids self)
  then (Err (DuplicateEvent (event_id event)), self)
  else
    match apps self !! event_app event with
    | None => (Err (UnknownApp (event_app event)), self)
    | Some app =>
      let '(receipt, app) := deliver app event in
      let self := set_apps self (<[event_app event := app]> (apps self)) in
      match receipt with
      | Err e => (Err e, self)
      | Ok receipt => (Ok receipt, record_processed_event self event receipt)
      end
    end.

Fixpoint process_events self (events : list AppEvent) : list (result AppReceipt AppError) * t :=
  match events with
  | [] => ([], self)
  | event :: events =>
    let '(result, self) := process_event self event in
    let '(results, self) := process_events self events in
    (result :: results, self)
  end.

Definition receipt self (id : AppEventId) : option AppReceipt := receipts_by_id self !! id.
Definition receipts self : list AppReceipt :=
  omap (λ id, receipts_by_id self !! id) (receipt_order self).
Definition snapshot self (id : AppId) : result AppSnapshot AppError :=
  ok_or (app_snapshot <$> apps self !! id) (UnknownApp id).
Definition snapshots self : list AppSnapshot :=
  (λ e, app_snapshot e.2) <$> btree_map_iter (apps self).

End runtime.
End AppRuntime.

(** ** [app_event_extractor.rs] *)

(** [hex], which writes bytes as text. *)
Class HexCrate := {
  hex_encode : list byte → list byte;
  hex_decode : list byte → result (list byte) string
}.

Record ExtractableAppDeploy := mkExtractable {
  deploy_app : AppId;
  deploy_event_type : list byte;
  deploy_payload : list byte;
  deploy_submitter : list byte;
  deploy_signature_of : option (list byte)
}.

Module AppEventExtractor.

Record AppEventExtractionInput := mkInput {
  ordered_output : OrderedFinalizedOutput.t;
  deploys_by_block_hash : gmap (list byte) (list ExtractableAppDeploy);
  starting_ordered_index : N
}.

Inductive AppEventExtractionError :=
  | MissingFinalizedBlockDeploys (block_hash : list byte)
  | OrderedIndexOverflow (starting_ordered_index : N) (emitted_count : nat).

Definition put_u64 (value : N) : list byte := Crypto.le64 value.
Definition put_bytes (value : list byte) : list byte :=
  put_u64 (N.of_nat (length value) mod 2 ^ 64) ++ value.
Definition put_optional_bytes (value : option (list byte)) : list byte :=
  match value with Some bytes => [x01] ++ put_bytes bytes | None => [x00] end.

Section extract.
Context `{Sha256} `{HexCrate}.

Definition event_bytes (block_hash : list byte) (deploy_index : nat)
    (deploy : ExtractableAppDeploy) : list byte :=
  put_bytes (literal "cordial-app-event:v1") ++ put_bytes block_hash ++
  put_u64 (N.of_nat deploy_index mod 2 ^ 64) ++ put_bytes (deploy_app deploy) ++
  put_bytes (deploy_event_type deploy) ++ put_bytes (deploy_payload deploy) ++
  put_bytes (deploy_submitter deploy) ++ put_optional_bytes (deploy_signature_of deploy).
Definition event_id_for (block_hash : list byte) (deploy_index : nat)
    (deploy : ExtractableAppDeploy) : AppEventId :=
  hex_encode (sha256 (event_bytes block_hash deploy_index deploy)).

Definition next_ordered_index (starting_ordered_index : N) (emitted_count : nat) :
    result N AppEventExtractionError :=
  ok_or (checked_add u64_max starting_ordered_index (N.of_nat emitted_count))
    (OrderedIndexOverflow starting_ordered_index emitted_count).

Definition event_of (finalized_anchor block_hash : list byte) (deploy_index : nat)
    (deploy : ExtractableAppDeploy) (ordered_index : N) : AppEvent :=
  mkAppEvent (event_id_for block_hash deploy_index deploy) (deploy_app deploy)
    (deploy_event_type deploy) (deploy_payload deploy) (deploy_submitter deploy) ordered_index
    block_hash (deploy_signature_of deploy) finalized_anchor.

(** The inner loop, from the deploy at [deploy_index] on. *)
Fixpoint extract_deploys (start : N) (anchor block_hash : list byte) (deploy_index : nat)
    (deploys : list ExtractableAppDeploy) (events : list AppEvent) :
    result (list AppEvent) AppEventExtractionError :=
  match deploys with
  | [] => Ok events
  | deploy :: deploys =>
    let? ordered_index := next_ordered_index start (length events) in
    extract_deploys start anchor block_hash (S deploy_index) deploys
      (events ++ [event_of anchor block_hash deploy_index deploy ordered_index])
  end.

Fixpoint extract_blocks (start : N) (anchor : list byte)
    (table : gmap (list byte) (list ExtractableAppDeploy)) (blocks : list BlockIdentity)
    (events : list AppEvent) : result (list AppEvent) AppEventExtractionError :=
  match blocks with
  | [] => Ok events
  | block :: blocks =>
    let block_hash := vec_to_list (content_hash block) in
    let? deploys := ok_or (table !! block_hash) (MissingFinalizedBlockDeploys block_hash) in
    let? events := extract_deploys start anchor block_hash 0 deploys events in
    extract_blocks start anchor table blocks events
  end.

Definition extract_app_events (input : AppEventExtractionInput) :
    result (list AppEvent) AppEventExtractionError :=
  extract_blocks (starting_ordered_index input)
    (default [] (OrderedFinalizedOutput.anchor_hash (ordered_output input)))
    (deploys_by_block_hash input) (OrderedFinalizedOutput.blocks (ordered_output input)) [].

End extract.
End AppEventExtractor.

(** ** Block messages, of [block_translation.rs] *)

Module BlockTranslation.

Record Header := mkHeader {
  parents_hash_list : list (list byte);
  header_timestamp : Z;
  header_version : Z;
  header_extra_bytes : list byte
}.
Record Bond := mkBond { bond_validator : list byte; stake : Z }.
Record F1r3flyState := mkState {
  pre_state_hash : list byte;
  post_state_hash : list byte;
  state_bonds : list Bond;
  state_block_number : Z
}.
Record Justification := mkJustification {
  justification_validator : list byte;
  latest_block_hash : list byte
}.
Record DeployData := mkDeployData {
  term : list byte;
  time_stamp : Z;
  phlo_price : Z;
  phlo_limit : Z;
  valid_after_block_number : Z;
  deploy_shard_id : list byte;
  expiration_timestamp : option Z
}.
Record SignedDeployData := mkSignedDeploy {
  data : DeployData;
  pk : list byte;
  deploy_sig : list byte;
  deploy_sig_algorithm : list byte
}.
Record ProcessedDeploy := mkProcessed {
  deploy : SignedDeployData;
  cost : Z;
  deploy_log : list byte;
  is_failed : bool;
  system_deploy_error : option (list byte)
}.
Record RejectedDeploy := mkRejected { rejected_sig : list byte }.
Inductive ProcessedSystemDeploy :=
  | Slash (validator : list byte) (succeeded : bool)
  | CloseBlock (succeeded : bool).
Record Body := mkBody {
  state : F1r3flyState;
  deploys : list ProcessedDeploy;
  rejected_deploys : list RejectedDeploy;
  system_deploys : list ProcessedSystemDeploy;
  body_extra_bytes : list byte
}.
Record BlockMessage := mkMessage {
  block_hash : list byte;
  header : Header;
  body : Body;
  justifications : list Justification;
  sender : list byte;
  seq_num : Z;
  sig : list byte;
  sig_algorithm : list byte;
  shard_id : list byte;
  extra_bytes : list byte
}.

End BlockTranslation.

(** ** [app_event_envelope.rs] *)

Module AppEventEnvelope.
Import BlockTranslation.

Record CordialAppEnvelope := mkEnvelope {
  envelope_version : N;
  envelope_app : list byte;
  envelope_event_type : list byte;
  payload_hex : list byte
}.

(** [serde_json]: reading a text as a value, the field of a value, and reading
    a value as an envelope, which the derived [Deserialize] does.  The errors
    are texts. *)
Class SerdeJson := {
  json_value : Type;
  from_str : list byte → result json_value string;
  get : json_value → list byte → option json_value;
  from_value : json_value → result CordialAppEnvelope string
}.

Definition ENVELOPE_FIELD : list byte := literal "cordial_app".
Definition SUPPORTED_VERSION : N := 1.

Inductive AppEventEnvelopeError :=
  | InvalidJson (message : string)
  | InvalidEnvelope (message : string)
  | UnsupportedVersion (version : N)
  | InvalidPayloadHex (message : string).

(** The encodings of the characters with the property [White_Space]. *)
Definition whitespace : list (list byte) :=
  ((λ b, [b]) <$> [x09; x0a; x0b; x0c; x0d; x20]) ++
  [[xc2; x85]; [xc2; xa0]; [xe1; x9a; x80]] ++
  ((λ b, [xe2; x80; b]) <$> [x80; x81; x82; x83; x84; x85; x86; x87; x88; x89; x8a; xa8; xa9; xaf]) ++
  [[xe2; x81; x9f]; [xe3; x80; x80]].

Definition strip (text : list byte) : option (list byte) :=
  c ← head (filter (λ c, c `prefix_of` text) whitespace); Some (drop (length c) text).
Fixpoint trim_start_loop (fuel : nat) (text : list byte) : list byte :=
  match fuel with
  | O => text
  | S fuel =>
    match strip text with
    | Some text => trim_start_loop fuel text
    | None => text
    end
  end.
(** [str::trim_start]: every step removes a byte. *)
Definition trim_start (text : list byte) : list byte := trim_start_loop (length text) text.

Section envelope.
Context `{SerdeJson} `{HexCrate}.

Definition parse_app_deploy_envelope (deploy : SignedDeployData) :
    result (option ExtractableAppDeploy) AppEventEnvelopeError :=
  match from_str (term (data deploy)) with
  | Err err =>
    if decide (head (trim_start (term (data deploy))) = Some x7b)
    then Err (InvalidJson err) else Ok None
  | Ok value =>
    match get value ENVELOPE_FIELD with
    | None => Ok None
    | Some envelope_value =>
      let? envelope := map_err InvalidEnvelope (from_value envelope_value) in
      bail (UnsupportedVersion (envelope_version envelope))
        when envelope_version envelope ≠ SUPPORTED_VERSION;
      let? payload := map_err InvalidPayloadHex (hex_decode (payload_hex envelope)) in
      Ok (Some (mkExtractable (envelope_app envelope) (envelope_event_type envelope) payload
        (pk deploy) (Some (deploy_sig deploy))))
    end
  end.

End envelope.
End AppEventEnvelope.

(** ** [app_event_block_scan.rs] *)

Module AppEventBlockScan.
Import BlockTranslation AppEventEnvelope.

Record AppEventEnvelopeScanError := mkScanError {
  error_block_hash : list byte;
  error_deploy_index : nat;
  error_source : AppEventEnvelopeError
}.
Record t := mk {
  deploys_by_block_hash : gmap (list byte) (list ExtractableAppDeploy);
  envelope_errors : list AppEventEnvelopeScanError
}.
Inductive AppEventBlockScanError := DuplicateBlockHash (block_hash : list byte).

Section scan.
Context `{SerdeJson} `{HexCrate}.

(** The inner loop, from the deploy at [deploy_index] on. *)
Fixpoint scan_deploys (block_hash : list byte) (deploy_index : nat)
    (deploys : list ProcessedDeploy) (app_deploys : list ExtractableAppDeploy)
    (errors : list AppEventEnvelopeScanError) :
    list ExtractableAppDeploy * list AppEventEnvelopeScanError :=
  match deploys with
  | [] => (app_deploys, errors)
  | processed_deploy :: deploys =>
    match parse_app_deploy_envelope (deploy processed_deploy) with
    | Ok (Some app_deploy) =>
      scan_deploys block_hash (S deploy_index) deploys (app_deploys ++ [app_deploy]) errors
    | Ok None => scan_deploys block_hash (S deploy_index) deploys app_deploys errors
    | Err source =>
      scan_deploys block_hash (S deploy_index) deploys app_deploys
        (errors ++ [mkScanError block_hash deploy_index source])
    end
  end.

Fixpoint scan_blocks (blocks : list BlockMessage) (seen_block_hashes : gset (list byte))
    (acc : t) : result t AppEventBlockScanError :=
  match blocks with
  | [] => Ok acc
  | block :: blocks =>
    bail (DuplicateBlockHash (block_hash block)) when block_hash block ∈ seen_block_hashes;
    let r := scan_deploys (block_hash block) 0 (deploys (body block)) [] (envelope_errors acc) in
    scan_blocks blocks ({[block_hash block]} ∪ seen_block_hashes)
      (mk (<[block_hash block := r.1]> (deploys_by_block_hash acc)) r.2)
  end.

Definition scan_app_deploys_by_block_hash (blocks : list BlockMessage) :
    result t AppEventBlockScanError :=
  scan_blocks blocks ∅ (mk ∅ []).

End scan.
End AppEventBlockScan.

(** ** [app_event_extraction_pipeline.rs] *)

Module AppEventPipeline.
Import BlockTranslation AppEventEnvelope AppEventExtractor.

Record AppEventExtraction := mkExtraction {
  events : list AppEvent;
  envelope_errors : list AppEventBlockScan.AppEventEnvelopeScanError
}.
Inductive AppEventExtractionPipelineError :=
  | BlockScan (error : AppEventBlockScan.AppEventBlockScanError)
  | Extraction (error : AppEventExtractionError).

Definition extract_app_events_from_blocks `{SerdeJson} `{HexCrate} `{Sha256}
    (ordered_output : OrderedFinalizedOutput.t) (blocks : list BlockMessage)
    (starting_ordered_index : N) : result AppEventExtraction AppEventExtractionPipelineError :=
  let? scan := map_err BlockScan (AppEventBlockScan.scan_app_deploys_by_block_hash blocks) in
  let? events := map_err Extraction (extract_app_events (mkInput ordered_output
    (AppEventBlockScan.deploys_by_block_hash scan) starting_ordered_index)) in
  Ok (mkExtraction events (AppEventBlockScan.envelope_errors scan)).

End AppEventPipeline.
