(* ===== verification/AppTheorems.v ===== *)
(** * Theorems: applications over the finalized order

    However the finalized output is polled while it grows, every application
    sees its events once and in the finalized order. *)

From S2P Require Import Prelude Types Lace Bytes Crypto Samples Runtime PorTypes FinalOutput.
From S2P Require Import Admission AdmissionFacts Authorization App.
From stdpp Require Import options.

Import AppRuntime AppEventExtractor.

(** ** Events up to the anchor of their poll *)

Definition unanchored (e : AppEvent) : AppEvent :=
  mkAppEvent (event_id e) (event_app e) (event_type e) (event_payload e) (event_submitter e)
    (ordered_index e) (event_block_hash e) (event_deploy_signature e) [].
Definition same_event (e e' : AppEvent) : Prop := unanchored e = unanchored e'.

#[export] Instance same_event_equivalence : Equivalence same_event.
Proof. split; repeat intro; unfold same_event in *; congruence. Qed.
Lemma same_event_id e e' : same_event e e' → event_id e = event_id e'.
Proof. by intros [=]. Qed.
Lemma same_event_app e e' : same_event e e' → event_app e = event_app e'.
Proof. by intros [=]. Qed.
Lemma same_event_index e e' : same_event e e' → ordered_index e = ordered_index e'.
Proof. by intros [=]. Qed.

(** Applications that do not act on the anchor of a poll, as states that differ
    in it only. *)
Class AnchorBlind `{CordialApp} := {
  app_sim : relation app_state;
  app_sim_equivalence :: Equivalence app_sim;
  validate_sim s s' e e' : app_sim s s' → same_event e e' → validate s e = validate s' e';
  apply_sim s s' e e' : app_sim s s' → same_event e e' → app_sim (apply s e).2 (apply s' e').2;
  apply_ok_sim s s' e e' : app_sim s s' → same_event e e' →
    is_ok (apply s e).1 = is_ok (apply s' e').1
}.

(** ** The specification *)

(** What an event does to an application. *)
Definition play `{CordialApp} (s : app_state) (e : AppEvent) : app_state :=
  match validate s e with Ok _ => (apply s e).2 | Err _ => s end.

(** No event that the application validates fails to apply when they are
    replayed one after the other. *)
Fixpoint applies `{CordialApp} (s : app_state) (events : list AppEvent) : Prop :=
  match events with
  | [] => True
  | e :: events =>
    (is_ok (validate s e) = true → is_ok (apply s e).1 = true) ∧ applies (play s e) events
  end.
Lemma applies_at `{CordialApp} s l e k :
  applies s (l ++ e :: k) → is_ok (validate (foldl play s l) e) = true →
  is_ok (apply (foldl play s l) e).1 = true.
Proof. revert s. induction l as [|x l IH]; intros s; [by intros [H0 _]|]. intros [_ Ha]. by apply IH. Qed.

(** A poll: the output and the messages of its blocks. *)
Abbreviation poll := (OrderedFinalizedOutput.t * list BlockTranslation.BlockMessage)%type.

Section apps.
Context `{CA : CordialApp} `{Display AppError}.
Implicit Types (r : AppRuntime.t) (e : AppEvent).

(** Registers the applications with a new runtime. *)
Definition registered (apps : list app_state) : AppRuntime.t :=
  foldl (λ r app, (register_app r app).2) new apps.

Section follow.
Context `{AppEventEnvelope.SerdeJson} `{HexCrate} `{Sha256}.

(** Hands the events of every poll to the runtime; a poll whose extraction
    fails hands over nothing. *)
Definition handle (start : N) r (p : poll) : AppRuntime.t :=
  match AppEventPipeline.extract_app_events_from_blocks p.1 p.2 start with
  | Ok extraction => (process_events r (AppEventPipeline.events extraction)).2
  | Err _ => r
  end.
Definition follow r (start : N) (polls : list poll) : AppRuntime.t :=
  foldl (handle start) r polls.
End follow.

(** *** One event *)

Lemma deliver_play s e : (deliver s e).2 = play s e.
Proof. unfold deliver, play. destruct (validate s e); [|done]. by destruct (apply s e). Qed.
Lemma deliver_Ok s e :
  (is_ok (validate s e) = true → is_ok (apply s e).1 = true) →
  ∃ x, deliver s e = (Ok x, play s e) ∧ receipt_app x = event_app e ∧ receipt_event x = event_id e.
Proof.
  unfold deliver, play. destruct (validate s e) as [u|err]; [|intros _; by eexists].
  intros Ha. specialize (Ha eq_refl). destruct (apply s e) as [[x|err] s']; [by eexists|done].
Qed.
Lemma deliver_receipt s e x :
  (deliver s e).1 = Ok x → receipt_app x = event_app e ∧ receipt_event x = event_id e.
Proof.
  unfold deliver. destruct (validate s e) as [u|err]; [|by intros [= <-]].
  destruct (apply s e) as [[y|err] s']; [by intros [= <-]|done].
Qed.

(** The outcomes of an event: nothing happens, or its application changes and a
    receipt is recorded, or is not. *)
Lemma process_event_cases r e :
  (event_id e ∈ processed_event_ids r ∨ apps r !! event_app e = None) ∧ (process_event r e).2 = r ∨
  ∃ s, event_id e ∉ processed_event_ids r ∧ apps r !! event_app e = Some s ∧
    let r' := set_apps r (<[event_app e := play s e]> (apps r)) in
    (process_event r e).2 = match (deliver s e).1 with
      | Ok receipt => record_processed_event r' e receipt
      | Err _ => r'
      end.
Proof.
  unfold process_event. case_decide as Hp; [left; by split; [left|]|].
  destruct (apps r !! event_app e) as [s|] eqn:Es; [|left; by split; [right|]].
  right. exists s. rewrite <-deliver_play. split_and!; [done..|]. by destruct (deliver s e) as [[]].
Qed.
Lemma process_events_cons r e events :
  (process_events r (e :: events)).2 = (process_events (process_event r e).2 events).2.
Proof.
  cbn [process_events]. destruct (process_event r e) as [x r1]. cbn [snd].
  by destruct (process_events r1 events).
Qed.

(** *** The recorded receipts *)

Record tidy r : Prop := {
  tidy_once : NoDup (receipt_order r);
  tidy_ids id : id ∈ receipt_order r → id ∈ processed_event_ids r;
  tidy_receipts id : id ∈ receipt_order r → is_Some (receipts_by_id r !! id)
}.

Lemma record_tidy r e x :
  tidy r → event_id e ∉ processed_event_ids r →
  tidy (record_processed_event r e x) ∧ receipts (record_processed_event r e x) = receipts r ++ [x].
Proof.
  intros [Hnd Hids Hrec] Hn. assert (event_id e ∉ receipt_order r) as Hno by auto. split; [split|].
  - cbn. apply NoDup_app. split_and!; [done| |by apply NoDup_singleton].
    by intros id Hid ->%list_elem_of_singleton.
  - cbn. intros id [?| ->%list_elem_of_singleton]%elem_of_app; set_solver.
  - cbn. intros id [?| ->%list_elem_of_singleton]%elem_of_app; [|rewrite lookup_insert_eq; by eexists].
    destruct (decide (id = event_id e)) as [->|]; [done|]. rewrite lookup_insert_ne by done. auto.
  - unfold receipts. cbn. rewrite omap_app. cbn. rewrite lookup_insert_eq. f_equal.
    clear Hnd Hids Hrec. induction (receipt_order r) as [|id l IH]; [done|]. cbn.
    rewrite lookup_insert_ne by (intros <-; apply Hno; by left). rewrite IH by (intros ?; apply Hno; by right).
    done.
Qed.
Lemma process_event_tidy r e : tidy r → tidy (process_event r e).2.
Proof.
  intros Ht. destruct (process_event_cases r e) as [[_ ->]|(s & Hn & _ & ->)]; [done|].
  assert (tidy (set_apps r (<[event_app e := play s e]> (apps r)))) as Ht' by (by destruct Ht).
  destruct (deliver s e).1; [|done]. by apply record_tidy.
Qed.

(** *** The replay of the applications [A], which never fail

    What other applications do, and whether they fail, is not seen by them. *)

Section replay.
Context `{AB : !AnchorBlind}.
Context (r0 : AppRuntime.t) (A : gset AppId) (all : list AppEvent)
  (Hdistinct : NoDup (event_id <$> all))
  (HA : ∀ a, a ∈ A → ∃ s0, apps r0 !! a = Some s0 ∧ applies s0 (filter (λ e, event_app e = a) all)).
#[local] Set Default Proof Using "All".

Definition theirs : list AppEvent → list AppEvent := filter (λ e, event_app e ∈ A).

(** The first [n] of their events were replayed. *)
Record replayed (n : nat) r : Prop := {
  replayed_tidy : tidy r;
  replayed_apps a s0 : a ∈ A → apps r0 !! a = Some s0 → ∃ s, apps r !! a = Some s ∧
    app_sim (foldl play s0 (filter (λ e, event_app e = a) (take n (theirs all)))) s;
  replayed_receipts : receipt_event <$> filter (λ x, receipt_app x ∈ A) (receipts r) =
    event_id <$> take n (theirs all);
  replayed_ids i e : theirs all !! i = Some e → event_id e ∈ processed_event_ids r ↔ i < n
}.

Lemma theirs_in i e : theirs all !! i = Some e → event_app e ∈ A ∧ e ∈ all.
Proof. intros H0%list_elem_of_lookup_2. by apply list_elem_of_filter in H0. Qed.
Lemma same_id e e' : e ∈ all → e' ∈ all → event_id e = event_id e' → e = e'.
Proof.
  intros [i Hi]%list_elem_of_lookup [j Hj]%list_elem_of_lookup E.
  assert (i = j) as ->; [|congruence]. eapply (NoDup_lookup (event_id <$> all)); [done|..];
    rewrite list_lookup_fmap; [by rewrite Hi|]. rewrite Hj. cbn. by rewrite E.
Qed.

(** An event of another application. *)
Lemma replay_other n r e e' :
  e ∈ all → event_app e ∉ A → same_event e e' → replayed n r → replayed n (process_event r e').2.
Proof.
  intros He Ha Hs [Ht Happs Hrec Hids]. rewrite (same_event_app _ _ Hs) in Ha.
  split; [by apply process_event_tidy|..];
    destruct (process_event_cases r e') as [[_ ->]|(s & Hn & Es & ->)]; try done.
  - intros a s0 HaA Hs0. destruct (Happs a s0 HaA Hs0) as (s1 & Hs1 & Hsim). exists s1. split; [|done].
    assert ((<[event_app e' := play s e']> (apps r)) !! a = Some s1) as Hl
      by (rewrite lookup_insert_ne; [done|]; by intros <-).
    by destruct (deliver s e').1.
  - destruct (deliver s e').1 as [x|err] eqn:Ed; [|done]. apply deliver_receipt in Ed as [Ex _].
    assert (tidy (set_apps r (<[event_app e' := play s e']> (apps r)))) as Ht' by (by destruct Ht).
    destruct (record_tidy _ e' x Ht' Hn) as [_ ->]. rewrite filter_app, filter_cons_False, app_nil_r by congruence.
    exact Hrec.
  - intros i x Hx. destruct (theirs_in i x Hx) as [HxA Hin]. rewrite <-(Hids i x Hx).
    destruct (deliver s e').1 as [y|err]; [|done]. cbn. rewrite elem_of_union, elem_of_singleton.
    split; [|by right]. intros [E|?]; [|done]. rewrite <-(same_event_id _ _ Hs) in E.
    apply same_id in E as ->; [|done..]. by rewrite (same_event_app _ _ Hs) in HxA.
Qed.

Lemma play_sim s s' e e' : app_sim s s' → same_event e e' → app_sim (play s e) (play s' e').
Proof.
  intros Hs He. unfold play. rewrite (validate_sim _ _ _ _ Hs He).
  destruct (validate s' e'); [by apply apply_sim|done].
Qed.

Lemma their_place pre e post (n := length (theirs pre)) :
  all = pre ++ e :: post → event_app e ∈ A →
  take n (theirs all) = theirs pre ∧ theirs all !! n = Some e ∧
  take (S n) (theirs all) = theirs pre ++ [e].
Proof.
  intros Eall Ha. assert (theirs all = theirs pre ++ e :: theirs post) as E.
  { rewrite Eall. unfold theirs. by rewrite filter_app, filter_cons_True. }
  assert (take n (theirs all) = theirs pre) as Etake by (unfold n; by rewrite E, take_app_length).
  assert (theirs all !! n = Some e) as Hn by (unfold n; rewrite E; by apply list_lookup_middle).
  split_and!; [done..|]. by rewrite (take_S_r _ _ _ Hn), Etake.
Qed.

(** Their next event. *)
Lemma replay_next r pre e post e' (n := length (theirs pre)) :
  all = pre ++ e :: post → event_app e ∈ A → same_event e e' → replayed n r →
  replayed (S n) (process_event r e').2.
Proof.
  intros Eall Ha Hs [Ht Happs Hrec Hids].
  destruct (their_place pre e post Eall Ha) as (Etake & Hn & EtakeS). fold n in Etake, Hn, EtakeS.
  rewrite Etake in Happs, Hrec.
  destruct (HA (event_app e) Ha) as (s0 & Hs0 & Happly).
  destruct (Happs _ _ Ha Hs0) as (s & Es & Hsim). unfold theirs in Hsim.
  rewrite list_filter_filter_l in Hsim by (by intros x ->).
  rewrite Eall, filter_app, filter_cons_True in Happly by done.
  assert (event_id e' ∉ processed_event_ids r) as Hnew.
  { rewrite <-(same_event_id _ _ Hs), (Hids n e Hn). lia. }
  destruct (deliver_Ok s e') as (x & Ed & Ex & Exid).
  { rewrite <-(validate_sim _ _ _ _ Hsim Hs), <-(apply_ok_sim _ _ _ _ Hsim Hs). by eapply applies_at. }
  rewrite (same_event_app _ _ Hs) in Es, Ha.
  destruct (process_event_cases r e') as [[[?|?] _]|(s' & _ & Es' & ->)]; [done|congruence|].
  rewrite Es in Es'. injection Es' as <-. rewrite Ed. cbn [fst].
  assert (tidy (set_apps r (<[event_app e' := play s e']> (apps r)))) as Ht' by (by destruct Ht).
  destruct (record_tidy _ e' x Ht' Hnew) as [Htidy Ereceipts]. split; [done|..].
  - intros a s1 HaA Hs1. cbn. rewrite EtakeS. rewrite filter_app, foldl_app.
    destruct (decide (event_app e' = a)) as [<-|Hne].
    + rewrite lookup_insert_eq. exists (play s e'). split; [done|].
      rewrite filter_cons_True by by apply same_event_app. cbn. apply play_sim; [|done].
      rewrite <-(same_event_app _ _ Hs) in Hs1 |- *. rewrite Hs0 in Hs1. injection Hs1 as <-. unfold theirs.
      by rewrite list_filter_filter_l by (intros y ->; by rewrite (same_event_app _ _ Hs)).
    + rewrite lookup_insert_ne by done. rewrite filter_cons_False; [by apply Happs|].
      by rewrite (same_event_app _ _ Hs).
  - rewrite Ereceipts, EtakeS, filter_app, !fmap_app, filter_cons_True by congruence. cbn.
    rewrite Exid, (same_event_id _ _ Hs). f_equal. exact Hrec.
  - intros i y Hy. cbn. rewrite elem_of_union, elem_of_singleton, (Hids i y Hy).
    destruct (decide (i = n)) as [->|Hne].
    + assert (y = e) as -> by congruence. rewrite (same_event_id _ _ Hs). split; [lia|by left].
    + split; [|lia]. intros [E|?]; [|lia]. exfalso. apply Hne.
      rewrite <-(same_event_id _ _ Hs) in E. apply same_id in E as ->; [|by eapply theirs_in..].
      eapply (NoDup_lookup (theirs all)); [|done..]. apply NoDup_filter. by eapply NoDup_fmap_1.
Qed.

(** Part of the events, of which some were replayed. *)
Lemma replay_events mid events : Forall2 same_event mid events → ∀ pre post n r,
  all = pre ++ mid ++ post → length (theirs pre) ≤ n → replayed n r →
  replayed (n `max` length (theirs (pre ++ mid))) (process_events r events).2.
Proof.
  induction 1 as [|e e' mid events Hs _ IH]; intros pre post n r Eall Hle Hr.
  { rewrite app_nil_r, Nat.max_l by done. exact Hr. }
  rewrite process_events_cons.
  assert (all = (pre ++ [e]) ++ mid ++ post) as Eall' by (by rewrite Eall, <-app_assoc).
  assert (pre ++ e :: mid = (pre ++ [e]) ++ mid) as -> by (by rewrite <-app_assoc).
  assert (e ∈ all) as He by (rewrite Eall; apply elem_of_app; right; left).
  destruct (decide (event_app e ∈ A)) as [Ha|Ha].
  2:{ eapply IH; [done| |by eapply replay_other]. unfold theirs in *.
      by rewrite filter_app, filter_cons_False, app_nil_r. }
  assert (length (theirs (pre ++ [e])) = S (length (theirs pre))) as El
    by (unfold theirs; by rewrite filter_app, filter_cons_True, length_app, Nat.add_1_r).
  destruct (decide (n = length (theirs pre))) as [->|Hne].
  - pose proof (replay_next r pre e (mid ++ post) e' Eall Ha Hs Hr) as Hr'.
    specialize (IH (pre ++ [e]) post _ _ Eall' (Nat.eq_le_incl _ _ El) Hr').
    assert (S (length (theirs pre)) ≤ length (theirs ((pre ++ [e]) ++ mid)))
      by (rewrite <-El; unfold theirs; rewrite (filter_app _ (pre ++ [e]) mid), length_app; lia).
    rewrite Nat.max_r in IH by lia. rewrite Nat.max_r by lia. exact IH.
  - assert ((process_event r e').2 = r) as ->; [|eapply IH; [done|lia|done]].
    destruct (their_place pre e (mid ++ post) Eall Ha) as (_ & Hn & _).
    pose proof (proj2 (replayed_ids _ _ Hr _ _ Hn) ltac:(lia)) as Hp.
    rewrite (same_event_id _ _ Hs) in Hp. unfold process_event. by rewrite decide_True.
Qed.

End replay.

(** *** What a poll extracts *)

Section polls.
Context `{AppEventEnvelope.SerdeJson} `{HexCrate} `{Sha256}.

Definition place : Type := list byte * nat * ExtractableAppDeploy.
(** The deploys of the blocks, with their places. *)
Definition placed (table : gmap (list byte) (list ExtractableAppDeploy))
    (blocks : list BlockIdentity) : list place :=
  blocks ≫= λ b, imap (λ j d, (vec_to_list (content_hash b), j, d))
    (default [] (table !! vec_to_list (content_hash b))).
Definition numbered (start : N) (anchor : list byte) (n : nat) (places : list place) :
    list AppEvent :=
  imap (λ i p, event_of anchor p.1.1 p.1.2 p.2 (start + N.of_nat (n + i))) places.

Lemma numbered_cons start anchor n p places :
  numbered start anchor n (p :: places) =
    event_of anchor p.1.1 p.1.2 p.2 (start + N.of_nat n) :: numbered start anchor (S n) places.
Proof.
  unfold numbered. rewrite imap_cons, Nat.add_0_r. f_equal. apply imap_ext. intros. cbn. do 2 f_equal. lia.
Qed.
Lemma numbered_app start anchor n l k :
  numbered start anchor n (l ++ k) = numbered start anchor n l ++ numbered start anchor (n + length l) k.
Proof.
  revert n. induction l as [|p l IH]; intros n; [by rewrite Nat.add_0_r|].
  rewrite <-app_comm_cons, !numbered_cons, IH. cbn [app length]. by rewrite Nat.add_succ_r.
Qed.
Lemma numbered_same start anchor anchor' n places :
  Forall2 same_event (numbered start anchor n places) (numbered start anchor' n places).
Proof.
  revert n. induction places as [|p places IH]; intros n; [constructor|].
  rewrite !numbered_cons. by constructor.
Qed.

Lemma extract_deploys_Ok start anchor h j deploys events out :
  extract_deploys start anchor h j deploys events = Ok out →
  out = events ++ numbered start anchor (length events) (imap (λ i d, (h, j + i, d)) deploys).
Proof.
  revert j events. induction deploys as [|d deploys IH]; intros j events; cbn [extract_deploys].
  { intros [= <-]. by rewrite app_nil_r. }
  intros (i & Hi & E)%result_bind_Ok. apply ok_or_Ok, checked_add_Some in Hi as [-> _].
  apply IH in E as ->. rewrite <-app_assoc. f_equal. rewrite imap_cons, numbered_cons, Nat.add_0_r. cbn [app].
  f_equal. rewrite length_app, Nat.add_1_r. f_equal. apply imap_ext. intros. cbn. do 2 f_equal. lia.
Qed.
Lemma extract_blocks_Ok start anchor table blocks events out :
  extract_blocks start anchor table blocks events = Ok out →
  out = events ++ numbered start anchor (length events) (placed table blocks) ∧
  ∀ b, b ∈ blocks → is_Some (table !! vec_to_list (content_hash b)).
Proof.
  revert events. induction blocks as [|b blocks IH]; intros events; cbn [extract_blocks].
  { intros [= <-]. split; [by rewrite app_nil_r|]. by intros b ?%elem_of_nil. }
  cbn zeta. intros (deploys & Ht%ok_or_Ok & (events' & E%extract_deploys_Ok & [-> Hall]%IH)%result_bind_Ok)%result_bind_Ok.
  subst events'. split.
  - unfold placed. cbn [mbind list_bind]. rewrite Ht. cbn [default]. rewrite numbered_app, app_assoc.
    do 2 f_equal. unfold numbered. by rewrite length_app, length_imap.
  - intros b' [->|Hb]%elem_of_cons; [by eexists|by apply Hall].
Qed.

Definition app_deploys (deploys : list BlockTranslation.ProcessedDeploy) : list ExtractableAppDeploy :=
  omap (λ d, match AppEventEnvelope.parse_app_deploy_envelope (BlockTranslation.deploy d) with
             | Ok (Some app_deploy) => Some app_deploy
             | _ => None
             end) deploys.
Lemma scan_deploys_fst h i deploys found errors :
  (AppEventBlockScan.scan_deploys h i deploys found errors).1 = found ++ app_deploys deploys.
Proof.
  revert i found errors. induction deploys as [|d deploys IH]; intros i found errors; [by rewrite app_nil_r|].
  unfold app_deploys. cbn [AppEventBlockScan.scan_deploys omap list_omap]. fold (app_deploys deploys).
  destruct (AppEventEnvelope.parse_app_deploy_envelope _) as [[d'|]|e]; rewrite IH; [by rewrite <-app_assoc|done..].
Qed.
Lemma scan_blocks_lookup blocks seen acc scan h deploys :
  AppEventBlockScan.scan_blocks blocks seen acc = Ok scan →
  AppEventBlockScan.deploys_by_block_hash scan !! h = Some deploys →
  AppEventBlockScan.deploys_by_block_hash acc !! h = Some deploys ∨
  ∃ m, m ∈ blocks ∧ BlockTranslation.block_hash m = h ∧
    deploys = app_deploys (BlockTranslation.deploys (BlockTranslation.body m)).
Proof.
  revert seen acc. induction blocks as [|m blocks IH]; intros seen acc; cbn [AppEventBlockScan.scan_blocks].
  { intros [= <-]. by left. }
  intros [_ E]%bail_Ok Hl. destruct (IH _ _ E Hl) as [Hacc|(m' & Hm' & Hh & ->)].
  - cbn in Hacc. apply lookup_insert_Some in Hacc as [[<- <-]|[_ Hacc]]; [right|by left].
    exists m. split; [by left|]. split; [done|]. by rewrite scan_deploys_fst.
  - right. exists m'. split; [by right|done].
Qed.

Lemma scan_blocks_once blocks seen acc scan :
  AppEventBlockScan.scan_blocks blocks seen acc = Ok scan →
  NoDup (BlockTranslation.block_hash <$> blocks) ∧
  ∀ m, m ∈ blocks → BlockTranslation.block_hash m ∉ seen.
Proof.
  revert seen acc. induction blocks as [|m blocks IH]; intros seen acc; cbn [AppEventBlockScan.scan_blocks].
  { intros _. split; [constructor|]. by intros m ?%elem_of_nil. }
  intros [Hm [Hnd Hn]%IH]%bail_Ok. split.
  - rewrite fmap_cons. constructor; [|done]. intros (m' & E & Hm')%list_elem_of_fmap.
    apply (Hn m' Hm'). rewrite <-E. set_solver.
  - intros m' [->|Hm']%elem_of_cons; [done|]. specialize (Hn m' Hm'). set_solver.
Qed.

(** A successful poll, with the deploys its table was made of. *)
Lemma extraction_Ok output blocks start extraction :
  AppEventPipeline.extract_app_events_from_blocks output blocks start = Ok extraction →
  ∃ table, AppEventPipeline.events extraction =
      numbered start (default [] (OrderedFinalizedOutput.anchor_hash output)) 0
        (placed table (OrderedFinalizedOutput.blocks output)) ∧
    (∀ b, b ∈ OrderedFinalizedOutput.blocks output → is_Some (table !! vec_to_list (content_hash b))) ∧
    ∀ h deploys, table !! h = Some deploys → ∃ m, m ∈ blocks ∧ BlockTranslation.block_hash m = h ∧
      deploys = app_deploys (BlockTranslation.deploys (BlockTranslation.body m)).
Proof.
  unfold AppEventPipeline.extract_app_events_from_blocks.
  intros (scan & Hs%map_err_Ok & (events & He%map_err_Ok & [= <-])%result_bind_Ok)%result_bind_Ok.
  apply extract_blocks_Ok in He as [He Hall]. cbn in He, Hall.
  exists (AppEventBlockScan.deploys_by_block_hash scan). split; [exact He|]. split; [exact Hall|].
  intros h deploys Hl. destruct (scan_blocks_lookup _ _ _ _ _ _ Hs Hl) as [Hn|Hm]; [|done].
  cbn in Hn. by rewrite lookup_empty in Hn.
Qed.

Lemma placed_ext table table' blocks :
  (∀ b, b ∈ blocks → table !! vec_to_list (content_hash b) = table' !! vec_to_list (content_hash b)) →
  placed table blocks = placed table' blocks.
Proof.
  unfold placed. induction blocks as [|b blocks IH]; intros Hb; [done|]. cbn [mbind list_bind].
  rewrite Hb by by left. f_equal. apply IH. intros b' Hb'. apply Hb. by right.
Qed.
Lemma placed_app table l k : placed table (l ++ k) = placed table l ++ placed table k.
Proof. unfold placed. by rewrite bind_app. Qed.

(** The blocks of a poll are the first ones of a later poll, and the messages
    of a block agree. *)
Definition earlier_poll (p later : poll) : Prop :=
  OrderedFinalizedOutput.blocks p.1 `prefix_of` OrderedFinalizedOutput.blocks later.1 ∧
  ∀ m m', m ∈ p.2 → m' ∈ later.2 →
    BlockTranslation.block_hash m = BlockTranslation.block_hash m' →
    BlockTranslation.body m = BlockTranslation.body m'.

(** Its events are the first ones of the later poll, up to their anchor. *)
Lemma earlier_events start p later events later_events :
  earlier_poll p later →
  AppEventPipeline.extract_app_events_from_blocks p.1 p.2 start = Ok events →
  AppEventPipeline.extract_app_events_from_blocks later.1 later.2 start = Ok later_events →
  ∃ all n, Forall2 same_event (AppEventPipeline.events later_events) all ∧
    AppEventPipeline.events events = take n all.
Proof.
  intros [[rest Hpre] Hbody] (tp & Ep & Hp & Hmp)%extraction_Ok (tl & El & Hl & Hml)%extraction_Ok.
  set (anchor := default [] (OrderedFinalizedOutput.anchor_hash p.1)) in *.
  assert (placed tp (OrderedFinalizedOutput.blocks p.1) = placed tl (OrderedFinalizedOutput.blocks p.1)) as Hext.
  { apply placed_ext. intros b Hb. destruct (Hp b Hb) as [d Hd].
    destruct (Hl b) as [d' Hd']; [rewrite Hpre; apply elem_of_app; by left|].
    destruct (Hmp _ _ Hd) as (m & Hm & Eh & ->), (Hml _ _ Hd') as (m' & Hm' & Eh' & ->).
    rewrite Hd, Hd'. by rewrite (Hbody m m' Hm Hm') by congruence. }
  exists (numbered start anchor 0 (placed tl (OrderedFinalizedOutput.blocks later.1))).
  exists (length (placed tl (OrderedFinalizedOutput.blocks p.1))).
  split; [rewrite El; apply numbered_same|]. rewrite Ep, Hext, Hpre, placed_app, numbered_app.
  rewrite take_app_length'; [done|]. unfold numbered. by rewrite length_imap.
Qed.

(** The deploys of a finalized block, from its message. *)
Definition deploys_of (messages : list BlockTranslation.BlockMessage) (b : BlockIdentity) :
    list ExtractableAppDeploy :=
  match list_find (λ m, BlockTranslation.block_hash m = vec_to_list (content_hash b)) messages with
  | Some (_, m) => app_deploys (BlockTranslation.deploys (BlockTranslation.body m))
  | None => []
  end.
Definition finalized_deploys (p : poll) : list place :=
  OrderedFinalizedOutput.blocks p.1 ≫= λ b,
    imap (λ j d, (vec_to_list (content_hash b), j, d)) (deploys_of p.2 b).

Lemma poll_events p start extraction :
  AppEventPipeline.extract_app_events_from_blocks p.1 p.2 start = Ok extraction →
  AppEventPipeline.events extraction =
    numbered start (default [] (OrderedFinalizedOutput.anchor_hash p.1)) 0 (finalized_deploys p).
Proof.
  intros Hx. pose proof Hx as (table & -> & Hall & Hm)%extraction_Ok. f_equal.
  assert (NoDup (BlockTranslation.block_hash <$> p.2)) as Hnd.
  { apply result_bind_Ok in Hx as (scan & Hs%map_err_Ok & _). by apply scan_blocks_once in Hs as [? _]. }
  unfold placed, finalized_deploys.
  assert (∀ b, b ∈ OrderedFinalizedOutput.blocks p.1 →
    default [] (table !! vec_to_list (content_hash b)) = deploys_of p.2 b) as Hb.
  { intros b [d Hd]%Hall. pose proof Hd as (m & Hin & Eh & ->)%Hm. rewrite Hd. cbn. unfold deploys_of.
    destruct (list_find _ p.2) as [[k m']|] eqn:E.
    - apply list_find_Some in E as (Hk & Eh' & _). apply list_elem_of_lookup in Hin as [k' Hk'].
      assert (k = k') as <-; [|congruence]. apply (NoDup_lookup _ _ _ (BlockTranslation.block_hash m) Hnd);
        rewrite list_lookup_fmap; [rewrite Hk; cbn; congruence|by rewrite Hk'].
    - apply list_find_None in E. rewrite Forall_forall in E. by destruct (E m Hin). }
  clear Hx Hall Hm Hnd. induction (OrderedFinalizedOutput.blocks p.1) as [|b l IH]; [done|].
  cbn. rewrite Hb by by left. f_equal. apply IH. intros b' ?. apply Hb. by right.
Qed.

(** *** The identifiers of events *)

Definition place_id (x : place) : AppEventId := event_id_for x.1.1 x.1.2 x.2.
Definition place_bytes (x : place) : list byte := event_bytes x.1.1 x.1.2 x.2.
Lemma put_bytes_field v : fits v → put_bytes v = Crypto.le_field v.
Proof.
  unfold fits. intros Hv. unfold put_bytes, put_u64, Crypto.le_field. f_equal. f_equal.
  apply N.mod_small. unfold u64_max in Hv. lia.
Qed.
Lemma place_hash_fits p x : x ∈ finalized_deploys p → fits x.1.1.
Proof.
  intros (b & Hx & _)%list_elem_of_bind. apply elem_of_lookup_imap in Hx as (i & d & -> & _). unfold fits.
  cbn [fst]. by rewrite length_vec_to_list.
Qed.
Lemma place_bytes_inj p x y :
  x ∈ finalized_deploys p → y ∈ finalized_deploys p →
  (N.of_nat x.1.2 <= u64_max)%N → (N.of_nat y.1.2 <= u64_max)%N →
  place_bytes x = place_bytes y → x.1 = y.1.
Proof.
  intros Fx%place_hash_fits Fy%place_hash_fits Ix Iy. unfold place_bytes, event_bytes.
  rewrite !(put_bytes_field _ Fx), !(put_bytes_field _ Fy).
  intros E%app_inv_head. apply le_field_app_inj in E as [Eh E]; [|done..].
  unfold put_u64 in E. rewrite !N.mod_small in E by (unfold u64_max in *; lia).
  apply le64_app_inj in E as [Ei _]; [|done..]. destruct x as [[h i] d], y as [[h' i'] d']. cbn in *.
  f_equal; [done|lia].
Qed.

Lemma finalized_deploys_once p :
  NoDup (content_hash <$> OrderedFinalizedOutput.blocks p.1) → NoDup (fst <$> finalized_deploys p).
Proof.
  unfold finalized_deploys. induction (OrderedFinalizedOutput.blocks p.1) as [|b l IH]; [constructor|].
  rewrite fmap_cons. intros [Hb Hnd]%NoDup_cons. cbn [mbind list_bind]. rewrite fmap_app.
  apply NoDup_app. split_and!; [| |by apply IH].
  - apply NoDup_alt. intros i j x. rewrite !list_lookup_fmap, !list_lookup_imap.
    destruct (deploys_of p.2 b !! i), (deploys_of p.2 b !! j); cbn; try done. by intros [= <-] [= ?].
  - intros x (y & -> & Hy)%list_elem_of_fmap (z & Ez & Hz)%list_elem_of_fmap. apply Hb.
    apply list_elem_of_bind in Hz as (b' & Hz & Hb').
    apply elem_of_lookup_imap in Hy as (i & d & -> & _), Hz as (i' & d' & -> & _). cbn in Ez.
    injection Ez as E _. apply vec_to_list_inj2 in E as ->. by apply list_elem_of_fmap_2.
Qed.

Lemma numbered_ids start anchor n places : event_id <$> numbered start anchor n places = place_id <$> places.
Proof.
  revert n. induction places as [|x places IH]; intros n; [done|]. rewrite numbered_cons. cbn. by rewrite IH.
Qed.

(** The identifiers of the events of a poll are distinct when no two of the
    byte strings that they are hashes of collide. *)
Lemma poll_ids_once p start anchor :
  NoDup (content_hash <$> OrderedFinalizedOutput.blocks p.1) →
  (∀ x, x ∈ finalized_deploys p → (N.of_nat x.1.2 <= u64_max)%N) →
  (∀ x y, x ∈ finalized_deploys p → y ∈ finalized_deploys p → place_id x = place_id y →
     place_bytes x = place_bytes y) →
  NoDup (event_id <$> numbered start anchor 0 (finalized_deploys p)).
Proof.
  intros Hnd%finalized_deploys_once Hfits Hcoll. rewrite numbered_ids. apply NoDup_alt. intros i j id.
  rewrite !list_lookup_fmap. destruct (finalized_deploys p !! i) as [x|] eqn:Ei; [|done].
  destruct (finalized_deploys p !! j) as [y|] eqn:Ej; [|done]. intros [= <-] [= E].
  pose proof (list_elem_of_lookup_2 _ _ _ Ei). pose proof (list_elem_of_lookup_2 _ _ _ Ej).
  assert (∀ k z, finalized_deploys p !! k = Some z → (fst <$> finalized_deploys p) !! k = Some z.1) as Hl
    by (intros k z Hz; rewrite list_lookup_fmap; exact (f_equal (fmap fst) Hz)).
  apply (NoDup_lookup (fst <$> finalized_deploys p) i j x.1 Hnd (Hl _ _ Ei)). rewrite (Hl _ _ Ej).
  f_equal. symmetry. eapply place_bytes_inj; eauto.
Qed.

Lemma follow_polls start r0 A polls later extraction n r `{AB : !AnchorBlind}
    (all := AppEventPipeline.events extraction) :
  NoDup (event_id <$> all) →
  (∀ a, a ∈ A → ∃ s0, apps r0 !! a = Some s0 ∧ applies s0 (filter (λ e, event_app e = a) all)) →
  AppEventPipeline.extract_app_events_from_blocks later.1 later.2 start = Ok extraction →
  (∀ p, p ∈ polls → earlier_poll p later) →
  replayed r0 A all n r → ∃ n', n ≤ n' ∧ replayed r0 A all n' (follow r start polls).
Proof.
  intros Hnd HA El. revert n r. induction polls as [|p polls IH]; intros n r Hpolls Hr; [by exists n|].
  change (follow r start (p :: polls)) with (follow (handle start r p) start polls).
  assert (∀ q, q ∈ polls → earlier_poll q later) as Hpolls' by (intros q Hq; apply Hpolls; by right).
  unfold handle. destruct (AppEventPipeline.extract_app_events_from_blocks p.1 p.2 start) as [events|e] eqn:Ep;
    [|by apply IH].
  destruct (earlier_events start p later events extraction) as (all' & k & Hall & ->); [|done..|].
  { apply Hpolls. by left. }
  assert (Forall2 same_event (take k all) (take k all')) as Hk by by apply Forall2_take.
  pose proof (replay_events r0 A all Hnd HA _ _ Hk [] (drop k all) n r) as Hr'.
  specialize (Hr' ltac:(symmetry; apply take_drop) ltac:(cbn; lia) Hr).
  destruct (IH _ _ Hpolls' Hr') as (n' & Hle & ?). exists n'. split; [lia|done].
Qed.

Lemma registered_new applications :
  processed_event_ids (registered applications) = ∅ ∧ receipt_order (registered applications) = [].
Proof.
  unfold registered. assert (∀ r, processed_event_ids r = ∅ ∧ receipt_order r = [] →
    let r' := foldl (λ r app, (register_app r app).2) r applications in
    processed_event_ids r' = ∅ ∧ receipt_order r' = []) as Hall; [|by apply Hall].
  induction applications as [|app applications IH]; intros r Hr; [done|]. by apply IH.
Qed.
Lemma registered_replayed applications A all `{AB : !AnchorBlind} :
  replayed (registered applications) A all 0 (registered applications).
Proof.
  destruct (registered_new applications) as [Ep Eo]. split.
  - split; rewrite Eo; [constructor|by intros id ?%elem_of_nil..].
  - intros a s0 _ Hs0. by exists s0.
  - unfold receipts. by rewrite Eo.
  - intros i e _. rewrite Ep. split; [set_solver|lia].
Qed.

(** C40: however often and at whatever points the finalized output is polled
    while it grows, the events of the last poll are the deploys for applications
    in its blocks, in the finalized order and with distinct identifiers, and
    after it every application that never fails to apply an event it validated
    has a receipt for each of its events once, in that order, and is in the
    state that replaying them leads to, whatever other applications do.  This is
    for applications that do not act on the anchor of a poll, outputs without a
    repeated block, and event bytes of which no two collide. *)
Theorem applications_replay_the_finalized_history `{AB : !AnchorBlind}
    applications start polls later extraction (A : gset AppId)
    (r0 := registered applications) (r := follow r0 start (polls ++ [later]))
    (deploys := finalized_deploys later) (events := AppEventPipeline.events extraction) :
  (∀ p, p ∈ polls → earlier_poll p later) →
  AppEventPipeline.extract_app_events_from_blocks later.1 later.2 start = Ok extraction →
  NoDup (content_hash <$> OrderedFinalizedOutput.blocks later.1) →
  (∀ x, x ∈ deploys → (N.of_nat x.1.2 <= u64_max)%N) →
  (∀ x y, x ∈ deploys → y ∈ deploys → place_id x = place_id y → place_bytes x = place_bytes y) →
  (∀ a, a ∈ A → ∃ s0, apps r0 !! a = Some s0 ∧ applies s0 (filter (λ e, event_app e = a) events)) →
  events = numbered start (default [] (OrderedFinalizedOutput.anchor_hash later.1)) 0 deploys ∧
  NoDup (event_id <$> events) ∧ NoDup (receipt_order r) ∧
  receipt_event <$> filter (λ x, receipt_app x ∈ A) (receipts r) =
    event_id <$> filter (λ e, event_app e ∈ A) events ∧
  ∀ a s0, a ∈ A → apps r0 !! a = Some s0 → ∃ s, apps r !! a = Some s ∧
    app_sim (foldl play s0 (filter (λ e, event_app e = a) events)) s.
Proof.
  intros Hpolls El Hblocks Hfits Hcoll HA. pose proof (poll_events _ _ _ El) as Eev. fold events deploys in Eev.
  assert (NoDup (event_id <$> events)) as Hnd by (rewrite Eev; by apply poll_ids_once).
  destruct (follow_polls start r0 A polls later extraction 0 r0) as (n & _ & Hn);
    [done..|apply registered_replayed|].
  assert (Forall2 same_event events events) as Hrefl by reflexivity.
  pose proof (replay_events r0 A events Hnd HA _ _ Hrefl [] [] n _
    ltac:(by rewrite app_nil_r) ltac:(cbn; lia) Hn) as Hr.
  assert (follow r0 start (polls ++ [later]) = (process_events (follow r0 start polls) events).2) as Er.
  { unfold follow. rewrite foldl_app. cbn [foldl]. unfold handle at 1. by rewrite El. }
  rewrite <-Er in Hr. fold r in Hr. destruct Hr as [Ht Happs Hrec _]. cbn [app] in Happs, Hrec.
  rewrite take_ge in Hrec by lia. split_and!; [done..|apply Ht|exact Hrec|].
  intros a s0 Ha Hs0. destruct (Happs a s0 Ha Hs0) as (s & Hs & Hsim). exists s. split; [done|].
  rewrite take_ge in Hsim by lia. unfold theirs in Hsim. by rewrite list_filter_filter_l in Hsim by (by intros x ->).
Qed.
End polls.
End apps.

(** ** An instance *)

Module AppSample.
#[export] Instance display : Display AppError := λ _, EmptyString.
#[export] Instance sha : Sha256 := id.
#[export] Instance hex : HexCrate := {| hex_encode := id; hex_decode := Ok |}.
(** A term is an envelope: the application and the payload. *)
#[export] Instance json : AppEventEnvelope.SerdeJson := {|
  AppEventEnvelope.json_value := list byte;
  AppEventEnvelope.from_str := Ok;
  AppEventEnvelope.get value _ := if decide (value = []) then None else Some value;
  AppEventEnvelope.from_value value :=
    Ok (AppEventEnvelope.mkEnvelope 1 (take 1 value) (literal "post") (drop 1 value))
|}.

(** A log of the payloads that are not empty.  The application [x0b] fails to
    start with [x07]. *)
Definition log : Type := AppId * list (list byte).
#[export] Instance app : CordialApp := {|
  app_state := log;
  app_id := fst;
  validate _ e := if decide (event_payload e = []) then Err (ValidationRejected EmptyString) else Ok tt;
  apply s e :=
    if decide (s = ([x0b], []) ∧ event_payload e = [x07]) then (Err (ApplyFailed EmptyString), s)
    else (Ok (mkAppReceipt s.1 (event_id e) (ordered_index e) Applied None None),
          (s.1, s.2 ++ [event_payload e]));
  app_snapshot s := mkAppSnapshot s.1 None None []
|}.
#[export, program] Instance blind : AnchorBlind := {| app_sim := eq |}.
Next Obligation. intros s s' e e' _ He. unfold validate, app. by injection He as _ _ _ ->. Qed.
Next Obligation. intros s s' e e' <- He. unfold apply, app. by injection He as -> _ _ -> _ -> _ _. Qed.
Next Obligation. intros s s' e e' <- He. unfold apply, app. by injection He as -> _ _ -> _ -> _ _. Qed.

Definition deploy (term : list byte) : BlockTranslation.ProcessedDeploy :=
  BlockTranslation.mkProcessed (BlockTranslation.mkSignedDeploy
    (BlockTranslation.mkDeployData term 0 1 1 0 [] None) [x0a] [] []) 1 [] false None.
Definition message (h : byte) (terms : list (list byte)) : BlockTranslation.BlockMessage :=
  BlockTranslation.mkMessage (h :: replicate 31 x00) (BlockTranslation.mkHeader [] 0 1 [])
    (BlockTranslation.mkBody (BlockTranslation.mkState [] [] [] 0) (deploy <$> terms) [] [] [])
    [] [] 0 [] [] [] [].
Definition i1 := sample_id x01 x0a x01.
Definition i2 := sample_id x02 x0a x01.
Definition messages := [message x02 [[x0b; x07]; [x0a]; [x0c; x07]; [x0a; x08]; [x0b; x09]]; message x01 [[x0a; x05]; []]].

Definition p1 : poll := (OrderedFinalizedOutput.new 0 [i1] (Some i1) 3 1 1, messages).
Definition p2 : poll := (OrderedFinalizedOutput.new 0 [i1; i2] (Some i2) 3 1 2, messages).
Definition extracted : AppEventPipeline.AppEventExtraction :=
  or_default (AppEventPipeline.mkExtraction [] [])
    (AppEventPipeline.extract_app_events_from_blocks p2.1 p2.2 0).
Definition applications : list log := [([x0a], []); ([x0b], [])].

Lemma messages_agree m m' : m ∈ messages → m' ∈ messages →
  BlockTranslation.block_hash m = BlockTranslation.block_hash m' →
  BlockTranslation.body m = BlockTranslation.body m'.
Proof.
  unfold messages. rewrite !elem_of_cons, !elem_of_nil. by intros [->|[->|[]]] [->|[->|[]]].
Qed.
Lemma earlier : ∀ p, p ∈ [p1; p2; p1] → earlier_poll p p2.
Proof.
  assert (earlier_poll p1 p2) as H1 by (split; [by exists [consensus_identity i2]|exact messages_agree]).
  assert (earlier_poll p2 p2) as H2 by (split; [done|exact messages_agree]).
  intros p. rewrite !elem_of_cons, elem_of_nil. by intros [->|[->|[->|[]]]].
Qed.
Lemma positions_fit x : x ∈ finalized_deploys p2 → (N.of_nat x.1.2 <= u64_max)%N.
Proof. revert x. apply Forall_forall. decided. Qed.
End AppSample.

Section witness.
Import AppSample.

Lemma applications_replay_the_finalized_history_witness :
  let r := follow (registered applications) 0 ([p1; p2; p1] ++ [p2]) in
  NoDup (receipt_order r) ∧
  length (filter (λ x, receipt_app x ∈ ({[ [x0a] ]} : gset AppId)) (receipts r)) = 3 ∧
  apps r !! [x0a] = Some ([x0a], [[x05]; [x08]]).
Proof.
  destruct (applications_replay_the_finalized_history (CA := app) applications 0 [p1; p2; p1] p2 extracted
    {[ [x0a] ]}) as (_ & _ & Hnd & Hr & Ha).
  - exact earlier.
  - apply or_default_Ok. vm_compute. reflexivity.
  - decided.
  - exact positions_fit.
  - intros x y _ _ E. exact E.
  - intros a ->%elem_of_singleton. eexists. split; [vm_compute; reflexivity|]. vm_compute. tauto.
  - split; [exact Hnd|]. split.
    + rewrite <-(length_fmap receipt_event). etrans; [exact (f_equal length Hr)|]. vm_compute. reflexivity.
    + destruct (Ha [x0a] ([x0a], [])) as (s & Hs & Hsim); [set_solver|vm_compute; reflexivity|].
      etrans; [exact Hs|]. f_equal. etrans; [symmetry; exact Hsim|]. vm_compute. reflexivity.
Defined.

(** An event that fails to apply is not recorded.  The next poll delivers it
    again, after the later events of its application. *)
Example failed_events_are_retried_late :
  apps (follow (registered applications) 0 [p2; p2]) !! [x0b] = Some ([x0b], [[x09]; [x07]]).
Proof. vm_compute. reflexivity. Qed.
End witness.
